(* ===== verification/_CoqProject ===== *)
-Q . S2P
Prelude.v
Bytes.v
Nibble.v
Node.v
Tree.v
TreeSpec.v
TreeCorrect.v
Traversal.v
Binding.v
TreeCodec.v
VertexCommit.v
GlobalSchema.v
Pricing.v
Lifecycle.v
ProverOps.v
ProverCorrect.v
LeafRoots.v
ForkChoice.v
Difficulty.v
Fees.v
TurnQueue.v
TurnsCorrect.v
Circuit.v
CircuitCompile.v
CircuitCorrect.v
MultiplierCorrect.v
CompileCorrect.v
WiredGates.v
CircuitPipeline.v
Merkle.v
CoinTree.v
CoinTreeCorrect.v
ShardedTree.v
ShardedCorrect.v
CoinBlocks.v
ShardReports.v
ReportsCorrect.v
SummaryTree.v
SummaryCorrect.v
SummaryReports.v
ShardPaths.v
ShardRouting.v
AppRoot.v
Hypergraph.v
HypergraphSpec.v
HypergraphCommit.v
HypergraphCorrect.v
SizeBuckets.v
TreeStore.v
TreeStoreOrder.v
TreeStoreCorrect.v
StalePruning.v
LeafSweep.v
ForestKeys.v
Database.v
DatabaseCorrect.v
Overlay.v
OverlayDelta.v
OverlayCursor.v
OverlayReads.v
OverlayCorrect.v
Publication.v
OverlayDemo.v
