(* ===== verification/Prelude.v ===== *)
(** * Quilibrium monorepo: a verification development

    The program is a Rust node for a sharded network.  Its state lives in
    vector commitment trees (64-way prefix tries whose root commits to the
    contents); provers register on shards through vertices of a global
    hypergraph, each vertex being a small tree of named fields; the committee
    of a shard changes at epoch boundaries; provers earn an issuance that is
    split over rings of an allocation and charge fees set by a vote; frames are
    timed by a difficulty adjuster and chosen between by a scored fork choice;
    shard recoveries take turns through a queue; contracts compile to boolean
    circuits; the coins of the confidential token are leaves of an append-only
    hash tree, sharded by blocks of consecutive positions that the network's
    shards own.  The hypergraph itself is a set of vertices and one of hyperedges
    with tombstones, staged in memory and committed to a forest of versioned
    trees, one per shard and phase, whose roots fold to an application root; the
    forest keeps its nodes, values and indices in one ordered key-value store.
    Executions run on overlays of tentative writes over a snapshot of that store
    and are published only if nothing they touched has changed since.
    This library models those parts and proves what makes them correct.

    ** Parts, files and sources

    Paths are under [src/crates].  Definitions carry the names of the source;
    the name of a method that clashes with another carries its type or module.

    - [Prelude.v] (this file): results ([outcome]: [Ok], [Err], [Panic]), the
      state-and-error monad [st] of operations that mutate a tree in place,
      machine-width integers (wrapping, saturating and checked), tactics, hint
      databases and shared lemmas on lists and integers.
    - [Bytes.v]: bytes, big-endian integers, cursor reads as a parser monad, and
      the relation [reads] between a parser and the bytes a writer emits, from
      which all round trips are assembled.
    - [Nibble.v]: [quil-tries/src/nibble.rs], keys as paths of 6-bit nibbles.
    - [Node.v]: [quil-tries/src/node.rs], leaves and branches, polynomials and
      commitments; the traits [InclusionProver] and [Multiproof] of [quil-types]
      and SHA-512 as type classes.
    - [Tree.v]: [quil-tries/src/tree.rs], insert, get, delete, leaves, commit,
      [prove], [prove_multiple] and the proof's wire format.
    - [TreeSpec.v]: the well-formedness invariant [wf] of trees and the
      specification of each recursive operation.
    - [TreeCorrect.v]: the refinement of a tree to a finite map, canonicity of
      the shape, exact leaf counts, commit; and the behaviours on keys of mixed
      length that the refinement excludes.
    - [Traversal.v]: [quil-execution/src/traversal_proof.rs], the verifier of
      traversal proofs, and completeness of prover and verifier together.
    - [Binding.v]: what a root commitment and an accepted traversal proof say
      about the contents, when the hash and the prover are binding.
    - [TreeCodec.v]: [quil-tries/src/serialize.rs] and [go_format.rs], the
      encodings of trees and nodes.
    - [VertexCommit.v]: [quil-tries/src/vertex_commit.rs].
    - [GlobalSchema.v]: [quil-execution/src/global_schema.rs], the fields of
      global vertices and their keys.
    - [Pricing.v]: [quil-execution/src/pricing.rs], issuance and fees.
    - [Lifecycle.v]: [quil-types/src/consensus.rs], allocation records, epochs,
      effective status, member lists and census.
    - [ProverOps.v]: [quil-execution/src/global_intrinsic/materialize.rs] (the
      operations on prover and allocation vertices), [verify.rs] (their gates),
      and the decoding of an allocation vertex in
      [quil-execution/src/prover_registry.rs].
    - [ProverCorrect.v]: the contract of those operations and its consequences.
    - [LeafRoots.v]: the leaf-root registrations of [materialize.rs].
    - [ForkChoice.v], [Difficulty.v], [Fees.v]: [quil-engine/src/fork_choice.rs],
      [difficulty.rs] and [fees.rs].
    - [TurnQueue.v]: [quil-engine/src/recovery_turns.rs], the queue of shard
      recoveries, its load and saturation, kept places, and the system of waiters
      and holders as a step relation; [TurnsCorrect.v]: its theorems.
    - [Circuit.v]: [quil-compiler/src/circuits] ([wire.rs], [gates.rs],
      [allocator.rs], the generators of [compiler.rs], [multiplier.rs],
      [divider.rs]): operations on a compiler that allocate wires and emit gates,
      and the meaning of a gate list.
    - [CircuitCompile.v]: the passes of [circuits/compiler.rs] (constant
      propagation, pruning, numbering, topological sort) and the evaluator
      [Circuit::compute] of [circuit.rs].
    - [CircuitCorrect.v], [MultiplierCorrect.v]: the logic of gate emission (what
      a generator delivers on its result wires) and the generators' theorems.
    - [CompileCorrect.v], [WiredGates.v], [CircuitPipeline.v]: compilation
      preserves the meaning of gates, the generators emit compilable gates, and
      the two composed; the optimised pipeline of [ssa/circuitgen.rs].
    - [Merkle.v]: the leaf and node hashes of a coin tree as a type class
      [MembershipKey] ([quil-lattice-ct]'s [membership.rs] is behind it), with the
      reference tree [mnode]: the node over given leaves at a level and position.
    - [CoinTree.v]: [quil-lattice-ct/src/confidential/coin_tree.rs], the
      append-only frontier, its stored records, the index that serves paths, and
      sparse folding; [CoinTreeCorrect.v]: its theorems.
    - [ShardedTree.v]: [sharded_tree.rs] of the same directory, the tree of block roots
      above the coin trees, the paths through both; [ShardedCorrect.v].
    - [CoinBlocks.v]: [quil-execution/src/token_intrinsic/coin_blocks.rs], which blocks of positions a
      shard owns and where its next coin goes.
    - [ShardReports.v]: [token_intrinsic/shard_accumulator.rs] and the block
      summary of [roots.rs], the report a shard makes of its blocks, its bytes,
      and the fold of all reports to one root;
      [ReportsCorrect.v].
    - [SummaryTree.v]: [token_intrinsic/summary_tree.rs], the stored form of a
      shard's block roots: records in a keyed store with staged writes, updates of
      one leaf, replacement of a whole block's summary, the upgrade of a record of
      the earlier layout; [SummaryCorrect.v], [SummaryReports.v].
    - [ShardPaths.v]: [quil-forest/src/lib.rs], the bit paths of shards, their
      filters and routing, splits, and the fold of shard roots to an application
      root; [ShardRouting.v] and [AppRoot.v]: its theorems.
    - [Hypergraph.v]: [quil-hypergraph/src/crdt.rs] with the addressing of
      [quil-types] ([Location], Bloom-filter shard keys): batches of mutations,
      discard, commit to the forest, checked reads, the size buckets of shards and
      their record.  The store and the forest are the classes [HypergraphStore]
      and [ForestApi].
    - [HypergraphSpec.v]: the abstract two-phase sets, the laws of the interfaces
      ([LawfulForest]) and the effect of a batch; [HypergraphCommit.v]: the effect
      of a commit; [HypergraphCorrect.v]: the refinement; [SizeBuckets.v]: the size
      record, and a store and forest in memory that satisfy the laws.
    - [TreeStore.v]: [quil-forest/src/store.rs] ([RocksTreeStore]) and the tree
      identifiers of [lib.rs] and [forest.rs]: key layout, versioned reads,
      update batches, ordered pages of leaves, pruning of stale nodes and of
      shadowed values, clearing, over the iterator interface [KvStore] of
      [overlay.rs].
    - [TreeStoreOrder.v]: the byte order, the laws of an ordered store
      ([LawfulKv]) and the key spaces of a tree; [TreeStoreCorrect.v],
      [StalePruning.v], [LeafSweep.v]: reads, pruning, and pages and collection;
      [ForestKeys.v]: the trees of a forest side by side, and a store in memory
      that satisfies the laws.
    - [Database.v]: [quil-forest/src/database.rs], the write barrier of the database
      with its ledger of sequence numbers, sets of key prefixes, batches confined to
      prefixes, and the check that accepts an execution, over RocksDB as the class
      [RocksDb]; [DatabaseCorrect.v]: the laws [LawfulRocks], what a set contains,
      and that an accepted execution touched nothing written since its capture.
    - [Overlay.v]: [quil-forest/src/overlay.rs], the branch an execution runs on: its
      delta with limits, point reads, views, cursors in both directions over parked
      iterators, forks, publication.  [OverlayDelta.v]: a delta as a change of a map;
      [OverlayCursor.v], [OverlayReads.v], [OverlayCorrect.v]: cursors, reads, and
      every operation of a branch; [Publication.v]: whole executions;
      [OverlayDemo.v]: a database in memory and executions on it.

    The parts meet as the code's do: the prover operations write fields through
    the schema into trees, so their theorems rest on the tree's refinement to a
    map ([TreeCorrect]); what the registry decodes from a vertex is an allocation
    record of [Lifecycle], so the operations and the effective status compose in
    [ProverCorrect.lifecycle_two_boundaries]; the verifier of [Traversal] reads
    what [Tree.prove_multiple] writes; a coin's path is a path of its block
    ([CoinTree]) followed by a path over the block roots ([ShardedTree]), and the
    stored summary of [SummaryTree] reports the root that [ShardReports] folds.
    The hypergraph is proved against the laws of the forest, and the disjoint key
    spaces those laws ask for are what [ForestKeys] proves of the tree store's
    real keys; an overlay's plan goes through the database's barrier
    ([Overlay.commit]), and its theorems use the ledger's.

    ** What the theorems show

    - Trees.  Over a key space ([TreeCorrect.KeySpace]: no key's path is a prefix
      of another's; fixed-width addresses and vertex field keys are instances)
      any history of inserts and deletes refines the same history on a finite map
      ([tree_refines_map]), two histories with the same map have the same root
      commitment ([commit_history_independent]), every branch's leaf count is
      exact ([leaf_counts_exact]), deletion is specified on every branch
      ([delete_outcome]) and commit sums the sizes and keeps the contents
      ([commit_size_and_leaves]).  Outside a key space the code loses keys and
      whole trees ([prefix_key_lost], [failed_insert_empties_tree]).
    - Proofs.  Every proof the tree produces is accepted by the verifier, also
      through the wire format, and shows for every requested key the tree holds
      that key's path and leaf
      ([traversal_proofs_complete], [parse_traversal_proof_to_bytes]); a proof
      with one branch level is not checked ([single_level_proof_unchecked]).
      Conversely, when SHA-512 has no collision among the strings hashed and the
      prover's vector commitments are binding, a root commitment determines the
      values of a tree ([root_commitment_binds]) and a checked proof shows only
      leaves the tree holds ([traversal_proof_sound]).
    - Codecs.  The local, wire and per-node formats are lossless within the
      decoders' caps ([serialize_tree_round_trip], [serialize_go_tree_round_trip],
      [solo_round_trip]); the decoders admit trees that later panic
      ([decoded_prefix_panics_insert]); vertex commitments depend on the fields
      alone ([vertex_commitment_history_independent], [vertex_leaf_splits]).
    - Provers.  The operations refine the contract [alloc_spec]
      ([prover_ops_refine]); through the gates no data-shard allocation serves
      before the second boundary after its join nor departs without notice
      ([lifecycle_two_boundaries]), with the exact frames of activation and
      departure ([join_activates_at_boundary], [leave_departs_at_epoch]); kicks bar re-joining ([kicked_prover_barred]); rewards
      are credited exactly ([reward_credit_exact]); registrations keep the three
      highest epochs ([registration_keeps_highest], [sealing_touches_one_slot]).
    - Economics and timing.  The rings of an allocation do not pay more than its
      share, a fee budget covers every payload within its limit, the fee manager
      refines an abstract sliding window, proposed votes are accepted, the
      adjuster is total and monotone in time on sane inputs, and the fork choice
      is an epsilon-best choice that is stable.
    - Recovery turns.  Over every reachable state the free, held, lent and
      returning turns add up ([turns_conserved]); a turn that ends goes to the
      waiter the documented order names ([next_choice]); the longest waiter is
      passed over a bounded number of times ([bounded_bypass]); a kept place
      serves one claim ([kept_place_served_once]).
    - Circuits.  On all widths the adder, subtractor, multiplexer and multipliers
      compute what they are named for on any values of their operand wires
      ([adder_adds], [subtractor_subtracts], [mux_selects],
      [multiplier_multiplies], [karatsuba_equals_array]); numbering, sorting and
      evaluating compiled gates gives the value of the gate list
      ([compiled_circuit_computes]), so whole adder and subtractor circuits return
      the sum and difference ([arithmetic_circuits_compute]); constant propagation
      marks only wires that have the marked value ([const_propagate_sound]).  The
      divider and the pruning pass are wrong ([divider_quotient_wrong],
      [optimized_adder_returns_zero]).
    - Coin accumulator.  A frontier that appends coins one at a time has the root
      of the tree rebuilt from all of them ([frontier_equals_rebuild]), survives
      its record ([frontier_record_round_trip]), and an index serves for every
      coin a path that leads to that root ([indexed_paths_complete]); folding only
      the occupied positions gives the root of the whole tree
      ([fold_sparse_exact]), and the path of a coin through its block and through
      the block roots leads to the accumulator's root ([shard_paths_compose]).
      The blocks of a shard are exactly the ones the ownership rule gives it
      ([owned_blocks_exact]), shards that share no prefix own none in common
      ([block_ownership]) and a coin keeps its position as a shard grows
      ([block_positions_stable]).  A report survives its bytes
      ([report_round_trip]) and the reports of the shards fold to the root over
      all the blocks ([reports_fold_to_root]).  The stored summary represents the
      block roots through updates, replacements and the upgrade of its layout
      ([summary_update_exact], [summary_replace_exact],
      [summary_upgrade_preserves]) and reports what folding them from scratch
      would ([stored_report_equals_folded]).

    - Hypergraph and shards.  In unified mode any history of batches, discards and commits
      refines two sets with tombstones, with the staged view on top of the committed
      one ([crdt_refines_sets]); an element once removed stays removed
      ([removal_is_final]); a batch succeeds when the store answers and the size
      buckets have room ([batch_accepted]); the sizes of shards survive a restart
      ([sizes_survive_restart]).  Shard filters decode to what was encoded
      ([shard_filter_codec]); shards partition the addresses and a split keeps them
      a partition ([split_keeps_partition]); the application root does not depend
      on the order of the shards, membership paths lead to it
      ([app_root_of_shards]) and the fixed grid is the special case
      ([uniform_grid_agrees]).
    - Tree store.  A committed update is read at its version and above and leaves
      the reads at earlier versions as they were ([commit_keeps_history]);
      pruning removes exactly the stale records below the bound, whatever the batch
      size ([prune_exact]); pages of leaves put together are the live
      leaves in key order ([pages_complete]); collecting shadowed values keeps
      every read at or above the bound ([value_collection_exact]); trees whose
      identifiers the code builds have disjoint keys ([forest_keys_apart]), so
      clearing one leaves the others ([clear_wipes_one_tree]), which fails for
      identifiers of 256 bytes or more ([long_ids_overlap]).
    - Execution overlays.  An execution that is published behaves as if it had run
      alone on the database it was published to, reads, scans and writes included
      ([publication_serializable]); a read returns what the branch's writes make of
      the captured database, and one that fails marks the branch and shows nothing
      ([branch_reads_exact]); a batch of writes is taken whole within the limits or
      not at all ([branch_batches_atomic]).

    ** Modelling conventions, bounds and fuel

    Integers are [Z] with the operation's overflow behaviour written out: plain
    arithmetic is checked (overflow is [Panic], as in a build with overflow
    checks), [wrapping_*] wraps, [saturating_*] saturates, [as] truncates;
    [BigInt] is unbounded.  Slice indexing out of range is [Panic].  Error
    messages are not modelled, error variants are.

    Most recursions are structural.  Tree operations recurse on the node, not on
    fuel.  The decoder of trees counts levels down from the code's own
    [MAX_DESERIALIZE_DEPTH] = 128 and returns the code's error at zero; the round
    trip theorem shows that trees over keys of up to 96 bytes (128 nibbles) stay
    within it.  Two loops carry fuel: the nibble loops of [Nibble.v] one unit per
    bit of the key ([full_path_loop_spec] and [diverge_loop_spec] show the result
    is the full path), and [pomw_generation] five divisions by 10000, which
    exhaust a [u64] ([pomw_generation_spec] brackets the result).  The Karatsuba
    generator has the operand width as fuel, enough for every threshold of at
    least 3 ([multiplier_multiplies] is total); the topological sort has the
    number of gates, since each pass but the last emits one
    ([compiled_circuit_computes] has no fuel hypothesis).  In the coin tree the
    depth of a shard takes at most 32 rounds and the size loop 34, the widths of
    the positions they halve; the walk over stored positions has 2^18 units for
    the 2^17 - 1 positions a summary can have ([SummaryCorrect.stored_walk] shows
    the walk ends with every occupied one).  The fold of shard paths has the
    longest path as fuel and the canonical paths the longest prefix, since each
    round consumes one level ([AppRoot.build_paths_ok]); the Bloom filter draws at
    most 1024 positions from its stream, where the code draws until it has found three
    distinct ones; the batches of a pruning have more fuel than the store has
    stale records, since each batch but the last deletes one ([prune_exact]); a
    cursor of an overlay passes over hidden entries with one unit of fuel more than
    its bounds hold entries, since every pass moves on ([branch_reads_exact] names
    every cause of a failure, and running out is none).

    Caches behind interior mutability (the commitments and sizes of nodes) are
    explicit state: [commit] returns the updated tree.  Locks are taken once per
    operation in the modelled code and are not modelled.  Process-wide settings
    (epoch length override, frame schedule, amnesty frames, replay-guard frame)
    and clock readings are arguments.

    Code that is not in the repository or sits behind a trait is a parameter with
    its documented behaviour as hypotheses, each with a concrete instance in the
    witnesses: SHA-512 and SHA-256 (digest length), the inclusion prover
    (branch vectors can be committed to, an aggregated proof of correct openings
    verifies), the signed big-endian bytes of
    [num_bigint] (round trip), its integer roots (defining inequalities);
    Poseidon is a parameter without hypotheses.  The lattice hash of the coin
    tree is the class [MembershipKey]: node values, the hash of two of them and
    their encoding; [LawfulNodes] states its width and round trip, the only laws
    the theorems use.  SHAKE-256 is a stream of bytes.  The forest as the
    hypergraph calls it is the class [ForestApi] with the laws [LawfulForest],
    for the trees of 32-byte application addresses (the unified mode): a staged
    commit writes keys of its own tree only, and on a tree whose value rows are no
    newer than the version it builds on, a read at the new version sees the leaves
    committed over those of that version.  That rows are no newer is a condition on
    the first state, kept by every commit; the code reads the newest value at or
    below a version whether or not a root exists there.  The key-value store is the class [KvStore]
    (get, seek in both directions, atomic batches) with the laws [LawfulKv] of an
    ordered map; an iterator that fails makes the whole call fail.  RocksDB below
    the overlay is the class [RocksDb] with the laws [LawfulRocks]: reads and
    iterators show a map, a batch is applied whole, and a non-empty one raises the
    sequence number.  A transaction of the hypergraph's store reads the database,
    not its own batch, as the stores' transactions do.

    ** Not modelled

    Of the hypergraph: synchronisation, rewinding to an earlier frame, confinement
    of a shard, rebuilding the size buckets from the leaves, iteration and
    snapshots; the locks that serialise its operations.  Of the forest: the
    Jellyfish tree that computes nodes and roots from leaves (a third-party
    package, behind [ForestApi]), the in-memory backend, the sums the store adds up
    for its size index (they come with a batch) and the backfill of that index.  Of
    the database and the overlay: the journal of watched keys, the process-wide
    count of snapshots, write times and lock poisoning.  Of the prover operations:
    the blob a vertex tree is stored as between two of them.  Of
    the tries: the tree that loads its nodes lazily from a store, and the
    comparison of two trees.  Token, compute and hypergraph transactions, the parts
    of [materialize.rs] on seniority merges, shard splits and hyperedges, the
    caches and scans of the prover registry, the front end of the contract
    compiler (lexer, parser, types) and the marshalling of circuits, and the
    staging and publication of coin roots around the accumulator are not modelled.
    The event loops of the engines, networking, RPC, storage adapters and binaries
    are I/O around the decision procedures modelled here; elliptic curves, VDF, MPC
    and lattice cryptography and the vendored crates are outside the scope. *)

From Stdlib Require Export ZArith Lia Bool.
From stdpp Require Export base tactics numbers option list.

(** ** Results, errors and panics

    A Rust function of the code base either returns [Ok], returns one of the
    variants of [quil_types::error::QuilError], or panics (slice index out of
    range, [unwrap] on [None], arithmetic overflow in a checked build).  The type
    lists the variants the modelled functions return; the message strings they
    carry are not modelled. *)

Inductive QuilError : Type :=
| Store
| Crypto
| ExecutionUnavailable
| Serialization
| InvalidArgument
| NotFound
| Internal.

#[global] Instance QuilError_eq_dec : EqDecision QuilError.
Proof. solve_decision. Defined.

Inductive outcome (A : Type) : Type :=
| Ok (a : A)
| Err (e : QuilError)
| Panic.
Arguments Ok {A} a.
Arguments Err {A} e.
Arguments Panic {A}.

#[global] Instance Ok_inj A : Inj (=) (=) (@Ok A).
Proof. by intros a b [= ->]. Qed.

#[global] Instance outcome_ret : MRet outcome := fun A a => Ok a.
#[global] Instance outcome_bind : MBind outcome := fun A B f m =>
  match m with
  | Ok a => f a
  | Err e => Err e
  | Panic => Panic
  end.
#[global] Instance outcome_fmap : FMap outcome := fun A B f m =>
  match m with
  | Ok a => Ok (f a)
  | Err e => Err e
  | Panic => Panic
  end.

(** [v.unwrap()] *)
Definition unwrap {A} (o : option A) : outcome A :=
  match o with Some a => Ok a | None => Panic end.

(** [o.ok_or(e)] *)
Definition ok_or {A} (o : option A) (e : QuilError) : outcome A :=
  match o with Some a => Ok a | None => Err e end.

Definition is_ok {A} (m : outcome A) : bool :=
  match m with Ok _ => true | _ => false end.

Lemma outcome_bind_ok {A B} (m : outcome A) (f : A -> outcome B) b :
  m ≫= f = Ok b <-> exists a, m = Ok a /\ f a = Ok b.
Proof.
  destruct m; simpl; split.
  - eauto.
  - intros (? & [= ->] & ?); done.
  - done.
  - intros (? & ? & ?); done.
  - done.
  - intros (? & ? & ?); done.
Qed.

Lemma outcome_bind_Ok {A B} (a : A) (f : A -> outcome B) : Ok a ≫= f = f a.
Proof. done. Qed.

Lemma outcome_bind_assoc {A B C} (m : outcome A) (f : A -> outcome B) (g : B -> outcome C) :
  (m ≫= f) ≫= g = m ≫= (fun a => f a ≫= g).
Proof. by destruct m. Qed.

(** ** State and errors

    A Rust function that takes [&mut S] and returns a [Result]: what it wrote
    before an error stays written. *)

Definition st (S A : Type) : Type := S -> outcome A * S.

#[global] Instance st_ret {S} : MRet (st S) := fun A a s => (Ok a, s).
#[global] Instance st_bind {S} : MBind (st S) := fun A B f m s =>
  match m s with
  | (Ok a, s') => f a s'
  | (Err e, s') => (Err e, s')
  | (Panic, s') => (Panic, s')
  end.

(** A computation that only reads the state. *)
Definition st_read {S A} (f : S -> outcome A) : st S A := fun s => (f s, s).
Definition st_fail {S A} (e : QuilError) : st S A := fun s => (Err e, s).

(** ** Machine integers *)

Open Scope Z_scope.

Definition u8_max : Z := 2 ^ 8 - 1.
Definition u32_max : Z := 2 ^ 32 - 1.
Definition u64_max : Z := 2 ^ 64 - 1.
Definition i64_min : Z := - 2 ^ 63.
Definition i64_max : Z := 2 ^ 63 - 1.

Definition in_u8 (z : Z) : Prop := 0 <= z <= u8_max.
Definition in_u32 (z : Z) : Prop := 0 <= z <= u32_max.
Definition in_u64 (z : Z) : Prop := 0 <= z <= u64_max.
Definition in_i32 (z : Z) : Prop := - 2 ^ 31 <= z <= 2 ^ 31 - 1.
Definition in_i64 (z : Z) : Prop := i64_min <= z <= i64_max.

(** Unsigned reduction [z as u64] and two's-complement reduction [z as i64]. *)
Definition wrap_u32 (z : Z) : Z := z mod 2 ^ 32.
Definition wrap_u64 (z : Z) : Z := z mod 2 ^ 64.
Definition wrap_i32 (z : Z) : Z := (z + 2 ^ 31) mod 2 ^ 32 - 2 ^ 31.
Definition wrap_i64 (z : Z) : Z := (z + 2 ^ 63) mod 2 ^ 64 - 2 ^ 63.

(** [a.saturating_add(b)], [a.saturating_sub(b)], [a.saturating_mul(b)] on [u64]. *)
Definition sat_add_u64 (a b : Z) : Z := Z.min (a + b) u64_max.
Definition sat_sub_u64 (a b : Z) : Z := Z.max (a - b) 0.
Definition sat_mul_u64 (a b : Z) : Z := Z.min (a * b) u64_max.

(** [a.checked_add(b)] on [u64]. *)
Definition checked_add_u64 (a b : Z) : option Z :=
  if a + b <=? u64_max then Some (a + b) else None.

(** Plain [a + b], [a * b], [a - b] on a width: panics in a checked build when
    the result leaves the type.  [ck lo hi z] is the checked result. *)
Definition ck_u64 (z : Z) : outcome Z :=
  if (0 <=? z) && (z <=? u64_max) then Ok z else Panic.
Definition ck_i64 (z : Z) : outcome Z :=
  if (i64_min <=? z) && (z <=? i64_max) then Ok z else Panic.

Ltac unfold_ints :=
  unfold in_u8, in_u32, in_u64, in_i32, in_i64, u8_max, u32_max, u64_max,
         i64_min, i64_max in *.

Lemma wrap_i32_id z : in_i32 z -> wrap_i32 z = z.
Proof. unfold wrap_i32; unfold_ints; intros. rewrite Z.mod_small; lia. Qed.

Lemma wrap_i64_id z : in_i64 z -> wrap_i64 z = z.
Proof. unfold wrap_i64; unfold_ints; intros. rewrite Z.mod_small; lia. Qed.

Lemma wrap_i64_range z : in_i64 (wrap_i64 z).
Proof.
  unfold wrap_i64; unfold_ints. pose proof (Z.mod_pos_bound (z + 2 ^ 63) (2 ^ 64)). lia.
Qed.

Lemma wrap_u64_id z : in_u64 z -> wrap_u64 z = z.
Proof. unfold wrap_u64; unfold_ints; intros. rewrite Z.mod_small; lia. Qed.

Lemma wrap_u32_id z : in_u32 z -> wrap_u32 z = z.
Proof. unfold wrap_u32; unfold_ints; intros. rewrite Z.mod_small; lia. Qed.

Lemma wrap_u64_range z : in_u64 (wrap_u64 z).
Proof.
  unfold wrap_u64; unfold_ints. pose proof (Z.mod_pos_bound z (2 ^ 64)). lia.
Qed.

Lemma pow2_pos k : 0 < 2 ^ Z.of_nat k.
Proof. apply Z.pow_pos_nonneg; lia. Qed.

Lemma ck_u64_ok z : in_u64 z -> ck_u64 z = Ok z.
Proof.
  intros [? ?]; unfold ck_u64.
  by rewrite (proj2 (Z.leb_le 0 z)), (proj2 (Z.leb_le z u64_max)).
Qed.

Lemma ck_i64_ok z : in_i64 z -> ck_i64 z = Ok z.
Proof.
  intros [? ?]; unfold ck_i64.
  by rewrite (proj2 (Z.leb_le i64_min z)), (proj2 (Z.leb_le z i64_max)).
Qed.

(** Bits of a number below a power of two, and of disjoint numbers. *)
Lemma bits_above (w : nat) v n : 0 <= v < 2 ^ Z.of_nat w -> Z.of_nat w <= n -> Z.testbit v n = false.
Proof. intros Hv Hn. rewrite <- (Z.mod_small v (2 ^ Z.of_nat w)) by lia. apply Z.mod_pow2_bits_high. lia. Qed.

(** Numbers without common bits add up. *)
Lemma lor_add a b : Z.land a b = 0 -> Z.lor a b = a + b.
Proof. intros H. rewrite Z.add_nocarry_lxor by done. symmetry. by apply Z.lxor_lor. Qed.

Lemma lor_high (w : nat) h v : 0 <= v < 2 ^ Z.of_nat w -> Z.lor (Z.shiftl h (Z.of_nat w)) v = h * 2 ^ Z.of_nat w + v.
Proof.
  intros Hv. rewrite lor_add; [by rewrite Z.shiftl_mul_pow2 by lia|].
  apply Z.bits_inj'. intros n Hn. rewrite Z.land_spec, Z.bits_0.
  destruct (decide (n < Z.of_nat w)); [by rewrite Z.shiftl_spec_low|].
  rewrite (bits_above w v n) by lia. apply andb_false_r.
Qed.

(** ** Proof automation *)

Create HintDb quil discriminated.
Create Rewrite HintDb quil_len.
#[export] Hint Rewrite @length_app @length_map @length_fmap @length_replicate : quil_len.

(** Case analysis on the innermost [if]/[match] scrutinee of the goal or of a
    hypothesis, remembering the equation. *)
Ltac case_one :=
  match goal with
  | |- context [match ?x with _ => _ end] =>
      lazymatch x with context [match _ with _ => _ end] => fail | _ => idtac end;
      let E := fresh "E" in destruct x eqn:E
  end.
Ltac case_one_in H :=
  match type of H with
  | context [match ?x with _ => _ end] =>
      lazymatch x with context [match _ with _ => _ end] => fail | _ => idtac end;
      let E := fresh "E" in destruct x eqn:E
  end.

(** Turn boolean tests of the context into propositions. *)
Ltac bool_to_prop :=
  repeat match goal with
  | H : andb _ _ = true |- _ => apply andb_prop in H; destruct H
  | H : orb _ _ = false |- _ => apply orb_false_elim in H; destruct H
  | H : negb _ = true |- _ => apply negb_true_iff in H
  | H : negb _ = false |- _ => apply negb_false_iff in H
  | H : (_ <=? _)%Z = true |- _ => apply Z.leb_le in H
  | H : (_ <=? _)%Z = false |- _ => apply Z.leb_gt in H
  | H : (_ <? _)%Z = true |- _ => apply Z.ltb_lt in H
  | H : (_ <? _)%Z = false |- _ => apply Z.ltb_ge in H
  | H : (_ =? _)%Z = true |- _ => apply Z.eqb_eq in H
  | H : (_ =? _)%Z = false |- _ => apply Z.eqb_neq in H
  | H : (_ <=? _)%nat = true |- _ => apply Nat.leb_le in H
  | H : (_ <=? _)%nat = false |- _ => apply Nat.leb_gt in H
  | H : (_ <? _)%nat = true |- _ => apply Nat.ltb_lt in H
  | H : (_ <? _)%nat = false |- _ => apply Nat.ltb_ge in H
  | H : bool_decide _ = true |- _ => apply bool_decide_eq_true in H
  | H : bool_decide _ = false |- _ => apply bool_decide_eq_false in H
  end.

(** Decompose a successful [outcome] computation in the context. *)
Ltac inv_ok :=
  repeat match goal with
  | H : _ ≫= _ = Ok _ |- _ =>
      apply outcome_bind_ok in H; destruct H as (? & ? & ?)
  | H : Ok _ = Ok _ |- _ => injection H as H; subst
  | H : Err _ = Ok _ |- _ => discriminate H
  | H : Panic = Ok _ |- _ => discriminate H
  end.

(** ** Lists *)

Section lists.
Context {A : Type}.

(** [v.iter().map(f).sum()] *)
Definition list_sumZ (f : A -> Z) (l : list A) : Z := foldr (fun x s => f x + s) 0 l.

Lemma list_sumZ_app f (l k : list A) : list_sumZ f (l ++ k) = list_sumZ f l + list_sumZ f k.
Proof. unfold list_sumZ. induction l as [|x l IH]; simpl; [lia|]. rewrite IH. lia. Qed.

Lemma list_sumZ_nonneg f (l : list A) :
  (forall x, x ∈ l -> 0 <= f x) -> 0 <= list_sumZ f l.
Proof.
  unfold list_sumZ. induction l as [|x l IH]; intros H; simpl; [lia|].
  pose proof (H x (list_elem_of_here _ _)).
  assert (0 <= foldr (fun x s => f x + s) 0 l)
    by (apply IH; intros; apply H; by apply list_elem_of_further).
  lia.
Qed.

Lemma list_sumZ_ext f g (l : list A) :
  (forall x, x ∈ l -> f x = g x) -> list_sumZ f l = list_sumZ g l.
Proof.
  unfold list_sumZ. induction l as [|x l IH]; intros H; simpl; [done|].
  rewrite (H x (list_elem_of_here _ _)), IH; [done|].
  intros; apply H; by apply list_elem_of_further.
Qed.

Lemma list_sumZ_insert f (l : list A) i x y :
  l !! i = Some x -> list_sumZ f (<[i:=y]> l) = list_sumZ f l - f x + f y.
Proof.
  unfold list_sumZ. revert i. induction l as [|z l IH]; intros [|i] H; simpl in *; try done.
  - injection H as ->. lia.
  - rewrite (IH _ H). lia.
Qed.

Lemma list_sumZ_map {B} f (g : B -> Z) (l : list A) (k : list B) :
  map f l = map g k -> list_sumZ f l = foldr (fun x s => g x + s) 0 k.
Proof.
  unfold list_sumZ. revert k. induction l as [|x l IH]; intros [|y k] E; try done.
  injection E as Ex El. simpl. by rewrite Ex, (IH k El).
Qed.

(** [v.iter().map(f).max().unwrap_or(0)] for non-negative values. *)
Definition list_maxZ (f : A -> Z) (l : list A) : Z := foldr (fun x s => Z.max (f x) s) 0 l.

Lemma list_maxZ_nonneg f (l : list A) : 0 <= list_maxZ f l.
Proof. unfold list_maxZ. induction l; simpl; lia. Qed.

Lemma length_filter_ext (P Q : A -> Prop) `{!forall x, Decision (P x), !forall x, Decision (Q x)} (l : list A) :
  (forall x, x ∈ l -> P x <-> Q x) -> length (filter P l) = length (filter Q l).
Proof.
  induction l as [|x l IH]; intros Hl; [done|]. rewrite !filter_cons.
  pose proof (Hl x (list_elem_of_here _ _)) as Hx.
  assert (length (filter P l) = length (filter Q l))
    by (apply IH; intros; apply Hl; by apply list_elem_of_further).
  repeat case_decide; simpl; tauto || lia.
Qed.

Lemma lookup_insert_lt (l : list A) i x y :
  l !! i = Some x -> <[i:=y]> l !! i = Some y.
Proof. intros H. apply list_lookup_insert_eq. by eapply lookup_lt_Some. Qed.
End lists.

(** ** Searches *)

Section searches.
Context {A : Type}.

(** [l.iter().position(p)] *)
Fixpoint position (p : A -> bool) (l : list A) : option nat :=
  match l with
  | [] => None
  | x :: l' => if p x then Some 0%nat else S <$> position p l'
  end.

(** [l.iter().enumerate().filter(p).min_by_key(key)]: the first of the smallest,
    with its key. *)
Fixpoint min_position (p : A -> bool) (key : A -> nat) (l : list A) : option (nat * nat) :=
  match l with
  | [] => None
  | x :: l' =>
      match min_position p key l' with
      | None => if p x then Some (0%nat, key x) else None
      | Some (j, k) => if p x && (key x <=? k)%nat then Some (0%nat, key x) else Some (S j, k)
      end
  end.

Lemma position_Some p (l : list A) i :
  position p l = Some i <->
  exists x, l !! i = Some x /\ p x = true /\ forall j y, (j < i)%nat -> l !! j = Some y -> p y = false.
Proof.
  revert i. induction l as [|x l IH]; intros i; simpl; [naive_solver|].
  destruct (p x) eqn:E.
  - split.
    + intros [= <-]. exists x. split; [done|]. split; [done|]. lia.
    + intros (y & Hy & Hp & Hlt). destruct i as [|i]; [done|].
      rewrite (Hlt 0%nat x) in E; [done|lia|done].
  - rewrite fmap_Some. split.
    + intros (j & Hj & ->). apply IH in Hj as (y & Hy & Hp & Hlt). exists y. split; [done|].
      split; [done|]. intros [|k] z Hk Hz; [by injection Hz as ->|]. apply (Hlt k); [lia|done].
    + intros (y & Hy & Hp & Hlt). destruct i as [|i]; [injection Hy as ->; congruence|].
      exists i. split; [|done]. apply IH. exists y. split; [done|]. split; [done|].
      intros j z Hj Hz. apply (Hlt (S j)); [lia|done].
Qed.

Lemma position_None p (l : list A) : position p l = None <-> forall x, x ∈ l -> p x = false.
Proof.
  induction l as [|x l IH]; simpl; [split; [intros _ x Hx; by apply elem_of_nil in Hx|done]|].
  destruct (p x) eqn:E.
  - split; [done|]. intros H. by rewrite H in E by apply list_elem_of_here.
  - rewrite fmap_None, IH. split.
    + intros H y [->|Hy]%elem_of_cons; auto.
    + intros H y Hy. apply H. by right.
Qed.

Lemma position_exists p (l : list A) x : x ∈ l -> p x = true -> exists i, position p l = Some i.
Proof.
  intros Hx Hp. destruct (position p l) as [i|] eqn:E; [eauto|].
  rewrite position_None in E. by rewrite E in Hp.
Qed.

Lemma min_position_Some p key (l : list A) i k :
  min_position p key l = Some (i, k) ->
  exists x, l !! i = Some x /\ p x = true /\ key x = k
    /\ forall j y, l !! j = Some y -> p y = true -> (k <= key y)%nat.
Proof.
  revert i k. induction l as [|x l IH]; intros i k; simpl; [done|].
  destruct (min_position p key l) as [[j m]|] eqn:E.
  - destruct (IH _ _ eq_refl) as (y & Hy & Hpy & Hk & Hmin).
    destruct (p x && (key x <=? m)%nat) eqn:Ex; intros [= <- <-].
    + bool_to_prop. exists x. repeat (split; [done|]). intros [|n] z Hz Hpz; [injection Hz as ->; lia|].
      specialize (Hmin n z Hz Hpz). lia.
    + exists y. repeat (split; [done|]). intros [|n] z Hz Hpz; [|by eapply Hmin].
      injection Hz as <-. rewrite Hpz in Ex. simpl in Ex. bool_to_prop. lia.
  - destruct (p x) eqn:Ex; [|done]. intros [= <- <-]. exists x. repeat (split; [done|]).
    intros [|n] z Hz Hpz; [injection Hz as ->; lia|]. exfalso. clear IH.
    revert n Hz. induction l as [|w l IHl]; intros n Hz; [done|]. simpl in E.
    destruct (min_position p key l) as [[? ?]|]; [by case_match|].
    destruct (p w) eqn:Ew; [done|]. destruct n as [|n]; [injection Hz as ->; congruence|].
    by apply (IHl eq_refl n).
Qed.

Lemma min_position_exists p key (l : list A) x :
  x ∈ l -> p x = true -> exists r, min_position p key l = Some r.
Proof.
  intros Hx Hp. induction l as [|y l IH]; [by apply elem_of_nil in Hx|]. simpl.
  destruct (min_position p key l) as [[j m]|]; [case_match; eauto|].
  apply elem_of_cons in Hx as [<-|Hx]; [rewrite Hp; eauto|].
  destruct (IH Hx) as [? [=]].
Qed.
End searches.
