(* ===== verification/Bytes.v ===== *)
(** * Bytes, big-endian integers and byte-stream parsers

    Rust's [u8], [to_be_bytes]/[from_be_bytes] and the cursor reads
    ([Read::read_exact] on a slice cursor) that the codecs of
    [crates/quil-tries] use. *)

From Stdlib Require Import Strings.Byte NArith.
From stdpp Require Import countable.
From S2P Require Import Prelude.

Abbreviation byte := Corelib.Init.Byte.byte.
Abbreviation bytes := (list byte).

#[global] Instance byte_eq_dec : EqDecision byte := Byte.byte_eq_dec.

#[global] Program Instance byte_countable : Countable byte :=
  inj_countable Byte.to_N Byte.of_N _.
Next Obligation. intros b. apply Byte.of_to_N. Qed.

(** ** A byte as an integer *)

Definition b2z (b : byte) : Z := Z.of_N (Byte.to_N b).

(** [z as u8] *)
Definition z2b (z : Z) : byte :=
  match Byte.of_N (Z.to_N (z mod 256)) with
  | Some b => b
  | None => x00
  end.

Lemma b2z_range b : 0 <= b2z b < 256.
Proof. unfold b2z. pose proof (Byte.to_N_bounded b). lia. Qed.

Lemma b2z_z2b z : b2z (z2b z) = z mod 256.
Proof.
  unfold z2b, b2z. pose proof (Z.mod_pos_bound z 256 ltac:(lia)).
  destruct (Byte.of_N (Z.to_N (z mod 256))) as [b|] eqn:E.
  - apply Byte.to_of_N in E. rewrite E. lia.
  - apply Byte.of_N_None_iff in E. lia.
Qed.

Lemma b2z_inj a b : b2z a = b2z b -> a = b.
Proof.
  unfold b2z. intros H. apply N2Z.inj in H.
  pose proof (Byte.of_to_N a) as Ha. rewrite H, Byte.of_to_N in Ha. congruence.
Qed.

Lemma z2b_b2z b : z2b (b2z b) = b.
Proof.
  apply b2z_inj. rewrite b2z_z2b. apply Z.mod_small. apply b2z_range.
Qed.

(** ** Big-endian integers *)

(** [z.to_be_bytes()] for an [n]-byte integer (two's complement for a negative [z]). *)
Fixpoint be_bytes (n : nat) (z : Z) : bytes :=
  match n with
  | O => []
  | S n' => z2b (z / 2 ^ (8 * Z.of_nat n')) :: be_bytes n' z
  end.

(** [uN::from_be_bytes] *)
Definition be_Z (l : bytes) : Z := fold_left (fun acc b => acc * 256 + b2z b) l 0.

Lemma length_be_bytes n z : length (be_bytes n z) = n.
Proof. induction n; simpl; congruence. Qed.

Lemma be_Z_fold l acc :
  fold_left (fun acc b => acc * 256 + b2z b) l acc
  = acc * 2 ^ (8 * Z.of_nat (length l)) + be_Z l.
Proof.
  unfold be_Z. revert acc. induction l as [|b l IH]; intros acc; simpl.
  - lia.
  - rewrite IH, (IH (0 * 256 + b2z b)).
    rewrite (Nat2Z.inj_succ (length l)), Z.mul_succ_r, Z.pow_add_r by lia. ring.
Qed.

Lemma be_Z_cons b l : be_Z (b :: l) = b2z b * 2 ^ (8 * Z.of_nat (length l)) + be_Z l.
Proof. unfold be_Z at 1. simpl. apply be_Z_fold. Qed.

Lemma be_Z_range l : 0 <= be_Z l < 2 ^ (8 * Z.of_nat (length l)).
Proof.
  induction l as [|b l IH]; [done|].
  rewrite be_Z_cons. simpl length.
  rewrite Nat2Z.inj_succ, Z.mul_succ_r, Z.pow_add_r by lia.
  pose proof (b2z_range b). nia.
Qed.

Lemma be_Z_be_bytes n z : be_Z (be_bytes n z) = z mod 2 ^ (8 * Z.of_nat n).
Proof.
  induction n as [|n IH].
  - simpl. by rewrite Z.mod_1_r.
  - cbn [be_bytes]. rewrite be_Z_cons, length_be_bytes, IH, b2z_z2b.
    set (p := 2 ^ (8 * Z.of_nat n)).
    assert (0 < p) by (apply Z.pow_pos_nonneg; lia).
    replace (2 ^ (8 * Z.of_nat (S n))) with (p * 256).
    2: { unfold p. rewrite Nat2Z.inj_succ, Z.mul_succ_r, Z.pow_add_r by lia. lia. }
    rewrite Z.rem_mul_r by lia. lia.
Qed.

Lemma be_Z_be_bytes_small n z :
  0 <= z < 2 ^ (8 * Z.of_nat n) -> be_Z (be_bytes n z) = z.
Proof. intros. rewrite be_Z_be_bytes. by apply Z.mod_small. Qed.

Lemma be_Z_inj l k : length l = length k -> be_Z l = be_Z k -> l = k.
Proof.
  revert k. induction l as [|b l IH]; intros [|c k] Hl; try done.
  injection Hl as Hl. rewrite !be_Z_cons, Hl. intros E.
  pose proof (be_Z_range l) as Hr. rewrite Hl in Hr. pose proof (be_Z_range k).
  pose proof (b2z_range b). pose proof (b2z_range c).
  assert (b2z b = b2z c) as Hbc by nia.
  rewrite Hbc in E. rewrite (b2z_inj _ _ Hbc), (IH k); [done|done|lia].
Qed.

Lemma be_bytes_be_Z l : be_bytes (length l) (be_Z l) = l.
Proof.
  apply be_Z_inj; rewrite ?length_be_bytes; [done|].
  rewrite be_Z_be_bytes. apply Z.mod_small, be_Z_range.
Qed.

(** [to_le_bytes] and [from_le_bytes]. *)
Definition le_bytes (n : nat) (z : Z) : bytes := reverse (be_bytes n z).
Definition le_Z (l : bytes) : Z := be_Z (reverse l).

Lemma length_le_bytes n z : length (le_bytes n z) = n.
Proof. unfold le_bytes. by rewrite length_reverse, length_be_bytes. Qed.

Lemma le_Z_le_bytes_small n z : 0 <= z < 2 ^ (8 * Z.of_nat n) -> le_Z (le_bytes n z) = z.
Proof. unfold le_Z, le_bytes. rewrite reverse_involutive. apply be_Z_be_bytes_small. Qed.

(** The signed readings [i32::from_be_bytes] and [i64::from_be_bytes]. *)
Definition be_i32 (l : bytes) : Z := wrap_i32 (be_Z l).
Definition be_i64 (l : bytes) : Z := wrap_i64 (be_Z l).

Lemma be_i32_be_bytes z : in_i32 z -> be_i32 (be_bytes 4 z) = z.
Proof.
  intros H. unfold be_i32. rewrite be_Z_be_bytes. change (8 * Z.of_nat 4) with 32.
  unfold wrap_i32. rewrite Zplus_mod_idemp_l. by apply wrap_i32_id.
Qed.

Lemma be_i64_be_bytes z : in_i64 z -> be_i64 (be_bytes 8 z) = z.
Proof.
  intros H. unfold be_i64. rewrite be_Z_be_bytes. change (8 * Z.of_nat 8) with 64.
  unfold wrap_i64. rewrite Zplus_mod_idemp_l. by apply wrap_i64_id.
Qed.

(** ** Parsers

    A parser consumes a prefix of the remaining bytes.  [bind] threads the
    remainder, as the cursor position does in the code. *)

Definition parser (A : Type) : Type := bytes -> outcome (A * bytes).

#[global] Instance parser_ret : MRet parser := fun A a s => Ok (a, s).
#[global] Instance parser_bind : MBind parser := fun A B f p s =>
  match p s with
  | Ok (a, s') => f a s'
  | Err e => Err e
  | Panic => Panic
  end.

Definition fail_with {A} (e : QuilError) : parser A := fun _ => Err e.

(** [n] bytes, or the error [e] on a short buffer; [read_exact] on a cursor
    fails with a serialization error. *)
Definition read_or (e : QuilError) (n : nat) : parser bytes := fun s =>
  if (n <=? length s)%nat then Ok (take n s, drop n s) else Err e.
Definition read_n : nat -> parser bytes := read_or Serialization.

(** [p] repeated [n] times, collecting the values in order. *)
Fixpoint read_times {A} (n : nat) (p : parser A) : parser (list A) :=
  match n with
  | O => mret []
  | S n' => x ← p; xs ← read_times n' p; mret (x :: xs)
  end.

(** [p] reads exactly the encoding [w], whatever follows it. *)
Definition reads {A} (p : parser A) (w : bytes) (a : A) : Prop :=
  forall rest, p (w ++ rest) = Ok (a, rest).

Lemma reads_ret {A} (a : A) : reads (mret a) [] a.
Proof. done. Qed.

Lemma reads_bind {A B} (p : parser A) (f : A -> parser B) w1 w2 a b :
  reads p w1 a -> reads (f a) w2 b -> reads (p ≫= f) (w1 ++ w2) b.
Proof.
  intros H1 H2 rest. rewrite <- app_assoc.
  unfold mbind, parser_bind. rewrite H1. apply H2.
Qed.

Lemma reads_read_or e w n : length w = n -> reads (read_or e n) w w.
Proof.
  intros <- rest. unfold read_or. rewrite length_app.
  rewrite (proj2 (Nat.leb_le _ _)) by lia.
  by rewrite take_app_length, drop_app_length.
Qed.

Lemma reads_read_n' n w : length w = n -> reads (read_n n) w w.
Proof. apply reads_read_or. Qed.

Lemma reads_read_n w : reads (read_n (length w)) w w.
Proof. by apply reads_read_or. Qed.

(** A reader followed by a pure function of its value. *)
Lemma reads_map {A B} (p : parser A) (f : A -> B) w a :
  reads p w a -> reads (x ← p; mret (f x)) w (f a).
Proof. intros Hp. rewrite <- (app_nil_r w). eapply reads_bind; [done|apply reads_ret]. Qed.

Lemma reads_times {A B} (p : parser A) (enc : B -> bytes) (val : B -> A) (l : list B) :
  (forall x, x ∈ l -> reads p (enc x) (val x)) ->
  reads (read_times (length l) p) (concat (enc <$> l)) (val <$> l).
Proof.
  induction l as [|x l IH]; intros H; [apply reads_ret|].
  cbn [length read_times fmap list_fmap concat].
  eapply reads_bind; [apply H, list_elem_of_here|].
  rewrite <- (app_nil_r (concat _)).
  eapply reads_bind; [apply IH; intros; apply H; by apply list_elem_of_further|].
  apply reads_ret.
Qed.

#[export] Hint Resolve reads_ret reads_read_n : quil.
