(* ===== verification/Nibble.v ===== *)
(** * Nibble paths of trie keys

    [crates/quil-tries/src/nibble.rs]: a key is read as a sequence of 6-bit
    nibbles, most significant bit first, zero-padded at its end. *)

From Stdlib Require Import Strings.Byte.
From S2P Require Import Prelude Bytes.

(** ** The code *)

Definition BRANCH_NODES : nat := 64.
Definition BRANCH_BITS : nat := 6.
Definition BRANCH_MASK : Z := 63.

(** [get_next_nibble]: the nibble at bit position [pos], [-1] past the end. *)
Definition get_next_nibble (key : bytes) (pos : nat) : Z :=
  let start_byte := (pos / 8)%nat in
  match key !! start_byte with
  | None => -1
  | Some b =>
      let start_bit := (pos mod 8)%nat in
      let bits_from_current_byte := (8 - start_bit)%nat in
      let result := Z.land (b2z b) (Z.shiftl 1 (Z.of_nat bits_from_current_byte) - 1) in
      if (BRANCH_BITS <=? bits_from_current_byte)%nat then
        Z.land (Z.shiftr result (Z.of_nat (bits_from_current_byte - BRANCH_BITS))) BRANCH_MASK
      else
        let result := Z.shiftl result (Z.of_nat (BRANCH_BITS - bits_from_current_byte)) in
        let result :=
          match key !! S start_byte with
          | Some next_byte =>
              let remaining_bits := (BRANCH_BITS - bits_from_current_byte)%nat in
              Z.lor result (Z.shiftr (b2z next_byte) (Z.of_nat (8 - remaining_bits)))
          | None => result
          end in
        Z.land result BRANCH_MASK
  end.

(** The loop of [get_full_path]; the fuel bounds the number of iterations. *)
Fixpoint full_path_loop (fuel : nat) (key : bytes) (depth : nat) : list Z :=
  match fuel with
  | O => []
  | S fuel' =>
      let n := get_next_nibble key depth in
      if n =? -1 then [] else n :: full_path_loop fuel' key (depth + BRANCH_BITS)
  end.

(** [get_full_path]; at most one nibble per bit is ever read. *)
Definition get_full_path (key : bytes) : list Z :=
  full_path_loop (S (8 * length key)) key 0.

(** The loop of [get_nibbles_until_diverge]. *)
Fixpoint diverge_loop (fuel : nat) (key1 key2 : bytes) (depth : nat) : list Z * nat :=
  match fuel with
  | O => ([], depth)
  | S fuel' =>
      let n1 := get_next_nibble key1 depth in
      let n2 := get_next_nibble key2 depth in
      if negb (n1 =? n2) || (n1 =? -1) then ([], depth)
      else
        let '(nibbles, d) := diverge_loop fuel' key1 key2 (depth + BRANCH_BITS) in
        (n1 :: nibbles, d)
  end.

Definition get_nibbles_until_diverge (key1 key2 : bytes) (start_depth : nat) : list Z * nat :=
  diverge_loop (S (8 * length key1)) key1 key2 start_depth.

(** ** Bits of a key *)

(** Bit [i] of a key, most significant bit of the first byte first; zero past the end. *)
Definition key_bit (key : bytes) (i : nat) : bool :=
  match key !! (i / 8)%nat with
  | Some b => Z.testbit (b2z b) (7 - Z.of_nat (i mod 8))
  | None => false
  end.

Lemma testbit_byte_high b j : 8 <= j -> Z.testbit (b2z b) j = false.
Proof.
  intros Hj. pose proof (b2z_range b).
  destruct (Z.eq_dec (b2z b) 0) as [->|]; [apply Z.bits_0|].
  apply Z.bits_above_log2; [lia|].
  apply Z.log2_lt_pow2; [lia|].
  apply Z.lt_le_trans with (2 ^ 8); [lia|]. apply Z.pow_le_mono_r; lia.
Qed.

Lemma testbit_mask n j : 0 <= n -> 0 <= j -> Z.testbit (Z.shiftl 1 n - 1) j = (j <? n).
Proof.
  intros. rewrite Z.shiftl_1_l, Z.sub_1_r, <- Z.ones_equiv.
  destruct (Z.ltb_spec j n).
  - apply Z.ones_spec_low; lia.
  - apply Z.ones_spec_high; lia.
Qed.

Lemma testbit_63 j : 0 <= j -> Z.testbit 63 j = (j <? 6).
Proof. intros. change 63 with (Z.shiftl 1 6 - 1). by apply testbit_mask. Qed.

Lemma key_bit_at key q r :
  (r < 8)%nat ->
  key_bit key (8 * q + r) =
  match key !! q with Some b => Z.testbit (b2z b) (7 - Z.of_nat r) | None => false end.
Proof.
  intros Hr. unfold key_bit. rewrite (Nat.mul_comm 8), Nat.div_add_l, (Nat.div_small r) by lia.
  by rewrite Nat.add_0_r, Nat.add_comm, Nat.Div0.mod_add, (Nat.mod_small r).
Qed.

(** The bits a nibble takes from the byte it starts in, when it runs into the
    next one. *)
Lemma current_byte_bit b (r i : nat) :
  (2 < r < 8)%nat -> (i < 6)%nat ->
  Z.testbit (Z.shiftl (Z.land (b2z b) (Z.shiftl 1 (Z.of_nat (8 - r)) - 1)) (Z.of_nat (6 - (8 - r))))
    (5 - Z.of_nat i)
  = if (r + i <? 8)%nat then Z.testbit (b2z b) (7 - Z.of_nat (r + i)) else false.
Proof.
  intros Hr Hi. rewrite Z.shiftl_spec by lia. destruct (Nat.ltb_spec (r + i) 8) as [Hs|Hs].
  - rewrite Z.land_spec, testbit_mask, (proj2 (Z.ltb_lt _ _)), andb_true_r by lia. f_equal; lia.
  - apply Z.testbit_neg_r; lia.
Qed.

Lemma nibble_bit key pos (i : nat) :
  (pos < 8 * length key)%nat -> (i < 6)%nat ->
  Z.testbit (get_next_nibble key pos) (5 - Z.of_nat i) = key_bit key (pos + i).
Proof.
  intros Hpos Hi. unfold get_next_nibble, BRANCH_BITS, BRANCH_MASK.
  pose proof (Nat.div_mod_eq pos 8) as Hqr. pose proof (Nat.mod_upper_bound pos 8) as Hr.
  set (q := (pos / 8)%nat) in *. set (r := (pos mod 8)%nat) in *. clearbody q r. subst pos.
  destruct (lookup_lt_is_Some_2 key q) as [b Hb]; [lia|]. rewrite Hb, <- Nat.add_assoc.
  destruct (Nat.leb_spec 6 (8 - r)) as [Hle|Hgt]; rewrite Z.land_spec, testbit_63 by lia;
    rewrite (proj2 (Z.ltb_lt _ 6)), andb_true_r by lia.
  - rewrite key_bit_at, Hb, Z.shiftr_spec, Z.land_spec, testbit_mask by lia.
    rewrite (proj2 (Z.ltb_lt _ _)), andb_true_r by lia. f_equal; lia.
  - pose proof (current_byte_bit b r i) as Hcur. destruct (Nat.ltb_spec (r + i) 8) as [Hs|Hs].
    + rewrite key_bit_at, Hb by lia. destruct (key !! S q) as [nb|]; [|apply Hcur; lia].
      rewrite Z.lor_spec, Hcur, Z.shiftr_spec, (testbit_byte_high nb), orb_false_r by lia. done.
    + replace (8 * q + (r + i))%nat with (8 * S q + (r + i - 8))%nat by lia.
      rewrite key_bit_at by lia. destruct (key !! S q) as [nb|]; [|apply Hcur; lia].
      rewrite Z.lor_spec, Hcur, Z.shiftr_spec by lia. simpl. f_equal; lia.
Qed.

Lemma land_63_range z : 0 <= Z.land z 63 <= 63.
Proof.
  replace (Z.land z 63) with (z mod 2 ^ 6) by (symmetry; apply (Z.land_ones z 6); lia).
  pose proof (Z.mod_pos_bound z (2 ^ 6)). lia.
Qed.

Lemma nibble_none key pos : get_next_nibble key pos = -1 <-> (8 * length key <= pos)%nat.
Proof.
  unfold get_next_nibble. destruct (key !! (pos / 8)%nat) as [b|] eqn:E.
  - apply lookup_lt_Some in E.
    pose proof (Nat.div_mod_eq pos 8). pose proof (Nat.mod_upper_bound pos 8).
    split; [|lia]. intros H'. exfalso. revert H'. unfold BRANCH_MASK.
    case_match; [|case_match];
      match goal with |- Z.land ?x 63 = _ -> _ => pose proof (land_63_range x) end; lia.
  - split; [|done]. intros _. apply lookup_ge_None in E.
    pose proof (Nat.Div0.mul_div_le pos 8). lia.
Qed.

Lemma nibble_range key pos :
  (pos < 8 * length key)%nat -> 0 <= get_next_nibble key pos <= 63.
Proof.
  intros H. assert (Hn : get_next_nibble key pos <> -1) by (rewrite nibble_none; lia).
  revert Hn. unfold get_next_nibble. case_match; [|done]. intros _.
  unfold BRANCH_MASK. case_match; [|case_match]; apply land_63_range.
Qed.

(** ** Digits

    The trie only ever reads nibbles at multiples of 6 bits: [dig key j] is the
    [j]-th digit of the key's path. *)

Definition dig (key : bytes) (j : nat) : Z := get_next_nibble key (BRANCH_BITS * j).

Lemma dig_neg key j : dig key j = -1 <-> (8 * length key <= 6 * j)%nat.
Proof. unfold dig, BRANCH_BITS. apply nibble_none. Qed.

Lemma dig_range key j : dig key j <> -1 -> 0 <= dig key j <= 63.
Proof.
  intros H. unfold dig in *. rewrite nibble_none in H. apply nibble_range. lia.
Qed.

Lemma dig_ge0 key j : 0 <= dig key j <-> dig key j <> -1.
Proof. split; [lia|]. intros H. pose proof (dig_range key j H). lia. Qed.

(** A digit exists below any existing one. *)
Lemma dig_mono key i j : (i <= j)%nat -> dig key j <> -1 -> dig key i <> -1.
Proof. rewrite !dig_neg. lia. Qed.

Lemma key_bit_past key i : (8 * length key <= i)%nat -> key_bit key i = false.
Proof.
  intros H. unfold key_bit. rewrite lookup_ge_None_2; [done|].
  apply Nat.div_le_lower_bound; lia.
Qed.

Lemma dig_bit key (i : nat) :
  (i < 8 * length key)%nat ->
  key_bit key i = Z.testbit (dig key (i / 6)) (5 - Z.of_nat (i mod 6)).
Proof.
  intros H. unfold dig, BRANCH_BITS. pose proof (Nat.div_mod_eq i 6).
  pose proof (Nat.mod_upper_bound i 6). rewrite nibble_bit by lia. f_equal; lia.
Qed.

Lemma bits_key_inj k k' :
  length k = length k' -> (forall i, (i < 8 * length k)%nat -> key_bit k i = key_bit k' i) -> k = k'.
Proof.
  intros Hl H. apply list_eq_same_length with (n := length k); [done|done|].
  intros q b c Hq Hb Hc. apply b2z_inj. apply Z.bits_inj'. intros j Hj.
  destruct (Z.ltb_spec j 8); [|by rewrite !testbit_byte_high by lia].
  specialize (H (8 * q + Z.to_nat (7 - j))%nat ltac:(lia)). unfold key_bit in H.
  replace ((8 * q + Z.to_nat (7 - j)) / 8)%nat with q in H
    by (rewrite Nat.mul_comm, Nat.div_add_l, (Nat.div_small (Z.to_nat (7 - j))) by lia; lia).
  replace ((8 * q + Z.to_nat (7 - j)) mod 8)%nat with (Z.to_nat (7 - j)) in H
    by (rewrite Nat.add_comm, Nat.mul_comm, Nat.Div0.mod_add, Nat.mod_small; lia).
  rewrite Hb, Hc in H. replace (7 - Z.of_nat (Z.to_nat (7 - j))) with j in H by lia. done.
Qed.

(** Two keys with the same digits are the same key. *)
Lemma dig_inj k k' : (forall j, dig k j = dig k' j) -> k = k'.
Proof.
  intros H.
  assert (Hl : length k = length k').
  { assert (Hiff : forall j, (8 * length k <= 6 * j)%nat <-> (8 * length k' <= 6 * j)%nat).
    { intros j. by rewrite <- !dig_neg, H. }
    pose proof (Hiff ((8 * length k + 5) / 6)%nat) as [H1 _].
    pose proof (Hiff ((8 * length k' + 5) / 6)%nat) as [_ H2].
    pose proof (Nat.div_mod_eq (8 * length k + 5) 6).
    pose proof (Nat.mod_upper_bound (8 * length k + 5) 6).
    pose proof (Nat.div_mod_eq (8 * length k' + 5) 6).
    pose proof (Nat.mod_upper_bound (8 * length k' + 5) 6). lia. }
  apply bits_key_inj; [done|]. intros i Hi.
  rewrite !dig_bit by lia. by rewrite H.
Qed.

(** Distinct keys that are not nibble-prefixes of each other separate at some
    digit present in both. *)
Definition separated (k k' : bytes) : Prop :=
  exists j, dig k j <> dig k' j /\ dig k j <> -1 /\ dig k' j <> -1.

Lemma separated_sym k k' : separated k k' -> separated k' k.
Proof. intros (j & ? & ? & ?). exists j. auto. Qed.

Lemma separated_ne k k' : separated k k' -> k <> k'.
Proof. intros (j & Hne & _) ->. done. Qed.

Lemma same_length_separated k k' : length k = length k' -> k <> k' -> separated k k'.
Proof.
  intros Hl Hne.
  set (m := ((8 * length k + 5) / 6)%nat).
  destruct (decide (Forall (fun j => dig k j = dig k' j) (seq 0 m))) as [Hall|Hex].
  - exfalso. apply Hne. apply dig_inj. intros j.
    destruct (decide (dig k j = -1)) as [E|E].
    + rewrite E. symmetry. rewrite dig_neg in *. lia.
    + rewrite dig_neg in E. rewrite Forall_forall in Hall. apply Hall.
      apply elem_of_seq. unfold m.
      pose proof (Nat.div_mod_eq (8 * length k + 5) 6).
      pose proof (Nat.mod_upper_bound (8 * length k + 5) 6). lia.
  - apply not_Forall_Exists in Hex; [|apply _].
    apply Exists_exists in Hex as (j & Hj & Hd). exists j. split; [done|].
    assert (dig k j = -1 <-> dig k' j = -1) by (rewrite !dig_neg; lia).
    destruct (decide (dig k j = -1)); intuition congruence.
Qed.

(** ** The two path loops *)

Definition path_len (key : bytes) : nat := ((8 * length key + 5) / 6)%nat.

Lemma dig_path_len key j : dig key j <> -1 <-> (j < path_len key)%nat.
Proof.
  rewrite dig_neg. unfold path_len.
  pose proof (Nat.div_mod_eq (8 * length key + 5) 6).
  pose proof (Nat.mod_upper_bound (8 * length key + 5) 6). lia.
Qed.

Lemma full_path_loop_spec fuel key s :
  (8 * length key < fuel + 6 * s)%nat ->
  full_path_loop fuel key (BRANCH_BITS * s) = dig key <$> seq s (path_len key - s).
Proof.
  revert s. induction fuel as [|fuel IH]; intros s Hf; cbn [full_path_loop].
  - assert (~ (s < path_len key)%nat) by (rewrite <- dig_path_len, dig_neg; lia).
    by replace (path_len key - s)%nat with 0%nat by lia.
  - fold (dig key s). destruct (Z.eqb_spec (dig key s) (-1)) as [E|E].
    + assert (~ (s < path_len key)%nat) by (rewrite <- dig_path_len; auto).
      by replace (path_len key - s)%nat with 0%nat by lia.
    + pose proof (proj1 (dig_path_len _ _) E).
      replace (BRANCH_BITS * s + BRANCH_BITS)%nat with (BRANCH_BITS * S s)%nat
        by (unfold BRANCH_BITS; lia).
      rewrite IH by lia.
      replace (path_len key - s)%nat with (S (path_len key - S s)) by lia. done.
Qed.

(** The path of a key lists its digits; the loop stops exactly at the key's end. *)
Lemma get_full_path_digits key : get_full_path key = dig key <$> seq 0 (path_len key).
Proof.
  unfold get_full_path. rewrite (full_path_loop_spec _ _ 0) by lia. by rewrite Nat.sub_0_r.
Qed.

Lemma diverge_loop_spec fuel k1 k2 s :
  (8 * length k1 < fuel + 6 * s)%nat ->
  exists m,
    diverge_loop fuel k1 k2 (BRANCH_BITS * s)
    = (dig k1 <$> seq s m, (BRANCH_BITS * (s + m))%nat)
    /\ (forall j, (s <= j < s + m)%nat -> dig k1 j = dig k2 j /\ dig k1 j <> -1)
    /\ (dig k1 (s + m) <> dig k2 (s + m) \/ dig k1 (s + m) = -1).
Proof.
  revert s. induction fuel as [|fuel IH]; intros s Hf; cbn [diverge_loop].
  - exists 0%nat. rewrite Nat.add_0_r. split; [done|]. split; [lia|].
    right. apply dig_neg. lia.
  - fold (dig k1 s) (dig k2 s).
    destruct (negb (dig k1 s =? dig k2 s) || (dig k1 s =? -1)) eqn:E.
    + exists 0%nat. rewrite Nat.add_0_r. split; [done|]. split; [lia|].
      apply orb_prop in E as [E|E]; bool_to_prop; auto.
    + bool_to_prop.
      replace (BRANCH_BITS * s + BRANCH_BITS)%nat with (BRANCH_BITS * S s)%nat
        by (unfold BRANCH_BITS; lia).
      destruct (IH (S s) ltac:(lia)) as (m & -> & Hin & Hend).
      exists (S m). replace (s + S m)%nat with (S s + m)%nat by lia.
      split; [done|]. split; [|done].
      intros j Hj. destruct (decide (j = s)) as [->|]; [done|]. apply Hin. lia.
Qed.

(** What [get_nibbles_until_diverge] returns for distinct separated keys that
    agree on their first [s] digits. *)
Lemma diverge_separated k1 k2 s :
  separated k1 k2 -> (forall j, (j < s)%nat -> dig k1 j = dig k2 j) ->
  exists m,
    get_nibbles_until_diverge k1 k2 (BRANCH_BITS * s)
    = (dig k1 <$> seq s m, (BRANCH_BITS * (s + m))%nat)
    /\ (forall j, (j < s + m)%nat -> dig k1 j = dig k2 j)
    /\ dig k1 (s + m) <> dig k2 (s + m)
    /\ 0 <= dig k1 (s + m) <= 63 /\ 0 <= dig k2 (s + m) <= 63.
Proof.
  intros (j0 & Hne & H1 & H2) Hs. unfold get_nibbles_until_diverge.
  destruct (diverge_loop_spec (S (8 * length k1)) k1 k2 s ltac:(lia)) as (m & -> & Hin & Hend).
  exists m. split; [done|].
  assert (Hpre : forall j, (j < s + m)%nat -> dig k1 j = dig k2 j).
  { intros j Hj. destruct (decide (j < s)%nat); [auto|]. apply Hin. lia. }
  assert (Hj0 : (s + m <= j0)%nat).
  { destruct (decide (s + m <= j0)%nat); [done|]. exfalso. apply Hne, Hpre. lia. }
  assert (dig k1 (s + m) <> -1) by eauto using dig_mono.
  assert (dig k2 (s + m) <> -1) by eauto using dig_mono.
  destruct Hend as [Hend|]; [|done]. auto using dig_range.
Qed.

(** ** Properties *)

(** A key's nibble path determines the key: [get_full_path] is injective on
    byte strings, so distinct keys never collide on a trie position. *)
Theorem get_full_path_inj : forall k k' : bytes,
  get_full_path k = get_full_path k' -> k = k'.
Proof.
  intros k k' H. rewrite !get_full_path_digits in H.
  assert (Hl : path_len k = path_len k').
  { apply (f_equal length) in H. by rewrite !length_fmap, !length_seq in H. }
  apply dig_inj. intros j. destruct (decide (j < path_len k)%nat) as [Hj|Hj].
  - rewrite Hl in H. apply (f_equal (lookup j)) in H.
    rewrite !list_lookup_fmap, !lookup_seq_lt in H by lia. by injection H.
  - destruct (decide (dig k j = -1)) as [->|Hn]; [|by apply dig_path_len in Hn].
    destruct (decide (dig k' j = -1)) as [->|Hn]; [done|]. apply dig_path_len in Hn. lia.
Qed.

Lemma get_full_path_inj_witness :
  get_full_path [x03; xc0] = [0; 60; 0] /\ [x03; xc0] = [z2b 3; z2b 192].
Proof.
  split; [reflexivity|].
  apply get_full_path_inj. vm_compute. reflexivity.
Defined.
