(* ===== verification/Node.v ===== *)
(** * Nodes of the vector commitment tree

    [crates/quil-tries/src/node.rs]: leaves, 64-way branches with prefix
    compression, and their commitments.  The 64-slot child array is a list (its
    length is part of the well-formedness invariant of [TreeSpec]).  SHA-512 and
    the branch commitment scheme ([InclusionProver::commit_raw], KZG or SHA-256)
    are parameters: code outside this repository or behind a trait. *)

From Stdlib Require Import Strings.Byte.
From S2P Require Import Prelude Bytes Nibble.

(** ** Interfaces *)

(** The [sha2] crate's SHA-512: a digest of 64 bytes. *)
Class Sha512 := {
  sha512 : bytes -> bytes;
  sha512_length : forall b, length (sha512 b) = 64%nat;
}.

(** A value of the [Multiproof] trait, by its three accessors. *)
Record Multiproof : Type := mkMultiproof {
  mp_commitment : bytes;
  mp_proof : bytes;
  mp_evaluations : list bytes;
}.

(** The methods of the [InclusionProver] trait that trees and traversal proofs
    use: [commit_raw data poly_size], [prove_multiple commits polys indices
    poly_size] and [verify_multiple commits evaluations indices poly_size
    multi_commitment proof].  [None] is an error; the callers do not look at which. *)
Class InclusionProver := {
  commit_raw : bytes -> Z -> option bytes;
  prove_multiple_raw : list bytes -> list bytes -> list Z -> Z -> option Multiproof;
  verify_multiple : list bytes -> list bytes -> list Z -> Z -> bytes -> bytes -> bool;
}.

(** ** Data *)

Record LeafNode : Type := mkLeafNode {
  lf_key : bytes;
  lf_value : bytes;
  lf_hash_target : bytes;
  lf_commitment : bytes;
  lf_size : Z;
}.

(** [N] is the type of the children, tied by [VectorCommitmentNode] below. *)
Record BranchNode (N : Type) : Type := mkBranchNode {
  br_prefix : list Z;
  br_children : list (option N);
  br_commitment : bytes;
  br_size : Z;
  br_leaf_count : Z;
  br_longest_branch : Z;
  br_full_prefix : list Z;
  br_fully_loaded : bool;
}.
Arguments mkBranchNode {N}.
Arguments br_prefix {N}.
Arguments br_children {N}.
Arguments br_commitment {N}.
Arguments br_size {N}.
Arguments br_leaf_count {N}.
Arguments br_longest_branch {N}.
Arguments br_full_prefix {N}.
Arguments br_fully_loaded {N}.

Inductive VectorCommitmentNode : Type :=
| Leaf (leaf : LeafNode)
| Branch (branch : BranchNode VectorCommitmentNode).

Abbreviation Node := VectorCommitmentNode.
Abbreviation Children := (list (option VectorCommitmentNode)).

(** Field updates. *)
Definition with_children (b : BranchNode Node) (c : Children) : BranchNode Node :=
  mkBranchNode (br_prefix b) c (br_commitment b) (br_size b) (br_leaf_count b)
    (br_longest_branch b) (br_full_prefix b) (br_fully_loaded b).
Definition with_prefix (b : BranchNode Node) (p : list Z) : BranchNode Node :=
  mkBranchNode p (br_children b) (br_commitment b) (br_size b) (br_leaf_count b)
    (br_longest_branch b) (br_full_prefix b) (br_fully_loaded b).
Definition with_commitment (b : BranchNode Node) (c : bytes) : BranchNode Node :=
  mkBranchNode (br_prefix b) (br_children b) c (br_size b) (br_leaf_count b)
    (br_longest_branch b) (br_full_prefix b) (br_fully_loaded b).
Definition with_size (b : BranchNode Node) (s : Z) : BranchNode Node :=
  mkBranchNode (br_prefix b) (br_children b) (br_commitment b) s (br_leaf_count b)
    (br_longest_branch b) (br_full_prefix b) (br_fully_loaded b).
Definition with_counts (b : BranchNode Node) (lc lb : Z) : BranchNode Node :=
  mkBranchNode (br_prefix b) (br_children b) (br_commitment b) (br_size b) lc lb
    (br_full_prefix b) (br_fully_loaded b).

(** [BranchNode::new] *)
Definition new_branch (prefix : list Z) : BranchNode Node :=
  mkBranchNode prefix (replicate BRANCH_NODES None) [] 0 0 0 [] true.

(** Induction over a node and its resident children. *)
Section node_ind.
Variable P : Node -> Prop.
Hypothesis Hleaf : forall l, P (Leaf l).
Hypothesis Hbranch : forall b,
  (forall i c, br_children b !! i = Some (Some c) -> P c) -> P (Branch b).

Fixpoint node_ind_nested (n : Node) : P n.
Proof.
  destruct n as [l|b]; [apply Hleaf|]. apply Hbranch.
  induction (br_children b) as [|o cs IH]; intros i c Hi; [discriminate Hi|].
  destruct i as [|i]; [|exact (IH i c Hi)].
  destruct o as [c'|]; [|discriminate Hi]. pose proof (node_ind_nested c') as Hc'.
  injection Hi as <-. exact Hc'.
Defined.
End node_ind.

(** ** Accessors *)

Definition is_leaf (n : Node) : bool := match n with Leaf _ => true | Branch _ => false end.
Definition is_branch (n : Node) : bool := match n with Leaf _ => false | Branch _ => true end.

Definition node_commitment (n : Node) : bytes :=
  match n with Leaf l => lf_commitment l | Branch b => br_commitment b end.

Definition node_size (n : Node) : Z :=
  match n with Leaf l => lf_size l | Branch b => br_size b end.

(** [BranchNode::child_count] *)
Definition child_count (b : BranchNode Node) : nat :=
  length (filter is_Some (br_children b)).

(** [LeafNode::value_is_bound] *)
Definition value_is_bound (l : LeafNode) : bool :=
  match lf_hash_target l with [] => true | _ => false end.

(** [VectorCommitmentNode::collect_leaves]: the leaves in slot order. *)
Fixpoint collect_leaves (n : Node) : list LeafNode :=
  match n with
  | Leaf l => [l]
  | Branch b =>
      concat (map (fun c => match c with Some c => collect_leaves c | None => [] end)
                  (br_children b))
  end.

(** The first [Some] of [f] over a list, as the [for .. { if let Some(v) .. return }] loop. *)
Section first_some.
Context {A B : Type} (f : A -> option B).
Fixpoint first_some (l : list A) : option B :=
  match l with
  | [] => None
  | x :: l' => match f x with Some y => Some y | None => first_some l' end
  end.

Lemma first_some_Some l y : first_some l = Some y -> exists i x, l !! i = Some x /\ f x = Some y.
Proof.
  induction l as [|x l IH]; [done|]. simpl. destruct (f x) as [y'|] eqn:E.
  - intros [= ->]. by exists 0%nat, x.
  - intros (i & x' & Hi & Hx)%IH. by exists (S i), x'.
Qed.

Lemma first_some_None l i x : first_some l = None -> l !! i = Some x -> f x = None.
Proof.
  revert i. induction l as [|x' l IH]; intros i; [done|]. simpl. destruct (f x') eqn:E; [done|].
  destruct i as [|i]; simpl; [congruence|]. by apply IH.
Qed.
End first_some.

(** [VectorCommitmentNode::find_leaf_value] *)
Fixpoint find_leaf_value (n : Node) (target : bytes) : option bytes :=
  match n with
  | Leaf l => if decide (lf_key l = target) then Some (lf_value l) else None
  | Branch b =>
      first_some (fun c => match c with Some c => find_leaf_value c target | None => None end)
                 (br_children b)
  end.

(** [VectorCommitmentNode::has_unbound_value] *)
Fixpoint has_unbound_value (n : Node) : bool :=
  match n with
  | Leaf l => negb (value_is_bound l)
  | Branch b =>
      existsb (fun c => match c with Some c => has_unbound_value c | None => false end)
              (br_children b)
  end.

(** ** Commitments *)

Section commit.
Context `{Sha512} `{InclusionProver}.

(** [LeafNode::compute_commitment] *)
Definition compute_commitment (l : LeafNode) : LeafNode :=
  mkLeafNode (lf_key l) (lf_value l) (lf_hash_target l)
    (sha512 (x00 :: lf_key l ++
             match lf_hash_target l with [] => lf_value l | _ => lf_hash_target l end))
    (lf_size l).

(** [LeafNode::commit] *)
Definition leaf_commit (recalculate : bool) (l : LeafNode) : LeafNode :=
  if recalculate || bool_decide (lf_commitment l = []) then compute_commitment l else l.

(** A leaf as [insert_recursive] builds it. *)
Definition new_leaf (key value hash_target : bytes) (size : Z) : LeafNode :=
  compute_commitment (mkLeafNode key value hash_target [] size).

(** The 64-byte entry of one child slot in the branch vector. *)
Definition child_commitment (c : option Node) : bytes :=
  match c with
  | None => replicate 64 x00
  | Some (Leaf l) => resize 64 x00 (lf_commitment l)
  | Some (Branch b) =>
      sha512 (x01 :: concat (map (be_bytes 4) (br_prefix b)) ++ br_commitment b)
  end.

(** [BranchNode::get_polynomial]: 64 child entries of 64 bytes. *)
Definition get_polynomial (b : BranchNode Node) : bytes :=
  concat (map child_commitment (br_children b)).

(** [BranchNode::commit] *)
Definition branch_commit (recalculate : bool) (b : BranchNode Node) : BranchNode Node :=
  if negb recalculate && negb (bool_decide (br_commitment b = [])) then b
  else
    with_commitment b
      match commit_raw (get_polynomial b) 64 with
      | Some c => c
      | None => replicate 64 x00
      end.

(** [commit_node] of [tree.rs].  The children are committed independently, so
    the rayon scheduling (budget, threshold) does not show in the result. *)
Fixpoint commit_node (recalculate : bool) (n : Node) : Node :=
  match n with
  | Leaf l => Leaf (leaf_commit recalculate l)
  | Branch b =>
      let children :=
        map (fun c => match c with
                      | Some c => Some (commit_node recalculate c)
                      | None => None
                      end) (br_children b) in
      let aggregate :=
        list_sumZ (fun c => match c with Some c => node_size c | None => 0 end) children in
      Branch (branch_commit recalculate (with_size (with_children b children) aggregate))
  end.

Lemma length_child_commitment c : length (child_commitment c) = 64%nat.
Proof.
  destruct c as [[l|b]|]; simpl; rewrite ?length_resize, ?sha512_length, ?length_replicate;
    reflexivity.
Qed.

(** Slot [i] of the branch vector is the entry of child [i]. *)
Lemma get_polynomial_slot (b : BranchNode Node) i c :
  br_children b !! i = Some c ->
  take 64 (drop (i * 64) (get_polynomial b)) = child_commitment c.
Proof.
  unfold get_polynomial. revert i. induction (br_children b) as [|o cs IH]; intros i Hi; [done|].
  cbn [map concat]. destruct i as [|i].
  - injection Hi as ->. rewrite Nat.mul_0_l, drop_0, take_app_length'; [done|].
    by rewrite length_child_commitment.
  - replace (S i * 64)%nat with (length (child_commitment o) + i * 64)%nat
      by (rewrite length_child_commitment; lia).
    rewrite drop_app_add. by apply IH.
Qed.

Lemma length_get_polynomial (b : BranchNode Node) :
  length (get_polynomial b) = (length (br_children b) * 64)%nat.
Proof.
  unfold get_polynomial. induction (br_children b) as [|o cs IH]; [done|].
  simpl. rewrite length_app, length_child_commitment, IH. lia.
Qed.
End commit.

(** A concrete digest and prover, to evaluate definitions on examples: the
    digest pads or truncates to 64 bytes, the prover commits with it and its
    multiproof lists the openings it vouches for. *)
Module Demo.
Definition pad_sha512 : Sha512 :=
{| sha512 := resize 64 x00; sha512_length b := length_resize b 64 x00 |}.
Definition openings (commits evals : list bytes) (indices : list Z) : bytes :=
concat commits ++ concat evals ++ concat (be_bytes 8 <$> indices).
Definition list_prover : InclusionProver :=
{| commit_raw p _ := Some (resize 64 x00 p);
   prove_multiple_raw commits polys indices _ :=
     let evals := zip_with (fun p i => take 64 (drop (Z.to_nat i * 64) p)) polys indices in
     Some (mkMultiproof [x01] (x01 :: openings commits evals indices) evals);
   verify_multiple commits evals indices _ _ proof :=
     bool_decide (proof = x01 :: openings commits evals indices) |}.
End Demo.
