(* ===== verification/Tree.v ===== *)
(** * Operations of the in-memory vector commitment tree

    [crates/quil-tries/src/tree.rs]: insert, get, delete, leaves, commit and
    the traversal proofs.  Keys are byte strings read as nibble paths; depths
    are bit positions. *)

From Stdlib Require Import Strings.Byte.
From S2P Require Import Prelude Bytes Nibble Node.

Record VectorCommitmentTree : Type := mkTree { root : option Node }.

Definition new_tree : VectorCommitmentTree := mkTree None.

(** ** Prefix matching

    The loop [for (i, &p) in branch.prefix.iter().enumerate()] shared by all
    the walks: either the first mismatch [(i, p, n)], [n] being the key's
    nibble there, or the depth reached after the whole prefix. *)
Fixpoint match_prefix (key : bytes) (d : nat) (prefix : list Z) (i : nat)
    : (nat * Z * Z) + nat :=
  match prefix with
  | [] => inr d
  | p :: prefix' =>
      let n := get_next_nibble key d in
      if n =? p then match_prefix key (d + BRANCH_BITS) prefix' (S i)
      else inl (i, p, n)
  end.

(** ** Array access

    [children[i]] for an array of 64 slots: a panic out of range.  [with_slot]
    applies a function to the slot read; [set_slot] writes one. *)
Section slots.
Context {A B : Type} (f : A -> outcome B).
Fixpoint with_slot (l : list A) (i : nat) : outcome B :=
  match l, i with
  | [], _ => Panic
  | x :: _, O => f x
  | _ :: l', S i' => with_slot l' i'
  end.
End slots.

Definition set_slot (l : Children) (i : Z) (c : option Node) : outcome Children :=
  if (0 <=? i) && (i <? Z.of_nat (length l)) then Ok (<[Z.to_nat i := c]> l) else Panic.

(** [leaf_count] and [longest_branch] of a branch recomputed from its children. *)
Definition count_children (cs : Children) : Z :=
  list_sumZ (fun c => match c with
                      | Some (Leaf _) => 1
                      | Some (Branch b) => br_leaf_count b
                      | None => 0
                      end) cs.
Definition longest_children (cs : Children) : Z :=
  1 + list_maxZ (fun c => match c with
                          | Some (Branch b) => br_longest_branch b
                          | _ => 0
                          end) cs.

(** ** Lookup *)

(** [get_recursive] *)
Fixpoint get_node (n : Node) (key : bytes) (depth : nat) : outcome (option LeafNode) :=
  match n with
  | Leaf l => Ok (if decide (lf_key l = key) then Some l else None)
  | Branch b =>
      match match_prefix key depth (br_prefix b) 0 with
      | inl _ => Ok None
      | inr d =>
          let nibble := get_next_nibble key d in
          if nibble <? 0 then Ok None
          else
            with_slot (fun c => match c with
                                | None => Ok None
                                | Some c => get_node c key (d + BRANCH_BITS)
                                end) (br_children b) (Z.to_nat nibble)
      end
  end.

Definition get_recursive (o : option Node) (key : bytes) (depth : nat) : outcome (option LeafNode) :=
  match o with None => Ok None | Some n => get_node n key depth end.

(** [VectorCommitmentTree::get_leaf] and [get] *)
Definition get_leaf (t : VectorCommitmentTree) (key : bytes) : outcome (option LeafNode) :=
  get_recursive (root t) key 0.
Definition get (t : VectorCommitmentTree) (key : bytes) : outcome (option bytes) :=
  fmap (M := outcome) (fmap (M := option) lf_value) (get_leaf t key).

(** [VectorCommitmentTree::leaves] *)
Definition leaves (t : VectorCommitmentTree) : list (bytes * bytes) :=
  match root t with
  | None => []
  | Some n => map (fun l => (lf_key l, lf_value l)) (collect_leaves n)
  end.

(** [VectorCommitmentTree::has_unbound_values] *)
Definition has_unbound_values (t : VectorCommitmentTree) : bool :=
  match root t with None => false | Some n => has_unbound_value n end.

(** ** Insertion *)

Section insert.
Context `{Sha512}.

(** The two-leaf branch that replaces [existing] when a different key arrives. *)
Definition split_leaf (existing fresh : LeafNode) (depth : nat) : outcome Node :=
  let '(common, diverge_depth) :=
    get_nibbles_until_diverge (lf_key existing) (lf_key fresh) depth in
  let branch := new_branch common in
  let n1 := get_next_nibble (lf_key existing) diverge_depth in
  let n2 := get_next_nibble (lf_key fresh) diverge_depth in
  cs ← (if 0 <=? n1 then set_slot (br_children branch) n1 (Some (Leaf existing))
        else Ok (br_children branch));
  cs ← (if 0 <=? n2 then set_slot cs n2 (Some (Leaf fresh)) else Ok cs);
  Ok (Branch (with_counts (with_children branch cs) 2 (br_longest_branch branch))).

(** A key leaves the compressed prefix of [b] at index [i]: a new parent holds
    the old branch at [p] and the new leaf at [n]. *)
Definition split_branch (b : BranchNode Node) (fresh : LeafNode) (i : nat) (p n : Z)
    : outcome Node :=
  let new_parent := new_branch (take i (br_prefix b)) in
  let old := with_commitment (with_prefix b (drop (S i) (br_prefix b))) [] in
  cs ← set_slot (br_children new_parent) p (Some (Branch old));
  cs ← (if 0 <=? n then set_slot cs n (Some (Leaf fresh)) else Ok cs);
  Ok (Branch (with_counts (with_children new_parent cs)
                (sat_add_u64 (br_leaf_count b) 1) (sat_add_u64 (br_longest_branch b) 1))).

(** [insert_recursive] on a present node. *)
Fixpoint insert_node (n : Node) (fresh : LeafNode) (depth : nat) : outcome Node :=
  match n with
  | Leaf existing =>
      if decide (lf_key existing = lf_key fresh) then Ok (Leaf fresh)
      else split_leaf existing fresh depth
  | Branch b =>
      match match_prefix (lf_key fresh) depth (br_prefix b) 0 with
      | inl (i, p, n) => split_branch b fresh i p n
      | inr d =>
          let nibble := get_next_nibble (lf_key fresh) d in
          if nibble <? 0 then Err InvalidArgument
          else
            new_child ←
              with_slot (fun c => match c with
                                  | None => Ok (Leaf fresh)
                                  | Some c => insert_node c fresh (d + BRANCH_BITS)
                                  end) (br_children b) (Z.to_nat nibble);
            let cs := <[Z.to_nat nibble := Some new_child]> (br_children b) in
            Ok (Branch (with_counts (with_commitment (with_children b cs) [])
                          (count_children cs) (longest_children cs)))
      end
  end.

Definition insert_recursive (o : option Node) (key value hash_target : bytes) (size : Z)
    (depth : nat) : outcome Node :=
  let fresh := new_leaf key value hash_target size in
  match o with
  | None => Ok (Leaf fresh)
  | Some n => insert_node n fresh depth
  end.

(** [VectorCommitmentTree::insert]: [self.root.take()] empties the tree before
    the walk, and the [?] on its result leaves it empty when the walk fails. *)
Definition insert (t : VectorCommitmentTree) (key value hash_target : bytes) (size : Z)
    : outcome unit * VectorCommitmentTree :=
  match insert_recursive (root t) key value hash_target size 0 with
  | Ok n => (Ok tt, mkTree (Some n))
  | Err e => (Err e, mkTree None)
  | Panic => (Panic, mkTree None)
  end.
End insert.

(** ** Deletion *)

(** [merge_branch_with_child] *)
Definition merge_branch_with_child (b : BranchNode Node) (child_index : nat) (child : Node) : Node :=
  match child with
  | Leaf l => Leaf l
  | Branch cb =>
      Branch (with_commitment
                (with_prefix cb (br_prefix b ++ [Z.of_nat child_index] ++ br_prefix cb)) [])
  end.

(** The occupied slots, in order. *)
Fixpoint occupied (cs : Children) (i : nat) : list (nat * Node) :=
  match cs with
  | [] => []
  | Some c :: cs' => (i, c) :: occupied cs' (S i)
  | None :: cs' => occupied cs' (S i)
  end.

(** The end of [delete_recursive] on a branch whose child [idx] lost a leaf. *)
Definition collapse (b : BranchNode Node) (cs : Children) : option Node :=
  match occupied cs 0 with
  | [] => None
  | [(only_idx, only)] => Some (merge_branch_with_child b only_idx only)
  | _ =>
      Some (Branch (with_counts (with_commitment (with_children b cs) [])
                      (count_children cs) (longest_children cs)))
  end.

(** [delete_recursive]: whether the key was found, and the replacement node. *)
Fixpoint delete_node (n : Node) (key : bytes) (depth : nat) : outcome (bool * option Node) :=
  match n with
  | Leaf l => if decide (lf_key l = key) then Ok (true, None) else Ok (false, Some n)
  | Branch b =>
      match match_prefix key depth (br_prefix b) 0 with
      | inl _ => Ok (false, Some n)
      | inr d =>
          let nibble := get_next_nibble key d in
          if nibble <? 0 then Ok (false, Some n)
          else
            '(found, new_child) ←
              with_slot (fun c => match c with
                                  | None => Ok (false, None)
                                  | Some c => delete_node c key (d + BRANCH_BITS)
                                  end) (br_children b) (Z.to_nat nibble);
            let cs := <[Z.to_nat nibble := new_child]> (br_children b) in
            if negb found then Ok (false, Some (Branch (with_children b cs)))
            else Ok (true, collapse b cs)
      end
  end.

Definition delete_recursive (o : option Node) (key : bytes) (depth : nat)
    : outcome (bool * option Node) :=
  match o with None => Ok (false, None) | Some n => delete_node n key depth end.

(** [VectorCommitmentTree::delete] *)
Definition delete (t : VectorCommitmentTree) (key : bytes) : outcome unit * VectorCommitmentTree :=
  match key with
  | [] => (Err InvalidArgument, t)
  | _ =>
      match delete_recursive (root t) key 0 with
      | Ok (found, new_root) => (if found then Ok tt else Err NotFound, mkTree new_root)
      | Err e => (Err e, mkTree None)
      | Panic => (Panic, mkTree None)
      end
  end.

(** ** Commitment and traversal proofs *)

Section prove.
Context `{Sha512} `{InclusionProver}.

(** [VectorCommitmentTree::commit]: the root commitment and the updated tree. *)
Definition commit (t : VectorCommitmentTree) : bytes * VectorCommitmentTree :=
  match root t with
  | None => (replicate 64 x00, t)
  | Some n => let n' := commit_node true n in (node_commitment n', mkTree (Some n'))
  end.

(** Polynomials, commitments, evaluations and paths, from the root down. *)
Definition walk : Type := list bytes * list bytes * list bytes * list (list Z).

(** The evaluation at slot [idx] of a branch vector. *)
Definition poly_slot (poly : bytes) (idx : nat) : bytes :=
  if (idx * 64 + 64 <=? length poly)%nat then take 64 (drop (idx * 64) poly)
  else replicate 64 x00.

(** [prove_recursive] *)
Fixpoint prove_recursive (n : Node) (key : bytes) (depth : nat) : outcome (option walk) :=
  match n with
  | Leaf l =>
      Ok (if decide (lf_key l = key) then
            let y := match lf_hash_target l with [] => lf_value l | _ => lf_hash_target l end in
            Some ([], [lf_commitment l], [y], [])
          else None)
  | Branch b =>
      match match_prefix key depth (br_prefix b) 0 with
      | inl _ => Ok None
      | inr d =>
          let final_nibble := get_next_nibble key d in
          if final_nibble <? 0 then Ok None
          else
            let idx := Z.to_nat final_nibble in
            let poly := get_polynomial b in
            let y := poly_slot poly idx in
            w ← with_slot (fun c => match c with
                                    | None => Ok None
                                    | Some c => prove_recursive c key (d + BRANCH_BITS)
                                    end) (br_children b) idx;
            Ok (match w with
                | None => None
                | Some (pl, co, ys, pa) =>
                    Some (poly :: pl, br_commitment b :: co, y :: ys,
                          (br_prefix b ++ [final_nibble]) :: pa)
                end)
      end
  end.

Record TraversalSubProof : Type := mkSubProof {
  sp_commits : list bytes;
  sp_ys : list bytes;
  sp_paths : list (list Z);
}.
Record TraversalProof : Type := mkTraversalProof {
  tp_multiproof : Multiproof;
  tp_ys : list bytes;
  tp_commits : list bytes;
  tp_paths : list (list Z);
}.
Record MultiKeyTraversalProof : Type := mkMultiKeyProof {
  mk_multiproof : Multiproof;
  mk_sub_proofs : list TraversalSubProof;
}.

(** [i as u64] on the [i32] nibbles of a path; the last one is the slot opened. *)
Definition path_u64 (p : list Z) : list Z := map wrap_u64 p.
Definition path_index (p : list Z) : Z := wrap_u64 (default 0 (last p)).

(** [VectorCommitmentTree::prove] *)
Definition prove (t : VectorCommitmentTree) (key : bytes) : outcome (option TraversalProof) :=
  match key, root t with
  | [], _ | _, None => Ok None
  | _, Some n =>
      w ← prove_recursive n key 0;
      Ok (match w with
          | None | Some (_, [], _, _) => None
          | Some (polys, commits, ys, paths) =>
              match prove_multiple_raw (removelast commits) polys (map path_index paths) 64 with
              | Some mp => Some (mkTraversalProof mp ys commits (map path_u64 paths))
              | None => None
              end
          end)
  end.

(** The accumulators of [prove_multiple]: sub-proofs, polynomials, commitments, indices. *)
Definition aggregate : Type :=
  list TraversalSubProof * list bytes * list bytes * list Z.

(** One iteration of its loop over the keys. *)
Definition prove_key (n : Node) (acc : aggregate) (key : bytes) : outcome aggregate :=
  match key with
  | [] => Ok acc
  | _ =>
      w ← prove_recursive n key 0;
      let '(sub_proofs, agg_polys, agg_commits, agg_indices) := acc in
      Ok (match w with
          | None | Some (_, [], _, _) => acc
          | Some (polys, commits, ys, paths) =>
              (sub_proofs ++ [mkSubProof commits ys (map path_u64 paths)],
               agg_polys ++ polys, agg_commits ++ removelast commits,
               agg_indices ++ map path_index paths)
          end)
  end.

Fixpoint prove_keys (n : Node) (acc : aggregate) (keys : list bytes) : outcome aggregate :=
  match keys with
  | [] => Ok acc
  | key :: keys' => acc ← prove_key n acc key; prove_keys n acc keys'
  end.

(** [VectorCommitmentTree::prove_multiple] *)
Definition prove_multiple (t : VectorCommitmentTree) (keys : list bytes)
    : outcome (option MultiKeyTraversalProof) :=
  match root t with
  | None => Ok None
  | Some n =>
      '(sub_proofs, agg_polys, agg_commits, agg_indices) ← prove_keys n ([], [], [], []) keys;
      Ok (match agg_commits with
          | [] => None
          | _ =>
              match prove_multiple_raw agg_commits agg_polys agg_indices 64 with
              | Some mp => Some (mkMultiKeyProof mp sub_proofs)
              | None => None
              end
          end)
  end.
End prove.

(** ** The wire format of multi-key proofs *)

(** [put_u32] of a length ([len as u32]). *)
Definition put_u32 (v : nat) : bytes := be_bytes 4 (Z.of_nat v).

Definition put_field (b : bytes) : bytes := put_u32 (length b) ++ b.
Definition put_fields (l : list bytes) : bytes :=
  put_u32 (length l) ++ concat (put_field <$> l).

(** [serialize_multiproof] *)
Definition serialize_multiproof (mp : Multiproof) : bytes :=
  put_field (mp_commitment mp) ++ put_field (mp_proof mp) ++ put_fields (mp_evaluations mp).

Definition put_path (path : list Z) : bytes :=
  put_u32 (length path) ++ concat (be_bytes 8 <$> path).
Definition put_sub_proof (sp : TraversalSubProof) : bytes :=
  put_fields (sp_commits sp) ++ put_fields (sp_ys sp)
  ++ put_u32 (length (sp_paths sp)) ++ concat (put_path <$> sp_paths sp).

(** [MultiKeyTraversalProof::to_bytes] *)
Definition to_bytes (p : MultiKeyTraversalProof) : bytes :=
  put_field (serialize_multiproof (mk_multiproof p))
  ++ put_u32 (length (mk_sub_proofs p)) ++ concat (put_sub_proof <$> mk_sub_proofs p).
