(* ===== verification/TreeSpec.v ===== *)
(** * Correctness of the vector commitment tree

    The well-formedness invariant of [tree.rs] trees, the set of leaves as the
    abstract state, and the refinement of insert, get and delete to it. *)

From Stdlib Require Import Strings.Byte.
From S2P Require Import Prelude Bytes Nibble Node Tree.

(** ** Digit prefixes *)

(** The first digits of [k] are [pre]. *)
Definition agrees (k : bytes) (pre : list Z) : Prop :=
  forall j p, pre !! j = Some p -> dig k j = p.

Lemma agrees_nil k : agrees k [].
Proof. intros j p H. by rewrite lookup_nil in H. Qed.

Lemma agrees_app k pre q :
  agrees k (pre ++ q) <->
  agrees k pre /\ (forall j p, q !! j = Some p -> dig k (length pre + j) = p).
Proof.
  unfold agrees. split.
  - intros H. split; intros j p Hj.
    + apply H. by apply lookup_app_l_Some.
    + apply H. rewrite lookup_app_r by lia. by replace (length pre + j - length pre)%nat with j by lia.
  - intros [H1 H2] j p. rewrite lookup_app_Some. intros [Hj|[Hle Hj]]; [auto|].
    specialize (H2 _ _ Hj). by replace (length pre + (j - length pre))%nat with j in H2 by lia.
Qed.

Lemma agrees_app_l k pre q : agrees k (pre ++ q) -> agrees k pre.
Proof. rewrite agrees_app. tauto. Qed.

Lemma agrees_snoc k pre i : agrees k (pre ++ [i]) <-> agrees k pre /\ dig k (length pre) = i.
Proof.
  rewrite agrees_app. split; intros [H1 H2]; split; auto.
  - specialize (H2 0%nat i eq_refl). by rewrite Nat.add_0_r in H2.
  - intros [|j] p Hj; [|done]. injection Hj as ->. by rewrite Nat.add_0_r.
Qed.

Lemma agrees_digits k s : agrees k (dig k <$> seq 0 s).
Proof.
  intros j p. rewrite list_lookup_fmap, fmap_Some. intros (i & Hi & ->).
  apply lookup_seq in Hi as [-> _]. done.
Qed.

(** The outcome of the prefix loop from digit [s]. *)
Lemma match_prefix_spec key s prefix i :
  match match_prefix key (BRANCH_BITS * s) prefix i with
  | inr d =>
      d = (BRANCH_BITS * (s + length prefix))%nat
      /\ (forall j p, prefix !! j = Some p -> dig key (s + j) = p)
  | inl (i', p, n) =>
      exists m, i' = (i + m)%nat /\ prefix !! m = Some p /\ n = dig key (s + m) /\ n <> p
        /\ (forall j q, prefix !! j = Some q -> (j < m)%nat -> dig key (s + j) = q)
  end.
Proof.
  revert s i. induction prefix as [|p prefix IH]; intros s i; cbn [match_prefix].
  - cbn [length]. rewrite Nat.add_0_r. split; [done|]. intros j q Hj; by rewrite lookup_nil in Hj.
  - fold (dig key s). destruct (Z.eqb_spec (dig key s) p) as [E|E].
    + replace (BRANCH_BITS * s + BRANCH_BITS)%nat with (BRANCH_BITS * S s)%nat
        by (unfold BRANCH_BITS; lia).
      specialize (IH (S s) (S i)).
      destruct (match_prefix key (BRANCH_BITS * S s) prefix (S i)) as [[[i' p'] n]|d].
      * destruct IH as (m & -> & Hp & -> & Hne & Hpre). exists (S m).
        replace (s + S m)%nat with (S s + m)%nat by lia.
        repeat split; [lia|done|done|].
        intros [|j] q Hj Hlt; [injection Hj as ->; by rewrite Nat.add_0_r|].
        replace (s + S j)%nat with (S s + j)%nat by lia. apply Hpre; [done|lia].
      * destruct IH as [-> Hpre]. split; [f_equal; simpl; lia|].
        intros [|j] q Hj; [injection Hj as ->; by rewrite Nat.add_0_r|].
        replace (s + S j)%nat with (S s + j)%nat by lia. by apply Hpre.
    + exists 0%nat. rewrite !Nat.add_0_r. repeat split; [done|]. intros; lia.
Qed.

(** ** Slots *)

Lemma with_slot_lookup {A B} (f : A -> outcome B) l i x :
  l !! i = Some x -> with_slot f l i = f x.
Proof. revert i. induction l as [|y l IH]; intros [|i] Hi; simpl in *; try done; [congruence|auto]. Qed.

Lemma set_slot_ok (l : Children) i c :
  length l = 64%nat -> 0 <= i <= 63 -> set_slot l i c = Ok (<[Z.to_nat i := c]> l).
Proof.
  intros Hl Hi. unfold set_slot.
  by rewrite (proj2 (Z.leb_le _ _)), (proj2 (Z.ltb_lt _ _)) by lia.
Qed.

Lemma occupied_spec cs i j c :
  (j, c) ∈ occupied cs i <-> (i <= j)%nat /\ cs !! (j - i)%nat = Some (Some c).
Proof.
  revert i. induction cs as [|o cs IH]; intros i; simpl.
  - split; [by intros ?%elem_of_nil|by intros [_ ?]].
  - assert (Hstep : (i < j)%nat -> (j - i)%nat = S (j - S i)) by lia.
    destruct o as [c'|].
    + rewrite elem_of_cons, IH. split.
      * intros [[= -> ->]|[Hle Hlk]]; [rewrite Nat.sub_diag; split; [lia|done]|].
        rewrite Hstep by lia. split; [lia|done].
      * intros [Hle Hlk]. destruct (decide (i = j)) as [->|].
        -- rewrite Nat.sub_diag in Hlk. left. simpl in Hlk. congruence.
        -- right. rewrite Hstep in Hlk by lia. split; [lia|done].
    + rewrite IH. split.
      * intros [Hle Hlk]. rewrite Hstep by lia. split; [lia|done].
      * intros [Hle Hlk]. destruct (decide (i = j)) as [->|].
        -- by rewrite Nat.sub_diag in Hlk.
        -- rewrite Hstep in Hlk by lia. split; [lia|done].
Qed.

Lemma occupied_0 cs j c : (j, c) ∈ occupied cs 0 <-> cs !! j = Some (Some c).
Proof. rewrite occupied_spec, Nat.sub_0_r. intuition lia. Qed.

Lemma occupied_nodup cs i : NoDup (occupied cs i).*1.
Proof.
  revert i. induction cs as [|[c|] cs IH]; intros i; simpl; [constructor| |apply IH].
  constructor; [|apply IH]. rewrite list_elem_of_fmap. intros ([j c'] & -> & Hin).
  apply occupied_spec in Hin as [Hle _]. simpl in Hle. lia.
Qed.

(** At least two slots are occupied. *)
Definition two_children (cs : Children) : Prop :=
  exists i j c d, i <> j /\ cs !! i = Some (Some c) /\ cs !! j = Some (Some d).

Lemma occupied_cases cs :
  (occupied cs 0 = [] /\ forall i c, cs !! i <> Some (Some c))
  \/ (exists i c, occupied cs 0 = [(i, c)] /\ cs !! i = Some (Some c)
        /\ forall j d, cs !! j = Some (Some d) -> j = i)
  \/ (exists x y l, occupied cs 0 = x :: y :: l) /\ two_children cs.
Proof.
  destruct (occupied cs 0) as [|[i c] [|[j d] l]] eqn:E.
  - left. split; [done|]. intros i c Hi%occupied_0. rewrite E in Hi. by apply elem_of_nil in Hi.
  - right; left. exists i, c. split; [done|]. split; [apply occupied_0; rewrite E; left|].
    intros j d Hj%occupied_0. rewrite E in Hj. apply list_elem_of_singleton in Hj. congruence.
  - right; right. split; [eauto|]. exists i, j, c, d.
    pose proof (occupied_nodup cs 0) as Hnd. rewrite E in Hnd. simpl in Hnd.
    apply NoDup_cons in Hnd as [Hni _]. rewrite not_elem_of_cons in Hni.
    repeat split; [tauto|..]; apply occupied_0; rewrite E; [left|right; left].
Qed.

(** ** The invariant *)

(** [wf pre n]: [n] is a subtree reached through the digits [pre].  A leaf's key
    starts with [pre]; a branch has 64 slots, at least two of them in use, and
    the child in slot [i] is reached through [pre], the prefix and [i]. *)
Inductive wf : list Z -> Node -> Prop :=
| wf_leaf pre l : agrees (lf_key l) pre -> wf pre (Leaf l)
| wf_branch pre b :
    length (br_children b) = BRANCH_NODES ->
    Forall (fun p => 0 <= p <= 63) (br_prefix b) ->
    two_children (br_children b) ->
    (forall i c, br_children b !! i = Some (Some c) ->
                 wf (pre ++ br_prefix b ++ [Z.of_nat i]) c) ->
    wf pre (Branch b).

Lemma collect_leaves_branch b l :
  l ∈ collect_leaves (Branch b) <->
  exists i c, br_children b !! i = Some (Some c) /\ l ∈ collect_leaves c.
Proof.
  cbn [collect_leaves]. rewrite list_elem_of_In, in_concat. split.
  - intros (ls & Hls & Hl). apply in_map_iff in Hls as (o & <- & Ho).
    apply list_elem_of_In, list_elem_of_lookup in Ho as [i Hi].
    destruct o as [c|]; [|destruct Hl]. exists i, c. by rewrite list_elem_of_In.
  - intros (i & c & Hi & Hl). exists (collect_leaves c). split; [|by apply list_elem_of_In].
    apply in_map_iff. exists (Some c). split; [done|].
    apply list_elem_of_In, list_elem_of_lookup. eauto.
Qed.

Lemma wf_agrees pre n l : wf pre n -> l ∈ collect_leaves n -> agrees (lf_key l) pre.
Proof.
  induction 1 as [pre l' Hl|pre b _ _ _ _ IH]; intros Hin.
  - cbn [collect_leaves] in Hin. apply list_elem_of_singleton in Hin as ->. done.
  - apply collect_leaves_branch in Hin as (i & c & Hi & Hin).
    eapply agrees_app_l, IH; eauto.
Qed.

Lemma wf_nonempty pre n : wf pre n -> exists l, l ∈ collect_leaves n.
Proof.
  induction 1 as [pre l' Hl|pre b _ _ Htwo _ IH].
  - exists l'. by apply list_elem_of_singleton.
  - destruct Htwo as (i & _ & c & _ & _ & Hi & _).
    destruct (IH _ _ Hi) as [l Hl]. exists l. apply collect_leaves_branch. eauto.
Qed.

(** A leaf below slot [i] of a branch has digit [i] right after the prefix. *)
Lemma wf_child_digit pre b i c l :
  wf pre (Branch b) -> br_children b !! i = Some (Some c) -> l ∈ collect_leaves c ->
  agrees (lf_key l) (pre ++ br_prefix b)
  /\ dig (lf_key l) (length pre + length (br_prefix b)) = Z.of_nat i.
Proof.
  intros Hwf Hi Hl. inversion Hwf as [|? ? _ _ _ Hc]; subst.
  pose proof (wf_agrees _ _ _ (Hc _ _ Hi) Hl) as Ha.
  rewrite app_assoc, agrees_snoc, length_app in Ha. done.
Qed.

Lemma wf_leaf_key_unique pre n l l' :
  wf pre n -> l ∈ collect_leaves n -> l' ∈ collect_leaves n -> lf_key l = lf_key l' -> l = l'.
Proof.
  intros Hwf. revert l l'. induction Hwf as [pre l0 Hl|pre b Hlen Hp Htwo Hc IH]; intros l l' H1 H2 E.
  - cbn [collect_leaves] in *. apply list_elem_of_singleton in H1 as ->.
    by apply list_elem_of_singleton in H2 as ->.
  - pose proof (wf_branch pre b Hlen Hp Htwo Hc) as Hwf.
    apply collect_leaves_branch in H1 as (i & c & Hi & H1).
    apply collect_leaves_branch in H2 as (j & d & Hj & H2).
    pose proof (wf_child_digit _ _ _ _ _ Hwf Hi H1) as [_ Di].
    pose proof (wf_child_digit _ _ _ _ _ Hwf Hj H2) as [_ Dj].
    rewrite E in Di. assert (i = j) as -> by lia.
    rewrite Hi in Hj. injection Hj as ->. eauto.
Qed.

Lemma wf_children_length pre b : wf pre (Branch b) -> length (br_children b) = 64%nat.
Proof. by inversion 1. Qed.
#[export] Hint Resolve wf_children_length : quil.

(** ** The walk to a branch's slot *)

Lemma prefix_digits pre (b : BranchNode Node) k d :
  agrees k pre ->
  match_prefix k (BRANCH_BITS * length pre) (br_prefix b) 0 = inr d ->
  agrees k (pre ++ br_prefix b)
  /\ d = (BRANCH_BITS * (length pre + length (br_prefix b)))%nat
  /\ get_next_nibble k d = dig k (length pre + length (br_prefix b)).
Proof.
  intros Hk E. pose proof (match_prefix_spec k (length pre) (br_prefix b) 0) as Hm.
  rewrite E in Hm. destruct Hm as [-> Hm]. split; [by apply agrees_app|]. split; [done|]. done.
Qed.

Lemma next_depth pre (b : BranchNode Node) i :
  (BRANCH_BITS * (length pre + length (br_prefix b)) + BRANCH_BITS)%nat
  = (BRANCH_BITS * length (pre ++ br_prefix b ++ [i]))%nat.
Proof. rewrite !length_app. cbn [length]. unfold BRANCH_BITS. lia. Qed.

(** A key whose walk stops inside the prefix of [b] is not below [b]. *)
Lemma mismatch_no_leaf pre (b : BranchNode Node) k x l :
  match_prefix k (BRANCH_BITS * length pre) (br_prefix b) 0 = inl x ->
  agrees (lf_key l) (pre ++ br_prefix b) -> lf_key l <> k.
Proof.
  intros E Hl Hk. rewrite Hk in Hl. pose proof (match_prefix_spec k (length pre) (br_prefix b) 0) as Hm.
  rewrite E in Hm. destruct x as [[i p] n]. destruct Hm as (m & _ & Hp & -> & Hne & _).
  apply agrees_app in Hl as [_ Hl]. apply Hne. by apply Hl.
Qed.

Lemma wf_branch_leaf_agrees pre b l :
  wf pre (Branch b) -> l ∈ collect_leaves (Branch b) -> agrees (lf_key l) (pre ++ br_prefix b).
Proof.
  intros Hwf (i & c & Hi & Hl)%collect_leaves_branch.
  by eapply (wf_child_digit pre b i c l).
Qed.

(** The slot a non-negative digit selects exists. *)
Lemma slot_exists (cs : Children) k j :
  length cs = 64%nat -> 0 <= dig k j -> exists o, cs !! Z.to_nat (dig k j) = Some o.
Proof.
  intros Hl Hd. apply lookup_lt_is_Some_2. pose proof (dig_range k j). rewrite Hl.
  assert (dig k j <> -1) by lia. intuition lia.
Qed.

Lemma slot_nat k j : 0 <= dig k j -> Z.of_nat (Z.to_nat (dig k j)) = dig k j.
Proof. lia. Qed.

(** A leaf below a branch is below the slot of its next digit. *)
Lemma leaf_in_slot pre b l :
  wf pre (Branch b) -> l ∈ collect_leaves (Branch b) ->
  let d := dig (lf_key l) (length pre + length (br_prefix b)) in
  0 <= d /\ exists c, br_children b !! Z.to_nat d = Some (Some c) /\ l ∈ collect_leaves c.
Proof.
  intros Hwf (i & c & Hi & Hl)%collect_leaves_branch.
  destruct (wf_child_digit _ _ _ _ _ Hwf Hi Hl) as [_ D]. cbv zeta. rewrite D, Nat2Z.id.
  split; [lia|eauto].
Qed.

(** ** Lookup *)

Lemma get_node_spec pre n k :
  wf pre n -> agrees k pre ->
  exists o, get_node n k (BRANCH_BITS * length pre) = Ok o
    /\ (forall l, o = Some l <-> l ∈ collect_leaves n /\ lf_key l = k).
Proof.
  intros Hwf. induction Hwf as [pre l Hl|pre b Hlen Hp Htwo Hc IH]; intros Hk; cbn [get_node].
  - eexists. split; [done|]. intros l'. cbn [collect_leaves]. rewrite list_elem_of_singleton.
    case_decide; [intuition congruence|]. split; [done|]. intros [-> ?]; done.
  - pose proof (wf_branch pre b Hlen Hp Htwo Hc) as Hwf.
    destruct (match_prefix k _ _ 0) as [x|d] eqn:E.
    + exists None. split; [done|]. intros l. split; [done|]. intros [Hin Hkey].
      exfalso. eapply mismatch_no_leaf; eauto using wf_branch_leaf_agrees.
    + destruct (prefix_digits _ _ _ _ Hk E) as (Ha & -> & ->).
      set (m := (length pre + length (br_prefix b))%nat) in *.
      assert (Hslot : forall l, l ∈ collect_leaves (Branch b) -> lf_key l = k ->
                0 <= dig k m /\ exists c, br_children b !! Z.to_nat (dig k m) = Some (Some c)
                                        /\ l ∈ collect_leaves c)
        by (intros l Hin <-; by apply leaf_in_slot).
      destruct (Z.ltb_spec (dig k m) 0) as [Hneg|Hpos].
      * exists None. split; [done|]. intros l. split; [done|]. intros [Hin Hkey].
        pose proof (Hslot _ Hin Hkey). lia.
      * destruct (slot_exists (br_children b) k m Hlen Hpos) as [o Ho].
        rewrite (with_slot_lookup _ _ _ _ Ho). rewrite Ho in Hslot.
        destruct o as [c|].
        -- pose proof (next_depth pre b (dig k m)) as Hd. fold m in Hd. rewrite Hd.
           destruct (IH _ _ Ho) as (o & Ho' & Hspec).
           { rewrite slot_nat by done. rewrite app_assoc, agrees_snoc, length_app. done. }
           rewrite slot_nat in Ho' by done. exists o. split; [done|].
           intros l. rewrite Hspec. split; intros [Hin Hkey]; (split; [|done]).
           ++ apply collect_leaves_branch. eauto.
           ++ by destruct (Hslot _ Hin Hkey) as (_ & c' & [= <-] & ?).
        -- exists None. split; [done|]. intros l. split; [done|]. intros [Hin Hkey].
           by destruct (Hslot _ Hin Hkey) as (_ & c' & ? & _).
Qed.

(** ** Insertion *)

(** The leaves below a branch after one slot is rewritten. *)
Lemma collect_leaves_set_slot b b' i c l :
  br_children b' = <[i := Some c]> (br_children b) -> (i < length (br_children b))%nat ->
  l ∈ collect_leaves (Branch b') <->
  l ∈ collect_leaves c
  \/ (exists j d, j <> i /\ br_children b !! j = Some (Some d) /\ l ∈ collect_leaves d).
Proof.
  intros Hb Hi. rewrite collect_leaves_branch, Hb. split.
  - intros (j & d & Hj & Hl). destruct (decide (j = i)) as [->|Hne].
    + rewrite list_lookup_insert_eq in Hj by done. injection Hj as <-. auto.
    + rewrite list_lookup_insert_ne in Hj by done. eauto 10.
  - intros [Hl|(j & d & Hne & Hj & Hl)].
    + exists i, c. by rewrite list_lookup_insert_eq.
    + exists j, d. by rewrite list_lookup_insert_ne.
Qed.

(** A branch with two fresh children and nothing else. *)
Lemma two_slots_lookup (x y : Node) i j k c :
  (i < 64)%nat -> (j < 64)%nat -> i <> j ->
  <[j := Some y]> (<[i := Some x]> (replicate 64 None)) !! k = Some (Some c) <->
  (k = i /\ c = x) \/ (k = j /\ c = y).
Proof.
  intros Hi Hj Hne. destruct (decide (k = j)) as [->|Hkj].
  - rewrite list_lookup_insert_eq by (rewrite length_insert, length_replicate; done). naive_solver.
  - rewrite list_lookup_insert_ne by done. destruct (decide (k = i)) as [->|Hki].
    + rewrite list_lookup_insert_eq by (rewrite length_replicate; done). naive_solver.
    + rewrite list_lookup_insert_ne by done. rewrite lookup_replicate. naive_solver.
Qed.

Lemma wf_two pre b i j x y :
  br_children b = <[Z.to_nat j := Some y]> (<[Z.to_nat i := Some x]> (replicate 64 None)) ->
  Forall (fun p => 0 <= p <= 63) (br_prefix b) ->
  0 <= i <= 63 -> 0 <= j <= 63 -> i <> j ->
  wf (pre ++ br_prefix b ++ [i]) x -> wf (pre ++ br_prefix b ++ [j]) y ->
  wf pre (Branch b)
  /\ (forall l, l ∈ collect_leaves (Branch b) <-> l ∈ collect_leaves x \/ l ∈ collect_leaves y).
Proof.
  intros Hcs Hp Hi Hj Hne Hx Hy.
  assert (Hlk : forall k c, br_children b !! k = Some (Some c) <->
            (k = Z.to_nat i /\ c = x) \/ (k = Z.to_nat j /\ c = y)).
  { intros k c. rewrite Hcs. apply two_slots_lookup; lia. }
  split.
  - constructor; [by rewrite Hcs, !length_insert, length_replicate|done| |].
    + exists (Z.to_nat i), (Z.to_nat j), x, y. rewrite !Hlk. split; [lia|]. auto.
    + intros k c [[-> ->]|[-> ->]]%Hlk; rewrite Z2Nat.id by lia; done.
  - intros l. rewrite collect_leaves_branch. setoid_rewrite Hlk. naive_solver.
Qed.

Lemma agrees_extend k k1 pre m :
  agrees k pre ->
  (forall j, (j < length pre + m)%nat -> dig k j = dig k1 j) ->
  agrees k (pre ++ (dig k1 <$> seq (length pre) m)).
Proof.
  intros Hk Hm. apply agrees_app. split; [done|]. intros j p.
  rewrite list_lookup_fmap, fmap_Some. intros (i & Hi & ->).
  apply lookup_seq in Hi as [-> Hlt]. apply Hm. lia.
Qed.

Lemma agrees_common k k' pre j :
  agrees k pre -> agrees k' pre -> (j < length pre)%nat -> dig k j = dig k' j.
Proof.
  intros H1 H2 Hj. destruct (lookup_lt_is_Some_2 pre j Hj) as [p Hp].
  by rewrite (H1 _ _ Hp), (H2 _ _ Hp).
Qed.

Lemma digits_range k s m :
  dig k (s + m) <> -1 -> Forall (fun p => 0 <= p <= 63) (dig k <$> seq s m).
Proof.
  intros Hm. apply Forall_fmap, Forall_forall. intros j [_ Hj]%elem_of_seq. simpl.
  apply dig_range. eapply dig_mono; [|done]. lia.
Qed.

Lemma split_leaf_spec pre existing fresh :
  agrees (lf_key existing) pre -> agrees (lf_key fresh) pre ->
  separated (lf_key existing) (lf_key fresh) ->
  exists n', split_leaf existing fresh (BRANCH_BITS * length pre) = Ok n' /\ wf pre n'
    /\ (forall l, l ∈ collect_leaves n' <-> l = existing \/ l = fresh).
Proof.
  intros Ha Hb Hsep.
  destruct (diverge_separated _ _ (length pre) Hsep) as (m & E & Hpre & Hne & H1 & H2).
  { intros j Hj. by eapply agrees_common. }
  unfold split_leaf. rewrite E. fold (dig (lf_key existing) (length pre + m)).
  fold (dig (lf_key fresh) (length pre + m)).
  rewrite !(proj2 (Z.leb_le 0 _)) by lia. cbn [br_children new_branch].
  rewrite set_slot_ok by (rewrite ?length_replicate; first [done|lia]). simpl mbind.
  rewrite set_slot_ok by (rewrite ?length_insert, ?length_replicate; first [done|lia]). simpl mbind.
  eexists. split; [done|].
  match goal with |- wf pre (Branch ?b) /\ _ =>
    destruct (wf_two pre b (dig (lf_key existing) (length pre + m))
                (dig (lf_key fresh) (length pre + m)) (Leaf existing) (Leaf fresh)) as [Hw Hl]
  end; try done; cbn [br_prefix with_counts with_children new_branch].
  - apply digits_range. lia.
  - constructor. rewrite app_assoc, agrees_snoc, length_app, length_fmap, length_seq.
    split; [|done]. by apply agrees_extend.
  - constructor. rewrite app_assoc, agrees_snoc, length_app, length_fmap, length_seq.
    split; [|done]. apply agrees_extend; [done|]. intros; symmetry; auto.
  - split; [done|]. intros l. rewrite Hl. cbn [collect_leaves]. by rewrite !list_elem_of_singleton.
Qed.

(** Moving digits between the path and the prefix of a branch. *)
Lemma wf_reprefix pre pre' b b' :
  wf pre (Branch b) -> br_children b' = br_children b ->
  pre' ++ br_prefix b' = pre ++ br_prefix b ->
  Forall (fun p => 0 <= p <= 63) (br_prefix b') ->
  wf pre' (Branch b').
Proof.
  inversion 1 as [|? ? Hlen _ Htwo Hc]; subst. intros Ecs Epre Hp.
  constructor; rewrite ?Ecs; [done..|].
  intros i c Hi. specialize (Hc _ _ Hi). by rewrite app_assoc, Epre, <- app_assoc.
Qed.

(** The keys below [n] are equal to [k] or leave it at a common digit. *)
Definition compatible (n : Node) (k : bytes) : Prop :=
  forall l, l ∈ collect_leaves n -> lf_key l = k \/ separated (lf_key l) k.

Lemma compatible_child b i c k :
  compatible (Branch b) k -> br_children b !! i = Some (Some c) -> compatible c k.
Proof. intros Hc Hi l Hl. apply Hc, collect_leaves_branch. eauto. Qed.

(** Two separated keys are still both defined at the first digit they differ on. *)
Lemma separated_first k k' s :
  separated k k' -> (forall j, (j < s)%nat -> dig k j = dig k' j) -> dig k' s <> -1.
Proof.
  intros (j & Hne & _ & H2) Hs. destruct (decide (s <= j)%nat); [by eapply dig_mono|].
  exfalso. apply Hne, Hs. lia.
Qed.

(** A key that leaves the prefix of a branch of compatible keys still has a digit there. *)
Lemma mismatch_digit pre b k i p n :
  wf pre (Branch b) -> agrees k pre -> compatible (Branch b) k ->
  match_prefix k (BRANCH_BITS * length pre) (br_prefix b) 0 = inl (i, p, n) ->
  n <> p /\ 0 <= n.
Proof.
  intros Hwf Hk Hcomp E.
  destruct (wf_nonempty _ _ Hwf) as [l0 Hl0].
  pose proof (wf_branch_leaf_agrees _ _ _ Hwf Hl0) as Ha0.
  pose proof (mismatch_no_leaf _ _ _ _ _ E Ha0) as Hne0.
  destruct (Hcomp _ Hl0) as [?|Hsep]; [done|].
  pose proof (match_prefix_spec k (length pre) (br_prefix b) 0) as Hm.
  rewrite E in Hm. destruct Hm as (m & _ & Hp & -> & Hne & Hpre).
  split; [done|]. apply dig_ge0, (separated_first (lf_key l0)); [done|]. intros j Hj.
  apply agrees_app in Ha0 as [Ha0 Hl]. destruct (decide (j < length pre)%nat).
  - by eapply agrees_common.
  - destruct (lookup_lt_is_Some_2 (br_prefix b) (j - length pre)) as [q Hq].
    { apply lookup_lt_Some in Hp. lia. }
    pose proof (Hl _ _ Hq) as H1. pose proof (Hpre _ _ Hq ltac:(lia)) as H2.
    replace (length pre + (j - length pre))%nat with j in * by lia. congruence.
Qed.

Lemma split_branch_spec pre b fresh i p n :
  wf pre (Branch b) -> agrees (lf_key fresh) pre -> compatible (Branch b) (lf_key fresh) ->
  match_prefix (lf_key fresh) (BRANCH_BITS * length pre) (br_prefix b) 0 = inl (i, p, n) ->
  exists n', split_branch b fresh i p n = Ok n' /\ wf pre n'
    /\ (forall l, l ∈ collect_leaves n' <-> l ∈ collect_leaves (Branch b) \/ l = fresh).
Proof.
  intros Hwf Hk Hcomp E.
  destruct (mismatch_digit _ _ _ _ _ _ Hwf Hk Hcomp E) as [Hne Hn].
  pose proof (match_prefix_spec (lf_key fresh) (length pre) (br_prefix b) 0) as Hm.
  rewrite E in Hm. destruct Hm as (m & Ei & Hp & -> & _ & Hpre).
  rewrite Nat.add_0_l in Ei. subst i.
  assert (Hrange : Forall (fun p => 0 <= p <= 63) (br_prefix b)) by (by inversion Hwf).
  assert (Hpr : 0 <= p <= 63) by exact (Forall_lookup_1 _ _ _ _ Hrange Hp).
  assert (Hsplit : br_prefix b = take m (br_prefix b) ++ p :: drop (S m) (br_prefix b))
    by (symmetry; by apply take_drop_middle).
  assert (Hm : (m < length (br_prefix b))%nat) by (by eapply lookup_lt_Some).
  assert (Hlt : length (take m (br_prefix b)) = m) by (rewrite length_take; lia).
  assert (Hkt : agrees (lf_key fresh) (pre ++ take m (br_prefix b))).
  { apply agrees_app. split; [done|]. intros j q. rewrite lookup_take_Some. intros [? ?]. eauto. }
  pose proof (dig_range _ _ (proj1 (dig_ge0 _ _) Hn)) as Hnr.
  unfold split_branch. rewrite set_slot_ok by first [done|lia]. simpl mbind.
  rewrite (proj2 (Z.leb_le 0 _)) by lia.
  rewrite set_slot_ok by (rewrite ?length_insert; first [done|lia]). simpl mbind.
  eexists. split; [done|].
  match goal with |- wf pre (Branch ?x) /\ _ =>
    destruct (wf_two pre x p (dig (lf_key fresh) (length pre + m))
      (Branch (with_commitment (with_prefix b (drop (S m) (br_prefix b))) [])) (Leaf fresh))
      as [Hw Hl]
  end; try done; cbn [br_prefix with_counts with_children new_branch].
  - by apply Forall_take.
  - apply (wf_reprefix pre _ b); [done|done| |by apply Forall_drop].
    cbn. rewrite Hsplit at 3. by rewrite <- !app_assoc.
  - constructor. rewrite app_assoc, agrees_snoc, length_app, Hlt. done.
  - split; [done|]. intros l. rewrite Hl. cbn [collect_leaves]. by rewrite list_elem_of_singleton.
Qed.

(** A branch keeps its invariant when one slot receives a well-formed subtree. *)
Lemma wf_set_slot pre b b' i c :
  wf pre (Branch b) -> br_prefix b' = br_prefix b ->
  br_children b' = <[i := Some c]> (br_children b) ->
  wf (pre ++ br_prefix b ++ [Z.of_nat i]) c -> wf pre (Branch b').
Proof.
  inversion 1 as [|? ? Hlen Hp Htwo Hc]; subst. intros Ep Ecs Hwc.
  constructor; rewrite ?Ep, ?Ecs; [by rewrite length_insert|done| |].
  - destruct Htwo as (x & y & cx & cy & Hxy & Hx & Hy).
    assert (Hin : forall z cz, br_children b !! z = Some (Some cz) ->
              exists cz', <[i := Some c]> (br_children b) !! z = Some (Some cz')).
    { intros z cz Hz. destruct (decide (z = i)) as [->|].
      - exists c. eapply lookup_insert_lt, Hz.
      - exists cz. by rewrite list_lookup_insert_ne. }
    destruct (Hin _ _ Hx) as [cx' Hx']. destruct (Hin _ _ Hy) as [cy' Hy'].
    exists x, y, cx', cy'. done.
  - intros j d Hj. apply list_lookup_insert_Some in Hj as [(<- & [= <-] & _)|[_ Hj]]; auto.
Qed.

(** What inserting [fresh] below [n] promises. *)
Definition inserted (pre : list Z) (n : Node) (fresh : LeafNode) (r : outcome Node) : Prop :=
  exists n', r = Ok n' /\ wf pre n'
    /\ (forall l, l ∈ collect_leaves n' <->
                  l = fresh \/ (l ∈ collect_leaves n /\ lf_key l <> lf_key fresh)).

(** A compatible key that leaves the prefix matched has a digit for the slot. *)
Lemma fresh_digit pre b k :
  wf pre (Branch b) -> compatible (Branch b) k -> agrees k (pre ++ br_prefix b) ->
  0 <= dig k (length pre + length (br_prefix b)).
Proof.
  intros Hwf Hcomp Ha. destruct (wf_nonempty _ _ Hwf) as [l0 Hl0].
  destruct (Hcomp _ Hl0) as [<-|Hsep]; [by apply leaf_in_slot|].
  apply dig_ge0, (separated_first (lf_key l0)); [done|]. intros j Hj.
  eapply agrees_common; eauto using wf_branch_leaf_agrees. by rewrite length_app.
Qed.

(** The leaves after one slot received [fresh]. *)
Lemma inserted_slot_leaves pre b b' fresh o c l :
  let i := Z.to_nat (dig (lf_key fresh) (length pre + length (br_prefix b))) in
  wf pre (Branch b) -> br_children b !! i = Some o ->
  br_children b' = <[i := Some c]> (br_children b) ->
  (forall l, l ∈ collect_leaves c <-> l = fresh \/
     (exists c0, o = Some c0 /\ l ∈ collect_leaves c0 /\ lf_key l <> lf_key fresh)) ->
  l ∈ collect_leaves (Branch b') <->
  l = fresh \/ (l ∈ collect_leaves (Branch b) /\ lf_key l <> lf_key fresh).
Proof.
  intros i Hwf Ho Hb' Hls.
  rewrite (collect_leaves_set_slot b _ i c) by (done || by eapply lookup_lt_Some).
  rewrite Hls. split.
  - intros [[->|(c0 & -> & Hl & Hne)]|(j & e & Hj & He & Hl)]; [auto|right..].
    + split; [|done]. apply collect_leaves_branch. eauto.
    + split; [apply collect_leaves_branch; eauto|]. intros Heq.
      destruct (wf_child_digit _ _ _ _ _ Hwf He Hl) as [_ D]. rewrite Heq in D. lia.
  - intros [->|[Hl Hne]]; [auto|]. apply collect_leaves_branch in Hl as (j & e & He & Hl).
    destruct (decide (j = i)) as [->|]; [|right; eauto].
    left; right. rewrite Ho in He. injection He as ->. eauto.
Qed.

Lemma insert_slot_spec pre b fresh d :
  wf pre (Branch b) -> agrees (lf_key fresh) pre -> compatible (Branch b) (lf_key fresh) ->
  match_prefix (lf_key fresh) (BRANCH_BITS * length pre) (br_prefix b) 0 = inr d ->
  (forall i c, br_children b !! i = Some (Some c) ->
     let pre' := pre ++ br_prefix b ++ [Z.of_nat i] in
     agrees (lf_key fresh) pre' -> compatible c (lf_key fresh) ->
     inserted pre' c fresh (insert_node c fresh (BRANCH_BITS * length pre'))) ->
  inserted pre (Branch b) fresh (insert_node (Branch b) fresh (BRANCH_BITS * length pre)).
Proof.
  intros Hwf Hk Hcomp E IH. cbn [insert_node]. rewrite E.
  destruct (prefix_digits _ _ _ _ Hk E) as (Ha & -> & ->).
  set (m := (length pre + length (br_prefix b))%nat) in *.
  pose proof (wf_children_length _ _ Hwf) as Hlen.
  assert (Hd : 0 <= dig (lf_key fresh) m) by (by apply fresh_digit).
  rewrite (proj2 (Z.ltb_ge _ 0)) by done.
  destruct (slot_exists (br_children b) (lf_key fresh) m Hlen Hd) as [o Ho].
  assert (Hi : (Z.to_nat (dig (lf_key fresh) m) < length (br_children b))%nat)
    by (by eapply lookup_lt_Some).
  set (pre' := pre ++ br_prefix b ++ [dig (lf_key fresh) m]).
  assert (Hk' : agrees (lf_key fresh) pre')
    by (unfold pre'; rewrite app_assoc, agrees_snoc, length_app; done).
  assert (Hchild : exists c,
    with_slot (fun c => match c with
                        | None => Ok (Leaf fresh)
                        | Some c => insert_node c fresh (BRANCH_BITS * m + BRANCH_BITS)
                        end) (br_children b) (Z.to_nat (dig (lf_key fresh) m)) = Ok c
    /\ wf pre' c
    /\ (forall l, l ∈ collect_leaves c <-> l = fresh \/
          (exists c0, o = Some c0 /\ l ∈ collect_leaves c0 /\ lf_key l <> lf_key fresh))).
  { rewrite (with_slot_lookup _ _ _ _ Ho). destruct o as [c0|].
    - specialize (IH _ _ Ho). rewrite slot_nat in IH by done. fold pre' in IH.
      destruct IH as (c & Hc & Hw & Hls); [done|by eapply compatible_child|].
      pose proof (next_depth pre b (dig (lf_key fresh) m)) as Hnd. fold m pre' in Hnd.
      rewrite Hnd. exists c. split; [done|]. split; [done|]. naive_solver.
    - exists (Leaf fresh). split; [done|]. split; [by constructor|]. intros l.
      cbn [collect_leaves]. rewrite list_elem_of_singleton. naive_solver. }
  destruct Hchild as (c & Hc & Hw & Hls). rewrite Hc. simpl mbind.
  eexists. split; [done|]. split.
  { eapply wf_set_slot; [exact Hwf|done|done|]. by rewrite slot_nat. }
  intros l. by eapply inserted_slot_leaves.
Qed.

Lemma insert_node_spec pre n fresh :
  wf pre n -> agrees (lf_key fresh) pre -> compatible n (lf_key fresh) ->
  inserted pre n fresh (insert_node n fresh (BRANCH_BITS * length pre)).
Proof.
  intros Hwf. induction Hwf as [pre l Hl|pre b Hlen Hp Htwo Hc IH]; intros Hk Hcomp.
  - cbn [insert_node]. case_decide as Heq.
    + eexists. split; [done|]. split; [by constructor|]. intros l'. cbn [collect_leaves].
      rewrite !list_elem_of_singleton. intuition congruence.
    + destruct (split_leaf_spec pre l fresh) as (n' & -> & Hw & Hls); [done|done| |].
      { destruct (Hcomp l); [by apply list_elem_of_singleton|done|done]. }
      exists n'. split; [done|]. split; [done|]. intros l'. rewrite Hls. cbn [collect_leaves].
      rewrite !list_elem_of_singleton. intuition congruence.
  - pose proof (wf_branch pre b Hlen Hp Htwo Hc) as Hwf.
    destruct (match_prefix (lf_key fresh) (BRANCH_BITS * length pre) (br_prefix b) 0)
      as [[[i p] nb]|d] eqn:E; [|by apply insert_slot_spec with d].
    cbn [insert_node]. rewrite E.
    destruct (split_branch_spec pre b fresh i p nb) as (n' & -> & Hw & Hls); [done..|].
    exists n'. split; [done|]. split; [done|]. intros l. rewrite Hls. split.
    + intros [Hl|]; [right|auto]. split; [done|].
      eapply mismatch_no_leaf; eauto using wf_branch_leaf_agrees.
    + intros [|[? _]]; auto.
Qed.

(** ** Deletion *)

Lemma merge_spec pre b i c :
  (i < 64)%nat -> Forall (fun p => 0 <= p <= 63) (br_prefix b) ->
  wf (pre ++ br_prefix b ++ [Z.of_nat i]) c ->
  wf pre (merge_branch_with_child b i c)
  /\ collect_leaves (merge_branch_with_child b i c) = collect_leaves c.
Proof.
  intros Hi Hp Hc. destruct c as [l|cb]; cbn [merge_branch_with_child].
  - split; [|done]. inversion Hc; subst. constructor. by eapply agrees_app_l.
  - split; [|done]. apply (wf_reprefix _ _ cb _ Hc); [done|cbn; by rewrite <- !app_assoc|].
    inversion Hc; subst. cbn. apply Forall_app. split; [done|]. constructor; [lia|done].
Qed.

Lemma collapse_spec pre b cs :
  length cs = BRANCH_NODES -> Forall (fun p => 0 <= p <= 63) (br_prefix b) ->
  (forall i c, cs !! i = Some (Some c) -> wf (pre ++ br_prefix b ++ [Z.of_nat i]) c) ->
  match collapse b cs with
  | None => forall i c, cs !! i <> Some (Some c)
  | Some n' => wf pre n' /\ (forall l, l ∈ collect_leaves n' <->
                 exists i c, cs !! i = Some (Some c) /\ l ∈ collect_leaves c)
  end.
Proof.
  intros Hlen Hp Hc. unfold collapse.
  destruct (occupied_cases cs) as [[-> Hnone]|[(i & c & -> & Hi & Honly)|[(x & y & l & ->) Htwo]]].
  - done.
  - destruct (merge_spec pre b i c) as [Hw Hl]; [|done|by apply Hc|].
    { apply lookup_lt_Some in Hi. by rewrite Hlen in Hi. }
    split; [done|]. intros l. rewrite Hl. split; [eauto|].
    intros (j & d & Hj & Hd). pose proof (Honly _ _ Hj) as ->. rewrite Hi in Hj.
    by injection Hj as ->.
  - destruct x. split; [by constructor|]. intros l'. by rewrite collect_leaves_branch.
Qed.

(** What deleting [k] below [n] promises. *)
Definition deleted (pre : list Z) (n : Node) (k : bytes) (r : outcome (bool * option Node)) : Prop :=
  (r = Ok (false, Some n) /\ forall l, l ∈ collect_leaves n -> lf_key l <> k)
  \/ (exists o, r = Ok (true, o)
        /\ (exists l, l ∈ collect_leaves n /\ lf_key l = k)
        /\ match o with
           | None => forall l, l ∈ collect_leaves n -> lf_key l = k
           | Some n' => wf pre n' /\ (forall l, l ∈ collect_leaves n' <->
                                       l ∈ collect_leaves n /\ lf_key l <> k)
           end).

(** The branch after its child in slot [i] was replaced by [o]. *)
Lemma delete_collapse pre b i c k o :
  wf pre (Branch b) -> br_children b !! i = Some (Some c) ->
  (forall j d l, br_children b !! j = Some (Some d) -> l ∈ collect_leaves d ->
     lf_key l = k -> j = i) ->
  match o with
  | None => forall l, l ∈ collect_leaves c -> lf_key l = k
  | Some n' => wf (pre ++ br_prefix b ++ [Z.of_nat i]) n'
      /\ (forall l, l ∈ collect_leaves n' <-> l ∈ collect_leaves c /\ lf_key l <> k)
  end ->
  match collapse b (<[i := o]> (br_children b)) with
  | None => forall l, l ∈ collect_leaves (Branch b) -> lf_key l = k
  | Some n' => wf pre n' /\ (forall l, l ∈ collect_leaves n' <->
                               l ∈ collect_leaves (Branch b) /\ lf_key l <> k)
  end.
Proof.
  intros Hwf Hi Hdig Ho. inversion Hwf as [|? ? Hlen Hp Htwo Hc]; subst.
  assert (Hlt : (i < length (br_children b))%nat) by (by eapply lookup_lt_Some).
  set (cs := <[i := o]> (br_children b)).
  assert (Hrest : forall l, (exists j d, cs !! j = Some (Some d) /\ l ∈ collect_leaves d) <->
            l ∈ collect_leaves (Branch b) /\ lf_key l <> k).
  { intros l. rewrite collect_leaves_branch. split.
    - intros (j & d & Hj & Hl). apply list_lookup_insert_Some in Hj as [(<- & -> & _)|[Hne Hj]].
      + apply Ho in Hl as [Hl Hk]. eauto.
      + split; [eauto|]. intros Heq. apply Hne. symmetry. eauto.
    - intros [(j & d & Hj & Hl) Hk]. destruct (decide (j = i)) as [->|Hne].
      + rewrite Hi in Hj. injection Hj as <-. destruct o as [n'|]; [|by destruct Hk; auto].
        exists i, n'. unfold cs. rewrite list_lookup_insert_eq by done. split; [done|]. by apply Ho.
      + exists j, d. unfold cs. by rewrite list_lookup_insert_ne. }
  pose proof (collapse_spec pre b cs) as Hcol.
  destruct (collapse b cs) as [n'|].
  - destruct Hcol as [Hw Hl]; [by unfold cs; rewrite length_insert|done| |].
    + intros j d Hj. apply list_lookup_insert_Some in Hj as [(<- & -> & _)|[_ Hj]]; [apply Ho|auto].
    + split; [done|]. intros l. by rewrite Hl.
  - intros l Hl. destruct (decide (lf_key l = k)) as [|Hk]; [done|].
    destruct (proj2 (Hrest l) (conj Hl Hk)) as (j & d & Hj & _). exfalso. revert Hj.
    apply Hcol; [by unfold cs; rewrite length_insert|done|].
    intros j' d' Hj. apply list_lookup_insert_Some in Hj as [(<- & -> & _)|[_ Hj]]; [apply Ho|auto].
Qed.

Lemma delete_slot_spec pre b k d :
  wf pre (Branch b) -> agrees k pre ->
  match_prefix k (BRANCH_BITS * length pre) (br_prefix b) 0 = inr d ->
  (forall i c, br_children b !! i = Some (Some c) ->
     let pre' := pre ++ br_prefix b ++ [Z.of_nat i] in
     agrees k pre' -> deleted pre' c k (delete_node c k (BRANCH_BITS * length pre'))) ->
  deleted pre (Branch b) k (delete_node (Branch b) k (BRANCH_BITS * length pre)).
Proof.
  intros Hwf Hk E IH. cbn [delete_node]. rewrite E.
  destruct (prefix_digits _ _ _ _ Hk E) as (Ha & -> & ->).
  set (m := (length pre + length (br_prefix b))%nat) in *.
  pose proof (wf_children_length _ _ Hwf) as Hlen.
  assert (Hslot : forall l, l ∈ collect_leaves (Branch b) -> lf_key l = k ->
            0 <= dig k m /\ exists c, br_children b !! Z.to_nat (dig k m) = Some (Some c)
                                    /\ l ∈ collect_leaves c)
    by (intros l Hin <-; by apply leaf_in_slot).
  destruct (Z.ltb_spec (dig k m) 0) as [Hneg|Hpos].
  { left. split; [done|]. intros l Hin Heq. pose proof (Hslot _ Hin Heq). lia. }
  destruct (slot_exists (br_children b) k m Hlen Hpos) as [o Ho].
  rewrite (with_slot_lookup _ _ _ _ Ho). set (i := Z.to_nat (dig k m)) in *.
  assert (Hsame : <[i := o]> (br_children b) = br_children b) by (by apply list_insert_id).
  assert (Hb : Branch (with_children b (br_children b)) = Branch b) by (by destruct b).
  destruct o as [c|].
  2: { left. simpl. rewrite Hsame, Hb. split; [done|]. intros l Hin Heq.
    destruct (Hslot _ Hin Heq) as (_ & c & Hc & _). congruence. }
  specialize (IH _ _ Ho). cbv zeta in IH. unfold i in IH. rewrite slot_nat in IH by done.
  pose proof (next_depth pre b (dig k m)) as Hnd. fold m in Hnd. rewrite <- Hnd in IH.
  fold i in IH.
  destruct IH as [[-> Hno]|(o & -> & (l0 & Hl0 & Hk0) & Hspec)].
  { rewrite app_assoc, agrees_snoc, length_app. done. }
  { left. simpl. rewrite Hsame, Hb. split; [done|].
    intros l Hin Heq. destruct (Hslot _ Hin Heq) as (_ & c' & Hc & Hl).
    rewrite Ho in Hc. injection Hc as <-. by eapply Hno. }
  right. simpl. eexists. split; [done|].
  split; [exists l0; split; [apply collect_leaves_branch; eauto|done]|].
  apply (delete_collapse pre b i c k o); [done..| |].
  - intros j e l Hj Hl <-. destruct (wf_child_digit _ _ _ _ _ Hwf Hj Hl) as [_ D].
    fold m in D. unfold i. lia.
  - unfold i. by rewrite slot_nat.
Qed.

Lemma delete_node_spec pre n k :
  wf pre n -> agrees k pre ->
  deleted pre n k (delete_node n k (BRANCH_BITS * length pre)).
Proof.
  intros Hwf. induction Hwf as [pre l Hl|pre b Hlen Hp Htwo Hc IH]; intros Hk.
  - cbn [delete_node]. case_decide as Heq.
    + right. eexists. split; [done|]. split; [exists l; split; [by apply list_elem_of_singleton|done]|].
      intros l' ->%list_elem_of_singleton. done.
    + left. split; [done|]. intros l' ->%list_elem_of_singleton. done.
  - pose proof (wf_branch pre b Hlen Hp Htwo Hc) as Hwf.
    destruct (match_prefix k (BRANCH_BITS * length pre) (br_prefix b) 0) as [x|d] eqn:E;
      [|by apply delete_slot_spec with d].
    left. cbn [delete_node]. rewrite E. split; [done|].
    intros l Hl. eapply mismatch_no_leaf; eauto using wf_branch_leaf_agrees.
Qed.
