(* ===== verification/TreeCorrect.v ===== *)
(** * The vector commitment tree as a finite map

    The abstract state of a tree is the finite map from keys to leaves.  Trees
    over a key space (fixed-width addresses, the keys of a vertex's field tree)
    implement the map operations, their shape and hence their root commitment
    depend only on the map, and the leaf counts are exact. *)

From Stdlib Require Import Strings.Byte.
From stdpp Require Import gmap.
From S2P Require Import Prelude Bytes Nibble Node Tree TreeSpec.

(** ** Abstract state *)

Definition leaf_map (n : Node) : gmap bytes LeafNode :=
  list_to_map ((fun l => (lf_key l, l)) <$> collect_leaves n).

Definition contents (t : VectorCommitmentTree) : gmap bytes LeafNode :=
  match root t with None => ∅ | Some n => leaf_map n end.

(** A key space: a set of keys any two of which leave each other at a digit
    both have.  The callers use two: fixed-width keys (the addresses of the
    hypergraph trees), and the keys of a vertex's field tree, which are one
    byte for a field and 32 for the type hash ([GlobalSchema.v]). *)
Class KeySpace (K : bytes -> Prop) : Prop := {
  ks_nonempty : forall k, K k -> k <> [];
  ks_separated : forall k k', K k -> K k' -> k = k' \/ separated k k';
}.

Definition fixed_width (L : nat) (k : bytes) : Prop := k <> [] /\ length k = L.

#[global] Instance fixed_width_space L : KeySpace (fixed_width L).
Proof.
  split; [by intros k []|]. intros k k' [_ Hk] [_ Hk'].
  destruct (decide (k = k')); [auto|right]. apply same_length_separated; congruence.
Qed.

(** The invariant of a tree over a key space. *)
Definition tree_ok (K : bytes -> Prop) (t : VectorCommitmentTree) : Prop :=
  match root t with
  | None => True
  | Some n => wf [] n /\ (forall l, l ∈ collect_leaves n -> K (lf_key l))
  end.

Lemma tree_ok_root K t n : tree_ok K t -> root t = Some n -> wf [] n.
Proof. unfold tree_ok. intros Ht E. rewrite E in Ht. by destruct Ht. Qed.

Lemma leaf_map_lookup pre n k l :
  wf pre n -> leaf_map n !! k = Some l <-> l ∈ collect_leaves n /\ lf_key l = k.
Proof.
  intros Hwf. unfold leaf_map. split.
  - intros Hl%elem_of_list_to_map_2. apply list_elem_of_fmap in Hl as (l' & [= -> ->] & Hl). done.
  - intros [Hl <-]. apply elem_of_list_to_map_1'.
    + intros l' Hl'. apply list_elem_of_fmap in Hl' as (l'' & [= E ->] & Hl').
      symmetry. by eapply wf_leaf_key_unique.
    + apply list_elem_of_fmap. eauto.
Qed.

Lemma contents_lookup K t k l :
  tree_ok K t ->
  contents t !! k = Some l <->
  exists n, root t = Some n /\ l ∈ collect_leaves n /\ lf_key l = k.
Proof.
  unfold tree_ok, contents. destruct (root t) as [n|].
  - intros [Hwf _]. rewrite (leaf_map_lookup [] n k l Hwf). naive_solver.
  - intros _. rewrite lookup_empty. naive_solver.
Qed.

Lemma tree_ok_new K : tree_ok K new_tree.
Proof. done. Qed.

Lemma tree_ok_compatible `{KeySpace K} n k :
  (forall l, l ∈ collect_leaves n -> K (lf_key l)) -> K k -> compatible n k.
Proof. intros Hn Hk l Hl. apply ks_separated; auto. Qed.

(** ** Operations *)

Lemma get_leaf_contents K t k :
  tree_ok K t -> get_leaf t k = Ok (contents t !! k).
Proof.
  intros Ht. unfold get_leaf, get_recursive.
  destruct (root t) as [n|] eqn:Er; [|by unfold contents; rewrite Er].
  pose proof Ht as Ht'. unfold tree_ok in Ht'. rewrite Er in Ht'. destruct Ht' as [Hwf _].
  destruct (get_node_spec [] n k Hwf (agrees_nil k)) as (o & Ho & Hspec).
  change (BRANCH_BITS * length [])%nat with 0%nat in Ho. rewrite Ho. f_equal.
  apply option_eq. intros l. rewrite Hspec, (contents_lookup K) by done. naive_solver.
Qed.

Lemma insert_contents `{Sha512} `{KeySpace K} t key value hash_target size :
  tree_ok K t -> K key ->
  exists t', insert t key value hash_target size = (Ok tt, t') /\ tree_ok K t'
    /\ contents t' = <[key := new_leaf key value hash_target size]> (contents t).
Proof.
  intros Ht Hk. set (fresh := new_leaf key value hash_target size).
  assert (Hf : lf_key fresh = key) by done.
  assert (Hn : inserted [] (default (Leaf fresh) (root t)) fresh
                 (insert_recursive (root t) key value hash_target size 0)).
  { unfold insert_recursive. fold fresh. unfold tree_ok in Ht. destruct (root t) as [n|]; simpl.
    - destruct Ht as [Hwf Hlen].
      apply (insert_node_spec []); [done|apply agrees_nil|]. by eapply tree_ok_compatible.
    - exists (Leaf fresh). split; [done|]. split; [constructor; apply agrees_nil|].
      intros l. cbn [collect_leaves]. rewrite list_elem_of_singleton. naive_solver. }
  destruct Hn as (n' & Hr & Hwf' & Hls). unfold insert. rewrite Hr. eexists. split; [done|].
  assert (Hok : tree_ok K (mkTree (Some n'))).
  { split; [done|]. intros l [->|[Hl Hne]]%Hls; [by rewrite Hf|].
    unfold tree_ok in Ht. destruct (root t) as [n|]; [by apply Ht|].
    apply list_elem_of_singleton in Hl as ->. by rewrite Hf. }
  split; [done|]. apply map_eq. intros k. apply option_eq. intros l.
  rewrite (contents_lookup K) by done. rewrite lookup_insert_Some, (contents_lookup K) by done.
  simpl. split.
  - intros (? & [= <-] & [->|[Hl Hne]]%Hls & <-); [left; auto|]. right. rewrite Hf in Hne.
    destruct (root t) as [n|]; simpl in Hl; [eauto 10|].
    apply list_elem_of_singleton in Hl as ->. by rewrite Hf in Hne.
  - intros [[<- <-]|(Hne & n & Hn & Hl & <-)]; exists n'; (split; [done|]); rewrite Hls; split; auto.
    right. rewrite Hn. split; [done|]. by rewrite Hf.
Qed.

Lemma delete_contents K t key :
  tree_ok K t -> key <> [] ->
  exists t', Tree.delete t key
      = (if decide (is_Some (contents t !! key)) then Ok tt else Err NotFound, t')
    /\ tree_ok K t' /\ contents t' = base.delete key (contents t)
    /\ (contents t !! key = None -> t' = t).
Proof.
  intros Ht Hk. unfold Tree.delete. destruct key as [|x key']; [done|].
  set (key := x :: key') in *. clearbody key. clear Hk x key'.
  unfold delete_recursive. destruct (root t) as [n|] eqn:Er.
  2: { assert (t = new_tree) as -> by (destruct t; simpl in Er; by subst).
    exists new_tree. change (contents new_tree) with (∅ : gmap bytes LeafNode).
    rewrite lookup_empty, decide_False by (by intros []).
    split; [done|]. split; [done|]. split; [by rewrite delete_empty|done]. }
  pose proof Ht as Ht'. unfold tree_ok in Ht'. rewrite Er in Ht'. destruct Ht' as [Hwf Hlen].
  pose proof (fun k l => contents_lookup K t k l Ht) as Hc. rewrite Er in Hc.
  assert (Hdel : forall t', tree_ok K t' ->
            (forall l, (exists n', root t' = Some n' /\ l ∈ collect_leaves n') <->
                       l ∈ collect_leaves n /\ lf_key l <> key) ->
            contents t' = base.delete key (contents t)).
  { intros t' Hok Hl. apply map_eq. intros k. apply option_eq. intros l.
    rewrite lookup_delete_Some, (contents_lookup K) by done. rewrite Hc. naive_solver. }
  destruct (delete_node_spec [] n key Hwf (agrees_nil key)) as [[Hr Hno]|(o & Hr & (l0 & Hl0 & Hk0) & Ho)];
    change (BRANCH_BITS * length [])%nat with 0%nat in Hr; rewrite Hr.
  - assert (Hnone : contents t !! key = None).
    { apply eq_None_not_Some. intros [l (n' & [= <-] & Hl & Hkey)%Hc]. by eapply Hno. }
    exists t. rewrite Hnone, decide_False by (by intros []).
    split; [destruct t; simpl in *; by rewrite Er|]. split; [done|]. split; [|done].
    symmetry. by apply delete_id.
  - assert (Hsome : contents t !! key = Some l0) by (apply Hc; eauto).
    exists (mkTree o). rewrite Hsome, decide_True by done. split; [done|].
    assert (Hok : tree_ok K (mkTree o)).
    { unfold tree_ok. simpl. destruct o as [n'|]; [|done]. destruct Ho as [Hw Hl].
      split; [done|]. intros l [? _]%Hl. auto. }
    split; [done|]. split; [|done]. apply Hdel; [done|]. intros l. simpl.
    destruct o as [n'|]; [|naive_solver]. destruct Ho as [_ Hl]. rewrite <- Hl. naive_solver.
Qed.

(** ** Canonical shape *)

(** A node without its cached commitments and metadata. *)
Fixpoint erase (n : Node) : Node :=
  match n with
  | Leaf l => Leaf (mkLeafNode (lf_key l) (lf_value l) (lf_hash_target l) [] (lf_size l))
  | Branch b =>
      Branch (mkBranchNode (br_prefix b)
        (map (fun c => match c with Some c => Some (erase c) | None => None end) (br_children b))
        [] 0 0 0 [] true)
  end.

(** Two leaves below a branch part right after its prefix; none does before. *)
Lemma branch_parts pre b :
  wf pre (Branch b) ->
  exists l l', l ∈ collect_leaves (Branch b) /\ l' ∈ collect_leaves (Branch b)
    /\ dig (lf_key l) (length pre + length (br_prefix b))
       <> dig (lf_key l') (length pre + length (br_prefix b)).
Proof.
  intros Hwf. inversion Hwf as [|? ? _ _ (i & j & c & d & Hne & Hi & Hj) Hc]; subst.
  destruct (wf_nonempty _ _ (Hc _ _ Hi)) as [l Hl].
  destruct (wf_nonempty _ _ (Hc _ _ Hj)) as [l' Hl'].
  exists l, l'. rewrite !collect_leaves_branch.
  pose proof (wf_child_digit _ _ _ _ _ Hwf Hi Hl) as [_ ->].
  pose proof (wf_child_digit _ _ _ _ _ Hwf Hj Hl') as [_ ->].
  split; [eauto|]. split; [eauto|]. lia.
Qed.

Lemma branch_prefix_le pre b1 b2 :
  wf pre (Branch b1) -> wf pre (Branch b2) ->
  (forall l, l ∈ collect_leaves (Branch b1) -> l ∈ collect_leaves (Branch b2)) ->
  (length (br_prefix b2) <= length (br_prefix b1))%nat.
Proof.
  intros H1 H2 Hsub. destruct (branch_parts _ _ H1) as (l & l' & Hl & Hl' & Hne).
  destruct (decide (length (br_prefix b2) <= length (br_prefix b1))%nat) as [|Hlt]; [done|].
  exfalso. apply Hne. eapply agrees_common; [apply wf_branch_leaf_agrees..|]; eauto.
  rewrite length_app. lia.
Qed.

Lemma branch_prefix_eq pre b1 b2 :
  wf pre (Branch b1) -> wf pre (Branch b2) ->
  (forall l, l ∈ collect_leaves (Branch b1) <-> l ∈ collect_leaves (Branch b2)) ->
  br_prefix b1 = br_prefix b2.
Proof.
  intros H1 H2 Hl.
  pose proof (branch_prefix_le pre b1 b2 H1 H2 (fun l => proj1 (Hl l))).
  pose proof (branch_prefix_le pre b2 b1 H2 H1 (fun l => proj2 (Hl l))).
  destruct (wf_nonempty _ _ H1) as [l Hl1].
  pose proof (wf_branch_leaf_agrees _ _ _ H1 Hl1) as [_ A1]%agrees_app.
  apply Hl in Hl1. pose proof (wf_branch_leaf_agrees _ _ _ H2 Hl1) as [_ A2]%agrees_app.
  apply list_eq_same_length with (length (br_prefix b1)); [lia|done|].
  intros j x y _ Hx Hy. by rewrite <- (A1 _ _ Hx), <- (A2 _ _ Hy).
Qed.

(** The leaves of the child in slot [i]: those with digit [i] after the prefix. *)
Lemma child_leaves pre b i o l :
  wf pre (Branch b) -> br_children b !! i = Some o ->
  (exists c, o = Some c /\ l ∈ collect_leaves c) <->
  l ∈ collect_leaves (Branch b)
  /\ dig (lf_key l) (length pre + length (br_prefix b)) = Z.of_nat i.
Proof.
  intros Hwf Hi. rewrite collect_leaves_branch. split.
  - intros (c & -> & Hl). split; [eauto|]. by eapply wf_child_digit.
  - intros [(j & c & Hj & Hl) D]. destruct (wf_child_digit _ _ _ _ _ Hwf Hj Hl) as [_ D'].
    assert (i = j) as -> by lia. rewrite Hi in Hj. injection Hj as ->. eauto.
Qed.

Lemma wf_canonical pre n1 n2 :
  wf pre n1 -> wf pre n2 ->
  (forall l, l ∈ collect_leaves n1 <-> l ∈ collect_leaves n2) -> erase n1 = erase n2.
Proof.
  intros H1. revert n2. induction H1 as [pre l1 Hl|pre b1 Hlen Hp Htwo Hc IH]; intros n2 H2 Hls.
  - destruct n2 as [l2|b2].
    + assert (l1 ∈ collect_leaves (Leaf l2)) as ->%list_elem_of_singleton
        by (apply Hls, list_elem_of_singleton; done). done.
    + destruct (branch_parts _ _ H2) as (l & l' & Hl1 & Hl2 & Hne).
      apply Hls, list_elem_of_singleton in Hl1, Hl2. by subst.
  - pose proof (wf_branch pre b1 Hlen Hp Htwo Hc) as H1.
    destruct n2 as [l2|b2].
    + destruct (branch_parts _ _ H1) as (l & l' & Hl1 & Hl2 & Hne).
      apply Hls, list_elem_of_singleton in Hl1, Hl2. by subst.
    + pose proof (branch_prefix_eq _ _ _ H1 H2 Hls) as Ep. cbn [erase]. do 2 f_equal; [done|].
      apply list_eq_same_length with 64%nat;
        [by rewrite length_map, (wf_children_length _ _ H2)|by rewrite length_map|].
      intros i x y _ Hx Hy. rewrite list_lookup_fmap in Hx, Hy.
      destruct (br_children b1 !! i) as [o1|] eqn:E1; [|done].
      destruct (br_children b2 !! i) as [o2|] eqn:E2; [|done].
      simpl in Hx, Hy. injection Hx as <-. injection Hy as <-.
      assert (Ho : forall l, (exists c, o1 = Some c /\ l ∈ collect_leaves c) <->
                             (exists c, o2 = Some c /\ l ∈ collect_leaves c)).
      { intros l. rewrite (child_leaves _ _ _ _ _ H1 E1), (child_leaves _ _ _ _ _ H2 E2).
        by rewrite Hls, Ep. }
      inversion H2 as [|? ? _ _ _ Hc2]; subst.
      destruct o1 as [c1|], o2 as [c2|]; [f_equal|..|done].
      * apply (IH i c1 E1); [rewrite Ep; by apply Hc2|]. intros l. specialize (Ho l). naive_solver.
      * destruct (wf_nonempty _ _ (Hc _ _ E1)) as [l Hl]. specialize (Ho l). naive_solver.
      * destruct (wf_nonempty _ _ (Hc2 _ _ E2)) as [l Hl]. specialize (Ho l). naive_solver.
Qed.

Lemma contents_canonical K t1 t2 :
  tree_ok K t1 -> tree_ok K t2 -> contents t1 = contents t2 ->
  erase <$> root t1 = erase <$> root t2.
Proof.
  intros H1 H2 E.
  assert (Hl : forall l, (exists n, root t1 = Some n /\ l ∈ collect_leaves n) <->
                         (exists n, root t2 = Some n /\ l ∈ collect_leaves n)).
  { intros l. pose proof (contents_lookup K t1 (lf_key l) l H1) as L1.
    pose proof (contents_lookup K t2 (lf_key l) l H2) as L2. rewrite E in L1. naive_solver. }
  unfold tree_ok in *.
  destruct (root t1) as [n1|], (root t2) as [n2|]; simpl; [f_equal|..|done].
  - apply (wf_canonical []); [by destruct H1|by destruct H2|].
    intros l. specialize (Hl l). naive_solver.
  - destruct (wf_nonempty _ _ (proj1 H1)) as [l Hin]. specialize (Hl l). naive_solver.
  - destruct (wf_nonempty _ _ (proj1 H2)) as [l Hin]. specialize (Hl l). naive_solver.
Qed.

(** ** Commitments see only the shape *)

Section commit_erase.
Context `{Sha512} `{InclusionProver}.

(** What a parent reads of a committed child. *)
Definition digest (n : Node) : bytes * Z * bytes :=
  (node_commitment n, node_size n, child_commitment (Some n)).

Lemma commit_node_erase n :
  digest (commit_node true n) = digest (commit_node true (erase n)).
Proof.
  induction n as [l|b IH] using node_ind_nested; [done|].
  cbn [erase commit_node].
  set (kids := map (fun c => match c with Some c => Some (commit_node true c) | None => None end)).
  assert (Hkids : forall (A : Type) (f : option Node -> A),
    (forall c d, digest c = digest d -> f (Some c) = f (Some d)) ->
    map f (kids (br_children b)) =
    map f (kids (map (fun c => match c with Some c => Some (erase c) | None => None end)
                     (br_children b)))).
  { intros A f Hf. unfold kids. rewrite !map_map.
    apply list_eq_same_length with (length (br_children b)); [by rewrite length_map..|].
    intros i x y _ Hx Hy. rewrite list_lookup_fmap in Hx, Hy.
    destruct (br_children b !! i) as [o|] eqn:Eo; [|done].
    simpl in Hx, Hy. injection Hx as <-. injection Hy as <-.
    destruct o as [c|]; [|done]. apply Hf, (IH i c Eo). }
  unfold digest, branch_commit, with_size, with_children, with_commitment. cbn -[list_sumZ kids].
  rewrite (Hkids _ child_commitment) by (intros c d E; by injection E).
  rewrite (list_sumZ_map _ _ _ _ (Hkids _ (fun c => match c with Some c => node_size c | None => 0 end)
    (fun c d E => f_equal (fun x => snd (fst x)) E))). done.
Qed.

Lemma commit_erase t1 t2 :
  erase <$> root t1 = erase <$> root t2 -> fst (commit t1) = fst (commit t2).
Proof.
  intros E. unfold commit. destruct (root t1) as [n1|], (root t2) as [n2|]; try done.
  simpl in E. injection E as E. simpl.
  pose proof (commit_node_erase n1) as H1. pose proof (commit_node_erase n2) as H2.
  rewrite E in H1. rewrite <- H2 in H1. by injection H1.
Qed.
End commit_erase.

(** ** Leaf counts *)

(** The leaves below a child slot. *)
Definition slot_leaves (c : option Node) : Z :=
  match c with Some c => Z.of_nat (length (collect_leaves c)) | None => 0 end.

Lemma leaves_sum b : Z.of_nat (length (collect_leaves (Branch b))) = list_sumZ slot_leaves (br_children b).
Proof.
  cbn [collect_leaves]. unfold list_sumZ. induction (br_children b) as [|o cs IH]; [done|].
  simpl. rewrite length_app, Nat2Z.inj_add, IH. by destruct o.
Qed.

Lemma slot_leaves_le b i c :
  br_children b !! i = Some (Some c) ->
  Z.of_nat (length (collect_leaves c)) <= Z.of_nat (length (collect_leaves (Branch b))).
Proof.
  intros Hi. rewrite leaves_sum.
  pose proof (list_sumZ_insert slot_leaves (br_children b) i (Some c) None Hi) as E. simpl in E.
  assert (0 <= list_sumZ slot_leaves (<[i:=None]> (br_children b))); [|lia].
  apply list_sumZ_nonneg. intros [d|] _; simpl; lia.
Qed.

(** Every [leaf_count] below is the number of leaves. *)
Inductive counted : Node -> Prop :=
| counted_leaf l : counted (Leaf l)
| counted_branch b :
    br_leaf_count b = Z.of_nat (length (collect_leaves (Branch b))) ->
    (forall i c, br_children b !! i = Some (Some c) -> counted c) ->
    counted (Branch b).

Lemma count_children_exact (cs : Children) :
  (forall i c, cs !! i = Some (Some c) -> counted c) -> count_children cs = list_sumZ slot_leaves cs.
Proof.
  intros Hc. apply list_sumZ_ext. intros o Ho. apply list_elem_of_lookup in Ho as [i Hi].
  destruct o as [c|]; [|done]. specialize (Hc _ _ Hi). by destruct Hc.
Qed.

(** A branch recounted from counted children is counted. *)
Lemma counted_recount b :
  br_leaf_count b = count_children (br_children b) ->
  (forall i c, br_children b !! i = Some (Some c) -> counted c) -> counted (Branch b).
Proof.
  intros E Hc. constructor; [|done]. by rewrite leaves_sum, E, count_children_exact.
Qed.

Lemma count_empty : list_sumZ slot_leaves (replicate BRANCH_NODES None) = 0.
Proof. done. Qed.

(** A branch with two counted children in distinct slots. *)
Lemma counted_two b i j x y :
  br_children b = <[Z.to_nat j := Some y]> (<[Z.to_nat i := Some x]> (replicate BRANCH_NODES None)) ->
  0 <= i <= 63 -> 0 <= j <= 63 -> i <> j ->
  br_leaf_count b = Z.of_nat (length (collect_leaves x)) + Z.of_nat (length (collect_leaves y)) ->
  counted x -> counted y -> counted (Branch b).
Proof.
  intros Hcs Hi Hj Hne Hn Hx Hy. constructor.
  - rewrite leaves_sum, Hn, Hcs. unfold BRANCH_NODES.
    rewrite (list_sumZ_insert _ _ _ None), (list_sumZ_insert _ _ _ None);
      [|by apply lookup_replicate_2; lia|].
    + change (replicate 64 None) with (replicate BRANCH_NODES (@None Node)).
      rewrite count_empty. simpl. lia.
    + rewrite list_lookup_insert_ne by lia. apply lookup_replicate_2; lia.
  - intros k c. rewrite Hcs, two_slots_lookup by lia. by intros [[_ ->]|[_ ->]].
Qed.

Lemma set_slot_inv cs i c cs' : set_slot cs i c = Ok cs' ->
  0 <= i < Z.of_nat (length cs) /\ cs' = <[Z.to_nat i := c]> cs.
Proof. unfold set_slot. case_match eqn:E; [|done]. intros [= <-]. bool_to_prop. done. Qed.

Lemma split_leaf_counted pre existing fresh n' :
  agrees (lf_key existing) pre -> agrees (lf_key fresh) pre ->
  separated (lf_key existing) (lf_key fresh) ->
  split_leaf existing fresh (BRANCH_BITS * length pre) = Ok n' -> counted n'.
Proof.
  intros Ha Hb Hsep.
  destruct (diverge_separated _ _ (length pre) Hsep) as (m & E & _ & Hne & H1 & H2).
  { intros j Hj. by eapply agrees_common. }
  unfold split_leaf. rewrite E. fold (dig (lf_key existing) (length pre + m)).
  fold (dig (lf_key fresh) (length pre + m)). rewrite !(proj2 (Z.leb_le 0 _)) by lia.
  intros Hr. inv_ok. apply set_slot_inv in H as [_ ->]. apply set_slot_inv in H0 as [_ ->].
  eapply counted_two; [done|exact H1|exact H2|done|done|constructor..].
Qed.

Lemma split_branch_counted b fresh i p n n' :
  counted (Branch b) -> br_leaf_count b < u64_max -> n <> p -> 0 <= n ->
  split_branch b fresh i p n = Ok n' -> counted n'.
Proof.
  intros Hb Hmax Hne Hn. unfold split_branch. rewrite (proj2 (Z.leb_le 0 _)) by done.
  intros Hr. inv_ok. apply set_slot_inv in H as [Hp ->]. apply set_slot_inv in H0 as [Hn' ->].
  rewrite length_insert in Hn'. cbn [br_children new_branch] in Hp, Hn'.
  rewrite length_replicate in Hp, Hn'.
  inversion Hb as [|? Hcount Hc]; subst.
  eapply (counted_two _ p n); [done|unfold BRANCH_NODES in *; lia..|done| | |constructor].
  - cbn [br_leaf_count with_counts]. rewrite Hcount in *. unfold sat_add_u64.
    rewrite Z.min_l by lia. done.
  - constructor; done.
Qed.

Lemma insert_node_counted pre n fresh n' :
  wf pre n -> agrees (lf_key fresh) pre -> compatible n (lf_key fresh) -> counted n ->
  Z.of_nat (length (collect_leaves n)) < u64_max ->
  insert_node n fresh (BRANCH_BITS * length pre) = Ok n' -> counted n'.
Proof.
  intros Hwf. revert n'.
  induction Hwf as [pre l Hl|pre b Hlen Hp Htwo Hc IH]; intros n' Hk Hcomp Hcnt Hmax.
  - cbn [insert_node]. case_decide; [intros [= <-]; constructor|].
    apply split_leaf_counted; [done|done|].
    destruct (Hcomp l); [by apply list_elem_of_singleton|done|done].
  - pose proof (wf_branch pre b Hlen Hp Htwo Hc) as Hwf. cbn [insert_node].
    inversion Hcnt as [|? Hcount Hcc]; subst.
    destruct (match_prefix (lf_key fresh) _ _ 0) as [[[i p] nb]|d] eqn:E.
    + destruct (mismatch_digit _ _ _ _ _ _ Hwf Hk Hcomp E) as [Hne Hnb].
      apply split_branch_counted; [done|lia|done|done].
    + destruct (prefix_digits _ _ _ _ Hk E) as (Ha & -> & ->).
      set (m := (length pre + length (br_prefix b))%nat) in *.
      destruct (Z.ltb_spec (dig (lf_key fresh) m) 0) as [|Hd]; [done|]. intros Hr. inv_ok.
      destruct (slot_exists (br_children b) (lf_key fresh) m Hlen Hd) as [o Ho].
      rewrite (with_slot_lookup _ _ _ _ Ho) in H.
      apply counted_recount; [done|]. cbn.
      intros j c Hj. apply list_lookup_insert_Some in Hj as [(<- & [= <-] & _)|[_ Hj]]; [|eauto].
      destruct o as [c0|]; [|injection H as <-; constructor].
      pose proof (next_depth pre b (dig (lf_key fresh) m)) as Hnd. fold m in Hnd. rewrite Hnd in H.
      rewrite <- (slot_nat _ _ Hd) in H.
      eapply (IH _ _ Ho); [|by eapply compatible_child|by eapply Hcc| |exact H].
      * rewrite slot_nat, app_assoc, agrees_snoc, length_app by done. done.
      * pose proof (slot_leaves_le b _ c0 Ho). lia.
Qed.

Lemma collapse_counted b cs n' :
  (forall i c, cs !! i = Some (Some c) -> counted c) -> collapse b cs = Some n' -> counted n'.
Proof.
  intros Hc. unfold collapse.
  destruct (occupied_cases cs) as [[-> _]|[(i & c & -> & Hi & _)|[([i x] & y & l & ->) _]]];
    intros [= <-].
  - destruct c as [l|cb]; [constructor|]. specialize (Hc _ _ Hi). inversion Hc; subst.
    by constructor.
  - by apply counted_recount.
Qed.

Lemma with_slot_panic {A B} (f : A -> outcome B) l i : l !! i = None -> with_slot f l i = Panic.
Proof. revert i. induction l as [|y l IH]; intros [|i] Hi; try done. by apply IH. Qed.

(** A deletion that finds nothing changes nothing. *)
Lemma delete_not_found n k d o : delete_node n k d = Ok (false, o) -> o = Some n.
Proof.
  revert d o. induction n as [l|b IH] using node_ind_nested; intros d o; cbn [delete_node].
  - case_decide; by intros [= <-].
  - destruct (match_prefix k d (br_prefix b) 0) as [x|d'] eqn:E; [by intros [= <-]|].
    destruct (get_next_nibble k d' <? 0); [by intros [= <-]|].
    destruct (br_children b !! Z.to_nat (get_next_nibble k d')) as [s|] eqn:Hs;
      [|by rewrite with_slot_panic].
    rewrite (with_slot_lookup _ _ _ _ Hs). intros Hr. inv_ok. destruct x as [[] c]; [done|].
    simpl in H0. injection H0 as <-.
    assert (c = s) as ->.
    { destruct s as [c0|]; [by eapply IH|]. by injection H. }
    rewrite list_insert_id by done. by destruct b.
Qed.

Lemma delete_node_counted n k d found n' :
  counted n -> delete_node n k d = Ok (found, Some n') -> counted n'.
Proof.
  intros Hcnt Hd. destruct found; [|by apply delete_not_found in Hd as [= ->]].
  revert d n' Hcnt Hd. induction n as [l|b IH] using node_ind_nested; intros d n' Hcnt;
    cbn [delete_node].
  - case_decide; discriminate.
  - inversion Hcnt as [|? Hcount Hcc]; subst.
    destruct (match_prefix k d (br_prefix b) 0) as [x|d'] eqn:E; [done|].
    destruct (get_next_nibble k d' <? 0) eqn:Hn; [done|].
    destruct (br_children b !! Z.to_nat (get_next_nibble k d')) as [o|] eqn:Ho.
    2: by rewrite with_slot_panic.
    rewrite (with_slot_lookup _ _ _ _ Ho). intros Hr. inv_ok. destruct x as [[] new_child]; [|done].
    simpl in H0. injection H0 as H0. eapply collapse_counted; [|exact H0].
    intros j c Hj. apply list_lookup_insert_Some in Hj as [(_ & -> & _)|[_ Hj]]; [|eauto].
    destruct o as [c0|]; [|done]. by eapply (IH _ _ Ho); [eapply Hcc|].
Qed.

(** ** Sizes after a commit *)

Lemma children_size (f : Node -> Node) (cs : Children) :
  (forall i c, cs !! i = Some (Some c) -> node_size (f c) = list_sumZ lf_size (collect_leaves c)) ->
  list_sumZ (fun c => match c with Some c => node_size c | None => 0 end)
    (map (fun c => match c with Some c => Some (f c) | None => None end) cs)
  = list_sumZ lf_size
      (concat (map (fun c => match c with Some c => collect_leaves c | None => [] end) cs)).
Proof.
  induction cs as [|o cs IH]; intros Hc; [done|]. cbn [map concat]. rewrite list_sumZ_app, <- IH.
  - destruct o as [c|]; [|done]. unfold list_sumZ at 1. cbn [foldr].
    by rewrite (Hc 0%nat c eq_refl).
  - intros i c Hi. exact (Hc (S i) c Hi).
Qed.

Lemma commit_node_size `{Sha512} `{InclusionProver} r n :
  node_size (commit_node r n) = list_sumZ lf_size (collect_leaves n).
Proof.
  induction n as [l|b IH] using node_ind_nested.
  - unfold commit_node, leaf_commit. case_match; simpl; unfold list_sumZ; simpl; lia.
  - cbn [commit_node]. unfold branch_commit. case_match; cbn -[list_sumZ]; by apply children_size.
Qed.

Lemma commit_node_leaves `{Sha512} `{InclusionProver} n :
  collect_leaves (commit_node true n) = compute_commitment <$> collect_leaves n.
Proof.
  induction n as [l|b IH] using node_ind_nested; [done|]. cbn [commit_node].
  unfold branch_commit. cbn -[compute_commitment].
  change (fmap (M := list) compute_commitment) with (map compute_commitment) in *.
  rewrite List.concat_map, !map_map. f_equal.
  apply list_eq_same_length with (length (br_children b)); [by rewrite length_map..|].
  intros i x y _ Hx Hy. rewrite list_lookup_fmap in Hx, Hy.
  destruct (br_children b !! i) as [[c|]|] eqn:Ec; [| |done]; simpl in Hx, Hy;
    injection Hx as <-; injection Hy as <-; [by apply (IH i)|done].
Qed.

Lemma commit_contents `{Sha512} `{InclusionProver} n :
  contents (mkTree (Some (commit_node true n))) = compute_commitment <$> contents (mkTree (Some n)).
Proof.
  unfold contents, leaf_map. cbn [root]. rewrite commit_node_leaves.
  induction (collect_leaves n) as [|l ls IH]; [symmetry; apply fmap_empty|].
  rewrite !fmap_cons, !list_to_map_cons, fmap_insert, IH. done.
Qed.

(** ** Histories *)

Inductive tree_op : Type :=
| OpInsert (key value hash_target : bytes) (size : Z)
| OpDelete (key : bytes).

Definition op_key (o : tree_op) : bytes :=
  match o with OpInsert key _ _ _ => key | OpDelete key => key end.

Section history.
Context `{Sha512}.

(** The tree after one operation, and after a sequence of them. *)
Definition apply_op (t : VectorCommitmentTree) (o : tree_op) : VectorCommitmentTree :=
  match o with
  | OpInsert key value hash_target size => snd (insert t key value hash_target size)
  | OpDelete key => snd (Tree.delete t key)
  end.
Definition apply_ops (ops : list tree_op) : VectorCommitmentTree := fold_left apply_op ops new_tree.

(** The same operations on the finite map. *)
Definition spec_op (m : gmap bytes LeafNode) (o : tree_op) : gmap bytes LeafNode :=
  match o with
  | OpInsert key value hash_target size => <[key := new_leaf key value hash_target size]> m
  | OpDelete key => base.delete key m
  end.
Definition spec_ops (ops : list tree_op) : gmap bytes LeafNode := fold_left spec_op ops ∅.

Lemma apply_op_refines `{KeySpace K} t o :
  tree_ok K t -> K (op_key o) ->
  tree_ok K (apply_op t o) /\ contents (apply_op t o) = spec_op (contents t) o.
Proof.
  intros Ht Ho. destruct o as [key value hash_target size|key]; simpl in Ho.
  - destruct (insert_contents t key value hash_target size) as (t' & E & ? & ?); [done..|].
    simpl. by rewrite E.
  - destruct (delete_contents K t key) as (t' & E & ? & ? & _); [done|by eapply ks_nonempty|].
    simpl. by rewrite E.
Qed.

Lemma apply_ops_refines `{KeySpace K} ops :
  Forall (fun o => K (op_key o)) ops ->
  tree_ok K (apply_ops ops) /\ contents (apply_ops ops) = spec_ops ops.
Proof.
  intros Hops. unfold apply_ops, spec_ops. change ∅ with (contents new_tree).
  pose proof (tree_ok_new K) as Ht. revert Ht. generalize new_tree.
  induction Hops as [|o ops Ho _ IH]; intros t Ht; [done|]. simpl.
  destruct (apply_op_refines t o Ht Ho) as [Ht' E]. rewrite <- E. by apply IH.
Qed.

(** Every [leaf_count] of the tree is the number of leaves. *)
Definition tree_counted (t : VectorCommitmentTree) : Prop :=
  match root t with None => True | Some n => counted n end.

End history.

(** ** Properties *)

(** C1. Refinement: any sequence of inserts and deletes over a key
    space, run from the empty tree, behaves as the same sequence on a
    finite map.  Every operation keeps the well-formedness invariant, and a
    lookup of any key in the resulting tree returns exactly the map's entry
    (never a panic). *)
Theorem tree_refines_map : 
  forall (Sha : Sha512) (K : bytes -> Prop) (HK : KeySpace K) (ops : list tree_op) (k : bytes),
  Forall (fun o => K (op_key o)) ops ->
  tree_ok K (apply_ops ops) /\ get_leaf (apply_ops ops) k = Ok (spec_ops ops !! k).
Proof.
  intros Sha K HK ops k Hops. destruct (apply_ops_refines ops Hops) as [Hok <-].
  split; [done|]. by eapply get_leaf_contents.
Qed.

Definition demo_ops : list tree_op :=
  [OpInsert [x00; x01] [x0a] [] 1; OpInsert [x00; x02] [x0b] [] 1;
   OpInsert [xf0; x02] [x0c] [x77] 1; OpInsert [x00; x02] [x0d] [] 2; OpDelete [x00; x01]].
Definition demo_ops_direct : list tree_op :=
  [OpInsert [xf0; x02] [x0c] [x77] 1; OpInsert [x00; x02] [x0d] [] 2].

Lemma tree_refines_map_witness :
  lf_value <$> (spec_ops (H := Demo.pad_sha512) demo_ops !! [x00; x02]) = Some [x0d]
  /\ get_leaf (apply_ops (H := Demo.pad_sha512) demo_ops) [x00; x02]
     = Ok (spec_ops (H := Demo.pad_sha512) demo_ops !! [x00; x02]).
Proof.
  split; [vm_compute; reflexivity|].
  apply (tree_refines_map Demo.pad_sha512 (fixed_width 2) _ demo_ops [x00; x02]).
  repeat constructor; discriminate.
Defined.

(** C2. History independence: two histories that leave the same map leave the
    same root commitment, whatever the inclusion prover.  In particular a tree
    that lost a key by deletion commits to the same root as one that never had it. *)
Theorem commit_history_independent :
  forall (Sha : Sha512) (Prover : InclusionProver) (K : bytes -> Prop) (HK : KeySpace K)
    (ops1 ops2 : list tree_op),
  Forall (fun o => K (op_key o)) (ops1 ++ ops2) ->
  spec_ops ops1 = spec_ops ops2 ->
  fst (commit (apply_ops ops1)) = fst (commit (apply_ops ops2)).
Proof.
  intros Sha Prover K HK ops1 ops2 [H1 H2]%Forall_app E.
  destruct (apply_ops_refines ops1 H1) as [Hok1 C1].
  destruct (apply_ops_refines ops2 H2) as [Hok2 C2].
  apply commit_erase, (contents_canonical K); [done|done|]. by rewrite C1, C2.
Qed.

Lemma commit_history_independent_witness :
  apply_ops (H := Demo.pad_sha512) demo_ops <> apply_ops (H := Demo.pad_sha512) demo_ops_direct
  /\ fst (commit (H := Demo.pad_sha512) (H0 := Demo.list_prover)
            (apply_ops (H := Demo.pad_sha512) demo_ops))
     = fst (commit (H := Demo.pad_sha512) (H0 := Demo.list_prover)
            (apply_ops (H := Demo.pad_sha512) demo_ops_direct)).
Proof.
  split; [vm_compute; discriminate|].
  apply (commit_history_independent Demo.pad_sha512 Demo.list_prover (fixed_width 2) _
           demo_ops demo_ops_direct); [repeat constructor; discriminate|].
  apply map_eq. intros k. vm_compute spec_ops. reflexivity.
Defined.

(** Deletion: on a tree over any set of keys, deleting a present key
    returns [Ok] and removes exactly that key; deleting an absent key returns
    [NotFound] and leaves the tree as it was, node for node. *)
Theorem delete_outcome : forall (K : bytes -> Prop) (t : VectorCommitmentTree) (key : bytes),
  tree_ok K t -> key <> [] ->
  exists t', Tree.delete t key
      = (if decide (is_Some (contents t !! key)) then Ok tt else Err NotFound, t')
    /\ tree_ok K t' /\ contents t' = base.delete key (contents t)
    /\ (contents t !! key = None -> t' = t).
Proof. apply delete_contents. Qed.

Lemma delete_outcome_witness :
  let t := mkTree (Some (Leaf (mkLeafNode [x05] [x06] [] [] 1))) in
  exists t', Tree.delete t [x05] = (Ok tt, t') /\ tree_ok (fixed_width 1) t'.
Proof.
  intros t. destruct (delete_outcome (fixed_width 1) t [x05]) as (t' & E & Hok & _).
  - split; [constructor; apply agrees_nil|]. intros l ->%list_elem_of_singleton. by split.
  - discriminate.
  - exists t'. split; [|exact Hok]. rewrite E. f_equal.
Defined.

(** C10. The [leaf_count] of every branch is exact: each operation on a tree
    over a key space keeps, in every branch, a count equal to the number
    of leaves below it. *)
Theorem leaf_counts_exact :
  forall (Sha : Sha512) (K : bytes -> Prop) (HK : KeySpace K) (t : VectorCommitmentTree) (o : tree_op),
  tree_ok K t -> K (op_key o) -> Z.of_nat (length (leaves t)) < u64_max ->
  tree_counted t -> tree_counted (apply_op t o).
Proof.
  intros Sha K HK t o. unfold tree_ok, tree_counted, leaves, apply_op, insert, insert_recursive, Tree.delete, delete_recursive.
  intros Ht Ho Hmax Hc.
  destruct o as [key value hash_target size|[|x key]]; simpl in Ho; [|done|];
      destruct (root t) as [n|] eqn:Er; simpl; try done; [|by constructor|].
    - destruct Ht as [Hwf Hlen]. rewrite length_map in Hmax.
      destruct (insert_node n _ 0) as [n'|e|] eqn:E; simpl; try done.
      eapply (insert_node_counted []); [done|apply agrees_nil| |done|done|exact E].
      by eapply tree_ok_compatible.
    - destruct (delete_node n (x :: key) 0) as [[found [n'|]]|e|] eqn:E; simpl; try done.
      by eapply delete_node_counted.
Qed.

Lemma leaf_counts_exact_witness :
  let t := apply_ops (H := Demo.pad_sha512) [OpInsert [x05] [x06] [] 1] in
  tree_counted (apply_op (H := Demo.pad_sha512) t (OpInsert [x15] [x06] [] 1)).
Proof.
  intros t. apply (leaf_counts_exact Demo.pad_sha512 (fixed_width 1) _).
  - split; [constructor; apply agrees_nil|]. intros l ->%list_elem_of_singleton. by split.
  - by split.
  - reflexivity.
  - constructor.
Defined.

(** After a commit the recorded size of the root is the sum of the sizes of
    the leaves of the tree, and its leaves, in order and as a map from keys,
    are those of the tree with their commitments recomputed. *)
Theorem commit_size_and_leaves :
  forall (Sha : Sha512) (Prover : InclusionProver) (n : Node),
  exists n', snd (commit (mkTree (Some n))) = mkTree (Some n')
    /\ node_size n' = list_sumZ lf_size (collect_leaves n)
    /\ collect_leaves n' = compute_commitment <$> collect_leaves n
    /\ contents (mkTree (Some n')) = compute_commitment <$> contents (mkTree (Some n)).
Proof.
  intros Sha Prover n. exists (commit_node true n). split; [done|].
  split; [apply commit_node_size|]. split; [apply commit_node_leaves|]. apply commit_contents.
Qed.

(** A rejected insert destroys the tree.  Two 3-byte keys share a branch
    whose prefix is three nibbles long; inserting a 2-byte key that runs out at
    the end of that prefix returns an error, and the tree that held two leaves
    is empty afterwards. *)
Theorem failed_insert_empties_tree : forall Sha : Sha512,
  let t := apply_ops [OpInsert [x00; x00; x00] [x0a] [] 1; OpInsert [x00; x00; x01] [x0b] [] 1] in
  length (leaves t) = 2%nat
  /\ insert t [x00; x00] [x0c] [] 1 = (Err InvalidArgument, new_tree).
Proof. intros Sha. split; reflexivity. Qed.

(** A key that is a nibble prefix of a stored key is accepted and lost: the
    insert returns [Ok], the count says two leaves, one leaf is in the tree and
    the new key is not found. *)
Theorem prefix_key_lost : forall Sha : Sha512,
  let t := apply_ops [OpInsert [x00; x00; x00] [x0a] [] 1] in
  exists b, insert t [x00; x00] [x0c] [] 1 = (Ok tt, mkTree (Some (Branch b)))
    /\ br_leaf_count b = 2 /\ length (collect_leaves (Branch b)) = 1%nat
    /\ get_leaf (mkTree (Some (Branch b))) [x00; x00] = Ok None.
Proof. intros Sha. eexists. repeat split. Qed.

(** After a deletion the metadata need not match a freshly built tree: with
    the same two leaves left, the surviving branch records a [longest_branch]
    of 1 where the freshly built one records 0 (the shapes agree). *)
Theorem delete_longest_branch_differs : forall Sha : Sha512,
  let a := OpInsert [x00] [x0a] [] 1 in
  let b := OpInsert [x04] [x0b] [] 1 in
  let c := OpInsert [x08] [x0c] [] 1 in
  exists b1 b2,
    root (apply_ops [a; b; c; OpDelete [x08]]) = Some (Branch b1)
    /\ root (apply_ops [a; b]) = Some (Branch b2)
    /\ erase (Branch b1) = erase (Branch b2)
    /\ br_longest_branch b1 = 1 /\ br_longest_branch b2 = 0.
Proof. intros Sha. do 2 eexists. repeat split. Qed.
