(* ===== verification/Traversal.v ===== *)
(** * Traversal proofs: parsing and verification

    [crates/quil-execution/src/traversal_proof.rs], the verifier's side of the
    proofs that [tree.rs] produces ([Tree.prove_multiple], [Tree.to_bytes]),
    and the end-to-end completeness of the pair. *)

From Stdlib Require Import Strings.Byte.
From stdpp Require Import gmap.
From S2P Require Import Prelude Bytes Nibble Node Tree TreeSpec TreeCorrect.

(** ** The verifier's data *)

Record VerifierProof : Type := mkVerifierProof {
  vp_multicommitment : bytes;
  vp_proof : bytes;
  vp_sub_proofs : list TraversalSubProof;
}.

(** ** Parsing *)

(** [read_go_u32], [read_go_u64], [read_go_bytes] *)
Definition read_go_u32 : parser nat :=
  b ← read_or InvalidArgument 4; mret (Z.to_nat (be_Z b)).
Definition read_go_u64 : parser Z :=
  b ← read_or InvalidArgument 8; mret (be_Z b).
Definition read_go_bytes (len : nat) : parser bytes := read_or InvalidArgument len.

(** A count followed by that many entries. *)
Definition read_counted {A} (p : parser A) : parser (list A) :=
  n ← read_go_u32; read_times n p.
Definition read_go_field : parser bytes := n ← read_go_u32; read_go_bytes n.

Definition read_sub_proof : parser TraversalSubProof :=
  commits ← read_counted read_go_field;
  ys ← read_counted read_go_field;
  paths ← read_counted (read_counted read_go_u64);
  mret (mkSubProof commits ys paths).

(** [parse_traversal_proof] *)
Definition parse_traversal_proof (data : bytes) : outcome VerifierProof :=
  '(mp_bytes, data) ← read_go_field data;
  '(multicommitment, mp_rest) ← read_go_field mp_bytes;
  '(proof, _) ← read_go_field mp_rest;
  '(sub_proofs, _) ← read_counted read_sub_proof data;
  match sub_proofs with
  | [] => Err InvalidArgument
  | _ =>
      if existsb (fun sp => negb (bool_decide (sp_ys sp = []))) sub_proofs
      then Ok (mkVerifierProof multicommitment proof sub_proofs)
      else Err InvalidArgument
  end.

(** ** Verification *)

Section verify.
Context `{Sha512} `{InclusionProver}.

(** The value expected in [ys[0]]: the child's commitment for a leaf, its
    tagged hash for a branch.  [&paths[1][..paths[1].len() - 1]] panics on an
    empty path. *)
Definition expected_y (c1 : bytes) (more_commits : bool) (rest_paths : list (list Z))
    : outcome bytes :=
  if more_commits then
    prefix ← match rest_paths with
             | [] => Ok []
             | [] :: _ => Panic
             | p :: _ => Ok (removelast p)
             end;
    Ok (sha512 (x01 :: concat (map (fun p => be_bytes 4 (wrap_u32 p)) prefix) ++ c1))
  else Ok c1.

(** [verify_path_chain]; [&paths[1..]] and [ys[0]] panic on empty slices. *)
Fixpoint verify_path_chain (commits : list bytes) (paths : list (list Z)) (ys : list bytes)
    : outcome bool :=
  match commits with
  | [] | [_] => Ok true
  | _ :: (c1 :: more) as rest =>
      out ← expected_y c1 (match more with [] => false | _ => true end) (tail paths);
      match ys with
      | [] => Panic
      | y :: ys' =>
          if decide (out = y) then
            match paths with
            | [] => Panic
            | _ :: paths' => verify_path_chain rest paths' ys'
            end
          else Ok false
      end
  end.

(** The structural checks of one sub-proof. *)
Definition sub_proof_shape (sp : TraversalSubProof) : bool :=
  negb (bool_decide (sp_commits sp = []))
  && (length (sp_paths sp) =? length (sp_commits sp) - 1)%nat
  && (length (sp_ys sp) =? length (sp_commits sp))%nat.
Definition sub_proof_root (root : bytes) (sp : TraversalSubProof) : bool :=
  bool_decide (head (sp_commits sp) = Some root).

(** Accumulated commitments, indices and evaluations, or an early [Ok(false)]. *)
Fixpoint collect_sub_proofs (sps : list TraversalSubProof)
    (commits : list bytes) (indices : list Z) (ys : list bytes)
    : outcome (option (list bytes * list Z * list bytes)) :=
  match sps with
  | [] => Ok (Some (commits, indices, ys))
  | sp :: sps' =>
      if (length (sp_commits sp) <=? 1)%nat then collect_sub_proofs sps' commits indices ys
      else
        let indices := indices ++ omap last (sp_paths sp) in
        let commits := commits ++ removelast (sp_commits sp) in
        let ys := ys ++ removelast (sp_ys sp) in
        ok ← verify_path_chain (sp_commits sp) (sp_paths sp) (sp_ys sp);
        if (ok : bool) then collect_sub_proofs sps' commits indices ys else Ok None
  end.

(** [verify_traversal_proof] *)
Definition verify_traversal_proof (root : bytes) (proof : VerifierProof) : outcome bool :=
  if bool_decide (vp_multicommitment proof = []) || bool_decide (vp_proof proof = [])
  then Err InvalidArgument
  else if negb (forallb sub_proof_shape (vp_sub_proofs proof)) then Err InvalidArgument
  else if negb (forallb (sub_proof_root root) (vp_sub_proofs proof)) then Err InvalidArgument
  else
    acc ← collect_sub_proofs (vp_sub_proofs proof) [] [] [];
    match acc with
    | None => Ok false
    | Some (all_commits, all_indices, all_ys) =>
        if (1 <? length all_commits)%nat
           && negb (verify_multiple all_commits all_ys all_indices 64
                      (vp_multicommitment proof) (vp_proof proof))
        then Ok false
        else Ok true
    end.
End verify.

(** ** The wire format round trip *)

Definition fits {A} (l : list A) : Prop := Z.of_nat (length l) < 2 ^ 32.

Lemma reads_go_u32 n : Z.of_nat n < 2 ^ 32 -> reads read_go_u32 (put_u32 n) n.
Proof.
  intros Hn. rewrite <- (Nat2Z.id n) at 2. unfold put_u32, read_go_u32.
  rewrite <- (be_Z_be_bytes_small 4 (Z.of_nat n)) at 2 by (simpl; lia).
  apply (reads_map _ (fun b => Z.to_nat (be_Z b))), reads_read_or, length_be_bytes.
Qed.

Lemma reads_go_field b : fits b -> reads read_go_field (put_field b) b.
Proof.
  intros Hb. eapply reads_bind; [by apply reads_go_u32|]. by apply reads_read_or.
Qed.

Lemma reads_counted {A} (p : parser A) (enc : A -> bytes) (l : list A) :
  fits l -> (forall x, x ∈ l -> reads p (enc x) x) ->
  reads (read_counted p) (put_u32 (length l) ++ concat (enc <$> l)) l.
Proof.
  intros Hl Hp. eapply reads_bind; [by apply reads_go_u32|].
  rewrite <- (list_fmap_id l) at 3. by apply reads_times.
Qed.

Lemma reads_fields l : fits l -> Forall fits l -> reads (read_counted read_go_field) (put_fields l) l.
Proof.
  intros Hl Hf. apply reads_counted; [done|]. intros b Hb. apply reads_go_field.
  by eapply Forall_forall in Hf.
Qed.

Lemma reads_path p : fits p -> Forall in_u64 p -> reads (read_counted read_go_u64) (put_path p) p.
Proof.
  intros Hp Hr. apply reads_counted; [done|]. intros z Hz. eapply Forall_forall in Hr; [|done].
  rewrite <- (be_Z_be_bytes_small 8 z) at 2 by (unfold_ints; simpl; lia).
  apply (reads_map _ be_Z), reads_read_or, length_be_bytes.
Qed.

(** Every length of a sub-proof fits its 32-bit prefix, every index is a [u64]. *)
Definition sub_proof_fits (sp : TraversalSubProof) : Prop :=
  fits (sp_commits sp) /\ Forall fits (sp_commits sp)
  /\ fits (sp_ys sp) /\ Forall fits (sp_ys sp)
  /\ fits (sp_paths sp) /\ Forall (fun p => fits p /\ Forall in_u64 p) (sp_paths sp).

Lemma reads_sub_proof sp : sub_proof_fits sp -> reads read_sub_proof (put_sub_proof sp) sp.
Proof.
  intros (Hc & Hcf & Hy & Hyf & Hp & Hpf). unfold read_sub_proof, put_sub_proof.
  eapply reads_bind; [by apply reads_fields|].
  eapply reads_bind; [by apply reads_fields|].
  destruct sp as [commits ys paths]; cbn [sp_commits sp_ys sp_paths] in *.
  apply (reads_map _ (mkSubProof commits ys)).
  apply reads_counted; [done|]. intros p Hin. eapply Forall_forall in Hpf as [? ?]; [|done].
  by apply reads_path.
Qed.

Definition multi_proof_fits (p : MultiKeyTraversalProof) : Prop :=
  fits (mp_commitment (mk_multiproof p)) /\ fits (mp_proof (mk_multiproof p))
  /\ fits (serialize_multiproof (mk_multiproof p))
  /\ fits (mk_sub_proofs p) /\ Forall sub_proof_fits (mk_sub_proofs p).

(** The verifier's view of a multi-key proof. *)
Definition received (p : MultiKeyTraversalProof) : VerifierProof :=
  mkVerifierProof (mp_commitment (mk_multiproof p)) (mp_proof (mk_multiproof p)) (mk_sub_proofs p).

Lemma parse_to_bytes p sp :
  multi_proof_fits p -> sp ∈ mk_sub_proofs p -> sp_ys sp <> [] ->
  parse_traversal_proof (to_bytes p) = Ok (received p).
Proof.
  intros (Hc & Hp & Hm & Hs & Hsf) Hsp Hys. unfold parse_traversal_proof, to_bytes.
  rewrite (reads_go_field _ Hm). cbn [mbind outcome_bind]. unfold serialize_multiproof.
  rewrite (reads_go_field _ Hc). cbn [mbind outcome_bind]. rewrite (reads_go_field _ Hp). cbn [mbind outcome_bind].
  assert (Hr : reads (read_counted read_sub_proof)
    (put_u32 (length (mk_sub_proofs p)) ++ concat (put_sub_proof <$> mk_sub_proofs p))
    (mk_sub_proofs p)).
  { apply reads_counted; [done|]. intros x Hx. apply reads_sub_proof. by eapply Forall_forall in Hsf. }
  specialize (Hr []). rewrite app_nil_r in Hr. rewrite Hr. cbn [mbind outcome_bind].
  assert (Hex : existsb (fun sp => negb (bool_decide (sp_ys sp = []))) (mk_sub_proofs p) = true).
  { apply existsb_exists. exists sp. split; [by apply list_elem_of_In|].
    by rewrite bool_decide_eq_false_2. }
  destruct (mk_sub_proofs p) as [|x l] eqn:E; [by apply elem_of_nil in Hsp|].
  rewrite Hex. unfold received. by rewrite E.
Qed.

(** ** Honest walks *)

Section honest.
Context `{Sha512} `{InclusionProver}.

(** The proof data of a walk from [n] to a leaf whose commitments are current. *)
Inductive honest : Node -> list bytes -> list bytes -> list bytes -> list (list Z) -> Prop :=
| honest_leaf l y :
    length (lf_commitment l) = 64%nat ->
    honest (Leaf l) [] [lf_commitment l] [y] []
| honest_branch b i c pl co ys pa :
    length (br_children b) = 64%nat ->
    Forall (fun p => 0 <= p <= 63) (br_prefix b) ->
    br_children b !! i = Some (Some c) ->
    commit_raw (get_polynomial b) 64 = Some (br_commitment b) ->
    honest c pl co ys pa ->
    honest (Branch b) (get_polynomial b :: pl) (br_commitment b :: co)
      (child_commitment (Some c) :: ys) ((br_prefix b ++ [Z.of_nat i]) :: pa).

Lemma path_u64_id p : Forall (fun q => 0 <= q <= 63) p -> path_u64 p = p.
Proof.
  intros Hp. unfold path_u64. rewrite <- (list_fmap_id p) at 2. apply list_fmap_ext.
  intros i x Hx. apply wrap_u64_id. pose proof (Forall_lookup_1 _ _ _ _ Hp Hx) as Hr. simpl in Hr. unfold_ints. unfold id. lia.
Qed.

Lemma honest_paths n pl co ys pa :
  honest n pl co ys pa -> Forall (Forall (fun q => 0 <= q <= 63)) pa.
Proof.
  induction 1 as [|b i c pl co ys pa Hlen Hp Hi _ _ IH]; constructor; [|done].
  apply Forall_app. split; [done|]. constructor; [|done].
  apply lookup_lt_Some in Hi. lia.
Qed.

Lemma honest_paths_u64 n pl co ys pa : honest n pl co ys pa -> map path_u64 pa = pa.
Proof.
  intros Hh%honest_paths. rewrite <- (list_fmap_id pa) at 2. apply list_fmap_ext.
  intros i x Hx. apply path_u64_id. exact (Forall_lookup_1 _ _ _ _ Hh Hx).
Qed.

Lemma honest_lengths n pl co ys pa :
  honest n pl co ys pa ->
  length co = S (length pl) /\ length ys = S (length pl) /\ length pa = length pl.
Proof. induction 1; simpl; lia. Qed.

Lemma honest_head n pl co ys pa : honest n pl co ys pa -> head co = Some (node_commitment n).
Proof. by destruct 1. Qed.

(** What the verifier recomputes at a level is the slot of the parent. *)
Lemma honest_expected c pl co ys pa :
  honest c pl co ys pa ->
  exists c1 more, co = c1 :: more /\
    expected_y c1 (match more with [] => false | _ => true end) pa
    = Ok (child_commitment (Some c)).
Proof.
  intros Hc. destruct Hc as [l y Hl|b i d pl co ys pa Hlen Hp Hi Hcom Hd].
  - exists (lf_commitment l), []. split; [done|]. cbn. by rewrite <- Hl, resize_all.
  - exists (br_commitment b), co. split; [done|].
    destruct (honest_lengths _ _ _ _ _ Hd) as [Hco _].
    destruct co as [|x co]; [done|]. unfold expected_y.
    destruct (br_prefix b ++ [Z.of_nat i]) as [|z p] eqn:Ez; [by destruct (br_prefix b)|].
    assert (Hmap : map (fun p => be_bytes 4 (wrap_u32 p)) (br_prefix b) = map (be_bytes 4) (br_prefix b)).
    { apply list_fmap_ext. intros j q Hq. f_equal. apply wrap_u32_id.
      pose proof (Forall_lookup_1 _ _ _ _ Hp Hq) as Hr. simpl in Hr. unfold_ints. lia. }
    rewrite <- Ez, removelast_last. cbn [mbind outcome_bind child_commitment]. by rewrite Hmap.
Qed.

Lemma honest_chain n pl co ys pa :
  honest n pl co ys pa -> verify_path_chain co pa ys = Ok true.
Proof.
  induction 1 as [|b i c pl co ys pa Hlen Hp Hi Hcom Hc IH]; [done|].
  destruct (honest_expected _ _ _ _ _ Hc) as (c1 & more & -> & Hexp).
  cbn [verify_path_chain tail]. rewrite Hexp. simpl mbind. by rewrite decide_True.
Qed.
End honest.

(** ** The contract of an inclusion prover *)

(** Branch vectors can be committed to, and the aggregated proof of correct
    openings verifies. *)
Class LawfulProver `{InclusionProver} : Prop := {
  commit_raw_total : forall p, length p = 4096%nat -> exists c, commit_raw p 64 = Some c;
  prove_verify : forall commits polys indices mp,
    prove_multiple_raw commits polys indices 64 = Some mp ->
    Forall2 (fun c p => commit_raw p 64 = Some c /\ length p = 4096%nat) commits polys ->
    length indices = length polys -> Forall (fun i => 0 <= i <= 63) indices ->
    verify_multiple commits (zip_with poly_slot polys (Z.to_nat <$> indices)) indices 64
      (mp_commitment mp) (mp_proof mp) = true
    /\ mp_commitment mp <> [] /\ mp_proof mp <> [];
}.

Section complete.
Context `{Sha512} `{LawfulProver}.

Lemma commit_child r b i c :
  (map (fun c => match c with Some c => Some (commit_node r c) | None => None end)
       (br_children b)) !! i = Some (Some c) <->
  exists c0, br_children b !! i = Some (Some c0) /\ c = commit_node r c0.
Proof.
  rewrite list_lookup_fmap. destruct (br_children b !! i) as [[c0|]|]; simpl; naive_solver.
Qed.

(** A branch after a recommit. *)
Lemma commit_branch b :
  length (br_children b) = 64%nat ->
  exists b', commit_node true (Branch b) = Branch b'
    /\ br_prefix b' = br_prefix b
    /\ br_children b' = map (fun c => match c with
                                      | Some c => Some (commit_node true c)
                                      | None => None end) (br_children b)
    /\ commit_raw (get_polynomial b') 64 = Some (br_commitment b').
Proof.
  intros Hlen. cbn [commit_node]. unfold branch_commit. simpl negb.
  set (b' := with_size _ _). cbn [andb].
  destruct (commit_raw_total (get_polynomial b')) as [c Hc].
  { rewrite length_get_polynomial. cbn. by rewrite length_map, Hlen. }
  eexists. rewrite Hc. repeat split. exact Hc.
Qed.

Lemma poly_slot_child b i c :
  length (br_children b) = 64%nat -> br_children b !! i = Some (Some c) ->
  poly_slot (get_polynomial b) i = child_commitment (Some c).
Proof.
  intros Hlen Hi. unfold poly_slot. rewrite length_get_polynomial, Hlen.
  pose proof (lookup_lt_Some _ _ _ Hi).
  rewrite (proj2 (Nat.leb_le _ _)) by lia. by apply get_polynomial_slot.
Qed.

(** A walk to the leaf of [key] below [n]: it ends in that leaf's commitment and
    value, and its steps, after those of [pre], are the nibbles of the key. *)
Definition arrives (pre : list Z) (n : Node) (key : bytes) (co ys : list bytes) (pa : list (list Z)) : Prop :=
  exists l, l ∈ collect_leaves n /\ lf_key l = key
    /\ last co = Some (lf_commitment (compute_commitment l))
    /\ last ys = Some (match lf_hash_target l with [] => lf_value l | _ => lf_hash_target l end)
    /\ agrees key (pre ++ concat pa).

(** What the walk for [key] below [n] promises. *)
Definition walked (pre : list Z) (n : Node) (key : bytes) (w : option walk) : Prop :=
  (is_Some w <-> exists l, l ∈ collect_leaves n /\ lf_key l = key)
  /\ (forall pl co ys pa, w = Some (pl, co, ys, pa) ->
        honest (commit_node true n) pl co ys pa /\ arrives pre n key co ys pa).

Lemma walked_none pre n key :
  (forall l, l ∈ collect_leaves n -> lf_key l <> key) -> walked pre n key None.
Proof. intros Hno. split; [|done]. split; [by intros []|]. intros (l & Hl & ?). by destruct (Hno l). Qed.

Lemma prove_leaf_committed pre l key depth :
  agrees key pre ->
  exists w, prove_recursive (commit_node true (Leaf l)) key depth = Ok w /\ walked pre (Leaf l) key w.
Proof.
  intros Hk. cbn -[sha512]. eexists. split; [done|]. case_decide.
  - split; [setoid_rewrite list_elem_of_singleton; naive_solver|].
    intros pl co ys pa [= <- <- <- <-]. split; [apply (honest_leaf (compute_commitment l)), sha512_length|].
    exists l. cbn [collect_leaves concat]. rewrite app_nil_r, list_elem_of_singleton. done.
  - apply walked_none. intros l'. cbn [collect_leaves]. by intros ->%list_elem_of_singleton.
Qed.

Lemma prove_committed pre n key :
  wf pre n -> agrees key pre ->
  exists w, prove_recursive (commit_node true n) key (BRANCH_BITS * length pre) = Ok w
    /\ walked pre n key w.
Proof.
  intros Hwf. induction Hwf as [pre l Hl|pre b Hlen Hp Htwo Hc IH]; intros Hk.
  - by apply prove_leaf_committed.
  - pose proof (wf_branch pre b Hlen Hp Htwo Hc) as Hwf.
    destruct (commit_branch b Hlen) as (b' & Eb & Epre & Ecs & Hcom).
    rewrite Eb. cbn [prove_recursive]. rewrite Epre.
    destruct (match_prefix key _ _ 0) as [x|d] eqn:E.
    { exists None. split; [done|]. apply walked_none. intros l Hl Hkey.
      eapply mismatch_no_leaf; eauto using wf_branch_leaf_agrees. }
    destruct (prefix_digits _ _ _ _ Hk E) as (Ha & -> & ->).
    set (m := (length pre + length (br_prefix b))%nat) in *.
    assert (Hslot : forall l, l ∈ collect_leaves (Branch b) -> lf_key l = key ->
              0 <= dig key m /\ exists c, br_children b !! Z.to_nat (dig key m) = Some (Some c)
                                        /\ l ∈ collect_leaves c)
      by (intros l Hin <-; by apply leaf_in_slot).
    destruct (Z.ltb_spec (dig key m) 0) as [Hneg|Hpos].
    { exists None. split; [done|]. apply walked_none. intros l Hl Hkey.
      pose proof (Hslot _ Hl Hkey). lia. }
    destruct (slot_exists (br_children b) key m Hlen Hpos) as [o Ho].
    set (i := Z.to_nat (dig key m)) in *.
    assert (Ho' : br_children b' !! i
              = Some (match o with Some c => Some (commit_node true c) | None => None end))
      by (by rewrite Ecs, list_lookup_fmap, Ho).
    rewrite (with_slot_lookup _ _ _ _ Ho'). rewrite Ho in Hslot.
    destruct o as [c|].
    2: { exists None. split; [done|]. apply walked_none. intros l Hl Hkey.
      by destruct (Hslot _ Hl Hkey) as (_ & ? & ? & _). }
    destruct (IH _ _ Ho) as (w & Hw & Hsome & Hhon).
    { unfold i. rewrite slot_nat, app_assoc, agrees_snoc, length_app by done. done. }
    unfold i in Hw. rewrite slot_nat in Hw by done.
    pose proof (next_depth pre b (dig key m)) as Hnd. fold m in Hnd. rewrite Hnd, Hw.
    cbn [mbind outcome_bind]. eexists. split; [done|]. split.
    + transitivity (is_Some w); [destruct w as [[[[? ?] ?] ?]|]; split; by intros []|].
      rewrite Hsome. split; intros (l & Hl & Hkey); exists l; (split; [|done]).
      * apply collect_leaves_branch. eauto.
      * by destruct (Hslot _ Hl Hkey) as (_ & ? & [= <-] & ?).
    + rewrite Eb. intros pl co ys pa Ew. destruct w as [[[[pl' co'] ys'] pa']|]; [|done].
      injection Ew as <- <- <- <-. destruct (Hhon _ _ _ _ eq_refl) as [Hhc (l & Hl & Hkey & Hco & Hys & Hag)].
      split; [|exists l; split; [apply collect_leaves_branch; eauto|]; split; [done|];
        rewrite !last_cons, Hco, Hys; split; [done|]; split; [done|]; cbn [concat];
        unfold i in Hag; rewrite slot_nat in Hag by done; rewrite !app_assoc in *; exact Hag].
      rewrite (poly_slot_child b' i (commit_node true c)) by (done || by rewrite Ecs, length_map).
      rewrite <- (slot_nat key m Hpos), <- Epre. fold i.
      apply honest_branch; [by rewrite Ecs, length_map|by rewrite Epre|done|done|done].
Qed.

(** *** Openings of an honest walk *)

Definition walk_commits (w : walk) : list bytes := let '(_, co, _, _) := w in removelast co.
Definition walk_polys (w : walk) : list bytes := let '(pl, _, _, _) := w in pl.
Definition walk_ys (w : walk) : list bytes := let '(_, _, ys, _) := w in removelast ys.
Definition walk_indices (w : walk) : list Z := let '(_, _, _, pa) := w in map path_index pa.
Definition walk_sub (w : walk) : TraversalSubProof :=
  let '(_, co, ys, pa) := w in mkSubProof co ys (map path_u64 pa).
Definition honest_walk (n : Node) (w : walk) : Prop :=
  let '(pl, co, ys, pa) := w in honest n pl co ys pa.

Lemma removelast_cons {A} (x : A) l : l <> [] -> removelast (x :: l) = x :: removelast l.
Proof. by destruct l. Qed.

Lemma path_index_snoc p i : 0 <= i <= 63 -> path_index (p ++ [i]) = i.
Proof.
  intros Hi. unfold path_index. rewrite last_snoc. simpl. apply wrap_u64_id. unfold_ints. lia.
Qed.

Lemma honest_openings n w :
  honest_walk n w ->
  Forall2 (fun c p => commit_raw p 64 = Some c /\ length p = 4096%nat) (walk_commits w) (walk_polys w)
  /\ length (walk_indices w) = length (walk_polys w)
  /\ Forall (fun i => 0 <= i <= 63) (walk_indices w)
  /\ walk_ys w = zip_with poly_slot (walk_polys w) (Z.to_nat <$> walk_indices w).
Proof.
  destruct w as [[[pl co] ys] pa]. simpl. intros Hh.
  induction Hh as [l y Hl|b i c pl co ys pa Hlen Hp Hi Hcom Hc IH]; [repeat constructor|].
  destruct IH as (IH1 & IH2 & IH3 & IH4).
  destruct (honest_lengths _ _ _ _ _ Hc) as (Hco & Hys & _).
  assert (Hir : 0 <= Z.of_nat i <= 63) by (apply lookup_lt_Some in Hi; lia).
  rewrite !removelast_cons by (by intros ->). cbn [map]. rewrite path_index_snoc by done.
  split; [constructor; [|done]|].
  { split; [done|]. by rewrite length_get_polynomial, Hlen. }
  split; [simpl; lia|]. split; [by constructor|].
  cbn [fmap list_fmap zip_with]. rewrite Nat2Z.id, (poly_slot_child b i c) by done.
  by rewrite IH4.
Qed.

Lemma omap_last_indices n pl co ys pa :
  honest n pl co ys pa -> omap last pa = map path_index pa.
Proof.
  induction 1 as [|b i c pl co ys pa Hlen Hp Hi Hcom Hc IH]; [done|].
  assert (0 <= Z.of_nat i <= 63) by (apply lookup_lt_Some in Hi; lia).
  cbn [map]. rewrite path_index_snoc by done.
  change (omap last ((br_prefix b ++ [Z.of_nat i]) :: pa))
    with (match last (br_prefix b ++ [Z.of_nat i]) with
          | Some y => y :: omap last pa | None => omap last pa end).
  by rewrite last_snoc, IH.
Qed.

(** *** The verifier's and the prover's loops over honest walks *)

Lemma collect_honest n ws commits indices ys :
  Forall (honest_walk n) ws ->
  collect_sub_proofs (map walk_sub ws) commits indices ys
  = Ok (Some (commits ++ concat (map walk_commits ws), indices ++ concat (map walk_indices ws),
              ys ++ concat (map walk_ys ws))).
Proof.
  intros Hws. revert commits indices ys.
  induction Hws as [|[[[pl co] yl] pa] ws Hw _ IH]; intros commits indices ys;
    cbn [map concat collect_sub_proofs]; [by rewrite !app_nil_r|].
  cbn [walk_sub sp_commits sp_ys sp_paths]. simpl in Hw.
  rewrite (honest_paths_u64 _ _ _ _ _ Hw), (omap_last_indices _ _ _ _ _ Hw).
  rewrite (honest_chain _ _ _ _ _ Hw). cbn [mbind outcome_bind].
  destruct (Nat.leb_spec (length co) 1) as [Hle|Hgt]; rewrite IH; cbn [walk_commits walk_indices walk_ys];
    [|by rewrite !app_assoc].
  destruct (honest_lengths _ _ _ _ _ Hw) as (E1 & E2 & E3).
  destruct pl; [|simpl in *; lia]. destruct pa; [|done].
  destruct co as [|? [|]]; [done| |simpl in *; lia]. destruct yl as [|? [|]]; [done|done|simpl in *; lia].
Qed.

Lemma honest_shape n w :
  honest_walk n w ->
  sub_proof_shape (walk_sub w) = true /\ sub_proof_root (node_commitment n) (walk_sub w) = true.
Proof.
  destruct w as [[[pl co] ys] pa]. simpl. intros Hh.
  destruct (honest_lengths _ _ _ _ _ Hh) as (E1 & E2 & E3).
  unfold sub_proof_shape, sub_proof_root. simpl.
  rewrite (honest_head _ _ _ _ _ Hh), length_map, E1, E2, E3. simpl.
  rewrite Nat.sub_0_r, !Nat.eqb_refl, bool_decide_eq_false_2 by (by intros ->).
  by rewrite bool_decide_eq_true_2.
Qed.

(** The accumulators after a list of walks. *)
Definition agg_walks (ws : list walk) : aggregate :=
  (map walk_sub ws, concat (map walk_polys ws), concat (map walk_commits ws),
   concat (map walk_indices ws)).

Lemma agg_walks_snoc ws w :
  agg_walks (ws ++ [w])
  = (map walk_sub ws ++ [walk_sub w], concat (map walk_polys ws) ++ walk_polys w,
     concat (map walk_commits ws) ++ walk_commits w,
     concat (map walk_indices ws) ++ walk_indices w).
Proof. unfold agg_walks. by rewrite !map_app, !concat_app; cbn [map concat]; rewrite !app_nil_r. Qed.

(** Whether [key] is a non-empty key of a leaf below [n]. *)
Definition present (n : Node) (key : bytes) : bool :=
  negb (bool_decide (key = [])) && existsb (fun l => bool_decide (lf_key l = key)) (collect_leaves n).

Lemma present_spec n key :
  present n key = true <-> key <> [] /\ exists l, l ∈ collect_leaves n /\ lf_key l = key.
Proof.
  unfold present. rewrite andb_true_iff, negb_true_iff, bool_decide_eq_false, existsb_exists.
  setoid_rewrite bool_decide_eq_true. setoid_rewrite <- list_elem_of_In. done.
Qed.

(** A sub-proof for [key]. *)
Definition shows (n : Node) (key : bytes) (sp : TraversalSubProof) : Prop :=
  arrives [] n key (sp_commits sp) (sp_ys sp) (sp_paths sp).

Lemma prove_keys_honest n keys ws :
  wf [] n -> Forall (honest_walk (commit_node true n)) ws ->
  exists ws', prove_keys (commit_node true n) (agg_walks ws) keys = Ok (agg_walks (ws ++ ws'))
    /\ Forall (honest_walk (commit_node true n)) ws'
    /\ Forall2 (shows n) (filter (fun k => present n k = true) keys) (map walk_sub ws').
Proof.
  intros Hwf. revert ws. induction keys as [|key keys IH]; intros ws Hws; cbn [prove_keys].
  { exists []. rewrite app_nil_r. done. }
  rewrite filter_cons. unfold prove_key. destruct key as [|x key']; [by apply IH|].
  set (key := x :: key') in *.
  destruct (prove_committed [] n key Hwf (agrees_nil key)) as (w & Hw & Hsome & Hhon).
  change (BRANCH_BITS * length [])%nat with 0%nat in Hw. rewrite Hw. cbn [mbind outcome_bind].
  destruct w as [[[[pl co] ys] pa]|].
  - destruct (Hhon _ _ _ _ eq_refl) as [Hh Harr]. clear Hhon. rename Hh into Hhon. rewrite decide_True by (apply present_spec; split; [done|by apply Hsome]).
    destruct (honest_lengths _ _ _ _ _ Hhon) as (Hco & _).
    destruct co as [|c co]; [done|].
    destruct (IH (ws ++ [(pl, c :: co, ys, pa)])) as (ws' & Hk & Hh & Hlen).
    { apply Forall_app. split; [done|]. by repeat constructor. }
    exists ((pl, c :: co, ys, pa) :: ws'). rewrite agg_walks_snoc in Hk.
    split; [|split; [by constructor|constructor; [|done]]].
    2: { unfold shows. cbn [walk_sub sp_commits sp_ys sp_paths]. by rewrite (honest_paths_u64 _ _ _ _ _ Hhon). }
    replace (ws ++ (pl, c :: co, ys, pa) :: ws') with ((ws ++ [(pl, c :: co, ys, pa)]) ++ ws')
      by (by rewrite <- app_assoc).
    exact Hk.
  - rewrite decide_False; [by apply IH|]. intros [_ Hl]%present_spec.
    apply Hsome in Hl as [? ?]. done.
Qed.

Lemma agg_openings n ws :
  Forall (honest_walk n) ws ->
  Forall2 (fun c p => commit_raw p 64 = Some c /\ length p = 4096%nat)
    (concat (map walk_commits ws)) (concat (map walk_polys ws))
  /\ length (concat (map walk_indices ws)) = length (concat (map walk_polys ws))
  /\ Forall (fun i => 0 <= i <= 63) (concat (map walk_indices ws))
  /\ concat (map walk_ys ws)
     = zip_with poly_slot (concat (map walk_polys ws)) (Z.to_nat <$> concat (map walk_indices ws)).
Proof.
  induction 1 as [|w ws Hw _ (IH1 & IH2 & IH3 & IH4)]; [repeat constructor|].
  destruct (honest_openings n w Hw) as (H1' & H2' & H3' & H4'). cbn [map concat].
  split; [by apply Forall2_app|]. split; [rewrite !length_app; lia|].
  split; [by apply Forall_app|].
  rewrite fmap_app, zip_with_app by (by rewrite length_fmap). by rewrite H4', IH4.
Qed.
(** Without an opening to aggregate, the tree is a leaf or no key is present. *)
Lemma no_openings n keys ws (Q : Prop) :
  Forall (honest_walk (commit_node true n)) ws ->
  Forall2 (shows n) (filter (fun k => present n k = true) keys) (map walk_sub ws) ->
  concat (map walk_commits ws) = [] ->
  is_leaf n = true \/ (forall k, k ∈ keys -> present n k = false) \/ Q.
Proof.
  intros Hh Hs Ec. destruct n as [l|b]; [by left|]. right. left. intros k Hk. destruct (present (Branch b) k) eqn:Ep; [exfalso|done].
  assert (Hf : k ∈ filter (fun k => present (Branch b) k = true) keys) by (by apply list_elem_of_filter).
  destruct ws as [|[[[pl co] ys] pa] ws]; [apply Forall2_nil_inv_r in Hs; rewrite Hs in Hf; by apply not_elem_of_nil in Hf|].
  apply Forall_cons in Hh as [Hw _]. cbn [honest_walk commit_node] in Hw. inversion Hw; subst.
  match goal with Hr : honest _ _ ?c _ _ |- _ => destruct (honest_lengths _ _ _ _ _ Hr) as (Hl & _); destruct c; [done|] end. done.
Qed.
End complete.

(** ** Properties *)

Lemma list_prover_lawful : LawfulProver (H := Demo.list_prover).
Proof.
  split; [intros p Hp; by eexists|].
  intros commits polys indices mp Hmp Hc Hlen Hi. simpl in Hmp. injection Hmp as <-. simpl.
  split; [|done]. apply bool_decide_eq_true_2. do 2 f_equal.
  assert (Hp : Forall (fun p => length p = 4096%nat) polys).
  { clear -Hc. induction Hc as [|c p commits polys [_ Hp] _ IH]; by constructor. }
  clear Hc. revert indices Hlen Hi.
  induction Hp as [|p polys Hp _ IH]; intros [|i indices] Hlen Hi; try done.
  inversion Hi; subst. simpl. f_equal; [|apply IH; [by injection Hlen|done]].
  unfold poly_slot. by rewrite (proj2 (Nat.leb_le _ _)) by (rewrite Hp; lia).
Qed.

(** C3. Completeness of traversal proofs, end to end: for a committed tree and
    any list of keys, [prove_multiple] does not panic, and it returns a proof unless
    the tree is a single leaf, none of the keys is present or the inclusion prover
    refuses.  The sub-proofs of a proof are, in order, one for each requested key that is present: the
    sub-proof follows the nibbles of its key and ends in the commitment and the value
    (or hash target) of the key's leaf.  A verifier that knows the root commitment
    accepts the proof; and when its lengths fit their 32-bit prefixes, [to_bytes] and
    [parse_traversal_proof] give the verifier that same proof. *)
Theorem traversal_proofs_complete :
  forall (Sha : Sha512) (Prover : InclusionProver) (Lawful : LawfulProver)
    (n : Node) (keys : list bytes),
  wf [] n ->
  exists r, prove_multiple (snd (commit (mkTree (Some n)))) keys = Ok r
    /\ (r = None -> is_leaf n = true \/ (forall k, k ∈ keys -> present n k = false)
                    \/ exists commits polys indices, prove_multiple_raw commits polys indices 64 = None)
    /\ forall p, r = Some p ->
       Forall2 (shows n) (filter (fun k => present n k = true) keys) (mk_sub_proofs p)
       /\ verify_traversal_proof (fst (commit (mkTree (Some n)))) (received p) = Ok true
       /\ (multi_proof_fits p -> parse_traversal_proof (to_bytes p) = Ok (received p)).
Proof.
  intros Sha Prover Lawful n keys Hwf. unfold prove_multiple. cbn [commit root snd fst].
  destruct (prove_keys_honest n keys [] Hwf) as (ws & Hk & Hh & Hlen); [constructor|].
  change (agg_walks []) with (([], [], [], []) : aggregate) in Hk.
  rewrite Hk. cbn [mbind outcome_bind app]. unfold agg_walks.
  destruct (agg_openings _ _ Hh) as (Ho & Hil & Hir & Hys).
  destruct (concat (map walk_commits ws)) as [|c cs] eqn:Ec.
  { exists None. split; [done|]. split; [intros _|done]. by eapply no_openings. }
  destruct (prove_multiple_raw _ _ _ 64) as [mp|] eqn:Emp; [|exists None; split; [done|]; split; [by eauto 8|done]].
  eexists. split; [done|]. split; [done|]. intros p [= <-]. cbn [mk_sub_proofs mk_multiproof received].
  destruct (prove_verify _ _ _ _ Emp Ho Hil Hir) as (Hver & Hmc & Hmp).
  split; [done|]. split.
  - unfold verify_traversal_proof, received. cbn [mk_sub_proofs mk_multiproof vp_multicommitment vp_proof vp_sub_proofs].
    rewrite !bool_decide_eq_false_2 by done. cbn [orb].
    rewrite !(proj2 (forallb_forall _ _)); cbn [negb].
    + rewrite (collect_honest _ _ _ _ _ Hh). cbn [mbind outcome_bind app].
      rewrite Ec, Hys, Hver. by rewrite andb_false_r.
    + intros sp (w & <- & Hw)%in_map_iff. apply (honest_shape (commit_node true n)).
      eapply Forall_forall in Hh; [done|by apply list_elem_of_In].
    + intros sp (w & <- & Hw)%in_map_iff. apply (honest_shape (commit_node true n)).
      eapply Forall_forall in Hh; [done|by apply list_elem_of_In].
  - intros Hfit. destruct ws as [|w ws]; [done|].
    apply (parse_to_bytes _ (walk_sub w)); [done|apply list_elem_of_here|].
    inversion Hh as [|? ? Hw _]; subst. destruct w as [[[pl co] ys] pa].
    destruct (honest_lengths _ _ _ _ _ Hw) as (_ & Hyl & _). simpl. by intros ->.
Qed.

(** A concrete run: two of three keys are present, and the proof verifies. *)
Definition demo_tree : VectorCommitmentTree := apply_ops (H := Demo.pad_sha512) demo_ops.
Definition demo_keys : list bytes := [[x00; x02]; [xf0; x02]; [x01; x01]].
Example demo_proof_verifies :
  let (root, t) := commit (H := Demo.pad_sha512) (H0 := Demo.list_prover) demo_tree in
  match prove_multiple (H := Demo.pad_sha512) (H0 := Demo.list_prover) t demo_keys with
  | Ok (Some p) =>
      length (mk_sub_proofs p) = 2%nat
      /\ verify_traversal_proof (H := Demo.pad_sha512) (H0 := Demo.list_prover) root (received p) = Ok true
  | _ => False
  end.
Proof. vm_compute. split; reflexivity. Qed.

Lemma demo_root_some : is_Some (root demo_tree).
Proof.
  assert (E : (match root demo_tree with Some _ => true | None => false end) = true)
    by (vm_compute; reflexivity).
  destruct (root demo_tree); [by eexists|discriminate E].
Qed.

Lemma demo_root : exists n, root demo_tree = Some n /\ wf [] n.
Proof.
  destruct demo_root_some as [n En]. exists n. split; [done|].
  assert (Hok : tree_ok (fixed_width 2) demo_tree).
  { apply (apply_ops_refines (H := Demo.pad_sha512) (K := fixed_width 2) demo_ops).
    repeat constructor; discriminate. }
  exact (tree_ok_root _ _ _ Hok En).
Qed.

Lemma tree_of_root t n : root t = Some n -> t = mkTree (Some n).
Proof. destruct t as [r]. by intros [= ->]. Qed.
Lemma demo_proves :
  match prove_multiple (H := Demo.pad_sha512) (H0 := Demo.list_prover)
          (snd (commit (H := Demo.pad_sha512) (H0 := Demo.list_prover) demo_tree)) demo_keys with
  | Ok (Some _) => true | _ => false end = true.
Proof. vm_compute. reflexivity. Qed.

(** The proof for the three keys has a sub-proof for each of the two present. *)
Lemma traversal_proofs_complete_witness :
  exists n p, root demo_tree = Some n
    /\ prove_multiple (H := Demo.pad_sha512) (H0 := Demo.list_prover)
         (snd (commit (H := Demo.pad_sha512) (H0 := Demo.list_prover) (mkTree (Some n))))
         demo_keys = Ok (Some p)
    /\ Forall2 (shows (H := Demo.pad_sha512) n) (filter (fun k => present n k = true) demo_keys) (mk_sub_proofs p).
Proof.
  destruct demo_root as (n & En & Hwf).
  destruct (traversal_proofs_complete Demo.pad_sha512 Demo.list_prover list_prover_lawful n
              demo_keys Hwf) as (r & Hr & _ & Hp).
  pose proof demo_proves as Hd. rewrite (tree_of_root _ _ En), Hr in Hd. destruct r as [p|]; [|discriminate Hd].
  exists n, p. split; [exact En|]. split; [exact Hr|]. exact (proj1 (Hp p eq_refl)).
Defined.

(** C9. Round trip of the wire format: a multi-key proof whose lengths fit
    their 32-bit prefixes and whose path indices are [u64]s, with at least one
    sub-proof that carries evaluations, parses back to the same multiproof and
    sub-proofs. *)
Theorem parse_traversal_proof_to_bytes : forall (p : MultiKeyTraversalProof) (sp : TraversalSubProof),
  multi_proof_fits p -> sp ∈ mk_sub_proofs p -> sp_ys sp <> [] ->
  parse_traversal_proof (to_bytes p)
  = Ok (mkVerifierProof (mp_commitment (mk_multiproof p)) (mp_proof (mk_multiproof p))
          (mk_sub_proofs p)).
Proof. apply parse_to_bytes. Qed.

Lemma parse_traversal_proof_to_bytes_witness :
  let sp := mkSubProof [[x01]; [x02]] [[x02]; []] [[3; 2 ^ 64 - 1]] in
  parse_traversal_proof (to_bytes (mkMultiKeyProof (mkMultiproof [x07] [x08; x09] []) [sp]))
  = Ok (mkVerifierProof [x07] [x08; x09] [sp]).
Proof.
  intros sp.
  apply (parse_traversal_proof_to_bytes (mkMultiKeyProof (mkMultiproof [x07] [x08; x09] []) [sp]) sp).
  - unfold multi_proof_fits, sub_proof_fits, fits; simpl. unfold_ints.
    repeat split; repeat constructor; simpl; lia.
  - apply list_elem_of_here.
  - discriminate.
Defined.

(** A one-branch traversal proof is accepted without its multiproof being
    checked: for every root and every claimed leaf commitment, and whatever the
    prover's [verify_multiple] answers, [verify_traversal_proof] returns
    [Ok(true)] on a proof of one sub-proof with a single branch level. *)
Theorem single_level_proof_unchecked :
  forall (Sha : Sha512) (Prover : InclusionProver) (root leaf y : bytes) (index : Z),
  verify_traversal_proof root
    (mkVerifierProof [x01] [x01] [mkSubProof [root; leaf] [leaf; y] [[index]]]) = Ok true.
Proof.
  intros Sha Prover root leaf y index. unfold verify_traversal_proof. simpl.
  unfold sub_proof_root. simpl. rewrite bool_decide_eq_true_2 by done. simpl.
  by rewrite decide_True.
Qed.

(** A malformed proof panics the verifier: with three commitments and an
    empty second path the slice [paths[1][..paths[1].len() - 1]] is out of
    range, whatever the contents. *)
Theorem empty_path_panics :
  forall (Sha : Sha512) (Prover : InclusionProver) (root c1 c2 y0 y1 y2 : bytes) (path : list Z),
  verify_traversal_proof root
    (mkVerifierProof [x01] [x01] [mkSubProof [root; c1; c2] [y0; y1; y2] [path; []]]) = Panic.
Proof.
  intros. unfold verify_traversal_proof. simpl. unfold sub_proof_root. simpl.
  by rewrite bool_decide_eq_true_2.
Qed.
