(* ===== verification/Binding.v ===== *)
(** * What a root commitment binds

    The converse of history independence and of proof completeness: as long as
    SHA-512 has no collision among the strings that were hashed and the
    inclusion prover's commitments and openings are binding for the branch
    vectors at hand, a root commitment determines the contents of a tree over
    fixed-width keys, and an accepted traversal proof that ends in the hash of a
    leaf shows that the leaf is in the tree. *)

From Stdlib Require Import Strings.Byte.
From stdpp Require Import gmap.
From S2P Require Import Prelude Bytes Nibble Node Tree TreeSpec TreeCorrect Traversal.

(** ** What is hashed and committed to *)

(** What a leaf's commitment covers: the hash target, or the value if there is none. *)
Definition bound_value (l : LeafNode) : bytes :=
  match lf_hash_target l with [] => lf_value l | _ => lf_hash_target l end.

Definition leaf_input (key value : bytes) : bytes := x00 :: key ++ value.
Definition branch_input (prefix commitment : bytes) : bytes := x01 :: prefix ++ commitment.
Definition prefix_bytes (prefix : list Z) : bytes := concat (map (be_bytes 4) prefix).

(** The strings hashed in a tree. *)
Fixpoint hash_inputs (n : Node) : list bytes :=
  match n with
  | Leaf l => [leaf_input (lf_key l) (bound_value l)]
  | Branch b =>
      branch_input (prefix_bytes (br_prefix b)) (br_commitment b)
      :: concat (map (fun c => match c with Some c => hash_inputs c | None => [] end) (br_children b))
  end.

(** The strings the verifier hashes for one sub-proof. *)
Fixpoint chain_inputs (commits : list bytes) (paths : list (list Z)) : list bytes :=
  match commits with
  | _ :: (c1 :: _ :: _) as rest =>
      branch_input (concat (map (fun p => be_bytes 4 (wrap_u32 p))
                              (removelast (default [] (head (tail paths)))))) c1
      :: chain_inputs rest (tail paths)
  | _ => []
  end.

Section binding.
Context `{Sha512} `{InclusionProver}.

(** The branch vectors of a tree. *)
Fixpoint vectors (n : Node) : list bytes :=
  match n with
  | Leaf _ => []
  | Branch b =>
      get_polynomial b
      :: concat (map (fun c => match c with Some c => vectors c | None => [] end) (br_children b))
  end.

(** No collision, and no preimage of the empty slot's entry, among [X]. *)
Record collision_free (X : bytes -> Prop) : Prop := {
  digest_inj : forall x y, X x -> X y -> sha512 x = sha512 y -> x = y;
  digest_nonzero : forall x, X x -> sha512 x <> replicate 64 x00;
}.

(** The prover binds the vectors [P]: its commitments have one length, which is
    not the digest's, two vectors with one commitment are the same, and what it
    verifies are openings of the vectors committed to. *)
Record binds_vectors (W : nat) (P : bytes -> Prop) : Prop := {
  commit_length : forall p c, P p -> commit_raw p 64 = Some c -> length c = W;
  commit_not_digest : W <> 64%nat;
  commit_inj : forall p q c, P p -> P q -> commit_raw p 64 = Some c -> commit_raw q 64 = Some c -> p = q;
  verify_lengths : forall commits ys indices mc pf,
    verify_multiple commits ys indices 64 mc pf = true ->
    length ys = length commits /\ length indices = length commits;
  verify_opens : forall commits ys indices mc pf k c y i p,
    verify_multiple commits ys indices 64 mc pf = true ->
    commits !! k = Some c -> ys !! k = Some y -> indices !! k = Some i -> 0 <= i <= 63 ->
    P p -> commit_raw p 64 = Some c -> poly_slot p (Z.to_nat i) = y;
}.

(** A node whose commitments are current. *)
Inductive committed : Node -> Prop :=
| committed_leaf l :
    lf_commitment l = sha512 (leaf_input (lf_key l) (bound_value l)) -> committed (Leaf l)
| committed_branch b :
    length (br_children b) = 64%nat ->
    commit_raw (get_polynomial b) 64 = Some (br_commitment b) ->
    (forall i c, br_children b !! i = Some (Some c) -> committed c) ->
    committed (Branch b).

(** The data of a tree are among the strings and vectors considered. *)
Record covered (X P : bytes -> Prop) (L : nat) (n : Node) : Prop := {
  cov_hash : forall x, x ∈ hash_inputs n -> X x;
  cov_vector : forall p, p ∈ vectors n -> P p;
  cov_width : forall l, l ∈ collect_leaves n -> length (lf_key l) = L;
}.

Lemma elem_of_children {A} (f : Node -> list A) (cs : Children) i c x :
  cs !! i = Some (Some c) -> x ∈ f c ->
  x ∈ concat (map (fun c => match c with Some c => f c | None => [] end) cs).
Proof.
  intros Hi Hx. rewrite list_elem_of_In, in_concat. exists (f c).
  split; [|by apply list_elem_of_In]. apply in_map_iff. exists (Some c).
  split; [done|]. apply list_elem_of_In. by eapply list_elem_of_lookup_2.
Qed.

Lemma covered_child X P L b i c :
  covered X P L (Branch b) -> br_children b !! i = Some (Some c) -> covered X P L c.
Proof.
  intros [Hh Hv Hw] Hi. split.
  - intros x Hx. apply Hh. cbn [hash_inputs]. right. by eapply elem_of_children.
  - intros p Hp. apply Hv. cbn [vectors]. right. by eapply elem_of_children.
  - intros l Hl. apply Hw. apply collect_leaves_branch. eauto.
Qed.

(** ** Entries of a branch vector *)

(** What an entry of a branch vector hashes, if anything. *)
Definition entry_input (o : option Node) : option bytes :=
  match o with
  | None => None
  | Some (Leaf l) => Some (leaf_input (lf_key l) (bound_value l))
  | Some (Branch b) => Some (branch_input (prefix_bytes (br_prefix b)) (br_commitment b))
  end.

Lemma entry_digest o :
  (forall c, o = Some c -> committed c) ->
  child_commitment o = match entry_input o with Some x => sha512 x | None => replicate 64 x00 end.
Proof.
  intros Hc. destruct o as [[l|b]|]; [|done..]. simpl.
  specialize (Hc _ eq_refl). inversion Hc as [? Hl|]; subst.
  by rewrite Hl, <- (sha512_length (leaf_input (lf_key l) (bound_value l))), resize_all.
Qed.

Lemma entry_covered X P L c x : covered X P L c -> entry_input (Some c) = Some x -> X x.
Proof. intros [Hh _ _] Hx. apply Hh. destruct c; injection Hx as <-; apply list_elem_of_here. Qed.

(** The digest of one of the strings is the entry of a slot that hashes it. *)
Lemma entry_of_digest X P L o x :
  collision_free X -> X x -> (forall c, o = Some c -> committed c /\ covered X P L c) ->
  child_commitment o = sha512 x -> entry_input o = Some x.
Proof.
  intros [Hinj Hnz] HX Ho E. rewrite entry_digest in E by (intros c Hc; by apply Ho).
  destruct (entry_input o) as [y|] eqn:Ey.
  - f_equal. apply Hinj; [|done..]. destruct o as [c|]; [|done].
    destruct (Ho c eq_refl) as [_ Hcov]. by eapply entry_covered.
  - by destruct (Hnz x).
Qed.

Lemma same_entry X P L o1 o2 :
  collision_free X ->
  (forall c, o1 = Some c -> committed c /\ covered X P L c) ->
  (forall c, o2 = Some c -> committed c /\ covered X P L c) ->
  child_commitment o1 = child_commitment o2 -> entry_input o1 = entry_input o2.
Proof.
  intros HX H1 H2 E. destruct (entry_input o2) as [x|] eqn:E2.
  - apply (entry_of_digest X P L); [done| |done|].
    + destruct o2 as [c|]; [|done]. eapply entry_covered; [|done]. by apply H2.
    + rewrite E, entry_digest, E2; [done|]. intros c Hc. by apply H2.
  - destruct o2 as [[]|]; [done..|]. destruct (entry_input o1) as [x|] eqn:E1; [|done].
    exfalso. destruct o1 as [c|]; [|done]. destruct (H1 c eq_refl) as [Hc Hcov].
    apply (digest_nonzero _ HX x); [by eapply entry_covered|].
    rewrite entry_digest, E1 in E; [done|]. by intros ? [= <-].
Qed.

Lemma branch_commitment_length W X P L b :
  binds_vectors W P -> committed (Branch b) -> covered X P L (Branch b) ->
  length (br_commitment b) = W.
Proof.
  intros HP Hc [_ Hv _]. inversion Hc as [|? _ Hraw _]; subst.
  eapply commit_length; [done| |done]. apply Hv, list_elem_of_here.
Qed.

Lemma same_entry_commitment W X P L c1 c2 :
  binds_vectors W P -> committed c1 -> covered X P L c1 -> committed c2 -> covered X P L c2 ->
  entry_input (Some c1) = entry_input (Some c2) -> node_commitment c1 = node_commitment c2.
Proof.
  intros HP H1 V1 H2 V2 E. destruct c1 as [l1|b1], c2 as [l2|b2]; try discriminate E.
  - inversion H1 as [? E1|]; inversion H2 as [? E2|]; subst. injection E as E.
    simpl. rewrite E1, E2. unfold leaf_input. by rewrite E.
  - injection E as E. apply app_inj_2 in E as [_ E]; [done|].
    by rewrite !(branch_commitment_length W X P L).
Qed.

(** ** Commitments bind contents *)

Definition entries (n : Node) : list (bytes * bytes) :=
  (fun l => (lf_key l, bound_value l)) <$> collect_leaves n.

Lemma same_commitment_same_entries W X P L n1 n2 :
  collision_free X -> binds_vectors W P ->
  committed n1 -> covered X P L n1 -> committed n2 -> covered X P L n2 ->
  node_commitment n1 = node_commitment n2 -> entries n1 = entries n2.
Proof.
  intros HX HP H1. revert n2.
  induction H1 as [l1 E1|b1 Hl1 Hr1 Hc1 IH]; intros n2 V1 H2 V2 E;
    destruct H2 as [l2 E2|b2 Hl2 Hr2 Hc2]; cbn [node_commitment] in E.
  - unfold entries. cbn [collect_leaves]. rewrite E1, E2 in E.
    apply (digest_inj _ HX) in E; [|by apply V1, list_elem_of_here|by apply V2, list_elem_of_here].
    injection E as E. apply app_inj_1 in E as [Ek Ev].
    { simpl. by rewrite Ek, Ev. }
    by rewrite (cov_width _ _ _ _ V1 l1), (cov_width _ _ _ _ V2 l2) by apply list_elem_of_here.
  - exfalso. apply (commit_not_digest _ _ HP). rewrite <- (branch_commitment_length W X P L b2);
      [|done|by constructor|done]. by rewrite <- E, E1, sha512_length.
  - exfalso. apply (commit_not_digest _ _ HP). rewrite <- (branch_commitment_length W X P L b1);
      [|done|by constructor|done]. by rewrite E, E2, sha512_length.
  - assert (Ep : get_polynomial b1 = get_polynomial b2).
    { eapply (commit_inj _ _ HP); [apply V1, list_elem_of_here|apply V2, list_elem_of_here|done|].
      by rewrite E. }
    unfold entries. cbn [collect_leaves].
    change (fmap (M := list) ?f) with (map f). rewrite !List.concat_map, !map_map. f_equal. apply list_eq_same_length with 64%nat; [by rewrite length_map..|].
    intros i x y _ Hx Hy. rewrite list_lookup_fmap in Hx, Hy.
    destruct (br_children b1 !! i) as [o1|] eqn:Eo1; [|done].
    destruct (br_children b2 !! i) as [o2|] eqn:Eo2; [|done].
    assert (C1 : forall c, o1 = Some c -> committed c /\ covered X P L c)
      by (intros c ->; split; [eauto|exact (covered_child _ _ _ _ _ _ V1 Eo1)]).
    assert (C2 : forall c, o2 = Some c -> committed c /\ covered X P L c)
      by (intros c ->; split; [eauto|exact (covered_child _ _ _ _ _ _ V2 Eo2)]).
    assert (Ei : entry_input o1 = entry_input o2).
    { apply (same_entry X P L); [done..|].
      by rewrite <- (get_polynomial_slot b1 i), <- (get_polynomial_slot b2 i), Ep. }
    injection Hx as <-. injection Hy as <-.
    destruct o1 as [c1|], o2 as [c2|]; [|by destruct c1|by destruct c2|done].
    destruct (C1 _ eq_refl), (C2 _ eq_refl).
    apply (IH i c1); [done..|]. by eapply same_entry_commitment.
Qed.

(** ** Accepted proofs *)

(** The openings of one sub-proof, level by level. *)
Inductive opened (W : nat) (P : bytes -> Prop) : list bytes -> list (list Z) -> list bytes -> Prop :=
| opened_end c y : opened W P [c] [] [y]
| opened_level c commits path i paths y ys :
    length c = W -> last path = Some i -> 0 <= i <= 63 ->
    (forall p, P p -> commit_raw p 64 = Some c -> poly_slot p (Z.to_nat i) = y) ->
    opened W P commits paths ys ->
    opened W P (c :: commits) (path :: paths) (y :: ys).

Lemma opened_nonempty W P commits paths ys : opened W P commits paths ys -> commits <> [].
Proof. by destruct 1. Qed.

Lemma opened_head_length W P commits paths ys c :
  opened W P commits paths ys -> head commits = Some c -> (2 <= length commits)%nat -> length c = W.
Proof. destruct 1; intros [= <-] Hlen; [simpl in Hlen; lia|done]. Qed.

(** One level of the chain: the entry of the parent hashes what the verifier hashed. *)
Lemma expected_input c1 more paths out W P ys :
  opened W P (c1 :: more) paths ys ->
  expected_y c1 (match more with [] => false | _ => true end) paths = Ok out ->
  (more = [] /\ out = c1)
  \/ (more <> [] /\ exists pfx, out = sha512 (branch_input pfx c1)
      /\ forall c0 path0, chain_inputs (c0 :: c1 :: more) (path0 :: paths)
         = branch_input pfx c1 :: chain_inputs (c1 :: more) paths).
Proof.
  intros Ho E. destruct more as [|c2 more]; [left; by injection E as <-|right].
  split; [done|]. inversion Ho as [|? ? path i paths' ? ? _ Hlast _ _ _]; subst.
  destruct path as [|q path]; [done|]. injection E as <-. eexists. split; [done|]. done.
Qed.

(** The step from a branch to the slot an opening names. *)
Lemma opened_slot P b i y :
  committed (Branch b) -> P (get_polynomial b) -> 0 <= i <= 63 ->
  (forall p, P p -> commit_raw p 64 = Some (br_commitment b) -> poly_slot p (Z.to_nat i) = y) ->
  exists o, br_children b !! Z.to_nat i = Some o /\ child_commitment o = y.
Proof.
  intros Hc HP Hi Hopen. inversion Hc as [|? Hlen Hraw _]; subst.
  destruct (lookup_lt_is_Some_2 (br_children b) (Z.to_nat i)) as [o Ho]; [lia|].
  exists o. split; [done|]. rewrite <- (Hopen _ HP Hraw), <- (get_polynomial_slot b _ _ Ho).
  unfold poly_slot. rewrite length_get_polynomial, Hlen.
  by rewrite (proj2 (Nat.leb_le _ _)) by lia.
Qed.

Lemma chain_sound W X P L commits paths ys b k v :
  collision_free X -> binds_vectors W P ->
  opened W P commits paths ys -> verify_path_chain commits paths ys = Ok true ->
  (forall x, x ∈ chain_inputs commits paths -> X x) ->
  last commits = Some (sha512 (leaf_input k v)) -> X (leaf_input k v) -> length k = L ->
  committed (Branch b) -> covered X P L (Branch b) ->
  head commits = Some (br_commitment b) -> (2 <= length commits)%nat ->
  exists l, l ∈ collect_leaves (Branch b) /\ lf_key l = k /\ bound_value l = v.
Proof.
  intros HX HP Ho. revert b.
  induction Ho as [|c commits path i paths y ys Hw Hlast Hi Hopen Ho IH];
    intros b Hv Hin Hend HXl Hk Hc Hcov [= ->] Hlen; [simpl in Hlen; lia|].
  destruct commits as [|c1 more]; [by apply opened_nonempty in Ho|].
  cbn [verify_path_chain tail] in Hv.
  destruct (expected_y c1 _ paths) as [out| |] eqn:Eout; [|done..]. simpl mbind in Hv.
  case_decide as Ey; [subst y|done].
  assert (HPb : P (get_polynomial b)) by (apply Hcov, list_elem_of_here).
  destruct (opened_slot P b i out Hc HPb Hi Hopen) as (o & Hslot & Eo).
  assert (Hoc : forall d, o = Some d -> committed d /\ covered X P L d).
  { intros d ->. inversion Hc as [|? _ _ Hch]; subst. split; [by eapply Hch|].
    by eapply covered_child. }
  destruct (expected_input _ _ _ _ _ _ _ Ho Eout) as [[-> ->]|(Hne & pfx & -> & Hci)].
  - simpl in Hend. injection Hend as ->.
    apply (entry_of_digest X P L) in Eo; [|done..].
    destruct o as [[l|b']|]; [|discriminate Eo..]. injection Eo as Eo.
    destruct (Hoc _ eq_refl) as [_ Hcl]. pose proof (cov_width _ _ _ _ Hcl l) as Hwl.
    apply app_inj_1 in Eo as [? ?]; [|rewrite Hk; apply Hwl, list_elem_of_here].
    exists l. split; [|done]. apply collect_leaves_branch. exists (Z.to_nat i), (Leaf l).
    split; [done|apply list_elem_of_here].
  - apply (entry_of_digest X P L) in Eo; [|done|apply Hin; rewrite Hci; apply list_elem_of_here|done].
    destruct o as [[l|b']|]; [discriminate Eo| |done]. injection Eo as Eo.
    destruct (Hoc _ eq_refl) as [Hc' Hcov'].
    assert (Hw1 : length c1 = W) by (by inversion Ho; subst).
    apply app_inj_2 in Eo as [_ Eo]; [|by rewrite (branch_commitment_length W X P L), Hw1].
    destruct (IH b') as (l & Hl & Hlk); [done| |done..|by rewrite Eo| |].
    + intros x Hx. apply Hin. rewrite Hci. by right.
    + destruct more; [done|]. simpl. lia.
    + exists l. split; [|done]. apply collect_leaves_branch. eauto.
Qed.

(** What the verifier collects from one sub-proof. *)
Definition sp_levels (sp : TraversalSubProof) : list bytes := removelast (sp_commits sp).
Definition sp_values (sp : TraversalSubProof) : list bytes := removelast (sp_ys sp).
Definition sp_indices (sp : TraversalSubProof) : list Z := omap last (sp_paths sp).

Lemma length_removelast {A} (l : list A) : length (removelast l) = (length l - 1)%nat.
Proof.
  destruct l as [|x l _] using rev_ind; [done|]. rewrite removelast_last, length_app. simpl. lia.
Qed.

Lemma length_sp_indices sp :
  sub_proof_shape sp = true -> (length (sp_indices sp) <= length (sp_levels sp))%nat.
Proof.
  intros [[_ Hp%Nat.eqb_eq]%andb_true_iff _]%andb_true_iff. unfold sp_levels, sp_indices.
  rewrite length_removelast, <- Hp. clear Hp.
  induction (sp_paths sp) as [|p ps IH]; [done|]. cbn [omap list_omap].
  destruct (last p); cbn [length]; unfold omap in *; lia.
Qed.

Lemma length_sp_values sp :
  sub_proof_shape sp = true -> length (sp_values sp) = length (sp_levels sp).
Proof.
  intros [_ Hy%Nat.eqb_eq]%andb_true_iff. unfold sp_levels, sp_values.
  by rewrite !length_removelast, Hy.
Qed.

Lemma collect_sub_proofs_inv sps cs idx ys cs' idx' ys' :
  Forall (fun sp => sub_proof_shape sp = true) sps ->
  collect_sub_proofs sps cs idx ys = Ok (Some (cs', idx', ys')) ->
  cs' = cs ++ concat (sp_levels <$> sps) /\ idx' = idx ++ concat (sp_indices <$> sps)
  /\ ys' = ys ++ concat (sp_values <$> sps)
  /\ Forall (fun sp => verify_path_chain (sp_commits sp) (sp_paths sp) (sp_ys sp) = Ok true) sps.
Proof.
  revert cs idx ys. induction sps as [|sp sps IH]; intros cs idx ys Hs E.
  { injection E as <- <- <-. simpl. rewrite !app_nil_r. by repeat split. }
  inversion Hs as [|? ? Hsp Hs']; subst. cbn [collect_sub_proofs] in E.
  destruct (Nat.leb_spec (length (sp_commits sp)) 1) as [H1|H1].
  - pose proof (length_sp_indices _ Hsp) as Hi. pose proof (length_sp_values _ Hsp) as Hv.
    assert (El : sp_levels sp = [])
      by (apply length_zero_iff_nil; unfold sp_levels; rewrite length_removelast; lia).
    rewrite El in Hi, Hv. apply Nat.le_0_r, length_zero_iff_nil in Hi.
    apply length_zero_iff_nil in Hv. cbn [fmap list_fmap concat]. rewrite El, Hi, Hv.
    destruct (IH _ _ _ Hs' E) as (? & ? & ? & ?). repeat split; [done..|]. constructor; [|done].
    by destruct (sp_commits sp) as [|? [|? ?]]; [..|simpl in H1; lia].
  - destruct (verify_path_chain _ _ _) as [[]| |] eqn:Ev; [|done..]. simpl mbind in E.
    destruct (IH _ _ _ Hs' E) as (-> & -> & -> & ?). cbn [fmap list_fmap concat].
    rewrite !app_assoc. repeat split; [done..|]. by constructor.
Qed.

Lemma block_lengths {A B C} (f : C -> list A) (g : C -> list B) (l : list C) :
  Forall (fun x => (length (g x) <= length (f x))%nat) l ->
  length (concat (g <$> l)) = length (concat (f <$> l)) ->
  Forall (fun x => length (g x) = length (f x)) l.
Proof.
  induction 1 as [|x l Hx Hl IH]; intros E; [constructor|].
  assert (Hle : (length (concat (g <$> l)) <= length (concat (f <$> l)))%nat).
  { clear -Hl. induction Hl; rewrite ?fmap_cons; simpl; rewrite ?length_app; lia. }
  rewrite !fmap_cons in E. simpl in E. rewrite !length_app in E. constructor; [lia|]. apply IH. lia.
Qed.

Lemma Forall3_of_lookup {A B C} (Q : A -> B -> C -> Prop) l k m :
  length k = length l -> length m = length l ->
  (forall j x y z, l !! j = Some x -> k !! j = Some y -> m !! j = Some z -> Q x y z) ->
  Forall3 Q l k m.
Proof.
  revert k m. induction l as [|x l IH]; intros [|y k] [|z m] Hk Hm HQ; try done; [constructor|].
  constructor; [by apply (HQ 0%nat)|]. apply IH; [by injection Hk|by injection Hm|].
  intros j. apply (HQ (S j)).
Qed.

Lemma split_blocks {A B C D} (Q : A -> B -> C -> Prop) f g h (l : list D) :
  Forall (fun x => length (g x) = length (f x) /\ length (h x) = length (f x)) l ->
  Forall3 Q (concat (f <$> l)) (concat (g <$> l)) (concat (h <$> l)) ->
  Forall (fun x => Forall3 Q (f x) (g x) (h x)) l.
Proof.
  induction 1 as [|x l [Hg Hh] Hl IH]; intros E; [constructor|]. simpl in E.
  apply Forall3_app_inv_l in E as (k1 & k2 & k1' & k2' & Eg & Eh & H1 & H2).
  pose proof (Forall3_length_lm _ _ _ _ H1). pose proof (Forall3_length_lr _ _ _ _ H1).
  apply app_inj_1 in Eg as [<- <-]; [|lia]. apply app_inj_1 in Eh as [<- <-]; [|lia].
  constructor; auto.
Qed.

(** The opening of one level, as the prover guarantees it. *)
Definition opens (P : bytes -> Prop) (c y : bytes) (i : Z) : Prop :=
  0 <= i <= 63 -> forall p, P p -> commit_raw p 64 = Some c -> poly_slot p (Z.to_nat i) = y.

Lemma levels_opened W P commits paths ys :
  commits <> [] -> length paths = (length commits - 1)%nat -> length ys = length commits ->
  length (omap last paths) = length paths ->
  Forall3 (opens P) (removelast commits) (removelast ys) (omap last paths) ->
  Forall (fun c => length c = W) (removelast commits) ->
  (forall path i, path ∈ paths -> last path = Some i -> 0 <= i <= 63) ->
  opened W P commits paths ys.
Proof.
  revert commits ys. induction paths as [|path paths IH]; intros commits ys Hne Hp Hy Ho H3 HW Hi.
  { destruct commits as [|c [|]], ys as [|y [|]]; try done. constructor. }
  destruct commits as [|c [|c1 commits]]; [done..|]. destruct ys as [|y [|y1 ys]]; [done..|].
  assert (Hle : (length (omap last paths) <= length paths)%nat).
  { clear. induction paths as [|p ps IH]; [done|]. cbn [omap list_omap].
    destruct (last p); cbn [length]; unfold omap in *; lia. }
  cbn [omap list_omap length] in Ho, H3.
  destruct (last path) as [i|] eqn:El; [|unfold omap in *; lia].
  cbn [removelast] in H3, HW. inversion H3 as [|? ? ? ? ? ? Hopen H3']; subst.
  inversion HW as [|? ? Hc HW']; subst.
  assert (Hr : 0 <= i <= 63) by (apply (Hi path); [apply list_elem_of_here|done]).
  apply opened_level with i; [done..|by apply Hopen|].
  apply IH; [done|simpl in *; lia..|unfold omap in *; simpl in *; lia|done|done|].
  intros path' j Hj. apply Hi. by right.
Qed.

Lemma commit_committed `{!LawfulProver} pre n : wf pre n -> committed (commit_node true n).
Proof.
  induction 1 as [pre l Hl|pre b Hlen Hp Htwo Hc IH]; [by constructor|].
  destruct (commit_branch b Hlen) as (b' & -> & _ & Ecs & Hraw).
  constructor; [by rewrite Ecs, length_map|done|]. intros i c. rewrite Ecs, list_lookup_fmap.
  destruct (br_children b !! i) as [[d|]|] eqn:Ed; simpl; intros [= <-]. by eapply IH.
Qed.

Lemma verified_sub_proof W P rt proof sp :
  binds_vectors W P -> verify_traversal_proof rt proof = Ok true ->
  (1 < length (concat (sp_levels <$> vp_sub_proofs proof)))%nat ->
  sp ∈ vp_sub_proofs proof ->
  sub_proof_shape sp = true /\ head (sp_commits sp) = Some rt
  /\ verify_path_chain (sp_commits sp) (sp_paths sp) (sp_ys sp) = Ok true
  /\ length (sp_indices sp) = length (sp_levels sp)
  /\ Forall3 (opens P) (sp_levels sp) (sp_values sp) (sp_indices sp).
Proof.
  intros HP Hv Hlev Hin. unfold verify_traversal_proof in Hv.
  destruct (_ || _); [done|]. destruct (forallb sub_proof_shape _) eqn:Es; [|done].
  destruct (forallb (sub_proof_root rt) _) eqn:Er; [|done]. cbn [negb] in Hv.
  rewrite forallb_forall in Es, Er.
  assert (Hs : Forall (fun sp => sub_proof_shape sp = true) (vp_sub_proofs proof))
    by (apply Forall_forall; intros x Hx; by apply Es, list_elem_of_In).
  destruct (collect_sub_proofs _ [] [] []) as [[[[cs idx] ys]|]| |] eqn:Ec; [|done..].
  destruct (collect_sub_proofs_inv _ _ _ _ _ _ _ Hs Ec) as (-> & -> & -> & Hch).
  simpl mbind in Hv. cbn [app] in Hv. rewrite (proj2 (Nat.ltb_lt 1 _) Hlev) in Hv.
  destruct (verify_multiple _ _ _ 64 _ _) eqn:Em; [|done].
  destruct (verify_lengths _ _ HP _ _ _ _ _ Em) as [Hyl Hil].
  assert (Hbi : Forall (fun sp => length (sp_indices sp) = length (sp_levels sp)) (vp_sub_proofs proof)).
  { apply block_lengths; [|done]. eapply Forall_impl; [exact Hs|]. apply length_sp_indices. }
  assert (H3 : Forall3 (opens P) (concat (sp_levels <$> vp_sub_proofs proof))
                 (concat (sp_values <$> vp_sub_proofs proof))
                 (concat (sp_indices <$> vp_sub_proofs proof))).
  { apply Forall3_of_lookup; [done..|]. intros k c y i Hc Hy Hi Hr p Hp Hraw.
    by eapply (verify_opens _ _ HP). }
  apply split_blocks in H3.
  - rewrite !Forall_forall in *. repeat split; auto.
    specialize (Er sp). rewrite <- list_elem_of_In in Er.
    by eapply bool_decide_eq_true_1, Er.
  - apply Forall_forall. intros x Hx. rewrite !Forall_forall in *.
    split; [by apply length_sp_values, Hs|by apply Hbi].
Qed.

Lemma accepted_leaf W X P L n sp k v :
  collision_free X -> binds_vectors W P -> committed n -> covered X P L n ->
  sub_proof_shape sp = true -> head (sp_commits sp) = Some (node_commitment n) ->
  verify_path_chain (sp_commits sp) (sp_paths sp) (sp_ys sp) = Ok true ->
  length (sp_indices sp) = length (sp_levels sp) ->
  Forall3 (opens P) (sp_levels sp) (sp_values sp) (sp_indices sp) ->
  last (sp_commits sp) = Some (sha512 (leaf_input k v)) -> length k = L ->
  (forall x, x ∈ leaf_input k v :: chain_inputs (sp_commits sp) (sp_paths sp) -> X x) ->
  Forall (fun c => length c = W) (sp_levels sp) ->
  (forall path i, path ∈ sp_paths sp -> last path = Some i -> 0 <= i <= 63) ->
  exists l, l ∈ collect_leaves n /\ lf_key l = k /\ bound_value l = v.
Proof.
  intros HX HP Hc Hcov Hs Hhd Hch Hil H3 Hlast Hk Hxs HW Hi.
  pose proof Hs as [[Hne Hp%Nat.eqb_eq]%andb_true_iff Hy%Nat.eqb_eq]%andb_true_iff.
  assert (Hop : opened W P (sp_commits sp) (sp_paths sp) (sp_ys sp)).
  { apply levels_opened; try done.
    - intros E. by rewrite E in Hhd.
    - unfold sp_indices, sp_levels in Hil. by rewrite Hil, length_removelast. }
  assert (HXl : X (leaf_input k v)) by apply Hxs, list_elem_of_here.
  destruct (decide (2 <= length (sp_commits sp))%nat) as [Hlong|Hshort].
  - destruct n as [l|b].
    + exfalso. apply (commit_not_digest _ _ HP). rewrite <- (opened_head_length _ _ _ _ _ _ Hop Hhd Hlong).
      inversion Hc as [? El|]; subst. simpl. by rewrite El, sha512_length.
    + eapply chain_sound; eauto. intros x Hx. apply Hxs. by right.
  - destruct (sp_commits sp) as [|c [|]]; [done| |simpl in Hshort; lia].
    injection Hhd as ->. injection Hlast as E. destruct Hc as [l El|b Hl Hraw Hchd].
    + simpl in E. rewrite El in E. apply (digest_inj _ HX) in E; [|apply Hcov, list_elem_of_here|done].
      injection E as E. exists l. split; [apply list_elem_of_here|].
      apply app_inj_1 in E as [? ?]; [done|]. rewrite (cov_width _ _ _ _ Hcov l), Hk; [done|apply list_elem_of_here].
    + exfalso. apply (commit_not_digest _ _ HP). rewrite <- (branch_commitment_length W X P L b);
        [|done|by constructor|done]. simpl in E. by rewrite E, sha512_length.
Qed.

(** ** Trees *)

(** The strings hashed and the vectors committed to by [commit] are among those considered. *)
Definition recorded (X P : bytes -> Prop) (t : VectorCommitmentTree) : Prop :=
  forall n, root (snd (commit t)) = Some n ->
    (forall x, x ∈ hash_inputs n -> X x) /\ (forall p, p ∈ vectors n -> P p).

Lemma entries_commit n : entries (commit_node true n) = entries n.
Proof. unfold entries. rewrite commit_node_leaves, <- list_fmap_compose. done. Qed.

Lemma recorded_covered `{!LawfulProver} X P L n :
  tree_ok (fixed_width L) (mkTree (Some n)) -> recorded X P (mkTree (Some n)) ->
  committed (commit_node true n) /\ covered X P L (commit_node true n).
Proof.
  intros [Hwf HK] Hr. destruct (Hr _ eq_refl) as [Hx Hp].
  split; [by eapply commit_committed|]. split; [done..|]. intros l.
  rewrite commit_node_leaves. intros (l' & -> & Hl')%list_elem_of_fmap. by destruct (HK _ Hl').
Qed.

Lemma bound_contents n : bound_value <$> contents (mkTree (Some n)) = list_to_map (entries n).
Proof.
  unfold contents, leaf_map, entries. cbn [root].
  induction (collect_leaves n) as [|l ls IH]; [apply fmap_empty|].
  rewrite !fmap_cons, !list_to_map_cons, fmap_insert, IH. done.
Qed.

Lemma empty_commitment W X P L n :
  collision_free X -> binds_vectors W P -> committed n -> covered X P L n ->
  node_commitment n <> replicate 64 x00.
Proof.
  intros HX HP Hn Hcov E. destruct Hn as [l El|b Hl Hraw Hch].
  - simpl in E. rewrite El in E. apply (digest_nonzero _ HX) in E; [done|].
    apply Hcov, list_elem_of_here.
  - apply (commit_not_digest _ _ HP). rewrite <- (branch_commitment_length W X P L b);
      [|done|by constructor|done]. cbn [node_commitment] in E. by rewrite E.
Qed.

Lemma bound_leaves n l :
  has_unbound_value n = false -> l ∈ collect_leaves n -> bound_value l = lf_value l.
Proof.
  induction n as [l'|b IH] using node_ind_nested; intros Hu Hl.
  - apply list_elem_of_singleton in Hl as ->. cbn [has_unbound_value] in Hu.
    unfold value_is_bound, bound_value in *. by destruct (lf_hash_target l').
  - apply collect_leaves_branch in Hl as (i & c & Hi & Hl). apply (IH i c Hi); [|done].
    cbn [has_unbound_value] in Hu. destruct (has_unbound_value c) eqn:E; [|done].
    rewrite (proj2 (existsb_exists _ _)) in Hu; [done|]. exists (Some c). split; [|done].
    apply list_elem_of_In. by eapply list_elem_of_lookup_2.
Qed.

Lemma get_bound L t k :
  tree_ok (fixed_width L) t -> has_unbound_values t = false ->
  get t k = Ok ((bound_value <$> contents t) !! k).
Proof.
  intros Hok Hu. unfold get. rewrite (get_leaf_contents _ _ _ Hok), lookup_fmap. simpl. f_equal.
  destruct (contents t !! k) as [l|] eqn:E; [|done]. simpl. f_equal.
  apply (contents_lookup _ _ _ _ Hok) in E as (n & En & Hl & _).
  unfold has_unbound_values in Hu. rewrite En in Hu. symmetry. by eapply bound_leaves.
Qed.
End binding.

(** ** A concrete instance *)

Module BindingDemo.
(** A prover that commits to a vector by naming it. *)
Definition open_prover : InclusionProver :=
  {| commit_raw p _ := Some (x01 :: p);
     prove_multiple_raw _ polys indices _ :=
       Some (mkMultiproof [x01] [x01] (zip_with poly_slot polys (Z.to_nat <$> indices)));
     verify_multiple commits ys indices _ _ _ :=
       (length ys =? length commits)%nat && (length indices =? length commits)%nat
       && forallb (fun '(c, y, i) => bool_decide (poly_slot (tail c) (Z.to_nat i) = y))
            (zip (zip commits ys) indices) |}.

Lemma open_prover_lawful : LawfulProver (H := open_prover).
Proof.
  split; [intros p Hp; by eexists|].
  intros commits polys indices mp [= <-] Hc Hlen Hi. split; [|done]. simpl.
  pose proof (Forall2_length _ _ _ Hc) as Hl.
  rewrite !andb_true_iff, !Nat.eqb_eq, length_zip_with, length_fmap. split; [lia|].
  clear Hi Hl. revert indices Hlen. induction Hc as [|c p cs ps [[= <-] _] _ IH]; intros [|i indices] Hlen;
    try done. simpl. rewrite bool_decide_eq_true_2 by done. apply IH. by injection Hlen.
Qed.

Lemma open_prover_binds :
  binds_vectors (H0 := open_prover) 4097 (fun p => length p = 4096%nat).
Proof.
  split; simpl.
  - intros p c Hp [= <-]. simpl. by rewrite Hp.
  - done.
  - congruence.
  - intros commits ys indices _ _. rewrite !andb_true_iff, !Nat.eqb_eq. tauto.
  - intros commits ys indices _ _ j c y i p Hv Hc Hy Hi _ _ [= <-].
    apply andb_true_iff in Hv as [_ Hv]. rewrite forallb_forall in Hv.
    specialize (Hv (x01 :: p, y, i)). simpl in Hv. apply bool_decide_eq_true_1 in Hv; [done|].
    apply list_elem_of_In, list_elem_of_lookup_2 with j. rewrite !lookup_zip_with.
    by rewrite Hc, Hy, Hi.
Qed.

(** Collision freedom of a finite set, by comparing all pairs. *)
Definition no_collision (xs : list bytes) : bool :=
  forallb (fun x => negb (bool_decide (sha512 (Sha512 := Demo.pad_sha512) x = replicate 64 x00))
    && forallb (fun y => negb (bool_decide (sha512 (Sha512 := Demo.pad_sha512) x
                                           = sha512 (Sha512 := Demo.pad_sha512) y))
                         || bool_decide (x = y)) xs) xs.

Lemma no_collision_free xs :
  no_collision xs = true -> collision_free (H := Demo.pad_sha512) (fun x => x ∈ xs).
Proof.
  unfold no_collision. rewrite forallb_forall. intros Hxs. split.
  - intros x y Hx%list_elem_of_In Hy%list_elem_of_In E. apply Hxs in Hx as [_ Hx]%andb_true_iff.
    rewrite forallb_forall in Hx. specialize (Hx y Hy). rewrite bool_decide_eq_true_2 in Hx by done.
    by apply bool_decide_eq_true_1 in Hx.
  - intros x Hx%list_elem_of_In. apply Hxs in Hx as [Hx _]%andb_true_iff.
    by apply negb_true_iff, bool_decide_eq_false_1 in Hx.
Qed.

(** Three keys, two of them below an inner branch; the second history writes and
    deletes a fourth. *)
Definition ops : list tree_op :=
  [OpInsert [x04; x02] [x11] [] 1; OpInsert [x04; x12] [x12] [] 1; OpInsert [xf0; x02] [x13] [] 1].
Definition detour : list tree_op :=
  [OpInsert [x44; x02] [x21] [] 1] ++ ops ++ [OpDelete [x44; x02]].
Definition tree (o : list tree_op) : VectorCommitmentTree := apply_ops (H := Demo.pad_sha512) o.
Definition committed_root (o : list tree_op) : Node :=
  default (Leaf (mkLeafNode [] [] [] [] 0))
    (root (snd (commit (H := Demo.pad_sha512) (H0 := open_prover) (tree o)))).
Definition inputs : list bytes := hash_inputs (committed_root ops).

Lemma tree_is_ok o :
  Forall (fun x => fixed_width 2 (op_key x)) o -> tree_ok (fixed_width 2) (tree o).
Proof. intros Ho. by apply (apply_ops_refines (H := Demo.pad_sha512) (K := fixed_width 2) o). Qed.

Lemma elem_check (xs : list bytes) :
  forallb (fun x => bool_decide (x ∈ inputs)) xs = true -> forall x, x ∈ xs -> x ∈ inputs.
Proof.
  rewrite forallb_forall. intros Hx x Hin%list_elem_of_In. by apply Hx, bool_decide_eq_true_1 in Hin.
Qed.

Lemma tree_recorded o :
  is_Some (root (snd (commit (H := Demo.pad_sha512) (H0 := open_prover) (tree o)))) ->
  forallb (fun x => bool_decide (x ∈ inputs)) (hash_inputs (committed_root o)) = true ->
  forallb (fun p => length p =? 4096)%nat (vectors (H := Demo.pad_sha512) (committed_root o)) = true ->
  recorded (H := Demo.pad_sha512) (H0 := open_prover) (fun x => x ∈ inputs)
    (fun p => length p = 4096%nat) (tree o).
Proof.
  unfold committed_root. intros [n En] Hx Hp n' En'. rewrite En in En'. injection En' as <-.
  rewrite En in Hx, Hp. simpl in Hx, Hp. rewrite forallb_forall in Hp. split.
  - by apply elem_check.
  - intros p Hin%list_elem_of_In. by apply Hp, Nat.eqb_eq in Hin.
Qed.

(** The tree's root node, and the proof of its first key. *)
Definition node : Node := default (Leaf (mkLeafNode [] [] [] [] 0)) (root (tree ops)).
Definition proof : VerifierProof :=
  match prove_multiple (H := Demo.pad_sha512) (H0 := open_prover)
          (snd (commit (H := Demo.pad_sha512) (H0 := open_prover) (mkTree (Some node)))) [[x04; x02]] with
  | Ok (Some p) => received p
  | _ => mkVerifierProof [] [] []
  end.
Definition sub_proof : TraversalSubProof := default (mkSubProof [] [] []) (head (vp_sub_proofs proof)).

Lemma node_tree : tree ops = mkTree (Some node).
Proof. vm_compute. reflexivity. Qed.

Lemma proof_head : is_Some (head (vp_sub_proofs proof)) -> sub_proof ∈ vp_sub_proofs proof.
Proof.
  unfold sub_proof. destruct (vp_sub_proofs proof) as [|sp sps]; [by intros []|]. intros _.
  apply list_elem_of_here.
Qed.

Lemma sub_proof_indices :
  forallb (fun path => match last path with Some i => (0 <=? i) && (i <=? 63) | None => true end)
    (sp_paths sub_proof) = true ->
  forall path i, path ∈ sp_paths sub_proof -> last path = Some i -> 0 <= i <= 63.
Proof.
  rewrite forallb_forall. intros Hall path i Hin%list_elem_of_In Hl. specialize (Hall path Hin).
  rewrite Hl in Hall. lia.
Qed.
End BindingDemo.

(** ** Theorems *)

(** C11. A root commitment binds the contents: if two trees over keys of one
    width have the same root commitment, every key has the same bound value
    (hash target, or value) in both, and with all values bound every lookup
    agrees, as long as SHA-512 has no collision among the strings the two
    commits hash and the prover's commitments are binding on their vectors.
    Sizes are not covered. *)
Theorem root_commitment_binds :
  forall (Sha : Sha512) (Prover : InclusionProver) (Lawful : LawfulProver)
    (W L : nat) (X P : bytes -> Prop) (t1 t2 : VectorCommitmentTree),
  collision_free X -> binds_vectors W P ->
  tree_ok (fixed_width L) t1 -> tree_ok (fixed_width L) t2 ->
  recorded X P t1 -> recorded X P t2 ->
  fst (commit t1) = fst (commit t2) ->
  bound_value <$> contents t1 = bound_value <$> contents t2
  /\ (has_unbound_values t1 = false -> has_unbound_values t2 = false ->
      forall k, get t1 k = get t2 k).
Proof.
  intros Sha Prover Lawful W L X P [r1] [r2] HX HP Hok1 Hok2 Hr1 Hr2 E.
  enough (Hb : bound_value <$> contents (mkTree r1) = bound_value <$> contents (mkTree r2)).
  { split; [done|]. intros Hu1 Hu2 k. by rewrite !(get_bound L), Hb. }
  destruct r1 as [n1|], r2 as [n2|]; cbn [commit root fst] in E; [| | |done].
  - destruct (recorded_covered X P L n1 Hok1 Hr1), (recorded_covered X P L n2 Hok2 Hr2).
    rewrite !bound_contents, <- (entries_commit n1), <- (entries_commit n2). f_equal.
    by eapply same_commitment_same_entries.
  - destruct (recorded_covered X P L n1 Hok1 Hr1). by destruct (empty_commitment W X P L (commit_node true n1)).
  - destruct (recorded_covered X P L n2 Hok2 Hr2). by destruct (empty_commitment W X P L (commit_node true n2)).
Qed.

(** C12. Soundness of traversal proofs, for trees whose keys all have the same
    length [L]: if the verifier accepts a proof against the root commitment of such a
    tree, with the multiproof checked (more than one branch level in all), then a
    sub-proof that ends in the hash of a leaf with a key [k] of that length and bound
    value [v] shows that the tree holds [v] at [k].  (A leaf hashes its key and value
    unseparated, so keys of other lengths are out of reach.)  The prover's openings
    are binding on the tree's vectors, SHA-512 has no collision among the strings the
    commit and the verifier hash, and the sub-proof's commitments have the prover's
    length and its indices are slots. *)
Theorem traversal_proof_sound :
  forall (Sha : Sha512) (Prover : InclusionProver) (Lawful : LawfulProver)
    (W L : nat) (X P : bytes -> Prop) (n : Node) (proof : VerifierProof)
    (sp : TraversalSubProof) (k v : bytes),
  collision_free X -> binds_vectors W P ->
  tree_ok (fixed_width L) (mkTree (Some n)) -> recorded X P (mkTree (Some n)) ->
  verify_traversal_proof (fst (commit (mkTree (Some n)))) proof = Ok true ->
  (1 < length (concat (sp_levels <$> vp_sub_proofs proof)))%nat ->
  sp ∈ vp_sub_proofs proof ->
  last (sp_commits sp) = Some (sha512 (leaf_input k v)) -> length k = L ->
  (forall x, x ∈ leaf_input k v :: chain_inputs (sp_commits sp) (sp_paths sp) -> X x) ->
  Forall (fun c => length c = W) (sp_levels sp) ->
  (forall path i, path ∈ sp_paths sp -> last path = Some i -> 0 <= i <= 63) ->
  exists l, get_leaf (mkTree (Some n)) k = Ok (Some l) /\ bound_value l = v.
Proof.
  intros Sha Prover Lawful W L X P n proof sp k v HX HP Hok Hr Hv Hlev Hin Hlast Hk Hxs HW Hi.
  destruct (recorded_covered X P L n Hok Hr) as [Hc Hcov].
  destruct (verified_sub_proof W P _ _ _ HP Hv Hlev Hin) as (Hs & Hhd & Hch & Hil & H3).
  assert (Hleaf : exists l, l ∈ collect_leaves (commit_node true n) /\ lf_key l = k /\ bound_value l = v).
  { eapply accepted_leaf; eauto. }
  destruct Hleaf as (l & Hl & Hlk & Hlv). rewrite commit_node_leaves in Hl.
  apply list_elem_of_fmap in Hl as (l' & -> & Hl'). exists l'. split; [|done].
  rewrite (get_leaf_contents _ _ _ Hok). f_equal. apply (contents_lookup _ _ _ _ Hok). eauto.
Qed.

Lemma root_commitment_binds_witness :
  fst (commit (H := Demo.pad_sha512) (H0 := BindingDemo.open_prover) (BindingDemo.tree BindingDemo.ops))
  = fst (commit (H := Demo.pad_sha512) (H0 := BindingDemo.open_prover) (BindingDemo.tree BindingDemo.detour))
  /\ bound_value <$> contents (BindingDemo.tree BindingDemo.ops)
     = bound_value <$> contents (BindingDemo.tree BindingDemo.detour).
Proof.
  assert (E : fst (commit (H := Demo.pad_sha512) (H0 := BindingDemo.open_prover) (BindingDemo.tree BindingDemo.ops))
    = fst (commit (H := Demo.pad_sha512) (H0 := BindingDemo.open_prover) (BindingDemo.tree BindingDemo.detour)))
    by (vm_compute; reflexivity).
  split; [exact E|].
  refine (proj1 (root_commitment_binds Demo.pad_sha512 BindingDemo.open_prover BindingDemo.open_prover_lawful
    4097 2 (fun x => x ∈ BindingDemo.inputs) (fun p => length p = 4096%nat)
    (BindingDemo.tree BindingDemo.ops) (BindingDemo.tree BindingDemo.detour) _ BindingDemo.open_prover_binds
    _ _ _ _ E)).
  - apply BindingDemo.no_collision_free. vm_compute. reflexivity.
  - apply BindingDemo.tree_is_ok. repeat constructor; discriminate.
  - apply BindingDemo.tree_is_ok. repeat constructor; discriminate.
  - apply BindingDemo.tree_recorded; [vm_compute; eauto|vm_compute; reflexivity..].
  - apply BindingDemo.tree_recorded; [vm_compute; eauto|vm_compute; reflexivity..].
Defined.

Lemma traversal_proof_sound_witness :
  exists l, get_leaf (mkTree (Some BindingDemo.node)) [x04; x02] = Ok (Some l) /\ bound_value l = [x11].
Proof.
  apply (traversal_proof_sound Demo.pad_sha512 BindingDemo.open_prover BindingDemo.open_prover_lawful
    4097 2 (fun x => x ∈ BindingDemo.inputs) (fun p => length p = 4096%nat) BindingDemo.node
    BindingDemo.proof BindingDemo.sub_proof [x04; x02] [x11]).
  - apply BindingDemo.no_collision_free. vm_compute. reflexivity.
  - apply BindingDemo.open_prover_binds.
  - rewrite <- BindingDemo.node_tree. apply BindingDemo.tree_is_ok. repeat constructor; discriminate.
  - rewrite <- BindingDemo.node_tree.
    apply BindingDemo.tree_recorded; [vm_compute; eauto|vm_compute; reflexivity..].
  - vm_compute. reflexivity.
  - vm_compute. lia.
  - apply BindingDemo.proof_head. vm_compute. eauto.
  - vm_compute. reflexivity.
  - reflexivity.
  - apply BindingDemo.elem_check. vm_compute. reflexivity.
  - vm_compute. repeat constructor.
  - apply BindingDemo.sub_proof_indices. vm_compute. reflexivity.
Defined.
