(* ===== verification/TreeCodec.v ===== *)
(** * Whole-tree and per-node encodings

    [crates/quil-tries/src/serialize.rs] (the local blob format and the
    per-node lazy storage format) and [crates/quil-tries/src/go_format.rs] (the
    wire format).  The two whole-tree formats share one grammar; they differ in
    the encoding of sizes and in the cap on a field's length, which
    [TreeFormat] abstracts. *)

From Stdlib Require Import Strings.Byte.
From S2P Require Import Prelude Bytes Nibble Node Tree TreeSpec TreeCorrect.

Definition TYPE_NIL : byte := x00.
Definition TYPE_LEAF : byte := x01.
Definition TYPE_BRANCH : byte := x02.

Definition MAX_TREE_PREFIX_LEN : Z := 256.
Definition MAX_LENGTH_PREFIXED_FIELD : Z := 16 * 1024 * 1024.
Definition MAX_DESERIALIZE_DEPTH : nat := 128.

(** ** Interfaces *)

(** The byte conversions of [num_bigint::BigInt] that the codecs call. *)
Class BigIntBytes := {
  to_signed_bytes_be : Z -> bytes;
  from_signed_bytes_be : bytes -> Z;
  to_magnitude_be : Z -> bytes;
  from_magnitude_be : bytes -> Z;
}.

(** Their documented behaviour: each reader inverts its writer, and no integer
    is written as an empty slice. *)
Class BigIntBytesLaws `{BigIntBytes} : Prop := {
  signed_round_trip : forall z, from_signed_bytes_be (to_signed_bytes_be z) = z;
  signed_nonempty : forall z, to_signed_bytes_be z <> [];
  magnitude_round_trip : forall z, 0 < z -> from_magnitude_be (to_magnitude_be z) = z;
  magnitude_nonempty : forall z, 0 < z -> to_magnitude_be z <> [];
}.

(** What distinguishes the two whole-tree formats. *)
Class TreeFormat := {
  max_field : Z;
  size_to_bytes : Z -> outcome bytes;
  size_from_bytes : bytes -> Z;
}.

(** ** Readers and writers of fields *)

(** [write_length_prefixed] / [write_len_prefixed] *)
Definition write_length_prefixed (data : bytes) : bytes :=
  be_bytes 8 (Z.of_nat (length data)) ++ data.

Definition read_u32 : parser Z := b ← read_n 4; mret (be_Z b).
Definition read_i32 : parser Z := b ← read_n 4; mret (be_i32 b).
Definition read_u64 : parser Z := b ← read_n 8; mret (be_Z b).
Definition read_i64 : parser Z := b ← read_n 8; mret (be_i64 b).

Section fields.
Context `{TreeFormat}.

(** [read_length_prefixed] / [read_len_prefixed]: a capped length, then the bytes. *)
Definition read_length_prefixed : parser bytes :=
  len ← read_u64;
  if max_field <? len then fail_with Serialization else read_n (Z.to_nat len).

(** The size field: an empty slice reads as zero. *)
Definition read_size : parser Z :=
  b ← read_length_prefixed;
  mret (match b with [] => 0 | _ => size_from_bytes b end).
Definition write_size (z : Z) : outcome bytes :=
  fmap (M := outcome) write_length_prefixed (size_to_bytes z).

(** The prefix of a branch: a capped count, then [i32]s. *)
Definition read_prefix : parser (list Z) :=
  prefix_len ← read_u32;
  if MAX_TREE_PREFIX_LEN <? prefix_len then fail_with Serialization
  else read_times (Z.to_nat prefix_len) read_i32.
Definition write_prefix (prefix : list Z) : bytes :=
  be_bytes 4 (Z.of_nat (length prefix)) ++ concat (be_bytes 4 <$> prefix).

Definition read_leaf : parser LeafNode :=
  key ← read_length_prefixed;
  value ← read_length_prefixed;
  hash_target ← read_length_prefixed;
  commitment ← read_length_prefixed;
  size ← read_size;
  mret (mkLeafNode key value hash_target commitment size).
Definition write_leaf (l : LeafNode) : outcome bytes :=
  size ← write_size (lf_size l);
  Ok (write_length_prefixed (lf_key l) ++ write_length_prefixed (lf_value l)
      ++ write_length_prefixed (lf_hash_target l)
      ++ write_length_prefixed (lf_commitment l) ++ size).

(** The fields after the children: commitment, size, leaf count, longest branch. *)
Definition read_branch_tail : parser (bytes * Z * Z * Z) :=
  commitment ← read_length_prefixed;
  size ← read_size;
  leaf_count ← read_i64;
  longest_branch ← read_i32;
  mret (commitment, size, wrap_u64 leaf_count, wrap_u64 longest_branch).
Definition write_branch_tail (b : BranchNode Node) : outcome bytes :=
  size ← write_size (br_size b);
  Ok (write_length_prefixed (br_commitment b) ++ size
      ++ be_bytes 8 (br_leaf_count b) ++ be_bytes 4 (br_longest_branch b)).
End fields.

(** ** Whole trees *)

(** The concatenated outputs of a writer over a list, or its first failure. *)
Section write_all.
Context {A : Type} (f : A -> outcome bytes).
Fixpoint write_all (l : list A) : outcome bytes :=
  match l with
  | [] => Ok []
  | x :: l' => b ← f x; bs ← write_all l'; Ok (b ++ bs)
  end.
End write_all.

Section trees.
Context `{TreeFormat}.

(** [serialize_node] / [write_node] on a present node. *)
Fixpoint write_some (n : Node) : outcome bytes :=
  match n with
  | Leaf l => fmap (M := outcome) (cons TYPE_LEAF) (write_leaf l)
  | Branch b =>
      children ← write_all (fun c => match c with
                                     | None => Ok [TYPE_NIL]
                                     | Some c => write_some c
                                     end) (br_children b);
      rest ← write_branch_tail b;
      Ok (TYPE_BRANCH :: write_prefix (br_prefix b) ++ children ++ rest)
  end.
Definition write_node (o : option Node) : outcome bytes :=
  match o with None => Ok [TYPE_NIL] | Some n => write_some n end.

(** [deserialize_node_at_depth] / [read_node]; [levels] is the number of
    nesting levels still allowed, [MAX_DESERIALIZE_DEPTH + 1 - depth]. *)
Fixpoint read_node (levels : nat) : parser (option Node) :=
  match levels with
  | O => fail_with Serialization
  | S levels' =>
      type_byte ← read_n 1;
      match type_byte with
      | [x00] => mret None
      | [x01] => l ← read_leaf; mret (Some (Leaf l))
      | [x02] =>
          prefix ← read_prefix;
          children ← read_times BRANCH_NODES (read_node levels');
          '(commitment, size, leaf_count, longest_branch) ← read_branch_tail;
          mret (Some (Branch (mkBranchNode prefix children commitment size leaf_count
                                longest_branch [] true)))
      | _ => fail_with Serialization
      end
  end.

Definition read_tree (data : bytes) : outcome (option Node) :=
  fmap (M := outcome) fst (read_node (S MAX_DESERIALIZE_DEPTH) data).
End trees.

Section formats.
Context `{BigIntBytes}.

(** [serialize.rs]: two's-complement sizes, 16 MiB fields. *)
Definition native_format : TreeFormat :=
  {| max_field := MAX_LENGTH_PREFIXED_FIELD;
     size_to_bytes z := Ok (to_signed_bytes_be z);
     size_from_bytes := from_signed_bytes_be |}.

(** [go_format.rs]: magnitudes ([write_bigint], [read_bigint]), 1 GiB fields. *)
Definition write_bigint (z : Z) : outcome bytes :=
  if z <? 0 then Err Serialization
  else Ok (if z =? 0 then [] else to_magnitude_be z).
Definition go_format : TreeFormat :=
  {| max_field := 1024 * 1024 * 1024;
     size_to_bytes := write_bigint;
     size_from_bytes := from_magnitude_be |}.

(** [serialize_tree], [deserialize_tree] *)
Definition serialize_tree (root : option Node) : outcome bytes := write_node (H := native_format) root.
Definition deserialize_tree (data : bytes) : outcome (option Node) := read_tree (H := native_format) data.

(** [serialize_go_tree], [deserialize_go_tree] *)
Definition serialize_go_tree (root : option Node) : outcome bytes := write_node (H := go_format) root.
Definition deserialize_go_tree (data : bytes) : outcome (option Node) := read_tree (H := go_format) data.

(** ** Single nodes *)

(** [serialize_node_solo]: no children, no leaf value. *)
Definition serialize_node_solo (n : Node) : outcome bytes :=
  match n with
  | Leaf l =>
      fmap (M := outcome) (cons TYPE_LEAF)
        (write_leaf (H := native_format)
           (mkLeafNode (lf_key l) [] (lf_hash_target l) (lf_commitment l) (lf_size l)))
  | Branch b =>
      rest ← write_branch_tail (H := native_format) b;
      Ok (TYPE_BRANCH :: write_prefix (br_prefix b) ++ rest)
  end.

(** [deserialize_node_solo] *)
Definition deserialize_node_solo (data : bytes) : outcome Node :=
  '(type_byte, data) ← read_n 1 data;
  match type_byte with
  | [x01] => '(l, _) ← read_leaf (H := native_format) data; Ok (Leaf l)
  | [x02] =>
      '(prefix, data) ← read_prefix data;
      '(tail, _) ← read_branch_tail (H := native_format) data;
      let '(commitment, size, leaf_count, longest_branch) := tail in
      Ok (Branch (mkBranchNode prefix (replicate BRANCH_NODES None) commitment size leaf_count
                    longest_branch [] false))
  | _ => Err Serialization
  end.
End formats.

(** ** Round trips *)

Lemma reads_u32 z : 0 <= z < 2 ^ 32 -> reads read_u32 (be_bytes 4 z) z.
Proof.
  intros Hz. rewrite <- (be_Z_be_bytes_small 4 z) at 2 by (simpl; lia).
  apply (reads_map _ be_Z), reads_read_n', length_be_bytes.
Qed.

Lemma reads_u64 z : 0 <= z < 2 ^ 64 -> reads read_u64 (be_bytes 8 z) z.
Proof.
  intros Hz. rewrite <- (be_Z_be_bytes_small 8 z) at 2 by (simpl; lia).
  apply (reads_map _ be_Z), reads_read_n', length_be_bytes.
Qed.

Lemma reads_i32 z : in_i32 z -> reads read_i32 (be_bytes 4 z) z.
Proof.
  intros Hz. rewrite <- (be_i32_be_bytes z Hz) at 2.
  apply (reads_map _ be_i32), reads_read_n', length_be_bytes.
Qed.

(** An unsigned 64-bit count written as [as i64] and read back as [as usize]. *)
Lemma wrap_u64_i64 z : wrap_u64 (wrap_i64 z) = wrap_u64 z.
Proof.
  unfold wrap_u64, wrap_i64. rewrite Zminus_mod_idemp_l. f_equal. lia.
Qed.

Lemma count_round_trip z : in_u64 z -> wrap_u64 (be_i64 (be_bytes 8 z)) = z.
Proof.
  intros Hz. unfold be_i64. rewrite wrap_u64_i64, be_Z_be_bytes. change (8 * Z.of_nat 8) with 64.
  unfold wrap_u64. rewrite Z.mod_mod by lia. by apply wrap_u64_id.
Qed.

Lemma reads_i64 z : reads read_i64 (be_bytes 8 z) (be_i64 (be_bytes 8 z)).
Proof. apply (reads_map _ be_i64), reads_read_n', length_be_bytes. Qed.

Lemma reads_prefix prefix :
  Z.of_nat (length prefix) <= MAX_TREE_PREFIX_LEN -> Forall in_i32 prefix ->
  reads read_prefix (write_prefix prefix) prefix.
Proof.
  unfold MAX_TREE_PREFIX_LEN. intros Hl Hp. eapply reads_bind; [apply reads_u32; lia|].
  unfold MAX_TREE_PREFIX_LEN. rewrite (proj2 (Z.ltb_ge _ _)) by lia. rewrite Nat2Z.id.
  rewrite <- (list_fmap_id prefix) at 3. apply reads_times. intros z Hz. apply reads_i32.
  by eapply Forall_forall in Hp.
Qed.

Lemma write_all_reads {A B} (f : A -> outcome bytes) (p : parser B) (g : A -> B) l :
  (forall x, x ∈ l -> exists w, f x = Ok w /\ reads p w (g x)) ->
  exists w, write_all f l = Ok w /\ reads (read_times (length l) p) w (g <$> l).
Proof.
  induction l as [|x l IH]; intros Hl; [exists []; split; [done|apply reads_ret]|].
  destruct (Hl x (list_elem_of_here _ _)) as (w & Hw & Hr).
  destruct IH as (ws & Hws & Hrs); [intros y Hy; apply Hl; by apply list_elem_of_further|].
  exists (w ++ ws). cbn [write_all]. rewrite Hw. cbn [mbind outcome_bind]. rewrite Hws. split; [done|].
  cbn [length read_times]. eapply reads_bind; [exact Hr|].
  apply (reads_map _ (cons (g x))). exact Hrs.
Qed.

(** A node as it comes back: the lazy-loading bookkeeping is reset. *)
Fixpoint reload (n : Node) : Node :=
  match n with
  | Leaf l => Leaf l
  | Branch b =>
      Branch (mkBranchNode (br_prefix b)
        (map (fun c => match c with Some c => Some (reload c) | None => None end) (br_children b))
        (br_commitment b) (br_size b) (br_leaf_count b) (br_longest_branch b) [] true)
  end.

Section round_trip.
Context `{TreeFormat}.
Hypothesis max_field_u64 : 0 <= max_field < 2 ^ 64.

Definition field_fits (b : bytes) : Prop := Z.of_nat (length b) <= max_field.

(** A size that the format writes and reads back. *)
Definition size_fits (z : Z) : Prop :=
  exists b, size_to_bytes z = Ok b /\ field_fits b
    /\ match b with [] => 0 | _ => size_from_bytes b end = z.

Definition leaf_fits (l : LeafNode) : Prop :=
  field_fits (lf_key l) /\ field_fits (lf_value l) /\ field_fits (lf_hash_target l)
  /\ field_fits (lf_commitment l) /\ size_fits (lf_size l).

(** What the format demands of a branch's own fields. *)
Definition branch_fits (b : BranchNode Node) : Prop :=
  length (br_children b) = BRANCH_NODES
  /\ Z.of_nat (length (br_prefix b)) <= MAX_TREE_PREFIX_LEN /\ Forall in_i32 (br_prefix b)
  /\ field_fits (br_commitment b) /\ size_fits (br_size b)
  /\ in_u64 (br_leaf_count b) /\ 0 <= br_longest_branch b < 2 ^ 31.

(** Nodes that fit, nested at most [levels] deep (empty slots take a level too). *)
Inductive encodable : nat -> Node -> Prop :=
| encodable_leaf levels l : leaf_fits l -> encodable (S levels) (Leaf l)
| encodable_branch levels b :
    branch_fits b -> (0 < levels)%nat ->
    (forall i c, br_children b !! i = Some (Some c) -> encodable levels c) ->
    encodable (S levels) (Branch b).

Lemma reads_length_prefixed b :
  field_fits b -> reads read_length_prefixed (write_length_prefixed b) b.
Proof.
  unfold field_fits. intros Hb. eapply reads_bind; [apply reads_u64; lia|].
  rewrite (proj2 (Z.ltb_ge _ _)) by lia. rewrite Nat2Z.id. apply reads_read_n.
Qed.

Lemma reads_size z : size_fits z -> exists w, write_size z = Ok w /\ reads read_size w z.
Proof.
  intros (b & Hb & Hf & Hz). exists (write_length_prefixed b). unfold write_size. rewrite Hb.
  split; [done|]. rewrite <- Hz.
  apply (reads_map _ (fun b => match b with [] => 0 | _ => size_from_bytes b end)).
  by apply reads_length_prefixed.
Qed.

Lemma reads_leaf l : leaf_fits l -> exists w, write_leaf l = Ok w /\ reads read_leaf w l.
Proof.
  intros (Hk & Hv & Hh & Hc & Hs). destruct (reads_size _ Hs) as (w & Hw & Hr).
  unfold write_leaf. rewrite Hw. eexists. split; [done|].
  destruct l as [k v h c s]; cbn [lf_key lf_value lf_hash_target lf_commitment lf_size] in *. unfold read_leaf.
  do 4 (eapply reads_bind; [by apply reads_length_prefixed|]).
  by apply (reads_map _ (mkLeafNode _ _ _ _)).
Qed.

Lemma reads_branch_tail b :
  branch_fits b ->
  exists w, write_branch_tail b = Ok w
    /\ reads read_branch_tail w (br_commitment b, br_size b, br_leaf_count b, br_longest_branch b).
Proof.
  intros (_ & _ & _ & Hc & Hs & Hl & Hb). destruct (reads_size _ Hs) as (w & Hw & Hr).
  unfold write_branch_tail. rewrite Hw. eexists. split; [done|].
  eapply reads_bind; [by apply reads_length_prefixed|].
  eapply reads_bind; [exact Hr|].
  eapply reads_bind; [apply reads_i64|]. rewrite count_round_trip by done.
  rewrite <- (wrap_u64_id (br_longest_branch b)) at 2 by (unfold_ints; lia).
  apply (reads_map _ (fun x => (_, _, _, wrap_u64 x))), reads_i32. unfold_ints. lia.
Qed.

Lemma encodable_reads levels n :
  encodable levels n ->
  exists w, write_some n = Ok w /\ reads (read_node levels) w (Some (reload n)).
Proof.
  induction 1 as [levels l Hl|levels b Hb Hpos Hc IH].
  - destruct (reads_leaf l Hl) as (w & Hw & Hr). cbn [write_some]. rewrite Hw.
    eexists. split; [done|]. change (TYPE_LEAF :: w) with ([TYPE_LEAF] ++ w).
    cbn [read_node]. eapply reads_bind; [by apply reads_read_n'|]. cbv beta iota delta [TYPE_LEAF].
    by apply (reads_map _ (fun l => Some (Leaf l))).
  - destruct (reads_branch_tail b Hb) as (tl & Htl & Hrtl).
    destruct Hb as (Hlen & Hpl & Hpf & _).
    destruct (write_all_reads
      (fun c => match c with None => Ok [TYPE_NIL] | Some c => write_some c end)
      (read_node levels)
      (fun c => match c with Some c => Some (reload c) | None => None end)
      (br_children b)) as (ws & Hws & Hrs).
    { intros o Ho. apply list_elem_of_lookup in Ho as [i Hi]. destruct o as [c|]; [by eapply IH|].
      eexists. split; [done|]. destruct levels as [|levels]; [lia|]. cbn [read_node].
      rewrite <- (app_nil_r [TYPE_NIL]). eapply reads_bind; [by apply reads_read_n'|].
      apply reads_ret. }
    cbn [write_some]. rewrite Hws. cbn [mbind outcome_bind]. rewrite Htl.
    eexists. split; [done|]. cbn [mbind outcome_bind].
    rewrite Hlen in Hrs.
    match goal with |- reads _ (TYPE_BRANCH :: ?w) _ =>
      change (TYPE_BRANCH :: w) with ([TYPE_BRANCH] ++ w) end.
    cbn [read_node]. eapply reads_bind; [by apply reads_read_n'|]. cbv beta iota delta [TYPE_BRANCH].
    eapply reads_bind; [by apply reads_prefix|].
    eapply reads_bind; [exact Hrs|].
    rewrite <- (app_nil_r tl). eapply reads_bind; [exact Hrtl|]. apply reads_ret.
Qed.
End round_trip.

(** ** Trees over short keys stay within the caps *)

Section caps.
Context `{TreeFormat}.

(** The fields of every node fit the format (shape aside). *)
Inductive fields_fit : Node -> Prop :=
| fields_fit_leaf l : leaf_fits l -> fields_fit (Leaf l)
| fields_fit_branch b :
    field_fits (br_commitment b) -> size_fits (br_size b) ->
    in_u64 (br_leaf_count b) -> 0 <= br_longest_branch b < 2 ^ 31 ->
    (forall i c, br_children b !! i = Some (Some c) -> fields_fit c) ->
    fields_fit (Branch b).

Lemma encodable_mono k k' n : encodable k n -> (k <= k')%nat -> encodable k' n.
Proof.
  intros Hn. revert k'. induction Hn as [k l Hl|k b Hb Hpos Hc IH]; intros [|k'] Hk; try lia.
  - by constructor.
  - constructor; [done|lia|]. intros i c Hi. eapply IH; [done|lia].
Qed.

Definition path_digits (L : nat) : nat := ((8 * L + 5) / 6)%nat.

Lemma path_digits_le : (path_digits 96 <= MAX_DESERIALIZE_DEPTH)%nat.
Proof. vm_compute. lia. Qed.

Lemma path_digits_mono L L' : (L <= L')%nat -> (path_digits L <= path_digits L')%nat.
Proof. intros. apply Nat.Div0.div_le_mono. lia. Qed.

(** The keys of the tree have at most [MAX_KEY] bytes; the caps of the decoders
    admit the paths of keys of this width. *)
Definition MAX_KEY : nat := 96.
Definition keys_fit (n : Node) : Prop :=
  forall l, l ∈ collect_leaves n -> (length (lf_key l) <= MAX_KEY)%nat.

Lemma wf_encodable pre n :
  wf pre n -> fields_fit n -> keys_fit n -> encodable (S (path_digits MAX_KEY - length pre)) n.
Proof.
  intros Hwf. induction Hwf as [pre l Hl|pre b Hlen Hp Htwo Hc IH]; intros Hf Hk.
  - inversion Hf; subst. by constructor.
  - pose proof (wf_branch pre b Hlen Hp Htwo Hc) as Hwf.
    inversion Hf as [|? Hcom Hsz Hlc Hlb Hcf]; subst.
    assert (Hdepth : (length pre + length (br_prefix b) < path_digits MAX_KEY)%nat).
    { destruct (wf_nonempty _ _ Hwf) as [l Hl]. pose proof Hl as (i & c & Hi & Hlc')%collect_leaves_branch.
      destruct (wf_child_digit _ _ _ _ _ Hwf Hi Hlc') as [_ D].
      eapply Nat.lt_le_trans; [|apply path_digits_mono, (Hk _ Hl)]. apply dig_path_len. lia. }
    pose proof path_digits_le as Hmax. change 96%nat with MAX_KEY in Hmax.
    unfold MAX_DESERIALIZE_DEPTH in *.
    constructor; [|lia|].
    + split; [done|]. unfold MAX_TREE_PREFIX_LEN. split; [lia|]. split; [|done].
      eapply Forall_impl; [exact Hp|]. intros p Hpr. unfold_ints. simpl in Hpr. lia.
    + intros i c Hi. eapply encodable_mono.
      * apply (IH _ _ Hi); [eauto|]. intros l Hl. apply Hk, collect_leaves_branch. eauto.
      * rewrite !length_app. simpl. lia.
Qed.

Lemma tree_round_trip n :
  0 <= max_field < 2 ^ 64 -> wf [] n -> fields_fit n -> keys_fit n ->
  exists w, write_node (Some n) = Ok w
    /\ forall rest, read_tree (w ++ rest) = Ok (Some (reload n)).
Proof.
  intros Hmax Hwf Hf Hk.
  pose proof (wf_encodable [] n Hwf Hf Hk) as He.
  apply (encodable_mono _ (S MAX_DESERIALIZE_DEPTH)) in He.
  2: { pose proof path_digits_le. change 96%nat with MAX_KEY in *. simpl length. lia. }
  destruct (encodable_reads Hmax _ n He) as (w & Hw & Hr). exists w. split; [done|].
  intros rest. unfold read_tree. by rewrite Hr.
Qed.
End caps.

(** ** A concrete big integer encoding, for the examples *)

Module DemoBytes.
Definition width (z : Z) : nat := S (S (Z.to_nat (Z.log2 (Z.abs z)))).
Definition signed (b : bytes) : Z :=
let m := 2 ^ (8 * Z.of_nat (length b)) in (be_Z b + m / 2) mod m - m / 2.
Definition bigint_bytes : BigIntBytes :=
{| to_signed_bytes_be z := be_bytes (width z) z;
   from_signed_bytes_be := signed;
   to_magnitude_be z := be_bytes (width z) z;
   from_magnitude_be := be_Z |}.
End DemoBytes.

Lemma width_bound z : Z.abs z < 2 ^ (8 * Z.of_nat (DemoBytes.width z)) / 2.
Proof.
  unfold DemoBytes.width. set (k := Z.log2 (Z.abs z)).
  assert (Hk : 0 <= k) by apply Z.log2_nonneg.
  assert (Hz : Z.abs z < 2 ^ (k + 1)).
  { destruct (Z.eq_dec z 0) as [->|]; [apply Z.pow_pos_nonneg; lia|]. apply Z.log2_spec. lia. }
  eapply Z.lt_le_trans; [exact Hz|].
  replace (8 * Z.of_nat (S (S (Z.to_nat k)))) with (1 + (8 * k + 15)) by lia.
  rewrite (Z.pow_add_r 2 1) by lia. change (2 ^ 1) with 2. rewrite (Z.mul_comm 2), Z.div_mul by lia.
  apply Z.pow_le_mono_r; lia.
Qed.

Lemma demo_bytes_lawful : BigIntBytesLaws (H := DemoBytes.bigint_bytes).
Proof.
  assert (Hm : forall z, 2 ^ (8 * Z.of_nat (DemoBytes.width z))
                         = 2 * (2 ^ (8 * Z.of_nat (DemoBytes.width z)) / 2)).
  { intros z. replace (8 * Z.of_nat (DemoBytes.width z))
      with (1 + (8 * Z.of_nat (DemoBytes.width z) - 1)) by (unfold DemoBytes.width; lia).
    rewrite Z.pow_add_r by (unfold DemoBytes.width; lia). change (2 ^ 1) with 2.
    rewrite (Z.mul_comm 2) at 2. rewrite Z.div_mul; lia. }
  split; cbn [to_signed_bytes_be from_signed_bytes_be to_magnitude_be from_magnitude_be
    DemoBytes.bigint_bytes]; [|done| |done].
  - intros z. unfold DemoBytes.signed. rewrite length_be_bytes, be_Z_be_bytes.
    pose proof (width_bound z). specialize (Hm z).
    set (m := 2 ^ (8 * Z.of_nat (DemoBytes.width z))) in *.
    rewrite Z.add_mod_idemp_l, Z.mod_small; lia.
  - intros z Hz. apply be_Z_be_bytes_small. pose proof (width_bound z). specialize (Hm z). lia.
Qed.

(** ** Properties *)

Lemma native_format_max `{BigIntBytes} : 0 <= max_field (TreeFormat := native_format) < 2 ^ 64.
Proof. simpl. unfold MAX_LENGTH_PREFIXED_FIELD. lia. Qed.

Lemma go_format_max `{BigIntBytes} : 0 <= max_field (TreeFormat := go_format) < 2 ^ 64.
Proof. simpl. lia. Qed.

(** C6. The local blob format is lossless on trees over keys of up to 96 bytes whose
    fields fit it: every key, value, hash target and commitment has at most
    [MAX_LENGTH_PREFIXED_FIELD] (16 MiB) bytes, every size is one that its bytes give
    back, and leaf counts and depths are within [u64] and [i32].  Such a tree never
    exceeds the prefix and nesting caps, so it serializes, and deserializing the bytes
    (whatever follows them) returns the same tree, with the lazy-loading bookkeeping
    reset. *)
Theorem serialize_tree_round_trip : forall (B : BigIntBytes) (n : Node),
  wf [] n -> keys_fit n ->
  fields_fit (H := native_format) n ->
  exists w, serialize_tree (Some n) = Ok w
    /\ forall rest, deserialize_tree (w ++ rest) = Ok (Some (reload n)).
Proof.
  intros B n Hwf Hk Hf. exact (tree_round_trip (H := native_format) n native_format_max Hwf Hf Hk).
Qed.

Definition demo_leaf : Node := Leaf (mkLeafNode [x05] [x06] [] [] 300).

Lemma demo_leaf_wf : wf [] demo_leaf.
Proof. constructor. apply agrees_nil. Qed.

Lemma demo_leaf_native : fields_fit (H := @native_format DemoBytes.bigint_bytes) demo_leaf.
Proof.
  constructor. do 4 (split; [vm_compute; discriminate|]).
  exists (be_bytes (DemoBytes.width 300) 300). split; [done|]. split; vm_compute; [discriminate|done].
Qed.

Lemma demo_leaf_go : fields_fit (H := @go_format DemoBytes.bigint_bytes) demo_leaf.
Proof.
  constructor. do 4 (split; [vm_compute; discriminate|]).
  exists (be_bytes (DemoBytes.width 300) 300). split; [done|]. split; vm_compute; [discriminate|done].
Qed.

(** A branch with two leaves, one of them with a hash target. *)
Definition demo_branch : Node :=
  match root (apply_ops (H := Demo.pad_sha512) demo_ops_direct) with Some n => n | None => demo_leaf end.

Lemma demo_branch_wf : wf [] demo_branch.
Proof.
  assert (Hok : tree_ok (fixed_width 2) (apply_ops (H := Demo.pad_sha512) demo_ops_direct)).
  { apply (apply_ops_refines (H := Demo.pad_sha512) (K := fixed_width 2) demo_ops_direct). repeat constructor; discriminate. }
  unfold demo_branch. destruct (root (apply_ops _)) as [n|] eqn:E; [exact (tree_ok_root _ _ _ Hok E)|exact demo_leaf_wf].
Qed.

Ltac fits_demo :=
  match goal with
  | |- fields_fit (Leaf _) => constructor; do 4 (split; [vm_compute; discriminate|]); fits_demo
  | |- size_fits ?z => exists (be_bytes (DemoBytes.width z) z); split; [done|]; split; vm_compute; [discriminate|done]
  end.
Lemma demo_branch_native : fields_fit (H := @native_format DemoBytes.bigint_bytes) demo_branch.
Proof.
  assert (E : demo_branch = ltac:(let n := eval vm_compute in demo_branch in exact n)) by (vm_compute; reflexivity).
  rewrite E. clear E. apply fields_fit_branch; [vm_compute; discriminate|fits_demo|vm_compute; split; discriminate|vm_compute; split; [discriminate|reflexivity]|].
  cbn [br_children]. intros i c Hi. do 64 (destruct i as [|i]; [first [discriminate Hi|injection Hi as <-; fits_demo]|]). discriminate Hi.
Qed.

Lemma serialize_tree_round_trip_witness :
  exists w, serialize_tree (H := DemoBytes.bigint_bytes) (Some demo_branch) = Ok w
    /\ forall rest, deserialize_tree (H := DemoBytes.bigint_bytes) (w ++ rest) = Ok (Some (reload demo_branch)).
Proof.
  apply (serialize_tree_round_trip DemoBytes.bigint_bytes demo_branch).
  - exact demo_branch_wf.
  - intros l Hl. assert (Hs : Forall (fun l => length (lf_key l) = 2%nat) (collect_leaves demo_branch)) by (vm_compute; repeat constructor).
    rewrite Forall_forall in Hs. rewrite (Hs l Hl). unfold MAX_KEY. lia.
  - exact demo_branch_native.
Defined.

(** The wire format (the Go node's) is lossless on the same trees: over keys
    of up to 96 bytes a tree whose fields fit serializes, and deserializing the
    bytes, whatever follows them, returns the same tree. *)
Theorem serialize_go_tree_round_trip : forall (B : BigIntBytes) (n : Node),
  wf [] n -> keys_fit n ->
  fields_fit (H := go_format) n ->
  exists w, serialize_go_tree (Some n) = Ok w
    /\ forall rest, deserialize_go_tree (w ++ rest) = Ok (Some (reload n)).
Proof.
  intros B n Hwf Hk Hf. exact (tree_round_trip (H := go_format) n go_format_max Hwf Hf Hk).
Qed.

Lemma serialize_go_tree_round_trip_witness :
  exists w, serialize_go_tree (H := DemoBytes.bigint_bytes) (Some demo_leaf) = Ok w
    /\ forall rest, deserialize_go_tree (H := DemoBytes.bigint_bytes) (w ++ rest) = Ok (Some demo_leaf).
Proof.
  apply (serialize_go_tree_round_trip DemoBytes.bigint_bytes demo_leaf).
  - exact demo_leaf_wf.
  - intros l ->%list_elem_of_singleton. simpl. unfold MAX_KEY. lia.
  - exact demo_leaf_go.
Defined.

(** Which sizes each format carries, given the documented behaviour of the
    big integer conversions: the local format every integer whose encoding
    fits a field; the wire format every such non-negative integer, and a
    negative size is refused with a serialization error. *)
Theorem size_encodings : forall (B : BigIntBytes) (Laws : BigIntBytesLaws) (z : Z),
  (Z.of_nat (length (to_signed_bytes_be z)) <= MAX_LENGTH_PREFIXED_FIELD ->
   size_fits (H := native_format) z)
  /\ (0 <= z -> Z.of_nat (length (to_magnitude_be z)) <= 2 ^ 30 -> size_fits (H := go_format) z)
  /\ (z < 0 -> write_bigint z = Err Serialization).
Proof.
  intros B Laws z. split; [|split].
  - intros Hl. exists (to_signed_bytes_be z). split; [done|]. split; [done|].
    pose proof (signed_nonempty z). pose proof (signed_round_trip z).
    destruct (to_signed_bytes_be z) eqn:E; [done|]. simpl. by rewrite <- E, E.
  - intros Hz Hl. simpl. unfold size_fits, field_fits, size_to_bytes, size_from_bytes, go_format, write_bigint, max_field.
    rewrite (proj2 (Z.ltb_ge z 0)) by done. destruct (Z.eqb_spec z 0) as [->|Hne].
    + exists []. done.
    + exists (to_magnitude_be z). split; [done|]. split; [done|].
      pose proof (magnitude_nonempty z ltac:(lia)). pose proof (magnitude_round_trip z ltac:(lia)) as R.
      destruct (to_magnitude_be z); done.
  - intros Hz. unfold write_bigint. by rewrite (proj2 (Z.ltb_lt z 0)).
Qed.

Lemma size_encodings_witness :
  size_fits (H := @native_format DemoBytes.bigint_bytes) (-5)
  /\ size_fits (H := @go_format DemoBytes.bigint_bytes) 5
  /\ write_bigint (H := DemoBytes.bigint_bytes) (-5) = Err Serialization.
Proof.
  split; [|split].
  - apply (size_encodings DemoBytes.bigint_bytes demo_bytes_lawful (-5)). vm_compute. discriminate.
  - apply (size_encodings DemoBytes.bigint_bytes demo_bytes_lawful 5); vm_compute; discriminate.
  - apply (size_encodings DemoBytes.bigint_bytes demo_bytes_lawful (-5)). reflexivity.
Defined.

(** A node as the per-node store returns it. *)
Definition solo (n : Node) : Node :=
  match n with
  | Leaf l => Leaf (mkLeafNode (lf_key l) [] (lf_hash_target l) (lf_commitment l) (lf_size l))
  | Branch b =>
      Branch (mkBranchNode (br_prefix b) (replicate BRANCH_NODES None) (br_commitment b)
        (br_size b) (br_leaf_count b) (br_longest_branch b) [] false)
  end.

(** The per-node storage format keeps everything but the leaf value and the
    children: reading a stored node back gives the node with an empty value or
    with empty slots marked not fully loaded. *)
Theorem solo_round_trip : forall (B : BigIntBytes) (n : Node),
  match n with
  | Leaf l => leaf_fits (H := native_format) l
  | Branch b => branch_fits (H := native_format) b
  end ->
  exists w, serialize_node_solo n = Ok w
    /\ forall rest, deserialize_node_solo (w ++ rest) = Ok (solo n).
Proof.
  intros B n Hf.
  pose proof native_format_max as Hmax.
  destruct n as [l|b]; cbn [serialize_node_solo solo].
  - destruct Hf as (Hk & Hv & Hh & Hc & Hs).
    destruct (reads_leaf (H := native_format) Hmax
      (mkLeafNode (lf_key l) [] (lf_hash_target l) (lf_commitment l) (lf_size l)))
      as (w & Hw & Hr); [done|].
    rewrite Hw. eexists. split; [done|]. intros rest.
    change ((TYPE_LEAF :: w) ++ rest) with ([TYPE_LEAF] ++ w ++ rest). unfold deserialize_node_solo.
    rewrite (reads_read_n [TYPE_LEAF]). cbn [mbind outcome_bind]. cbv beta iota delta [TYPE_LEAF].
    by rewrite Hr.
  - destruct (reads_branch_tail (H := native_format) Hmax b Hf) as (w & Hw & Hr).
    destruct Hf as (_ & Hpl & Hpf & _).
    rewrite Hw. eexists. split; [done|]. intros rest. cbn [mbind outcome_bind].
    change ((TYPE_BRANCH :: write_prefix (br_prefix b) ++ w) ++ rest)
      with ([TYPE_BRANCH] ++ (write_prefix (br_prefix b) ++ w) ++ rest). rewrite <- app_assoc.
    unfold deserialize_node_solo. rewrite (reads_read_n [TYPE_BRANCH]). cbn [mbind outcome_bind].
    cbv beta iota delta [TYPE_BRANCH]. rewrite (reads_prefix _ Hpl Hpf). cbn [mbind outcome_bind].
    by rewrite Hr.
Qed.

Lemma solo_round_trip_witness :
  exists w, serialize_node_solo (H := DemoBytes.bigint_bytes) demo_leaf = Ok w
    /\ forall rest, deserialize_node_solo (H := DemoBytes.bigint_bytes) (w ++ rest) = Ok (solo demo_leaf).
Proof.
  apply (solo_round_trip DemoBytes.bigint_bytes demo_leaf).
  pose proof demo_leaf_native as Hf. inversion Hf as [l Hl|]. exact Hl.
Defined.

(** A blob from an untrusted peer can decode into a tree that panics the
    next insert: a branch whose prefix holds 100 (not a 6-bit nibble) is
    accepted by both decoders, and an insert that leaves the prefix there
    indexes slot 100 of 64. *)
Theorem decoded_prefix_panics_insert : forall (B : BigIntBytes) (Sha : Sha512),
  let blob := TYPE_BRANCH :: write_prefix [100] ++ replicate 64 TYPE_NIL
                ++ replicate 16 x00 ++ replicate 12 x00 in
  exists n, deserialize_tree blob = Ok (Some n) /\ deserialize_go_tree blob = Ok (Some n)
    /\ fst (insert (mkTree (Some n)) [x00] [x01] [] 1) = Panic.
Proof. intros B Sha. eexists. split; [vm_compute; reflexivity|]. split; vm_compute; reflexivity. Qed.

(** The 64-byte addresses that key the hypergraph trees have paths of 86
    nibbles, more than the 64 that the comments on the decoders' caps state. *)
Theorem address_path_length : forall key : bytes,
  length key = 64%nat -> length (get_full_path key) = 86%nat.
Proof.
  intros key Hk. rewrite get_full_path_digits, length_fmap, length_seq. unfold path_len.
  by rewrite Hk.
Qed.

Lemma address_path_length_witness : length (get_full_path (replicate 64 x11)) = 86%nat.
Proof. apply address_path_length. reflexivity. Defined.
