(* ===== verification/VertexCommit.v ===== *)
(** * Vertex commitments and shard leaves

    [crates/quil-tries/src/vertex_commit.rs]: the 32-byte commitment of a
    vertex's serialized field tree and the 40-byte shard-leaf encoding. *)

From Stdlib Require Import Strings.Byte.
From stdpp Require Import gmap.
From S2P Require Import Prelude Bytes Nibble Node Tree TreeSpec TreeCorrect TreeCodec.

Definition VERTEX_LEAF_LEN : nat := 32 + 8.

(** The [sha2] crate's SHA-256. *)
Class Sha256 := {
  sha256 : bytes -> bytes;
  sha256_length : forall b, length (sha256 b) = 32%nat;
}.

Section vertex.
Context `{Sha512} `{Sha256} `{BigIntBytes}.

(** [ShaInclusionProver]: commits with SHA-256, proves and verifies nothing. *)
Definition ShaInclusionProver : InclusionProver :=
  {| commit_raw data _ := Some (sha256 data);
     prove_multiple_raw _ _ _ _ := None;
     verify_multiple _ _ _ _ _ _ := false |}.

(** [vertex_commitment] *)
Definition vertex_commitment (blob : bytes) : bytes :=
  match blob with
  | [] => replicate 32 x00
  | _ =>
      match deserialize_go_tree blob with
      | Ok (Some root) => sha256 (fst (commit (H0 := ShaInclusionProver) (mkTree (Some root))))
      | _ => sha256 blob
      end
  end.

(** [vertex_leaf_value] *)
Definition vertex_leaf_value (blob : bytes) : bytes :=
  vertex_commitment blob ++ be_bytes 8 (Z.of_nat (length blob)).

(** [sized_tombstone_leaf_value]: bytes 32..40 of the empty leaf replaced. *)
Definition sized_tombstone_leaf_value (size : Z) : bytes :=
  let v := vertex_leaf_value [] in
  take 32 v ++ be_bytes 8 size ++ drop VERTEX_LEAF_LEN v.
End vertex.

(** [split_vertex_leaf] *)
Definition split_vertex_leaf (value : bytes) : option (bytes * Z) :=
  if (length value <? 32)%nat then None
  else
    Some (take 32 value,
          if (VERTEX_LEAF_LEN <=? length value)%nat then be_Z (take 8 (drop 32 value)) else 0).

(** ** Lemmas *)

Lemma length_vertex_commitment `{Sha512} `{Sha256} `{BigIntBytes} blob :
  length (vertex_commitment blob) = 32%nat.
Proof.
  unfold vertex_commitment. destruct blob as [|x blob]; [done|].
  destruct (deserialize_go_tree _) as [[n|]| |]; apply sha256_length.
Qed.

Lemma split_leaf_value commitment size :
  length commitment = 32%nat -> in_u64 size ->
  split_vertex_leaf (commitment ++ be_bytes 8 size) = Some (commitment, size).
Proof.
  intros Hc Hs. unfold split_vertex_leaf. rewrite length_app, length_be_bytes, Hc.
  rewrite (proj2 (Nat.ltb_ge _ _)) by lia. rewrite (proj2 (Nat.leb_le _ _)) by (unfold VERTEX_LEAF_LEN; lia).
  rewrite take_app_length' by done. rewrite drop_app_length' by done.
  rewrite firstn_all2 by (rewrite length_be_bytes; lia).
  by rewrite be_Z_be_bytes_small by (unfold_ints; simpl; lia).
Qed.

Lemma erase_reload n : erase (reload n) = erase n.
Proof.
  induction n as [l|b IH] using node_ind_nested; [done|]. cbn. do 2 f_equal. rewrite map_map.
  apply list_eq_same_length with (length (br_children b)); [by rewrite length_map..|].
  intros i x y _ Hx Hy. rewrite list_lookup_fmap in Hx, Hy.
  destruct (br_children b !! i) as [[c|]|] eqn:Ec; [| |done]; simpl in Hx, Hy;
    injection Hx as <-; injection Hy as <-; [f_equal; by apply (IH i)|done].
Qed.

(** ** Properties *)

(** The vertex commitment identifies the contents of the field tree and
    nothing else: two histories of field writes that leave the same fields
    serialize to blobs with the same vertex commitment, whatever metadata the
    blobs carry. *)
Theorem vertex_commitment_history_independent :
  forall (S5 : Sha512) (S2 : Sha256) (B : BigIntBytes) (K : bytes -> Prop) (HK : KeySpace K)
    (ops1 ops2 : list tree_op) (n1 n2 : Node),
  (forall k, K k -> (length k <= MAX_KEY)%nat) -> Forall (fun o => K (op_key o)) (ops1 ++ ops2) ->
  spec_ops ops1 = spec_ops ops2 ->
  root (apply_ops ops1) = Some n1 -> root (apply_ops ops2) = Some n2 ->
  fields_fit (H := go_format) n1 -> fields_fit (H := go_format) n2 ->
  exists w1 w2, serialize_go_tree (Some n1) = Ok w1 /\ serialize_go_tree (Some n2) = Ok w2
    /\ vertex_commitment w1 = vertex_commitment w2.
Proof.
  intros S5 S2 B K HK ops1 ops2 n1 n2 HL [H1 H2]%Forall_app E R1 R2 F1 F2.
  destruct (apply_ops_refines ops1) as [Ok1 C1]; [done|].
  destruct (apply_ops_refines ops2) as [Ok2 C2]; [done|].
  pose proof (contents_canonical K _ _ Ok1 Ok2 ltac:(by rewrite C1, C2)) as Ec.
  rewrite R1, R2 in Ec. simpl in Ec. injection Ec as Ec.
  unfold tree_ok in Ok1, Ok2. rewrite R1 in Ok1. rewrite R2 in Ok2.
  destruct Ok1 as [W1 K1], Ok2 as [W2 K2].
  destruct (tree_round_trip (H := go_format) n1 go_format_max W1 F1 (fun l Hl => HL _ (K1 l Hl))) as (w1 & E1 & D1).
  destruct (tree_round_trip (H := go_format) n2 go_format_max W2 F2 (fun l Hl => HL _ (K2 l Hl))) as (w2 & E2 & D2).
  exists w1, w2. split; [done|]. split; [done|].
  assert (Hc : forall w n, (forall rest, read_tree (H := go_format) (w ++ rest) = Ok (Some n)) ->
            vertex_commitment w
            = sha256 (fst (commit (H0 := ShaInclusionProver) (mkTree (Some n))))).
  { intros w n Hd. specialize (Hd []). rewrite app_nil_r in Hd. unfold vertex_commitment.
    destruct w; [done|]. unfold deserialize_go_tree. by rewrite Hd. }
  rewrite (Hc w1 (reload n1)), (Hc w2 (reload n2)) by done. f_equal. apply commit_erase. simpl.
  by rewrite !erase_reload, Ec.
Qed.

Definition demo_sha256 : Sha256 := {| sha256 := resize 32 x00; sha256_length b := length_resize b 32 x00 |}.

Lemma vertex_commitment_history_independent_witness :
  let ops1 := [OpInsert [x05] [x07] [] 300; OpInsert [x05] [x06] [] 300] in
  let ops2 := [OpInsert [x05] [x06] [] 300] in
  exists n1 n2, root (apply_ops (H := Demo.pad_sha512) ops1) = Some n1
    /\ root (apply_ops (H := Demo.pad_sha512) ops2) = Some n2
    /\ exists w1 w2, serialize_go_tree (H := DemoBytes.bigint_bytes) (Some n1) = Ok w1
         /\ serialize_go_tree (H := DemoBytes.bigint_bytes) (Some n2) = Ok w2
         /\ vertex_commitment (H := Demo.pad_sha512) (H0 := demo_sha256) (H1 := DemoBytes.bigint_bytes) w1
            = vertex_commitment (H := Demo.pad_sha512) (H0 := demo_sha256) (H1 := DemoBytes.bigint_bytes) w2.
Proof.
  intros ops1 ops2. do 2 eexists. split; [reflexivity|]. split; [reflexivity|].
  apply (vertex_commitment_history_independent Demo.pad_sha512 demo_sha256 DemoBytes.bigint_bytes
           (fixed_width 1) _ ops1 ops2).
  - intros k [_ ->]. unfold MAX_KEY. lia.
  - repeat constructor; discriminate.
  - unfold spec_ops, ops1, ops2. simpl. by rewrite insert_insert_eq.
  - reflexivity.
  - reflexivity.
  - constructor. do 4 (split; [vm_compute; discriminate|]).
    exists (be_bytes (DemoBytes.width 300) 300). split; [reflexivity|].
    split; vm_compute; [discriminate|reflexivity].
  - constructor. do 4 (split; [vm_compute; discriminate|]).
    exists (be_bytes (DemoBytes.width 300) 300). split; [reflexivity|].
    split; vm_compute; [discriminate|reflexivity].
Defined.

(** The shard leaf splits back into the vertex commitment and the blob's
    byte length, and a sized tombstone into the empty commitment (which the
    empty blob alone has by definition) and the recorded size. *)
Theorem vertex_leaf_splits :
  forall (S5 : Sha512) (S2 : Sha256) (B : BigIntBytes) (blob : bytes) (size : Z),
  Z.of_nat (length blob) < 2 ^ 64 -> in_u64 size ->
  split_vertex_leaf (vertex_leaf_value blob)
    = Some (vertex_commitment blob, Z.of_nat (length blob))
  /\ split_vertex_leaf (sized_tombstone_leaf_value size) = Some (vertex_commitment [], size)
  /\ length (vertex_leaf_value blob) = VERTEX_LEAF_LEN
  /\ length (sized_tombstone_leaf_value size) = VERTEX_LEAF_LEN.
Proof.
  intros S5 S2 B blob size Hb Hs. unfold vertex_leaf_value.
  assert (Ht : sized_tombstone_leaf_value size = vertex_commitment [] ++ be_bytes 8 size).
  { unfold sized_tombstone_leaf_value, vertex_leaf_value.
    rewrite take_app_length' by done. by rewrite drop_ge, app_nil_r. }
  rewrite Ht. split; [|split; [|split]].
  - apply split_leaf_value; [apply length_vertex_commitment|]. unfold_ints. lia.
  - apply split_leaf_value; [apply length_vertex_commitment|done].
  - by rewrite length_app, length_be_bytes, length_vertex_commitment.
  - by rewrite length_app, length_be_bytes, length_vertex_commitment.
Qed.

Lemma vertex_leaf_splits_witness :
  split_vertex_leaf (sized_tombstone_leaf_value (H := Demo.pad_sha512) (H0 := demo_sha256)
                       (H1 := DemoBytes.bigint_bytes) 77)
  = Some (replicate 32 x00, 77).
Proof.
  apply (vertex_leaf_splits Demo.pad_sha512 demo_sha256 DemoBytes.bigint_bytes [] 77).
  - reflexivity.
  - split; vm_compute; discriminate.
Defined.
