(* ===== verification/GlobalSchema.v ===== *)
(** * The schema of global vertices

    [crates/quil-execution/src/global_schema.rs]: the classes of the GLOBAL
    vertices and their fields, the key of a field in a vertex's tree, and
    reading and writing a field by name.  A field key is one byte (the order in
    its top six bits); the type hash sits at the 32-byte key [0xFF..FF].  The two
    widths meet in one tree, so the trees of vertices are over a key space of
    their own ([vertex_key]). *)

From Stdlib Require Import Strings.Byte Strings.String.
From stdpp Require Import gmap strings.
From S2P Require Import Prelude Bytes Nibble Node Tree TreeSpec TreeCorrect.

Inductive RdfType : Type := RdfUint | RdfInt | RdfByteArray | RdfBool | RdfString | RdfOther.

Record FieldTag : Type := mkTag {
  ft_name : string;
  ft_order : Z;
  ft_size : Z;
  ft_rdf_type : RdfType;
}.

Record ClassDef : Type := mkClass {
  cd_name : string;
  cd_fields : list FieldTag;
}.

Definition prover_class : ClassDef := mkClass "prover:Prover" [
   mkTag "PublicKey" 0 585 RdfByteArray;
   mkTag "Status" 1 1 RdfUint;
   mkTag "AvailableStorage" 2 8 RdfUint;
   mkTag "Seniority" 3 8 RdfUint;
   mkTag "KickFrameNumber" 4 8 RdfUint;
   mkTag "LastSeniorityFrameNumber" 5 8 RdfUint;
   mkTag "RetroCredited" 32 40 RdfByteArray;
   mkTag "RetroMoved" 33 40 RdfByteArray;
   mkTag "SeniorityPenalty" 37 8 RdfUint;
   mkTag "SeniorityRestorationFrame" 38 8 RdfUint].

Definition allocation_class : ClassDef := mkClass "allocation:ProverAllocation" [
   mkTag "Prover" 0 32 RdfOther;
   mkTag "Status" 1 1 RdfUint;
   mkTag "ConfirmationFilter" 2 64 RdfByteArray;
   mkTag "RejectionFilter" 3 64 RdfByteArray;
   mkTag "JoinFrameNumber" 4 8 RdfUint;
   mkTag "LeaveFrameNumber" 5 8 RdfUint;
   mkTag "PauseFrameNumber" 6 8 RdfUint;
   mkTag "ResumeFrameNumber" 7 8 RdfUint;
   mkTag "KickFrameNumber" 8 8 RdfUint;
   mkTag "JoinConfirmFrameNumber" 9 8 RdfUint;
   mkTag "JoinRejectFrameNumber" 10 8 RdfUint;
   mkTag "LeaveConfirmFrameNumber" 11 8 RdfUint;
   mkTag "LeaveRejectFrameNumber" 12 8 RdfUint;
   mkTag "LastActiveFrameNumber" 13 8 RdfUint;
   mkTag "Epoch" 14 8 RdfUint;
   mkTag "Ring" 15 1 RdfUint;
   mkTag "RingEpoch" 16 8 RdfUint;
   mkTag "RingSeniority" 17 8 RdfUint;
   mkTag "LastSignedFrameNumber" 18 8 RdfUint;
   mkTag "Release" 19 6 RdfByteArray;
   mkTag "LeavePenaltyFrameNumber" 34 8 RdfUint;
   mkTag "AbsentFrameCount" 35 8 RdfUint;
   mkTag "LastAbsentFrameNumber" 36 8 RdfUint].

Definition reward_class : ClassDef := mkClass "reward:ProverReward" [
   mkTag "DelegateAddress" 0 32 RdfByteArray;
   mkTag "Balance" 1 32 RdfByteArray;
   mkTag "LastRewardFrameNumber" 2 8 RdfUint;
   mkTag "RewardedShardsBlob" 3 512 RdfByteArray].

Definition spent_merge_class : ClassDef := mkClass "merge:SpentMerge" [
   mkTag "ProverAddress" 0 32 RdfByteArray].

Definition leaf_root_class : ClassDef := mkClass "leafroot:LeafRootRegistration" [
   mkTag "Member" 0 32 RdfOther;
   mkTag "ShardFilter" 1 64 RdfByteArray;
   mkTag "Prefix" 2 1024 RdfByteArray;
   mkTag "Epoch" 3 8 RdfUint;
   mkTag "LeafRoot" 4 128 RdfByteArray;
   mkTag "NumBlocks" 5 8 RdfUint;
   mkTag "RegistrationFrameNumber" 6 8 RdfUint;
   mkTag "NextEpoch" 7 8 RdfUint;
   mkTag "NextLeafRoot" 8 128 RdfByteArray;
   mkTag "NextNumBlocks" 9 8 RdfUint;
   mkTag "PrevEpoch" 10 8 RdfUint;
   mkTag "PrevLeafRoot" 11 128 RdfByteArray;
   mkTag "PrevNumBlocks" 12 8 RdfUint;
   mkTag "RegisteredAt" 20 8 RdfUint;
   mkTag "SealedAt" 21 8 RdfUint;
   mkTag "NextRegisteredAt" 22 8 RdfUint;
   mkTag "NextSealedAt" 23 8 RdfUint;
   mkTag "PrevRegisteredAt" 24 8 RdfUint;
   mkTag "PrevSealedAt" 25 8 RdfUint].

Definition storage_seat_class : ClassDef := mkClass "storage:StorageSeat" [
   mkTag "Member" 26 32 RdfByteArray;
   mkTag "ShardFilter" 27 64 RdfByteArray;
   mkTag "Slots" 28 4096 RdfByteArray].

Definition storage_expiry_class : ClassDef := mkClass "storage:StorageExpiry" [
   mkTag "Seats" 29 1048576 RdfByteArray].

Definition storage_snapshot_class : ClassDef := mkClass "storage:StorageSnapshot" [
   mkTag "ShardFilter" 30 64 RdfByteArray;
   mkTag "Snapshot" 31 152 RdfByteArray].

Definition GLOBAL_CLASSES : list ClassDef :=
  [prover_class; allocation_class; reward_class; spent_merge_class; leaf_root_class; storage_seat_class; storage_expiry_class; storage_snapshot_class].

Definition GLOBAL_MAX_ORDER : Z := 38.
Definition MAX_ORDER_SINGLE_BYTE : Z := 63.
Definition MAX_ORDER_TWO_BYTE : Z := 4093.

(** [order_to_key]; [order << 2] is a [u16] shift. *)
Definition order_to_key (order max_order : Z) : bytes :=
  if max_order <=? MAX_ORDER_SINGLE_BYTE then [z2b (Z.shiftl order 2 mod 2 ^ 16)]
  else if max_order <=? MAX_ORDER_TWO_BYTE then
    let shifted := wrap_u32 (Z.shiftl order 4) in
    [z2b (Z.shiftr shifted 8); z2b (Z.land shifted 255)]
  else
    let shifted := wrap_u32 (Z.shiftl order 6) in
    [z2b (Z.shiftr shifted 16); z2b (Z.land (Z.shiftr shifted 8) 255); z2b (Z.land shifted 255)].

(** [class_def], [field_tag], [field_key] *)
Definition class_def (name : string) : option ClassDef :=
  List.find (fun c => bool_decide (cd_name c = name)) GLOBAL_CLASSES.
Definition field_tag (class field : string) : option FieldTag :=
  c ← class_def class; List.find (fun f => bool_decide (ft_name f = field)) (cd_fields c).
Definition field_key (class field : string) : option bytes :=
  tag ← field_tag class field; Some (order_to_key (ft_order tag) GLOBAL_MAX_ORDER).

Definition GLOBAL_INTRINSIC_ADDRESS : bytes := replicate 32 xff.

(** The Poseidon sponge of [quil_crypto] ([hash_bytes_to_32]). *)
Class Poseidon := { hash_bytes_to_32 : bytes -> outcome bytes }.

Section fields.
Context `{Sha512} `{Poseidon}.

(** [compute_type_hash]: [expect] turns a failure into a panic. *)
Definition compute_type_hash (class_name : string) : outcome bytes :=
  match hash_bytes_to_32 (GLOBAL_INTRINSIC_ADDRESS ++ list_byte_of_string class_name) with
  | Ok h => Ok h
  | _ => Panic
  end.

(** [read_field] *)
Definition read_field (tree : VectorCommitmentTree) (class field : string) : outcome (option bytes) :=
  match field_key class field with
  | None => Ok None
  | Some key => Tree.get tree key
  end.

(** [map_err(|e| QuilError::Internal(..))] *)
Definition internal {A} (r : outcome A * VectorCommitmentTree) : outcome A * VectorCommitmentTree :=
  match r with (Err _, t) => (Err Internal, t) | _ => r end.

(** [write_field] *)
Definition write_field (class field : string) (value : bytes) : st VectorCommitmentTree unit :=
  fun tree =>
    match field_key class field with
    | None => (Err InvalidArgument, tree)
    | Some key => internal (Tree.insert tree key value [] (Z.of_nat (length value)))
    end.

(** [write_type] *)
Definition TYPE_KEY : bytes := replicate 32 xff.
Definition write_type (class : string) : st VectorCommitmentTree unit :=
  fun tree =>
    match compute_type_hash class with
    | Ok hash => internal (Tree.insert tree TYPE_KEY hash [] 32)
    | Err e => (Err e, tree)
    | Panic => (Panic, tree)
    end.
End fields.

(** ** The key space of a vertex *)

Definition vertex_key (k : bytes) : Prop :=
  k = TYPE_KEY
  \/ exists order, 0 <= order <= GLOBAL_MAX_ORDER /\ k = order_to_key order GLOBAL_MAX_ORDER.

(** A statement about the orders of the schema, by enumeration. *)
Lemma orders_ind (P : Z -> Prop) :
  Forall P (Z.of_nat <$> seq 0 39) -> forall order, 0 <= order <= GLOBAL_MAX_ORDER -> P order.
Proof.
  intros Hall order Ho. unfold GLOBAL_MAX_ORDER in Ho. rewrite Forall_forall in Hall. apply Hall.
  apply list_elem_of_fmap. exists (Z.to_nat order). split; [lia|]. apply elem_of_seq. lia.
Qed.

Lemma order_key_digit order :
  0 <= order <= GLOBAL_MAX_ORDER ->
  dig (order_to_key order GLOBAL_MAX_ORDER) 0 = order
  /\ length (order_to_key order GLOBAL_MAX_ORDER) = 1%nat.
Proof. revert order. apply orders_ind, (bool_decide_unpack _). vm_compute. exact I. Qed.

Lemma order_to_key_inj o1 o2 :
  0 <= o1 <= GLOBAL_MAX_ORDER -> 0 <= o2 <= GLOBAL_MAX_ORDER ->
  order_to_key o1 GLOBAL_MAX_ORDER = order_to_key o2 GLOBAL_MAX_ORDER -> o1 = o2.
Proof.
  intros H1 H2 E. destruct (order_key_digit o1 H1) as [<- _]. rewrite E.
  by destruct (order_key_digit o2 H2).
Qed.

Lemma type_key_separated order :
  0 <= order <= GLOBAL_MAX_ORDER -> separated (order_to_key order GLOBAL_MAX_ORDER) TYPE_KEY.
Proof.
  intros Ho. destruct (order_key_digit order Ho) as [Hd _]. exists 0%nat. rewrite Hd.
  unfold GLOBAL_MAX_ORDER in Ho. assert (E : dig TYPE_KEY 0 = 63) by (vm_compute; reflexivity). lia.
Qed.

#[global] Instance vertex_key_space : KeySpace vertex_key.
Proof.
  split.
  - intros k [->|(o & Ho & ->)]; [done|]. intros E.
    destruct (order_key_digit o Ho) as [_ L]. by rewrite E in L.
  - intros k k' [->|(o & Ho & ->)] [->|(o' & Ho' & ->)]; [by left|right|right|].
    + apply separated_sym, type_key_separated, Ho'.
    + apply type_key_separated, Ho.
    + destruct (decide (o = o')) as [->|Hne]; [by left|right]. apply same_length_separated.
      * destruct (order_key_digit o Ho), (order_key_digit o' Ho'); congruence.
      * intros E. by apply Hne, order_to_key_inj.
Qed.

(** Every order of the schema is in range, and the fields of a class have
    distinct names and orders. *)
Definition class_ok (c : ClassDef) : bool :=
  forallb (fun f => (0 <=? ft_order f) && (ft_order f <=? GLOBAL_MAX_ORDER)) (cd_fields c)
  && bool_decide (NoDup (ft_order <$> cd_fields c)) && bool_decide (NoDup (ft_name <$> cd_fields c)).

Lemma classes_ok : forallb class_ok GLOBAL_CLASSES = true.
Proof. vm_compute. reflexivity. Qed.

Lemma class_def_ok name c : class_def name = Some c -> class_ok c = true.
Proof.
  intros [Hin _]%List.find_some. pose proof classes_ok as H. rewrite List.forallb_forall in H. auto.
Qed.

Lemma field_tag_spec class field tag :
  field_tag class field = Some tag ->
  exists c, class_def class = Some c /\ tag ∈ cd_fields c /\ ft_name tag = field.
Proof.
  unfold field_tag. destruct (class_def class) as [c|]; [|done]. simpl.
  intros [Hin Hn]%List.find_some. apply bool_decide_eq_true in Hn. apply list_elem_of_In in Hin. eauto.
Qed.

Lemma field_tag_order class field tag :
  field_tag class field = Some tag -> 0 <= ft_order tag <= GLOBAL_MAX_ORDER.
Proof.
  intros (c & Hc & Hin & _)%field_tag_spec. apply class_def_ok in Hc. unfold class_ok in Hc.
  apply andb_prop in Hc as [[H _]%andb_prop _]. rewrite List.forallb_forall in H.
  apply list_elem_of_In, H in Hin. bool_to_prop. done.
Qed.

Lemma field_key_vertex class field key : field_key class field = Some key -> vertex_key key.
Proof.
  unfold field_key. destruct (field_tag class field) as [tag|] eqn:E; [|done]. intros [= <-].
  right. eauto using field_tag_order.
Qed.

(** The keys of two fields of a class differ. *)
Lemma field_key_inj class f1 f2 k :
  field_key class f1 = Some k -> field_key class f2 = Some k -> f1 = f2.
Proof.
  unfold field_key. destruct (field_tag class f1) as [t1|] eqn:E1; [|done].
  destruct (field_tag class f2) as [t2|] eqn:E2; [|done]. cbn. intros [= H1] [= H2].
  rewrite <- H2 in H1. apply order_to_key_inj in H1; [|by eapply field_tag_order..].
  apply field_tag_spec in E1 as (c & Hc & Hin1 & <-), E2 as (c' & Hc' & Hin2 & <-).
  rewrite Hc in Hc'. injection Hc' as <-. apply class_def_ok in Hc. unfold class_ok in Hc.
  apply andb_prop in Hc as [[_ H]%andb_prop _]. apply bool_decide_eq_true in H.
  apply list_elem_of_lookup in Hin1 as [i Hi], Hin2 as [j Hj].
  assert (i = j) as ->.
  { apply (NoDup_lookup _ i j (ft_order t1) H); rewrite list_lookup_fmap.
    - by rewrite Hi. - by rewrite Hj, H1. }
  congruence.
Qed.

(** ** A vertex as a map of its fields *)

Definition vertex_ok (t : VectorCommitmentTree) : Prop := tree_ok vertex_key t.
Definition fields (t : VectorCommitmentTree) : gmap bytes bytes := lf_value <$> contents t.

Section vertex.
Context `{Sha512} `{Poseidon}.

Lemma read_field_ok t class field key :
  vertex_ok t -> field_key class field = Some key -> read_field t class field = Ok (fields t !! key).
Proof.
  intros Ht Hk. unfold read_field, Tree.get. rewrite Hk, (get_leaf_contents vertex_key) by done.
  unfold fields. by rewrite lookup_fmap.
Qed.

Lemma insert_fields t key value size :
  vertex_ok t -> vertex_key key ->
  exists t', internal (Tree.insert t key value [] size) = (Ok tt, t') /\ vertex_ok t'
    /\ fields t' = <[key := value]> (fields t).
Proof.
  intros Ht Hk. destruct (insert_contents t key value [] size Ht Hk) as (t' & E & Hok & Hc).
  exists t'. rewrite E. split; [done|]. split; [done|]. unfold fields. by rewrite Hc, fmap_insert.
Qed.

Lemma write_field_ok t class field key value :
  vertex_ok t -> field_key class field = Some key ->
  exists t', write_field class field value t = (Ok tt, t') /\ vertex_ok t'
    /\ fields t' = <[key := value]> (fields t).
Proof.
  intros Ht Hk. unfold write_field. rewrite Hk. apply insert_fields; [done|].
  by eapply field_key_vertex.
Qed.

Lemma write_type_ok t class hash :
  vertex_ok t -> compute_type_hash class = Ok hash ->
  exists t', write_type class t = (Ok tt, t') /\ vertex_ok t'
    /\ fields t' = <[TYPE_KEY := hash]> (fields t).
Proof. intros Ht Hh. unfold write_type. rewrite Hh. apply insert_fields; [done|]. by left. Qed.

End vertex.

(** [find_leaf_value] on the root reads the same map. *)
Lemma find_leaf_value_sound n k v :
  find_leaf_value n k = Some v -> exists l, l ∈ collect_leaves n /\ lf_key l = k /\ lf_value l = v.
Proof.
  induction n as [l|b IH] using node_ind_nested; cbn [find_leaf_value].
  - case_decide; [|done]. intros [= <-]. exists l. split; [by apply list_elem_of_singleton|done].
  - intros Hf. apply first_some_Some in Hf as (i & [c|] & Hi & Hf); [|done].
    destruct (IH i c Hi Hf) as (l & Hl & Hk & Hv). exists l. split; [|done].
    apply collect_leaves_branch. eauto.
Qed.

Lemma find_leaf_value_complete n l :
  l ∈ collect_leaves n -> find_leaf_value n (lf_key l) <> None.
Proof.
  induction n as [l'|b IH] using node_ind_nested; cbn [find_leaf_value].
  - intros ->%list_elem_of_singleton. by rewrite decide_True.
  - intros (i & c & Hi & Hl)%collect_leaves_branch Hf.
    apply (first_some_None _ _ i (Some c) Hf) in Hi as Hc. by apply (IH i c Hi).
Qed.

Lemma find_leaf_value_spec pre n k :
  wf pre n -> find_leaf_value n k = lf_value <$> (leaf_map n !! k).
Proof.
  intros Hwf. destruct (leaf_map n !! k) as [l|] eqn:E; cbn.
  - apply (leaf_map_lookup _ _ _ _ Hwf) in E as [Hl <-].
    destruct (find_leaf_value n (lf_key l)) as [v|] eqn:F.
    + apply find_leaf_value_sound in F as (l' & Hl' & Hk & <-).
      by rewrite (wf_leaf_key_unique _ _ _ _ Hwf Hl' Hl Hk).
    + by apply find_leaf_value_complete in Hl.
  - destruct (find_leaf_value n k) as [v|] eqn:F; [|done].
    apply find_leaf_value_sound in F as (l & Hl & <- & _).
    assert (leaf_map n !! lf_key l = Some l) by by apply (leaf_map_lookup _ _ _ _ Hwf). congruence.
Qed.
