(* ===== verification/Pricing.v ===== *)
(** * Fee arithmetic and issuance

    [crates/quil-execution/src/pricing.rs]: the PoMW basis, the reward of an
    allocation ring, the baseline fee, the per-unit fee multiplier and the fee
    budget of a payload limit.  [BigInt] values are integers; its division
    truncates toward zero.  Roots come from [num_bigint] and are a parameter. *)

From Stdlib Require Import Strings.Byte.
From S2P Require Import Prelude Bytes.

(** [BigInt::nth_root] and [BigInt::sqrt]: the truncated integer roots. *)
Class IntRoots := {
  nth_root : Z -> Z -> Z;
  isqrt : Z -> Z;
}.
Class IntRootsLaws `{IntRoots} : Prop := {
  nth_root_spec : forall x n, 0 <= x -> 0 < n ->
    0 <= nth_root x n /\ nth_root x n ^ n <= x < (nth_root x n + 1) ^ n;
  isqrt_spec : forall x, 0 <= x -> 0 <= isqrt x /\ isqrt x ^ 2 <= x < (isqrt x + 1) ^ 2;
}.

Definition POMW_SCALE_BITS : Z := 53.
Definition POMW_NUMERATOR : Z := 1125899906842624.
Definition QUIL_TOKEN_UNITS : Z := 8000000000.
Definition MAINNET_NETWORK : Z := 0.
Definition NON_MAINNET_UNITS_PER_BYTE : Z := 1.

(** [network_selector] *)
Definition network_selector (identifier : bytes) : option byte :=
  match last identifier with
  | None => None
  | Some b =>
      if (length identifier =? 32)%nat && forallb (fun x => bool_decide (x = x00)) (removelast identifier)
      then Some b else None
  end.

(** The loop of [pomw_generation]. *)
Fixpoint generation_loop (fuel : nat) (difflog : Z) (generation : Z) : Z :=
  match fuel with
  | O => generation
  | S fuel' =>
      if 10000 <=? difflog then generation_loop fuel' (difflog / 10000) (generation + 1)
      else generation
  end.

(** [pomw_generation]: five divisions exhaust a [u64]. *)
Definition pomw_generation (difficulty : Z) : Z := generation_loop 5 difficulty 0.

Section pricing.
Context `{IntRoots}.

(** [pomw_basis] *)
Definition pomw_basis (difficulty world_state_bytes units : Z) : Z :=
  if world_state_bytes =? 0 then 0
  else
    let generation := pomw_generation difficulty in
    if generation =? 0 then Z.quot POMW_NUMERATOR world_state_bytes * units
    else
      let exp_denom := Z.shiftl 1 generation in
      let pre_scale_bits := exp_denom * POMW_SCALE_BITS in
      let scaled := Z.quot (Z.shiftl POMW_NUMERATOR pre_scale_bits) world_state_bytes in
      let rooted := nth_root scaled exp_denom in
      Z.shiftr (rooted * units) POMW_SCALE_BITS.

(** [allocation_ring_reward]; [ring] is a [u8]. *)
Definition allocation_ring_reward (basis state_size world_bytes ring data_shards : Z) : Z :=
  if (basis <=? 0) || (state_size <=? 0) || (world_bytes <=? 0) || (data_shards =? 0) then 0
  else
    let divisor := Z.shiftl 1 (Z.min ring 62 + 1) in
    let sqrt := isqrt (Z.shiftl data_shards (2 * POMW_SCALE_BITS)) in
    let numerator := Z.shiftl (state_size * basis) POMW_SCALE_BITS in
    Z.quot numerator (world_bytes * divisor * sqrt).

(** [allocation_prover_reward] *)
Definition allocation_prover_reward (basis state_size world_bytes ring data_shards : Z) : Z :=
  Z.quot (allocation_ring_reward basis state_size world_bytes ring data_shards) 8.

(** [get_baseline_fee]; the [u64] sum of world size and growth is checked. *)
Definition get_baseline_fee (difficulty world_state_bytes total_added units : Z) : outcome Z :=
  let current := pomw_basis difficulty world_state_bytes units in
  grown ← ck_u64 (world_state_bytes + total_added);
  let affected := pomw_basis difficulty grown units in
  let delta := current - affected in
  if world_state_bytes =? 0 then Ok total_added
  else
    let lhs := Z.quot (delta * delta) world_state_bytes in
    Ok (if total_added <=? lhs then lhs else total_added).

(** [fee_multiplier_for_cost] *)
Definition fee_multiplier_for_cost (network difficulty world_state_bytes cost vote : Z) : outcome Z :=
  if cost =? 0 then Ok 0
  else if negb ((0 <=? cost) && (cost <=? u64_max)) then Err InvalidArgument
  else
    match checked_add_u64 world_state_bytes cost with
    | None => Err InvalidArgument
    | Some _ =>
        if negb (network =? MAINNET_NETWORK) then Ok (NON_MAINNET_UNITS_PER_BYTE * vote)
        else
          baseline ← get_baseline_fee difficulty world_state_bytes cost QUIL_TOKEN_UNITS;
          let per_unit := Z.quot (baseline + cost - 1) cost in
          Ok (per_unit * vote)
    end.

(** [fee_budget_for_payload_limit] *)
Definition fee_budget_for_payload_limit (network difficulty world_state_bytes payload_limit vote : Z)
    : outcome Z :=
  if payload_limit =? 0 then Ok 0
  else
    match checked_add_u64 world_state_bytes payload_limit with
    | None => Err InvalidArgument
    | Some _ =>
        if negb (network =? MAINNET_NETWORK)
        then Ok (payload_limit * NON_MAINNET_UNITS_PER_BYTE * vote)
        else
          baseline ← get_baseline_fee difficulty world_state_bytes payload_limit QUIL_TOKEN_UNITS;
          Ok ((baseline + (payload_limit - 1)) * vote)
    end.
End pricing.

(** ** Lemmas *)

Lemma generation_loop_spec fuel d g :
  0 <= d < 10000 ^ Z.of_nat (S fuel) ->
  exists k, generation_loop fuel d g = g + k /\ 0 <= k <= Z.of_nat fuel
    /\ (0 < k -> 10000 ^ k <= d) /\ d < 10000 ^ (k + 1).
Proof.
  revert d g. induction fuel as [|fuel IH]; intros d g Hd; cbn [generation_loop].
  - exists 0. change (Z.of_nat 1) with 1 in Hd. repeat split; lia.
  - destruct (Z.leb_spec 10000 d) as [Hge|Hlt].
    + assert (Hq : 0 <= d / 10000 < 10000 ^ Z.of_nat (S fuel)).
      { split; [apply Z.div_pos; lia|]. apply Z.div_lt_upper_bound; [lia|].
        rewrite (Nat2Z.inj_succ (S fuel)), Z.pow_succ_r in Hd by lia. lia. }
      destruct (IH (d / 10000) (g + 1) Hq) as (k & -> & Hk & Hlo & Hhi).
      exists (k + 1). pose proof (Z.div_mod d 10000 ltac:(lia)) as E.
      pose proof (Z.mod_pos_bound d 10000 ltac:(lia)).
      assert (1 <= d / 10000) by (apply Z.div_le_lower_bound; lia).
      rewrite !(Z.pow_add_r 10000 _ 1) in * by lia. change (10000 ^ 1) with 10000 in *.
      repeat split; try lia. intros _. destruct (Z.eq_dec k 0) as [->|]; [lia|].
      specialize (Hlo ltac:(lia)). lia.
    + exists 0. repeat split; try lia.
Qed.

Lemma pomw_generation_spec d :
  in_u64 d ->
  0 <= pomw_generation d <= 4 /\ (0 < pomw_generation d -> 10000 ^ pomw_generation d <= d)
  /\ d < 10000 ^ (pomw_generation d + 1).
Proof.
  intros Hd. unfold pomw_generation. unfold_ints.
  destruct (generation_loop_spec 5 d 0) as (k & -> & Hk & Hlo & Hhi); [simpl; lia|].
  rewrite Z.add_0_l. assert (k <= 4); [|split; [lia|done]].
  destruct (Z.le_gt_cases k 4) as [|Hgt]; [done|]. assert (k = 5) as -> by lia.
  specialize (Hlo ltac:(lia)). change (10000 ^ 5) with 100000000000000000000 in Hlo. lia.
Qed.

Lemma quot_mono x y d : 0 <= x <= y -> 0 < d -> Z.quot x d <= Z.quot y d.
Proof. intros. rewrite !Z.quot_div_nonneg by lia. apply Z.div_le_mono; lia. Qed.

Lemma quot_anti x d d' : 0 <= x -> 0 < d <= d' -> Z.quot x d' <= Z.quot x d.
Proof. intros. rewrite !Z.quot_div_nonneg by lia. apply Z.div_le_compat_l; lia. Qed.

Lemma quot_nonneg x d : 0 <= x -> 0 < d -> 0 <= Z.quot x d.
Proof. intros. rewrite Z.quot_div_nonneg by lia. apply Z.div_pos; lia. Qed.

Section pricing_lemmas.
Context `{IntRootsLaws}.

Lemma nth_root_mono x y n : 0 <= x <= y -> 0 < n -> nth_root x n <= nth_root y n.
Proof.
  intros Hxy Hn. destruct (nth_root_spec x n) as (Hx & Hx1 & _); [lia|done|].
  destruct (nth_root_spec y n) as (Hy & _ & Hy2); [lia|done|].
  destruct (Z.le_gt_cases (nth_root x n) (nth_root y n)) as [|Hgt]; [done|].
  assert ((nth_root y n + 1) ^ n <= nth_root x n ^ n) by (apply Z.pow_le_mono_l; lia). lia.
Qed.

(** The basis is non-negative and does not grow with the world size. *)
Lemma pomw_basis_antitone d w w' u :
  in_u64 d -> 0 < w <= w' -> 0 <= u -> 0 <= pomw_basis d w' u <= pomw_basis d w u.
Proof.
  intros Hd Hw Hu. unfold pomw_basis.
  destruct (pomw_generation_spec d Hd) as (Hg & _).
  assert (HN : 0 <= POMW_NUMERATOR) by done.
  rewrite (proj2 (Z.eqb_neq w 0)), (proj2 (Z.eqb_neq w' 0)) by lia.
  destruct (Z.eqb_spec (pomw_generation d) 0) as [Hg0|Hg0].
  - pose proof (quot_anti POMW_NUMERATOR w w' HN ltac:(lia)).
    pose proof (quot_nonneg POMW_NUMERATOR w' HN ltac:(lia)).
    split; [by apply Z.mul_nonneg_nonneg|by apply Z.mul_le_mono_nonneg_r].
  - set (e := Z.shiftl 1 (pomw_generation d)).
    assert (He : 0 < e) by (unfold e; rewrite Z.shiftl_1_l; apply Z.pow_pos_nonneg; lia).
    set (num := Z.shiftl POMW_NUMERATOR (e * POMW_SCALE_BITS)).
    assert (Hnum : 0 <= num) by (apply Z.shiftl_nonneg; done).
    pose proof (quot_nonneg num w' Hnum ltac:(lia)) as Hq.
    pose proof (quot_anti num w w' Hnum ltac:(lia)) as Hle.
    destruct (nth_root_spec (Z.quot num w') e Hq He) as (Hr & _).
    pose proof (nth_root_mono (Z.quot num w') (Z.quot num w) e ltac:(lia) He).
    rewrite !Z.shiftr_div_pow2 by done. split.
    + apply Z.div_pos; [by apply Z.mul_nonneg_nonneg|done].
    + apply Z.div_le_mono; [done|by apply Z.mul_le_mono_nonneg_r].
Qed.

(** The baseline fee is defined whenever the sum fits, is at least the growth,
    and does not shrink when the growth does not. *)
Lemma baseline_ok d w c u :
  in_u64 d -> 0 <= w -> 0 <= c -> w + c <= u64_max -> 0 <= u ->
  exists b, get_baseline_fee d w c u = Ok b /\ c <= b.
Proof.
  intros Hd Hw Hc Hsum Hu. unfold get_baseline_fee. rewrite ck_u64_ok by (unfold in_u64; lia).
  cbn [mbind outcome_bind]. destruct (w =? 0); [eauto with lia|]. eexists. split; [done|].
  destruct (Z.leb_spec c (Z.quot
    ((pomw_basis d w u - pomw_basis d (w + c) u) * (pomw_basis d w u - pomw_basis d (w + c) u)) w)); lia.
Qed.

Lemma baseline_mono d w c c' u b b' :
  in_u64 d -> 0 <= w -> 0 <= c <= c' -> w + c' <= u64_max -> 0 <= u ->
  get_baseline_fee d w c u = Ok b -> get_baseline_fee d w c' u = Ok b' -> b <= b'.
Proof.
  intros Hd Hw Hc Hsum Hu. unfold get_baseline_fee.
  rewrite !ck_u64_ok by (unfold in_u64; lia). cbn [mbind outcome_bind].
  destruct (Z.eqb_spec w 0) as [|Hw0]; [intros [= <-] [= <-]; lia|].
  intros [= <-] [= <-].
  destruct (pomw_basis_antitone d w (w + c) u) as [H1 H2]; [done|lia|done|].
  destruct (pomw_basis_antitone d w (w + c') u) as [H3 H4]; [done|lia|done|].
  destruct (pomw_basis_antitone d (w + c) (w + c') u) as [_ H5]; [done|lia|done|].
  set (B := pomw_basis d w u) in *. set (B1 := pomw_basis d (w + c) u) in *.
  set (B2 := pomw_basis d (w + c') u) in *.
  assert (Z.quot ((B - B1) * (B - B1)) w <= Z.quot ((B - B2) * (B - B2)) w)
    by (apply quot_mono; [nia|lia]).
  repeat case_match; bool_to_prop; lia.
Qed.

(** The rounded-up price of one cost unit. *)
Lemma ceil_price b c : 0 < c -> c <= b -> b <= Z.quot (b + c - 1) c * c <= b + c - 1.
Proof.
  intros Hc Hb. rewrite Z.quot_div_nonneg by lia.
  pose proof (Z.div_mod (b + c - 1) c ltac:(lia)). pose proof (Z.mod_pos_bound (b + c - 1) c Hc). lia.
Qed.

Lemma checked_add_ok a b : a + b <= u64_max -> checked_add_u64 a b = Some (a + b).
Proof. intros. unfold checked_add_u64. by rewrite (proj2 (Z.leb_le _ _)). Qed.
End pricing_lemmas.

(** *** A concrete root, bit by bit *)

Fixpoint root_bits (bits : nat) (x n r : Z) : Z :=
  match bits with
  | O => r
  | S bits' =>
      let r' := r + 2 ^ Z.of_nat bits' in
      root_bits bits' x n (if r' ^ n <=? x then r' else r)
  end.
Definition demo_roots : IntRoots :=
  {| nth_root x n := root_bits (Z.to_nat (Z.log2 x + 1)) x n 0; isqrt := Z.sqrt |}.

Lemma root_bits_spec bits x n r :
  0 < n -> 0 <= r -> r ^ n <= x < (r + 2 ^ Z.of_nat bits) ^ n ->
  0 <= root_bits bits x n r
  /\ root_bits bits x n r ^ n <= x < (root_bits bits x n r + 1) ^ n.
Proof.
  intros Hn. revert r. induction bits as [|bits IH]; intros r Hr Hx; cbn [root_bits]; [done|].
  rewrite Nat2Z.inj_succ, Z.pow_succ_r in Hx by lia.
  assert (0 < 2 ^ Z.of_nat bits) by (apply Z.pow_pos_nonneg; lia).
  destruct (Z.leb_spec ((r + 2 ^ Z.of_nat bits) ^ n) x) as [Hle|Hgt].
  - apply IH; [lia|]. replace (r + 2 ^ Z.of_nat bits + 2 ^ Z.of_nat bits) with (r + 2 * 2 ^ Z.of_nat bits) by lia.
    lia.
  - apply IH; [lia|]. lia.
Qed.

Lemma demo_roots_lawful : IntRootsLaws (H := demo_roots).
Proof.
  split; cbn [nth_root isqrt demo_roots].
  - intros x n Hx Hn. apply root_bits_spec; [done|lia|]. rewrite Z.pow_0_l by lia.
    rewrite Z2Nat.id by (pose proof (Z.log2_nonneg x); lia). split; [done|]. rewrite Z.add_0_l.
    assert (Hlog : x < 2 ^ (Z.log2 x + 1)).
    { destruct (Z.eq_dec x 0) as [->|]; [done|]. apply Z.log2_spec. lia. }
    rewrite <- Z.pow_mul_r by (pose proof (Z.log2_nonneg x); lia).
    eapply Z.lt_le_trans; [exact Hlog|]. apply Z.pow_le_mono_r; [lia|].
    pose proof (Z.log2_nonneg x). nia.
  - intros x Hx. pose proof (Z.sqrt_spec x Hx). pose proof (Z.sqrt_nonneg x).
    rewrite !Z.pow_2_r. unfold Z.succ in *. lia.
Qed.

(** ** Issuance over the rings *)

Section rings.
Context `{IntRootsLaws}.

(** The total paid to the first [n] rings of one allocation. *)
Fixpoint rings_total (n : nat) (basis state_size world_bytes data_shards : Z) : Z :=
  match n with
  | O => 0
  | S n' => rings_total n' basis state_size world_bytes data_shards
            + allocation_ring_reward basis state_size world_bytes (Z.of_nat n') data_shards
  end.

(** One ring's reward, with the positive inputs made explicit. *)
Lemma ring_reward_eq basis size world ring shards :
  0 < basis -> 0 < size -> 0 < world -> 0 < shards -> 0 <= ring ->
  exists s, 0 < s /\ s ^ 2 <= shards * 2 ^ 106 < (s + 1) ^ 2 /\
    allocation_ring_reward basis size world ring shards
    = (size * basis * 2 ^ 53) / (world * 2 ^ (Z.min ring 62 + 1) * s).
Proof.
  intros Hb Hz Hw Hs Hr. unfold allocation_ring_reward, POMW_SCALE_BITS.
  rewrite !(proj2 (Z.leb_gt _ 0)), (proj2 (Z.eqb_neq shards 0)) by lia. cbn [orb].
  rewrite !Z.shiftl_mul_pow2, Z.mul_1_l by lia. change (2 * 53) with 106.
  destruct (isqrt_spec (shards * 2 ^ 106)) as (Hs0 & Hs1 & Hs2); [lia|].
  set (s := isqrt (shards * 2 ^ 106)) in *.
  assert (Hpos : 0 < s).
  { destruct (Z.eq_dec s 0) as [E|]; [|lia]. rewrite E in Hs2. lia. }
  exists s. split; [done|]. split; [done|]. apply Z.quot_div_nonneg; [nia|].
  assert (0 < 2 ^ (Z.min ring 62 + 1)) by (apply Z.pow_pos_nonneg; lia).
  apply Z.mul_pos_pos; [|done]. by apply Z.mul_pos_pos.
Qed.

Lemma rings_total_S n basis size world shards :
  rings_total (S n) basis size world shards
  = rings_total n basis size world shards
    + allocation_ring_reward basis size world (Z.of_nat n) shards.
Proof. done. Qed.

(** The hypotheses of the accumulation: all inputs positive, [s] the scaled
    square root of the shard count. *)
Context (basis size world shards s : Z).
Hypothesis (Hb : 0 < basis) (Hz : 0 < size) (Hw : 0 < world) (Hs : 0 < shards) (Hs0 : 0 < s).
Hypothesis Hsq : s ^ 2 <= shards * 2 ^ 106 < (s + 1) ^ 2.

Lemma ring_reward_bound ring :
  0 <= ring ->
  0 <= allocation_ring_reward basis size world ring shards
  /\ allocation_ring_reward basis size world ring shards * (world * s) * 2 ^ (Z.min ring 62 + 1)
     <= size * basis * 2 ^ 53.
Proof.
  intros Hr. destruct (ring_reward_eq basis size world ring shards) as (s' & Hs' & Hsq' & ->); [lia..|].
  assert (s' = s) as -> by nia.
  assert (0 < 2 ^ (Z.min ring 62 + 1)) by (apply Z.pow_pos_nonneg; lia).
  assert (Hd : 0 < world * 2 ^ (Z.min ring 62 + 1) * s)
    by (apply Z.mul_pos_pos; [by apply Z.mul_pos_pos|done]).
  split; [apply Z.div_pos; [nia|done]|]. pose proof (Z.mul_div_le (size * basis * 2 ^ 53) _ Hd). lia.
Qed.

Lemma rings_total_geometric m :
  (m <= 63)%nat ->
  rings_total m basis size world shards * (world * s) * 2 ^ Z.of_nat m
  <= size * basis * 2 ^ 53 * (2 ^ Z.of_nat m - 1).
Proof.
  induction m as [|m IH]; intros Hm; [simpl; lia|]. rewrite rings_total_S.
  specialize (IH ltac:(lia)). destruct (ring_reward_bound (Z.of_nat m) ltac:(lia)) as [_ Hring].
  rewrite Z.min_l in Hring by lia. rewrite Nat2Z.inj_succ, Z.pow_succ_r by lia.
  rewrite Z.add_1_r, Z.pow_succ_r in Hring by lia. nia.
Qed.

Lemma rings_total_mono m k :
  (m <= k)%nat -> rings_total m basis size world shards <= rings_total k basis size world shards.
Proof.
  induction 1 as [|k _ IH]; [done|]. rewrite rings_total_S.
  destruct (ring_reward_bound (Z.of_nat k) ltac:(lia)) as [? _]. lia.
Qed.
End rings.

(** ** Properties *)

(** A fee budget for a payload limit covers every smaller payload: at a
    fixed snapshot and vote, for each cost from 1 to the limit the per-unit
    multiplier is defined and [multiplier * cost] is at most the budget, on
    mainnet (through the monotone baseline fee and the ceiling) and elsewhere. *)
Theorem fee_budget_covers :
  forall (R : IntRoots) (Laws : IntRootsLaws) (network difficulty world limit cost vote : Z),
  in_u64 difficulty -> 0 <= world -> 0 <= vote -> 1 <= cost <= limit -> world + limit <= u64_max ->
  exists m b,
    fee_multiplier_for_cost network difficulty world cost vote = Ok m
    /\ fee_budget_for_payload_limit network difficulty world limit vote = Ok b
    /\ m * cost <= b.
Proof.
  intros R Laws network d w limit c v Hd Hw Hv Hc Hsum.
  unfold fee_multiplier_for_cost, fee_budget_for_payload_limit.
  rewrite (proj2 (Z.eqb_neq c 0)), (proj2 (Z.eqb_neq limit 0)) by lia.
  rewrite (proj2 (Z.leb_le 0 c)), (proj2 (Z.leb_le c u64_max)) by lia. cbn [andb negb].
  rewrite !checked_add_ok by lia. destruct (network =? MAINNET_NETWORK); cbn [negb].
  - destruct (baseline_ok d w c QUIL_TOKEN_UNITS) as (b1 & E1 & Hb1); [done|lia..|done|].
    destruct (baseline_ok d w limit QUIL_TOKEN_UNITS) as (b2 & E2 & Hb2); [done|lia..|done|].
    pose proof (baseline_mono d w c limit QUIL_TOKEN_UNITS b1 b2 Hd Hw ltac:(lia) Hsum ltac:(done) E1 E2).
    rewrite E1, E2. cbn [mbind outcome_bind]. do 2 eexists. split; [done|]. split; [done|].
    pose proof (ceil_price b1 c ltac:(lia) Hb1). nia.
  - do 2 eexists. split; [done|]. split; [done|]. unfold NON_MAINNET_UNITS_PER_BYTE. nia.
Qed.

Lemma fee_budget_covers_witness :
  exists m b,
    fee_multiplier_for_cost (H := demo_roots) 0 160000 1000000 300 2 = Ok m
    /\ fee_budget_for_payload_limit (H := demo_roots) 0 160000 1000000 4096 2 = Ok b
    /\ m * 300 <= b.
Proof.
  apply (fee_budget_covers demo_roots demo_roots_lawful 0 160000 1000000 4096 300 2);
    unfold in_u64, u64_max; lia.
Defined.

(** The multiplier never undercharges and rounds up by less than one unit
    per cost unit: on mainnet with vote 1 the charge [multiplier * cost] is at
    least the baseline fee and below [baseline + cost]. *)
Theorem fee_multiplier_tight :
  forall (R : IntRoots) (Laws : IntRootsLaws) (difficulty world cost : Z),
  in_u64 difficulty -> 0 <= world -> 1 <= cost -> world + cost <= u64_max ->
  exists m baseline,
    fee_multiplier_for_cost MAINNET_NETWORK difficulty world cost 1 = Ok m
    /\ get_baseline_fee difficulty world cost QUIL_TOKEN_UNITS = Ok baseline
    /\ baseline <= m * cost < baseline + cost.
Proof.
  intros R Laws d w c Hd Hw Hc Hsum. unfold fee_multiplier_for_cost.
  rewrite (proj2 (Z.eqb_neq c 0)), (proj2 (Z.leb_le 0 c)), (proj2 (Z.leb_le c u64_max)) by lia.
  cbn [andb negb]. rewrite checked_add_ok, Z.eqb_refl by lia. cbn [negb].
  destruct (baseline_ok d w c QUIL_TOKEN_UNITS) as (b & E & Hb); [done|lia..|done|].
  rewrite E. cbn [mbind outcome_bind]. do 2 eexists. split; [done|]. split; [done|].
  pose proof (ceil_price b c ltac:(lia) Hb). lia.
Qed.

Lemma fee_multiplier_tight_witness :
  exists m baseline,
    fee_multiplier_for_cost (H := demo_roots) MAINNET_NETWORK 9000 1000000 300 1 = Ok m
    /\ get_baseline_fee (H := demo_roots) 9000 1000000 300 QUIL_TOKEN_UNITS = Ok baseline
    /\ baseline <= m * 300 < baseline + 300.
Proof.
  apply (fee_multiplier_tight demo_roots demo_roots_lawful 9000 1000000 300);
    unfold in_u64, u64_max; lia.
Defined.

(** Costs outside the supported range are refused, not wrapped or clamped: a
    negative cost, a cost above the [u64] range, or one that overflows the world
    size gives [InvalidArgument], on every network. *)
Theorem fee_cost_out_of_range : forall (R : IntRoots) (network difficulty world cost vote : Z),
  0 <= world -> cost < 0 \/ u64_max < world + cost ->
  fee_multiplier_for_cost network difficulty world cost vote = Err InvalidArgument
  \/ (cost = 0 /\ u64_max < world).
Proof.
  intros R network d w c v Hw Hc. unfold fee_multiplier_for_cost, checked_add_u64.
  destruct (Z.eqb_spec c 0) as [->|Hc0]; [right; lia|left].
  destruct (Z.leb_spec 0 c); [|done]. destruct (Z.leb_spec c u64_max); [|done]. cbn [andb negb].
  by rewrite (proj2 (Z.leb_gt _ _)) by lia.
Qed.

Lemma fee_cost_out_of_range_witness :
  fee_multiplier_for_cost (H := demo_roots) 0 1 5 u64_max 1 = Err InvalidArgument
  \/ (u64_max = 0 /\ u64_max < 5).
Proof. apply (fee_cost_out_of_range demo_roots 0 1 5 u64_max 1); [lia|right; unfold u64_max; lia]. Defined.

(** C38. The rings of an allocation together never pay out more than its share:
    over any number of rings up to 64 the total times [world * sqrt(data_shards)]
    (53 fractional bits) is at most [state_size * basis]. *)
Theorem rings_total_bounded :
  forall (R : IntRoots) (Laws : IntRootsLaws) (n : nat) (basis size world shards : Z),
  0 < basis -> 0 < size -> 0 < world -> 0 < shards -> (n <= 64)%nat ->
  exists s, s ^ 2 <= shards * 2 ^ 106 < (s + 1) ^ 2 /\ 0 < s
    /\ rings_total n basis size world shards * (world * s) <= size * basis * 2 ^ 53.
Proof.
  intros R Laws n basis size world shards Hb Hz Hw Hs Hn.
  destruct (ring_reward_eq basis size world 0 shards) as (s & Hs0 & Hsq & _); [lia..|].
  exists s. split; [done|]. split; [done|].
  assert (Hws : 0 < world * s) by (by apply Z.mul_pos_pos).
  apply Z.le_trans with (rings_total 64 basis size world shards * (world * s)).
  { apply Z.mul_le_mono_nonneg_r; [lia|]. by apply (rings_total_mono basis size world shards s). }
  rewrite rings_total_S.
  pose proof (rings_total_geometric basis size world shards s Hb Hz Hw Hs Hs0 Hsq 63 ltac:(lia)) as H1.
  destruct (ring_reward_bound basis size world shards s Hb Hz Hw Hs Hs0 Hsq (Z.of_nat 63)
              ltac:(lia)) as [_ H2].
  change (Z.min (Z.of_nat 63) 62 + 1) with 63 in H2. change (Z.of_nat 63) with 63 in *.
  set (T := rings_total 63 basis size world shards) in *.
  set (A := allocation_ring_reward basis size world 63 shards) in *.
  set (X := size * basis * 2 ^ 53) in *. clearbody T A X. nia.
Qed.

Lemma rings_total_bounded_witness :
  exists s, s ^ 2 <= 4 * 2 ^ 106 < (s + 1) ^ 2 /\ 0 < s
    /\ rings_total (H := demo_roots) 3 1000 50 7 4 * (7 * s) <= 50 * 1000 * 2 ^ 53.
Proof. apply (rings_total_bounded demo_roots demo_roots_lawful 3 1000 50 7 4); lia. Defined.

(** A prover slot's share: eight slots never receive more than their ring's
    reward, and lose less than eight units to rounding. *)
Theorem prover_shares_within_ring :
  forall (R : IntRoots) (Laws : IntRootsLaws) (basis size world ring shards : Z),
  0 <= ring -> 0 <= shards ->
  let ring_reward := allocation_ring_reward basis size world ring shards in
  let share := allocation_prover_reward basis size world ring shards in
  0 <= share /\ 8 * share <= ring_reward < 8 * share + 8.
Proof.
  intros R Laws basis size world ring shards Hr Hs ring_reward share.
  assert (Hpos : 0 <= ring_reward).
  { unfold ring_reward, allocation_ring_reward. case_match eqn:E; [done|]. bool_to_prop.
    destruct (ring_reward_eq basis size world ring shards) as (s & Hs0 & _ & E'); [lia..|].
    unfold allocation_ring_reward in E'. rewrite !(proj2 (Z.leb_gt _ 0)), (proj2 (Z.eqb_neq shards 0)) in E' by lia.
    cbn [orb] in E'. rewrite E'. apply Z.div_pos; [nia|].
    assert (0 < 2 ^ (Z.min ring 62 + 1)) by (apply Z.pow_pos_nonneg; lia).
    apply Z.mul_pos_pos; [by apply Z.mul_pos_pos; lia|done]. }
  unfold share, allocation_prover_reward. fold ring_reward. rewrite Z.quot_div_nonneg by lia.
  pose proof (Z.div_mod ring_reward 8 ltac:(lia)). pose proof (Z.mod_pos_bound ring_reward 8 ltac:(lia)).
  lia.
Qed.

Lemma prover_shares_within_ring_witness :
  let ring_reward := allocation_ring_reward (H := demo_roots) 1000 50 7 1 4 in
  let share := allocation_prover_reward (H := demo_roots) 1000 50 7 1 4 in
  0 <= share /\ 8 * share <= ring_reward < 8 * share + 8.
Proof. apply (prover_shares_within_ring demo_roots demo_roots_lawful 1000 50 7 1 4); lia. Defined.

(** The generation loop counts factors of ten thousand and stays small: for
    a [u64] difficulty [d] it returns the [g] with [10000^g <= d < 10000^(g+1)]
    (0 below 10000), at most 4, so the root exponent and the pre-scaling shift
    stay within [u32]. *)
Theorem pomw_generation_bounds : forall d : Z,
  in_u64 d ->
  0 <= pomw_generation d <= 4
  /\ (10000 <= d -> 10000 ^ pomw_generation d <= d)
  /\ d < 10000 ^ (pomw_generation d + 1)
  /\ Z.shiftl 1 (pomw_generation d) * POMW_SCALE_BITS <= u32_max.
Proof.
  intros d Hd. destruct (pomw_generation_spec d Hd) as (Hg & Hlo & Hhi).
  split; [done|]. split; [|split; [done|]].
  - intros Hge. destruct (Z.eq_dec (pomw_generation d) 0) as [E|]; [|apply Hlo; lia].
    rewrite E. lia.
  - rewrite Z.shiftl_1_l. assert (2 ^ pomw_generation d <= 2 ^ 4) by (apply Z.pow_le_mono_r; lia).
    unfold POMW_SCALE_BITS, u32_max. lia.
Qed.

Lemma pomw_generation_bounds_witness : 10000 ^ pomw_generation 123456789 <= 123456789.
Proof. apply pomw_generation_bounds; unfold in_u64, u64_max; lia. Defined.
