(* ===== verification/Lifecycle.v ===== *)
(** * Prover allocations and the epoch-aligned lifecycle

    [crates/quil-types/src/consensus.rs]: epochs, frame intervals, the
    committee-handoff policy, and how an allocation record reads at a frame
    (effective status, phase, join wait, departure epoch, member lists).  The
    process-wide epoch-length override and frame schedule are arguments. *)

From Stdlib Require Import Ascii String.
From S2P Require Import Prelude Bytes.

(** ** Data *)

Inductive ProverStatus : Type :=
| Unknown | Joining | Active | Paused | Leaving | Rejected | Kicked | Historic.

#[global] Instance ProverStatus_eq_dec : EqDecision ProverStatus.
Proof. solve_decision. Defined.

Record ProverAllocationInfo : Type := mkAllocation {
  status : ProverStatus;
  confirmation_filter : bytes;
  rejection_filter : bytes;
  join_frame_number : Z;
  leave_frame_number : Z;
  pause_frame_number : Z;
  resume_frame_number : Z;
  kick_frame_number : Z;
  join_confirm_frame_number : Z;
  join_reject_frame_number : Z;
  leave_confirm_frame_number : Z;
  leave_reject_frame_number : Z;
  last_active_frame_number : Z;
  last_signed_frame_number : Z;
  epoch : Z;
  ring : Z;
  vertex_address : bytes;
}.

(** [before.status = ..] on a clone *)
Definition with_status (a : ProverAllocationInfo) (s : ProverStatus) : ProverAllocationInfo :=
  mkAllocation s (confirmation_filter a) (rejection_filter a) (join_frame_number a)
    (leave_frame_number a) (pause_frame_number a) (resume_frame_number a) (kick_frame_number a)
    (join_confirm_frame_number a) (join_reject_frame_number a) (leave_confirm_frame_number a)
    (leave_reject_frame_number a) (last_active_frame_number a) (last_signed_frame_number a)
    (epoch a) (ring a) (vertex_address a).

(** The constructors carry a prefix where the source reuses a status name. *)
Inductive EffectiveStatus : Type :=
| EffJoining | EffActive | EffPaused | EffLeaving
| ExpiredJoining | ExpiredLeaving | ExpiredEpoch
| EffRejected | EffKicked | EffHistoric | EffUnknown.

#[global] Instance EffectiveStatus_eq_dec : EqDecision EffectiveStatus.
Proof. solve_decision. Defined.

Definition is_live (s : EffectiveStatus) : bool :=
  match s with EffJoining | EffActive | EffPaused | EffLeaving => true | _ => false end.
Definition is_allocated (s : EffectiveStatus) : bool :=
  match s with EffJoining | EffActive => true | _ => false end.
Definition is_expired (s : EffectiveStatus) : bool :=
  match s with ExpiredJoining | ExpiredLeaving | ExpiredEpoch => true | _ => false end.
Definition is_terminal (s : EffectiveStatus) : bool :=
  match s with EffRejected | EffKicked | ExpiredJoining | ExpiredLeaving => true | _ => false end.

(** ** Epochs *)

Definition ALLOCATION_GRACE_FRAMES : Z := 720.
Definition EPOCH_LENGTH_FRAMES : Z := 720.
Definition TESTNET_EPOCH_LENGTH_FRAMES : Z := 60.

(** [init_epoch_length_for_network]: the override it stores. *)
Definition init_epoch_length_for_network (network : Z) : Z :=
  if network =? 0 then 0 else TESTNET_EPOCH_LENGTH_FRAMES.

(** [epoch_length_frames]; [o] is the stored override. *)
Definition epoch_length_frames (o : Z) : Z := if o =? 0 then EPOCH_LENGTH_FRAMES else o.

Section epochs.
(** The process-wide epoch-length override. *)
Variable o : Z.

(** [epoch_for_frame], [epoch_start_frame] *)
Definition epoch_for_frame (frame_number : Z) : Z := frame_number / epoch_length_frames o.
Definition epoch_start_frame (e : Z) : Z := sat_mul_u64 e (epoch_length_frames o).

(** ** Reading an allocation at a frame *)

(** [ProverAllocationInfo::effective_status] *)
Definition effective_status (a : ProverAllocationInfo) (current_frame : Z) : EffectiveStatus :=
  let current_epoch := epoch_for_frame current_frame in
  match status a with
  | Joining =>
      if (0 <? join_frame_number a)
         && (epoch_for_frame (join_frame_number a) + 1 <? current_epoch)
      then ExpiredJoining else EffJoining
  | Active =>
      match confirmation_filter a with
      | [] => EffActive
      | _ =>
          if (0 <? join_confirm_frame_number a)
             && (current_epoch <? epoch_for_frame (join_confirm_frame_number a) + 1)
          then EffJoining
          else if current_epoch <=? epoch a then EffActive else ExpiredEpoch
      end
  | Paused => EffPaused
  | Leaving =>
      if 0 <? leave_confirm_frame_number a then
        if current_epoch <? epoch_for_frame (leave_confirm_frame_number a) + 1
        then EffLeaving else ExpiredLeaving
      else if (0 <? leave_frame_number a)
              && (epoch_for_frame (leave_frame_number a) + 1 <? current_epoch)
      then ExpiredLeaving else EffLeaving
  | Rejected => EffRejected
  | Kicked => EffKicked
  | Historic => EffHistoric
  | Unknown => EffUnknown
  end.

Inductive AllocationPhase : Type :=
| PhaseJoining | PhaseActivating | PhaseActive | PhasePaused | PhaseLeaving | PhaseDeparting.

(** [ProverAllocationInfo::phase] *)
Definition phase (a : ProverAllocationInfo) (frame : Z) : option AllocationPhase :=
  match effective_status a frame with
  | EffJoining => Some (if 0 <? join_confirm_frame_number a then PhaseActivating else PhaseJoining)
  | EffActive => Some PhaseActive
  | EffPaused => Some PhasePaused
  | EffLeaving => Some (if 0 <? leave_confirm_frame_number a then PhaseDeparting else PhaseLeaving)
  | _ => None
  end.

Inductive JoinWait : Type :=
| Confirmation (epoch : Z)
| Activation (frame : Z).

(** [JoinWait::activation_frame] *)
Definition activation_frame (w : JoinWait) : Z :=
  match w with
  | Confirmation e => epoch_start_frame (e + 1)
  | Activation frame => frame
  end.

(** [ProverAllocationInfo::join_wait] *)
Definition join_wait (a : ProverAllocationInfo) (frame : Z) : option JoinWait :=
  match phase a frame with
  | Some PhaseJoining =>
      if 0 <? join_frame_number a
      then Some (Confirmation (epoch_for_frame (join_frame_number a) + 1)) else None
  | Some PhaseActivating =>
      Some (Activation (epoch_start_frame (epoch_for_frame (join_confirm_frame_number a) + 1)))
  | _ => None
  end.

Record PhaseCounts : Type := mkPhaseCounts {
  pc_joining : Z; pc_activating : Z; pc_active : Z; pc_paused : Z; pc_leaving : Z; pc_departing : Z;
}.

(** [PhaseCounts::add] *)
Definition phase_counts_add (c : PhaseCounts) (p : AllocationPhase) : PhaseCounts :=
  let '(mkPhaseCounts j av ac pa l d) := c in
  match p with
  | PhaseJoining => mkPhaseCounts (j + 1) av ac pa l d
  | PhaseActivating => mkPhaseCounts j (av + 1) ac pa l d
  | PhaseActive => mkPhaseCounts j av (ac + 1) pa l d
  | PhasePaused => mkPhaseCounts j av ac (pa + 1) l d
  | PhaseLeaving => mkPhaseCounts j av ac pa (l + 1) d
  | PhaseDeparting => mkPhaseCounts j av ac pa l (d + 1)
  end.

(** [ProverAllocationInfo::departure_epoch] *)
Definition departure_epoch (a : ProverAllocationInfo) : option Z :=
  if negb (bool_decide (status a = Leaving)) then None
  else if 0 <? leave_confirm_frame_number a
  then Some (epoch_for_frame (leave_confirm_frame_number a) + 1)
  else if 0 <? leave_frame_number a
  then Some (epoch_for_frame (leave_frame_number a) + 2) else None.

(** [ProverAllocationInfo::counted_when_leaving] *)
Definition counted_when_leaving (a : ProverAllocationInfo) : bool :=
  if (leave_frame_number a =? 0) || (resume_frame_number a <? pause_frame_number a) then false
  else bool_decide (effective_status (with_status a Active) (leave_frame_number a) = EffActive).

(** ** Member lists *)

Record LifecycleMembers : Type := mkMembers {
  members_active : list bytes;
  members_activating : list bytes;
  members_leaving : list bytes;
}.
Definition no_members : LifecycleMembers := mkMembers [] [] [].

(** [LifecycleMembers::add] *)
Definition members_add (m : LifecycleMembers) (address : bytes) (a : ProverAllocationInfo)
    (frame : Z) : LifecycleMembers :=
  match effective_status a frame with
  | EffActive => mkMembers (members_active m ++ [address]) (members_activating m) (members_leaving m)
  | EffJoining =>
      if 0 <? join_confirm_frame_number a
      then mkMembers (members_active m) (members_activating m ++ [address]) (members_leaving m)
      else m
  | EffLeaving =>
      if leave_confirm_frame_number a =? 0
      then mkMembers (members_active m) (members_activating m) (members_leaving m ++ [address])
      else m
  | _ => m
  end.

(** [LifecycleMembers::staying] *)
Definition staying (m : LifecycleMembers) : nat :=
  (length (members_active m) + length (members_activating m))%nat.

(** The members of a shard at a frame, over its allocations in order. *)
Definition collect_members (l : list (bytes * ProverAllocationInfo)) (frame : Z) : LifecycleMembers :=
  fold_left (fun m '(address, a) => members_add m address a frame) l no_members.
End epochs.

(** ** Halt risk *)

Definition MIN_SHARD_CONSENSUS_PROVERS : Z := 4.
Definition HALT_RISK_LEAVE_PENALTY : Z := 7200.
Definition SENIORITY_PENALTY_HALT_RISK_PROVERS : Z := 3.
Definition halt_risk_departure (remaining_active : Z) : bool :=
  remaining_active <=? SENIORITY_PENALTY_HALT_RISK_PROVERS.

(** ** Lemmas *)

Section lemmas.
Context (o : Z) (Ho : 0 <= o).

Lemma epoch_length_pos : 0 < epoch_length_frames o.
Proof. unfold epoch_length_frames, EPOCH_LENGTH_FRAMES. destruct (Z.eqb_spec o 0); lia. Qed.

Lemma epoch_mono f f' : f <= f' -> epoch_for_frame o f <= epoch_for_frame o f'.
Proof. intros. pose proof epoch_length_pos. by apply Z.div_le_mono. Qed.

(** A frame is past the start of an epoch exactly when its epoch is. *)
Lemma epoch_start_spec e f :
  0 <= e -> e * epoch_length_frames o <= u64_max ->
  epoch_start_frame o e <= f <-> e <= epoch_for_frame o f.
Proof.
  intros He Hmax. pose proof epoch_length_pos as Hl. unfold epoch_start_frame, sat_mul_u64.
  rewrite Z.min_l by done. unfold epoch_for_frame. split.
  - intros Hf. apply Z.div_le_lower_bound; [done|]. lia.
  - intros Hf. pose proof (Z.mul_div_le f (epoch_length_frames o) Hl). nia.
Qed.

Lemma epoch_nonneg f : 0 <= f -> 0 <= epoch_for_frame o f.
Proof. intros. pose proof epoch_length_pos. apply Z.div_pos; lia. Qed.

(** A confirmed join on a data shard: joining until its activation epoch, then
    active for as long as it is renewed. *)
Lemma activation_status a f :
  status a = Active -> confirmation_filter a <> [] -> 0 < join_confirm_frame_number a ->
  epoch_for_frame o f <= epoch a ->
  effective_status o a f
  = if epoch_for_frame o f <? epoch_for_frame o (join_confirm_frame_number a) + 1
    then EffJoining else EffActive.
Proof.
  intros Hs Hf Hc He. unfold effective_status. rewrite Hs.
  destruct (confirmation_filter a); [done|]. rewrite (proj2 (Z.ltb_lt _ _)) by done. cbn [andb].
  case_match; [done|]. by rewrite (proj2 (Z.leb_le _ _)).
Qed.

(** Which list an allocation is counted in. *)
Definition counts_active (a : ProverAllocationInfo) (f : Z) : bool :=
  bool_decide (effective_status o a f = EffActive).
Definition counts_activating (a : ProverAllocationInfo) (f : Z) : bool :=
  bool_decide (effective_status o a f = EffJoining) && (0 <? join_confirm_frame_number a).

Lemma collect_members_counts l f :
  staying (collect_members o l f)
  = length (filter (fun x => counts_active x.2 f || counts_activating x.2 f = true) l)
  /\ length (members_active (collect_members o l f))
     = length (filter (fun x => counts_active x.2 f = true) l).
Proof.
  assert (Hgen : forall m,
    let m' := fold_left (fun m '(address, a) => members_add o m address a f) l m in
    staying m' = (staying m
      + length (filter (fun x => counts_active x.2 f || counts_activating x.2 f = true) l))%nat
    /\ length (members_active m') = (length (members_active m)
      + length (filter (fun x => counts_active x.2 f = true) l))%nat).
  { induction l as [|[x a] l IH]; intros m; cbn [fold_left]; [by rewrite !filter_nil, !Nat.add_0_r|].
    specialize (IH (members_add o m x a f)). cbv zeta in IH. destruct IH as [-> ->].
    rewrite !filter_cons. cbn [snd]. unfold members_add, counts_active, counts_activating, staying.
    destruct (effective_status o a f) eqn:Es; cbn [bool_decide];
      repeat first [rewrite bool_decide_eq_true_2 by done | rewrite bool_decide_eq_false_2 by done];
      cbn [orb andb]; repeat case_match; try done; cbn [members_active members_activating members_leaving];
      rewrite ?length_app; cbn [length]; split; lia. }
  exact (Hgen no_members).
Qed.
End lemmas.

(** ** Properties *)

Definition demo_alloc (s : ProverStatus) (join join_confirm leave leave_confirm ep : Z) : ProverAllocationInfo :=
  mkAllocation s [Byte.x01] [] join leave 0 0 0 join_confirm 0 leave_confirm 0 0 0 ep 0 [].

(** Deferred activation: a data-shard join confirmed at frame [c] reads
    Joining at every frame before the boundary that ends [c]'s epoch and Active
    from that frame on (while renewed), and [join_wait] announces exactly that
    frame beforehand and nothing afterwards. *)
Theorem join_activates_at_boundary :
  forall (o : Z) (a : ProverAllocationInfo) (f : Z),
  0 <= o -> 0 <= f ->
  status a = Active -> confirmation_filter a <> [] -> 0 < join_confirm_frame_number a ->
  epoch_for_frame o f <= epoch a ->
  (epoch_for_frame o (join_confirm_frame_number a) + 1) * epoch_length_frames o <= u64_max ->
  let g := epoch_start_frame o (epoch_for_frame o (join_confirm_frame_number a) + 1) in
  join_confirm_frame_number a < g
  /\ effective_status o a f = (if f <? g then EffJoining else EffActive)
  /\ join_wait o a f = (if f <? g then Some (Activation g) else None).
Proof.
  intros o a f Ho Hf Hs Hcf Hc He Hmax g.
  pose proof (epoch_nonneg o Ho (join_confirm_frame_number a) ltac:(lia)) as Hce.
  set (c := epoch_for_frame o (join_confirm_frame_number a)) in *.
  assert (Hg : forall x, g <= x <-> c + 1 <= epoch_for_frame o x)
    by (intros x; apply epoch_start_spec; [done|lia|done]).
  split; [|].
  { destruct (Z.le_gt_cases g (join_confirm_frame_number a)) as [Hle|]; [|done].
    apply Hg in Hle. fold c in Hle. lia. }
  unfold join_wait, phase. rewrite (activation_status o a f Hs Hcf Hc He). fold c.
  rewrite (proj2 (Z.ltb_lt 0 _) Hc).
  specialize (Hg f). destruct (Z.ltb_spec (epoch_for_frame o f) (c + 1)), (Z.ltb_spec f g); try lia; done.
Qed.

Lemma join_activates_at_boundary_witness :
  join_wait 0 (demo_alloc Active 100 800 0 0 2) 900 = Some (Activation 1440)
  /\ effective_status 0 (demo_alloc Active 100 800 0 0 2) 1440 = EffActive.
Proof.
  split.
  - apply (join_activates_at_boundary 0 (demo_alloc Active 100 800 0 0 2) 900);
      first [discriminate | reflexivity | vm_compute; discriminate].
  - apply (join_activates_at_boundary 0 (demo_alloc Active 100 800 0 0 2) 1440);
      first [discriminate | reflexivity | vm_compute; discriminate].
Defined.

(** Departure: a leaving allocation with departure epoch [e] serves notice
    (reads Leaving) at every frame of the epochs before [e] and has departed
    (reads ExpiredLeaving) from [e] on; a confirmed leave departs at the boundary
    after its confirmation, an unconfirmed one two boundaries after its proposal. *)
Theorem leave_departs_at_epoch : forall (o : Z) (a : ProverAllocationInfo) (e f : Z),
  departure_epoch o a = Some e ->
  effective_status o a f = (if epoch_for_frame o f <? e then EffLeaving else ExpiredLeaving)
  /\ e = (if 0 <? leave_confirm_frame_number a
          then epoch_for_frame o (leave_confirm_frame_number a) + 1
          else epoch_for_frame o (leave_frame_number a) + 2).
Proof.
  intros o a e f. unfold departure_epoch, effective_status.
  destruct (bool_decide (status a = Leaving)) eqn:Hs; [|done]. bool_to_prop. rewrite Hs. cbn [negb].
  destruct (0 <? leave_confirm_frame_number a); [by intros [= <-]|].
  destruct (0 <? leave_frame_number a); [|done]. intros [= <-]. split; [|done]. cbn [andb].
  destruct (Z.ltb_spec (epoch_for_frame o (leave_frame_number a) + 1) (epoch_for_frame o f)),
    (Z.ltb_spec (epoch_for_frame o f) (epoch_for_frame o (leave_frame_number a) + 2)); try lia; done.
Qed.

Lemma leave_departs_at_epoch_witness :
  effective_status 0 (demo_alloc Leaving 100 800 3000 3700 9) 4319 = EffLeaving
  /\ effective_status 0 (demo_alloc Leaving 100 800 3000 3700 9) 4320 = ExpiredLeaving.
Proof.
  split; apply (leave_departs_at_epoch 0 (demo_alloc Leaving 100 800 3000 3700 9) 6); reflexivity.
Defined.

(** Implicit expiry is permanent: an allocation that reads expired at some
    frame reads the same at every later frame as long as its record does not
    change. *)
Theorem expiry_permanent : forall (o : Z) (a : ProverAllocationInfo) (f f' : Z),
  0 <= o -> f <= f' -> is_expired (effective_status o a f) = true ->
  effective_status o a f' = effective_status o a f.
Proof.
  intros o a f f' Ho Hle. pose proof (epoch_mono o Ho f f' Hle). unfold effective_status.
  destruct (status a); try done.
  - repeat case_match; try done; bool_to_prop; lia.
  - destruct (confirmation_filter a); [done|]. repeat case_match; try done; bool_to_prop; lia.
  - repeat case_match; try done; bool_to_prop; lia.
Qed.

Lemma expiry_permanent_witness :
  effective_status 0 (demo_alloc Active 100 800 0 0 2) 5000
  = effective_status 0 (demo_alloc Active 100 800 0 0 2) 2160.
Proof. apply expiry_permanent; [lia|lia|reflexivity]. Defined.

(** The census predicts the next committee: if every data-shard allocation
    is renewed for the next epoch, joins not yet confirmed carry no confirm
    frame, and no confirm frame lies in the future, then the [staying] count of
    a shard at frame [f] is the number of active members at every frame of the
    next epoch. *)
Theorem staying_counts_next_committee :
  forall (o : Z) (l : list (bytes * ProverAllocationInfo)) (f f' : Z),
  0 <= o -> epoch_for_frame o f' = epoch_for_frame o f + 1 ->
  Forall (fun x => (status x.2 = Joining -> join_confirm_frame_number x.2 <= 0)
                   /\ join_confirm_frame_number x.2 <= f
                   /\ epoch_for_frame o f' <= epoch x.2) l ->
  staying (collect_members o l f) = length (members_active (collect_members o l f')).
Proof.
  intros o l f f' Ho E Hl.
  rewrite (proj1 (collect_members_counts o l f)), (proj2 (collect_members_counts o l f')).
  apply length_filter_ext. intros [x a] Hx. eapply Forall_forall in Hl; [|done].
  simpl in Hl. destruct Hl as (Hj & Hc & He). cbn [snd].
  pose proof (epoch_mono o Ho _ _ Hc) as Hce.
  unfold counts_active, counts_activating, effective_status.
  destruct (status a); try done.
  - rewrite (proj2 (Z.ltb_ge 0 (join_confirm_frame_number a))) by auto. rewrite !andb_false_r, orb_false_r.
    rewrite !bool_decide_eq_true. repeat case_match; by split.
  - destruct (confirmation_filter a); [done|].
    rewrite (proj2 (Z.ltb_ge (epoch_for_frame o f') _)) by lia. rewrite andb_false_r.
    rewrite (proj2 (Z.leb_le _ _) He), (proj2 (Z.leb_le (epoch_for_frame o f) (epoch a))) by lia.
    destruct (0 <? join_confirm_frame_number a); cbn [andb];
      destruct (epoch_for_frame o f <? epoch_for_frame o (join_confirm_frame_number a) + 1); done.
  - repeat case_match; done.
Qed.

Lemma staying_counts_next_committee_witness :
  let l := [([Byte.x05], demo_alloc Active 100 800 0 0 3); ([Byte.x06], demo_alloc Active 900 1500 0 0 3);
            ([Byte.x07], demo_alloc Joining 1500 0 0 0 3)] in
  staying (collect_members 0 l 2000) = length (members_active (collect_members 0 l 2160)).
Proof.
  intros l. apply staying_counts_next_committee; [lia|reflexivity|].
  repeat constructor; simpl; first [discriminate | intros; lia | vm_compute; discriminate].
Defined.

(** Expiry is epoch-aligned, not 720 frames after the proposal: with the
    mainnet epoch length, a join proposed at frame 1 is still Joining 1438
    frames later, past the [join_frame + 720] that the documentation of
    [EffectiveStatus] gives, and a leave proposed at frame 1 is still Leaving. *)
Theorem grace_is_epoch_aligned :
  1 + ALLOCATION_GRACE_FRAMES < 1439
  /\ effective_status 0 (demo_alloc Joining 1 0 0 0 0) 1439 = EffJoining
  /\ effective_status 0 (demo_alloc Leaving 1 2 1 0 0) 1439 = EffLeaving
  /\ effective_status 0 (demo_alloc Joining 1 0 0 0 0) 1440 = ExpiredJoining.
Proof. repeat split. Qed.

(** ** Frame intervals *)

Definition IDEAL_FRAME_TIME_MS : Z := 10000.

(** The entries of [take_while(|(from, _)| from <= frame)]. *)
Fixpoint take_while_from (frame : Z) (schedule : list (Z * Z)) : list (Z * Z) :=
  match schedule with
  | [] => []
  | (from, millis) :: rest =>
      if from <=? frame then (from, millis) :: take_while_from frame rest else []
  end.

(** [ideal_frame_time_ms_at]; an empty schedule is the unscheduled default. *)
Definition ideal_frame_time_ms_at (schedule : list (Z * Z)) (frame : Z) : Z :=
  match last (take_while_from frame schedule) with
  | None => IDEAL_FRAME_TIME_MS
  | Some (_, millis) => millis
  end.

(** The frame interval is that of the governing schedule entry: in an
    ascending schedule, the last entry that starts at or before the frame; with
    no such entry (in particular with an empty schedule) the mainnet default. *)
Theorem frame_time_of_governing_entry : forall (pre post : list (Z * Z)) (from millis frame : Z),
  Forall (fun x => x.1 <= from) pre -> from <= frame -> Forall (fun x => frame < x.1) post ->
  ideal_frame_time_ms_at (pre ++ (from, millis) :: post) frame = millis
  /\ ideal_frame_time_ms_at post frame = IDEAL_FRAME_TIME_MS.
Proof.
  intros pre post from millis frame Hpre Hle Hpost.
  assert (Hp : take_while_from frame post = []).
  { destruct Hpost as [|[from' m'] post Hlt _]; [done|]. cbn [fst] in Hlt. cbn [take_while_from].
    by rewrite (proj2 (Z.leb_gt _ _)). }
  split; [|by unfold ideal_frame_time_ms_at; rewrite Hp].
  assert (Ht : take_while_from frame (pre ++ (from, millis) :: post) = pre ++ [(from, millis)]).
  { induction Hpre as [|[f m] pre Hf _ IH]; cbn [take_while_from app].
    - by rewrite (proj2 (Z.leb_le _ _) Hle), Hp.
    - cbn [fst] in Hf. rewrite (proj2 (Z.leb_le f frame)) by lia. by rewrite IH. }
  unfold ideal_frame_time_ms_at. by rewrite Ht, last_snoc.
Qed.

Lemma frame_time_of_governing_entry_witness :
  ideal_frame_time_ms_at ([(0, 5000)] ++ (100, 2000) :: [(200, 1000)]) 150 = 2000
  /\ ideal_frame_time_ms_at [(200, 1000)] 150 = IDEAL_FRAME_TIME_MS.
Proof.
  apply (frame_time_of_governing_entry [(0, 5000)] [(200, 1000)] 100 2000 150);
    repeat constructor; simpl; lia.
Defined.

(** ** Committee handoff policy *)

Definition MAINNET_COMMITTEE_HANDOFF_FRAME : Z := 861840.
Definition MAINNET_MEMBERSHIP_BOUNDARY_FRAME : Z := 862560.
Definition MAINNET_FIRST_SESSION_BOUNDARY_FRAME : Z := 864000.

Inductive LegacyHistory : Type := Migrate | Discard.

Record CommitteeHandoffPolicy : Type := mkPolicy {
  activation_frame_of : Z;
  chain_id : bytes;
  legacy_history : LegacyHistory;
  membership_boundary_frame : Z;
  first_session_boundary_frame : Z;
}.

(** [b"quil/app-handoff/chain/v1"] *)
Definition chain_label : bytes := list_byte_of_string "quil/app-handoff/chain/v1".

(** [committee_handoff_chain_id]: label, zero padding, network id in byte 31. *)
Definition committee_handoff_chain_id (network : byte) : bytes :=
  chain_label ++ replicate (31 - length chain_label) Byte.x00 ++ [network].

(** [str::parse::<u64>]: an optional plus sign, then at least one digit, no overflow. *)
Definition digit_value (c : byte) : option Z :=
  let z := b2z c in if (48 <=? z) && (z <=? 57) then Some (z - 48) else None.
Fixpoint parse_digits (acc : Z) (s : bytes) : option Z :=
  match s with
  | [] => Some acc
  | c :: s' =>
      match digit_value c with
      | None => None
      | Some d => if acc * 10 + d <=? u64_max then parse_digits (acc * 10 + d) s' else None
      end
  end.
Definition parse_u64 (s : bytes) : option Z :=
  let s := match s with c :: s' => if bool_decide (b2z c = 43) then s' else s | [] => [] end in
  match s with [] => None | _ => parse_digits 0 s end.

(** [committee_handoff_policy_for_network]; [env] reads an environment variable. *)
Definition committee_handoff_policy_for_network (network : byte) (env : string -> option bytes)
    : option CommitteeHandoffPolicy :=
  if bool_decide (network = Byte.x00) then
    Some (mkPolicy MAINNET_COMMITTEE_HANDOFF_FRAME (committee_handoff_chain_id network) Discard
            MAINNET_MEMBERSHIP_BOUNDARY_FRAME MAINNET_FIRST_SESSION_BOUNDARY_FRAME)
  else
    activation ← env "QUIL_COMMITTEE_HANDOFF_FRAME"%string;
    activation ← parse_u64 activation;
    let discard := bool_decide (env "QUIL_COMMITTEE_HANDOFF_DISCARD_LEGACY"%string = Some [Byte.x31]) in
    let membership := default activation
      (env "QUIL_COMMITTEE_MEMBERSHIP_BOUNDARY_FRAME"%string ≫= parse_u64) in
    let first_session := default u64_max
      (env "QUIL_COMMITTEE_FIRST_SESSION_BOUNDARY_FRAME"%string ≫= parse_u64) in
    Some (mkPolicy activation (committee_handoff_chain_id network)
            (if discard then Discard else Migrate) membership first_session).

(** [committee_handoff_active] over the installed policy. *)
Definition committee_handoff_active (policy : option CommitteeHandoffPolicy) (frame : Z) : bool :=
  match policy with None => false | Some p => activation_frame_of p <=? frame end.

(** The handoff schedule of mainnet cannot be changed from the environment,
    and each of its three frames is the first frame of its (mainnet) epoch, so
    sessions start, and their memberships change, only at epoch boundaries. *)
Theorem mainnet_handoff_fixed : forall (env : string -> option bytes),
  exists p, committee_handoff_policy_for_network Byte.x00 env = Some p
    /\ legacy_history p = Discard
    /\ (forall frame, committee_handoff_active (Some p) frame = true <-> 861840 <= frame)
    /\ activation_frame_of p = epoch_start_frame (init_epoch_length_for_network 0) 1197
    /\ membership_boundary_frame p = epoch_start_frame (init_epoch_length_for_network 0) 1198
    /\ first_session_boundary_frame p = epoch_start_frame (init_epoch_length_for_network 0) 1200.
Proof.
  intros env. eexists. split; [done|]. split; [done|].
  split; [intros frame; apply Z.leb_le|]. repeat split.
Qed.

(** Session namespaces of different networks never collide: the chain
    identifier is 32 bytes long and determines the network. *)
Theorem chain_id_injective : forall n n' : byte,
  length (committee_handoff_chain_id n) = 32%nat
  /\ (committee_handoff_chain_id n = committee_handoff_chain_id n' -> n = n').
Proof.
  intros n n'. split; [done|]. unfold committee_handoff_chain_id. intros E.
  apply app_inv_head, app_inv_head in E. by injection E.
Qed.
