(* ===== verification/ProverOps.v ===== *)
(** * Prover operations

    [crates/quil-execution/src/global_intrinsic/materialize.rs]: the state
    transitions of prover and allocation vertices (join, confirm, reject, pause,
    resume, leave, kick), the aggregate prover status, reward balances; the gates
    of [verify.rs] that run before them (confirm timing, replay guard, re-join
    bars); and the registry's reading of an allocation vertex
    ([prover_registry.rs], [decode_allocation]).

    An operation acts on the vertex's tree in place.  The process-wide settings
    it consults (epoch length, replay guard, reset frames) are arguments. *)

From Stdlib Require Import Strings.Byte Strings.String.
From stdpp Require Import gmap.
From S2P Require Import Prelude Bytes Nibble Node Tree TreeSpec TreeCorrect GlobalSchema Lifecycle.

#[local] Open Scope string_scope.
#[local] Open Scope list_scope.
#[local] Open Scope Z_scope.

Definition STATUS_JOINING : Z := 0.
Definition STATUS_ACTIVE : Z := 1.
Definition STATUS_PAUSED : Z := 2.
Definition STATUS_LEAVING : Z := 3.
Definition STATUS_KICKED : Z := 4.
Definition STATUS_HISTORIC : Z := 6.

Definition PROVER : string := "prover:Prover".
Definition ALLOCATION : string := "allocation:ProverAllocation".
Definition REWARD : string := "reward:ProverReward".

(** [prover_release::Release] and its encoding *)
Record Release : Type := mkRelease {
  rel_version : byte * byte * byte;
  rel_patch : byte;
  rel_subpatch : Z;
}.
Definition release_to_bytes (r : Release) : bytes :=
  let '(a, b, c) := rel_version r in [a; b; c; rel_patch r] ++ be_bytes 2 (rel_subpatch r).
Definition release_from_bytes (b : bytes) : option Release :=
  match b with
  | [a; b; c; patch; s0; s1] => Some (mkRelease (a, b, c) patch (be_Z [s0; s1]))
  | _ => None
  end.

Section materialize.
Context `{Sha512} `{Poseidon}.

(** [read_field(..).and_then(|b| b.first().copied()).unwrap_or(d)] *)
Definition first_byte_or (d : Z) (o : option bytes) : Z :=
  match o with Some (b :: _) => b2z b | _ => d end.
Definition status_or (d : Z) : st VectorCommitmentTree Z :=
  st_read (fun t => fmap (M := outcome) (first_byte_or d) (read_field t ALLOCATION "Status")).

Definition write_frame (class field : string) (frame : Z) : st VectorCommitmentTree unit :=
  write_field class field (be_bytes 8 frame).
Definition write_status (s : Z) : st VectorCommitmentTree unit :=
  write_field ALLOCATION "Status" [z2b s].

(** [materialize_prover_pause] *)
Definition materialize_prover_pause (frame : Z) : st VectorCommitmentTree unit :=
  status ← status_or 0;
  if negb (status =? STATUS_ACTIVE) then st_fail InvalidArgument
  else write_status STATUS_PAUSED;; write_frame ALLOCATION "PauseFrameNumber" frame.

(** [materialize_prover_resume] *)
Definition materialize_prover_resume (frame : Z) : st VectorCommitmentTree unit :=
  status ← status_or 0;
  if negb (status =? STATUS_PAUSED) then st_fail InvalidArgument
  else write_status STATUS_ACTIVE;; write_frame ALLOCATION "ResumeFrameNumber" frame.

(** [materialize_prover_leave] *)
Definition materialize_prover_leave (frame : Z) : st VectorCommitmentTree unit :=
  status ← status_or 0;
  if negb (status =? STATUS_ACTIVE) && negb (status =? STATUS_PAUSED) then st_fail InvalidArgument
  else write_status STATUS_LEAVING;; write_frame ALLOCATION "LeaveFrameNumber" frame.

(** [prover_release::write_release] under [if let Some(release)] *)
Definition write_release (release : option Release) : st VectorCommitmentTree unit :=
  match release with
  | Some r => write_field ALLOCATION "Release" (release_to_bytes r)
  | None => mret tt
  end.

(** [materialize_prover_confirm] *)
Definition materialize_prover_confirm (o frame : Z) (release : option Release)
    : st VectorCommitmentTree unit :=
  status ← status_or 255;
  next_epoch ← st_read (fun _ => ck_u64 (epoch_for_frame o frame + 1));
  if status =? STATUS_JOINING then
    write_status STATUS_ACTIVE;;
    write_frame ALLOCATION "JoinConfirmFrameNumber" frame;;
    write_frame ALLOCATION "LastActiveFrameNumber" frame;;
    write_frame ALLOCATION "Epoch" next_epoch;;
    write_release release
  else if status =? STATUS_ACTIVE then
    write_frame ALLOCATION "LastActiveFrameNumber" frame;;
    write_frame ALLOCATION "Epoch" next_epoch;;
    write_release release
  else if status =? STATUS_LEAVING then
    write_frame ALLOCATION "LeaveConfirmFrameNumber" frame
  else st_fail InvalidArgument.

(** [materialize_prover_reject] *)
Definition materialize_prover_reject (frame : Z) : st VectorCommitmentTree unit :=
  status ← status_or 255;
  if status =? STATUS_JOINING then
    write_status STATUS_KICKED;; write_frame ALLOCATION "JoinRejectFrameNumber" frame
  else if status =? STATUS_LEAVING then
    write_status STATUS_ACTIVE;;
    write_frame ALLOCATION "LeaveRejectFrameNumber" frame;;
    write_frame ALLOCATION "LastActiveFrameNumber" frame
  else st_fail InvalidArgument.

(** [materialize_prover_kick], [materialize_prover_kick_allocation] *)
Definition materialize_prover_kick (frame : Z) : st VectorCommitmentTree unit :=
  write_field PROVER "Status" [z2b STATUS_KICKED];;
  write_frame PROVER "KickFrameNumber" frame;;
  write_frame PROVER "Seniority" 0.
Definition materialize_prover_kick_allocation (frame : Z) : st VectorCommitmentTree unit :=
  write_status STATUS_KICKED;; write_frame ALLOCATION "KickFrameNumber" frame.

(** [compute_aggregate_prover_status]: the flags of the loop, then the priority. *)
Definition compute_aggregate_prover_status (statuses : list Z) : Z :=
  let has s := existsb (Z.eqb s) statuses in
  if has STATUS_ACTIVE then STATUS_ACTIVE
  else if has STATUS_JOINING then STATUS_JOINING
  else if has STATUS_LEAVING then STATUS_LEAVING
  else if has STATUS_PAUSED then STATUS_PAUSED
  else STATUS_KICKED.

(** [update_prover_status_from_allocations] *)
Definition update_prover_status_from_allocations (statuses : list Z) : st VectorCommitmentTree Z :=
  let new_status := compute_aggregate_prover_status statuses in
  write_field PROVER "Status" [z2b new_status];; mret new_status.

(** ** Joins *)

(** [prover_address_from_pubkey], [allocation_address]: the memo table of
    [remembered_poseidon] holds the hash itself. *)
Definition prover_address_from_pubkey (public_key : bytes) : outcome bytes :=
  hash_bytes_to_32 public_key.
Definition allocation_address (public_key filter : bytes) : outcome bytes :=
  hash_bytes_to_32 (list_byte_of_string "PROVER_ALLOCATION" ++ public_key ++ filter).

(** Running a computation that fills a new tree. *)
Definition fresh_tree (m : st VectorCommitmentTree unit) : outcome VectorCommitmentTree :=
  match m new_tree with
  | (Ok _, t) => Ok t
  | (Err e, _) => Err e
  | (Panic, _) => Panic
  end.

(** [create_prover_vertex_tree] *)
Definition create_prover_vertex_tree (public_key : bytes) (seniority : Z) : outcome VectorCommitmentTree :=
  fresh_tree (
    write_type PROVER;;
    write_field PROVER "PublicKey" public_key;;
    write_field PROVER "Status" [z2b STATUS_JOINING];;
    write_frame PROVER "AvailableStorage" 0;;
    write_frame PROVER "Seniority" seniority).

(** [create_allocation_vertex_tree] *)
Definition create_allocation_vertex_tree (prover_address filter : bytes) (frame : Z)
    : outcome VectorCommitmentTree :=
  fresh_tree (
    write_type ALLOCATION;;
    write_field ALLOCATION "Prover" prover_address;;
    write_status STATUS_JOINING;;
    write_field ALLOCATION "ConfirmationFilter" filter;;
    write_frame ALLOCATION "JoinFrameNumber" frame).

Record ProverJoinOutput : Type := mkJoinOutput {
  jo_prover_tree : VectorCommitmentTree;
  jo_prover_address : bytes;
  jo_allocations : list (bytes * VectorCommitmentTree);
}.

(** The loop over the filters of [materialize_prover_join]. *)
Fixpoint join_allocations (public_key prover_address : bytes) (filters : list bytes) (frame : Z)
    : outcome (list (bytes * VectorCommitmentTree)) :=
  match filters with
  | [] => Ok []
  | filter :: filters' =>
      alloc_addr ← allocation_address public_key filter;
      alloc_tree ← create_allocation_vertex_tree prover_address filter frame;
      rest ← join_allocations public_key prover_address filters' frame;
      Ok ((alloc_addr, alloc_tree) :: rest)
  end.

(** [materialize_prover_join] *)
Definition materialize_prover_join (public_key : bytes) (filters : list bytes) (frame seniority : Z)
    : outcome ProverJoinOutput :=
  prover_address ← prover_address_from_pubkey public_key;
  prover_tree ← create_prover_vertex_tree public_key seniority;
  allocations ← join_allocations public_key prover_address filters frame;
  Ok (mkJoinOutput prover_tree prover_address allocations).

(** ** Reward balances *)

(** [read_reward_balance], [set_reward_balance] *)
Definition read_reward_balance (reward_tree : VectorCommitmentTree) : outcome bytes :=
  fmap (M := outcome) (default []) (read_field reward_tree REWARD "Balance").
Definition set_reward_balance (new_balance : bytes) : st VectorCommitmentTree unit :=
  write_type REWARD;; write_field REWARD "Balance" new_balance.

(** [add_to_reward_balance]: a big integer of at most 32 bytes is written with
    leading zeros, a longer one is refused; [to_bytes_be] gives the magnitude. *)
Definition add_to_reward_balance (amount : Z) : st VectorCommitmentTree unit :=
  current_bytes ← st_read read_reward_balance;
  let new_balance := be_Z current_bytes + amount in
  if Z.abs new_balance <? 2 ^ 256
  then set_reward_balance (be_bytes 32 (Z.abs new_balance))
  else st_fail InvalidArgument.

(** [set_reward_delegate_address] *)
Definition set_reward_delegate_address (delegate : bytes) : st VectorCommitmentTree unit :=
  write_type REWARD;; write_field REWARD "DelegateAddress" delegate.
End materialize.

(** ** Reading an allocation vertex *)

(** [map_allocation_status] *)
Definition map_allocation_status (b : Z) : ProverStatus :=
  if b =? 0 then Joining
  else if b =? 1 then Active
  else if b =? 2 then Paused
  else if b =? 3 then Leaving
  else if b =? 4 then Rejected
  else if b =? 5 then Kicked
  else if b =? 6 then Historic
  else Unknown.

(** The value of a field found from the root node. *)
Definition node_field (n : Node) (class field : string) : option bytes :=
  key ← field_key class field; find_leaf_value n key.

(** [read_u64_be], [read_bytes], on the value [find_leaf_value] returned. *)
Definition read_u64_be (v : option bytes) : Z :=
  match v with
  | None => 0
  | Some b => if (length b <? 8)%nat then 0 else be_Z (take 8 b)
  end.
Definition read_bytes (v : option bytes) : bytes := default [] v.

(** [decode_allocation], over the lookup of a field of the allocation; the slice
    [vertex_key[32..64]] panics on a shorter key. *)
Definition decode_fields (vertex_key : bytes) (field : string -> option bytes)
    : outcome (option (bytes * ProverAllocationInfo)) :=
  let prover_ref := read_bytes (field "Prover") in
  let u64 name := read_u64_be (field name) in
  match prover_ref, field "Status" with
  | [], _ | _, None => Ok None
  | _, Some [status] =>
      if (length vertex_key <? 64)%nat then Panic
      else
        Ok (Some (prover_ref,
          mkAllocation (map_allocation_status (b2z status))
            (read_bytes (field "ConfirmationFilter")) (read_bytes (field "RejectionFilter"))
            (u64 "JoinFrameNumber") (u64 "LeaveFrameNumber") (u64 "PauseFrameNumber")
            (u64 "ResumeFrameNumber") (u64 "KickFrameNumber") (u64 "JoinConfirmFrameNumber")
            (u64 "JoinRejectFrameNumber") (u64 "LeaveConfirmFrameNumber")
            (u64 "LeaveRejectFrameNumber") (u64 "LastActiveFrameNumber")
            (u64 "LastSignedFrameNumber") (u64 "Epoch")
            (first_byte_or 0 (field "Ring"))
            (take 32 (drop 32 vertex_key))))
  | _, Some _ => Ok None
  end.
Definition decode_allocation (vertex_key : bytes) (root : Node)
    : outcome (option (bytes * ProverAllocationInfo)) :=
  decode_fields vertex_key (node_field root ALLOCATION).

(** [decode_allocation_tree] *)
Definition decode_allocation_tree (address : bytes) (tree : VectorCommitmentTree)
    : outcome (option (bytes * ProverAllocationInfo)) :=
  match root tree with
  | None => Ok None
  | Some n => decode_allocation (GLOBAL_INTRINSIC_ADDRESS ++ address) n
  end.

(** ** Gates *)

(** [u64::from_be_bytes] of a field that must have eight bytes. *)
Definition exact_u64 (b : option bytes) : option Z :=
  match b with
  | Some b => if (length b =? 8)%nat then Some (be_Z b) else None
  | None => None
  end.

(** [validate_confirm_timing] *)
Definition validate_confirm_timing (o frame : Z) (tree : VectorCommitmentTree) : outcome unit :=
  status ← read_field tree ALLOCATION "Status";
  let confirm_epoch := epoch_for_frame o frame in
  let status := first_byte_or 255 status in
  let in_epoch_after field :=
    b ← read_field tree ALLOCATION field;
    match exact_u64 b with
    | None => Err InvalidArgument
    | Some proposed =>
        expect ← ck_u64 (epoch_for_frame o proposed + 1);
        if confirm_epoch =? expect then Ok tt else Err InvalidArgument
    end in
  if status =? 0 then in_epoch_after "JoinFrameNumber"
  else if status =? 3 then
    confirmed ← read_field tree ALLOCATION "LeaveConfirmFrameNumber";
    let confirmed := default [] confirmed in
    if negb (bool_decide (confirmed = [])) && negb (bool_decide (confirmed = replicate 8 x00))
    then Err InvalidArgument
    else in_epoch_after "LeaveFrameNumber"
  else if status =? 1 then
    filter ← read_field tree ALLOCATION "ConfirmationFilter";
    epoch ← read_field tree ALLOCATION "Epoch";
    let epoch := default 0 (exact_u64 epoch) in
    if bool_decide (default [] filter = []) || (confirm_epoch <? epoch) then Err InvalidArgument
    else Ok tt
  else Err InvalidArgument.

(** [validate_confirm_epoch] *)
Definition validate_confirm_epoch (o signed_frame inclusion_frame : Z) : outcome unit :=
  if (inclusion_frame <? signed_frame)
     || negb (epoch_for_frame o signed_frame =? epoch_for_frame o inclusion_frame)
  then Err InvalidArgument else Ok tt.

Definition JOIN_FRESHNESS_WINDOW : Z := 10.
Definition PROVER_OP_FRESHNESS_WINDOW : Z := JOIN_FRESHNESS_WINDOW.

(** [prover_op_replay_guard_active]; [guard] is the process's guard epoch. *)
Definition prover_op_replay_guard_active (o guard frame : Z) : bool :=
  guard <=? epoch_for_frame o frame.

(** [validate_prover_op_frame] *)
Definition validate_prover_op_frame (o guard signed_frame inclusion_frame : Z) : outcome unit :=
  if negb (prover_op_replay_guard_active o guard inclusion_frame) then Ok tt
  else if (inclusion_frame <? signed_frame)
          || (PROVER_OP_FRESHNESS_WINDOW <? inclusion_frame - signed_frame)
          || negb (epoch_for_frame o signed_frame =? epoch_for_frame o inclusion_frame)
  then Err InvalidArgument else Ok tt.

(** [validate_signed_after] *)
Definition validate_signed_after (o guard signed_frame inclusion_frame : Z)
    (allocation_tree : option VectorCommitmentTree) (field : string) : outcome unit :=
  if negb (prover_op_replay_guard_active o guard inclusion_frame) then Ok tt
  else
    b ← match allocation_tree with
        | None => Ok None
        | Some tree => read_field tree ALLOCATION field
        end;
    if signed_frame <? default 0 (exact_u64 b) then Err InvalidArgument else Ok tt.

Definition REJOIN_WINDOW_FRAMES : Z := 720.

(** One filter of [verify_prover_join_allocations_expired]. *)
Definition join_allocation_expired (frame : Z) (alloc_tree : VectorCommitmentTree) : outcome unit :=
  status ← read_field alloc_tree ALLOCATION "Status";
  let status := first_byte_or 4 status in
  if (status =? 4) || (status =? STATUS_HISTORIC) then Ok tt
  else
    jf_bytes ← read_field alloc_tree ALLOCATION "JoinFrameNumber";
    match exact_u64 jf_bytes with
    | None => Err InvalidArgument
    | Some jf => if frame <? sat_add_u64 jf REJOIN_WINDOW_FRAMES then Err InvalidArgument else Ok tt
    end.

Section join_gates.
Context `{Poseidon}.

(** [verify_prover_join_allocations_expired] *)
Fixpoint verify_prover_join_allocations_expired (filters : list bytes) (pubkey : bytes) (frame : Z)
    (lookup_alloc : bytes -> outcome (option VectorCommitmentTree)) : outcome unit :=
  match filters with
  | [] => Ok tt
  | filter :: filters' =>
      alloc_addr ← allocation_address pubkey filter;
      alloc ← lookup_alloc alloc_addr;
      match alloc with
      | None => Ok tt
      | Some alloc_tree => join_allocation_expired frame alloc_tree
      end ≫= fun _ => verify_prover_join_allocations_expired filters' pubkey frame lookup_alloc
  end.

(** [verify_prover_leave_has_active_allocation] *)
Fixpoint verify_prover_leave_has_active_allocation (filters : list bytes) (pubkey : bytes)
    (lookup_alloc : bytes -> outcome (option VectorCommitmentTree)) : outcome unit :=
  match filters with
  | [] => Err InvalidArgument
  | filter :: filters' =>
      alloc_addr ← allocation_address pubkey filter;
      alloc ← lookup_alloc alloc_addr;
      match alloc with
      | None => verify_prover_leave_has_active_allocation filters' pubkey lookup_alloc
      | Some alloc_tree =>
          status ← read_field alloc_tree ALLOCATION "Status";
          if first_byte_or 4 status =? 1 then Ok tt
          else verify_prover_leave_has_active_allocation filters' pubkey lookup_alloc
      end
  end.
End join_gates.

Definition KICK_AMNESTY_FRAME : Z := 695000.
Definition UNIFIED_RESET_AMNESTY_FRAME : Z := 699500.
Definition QUIL_GRID_RESET_V2_FRAME : Z := 740000.
Definition QUIL_PROVER_RESET_V3_FRAME : Z := 747000.
Definition QUIL_PROVER_RESET_V4_FRAME : Z := 754000.
Definition QUIL_PROVER_RESET_V5_FRAME : Z := 759000.

(** [quil_grid_reset_v2_frame] and its siblings: the environment setting, when
    it parses, else the mainnet frame. *)
Definition reset_frame (default_frame : Z) (setting : option bytes) : Z :=
  default default_frame (setting ≫= parse_u64).

(** [kick_bars_rejoin]; [resets] are the four frames read through [reset_frame]. *)
Definition kick_bars_rejoin (resets : list Z) (kick_frame_number current_frame : Z) : bool :=
  if kick_frame_number =? 0 then false
  else
    let forgiven at_frame := (kick_frame_number <? at_frame) && (at_frame <=? current_frame) in
    negb (forgiven KICK_AMNESTY_FRAME || forgiven UNIFIED_RESET_AMNESTY_FRAME
          || existsb forgiven resets).
Definition mainnet_resets : list Z :=
  [QUIL_GRID_RESET_V2_FRAME; QUIL_PROVER_RESET_V3_FRAME; QUIL_PROVER_RESET_V4_FRAME;
   QUIL_PROVER_RESET_V5_FRAME].

(** [recorded_kick_frame] *)
Definition recorded_kick_frame (prover_tree : VectorCommitmentTree) : outcome (option Z) :=
  a ← read_field prover_tree ALLOCATION "KickFrameNumber";
  b ← match a with
      | Some _ => Ok a
      | None => read_field prover_tree PROVER "KickFrameNumber"
      end;
  Ok (exact_u64 b).

(** [verify_prover_join_not_kicked] *)
Definition verify_prover_join_not_kicked (resets : list Z) (prover_tree : VectorCommitmentTree)
    (current_frame : Z) : outcome unit :=
  kf ← recorded_kick_frame prover_tree;
  match kf with
  | None => Ok tt
  | Some kf => if kick_bars_rejoin resets kf current_frame then Err InvalidArgument else Ok tt
  end.
