(* ===== verification/ProverCorrect.v ===== *)
(** * Prover operations: contract and lifecycle

    What the operations of [ProverOps.v] do to the record the registry reads
    from an allocation vertex, for any sequence of them ([alloc_spec] is the
    contract); the invariant of allocations whose operations went through the
    gates, and what it means for the effective status; kicks and re-joins;
    reward balances. *)

From Stdlib Require Import Strings.Byte Strings.String.
From stdpp Require Import gmap.
From S2P Require Import Prelude Bytes Nibble Node Tree TreeSpec TreeCorrect GlobalSchema Lifecycle ProverOps.

#[local] Open Scope string_scope.
#[local] Open Scope list_scope.
#[local] Open Scope Z_scope.

(** ** The operations on an allocation's record

    The contract of the operations: what each does to the record the registry
    reads, and when it is refused. *)

Inductive AllocOp : Type :=
| Pause | Resume | Leave | Confirm (release : option Release) | Reject | Kick.

Definition materialize `{Sha512} (o : Z) (op : AllocOp) (frame : Z) : st VectorCommitmentTree unit :=
  match op with
  | Pause => materialize_prover_pause frame
  | Resume => materialize_prover_resume frame
  | Leave => materialize_prover_leave frame
  | Confirm release => materialize_prover_confirm o frame release
  | Reject => materialize_prover_reject frame
  | Kick => materialize_prover_kick_allocation frame
  end.

Definition alloc_spec (o : Z) (op : AllocOp) (frame : Z) (a : ProverAllocationInfo)
    : outcome ProverAllocationInfo :=
  let '(mkAllocation s cf rf jn ln pn rn kn jc jr lc lr la ls ep rg va) := a in
  match op, s with
  | Pause, Active => Ok (mkAllocation Paused cf rf jn ln frame rn kn jc jr lc lr la ls ep rg va)
  | Resume, Paused => Ok (mkAllocation Active cf rf jn ln pn frame kn jc jr lc lr la ls ep rg va)
  | Leave, Active | Leave, Paused =>
      Ok (mkAllocation Leaving cf rf jn frame pn rn kn jc jr lc lr la ls ep rg va)
  | Confirm _, Joining =>
      Ok (mkAllocation Active cf rf jn ln pn rn kn frame jr lc lr frame ls
            (epoch_for_frame o frame + 1) rg va)
  | Confirm _, Active =>
      Ok (mkAllocation Active cf rf jn ln pn rn kn jc jr lc lr frame ls
            (epoch_for_frame o frame + 1) rg va)
  | Confirm _, Leaving =>
      Ok (mkAllocation Leaving cf rf jn ln pn rn kn jc jr frame lr la ls ep rg va)
  | Reject, Joining => Ok (mkAllocation Rejected cf rf jn ln pn rn kn jc frame lc lr la ls ep rg va)
  | Reject, Leaving =>
      Ok (mkAllocation Active cf rf jn ln pn rn kn jc jr lc frame frame ls ep rg va)
  | Kick, _ => Ok (mkAllocation Rejected cf rf jn ln pn rn frame jc jr lc lr la ls ep rg va)
  | _, _ => Err InvalidArgument
  end.

(** ** Lemmas: fields of a vertex *)

Definition map_field (m : gmap bytes bytes) (class field : string) : option bytes :=
  key ← field_key class field; m !! key.

Lemma map_field_insert class f k v m f' :
  field_key class f = Some k ->
  map_field (<[k := v]> m) class f' = if String.eqb f' f then Some v else map_field m class f'.
Proof.
  intros Hk. unfold map_field. destruct (String.eqb_spec f' f) as [E|E].
  - subst f'. rewrite Hk. simpl. by rewrite lookup_insert_eq.
  - destruct (field_key class f') as [k'|] eqn:Hk'; [|done]. simpl.
    apply lookup_insert_ne. intros ->. apply E. by eapply field_key_inj.
Qed.

Lemma type_key_field class field k : field_key class field = Some k -> k <> TYPE_KEY.
Proof.
  unfold field_key. destruct (field_tag class field) as [tag|] eqn:E; [|done]. intros [= <-] Hk.
  pose proof (type_key_separated _ (field_tag_order _ _ _ E)) as Hs. rewrite Hk in Hs.
  by apply separated_ne in Hs.
Qed.

Lemma map_field_type v m class field :
  map_field (<[TYPE_KEY := v]> m) class field = map_field m class field.
Proof.
  unfold map_field. destruct (field_key class field) as [k|] eqn:Hk; [|done]. simpl.
  apply lookup_insert_ne. intros E. by apply (type_key_field _ _ _ Hk).
Qed.

Lemma node_field_map t n class field :
  vertex_ok t -> root t = Some n -> node_field n class field = map_field (fields t) class field.
Proof.
  intros Ht Hr. unfold node_field, map_field. destruct (field_key class field) as [k|]; [|done]. simpl.
  unfold fields, contents. rewrite Hr, lookup_fmap. apply (find_leaf_value_spec []).
  by eapply tree_ok_root.
Qed.

Lemma read_field_map t class field :
  vertex_ok t -> read_field t class field = Ok (map_field (fields t) class field).
Proof.
  intros Ht. destruct (field_key class field) as [k|] eqn:Hk.
  - rewrite (read_field_ok t class field k) by done. unfold map_field. by rewrite Hk.
  - unfold read_field, map_field. by rewrite Hk.
Qed.

Lemma decode_fields_ext va f g :
  (forall name, f name = g name) -> decode_fields va f = decode_fields va g.
Proof. intros E. unfold decode_fields. by rewrite !E. Qed.

Lemma decode_tree_map addr t :
  vertex_ok t ->
  decode_allocation_tree addr t
  = decode_fields (GLOBAL_INTRINSIC_ADDRESS ++ addr) (map_field (fields t) ALLOCATION).
Proof.
  intros Ht. unfold decode_allocation_tree, decode_allocation. destruct (root t) as [n|] eqn:Hr.
  - apply decode_fields_ext. intros name. by apply node_field_map.
  - unfold fields, contents. rewrite Hr, fmap_empty. reflexivity.
Qed.

(** A computation that succeeds on every vertex and writes the given fields of
    the class, in order. *)
Definition upd (ws : list (string * bytes)) (g : string -> option bytes) : string -> option bytes :=
  foldl (fun g w f => if String.eqb f w.1 then Some w.2 else g f) g ws.

Definition writes `{Sha512} (class : string) (m : st VectorCommitmentTree unit)
    (ws : list (string * bytes)) : Prop :=
  forall t, vertex_ok t -> exists t', m t = (Ok tt, t') /\ vertex_ok t'
    /\ forall f, map_field (fields t') class f = upd ws (map_field (fields t) class) f.

Section writes.
Context `{Sha512}.

Lemma upd_ext ws g g' f : (forall f, g f = g' f) -> upd ws g f = upd ws g' f.
Proof.
  unfold upd. revert g g'. induction ws as [|w ws IH]; intros g g' E; simpl; [done|].
  apply IH. intros f'. by rewrite E.
Qed.

Lemma writes_field class field value :
  is_Some (field_key class field) -> writes class (write_field class field value) [(field, value)].
Proof.
  intros [k Hk] t Ht. destruct (write_field_ok t class field k value Ht Hk) as (t' & E & Hok & Hf).
  exists t'. split; [done|]. split; [done|]. intros f. rewrite Hf. by apply map_field_insert.
Qed.

Lemma writes_ret class : writes class (mret tt) [].
Proof. intros t Ht. by exists t. Qed.

Lemma writes_cons class field value m ws :
  is_Some (field_key class field) -> writes class m ws ->
  writes class (write_field class field value;; m) ((field, value) :: ws).
Proof.
  intros Hk Hm t Ht. destruct (writes_field class field value Hk t Ht) as (t1 & E1 & Hok1 & Hf1).
  destruct (Hm t1 Hok1) as (t2 & E2 & Hok2 & Hf2). exists t2.
  split; [unfold mbind, st_bind; by rewrite E1|]. split; [done|]. intros f. rewrite Hf2.
  by apply (upd_ext ws _ (upd [(field, value)] (map_field (fields t) class))).
Qed.

Lemma writes_release release :
  writes ALLOCATION (write_release release)
    (match release with Some r => [("Release", release_to_bytes r)] | None => [] end).
Proof. destruct release as [r|]; [|apply writes_ret]. apply writes_field. by eexists. Qed.

Lemma status_read d t :
  vertex_ok t ->
  status_or d t = (Ok (first_byte_or d (map_field (fields t) ALLOCATION "Status")), t).
Proof. intros Ht. unfold status_or, st_read. by rewrite read_field_map. Qed.
End writes.

(** Prove [writes] of a sequence of field writes of a class. *)
Ltac solve_writes :=
  repeat first
    [ apply writes_release
    | apply writes_cons; [by eexists|]
    | apply writes_field; by eexists ].

(** The record of a decoded allocation, and the byte its status came from. *)
Lemma decode_inv va g p a :
  decode_fields va g = Ok (Some (p, a)) ->
  exists s, g "Status" = Some [s] /\ status a = map_allocation_status (b2z s).
Proof.
  unfold decode_fields. destruct (read_bytes (g "Prover")); [by destruct (g "Status")|].
  destruct (g "Status") as [[|s [|]]|]; try done. destruct (length va <? 64)%nat; [done|].
  intros [= _ <-]. by exists s.
Qed.

Lemma u64_round_trip z : in_u64 z -> read_u64_be (Some (be_bytes 8 z)) = z.
Proof.
  intros Hz. unfold read_u64_be. rewrite length_be_bytes. cbn [Nat.ltb Nat.leb].
  rewrite firstn_all2 by (rewrite length_be_bytes; lia).
  apply be_Z_be_bytes_small. unfold_ints. simpl. lia.
Qed.

Section refine.
Context `{Sha512}.

Lemma writes_decode m ws addr t :
  writes ALLOCATION m ws -> vertex_ok t ->
  exists t', m t = (Ok tt, t') /\ vertex_ok t'
    /\ decode_allocation_tree addr t'
       = decode_fields (GLOBAL_INTRINSIC_ADDRESS ++ addr) (upd ws (map_field (fields t) ALLOCATION)).
Proof.
  intros Hm Ht. destruct (Hm t Ht) as (t' & E & Hok & Hf). exists t'. split; [done|]. split; [done|].
  rewrite decode_tree_map by done. by apply decode_fields_ext.
Qed.

(** The step of the record that a list of writes makes: what the registry reads
    afterwards is [a'] whenever it read [a] before. *)
Definition rewrites (ws : list (string * bytes)) (a a' : ProverAllocationInfo) : Prop :=
  forall va g p, decode_fields va g = Ok (Some (p, a)) -> decode_fields va (upd ws g) = Ok (Some (p, a')).

Lemma rewrites_materialize m ws addr t p a a' :
  writes ALLOCATION m ws -> rewrites ws a a' -> vertex_ok t ->
  decode_allocation_tree addr t = Ok (Some (p, a)) ->
  exists t', m t = (Ok tt, t') /\ vertex_ok t' /\ decode_allocation_tree addr t' = Ok (Some (p, a')).
Proof.
  intros Hm Hr Ht Hd. destruct (writes_decode m ws addr t Hm Ht) as (t' & E & Hok & Hd').
  exists t'. split; [done|]. split; [done|]. rewrite Hd'. apply Hr. by rewrite <- decode_tree_map.
Qed.
End refine.

(** Evaluate what a list of writes does to a record. *)
Ltac solve_rewrites :=
  let g := fresh "g" in
  intros ? g ? ;
  unfold decode_fields;
  cbn -[epoch_for_frame Z.add be_bytes read_u64_be read_bytes first_byte_or z2b map_allocation_status Nat.ltb take drop];
  rewrite ?u64_round_trip by assumption;
  destruct (read_bytes (g "Prover")); [by destruct (g "Status")|];
  destruct (g "Status") as [[|? [|]]|]; try done;
  destruct (_ <? 64)%nat; [done|];
  let Hd := fresh "Hd" in intros Hd; injection Hd; intros; subst;
  first [reflexivity | congruence].

(** [alloc_writes o op frame s]: the writes of an operation on an allocation in
    status [s], as the code makes them. *)
Definition alloc_writes (o : Z) (op : AllocOp) (frame : Z) (s : ProverStatus) : list (string * bytes) :=
  let f := be_bytes 8 frame in
  let e := be_bytes 8 (epoch_for_frame o frame + 1) in
  let release r := match r with Some r => [("Release", release_to_bytes r)] | None => [] end in
  match op, s with
  | Pause, _ => [("Status", [z2b STATUS_PAUSED]); ("PauseFrameNumber", f)]
  | Resume, _ => [("Status", [z2b STATUS_ACTIVE]); ("ResumeFrameNumber", f)]
  | Leave, _ => [("Status", [z2b STATUS_LEAVING]); ("LeaveFrameNumber", f)]
  | Confirm r, Joining =>
      [("Status", [z2b STATUS_ACTIVE]); ("JoinConfirmFrameNumber", f); ("LastActiveFrameNumber", f);
       ("Epoch", e)] ++ release r
  | Confirm r, Active => [("LastActiveFrameNumber", f); ("Epoch", e)] ++ release r
  | Confirm _, _ => [("LeaveConfirmFrameNumber", f)]
  | Reject, Joining => [("Status", [z2b STATUS_KICKED]); ("JoinRejectFrameNumber", f)]
  | Reject, _ =>
      [("Status", [z2b STATUS_ACTIVE]); ("LeaveRejectFrameNumber", f); ("LastActiveFrameNumber", f)]
  | Kick, _ => [("Status", [z2b STATUS_KICKED]); ("KickFrameNumber", f)]
  end.

Lemma alloc_writes_rewrite o op frame a a' :
  in_u64 frame -> in_u64 (epoch_for_frame o frame + 1) ->
  alloc_spec o op frame a = Ok a' -> rewrites (alloc_writes o op frame (status a)) a a'.
Proof.
  intros Hf He. destruct a as [s cf rf jn ln pn rn kn jc jr lc lr la ls ep rg va].
  destruct op as [| | |[r|]| |], s; cbn [alloc_spec alloc_writes status app]; try done;
    intros [= <-]; solve_rewrites.
Qed.

(** The status byte against the decoded status. *)
Lemma status_byte b :
  (b = STATUS_JOINING <-> map_allocation_status b = Joining)
  /\ (b = STATUS_ACTIVE <-> map_allocation_status b = Active)
  /\ (b = STATUS_PAUSED <-> map_allocation_status b = Paused)
  /\ (b = STATUS_LEAVING <-> map_allocation_status b = Leaving).
Proof.
  unfold map_allocation_status, STATUS_JOINING, STATUS_ACTIVE, STATUS_PAUSED, STATUS_LEAVING.
  repeat (case_match; bool_to_prop; subst); repeat split; intros; try done; lia.
Qed.

(** Decide the status tests of an operation from the decoded status. *)
Ltac status_tests b :=
  pose proof (status_byte b) as (Hj & Ha & Hp & Hl);
  repeat match goal with
  | |- context [Z.eqb b ?x] =>
      first [ rewrite (proj2 (Z.eqb_eq b x)) by intuition congruence
            | rewrite (proj2 (Z.eqb_neq b x)) by intuition congruence ]
  end; cbn [negb andb].

Lemma materialize_writes `{Sha512} o op frame t b :
  vertex_ok t -> in_u64 (epoch_for_frame o frame + 1) ->
  map_field (fields t) ALLOCATION "Status" = Some [b] ->
  match op, map_allocation_status (b2z b) with
  | Pause, Active | Resume, Paused | Leave, Active | Leave, Paused | Confirm _, Joining
  | Confirm _, Active | Confirm _, Leaving | Reject, Joining | Reject, Leaving | Kick, _ =>
      exists m, materialize o op frame t = m t
        /\ writes ALLOCATION m (alloc_writes o op frame (map_allocation_status (b2z b)))
  | _, _ => materialize o op frame t = (Err InvalidArgument, t)
  end.
Proof.
  intros Ht He Hs. assert (Hst : forall d, status_or d t = (Ok (b2z b), t)).
  { intros d. by rewrite status_read, Hs by done. }
  destruct op as [| | |r| |], (map_allocation_status (b2z b)) eqn:E; cbn [materialize alloc_writes app];
    try (exists (materialize_prover_kick_allocation frame); split; [done|]; solve_writes; fail);
    unfold materialize_prover_pause, materialize_prover_resume, materialize_prover_leave,
      materialize_prover_confirm, materialize_prover_reject, st_read;
    unfold mbind at 1, st_bind at 1; rewrite Hst;
    try (unfold mbind at 1, st_bind at 1; rewrite ck_u64_ok by done);
    status_tests (b2z b); try reflexivity;
    eexists; (split; [reflexivity|]); solve_writes.
Qed.

Lemma materialize_refines `{Sha512} o op frame addr t p a :
  vertex_ok t -> in_u64 frame -> in_u64 (epoch_for_frame o frame + 1) ->
  decode_allocation_tree addr t = Ok (Some (p, a)) ->
  match alloc_spec o op frame a with
  | Ok a' => exists t', materialize o op frame t = (Ok tt, t') /\ vertex_ok t'
               /\ decode_allocation_tree addr t' = Ok (Some (p, a'))
  | Err e => materialize o op frame t = (Err e, t)
  | Panic => False
  end.
Proof.
  intros Ht Hf He Hd. pose proof Hd as Hd'. rewrite decode_tree_map in Hd' by done.
  destruct (decode_inv _ _ _ _ Hd') as (b & Hb & Hs).
  pose proof (materialize_writes o op frame t b Ht He Hb) as Hw. rewrite <- Hs in Hw.
  pose proof (alloc_writes_rewrite o op frame a) as Hr.
  destruct (alloc_spec o op frame a) as [a'|e|] eqn:E.
  - assert (Hm : exists m, materialize o op frame t = m t
                   /\ writes ALLOCATION m (alloc_writes o op frame (status a))).
    { destruct op, a as [s]; cbn [alloc_spec status] in *; destruct s; done. }
    destruct Hm as (m & -> & Hm). eapply rewrites_materialize; eauto.
  - destruct op, a as [s]; cbn [alloc_spec status] in *; destruct s; try done; by injection E as <-.
  - destruct op, a as [s]; cbn [alloc_spec status] in *; destruct s; done.
Qed.

(** ** Joins and sequences of operations *)

(** The record of a new allocation. *)
Definition joined (filter : bytes) (frame : Z) (addr : bytes) : ProverAllocationInfo :=
  mkAllocation Joining filter [] frame 0 0 0 0 0 0 0 0 0 0 0 0 addr.

(** An operation applied by the dispatcher: the tree is stored only when it succeeds.
    The dispatcher stores it as a blob and rebuilds it on the next load; here the
    tree itself passes from one operation to the next. *)
Definition run_op `{Sha512} (o : Z) (t : VectorCommitmentTree) (step : AllocOp * Z) : VectorCommitmentTree :=
  match materialize o step.1 step.2 t with (Ok _, t') => t' | _ => t end.
Definition run_spec (o : Z) (a : ProverAllocationInfo) (step : AllocOp * Z) : ProverAllocationInfo :=
  match alloc_spec o step.1 step.2 a with Ok a' => a' | _ => a end.

(** Frames whose next epoch is still a [u64]. *)
Definition frame_ok (o frame : Z) : Prop :=
  0 < frame /\ in_u64 frame /\ in_u64 (epoch_for_frame o frame + 1).

Section joins.
Context `{Sha512} `{Poseidon}.

Lemma create_allocation_spec prover filter frame addr hash :
  compute_type_hash ALLOCATION = Ok hash -> prover <> [] -> length addr = 32%nat -> in_u64 frame ->
  exists t, create_allocation_vertex_tree prover filter frame = Ok t /\ vertex_ok t
    /\ decode_allocation_tree addr t = Ok (Some (prover, joined filter frame addr)).
Proof.
  intros Hh Hp Hl Hf. unfold create_allocation_vertex_tree, fresh_tree.
  destruct (write_type_ok new_tree ALLOCATION hash) as (t1 & E1 & Hok1 & Hf1); [done..|].
  destruct (writes_decode
    (write_field ALLOCATION "Prover" prover;; write_status STATUS_JOINING;;
     write_field ALLOCATION "ConfirmationFilter" filter;; write_frame ALLOCATION "JoinFrameNumber" frame)
    [("Prover", prover); ("Status", [z2b STATUS_JOINING]); ("ConfirmationFilter", filter);
     ("JoinFrameNumber", be_bytes 8 frame)] addr t1) as (t2 & E2 & Hok2 & Hd2); [solve_writes|done|].
  unfold mbind at 1, st_bind at 1. rewrite E1, E2. exists t2. split; [done|]. split; [done|].
  rewrite Hd2. clear E2 Hok2 Hd2.
  rewrite (decode_fields_ext _ _ (upd [("Prover", prover); ("Status", [z2b STATUS_JOINING]);
    ("ConfirmationFilter", filter); ("JoinFrameNumber", be_bytes 8 frame)] (fun _ => None))).
  2: { intros name. apply upd_ext. intros f. rewrite Hf1, map_field_type.
       unfold map_field. by destruct (field_key ALLOCATION f). }
  unfold decode_fields.
  cbn -[be_bytes read_u64_be read_bytes first_byte_or z2b map_allocation_status Nat.ltb take drop app].
  rewrite u64_round_trip by done. destruct prover as [|x prover]; [done|]. cbn [read_bytes default].
  rewrite length_app, Hl. cbn -[be_bytes take drop app].
  rewrite drop_app_length' by done. rewrite firstn_all2 by lia. done.
Qed.

Lemma run_op_spec o addr step t p a :
  frame_ok o step.2 -> vertex_ok t -> decode_allocation_tree addr t = Ok (Some (p, a)) ->
  vertex_ok (run_op o t step)
  /\ decode_allocation_tree addr (run_op o t step) = Ok (Some (p, run_spec o a step)).
Proof.
  intros (_ & Hf & He) Ht Hd. unfold run_op, run_spec.
  pose proof (materialize_refines o step.1 step.2 addr t p a Ht Hf He Hd) as Hm.
  destruct (alloc_spec o step.1 step.2 a) as [a'|e|]; [|by rewrite Hm|done].
  by destruct Hm as (t' & -> & Hok & Hd').
Qed.

Lemma run_ops_spec o addr steps t p a :
  Forall (fun s => frame_ok o s.2) steps -> vertex_ok t ->
  decode_allocation_tree addr t = Ok (Some (p, a)) ->
  vertex_ok (foldl (run_op o) t steps)
  /\ decode_allocation_tree addr (foldl (run_op o) t steps) = Ok (Some (p, foldl (run_spec o) a steps)).
Proof.
  intros Hs. revert t a. induction Hs as [|s steps Hs _ IH]; intros t a Ht Hd; [done|]. cbn [foldl].
  destruct (run_op_spec o addr s t p a Hs Ht Hd). by apply IH.
Qed.
End joins.

(** C5. The operations refine their contract: a join creates a vertex that the
    registry reads as a new joining allocation, and after any sequence of
    operations at any frames the registry reads exactly the record the contract
    [alloc_spec] gives, with the same prover; an operation the contract refuses
    for the allocation's status is refused with an error and changes nothing.
    (A kicked or rejected allocation reads Rejected: the status byte 4.) *)
Theorem prover_ops_refine :
  forall (Sha : Sha512) (Pos : Poseidon) (o : Z) (prover filter addr hash : bytes) (frame : Z)
    (steps : list (AllocOp * Z)),
  compute_type_hash ALLOCATION = Ok hash -> prover <> [] -> length addr = 32%nat -> in_u64 frame ->
  Forall (fun s => frame_ok o s.2) steps ->
  exists t, create_allocation_vertex_tree prover filter frame = Ok t
    /\ let t' := foldl (run_op o) t steps in
       let a' := foldl (run_spec o) (joined filter frame addr) steps in
       decode_allocation_tree addr t' = Ok (Some (prover, a'))
       /\ forall op f, frame_ok o f ->
            match alloc_spec o op f a' with
            | Ok a'' => exists t'', materialize o op f t' = (Ok tt, t'')
                          /\ decode_allocation_tree addr t'' = Ok (Some (prover, a''))
            | Err e => materialize o op f t' = (Err e, t')
            | Panic => False
            end.
Proof.
  intros Sha Pos o prover filter addr hash frame steps Hh Hp Hl Hf Hs.
  destruct (create_allocation_spec prover filter frame addr hash Hh Hp Hl Hf) as (t & -> & Hok & Hd).
  exists t. split; [done|]. destruct (run_ops_spec o addr steps t _ _ Hs Hok Hd) as [Hok' Hd'].
  split; [done|]. intros op f (_ & Hff & Hfe).
  pose proof (materialize_refines o op f addr _ _ _ Hok' Hff Hfe Hd') as Hm.
  destruct (alloc_spec _ _ _ _); [|done|done]. destruct Hm as (t'' & ? & _ & ?). eauto.
Qed.

(** A hash for the examples: the input cut or padded to 32 bytes. *)
Definition demo_poseidon : Poseidon := {| hash_bytes_to_32 b := Ok (resize 32 x00 b) |}.

Lemma prover_ops_refine_witness :
  exists t, create_allocation_vertex_tree (H := Demo.pad_sha512) (H0 := demo_poseidon)
              [x07] (replicate 32 x11) 100 = Ok t
    /\ decode_allocation_tree (replicate 32 x22)
         (foldl (run_op (H := Demo.pad_sha512) 0) t [(Confirm None, 800); (Pause, 1500)])
       = Ok (Some ([x07],
           mkAllocation Paused (replicate 32 x11) [] 100 0 1500 0 0 800 0 0 0 800 0 2 0 (replicate 32 x22))).
Proof.
  destruct (prover_ops_refine Demo.pad_sha512 demo_poseidon 0 [x07] (replicate 32 x11) (replicate 32 x22)
    (resize 32 x00 (replicate 32 xff)) 100 [(Confirm None, 800); (Pause, 1500)]) as (t & E & Hd & _).
  - reflexivity.
  - discriminate.
  - reflexivity.
  - unfold_ints; lia.
  - repeat constructor; simpl; try lia; vm_compute; discriminate.
  - exists t. split; [exact E|]. rewrite Hd. reflexivity.
Defined.

(** ** The gated lifecycle *)

(** What the validator checks of timing before an operation reaches the allocation.
    Its other checks (signature, frame and epoch of the message) only refuse more;
    what holds of every run through this gate holds of the runs they let pass. *)
Definition gate (o : Z) (op : AllocOp) (frame : Z) (t : VectorCommitmentTree) : outcome unit :=
  match op with
  | Confirm _ | Reject => validate_confirm_timing o frame t
  | _ => Ok tt
  end.

Definition gated_op `{Sha512} (o : Z) (t : VectorCommitmentTree) (step : AllocOp * Z) : VectorCommitmentTree :=
  match gate o step.1 step.2 t with Ok _ => run_op o t step | _ => t end.

(** The gate on the record. *)
Definition timely (o : Z) (op : AllocOp) (frame : Z) (a : ProverAllocationInfo) : Prop :=
  match op with
  | Confirm _ | Reject =>
      match status a with
      | Joining => epoch_for_frame o frame = epoch_for_frame o (join_frame_number a) + 1
      | Leaving => leave_confirm_frame_number a = 0
                   /\ epoch_for_frame o frame = epoch_for_frame o (leave_frame_number a) + 1
      | Active => confirmation_filter a <> []
      | _ => False
      end
  | _ => True
  end.

Lemma exact_u64_read b z : exact_u64 b = Some z -> read_u64_be b = z.
Proof.
  unfold exact_u64, read_u64_be. destruct b as [b|]; [|done].
  destruct (Nat.eqb_spec (length b) 8) as [E|]; [|done]. intros [= <-]. rewrite E. cbn [Nat.ltb Nat.leb].
  by rewrite firstn_all2 by lia.
Qed.

Lemma unconfirmed_read b :
  negb (bool_decide (default [] b = [])) && negb (bool_decide (default [] b = replicate 8 x00)) = false ->
  read_u64_be b = 0.
Proof.
  destruct b as [b|]; [|done]. change (default [] (Some b)) with b. rewrite andb_false_iff, !negb_false_iff, !bool_decide_eq_true.
  by intros [->| ->].
Qed.

Lemma decode_record va g p a :
  decode_fields va g = Ok (Some (p, a)) ->
  confirmation_filter a = read_bytes (g "ConfirmationFilter")
  /\ join_frame_number a = read_u64_be (g "JoinFrameNumber")
  /\ leave_frame_number a = read_u64_be (g "LeaveFrameNumber")
  /\ leave_confirm_frame_number a = read_u64_be (g "LeaveConfirmFrameNumber").
Proof.
  unfold decode_fields. destruct (read_bytes (g "Prover")); [by destruct (g "Status")|].
  destruct (g "Status") as [[|s [|]]|]; try done. destruct (length va <? 64)%nat; [done|].
  by intros [= _ <-].
Qed.

Lemma gate_timely o op frame addr t p a :
  vertex_ok t -> decode_allocation_tree addr t = Ok (Some (p, a)) ->
  gate o op frame t = Ok tt -> timely o op frame a.
Proof.
  intros Ht Hd Hg. rewrite decode_tree_map in Hd by done.
  destruct (decode_inv _ _ _ _ Hd) as (b & Hb & Hs).
  destruct (decode_record _ _ _ _ Hd) as (Hcf & Hj & Hl & Hlc).
  assert (Hafter : forall field z,
    read_u64_be (map_field (fields t) ALLOCATION field) = z ->
    match exact_u64 (map_field (fields t) ALLOCATION field) with
    | None => Err InvalidArgument
    | Some proposed =>
        ck_u64 (epoch_for_frame o proposed + 1) ≫= fun expect =>
        if epoch_for_frame o frame =? expect then Ok tt else Err InvalidArgument
    end = Ok tt -> epoch_for_frame o frame = epoch_for_frame o z + 1).
  { intros field z Hz He. destruct (exact_u64 _) as [z'|] eqn:Ez; [|done].
    apply exact_u64_read in Ez. rewrite Hz in Ez. subst z'. apply outcome_bind_ok in He as (e & He & Hq).
    unfold ck_u64 in He.
    destruct (_ && _) in He; [|done]. injection He as <-. by destruct (Z.eqb_spec (epoch_for_frame o frame) (epoch_for_frame o z + 1)). }
  unfold timely, gate in *. destruct op as [| | |r| |]; try done;
    unfold validate_confirm_timing in Hg; rewrite !read_field_map in Hg by done; rewrite Hb in Hg;
    cbn [mbind outcome_bind first_byte_or] in Hg; pose proof (status_byte (b2z b)) as (Sj & Sa & _ & Sl);
    unfold STATUS_JOINING, STATUS_ACTIVE, STATUS_LEAVING in *;
    (destruct (Z.eqb_spec (b2z b) 0) as [E|E];
      [rewrite Hs, (proj1 Sj E); by eapply Hafter|]);
    (destruct (Z.eqb_spec (b2z b) 3) as [E'|E'];
      [rewrite Hs, (proj1 Sl E'); case_match eqn:Hu; [done|];
       split; [rewrite Hlc; by apply unconfirmed_read|by eapply Hafter]|]);
    (destruct (Z.eqb_spec (b2z b) 1) as [E''|E'']; [|done]);
    rewrite Hs, (proj1 Sa E''); case_match eqn:Hu; try done; apply orb_false_iff in Hu as [Hu _];
    apply bool_decide_eq_false in Hu; by rewrite Hcf.
Qed.

(** The invariant of allocations that went through the gates. *)
Record lifecycle_ok (o : Z) (a : ProverAllocationInfo) : Prop := {
  lo_join : 0 < join_frame_number a;
  lo_confirmed : status a = Active \/ status a = Paused \/ status a = Leaving ->
    0 < join_confirm_frame_number a
    /\ epoch_for_frame o (join_confirm_frame_number a) = epoch_for_frame o (join_frame_number a) + 1;
  lo_no_leave : status a = Joining \/ status a = Active \/ status a = Paused ->
    leave_confirm_frame_number a = 0;
  lo_leaving : status a = Leaving ->
    0 < leave_frame_number a
    /\ (leave_confirm_frame_number a = 0
        \/ (0 < leave_confirm_frame_number a
            /\ epoch_for_frame o (leave_confirm_frame_number a)
               = epoch_for_frame o (leave_frame_number a) + 1));
}.

Lemma joined_ok o filter frame addr : 0 < frame -> lifecycle_ok o (joined filter frame addr).
Proof. intros. split; simpl; [done|intuition discriminate..]. Qed.

Lemma alloc_spec_ok o op frame a a' :
  0 < frame -> lifecycle_ok o a -> timely o op frame a -> alloc_spec o op frame a = Ok a' ->
  lifecycle_ok o a'.
Proof.
  intros Hf [Hj Hc Hn Hl] Ht. destruct a as [s cf rf jn ln pn rn kn jc jr lc lr la ls ep rg va].
  destruct op as [| | |r| |], s; cbn -[epoch_for_frame] in *; try done; intros [= <-];
    split; cbn -[epoch_for_frame]; intros; try (intuition (discriminate || eauto); fail);
    intuition (discriminate || lia).
Qed.

(** The fields of the record no operation changes. *)
Lemma alloc_spec_frame o op frame a a' :
  alloc_spec o op frame a = Ok a' ->
  join_frame_number a' = join_frame_number a /\ confirmation_filter a' = confirmation_filter a.
Proof.
  destruct a as [s cf rf jn ln pn rn kn jc jr lc lr la ls ep rg va].
  destruct op, s; cbn [alloc_spec]; try done; by intros [= <-].
Qed.

(** The record of a vertex that went through the gates since a join. *)
Definition tracked (o : Z) (addr p filter : bytes) (frame : Z) (t : VectorCommitmentTree) : Prop :=
  vertex_ok t /\ exists a, decode_allocation_tree addr t = Ok (Some (p, a)) /\ lifecycle_ok o a
    /\ join_frame_number a = frame /\ confirmation_filter a = filter.

Lemma gated_op_tracked `{Sha512} o addr p filter frame step t :
  frame_ok o step.2 -> tracked o addr p filter frame t ->
  tracked o addr p filter frame (gated_op o t step).
Proof.
  intros Hf (Ht & a & Hd & Hok & Hj & Hc). unfold gated_op.
  destruct (gate o step.1 step.2 t) as [[]|e|] eqn:Hg; [|by split; eauto..].
  pose proof (gate_timely _ _ _ _ _ _ _ Ht Hd Hg) as Htime.
  destruct (run_op_spec o addr step t p a Hf Ht Hd) as [Ht' Hd']. split; [done|].
  unfold run_spec in Hd'. destruct (alloc_spec o step.1 step.2 a) as [a'|e|] eqn:E; [|eauto 10..].
  destruct (alloc_spec_frame _ _ _ _ _ E) as [Ej Ec]. exists a'. split; [done|].
  split; [by eapply alloc_spec_ok; [apply Hf|..]|]. by rewrite Ej, Ec.
Qed.

Lemma gated_ops_tracked `{Sha512} o addr p filter frame steps t :
  Forall (fun s => frame_ok o s.2) steps -> tracked o addr p filter frame t ->
  tracked o addr p filter frame (foldl (gated_op o) t steps).
Proof. intros Hs. revert t. induction Hs; intros t Ht; [done|]. apply IHHs. by apply gated_op_tracked. Qed.

(** What the invariant means at a frame. *)
Lemma lifecycle_ok_active o a f :
  lifecycle_ok o a -> confirmation_filter a <> [] -> effective_status o a f = EffActive ->
  epoch_for_frame o (join_frame_number a) + 2 <= epoch_for_frame o f.
Proof.
  intros [Hj Hc Hn Hl] Hfil. unfold effective_status.
  destruct (status a) eqn:Es; try (by repeat case_match); destruct (confirmation_filter a); [done|].
  destruct Hc as [Hc He]; [auto|]. rewrite (proj2 (Z.ltb_lt 0 _) Hc). cbn [andb].
  destruct (Z.ltb_spec (epoch_for_frame o f) (epoch_for_frame o (join_confirm_frame_number a) + 1));
    [done|lia].
Qed.

Lemma lifecycle_ok_leaving o a f :
  lifecycle_ok o a -> status a = Leaving ->
  (effective_status o a f = EffLeaving
   <-> epoch_for_frame o f < epoch_for_frame o (leave_frame_number a) + 2).
Proof.
  intros [Hj Hc Hn Hl] Es. destruct (Hl Es) as [Hp Hlc]. unfold effective_status. rewrite Es.
  destruct Hlc as [->|[Hlc He]].
  - cbn [Z.ltb Z.compare]. rewrite (proj2 (Z.ltb_lt 0 _) Hp). cbn [andb].
    destruct (Z.ltb_spec (epoch_for_frame o (leave_frame_number a) + 1) (epoch_for_frame o f));
      split; (discriminate || lia || done).
  - rewrite (proj2 (Z.ltb_lt 0 _) Hlc), He.
    destruct (Z.ltb_spec (epoch_for_frame o f) (epoch_for_frame o (leave_frame_number a) + 1 + 1));
      split; (discriminate || lia || done).
Qed.

(** C4. The epoch rule of the lifecycle, end to end: take a join at frame [j] and
    any sequence of operations through the gates (confirms and rejects in the
    epoch after the proposal, no second confirm of a leave).  Whatever was
    accepted, a data-shard allocation is never read as active before the second
    epoch boundary after its join, and a leave, confirmed or not, serves notice
    until exactly the second boundary after it. *)
Theorem lifecycle_two_boundaries :
  forall (Sha : Sha512) (Pos : Poseidon) (o : Z) (prover filter addr hash : bytes) (j : Z)
    (steps : list (AllocOp * Z)),
  compute_type_hash ALLOCATION = Ok hash -> prover <> [] -> length addr = 32%nat ->
  0 < j -> in_u64 j -> Forall (fun s => frame_ok o s.2) steps ->
  exists t a, create_allocation_vertex_tree prover filter j = Ok t
    /\ decode_allocation_tree addr (foldl (gated_op o) t steps) = Ok (Some (prover, a))
    /\ (filter <> [] -> forall f, effective_status o a f = EffActive ->
          epoch_for_frame o j + 2 <= epoch_for_frame o f)
    /\ (status a = Leaving -> forall f, effective_status o a f = EffLeaving
          <-> epoch_for_frame o f < epoch_for_frame o (leave_frame_number a) + 2).
Proof.
  intros Sha Pos o prover filter addr hash j steps Hh Hp Hl Hj Hju Hs.
  destruct (create_allocation_spec prover filter j addr hash Hh Hp Hl Hju) as (t & -> & Hok & Hd).
  destruct (gated_ops_tracked o addr prover filter j steps t Hs) as (_ & a & Hd' & Hok' & Hj' & Hc').
  { split; [done|]. eexists. split; [exact Hd|]. split; [by apply joined_ok|done]. }
  exists t, a. split; [done|]. split; [done|]. split.
  - intros Hfil f Hact. rewrite <- Hj'. apply (lifecycle_ok_active o a f); [done| |done]. by rewrite Hc'.
  - intros Hst f. by apply lifecycle_ok_leaving.
Qed.

Lemma lifecycle_two_boundaries_witness :
  exists t a, create_allocation_vertex_tree (H := Demo.pad_sha512) (H0 := demo_poseidon)
              [x07] (replicate 32 x11) 100 = Ok t
    /\ decode_allocation_tree (replicate 32 x22)
         (foldl (gated_op (H := Demo.pad_sha512) 0) t [(Confirm None, 800); (Leave, 1500)])
       = Ok (Some ([x07], a))
    /\ (status a = Leaving -> forall f, effective_status 0 a f = EffLeaving
          <-> epoch_for_frame 0 f < epoch_for_frame 0 (leave_frame_number a) + 2).
Proof.
  destruct (lifecycle_two_boundaries Demo.pad_sha512 demo_poseidon 0 [x07] (replicate 32 x11)
    (replicate 32 x22) (resize 32 x00 (replicate 32 xff)) 100 [(Confirm None, 800); (Leave, 1500)])
    as (t & a & E & Hd & _ & Hl).
  - reflexivity.
  - discriminate.
  - reflexivity.
  - lia.
  - unfold_ints; lia.
  - repeat constructor; simpl; try lia; vm_compute; discriminate.
  - exists t, a. split; [exact E|]. split; [exact Hd|exact Hl].
Defined.

(** ** Kicks and re-joins *)

Lemma map_field_write t class field k v class' field' :
  field_key class field = Some k ->
  map_field (<[k := v]> (fields t)) class' field'
  = if bool_decide (field_key class' field' = Some k) then Some v else map_field (fields t) class' field'.
Proof.
  intros Hk. unfold map_field. destruct (field_key class' field') as [k'|]; simpl.
  - case_bool_decide as E; [injection E as ->; apply lookup_insert_eq|].
    apply lookup_insert_ne. congruence.
  - done.
Qed.

(** Decide which of the looked-up keys are the written one. *)
Ltac decide_keys :=
  repeat match goal with
  | |- context [bool_decide ?P] =>
      let b := eval vm_compute in (bool_decide P) in
      replace (bool_decide P) with b by (vm_compute; reflexivity); cbv iota
  end.

(** The amnesty frames of a process. *)
Definition amnesties (resets : list Z) : list Z :=
  KICK_AMNESTY_FRAME :: UNIFIED_RESET_AMNESTY_FRAME :: resets.

Lemma kick_bars_spec resets k f :
  kick_bars_rejoin resets k f = true
  <-> k <> 0 /\ Forall (fun r => k < r -> f < r) (amnesties resets).
Proof.
  unfold kick_bars_rejoin, amnesties. rewrite !Forall_cons.
  destruct (Z.eqb_spec k 0) as [->|Hk]; [by intuition discriminate|].
  rewrite negb_true_iff, !orb_false_iff, !andb_false_iff, !Z.ltb_ge, !Z.leb_gt.
  assert (E : existsb (fun r => (k <? r) && (r <=? f)) resets = false
              <-> Forall (fun r => k < r -> f < r) resets).
  { induction resets as [|r resets IH]; simpl; [split; [constructor|done]|].
    rewrite Forall_cons, <- IH, orb_false_iff, andb_false_iff, Z.ltb_ge, Z.leb_gt. intuition lia. }
  rewrite E. intuition lia.
Qed.

(** A kick bars the prover from joining again: after the kick is recorded on
    the prover's vertex the join gate refuses exactly while no amnesty covers
    it.  An amnesty is never withdrawn (a kick that no longer bars at some frame
    bars at no later one), and a kick at or after every amnesty frame bars
    forever. *)
Theorem kicked_prover_barred :
  forall (Sha : Sha512) (resets : list Z) (t : VectorCommitmentTree) (k : Z),
  vertex_ok t -> map_field (fields t) ALLOCATION "KickFrameNumber" = None -> in_u64 k ->
  exists t', materialize_prover_kick k t = (Ok tt, t')
    /\ (forall f, verify_prover_join_not_kicked resets t' f
          = if kick_bars_rejoin resets k f then Err InvalidArgument else Ok tt)
    /\ (forall f f', f <= f' -> kick_bars_rejoin resets k f = false -> kick_bars_rejoin resets k f' = false)
    /\ (k <> 0 -> Forall (fun r => r <= k) (amnesties resets) ->
        forall f, verify_prover_join_not_kicked resets t' f = Err InvalidArgument).
Proof.
  intros Sha resets t k Ht Hnone Hk. unfold materialize_prover_kick, write_frame.
  destruct (write_field_ok t PROVER "Status" _ [z2b STATUS_KICKED] Ht eq_refl) as (t1 & E1 & Ht1 & F1).
  destruct (write_field_ok t1 PROVER "KickFrameNumber" _ (be_bytes 8 k) Ht1 eq_refl) as (t2 & E2 & Ht2 & F2).
  destruct (write_field_ok t2 PROVER "Seniority" _ (be_bytes 8 0) Ht2 eq_refl) as (t3 & E3 & Ht3 & F3).
  exists t3. split; [unfold mbind, st_bind; by rewrite E1, E2, E3|].
  assert (Hkf : recorded_kick_frame t3 = Ok (Some k)).
  { unfold recorded_kick_frame. rewrite !read_field_map by done.
    rewrite F3, !(map_field_write t2 PROVER "Seniority") by done.
    rewrite F2, !(map_field_write t1 PROVER "KickFrameNumber") by done.
    rewrite F1, !(map_field_write t PROVER "Status") by done.
    rewrite Hnone. decide_keys. cbn [mbind outcome_bind].
    unfold exact_u64. rewrite length_be_bytes. cbn [Nat.eqb].
    rewrite be_Z_be_bytes_small by (unfold_ints; simpl; lia). done. }
  assert (Hv : forall f, verify_prover_join_not_kicked resets t3 f
            = if kick_bars_rejoin resets k f then Err InvalidArgument else Ok tt).
  { intros f. unfold verify_prover_join_not_kicked. by rewrite Hkf. }
  split; [done|]. split.
  - intros f f' Hle. rewrite <- !not_true_iff_false, !kick_bars_spec. intros Hn [Hk0 Hall]. apply Hn.
    split; [done|]. eapply Forall_impl; [exact Hall|]. simpl. lia.
  - intros Hk0 Hall f. rewrite Hv. rewrite (proj2 (kick_bars_spec resets k f)); [done|].
    split; [done|]. eapply Forall_impl; [exact Hall|]. simpl. lia.
Qed.

Lemma kicked_prover_barred_witness :
  exists t', materialize_prover_kick (H := Demo.pad_sha512) 800000 new_tree = (Ok tt, t')
    /\ forall f, verify_prover_join_not_kicked mainnet_resets t' f = Err InvalidArgument.
Proof.
  destruct (kicked_prover_barred Demo.pad_sha512 mainnet_resets new_tree 800000) as (t' & E & _ & _ & Hb);
    [done|reflexivity|unfold_ints; lia|].
  exists t'. split; [exact E|]. apply Hb; [lia|]. repeat constructor; vm_compute; discriminate.
Defined.

(** Reward accounting is exact: crediting an amount reads back as the sum,
    written in 32 bytes, and leaves the delegate address as it was; a sum that
    does not fit 256 bits is refused and changes nothing. *)
Theorem reward_credit_exact :
  forall (Sha : Sha512) (Pos : Poseidon) (t : VectorCommitmentTree) (hash current : bytes) (amount : Z),
  vertex_ok t -> compute_type_hash REWARD = Ok hash -> read_reward_balance t = Ok current -> 0 <= amount ->
  (be_Z current + amount < 2 ^ 256 ->
   exists t', add_to_reward_balance amount t = (Ok tt, t') /\ vertex_ok t'
     /\ (exists b, read_reward_balance t' = Ok b /\ length b = 32%nat /\ be_Z b = be_Z current + amount)
     /\ map_field (fields t') REWARD "DelegateAddress" = map_field (fields t) REWARD "DelegateAddress")
  /\ (2 ^ 256 <= be_Z current + amount -> add_to_reward_balance amount t = (Err InvalidArgument, t)).
Proof.
  intros Sha Pos t hash current amount Ht Hh Hc Ha.
  pose proof (be_Z_range current) as Hr.
  assert (Hstep : add_to_reward_balance amount t
            = (if Z.abs (be_Z current + amount) <? 2 ^ 256
               then set_reward_balance (be_bytes 32 (Z.abs (be_Z current + amount)))
               else st_fail InvalidArgument) t).
  { unfold add_to_reward_balance, st_read. unfold mbind, st_bind. by rewrite Hc. }
  rewrite Hstep, Z.abs_eq by lia. split; intros Hb.
  - rewrite (proj2 (Z.ltb_lt _ _) Hb). unfold set_reward_balance.
    destruct (write_type_ok t REWARD hash Ht Hh) as (t1 & E1 & Ht1 & F1).
    destruct (write_field_ok t1 REWARD "Balance" _ (be_bytes 32 (be_Z current + amount)) Ht1 eq_refl)
      as (t2 & E2 & Ht2 & F2).
    exists t2. split; [unfold mbind, st_bind; by rewrite E1, E2|]. split; [done|].
    unfold read_reward_balance. rewrite !read_field_map by done.
    rewrite F2, !(map_field_write t1 REWARD "Balance"), F1, !map_field_type by done.
    decide_keys. split; [|done]. eexists. split; [done|].
    split; [apply length_be_bytes|]. apply be_Z_be_bytes_small. change (8 * Z.of_nat 32) with 256. lia.
  - rewrite (proj2 (Z.ltb_ge _ _) Hb). done.
Qed.

Lemma reward_credit_exact_witness :
  exists t', add_to_reward_balance (H := Demo.pad_sha512) (H0 := demo_poseidon) 500 new_tree = (Ok tt, t')
    /\ exists b, read_reward_balance t' = Ok b /\ be_Z b = 500.
Proof.
  destruct (reward_credit_exact Demo.pad_sha512 demo_poseidon new_tree
              (resize 32 x00 (replicate 32 xff)) [] 500) as [Hok _];
    [done|reflexivity|reflexivity|lia|].
  destruct Hok as (t' & E & _ & (b & Hb & _ & Hz) & _); [vm_compute; reflexivity|].
  exists t'. split; [exact E|]. exists b. split; [exact Hb|exact Hz].
Defined.
