(* ===== verification/LeafRoots.v ===== *)
(** * Leaf-root registrations

    [crates/quil-execution/src/global_intrinsic/materialize.rs]: the vertex in
    which a member registers the storage root of one leaf, per epoch, in three
    slots (previous, current, next).  Whether an epoch uses hash storage proofs
    ([quil_types::consensus::hash_storage_proofs_at]) is an argument. *)

From Stdlib Require Import Strings.Byte Strings.String.
From stdpp Require Import gmap sorting.
From S2P Require Import Prelude Bytes Nibble Node Tree TreeSpec TreeCorrect GlobalSchema Lifecycle ProverOps ProverCorrect.

#[local] Open Scope string_scope.
#[local] Open Scope list_scope.
#[local] Open Scope Z_scope.

Definition REGISTRATION_CLASS : string := "leafroot:LeafRootRegistration".

(** [leaf_root_address] *)
Definition leaf_root_address `{Poseidon} (member leaf_id : bytes) : outcome bytes :=
  hash_bytes_to_32 (list_byte_of_string "LEAF_ROOT_REGISTRATION" ++ member ++ leaf_id).

(** [pack_prefix], [unpack_prefix] *)
Definition pack_prefix (prefix : list Z) : bytes := concat (map (be_bytes 4) prefix).
Fixpoint unpack_prefix (b : bytes) : list Z :=
  match b with
  | b0 :: b1 :: b2 :: b3 :: rest => be_Z [b0; b1; b2; b3] :: unpack_prefix rest
  | _ => []
  end.

(** [create_leaf_root_vertex_tree] *)
Definition create_leaf_root_vertex_tree `{Sha512} `{Poseidon} (member shard_filter : bytes)
    (prefix : list Z) (epoch : Z) (leaf_root : bytes) (num_blocks frame_number : Z)
    : outcome VectorCommitmentTree :=
  fresh_tree (
    write_type REGISTRATION_CLASS;;
    write_field REGISTRATION_CLASS "Member" member;;
    write_field REGISTRATION_CLASS "ShardFilter" shard_filter;;
    write_field REGISTRATION_CLASS "Prefix" (pack_prefix prefix);;
    write_frame REGISTRATION_CLASS "Epoch" epoch;;
    write_field REGISTRATION_CLASS "LeafRoot" leaf_root;;
    write_frame REGISTRATION_CLASS "NumBlocks" num_blocks;;
    write_frame REGISTRATION_CLASS "RegistrationFrameNumber" frame_number).

Record RegistrationSlot : Type := mkSlot {
  rs_epoch : Z;
  rs_leaf_root : option bytes;
  rs_num_blocks : Z;
  rs_registered_at : option Z;
  rs_sealed_at : option Z;
}.

#[global] Instance RegistrationSlot_eq_dec : EqDecision RegistrationSlot.
Proof. solve_decision. Defined.

(** The field names of a slot: epoch, leaf root, block count, registered at, sealed at. *)
Record SlotFields : Type := mkNames {
  sf_epoch : string; sf_root : string; sf_blocks : string; sf_registered : string; sf_sealed : string;
}.
Definition prev_names : SlotFields :=
  mkNames "PrevEpoch" "PrevLeafRoot" "PrevNumBlocks" "PrevRegisteredAt" "PrevSealedAt".
Definition current_names : SlotFields := mkNames "Epoch" "LeafRoot" "NumBlocks" "RegisteredAt" "SealedAt".
Definition next_names : SlotFields :=
  mkNames "NextEpoch" "NextLeafRoot" "NextNumBlocks" "NextRegisteredAt" "NextSealedAt".
Definition SLOT_FIELDS : list SlotFields := [prev_names; current_names; next_names].

(** [read_u64_field], on the field's value *)
Definition read_u64_field (v : option bytes) : option Z :=
  b ← v; if (length b <? 8)%nat then None else Some (be_Z (take 8 b)).

(** One slot of [registration_slots]; [?] drops a slot without an epoch. *)
Definition read_slot (tree : VectorCommitmentTree) (names : SlotFields) : outcome (option RegistrationSlot) :=
  let read := read_field tree REGISTRATION_CLASS in
  epoch ← read (sf_epoch names);
  match read_u64_field epoch with
  | None => Ok None
  | Some epoch =>
      root ← read (sf_root names);
      blocks ← read (sf_blocks names);
      registered ← read (sf_registered names);
      sealed ← read (sf_sealed names);
      Ok (Some (mkSlot epoch root (default 0 (read_u64_field blocks))
                  (read_u64_field registered) (read_u64_field sealed)))
  end.

(** [registration_slots] *)
Fixpoint read_slots (tree : VectorCommitmentTree) (names : list SlotFields) : outcome (list RegistrationSlot) :=
  match names with
  | [] => Ok []
  | n :: names' =>
      slot ← read_slot tree n;
      rest ← read_slots tree names';
      Ok (match slot with Some s => s :: rest | None => rest end)
  end.
Definition registration_slots (tree : VectorCommitmentTree) : outcome (list RegistrationSlot) :=
  read_slots tree SLOT_FIELDS.

Section write.
Context `{Sha512} `{Poseidon}.

(** The fields of one slot, in the order they are written. *)
Definition write_slot (names : SlotFields) (slot : option RegistrationSlot) : st VectorCommitmentTree unit :=
  match slot with
  | None => mret tt
  | Some s =>
      write_frame REGISTRATION_CLASS (sf_epoch names) (rs_epoch s);;
      write_field REGISTRATION_CLASS (sf_root names) (default [] (rs_leaf_root s));;
      write_frame REGISTRATION_CLASS (sf_blocks names) (rs_num_blocks s);;
      match rs_registered_at s with
      | Some frame => write_frame REGISTRATION_CLASS (sf_registered names) frame
      | None => mret tt
      end;;
      match rs_sealed_at s with
      | Some frame => write_frame REGISTRATION_CLASS (sf_sealed names) frame
      | None => mret tt
      end
  end.

(** [write_registration] *)
Definition write_registration (member shard_filter prefix_bytes : bytes) (frame_number : Z)
    (slots : list RegistrationSlot) : outcome VectorCommitmentTree :=
  let cur_idx := (length slots - 2)%nat in
  let prev := match cur_idx with O => None | S i => slots !! i end in
  fresh_tree (
    write_type REGISTRATION_CLASS;;
    write_field REGISTRATION_CLASS "Member" member;;
    write_field REGISTRATION_CLASS "ShardFilter" shard_filter;;
    write_field REGISTRATION_CLASS "Prefix" prefix_bytes;;
    write_frame REGISTRATION_CLASS "RegistrationFrameNumber" frame_number;;
    write_slot current_names (slots !! cur_idx);;
    write_slot next_names (slots !! (cur_idx + 1)%nat);;
    write_slot prev_names prev).

(** [slots.sort_by_key(|slot| slot.epoch)]: a stable insertion sort. *)
Fixpoint insert_by_epoch (s : RegistrationSlot) (l : list RegistrationSlot) : list RegistrationSlot :=
  match l with
  | [] => [s]
  | x :: l' => if rs_epoch x <=? rs_epoch s then x :: insert_by_epoch s l' else s :: l
  end.
Definition sort_by_epoch (l : list RegistrationSlot) : list RegistrationSlot :=
  foldl (fun acc s => insert_by_epoch s acc) [] l.

(** [upsert_leaf_root_registration]; [hash_proofs] is [hash_storage_proofs_at]. *)
Definition upsert_leaf_root_registration (hash_proofs : Z -> bool)
    (existing : option VectorCommitmentTree) (member shard_filter : bytes) (prefix : list Z)
    (new_epoch : Z) (new_leaf_root : bytes) (new_num_blocks frame_number : Z)
    : outcome VectorCommitmentTree :=
  slots ← match existing with None => Ok [] | Some t => registration_slots t end;
  let slots := base.filter (fun s => rs_epoch s <> new_epoch) slots in
  let slots := slots ++ [mkSlot new_epoch (Some new_leaf_root) new_num_blocks
                           (if hash_proofs new_epoch then Some frame_number else None) None] in
  let slots := sort_by_epoch slots in
  write_registration member shard_filter (pack_prefix prefix) frame_number
    (drop (length slots - 3) slots).

(** [mark_registration_sealed] *)
Fixpoint seal_slot (epoch frame_number : Z) (slots : list RegistrationSlot) : option (list RegistrationSlot) :=
  match slots with
  | [] => None
  | s :: slots' =>
      if rs_epoch s =? epoch
      then Some (mkSlot (rs_epoch s) (rs_leaf_root s) (rs_num_blocks s) (rs_registered_at s)
                   (Some frame_number) :: slots')
      else rest ← seal_slot epoch frame_number slots'; Some (s :: rest)
  end.
Definition mark_registration_sealed (tree : VectorCommitmentTree) (epoch frame_number : Z)
    : outcome (option VectorCommitmentTree) :=
  slots ← registration_slots tree;
  match seal_slot epoch frame_number slots with
  | None => Ok None
  | Some slots =>
      let field name := b ← read_field tree REGISTRATION_CLASS name; ok_or b InvalidArgument in
      registered ← read_field tree REGISTRATION_CLASS "RegistrationFrameNumber";
      member ← field "Member";
      shard_filter ← field "ShardFilter";
      prefix ← field "Prefix";
      t ← write_registration member shard_filter prefix (default 0 (read_u64_field registered)) slots;
      Ok (Some t)
  end.

(** [leaf_root_registration_for_epoch] *)
Definition leaf_root_registration_for_epoch (hash_proofs : Z -> bool) (tree : VectorCommitmentTree)
    (active_epoch : Z) : outcome (option (bytes * Z)) :=
  slots ← registration_slots tree;
  Ok (slot ← List.find (fun s => rs_epoch s =? active_epoch) slots;
      if hash_proofs active_epoch && bool_decide (rs_sealed_at slot = None) then None
      else root ← rs_leaf_root slot; Some (root, rs_num_blocks slot)).
End write.

(** ** Lemmas: the slots of a written vertex *)

(** Slots as the code writes them. *)
Record slot_ok (s : RegistrationSlot) : Prop := {
  so_epoch : in_u64 (rs_epoch s);
  so_root : is_Some (rs_leaf_root s);
  so_blocks : in_u64 (rs_num_blocks s);
  so_registered : forall f, rs_registered_at s = Some f -> in_u64 f;
  so_sealed : forall f, rs_sealed_at s = Some f -> in_u64 f;
}.

Definition opt_write (name : string) (o : option Z) : list (string * bytes) :=
  match o with Some f => [(name, be_bytes 8 f)] | None => [] end.
Definition slot_writes (n : SlotFields) (slot : option RegistrationSlot) : list (string * bytes) :=
  match slot with
  | None => []
  | Some s =>
      [(sf_epoch n, be_bytes 8 (rs_epoch s)); (sf_root n, default [] (rs_leaf_root s));
       (sf_blocks n, be_bytes 8 (rs_num_blocks s))]
      ++ opt_write (sf_registered n) (rs_registered_at s) ++ opt_write (sf_sealed n) (rs_sealed_at s)
  end.

(** The slot read through a lookup of the fields. *)
Definition slot_of (g : string -> option bytes) (n : SlotFields) : option RegistrationSlot :=
  epoch ← read_u64_field (g (sf_epoch n));
  Some (mkSlot epoch (g (sf_root n)) (default 0 (read_u64_field (g (sf_blocks n))))
          (read_u64_field (g (sf_registered n))) (read_u64_field (g (sf_sealed n)))).

Lemma read_u64_field_written z : in_u64 z -> read_u64_field (Some (be_bytes 8 z)) = Some z.
Proof.
  intros Hz. unfold read_u64_field. cbn [mbind option_bind]. rewrite length_be_bytes. cbn [Nat.ltb Nat.leb].
  rewrite firstn_all2 by (rewrite length_be_bytes; lia).
  rewrite be_Z_be_bytes_small by (unfold_ints; simpl; lia). done.
Qed.

Lemma registration_slots_map t :
  vertex_ok t ->
  registration_slots t
  = Ok (omap (slot_of (map_field (fields t) REGISTRATION_CLASS)) SLOT_FIELDS).
Proof.
  intros Ht. unfold registration_slots. induction SLOT_FIELDS as [|n names IH]; [done|].
  cbn [read_slots omap list_omap]. rewrite IH.
  assert (read_slot t n = Ok (slot_of (map_field (fields t) REGISTRATION_CLASS) n)) as ->.
  { unfold read_slot, slot_of. rewrite !read_field_map by done.
    generalize (map_field (fields t) REGISTRATION_CLASS). intros g. cbn [mbind outcome_bind option_bind].
    destruct (read_u64_field (g (sf_epoch n))); reflexivity. }
  generalize (map_field (fields t) REGISTRATION_CLASS). intros g.
  cbn [mbind outcome_bind]. destruct (slot_of g n); reflexivity.
Qed.

Lemma slot_of_ext g g' : (forall f, g f = g' f) -> forall n, slot_of g n = slot_of g' n.
Proof. intros E n. unfold slot_of. by rewrite !E. Qed.

Lemma omap_ext {A B} (f g : A -> option B) (l : list A) : (forall x, f x = g x) -> omap f l = omap g l.
Proof. intros E. induction l as [|x l IH]; [done|]. cbn. by rewrite E, IH. Qed.

Lemma upd_app ws ws' g : upd (ws ++ ws') g = upd ws' (upd ws g).
Proof. unfold upd. by rewrite foldl_app. Qed.

(** Case analysis on a slot's names. *)
Ltac by_names :=
  repeat match goal with
  | H : _ ∈ SLOT_FIELDS |- _ =>
      unfold SLOT_FIELDS in H; rewrite !elem_of_cons, elem_of_nil in H; destruct H as [->|[->|[->|[]]]]
  end.

Section slots.
Context `{Sha512}.

Lemma writes_app class m ws m' ws' :
  writes class m ws -> writes class m' ws' -> writes class (m;; m') (ws ++ ws').
Proof.
  intros Hm Hm' t Ht. destruct (Hm t Ht) as (t1 & E1 & Hok1 & Hf1).
  destruct (Hm' t1 Hok1) as (t2 & E2 & Hok2 & Hf2). exists t2.
  split; [unfold mbind, st_bind; by rewrite E1|]. split; [done|]. intros f. rewrite Hf2, upd_app.
  by apply upd_ext.
Qed.

Lemma writes_slot n slot : n ∈ SLOT_FIELDS -> writes REGISTRATION_CLASS (write_slot n slot) (slot_writes n slot).
Proof.
  intros Hn. destruct slot as [s|]; [|apply writes_ret]. unfold write_slot, slot_writes.
  assert (Hopt : forall name o, is_Some (field_key REGISTRATION_CLASS name) ->
    writes REGISTRATION_CLASS
      (match o with Some f => write_frame REGISTRATION_CLASS name f | None => mret tt end) (opt_write name o)).
  { intros name [f|] Hk; [by apply writes_field|apply writes_ret]. }
  by_names; cbn [sf_epoch sf_root sf_blocks
    sf_registered sf_sealed prev_names current_names next_names app];
    repeat (apply writes_cons; [by eexists|]); (apply writes_app; apply Hopt; by eexists).
Qed.
End slots.

(** No field of the slot is set that the reader of a slot could pick up. *)
Definition blank (g : string -> option bytes) (n : SlotFields) : Prop :=
  g (sf_epoch n) = None /\ g (sf_registered n) = None /\ g (sf_sealed n) = None.

Lemma slot_of_written n slot g :
  n ∈ SLOT_FIELDS -> (forall s, slot = Some s -> slot_ok s) -> blank g n ->
  slot_of (upd (slot_writes n slot) g) n = slot.
Proof.
  intros Hn Hok (Ge & Gr & Gs).
  destruct slot as [[e root b reg seal]|]; [|unfold slot_of; cbn; by rewrite Ge].
  destruct (Hok _ eq_refl) as [He [r Hr] Hb Hreg Hseal]. cbn in He, Hr, Hb, Hreg, Hseal.
  subst root. by_names; destruct reg as [reg|], seal as [seal|];
    cbn -[be_bytes read_u64_field] in *; unfold slot_of; cbn -[be_bytes read_u64_field];
    rewrite ?Gr, ?Gs, !read_u64_field_written by eauto; reflexivity.
Qed.

Lemma slot_of_skip n n' slot g :
  n ∈ SLOT_FIELDS -> n' ∈ SLOT_FIELDS -> n <> n' -> slot_of (upd (slot_writes n' slot) g) n = slot_of g n.
Proof.
  intros Hn Hn' Hne. destruct slot as [[e root b reg seal]|]; [|done].
  by_names; try done; destruct reg, seal; reflexivity.
Qed.

Lemma blank_skip n n' slot g :
  n ∈ SLOT_FIELDS -> n' ∈ SLOT_FIELDS -> n <> n' -> blank g n -> blank (upd (slot_writes n' slot) g) n.
Proof.
  intros Hn Hn' Hne Hb. destruct slot as [[e root b reg seal]|]; [|done].
  by_names; try done; destruct reg, seal; exact Hb.
Qed.

Section registration.
Context `{Sha512} `{Poseidon}.

Definition header_writes (member shard_filter prefix_bytes : bytes) (frame : Z) : list (string * bytes) :=
  [("Member", member); ("ShardFilter", shard_filter); ("Prefix", prefix_bytes);
   ("RegistrationFrameNumber", be_bytes 8 frame)].

Lemma header_blank member shard_filter prefix_bytes frame n :
  n ∈ SLOT_FIELDS -> blank (upd (header_writes member shard_filter prefix_bytes frame) (fun _ => None)) n.
Proof. intros Hn. by_names; repeat split. Qed.

(** The slots read back from a vertex whose three slots were written. *)
Lemma written_slots member shard_filter prefix_bytes frame prev cur next :
  (forall s, prev = Some s \/ cur = Some s \/ next = Some s -> slot_ok s) ->
  let g := upd (header_writes member shard_filter prefix_bytes frame
                ++ slot_writes current_names cur ++ slot_writes next_names next
                ++ slot_writes prev_names prev) (fun _ => None) in
  omap (slot_of g) SLOT_FIELDS = option_list prev ++ option_list cur ++ option_list next.
Proof.
  intros Hok g. unfold g. rewrite !upd_app.
  set (g0 := upd (header_writes member shard_filter prefix_bytes frame) (fun _ => None)).
  assert (Hp : prev_names ∈ SLOT_FIELDS) by (unfold SLOT_FIELDS; set_solver).
  assert (Hc : current_names ∈ SLOT_FIELDS) by (unfold SLOT_FIELDS; set_solver).
  assert (Hx : next_names ∈ SLOT_FIELDS) by (unfold SLOT_FIELDS; set_solver).
  assert (Hblank : forall n, n ∈ SLOT_FIELDS -> blank g0 n) by (intros; by apply header_blank).
  clearbody g0. unfold SLOT_FIELDS at 1. cbn [omap list_omap].
  rewrite (slot_of_written prev_names) by (auto using blank_skip).
  rewrite (slot_of_skip current_names prev_names), (slot_of_skip current_names next_names),
    (slot_of_written current_names) by auto.
  rewrite (slot_of_skip next_names prev_names), (slot_of_written next_names) by auto using blank_skip.
  by destruct prev, cur, next.
Qed.

(** What is read back from a written registration: the slots, and the header. *)
Lemma write_registration_spec member shard_filter prefix_bytes frame slots hash :
  compute_type_hash REGISTRATION_CLASS = Ok hash -> (length slots <= 3)%nat -> Forall slot_ok slots ->
  exists t, write_registration member shard_filter prefix_bytes frame slots = Ok t /\ vertex_ok t
    /\ registration_slots t = Ok slots
    /\ read_field t REGISTRATION_CLASS "Member" = Ok (Some member).
Proof.
  intros Hh Hlen Hok. unfold write_registration, fresh_tree.
  set (prev := match (length slots - 2)%nat with O => None | S i => slots !! i end).
  set (cur := slots !! (length slots - 2)%nat). set (next := slots !! (length slots - 2 + 1)%nat).
  destruct (write_type_ok new_tree REGISTRATION_CLASS hash) as (t1 & E1 & Hok1 & Hf1); [done..|].
  assert (Hw : writes REGISTRATION_CLASS
    (write_field REGISTRATION_CLASS "Member" member;; write_field REGISTRATION_CLASS "ShardFilter" shard_filter;;
     write_field REGISTRATION_CLASS "Prefix" prefix_bytes;;
     write_frame REGISTRATION_CLASS "RegistrationFrameNumber" frame;;
     write_slot current_names cur;; write_slot next_names next;; write_slot prev_names prev)
    (header_writes member shard_filter prefix_bytes frame
     ++ slot_writes current_names cur ++ slot_writes next_names next ++ slot_writes prev_names prev)).
  { do 4 (apply writes_cons; [by eexists|]).
    repeat apply writes_app; apply writes_slot; unfold SLOT_FIELDS; set_solver. }
  destruct (Hw t1 Hok1) as (t2 & E2 & Hok2 & Hf2). unfold mbind at 1, st_bind at 1. rewrite E1, E2.
  exists t2. split; [done|]. split; [done|].
  assert (Hg : forall f, map_field (fields t2) REGISTRATION_CLASS f
            = upd (header_writes member shard_filter prefix_bytes frame
                ++ slot_writes current_names cur ++ slot_writes next_names next
                ++ slot_writes prev_names prev) (fun _ => None) f).
  { intros f. rewrite Hf2. apply upd_ext. intros f'. rewrite Hf1, map_field_type.
    unfold map_field. by destruct (field_key REGISTRATION_CLASS f'). }
  split.
  - rewrite registration_slots_map by done. rewrite (omap_ext _ _ _ (slot_of_ext _ _ Hg)).
    rewrite written_slots.
    + subst prev cur next. f_equal. by destruct slots as [|a [|b [|c [|]]]]; simpl in *; try lia.
    + rewrite Forall_forall in Hok. subst prev cur next.
      intros s [Hs|[Hs|Hs]]; apply Hok, list_elem_of_lookup; [|eauto..].
      destruct (length slots - 2)%nat; [done|eauto].
  - rewrite read_field_map, Hg by done. rewrite !upd_app. f_equal.
    destruct prev as [[? ? ? [] []]|], cur as [[? ? ? [] []]|], next as [[? ? ? [] []]|]; reflexivity.
Qed.
End registration.

(** ** Lemmas: the three highest epochs *)

Definition ascending (l : list RegistrationSlot) : Prop :=
  StronglySorted (fun a b => rs_epoch a < rs_epoch b) l.

Lemma insert_by_epoch_elem s l x : x ∈ insert_by_epoch s l <-> x = s \/ x ∈ l.
Proof.
  induction l as [|y l IH]; cbn [insert_by_epoch]; [set_solver|].
  destruct (rs_epoch y <=? rs_epoch s); rewrite !elem_of_cons; [rewrite IH|]; tauto.
Qed.

Lemma insert_by_epoch_ascending s l :
  ascending l -> (forall x, x ∈ l -> rs_epoch x <> rs_epoch s) -> ascending (insert_by_epoch s l).
Proof.
  unfold ascending. induction 1 as [|y l Hl IH Hy]; intros Hs; cbn [insert_by_epoch]; [repeat constructor|].
  destruct (Z.leb_spec (rs_epoch y) (rs_epoch s)) as [Hle|Hlt].
  - constructor; [apply IH; intros x Hx; apply Hs; by right|]. apply Forall_forall.
    intros x [->|Hx]%insert_by_epoch_elem; [|by apply (proj1 (Forall_forall _ _) Hy)].
    pose proof (Hs y ltac:(left)). lia.
  - constructor; [by constructor|]. constructor; [done|].
    eapply Forall_impl; [exact Hy|]. simpl. lia.
Qed.

(** Sorting an ascending list does nothing; then one more slot is placed. *)
Lemma sort_ascending l : ascending l -> sort_by_epoch l = l.
Proof.
  unfold sort_by_epoch, ascending.
  assert (Happ : forall acc s, StronglySorted (fun a b => rs_epoch a < rs_epoch b) (acc ++ [s]) ->
            insert_by_epoch s acc = acc ++ [s]).
  { induction acc as [|y acc IH]; intros s Hs; [done|]. cbn [insert_by_epoch app] in *.
    apply StronglySorted_cons in Hs as [Hy Hs]. rewrite Forall_forall in Hy.
    pose proof (Hy s ltac:(set_solver)) as Hlt. simpl in Hlt.
    rewrite (proj2 (Z.leb_le _ _)) by lia. by rewrite IH. }
  enough (Hg : forall acc, StronglySorted (fun a b => rs_epoch a < rs_epoch b) (acc ++ l) ->
            foldl (fun acc s => insert_by_epoch s acc) acc l = acc ++ l) by apply (Hg []).
  induction l as [|s l IH]; intros acc Hs; cbn [foldl]; [by rewrite app_nil_r|].
  rewrite (cons_middle s acc l), app_assoc in Hs. rewrite (Happ acc s).
  - rewrite IH by done. by rewrite <- app_assoc.
  - by apply StronglySorted_app_1_l in Hs.
Qed.

Lemma sort_snoc l s :
  ascending l -> sort_by_epoch (l ++ [s]) = insert_by_epoch s l.
Proof. intros Hl. pose proof (sort_ascending l Hl) as E. unfold sort_by_epoch in *. by rewrite foldl_snoc, E. Qed.

Lemma ascending_filter (P : RegistrationSlot -> Prop) `{!forall x, Decision (P x)} l :
  ascending l -> ascending (base.filter P l).
Proof.
  induction 1 as [|y l Hl IH Hy]; [constructor|]. rewrite filter_cons. case_decide; [|done].
  constructor; [done|]. apply Forall_forall. intros x [_ Hx]%list_elem_of_filter.
  by apply (proj1 (Forall_forall _ _) Hy).
Qed.

(** What the last three of an ascending list keep. *)
Lemma highest_three l :
  ascending l ->
  let k := drop (length l - 3) l in
  ascending k /\ (length k <= 3)%nat
  /\ (forall x, x ∈ k -> x ∈ l)
  /\ (forall x, x ∈ l -> x ∈ k \/ length k = 3%nat /\ forall y, y ∈ k -> rs_epoch x < rs_epoch y).
Proof.
  intros Hl k. pose proof (take_drop (length l - 3) l) as E. fold k in E.
  assert (Hk : length k = Nat.min 3 (length l)) by (unfold k; rewrite length_drop; lia).
  unfold ascending in *. rewrite <- E in Hl. pose proof Hl as Hl'.
  apply StronglySorted_app in Hl as (Hlt & _ & Hs).
  split; [done|]. split; [lia|]. split; [intros x Hx; rewrite <- E; set_solver|].
  intros x Hx. rewrite <- E in Hx. apply elem_of_app in Hx as [Hx|Hx]; [right|by left].
  split; [|intros y Hy; by apply Hlt].
  destruct (Nat.le_gt_cases 3 (length l)); [lia|].
  replace (length l - 3)%nat with 0%nat in Hx by lia. by apply elem_of_nil in Hx.
Qed.

(** Looking an epoch up among ascending slots. *)
Lemma find_epoch l s :
  ascending l -> s ∈ l -> List.find (fun x => rs_epoch x =? rs_epoch s) l = Some s.
Proof.
  induction 1 as [|y l Hl IH Hy]; intros Hs; [by apply elem_of_nil in Hs|]. cbn [List.find].
  apply elem_of_cons in Hs as [->|Hs]; [by rewrite Z.eqb_refl|].
  pose proof (proj1 (Forall_forall _ _) Hy s Hs) as Hlt. simpl in Hlt.
  rewrite (proj2 (Z.eqb_neq _ _)) by lia. auto.
Qed.

(** ** Properties *)

(** C36. A registration vertex keeps the three highest epochs: registering an epoch
    replaces that epoch's slot and leaves the other slots as they were, except
    that with more than three the lowest is dropped; the vertex stays ordered by
    epoch, and the audit finds every kept epoch's root and block count (a
    hash-proof epoch only once it is sealed). *)
Theorem registration_keeps_highest :
  forall (Sha : Sha512) (Pos : Poseidon) (hash_proofs : Z -> bool) (existing : option VectorCommitmentTree)
    (ss : list RegistrationSlot) (member shard_filter : bytes) (prefix : list Z) (e : Z)
    (root hash : bytes) (blocks frame : Z),
  compute_type_hash REGISTRATION_CLASS = Ok hash ->
  match existing with None => ss = [] | Some t => registration_slots t = Ok ss end ->
  Forall slot_ok ss -> ascending ss -> in_u64 e -> in_u64 blocks -> in_u64 frame ->
  let new := mkSlot e (Some root) blocks (if hash_proofs e then Some frame else None) None in
  exists t' ss',
    upsert_leaf_root_registration hash_proofs existing member shard_filter prefix e root blocks frame = Ok t'
    /\ registration_slots t' = Ok ss' /\ Forall slot_ok ss' /\ ascending ss' /\ (length ss' <= 3)%nat
    /\ (forall s, s ∈ ss' -> s = new \/ s ∈ ss /\ rs_epoch s <> e)
    /\ (forall s, s = new \/ s ∈ ss /\ rs_epoch s <> e ->
          s ∈ ss' \/ length ss' = 3%nat /\ forall s', s' ∈ ss' -> rs_epoch s < rs_epoch s')
    /\ (forall s, s ∈ ss' ->
          leaf_root_registration_for_epoch hash_proofs t' (rs_epoch s)
          = Ok (if hash_proofs (rs_epoch s) && bool_decide (rs_sealed_at s = None) then None
                else root ← rs_leaf_root s; Some (root, rs_num_blocks s))).
Proof.
  intros Sha Pos hash_proofs existing ss member shard_filter prefix e root hash blocks frame
    Hh Hss Hok Hasc He Hb Hf new.
  assert (Hnew : slot_ok new).
  { split; cbn; [done|by eexists|done| |done]. intros f. by destruct (hash_proofs e); [intros [= <-]|]. }
  set (kept := base.filter (fun s => rs_epoch s <> e) ss).
  assert (Hkept : forall s, s ∈ kept <-> s ∈ ss /\ rs_epoch s <> e)
    by (intros s; unfold kept; rewrite list_elem_of_filter; tauto).
  assert (Hsort : ascending (insert_by_epoch new kept)).
  { apply insert_by_epoch_ascending; [by apply ascending_filter|]. by intros x [_ Hx]%Hkept. }
  destruct (highest_three _ Hsort) as (Hasc' & Hlen & Hsub & Hkeep).
  set (ss' := drop (length (insert_by_epoch new kept) - 3) (insert_by_epoch new kept)) in *.
  assert (Hok' : Forall slot_ok ss').
  { apply Forall_forall. intros s [->|[Hs _]%Hkept]%Hsub%insert_by_epoch_elem; [done|].
    by apply (proj1 (Forall_forall _ _) Hok). }
  destruct (write_registration_spec member shard_filter (pack_prefix prefix) frame ss' hash Hh Hlen Hok')
    as (t' & Hw & _ & Hr & _).
  assert (Hslots : match existing with None => Ok [] | Some t => registration_slots t end = Ok ss)
    by (destruct existing; [done|by subst ss]).
  exists t', ss'. split.
  { unfold upsert_leaf_root_registration. rewrite Hslots, outcome_bind_Ok. fold kept. cbv zeta. fold new.
    rewrite sort_snoc by by apply ascending_filter. exact Hw. }
  do 4 (split; [done|]). split; [|split].
  - intros s [->|Hs]%Hsub%insert_by_epoch_elem; [by left|right; by apply Hkept].
  - intros s Hs. apply Hkeep, insert_by_epoch_elem. by rewrite Hkept.
  - intros s Hs. unfold leaf_root_registration_for_epoch. rewrite Hr, outcome_bind_Ok.
    by rewrite (find_epoch ss' s Hasc' Hs).
Qed.

Lemma registration_keeps_highest_witness :
  exists t' ss',
    upsert_leaf_root_registration (H := Demo.pad_sha512) (H0 := demo_poseidon) (fun _ => false) None
      [x01] [x02] [] 7 [x09] 3 5000 = Ok t'
    /\ registration_slots t' = Ok ss'
    /\ (forall s, s ∈ ss' -> s = mkSlot 7 (Some [x09]) 3 None None \/ s ∈ [] /\ rs_epoch s <> 7).
Proof.
  destruct (registration_keeps_highest Demo.pad_sha512 demo_poseidon (fun _ => false) None []
    [x01] [x02] [] 7 [x09] (resize 32 x00 (replicate 32 xff)) 3 5000)
    as (t' & ss' & E & Hr & _ & _ & _ & Hs & _);
    [reflexivity|reflexivity|constructor|constructor|unfold_ints; lia..|].
  exists t', ss'. split; [exact E|]. split; [exact Hr|exact Hs].
Defined.

(** The slots with the one of [epoch] sealed at [frame]. *)
Definition sealed (epoch frame : Z) (s : RegistrationSlot) : RegistrationSlot :=
  if rs_epoch s =? epoch
  then mkSlot (rs_epoch s) (rs_leaf_root s) (rs_num_blocks s) (rs_registered_at s) (Some frame) else s.

Lemma seal_slot_spec epoch frame l :
  ascending l ->
  match seal_slot epoch frame l with
  | Some l' => l' = map (sealed epoch frame) l /\ exists s, s ∈ l /\ rs_epoch s = epoch
  | None => forall s, s ∈ l -> rs_epoch s <> epoch
  end.
Proof.
  induction 1 as [|y l Hl IH Hy]; cbn [seal_slot]; [by intros s ?%elem_of_nil|].
  destruct (Z.eqb_spec (rs_epoch y) epoch) as [E|E].
  - split; [|exists y; split; [left|done]]. cbn [map].
    f_equal; [unfold sealed; by rewrite (proj2 (Z.eqb_eq _ _) E)|].
    rewrite <- (map_id l) at 1. apply map_ext_in. intros s Hs%list_elem_of_In. unfold sealed.
    pose proof (proj1 (Forall_forall _ _) Hy s Hs) as Hlt. simpl in Hlt.
    by rewrite (proj2 (Z.eqb_neq _ _)) by lia.
  - destruct (seal_slot epoch frame l) as [l'|]; cbn.
    + destruct IH as [-> (s & Hs & He)]. split; [|exists s; split; [by right|done]].
      cbn [map]. f_equal. unfold sealed. by rewrite (proj2 (Z.eqb_neq _ _) E).
    + intros s [->|Hs]%elem_of_cons; [done|auto].
Qed.

(** Sealing touches one slot: a registered epoch's slot gets its seal frame and
    every other slot, and the member, stay; an epoch without a slot is reported
    as such. *)
Theorem sealing_touches_one_slot :
  forall (Sha : Sha512) (Pos : Poseidon) (t : VectorCommitmentTree) (ss : list RegistrationSlot)
    (member shard_filter prefix hash : bytes) (epoch frame : Z),
  compute_type_hash REGISTRATION_CLASS = Ok hash -> registration_slots t = Ok ss ->
  Forall slot_ok ss -> ascending ss -> (length ss <= 3)%nat -> in_u64 frame ->
  read_field t REGISTRATION_CLASS "Member" = Ok (Some member) ->
  read_field t REGISTRATION_CLASS "ShardFilter" = Ok (Some shard_filter) ->
  read_field t REGISTRATION_CLASS "Prefix" = Ok (Some prefix) ->
  is_ok (read_field t REGISTRATION_CLASS "RegistrationFrameNumber") = true ->
  ((forall s, s ∈ ss -> rs_epoch s <> epoch) -> mark_registration_sealed t epoch frame = Ok None)
  /\ ((exists s, s ∈ ss /\ rs_epoch s = epoch) ->
      exists t', mark_registration_sealed t epoch frame = Ok (Some t')
        /\ registration_slots t' = Ok (map (sealed epoch frame) ss)
        /\ read_field t' REGISTRATION_CLASS "Member" = Ok (Some member)).
Proof.
  intros Sha Pos t ss member shard_filter prefix hash epoch frame Hh Hr Hok Hasc Hlen Hf Hm Hs Hp Hreg.
  unfold mark_registration_sealed. rewrite Hr, outcome_bind_Ok.
  pose proof (seal_slot_spec epoch frame ss Hasc) as Hseal.
  destruct (seal_slot epoch frame ss) as [l'|].
  - destruct Hseal as [-> (s0 & Hs0 & He0)]. split; [intros Hn; by destruct (Hn s0)|]. intros _.
    destruct (read_field t REGISTRATION_CLASS "RegistrationFrameNumber") as [reg|e|]; [|done..].
    rewrite outcome_bind_Ok, Hm, Hs, Hp. cbn [mbind outcome_bind ok_or].
    destruct (write_registration_spec member shard_filter prefix (default 0 (read_u64_field reg))
      (map (sealed epoch frame) ss) hash Hh) as (t' & -> & _ & Hr' & Hm').
    + by rewrite length_map.
    + apply Forall_map. eapply Forall_impl; [exact Hok|]. intros s [? ? ? ? ?]. unfold sealed. simpl.
      destruct (rs_epoch s =? epoch); split; cbn; try done. by intros f [= <-].
    + exists t'. by rewrite outcome_bind_Ok.
  - split; [done|]. intros (s & Hs' & He). by destruct (Hseal s Hs').
Qed.

Definition demo_registration : outcome VectorCommitmentTree :=
  upsert_leaf_root_registration (H := Demo.pad_sha512) (H0 := demo_poseidon) (fun _ => true) None
    [x01] [x02] [] 7 [x09] 3 5000.

Lemma sealing_touches_one_slot_witness :
  exists t, demo_registration = Ok t
    /\ exists t', mark_registration_sealed (H := Demo.pad_sha512) (H0 := demo_poseidon) t 7 6000 = Ok (Some t')
       /\ registration_slots t' = Ok [mkSlot 7 (Some [x09]) 3 (Some 5000) (Some 6000)].
Proof.
  eexists. split; [vm_compute; reflexivity|].
  match goal with |- exists t', mark_registration_sealed ?t _ _ = _ /\ _ =>
    destruct (sealing_touches_one_slot Demo.pad_sha512 demo_poseidon t
      [mkSlot 7 (Some [x09]) 3 (Some 5000) None] [x01] [x02] []
      (resize 32 x00 (replicate 32 xff)) 7 6000) as [_ Hseal] end.
  - reflexivity.
  - vm_compute; reflexivity.
  - constructor; [|constructor]. split; cbn; try (unfold_ints; lia); [by eexists|by intros f [= <-]|done].
  - repeat constructor.
  - simpl; lia.
  - unfold_ints; lia.
  - vm_compute; reflexivity.
  - vm_compute; reflexivity.
  - vm_compute; reflexivity.
  - vm_compute; reflexivity.
  - destruct Hseal as (t' & E & Hr & _); [by eexists; split; [left|]|]. exists t'. split; [exact E|exact Hr].
Defined.
