(* ===== verification/ForkChoice.v ===== *)
(** * Fork choice

    [crates/quil-engine/src/fork_choice.rs]: the score of a branch and the
    choice among branches with hysteresis.  [BigInt] division truncates toward
    zero and panics on a zero divisor. *)

From S2P Require Import Prelude Bytes.

Definition SCALE : Z := u64_max.

Record Frame : Type := mkFrame {
  fr_distance : Z;
  fr_seniority : Z;
  fr_prover_address : bytes;
}.

(** A branch is its list of frames, oldest first. *)
Record Branch : Type := mkBranch { br_frames : list Frame }.

Record Params : Type := mkParams {
  r_max : Z;
  wr_numer : Z;
  wp_numer : Z;
  w_denom : Z;
  al_numer : Z;
  al_denom : Z;
  blend_window : nat;
  beta_numer : Z;
  beta_denom : Z;
  epsilon : Z;
}.

(** [Params::default_params] *)
Definition default_params : Params := mkParams u64_max 7 3 10 9 10 5 1 10 0.

(** [BigInt] division. *)
Definition big_div (a b : Z) : outcome Z := if b =? 0 then Panic else Ok (Z.quot a b).

(** [rho_scaled] *)
Definition rho_scaled (rank rmax : Z) : outcome Z :=
  result ← big_div ((rmax - rank) * SCALE) rmax;
  Ok (if result <? 0 then 0 else if SCALE <? result then SCALE else result).

(** [clamp] *)
Definition clamp (x lo hi : Z) : Z := if x <? lo then lo else if hi <? x then hi else x.

(** The decayed sum over the frames. *)
Fixpoint raw_score (cfg : Params) (frames : list Frame) (raw : Z) : outcome Z :=
  match frames with
  | [] => Ok raw
  | frame :: frames' =>
      rho ← rho_scaled (fr_distance frame) (r_max cfg);
      let pi := clamp (fr_seniority frame) 0 SCALE in
      frame_score ← big_div (wr_numer cfg * rho + wp_numer cfg * pi) (w_denom cfg);
      decayed ← big_div (raw * al_numer cfg) (al_denom cfg);
      raw_score cfg frames' (decayed + frame_score)
  end.

(** The number of distinct provers with seniority among some frames. *)
Definition unique_provers (frames : list Frame) : nat :=
  length (remove_dups (fr_prover_address <$> filter (fun f => 0 < fr_seniority f) frames)).

(** [branch_score] *)
Definition branch_score (br : Branch) (cfg : Params) : outcome Z :=
  match br_frames br with
  | [] => Ok 0
  | frames =>
      raw ← raw_score cfg frames 0;
      let m := Nat.min (blend_window cfg) (length frames) in
      if (m =? 0)%nat then Ok 0
      else
        let start := (length frames - m)%nat in
        let unique := Z.of_nat (unique_provers (drop start frames)) in
        blend_scaled ← big_div (unique * SCALE) (Z.of_nat m);
        bonus ← big_div (beta_numer cfg * blend_scaled) (beta_denom cfg);
        big_div (raw * (SCALE + bonus)) SCALE
  end.

(** The loop of [fork_choice] over the branches from index [i]. *)
Fixpoint choice_loop (cfg : Params) (branches : list Branch) (i best_idx : nat) (best_score : Z)
    : outcome nat :=
  match branches with
  | [] => Ok best_idx
  | br :: branches' =>
      score ← branch_score br cfg;
      if best_score + epsilon cfg <? score then choice_loop cfg branches' (S i) i score
      else choice_loop cfg branches' (S i) best_idx best_score
  end.

(** [fork_choice] *)
Definition fork_choice (branches : list Branch) (cfg : Params) (prev_choice : nat) : outcome nat :=
  best_score ← match branches !! prev_choice with
               | Some br => branch_score br cfg
               | None => Ok 0
               end;
  choice_loop cfg branches 0 prev_choice best_score.

(** ** Lemmas *)

(** Parameters whose divisors are positive and weights non-negative. *)
Definition params_ok (cfg : Params) : Prop :=
  0 < r_max cfg /\ 0 <= wr_numer cfg /\ 0 <= wp_numer cfg /\ 0 < w_denom cfg
  /\ 0 <= al_numer cfg /\ 0 < al_denom cfg /\ 0 <= beta_numer cfg /\ 0 < beta_denom cfg
  /\ 0 <= epsilon cfg.

Lemma default_params_ok : params_ok default_params.
Proof. unfold params_ok; simpl; unfold u64_max; lia. Qed.

Lemma big_div_ok a b : 0 < b -> big_div a b = Ok (Z.quot a b).
Proof. intros. unfold big_div. by rewrite (proj2 (Z.eqb_neq b 0)) by lia. Qed.

Lemma big_div_nonneg a b : 0 <= a -> 0 < b -> exists q, big_div a b = Ok q /\ 0 <= q.
Proof.
  intros. rewrite big_div_ok by done. eexists. split; [done|].
  rewrite Z.quot_div_nonneg by lia. apply Z.div_pos; lia.
Qed.

Lemma rho_scaled_spec rank rmax :
  0 < rmax ->
  exists rho, rho_scaled rank rmax = Ok rho /\ 0 <= rho <= SCALE
    /\ (rmax <= rank -> rho = 0) /\ (rank <= 0 -> rho = SCALE).
Proof.
  intros Hr. unfold rho_scaled. rewrite big_div_ok by done. cbn [mbind outcome_bind].
  assert (HS : 0 < SCALE) by done. eexists. split; [done|].
  destruct (Z.le_gt_cases rmax rank) as [Hge|Hlt].
  - assert (Hq : Z.quot ((rmax - rank) * SCALE) rmax <= 0).
    { rewrite <- (Z.opp_involutive ((rmax - rank) * SCALE)), Z.quot_opp_l by lia.
      assert (0 <= Z.quot (- ((rmax - rank) * SCALE)) rmax); [|lia].
      apply Z.quot_pos; nia. }
    repeat case_match; bool_to_prop; repeat split; lia.
  - assert (Hq : 0 <= Z.quot ((rmax - rank) * SCALE) rmax) by (apply Z.quot_pos; nia).
    rewrite Z.quot_div_nonneg in * by nia.
    assert (rank <= 0 -> SCALE <= (rmax - rank) * SCALE / rmax).
    { intros. apply Z.div_le_lower_bound; nia. }
    assert (rank = 0 -> (rmax - rank) * SCALE / rmax = SCALE).
    { intros ->. rewrite Z.sub_0_r, Z.mul_comm. by rewrite Z.div_mul by lia. }
    repeat case_match; bool_to_prop; repeat split; lia.
Qed.

Lemma clamp_range x lo hi : lo <= hi -> lo <= clamp x lo hi <= hi.
Proof. unfold clamp. intros. repeat case_match; bool_to_prop; lia. Qed.

Lemma raw_score_ok cfg frames raw :
  params_ok cfg -> 0 <= raw -> exists r, raw_score cfg frames raw = Ok r /\ 0 <= r.
Proof.
  intros Hc. pose proof Hc as (Hr & Hwr & Hwp & Hw & Ha & Had & _).
  revert raw. induction frames as [|f frames IH]; intros raw Hraw; cbn [raw_score]; [eauto|].
  destruct (rho_scaled_spec (fr_distance f) (r_max cfg) Hr) as (rho & -> & Hrho & _).
  cbn [mbind outcome_bind].
  pose proof (clamp_range (fr_seniority f) 0 SCALE ltac:(done)) as Hpi.
  destruct (big_div_nonneg (wr_numer cfg * rho + wp_numer cfg * clamp (fr_seniority f) 0 SCALE)
              (w_denom cfg)) as (q & -> & Hq); [nia|done|]. cbn [mbind outcome_bind].
  destruct (big_div_nonneg (raw * al_numer cfg) (al_denom cfg)) as (q' & -> & Hq'); [nia|done|].
  cbn [mbind outcome_bind]. apply IH. lia.
Qed.

Lemma branch_score_ok br cfg : params_ok cfg -> exists s, branch_score br cfg = Ok s /\ 0 <= s.
Proof.
  intros Hc. pose proof Hc as (_ & _ & _ & _ & _ & _ & Hb & Hbd & _). unfold branch_score.
  destruct (br_frames br) as [|f frames] eqn:Ef; [by exists 0|].
  destruct (raw_score_ok cfg (f :: frames) 0 Hc ltac:(lia)) as (raw & Hraw & Hpos). rewrite Hraw.
  cbn [mbind outcome_bind].
  destruct (Nat.eqb_spec (Nat.min (blend_window cfg) (length (f :: frames))) 0) as [|Hm]; [by exists 0|].
  assert (HS : 0 < SCALE) by done.
  match goal with |- context [big_div (?u * SCALE) (Z.of_nat ?m)] =>
    destruct (big_div_nonneg (u * SCALE) (Z.of_nat m)) as (bs & -> & Hbs); [nia|lia|] end.
  cbn [mbind outcome_bind].
  destruct (big_div_nonneg (beta_numer cfg * bs) (beta_denom cfg)) as (bo & -> & Hbo); [nia|done|].
  cbn [mbind outcome_bind]. apply big_div_nonneg; nia.
Qed.

(** The scores of the branches, when all are defined. *)
Definition scores (cfg : Params) (branches : list Branch) (ss : list Z) : Prop :=
  Forall2 (fun br s => branch_score br cfg = Ok s /\ 0 <= s) branches ss.

Lemma scores_exist cfg branches : params_ok cfg -> exists ss, scores cfg branches ss.
Proof.
  intros Hc. induction branches as [|br branches [ss IH]]; [exists []; constructor|].
  destruct (branch_score_ok br cfg Hc) as (s & Hs). exists (s :: ss). by constructor.
Qed.

(** What the loop returns: the incumbent or a branch that beat it by more than
    epsilon, and no visited branch beats the result by more than epsilon. *)
Lemma choice_loop_spec cfg branches ss i best_idx best :
  0 <= epsilon cfg -> scores cfg branches ss ->
  exists r rs, choice_loop cfg branches i best_idx best = Ok r
    /\ ((r = best_idx /\ rs = best)
        \/ (exists k, r = (i + k)%nat /\ ss !! k = Some rs /\ best + epsilon cfg < rs))
    /\ best <= rs /\ (forall s, s ∈ ss -> s <= rs + epsilon cfg).
Proof.
  intros He Hss. revert i best_idx best.
  induction Hss as [|br s branches ss [Hs Hpos] _ IH]; intros i best_idx best; cbn [choice_loop].
  - exists best_idx, best. split; [done|]. split; [auto|]. split; [lia|]. by intros s ?%elem_of_nil.
  - rewrite Hs. cbn [mbind outcome_bind].
    destruct (Z.ltb_spec (best + epsilon cfg) s) as [Hlt|Hge].
    + destruct (IH (S i) i s) as (r & rs & -> & Hr & Hle & Hall). exists r, rs. split; [done|].
      split; [|split; [lia|]].
      * right. destruct Hr as [[-> ->]|(k & -> & Hk & Hb)].
        -- exists 0%nat. split; [lia|]. split; [done|lia].
        -- exists (S k). split; [lia|]. split; [done|lia].
      * intros x [->|Hx]%elem_of_cons; [lia|auto].
    + destruct (IH (S i) best_idx best) as (r & rs & -> & Hr & Hle & Hall). exists r, rs.
      split; [done|]. split; [|split; [lia|]].
      * destruct Hr as [[-> ->]|(k & -> & Hk & Hb)]; [auto|right]. exists (S k).
        split; [lia|]. split; [done|lia].
      * intros x [->|Hx]%elem_of_cons; [lia|auto].
Qed.

Lemma scores_lookup cfg branches ss k br :
  scores cfg branches ss -> branches !! k = Some br ->
  exists s, ss !! k = Some s /\ branch_score br cfg = Ok s /\ 0 <= s.
Proof.
  intros Hss Hk. destruct (Forall2_lookup_l _ _ _ _ _ Hss Hk) as (s & Hs & E & Hp). eauto.
Qed.

(** ** Properties *)

(** C37. Fork choice with hysteresis: for a previous choice in range, the result
    is a branch in range; it is the previous choice, or its score beats the
    previous choice's by more than epsilon; and no branch beats the result by
    more than epsilon. *)
Theorem fork_choice_hysteresis :
  forall (branches : list Branch) (cfg : Params) (prev : nat) (br : Branch),
  params_ok cfg -> branches !! prev = Some br ->
  exists r rb rs ps,
    fork_choice branches cfg prev = Ok r /\ branches !! r = Some rb
    /\ branch_score rb cfg = Ok rs /\ branch_score br cfg = Ok ps
    /\ (r = prev \/ ps + epsilon cfg < rs)
    /\ (forall b s, b ∈ branches -> branch_score b cfg = Ok s -> s <= rs + epsilon cfg).
Proof.
  intros branches cfg prev br Hc Hprev.
  destruct (scores_exist cfg branches Hc) as [ss Hss].
  destruct (scores_lookup _ _ _ _ _ Hss Hprev) as (ps & Hps & Eps & _).
  unfold fork_choice. rewrite Hprev, Eps. cbn [mbind outcome_bind].
  destruct (choice_loop_spec cfg branches ss 0 prev ps) as (r & rs & -> & Hr & _ & Hall);
    [by destruct Hc as (?&?&?&?&?&?&?&?&?)|done|].
  assert (Hb : exists rb, branches !! r = Some rb /\ branch_score rb cfg = Ok rs).
  { destruct Hr as [[-> ->]|(k & -> & Hk & _)]; [eauto|].
    destruct (Forall2_lookup_r _ _ _ _ _ Hss Hk) as (rb & Hrb & Erb & _). eauto. }
  destruct Hb as (rb & Hrb & Erb). exists r, rb, rs, ps. repeat split; try done.
  - destruct Hr as [[-> _]|(k & _ & _ & Hlt)]; auto.
  - intros b s [k Hk]%list_elem_of_lookup Es.
    destruct (scores_lookup _ _ _ _ _ Hss Hk) as (s' & Hs' & Es' & _). rewrite Es in Es'.
    injection Es' as <-. apply Hall, list_elem_of_lookup. eauto.
Qed.

Definition demo_branch (d : Z) : Branch := mkBranch [mkFrame d 100 [Byte.x01]; mkFrame d 100 [Byte.x02]].

Lemma fork_choice_hysteresis_witness :
  exists r rb rs ps,
    fork_choice [demo_branch 500; demo_branch 3] default_params 0 = Ok r
    /\ [demo_branch 500; demo_branch 3] !! r = Some rb
    /\ branch_score rb default_params = Ok rs /\ branch_score (demo_branch 500) default_params = Ok ps
    /\ (r = 0%nat \/ ps + epsilon default_params < rs)
    /\ (forall b s, b ∈ [demo_branch 500; demo_branch 3] ->
          branch_score b default_params = Ok s -> s <= rs + epsilon default_params).
Proof.
  apply (fork_choice_hysteresis [demo_branch 500; demo_branch 3] default_params 0 (demo_branch 500));
    [exact default_params_ok|reflexivity].
Defined.

(** The choice is stable: choosing again from the chosen branch, with the
    same branches and parameters, keeps it. *)
Theorem fork_choice_stable :
  forall (branches : list Branch) (cfg : Params) (prev r : nat),
  params_ok cfg -> (prev < length branches)%nat ->
  fork_choice branches cfg prev = Ok r -> fork_choice branches cfg r = Ok r.
Proof.
  intros branches cfg prev r Hc Hprev Hr.
  pose proof Hc as (_&_&_&_&_&_&_&_&He).
  destruct (scores_exist cfg branches Hc) as [ss Hss].
  destruct (lookup_lt_is_Some_2 _ _ Hprev) as [br Hbr].
  destruct (scores_lookup _ _ _ _ _ Hss Hbr) as (ps & Hps & Eps & _).
  unfold fork_choice in Hr. rewrite Hbr, Eps in Hr. cbn [mbind outcome_bind] in Hr.
  destruct (choice_loop_spec cfg branches ss 0 prev ps He Hss) as (r' & rs & E & Hr' & _ & Hall).
  rewrite E in Hr. injection Hr as ->.
  assert (Hrs : ss !! r = Some rs) by (destruct Hr' as [[-> ->]|(k & -> & Hk & _)]; done).
  destruct (Forall2_lookup_r _ _ _ _ _ Hss Hrs) as (rb & Hrb & Erb & _).
  unfold fork_choice. rewrite Hrb, Erb. cbn [mbind outcome_bind].
  destruct (choice_loop_spec cfg branches ss 0 r rs He Hss) as (r2 & rs2 & -> & Hr2 & _).
  destruct Hr2 as [[-> _]|(k & _ & Hk & Hlt)]; [done|].
  assert (rs2 <= rs + epsilon cfg) by (apply Hall, list_elem_of_lookup; eauto). lia.
Qed.

Lemma fork_choice_stable_witness :
  fork_choice [demo_branch 500; demo_branch 3] default_params 1 = Ok 1%nat.
Proof.
  apply (fork_choice_stable [demo_branch 500; demo_branch 3] default_params 0 1);
    [exact default_params_ok|simpl; lia|vm_compute; reflexivity].
Defined.

(** An out-of-range previous choice is returned as the result when no branch
    scores above epsilon: with one branch of empty history and previous choice
    7, the result is 7, not the first branch as the documentation says. *)
Theorem fork_choice_out_of_range :
  fork_choice [mkBranch []] default_params 7 = Ok 7%nat /\ [mkBranch []] !! 7%nat = None.
Proof. split; reflexivity. Qed.
