(* ===== verification/Difficulty.v ===== *)
(** * ASERT difficulty adjustment

    [crates/quil-engine/src/difficulty.rs]: the integer Q16 pipeline of
    ASERTi3-2d.  [i64] operations written [wrapping_*] wrap; the plain ones are
    checked; [<<] on a [u64] drops the high bits. *)

From S2P Require Import Prelude.

Definition IDEAL_FRAME_TIME : Z := 10000.
Definition HALF_LIFE : Z := 7200000.
Definition MIN_DIFFICULTY : Z := 50000.
Definition BOOTSTRAP_DIFFICULTY : Z := 50000.
Definition RADIX : Z := Z.shiftl 1 16.

Record AsertDifficultyAdjuster : Type := mkAdjuster {
  anchor_frame_number : Z;
  anchor_parent_time : Z;
  anchor_difficulty : Z;
}.

(** The Q16 exponent from the height and time deltas. *)
Definition asert_exponent (frame_number_delta time_delta : Z) : Z :=
  let ideal_x_delta := wrap_i64 (IDEAL_FRAME_TIME * wrap_i64 (frame_number_delta + 1)) in
  let inner := wrap_i64 (time_delta - ideal_x_delta) in
  let numerator := wrap_i64 (- wrap_i64 (inner * RADIX)) in
  Z.quot numerator HALF_LIFE.

(** The polynomial approximation of [2^(frac/65536)] and the Q16 factor. *)
Definition poly (frac : Z) : Z :=
  195766423245049 * frac + 971821376 * frac * frac + 5127 * frac * frac * frac + Z.shiftl 1 47.
Definition factor (frac : Z) : outcome Z :=
  p ← ck_u64 (poly frac); Ok (65536 + Z.shiftr p 48).

(** The shift, the final division and the floor. *)
Definition finish (anchor scaled shifts : Z) : Z :=
  let floor s := let s := Z.shiftr s 16 in if s <? MIN_DIFFICULTY then MIN_DIFFICULTY else s in
  if shifts <? 0 then
    let k := wrap_u32 (- shifts) in
    floor (if 64 <=? k then 0 else Z.shiftr scaled k)
  else if (48 <? shifts) && (0 <? anchor) then u64_max
  else
    let k := wrap_u32 shifts in
    if 64 <=? k then u64_max else floor (wrap_u64 (Z.shiftl scaled k)).

(** [get_next_difficulty] *)
Definition get_next_difficulty (a : AsertDifficultyAdjuster) (current_frame_number current_time : Z)
    : outcome Z :=
  if anchor_difficulty a =? 0 then Ok BOOTSTRAP_DIFFICULTY
  else
    frame_number_delta ← ck_i64 (wrap_i64 current_frame_number - wrap_i64 (anchor_frame_number a));
    time_delta ← ck_i64 (current_time - anchor_parent_time a);
    let exponent := asert_exponent frame_number_delta time_delta in
    let shifts := Z.shiftr exponent 16 in
    let frac := Z.land exponent 65535 in
    f ← factor frac;
    scaled ← ck_u64 (anchor_difficulty a * f);
    Ok (finish (anchor_difficulty a) scaled shifts).

(** ** Lemmas *)

(** The polynomial stays within [u64] and grows with the fraction, and the
    factor never reaches the next power of two. *)
Lemma poly_mono x y : 0 <= x <= y -> poly x <= poly y.
Proof.
  intros. unfold poly. rewrite Z.shiftl_1_l.
  assert (x * x <= y * y) by nia. assert (x * x * x <= y * y * y) by nia. lia.
Qed.

Lemma factor_ok frac :
  0 <= frac <= 65535 ->
  exists f, factor frac = Ok f /\ f = 65536 + Z.shiftr (poly frac) 48 /\ 65536 <= f <= 131072.
Proof.
  intros Hf. unfold factor.
  pose proof (poly_mono 0 frac ltac:(lia)) as Hlo. pose proof (poly_mono frac 65535 ltac:(lia)) as Hhi.
  change (poly 0) with 140737488355328 in Hlo.
  assert (Hp : poly 65535 <= 18446744073709551615) by (vm_compute; discriminate).
  rewrite ck_u64_ok by (unfold_ints; lia). eexists. split; [done|]. split; [done|].
  rewrite Z.shiftr_div_pow2 by lia.
  assert (0 <= poly frac / 2 ^ 48) by (apply Z.div_pos; lia).
  assert (poly frac / 2 ^ 48 <= 65536); [|lia].
  change 65536 with (18446744073709551616 / 2 ^ 48). apply Z.div_le_mono; lia.
Qed.

(** Inputs at which no intermediate [i64] wraps: [inner] is the lag behind
    schedule in milliseconds. *)
Lemma asert_exponent_exact d t :
  -2 ^ 40 <= d <= 2 ^ 40 -> -2 ^ 44 <= t - IDEAL_FRAME_TIME * (d + 1) <= 2 ^ 44 ->
  -2 ^ 60 <= t <= 2 ^ 60 ->
  asert_exponent d t = Z.quot (- ((t - IDEAL_FRAME_TIME * (d + 1)) * 65536)) HALF_LIFE.
Proof.
  unfold IDEAL_FRAME_TIME. intros Hd Hi Ht. unfold asert_exponent, IDEAL_FRAME_TIME.
  change RADIX with 65536.
  rewrite (wrap_i64_id (d + 1)) by (unfold_ints; lia).
  rewrite (wrap_i64_id (10000 * (d + 1))) by (unfold_ints; lia).
  rewrite (wrap_i64_id (t - 10000 * (d + 1))) by (unfold_ints; lia).
  rewrite (wrap_i64_id ((t - 10000 * (d + 1)) * 65536)) by (unfold_ints; lia).
  by rewrite wrap_i64_id by (unfold_ints; lia).
Qed.

(** An exponent splits into its shift and its fraction. *)
Lemma exponent_split e : e = Z.shiftr e 16 * 65536 + Z.land e 65535 /\ 0 <= Z.land e 65535 <= 65535.
Proof.
  change 65535 with (Z.ones 16). rewrite Z.land_ones, Z.shiftr_div_pow2 by lia.
  change (Z.ones 16) with 65535. change (2 ^ 16) with 65536.
  pose proof (Z.div_mod e 65536 ltac:(lia)). pose proof (Z.mod_pos_bound e 65536 ltac:(lia)). lia.
Qed.

(** The scaled value before the floor, for shifts that cannot overflow. *)
Definition scaled_value (anchor e : Z) : Z :=
  anchor * (65536 + Z.shiftr (poly (Z.land e 65535)) 48) * 2 ^ (Z.shiftr e 16 + 64) / 2 ^ 80.

Lemma floor_shiftr x n : 0 <= n -> x * 2 ^ (64 - n) / 2 ^ 80 = x / 2 ^ n / 2 ^ 16 \/ 64 < n.
Proof.
  intros Hn. destruct (Z.le_gt_cases n 64) as [Hle|]; [left|auto].
  rewrite Z.div_div by (apply Z.pow_nonzero || apply Z.pow_pos_nonneg; lia).
  replace (2 ^ 80) with (2 ^ n * 2 ^ 16 * 2 ^ (64 - n)) by (rewrite <- !Z.pow_add_r by lia; f_equal; lia).
  rewrite Z.div_mul_cancel_r; [done|..];
    repeat first [apply Z.pow_nonzero; lia | apply Z.neq_mul_0; split | lia].
Qed.

Lemma finish_value anchor scaled shifts :
  0 < anchor -> 0 <= scaled < 2 ^ 49 -> -64 < shifts <= 14 ->
  finish anchor scaled shifts
  = Z.max MIN_DIFFICULTY (scaled * 2 ^ (shifts + 64) / 2 ^ 80).
Proof.
  intros Ha Hs Hk. unfold finish.
  assert (Hfloor : forall s, (if s <? MIN_DIFFICULTY then MIN_DIFFICULTY else s) = Z.max MIN_DIFFICULTY s).
  { intros s. destruct (Z.ltb_spec s MIN_DIFFICULTY); lia. }
  rewrite !Hfloor. destruct (Z.ltb_spec shifts 0) as [Hneg|Hpos].
  - unfold wrap_u32. rewrite Z.mod_small by lia. rewrite (proj2 (Z.leb_gt 64 _)) by lia.
    rewrite !Z.shiftr_div_pow2 by lia.
    destruct (floor_shiftr scaled (- shifts) ltac:(lia)) as [E|]; [|lia].
    replace (64 - - shifts) with (shifts + 64) in E by lia. by rewrite E.
  - rewrite (proj2 (Z.ltb_ge 48 shifts)) by lia. cbn [andb]. unfold wrap_u32.
    rewrite Z.mod_small by lia. rewrite (proj2 (Z.leb_gt 64 _)) by lia.
    rewrite Z.shiftl_mul_pow2 by lia.
    assert (Hp : 2 ^ shifts <= 2 ^ 14) by (apply Z.pow_le_mono_r; lia).
    assert (0 < 2 ^ shifts) by (apply Z.pow_pos_nonneg; lia).
    assert (Hb : 0 <= scaled * 2 ^ shifts < 2 ^ 64) by nia.
    rewrite wrap_u64_id by (unfold_ints; lia). rewrite Z.shiftr_div_pow2 by lia.
    rewrite (Z.pow_add_r 2 shifts 64) by lia. change (2 ^ 80) with (2 ^ 16 * 2 ^ 64).
    rewrite Z.mul_assoc, Z.div_mul_cancel_r by lia. done.
Qed.

(** The value grows with the exponent. *)
Lemma scaled_value_mono anchor e e' :
  0 <= anchor -> -64 * 65536 < e <= e' -> scaled_value anchor e <= scaled_value anchor e'.
Proof.
  intros Ha He. unfold scaled_value. apply Z.div_le_mono; [lia|].
  destruct (exponent_split e) as [E1 F1]. destruct (exponent_split e') as [E2 F2].
  set (s := Z.shiftr e 16) in *. set (s' := Z.shiftr e' 16) in *.
  set (f := Z.land e 65535) in *. set (f' := Z.land e' 65535) in *.
  destruct (factor_ok f F1) as (g & _ & Hg & Hgr). destruct (factor_ok f' F2) as (g' & _ & Hg' & Hgr').
  rewrite <- Hg, <- Hg'.
  assert (Hs : s = s' /\ f <= f' \/ s + 1 <= s') by lia.
  rewrite <- !Z.mul_assoc. apply Z.mul_le_mono_nonneg_l; [done|].
  destruct Hs as [[-> Hf]|Hs].
  - apply Z.mul_le_mono_nonneg_r; [apply Z.pow_nonneg; lia|]. subst g g'.
    rewrite !Z.shiftr_div_pow2 by lia. pose proof (poly_mono f f' ltac:(lia)).
    pose proof (Z.div_le_mono (poly f) (poly f') (2 ^ 48) ltac:(lia) ltac:(done)). lia.
  - assert (2 * 2 ^ (s + 64) <= 2 ^ (s' + 64)).
    { rewrite <- Z.pow_succ_r by lia. apply Z.pow_le_mono_r; lia. }
    assert (0 < 2 ^ (s + 64)) by (apply Z.pow_pos_nonneg; lia). nia.
Qed.

(** Sane inputs: a positive 32-bit anchor, frame numbers and times far from the
    [i64] limits, and at most 14 half-lives ahead or 63 behind schedule. *)
Definition sane (a : AsertDifficultyAdjuster) (frame time : Z) : Prop :=
  0 < anchor_difficulty a <= u32_max
  /\ 0 <= anchor_frame_number a < 2 ^ 40 /\ 0 <= frame < 2 ^ 40
  /\ 0 <= anchor_parent_time a < 2 ^ 59 /\ 0 <= time < 2 ^ 59
  /\ - 14 * HALF_LIFE <= time - anchor_parent_time a
       - IDEAL_FRAME_TIME * (frame - anchor_frame_number a + 1) <= 63 * HALF_LIFE.

(** The lag behind schedule. *)
Definition lag (a : AsertDifficultyAdjuster) (frame time : Z) : Z :=
  time - anchor_parent_time a - IDEAL_FRAME_TIME * (frame - anchor_frame_number a + 1).

Lemma quot_range x lo hi :
  lo * HALF_LIFE <= x <= hi * HALF_LIFE -> lo <= Z.quot x HALF_LIFE <= hi.
Proof.
  unfold HALF_LIFE. intros Hx. split.
  - apply Z.quot_le_lower_bound; lia.
  - apply Z.quot_le_upper_bound; lia.
Qed.

Lemma lag_exponent_range a frame time :
  sane a frame time ->
  -63 * 65536 <= Z.quot (- (lag a frame time * 65536)) HALF_LIFE <= 14 * 65536.
Proof.
  intros (_ & _ & _ & _ & _ & Hl). fold (lag a frame time) in Hl.
  apply quot_range. lia.
Qed.

Lemma lag_exponent a frame time :
  sane a frame time ->
  asert_exponent (frame - anchor_frame_number a) (time - anchor_parent_time a)
  = Z.quot (- (lag a frame time * 65536)) HALF_LIFE.
Proof.
  intros (_ & Hf & Hf' & Ht & Ht' & Hl). unfold lag.
  apply asert_exponent_exact; [lia| |lia]. unfold HALF_LIFE in Hl. lia.
Qed.

Lemma get_next_difficulty_value a frame time :
  sane a frame time ->
  get_next_difficulty a frame time
  = Ok (Z.max MIN_DIFFICULTY
          (scaled_value (anchor_difficulty a) (Z.quot (- (lag a frame time * 65536)) HALF_LIFE))).
Proof.
  intros Hsane. pose proof (lag_exponent_range _ _ _ Hsane) as He.
  pose proof (lag_exponent _ _ _ Hsane) as Hexp.
  destruct Hsane as (Ha & Hf & Hf' & Ht & Ht' & _).
  unfold get_next_difficulty. rewrite (proj2 (Z.eqb_neq _ 0)) by lia.
  rewrite (wrap_i64_id frame), (wrap_i64_id (anchor_frame_number a)) by (unfold_ints; lia).
  rewrite (ck_i64_ok (frame - _)), outcome_bind_Ok by (unfold_ints; lia).
  rewrite (ck_i64_ok (time - _)), outcome_bind_Ok by (unfold_ints; lia).
  cbv zeta. rewrite Hexp. clear Hexp.
  revert He. generalize (Z.quot (- (lag a frame time * 65536)) HALF_LIFE). intros e He.
  destruct (exponent_split e) as [E F]. destruct (factor_ok (Z.land e 65535) F) as (g & -> & Hg & Hgr).
  rewrite outcome_bind_Ok. unfold u32_max in Ha.
  rewrite ck_u64_ok by (unfold_ints; nia). rewrite outcome_bind_Ok.
  assert (0 <= anchor_difficulty a * g < 2 ^ 49) by nia.
  rewrite finish_value by lia. unfold scaled_value. by rewrite <- Hg.
Qed.

(** ** Properties *)

(** C39. The adjuster is total on sane inputs and monotone in time: no checked
    operation overflows, the result is at least the floor, and at a later time
    the difficulty for the same frame is not higher. *)
Theorem difficulty_monotone_in_time :
  forall (a : AsertDifficultyAdjuster) (frame time time' : Z),
  sane a frame time -> sane a frame time' -> time <= time' ->
  exists d d', get_next_difficulty a frame time = Ok d /\ get_next_difficulty a frame time' = Ok d'
    /\ MIN_DIFFICULTY <= d' <= d.
Proof.
  intros a frame time time' Hs Hs' Ht. pose proof (proj1 Hs) as Ha.
  rewrite (get_next_difficulty_value _ _ _ Hs), (get_next_difficulty_value _ _ _ Hs').
  do 2 eexists. split; [done|]. split; [done|].
  pose proof (lag_exponent_range _ _ _ Hs'). 
  assert (Z.quot (- (lag a frame time' * 65536)) HALF_LIFE <= Z.quot (- (lag a frame time * 65536)) HALF_LIFE).
  { apply Z.quot_le_mono; [done|]. unfold lag. lia. }
  pose proof (scaled_value_mono (anchor_difficulty a)
    (Z.quot (- (lag a frame time' * 65536)) HALF_LIFE) (Z.quot (- (lag a frame time * 65536)) HALF_LIFE)
    ltac:(lia) ltac:(lia)). lia.
Qed.

Definition demo_adjuster : AsertDifficultyAdjuster := mkAdjuster 1000 1700000000000 200000.

Lemma demo_sane time : 1700000000000 <= time <= 1700000100000 -> sane demo_adjuster 1005 time.
Proof. unfold sane, demo_adjuster, u32_max, HALF_LIFE, IDEAL_FRAME_TIME. simpl. lia. Qed.

Lemma difficulty_monotone_in_time_witness :
  exists d d', get_next_difficulty demo_adjuster 1005 1700000000000 = Ok d
    /\ get_next_difficulty demo_adjuster 1005 1700000090000 = Ok d' /\ MIN_DIFFICULTY <= d' <= d.
Proof. apply difficulty_monotone_in_time; [apply demo_sane; lia|apply demo_sane; lia|lia]. Defined.

(** On schedule the difficulty is the anchor's (or the floor), one half-life
    ahead of schedule it is twice the anchor's, one half-life behind it is half. *)
Theorem difficulty_half_life :
  forall (a : AsertDifficultyAdjuster) (frame time : Z),
  sane a frame time ->
  (lag a frame time = 0 ->
   get_next_difficulty a frame time = Ok (Z.max MIN_DIFFICULTY (anchor_difficulty a)))
  /\ (lag a frame time = - HALF_LIFE ->
      get_next_difficulty a frame time = Ok (Z.max MIN_DIFFICULTY (2 * anchor_difficulty a)))
  /\ (lag a frame time = HALF_LIFE ->
      get_next_difficulty a frame time = Ok (Z.max MIN_DIFFICULTY (anchor_difficulty a / 2))).
Proof.
  intros a frame time Hs. rewrite (get_next_difficulty_value _ _ _ Hs).
  assert (Hv : forall s, -63 <= s <= 14 ->
            scaled_value (anchor_difficulty a) (s * 65536)
            = anchor_difficulty a * 2 ^ (s + 64) / 2 ^ 64).
  { intros s Hk. unfold scaled_value.
    assert (Z.land (s * 65536) 65535 = 0) as ->.
    { change 65535 with (Z.ones 16). rewrite Z.land_ones by lia. apply Z.mod_mul. lia. }
    assert (Z.shiftr (s * 65536) 16 = s) as ->.
    { rewrite Z.shiftr_div_pow2 by lia. apply Z.div_mul. lia. }
    change (65536 + Z.shiftr (poly 0) 48) with (2 ^ 16). change (2 ^ 80) with (2 ^ 64 * 2 ^ 16).
    rewrite <- Z.mul_assoc, (Z.mul_comm (2 ^ 16)), Z.mul_assoc. apply Z.div_mul_cancel_r; lia. }
  split; [|split]; intros ->.
  - change (Z.quot (- (0 * 65536)) HALF_LIFE) with (0 * 65536). rewrite (Hv 0) by lia.
    rewrite Z.div_mul by lia. done.
  - change (Z.quot (- (- HALF_LIFE * 65536)) HALF_LIFE) with (1 * 65536). rewrite (Hv 1) by lia.
    rewrite Z.pow_add_r, Z.mul_assoc, Z.div_mul by lia. do 2 f_equal. lia.
  - change (Z.quot (- (HALF_LIFE * 65536)) HALF_LIFE) with (-1 * 65536). rewrite (Hv (-1)) by lia.
    change (2 ^ 64) with (2 * 2 ^ (-1 + 64)). rewrite Z.div_mul_cancel_r by lia. done.
Qed.

Lemma difficulty_half_life_witness :
  get_next_difficulty demo_adjuster 1005 1700000060000 = Ok 200000.
Proof.
  apply (difficulty_half_life demo_adjuster 1005 1700000060000); [apply demo_sane; lia|reflexivity].
Defined.

(** Far ahead of schedule the left shift drops the high bits: 32 half-lives
    ahead with an anchor of 65536 the pipeline wraps to zero and the result is
    the minimum difficulty, not a large one (the guard only catches more than
    48 shifts). *)
Theorem difficulty_shift_wraps :
  get_next_difficulty (mkAdjuster 0 0 65536) (32 * 720 - 1) 0 = Ok MIN_DIFFICULTY
  /\ asert_exponent (32 * 720 - 1) 0 = 32 * 65536.
Proof. split; vm_compute; reflexivity. Qed.
