(* ===== verification/Fees.v ===== *)
(** * Dynamic fee votes

    [crates/quil-engine/src/fees.rs]: the sliding window of fee-multiplier votes
    per filter ([InMemoryDynamicFeeManager]), the traffic adjustment of the
    mean, and the bounds a proposed vote is held to.  The trait
    [DynamicFeeManager] of [quil_types::consensus] is a type class: what is
    computed from a manager ([compute_fee_multiplier_vote]) is defined and
    proved against it.

    A clock reading ([Instant::now()]) is an argument of the operation that
    takes it, in milliseconds.  The [RwLock] is not modelled: every operation
    takes it once and runs under it. *)

From stdpp Require Import gmap sorting.
From S2P Require Import Prelude Bytes Lifecycle.

Definition MAX_WINDOW_SIZE : nat := 360.
Definition DEFAULT_FEE_MULTIPLIER : Z := 100.

Record FeeVote : Type := mkVote {
  frame_number : Z;
  fee_multiplier_vote : Z;
}.

#[global] Instance FeeVote_eq_dec : EqDecision FeeVote.
Proof. solve_decision. Defined.

Record FilterFeeData : Type := mkFeeData {
  votes : list FeeVote;
  sum_votes : Z;
  last_updated : Z;
}.

Definition FilterFeeData_new (now : Z) : FilterFeeData := mkFeeData [] 0 now.

Record InMemoryDynamicFeeManager : Type := mkManager {
  filter_data : gmap bytes FilterFeeData;
  window_size : nat;
}.

Definition manager_new (window_size : nat) : InMemoryDynamicFeeManager :=
  mkManager ∅ (Nat.min window_size MAX_WINDOW_SIZE).

(** The body of [add_frame_fee_vote] on the filter's entry. *)
Definition record_vote (window_size : nat) (data : FilterFeeData) (frame vote now : Z)
    : outcome FilterFeeData :=
  if match last (votes data) with Some l => frame <=? frame_number l | None => false end
  then Err InvalidArgument
  else
    let data := mkFeeData (votes data ++ [mkVote frame vote]) (wrap_u64 (sum_votes data + vote)) now in
    Ok (if (window_size <? length (votes data))%nat then
          match votes data with
          | old :: rest =>
              mkFeeData rest (wrap_u64 (sum_votes data - fee_multiplier_vote old)) now
          | [] => data
          end
        else data).

(** [add_frame_fee_vote]; [entry(..).or_insert_with(..)] leaves the new entry
    in the map before the order check. *)
Definition add_frame_fee_vote (m : InMemoryDynamicFeeManager) (filter : bytes)
    (frame vote now : Z) : InMemoryDynamicFeeManager * outcome unit :=
  let data := default (FilterFeeData_new now) (filter_data m !! filter) in
  let put d := mkManager (<[filter := d]> (filter_data m)) (window_size m) in
  match record_vote (window_size m) data frame vote now with
  | Ok d => (put d, Ok tt)
  | Err e => (put data, Err e)
  | Panic => (put data, Panic)
  end.

(** [get_next_fee_multiplier] *)
Definition get_next_fee_multiplier (m : InMemoryDynamicFeeManager) (filter : bytes) : outcome Z :=
  match filter_data m !! filter with
  | Some data =>
      if (length (votes data) =? 0)%nat then Ok DEFAULT_FEE_MULTIPLIER
      else Ok (sum_votes data / Z.of_nat (length (votes data)))
  | None => Ok DEFAULT_FEE_MULTIPLIER
  end.

(** [get_vote_history] *)
Definition get_vote_history (m : InMemoryDynamicFeeManager) (filter : bytes) : outcome (list Z) :=
  Ok (match filter_data m !! filter with
      | Some d => map fee_multiplier_vote (votes d)
      | None => []
      end).

(** [get_average_window_size] *)
Definition get_average_window_size (m : InMemoryDynamicFeeManager) (filter : bytes) : outcome nat :=
  Ok (match filter_data m !! filter with Some d => length (votes d) | None => 0%nat end).

(** [Instant::checked_sub]: a clock reading before the clock's origin does not exist. *)
Definition instant_checked_sub (t d : Z) : option Z := if d <=? t then Some (t - d) else None.

(** [prune_old_data] *)
Definition prune_old_data (m : InMemoryDynamicFeeManager) (max_age now : Z) : InMemoryDynamicFeeManager :=
  match instant_checked_sub now max_age with
  | None => m
  | Some cutoff =>
      mkManager (base.filter (fun kv => cutoff <= last_updated kv.2) (filter_data m)) (window_size m)
  end.

(** [votes.iter().position(|v| v.frame_number > frame).unwrap_or(len)] *)
Fixpoint position_after (frame : Z) (l : list FeeVote) : nat :=
  match l with
  | [] => 0
  | v :: l' => if frame <? frame_number v then 0 else S (position_after frame l')
  end.

(** [rewind_to_frame] *)
Definition rewind_to_frame (m : InMemoryDynamicFeeManager) (filter : bytes) (frame : Z)
    : InMemoryDynamicFeeManager * nat :=
  match filter_data m !! filter with
  | None => (m, 0%nat)
  | Some data =>
      if (length (votes data) =? 0)%nat then (m, 0%nat)
      else
        let keep_index := position_after frame (votes data) in
        let removed_count := (length (votes data) - keep_index)%nat in
        if (removed_count =? 0)%nat then (m, 0%nat)
        else
          let sum := foldl (fun s v => wrap_u64 (s - fee_multiplier_vote v)) (sum_votes data)
                       (drop keep_index (votes data)) in
          (mkManager (<[filter := mkFeeData (take keep_index (votes data)) sum (last_updated data)]>
                        (filter_data m)) (window_size m), removed_count)
  end.

(** ** Traffic adjustment *)

Definition MAX_ADJUSTMENT_PERCENT : Z := 10.

(** [n * 100 / target] with the [i64] cap, as in both branches of
    [adjust_fee_for_traffic]. *)
Definition capped_percent (n target : Z) : outcome Z :=
  scaled ← ck_i64 (n * 100);
  if target =? 0 then Panic
  else
    percent ← ck_i64 (Z.quot scaled target);
    Ok (if MAX_ADJUSTMENT_PERCENT <? percent then MAX_ADJUSTMENT_PERCENT else percent).

(** [adjust_fee_for_traffic]; [ideal] is [ideal_frame_time_ms()]. *)
Definition adjust_fee_for_traffic (ideal base_fee current_timestamp_ms previous_timestamp_ms : Z)
    (reward_greedy : bool) : outcome Z :=
  if negb reward_greedy then Ok base_fee
  else if base_fee =? 0 then Ok 1
  else
    time_diff ← ck_i64 (current_timestamp_ms - previous_timestamp_ms);
    let target := if ideal <=? i64_max then ideal else i64_max in
    if time_diff <? target then
      n ← ck_i64 (target - time_diff);
      percent_faster ← capped_percent n target;
      product ← ck_u64 (base_fee * wrap_u64 percent_faster);
      Ok (Z.max (sat_sub_u64 base_fee (product / 100)) 1)
    else if target <? time_diff then
      n ← ck_i64 (time_diff - target);
      percent_slower ← capped_percent n target;
      product ← ck_u64 (base_fee * wrap_u64 percent_slower);
      Ok (sat_add_u64 base_fee (product / 100))
    else Ok base_fee.

(** The trait [DynamicFeeManager], its operations that change no state. *)
Class DynamicFeeManager (M : Type) : Type := {
  next_fee_multiplier : M -> bytes -> outcome Z;
  vote_history : M -> bytes -> outcome (list Z);
  average_window_size : M -> bytes -> outcome nat;
}.

#[global] Instance in_memory_fee_manager : DynamicFeeManager InMemoryDynamicFeeManager := {|
  next_fee_multiplier := get_next_fee_multiplier;
  vote_history := get_vote_history;
  average_window_size := get_average_window_size;
|}.

(** [compute_fee_multiplier_vote] *)
Definition compute_fee_multiplier_vote `{DynamicFeeManager M} (fee_manager : M) (filter : bytes)
    (ideal current_timestamp_ms previous_timestamp_ms : Z) (reward_greedy : bool) : outcome Z :=
  match next_fee_multiplier fee_manager filter with
  | Panic => Panic
  | Ok base => adjust_fee_for_traffic ideal base current_timestamp_ms previous_timestamp_ms reward_greedy
  | Err _ => adjust_fee_for_traffic ideal DEFAULT_FEE_MULTIPLIER current_timestamp_ms
               previous_timestamp_ms reward_greedy
  end.

(** ** Vote bounds *)

Definition MIN_FEE_MULTIPLIER_VOTE : Z :=
  DEFAULT_FEE_MULTIPLIER * (100 - MAX_ADJUSTMENT_PERCENT) / 100.
Definition MAX_FEE_MULTIPLIER_VOTE : Z :=
  DEFAULT_FEE_MULTIPLIER * (100 + MAX_ADJUSTMENT_PERCENT) / 100.
Definition MAINNET_FEE_VOTE_BOUND_FRAME : option Z := None.

(** [fee_vote_bound_frame_for] *)
Definition fee_vote_bound_frame_for (network : Z) (setting : option bytes) : Z :=
  if network =? 0 then default u64_max MAINNET_FEE_VOTE_BOUND_FRAME
  else default u64_max (setting ≫= parse_u64).

(** [init_fee_vote_bound_frame]: the once-cell's first call decides. *)
Definition init_fee_vote_bound_frame (cell : option Z) (network : Z) (setting : option bytes)
    : option Z * Z :=
  match cell with
  | Some frame => (Some frame, frame)
  | None => let frame := fee_vote_bound_frame_for network setting in (Some frame, frame)
  end.

(** [fee_vote_bound_frame]: the thread's override, else the process's frame,
    else the mainnet frame. *)
Definition fee_vote_bound_frame (thread_override cell : option Z) : Z :=
  match thread_override with
  | Some frame => frame
  | None => match cell with Some frame => frame | None => fee_vote_bound_frame_for 0 None end
  end.

(** [fee_vote_bounded_at], with [fee_vote_bound_frame ()] as [from]. *)
Definition fee_vote_bounded_at (from global_frame : Z) : bool :=
  negb (from =? u64_max) && (from <=? global_frame).

Definition fee_vote_in_bounds (vote : Z) : bool :=
  (MIN_FEE_MULTIPLIER_VOTE <=? vote) && (vote <=? MAX_FEE_MULTIPLIER_VOTE).

(** [check_fee_vote] *)
Definition check_fee_vote (from global_frame vote : Z) : outcome unit :=
  if fee_vote_bounded_at from global_frame && negb (fee_vote_in_bounds vote)
  then Err InvalidArgument else Ok tt.

(** [proposer_fee_vote] *)
Definition proposer_fee_vote (from global_frame vote : Z) : Z :=
  if fee_vote_bounded_at from global_frame
  then Z.min (Z.max vote MIN_FEE_MULTIPLIER_VOTE) MAX_FEE_MULTIPLIER_VOTE else vote.

(** ** Abstract window

    The state a filter's votes stand for: the window itself, and the time of
    the last accepted vote. *)

Inductive FeeOp : Type :=
| AddVote (filter : bytes) (frame vote now : Z)
| Rewind (filter : bytes) (frame : Z)
| Prune (max_age now : Z).

Definition apply_op (m : InMemoryDynamicFeeManager) (op : FeeOp) : InMemoryDynamicFeeManager :=
  match op with
  | AddVote filter frame vote now => (add_frame_fee_vote m filter frame vote now).1
  | Rewind filter frame => (rewind_to_frame m filter frame).1
  | Prune max_age now => prune_old_data m max_age now
  end.

Definition last_n {A} (n : nat) (l : list A) : list A := drop (length l - n) l.

Definition newer (frame : Z) (w : list FeeVote) : Prop := Forall (fun v => frame_number v < frame) w.
#[global] Instance newer_dec frame w : Decision (newer frame w).
Proof. unfold newer. apply _. Defined.

(** One operation as seen by [filter]. *)
Definition window_step (size : nat) (filter : bytes) (s : list FeeVote * Z) (op : FeeOp)
    : list FeeVote * Z :=
  match op with
  | AddVote f frame vote now =>
      if decide (f = filter /\ newer frame s.1) then (last_n size (s.1 ++ [mkVote frame vote]), now) else s
  | Rewind f frame =>
      if decide (f = filter) then (base.filter (fun v => frame_number v <= frame) s.1, s.2) else s
  | Prune max_age now => if decide (0 <= now - max_age /\ s.2 < now - max_age) then ([], s.2) else s
  end.

Definition window_after (size : nat) (filter : bytes) (ops : list FeeOp) : list FeeVote :=
  (foldl (window_step size filter) ([], 0) ops).1.

Definition total (w : list FeeVote) : Z := list_sumZ fee_multiplier_vote w.

(** ** Window lemmas *)

Definition frames_increasing (w : list FeeVote) : Prop :=
  StronglySorted (fun a b => frame_number a < frame_number b) w.

Record window_ok (size : nat) (d : FilterFeeData) : Prop := {
  ok_sorted : frames_increasing (votes d);
  ok_sum : sum_votes d = wrap_u64 (total (votes d));
  ok_length : (length (votes d) <= size)%nat;
}.

Lemma wrap_u64_plus a b : wrap_u64 (wrap_u64 a + b) = wrap_u64 (a + b).
Proof. unfold wrap_u64. by rewrite Zplus_mod_idemp_l. Qed.

Lemma wrap_u64_minus a b : wrap_u64 (wrap_u64 a - b) = wrap_u64 (a - b).
Proof. unfold wrap_u64. by rewrite Zminus_mod_idemp_l. Qed.

Lemma newer_last (w : list FeeVote) frame :
  frames_increasing w ->
  newer frame w <-> match last w with Some l => frame <=? frame_number l | None => false end = false.
Proof.
  intros Hw. destruct w as [|v w _] using rev_ind; [split; [done|constructor]|].
  rewrite last_snoc, Z.leb_gt. unfold newer. rewrite Forall_app, Forall_singleton. split; [tauto|].
  intros Hlt. split; [|done]. apply Forall_forall. intros u Hu.
  pose proof (StronglySorted_app_1_elem_of _ _ _ u v Hw Hu ltac:(set_solver)). simpl in *. lia.
Qed.

Lemma filter_none {A} (P : A -> Prop) `{!forall x, Decision (P x)} (l : list A) :
  Forall (fun x => ~ P x) l -> base.filter P l = [].
Proof. induction 1; [done|]. by rewrite filter_cons_False. Qed.

Lemma position_take (w : list FeeVote) frame :
  frames_increasing w ->
  take (position_after frame w) w = base.filter (fun v => frame_number v <= frame) w.
Proof.
  induction 1 as [|v w Hw IH Hv]; [done|]. rewrite filter_cons. simpl.
  destruct (Z.ltb_spec frame (frame_number v)).
  - rewrite decide_False by lia. simpl. symmetry. apply filter_none.
    eapply Forall_impl; [exact Hv|]. simpl. lia.
  - rewrite decide_True by lia. simpl. by rewrite IH.
Qed.

Lemma position_after_length frame (w : list FeeVote) : (position_after frame w <= length w)%nat.
Proof. induction w as [|v w IH]; simpl; [lia|]. destruct (frame <? frame_number v); lia. Qed.

Lemma unwind_sum (l : list FeeVote) s :
  foldl (fun s v => wrap_u64 (s - fee_multiplier_vote v)) (wrap_u64 s) l = wrap_u64 (s - total l).
Proof.
  revert s. induction l as [|v l IH]; intros s; simpl; [by rewrite Z.sub_0_r|].
  rewrite wrap_u64_minus, IH. f_equal. unfold total, list_sumZ. simpl. lia.
Qed.

(** Recording a vote that is newer keeps the last [size] votes. *)
Lemma record_vote_ok size d frame vote now :
  window_ok size d -> newer frame (votes d) ->
  exists d', record_vote size d frame vote now = Ok d' /\ window_ok size d'
    /\ votes d' = last_n size (votes d ++ [mkVote frame vote]) /\ last_updated d' = now.
Proof.
  intros [Hs Hsum Hlen] Hn. unfold record_vote.
  rewrite (proj1 (newer_last _ frame Hs) Hn). cbv zeta. cbn [votes sum_votes].
  assert (Hs' : frames_increasing (votes d ++ [mkVote frame vote])) .
  { apply StronglySorted_app_2; [|done|repeat constructor].
    intros u v Hu ->%list_elem_of_singleton. by apply (proj1 (Forall_forall _ _) Hn). }
  assert (Ht : total (votes d ++ [mkVote frame vote]) = total (votes d) + vote).
  { unfold total. rewrite list_sumZ_app. unfold list_sumZ at 2. simpl. lia. }
  rewrite Hsum, wrap_u64_plus, <- Ht. clear Ht Hsum Hs Hn. unfold last_n.
  destruct (Nat.ltb_spec size (length (votes d ++ [mkVote frame vote]))) as [Hl|Hl];
    rewrite length_app in Hl |- *; simpl in Hl |- *.
  - replace (length (votes d) + 1 - size)%nat with 1%nat by lia.
    destruct (votes d ++ [mkVote frame vote]) as [|old rest] eqn:E; [by destruct (votes d)|].
    eexists. split; [done|]. split; [|done]. constructor; cbn [votes sum_votes].
    + by inversion Hs'.
    + rewrite wrap_u64_minus. f_equal. unfold total, list_sumZ. simpl. lia.
    + apply (f_equal length) in E. rewrite length_app in E. simpl in E. lia.
  - replace (length (votes d) + 1 - size)%nat with 0%nat by lia.
    eexists. split; [done|]. split; [|done]. constructor; cbn [votes sum_votes]; [done|done|].
    rewrite length_app. simpl. lia.
Qed.

Lemma record_vote_stale size d frame vote now :
  window_ok size d -> ~ newer frame (votes d) -> record_vote size d frame vote now = Err InvalidArgument.
Proof.
  intros [Hs _ _] Hn. unfold record_vote. rewrite (newer_last _ frame Hs) in Hn.
  by apply not_false_is_true in Hn as ->.
Qed.

(** ** Simulation *)

(** The manager's entry of a filter against the abstract window. *)
Definition window_rel (size : nat) (entry : option FilterFeeData) (s : list FeeVote * Z) : Prop :=
  match entry with
  | None => s.1 = []
  | Some d => window_ok size d /\ votes d = s.1 /\ (s.1 = [] \/ last_updated d = s.2)
  end.

Definition manager_rel (size : nat) (filter : bytes) (m : InMemoryDynamicFeeManager)
    (s : list FeeVote * Z) : Prop :=
  window_size m = size /\ window_rel size (filter_data m !! filter) s.

Lemma empty_window_ok size now : window_ok size (FilterFeeData_new now).
Proof. constructor; [constructor|done|simpl; lia]. Qed.

Lemma rel_default size entry s now :
  window_rel size entry s ->
  window_ok size (default (FilterFeeData_new now) entry)
  /\ votes (default (FilterFeeData_new now) entry) = s.1.
Proof. destruct entry as [d|]; simpl; [tauto|]. intros ->. auto using empty_window_ok. Qed.

Lemma add_simulates size filter m s f frame vote now :
  manager_rel size filter m s ->
  manager_rel size filter (apply_op m (AddVote f frame vote now))
    (window_step size filter s (AddVote f frame vote now)).
Proof.
  intros [Hsz Hr]. simpl. unfold add_frame_fee_vote. rewrite Hsz.
  destruct (decide (f = filter)) as [->|Hne].
  - destruct (rel_default _ _ _ now Hr) as [Hok Hv]. rewrite <- Hv.
    destruct (decide (newer frame (votes (default (FilterFeeData_new now) (filter_data m !! filter))))) as [Hn|Hn].
    + rewrite decide_True by done.
      destruct (record_vote_ok _ _ frame vote now Hok Hn) as (d' & -> & Hok' & Hv' & Hu).
      split; simpl; [done|]. rewrite lookup_insert_eq. simpl. split; [done|]. split; [done|auto].
    + rewrite decide_False by tauto. rewrite record_vote_stale by done. split; simpl; [done|].
      rewrite lookup_insert_eq. simpl. split; [done|]. split; [done|].
      destruct (filter_data m !! filter); simpl in *; [tauto|auto].
  - rewrite decide_False by tauto.
    assert (forall d o, manager_rel size filter (mkManager (<[f:=d]> (filter_data m)) size, o : outcome unit).1 s)
      as Hput by (intros d o; split; simpl; [done|]; by rewrite lookup_insert_ne).
    destruct (record_vote _ _ _ _ _); apply (Hput _ (Ok tt)).
Qed.

Lemma rewind_window size d frame :
  window_ok size d ->
  let k := position_after frame (votes d) in
  window_ok size (mkFeeData (take k (votes d))
    (foldl (fun s v => wrap_u64 (s - fee_multiplier_vote v)) (sum_votes d) (drop k (votes d)))
    (last_updated d)).
Proof.
  intros [Hs Hsum Hl] k. pose proof (take_drop k (votes d)) as E. constructor; cbn [votes sum_votes].
  - rewrite <- E in Hs. by apply StronglySorted_app_1_l in Hs.
  - rewrite Hsum, unwind_sum. f_equal. unfold total. rewrite <- E at 1. rewrite list_sumZ_app. lia.
  - rewrite length_take. lia.
Qed.

Lemma rewind_simulates size filter m s f frame :
  manager_rel size filter m s ->
  manager_rel size filter (apply_op m (Rewind f frame)) (window_step size filter s (Rewind f frame)).
Proof.
  intros [Hsz Hr]. simpl. unfold rewind_to_frame.
  destruct (decide (f = filter)) as [->|Hne].
  - destruct (filter_data m !! filter) as [d|] eqn:E; simpl in Hr.
    + destruct Hr as (Hok & Hv & Hu). pose proof (position_take _ frame (ok_sorted _ _ Hok)) as Hp.
      destruct (Nat.eqb_spec (length (votes d)) 0) as [Hz|Hz]; [|case_match eqn:Hk].
      * split; [done|]. simpl. rewrite E, <- Hv, (nil_length_inv _ Hz). simpl.
        rewrite <- Hv, (nil_length_inv _ Hz) in Hu. auto using nil_length_inv.
      * apply Nat.eqb_eq in Hk. split; [done|]. simpl. rewrite E, <- Hv, <- Hp, take_ge by lia.
        simpl. by rewrite Hv.
      * split; [done|]. simpl. rewrite lookup_insert_eq. simpl. split; [by apply rewind_window|].
        split; [by rewrite Hp, Hv|]. destruct Hu as [->|]; auto.
    + split; [done|]. simpl. by rewrite E, Hr.
  - assert (Hother : forall d k, manager_rel size filter (mkManager (<[f:=d]> (filter_data m)) (window_size m), k : nat).1 s)
      by (intros d k; split; simpl; [done|]; by rewrite lookup_insert_ne).
    destruct (filter_data m !! f); [|done]. repeat case_match; done || apply (Hother _ 0%nat).
Qed.

Lemma prune_simulates size filter m s max_age now :
  manager_rel size filter m s ->
  manager_rel size filter (apply_op m (Prune max_age now)) (window_step size filter s (Prune max_age now)).
Proof.
  intros [Hsz Hr]. simpl. unfold prune_old_data, instant_checked_sub.
  destruct (Z.leb_spec max_age now); [|by rewrite decide_False by lia].
  split; [done|]. simpl. destruct (filter_data m !! filter) as [d|] eqn:E; simpl in Hr.
  - destruct Hr as (Hok & Hv & Hu). destruct (decide (now - max_age <= last_updated d)) as [Hle|Hle].
    + rewrite (map_lookup_filter_Some_2 _ _ _ d) by done. simpl. case_decide; [|done].
      destruct Hu as [He|He]; [|lia]. simpl. rewrite He in Hv. auto.
    + rewrite (proj2 (map_lookup_filter_None _ _ _)); [|right; intros ? [= <-]%(eq_trans (eq_sym E)); done].
      simpl. case_decide; [done|]. destruct Hu as [He|He]; [done|lia].
  - rewrite (proj2 (map_lookup_filter_None _ _ _)) by auto. simpl. by case_decide.
Qed.

#[local] Hint Resolve add_simulates rewind_simulates prune_simulates : quil.

Lemma run_simulates size filter ops m s :
  manager_rel size filter m s ->
  manager_rel size filter (foldl apply_op m ops) (foldl (window_step size filter) s ops).
Proof. revert m s. induction ops as [|[] ops IH]; intros; cbn [foldl]; auto with quil. Qed.

(** A mean of values within bounds is within them. *)
Lemma mean_bounds (w : list FeeVote) lo hi :
  w <> [] -> Forall (fun v => lo <= fee_multiplier_vote v <= hi) w ->
  lo <= total w / Z.of_nat (length w) <= hi.
Proof.
  intros Hne Hw.
  assert (lo * Z.of_nat (length w) <= total w <= hi * Z.of_nat (length w)).
  { clear Hne. unfold total, list_sumZ. induction Hw; simpl; lia. }
  assert (0 < Z.of_nat (length w)) by (destruct w; simpl in *; [done|lia]).
  split; [apply Z.div_le_lower_bound|apply Z.div_le_upper_bound]; lia.
Qed.

(** C8. The fee manager implements the sliding window.  After any sequence of
    votes, rewinds and prunes, over any filters, what it reports for a filter is
    the abstract window: a vote is kept exactly when it is newer than every vote
    in the window, only the last [min window_size 360] are kept, a rewind keeps
    exactly the votes at or below its frame, a prune empties a window that is
    too old.  Frames in the window strictly increase, and, when the votes' sum
    fits a [u64], the next multiplier is the floor of their mean (the default
    for an empty window), so it lies between any bounds the votes respect. *)
Theorem fee_window_refines :
  forall (size : nat) (ops : list FeeOp) (filter : bytes),
  let m := foldl apply_op (manager_new size) ops in
  let w := window_after (Nat.min size MAX_WINDOW_SIZE) filter ops in
  get_vote_history m filter = Ok (map fee_multiplier_vote w)
  /\ get_average_window_size m filter = Ok (length w)
  /\ (length w <= Nat.min size MAX_WINDOW_SIZE)%nat /\ frames_increasing w
  /\ (in_u64 (total w) -> exists f, get_next_fee_multiplier m filter = Ok f
        /\ (w = [] -> f = DEFAULT_FEE_MULTIPLIER)
        /\ (w <> [] -> f = total w / Z.of_nat (length w)
             /\ forall lo hi, Forall (fun v => lo <= fee_multiplier_vote v <= hi) w -> lo <= f <= hi)).
Proof.
  intros size ops filter m w.
  assert (Hr : manager_rel (Nat.min size MAX_WINDOW_SIZE) filter m
                 (foldl (window_step (Nat.min size MAX_WINDOW_SIZE) filter) ([], 0) ops)).
  { apply run_simulates. split; [done|]. simpl. by rewrite lookup_empty. }
  destruct Hr as [_ Hr]. unfold window_rel in Hr.
  fold (window_after (Nat.min size MAX_WINDOW_SIZE) filter ops) in Hr. fold w in Hr. clearbody w m.
  unfold get_vote_history, get_average_window_size, get_next_fee_multiplier.
  destruct (filter_data m !! filter) as [d|].
  - destruct Hr as ([Hs Hsum Hl] & Hv & _). rewrite Hv in *. do 4 (split; [done|]). intros Hin.
    destruct (Nat.eqb_spec (length w) 0) as [Hz|Hz].
    + apply nil_length_inv in Hz. eexists. split; [done|]. by split.
    + rewrite Hsum, wrap_u64_id by done. eexists. split; [done|]. split; [by intros ->|].
      intros Hne. split; [done|]. intros. by apply mean_bounds.
  - subst w. repeat split; [simpl; lia|constructor|]. eexists. split; [done|]. by split.
Qed.

Definition demo_ops : list FeeOp :=
  [AddVote [] 1 90 10; AddVote [] 2 100 20; AddVote [] 3 107 30; AddVote [] 3 1 31;
   AddVote [] 4 500 40; Rewind [] 3].

Lemma fee_window_refines_witness :
  get_vote_history (foldl apply_op (manager_new 3) demo_ops) [] = Ok [100; 107]
  /\ exists f, get_next_fee_multiplier (foldl apply_op (manager_new 3) demo_ops) [] = Ok f /\ f = 103.
Proof.
  destruct (fee_window_refines 3 demo_ops []) as (H & _ & _ & _ & Hn). split; [exact H|].
  destruct Hn as (f & Hf & _ & Hm); [vm_compute; split; discriminate|].
  exists f. split; [exact Hf|]. apply Hm. discriminate.
Defined.

(** ** Traffic adjustment and vote bounds *)

(** Timestamps and intervals at which no [i64] operation overflows: the
    interval is positive and the frame gap within [2^55] ms. *)
Definition sane_gap (ideal current previous : Z) : Prop :=
  0 < ideal <= 2 ^ 55 /\ - 2 ^ 55 <= current - previous <= 2 ^ 55.

Lemma capped_percent_ok n target :
  0 <= n <= 2 ^ 56 -> 0 < target ->
  exists p, capped_percent n target = Ok p /\ 0 <= p <= MAX_ADJUSTMENT_PERCENT.
Proof.
  intros Hn Ht. unfold capped_percent, MAX_ADJUSTMENT_PERCENT.
  rewrite ck_i64_ok by (unfold_ints; lia). rewrite outcome_bind_Ok.
  rewrite (proj2 (Z.eqb_neq _ _)) by lia.
  assert (0 <= Z.quot (n * 100) target <= n * 100).
  { rewrite Z.quot_div_nonneg by lia. split; [apply Z.div_pos; lia|]. apply Z.div_le_upper_bound; nia. }
  rewrite ck_i64_ok by (unfold_ints; lia). rewrite outcome_bind_Ok. eexists. split; [done|].
  destruct (Z.ltb_spec 10 (Z.quot (n * 100) target)); lia.
Qed.

Lemma product_ok base p :
  0 <= base -> base * 10 <= u64_max -> 0 <= p <= MAX_ADJUSTMENT_PERCENT ->
  ck_u64 (base * wrap_u64 p) = Ok (base * p) /\ 0 <= base * p / 100 <= base * 10 / 100.
Proof.
  unfold MAX_ADJUSTMENT_PERCENT. intros. rewrite wrap_u64_id by (unfold_ints; lia).
  split; [apply ck_u64_ok; unfold_ints; nia|].
  split; [apply Z.div_pos; nia|]. apply Z.div_le_mono; nia.
Qed.

(** The adjusted fee, for a reward-greedy node. *)
Lemma adjust_bounds ideal base current previous :
  sane_gap ideal current previous -> 0 < base -> base * 10 <= u64_max ->
  exists fee, adjust_fee_for_traffic ideal base current previous true = Ok fee
    /\ Z.max 1 (base - base * 10 / 100) <= fee <= base + base * 10 / 100
    /\ (current - previous <= ideal -> fee <= base) /\ (ideal <= current - previous -> base <= fee).
Proof.
  intros [Hi Hg] Hb Hb'. unfold adjust_fee_for_traffic. cbn [negb].
  rewrite (proj2 (Z.eqb_neq base 0)) by lia.
  rewrite (ck_i64_ok (current - previous)), outcome_bind_Ok by (unfold_ints; lia).
  rewrite (proj2 (Z.leb_le ideal i64_max)) by (unfold_ints; lia). cbv zeta.
  assert (0 <= base * 10 / 100) by (apply Z.div_pos; lia).
  destruct (Z.ltb_spec (current - previous) ideal); [|destruct (Z.ltb_spec ideal (current - previous))].
  - rewrite (ck_i64_ok (ideal - _)), outcome_bind_Ok by (unfold_ints; lia).
    destruct (capped_percent_ok (ideal - (current - previous)) ideal) as (p & -> & Hp); [lia..|].
    rewrite outcome_bind_Ok. destruct (product_ok base p) as [-> Hpr]; [lia..|done|].
    rewrite outcome_bind_Ok. eexists. split; [done|]. unfold sat_sub_u64. lia.
  - rewrite (ck_i64_ok (current - previous - _)), outcome_bind_Ok by (unfold_ints; lia).
    destruct (capped_percent_ok (current - previous - ideal) ideal) as (p & -> & Hp); [lia..|].
    rewrite outcome_bind_Ok. destruct (product_ok base p) as [-> Hpr]; [lia..|done|].
    rewrite outcome_bind_Ok. eexists. split; [done|]. unfold sat_add_u64.
    assert (base * 10 / 100 <= base * 10 / 10) by (apply Z.div_le_compat_l; lia).
    rewrite Z.div_mul in * by lia. unfold_ints. lia.
  - eexists. split; [done|]. lia.
Qed.

(** The traffic adjustment is total on sane timestamps, moves a positive
    base by at most a tenth (and never below one), downwards when frames come
    faster than the interval and upwards when they come slower; a node that is
    not reward-greedy votes its base. *)
Theorem traffic_adjustment_bounded :
  forall `{DynamicFeeManager M} (manager : M) (filter : bytes) (ideal base current previous : Z),
  next_fee_multiplier manager filter = Ok base ->
  sane_gap ideal current previous -> 0 < base -> base * 10 <= u64_max ->
  compute_fee_multiplier_vote manager filter ideal current previous false = Ok base
  /\ exists fee, compute_fee_multiplier_vote manager filter ideal current previous true = Ok fee
    /\ Z.max 1 (base - base * 10 / 100) <= fee <= base + base * 10 / 100
    /\ (current - previous <= ideal -> fee <= base) /\ (ideal <= current - previous -> base <= fee).
Proof.
  intros M HM manager filter ideal base current previous Hbase Hgap Hb Hb'.
  unfold compute_fee_multiplier_vote. rewrite Hbase. split; [done|]. by apply adjust_bounds.
Qed.

Lemma traffic_adjustment_bounded_witness :
  exists fee, compute_fee_multiplier_vote (foldl apply_op (manager_new 3) demo_ops) [] 10000 29700 20000 true
      = Ok fee /\ 93 <= fee <= 103.
Proof.
  destruct (traffic_adjustment_bounded (foldl apply_op (manager_new 3) demo_ops) [] 10000 103 29700 20000)
    as (_ & fee & Hf & Hr & Hle & _); [reflexivity|unfold sane_gap; lia|lia|vm_compute; discriminate|].
  exists fee. split; [exact Hf|]. split; [apply Hr|apply Hle; lia].
Defined.

(** A leader's vote is always accepted: what [proposer_fee_vote] returns
    passes [check_fee_vote] at the same anchor, whatever was computed.  As long
    as no vote is recorded for the filter (no node records them), the computed
    vote of a reward-greedy or other leader lies within the bounds, so it is
    proposed unchanged.  Where the bounds apply, a vote of zero is refused. *)
Theorem proposed_vote_accepted :
  forall `{DynamicFeeManager M} (manager : M) (filter : bytes) (ideal current previous : Z)
    (greedy : bool) (from global_frame : Z),
  next_fee_multiplier manager filter = Ok DEFAULT_FEE_MULTIPLIER -> sane_gap ideal current previous ->
  (forall vote, check_fee_vote from global_frame (proposer_fee_vote from global_frame vote) = Ok tt)
  /\ (exists vote, compute_fee_multiplier_vote manager filter ideal current previous greedy = Ok vote
       /\ proposer_fee_vote from global_frame vote = vote)
  /\ (fee_vote_bounded_at from global_frame = true -> check_fee_vote from global_frame 0 = Err InvalidArgument).
Proof.
  intros M HM manager filter ideal current previous greedy from global_frame Hbase Hgap.
  unfold check_fee_vote, proposer_fee_vote, fee_vote_in_bounds.
  change MIN_FEE_MULTIPLIER_VOTE with 90. change MAX_FEE_MULTIPLIER_VOTE with 110.
  split; [|split].
  - intros vote. destruct (fee_vote_bounded_at from global_frame); [|done]. cbn [andb].
    rewrite (proj2 (Z.leb_le 90 _)), (proj2 (Z.leb_le _ 110)) by lia. done.
  - unfold compute_fee_multiplier_vote. rewrite Hbase. unfold DEFAULT_FEE_MULTIPLIER. destruct greedy.
    + destruct (adjust_bounds ideal 100 current previous Hgap) as (fee & -> & Hr & _); [lia|by unfold_ints|].
      exists fee. split; [done|]. change (100 * 10 / 100) with 10 in Hr.
      destruct (fee_vote_bounded_at _ _); [lia|done].
    + exists 100. split; [done|]. by destruct (fee_vote_bounded_at _ _).
  - by intros ->.
Qed.

Lemma proposed_vote_accepted_witness :
  check_fee_vote 1000 2000 (proposer_fee_vote 1000 2000 7) = Ok tt
  /\ check_fee_vote 1000 2000 0 = Err InvalidArgument.
Proof.
  destruct (proposed_vote_accepted (manager_new 360) [] 10000 29700 20000 true 1000 2000) as (H & _ & Hz);
    [reflexivity|unfold sane_gap; lia|]. split; [apply H|apply Hz; reflexivity].
Defined.
