(* ===== verification/TurnQueue.v ===== *)
(** * Archive recovery turns

    [crates/quil-engine/src/recovery_turns.rs]: the queue that decides which
    worker's recovery runs next ([TurnQueue]), the places kept for withdrawn
    claims, the saturation warning, and the turns held, lent out and handed
    back ([RecoveryTurns], [Turn]).

    The flags a waiter's rank reads are shared atomics that their owners change
    while it waits, so a priority names memory cells and every operation that
    reads them takes the memory as it is then.  Instants and durations are in
    milliseconds.  The counters [next_id] and [next_ticket], which grow by one
    per claim, are not bounded. *)

From stdpp Require Import gmap sorting.
From S2P Require Import Prelude Bytes.

Open Scope nat_scope.

Definition RECOVERY_TURNS : nat := 2.
Definition MAX_LENT_TURNS : nat := 6.
Definition PRIORITY_RUN : nat := 2.
Definition SATURATED_AFTER : Z := 60 * 1000.
Definition SATURATED_REPEAT : Z := 10 * 60 * 1000.
Definition BLOCKED_TURN_BUDGET : Z := 5 * 60 * 1000.
Definition MAX_TURN_HOLD : Z := 10 * 60 * 1000.

(** ** Priorities *)

(** The shared flags, by cell. *)
Definition memory : Type := nat -> bool.

Record Priority : Type := mkPriority {
  blocked : nat;
  reanchor : nat;
  lagging : nat;
  pr_departing : nat;
  replay : bool;
}.

(** [Priority::rank] *)
Definition rank (mem : memory) (p : Priority) : nat :=
  if mem (reanchor p) then 0
  else
    match replay p, mem (blocked p) || mem (lagging p) with
    | true, true => 0
    | true, false => 1
    | false, true => 2
    | false, false => 3
    end.

(** [Priority::installs] *)
Definition installs_priority (mem : memory) (p : Priority) : bool := 2 <=? rank mem p.

(** [holds_turn] *)
Definition holds_turn (flags : list bool) (held : Z) : bool :=
  (held <? BLOCKED_TURN_BUDGET)%Z && existsb id flags.

Section queue.
Context {T : Type}.

Record Waiter : Type := mkWaiter {
  w_id : nat;
  ticket : nat;
  resumed : bool;
  priority : Priority;
  w_core : Z;
  since : Z;
  grant : T;
}.

Record TurnQueue : Type := mkQueue {
  turns : nat;
  free : nat;
  installs : nat;
  next_id : nat;
  next_ticket : nat;
  bypassed : nat;
  after_resumed : bool;
  waiters : list Waiter;
  lent : nat;
  returning : list (nat * T);
}.

Definition waiter_installs (mem : memory) (w : Waiter) : bool := installs_priority mem (priority w).
Definition waiter_departing (mem : memory) (w : Waiter) : bool := mem (pr_departing (priority w)).

(** [TurnQueue::new] *)
Definition new_queue (turns : nat) : TurnQueue := mkQueue turns turns 0 0 0 0 false [] 0 [].

(** Field updates. *)
Definition set_free (q : TurnQueue) (n : nat) : TurnQueue :=
  mkQueue (turns q) n (installs q) (next_id q) (next_ticket q) (bypassed q) (after_resumed q)
    (waiters q) (lent q) (returning q).
Definition set_installs (q : TurnQueue) (n : nat) : TurnQueue :=
  mkQueue (turns q) (free q) n (next_id q) (next_ticket q) (bypassed q) (after_resumed q)
    (waiters q) (lent q) (returning q).
Definition set_next_id (q : TurnQueue) (n : nat) : TurnQueue :=
  mkQueue (turns q) (free q) (installs q) n (next_ticket q) (bypassed q) (after_resumed q)
    (waiters q) (lent q) (returning q).
Definition set_next_ticket (q : TurnQueue) (n : nat) : TurnQueue :=
  mkQueue (turns q) (free q) (installs q) (next_id q) n (bypassed q) (after_resumed q)
    (waiters q) (lent q) (returning q).
Definition set_waiters (q : TurnQueue) (l : list Waiter) : TurnQueue :=
  mkQueue (turns q) (free q) (installs q) (next_id q) (next_ticket q) (bypassed q) (after_resumed q)
    l (lent q) (returning q).
Definition set_lent (q : TurnQueue) (n : nat) : TurnQueue :=
  mkQueue (turns q) (free q) (installs q) (next_id q) (next_ticket q) (bypassed q) (after_resumed q)
    (waiters q) n (returning q).
Definition set_returning (q : TurnQueue) (l : list (nat * T)) : TurnQueue :=
  mkQueue (turns q) (free q) (installs q) (next_id q) (next_ticket q) (bypassed q) (after_resumed q)
    (waiters q) (lent q) l.
Definition set_order (q : TurnQueue) (b : nat) (r : bool) : TurnQueue :=
  mkQueue (turns q) (free q) (installs q) (next_id q) (next_ticket q) b r
    (waiters q) (lent q) (returning q).

(** [may_lend] *)
Definition may_lend (q : TurnQueue) : bool :=
  (lent q <? MAX_LENT_TURNS) && negb ((length (waiters q) =? 0) && (length (returning q) =? 0)).

(** [take_back]: [None] when a turn is taken, the id it queued under otherwise. *)
Definition take_back (q : TurnQueue) (g : T) : option nat * TurnQueue :=
  let q := set_lent q (lent q - 1) in
  if 0 <? free q then (None, set_free q (free q - 1))
  else (Some (next_id q), set_returning (set_next_id q (S (next_id q))) (returning q ++ [(next_id q, g)])).

(** [withdraw_returning] *)
Definition withdraw_returning (q : TurnQueue) (id : nat) : bool * TurnQueue :=
  match position (fun r => r.1 =? id) (returning q) with
  | None => (false, q)
  | Some at_ => (true, set_returning q (base.delete at_ (returning q)))
  end.

(** [take_or_requeue]: the ticket, and whether the turn taken installs or the
    id the claim waits under. *)
Definition take_or_requeue (mem : memory) (q : TurnQueue) (p : Priority) (core : Z)
    (place : option nat) (now : Z) (g : T) : (nat * (bool + nat)) * TurnQueue :=
  let res := match place with Some _ => true | None => false end in
  let '(tk, q) := match place with
                  | Some t => (t, q)
                  | None => (next_ticket q, set_next_ticket q (S (next_ticket q)))
                  end in
  if (0 <? free q) && (length (waiters q) =? 0) then
    let install := installs_priority mem p in
    ((tk, inl install), set_installs (set_free q (free q - 1)) (installs q + Nat.b2n install))
  else
    let id := next_id q in
    let at_ := default (length (waiters q)) (position (fun w => tk <? ticket w) (waiters q)) in
    let w := mkWaiter id tk res p core now g in
    ((tk, inr id),
     set_waiters (set_next_id q (S id)) (take at_ (waiters q) ++ [w] ++ drop at_ (waiters q))).

(** The choice of [next] among the waiters. *)
Section pick.
Variables (mem : memory) (q : TurnQueue).

Definition keeps : bool := existsb (fun w => negb (waiter_departing mem w)) (waiters q).
Definition candidate (w : Waiter) : bool := negb (keeps && waiter_departing mem w).
Definition reserve : bool :=
  (2 <=? turns q) && (turns q <=? installs q + 1)
  && existsb (fun w => candidate w && negb (waiter_installs mem w)) (waiters q).
Definition open (w : Waiter) : bool := candidate w && negb (reserve && waiter_installs mem w).
Definition skip_resumed : bool :=
  after_resumed q && existsb (fun w => open w && negb (resumed w)) (waiters q).
Definition eligible (w : Waiter) : bool := open w && negb (skip_resumed && resumed w).
Definition longest : option nat :=
  position (fun w => candidate w && negb (skip_resumed && resumed w)) (waiters q).
Definition first_eligible : nat := default 0 (position eligible (waiters q)).
Definition pick : nat :=
  if bypassed q <? PRIORITY_RUN then
    match min_position eligible (fun w => rank mem (priority w)) (waiters q) with
    | Some (at_, _) => at_
    | None => first_eligible
    end
  else first_eligible.
End pick.

(** [next] *)
Definition next (mem : memory) (q : TurnQueue) (ended_install : bool) : option (T * bool) * TurnQueue :=
  let q := set_installs q (installs q - Nat.b2n ended_install) in
  match returning q with
  | (_, g) :: rest => (Some (g, false), set_returning q rest)
  | [] =>
      if length (waiters q) =? 0 then (None, set_free q (S (free q)))
      else
        let at_ := pick mem q in
        let b := if bool_decide (Some at_ = longest mem q) then 0 else S (bypassed q) in
        match waiters q !! at_ with
        | None => (None, set_order q b (after_resumed q))
        | Some w =>
            let install := waiter_installs mem w in
            (Some (grant w, install),
             set_installs (set_order (set_waiters q (base.delete at_ (waiters q))) b (resumed w))
               (installs q + Nat.b2n install))
        end
  end.

(** [withdraw] *)
Definition withdraw (q : TurnQueue) (id : nat) : bool * TurnQueue :=
  match position (fun w => w_id w =? id) (waiters q) with
  | None => (false, q)
  | Some at_ => (true, set_waiters q (base.delete at_ (waiters q)))
  end.
End queue.
Arguments Waiter : clear implicits.
Arguments TurnQueue : clear implicits.

(** ** Load and saturation *)

(** [now.saturating_duration_since(since)] *)
Definition elapsed (now from : Z) : Z := Z.max 0 (now - from).

Record QueueLoad : Type := mkLoad {
  waiting : nat;
  blocked_successors : nat;
  replays : nat;
  departing : nat;
  longest_wait : Z;
  front_core : option Z;
  install_turns : nat;
  lent_turns : nat;
  longest_replay_wait : Z;
}.

(** [TurnQueue::load] *)
Definition load {T} (mem : memory) (q : TurnQueue T) (now : Z) : QueueLoad :=
  let count p := length (List.filter p (waiters q)) in
  mkLoad (length (waiters q)) (count (fun w => mem (blocked (priority w))))
    (count (fun w => replay (priority w))) (count (waiter_departing mem))
    (list_maxZ (fun w => elapsed now (since w)) (waiters q))
    (w_core <$> head (waiters q)) (installs q) (lent q)
    (list_maxZ (fun w => elapsed now (since w))
       (List.filter (fun w => negb (waiter_installs mem w)) (waiters q))).

Inductive SaturationLog : Type :=
| Saturated (duration : Z)
| Cleared (duration : Z).

Record Saturation : Type := mkSaturation {
  sat_since : option Z;
  warned : option Z;
}.

(** [Saturation::observe] *)
Definition saturation_observe (s : Saturation) (now : Z) (l : QueueLoad)
    : option SaturationLog * Saturation :=
  if waiting l =? 0 then
    (match warned s with
     | None => None
     | Some _ => Some (Cleared match sat_since s with None => 0 | Some t => elapsed now t end)
     end, mkSaturation None None)
  else
    let from := default (now - longest_wait l)%Z (sat_since s) in
    if (longest_wait l <? SATURATED_AFTER)%Z
       || match warned s with None => false | Some t => (elapsed now t <? SATURATED_REPEAT)%Z end
    then (None, mkSaturation (Some from) (warned s))
    else (Some (Saturated (elapsed now from)), mkSaturation (Some from) (Some now)).

(** ** Kept places *)

Record KeptPlace : Type := mkKept {
  kp_core : Z;
  kp_filter : bytes;
  kp_ticket : nat;
  kp_since : Z;
}.

Definition same_place (core : Z) (filter : bytes) (k : KeptPlace) : bool :=
  (kp_core k =? core)%Z && bool_decide (kp_filter k = filter).

(** The update in place of the first matching record, or a push. *)
Fixpoint update_place (core : Z) (filter : bytes) (tk : nat) (from : Z) (kept : list KeptPlace)
    : list KeptPlace :=
  match kept with
  | [] => [mkKept core filter tk from]
  | k :: rest =>
      if same_place core filter k
      then mkKept (kp_core k) (kp_filter k) (Nat.min (kp_ticket k) tk) (Z.min (kp_since k) from) :: rest
      else k :: update_place core filter tk from rest
  end.

(** [State::keep_place]; [lasts] is [place_kept_for()]. *)
Definition keep_place (lasts : Z) (kept : list KeptPlace) (core : Z) (filter : bytes) (tk : nat)
    (from now : Z) : list KeptPlace :=
  let kept := List.filter (fun k => (elapsed now (kp_since k) <? lasts)%Z) kept in
  if (lasts <=? elapsed now from)%Z then kept else update_place core filter tk from kept.

(** [State::take_place]: the retain closure keeps the last match. *)
Definition take_place (lasts : Z) (kept : list KeptPlace) (core : Z) (filter : bytes) (now : Z)
    : option (nat * Z) * list KeptPlace :=
  let current k := (elapsed now (kp_since k) <? lasts)%Z in
  (foldl (fun taken k => if current k && same_place core filter k
                         then Some (kp_ticket k, kp_since k) else taken) None kept,
   List.filter (fun k => negb (kp_core k =? core)%Z && current k) kept).

(** ** Holding, lending and handing back

    A grant is named by the claim it answers.  [out] holds the turns granted and
    not lent, with whether they install; [lending] those counted as lent whose
    turn is about to be released ([Turn::lend] releases after it drops the lock);
    [lent_out] the holders in local work. *)

Record Turns : Type := mkTurns {
  tq : TurnQueue nat;
  out : list (nat * bool);
  lending : list nat;
  lent_out : list nat;
}.

(** A turn ended and goes to the next waiter ([RecoveryTurns::release]; a grant
    whose waiter has gone is released in turn, which is a further step). *)
Definition pass_on (mem : memory) (q : TurnQueue nat) (ended : bool) : list (nat * bool) * TurnQueue nat :=
  let '(g, q') := next mem q ended in (option_list g, q').

Inductive turns_step : Turns -> Turns -> Prop :=
| step_take mem s p core place now c tk install q' :
    take_or_requeue mem (tq s) p core place now c = ((tk, inl install), q') ->
    turns_step s (mkTurns q' (out s ++ [(c, install)]) (lending s) (lent_out s))
| step_queue mem s p core place now c tk id q' :
    take_or_requeue mem (tq s) p core place now c = ((tk, inr id), q') ->
    turns_step s (mkTurns q' (out s) (lending s) (lent_out s))
| step_release mem s c install o1 o2 :
    out s = o1 ++ (c, install) :: o2 ->
    turns_step s (mkTurns (pass_on mem (tq s) install).2
                    (o1 ++ o2 ++ (pass_on mem (tq s) install).1) (lending s) (lent_out s))
| step_withdraw s id :
    turns_step s (mkTurns (withdraw (tq s) id).2 (out s) (lending s) (lent_out s))
| step_lend s c o1 o2 :
    out s = o1 ++ (c, false) :: o2 -> may_lend (tq s) = true ->
    turns_step s (mkTurns (set_lent (tq s) (S (lent (tq s)))) (o1 ++ o2) (c :: lending s) (lent_out s))
| step_lent mem s c l1 l2 :
    lending s = l1 ++ c :: l2 ->
    turns_step s (mkTurns (pass_on mem (tq s) false).2 (out s ++ (pass_on mem (tq s) false).1)
                    (l1 ++ l2) (c :: lent_out s))
| step_back s c l1 l2 q' :
    lent_out s = l1 ++ c :: l2 -> take_back (tq s) c = (None, q') ->
    turns_step s (mkTurns q' (out s ++ [(c, false)]) (lending s) (l1 ++ l2))
| step_back_waits s c l1 l2 id q' :
    lent_out s = l1 ++ c :: l2 -> take_back (tq s) c = (Some id, q') ->
    turns_step s (mkTurns q' (out s) (lending s) (l1 ++ l2))
| step_drop_lent s c l1 l2 :
    lent_out s = l1 ++ c :: l2 ->
    turns_step s (mkTurns (set_lent (tq s) (lent (tq s) - 1)) (out s) (lending s) (l1 ++ l2))
| step_withdraw_returning s id :
    turns_step s (mkTurns (withdraw_returning (tq s) id).2 (out s) (lending s) (lent_out s)).

Definition start_turns (n : nat) : Turns := mkTurns (new_queue n) [] [] [].
