(* ===== verification/TurnsCorrect.v ===== *)
(** * Recovery turns: conservation, choice and bounded bypass

    What the queue of [TurnQueue.v] promises: turns are neither lost nor
    duplicated and none idles while a worker waits; whom a free turn goes to;
    and that a waiter the node keeps is passed over a bounded number of times. *)

From stdpp Require Import gmap sorting.
From S2P Require Import Prelude Bytes TurnQueue.

Open Scope nat_scope.

(** ** Conservation *)

Definition holding (l : list (nat * bool)) : nat := length (List.filter snd l).

Record turns_ok (s : Turns) : Prop := {
  ok_turns : free (tq s) + length (out s) + length (lending s) = turns (tq s);
  ok_installs : installs (tq s) = holding (out s);
  ok_busy : waiters (tq s) <> [] \/ returning (tq s) <> [] -> free (tq s) = 0;
  ok_lent : lent (tq s) = length (lending s) + length (lent_out s);
  ok_lent_max : lent (tq s) <= MAX_LENT_TURNS;
}.

Lemma holding_app l1 l2 : holding (l1 ++ l2) = holding l1 + holding l2.
Proof. unfold holding. by rewrite List.filter_app, length_app. Qed.

Lemma holding_cons c b l : holding ((c, b) :: l) = Nat.b2n b + holding l.
Proof. unfold holding. simpl. by destruct b. Qed.

Lemma holding_le l : holding l <= length l.
Proof. unfold holding. apply filter_length_le. Qed.

Lemma holding_nil : holding [] = 0.
Proof. done. Qed.

#[local] Hint Rewrite holding_nil holding_app holding_cons @length_app @length_cons : turns.

Section queue.
Context {T : Type}.
Implicit Types (q : TurnQueue T) (w : Waiter T).

Lemma delete_nonempty {A} (l : list A) i : base.delete i l <> [] -> l <> [].
Proof. by destruct l. Qed.

Lemma withdraw_same q id :
  let q' := (withdraw q id).2 in
  turns q' = turns q /\ free q' = free q /\ installs q' = installs q /\ lent q' = lent q
  /\ (waiters q' <> [] \/ returning q' <> [] -> waiters q <> [] \/ returning q <> []).
Proof.
  unfold withdraw. destruct (position _ _) as [i|]; [|tauto]. simpl.
  repeat split. intros [H|H]; [left; by eapply delete_nonempty|by right].
Qed.

Lemma withdraw_returning_same q id :
  let q' := (withdraw_returning q id).2 in
  turns q' = turns q /\ free q' = free q /\ installs q' = installs q /\ lent q' = lent q
  /\ (waiters q' <> [] \/ returning q' <> [] -> waiters q <> [] \/ returning q <> []).
Proof.
  unfold withdraw_returning. destruct (position _ _) as [i|]; [|tauto]. simpl.
  repeat split. intros [H|H]; [by left|right; by eapply delete_nonempty].
Qed.

(** ** The choice *)

(** Some waiter is always eligible, so [pick] names one. *)
Lemma eligible_exists mem q : waiters q <> [] -> exists w, w ∈ waiters q /\ eligible mem q w = true.
Proof.
  intros Hne.
  assert (Hc : exists w, w ∈ waiters q /\ candidate mem q w = true).
  { destruct (keeps mem q) eqn:Ek.
    - apply existsb_exists in Ek as (w & Hw%list_elem_of_In & Hd). exists w. split; [done|].
      unfold candidate. by rewrite (proj1 (negb_true_iff _) Hd), andb_false_r.
    - destruct (waiters q) as [|w l] eqn:E; [done|]. exists w. split; [apply list_elem_of_here|].
      unfold candidate. by rewrite Ek. }
  assert (Ho : exists w, w ∈ waiters q /\ open mem q w = true).
  { destruct (reserve mem q) eqn:Er.
    - pose proof Er as Er'. apply andb_prop in Er' as [_ Er'].
      apply existsb_exists in Er' as (w & Hw%list_elem_of_In & Hx). exists w. split; [done|].
      unfold open. bool_to_prop. rewrite H, H0, andb_false_r. done.
    - destruct Hc as (w & Hw & Hx). exists w. split; [done|]. unfold open. by rewrite Hx, Er. }
  destruct (skip_resumed mem q) eqn:Es.
  - pose proof Es as Es'. apply andb_prop in Es' as [_ Es'].
    apply existsb_exists in Es' as (w & Hw%list_elem_of_In & Hx). exists w. split; [done|].
    unfold eligible. bool_to_prop. by rewrite H, H0, andb_false_r.
  - destruct Ho as (w & Hw & Hx). exists w. split; [done|]. unfold eligible. by rewrite Hx, Es.
Qed.

Lemma first_eligible_spec mem q :
  waiters q <> [] ->
  exists w, waiters q !! first_eligible mem q = Some w /\ eligible mem q w = true
    /\ forall j y, j < first_eligible mem q -> waiters q !! j = Some y -> eligible mem q y = false.
Proof.
  intros Hne. destruct (eligible_exists mem q Hne) as (w & Hw & He). unfold first_eligible.
  destruct (position_exists _ _ _ Hw He) as [i Hi]. rewrite Hi. simpl. by apply position_Some in Hi.
Qed.

(** The waiter [next] picks: eligible, and of the lowest rank until
    [PRIORITY_RUN] turns went past the longest waiter, then the first. *)
Lemma pick_spec mem q :
  waiters q <> [] ->
  exists w, waiters q !! pick mem q = Some w /\ eligible mem q w = true
    /\ (bypassed q < PRIORITY_RUN -> forall j y, waiters q !! j = Some y -> eligible mem q y = true ->
          rank mem (priority w) <= rank mem (priority y))
    /\ (PRIORITY_RUN <= bypassed q -> pick mem q = first_eligible mem q).
Proof.
  intros Hne. unfold pick. destruct (Nat.ltb_spec (bypassed q) PRIORITY_RUN) as [Hb|Hb].
  - destruct (eligible_exists mem q Hne) as (w & Hw & He).
    destruct (min_position_exists _ (fun w => rank mem (priority w)) _ _ Hw He) as [[i k] Hi].
    rewrite Hi. destruct (min_position_Some _ _ _ _ _ Hi) as (x & Hx & Hex & Hk & Hmin).
    exists x. split; [done|]. split; [done|]. split; [|lia]. intros _ j y Hy Hey.
    rewrite Hk. by eapply Hmin.
  - destruct (first_eligible_spec mem q Hne) as (w & Hw & He & _). exists w. split; [done|].
    split; [done|]. split; [lia|done].
Qed.

(** [next] with nobody returning grants the picked waiter its turn. *)
Lemma next_waiter mem q ended :
  returning q = [] -> waiters q <> [] ->
  let q1 := set_installs q (installs q - Nat.b2n ended) in
  exists w, waiters q !! pick mem q1 = Some w /\ eligible mem q1 w = true
    /\ next mem q ended
       = (Some (grant w, waiter_installs mem w),
          set_installs (set_order (set_waiters q1 (base.delete (pick mem q1) (waiters q)))
                          (if bool_decide (Some (pick mem q1) = longest mem q1) then 0
                           else S (bypassed q)) (resumed w))
            (installs q1 + Nat.b2n (waiter_installs mem w))).
Proof.
  intros Hr Hne q1. destruct (pick_spec mem q1 Hne) as (w & Hw & He & _).
  exists w. split; [done|]. split; [done|]. unfold next. fold q1.
  change (returning q1) with (returning q). rewrite Hr.
  change (waiters q1) with (waiters q) in *. destruct (waiters q) as [|w0 l] eqn:Ew; [done|].
  simpl length. cbn [Nat.eqb]. rewrite Hw. done.
Qed.

(** What being picked says about a waiter. *)
Lemma picked_departing mem q w :
  candidate mem q w = true -> waiter_departing mem w = true ->
  forall x, x ∈ waiters q -> waiter_departing mem x = true.
Proof.
  unfold candidate. intros Hc Hd x Hx. rewrite Hd, andb_true_r in Hc. bool_to_prop.
  destruct (waiter_departing mem x) eqn:E; [done|]. unfold keeps in Hc.
  rewrite (proj2 (existsb_exists _ _)) in Hc; [done|]. exists x.
  split; [by apply list_elem_of_In|by rewrite E].
Qed.

Lemma picked_resumed mem q w :
  skip_resumed mem q && resumed w = false -> after_resumed q = true -> resumed w = true ->
  forall x, x ∈ waiters q -> resumed x = false -> open mem q x = false.
Proof.
  intros Hs Ha Hr x Hx Hrx. rewrite Hr, andb_true_r in Hs. unfold skip_resumed in Hs. rewrite Ha in Hs.
  simpl in Hs. destruct (open mem q x) eqn:E; [|done].
  rewrite (proj2 (existsb_exists _ _)) in Hs; [done|]. exists x.
  split; [by apply list_elem_of_In|by rewrite E, Hrx].
Qed.

Lemma picked_reserve mem q x :
  reserve mem q && true = false -> 2 <= turns q -> x ∈ waiters q -> candidate mem q x = true ->
  waiter_installs mem x = false -> installs q + 1 < turns q.
Proof.
  intros Hr H2 Hx Hc Hi. rewrite andb_true_r in Hr. unfold reserve in Hr.
  rewrite (proj2 (Nat.leb_le _ _) H2), (proj2 (existsb_exists _ _)), andb_true_r in Hr.
  - simpl in Hr. bool_to_prop. lia.
  - exists x. split; [by apply list_elem_of_In|by rewrite Hc, Hi].
Qed.

(** What [next] does to the counters. *)
Lemma next_counts mem q ended :
  let '(g, q') := next mem q ended in
  turns q' = turns q /\ lent q' = lent q
  /\ installs q' = installs q - Nat.b2n ended + Nat.b2n (match g with Some (_, i) => i | None => false end)
  /\ free q' = free q + Nat.b2n (match g with Some _ => false | None => true end)
  /\ (g = None -> waiters q' = [] /\ returning q' = [])
  /\ (waiters q' <> [] \/ returning q' <> [] -> waiters q <> [] \/ returning q <> []).
Proof.
  destruct (returning q) as [|[i g] rest] eqn:Er.
  - destruct (decide (waiters q = [])) as [Ew|Hne].
    + unfold next. cbn [returning set_installs waiters]. rewrite Er, Ew. simpl. rewrite Er, Ew.
      repeat split; lia || naive_solver.
    + destruct (next_waiter mem q ended Er Hne) as (w & _ & _ & ->). simpl.
      repeat split; try lia; [done|done|]. by left.
  - unfold next. cbn [returning set_installs]. rewrite Er. simpl.
    repeat split; try lia; [done|done|]. by right.
Qed.
End queue.

Lemma pass_on_ok mem (q : TurnQueue nat) ended (o : list (nat * bool)) (k : nat) :
  installs q = holding o + Nat.b2n ended -> S (free q + length o + k) = turns q ->
  (waiters q <> [] \/ returning q <> [] -> free q = 0) ->
  let '(g, q') := pass_on mem q ended in
  installs q' = holding (o ++ g) /\ free q' + length (o ++ g) + k = turns q'
  /\ (waiters q' <> [] \/ returning q' <> [] -> free q' = 0) /\ lent q' = lent q.
Proof.
  intros Hi Hf Hb. unfold pass_on. pose proof (next_counts mem q ended) as Hn.
  destruct (next mem q ended) as [g q'].
  destruct Hn as (Ht & Hl & Hin & Hfr & Hnone & Hw). destruct g as [[c i]|]; simpl in *.
  - autorewrite with turns. simpl. rewrite Hin, Hfr, Ht.
    repeat split; [destruct i; simpl; lia|lia| |done]. intros Hx. rewrite (Hb (Hw Hx)). lia.
  - rewrite app_nil_r. rewrite Hin, Hfr, Ht. repeat split; [lia|lia| |done].
    destruct (Hnone eq_refl) as [-> ->]. naive_solver.
Qed.

Lemma take_or_requeue_counts mem (q q' : TurnQueue nat) p core place now c tk r :
  take_or_requeue mem q p core place now c = ((tk, r), q') ->
  turns q' = turns q /\ lent q' = lent q /\ returning q' = returning q
  /\ match r with
     | inl install => free q = S (free q') /\ waiters q = [] /\ waiters q' = []
         /\ installs q' = installs q + Nat.b2n install
     | inr _ => free q' = free q /\ installs q' = installs q /\ (free q = 0 \/ waiters q <> [])
     end.
Proof.
  unfold take_or_requeue.
  destruct place as [t|]; cbn -[Nat.eqb Nat.ltb installs_priority]; case_match eqn:E;
    intros [= <- <- <-]; simpl; (repeat split; try done).
  all: first [apply andb_prop in E as [E1%Nat.ltb_lt E2%Nat.eqb_eq]; apply length_zero_iff_nil in E2
             |apply andb_false_iff in E as [E%Nat.ltb_ge|E%Nat.eqb_neq]].
  all: try done; try lia; try (left; lia); right; intros E'; by rewrite E' in E.
Qed.

Lemma turns_step_ok s s' : turns_step s s' -> turns_ok s -> turns_ok s'.
Proof.
  intros Hs [Ht Hi Hb Hl Hm].
  destruct Hs as [mem s p core place now c tk install q' E|mem s p core place now c tk id q' E
    |mem s c install o1 o2 E|s id|s c o1 o2 E Hml|mem s c l1 l2 E|s c l1 l2 q' E Eb
    |s c l1 l2 id q' E Eb|s c l1 l2 E|s id].
  - apply take_or_requeue_counts in E as (E1 & E2 & E3 & E4 & E5 & E6 & E7).
    split; simpl; autorewrite with turns; simpl.
    + lia.
    + rewrite E7, Hi. by destruct install.
    + rewrite E3, E6. intros [?|Hr]; [done|]. rewrite E4 in Hb. by discriminate Hb; right.
    + lia.
    + lia.
  - apply take_or_requeue_counts in E as (E1 & E2 & E3 & E4 & E5 & E6).
    split; simpl; try lia. intros _. rewrite E4. destruct E6; [done|]. apply Hb. by left.
  - rewrite E in *. autorewrite with turns in *. simpl in *.
    pose proof (pass_on_ok mem (tq s) install (o1 ++ o2) (length (lending s))) as Hp.
    destruct (pass_on mem (tq s) install) as [g q']. simpl.
    destruct Hp as (P1 & P2 & P3 & P4); [autorewrite with turns; lia..|done|].
    split; simpl; rewrite ?app_assoc; [done..|lia|lia].
  - destruct (withdraw_same (tq s) id) as (E1 & E2 & E3 & E4 & E5). split; simpl; try lia.
    intros Hx. rewrite E2. auto.
  - rewrite E in *. autorewrite with turns in *. simpl in *. apply andb_prop in Hml as [Hml%Nat.ltb_lt _].
    split; simpl; autorewrite with turns; simpl; try done; lia.
  - rewrite E in *. autorewrite with turns in *. simpl in *.
    pose proof (pass_on_ok mem (tq s) false (out s) (length (l1 ++ l2))) as Hp.
    destruct (pass_on mem (tq s) false) as [g q']. simpl.
    destruct Hp as (P1 & P2 & P3 & P4); [autorewrite with turns; simpl; lia..|done|].
    autorewrite with turns in *.
    split; simpl; autorewrite with turns; [lia|lia|done|lia|lia].
  - rewrite E in *. unfold take_back in Eb. simpl in Eb. destruct (Nat.ltb_spec 0 (free (tq s))); [|done].
    injection Eb as <-. autorewrite with turns in *. simpl in *.
    split; simpl; autorewrite with turns; simpl; try lia.
    intros Hx. rewrite Hb; [done|]. tauto.
  - rewrite E in *. unfold take_back in Eb. simpl in Eb. destruct (Nat.ltb_spec 0 (free (tq s))); [done|].
    injection Eb as <- <-. autorewrite with turns in *. simpl in *.
    split; simpl; autorewrite with turns; try lia.
  - rewrite E in *. autorewrite with turns in *. simpl in *.
    split; simpl; autorewrite with turns; try done; lia.
  - destruct (withdraw_returning_same (tq s) id) as (E1 & E2 & E3 & E4 & E5). split; simpl; try lia.
    intros Hx. rewrite E2. auto.
Qed.

Lemma turns_step_turns s s' : turns_step s s' -> turns (tq s') = turns (tq s).
Proof.
  assert (Hp : forall mem q b, turns (pass_on mem q b).2 = turns q).
  { intros mem q b. unfold pass_on. pose proof (next_counts mem q b) as Hn.
    destruct (next mem q b) as [g q']. apply Hn. }
  destruct 1 as [mem s p core place now c tk install q' E|mem s p core place now c tk id q' E
    | |s id| | |s c l1 l2 q' _ Eb|s c l1 l2 id q' _ Eb| |s id]; simpl; try done.
  - by apply take_or_requeue_counts in E as (? & _).
  - by apply take_or_requeue_counts in E as (? & _).
  - apply withdraw_same.
  - unfold take_back in Eb. simpl in Eb. destruct (0 <? free (tq s)); [|done]. by injection Eb as <-.
  - unfold take_back in Eb. simpl in Eb. destruct (0 <? free (tq s)); [done|]. by injection Eb as _ <-.
  - apply withdraw_returning_same.
Qed.

(** ** Places *)

Section order.
Context {T : Type}.
Implicit Types (q : TurnQueue T) (w : Waiter T).

(** Waiters stand in ticket order, under distinct ids. *)
Record queue_ok q : Prop := {
  ok_sorted : StronglySorted (fun w w' => ticket w <= ticket w') (waiters q);
  ok_ids : NoDup (w_id <$> waiters q);
  ok_fresh : forall w, w ∈ waiters q -> ticket w < next_ticket q /\ w_id w < next_id q;
}.

Lemma elem_of_delete {A} (l : list A) i x : x ∈ base.delete i l -> x ∈ l.
Proof. intros Hx. eapply elem_of_submseteq; [exact Hx|]. apply sublist_submseteq, sublist_delete. Qed.

Lemma strongly_sorted_delete {A} (R : A -> A -> Prop) l i :
  StronglySorted R l -> StronglySorted R (base.delete i l).
Proof.
  intros Hs. revert i. induction Hs as [|x l Hs IH Hx]; intros i; [constructor|].
  destruct i as [|i]; [done|]. simpl. constructor; [apply IH|].
  rewrite Forall_forall in *. intros y Hy. apply Hx. by eapply elem_of_delete.
Qed.

Lemma strongly_sorted_lookup {A} (R : A -> A -> Prop) l i j x y :
  StronglySorted R l -> l !! i = Some x -> l !! j = Some y -> i < j -> R x y.
Proof.
  intros Hs. revert i j. induction Hs as [|z l Hs IH Hz]; intros i j Hx Hy Hij; [done|].
  destruct i as [|i], j as [|j]; try lia.
  - injection Hx as ->. rewrite Forall_forall in Hz. apply Hz. by eapply list_elem_of_lookup_2.
  - apply (IH i j); [done|done|lia].
Qed.

(** Where a claim with ticket [tk] queues. *)
Definition claim_position q (tk : nat) : nat :=
  default (length (waiters q)) (position (fun w => tk <? ticket w) (waiters q)).

Lemma claim_position_le q tk : claim_position q tk <= length (waiters q).
Proof.
  unfold claim_position. destruct (position _ _) as [i|] eqn:E; simpl; [|done].
  apply position_Some in E as (x & Hx & _). apply lookup_lt_Some in Hx. lia.
Qed.

Lemma claim_position_split q tk j w :
  queue_ok q -> waiters q !! j = Some w ->
  if j <? claim_position q tk then ticket w <= tk else tk < ticket w.
Proof.
  intros Hq Hj. unfold claim_position. destruct (position _ _) as [i|] eqn:E; simpl.
  - apply position_Some in E as (x & Hx & Hp%Nat.ltb_lt & Hlt).
    destruct (Nat.ltb_spec j i) as [Hji|Hji].
    + specialize (Hlt j w Hji Hj). bool_to_prop. lia.
    + destruct (decide (i = j)) as [->|]; [by simplify_eq|].
      pose proof (strongly_sorted_lookup _ _ _ _ _ _ (ok_sorted _ Hq) Hx Hj) as Hle.
      simpl in Hle. lia.
  - rewrite position_None in E. apply lookup_lt_Some in Hj as Hl. rewrite (proj2 (Nat.ltb_lt _ _)) by done.
    specialize (E w). rewrite Nat.ltb_ge in E. apply E. by eapply list_elem_of_lookup_2.
Qed.

(** ** Runs of the queue *)

Inductive queue_op : Type :=
| QNext (mem : memory) (ended : bool)
| QClaim (mem : memory) (p : Priority) (core : Z) (place : option nat) (now : Z) (g : T)
| QWithdraw (id : nat)
| QLend
| QTakeBack (g : T)
| QWithdrawReturning (id : nat).

(** The operation's effect, and the waiter or holder it grants a turn. *)
Definition apply_op q (o : queue_op) : option T * TurnQueue T :=
  match o with
  | QNext mem ended => let '(g, q') := next mem q ended in (fst <$> g, q')
  | QClaim mem p core place now g => (None, (take_or_requeue mem q p core place now g).2)
  | QWithdraw id => (None, (withdraw q id).2)
  | QLend => (None, set_lent q (S (lent q)))
  | QTakeBack g => (None, (take_back q g).2)
  | QWithdrawReturning id => (None, (withdraw_returning q id).2)
  end.

Fixpoint grants q (ops : list queue_op) : list T :=
  match ops with
  | [] => []
  | o :: ops' => option_list (apply_op q o).1 ++ grants (apply_op q o).2 ops'
  end.

Fixpoint run_queue q (ops : list queue_op) : TurnQueue T :=
  match ops with [] => q | o :: ops' => run_queue (apply_op q o).2 ops' end.

(** Where a waiter stands. *)
Definition place_of q w : option nat := position (fun x => w_id x =? w_id w) (waiters q).

(** [w] could take the turn, which goes to another waiter. *)
Definition passed_over w q (o : queue_op) : bool :=
  match o, place_of q w, returning q with
  | QNext mem ended, Some k, [] =>
      let q1 := set_installs q (installs q - Nat.b2n ended) in
      eligible mem q1 w && negb (pick mem q1 =? k)
  | _, _, _ => false
  end.

Fixpoint passes w q (ops : list queue_op) : nat :=
  match ops with
  | [] => 0
  | o :: ops' => Nat.b2n (passed_over w q o) + passes w (apply_op q o).2 ops'
  end.

(** While [w] waits its seat is kept and it is not withdrawn, and claims take
    tickets that were handed out, none before [w]'s. *)
Fixpoint behind w q (ops : list queue_op) : Prop :=
  match ops with
  | [] => True
  | o :: ops' =>
      match o with
      | QNext mem _ => mem (pr_departing (priority w)) = false
      | QClaim _ _ _ (Some t) _ _ => ticket w <= t < next_ticket q
      | QWithdraw id => id <> w_id w
      | _ => True
      end /\ behind w (apply_op q o).2 ops'
  end.

Lemma delete_ids (l : list (Waiter T)) i : w_id <$> base.delete i l = base.delete i (w_id <$> l).
Proof. revert i. induction l as [|x l IH]; intros [|i]; simpl; [done..|]. f_equal. apply IH. Qed.

Lemma queue_ok_waiters q q' :
  waiters q' = waiters q -> next_ticket q <= next_ticket q' -> next_id q <= next_id q' ->
  queue_ok q -> queue_ok q'.
Proof.
  intros E Ht Hi [Hs Hn Hf]. split; rewrite E; [done..|]. intros w Hw. specialize (Hf w Hw). lia.
Qed.

Lemma queue_ok_delete q q' i :
  waiters q' = base.delete i (waiters q) -> next_ticket q' = next_ticket q -> next_id q' = next_id q ->
  queue_ok q -> queue_ok q'.
Proof.
  intros E Ht Hi [Hs Hn Hf]. split; rewrite E.
  - by apply strongly_sorted_delete.
  - rewrite delete_ids. eapply sublist_NoDup; [done|apply sublist_delete].
  - intros w Hw%elem_of_delete. rewrite Ht, Hi. auto.
Qed.

Lemma place_of_lookup q w k : queue_ok q -> waiters q !! k = Some w -> place_of q w = Some k.
Proof.
  intros [_ Hn _] Hk. unfold place_of. apply position_Some. exists w. split; [done|].
  split; [apply Nat.eqb_refl|]. intros j y Hj Hy. apply Nat.eqb_neq. intros E.
  assert (j = k); [|lia]. eapply (NoDup_lookup (w_id <$> waiters q)); [done| |].
  - by rewrite list_lookup_fmap, Hy.
  - by rewrite list_lookup_fmap, Hk, E.
Qed.

Lemma elem_of_drop {A} (l : list A) n x : x ∈ drop n l -> exists j, l !! j = Some x /\ n <= j.
Proof.
  intros (j & Hj)%list_elem_of_lookup_1. rewrite lookup_drop in Hj. exists (n + j). split; [done|lia].
Qed.

Lemma claim_ok mem q p core place now g :
  queue_ok q -> match place with Some t => t < next_ticket q | None => True end ->
  queue_ok (take_or_requeue mem q p core place now g).2.
Proof.
  intros Hq Hplace. unfold take_or_requeue.
  set (tk := match place with Some t => t | None => next_ticket q end).
  set (q1 := match place with Some _ => q | None => set_next_ticket q (S (next_ticket q)) end).
  assert (Hq1 : queue_ok q1 /\ tk < next_ticket q1 /\ waiters q1 = waiters q).
  { unfold q1, tk. destruct place; [done|]. split; [|split; [simpl; lia|done]].
    eapply queue_ok_waiters; [..|exact Hq]; simpl; [done|lia..]. }
  destruct Hq1 as (Hq1 & Htk & Hw1).
  replace (match place with
           | Some t => (t, q)
           | None => (next_ticket q, set_next_ticket q (S (next_ticket q)))
           end) with (tk, q1) by (by destruct place).
  destruct (_ && _); simpl; [by eapply queue_ok_waiters; [..|exact Hq1]|].
  fold (claim_position q1 tk). set (at_ := claim_position q1 tk).
  set (w0 := mkWaiter (next_id q1) tk _ p core now g).
  pose proof (ok_fresh _ Hq1) as Hf.
  assert (Hel : forall x, x ∈ take at_ (waiters q1) ++ w0 :: drop at_ (waiters q1) ->
            x = w0 \/ x ∈ waiters q1).
  { intros x [Hx|[->|Hx]%elem_of_cons]%elem_of_app; [right|by left|right].
    - by eapply elem_of_take in Hx as (? & ? & _); eapply list_elem_of_lookup_2.
    - by eapply elem_of_drop in Hx as (? & ? & _); eapply list_elem_of_lookup_2. }
  split; simpl.
  - apply StronglySorted_app. pose proof (ok_sorted _ Hq1) as Hs.
    rewrite <- (take_drop at_ (waiters q1)) in Hs. apply StronglySorted_app in Hs as (Hlr & Hl & Hr).
    assert (Hle : forall x, x ∈ take at_ (waiters q1) -> ticket x <= tk).
    { intros x (j & Hj & Hlt)%elem_of_take. pose proof (claim_position_split q1 tk j x Hq1 Hj) as Hsp.
      fold at_ in Hsp. by rewrite (proj2 (Nat.ltb_lt _ _) Hlt) in Hsp. }
    assert (Hge : forall x, x ∈ drop at_ (waiters q1) -> tk <= ticket x).
    { intros x (j & Hj & Hlt)%elem_of_drop. pose proof (claim_position_split q1 tk j x Hq1 Hj) as Hsp.
      fold at_ in Hsp. rewrite (proj2 (Nat.ltb_ge _ _) Hlt) in Hsp. lia. }
    split; [intros x y Hx [->|Hy]%elem_of_cons; [by apply Hle|by apply Hlr]|].
    split; [done|]. constructor; [done|]. apply Forall_forall. intros x Hx. by apply Hge.
  - rewrite fmap_app, fmap_cons. pose proof (ok_ids _ Hq1) as Hn.
    rewrite <- (take_drop at_ (waiters q1)), fmap_app in Hn.
    rewrite <- Permutation_middle, NoDup_cons. split; [|done]. simpl.
    rewrite <- fmap_app, take_drop. intros (x & E & Hx)%list_elem_of_fmap.
    specialize (Hf x Hx). lia.
  - intros x [->|Hx]%Hel; simpl; [lia|]. specialize (Hf x Hx). lia.
Qed.

Lemma next_delete mem q ended :
  let q' := (next mem q ended).2 in
  next_ticket q' = next_ticket q /\ next_id q' = next_id q
  /\ (waiters q' = waiters q \/ exists i, waiters q' = base.delete i (waiters q)).
Proof.
  destruct (returning q) as [|[i g] rest] eqn:Er.
  - destruct (decide (waiters q = [])) as [Ew|Hne].
    + unfold next. cbn [returning set_installs waiters]. rewrite Er, Ew. simpl. rewrite Ew. auto.
    + destruct (next_waiter mem q ended Er Hne) as (w & _ & _ & ->). simpl. eauto.
  - unfold next. cbn [returning set_installs]. rewrite Er. simpl. auto.
Qed.

Lemma apply_op_ok q o w ops :
  queue_ok q -> behind w q (o :: ops) -> queue_ok (apply_op q o).2.
Proof.
  intros Hq [Ho _]. destruct o as [mem ended|mem p core place now g|id| |g|id]; simpl.
  - pose proof (next_delete mem q ended) as Hd. destruct (next mem q ended) as [r q']. simpl in *.
    destruct Hd as (Ht & Hi & [E|[i E]]).
    + eapply queue_ok_waiters; [done|lia..|done].
    + by eapply queue_ok_delete.
  - apply claim_ok; [done|]. destruct place; [apply Ho|done].
  - unfold withdraw. destruct (position _ _) as [i|]; [|done]. by eapply queue_ok_delete.
  - by eapply queue_ok_waiters; [..|exact Hq].
  - unfold take_back. simpl. destruct (0 <? free q); eapply queue_ok_waiters; [..|exact Hq]; simpl; auto; lia.
  - unfold withdraw_returning. destruct (position _ _) as [i|]; [|done].
    by eapply queue_ok_waiters; [..|exact Hq].
Qed.

(** ** Bounded bypass *)

(** An upper bound on the turns that can still go past the waiter at [k]. *)
Definition bypass_left q (k : nat) : nat := (PRIORITY_RUN + 1) * k + (PRIORITY_RUN - bypassed q).

(** The longest waiter stands at or before any kept waiter that is not resumed. *)
Lemma longest_before mem q w k :
  waiters q !! k = Some w -> resumed w = false -> waiter_departing mem w = false ->
  exists l, longest mem q = Some l /\ l <= k.
Proof.
  intros Hk Hr Hd. unfold longest.
  assert (Hp : candidate mem q w && negb (skip_resumed mem q && resumed w) = true)
    by (unfold candidate; by rewrite Hd, Hr, !andb_false_r).
  set (f := fun w => candidate mem q w && negb (skip_resumed mem q && resumed w)).
  destruct (position_exists f _ _ (list_elem_of_lookup_2 _ _ _ Hk) Hp) as [l Hl].
  exists l. split; [done|]. apply position_Some in Hl as (x & Hx & _ & Hlt).
  destruct (le_lt_dec l k) as [|Hgt]; [done|]. specialize (Hlt k w Hgt Hk). unfold f in Hlt. congruence.
Qed.

(** One turn passed to the waiters while [w] stands at [k]. *)
Lemma next_bypass mem q ended w k :
  waiters q !! k = Some w -> resumed w = false -> waiter_departing mem w = false -> returning q = [] ->
  let q1 := set_installs q (installs q - Nat.b2n ended) in
  let q' := (next mem q ended).2 in
  if decide (pick mem q1 = k) then
    (fst <$> (next mem q ended).1) = Some (grant w) /\ waiters q' = base.delete k (waiters q)
  else
    exists k', waiters q' !! k' = Some w
      /\ bypass_left q' k' + Nat.b2n (eligible mem q1 w) <= bypass_left q k.
Proof.
  intros Hk Hr Hd Hret q1 q'.
  assert (Hne : waiters q <> []) by (by intros E; rewrite E in Hk).
  destruct (next_waiter mem q ended Hret Hne) as (x & Hx & Hex & En).
  unfold q'. rewrite En. cbn [fst snd fmap option_fmap option_map]. fold q1 in Hx, Hex |- *.
  destruct (decide (pick mem q1 = k)) as [E|Hpk].
  { rewrite E in Hx |- *. simplify_eq. simpl. done. }
  destruct (longest_before mem q1 w k Hk Hr Hd) as (l & Hl & Hlk). rewrite Hl.
  destruct (pick_spec mem q1 Hne) as (y & _ & _ & _ & Hfirst).
  destruct (first_eligible_spec mem q1 Hne) as (z & _ & _ & Hnone).
  unfold bypass_left, PRIORITY_RUN in *. cbn [waiters set_installs set_order set_waiters bypassed q1] in *.
  destruct (le_lt_dec k (pick mem q1)) as [Hle|Hlt].
  - exists k. rewrite list_lookup_delete_lt by lia. split; [done|].
    rewrite bool_decide_eq_false_2 by (intros [= ?]; lia).
    destruct (eligible mem q1 w) eqn:Ee; [|simpl; lia].
    destruct (le_lt_dec 2 (bypassed q)) as [H2|H2]; [|simpl; lia]. exfalso.
    assert (Hpf : pick mem q1 = first_eligible mem q1) by (apply Hfirst; exact H2).
    rewrite (Hnone k w) in Ee; [done|rewrite <- Hpf; lia|done].
  - exists (k - 1). rewrite list_lookup_delete_ge by lia. replace (S (k - 1)) with k by lia.
    split; [done|]. destruct (bool_decide _), (eligible mem q1 w); simpl; lia.
Qed.

Lemma claim_behind mem q p core place now g w k :
  queue_ok q -> waiters q !! k = Some w ->
  match place with Some t => ticket w <= t < next_ticket q | None => True end ->
  let q' := (take_or_requeue mem q p core place now g).2 in
  waiters q' !! k = Some w /\ bypassed q' = bypassed q.
Proof.
  intros Hq Hk Hplace. unfold take_or_requeue.
  set (tk := match place with Some t => t | None => next_ticket q end).
  set (q1 := match place with Some _ => q | None => set_next_ticket q (S (next_ticket q)) end).
  replace (match place with
           | Some t => (t, q)
           | None => (next_ticket q, set_next_ticket q (S (next_ticket q)))
           end) with (tk, q1) by (by destruct place).
  assert (Ew : waiters q1 = waiters q) by (by destruct place).
  assert (Eb : bypassed q1 = bypassed q) by (by destruct place).
  destruct (_ && _) eqn:Ef; simpl; rewrite ?Ew.
  - apply andb_prop in Ef as [_ Ef%Nat.eqb_eq%length_zero_iff_nil]. rewrite Ew in Ef.
    by rewrite Ef in Hk.
  - split; [|done]. rewrite lookup_app_l; [rewrite lookup_take_lt; [done|]|rewrite length_take_le].
    all: pose proof (claim_position_split q tk k w Hq Hk) as Hs;
      pose proof (claim_position_le q tk) as Hle; unfold claim_position in *.
    all: destruct (Nat.ltb_spec k (default (length (waiters q)) (position (fun w => tk <? ticket w) (waiters q))));
      try done; try lia.
    all: pose proof (ok_fresh _ Hq w (list_elem_of_lookup_2 _ _ _ Hk)); unfold tk in *;
      destruct place; simpl in *; lia.
Qed.

Lemma place_of_delete q q' w k :
  queue_ok q -> waiters q !! k = Some w -> waiters q' = base.delete k (waiters q) -> place_of q' w = None.
Proof.
  intros Hq Hk E. apply position_None. intros x Hx. apply Nat.eqb_neq. intros Eid.
  rewrite E in Hx. apply list_elem_of_lookup_1 in Hx as [j Hj]. rewrite list_lookup_delete in Hj.
  assert (Hjk : (if decide (j < k) then j else S j) = k); [|case_decide; lia].
  eapply (NoDup_lookup (w_id <$> waiters q)); [apply Hq| |].
  - by rewrite list_lookup_fmap, Hj.
  - by rewrite list_lookup_fmap, Hk, Eid.
Qed.

(** One operation: [w] gets its turn, or waits on with its bypasses paid for. *)
Lemma waits_step q o w k ops :
  queue_ok q -> waiters q !! k = Some w -> resumed w = false -> behind w q (o :: ops) ->
  let '(g, q') := apply_op q o in
  (g = Some (grant w) /\ place_of q' w = None /\ passed_over w q o = false)
  \/ (exists k', waiters q' !! k' = Some w
      /\ bypass_left q' k' + Nat.b2n (passed_over w q o) <= bypass_left q k).
Proof.
  intros Hq Hk Hr [Ho _]. pose proof (place_of_lookup q w k Hq Hk) as Hpl.
  destruct o as [mem ended|mem p core place now g|id| |g|id]; cbn [apply_op passed_over] in *.
  - rewrite Hpl. destruct (returning q) as [|[i g] rest] eqn:Er.
    + pose proof (next_bypass mem q ended w k Hk Hr Ho Er) as Hn. cbv zeta in Hn |- *.
      destruct (next mem q ended) as [g q']. simpl in Hn.
      case_decide as Hd.
      * left. destruct Hn as [Hg Hw]. split; [done|]. split; [by eapply place_of_delete|].
        by rewrite Hd, Nat.eqb_refl, andb_false_r.
      * right. rewrite (proj2 (Nat.eqb_neq _ _) Hd), andb_true_r. exact Hn.
    + unfold next. cbn [returning set_installs]. rewrite Er. right. exists k. split; [done|].
      unfold bypass_left. simpl. lia.
  - right. pose proof (claim_behind mem q p core place now g w k Hq Hk) as Hc.
    destruct Hc as [Hw Hb]; [by destruct place|]. exists k. split; [done|].
    unfold bypass_left. rewrite Hb. simpl. lia.
  - right. unfold withdraw. destruct (position _ _) as [i|] eqn:E; simpl.
    + apply position_Some in E as (x & Hx & Hid%Nat.eqb_eq & _).
      assert (i <> k) by (intros ->; simplify_eq).
      destruct (le_lt_dec k i).
      * exists k. rewrite list_lookup_delete_lt by lia. split; [done|]. unfold bypass_left. simpl. lia.
      * exists (k - 1). rewrite list_lookup_delete_ge by lia. replace (S (k - 1)) with k by lia.
        split; [done|]. unfold bypass_left. simpl. lia.
    + exists k. split; [done|]. lia.
  - right. exists k. split; [done|]. unfold bypass_left. simpl. lia.
  - right. exists k. unfold take_back. simpl.
    destruct (0 <? free q); (split; [done|]); unfold bypass_left; simpl; lia.
  - right. exists k. unfold withdraw_returning. destruct (position _ _) as [i|]; (split; [done|]);
      unfold bypass_left; simpl; lia.
Qed.

(** Once it has its turn a waiter is not seen again: ids are not reused. *)
Lemma gone_stays q o w :
  place_of q w = None -> w_id w < next_id q ->
  place_of (apply_op q o).2 w = None /\ next_id q <= next_id (apply_op q o).2.
Proof.
  unfold place_of. rewrite !position_None. intros Hno Hid.
  destruct o as [mem ended|mem p core place now g|id| |g|id]; simpl.
  - pose proof (next_delete mem q ended) as Hd. destruct (next mem q ended) as [r q'].
    simpl in *. destruct Hd as (_ & Hi & [E|[i E]]); rewrite E, Hi; (split; [|done]); [done|].
    intros x Hx%elem_of_delete. auto.
  - unfold take_or_requeue. destruct place as [t|]; cbn -[Nat.eqb Nat.ltb position];
      case_match; cbn -[Nat.eqb position]; (split; [|lia]); try done;
      intros x [Hx|[->|Hx]%elem_of_cons]%elem_of_app; simpl.
    all: try (apply elem_of_take in Hx as (? & ? & _); apply Hno; by eapply list_elem_of_lookup_2).
    all: try (apply elem_of_drop in Hx as (? & ? & _); apply Hno; by eapply list_elem_of_lookup_2).
    all: apply Nat.eqb_neq; lia.
  - unfold withdraw. destruct (position _ _) as [i|]; simpl; (split; [|done]); [|done].
    intros x Hx%elem_of_delete. auto.
  - done.
  - unfold take_back. simpl. destruct (0 <? free q); simpl; (split; [done|lia]).
  - unfold withdraw_returning. by destruct (position _ _) as [i|].
Qed.

Lemma apply_op_next_id q o : next_id q <= next_id (apply_op q o).2.
Proof.
  destruct o as [mem ended|mem p core place now g|id| |g|id]; simpl.
  - pose proof (next_delete mem q ended) as Hd. destruct (next mem q ended). simpl in *. lia.
  - unfold take_or_requeue. destruct place; simpl; case_match; simpl; lia.
  - unfold withdraw. by destruct (position _ _).
  - done.
  - unfold take_back. simpl. destruct (0 <? free q); simpl; lia.
  - unfold withdraw_returning. by destruct (position _ _).
Qed.

Lemma gone_passes q ops w : place_of q w = None -> w_id w < next_id q -> passes w q ops = 0.
Proof.
  revert q. induction ops as [|o ops IH]; intros q Hno Hid; [done|]. cbn [passes].
  destruct (gone_stays q o w Hno Hid) as [Hno' Hid']. rewrite IH by (done || lia).
  unfold passed_over. rewrite Hno. by destruct o.
Qed.
End order.

(** ** Kept places *)

Definition place_key (k : KeptPlace) : Z * bytes := (kp_core k, kp_filter k).

Lemma same_place_key core filter k : same_place core filter k = true <-> place_key k = (core, filter).
Proof.
  unfold same_place, place_key. rewrite andb_true_iff, Z.eqb_eq, bool_decide_eq_true. naive_solver.
Qed.

Lemma update_place_elem_key core filter tk from kept x :
  x ∈ place_key <$> update_place core filter tk from kept ->
  x = (core, filter) \/ x ∈ place_key <$> kept.
Proof.
  induction kept as [|k kept IH]; simpl; [rewrite list_elem_of_singleton; auto|].
  destruct (same_place core filter k); simpl; rewrite !elem_of_cons; tauto.
Qed.

Lemma update_place_keys core filter tk from kept :
  NoDup (place_key <$> kept) -> NoDup (place_key <$> update_place core filter tk from kept).
Proof.
  induction kept as [|k kept IH]; simpl; intros Hn; [apply NoDup_singleton|].
  apply NoDup_cons in Hn as [Hni Hn]. destruct (same_place core filter k) eqn:E; [by constructor|].
  rewrite fmap_cons. constructor; [|auto]. intros [Ek|Hx]%update_place_elem_key; [|done].
  apply same_place_key in Ek. congruence.
Qed.

(** The record an update leaves for the place. *)
Lemma update_place_elem core filter tk from kept :
  exists k, k ∈ update_place core filter tk from kept /\ place_key k = (core, filter)
    /\ kp_ticket k <= tk /\ (kp_since k <= from)%Z
    /\ forall k0, k0 ∈ kept -> place_key k0 = (core, filter) ->
         NoDup (place_key <$> kept) -> kp_ticket k <= kp_ticket k0 /\ (kp_since k <= kp_since k0)%Z.
Proof.
  induction kept as [|k kept IH]; simpl.
  - exists (mkKept core filter tk from). split; [apply list_elem_of_here|]. simpl.
    split; [done|]. split; [lia|]. split; [lia|]. by intros ? ?%elem_of_nil.
  - destruct (same_place core filter k) eqn:E.
    + apply same_place_key in E. eexists. split; [apply list_elem_of_here|].
      split; [done|]. simpl. split; [lia|]. split; [lia|].
      intros k0 [->|Hk0]%elem_of_cons Ek0 Hn; [lia|]. apply NoDup_cons in Hn as [Hni _].
      exfalso. apply Hni. rewrite E, <- Ek0. by apply list_elem_of_fmap_2.
    + destruct IH as (k1 & Hk1 & Ek1 & Ht & Hs & Hold). exists k1. split; [by right|].
      repeat (split; [done|]). intros k0 [->|Hk0]%elem_of_cons Ek0 Hn.
      * apply same_place_key in Ek0. congruence.
      * apply NoDup_cons in Hn as [_ Hn]. by apply Hold.
Qed.

Lemma foldl_taken lasts kept core filter now acc :
  let f := fun taken k => if (elapsed now (kp_since k) <? lasts)%Z && same_place core filter k
                          then Some (kp_ticket k, kp_since k) else taken in
  NoDup (place_key <$> kept) ->
  (forall k, k ∈ kept -> place_key k = (core, filter) -> (elapsed now (kp_since k) < lasts)%Z ->
     foldl f acc kept = Some (kp_ticket k, kp_since k))
  /\ ((forall k, k ∈ kept -> place_key k <> (core, filter)) -> foldl f acc kept = acc).
Proof.
  intros f. revert acc. induction kept as [|k kept IH]; intros acc Hn; simpl; [split; [by intros ? ?%elem_of_nil|done]|].
  apply NoDup_cons in Hn as [Hni Hn]. split.
  - intros k0 [->|Hk0]%elem_of_cons Ek Hc.
    + rewrite (proj2 (IH _ Hn)).
      * unfold f. rewrite (proj2 (Z.ltb_lt _ _) Hc), (proj2 (same_place_key _ _ _) Ek). done.
      * intros k' Hk' E. apply Hni. rewrite Ek, <- E. by apply list_elem_of_fmap_2.
    + by apply (proj1 (IH _ Hn)).
  - intros Hno. rewrite (proj2 (IH _ Hn)) by (intros k' Hk'; apply Hno; by right). unfold f.
    destruct (same_place core filter k) eqn:E; [|by rewrite andb_false_r].
    apply same_place_key in E. exfalso. by apply (Hno k); [apply list_elem_of_here|].
Qed.

Lemma filter_keys (p : KeptPlace -> bool) kept :
  NoDup (place_key <$> kept) -> NoDup (place_key <$> List.filter p kept).
Proof.
  induction kept as [|k kept IH]; simpl; [done|]. intros [Hni Hn]%NoDup_cons.
  destruct (p k); [|auto]. rewrite fmap_cons. constructor; [|auto]. intros Hx. apply Hni.
  apply list_elem_of_fmap in Hx as (k' & E & Hk'). apply list_elem_of_fmap. exists k'. split; [done|].
  apply list_elem_of_In, filter_In in Hk' as [Hk' _]. by apply list_elem_of_In.
Qed.

Lemma take_place_none lasts kept core filter now :
  (forall k, k ∈ kept -> kp_core k <> core) -> (take_place lasts kept core filter now).1 = None.
Proof.
  unfold take_place. simpl. intros Hno.
  assert (H : forall acc, foldl (fun taken k => if (elapsed now (kp_since k) <? lasts)%Z && same_place core filter k
                         then Some (kp_ticket k, kp_since k) else taken) acc kept = acc); [|apply H].
  induction kept as [|k kept IH]; intros acc; [done|]. simpl.
  unfold same_place at 2. rewrite (proj2 (Z.eqb_neq _ _)) by apply Hno, list_elem_of_here.
  rewrite andb_false_r. apply IH. intros k' Hk'. apply Hno. by right.
Qed.

(** ** Theorems *)

(** C34. Turns are conserved: in every reachable state the free turns, the turns
    held and the turns about to be lent add up to the configured number; the
    install counter is the number of turns held by installs; no turn is free
    while a worker or a returning holder waits; and at most [MAX_LENT_TURNS]
    turns are lent. *)
Theorem turns_conserved : forall (n : nat) (s : Turns),
  rtc turns_step (start_turns n) s ->
  free (tq s) + length (out s) + length (lending s) = n
  /\ installs (tq s) = length (List.filter snd (out s))
  /\ (waiters (tq s) <> [] \/ returning (tq s) <> [] -> free (tq s) = 0)
  /\ lent (tq s) = length (lending s) + length (lent_out s)
  /\ lent (tq s) <= MAX_LENT_TURNS.
Proof.
  intros n s Hs.
  assert (Hok : turns_ok s /\ turns (tq s) = n).
  { remember (start_turns n) as s0 eqn:E0.
    assert (H0 : turns_ok s0 /\ turns (tq s0) = n).
    { subst. split; [split; simpl; try lia; try done; tauto|done]. }
    clear E0. induction Hs as [|x y z Hxy _ IH]; [done|]. apply IH. destruct H0 as [Hx Ht].
    split; [by eapply turns_step_ok|]. rewrite <- Ht. by apply turns_step_turns. }
  destruct Hok as [[? ? ? ? ?] <-]. done.
Qed.

(** Three claims on two turns: the third waits. *)
Definition demo_waiter (id tk : nat) (r : bool) (c : nat) : Waiter nat :=
  mkWaiter id tk false (mkPriority 0 1 2 3 r) 1 0 c.
Definition demo_turns : Turns :=
  mkTurns (mkQueue 2 0 2 1 3 0 false [demo_waiter 0 2 false 9] 0 []) [(7, true); (8, true)] [] [].

Lemma demo_turns_reached : rtc turns_step (start_turns 2) demo_turns.
Proof.
  set (p := mkPriority 0 1 2 3 false). set (m := (fun _ => false) : memory).
  set (s1 := mkTurns (mkQueue 2 1 1 0 1 0 false [] 0 []) [(7, true)] [] []).
  set (s2 := mkTurns (mkQueue 2 0 2 0 2 0 false [] 0 []) [(7, true); (8, true)] [] []).
  apply (rtc_l _ _ s1); [by apply (step_take m (start_turns 2) p 1 None 0 7 0 true)|].
  apply (rtc_l _ _ s2); [by apply (step_take m s1 p 1 None 0 8 1 true)|].
  apply rtc_once. by apply (step_queue m s2 p 1 None 0 9 2 0).
Qed.

Lemma turns_conserved_witness :
  waiters (tq demo_turns) <> [] /\ free (tq demo_turns) = 0 /\ installs (tq demo_turns) = 2.
Proof.
  destruct (turns_conserved 2 demo_turns demo_turns_reached) as (_ & Hi & Hb & _).
  assert (Hw : waiters (tq demo_turns) <> []) by discriminate.
  split; [exact Hw|]. split; [exact (Hb (or_introl Hw))|exact Hi].
Defined.

(** Whom a free turn goes to: with nobody returning and someone waiting,
    [next] grants exactly one waiter.  A departing seat goes only when all
    waiters depart; right after a resumed waiter another resumed one goes only
    when no other waiter may; with at least two turns, installs take at most all
    but one of them while a waiter that would not install may go; until
    [PRIORITY_RUN] turns went past the longest waiter the lowest rank goes, then
    the first that may. *)
Theorem next_choice : forall (T : Type) (mem : memory) (q : TurnQueue T) (ended : bool),
  returning q = [] -> waiters q <> [] ->
  let q1 := set_installs q (installs q - Nat.b2n ended) in
  exists i w q',
    waiters q !! i = Some w
    /\ next mem q ended = (Some (grant w, waiter_installs mem w), q')
    /\ waiters q' = base.delete i (waiters q) /\ free q' = free q
    /\ (waiter_departing mem w = true -> forall x, x ∈ waiters q -> waiter_departing mem x = true)
    /\ (after_resumed q = true -> resumed w = true ->
        forall x, x ∈ waiters q -> resumed x = false -> open mem q1 x = false)
    /\ (2 <= turns q -> waiter_installs mem w = true ->
        (exists x, x ∈ waiters q /\ candidate mem q1 x = true /\ waiter_installs mem x = false) ->
        installs q' < turns q)
    /\ (bypassed q < PRIORITY_RUN -> forall j x, waiters q !! j = Some x -> eligible mem q1 x = true ->
        rank mem (priority w) <= rank mem (priority x))
    /\ (PRIORITY_RUN <= bypassed q -> forall j x, j < i -> waiters q !! j = Some x ->
        eligible mem q1 x = false).
Proof.
  intros T mem q ended Hr Hne q1.
  destruct (next_waiter mem q ended Hr Hne) as (w & Hw & He & En).
  destruct (pick_spec mem q1 Hne) as (w' & Hw' & _ & Hmin & Hfirst).
  destruct (first_eligible_spec mem q1 Hne) as (z & _ & _ & Hnone).
  fold q1 in Hw, He, En. change (waiters q1) with (waiters q) in Hw'. rewrite Hw in Hw'. injection Hw' as <-.
  exists (pick mem q1), w. eexists. split; [done|]. split; [exact En|].
  apply andb_prop in He as [Ho Hs%negb_true_iff]. pose proof Ho as [Hc Hres%negb_true_iff]%andb_prop.
  do 2 (split; [done|]). split; [|split; [|split; [|split]]].
  - exact (picked_departing mem q1 w Hc).
  - exact (picked_resumed mem q1 w Hs).
  - intros H2 Hi (x & Hx & Hcx & Hix). rewrite Hi in Hres |- *.
    simpl. by apply (picked_reserve mem q1 x).
  - exact Hmin.
  - intros Hb j x Hj Hx. apply (Hnone j x); [|done]. by rewrite <- Hfirst.
Qed.

Lemma next_choice_witness :
  exists i w q', waiters (tq demo_turns) !! i = Some w
    /\ next (fun _ => false) (tq demo_turns) true = (Some (grant w, waiter_installs (fun _ => false) w), q').
Proof.
  destruct (next_choice nat (fun _ => false) (tq demo_turns) true) as (i & w & q' & Hw & Hn & _);
    [reflexivity|discriminate|].
  exists i, w, q'. split; [exact Hw|exact Hn].
Defined.

(** C35. Bounded bypass: take a waiter at place [k] of a seat the node keeps, queued
    for the first time, and any operations that do not withdraw its own claim and
    whose claims queue behind it, whatever the flags of the others do.  It is passed
    over at most [(PRIORITY_RUN + 1) * k + PRIORITY_RUN] times by turns it could have
    taken, and at the end it still waits or was granted a turn. *)
Theorem bounded_bypass : forall (T : Type) (q : TurnQueue T) (ops : list queue_op) (w : Waiter T) (k : nat),
  queue_ok q -> waiters q !! k = Some w -> resumed w = false -> behind w q ops ->
  passes w q ops <= (PRIORITY_RUN + 1) * k + PRIORITY_RUN
  /\ (w ∈ waiters (run_queue q ops) \/ grant w ∈ grants q ops).
Proof.
  intros T q ops w k Hq Hk Hr Hb.
  enough (H : passes w q ops <= bypass_left q k
    /\ (w ∈ waiters (run_queue q ops) \/ grant w ∈ grants q ops))
    by (split; [unfold bypass_left, PRIORITY_RUN in *; lia|apply H]).
  revert q k Hq Hk Hb. induction ops as [|o ops IH]; intros q k Hq Hk Hb.
  { split; [simpl; lia|]. left. by eapply list_elem_of_lookup_2. }
  pose proof (apply_op_ok q o w ops Hq Hb) as Hq'. pose proof (waits_step q o w k ops Hq Hk Hr Hb) as Hstep.
  destruct Hb as [_ Hb]. cbn [passes grants run_queue]. set (r := apply_op q o) in *.
  assert (Hid : w_id w < next_id r.2).
  { destruct (ok_fresh _ Hq w (list_elem_of_lookup_2 _ _ _ Hk)) as [_ Hw].
    pose proof (apply_op_next_id q o). fold r in H. lia. }
  destruct r as [g q']. simpl in *. destruct Hstep as [(-> & Hno & Hp)|(k' & Hk' & Hle)].
  - rewrite Hp, gone_passes by done. split; [simpl; lia|]. right. apply list_elem_of_here.
  - destruct (IH q' k' Hq' Hk' Hb) as [Hps Hg]. split; [lia|].
    destruct Hg as [Hg|Hg]; [by left|right]. apply elem_of_app. by right.
Qed.

(** An install waits first, two replays arrive, and three turns end: the replays
    go past it and it gets the third. *)
Definition demo_queue : TurnQueue nat := tq demo_turns.
Definition demo_ops : list queue_op :=
  let replay_claim c := QClaim (fun _ => false) (mkPriority 0 1 2 3 true) 1 None 0 c in
  [replay_claim 10; replay_claim 11; QNext (fun _ => false) true; QNext (fun _ => false) true;
   QNext (fun _ => false) false].

Lemma bounded_bypass_witness :
  exists w, waiters demo_queue !! 0 = Some w /\ passes w demo_queue demo_ops = 1
    /\ passes w demo_queue demo_ops <= 2 /\ grants demo_queue demo_ops = [10; 11; 9].
Proof.
  eexists. split; [reflexivity|]. split; [vm_compute; reflexivity|].
  split; [|vm_compute; reflexivity].
  refine (proj1 (bounded_bypass nat demo_queue demo_ops _ 0 _ eq_refl eq_refl _)).
  - split.
    + repeat constructor.
    + vm_compute. repeat constructor. by intros ?%elem_of_nil.
    + intros w Hw. apply list_elem_of_singleton in Hw as ->. simpl. lia.
  - simpl. tauto.
Defined.

(** A withdrawn claim's place serves its core's next claim of the shard
    once: while it lasts, [take_place] after [keep_place] returns a ticket and a
    first withdrawal no later than those kept, and a second one returns nothing;
    at most one place is kept per core and shard. *)
Theorem kept_place_served_once :
  forall (lasts : Z) (kept : list KeptPlace) (core : Z) (filter : bytes) (tk : nat) (from now now' : Z),
  NoDup (place_key <$> kept) -> (elapsed now from < lasts)%Z ->
  let kept1 := keep_place lasts kept core filter tk from now in
  NoDup (place_key <$> kept1)
  /\ exists tk' from', tk' <= tk /\ (from' <= from)%Z
     /\ ((elapsed now' from' < lasts)%Z ->
         let '(taken, kept2) := take_place lasts kept1 core filter now' in
         taken = Some (tk', from') /\ (take_place lasts kept2 core filter now').1 = None).
Proof.
  intros lasts kept core filter tk from now now' Hn Hf kept1.
  assert (Hn1 : NoDup (place_key <$> kept1)).
  { unfold kept1, keep_place. destruct (_ <=? _)%Z; [by apply filter_keys|].
    by apply update_place_keys, filter_keys. }
  split; [done|]. unfold kept1, keep_place in *. rewrite (proj2 (Z.leb_gt _ _) Hf) in *.
  set (old := List.filter _ kept) in *.
  destruct (update_place_elem core filter tk from old) as (k & Hk & Ek & Ht & Hs & _).
  exists (kp_ticket k), (kp_since k). split; [done|]. split; [done|]. intros Hc.
  destruct (take_place _ _ _ _ _) as [taken kept2] eqn:E. unfold take_place in E.
  injection E as <- <-. split.
  - by apply (proj1 (foldl_taken lasts _ core filter now' None Hn1)).
  - apply take_place_none. intros k' Hk'. apply list_elem_of_In, filter_In in Hk' as [_ Hk'].
    bool_to_prop. done.
Qed.

Lemma kept_place_served_once_witness :
  let kept1 := keep_place 100 [] 1 [Byte.x01] 5 10 20 in
  (take_place 100 kept1 1 [Byte.x01] 30).1 = Some (5, 10%Z)
  /\ exists tk' from', tk' <= 5 /\ (from' <= 10)%Z /\ ((elapsed 30 from' < 100)%Z ->
      let '(taken, kept2) := take_place 100 kept1 1 [Byte.x01] 30 in
      taken = Some (tk', from') /\ (take_place 100 kept2 1 [Byte.x01] 30).1 = None).
Proof.
  split; [vm_compute; reflexivity|].
  apply (kept_place_served_once 100 [] 1 [Byte.x01] 5 10 20 30); [constructor|vm_compute; reflexivity].
Defined.
