(* ===== verification/Circuit.v ===== *)
(** * Circuit generators of the contract compiler

    [crates/quil-compiler/src/circuits/] (wires, gates, the gate compiler and its
    adder, subtractor, multiplexer, multipliers and dividers) and the evaluation
    of a circuit in [crates/quil-compiler/src/circuit.rs].

    A wire is its index in the allocator.  A result slice may hold [usize::MAX]
    for a wire that is still to be allocated: such a slot is [None].  The string
    errors of these functions are [InvalidArgument]; the flags [visited] and
    [compiled] of a gate and its placement in wires, which nothing here reads,
    are left out. *)

From S2P Require Import Prelude.

Open Scope nat_scope.

Inductive Operation : Type := Xor | Xnor | And | Or | Inv.

#[global] Instance Operation_eq_dec : EqDecision Operation.
Proof. solve_decision. Defined.

(** ** Wires: the packed word of output flag, known value and output count *)

Inductive WireValue : Type := Unknown | Zero | One.

#[global] Instance WireValue_eq_dec : EqDecision WireValue.
Proof. solve_decision. Defined.

Definition OUTPUT_MASK : Z := 2147483648.
Definition VALUE_MASK : Z := 1610612736.
Definition NUM_MASK : Z := 536870911.
Definition VALUE_SHIFT : Z := 29.
Definition UNASSIGNED_ID : Z := u32_max.

Record Wire : Type := mkWire { ovnum : Z; wire_id : Z }.

Definition new_wire : Wire := mkWire 0 UNASSIGNED_ID.

(** [!m & x] on [u32]. *)
Definition clear_bits (x m : Z) : Z := Z.land x (Z.lxor m u32_max).

Definition assigned (w : Wire) : bool := negb (wire_id w =? UNASSIGNED_ID)%Z.
Definition wire_output (w : Wire) : bool := negb (Z.land (ovnum w) OUTPUT_MASK =? 0)%Z.
Definition set_output (w : Wire) (output : bool) : Wire :=
  mkWire (if output then Z.lor (ovnum w) OUTPUT_MASK else clear_bits (ovnum w) OUTPUT_MASK) (wire_id w).
Definition wire_value (w : Wire) : WireValue :=
  match Z.shiftr (Z.land (ovnum w) VALUE_MASK) VALUE_SHIFT with
  | 1%Z => Zero
  | 2%Z => One
  | _ => Unknown
  end.
Definition value_code (v : WireValue) : Z := match v with Unknown => 0 | Zero => 1 | One => 2 end.
Definition set_value (w : Wire) (v : WireValue) : Wire :=
  mkWire (Z.lor (clear_bits (ovnum w) VALUE_MASK)
            (Z.land (Z.shiftl (value_code v) VALUE_SHIFT) VALUE_MASK)) (wire_id w).
Definition num_outputs (w : Wire) : Z := Z.land (ovnum w) NUM_MASK.
Definition set_id (w : Wire) (id : Z) : Wire := mkWire (ovnum w) id.

(** ** Gates and the compiler's state *)

Record Gate : Type := mkGate { g_op : Operation; g_a : nat; g_b : nat; g_o : nat; g_dead : bool }.
Definition new_gate (op : Operation) (a b o : nat) : Gate := mkGate op a b o false.

Record Compiler : Type := mkCompiler {
  wires : list Wire;
  input_wires : list nat;
  output_wires : list nat;
  gates : list Gate;
  next_wire_id : Z;
  c_inv_i0 : option nat;
  c_zero : option nat;
  c_one : option nat;
}.

Definition num_wires (cc : Compiler) : nat := length (wires cc).

(** [Compiler::new] *)
Definition new_compiler (ws : list Wire) (inputs outputs : list nat) : outcome Compiler :=
  match inputs with
  | [] => Err InvalidArgument
  | _ => Ok (mkCompiler ws inputs outputs [] 0 None None None)
  end.

Definition set_wires (cc : Compiler) (ws : list Wire) : Compiler :=
  mkCompiler ws (input_wires cc) (output_wires cc) (gates cc) (next_wire_id cc)
    (c_inv_i0 cc) (c_zero cc) (c_one cc).
Definition set_gates (cc : Compiler) (gs : list Gate) : Compiler :=
  mkCompiler (wires cc) (input_wires cc) (output_wires cc) gs (next_wire_id cc)
    (c_inv_i0 cc) (c_zero cc) (c_one cc).
Definition set_sentinels (cc : Compiler) (i z o : option nat) : Compiler :=
  mkCompiler (wires cc) (input_wires cc) (output_wires cc) (gates cc) (next_wire_id cc) i z o.

Abbreviation emit := (st Compiler).

(** [Allocator::wire] *)
Definition alloc_wire : emit nat := fun cc => (Ok (num_wires cc), set_wires cc (wires cc ++ [new_wire])).

(** [(0..n).map(|_| cc.allocator.wire()).collect()] *)
Fixpoint alloc_wires (n : nat) : emit (list nat) :=
  match n with
  | O => mret []
  | S n' => w ← alloc_wire; ws ← alloc_wires n'; mret (w :: ws)
  end.

(** [gates.push], [add_gate] *)
Definition push_gate (g : Gate) : emit unit := fun cc => (Ok tt, set_gates cc (gates cc ++ [g])).

(** [self.input_wires[0]] *)
Definition input0 : emit nat := fun cc => (unwrap (head (input_wires cc)), cc).

(** [get_wire_mut(w).set_value(v)] *)
Definition mark_value (w : nat) (v : WireValue) : emit unit := fun cc =>
  match wires cc !! w with
  | None => (Panic, cc)
  | Some x => (Ok tt, set_wires cc (<[w := set_value x v]> (wires cc)))
  end.

(** [self.inv_i0_wire = Some(w)] and the like. *)
Definition save_inv_i0 (w : nat) : emit nat := fun cc =>
  (Ok w, set_sentinels cc (Some w) (c_zero cc) (c_one cc)).
Definition save_zero (w : nat) : emit nat := fun cc =>
  (Ok w, set_sentinels cc (c_inv_i0 cc) (Some w) (c_one cc)).
Definition save_one (w : nat) : emit nat := fun cc =>
  (Ok w, set_sentinels cc (c_inv_i0 cc) (c_zero cc) (Some w)).

(** [inv_i0_wire] *)
Definition inv_i0_wire : emit nat := fun cc =>
  match c_inv_i0 cc with
  | Some w => (Ok w, cc)
  | None =>
      (w ← alloc_wire;
       i0 ← input0;
       push_gate (new_gate Inv i0 0 w);;
       save_inv_i0 w) cc
  end.

(** [zero_wire] *)
Definition zero_wire : emit nat := fun cc =>
  match c_zero cc with
  | Some w => (Ok w, cc)
  | None =>
      (w ← alloc_wire;
       i0 ← input0;
       inv ← inv_i0_wire;
       push_gate (new_gate And i0 inv w);;
       mark_value w Zero;;
       save_zero w) cc
  end.

(** [one_wire] *)
Definition one_wire : emit nat := fun cc =>
  match c_one cc with
  | Some w => (Ok w, cc)
  | None =>
      (w ← alloc_wire;
       i0 ← input0;
       inv ← inv_i0_wire;
       push_gate (new_gate Or i0 inv w);;
       mark_value w One;;
       save_one w) cc
  end.

(** [zero_pad] *)
Definition zero_pad (x y : list nat) : emit (list nat * list nat) :=
  if length x =? length y then mret (x, y)
  else
    let max := Nat.max (length x) (length y) in
    zw ← zero_wire;
    mret (x ++ replicate (max - length x) zw, y ++ replicate (max - length y) zw).

(** [shift_left] *)
Definition shift_left (w : list nat) (size count : nat) : emit (list nat) :=
  zw ← zero_wire;
  mret (if count <? size then
          let copied := take (size - count) w in
          replicate count zw ++ copied ++ replicate (size - count - length copied) zw
        else replicate size zw).

(** [inv], [id] *)
Definition emit_inv (i o : nat) : emit unit := one ← one_wire; push_gate (new_gate Xor i one o).
Definition emit_id (i o : nat) : emit unit := zero ← zero_wire; push_gate (new_gate Xor i zero o).

(** ** Adders *)

(** [new_half_adder] *)
Definition new_half_adder (a b sum carry : nat) : emit unit :=
  push_gate (new_gate Xor a b sum);; push_gate (new_gate And a b carry).

(** [new_full_adder] *)
Definition new_full_adder (a b cin sum carry : nat) : emit unit :=
  w1 ← alloc_wire;
  w2 ← alloc_wire;
  w3 ← alloc_wire;
  push_gate (new_gate Xor a b w1);;
  push_gate (new_gate Xor w1 cin sum);;
  push_gate (new_gate And a b w2);;
  push_gate (new_gate And w1 cin w3);;
  push_gate (new_gate Xor w2 w3 carry).

(** [if result[i] == usize::MAX { result[i] = cc.allocator.wire() }] *)
Definition slot (r : option nat) : emit nat :=
  match r with Some w => mret w | None => alloc_wire end.

(** The loop of [new_adder]: the sum wires and the last carry. *)
Fixpoint adder_loop (x y : list nat) (result : list (option nat)) (carry : nat)
    : emit (list nat * nat) :=
  match x, y, result with
  | xi :: x', yi :: y', ri :: result' =>
      new_carry ← alloc_wire;
      o ← slot ri;
      new_full_adder xi yi carry o new_carry;;
      '(os, c) ← adder_loop x' y' result' new_carry;
      mret (o :: os, c)
  | _, _, _ => mret ([], carry)
  end.

(** The slots past the operands: the carry (or borrow), then zeros. *)
Definition finish_result (last : nat -> nat -> emit unit) (carry : nat) (rest : list (option nat))
    : emit (list nat) :=
  head ← match rest with
         | [] => mret []
         | r :: _ => o ← slot r; last carry o;; mret [o]
         end;
  zw ← zero_wire;
  mret (head ++ replicate (length rest - 1) zw).

(** [new_adder] *)
Definition new_adder (x y : list nat) (result : list (option nat)) : emit (list nat) :=
  '(x, y) ← zero_pad x y;
  let n := length x in
  if length result <? n then st_fail InvalidArgument
  else
    carry ← zero_wire;
    '(os, carry) ← adder_loop x y (take n result) carry;
    rest ← finish_result emit_id carry (drop n result);
    mret (os ++ rest).

(** The inverted subtrahend of [new_subtractor]. *)
Fixpoint invert_all (y : list nat) : emit (list nat) :=
  match y with
  | [] => mret []
  | yi :: y' => w ← alloc_wire; emit_inv yi w;; ws ← invert_all y'; mret (w :: ws)
  end.

(** The loop of [new_subtractor]: past the result's end the sum goes to a
    temporary wire. *)
Fixpoint subtractor_loop (x not_y : list nat) (result : list (option nat)) (carry : nat)
    : emit (list nat * nat) :=
  match x, not_y with
  | xi :: x', yi :: y' =>
      new_carry ← alloc_wire;
      match result with
      | ri :: result' =>
          o ← slot ri;
          new_full_adder xi yi carry o new_carry;;
          '(os, c) ← subtractor_loop x' y' result' new_carry;
          mret (o :: os, c)
      | [] =>
          tmp ← alloc_wire;
          new_full_adder xi yi carry tmp new_carry;;
          subtractor_loop x' y' [] new_carry
      end
  | _, _ => mret ([], carry)
  end.

(** [new_subtractor] *)
Definition new_subtractor (x y : list nat) (result : list (option nat)) : emit (list nat) :=
  '(x, y) ← zero_pad x y;
  let n := length x in
  not_y ← invert_all y;
  carry ← one_wire;
  '(os, carry) ← subtractor_loop x not_y (take n result) carry;
  rest ← finish_result emit_inv carry (drop n result);
  mret (os ++ rest).

(** ** Multiplexer *)

Definition operand (l : list nat) : emit nat :=
  match l with w :: _ => mret w | [] => zero_wire end.

Fixpoint mux_loop (s : nat) (a b : list nat) (result : list (option nat)) : emit (list nat) :=
  match result with
  | [] => mret []
  | ri :: result' =>
      ai ← operand a;
      bi ← operand b;
      t1 ← alloc_wire;
      push_gate (new_gate Xor ai bi t1);;
      t2 ← alloc_wire;
      push_gate (new_gate And t1 s t2);;
      o ← slot ri;
      push_gate (new_gate Xor ai t2 o);;
      os ← mux_loop s (tail a) (tail b) result';
      mret (o :: os)
  end.

(** [new_mux]: [a] when the selector is 0, [b] when it is 1. *)
Definition new_mux (sel a b : list nat) (result : list (option nat)) : emit (list nat) :=
  match sel with
  | [] => st_fail InvalidArgument
  | s :: _ => mux_loop s a b result
  end.

(** ** Multipliers *)

Definition index_panic {A} : emit A := fun cc => (Panic, cc).

(** One AND per wire of [x] with the bit [y]. *)
Fixpoint and_row (x : list nat) (y : nat) : emit (list nat) :=
  match x with
  | [] => mret []
  | xn :: x' => w ← alloc_wire; push_gate (new_gate And xn y w);; ws ← and_row x' y; mret (w :: ws)
  end.

(** The positions [1..] of an intermediate layer; the sums, then the last carry. *)
Fixpoint layer_rest (ands sums : list nat) (carry : nat) : emit (list nat) :=
  match ands with
  | [] => mret [carry]
  | a :: ands' =>
      cout ← alloc_wire;
      s ← alloc_wire;
      match sums with
      | [] => new_half_adder a carry s cout
      | b :: _ => new_full_adder a b carry s cout
      end;;
      nsums ← layer_rest ands' (tail sums) cout;
      mret (s :: nsums)
  end.

(** The intermediate layers, for the bits [ys] of [y] and the result wires [zs]. *)
Fixpoint middle_layers (x ys zs sums : list nat) : emit (list nat) :=
  match ys, zs with
  | yj :: ys', zj :: zs' =>
      ands ← and_row x yj;
      match ands, sums with
      | a0 :: ands', s0 :: sums' =>
          cout ← alloc_wire;
          new_half_adder a0 s0 zj cout;;
          nsums ← layer_rest ands' sums' cout;
          middle_layers x ys' zs' nsums
      | _, _ => index_panic
      end
  | [], _ => mret sums
  | _ :: _, [] => index_panic
  end.

(** The final layer, from the result wires [zs]; [carry] is [None] at the first
    position. *)
Fixpoint final_layer (x : list nat) (yj : nat) (sums zs : list nat) (carry : option nat) : emit unit :=
  match x with
  | [] => mret tt
  | xn :: x' =>
      and_ ← alloc_wire;
      push_gate (new_gate And xn yj and_);;
      cout ← match x', zs with
             | [], _ :: zc :: _ => mret zc
             | _, _ => alloc_wire
             end;
      match zs with
      | [] => mret tt
      | zi :: _ =>
          match carry, sums with
          | None, [] => index_panic
          | None, s :: _ => new_half_adder and_ s zi cout
          | Some c, [] => new_half_adder and_ c zi cout
          | Some c, s :: _ => new_full_adder and_ s c zi cout
          end
      end;;
      final_layer x' yj (tail sums) (tail zs) (Some cout)
  end.

(** [new_array_multiplier] on operands of one width, no wider than the result. *)
Definition array_multiplier_body (x y z : list nat) : emit (list nat) :=
  match x, y, z with
  | [x0], y0 :: _, z0 :: zs =>
      push_gate (new_gate And x0 y0 z0);;
      match zs with
      | [] => mret z
      | _ :: rest => zw ← zero_wire; mret (z0 :: zw :: rest)
      end
  | x0 :: xr, y0 :: yr, z0 :: zs =>
      push_gate (new_gate And x0 y0 z0);;
      sums ← and_row xr y0;
      sums ← middle_layers x (removelast yr) zs sums;
      final_layer x (List.last yr 0) sums (drop (length yr) z) None;;
      zw ← zero_wire;
      mret (take (2 * length x) z ++ replicate (length z - 2 * length x) zw)
  | _, _, _ =>
      zw ← zero_wire;
      mret (take 2 z ++ replicate (length z - 2) zw)
  end.

(** [new_array_multiplier] *)
Definition new_array_multiplier (x y z : list nat) : emit (list nat) :=
  '(x, y) ← zero_pad x y;
  array_multiplier_body (take (length z) x) (take (length z) y) z.

(** [new_karatsuba_multiplier]; the fuel bounds the depth of the recursion, and
    running out of it stands for overflowing the stack. *)
Fixpoint new_karatsuba_multiplier (fuel limit : nat) (a b r : list nat) : emit (list nat) :=
  '(a, b) ← zero_pad a b;
  let a := take (length r) a in
  let b := take (length r) b in
  if length a <=? limit then new_array_multiplier a b r
  else
    match fuel with
    | O => index_panic
    | S fuel' =>
        let mid := length a / 2 in
        let a_low := take mid a in
        let a_high := drop mid a in
        let b_low := take mid b in
        let b_high := drop mid b in
        z0 ← alloc_wires (Nat.min (Nat.max (length a_low) (length b_low) * 2) (length r));
        z0 ← new_karatsuba_multiplier fuel' limit a_low b_low z0;
        a_sum ← alloc_wires (Nat.max (length a_low) (length a_high) + 1);
        a_sum ← new_adder a_low a_high (Some <$> a_sum);
        b_sum ← alloc_wires (Nat.max (length b_low) (length b_high) + 1);
        b_sum ← new_adder b_low b_high (Some <$> b_sum);
        z1 ← alloc_wires (Nat.min (Nat.max (length a_sum) (length b_sum) * 2) (length r));
        z1 ← new_karatsuba_multiplier fuel' limit a_sum b_sum z1;
        z2 ← alloc_wires (Nat.min (Nat.max (length a_high) (length b_high) * 2) (length r));
        z2 ← new_karatsuba_multiplier fuel' limit a_high b_high z2;
        sub1 ← alloc_wires (length r);
        sub1 ← new_subtractor z1 z2 (Some <$> sub1);
        sub2 ← alloc_wires (length r);
        sub2 ← new_subtractor sub1 z0 (Some <$> sub2);
        shift1 ← shift_left z2 (length r) (mid * 2);
        shift2 ← shift_left sub2 (length r) mid;
        add1 ← alloc_wires (length r);
        add1 ← new_adder shift1 shift2 (Some <$> add1);
        new_adder add1 z0 (Some <$> r)
    end.

Definition DEFAULT_ARRAY_THRESHOLD : nat := 21.

(** [new_multiplier], with the fuel the operand widths allow. *)
Definition new_multiplier (array_threshold : nat) (x y z : list nat) : emit (list nat) :=
  let threshold := if array_threshold <? 8 then DEFAULT_ARRAY_THRESHOLD else array_threshold in
  new_karatsuba_multiplier (Nat.max (length x) (length y)) threshold x y z.

(** ** Dividers *)

(** The wires of the next remainder: the result's at the last step. *)
Fixpoint remainder_wires (last : bool) (rret : list nat) (n : nat) : emit (list nat) :=
  match n with
  | O => mret []
  | S n' =>
      w ← match rret with
          | r :: _ => if last then mret r else alloc_wire
          | [] => alloc_wire
          end;
      ws ← remainder_wires last (tail rret) n';
      mret (w :: ws)
  end.

(** The loop of [new_udivider_long] for the bits [i-1], ..., [0] of the dividend. *)
Fixpoint udivider_loop (i : nat) (a b q rret r : list nat) : emit (list nat) :=
  match i with
  | O => mret q
  | S i' =>
      match a !! i' with
      | None => index_panic
      | Some ai =>
          let r := ai :: removelast r in
          diff ← alloc_wires (length r + 1);
          diff ← new_subtractor r b (Some <$> diff);
          let borrow := drop (length diff - 1) diff in
          q ← match q !! i' with
              | None => mret q
              | Some qi =>
                  z ← zero_wire;
                  o ← one_wire;
                  q_bit ← new_mux borrow [z] [o] [Some qi];
                  mret (<[i' := List.hd qi q_bit]> q)
              end;
          nr ← remainder_wires (i' =? 0) rret (length r);
          r ← new_mux borrow r (take (length diff - 1) diff) (Some <$> nr);
          udivider_loop i' a b q rret r
      end
  end.

(** [new_udivider_long], [new_udivider] *)
Definition new_udivider (a b q rret : list nat) : emit (list nat) :=
  '(a, b) ← zero_pad a b;
  zw ← zero_wire;
  udivider_loop (length a) a b q rret (replicate (length a) zw).

(** The sign bit: [&a[n - 1..]] *)
Definition sign_bit (a : list nat) : list nat := drop (length a - 1) a.

(** [new_idivider] *)
Definition new_idivider (a b q r : list nat) : emit (list nat) :=
  '(a, b) ← zero_pad a b;
  let n := length a in
  z ← zero_wire;
  neg0 ← zero_wire;
  neg1 ← alloc_wire;
  emit_inv neg0 neg1;;
  a1 ← alloc_wires n;
  a1 ← new_subtractor [z] a (Some <$> a1);
  neg2 ← alloc_wire;
  neg2 ← new_mux (sign_bit a) [neg1] [neg0] [Some neg2];
  a2 ← alloc_wires n;
  a2 ← new_mux (sign_bit a) a1 a (Some <$> a2);
  neg3 ← alloc_wire;
  emit_inv (List.hd 0 neg2) neg3;;
  b1 ← alloc_wires n;
  b1 ← new_subtractor [z] b (Some <$> b1);
  neg4 ← alloc_wire;
  neg4 ← new_mux (sign_bit b) [neg3] neg2 [Some neg4];
  b2 ← alloc_wires n;
  b2 ← new_mux (sign_bit b) b1 b (Some <$> b2);
  if length q =? 0 then new_udivider a2 b2 q r
  else
    q0 ← alloc_wires (length q);
    q0 ← new_udivider a2 b2 q0 r;
    q1 ← alloc_wires (length q);
    q1 ← new_subtractor [z] q0 (Some <$> q1);
    new_mux neg4 q1 q0 (Some <$> q).

(** ** Evaluation *)

Definition gate_value (op : Operation) (x y : bool) : bool :=
  match op with
  | Xor => xorb x y
  | Xnor => negb (xorb x y)
  | And => x && y
  | Or => x || y
  | Inv => negb x
  end.

(** An assignment of wires, and the gates in order. *)
Definition assignment : Type := nat -> bool.
Definition eval_gate (v : assignment) (g : Gate) : assignment :=
  fun w => if w =? g_o g then gate_value (g_op g) (v (g_a g)) (v (g_b g)) else v w.
Definition eval_gates (gs : list Gate) (v : assignment) : assignment := foldl eval_gate v gs.

(** The unsigned number on a list of wires, least significant first. *)
Fixpoint word (v : assignment) (ws : list nat) : Z :=
  match ws with
  | [] => 0
  | w :: ws' => Z.b2z (v w) + 2 * word v ws'
  end.
