(* ===== verification/CircuitCompile.v ===== *)
(** * From gates to a circuit

    The passes of [circuits/compiler.rs] over an emitted gate list
    ([const_propagate], [prune], [compile_circuit]) and the evaluation
    [Circuit::compute] of [circuit.rs].  Sizes of arguments ([i32] in the code)
    are natural numbers; names and types of arguments, which evaluation does not
    read, are left out, and of the statistics only the gate counts are kept. *)

From S2P Require Import Prelude Circuit.

Open Scope nat_scope.

(** ** Passes *)

Definition value_of (cc : Compiler) (w : nat) : outcome WireValue := wire_value <$> unwrap (wires cc !! w).

(** The value [const_propagate] gives the output of a gate, if any. *)
Definition propagated (op : Operation) (av bv : WireValue) : option WireValue :=
  match op with
  | Xor =>
      match av, bv with
      | Zero, Zero | One, One => Some Zero
      | Zero, One | One, Zero => Some One
      | _, _ => None
      end
  | Xnor =>
      match av, bv with
      | Zero, Zero | One, One => Some One
      | Zero, One | One, Zero => Some Zero
      | _, _ => None
      end
  | And =>
      if bool_decide (av = Zero) || bool_decide (bv = Zero) then Some Zero
      else if bool_decide (av = One) && bool_decide (bv = One) then Some One else None
  | Or =>
      if bool_decide (av = One) || bool_decide (bv = One) then Some One
      else if bool_decide (av = Zero) && bool_decide (bv = Zero) then Some Zero else None
  | Inv => match av with One => Some Zero | Zero => Some One | Unknown => None end
  end.

Fixpoint propagate_gates (gs : list Gate) : emit unit :=
  match gs with
  | [] => mret tt
  | g :: gs' =>
      av ← st_read (fun cc => value_of cc (g_a g));
      bv ← st_read (fun cc => value_of cc (g_b g));
      match propagated (g_op g) av bv with
      | Some v => mark_value (g_o g) v
      | None => mret tt
      end;;
      propagate_gates gs'
  end.

(** [const_propagate] *)
Definition const_propagate : emit unit := fun cc => propagate_gates (gates cc) cc.

Definition gate_live (ws : list Wire) (g : Gate) : bool :=
  match ws !! g_o g with
  | Some w => g_dead g || wire_output w || (0 <? num_outputs w)%Z
  | None => false
  end.

(** [prune]: the gates that stay, and how many were dropped. *)
Definition prune : emit nat := fun cc =>
  if forallb (fun g => g_o g <? num_wires cc) (gates cc) then
    let live := List.filter (gate_live (wires cc)) (gates cc) in
    (Ok (length (gates cc) - length live), set_gates cc live)
  else (Panic, cc).

(** ** Numbering *)

Definition set_next (cc : Compiler) (id : Z) : Compiler :=
  mkCompiler (wires cc) (input_wires cc) (output_wires cc) (gates cc) id
    (c_inv_i0 cc) (c_zero cc) (c_one cc).

(** [next_wire_id] *)
Definition take_wire_id : emit Z := fun cc =>
  if (next_wire_id cc =? u32_max)%Z then (Panic, cc)
  else (Ok (next_wire_id cc), set_next cc (next_wire_id cc + 1)).

(** [get_wire_mut(w).set_id(id)] *)
Definition set_wire_id (w : nat) (id : Z) : emit unit := fun cc =>
  match wires cc !! w with
  | None => (Panic, cc)
  | Some x => (Ok tt, set_wires cc (<[w := set_id x id]> (wires cc)))
  end.

(** [let id = self.next_wire_id(); get_wire_mut(w).set_id(id)] *)
Definition number_wire (w : nat) : emit unit := id ← take_wire_id; set_wire_id w id.

(** [if !get_wire(w).assigned() { ... }] *)
Definition number_unassigned (w : nat) : emit unit := fun cc =>
  match wires cc !! w with
  | None => (Panic, cc)
  | Some x => if assigned x then (Ok tt, cc) else number_wire w cc
  end.

Fixpoint each {A} (f : A -> emit unit) (l : list A) : emit unit :=
  match l with
  | [] => mret tt
  | x :: l' => f x;; each f l'
  end.

(** The wires of a gate that are not outputs of the circuit. *)
Definition number_inner (outputs : list nat) (w : nat) : emit unit :=
  if bool_decide (w ∈ outputs) then mret tt else number_unassigned w.
Definition number_gate (outputs : list nat) (g : Gate) : emit unit :=
  if g_dead g then mret tt
  else
    number_inner outputs (g_a g);;
    (if bool_decide (g_op g = Inv) then mret tt else number_inner outputs (g_b g));;
    number_inner outputs (g_o g).

Definition number_wires : emit unit := fun cc =>
  (each number_unassigned (input_wires cc);;
   each (number_gate (output_wires cc)) (gates cc);;
   each number_wire (output_wires cc)) cc.

(** ** Circuits *)

(** [circuit::Gate]; a wire is its number. *)
Record CGate : Type := mkCGate { cg_input0 : nat; cg_input1 : nat; cg_output : nat; cg_op : Operation }.

(** [circuit::IOArg] *)
Inductive IOArg : Type := mkIOArg (io_bits : nat) (io_compound : list IOArg).
Definition io_bits (a : IOArg) : nat := match a with mkIOArg bits _ => bits end.
Definition io_compound (a : IOArg) : list IOArg := match a with mkIOArg _ compound => compound end.
Definition io_size (l : list IOArg) : nat := foldr (fun a n => io_bits a + n) 0 l.

Record Circuit : Type := mkCircuit {
  circ_num_gates : nat;
  circ_num_wires : nat;
  circ_inputs : list IOArg;
  circ_outputs : list IOArg;
  circ_gates : list CGate;
  circ_counts : list nat;
}.

Definition all_operations : list Operation := [Xor; Xnor; And; Or; Inv].
Definition gate_counts (gs : list Gate) : list nat :=
  (fun op => length (List.filter (fun g => bool_decide (g_op g = op)) gs)) <$> all_operations.

Definition id_of (cc : Compiler) (w : nat) : outcome nat :=
  (fun x => Z.to_nat (wire_id x)) <$> unwrap (wires cc !! w).

(** One gate in the numbers of its wires. *)
Definition compile_gate (cc : Compiler) (g : Gate) : outcome CGate :=
  a ← id_of cc (g_a g);
  b ← id_of cc (g_b g);
  o ← id_of cc (g_o g);
  mret (mkCGate a (if bool_decide (g_op g = Inv) then 0 else b) o (g_op g)).

Fixpoint compile_gates (cc : Compiler) (gs : list Gate) : outcome (list CGate) :=
  match gs with
  | [] => mret []
  | g :: gs' =>
      if g_dead g then compile_gates cc gs'
      else c ← compile_gate cc g; cs ← compile_gates cc gs'; mret (c :: cs)
  end.

(** One pass of the topological sort: gates whose inputs are ready, and the rest. *)
Fixpoint ready_pass (produced : list bool) (remaining : list CGate)
    : outcome (list bool * list CGate * list CGate) :=
  match remaining with
  | [] => mret (produced, [], [])
  | g :: rest =>
      a_ready ← unwrap (produced !! cg_input0 g);
      b_ready ← (if bool_decide (cg_op g = Inv) then mret true else unwrap (produced !! cg_input1 g));
      if a_ready && b_ready then
        _ ← unwrap (produced !! cg_output g);
        '(produced, sorted, next) ← ready_pass (<[cg_output g := true]> produced) rest;
        mret (produced, g :: sorted, next)
      else
        '(produced, sorted, next) ← ready_pass produced rest;
        mret (produced, sorted, g :: next)
  end.

(** The passes, as long as they make progress; each that does shortens
    [remaining], so its length is fuel enough. *)
Fixpoint topological (fuel : nat) (produced : list bool) (remaining : list CGate) : outcome (list CGate) :=
  match fuel, remaining with
  | O, _ | _, [] => mret remaining
  | S fuel', _ =>
      '(produced, sorted, next) ← ready_pass produced remaining;
      match sorted with
      | [] => mret next
      | _ => rest ← topological fuel' produced next; mret (sorted ++ rest)
      end
  end.

(** [compile_circuit], for the compiler's [inputs] and [outputs] declarations. *)
Definition compile_circuit (inputs outputs : list IOArg) : emit Circuit :=
  number_wires;;
  compiled ← st_read (fun cc => compile_gates cc (gates cc));
  num_wires ← st_read (fun cc => Ok (Z.to_nat (next_wire_id cc)));
  counts ← st_read (fun cc => Ok (gate_counts (List.filter (fun g => negb (g_dead g)) (gates cc))));
  let input_wire_count := io_size inputs in
  _ ← (if num_wires <? input_wire_count then index_panic else mret tt);
  sorted ← st_read (fun _ =>
    topological (length compiled)
      (replicate input_wire_count true ++ replicate (num_wires - input_wire_count) false) compiled);
  mret (mkCircuit (length sorted) num_wires inputs outputs sorted counts).

(** ** [Circuit::compute] *)

(** The declared arguments, compound ones opened one level. *)
Definition flatten_args (inputs : list IOArg) : list IOArg :=
  inputs ≫= fun io => match io_compound io with [] => [io] | args => args end.

(** The bits of the inputs, in wire order. *)
Fixpoint input_bits (args : list IOArg) (inputs : list Z) : list bool :=
  match args, inputs with
  | io :: args', x :: inputs' =>
      ((fun bit => Z.testbit x (Z.of_nat bit)) <$> seq 0 (io_bits io)) ++ input_bits args' inputs'
  | _, _ => []
  end.

Definition compute_gate (wires : list bool) (g : CGate) : outcome (list bool) :=
  x ← unwrap (wires !! cg_input0 g);
  y ← (if bool_decide (cg_op g = Inv) then mret false else unwrap (wires !! cg_input1 g));
  _ ← unwrap (wires !! cg_output g);
  mret (<[cg_output g := gate_value (cg_op g) x y]> wires).

Fixpoint compute_gates (wires : list bool) (gs : list CGate) : outcome (list bool) :=
  match gs with
  | [] => mret wires
  | g :: gs' => wires ← compute_gate wires g; compute_gates wires gs'
  end.

(** The number on the first [n] wires. *)
Fixpoint bits_to_Z (bits : list bool) : Z :=
  match bits with
  | [] => 0
  | b :: bits' => Z.b2z b + 2 * bits_to_Z bits'
  end.

Fixpoint collect_outputs (outputs : list IOArg) (wires : list bool) : list Z :=
  match outputs with
  | [] => []
  | io :: outputs' => bits_to_Z (take (io_bits io) wires) :: collect_outputs outputs' (drop (io_bits io) wires)
  end.

(** [compute] *)
Definition compute (c : Circuit) (inputs : list Z) : outcome (list Z) :=
  let args := flatten_args (circ_inputs c) in
  if negb (length inputs =? length args) then Err InvalidArgument
  else
    let bits := input_bits args inputs in
    if existsb id (drop (circ_num_wires c) bits) then Panic
    else
      wires ← compute_gates (resize (circ_num_wires c) false bits) (circ_gates c);
      let out_size := io_size (circ_outputs c) in
      if circ_num_wires c <? out_size then Panic
      else mret (collect_outputs (circ_outputs c) (drop (circ_num_wires c - out_size) wires)).
