(* ===== verification/CircuitCorrect.v ===== *)
(** * Correctness of the circuit generators

    The gates a generator emits are read as an assignment of the wires: the
    adder adds, the subtractor subtracts, the multiplexer selects and both
    multipliers multiply, modulo the width of the result, for every operand
    width and every initial assignment.  The generators compose because each
    touches only its result wires and wires it allocates ([ext]). *)

From stdpp Require Import sets.
From S2P Require Import Prelude Circuit.

Open Scope nat_scope.

(** ** Words *)

Section words.
Local Open Scope Z_scope.
Implicit Types (v : assignment) (ws : list nat).

Lemma word_app v ws1 ws2 :
  word v (ws1 ++ ws2) = word v ws1 + 2 ^ Z.of_nat (length ws1) * word v ws2.
Proof.
  induction ws1 as [|w ws1 IH]; simpl word; simpl length; [rewrite Z.pow_0_r; simpl; lia|].
  rewrite Nat2Z.inj_succ, Z.pow_succ_r by lia. simpl app. simpl word. rewrite IH. ring.
Qed.

Lemma word_bounds v ws : 0 <= word v ws < 2 ^ Z.of_nat (length ws).
Proof.
  induction ws as [|w ws IH]; simpl word; simpl length; [simpl; lia|].
  rewrite Nat2Z.inj_succ, Z.pow_succ_r by lia. destruct (v w); simpl; lia.
Qed.

Lemma word_ext v v' ws : (forall w, w ∈ ws -> v' w = v w) -> word v' ws = word v ws.
Proof.
  induction ws as [|w ws IH]; intros H; [done|]; simpl.
  rewrite (H w) by set_solver. rewrite IH; [done|]. intros; apply H; set_solver.
Qed.

Lemma word_zeros v w k : v w = false -> word v (replicate k w) = 0.
Proof. intros E. induction k as [|k IH]; simpl; [done|]. by rewrite E, IH. Qed.

Lemma word_take v ws k : word v (take k ws) = word v ws mod 2 ^ Z.of_nat k.
Proof.
  destruct (decide (k <= length ws)%nat).
  - rewrite <- (take_drop k ws) at 2. rewrite word_app, length_take_le by done.
    rewrite Z.mul_comm, Z_mod_plus_full. rewrite Z.mod_small; [done|].
    pose proof (word_bounds v (take k ws)) as B. by rewrite length_take_le in B.
  - rewrite take_ge by lia. pose proof (word_bounds v ws).
    rewrite Z.mod_small; [done|]. split; [lia|].
    eapply Z.lt_le_trans; [apply H|]. apply Z.pow_le_mono_r; lia.
Qed.

Lemma word_split v ws k : (k <= length ws)%nat ->
  word v ws = word v (take k ws) + 2 ^ Z.of_nat k * word v (drop k ws).
Proof.
  intros. rewrite <- (take_drop k ws) at 1. rewrite word_app, length_take_le by done. done.
Qed.
End words.

(** ** The gate list as an assignment *)

Lemma eval_gates_app gs1 gs2 v : eval_gates (gs1 ++ gs2) v = eval_gates gs2 (eval_gates gs1 v).
Proof. apply foldl_app. Qed.

Lemma eval_gates_other gs v w :
  (forall g, g ∈ gs -> g_o g <> w) -> eval_gates gs v w = v w.
Proof.
  revert v. induction gs as [|g gs IH]; intros v H; [done|]. simpl. fold (eval_gates gs).
  rewrite IH by (intros; apply H; set_solver). unfold eval_gate.
  destruct (Nat.eqb_spec w (g_o g)) as [->|]; [|done]. destruct (H g); set_solver.
Qed.

Lemma st_bind_ok {S A B} (m : st S A) (f : A -> st S B) s a s' :
  m s = (Ok a, s') -> (m ≫= f) s = f a s'.
Proof. intros E. unfold mbind, st_bind. by rewrite E. Qed.

(** The compiler with [k] more wires and the gates [gs] appended. *)
Definition grow (cc : Compiler) (k : nat) (gs : list Gate) : Compiler :=
  set_gates (set_wires cc (wires cc ++ replicate k new_wire)) (gates cc ++ gs).

Definition protected (cc : Compiler) (w : nat) : Prop :=
  head (input_wires cc) = Some w \/ c_inv_i0 cc = Some w \/ c_zero cc = Some w \/ c_one cc = Some w.

(** Wires a generator may drive, and wires it may read while driving [T]. *)
Definition target (cc : Compiler) (w : nat) : Prop := w < num_wires cc /\ ~ protected cc w.
Definition source (cc : Compiler) (T : list nat) (w : nat) : Prop := w < num_wires cc /\ w ∉ T.

Lemma num_grow cc k gs : num_wires (grow cc k gs) = num_wires cc + k.
Proof. unfold num_wires, grow. simpl. by autorewrite with quil_len. Qed.

(** A straight line of allocations and gates, run step by step. *)
Lemma grow_grow cc k k' gs gs' : grow (grow cc k gs) k' gs' = grow cc (k + k') (gs ++ gs').
Proof. unfold grow, set_gates, set_wires. simpl. by rewrite replicate_add, !app_assoc. Qed.

Lemma push_gate_grow g cc : push_gate g cc = (Ok tt, grow cc 0 [g]).
Proof. unfold push_gate, grow, set_gates, set_wires. simpl. by rewrite app_nil_r. Qed.

Lemma run_alloc {A} (f : nat -> emit A) cc : (alloc_wire ≫= f) cc = f (num_wires cc) (grow cc 1 []).
Proof. unfold mbind, st_bind, alloc_wire, grow, set_gates, set_wires. simpl. by rewrite app_nil_r. Qed.

Lemma run_push {A} (f : unit -> emit A) g cc : (push_gate g ≫= f) cc = f tt (grow cc 0 [g]).
Proof. by apply st_bind_ok, push_gate_grow. Qed.

Lemma run_ret {A B} (f : A -> emit B) a cc : (mret a ≫= f) cc = f a cc.
Proof. done. Qed.

Ltac emits :=
  repeat (rewrite ?run_ret, ?run_alloc, ?run_push, ?push_gate_grow, ?grow_grow, ?num_grow; cbv beta; simpl app);
  rewrite ?Nat.add_0_l, ?Nat.add_0_r, ?Nat.add_1_r, ?Nat.add_succ_r, ?Nat.add_0_r.

(** Wires compared by the gates they drive. *)
Ltac eqbs :=
  repeat match goal with
  | |- context [?x =? ?y] =>
      first [ rewrite (proj2 (Nat.eqb_eq x y)) by (congruence || lia)
            | rewrite (proj2 (Nat.eqb_neq x y)) by (congruence || lia) ]
  end.

Section frame.
Context {ρ : assignment}.

Definition val (cc : Compiler) : assignment := eval_gates (gates cc) ρ.

(** The first input and the sentinel wires exist and carry their values. *)
Record ok (cc : Compiler) : Prop := {
  ok_input : exists i0, head (input_wires cc) = Some i0;
  ok_range : forall w, protected cc w -> w < num_wires cc;
  ok_inv : forall w i0, c_inv_i0 cc = Some w -> head (input_wires cc) = Some i0 ->
    val cc w = negb (val cc i0);
  ok_zero : forall w, c_zero cc = Some w -> val cc w = false;
  ok_one : forall w, c_one cc = Some w -> val cc w = true;
}.

(** [cc'] comes after [cc] and changed none of its wires but [W]. *)
Record ext (W : list nat) (cc cc' : Compiler) : Prop := {
  ext_ok : ok cc';
  ext_num : num_wires cc <= num_wires cc';
  ext_keeps : forall w, protected cc w -> protected cc' w;
  ext_fresh : forall w, w < num_wires cc -> protected cc' w -> protected cc w;
  ext_val : forall w, w < num_wires cc -> w ∉ W -> val cc' w = val cc w;
}.

Lemma ext_refl W cc : ok cc -> ext W cc cc.
Proof. by split. Qed.

Lemma ext_trans W1 W2 W a b c :
  ext W1 a b -> ext W2 b c ->
  (forall w, w < num_wires a -> w ∈ W1 \/ w ∈ W2 -> w ∈ W) -> ext W a c.
Proof.
  intros H1 H2 HW. pose proof (ext_num _ _ _ H1). pose proof (ext_num _ _ _ H2). split.
  - apply H2.
  - lia.
  - intros w Hw. by apply H2, H1.
  - intros w Hw Hp. apply H1; [done|]. apply H2; [lia|done].
  - intros w Hw Hn. rewrite (ext_val _ _ _ H2), (ext_val _ _ _ H1); try done; try lia; naive_solver.
Qed.

Lemma ext_target W cc cc' w : ext W cc cc' -> target cc w -> target cc' w.
Proof.
  intros H [Hw Hp]. pose proof (ext_num _ _ _ H). split; [lia|].
  intros ?. by apply Hp, (ext_fresh _ _ _ H).
Qed.

Lemma ext_word W cc cc' ws :
  ext W cc cc' -> Forall (source cc W) ws -> word (val cc') ws = word (val cc) ws.
Proof.
  intros H Hs. apply word_ext. intros w Hw. rewrite Forall_forall in Hs.
  destruct (Hs w Hw). by apply (ext_val _ _ _ H).
Qed.

Lemma val_grow cc k gs : val (grow cc k gs) = eval_gates gs (val cc).
Proof. apply eval_gates_app. Qed.

Lemma grow_ext W cc k gs :
  ok cc ->
  (forall g, g ∈ gs -> g_o g ∈ W /\ ~ protected cc (g_o g) \/ num_wires cc <= g_o g) ->
  ext W cc (grow cc k gs).
Proof.
  intros Hok Hg.
  assert (Hv : forall w, w < num_wires cc -> protected cc w \/ w ∉ W -> val (grow cc k gs) w = val cc w).
  { intros w Hw Hp. rewrite val_grow. apply eval_gates_other. intros g Hin <-.
    destruct (Hg g Hin) as [[? ?]|]; [destruct Hp; done|lia]. }
  assert (Hs : forall w, protected cc w -> val (grow cc k gs) w = val cc w).
  { intros w Hp. apply Hv; [by apply Hok|by left]. }
  split; [|rewrite num_grow; lia|done|done|intros; apply Hv; auto].
  split; simpl.
  - apply Hok.
  - intros w Hp. rewrite num_grow. pose proof (ok_range _ Hok w Hp). lia.
  - intros w i0 Hi Hh. rewrite !Hs by (unfold protected; auto). by apply Hok.
  - intros w Hz. rewrite Hs by (unfold protected; auto). by apply Hok.
  - intros w Hz. rewrite Hs by (unfold protected; auto). by apply Hok.
Qed.

(** ** Single steps *)

Lemma alloc_wire_ok cc :
  ok cc ->
  alloc_wire cc = (Ok (num_wires cc), grow cc 1 []) /\ ext [] cc (grow cc 1 []) /\
  target (grow cc 1 []) (num_wires cc).
Proof.
  intros Hok. split_and!.
  - unfold alloc_wire, grow, set_gates, set_wires. simpl. by rewrite app_nil_r.
  - apply grow_ext; [done|]. set_solver.
  - split; [rewrite num_grow; lia|]. intros Hp. pose proof (ok_range _ Hok _ Hp). lia.
Qed.

Lemma push_gate_ok cc op a b o (cc' := grow cc 0 [new_gate op a b o]) :
  ok cc -> target cc o ->
  push_gate (new_gate op a b o) cc = (Ok tt, cc') /\ ext [o] cc cc' /\
    val cc' o = gate_value op (val cc a) (val cc b).
Proof.
  intros Hok [Ho Hp]. split_and!.
  - unfold push_gate, cc', grow, set_gates, set_wires. simpl. by rewrite app_nil_r.
  - apply grow_ext; [done|]. intros g ->%list_elem_of_singleton. left. split; [set_solver|done].
  - unfold cc'. rewrite val_grow. simpl. unfold eval_gate. simpl. by rewrite Nat.eqb_refl.
Qed.

Lemma ext_install cc cc1 cc2 :
  ext [] cc cc1 ->
  gates cc2 = gates cc1 -> num_wires cc2 = num_wires cc1 -> input_wires cc2 = input_wires cc1 ->
  (forall w, protected cc1 w -> protected cc2 w) ->
  (forall w, protected cc2 w -> protected cc1 w \/ num_wires cc <= w < num_wires cc1) ->
  (forall w i0, c_inv_i0 cc2 = Some w -> head (input_wires cc1) = Some i0 -> val cc1 w = negb (val cc1 i0)) ->
  (forall w, c_zero cc2 = Some w -> val cc1 w = false) ->
  (forall w, c_one cc2 = Some w -> val cc1 w = true) ->
  ext [] cc cc2.
Proof.
  intros Hx Hg Hn Hi Hp Hp' Hinv Hz Ho.
  assert (Hv : val cc2 = val cc1) by (unfold val; by rewrite Hg).
  split; rewrite ?Hn, ?Hv.
  - split; rewrite ?Hv, ?Hn, ?Hi; auto; [apply Hx|]. intros w Hw.
    destruct (Hp' w Hw) as [H|]; [|lia]. by apply (ok_range _ (ext_ok _ _ _ Hx)).
  - apply Hx.
  - intros w Hw. by apply Hp, Hx.
  - intros w Hw Hq. destruct (Hp' w Hq) as [H|]; [|lia]. by apply Hx.
  - apply Hx.
Qed.

Lemma input0_ok cc i0 : head (input_wires cc) = Some i0 -> input0 cc = (Ok i0, cc).
Proof. intros E. unfold input0. by rewrite E. Qed.

Lemma ext_alloc_push cc cc1 cc2 w :
  ok cc -> w = num_wires cc -> ext [] cc cc1 -> ext [w] cc1 cc2 -> ext [] cc cc2.
Proof.
  intros Hok -> H1 H2. apply (ext_trans _ _ _ _ _ _ H1 H2).
  intros w Hw [H|H]; [set_solver|]. apply list_elem_of_singleton in H. lia.
Qed.

Lemma protected_source W cc w :
  ok cc -> (forall t, t ∈ W -> target cc t) -> protected cc w -> source cc W w.
Proof. intros Hok HW Hp. split; [by apply Hok|]. intros Hin. by apply (HW w Hin). Qed.

Lemma inv_i0_wire_ok cc i0 :
  ok cc -> head (input_wires cc) = Some i0 ->
  exists w cc', inv_i0_wire cc = (Ok w, cc') /\ ext [] cc cc' /\ protected cc' w /\
    input_wires cc' = input_wires cc /\ c_zero cc' = c_zero cc /\ c_one cc' = c_one cc /\
    val cc' w = negb (val cc' i0).
Proof.
  intros Hok Hi. unfold inv_i0_wire. destruct (c_inv_i0 cc) as [w|] eqn:Ew.
  { exists w, cc. split_and!; try done; [unfold protected; auto|by apply Hok]. }
  destruct (alloc_wire_ok cc Hok) as (Ea & Hx & Ht).
  destruct (push_gate_ok _ Inv i0 0 _ (ext_ok _ _ _ Hx) Ht) as (Ep & Hx2 & Hval).
  rewrite (st_bind_ok _ _ _ _ _ Ea), (st_bind_ok _ _ _ _ _ (input0_ok (grow cc 1 []) i0 Hi)), (st_bind_ok _ _ _ _ _ Ep).
  pose proof (ext_alloc_push _ _ _ _ Hok eq_refl Hx Hx2) as Hx3. simpl in Hval.
  assert (Hv0 : val (grow (grow cc 1 []) 0 [new_gate Inv i0 0 (num_wires cc)]) i0 = val (grow cc 1 []) i0).
  { assert (Hs : source (grow cc 1 []) [num_wires cc] i0).
    { apply protected_source; [apply Hx| |by left]. by intros t ->%list_elem_of_singleton. }
    by apply (ext_val _ _ _ Hx2); apply Hs. }
  eexists _, _. split; [reflexivity|]. split_and!; try done; [|by right; left|].
  - eapply (ext_install _ _ _ Hx3); try done.
    + intros w. unfold protected; simpl. rewrite Ew. naive_solver.
    + intros w. unfold protected; simpl. rewrite num_grow.
      intros [?|[[= <-]|?]]; [tauto|right; rewrite num_grow; lia|tauto].
    + simpl. intros w i0' [= <-] Hi'. rewrite Hi in Hi'. injection Hi' as <-. by rewrite Hval, Hv0.
    + apply Hx3.
    + apply Hx3.
  - change (val _ _) with (val (grow (grow cc 1 []) 0 [new_gate Inv i0 0 (num_wires cc)]) (num_wires cc)) at 1.
    rewrite Hval. f_equal. symmetry. exact Hv0.
Qed.

Lemma mark_value_ok cc w v :
  w < num_wires cc ->
  exists ws, length ws = num_wires cc /\ mark_value w v cc = (Ok tt, set_wires cc ws).
Proof.
  intros Hw. unfold mark_value. destruct (lookup_lt_is_Some_2 _ _ Hw) as [x E]. rewrite E.
  eexists. split; [|reflexivity]. apply length_insert.
Qed.

(** The common part of [zero_wire] and [one_wire]. *)
Lemma sentinel_ok {A} op v cc (k : nat -> emit A) :
  ok cc ->
  exists w x cc',
    (w ← alloc_wire; i0 ← input0; inv ← inv_i0_wire; push_gate (new_gate op i0 inv w);;
     mark_value w v;; k w) cc = k w cc' /\
    ext [] cc cc' /\ num_wires cc <= w < num_wires cc' /\
    c_zero cc' = c_zero cc /\ c_one cc' = c_one cc /\ val cc' w = gate_value op x (negb x).
Proof.
  intros Hok. destruct (ok_input _ Hok) as [i0 Hi].
  destruct (alloc_wire_ok cc Hok) as (Ea & Hx & Ht). set (w := num_wires cc) in *.
  destruct (inv_i0_wire_ok (grow cc 1 []) i0 (ext_ok _ _ _ Hx) Hi)
    as (inv & cc2 & Ei & Hx2 & Hp & Hin & Hz & Ho & Hv).
  pose proof (ext_target _ _ _ _ Hx2 Ht) as Ht2.
  destruct (push_gate_ok cc2 op i0 inv w (ext_ok _ _ _ Hx2) Ht2) as (Ep & Hx3 & Hv3).
  set (cc3 := grow cc2 0 _) in *.
  pose proof (ext_target _ _ _ _ Hx3 Ht2) as [Hw _].
  destruct (mark_value_ok cc3 w v Hw) as (ws & Hn & Em). set (cc4 := set_wires cc3 ws) in *.
  assert (Hx03 : ext [] cc cc3).
  { eapply ext_alloc_push; [done|reflexivity| |exact Hx3]. by eapply ext_trans; [exact Hx|exact Hx2|naive_solver]. }
  change (num_wires cc4 = num_wires cc3) in Hn.
  exists w, (val cc2 i0), cc4. split_and!; try done.
  - rewrite (st_bind_ok _ _ _ _ _ Ea), (st_bind_ok _ _ _ _ _ (input0_ok (grow cc 1 []) i0 Hi)),
      (st_bind_ok _ _ _ _ _ Ei), (st_bind_ok _ _ _ _ _ Ep), (st_bind_ok _ _ _ _ _ Em).
    done.
  - apply (ext_install _ _ _ Hx03); try done; try apply Hx03. intros w' H. by left.
  - by rewrite Hn.
  - etransitivity; [exact Hv3|]. by rewrite Hv.
Qed.

Lemma zero_wire_ok cc :
  ok cc ->
  exists w cc', zero_wire cc = (Ok w, cc') /\ ext [] cc cc' /\ protected cc' w /\ val cc' w = false.
Proof.
  intros Hok. unfold zero_wire. destruct (c_zero cc) as [w|] eqn:Ez.
  { exists w, cc. split_and!; [done|by apply ext_refl|unfold protected; auto|by apply Hok]. }
  destruct (sentinel_ok And Zero cc save_zero Hok) as (w & x & cc1 & -> & Hx & Hw & Hz & Ho & Hv).
  assert (Hf : val cc1 w = false) by (rewrite Hv; by destruct x).
  eexists _, _. split; [reflexivity|]. split_and!; [|by do 2 right; left|done].
  rewrite Ez in Hz. apply (ext_install _ _ _ Hx); try done; try apply Hx; unfold protected; simpl.
  - rewrite Hz. naive_solver.
  - naive_solver.
  - by intros ? [= <-].
Qed.

Lemma one_wire_ok cc :
  ok cc ->
  exists w cc', one_wire cc = (Ok w, cc') /\ ext [] cc cc' /\ protected cc' w /\ val cc' w = true.
Proof.
  intros Hok. unfold one_wire. destruct (c_one cc) as [w|] eqn:Ez.
  { exists w, cc. split_and!; [done|by apply ext_refl|unfold protected; auto|by apply Hok]. }
  destruct (sentinel_ok Or One cc save_one Hok) as (w & x & cc1 & -> & Hx & Hw & Hz & Ho & Hv).
  assert (Hf : val cc1 w = true) by (rewrite Hv; by destruct x).
  eexists _, _. split; [reflexivity|]. split_and!; [|by do 3 right|done].
  rewrite Ez in Ho. apply (ext_install _ _ _ Hx); try done; try apply Hx; unfold protected; simpl.
  - rewrite Ho. naive_solver.
  - naive_solver.
  - by intros ? [= <-].
Qed.

Lemma ext_source W T cc cc' ws :
  ext W cc cc' -> Forall (source cc T) ws -> Forall (source cc' T) ws.
Proof.
  intros Hx Hs. apply (Forall_impl _ _ _ Hs). intros w [? ?]. pose proof (ext_num _ _ _ Hx). by split; [lia|].
Qed.

Lemma ext_targets W T cc cc' : ext W cc cc' -> Forall (target cc) T -> Forall (target cc') T.
Proof. intros Hx Hs. apply (Forall_impl _ _ _ Hs). intros w. by apply (ext_target _ _ _ _ Hx). Qed.

Lemma protected_sources T cc w k :
  ok cc -> Forall (target cc) T -> protected cc w -> Forall (source cc T) (replicate k w).
Proof.
  intros Hok HT Hp. apply Forall_replicate, protected_source; [done| |done]. by apply Forall_forall.
Qed.

Lemma source_sub T T' cc ws :
  (forall w, w ∈ T' -> w ∈ T) -> Forall (source cc T) ws -> Forall (source cc T') ws.
Proof. intros HT Hs. apply (Forall_impl _ _ _ Hs). intros w [? ?]. split; [done|]. auto. Qed.

Lemma source_nil T cc ws : Forall (source cc T) ws -> Forall (source cc []) ws.
Proof. apply source_sub. set_solver. Qed.

Lemma zero_pad_ok T cc x y :
  ok cc -> Forall (target cc) T -> Forall (source cc T) x -> Forall (source cc T) y ->
  exists x' y' cc', zero_pad x y cc = (Ok (x', y'), cc') /\ ext [] cc cc' /\
    length x' = Nat.max (length x) (length y) /\ length y' = Nat.max (length x) (length y) /\
    Forall (source cc' T) x' /\ Forall (source cc' T) y' /\
    word (val cc') x' = word (val cc) x /\ word (val cc') y' = word (val cc) y.
Proof.
  intros Hok HT Hx Hy. unfold zero_pad. destruct (Nat.eqb_spec (length x) (length y)) as [E|E].
  { exists x, y, cc. split_and!; try done; lia. }
  destruct (zero_wire_ok cc Hok) as (w & cc' & E0 & Hext & Hp & Hv).
  rewrite (st_bind_ok _ _ _ _ _ E0). eexists _, _, cc'. split; [reflexivity|].
  pose proof (ext_targets _ _ _ _ Hext HT) as HT'.
  split_and!; [done|autorewrite with quil_len; lia|autorewrite with quil_len; lia| | | |].
  1-2: apply Forall_app_2; [by eapply ext_source|apply protected_sources; [apply Hext|done|done]].
  all: rewrite word_app, word_zeros, Z.mul_0_r, Z.add_0_r by done;
    apply (ext_word _ _ _ _ Hext); by eapply source_nil.
Qed.

Lemma shift_left_ok T cc ws size count :
  ok cc -> Forall (target cc) T -> Forall (source cc T) ws ->
  exists rs cc', shift_left ws size count cc = (Ok rs, cc') /\ ext [] cc cc' /\
    length rs = size /\ Forall (source cc' T) rs /\
    (word (val cc') rs = (2 ^ Z.of_nat count * word (val cc) ws) mod 2 ^ Z.of_nat size)%Z.
Proof.
  intros Hok HT Hs. unfold shift_left.
  destruct (zero_wire_ok cc Hok) as (w & cc' & E0 & Hext & Hp & Hv).
  rewrite (st_bind_ok _ _ _ _ _ E0). eexists _, cc'. split; [reflexivity|].
  pose proof (ext_targets _ _ _ _ Hext HT) as HT'.
  pose proof (fun k => protected_sources T cc' w k (ext_ok _ _ _ Hext) HT' Hp) as Hrep.
  assert (Hws : word (val cc') ws = word (val cc) ws) by (apply (ext_word _ _ _ _ Hext); by eapply source_nil).
  destruct (Nat.ltb_spec count size) as [Hlt|Hge]; split_and!; try done.
  - autorewrite with quil_len. rewrite length_take. lia.
  - repeat apply Forall_app_2; try done. apply Forall_take. by eapply ext_source.
  - rewrite !word_app, !word_zeros, length_replicate, Z.mul_0_r, Z.add_0_r, Z.add_0_l by done.
    rewrite word_take, Hws, <- Z.mul_mod_distr_l by lia. f_equal. rewrite <- Z.pow_add_r by lia. f_equal. lia.
  - by autorewrite with quil_len.
  - rewrite word_zeros by done. replace count with (size + (count - size))%nat by lia.
    rewrite Nat2Z.inj_add, Z.pow_add_r, <- Z.mul_assoc, Z.mul_comm by lia. by rewrite Z_mod_mult.
Qed.

(** ** Emitting inverters, identities and adders *)

Lemma emit_inv_ok T cc i o :
  ok cc -> Forall (target cc) T -> o ∈ T -> source cc T i ->
  exists cc', emit_inv i o cc = (Ok tt, cc') /\ ext [o] cc cc' /\ val cc' o = negb (val cc i).
Proof.
  intros Hok HT Ho Hi. unfold emit_inv. destruct (one_wire_ok cc Hok) as (w & cc1 & E0 & Hx & Hp & Hv).
  rewrite (st_bind_ok _ _ _ _ _ E0). rewrite Forall_forall in HT.
  destruct (push_gate_ok cc1 Xor i w o (ext_ok _ _ _ Hx)) as (Ep & Hx2 & Hv2).
  { eapply ext_target; eauto. }
  eexists. split; [exact Ep|]. split.
  - eapply ext_trans; [exact Hx|exact Hx2|]. set_solver.
  - rewrite Hv2, Hv. simpl. rewrite (ext_val _ _ _ Hx); [by destruct (val cc i)|apply Hi|set_solver].
Qed.

Lemma emit_id_ok T cc i o :
  ok cc -> Forall (target cc) T -> o ∈ T -> source cc T i ->
  exists cc', emit_id i o cc = (Ok tt, cc') /\ ext [o] cc cc' /\ val cc' o = val cc i.
Proof.
  intros Hok HT Ho Hi. unfold emit_id. destruct (zero_wire_ok cc Hok) as (w & cc1 & E0 & Hx & Hp & Hv).
  rewrite (st_bind_ok _ _ _ _ _ E0). rewrite Forall_forall in HT.
  destruct (push_gate_ok cc1 Xor i w o (ext_ok _ _ _ Hx)) as (Ep & Hx2 & Hv2).
  { eapply ext_target; eauto. }
  eexists. split; [exact Ep|]. split.
  - eapply ext_trans; [exact Hx|exact Hx2|]. set_solver.
  - rewrite Hv2, Hv. simpl. rewrite (ext_val _ _ _ Hx); [by destruct (val cc i)|apply Hi|set_solver].
Qed.

Lemma new_half_adder_ok cc a b s c :
  ok cc -> target cc s -> target cc c -> s <> c -> source cc [s; c] a -> source cc [s; c] b ->
  exists cc', new_half_adder a b s c cc = (Ok tt, cc') /\ ext [s; c] cc cc' /\
    (Z.b2z (val cc' s) + 2 * Z.b2z (val cc' c) = Z.b2z (val cc a) + Z.b2z (val cc b))%Z.
Proof.
  intros Hok [Hs Ps] [Hc Pc] Hne [Ha Na] [Hb Nb].
  exists (grow cc 0 [new_gate Xor a b s; new_gate And a b c]). split_and!.
  - unfold new_half_adder. by emits.
  - apply grow_ext; [done|]. intros g Hg. left.
    apply elem_of_cons in Hg as [->|Hg%list_elem_of_singleton]; [|subst g]; simpl; (split; [set_solver|done]).
  - rewrite val_grow. simpl. unfold eval_gate; simpl. set_unfold. destruct_and?. eqbs.
    destruct (val cc a), (val cc b); reflexivity.
Qed.

Lemma new_full_adder_ok cc a b cin s c :
  ok cc -> target cc s -> target cc c -> s <> c ->
  source cc [s; c] a -> source cc [s; c] b -> source cc [s; c] cin ->
  exists cc', new_full_adder a b cin s c cc = (Ok tt, cc') /\ ext [s; c] cc cc' /\
    (Z.b2z (val cc' s) + 2 * Z.b2z (val cc' c) =
     Z.b2z (val cc a) + Z.b2z (val cc b) + Z.b2z (val cc cin))%Z.
Proof.
  intros Hok [Hs Ps] [Hc Pc] Hne [Ha Na] [Hb Nb] [Hd Nd]. set (n := num_wires cc).
  exists (grow cc 3 [new_gate Xor a b n; new_gate Xor n cin s; new_gate And a b (S n);
                     new_gate And n cin (S (S n)); new_gate Xor (S n) (S (S n)) c]). split_and!.
  - unfold new_full_adder, n. by emits.
  - apply grow_ext; [done|]. intros g Hg. rewrite !elem_of_cons in Hg.
    destruct Hg as [->|[->|[->|[->|[->|?]]]]]; simpl;
      first [right; lia | left; split; [set_solver|done] | set_solver].
  - rewrite val_grow. simpl. unfold eval_gate; simpl. set_unfold. destruct_and?. fold n in Hs, Hc, Ha, Hb, Hd.
    eqbs. destruct (val cc a), (val cc b), (val cc cin); reflexivity.
Qed.

Lemma slot_ok cc r :
  ok cc -> (forall w, r = Some w -> target cc w) ->
  exists o cc', slot r cc = (Ok o, cc') /\ ext [] cc cc' /\ target cc' o /\
    (forall w, r = Some w -> o = w) /\ (r = None -> num_wires cc <= o).
Proof.
  intros Hok Ht. destruct r as [w|]; simpl.
  - exists w, cc. split_and!; auto; [by apply ext_refl|congruence|done].
  - destruct (alloc_wire_ok cc Hok) as (Ea & Hx & Hw). eexists _, _. split_and!; [exact Ea|..]; try done.
Qed.

(** The wires a result slice already holds, and the slots a generator keeps. *)
Definition given (result : list (option nat)) : list nat := omap id result.
Definition fills (result : list (option nat)) (os : list nat) : Prop :=
  Forall2 (fun r o => forall w, r = Some w -> o = w) result os.

(** Result wires: among [T], allocated since [cc], or a sentinel. *)
Definition made (cc cc' : Compiler) (T : list nat) (o : nat) : Prop :=
  o < num_wires cc' /\ (o ∈ T \/ num_wires cc <= o \/ protected cc' o).

(** One cell of a ripple: the slot [r] and the carry to the next cell. *)
Lemma adder_cell_ok cc x y carry r :
  ok cc -> Forall (target cc) (given [r]) -> Forall (source cc (given [r])) [x; y; carry] ->
  exists nc o cc',
    (forall A (k : nat -> nat -> emit A),
      (new_carry ← alloc_wire; o ← slot r; new_full_adder x y carry o new_carry;; k new_carry o) cc
        = k nc o cc') /\
    ext (given [r]) cc cc' /\ num_wires cc <= nc < num_wires cc' /\ nc <> o /\ o < num_wires cc' /\
    (forall w, r = Some w -> o = w) /\ (r = None -> num_wires cc <= o) /\
    (Z.b2z (val cc' o) + 2 * Z.b2z (val cc' nc) =
     Z.b2z (val cc x) + Z.b2z (val cc y) + Z.b2z (val cc carry))%Z.
Proof.
  intros Hok HT Hs. destruct (alloc_wire_ok cc Hok) as (Ea & Hx1 & Ht1). set (nc := num_wires cc) in *.
  set (cc1 := grow cc 1 []) in *. assert (Hn1 : num_wires cc1 = S nc) by (unfold cc1; rewrite num_grow; lia).
  destruct (slot_ok cc1 r (ext_ok _ _ _ Hx1)) as (o & cc2 & Es & Hx2 & Ht2 & Hsome & Hnone).
  { intros w ->. eapply ext_target; [exact Hx1|]. by inversion HT. }
  assert (Hg : o ∈ given [r] /\ o < nc \/ r = None /\ S nc <= o).
  { destruct r as [w|]; [left|right; split; [done|]; rewrite <- Hn1; auto].
    rewrite (Hsome w eq_refl). inversion HT as [|? ? [? ?]]. split; [set_solver|done]. }
  assert (Hx02 : ext [] cc cc2) by (eapply ext_trans; [exact Hx1|exact Hx2|naive_solver]).
  assert (Hne : o <> nc) by lia.
  assert (Hsrc : Forall (source cc2 [o; nc]) [x; y; carry]).
  { eapply Forall_impl; [exact Hs|]. intros w [Hw Hn]. pose proof (ext_num _ _ _ Hx02).
    split; [lia|]. rewrite not_elem_of_cons, list_elem_of_singleton. split; [|lia].
    intros ->. destruct Hg as [[? ?]|[_ ?]]; [done|lia]. }
  pose proof (ext_target _ _ _ _ Hx2 Ht1) as Ht1'. rewrite !Forall_cons in Hsrc, Hs.
  destruct Hsrc as (Sx & Sy & Sc & _), Hs as ([Lx _] & [Ly _] & [Lc _] & _).
  destruct (new_full_adder_ok cc2 x y carry o nc (ext_ok _ _ _ Hx2) Ht2 Ht1' Hne Sx Sy Sc)
    as (cc3 & Ef & Hx3 & Hv).
  pose proof (ext_num _ _ _ Hx02). pose proof (ext_num _ _ _ Hx3). destruct Ht2 as [? _], Ht1' as [? _].
  exists nc, o, cc3. split_and!; try done; try lia.
  - intros A k. by rewrite (st_bind_ok _ _ _ _ _ Ea), (st_bind_ok _ _ _ _ _ Es), (st_bind_ok _ _ _ _ _ Ef).
  - eapply ext_trans; [exact Hx02|exact Hx3|]. intros w Hw [H'|H']; [set_solver|].
    apply elem_of_cons in H' as [->|H'%list_elem_of_singleton]; [destruct Hg as [[? ?]|[_ ?]]; [done|lia]|lia].
  - intros Er. destruct Hg as [[Hg _]|[_ ?]]; [subst r; set_solver|lia].
  - rewrite Hv, !(ext_val _ _ _ Hx02) by (done || set_solver). done.
Qed.

Lemma b2z_bound b : (0 <= Z.b2z b <= 1)%Z.
Proof. by destruct b. Qed.

Lemma ripple_mod s t k : (0 <= s <= 1 -> (s + 2 * t) mod 2 ^ Z.of_nat (S k) = s + 2 * (t mod 2 ^ Z.of_nat k))%Z.
Proof.
  intros Hs. pose proof (pow2_pos k). rewrite Nat2Z.inj_succ, Z.pow_succ_r by lia.
  rewrite Z.rem_mul_r by lia. rewrite (Z.mul_comm 2 t), Z.mod_add, Z.div_add by lia.
  rewrite (Z.mod_small s), (Z.div_small s) by lia. by rewrite Z.add_0_l.
Qed.

Lemma ripple_div s t k : (0 <= s <= 1 -> (s + 2 * t) / 2 ^ Z.of_nat (S k) = t / 2 ^ Z.of_nat k)%Z.
Proof.
  intros Hs. pose proof (pow2_pos k). rewrite Nat2Z.inj_succ, Z.pow_succ_r by lia.
  rewrite <- Z.div_div by lia. rewrite (Z.mul_comm 2 t), Z.div_add by lia.
  by rewrite (Z.div_small s), Z.add_0_l by lia.
Qed.

Lemma made_later cc cc1 cc' W T T' o :
  ext W cc cc1 -> (forall w, w ∈ T -> w ∈ T' \/ num_wires cc <= w) -> made cc1 cc' T o -> made cc cc' T' o.
Proof.
  intros Hx HT [Hn Ho]. pose proof (ext_num _ _ _ Hx). split; [done|].
  destruct Ho as [Ho|[Ho|Ho]]; [destruct (HT o Ho); auto|right; left; lia|auto].
Qed.

Lemma given_cons r result : given (r :: result) = given [r] ++ given result.
Proof. by destruct r. Qed.

(** The loop of the subtractor (and, below, of the adder): a full ripple addition. *)
Lemma subtractor_loop_ok x : forall y result carry cc,
  ok cc -> length y = length x -> length result <= length x ->
  NoDup (given result) -> Forall (target cc) (given result) ->
  Forall (source cc (given result)) x -> Forall (source cc (given result)) y ->
  source cc (given result) carry ->
  let total := (word (val cc) x + word (val cc) y + Z.b2z (val cc carry))%Z in
  exists os c cc', subtractor_loop x y result carry cc = (Ok (os, c), cc') /\
    ext (given result) cc cc' /\ fills result os /\ Forall (made cc cc' (given result)) os /\
    c < num_wires cc' /\ (c = carry \/ num_wires cc <= c) /\
    (word (val cc') os = total mod 2 ^ Z.of_nat (length result))%Z /\
    (Z.b2z (val cc' c) = total / 2 ^ Z.of_nat (length x))%Z.
Proof.
  induction x as [|xi x IH]; intros y result carry cc Hok Hly Hlr Hnd HT Hx Hy Hc total.
  { destruct y; [|done]. destruct result; [|simpl in Hlr; lia]. exists [], carry, cc.
    subst total; simpl. rewrite Z.div_1_r, Z.mod_1_r.
    split_and!; first [done | by left | apply Hc | constructor]. }
  destruct y as [|yi y]; [done|]. apply Forall_cons in Hx as [Sx Hx], Hy as [Sy Hy].
  set (r := match result with r :: _ => r | [] => None end).
  set (rest := tail result).
  assert (Hgiven : given result = given [r] ++ given rest) by (destruct result; [done|apply given_cons]).
  rewrite Hgiven in *. apply Forall_app in HT as [HT1 HT2]. apply NoDup_app in Hnd as (_ & Hdis & Hnd).
  assert (Hs1 : Forall (source cc (given [r])) [xi; yi; carry]).
  { apply (source_sub (given [r] ++ given rest)); [set_solver|]. by rewrite !Forall_cons. }
  destruct (adder_cell_ok cc xi yi carry r Hok HT1 Hs1)
    as (nc & o & cc1 & Hrun & Hx1 & Hnc & Hne & Ho & Hsome & Hnone & Hv).
  assert (Hsub : forall w, w ∈ given rest -> w ∈ given [r] ++ given rest) by set_solver.
  assert (Hlt : forall w, w ∈ given rest -> w < num_wires cc) by
    (intros w Hw; rewrite Forall_forall in HT2; by apply HT2).
  destruct (IH y rest nc cc1) as (os & c & cc2 & E2 & Hx2 & Hf & Hm & Hc2 & Hc3 & Hw2 & Hd2); try done.
  { apply Hx1. }
  { by injection Hly. }
  { unfold rest. rewrite length_tl. simpl in Hlr. lia. }
  { by eapply ext_targets. }
  { eapply source_sub; [exact Hsub|]. by eapply ext_source. }
  { eapply source_sub; [exact Hsub|]. by eapply ext_source. }
  { split; [lia|]. intros Hin. specialize (Hlt _ Hin). lia. }
  pose proof (ext_num _ _ _ Hx1). pose proof (ext_num _ _ _ Hx2).
  assert (Hx02 : ext (given [r] ++ given rest) cc cc2) by
    (eapply ext_trans; [exact Hx1|exact Hx2|set_solver]).
  assert (Hog : o ∉ given rest).
  { intros Hin. destruct r as [w|]; [|specialize (Hnone eq_refl); specialize (Hlt _ Hin); lia].
    rewrite (Hsome w eq_refl) in Hin. apply (Hdis w); [set_solver|done]. }
  assert (Hin1 : forall w, w ∈ given [r] -> w ∈ given [r] ++ given rest) by set_solver.
  rewrite (ext_word _ _ _ x Hx1 (source_sub _ _ _ _ Hin1 Hx)), (ext_word _ _ _ y Hx1 (source_sub _ _ _ _ Hin1 Hy))
    in Hw2, Hd2.
  assert (Htot : (total = Z.b2z (val cc1 o) + 2 * (word (val cc) x + word (val cc) y + Z.b2z (val cc1 nc)))%Z).
  { unfold total. simpl. lia. }
  assert (Hb : (0 <= Z.b2z (val cc1 o) <= 1)%Z) by (destruct (val cc1 o); simpl; lia).
  exists (match result with _ :: _ => o :: os | [] => os end), c, cc2.
  split.
  { destruct result.
    - etransitivity; [exact (Hrun _ (fun nc _ => subtractor_loop x y [] nc))|exact E2].
    - etransitivity; [exact (Hrun _ (fun nc o => '(os, c) ← subtractor_loop x y rest nc; mret (o :: os, c)))|].
      by rewrite (st_bind_ok _ _ _ _ _ E2). }
  split; [done|]. rewrite Htot. simpl (length (xi :: x)). rewrite ripple_div by done.
  assert (Hmos : Forall (made cc cc2 (given [r] ++ given rest)) os).
  { eapply Forall_impl; [exact Hm|]. intros w. apply (made_later _ _ _ _ _ _ _ Hx1). set_solver. }
  assert (Hc4 : c = carry \/ num_wires cc <= c) by lia. destruct result as [|r' rest'].
  { inversion Hf; subst os. simpl length. rewrite Z.mod_1_r. by split_and!. }
  subst r rest. simpl tail in *. split_and!; try done.
  - by constructor.
  - constructor; [|done]. split; [lia|]. destruct r' as [w|]; [left|right; left; auto].
    rewrite (Hsome w eq_refl). set_solver.
  - simpl word. simpl length. rewrite ripple_mod, Hw2 by done. by rewrite (ext_val _ _ _ Hx2).
Qed.

Lemma st_bind_ext {S A B} (m : st S A) (f g : A -> st S B) s :
  (forall a s', f a s' = g a s') -> (m ≫= f) s = (m ≫= g) s.
Proof. intros H. unfold mbind, st_bind. destruct (m s) as [[] ?]; auto. Qed.

Lemma adder_loop_eq x : forall y result carry cc,
  length y = length x -> length result = length x ->
  adder_loop x y result carry cc = subtractor_loop x y result carry cc.
Proof.
  induction x as [|xi x IH]; intros [|yi y] [|r result] carry cc Hy Hr; try done. simpl.
  do 3 (apply st_bind_ext; intros ? ?). injection Hy as Hy. injection Hr as Hr.
  unfold mbind, st_bind. by rewrite IH.
Qed.

(** Result wires can be read later, by generators that drive other wires. *)
Lemma made_source cc cc' T T' os :
  Forall (target cc) T' -> ext T' cc cc' \/ ext [] cc cc' \/ ext T cc cc' ->
  (forall w, w ∈ T -> w ∉ T') -> Forall (made cc cc' T) os -> Forall (source cc' T') os.
Proof.
  intros HT' Hx Hdis Hm. eapply Forall_impl; [exact Hm|]. intros o [Ho Hk]. split; [done|].
  intros Hin. rewrite Forall_forall in HT'. destruct (HT' o Hin) as [Hlt Hp].
  destruct Hk as [Hk|[Hk|Hk]]; [by apply (Hdis o)|lia|].
  apply Hp. destruct Hx as [Hx|[Hx|Hx]]; by apply (ext_fresh _ _ _ Hx).
Qed.

Lemma finish_result_ok last f cc carry rest :
  (forall T cc i o, ok cc -> Forall (target cc) T -> o ∈ T -> source cc T i ->
    exists cc', last i o cc = (Ok tt, cc') /\ ext [o] cc cc' /\ val cc' o = f (val cc i)) ->
  ok cc -> Forall (target cc) (given rest) -> source cc (given rest) carry ->
  exists os cc', finish_result last carry rest cc = (Ok os, cc') /\ ext (given (take 1 rest)) cc cc' /\
    length os = length rest /\ fills (take 1 rest) (take 1 os) /\ Forall (made cc cc' (given rest)) os /\
    word (val cc') os = match rest with [] => 0%Z | _ => Z.b2z (f (val cc carry)) end.
Proof.
  intros Hlast Hok HT Hc. destruct rest as [|r rest]; unfold finish_result.
  { rewrite (st_bind_ok _ _ cc [] cc) by done.
    destruct (zero_wire_ok cc Hok) as (w & cc' & E0 & Hx & _). rewrite (st_bind_ok _ _ _ _ _ E0).
    exists [], cc'. split_and!; first [done | constructor]. }
  rewrite given_cons in HT, Hc. apply Forall_app in HT as [HT1 HT2].
  destruct (slot_ok cc r Hok) as (o & cc1 & Es & Hx1 & Ht & Hsome & Hnone).
  { intros w ->. by inversion HT1. }
  assert (Hg : o ∈ given [r] \/ num_wires cc <= o).
  { destruct r as [w|]; [left; rewrite (Hsome w eq_refl); set_solver|auto]. }
  destruct (Hlast [o] cc1 carry o) as (cc2 & El & Hx2 & Hv); [apply Hx1|by apply Forall_singleton|set_solver| |].
  { pose proof (ext_num _ _ _ Hx1). destruct Hc as [Hc Hcn]. split; [lia|].
    rewrite list_elem_of_singleton. intros ->. destruct Hg; [set_solver|lia]. }
  rewrite (st_bind_ok _ _ cc [o] cc2) by
    by rewrite (st_bind_ok _ _ _ _ _ Es), (st_bind_ok _ _ _ _ _ El).
  destruct (zero_wire_ok cc2 (ext_ok _ _ _ Hx2)) as (w & cc3 & E0 & Hx3 & Hp & Hv0).
  rewrite (st_bind_ok _ _ _ _ _ E0).
  pose proof (ext_num _ _ _ Hx2). pose proof (ext_num _ _ _ Hx3). destruct Ht as [Ht _].
  eexists _, cc3. split; [reflexivity|]. split_and!.
  - eapply (ext_trans [] [o]); [exact Hx1|eapply (ext_trans [o] [] [o]); [exact Hx2|exact Hx3|set_solver]|].
    intros v Hvv [Hin|Hin]; [set_solver|]. apply list_elem_of_singleton in Hin as ->.
    destruct Hg; [done|lia].
  - simpl. rewrite length_replicate. lia.
  - simpl. rewrite !take_0. by repeat constructor.
  - apply Forall_app_2; [apply Forall_singleton|apply Forall_replicate].
    + split; [lia|]. destruct Hg as [Hg|Hg]; [left; rewrite given_cons; set_solver|auto].
    + split; [apply (ok_range _ (ext_ok _ _ _ Hx3) _ Hp)|auto].
  - rewrite word_app, word_zeros, Z.mul_0_r, Z.add_0_r by done. simpl.
    rewrite (ext_val _ _ _ Hx3), Hv, (ext_val _ _ _ Hx1); [lia|apply Hc|set_solver|lia|set_solver].
Qed.

(** What a generator promises of its result slice; the first [kept] slots keep
    the wires they held. *)
Record delivers (result : list (option nat)) (kept : nat) (cc cc' : Compiler) (os : list nat) : Prop := {
  del_ext : ext (given result) cc cc';
  del_length : length os = length result;
  del_fills : fills (take kept result) (take kept os);
  del_made : Forall (made cc cc' (given result)) os;
}.

Lemma given_app r1 r2 : given (r1 ++ r2) = given r1 ++ given r2.
Proof. apply omap_app. Qed.

(** A ripple over [n] cells, then the carry bit through [last]. *)
Lemma ripple_ok last f cc x y carry result (n := length x) :
  (forall T cc i o, ok cc -> Forall (target cc) T -> o ∈ T -> source cc T i ->
    exists cc', last i o cc = (Ok tt, cc') /\ ext [o] cc cc' /\ val cc' o = f (val cc i)) ->
  ok cc -> length y = n -> NoDup (given result) -> Forall (target cc) (given result) ->
  Forall (source cc (given result)) x -> Forall (source cc (given result)) y ->
  source cc (given result) carry ->
  let total := (word (val cc) x + word (val cc) y + Z.b2z (val cc carry))%Z in
  exists os cc' c,
    ('(os, carry) ← subtractor_loop x y (take n result) carry;
     rest ← finish_result last carry (drop n result); mret (os ++ rest)) cc = (Ok os, cc') /\
    delivers result (S n) cc cc' os /\ (Z.b2z c = total / 2 ^ Z.of_nat n)%Z /\
    (word (val cc') os = total mod 2 ^ Z.of_nat (Nat.min n (length result)) +
       if (n <? length result)%nat then 2 ^ Z.of_nat n * Z.b2z (f c) else 0)%Z.
Proof.
  intros Hlast Hok Hy Hnd HT Sx Sy Sc total.
  pose proof (given_app (take n result) (drop n result)) as Hg. rewrite take_drop in Hg.
  rewrite Hg in *. apply NoDup_app in Hnd as (Hnd & Hdis & _). apply Forall_app in HT as [HT1 HT2].
  set (T1 := given (take n result)) in *. set (T2 := given (drop n result)) in *.
  assert (H1 : forall w, w ∈ T1 -> w ∈ T1 ++ T2) by set_solver.
  assert (H2 : forall w, w ∈ T2 -> w ∈ T1 ++ T2) by set_solver.
  destruct (subtractor_loop_ok x y (take n result) carry cc)
    as (os & c & cc1 & E1 & Hx1 & Hf & Hm & Hc & Hc' & Hw & Hd); try done.
  { rewrite length_take. unfold n. lia. }
  1-2: by eapply source_sub. 1: split; [apply Sc|]; destruct Sc as [_ Sc]; auto.
  fold total in Hw, Hd.
  destruct (finish_result_ok last f cc1 c (drop n result) Hlast) as (os2 & cc2 & E2 & Hx2 & Hl2 & Hf2 & Hm2 & Hw2).
  { apply Hx1. } { by eapply ext_targets. }
  { split; [done|]. intros Hin. rewrite Forall_forall in HT2. destruct (HT2 c Hin), Hc' as [->|?]; [|lia].
    destruct Sc as [_ Sc]. auto. }
  exists (os ++ os2), cc2, (val cc1 c). pose proof (Forall2_length _ _ _ Hf) as Hlen. rewrite length_take in Hlen.
  assert (HT12 : forall w, w ∈ given (take 1 (drop n result)) -> w ∈ T2).
  { intros w Hin. unfold T2. rewrite <- (take_drop 1 (drop n result)), given_app. set_solver. }
  pose proof (ext_num _ _ _ Hx1). pose proof (ext_num _ _ _ Hx2). split; [|split; [|split]].
  - by rewrite (st_bind_ok _ _ _ _ _ E1), (st_bind_ok _ _ _ _ _ E2).
  - split; rewrite ?Hg.
    + eapply ext_trans; [exact Hx1|exact Hx2|]. fold T1 T2. intros w ? [?|?]; [auto|]. set_solver.
    + rewrite length_app, Hl2, length_drop. lia.
    + destruct (decide (n <= length result)).
      * rewrite <- Nat.add_1_r, <- !take_take_drop, take_app_length', drop_app_length' by lia.
        by apply Forall2_app.
      * rewrite drop_ge in Hl2 by lia. destruct os2; [|done]. rewrite app_nil_r.
        rewrite (take_ge result), (take_ge os) by lia. by rewrite take_ge in Hf by lia.
    + apply Forall_app_2.
      * eapply Forall_impl; [exact Hm|]. intros o [Ho Hk]. split; [lia|].
        destruct Hk as [?|[?|?]]; [left; set_solver|auto|]. right; right. by apply Hx2.
      * eapply Forall_impl; [exact Hm2|]. intros o. apply (made_later _ _ _ _ _ _ _ Hx1). set_solver.
  - done.
  - rewrite word_app, Hw2, (word_ext (val cc1)), Hw, length_take, <- Hlen.
    + destruct (Nat.ltb_spec n (length result)).
      * rewrite (Nat.min_l n) by lia. by destruct (drop n result) eqn:Ed; [apply (f_equal length) in Ed; rewrite length_drop in Ed; simpl in Ed; lia|].
      * rewrite drop_ge by lia. by rewrite Z.mul_0_r.
    + intros w Hin. pose proof (made_source _ _ _ T2 _ HT2 (or_intror (or_intror Hx1)) Hdis Hm) as Hs.
      rewrite Forall_forall in Hs. destruct (Hs w Hin). apply (ext_val _ _ _ Hx2); [done|]. auto.
Qed.

Lemma carry_out t n m :
  (0 <= t < 2 ^ Z.of_nat (S n))%Z -> n <= m ->
  (t mod 2 ^ Z.of_nat (Nat.min n m) + (if (n <? m)%nat then 2 ^ Z.of_nat n * (t / 2 ^ Z.of_nat n) else 0)
   = t mod 2 ^ Z.of_nat m)%Z.
Proof.
  intros Ht Hm. rewrite Nat.min_l by done. destruct (Nat.ltb_spec n m); [|by replace m with n by lia; lia].
  pose proof (pow2_pos n). rewrite Z.add_comm, <- Z.div_mod by lia. symmetry. apply Z.mod_small.
  pose proof (Z.pow_le_mono_r 2 (Z.of_nat (S n)) (Z.of_nat m)). lia.
Qed.

Lemma borrow_out X Y c n m :
  (0 <= X < 2 ^ Z.of_nat n -> 0 <= Y < 2 ^ Z.of_nat n ->
   Z.b2z c = (X + (2 ^ Z.of_nat n - 1 - Y) + 1) / 2 ^ Z.of_nat n ->
   (X + (2 ^ Z.of_nat n - 1 - Y) + 1) mod 2 ^ Z.of_nat (Nat.min n m) +
     (if (n <? m)%nat then 2 ^ Z.of_nat n * Z.b2z (negb c) else 0) =
   (X - Y) mod 2 ^ Z.of_nat (Nat.min n m) +
     (if (n <? m)%nat && (X <? Y) then 2 ^ Z.of_nat n else 0))%Z.
Proof.
  intros HX HY Hc. replace (X + (2 ^ Z.of_nat n - 1 - Y) + 1)%Z with (X - Y + 1 * 2 ^ Z.of_nat n)%Z in * by lia.
  pose proof (pow2_pos n). pose proof (pow2_pos (Nat.min n m)). rewrite Z.div_add in Hc by lia. f_equal.
  - replace n with (Nat.min n m + (n - Nat.min n m))%nat at 1 by lia.
    rewrite Nat2Z.inj_add, Z.pow_add_r, Z.mul_1_l, Z.mul_comm by lia. apply Z.mod_add. lia.
  - destruct (n <? m)%nat; [|done]. simpl. destruct (Z.ltb_spec X Y).
    + assert ((X - Y) / 2 ^ Z.of_nat n = -1)%Z by (symmetry; apply (Z.div_unique _ _ _ (X - Y + 2 ^ Z.of_nat n)); lia).
      destruct c; simpl in *; lia.
    + rewrite Z.div_small in Hc by lia. destruct c; simpl in *; lia.
Qed.

(** What a generator requires: distinct result wires that nothing protects, and
    operands [ws] that are not among them. *)
Record ready (cc : Compiler) (result : list (option nat)) (ws : list nat) : Prop := {
  rd_ok : ok cc;
  rd_nodup : NoDup (given result);
  rd_targets : Forall (target cc) (given result);
  rd_sources : Forall (source cc (given result)) ws;
}.

Lemma delivers_after result kept cc cc1 cc' os :
  ext [] cc cc1 -> delivers result kept cc1 cc' os -> delivers result kept cc cc' os.
Proof.
  intros Hx [He Hl Hf Hm]. split; try done.
  - eapply ext_trans; [exact Hx|exact He|set_solver].
  - eapply Forall_impl; [exact Hm|]. intros o. by apply (made_later _ _ _ _ _ _ _ Hx); auto.
Qed.

Lemma new_adder_ok cc x y result :
  ready cc result (x ++ y) -> Nat.max (length x) (length y) <= length result ->
  exists os cc', new_adder x y result cc = (Ok os, cc') /\
    delivers result (S (Nat.max (length x) (length y))) cc cc' os /\
    (word (val cc') os = (word (val cc) x + word (val cc) y) mod 2 ^ Z.of_nat (length result))%Z.
Proof.
  intros [Hok Hnd HT Hs] Hlen. apply Forall_app in Hs as [Sx Sy].
  destruct (zero_pad_ok (given result) cc x y Hok HT Sx Sy)
    as (x' & y' & cc1 & E1 & Hx1 & Lx & Ly & Sx' & Sy' & Wx & Wy).
  destruct (zero_wire_ok cc1 (ext_ok _ _ _ Hx1)) as (c0 & cc2 & E2 & Hx2 & Hp & Hv0).
  assert (Hx02 : ext [] cc cc2) by (eapply ext_trans; [exact Hx1|exact Hx2|set_solver]).
  pose proof (ext_targets _ _ _ _ Hx02 HT) as HT2.
  destruct (ripple_ok emit_id id cc2 x' y' c0 result) as (os & cc3 & c & E3 & Hd & Hc & Hw).
  { intros. by eapply emit_id_ok. } { apply Hx2. } { lia. } { done. } { done. }
  1-2: by apply (ext_source _ _ _ _ _ Hx2).
  { apply protected_source; [apply Hx2|by apply Forall_forall|done]. }
  exists os, cc3. split; [|split].
  - unfold new_adder. rewrite (st_bind_ok _ _ _ _ _ E1). rewrite (proj2 (Nat.ltb_ge _ _)) by lia.
    rewrite (st_bind_ok _ _ _ _ _ E2). rewrite <- E3. unfold mbind at 1 3, st_bind at 1 2.
    by rewrite adder_loop_eq by (rewrite ?length_take; lia).
  - rewrite <- Lx. by apply (delivers_after _ _ _ _ _ _ Hx02).
  - rewrite Hw. unfold id. rewrite Hc.
    rewrite !(ext_word _ _ _ _ Hx2) by (by eapply source_nil). rewrite Wx, Wy, Hv0, Z.add_0_r, Lx.
    pose proof (word_bounds (val cc) x). pose proof (word_bounds (val cc) y).
    apply carry_out; [|lia]. rewrite Nat2Z.inj_succ, Z.pow_succ_r by lia.
    pose proof (Z.pow_le_mono_r 2 (Z.of_nat (length x)) (Z.of_nat (Nat.max (length x) (length y)))).
    pose proof (Z.pow_le_mono_r 2 (Z.of_nat (length y)) (Z.of_nat (Nat.max (length x) (length y)))). lia.
Qed.

Lemma invert_all_ok y : forall cc,
  ok cc -> Forall (source cc []) y ->
  exists ws cc', invert_all y cc = (Ok ws, cc') /\ ext [] cc cc' /\ length ws = length y /\
    Forall (fun w => num_wires cc <= w < num_wires cc') ws /\
    (word (val cc') ws = 2 ^ Z.of_nat (length y) - 1 - word (val cc) y)%Z.
Proof.
  induction y as [|yi y IH]; intros cc Hok Hs.
  { exists [], cc. split_and!; first [done | constructor]. }
  apply Forall_cons in Hs as [Si Hs]. simpl invert_all.
  destruct (alloc_wire_ok cc Hok) as (Ea & Hx1 & Ht). set (w := num_wires cc) in *.
  destruct (emit_inv_ok [w] (grow cc 1 []) yi w) as (cc2 & E2 & Hx2 & Hv2);
    [apply Hx1|by apply Forall_singleton|set_solver| |].
  { pose proof (ext_num _ _ _ Hx1). destruct Si. split; [lia|]. rewrite list_elem_of_singleton. lia. }
  pose proof (ext_alloc_push _ _ _ _ Hok eq_refl Hx1 Hx2) as Hx02.
  destruct (IH cc2) as (ws & cc3 & E3 & Hx3 & Hl & Hr & Hw); [apply Hx2|by apply (ext_source _ _ _ _ _ Hx02)|].
  exists (w :: ws), cc3. pose proof (ext_num _ _ _ Hx1) as Hn1. rewrite num_grow in Hn1.
  pose proof (ext_num _ _ _ Hx2) as Hn2. rewrite num_grow in Hn2. pose proof (ext_num _ _ _ Hx3).
  split_and!.
  - by rewrite (st_bind_ok _ _ _ _ _ Ea), (st_bind_ok _ _ _ _ _ E2), (st_bind_ok _ _ _ _ _ E3).
  - eapply ext_trans; [exact Hx02|exact Hx3|set_solver].
  - simpl. lia.
  - unfold w. constructor; [lia|]. eapply Forall_impl; [exact Hr|]. intros ? [? ?]. lia.
  - simpl word. simpl length. rewrite Nat2Z.inj_succ, Z.pow_succ_r by lia.
    rewrite Hw, (ext_word _ _ _ _ Hx02), (ext_val _ _ _ Hx3), Hv2, (ext_val _ _ _ Hx1)
      by (done || lia || set_solver || apply Si).
    destruct (val cc yi); simpl; lia.
Qed.

Lemma new_subtractor_ok cc x y result (n := Nat.max (length x) (length y)) :
  ready cc result (x ++ y) ->
  let X := word (val cc) x in let Y := word (val cc) y in
  exists os cc', new_subtractor x y result cc = (Ok os, cc') /\ delivers result (S n) cc cc' os /\
    (word (val cc') os = (X - Y) mod 2 ^ Z.of_nat (Nat.min n (length result)) +
       if (n <? length result)%nat && (X <? Y) then 2 ^ Z.of_nat n else 0)%Z.
Proof.
  intros [Hok Hnd HT Hs] X Y. apply Forall_app in Hs as [Sx Sy].
  destruct (zero_pad_ok (given result) cc x y Hok HT Sx Sy)
    as (x' & y' & cc1 & E1 & Hx1 & Lx & Ly & Sx' & Sy' & Wx & Wy). fold n in Lx, Ly.
  destruct (invert_all_ok y' cc1 (ext_ok _ _ _ Hx1)) as (ny & cc2 & E2 & Hx2 & Ln & Hr & Hn);
    [by eapply source_nil|].
  destruct (one_wire_ok cc2 (ext_ok _ _ _ Hx2)) as (c0 & cc3 & E3 & Hx3 & Hp & Hv0).
  assert (Hx02 : ext [] cc cc2) by (eapply ext_trans; [exact Hx1|exact Hx2|set_solver]).
  assert (Hx03 : ext [] cc cc3) by (eapply ext_trans; [exact Hx02|exact Hx3|set_solver]).
  assert (Hx13 : ext [] cc1 cc3) by (eapply ext_trans; [exact Hx2|exact Hx3|set_solver]).
  pose proof (ext_targets _ _ _ _ Hx03 HT) as HT3. pose proof (ext_num _ _ _ Hx3). pose proof (ext_num _ _ _ Hx1).
  assert (Sn : Forall (source cc3 (given result)) ny).
  { eapply Forall_impl; [exact Hr|]. intros w [? ?]. split; [lia|]. rewrite Forall_forall in HT.
    intros Hin. destruct (HT w Hin). lia. }
  destruct (ripple_ok emit_inv negb cc3 x' ny c0 result) as (os & cc4 & c & E4 & Hd & Hc & Hw).
  { intros. by eapply emit_inv_ok. } { apply Hx3. } { lia. } { done. } { done. }
  { by apply (ext_source _ _ _ _ _ Hx13). } { done. }
  { apply protected_source; [apply Hx3|by apply Forall_forall|done]. }
  exists os, cc4. split; [|split].
  - unfold new_subtractor.
    by rewrite (st_bind_ok _ _ _ _ _ E1), (st_bind_ok _ _ _ _ _ E2), (st_bind_ok _ _ _ _ _ E3), E4.
  - rewrite <- Lx. by apply (delivers_after _ _ _ _ _ _ Hx03).
  - rewrite Hw, Lx. clear Hw. rewrite Lx in Hc. revert Hc.
    rewrite (ext_word _ _ _ _ Hx13) by (by eapply source_nil).
    rewrite (ext_word _ _ _ _ Hx3) by (eapply Forall_impl; [exact Hr|]; intros w [? ?]; split; [lia|set_solver]).
    rewrite Hn, Hv0, Wx, Wy, Ly. fold X Y.
    pose proof (word_bounds (val cc1) x') as BX. pose proof (word_bounds (val cc1) y') as BY.
    rewrite Wx, Lx in BX. rewrite Wy, Ly in BY. fold X in BX. fold Y in BY. simpl (Z.b2z true). clear -BX BY.
    intros Hc. by apply borrow_out.
Qed.

(** ** The multiplexer *)

Lemma operand_ok T cc l :
  ok cc -> Forall (target cc) T -> Forall (source cc T) l ->
  exists w cc', operand l cc = (Ok w, cc') /\ ext [] cc cc' /\ source cc' T w /\
    val cc' w = match l with [] => false | w0 :: _ => val cc w0 end.
Proof.
  intros Hok HT Hs. destruct l as [|w l]; simpl.
  - destruct (zero_wire_ok cc Hok) as (w & cc' & E & Hx & Hp & Hv). exists w, cc'. split_and!; try done.
    apply protected_source; [apply Hx| |done]. apply Forall_forall. by eapply ext_targets.
  - apply Forall_cons in Hs as [Hs _]. exists w, cc. by split_and!.
Qed.

Lemma mux_cell_ok cc a b s r :
  ok cc -> Forall (target cc) (given [r]) -> Forall (source cc (given [r])) [a; b; s] ->
  exists o cc',
    (forall A (k : nat -> emit A),
      (t1 ← alloc_wire; push_gate (new_gate Xor a b t1);; t2 ← alloc_wire;
       push_gate (new_gate And t1 s t2);; o ← slot r; push_gate (new_gate Xor a t2 o);; k o) cc = k o cc') /\
    ext (given [r]) cc cc' /\ o < num_wires cc' /\
    (forall w, r = Some w -> o = w) /\ (r = None -> num_wires cc <= o) /\
    val cc' o = if val cc s then val cc b else val cc a.
Proof.
  intros Hok HT Hs. set (n := num_wires cc). rewrite !Forall_cons in Hs.
  destruct Hs as ([Ha Na] & [Hb Nb] & [Hc Nc] & _). fold n in Ha, Hb, Hc.
  set (o := match r with Some w => w | None => S (S n) end).
  set (k := match r with Some _ => 2 | None => 3 end).
  assert (Ho : o ∈ given [r] /\ ~ protected cc o /\ o < n \/ o = S (S n)).
  { destruct r as [w|]; [left|by right]. inversion HT as [|? ? [? ?]]. split; [set_solver|done]. }
  exists o, (grow cc k [new_gate Xor a b n; new_gate And n s (S n); new_gate Xor a (S n) o]).
  assert (Hne : a <> o /\ b <> o /\ s <> o).
  { destruct Ho as [[? ?]|?]; [|lia]. split_and!; intros ->; done. }
  split_and!.
  - intros A f. unfold o, k, n. destruct r; simpl slot; by emits.
  - apply grow_ext; [done|]. intros g Hg. rewrite !elem_of_cons in Hg.
    destruct Hg as [->|[->|[->|?]]]; simpl; try (right; lia); [|set_solver].
    destruct Ho as [(? & ? & ?)|?]; [by left|right; lia].
  - rewrite num_grow. fold n. destruct Ho as [(? & ? & ?)|Ho]; [lia|].
    unfold k. rewrite Ho. destruct r; [|lia]. unfold o in Ho. inversion HT as [|? ? [? ?]]. fold n in H. lia.
  - intros w ->. done.
  - intros ->. unfold o. lia.
  - rewrite val_grow. simpl. unfold eval_gate; simpl. assert (o <> n /\ o <> S n) by (destruct Ho as [(? & ? & ?)|?]; lia).
    eqbs. destruct (val cc a), (val cc b), (val cc s); reflexivity.
Qed.

Lemma delivers_cons r result kept cc cc1 cc' o os :
  ext (given [r]) cc cc1 -> o < num_wires cc1 ->
  (forall w, r = Some w -> o = w) -> (r = None -> num_wires cc <= o) ->
  delivers result kept cc1 cc' os -> delivers (r :: result) (S kept) cc cc' (o :: os).
Proof.
  intros Hx Ho Hsome Hnone [He Hl Hf Hm]. pose proof (ext_num _ _ _ He). split.
  - rewrite given_cons. eapply ext_trans; [exact Hx|exact He|set_solver].
  - simpl. by f_equal.
  - by constructor.
  - rewrite given_cons. constructor.
    + split; [lia|]. destruct r as [w|]; [left; rewrite (Hsome w eq_refl); set_solver|auto].
    + eapply Forall_impl; [exact Hm|]. intros w. apply (made_later _ _ _ _ _ _ _ Hx). set_solver.
Qed.

Lemma word_head v ws : (word v ws = Z.b2z (match ws with [] => false | w :: _ => v w end) + 2 * word v (tail ws))%Z.
Proof. by destruct ws. Qed.

Lemma mux_loop_ok s result : forall a b cc,
  ready cc result (s :: a ++ b) ->
  exists os cc', mux_loop s a b result cc = (Ok os, cc') /\ delivers result (length result) cc cc' os /\
    (word (val cc') os =
     (if val cc s then word (val cc) b else word (val cc) a) mod 2 ^ Z.of_nat (length result))%Z.
Proof.
  induction result as [|r result IH]; intros a b cc [Hok Hnd HT Hs].
  { exists [], cc. simpl. rewrite Z.mod_1_r. split_and!; try done. split; first [done | constructor]. }
  apply Forall_cons in Hs as [Ss [Sa Sb]%Forall_app]. simpl mux_loop.
  destruct (operand_ok _ cc a Hok HT Sa) as (ai & cc1 & E1 & Hx1 & Sai & Vai).
  destruct (operand_ok (given (r :: result)) cc1 b) as (bi & cc2 & E2 & Hx2 & Sbi & Vbi);
    [apply Hx1|by eapply ext_targets|by eapply ext_source|].
  replace (match b with [] => false | w0 :: _ => val cc1 w0 end)
    with (match b with [] => false | w0 :: _ => val cc w0 end) in Vbi by
    (destruct Sb as [|? ? [? ?]]; [done|]; symmetry; apply (ext_val _ _ _ Hx1); [done|set_solver]).
  assert (Hx02 : ext [] cc cc2) by (eapply ext_trans; [exact Hx1|exact Hx2|set_solver]).
  pose proof (ext_targets _ _ _ _ Hx02 HT) as HT'. rewrite given_cons in Hnd, HT'.
  apply Forall_app in HT' as [HT1 HT2]. apply NoDup_app in Hnd as (_ & Hdis & Hnd).
  destruct (mux_cell_ok cc2 ai bi s r) as (o & cc3 & Hrun & Hx3 & Ho & Hsome & Hnone & Vo); [apply Hx2|done| |].
  { apply (source_sub (given (r :: result))); [intros w; rewrite (given_cons r result), elem_of_app; tauto|].
    pose proof (ext_num _ _ _ Hx2). pose proof (ext_num _ _ _ Hx1). rewrite !Forall_cons.
    destruct Sai, Sbi, Ss. split_and!; try done; split; try done; lia. }
  assert (Hin : forall w, w ∈ given [r] \/ w ∈ given result -> w ∈ given (r :: result)) by
    (intros w; rewrite (given_cons r result), elem_of_app; tauto).
  assert (Hx03 : ext (given [r]) cc cc3) by (eapply ext_trans; [exact Hx02|exact Hx3|set_solver]).
  assert (Hs' : Forall (source cc (given (r :: result))) (s :: tail a ++ tail b)).
  { constructor; [done|]. apply Forall_app_2; [by destruct Sa|by destruct Sb]. }
  destruct (IH (tail a) (tail b) cc3) as (os & cc4 & E4 & Hd & Hw).
  { split; [apply Hx3|done|by apply (ext_targets _ _ _ _ Hx3)|].
    eapply source_sub; [|by apply (ext_source _ _ _ _ _ Hx03)]. auto. }
  assert (Hog : o ∉ given result).
  { intros Hin'. destruct r as [w|]; [rewrite (Hsome w eq_refl) in Hin'; apply (Hdis w); [set_solver|done]|].
    rewrite Forall_forall in HT2. destruct (HT2 o Hin'). specialize (Hnone eq_refl). lia. }
  apply (source_sub _ (given [r])) in Hs'; [|auto]. pose proof (ext_num _ _ _ Hx02).
  exists (o :: os), cc4. split_and!.
  - rewrite (st_bind_ok _ _ _ _ _ E1), (st_bind_ok _ _ _ _ _ E2).
    rewrite (Hrun _ (fun o => os ← mux_loop s (tail a) (tail b) result; mret (o :: os))).
    by rewrite (st_bind_ok _ _ _ _ _ E4).
  - eapply delivers_cons; try done. intros Hr. specialize (Hnone Hr). lia.
  - apply Forall_cons in Hs' as [[Hsl Hsn] [Sa' Sb']%Forall_app]. simpl word. simpl length.
    rewrite Hw, !(ext_word _ _ _ _ Hx03), (ext_val _ _ _ (del_ext _ _ _ _ _ Hd)), Vo by done.
    rewrite (ext_val _ _ _ Hx03) by done. rewrite (ext_val _ _ _ Hx02 s) by (done || set_solver).
    rewrite (ext_val _ _ _ Hx2 ai), Vai, Vbi by (apply Sai || set_solver).
    rewrite (word_head _ a), (word_head _ b).
    destruct (val cc s); rewrite ripple_mod by (apply b2z_bound); done.
Qed.

End frame.

Arguments val ρ cc _ : clear implicits.
Arguments ok ρ cc : clear implicits.
Arguments ext ρ W cc cc' : clear implicits.
Arguments ready ρ cc result ws : clear implicits.
Arguments delivers ρ result kept cc cc' os : clear implicits.
