(* ===== verification/MultiplierCorrect.v ===== *)
(** * Correctness of the multipliers

    The array multiplier and the Karatsuba multiplier of
    [circuits/multiplier.rs] both compute the product of their operands modulo
    the width of the result; the recursion of the latter terminates for every
    threshold the public entry point can pass on. *)

From stdpp Require Import sets.
From S2P Require Import Prelude Circuit CircuitCorrect.

Open Scope nat_scope.

Section multiplier.
Context {ρ : assignment}.
Local Abbreviation val := (val ρ).
Local Abbreviation ok := (ok ρ).
Local Abbreviation ext := (ext ρ).
Local Abbreviation ready := (ready ρ).
Local Abbreviation delivers := (delivers ρ).

(** ** Fresh wires *)

Definition fresh (cc cc' : Compiler) (w : nat) : Prop := num_wires cc <= w < num_wires cc'.

Lemma fresh_source cc cc1 T ws :
  Forall (target cc) T -> Forall (fresh cc cc1) ws -> Forall (source cc1 T) ws.
Proof.
  intros HT Hf. eapply Forall_impl; [exact Hf|]. intros w [? ?]. split; [done|].
  rewrite Forall_forall in HT. intros Hin. destruct (HT w Hin). lia.
Qed.

Lemma fresh_ext W cc cc1 cc2 ws : ext W cc1 cc2 -> Forall (fresh cc cc1) ws -> Forall (fresh cc cc2) ws.
Proof.
  intros Hx Hf. pose proof (ext_num _ _ _ Hx). eapply Forall_impl; [exact Hf|]. intros w [? ?]. split; lia.
Qed.

Lemma fresh_later W cc cc1 cc2 ws : ext W cc cc1 -> Forall (fresh cc1 cc2) ws -> Forall (fresh cc cc2) ws.
Proof.
  intros Hx Hf. pose proof (ext_num _ _ _ Hx). eapply Forall_impl; [exact Hf|]. intros w [? ?]. split; lia.
Qed.

(** [ws] can be read while driving [T] and holds [V]. *)
Definition holds (cc : Compiler) (T ws : list nat) (V : Z) : Prop :=
  Forall (source cc T) ws /\ word (val cc) ws = V.

Lemma holds_ext cc cc' T ws V : ext [] cc cc' -> holds cc T ws V -> holds cc' T ws V.
Proof.
  intros Hx [Hs Hw]. split; [by apply (ext_source _ _ _ _ _ Hx)|].
  rewrite (ext_word _ _ _ _ Hx); [done|]. by eapply source_nil.
Qed.

Lemma ext_weaken W W' cc cc' : (forall w, w ∈ W -> w ∈ W') -> ext W cc cc' -> ext W' cc cc'.
Proof. intros HW Hx. eapply ext_trans; [exact Hx|apply (ext_refl []), Hx|]. intros w _ [?|?]; [auto|set_solver]. Qed.

(** ** Array multiplier *)

Lemma and_row_ok x y : forall cc,
  ok cc -> Forall (source cc []) x -> source cc [] y ->
  exists ws cc', and_row x y cc = (Ok ws, cc') /\ ext [] cc cc' /\ length ws = length x /\
    Forall (fresh cc cc') ws /\ (word (val cc') ws = word (val cc) x * Z.b2z (val cc y))%Z.
Proof.
  induction x as [|xn x IH]; intros cc Hok Sx Sy.
  { exists [], cc. split_and!; first [done | constructor]. }
  apply Forall_cons in Sx as [Sn Sx]. simpl and_row.
  destruct (alloc_wire_ok cc Hok) as (Ea & Hx1 & Ht).
  destruct (push_gate_ok _ And xn y _ (ext_ok _ _ _ Hx1) Ht) as (Ep & Hx2 & Hv).
  pose proof (ext_alloc_push _ _ _ _ Hok eq_refl Hx1 Hx2) as Hx02. set (cc2 := grow (grow cc 1 []) 0 _) in *.
  pose proof (ext_num _ _ _ Hx02). pose proof (ext_num _ _ _ Hx1) as Hn. rewrite num_grow in Hn.
  pose proof (ext_num _ _ _ Hx2) as Hn2. rewrite num_grow in Hn2.
  destruct (IH cc2 (ext_ok _ _ _ Hx02)) as (ws & cc3 & E3 & Hx3 & Hl & Hf & Hw).
  { by apply (ext_source _ _ _ _ _ Hx02). }
  { destruct Sy. split; [lia|done]. }
  pose proof (ext_num _ _ _ Hx3). exists (num_wires cc :: ws), cc3. split_and!.
  - by rewrite (st_bind_ok _ _ _ _ _ Ea), (st_bind_ok _ _ _ _ _ Ep), (st_bind_ok _ _ _ _ _ E3).
  - eapply ext_trans; [exact Hx02|exact Hx3|set_solver].
  - simpl. lia.
  - constructor; [split; lia|by apply (fresh_later _ _ _ _ _ Hx02)].
  - simpl word. destruct Sn, Sy. rewrite Hw, (ext_word _ _ _ _ Hx02), !(ext_val _ _ _ Hx02) by done.
    rewrite (ext_val _ _ _ Hx3), Hv, !(ext_val _ _ _ Hx1) by (done || lia || set_solver). simpl.
    destruct (val cc xn), (val cc y); simpl; lia.
Qed.

(** One more full (or half) adder position: the second operand may be missing. *)
Lemma add_position_ok cc a sums carry s c :
  ok cc -> target cc s -> target cc c -> s <> c ->
  source cc [s; c] a -> Forall (source cc [s; c]) sums -> source cc [s; c] carry ->
  exists cc',
    match sums with
    | [] => new_half_adder a carry s c
    | b :: _ => new_full_adder a b carry s c
    end cc = (Ok tt, cc') /\ ext [s; c] cc cc' /\
    (Z.b2z (val cc' s) + 2 * Z.b2z (val cc' c) =
     Z.b2z (val cc a) + Z.b2z (match sums with [] => false | b :: _ => val cc b end) + Z.b2z (val cc carry))%Z.
Proof.
  intros Hok Hs Hc Hne Sa Ss Sc. destruct sums as [|b sums].
  - destruct (new_half_adder_ok cc a carry s c Hok) as (cc' & E & Hx & Hv); try done.
    exists cc'. split_and!; try done. simpl. lia.
  - apply Forall_cons in Ss as [Sb _].
    destruct (new_full_adder_ok cc a b carry s c Hok) as (cc' & E & Hx & Hv); try done. by exists cc'.
Qed.

Lemma layer_rest_ok ands : forall sums carry cc,
  ok cc -> length sums <= length ands ->
  Forall (source cc []) ands -> Forall (source cc []) sums -> source cc [] carry ->
  exists os cc', layer_rest ands sums carry cc = (Ok os, cc') /\ ext [] cc cc' /\
    length os = S (length ands) /\ Forall (fun w => w = carry \/ fresh cc cc' w) os /\
    (word (val cc') os = word (val cc) ands + word (val cc) sums + Z.b2z (val cc carry))%Z.
Proof.
  induction ands as [|a ands IH]; intros sums carry cc Hok Hl Sa Ss Sc.
  { destruct sums; [|simpl in Hl; lia]. exists [carry], cc. split_and!; try done; [|simpl; lia].
    apply Forall_singleton. by left. }
  apply Forall_cons in Sa as [Sa0 Sa]. simpl layer_rest.
  destruct (alloc_wire_ok cc Hok) as (E1 & Hx1 & Ht1). set (cc1 := grow cc 1 []) in *.
  destruct (alloc_wire_ok cc1 (ext_ok _ _ _ Hx1)) as (E2 & Hx2 & Ht2). set (cc2 := grow cc1 1 []) in *.
  assert (Hn1 : num_wires cc1 = S (num_wires cc)) by (unfold cc1; rewrite num_grow; lia).
  assert (Hn2 : num_wires cc2 = S (S (num_wires cc))) by (unfold cc2; rewrite num_grow; lia).
  assert (Hx02 : ext [] cc cc2) by (eapply ext_trans; [exact Hx1|exact Hx2|set_solver]).
  assert (Hin : forall w, source cc [] w -> source cc2 [num_wires cc1; num_wires cc] w).
  { intros w [Hw _]. split; [lia|]. rewrite not_elem_of_cons, list_elem_of_singleton. lia. }
  destruct (add_position_ok cc2 a sums carry (num_wires cc1) (num_wires cc)) as (cc3 & E3 & Hx3 & Hv);
    [apply Hx2|done|by apply (ext_target _ _ _ _ Hx2)|lia|by apply Hin|by eapply Forall_impl|by apply Hin|].
  assert (Hx03 : ext [] cc cc3).
  { eapply ext_trans; [exact Hx02|exact Hx3|]. intros w Hw [?|Hk]; [done|].
    rewrite elem_of_cons, list_elem_of_singleton in Hk. lia. }
  pose proof (ext_num _ _ _ Hx3).
  destruct (IH (tail sums) (num_wires cc) cc3) as (os & cc4 & E4 & Hx4 & Hl4 & Hf & Hw); try done.
  { apply Hx3. } { destruct sums; simpl in *; lia. } { by apply (ext_source _ _ _ _ _ Hx03). }
  { apply (ext_source _ _ _ _ _ Hx03). by destruct Ss. } { split; [lia|set_solver]. }
  pose proof (ext_num _ _ _ Hx4). exists (num_wires cc1 :: os), cc4. split_and!.
  - rewrite (st_bind_ok _ _ _ _ _ E1), (st_bind_ok _ _ _ _ _ E2).
    by rewrite (st_bind_ok _ _ _ _ _ E3), (st_bind_ok _ _ _ _ _ E4).
  - eapply ext_trans; [exact Hx03|exact Hx4|set_solver].
  - simpl. lia.
  - constructor; [right; split; lia|]. eapply Forall_impl; [exact Hf|].
    intros w [->|[? ?]]; right; split; lia.
  - simpl word. rewrite Hw, (ext_val _ _ _ Hx4) by (lia || set_solver).
    rewrite (ext_word _ _ _ _ Hx03), (ext_word _ _ _ (tail sums) Hx03) by (done || by destruct Ss).
    rewrite (word_head _ sums). destruct Sa0, Sc. rewrite !(ext_val _ _ _ Hx02) in Hv by done.
    assert (Hh : match sums with [] => false | b :: _ => val cc2 b end = match sums with [] => false | b :: _ => val cc b end).
    { destruct Ss as [|? ? [? ?]]; [done|]. by apply (ext_val _ _ _ Hx02). }
    rewrite Hh in Hv. lia.
Qed.

(** One intermediate layer drives [zj] and leaves the sums of the next. *)
Lemma middle_layer_ok x yj zj zs sums cc :
  ok cc -> 1 <= length sums <= length x -> Forall (target cc) (zj :: zs) ->
  Forall (source cc (zj :: zs)) x -> source cc (zj :: zs) yj -> Forall (source cc (zj :: zs)) sums ->
  exists ns cc',
    (forall A (k : list nat -> emit A),
      (ands ← and_row x yj;
       match ands, sums with
       | a0 :: ands', s0 :: sums' =>
           cout ← alloc_wire; new_half_adder a0 s0 zj cout;; nsums ← layer_rest ands' sums' cout; k nsums
       | _, _ => index_panic
       end) cc = k ns cc') /\
    ext [zj] cc cc' /\ length ns = length x /\ Forall (source cc' zs) ns /\
    (Z.b2z (val cc' zj) + 2 * word (val cc') ns = word (val cc) sums + word (val cc) x * Z.b2z (val cc yj))%Z.
Proof.
  intros Hok Hls HT Sx Syj Ss.
  destruct (and_row_ok x yj cc Hok) as (ands & cc1 & E1 & Hx1 & La & Fa & Wa);
    [by eapply source_nil|by destruct Syj; split; [|set_solver]|].
  destruct ands as [|a0 ands]; [simpl in La; lia|]. destruct sums as [|s0 sums]; [simpl in Hls; lia|].
  pose proof (fresh_source _ _ _ _ HT Fa) as Sa.
  destruct (alloc_wire_ok cc1 (ext_ok _ _ _ Hx1)) as (E2 & Hx2 & Ht2). set (cc2 := grow cc1 1 []) in *.
  assert (Hx02 : ext [] cc cc2) by (eapply ext_trans; [exact Hx1|exact Hx2|set_solver]).
  pose proof (ext_num _ _ _ Hx1). assert (Hn2 : num_wires cc2 = S (num_wires cc1)) by (unfold cc2; rewrite num_grow; lia).
  pose proof (ext_targets _ _ _ _ Hx02 HT) as HT2. apply Forall_cons in HT2 as [Hzj HT2].
  assert (Hlow : forall w, source cc1 (zj :: zs) w -> source cc2 [zj; num_wires cc1] w).
  { intros w [? Hn]. split; [lia|]. rewrite not_elem_of_cons in Hn.
    rewrite not_elem_of_cons, list_elem_of_singleton. intuition lia. }
  pose proof (ext_source _ _ _ _ _ Hx1 Ss) as Ss1. apply Forall_cons in Sa as [Sa0 Sa], Ss1 as [Ss0 Ss1].
  assert (Hne : zj <> num_wires cc1) by (inversion HT as [|? ? [? ?]]; lia).
  destruct (new_half_adder_ok cc2 a0 s0 zj (num_wires cc1) (ext_ok _ _ _ Hx2) Hzj Ht2 Hne (Hlow _ Sa0) (Hlow _ Ss0))
    as (cc3 & E3 & Hx3 & Hv).
  assert (Sa2 : Forall (source cc2 [zj; num_wires cc1]) ands) by (by eapply Forall_impl).
  assert (Ss2 : Forall (source cc2 [zj; num_wires cc1]) sums) by (by eapply Forall_impl).
  pose proof (ext_num _ _ _ Hx3).
  destruct (layer_rest_ok ands sums (num_wires cc1) cc3 (ext_ok _ _ _ Hx3)) as (ns & cc4 & E4 & Hx4 & L4 & F4 & W4).
  { simpl in *. lia. } 1-2: by eapply source_nil, (ext_source _ _ _ _ _ Hx3). { split; [lia|set_solver]. }
  pose proof (ext_num _ _ _ Hx4).
  assert (Hx04 : ext [zj] cc cc4).
  { eapply (ext_trans [] [zj; num_wires cc1]); [exact Hx02|eapply ext_trans; [exact Hx3|exact Hx4|set_solver]|].
    intros w Hw [?|Hk]; [set_solver|].
    rewrite elem_of_cons, list_elem_of_singleton in Hk. destruct Hk as [->|?]; [set_solver|lia]. }
  exists ns, cc4. split_and!.
  - intros A k. rewrite (st_bind_ok _ _ _ _ _ E1), (st_bind_ok _ _ _ _ _ E2).
    by rewrite (st_bind_ok _ _ _ _ _ E3), (st_bind_ok _ _ _ _ _ E4).
  - done.
  - simpl in *. lia.
  - apply (fresh_source cc); [by inversion HT|]. eapply Forall_impl; [exact F4|]. intros w [->|[? ?]]; split; lia.
  - rewrite W4, (ext_val _ _ _ Hx4) by (destruct Hzj; lia || set_solver). rewrite !(ext_word _ _ _ _ Hx3) by done.
    rewrite <- Wa. simpl word. destruct Sa0, Ss0.
    rewrite !(ext_val _ _ _ Hx2) in Hv by (done || set_solver).
    rewrite !(ext_word _ _ _ _ Hx2) by (by eapply source_nil).
    apply source_nil, Forall_cons in Ss as [[? ?] Ss']. rewrite (ext_word _ _ _ _ Hx1 Ss').
    rewrite (ext_val _ _ _ Hx1 s0) in Hv by done. lia.
Qed.

Lemma middle_layers_ok x ys : forall zs sums cc,
  ok cc -> 1 <= length sums <= length x -> length ys <= length zs ->
  NoDup zs -> Forall (target cc) zs ->
  Forall (source cc zs) x -> Forall (source cc zs) ys -> Forall (source cc zs) sums ->
  exists sums' cc', middle_layers x ys zs sums cc = (Ok sums', cc') /\
    ext (take (length ys) zs) cc cc' /\ 1 <= length sums' <= length x /\
    Forall (source cc' (drop (length ys) zs)) sums' /\
    (word (val cc') (take (length ys) zs) + 2 ^ Z.of_nat (length ys) * word (val cc') sums' =
     word (val cc) sums + word (val cc) x * word (val cc) ys)%Z.
Proof.
  induction ys as [|yj ys IH]; intros zs sums cc Hok Hls Hlz Hnd HT Sx Sy Ss.
  { exists sums, cc. simpl. split_and!; try done; lia. }
  destruct zs as [|zj zs]; [simpl in Hlz; lia|]. simpl in Hlz. apply Forall_cons in Sy as [Syj Sy].
  destruct (middle_layer_ok x yj zj zs sums cc Hok Hls HT Sx Syj Ss) as (ns & cc1 & Hrun & Hx1 & Ln & Sn & Wn).
  apply NoDup_cons in Hnd as [Hnz Hnd].
  assert (Hsub : forall w, w ∈ zs -> w ∈ zj :: zs) by set_solver.
  assert (Hzj : forall w, w ∈ [zj] -> w ∈ zj :: zs) by set_solver.
  destruct (IH zs ns cc1) as (sums' & cc2 & E2 & Hx2 & L2 & S2 & W2); try done.
  { apply Hx1. } { simpl in *. lia. } { lia. } { apply (ext_targets _ _ _ _ Hx1). by inversion HT. }
  1-2: eapply source_sub; [exact Hsub|by apply (ext_source _ _ _ _ _ Hx1)].
  exists sums', cc2. split_and!; try done; try lia.
  - etransitivity; [exact (Hrun _ (middle_layers x ys zs))|exact E2].
  - eapply ext_trans; [exact Hx1|exact Hx2|]. simpl. set_solver.
  - cbn [take word length]. rewrite Nat2Z.inj_succ, Z.pow_succ_r by lia.
    rewrite (ext_word _ _ _ _ Hx1 (source_sub _ _ _ _ Hzj Sx)), (ext_word _ _ _ _ Hx1 (source_sub _ _ _ _ Hzj Sy)) in W2.
    rewrite (ext_val _ _ _ Hx2 zj); [nia| |].
    + pose proof (ext_num _ _ _ Hx1). inversion HT as [|? ? [? ?]]. lia.
    + intros Hin. apply Hnz. by apply elem_of_take in Hin as (? & ?%list_elem_of_lookup_2 & ?).
Qed.

Definition opt_bit (v : assignment) (w : option nat) : bool := match w with Some w => v w | None => false end.

(** A position of the final layer, once its AND wire [a] exists. *)
Definition final_position (a : nat) (sums : list nat) (carry : option nat) (zi cout : nat) : emit unit :=
  match carry, sums with
  | None, [] => index_panic
  | None, s :: _ => new_half_adder a s zi cout
  | Some c, [] => new_half_adder a c zi cout
  | Some c, s :: _ => new_full_adder a s c zi cout
  end.

Lemma final_position_ok cc a sums carry s c :
  ok cc -> target cc s -> target cc c -> s <> c -> (carry = None -> sums <> []) ->
  source cc [s; c] a -> Forall (source cc [s; c]) sums -> Forall (source cc [s; c]) (given [carry]) ->
  exists cc', final_position a sums carry s c cc = (Ok tt, cc') /\ ext [s; c] cc cc' /\
    (Z.b2z (val cc' s) + 2 * Z.b2z (val cc' c) =
     Z.b2z (val cc a) + Z.b2z (opt_bit (val cc) (head sums)) + Z.b2z (opt_bit (val cc) carry))%Z.
Proof.
  intros Hok Hs Hc Hne Hn Sa Ss Sc. destruct carry as [c0|].
  - apply Forall_cons in Sc as [Sc _]. destruct (add_position_ok cc a sums c0 s c Hok Hs Hc Hne Sa Ss Sc) as (cc' & E & Hx & Hv); try done.
    exists cc'. split_and!; [by destruct sums|done|]. rewrite Hv. by destruct sums.
  - destruct sums as [|s0 sums]; [by destruct Hn|]. apply Forall_cons in Ss as [Ss0 _].
    destruct (new_half_adder_ok cc a s0 s c Hok) as (cc' & E & Hx & Hv); try done.
    exists cc'. split_and!; [done|done|]. simpl. lia.
Qed.

Lemma and_wire_ok cc a b :
  ok cc -> source cc [] a -> source cc [] b ->
  exists cc', (forall A (k : nat -> emit A),
      (w ← alloc_wire; push_gate (new_gate And a b w);; k w) cc = k (num_wires cc) cc') /\
    ext [] cc cc' /\ num_wires cc' = S (num_wires cc) /\
    val cc' (num_wires cc) = val cc a && val cc b.
Proof.
  intros Hok [Ha _] [Hb _]. exists (grow cc 1 [new_gate And a b (num_wires cc)]). split_and!.
  - intros A k. by emits.
  - apply grow_ext; [done|]. intros g ->%list_elem_of_singleton. right. simpl. lia.
  - rewrite num_grow. lia.
  - rewrite val_grow. simpl. unfold eval_gate. simpl. by rewrite Nat.eqb_refl.
Qed.

(** One column of the final layer, its carry going to the slot [co]. *)
Lemma final_cell_ok cc xn yj sums carry zi co :
  ok cc -> NoDup (zi :: given [co]) -> Forall (target cc) (zi :: given [co]) -> (carry = None -> sums <> []) ->
  Forall (source cc (zi :: given [co])) (xn :: yj :: sums ++ given [carry]) ->
  exists o cc',
    (forall A (k : nat -> emit A),
      (and_ ← alloc_wire; push_gate (new_gate And xn yj and_);; cout ← slot co;
       final_position and_ sums carry zi cout;; k cout) cc = k o cc') /\
    ext (zi :: given [co]) cc cc' /\ (forall w, co = Some w -> o = w) /\ (co = None -> fresh cc cc' o) /\
    (Z.b2z (val cc' zi) + 2 * Z.b2z (val cc' o) =
     Z.b2z (val cc xn && val cc yj) + Z.b2z (opt_bit (val cc) (head sums)) + Z.b2z (opt_bit (val cc) carry))%Z.
Proof.
  intros Hok Hnd HT Hc Hs. apply Forall_cons in HT as [Hzi HT]. rewrite !Forall_cons, Forall_app in Hs.
  destruct Hs as ([Hx Nx] & [Hy Ny] & Ss & Sc). apply NoDup_cons in Hnd as [Hnz _].
  destruct (and_wire_ok cc xn yj Hok) as (cc1 & Hrun & Hx1 & Hn1 & Va); [by split; [|set_solver]..|].
  destruct (slot_ok cc1 co (ext_ok _ _ _ Hx1)) as (o & cc2 & E2 & Hx2 & Ho & Hsome & Hnone).
  { intros w ->. apply (ext_target _ _ _ _ Hx1). by inversion HT. }
  assert (Hx02 : ext [] cc cc2) by (eapply ext_trans; [exact Hx1|exact Hx2|set_solver]).
  pose proof (ext_num _ _ _ Hx2). pose proof (ext_target _ _ _ _ Hx02 Hzi) as Hzi2. destruct Hzi as [Hzi _].
  assert (Hg : o ∈ given [co] /\ o < num_wires cc \/ co = None /\ num_wires cc1 <= o).
  { destruct co as [w|]; [left|auto]. rewrite (Hsome w eq_refl). inversion HT as [|? ? [? ?]].
    split; [set_solver|done]. }
  assert (Hne : zi <> o) by (intros ->; destruct Hg as [[? ?]|[? ?]]; [done|lia]).
  assert (Hsrc : forall w, source cc (zi :: given [co]) w -> source cc2 [zi; o] w).
  { intros w [Hw Hn]. split; [lia|]. rewrite not_elem_of_cons in *. rewrite list_elem_of_singleton.
    split; [tauto|]. intros ->. destruct Hg as [[? ?]|[? ?]]; [tauto|lia]. }
  destruct (final_position_ok cc2 (num_wires cc) sums carry zi o (ext_ok _ _ _ Hx2) Hzi2 Ho Hne Hc)
    as (cc3 & E3 & Hx3 & Hv).
  { split; [lia|]. rewrite not_elem_of_cons, list_elem_of_singleton. destruct Hg as [[? ?]|[? ?]]; lia. }
  1-2: by eapply Forall_impl.
  exists o, cc3. pose proof (ext_num _ _ _ Hx3). destruct Ho as [Ho _]. split_and!; try done.
  - intros A k. rewrite Hrun. by rewrite (st_bind_ok _ _ _ _ _ E2), (st_bind_ok _ _ _ _ _ E3).
  - eapply ext_trans; [exact Hx02|exact Hx3|]. intros w Hw [?|Hk]; [set_solver|].
    rewrite elem_of_cons, list_elem_of_singleton in Hk.
    destruct Hk as [->| ->]; [set_solver|]. destruct Hg as [[? ?]|[? ?]]; [set_solver|lia].
  - intros E. specialize (Hnone E). split; lia.
  - assert (Hb : forall w, Forall (source cc (zi :: given [co])) (given [w]) ->
      opt_bit (val cc2) w = opt_bit (val cc) w).
    { intros [w|] Hw; [|done]. apply Forall_cons in Hw as [[? _] _].
      apply (ext_val _ _ _ Hx02); [done|set_solver]. }
    assert (Sh : Forall (source cc (zi :: given [co])) (given [head sums])) by (destruct Ss; by constructor).
    rewrite Hv, (Hb carry Sc), (Hb _ Sh). rewrite (ext_val _ _ _ Hx2), Va; [done|lia|apply not_elem_of_nil].
Qed.

(** Past the end of the result the final layer only allocates. *)
Lemma final_layer_idle x yj : forall sums carry cc,
  ok cc -> exists cc', final_layer x yj sums [] carry cc = (Ok tt, cc') /\ ext [] cc cc'.
Proof.
  induction x as [|xn x IH]; intros sums carry cc Hok; [exists cc; by split; [|apply ext_refl]|].
  set (cc1 := grow cc 2 [new_gate And xn yj (num_wires cc)]).
  assert (Hx1 : ext [] cc cc1).
  { apply grow_ext; [done|]. intros g ->%list_elem_of_singleton. right. simpl. lia. }
  destruct (IH (tail sums) (Some (S (num_wires cc))) cc1 (ext_ok _ _ _ Hx1)) as (cc2 & E2 & Hx2).
  exists cc2. split; [|eapply ext_trans; [exact Hx1|exact Hx2|set_solver]].
  rewrite <- E2. simpl final_layer. destruct x; by emits.
Qed.

Lemma final_column_ok xn x yj sums zi zs carry cc
    (co := match x, zs with [], zc :: _ => Some zc | _, _ => None end) :
  ok cc -> (carry = None -> sums <> []) -> NoDup (zi :: zs) -> Forall (target cc) (zi :: zs) ->
  Forall (source cc (zi :: zs)) (xn :: yj :: sums ++ given [carry]) ->
  exists o cc',
    final_layer (xn :: x) yj sums (zi :: zs) carry cc = final_layer x yj (tail sums) zs (Some o) cc' /\
    ext (zi :: given [co]) cc cc' /\ (forall w, co = Some w -> o = w) /\ (co = None -> fresh cc cc' o) /\
    (Z.b2z (val cc' zi) + 2 * Z.b2z (val cc' o) =
     Z.b2z (val cc xn && val cc yj) + Z.b2z (opt_bit (val cc) (head sums)) + Z.b2z (opt_bit (val cc) carry))%Z.
Proof.
  intros Hok Hc Hnd HT Hs.
  assert (Hco : given [co] = [] \/ exists zc zs', zs = zc :: zs' /\ given [co] = [zc]).
  { unfold co. destruct x; [|by left]. destruct zs as [|zc zs']; [by left|right]. by exists zc, zs'. }
  destruct (final_cell_ok cc xn yj sums carry zi co Hok) as (o & cc' & Hrun & H); try done.
  - destruct Hco as [->|(zc & zs' & -> & ->)]; [apply NoDup_singleton|].
    apply NoDup_cons in Hnd as [Hn _]. apply NoDup_cons; split; [set_solver|apply NoDup_singleton].
  - destruct Hco as [->|(zc & zs' & -> & ->)]; rewrite !Forall_cons in *; intuition; apply Forall_nil_2.
  - eapply source_sub; [|exact Hs]. destruct Hco as [->|(zc & zs' & -> & ->)]; set_solver.
  - exists o, cc'. split; [|done]. rewrite <- (Hrun _ (fun o => final_layer x yj (tail sums) zs (Some o))).
    unfold co. by destruct x, zs.
Qed.

Lemma word_uncons v ws : (word v ws = Z.b2z (opt_bit v (head ws)) + 2 * word v (tail ws))%Z.
Proof. by destruct ws. Qed.

Lemma word_single v ws : length ws <= 1 -> word v ws = Z.b2z (opt_bit v (head ws)).
Proof. destruct ws as [|w [|? ?]]; simpl; [done|lia|lia]. Qed.

Lemma final_layer_ok yj x : forall xn sums zs carry cc,
  ok cc -> length sums <= S (length x) -> (carry = None -> sums <> []) ->
  NoDup zs -> Forall (target cc) zs ->
  Forall (source cc zs) (xn :: x) -> source cc zs yj -> Forall (source cc zs) sums ->
  Forall (source cc zs) (given [carry]) ->
  exists cc', final_layer (xn :: x) yj sums zs carry cc = (Ok tt, cc') /\
    ext (take (S (S (length x))) zs) cc cc' /\
    (word (val cc') (take (S (S (length x))) zs) =
     (word (val cc) (xn :: x) * Z.b2z (val cc yj) + word (val cc) sums + Z.b2z (opt_bit (val cc) carry))
       mod 2 ^ Z.of_nat (length zs))%Z.
Proof.
  induction x as [|x1 x IH]; intros xn sums zs carry cc Hok Hl Hc Hnd HT Sx Sy Ss Sc.
  all: destruct zs as [|zi zs];
    [match goal with |- context [final_layer ?l] =>
       destruct (final_layer_idle l yj sums carry cc Hok) as (cc' & E & Hx) end;
     exists cc'; split_and!; try done; simpl; by rewrite Z.mod_1_r|].
  all: apply Forall_cons in Sx as [Sxn Sx].
  all: assert (Hs : Forall (source cc (zi :: zs)) (xn :: yj :: sums ++ given [carry])) by
    (rewrite !Forall_cons, Forall_app; done).
  all: assert (Hb : (Z.b2z (val cc xn && val cc yj) = Z.b2z (val cc xn) * Z.b2z (val cc yj))%Z) by
    (destruct (val cc xn), (val cc yj); done).
  - destruct (final_column_ok xn [] yj sums zi zs carry cc Hok Hc Hnd HT Hs) as (o & cc1 & E & Hx & Ho & Hf & Hv).
    exists cc1. split_and!; [done|eapply ext_weaken; [|exact Hx]; destruct zs; simpl; set_solver|].
    rewrite (word_single _ sums) by done. cbn [word].
    replace ((Z.b2z (val cc xn) + 2 * 0) * Z.b2z (val cc yj))%Z with (Z.b2z (val cc xn && val cc yj)) by lia.
    rewrite <- Hv. destruct zs as [|zc zs]; cbn [length take word].
    + rewrite ripple_mod by apply b2z_bound. by rewrite Z.mod_1_r.
    + rewrite (Ho zc eq_refl) in *. rewrite take_0. cbn [word]. rewrite Z.mul_0_r, Z.add_0_r. symmetry. apply Z.mod_small.
      pose proof (b2z_bound (val cc1 zi)). pose proof (b2z_bound (val cc1 zc)). pose proof (pow2_pos (length zs)).
      rewrite !Nat2Z.inj_succ, !Z.pow_succ_r by lia. lia.
  - destruct (final_column_ok xn (x1 :: x) yj sums zi zs carry cc Hok Hc Hnd HT Hs) as (o & cc1 & E & Hx & _ & Hf & Hv).
    destruct (Hf eq_refl) as [Ho1 Ho2]. simpl given in Hx.
    apply NoDup_cons in Hnd as [Hnz Hnd].
    assert (Hsub : forall w, w ∈ zs -> w ∈ zi :: zs) by set_solver.
    assert (Hzi : forall w, w ∈ [zi] -> w ∈ zi :: zs) by set_solver.
    pose proof (fun ws H => source_sub _ _ _ ws Hsub (ext_source _ _ _ _ ws Hx H)) as Hmove.
    destruct (IH x1 (tail sums) zs (Some o) cc1) as (cc2 & E2 & Hx2 & W2); try done.
    { apply Hx. } { destruct sums; simpl in *; lia. } { apply (ext_targets _ _ _ _ Hx). by inversion HT. }
    { by apply Hmove. } { apply (Forall_inv (l := [])), Hmove. by apply Forall_singleton. }
    { apply Hmove. by destruct Ss. } { apply Forall_singleton. split; [done|]. intros Hin.
      rewrite Forall_forall in HT. destruct (HT o (Hsub _ Hin)). lia. }
    exists cc2. split_and!.
    + by rewrite E.
    + eapply ext_trans; [exact Hx|exact Hx2|]. cbn [length take]. set_solver.
    + assert (Hz : val cc2 zi = val cc1 zi).
      { apply (ext_val _ _ _ Hx2).
        - pose proof (ext_num _ _ _ Hx). inversion HT as [|? ? [? ?]]. lia.
        - intros Hin. apply Hnz. by apply subseteq_take in Hin. }
      assert (St : Forall (source cc [zi]) (tail sums)) by (eapply source_sub; [exact Hzi|]; by destruct Ss).
      rewrite (ext_word _ _ _ _ Hx (source_sub _ _ _ _ Hzi Sx)), (ext_word _ _ _ _ Hx St) in W2.
      rewrite (ext_val _ _ _ Hx yj) in W2 by (destruct Sy; set_solver).
      change (take (S (S (length (x1 :: x)))) (zi :: zs)) with (zi :: take (S (S (length x))) zs).
      change (word (val cc2) (zi :: take (S (S (length x))) zs)) with
        (Z.b2z (val cc2 zi) + 2 * word (val cc2) (take (S (S (length x))) zs))%Z.
      rewrite W2, Hz, (word_uncons _ sums). change (length (zi :: zs)) with (S (length zs)).
      rewrite <- ripple_mod by apply b2z_bound. f_equal.
      change (word (val cc) (xn :: x1 :: x)) with (Z.b2z (val cc xn) + 2 * word (val cc) (x1 :: x))%Z.
      change (opt_bit (val cc1) (Some o)) with (val cc1 o). lia.
Qed.

Lemma word_cons v w ws : word v (w :: ws) = (Z.b2z (v w) + 2 * word v ws)%Z.
Proof. done. Qed.

Lemma word_1 v w : word v [w] = Z.b2z (v w).
Proof. simpl. lia. Qed.

Lemma split_mod A P j d :
  (0 <= A < 2 ^ Z.of_nat j ->
   (A + 2 ^ Z.of_nat j * P) mod 2 ^ Z.of_nat (j + d) = A + 2 ^ Z.of_nat j * (P mod 2 ^ Z.of_nat d))%Z.
Proof.
  intros HA. pose proof (pow2_pos j). pose proof (pow2_pos d). rewrite Nat2Z.inj_add, Z.pow_add_r by lia.
  rewrite Z.rem_mul_r by lia. rewrite (Z.mul_comm (2 ^ Z.of_nat j) P), Z.mod_add, Z.div_add by lia.
  by rewrite (Z.mod_small A), (Z.div_small A), Z.add_0_l by lia.
Qed.

Lemma array_arith x0 xr y0 ys yl W1 S0 k d :
  (0 <= x0 * y0 <= 1 -> 0 <= W1 < 2 ^ Z.of_nat k ->
   W1 + 2 ^ Z.of_nat k * S0 = xr * y0 + (x0 + 2 * xr) * ys ->
   x0 * y0 + 2 ^ Z.of_nat 1 * (W1 + 2 ^ Z.of_nat k * (((x0 + 2 * xr) * yl + S0 + 0) mod 2 ^ Z.of_nat d)) =
   ((x0 + 2 * xr) * (y0 + 2 * (ys + 2 ^ Z.of_nat k * yl))) mod 2 ^ Z.of_nat (S k + d))%Z.
Proof.
  intros H0 H1 E. rewrite Z.add_0_r. change (2 ^ Z.of_nat 1)%Z with 2%Z.
  transitivity ((x0 * y0 + 2 * W1 + 2 ^ Z.of_nat (S k) * ((x0 + 2 * xr) * yl + S0)) mod 2 ^ Z.of_nat (S k + d))%Z.
  - rewrite split_mod; rewrite Nat2Z.inj_succ, Z.pow_succ_r by lia; [ring|lia].
  - f_equal. rewrite Nat2Z.inj_succ, Z.pow_succ_r by lia.
    replace (x0 * y0 + 2 * W1 + 2 * 2 ^ Z.of_nat k * ((x0 + 2 * xr) * yl + S0))%Z
      with (x0 * y0 + 2 * (W1 + 2 ^ Z.of_nat k * S0) + 2 * 2 ^ Z.of_nat k * (x0 + 2 * xr) * yl)%Z by ring.
    rewrite E. ring.
Qed.

Lemma in_take_drop k (z : list nat) w : NoDup z -> w ∈ take k z -> w ∉ drop k z.
Proof. intros Hnd. rewrite <- (take_drop k z) in Hnd. apply NoDup_app in Hnd as (_ & Hd & _). apply Hd. Qed.

Lemma last_removelast (y : nat) (ys : list nat) : removelast (ys ++ [y]) = ys /\ List.last (ys ++ [y]) 0 = y.
Proof. split; [apply List.removelast_last|apply List.last_last]. Qed.

(** The layers on operands of [k + 2] wires. *)
Lemma array_layers_ok cc x0 xr y0 ys yl z0 zs (k := length ys) (x := x0 :: xr) (z := z0 :: zs) :
  ok cc -> length xr = S k -> S k <= length zs -> NoDup z -> Forall (target cc) z ->
  Forall (source cc z) x -> Forall (source cc z) (y0 :: ys ++ [yl]) ->
  exists sums sums' cc1 cc2 cc3 cc4,
    push_gate (new_gate And x0 y0 z0) cc = (Ok tt, cc1) /\ and_row xr y0 cc1 = (Ok sums, cc2) /\
    middle_layers x ys zs sums cc2 = (Ok sums', cc3) /\
    final_layer x yl sums' (drop k zs) None cc3 = (Ok tt, cc4) /\
    ext z cc cc4 /\
    (word (val cc4) (take (2 * (k + 2)) z) =
     (word (val cc) x * word (val cc) (y0 :: ys ++ [yl])) mod 2 ^ Z.of_nat (length z))%Z.
Proof.
  intros Hok Lx Lz Hnd HT Sx Sy.
  assert (Hz0 : forall w, w ∈ [z0] -> w ∈ z) by (unfold z; set_solver).
  assert (Hzs : forall w, w ∈ zs -> w ∈ z) by (unfold z; set_solver).
  assert (HTz : target cc z0 /\ Forall (target cc) zs) by (by apply Forall_cons in HT).
  destruct HTz as [Ht0 HTs]. apply NoDup_cons in Hnd as [Hn0 Hnd].
  destruct (push_gate_ok cc And x0 y0 z0 Hok Ht0) as (E1 & Hx1 & V1). set (cc1 := grow cc 0 _) in *.
  pose proof (fun ws H => ext_word _ _ _ ws Hx1 (source_sub _ _ _ _ Hz0 H)) as Hw1.
  pose proof (fun ws H => source_sub _ _ _ ws Hzs (ext_source _ _ _ _ _ Hx1 H)) as Hs1.
  assert (Sy0 : Forall (source cc z) [y0]) by (inversion Sy; by apply Forall_singleton).
  assert (Sxr : Forall (source cc z) xr) by (by inversion Sx).
  assert (Sys : Forall (source cc z) (ys ++ [yl])) by (by inversion Sy).
  destruct (and_row_ok xr y0 cc1 (ext_ok _ _ _ Hx1)) as (sums & cc2 & E2 & Hx2 & L2 & F2 & W2).
  { eapply source_nil, Hs1, Sxr. } { apply (Forall_inv (l := [])), (source_nil zs), Hs1, Sy0. }
  assert (Hx02 : ext [z0] cc cc2) by (eapply ext_trans; [exact Hx1|exact Hx2|set_solver]).
  pose proof (fun ws H => ext_word _ _ _ ws Hx02 (source_sub _ _ _ _ Hz0 H)) as Hw2.
  pose proof (fun ws H => source_sub _ _ _ ws Hzs (ext_source _ _ _ _ _ Hx02 H)) as Hs2.
  apply Forall_app in Sys as [Sys Syl].
  destruct (middle_layers_ok x ys zs sums cc2 (ext_ok _ _ _ Hx2)) as (sums' & cc3 & E3 & Hx3 & L3 & S3 & W3).
  { unfold x. simpl. lia. } { fold k. lia. } { done. } { by apply (ext_targets _ _ _ _ Hx02). }
  { by apply Hs2. } { by apply Hs2. } { apply (fresh_source cc1); [by apply (ext_targets _ _ _ _ Hx1)|done]. }
  fold k in Hx3, S3, W3.
  set (D := drop k zs) in *. assert (HD : forall w, w ∈ D -> w ∈ zs) by (apply subseteq_drop).
  assert (Htk : forall w, w ∈ take k zs -> w ∈ zs) by (apply subseteq_take).
  assert (Hx03 : ext (z0 :: take k zs) cc cc3) by (eapply ext_trans; [exact Hx02|exact Hx3|set_solver]).
  assert (Hin3 : forall w, w ∈ z0 :: take k zs -> w ∈ z) by (unfold z; set_solver).
  pose proof (fun ws H => ext_word _ _ _ ws Hx03 (source_sub _ _ _ _ Hin3 H)) as Hw3.
  assert (Hs3 : forall ws, Forall (source cc z) ws -> Forall (source cc3 D) ws).
  { intros ws Hws. eapply source_sub; [|by apply (ext_source _ _ _ _ _ Hx03)]. auto. }
  destruct (final_layer_ok yl xr x0 sums' D None cc3 (ext_ok _ _ _ Hx3)) as (cc4 & E4 & Hx4 & W4).
  { unfold x in L3. simpl in L3. lia. } { intros _ ->. simpl in L3. lia. }
  { rewrite <- (take_drop k zs) in Hnd. by apply NoDup_app in Hnd as (_ & _ & ?). }
  { apply (ext_targets _ _ _ _ Hx03), Forall_drop, HTs. }
  { by apply Hs3. } { by apply (Forall_inv (l := [])), Hs3. } { done. } { constructor. }
  assert (HtD : forall w, w ∈ take (S (S (length xr))) D -> w ∈ D) by (apply subseteq_take).
  exists sums, sums', cc1, cc2, cc3, cc4. split_and!; try done.
  { eapply ext_trans; [exact Hx03|exact Hx4|]. unfold z. set_solver. }
  assert (Hkeep : forall ws, (forall w, w ∈ ws -> w < num_wires cc /\ w ∉ D) -> word (val cc4) ws = word (val cc3) ws).
  { intros ws H. apply word_ext. intros w Hw. destruct (H w Hw). pose proof (ext_num _ _ _ Hx03).
    apply (ext_val _ _ _ Hx4); [lia|]. auto. }
  assert (K1 : word (val cc4) (take k zs) = word (val cc3) (take k zs)).
  { apply Hkeep. intros w Hw. split; [|by apply in_take_drop].
    rewrite Forall_forall in HTs. apply HTs. auto. }
  assert (K0 : word (val cc4) [z0] = word (val cc1) [z0]).
  { rewrite Hkeep by (intros w ->%list_elem_of_singleton; split; [apply Ht0|auto]).
    apply word_ext. intros w ->%list_elem_of_singleton. pose proof (ext_num _ _ _ Hx1). destruct Ht0 as [? _].
    pose proof (ext_num _ _ _ Hx2).
    rewrite (ext_val _ _ _ Hx3 z0) by (lia || auto). apply (ext_val _ _ _ Hx2); [lia|apply not_elem_of_nil]. }
  assert (Vyl : Z.b2z (val cc3 yl) = Z.b2z (val cc yl)) by (rewrite <- !word_1; by apply Hw3).
  assert (Vy0 : Z.b2z (val cc1 y0) = Z.b2z (val cc y0)) by (rewrite <- !word_1; by apply Hw1).
  assert (V0 : word (val cc1) [z0] = (Z.b2z (val cc x0) * Z.b2z (val cc y0))%Z).
  { rewrite word_1, V1. destruct (val cc x0), (val cc y0); done. }
  fold x in W4. rewrite (Hw3 x), Vyl in W4 by done. rewrite (Hw2 x), (Hw2 ys), W2, (Hw1 xr), Vy0 in W3 by done.
  assert (Hsplit : take (2 * (k + 2)) z = [z0] ++ take k zs ++ take (S (S (length xr))) D).
  { unfold z, D. rewrite take_take_drop, Lx. replace (2 * (k + 2)) with (S (k + S (S (S k)))) by lia. done. }
  rewrite Hsplit, !word_app, K0, K1, W4, V0, length_take_le by lia.
  replace (length z) with (S k + length D) by (unfold z, D; rewrite length_drop; simpl; lia).
  unfold x in W3 |- *. rewrite word_cons, (word_cons _ y0), word_app, word_1. rewrite word_cons in W3. fold k.
  pose proof (word_bounds (val cc3) (take k zs)) as B. rewrite length_take_le in B by lia.
  apply array_arith; [destruct (val cc x0), (val cc y0); simpl; lia|done|done].
Qed.

Lemma given_some (z : list nat) : given (Some <$> z) = z.
Proof. induction z as [|w z IH]; [done|]. change (w :: given (Some <$> z) = w :: z). by rewrite IH. Qed.

Lemma fills_take (z : list nat) os kept j :
  take j os = take j z -> kept <= j \/ length z <= j /\ length os <= j -> fills (take kept (Some <$> z)) (take kept os).
Proof.
  intros Hj Hk. assert (Hos : take kept os = take kept z).
  { destruct Hk as [Hk|[H1 H2]]; [|by rewrite (take_ge os), (take_ge z) in Hj by lia; subst].
    rewrite <- (Nat.min_l kept j) by done. by rewrite <- !take_take, Hj. }
  rewrite Hos, <- fmap_take. unfold fills. apply Forall2_fmap_l. apply Forall_Forall2_diag, Forall_true. naive_solver.
Qed.

(** A result made of the first [j] wires of [z] and zeros. *)
Lemma delivers_padded (z : list nat) j kept cc cc1 cc2 w :
  ext z cc cc1 -> ext [] cc1 cc2 -> protected cc2 w -> Forall (target cc) z ->
  kept <= j \/ length z <= j ->
  delivers (Some <$> z) kept cc cc2 (take j z ++ replicate (length z - j) w).
Proof.
  intros Hx1 Hx2 Hp HT Hk. pose proof (ext_num _ _ _ Hx1). pose proof (ext_num _ _ _ Hx2).
  split; rewrite ?given_some.
  - eapply ext_trans; [exact Hx1|exact Hx2|]. intros v _ [?|?]; [done|set_solver].
  - rewrite length_app, length_replicate, length_take, length_fmap. lia.
  - apply (fills_take z _ kept j).
    + destruct (decide (j <= length z)); [by rewrite take_app_length' by (rewrite length_take; lia)|].
      replace (length z - j) with 0 by lia. simpl. rewrite app_nil_r. by rewrite take_take, Nat.min_id.
    + rewrite length_app, length_replicate, length_take. lia.
  - apply Forall_app_2; [|apply Forall_replicate].
    + apply Forall_take. eapply Forall_impl; [apply Forall_forall; intros v Hv; exact Hv|].
      intros v Hv. rewrite Forall_forall in HT. destruct (HT v Hv). split; [lia|by left].
    + split; [apply (ok_range _ (ext_ok _ _ _ Hx2) _ Hp)|auto].
Qed.

Definition kept_slots (m : nat) : nat := if m =? 1 then 1 else 2 * m.

(** One wire times one wire. *)
Lemma array_bit_ok cc x0 y0 z :
  ok cc -> 1 <= length z <= 2 -> Forall (target cc) z -> Forall (source cc z) [x0; y0] ->
  exists os cc', array_multiplier_body [x0] [y0] z cc = (Ok os, cc') /\
    delivers (Some <$> z) 1 cc cc' os /\ word (val cc') os = Z.b2z (val cc x0 && val cc y0).
Proof.
  intros Hok Hl HT Hs. destruct z as [|z0 zs]; [simpl in Hl; lia|].
  assert (Ht0 : target cc z0) by (by inversion HT).
  destruct (push_gate_ok cc And x0 y0 z0 Hok Ht0) as (E1 & Hx1 & V1). set (cc1 := grow cc 0 _) in *.
  assert (Hx1' : ext (z0 :: zs) cc cc1) by (eapply ext_weaken; [|exact Hx1]; set_solver).
  unfold array_multiplier_body. rewrite (st_bind_ok _ _ _ _ _ E1).
  destruct (zero_wire_ok cc1 (ext_ok _ _ _ Hx1)) as (w & cc2 & E2 & Hx2 & Hp & Hv).
  destruct zs as [|z1 [|? ?]]; [| |simpl in Hl; lia].
  - exists [z0], cc1. split_and!; [done| |by rewrite word_1, V1].
    split; rewrite ?given_some; try done; [constructor; [naive_solver|constructor]|].
    apply Forall_singleton. split; [|left; set_solver]. pose proof (ext_num _ _ _ Hx1). destruct Ht0. lia.
  - exists [z0; w], cc2. rewrite (st_bind_ok _ _ _ _ _ E2). split_and!; [done| |].
    + apply (delivers_padded [z0; z1] 1 1 cc cc1 cc2 w); try done. by left.
    + rewrite word_cons, word_1, Hv. rewrite (ext_val _ _ _ Hx2), V1; [simpl; lia| |apply not_elem_of_nil].
      pose proof (ext_num _ _ _ Hx1). destruct Ht0. lia.
Qed.

(** Operands of two wires or more. *)
Lemma array_wide_ok cc x y z kept :
  ok cc -> 2 <= length x <= length z -> length y = length x -> NoDup z -> Forall (target cc) z ->
  Forall (source cc z) x -> Forall (source cc z) y -> kept <= 2 * length x \/ length z <= 2 * length x ->
  exists os cc', array_multiplier_body x y z cc = (Ok os, cc') /\
    delivers (Some <$> z) kept cc cc' os /\
    (word (val cc') os = (word (val cc) x * word (val cc) y) mod 2 ^ Z.of_nat (length z))%Z.
Proof.
  intros Hok Hl Hly Hnd HT Sx Sy Hk. destruct x as [|x0 [|x1 xr]]; [simpl in Hl; lia..|].
  destruct y as [|y0 yr]; [done|]. destruct z as [|z0 zs]; [simpl in Hl; lia|].
  destruct yr as [|yl ys _] using rev_ind; [done|]. destruct (last_removelast yl ys) as [Hrl Hll].
  simpl in Hl, Hly. rewrite length_app in Hly. simpl in Hly.
  destruct (array_layers_ok cc x0 (x1 :: xr) y0 ys yl z0 zs)
    as (sums & sums' & cc1 & cc2 & cc3 & cc4 & E1 & E2 & E3 & E4 & Hx & W); try done; [simpl; lia|lia|].
  destruct (zero_wire_ok cc4 (ext_ok _ _ _ Hx)) as (w & cc5 & E5 & Hx5 & Hp & Hv).
  set (n := length (x0 :: x1 :: xr)) in *.
  exists (take (2 * n) (z0 :: zs) ++ replicate (length (z0 :: zs) - 2 * n) w), cc5. split_and!.
  - unfold array_multiplier_body. rewrite Hrl, Hll.
    rewrite (st_bind_ok _ _ _ _ _ E1), (st_bind_ok _ _ _ _ _ E2), (st_bind_ok _ _ _ _ _ E3).
    rewrite length_app. simpl length. rewrite Nat.add_1_r. simpl drop.
    rewrite (st_bind_ok _ _ _ _ _ E4), (st_bind_ok _ _ _ _ _ E5). done.
  - apply (delivers_padded (z0 :: zs) _ kept cc cc4 cc5 w); done.
  - rewrite word_app, word_zeros, Z.mul_0_r, Z.add_0_r by done. rewrite <- W. clear W.
    replace (2 * n) with (2 * (length ys + 2)) by (unfold n; simpl; lia).
    apply word_ext. intros v Hin. apply subseteq_take in Hin. pose proof (ext_num _ _ _ Hx).
    rewrite Forall_forall in HT. destruct (HT v Hin). apply (ext_val _ _ _ Hx5); [lia|apply not_elem_of_nil].
Qed.

Lemma delivers_kept result kept kept' cc cc' os :
  kept' <= kept \/ length result <= kept -> delivers result kept cc cc' os -> delivers result kept' cc cc' os.
Proof.
  intros Hk [He Hl Hf Hm]. split; try done. destruct Hk as [Hk|Hk].
  - rewrite <- (Nat.min_l kept' kept) by done. rewrite <- !take_take. by apply Forall2_take.
  - rewrite !take_ge in Hf by lia. by apply Forall2_take.
Qed.

Lemma array_body_ok cc x y z m :
  ok cc -> NoDup z -> Forall (target cc) z -> Forall (source cc z) x -> Forall (source cc z) y ->
  length x = Nat.min m (length z) -> length y = Nat.min m (length z) -> length z <= 2 \/ 2 <= m -> 1 <= m ->
  exists os cc', array_multiplier_body x y z cc = (Ok os, cc') /\
    delivers (Some <$> z) (kept_slots m) cc cc' os /\
    (word (val cc') os = (word (val cc) x * word (val cc) y) mod 2 ^ Z.of_nat (length z))%Z.
Proof.
  intros Hok Hnd HT Sx Sy Lx Ly Hz Hm. destruct (decide (2 <= length x)) as [Hw|Hw].
  { apply array_wide_ok; try done; unfold kept_slots; try destruct (Nat.eqb_spec m 1); lia. }
  destruct (decide (length z = 0)) as [H0|H0].
  { destruct z; [|done]. destruct x; [|simpl in Lx; lia]. destruct y; [|simpl in Ly; lia].
    destruct (zero_wire_ok cc Hok) as (w & cc1 & E & Hx & Hp & Hv). exists [], cc1.
    unfold array_multiplier_body. rewrite (st_bind_ok _ _ _ _ _ E). simpl. rewrite Z.mod_1_r. split_and!; try done.
    apply (delivers_padded [] 0 _ cc cc cc1 w); try done. right. simpl. lia. }
  destruct x as [|x0 [|? ?]]; [simpl in Lx; lia| |simpl in Hw; lia].
  destruct y as [|y0 [|? ?]]; [simpl in *; lia| |simpl in *; lia].
  destruct (array_bit_ok cc x0 y0 z) as (os & cc' & E & Hd & W); try done; [simpl in *; lia|by apply (Forall_app_2 _ [x0] [y0])|].
  exists os, cc'. split_and!; [done| |].
  - apply (delivers_kept _ 1); [|done]. rewrite length_fmap. unfold kept_slots. simpl in *.
    destruct (Nat.eqb_spec m 1); lia.
  - rewrite W, !word_1, Z.mod_small; [by destruct (val cc x0), (val cc y0)|].
    pose proof (Z.pow_le_mono_r 2 1 (Z.of_nat (length z))). destruct (val cc x0), (val cc y0); simpl; lia.
Qed.

(** The operands padded to one width [m] and cut to the width of the result. *)
Lemma operands_ok cc x y z (m := Nat.max (length x) (length y)) :
  ready cc (Some <$> z) (x ++ y) ->
  exists x' y' cc0 (xt := take (length z) x') (yt := take (length z) y'),
    zero_pad x y cc = (Ok (x', y'), cc0) /\ ext [] cc cc0 /\ Forall (target cc0) z /\
    length xt = Nat.min m (length z) /\ length yt = Nat.min m (length z) /\
    Forall (source cc0 z) xt /\ Forall (source cc0 z) yt /\
    ((word (val cc) x * word (val cc) y) mod 2 ^ Z.of_nat (length z) =
     (word (val cc0) xt * word (val cc0) yt) mod 2 ^ Z.of_nat (length z))%Z.
Proof.
  intros [Hok Hnd HT Hs]. rewrite given_some in *. apply Forall_app in Hs as [Sx Sy].
  destruct (zero_pad_ok z cc x y Hok HT Sx Sy) as (x' & y' & cc0 & E0 & Hx0 & Lx & Ly & Sx' & Sy' & Wx & Wy).
  fold m in Lx, Ly. exists x', y', cc0. cbv zeta. rewrite !length_take, Lx, Ly, !word_take, Wx, Wy, <- Zmult_mod.
  split_and!; try done; try lia; [by apply (ext_targets _ _ _ _ Hx0)|by apply Forall_take..].
Qed.

Lemma new_array_multiplier_ok cc x y z (m := Nat.max (length x) (length y)) :
  ready cc (Some <$> z) (x ++ y) -> 1 <= m -> length z <= 2 \/ 2 <= m ->
  exists os cc', new_array_multiplier x y z cc = (Ok os, cc') /\
    delivers (Some <$> z) (kept_slots m) cc cc' os /\
    (word (val cc') os = (word (val cc) x * word (val cc) y) mod 2 ^ Z.of_nat (length z))%Z.
Proof.
  intros Hrd Hm Hz. destruct (operands_ok _ _ _ _ Hrd) as (x' & y' & cc0 & E0 & Hx0 & HT0 & Lx & Ly & Sx & Sy & ->).
  pose proof (rd_nodup _ _ _ Hrd) as Hnd. rewrite given_some in Hnd.
  destruct (array_body_ok cc0 _ _ z m (ext_ok _ _ _ Hx0) Hnd HT0 Sx Sy Lx Ly Hz Hm) as (os & cc' & E & Hd & W).
  exists os, cc'. split_and!; [|by apply (delivers_after _ _ _ _ _ _ Hx0)|done].
  unfold new_array_multiplier. by rewrite (st_bind_ok _ _ _ _ _ E0).
Qed.

(** ** Karatsuba multiplier *)

Lemma alloc_wires_ok n cc :
  alloc_wires n cc = (Ok (seq (num_wires cc) n), grow cc n []).
Proof.
  revert cc. induction n as [|n IH]; intros cc.
  - simpl. unfold grow, set_gates, set_wires. simpl. rewrite !app_nil_r. by destruct cc.
  - simpl alloc_wires. rewrite run_alloc. rewrite (st_bind_ok _ _ _ _ _ (IH _)), num_grow, grow_grow.
    by rewrite Nat.add_1_r.
Qed.

(** A generator run into wires allocated for it: [V] is what it computes. *)
Lemma alloc_then_ok T cc n (op : list nat -> emit (list nat)) kept V :
  ok cc -> Forall (target cc) T ->
  (forall z cc1, ext [] cc cc1 -> length z = n -> NoDup z -> Forall (target cc1) z -> Forall (fresh cc cc1) z ->
    exists os cc', op z cc1 = (Ok os, cc') /\ delivers (Some <$> z) kept cc1 cc' os /\ word (val cc') os = V) ->
  exists os cc', (forall A (k : list nat -> emit A), (z ← alloc_wires n; z ← op z; k z) cc = k os cc') /\
    ext [] cc cc' /\ length os = n /\ holds cc' T os V.
Proof.
  intros Hok HT Hop. set (z := seq (num_wires cc) n). set (cc1 := grow cc n []).
  assert (Hx1 : ext [] cc cc1) by (apply grow_ext; [done|set_solver]).
  assert (Hf : Forall (fresh cc cc1) z).
  { apply Forall_forall. intros w Hw%elem_of_seq. unfold fresh, cc1. rewrite num_grow. lia. }
  assert (Hlow : forall w, w ∈ z -> num_wires cc <= w) by (intros w Hw%elem_of_seq; lia).
  destruct (Hop z cc1 Hx1) as (os & cc2 & E2 & [Hx2 Hl _ Hm] & Hw).
  { apply length_seq. } { apply NoDup_seq. }
  { eapply Forall_impl; [exact Hf|]. intros w [? ?]. split; [done|]. intros Hp.
    pose proof (ext_fresh _ _ _ Hx1) as Hfr. change (protected cc w) in Hp. pose proof (ok_range _ Hok _ Hp). lia. }
  { done. }
  rewrite given_some in *. exists os, cc2. split_and!.
  - intros A k. by rewrite (st_bind_ok _ _ _ _ _ (alloc_wires_ok n cc)), (st_bind_ok _ _ _ _ _ E2).
  - eapply ext_trans; [exact Hx1|exact Hx2|]. intros w Hlt [?|Hin]; [done|]. specialize (Hlow w Hin). lia.
  - rewrite Hl, length_fmap. apply length_seq.
  - split; [|done]. eapply (made_source cc1); [by apply (ext_targets _ _ _ _ Hx1)|right; right; exact Hx2| |exact Hm].
    intros w Hin HinT. specialize (Hlow w Hin). rewrite Forall_forall in HT. destruct (HT w HinT). lia.
Qed.

Lemma holds_source cc T ws V : holds cc T ws V -> Forall (source cc []) ws.
Proof. intros [H _]. by eapply source_nil. Qed.

(** Operands of a generator that drives fresh wires. *)
Lemma ready_fresh cc cc1 z ws :
  ext [] cc cc1 -> NoDup z -> Forall (target cc1) z -> Forall (fresh cc cc1) z -> Forall (source cc []) ws ->
  ready cc1 (Some <$> z) ws.
Proof.
  intros Hx Hnd HT Hf Hs. pose proof (ext_num _ _ _ Hx). split; rewrite ?given_some; [apply Hx|done|done|].
  eapply Forall_impl; [exact Hs|]. intros w [Hw _]. split; [lia|]. intros Hin.
  rewrite Forall_forall in Hf. destruct (Hf w Hin). lia.
Qed.

Lemma add_fresh_ok T cc n x y X Y :
  ok cc -> Forall (target cc) T -> Nat.max (length x) (length y) <= n ->
  holds cc T x X -> holds cc T y Y ->
  exists os cc', (forall A (k : list nat -> emit A),
      (z ← alloc_wires n; z ← new_adder x y (Some <$> z); k z) cc = k os cc') /\
    ext [] cc cc' /\ length os = n /\ holds cc' T os ((X + Y) mod 2 ^ Z.of_nat n)%Z.
Proof.
  intros Hok HT Hn Hx Hy. pose proof (holds_source _ _ _ _ Hx) as Sx. pose proof (holds_source _ _ _ _ Hy) as Sy.
  apply (alloc_then_ok T cc n (fun z => new_adder x y (Some <$> z)) (S (Nat.max (length x) (length y)))); try done.
  intros z cc1 Hx1 Hl Hnd Ht Hf.
  destruct (new_adder_ok (ρ := ρ) cc1 x y (Some <$> z)) as (os & cc' & E & Hd & W).
  { apply (ready_fresh cc); try done. by apply Forall_app_2. } { rewrite length_fmap. lia. }
  exists os, cc'. split_and!; [done|done|].
  rewrite W, length_fmap, Hl, !(ext_word _ _ _ _ Hx1) by done. by destruct Hx as [_ ->], Hy as [_ ->].
Qed.

Lemma sub_fresh_ok T cc n x y X Y (m := Nat.max (length x) (length y)) :
  ok cc -> Forall (target cc) T -> holds cc T x X -> holds cc T y Y ->
  exists os cc', (forall A (k : list nat -> emit A),
      (z ← alloc_wires n; z ← new_subtractor x y (Some <$> z); k z) cc = k os cc') /\
    ext [] cc cc' /\ length os = n /\
    holds cc' T os ((X - Y) mod 2 ^ Z.of_nat (Nat.min m n) + if (m <? n)%nat && (X <? Y) then 2 ^ Z.of_nat m else 0)%Z.
Proof.
  intros Hok HT Hx Hy. pose proof (holds_source _ _ _ _ Hx) as Sx. pose proof (holds_source _ _ _ _ Hy) as Sy.
  apply (alloc_then_ok T cc n (fun z => new_subtractor x y (Some <$> z)) (S m)); try done.
  intros z cc1 Hx1 Hl Hnd Ht Hf.
  destruct (new_subtractor_ok (ρ := ρ) cc1 x y (Some <$> z)) as (os & cc' & E & Hd & W).
  { apply (ready_fresh cc); try done. by apply Forall_app_2. }
  exists os, cc'. split_and!; [done|done|].
  rewrite W, length_fmap, Hl, !(ext_word _ _ _ _ Hx1) by done. by destruct Hx as [_ ->], Hy as [_ ->].
Qed.

Lemma shift_fresh_ok T cc ws V size count :
  ok cc -> Forall (target cc) T -> holds cc T ws V ->
  exists rs cc', shift_left ws size count cc = (Ok rs, cc') /\ ext [] cc cc' /\ length rs = size /\
    holds cc' T rs ((2 ^ Z.of_nat count * V) mod 2 ^ Z.of_nat size)%Z.
Proof.
  intros Hok HT [Hs <-]. destruct (shift_left_ok T cc ws size count Hok HT Hs) as (rs & cc' & E & Hx & L & S & W).
  by exists rs, cc'.
Qed.

Lemma mod_min v a R : (0 <= v < 2 ^ Z.of_nat a -> v mod 2 ^ Z.of_nat (Nat.min a R) = v mod 2 ^ Z.of_nat R)%Z.
Proof.
  intros Hv. destruct (decide (a <= R)).
  - rewrite Nat.min_l by done. pose proof (Z.pow_le_mono_r 2 (Z.of_nat a) (Z.of_nat R)). rewrite !Z.mod_small; lia.
  - by rewrite Nat.min_r by lia.
Qed.

Lemma mul_bound x y p :
  (0 <= x < 2 ^ Z.of_nat p -> 0 <= y < 2 ^ Z.of_nat p -> 0 <= x * y < 2 ^ Z.of_nat (p * 2))%Z.
Proof.
  intros Hx Hy. replace (Z.of_nat (p * 2)) with (Z.of_nat p + Z.of_nat p)%Z by lia.
  rewrite Z.pow_add_r by lia. nia.
Qed.

(** The borrow of a difference that is not negative never shows. *)
Lemma sub_exact U V u v R (m := Nat.max (Nat.min u R) (Nat.min v R))
    (Z1 := (U mod 2 ^ Z.of_nat (Nat.min u R))%Z) (Z2 := (V mod 2 ^ Z.of_nat (Nat.min v R))%Z) :
  v <= u -> (0 <= V <= U)%Z -> (U < 2 ^ Z.of_nat u)%Z -> (V < 2 ^ Z.of_nat v)%Z ->
  ((Z1 - Z2) mod 2 ^ Z.of_nat (Nat.min m R) + (if (m <? R)%nat && (Z1 <? Z2) then 2 ^ Z.of_nat m else 0) =
   (U - V) mod 2 ^ Z.of_nat R)%Z.
Proof.
  intros Huv HUV HU HV. assert (Hm : m = Nat.min u R) by (unfold m; lia).
  assert (E2 : Z2 = (V mod 2 ^ Z.of_nat R)%Z) by (apply mod_min; lia). rewrite Hm.
  destruct (decide (u < R)) as [Hu|Hu].
  - assert (E1 : Z1 = U) by (unfold Z1; rewrite Nat.min_l by lia; apply Z.mod_small; lia).
    pose proof (Z.pow_le_mono_r 2 (Z.of_nat v) (Z.of_nat R)).
    rewrite E1, E2, (Z.mod_small V), (proj2 (Z.ltb_ge U V)), andb_false_r, Z.add_0_r by lia.
    rewrite (Nat.min_l (Nat.min u R)) by lia. apply mod_min. lia.
  - unfold Z1. rewrite (Nat.min_r u R), Nat.min_id, Nat.ltb_irrefl by lia. simpl.
    by rewrite Z.add_0_r, E2, <- Zminus_mod.
Qed.

Lemma mod_shift x M : M <> 0%Z -> exists q, (x mod M = x + M * q)%Z.
Proof. intros HM. exists (- (x / M))%Z. rewrite Z.mod_eq by done. ring. Qed.

Lemma karatsuba_arith AL AH BL BH mid M Z0 Z2 S1 S2 T1 T2 ADD (t := (2 ^ Z.of_nat mid)%Z) :
  (M <> 0 -> Z0 = (AL * BL) mod M -> Z2 = (AH * BH) mod M ->
   S1 = ((AL + AH) * (BL + BH) - AH * BH) mod M -> S2 = (S1 - Z0) mod M ->
   T1 = (2 ^ Z.of_nat (mid * 2) * Z2) mod M -> T2 = (t * S2) mod M -> ADD = (T1 + T2) mod M ->
   (ADD + Z0) mod M = ((AL + t * AH) * (BL + t * BH)) mod M)%Z.
Proof.
  intros HM H0 H2 HS1 HS2 HT1 HT2 HA. replace (2 ^ Z.of_nat (mid * 2))%Z with (t * t)%Z in HT1 by
    (unfold t; rewrite <- Z.pow_add_r by lia; f_equal; lia).
  destruct (mod_shift (AL * BL) M HM) as [q0 E0], (mod_shift (AH * BH) M HM) as [q2 E2],
    (mod_shift ((AL + AH) * (BL + BH) - AH * BH) M HM) as [q1 E1], (mod_shift (S1 - Z0) M HM) as [q3 E3],
    (mod_shift (t * t * Z2) M HM) as [q4 E4], (mod_shift (t * S2) M HM) as [q5 E5], (mod_shift (T1 + T2) M HM) as [q6 E6].
  rewrite <- (Z_mod_plus_full ((AL + t * AH) * (BL + t * BH))
    (q6 + q4 + q5 + t * t * q2 + t * (q1 + q3 - q0) + q0) M). f_equal.
  rewrite HA, E6, HT1, E4, HT2, E5, HS2, E3, HS1, E1, H2, E2, H0, E0. ring.
Qed.

(** Carry what is known of operands and targets over a step. *)
Ltac advance Hx :=
  repeat match goal with
  | H : holds ?c _ _ _ |- _ => apply (holds_ext _ _ _ _ _ Hx) in H
  | H : Forall (target ?c) _ |- _ => apply (ext_targets _ _ _ _ Hx) in H
  end.

(** The recombination: [z1 - z2 - z0], shifts and sums, into [r]. *)
Lemma karatsuba_combine_ok cc r z0 z1 z2 mid AL AH BL BH u v kept (R := length r) (M := (2 ^ Z.of_nat R)%Z)
    (U := ((AL + AH) * (BL + BH))%Z) (V := (AH * BH)%Z) :
  ok cc -> NoDup r -> Forall (target cc) r -> length z0 <= R ->
  length z1 = Nat.min u R -> length z2 = Nat.min v R ->
  v <= u -> (0 <= V <= U)%Z -> (U < 2 ^ Z.of_nat u)%Z -> (V < 2 ^ Z.of_nat v)%Z ->
  holds cc r z0 ((AL * BL) mod M)%Z -> holds cc r z1 (U mod 2 ^ Z.of_nat (Nat.min u R))%Z ->
  holds cc r z2 (V mod 2 ^ Z.of_nat (Nat.min v R))%Z ->
  exists os cc',
    (sub1 ← alloc_wires R; sub1 ← new_subtractor z1 z2 (Some <$> sub1);
     sub2 ← alloc_wires R; sub2 ← new_subtractor sub1 z0 (Some <$> sub2);
     shift1 ← shift_left z2 R (mid * 2); shift2 ← shift_left sub2 R mid;
     add1 ← alloc_wires R; add1 ← new_adder shift1 shift2 (Some <$> add1);
     new_adder add1 z0 (Some <$> r)) cc = (Ok os, cc') /\
    delivers (Some <$> r) kept cc cc' os /\
    (word (val cc') os = ((AL + 2 ^ Z.of_nat mid * AH) * (BL + 2 ^ Z.of_nat mid * BH)) mod M)%Z.
Proof.
  intros Hok Hnd HT L0 L1 L2 Huv HUV HU HV H0 H1 H2.
  destruct (sub_fresh_ok r cc R z1 z2 _ _ Hok HT H1 H2) as (sub1 & cc1 & R1 & Hx1 & Ls1 & Hs1).
  rewrite L1, L2, sub_exact in Hs1 by done. pose proof (ext_ok _ _ _ Hx1) as Hok1.
  advance Hx1.
  destruct (sub_fresh_ok r cc1 R sub1 z0 _ _ Hok1 HT Hs1 H0) as (sub2 & cc2 & R2 & Hx2 & Ls2 & Hs2).
  rewrite Ls1, (Nat.max_l R), Nat.min_id, Nat.ltb_irrefl in Hs2 by done. simpl in Hs2. rewrite Z.add_0_r in Hs2.
  advance Hx2. pose proof (ext_ok _ _ _ Hx2) as Hok2.
  destruct (shift_fresh_ok r cc2 z2 _ R (mid * 2) Hok2 HT H2) as (t1 & cc3 & R3 & Hx3 & Lt1 & Ht1).
  advance Hx3. pose proof (ext_ok _ _ _ Hx3) as Hok3.
  destruct (shift_fresh_ok r cc3 sub2 _ R mid Hok3 HT Hs2) as (t2 & cc4 & R4 & Hx4 & Lt2 & Ht2).
  advance Hx4. pose proof (ext_ok _ _ _ Hx4) as Hok4.
  assert (Lt : Nat.max (length t1) (length t2) <= R) by lia.
  destruct (add_fresh_ok r cc4 R t1 t2 _ _ Hok4 HT Lt Ht1 Ht2) as (add1 & cc5 & R5 & Hx5 & La & Ha).
  advance Hx5. pose proof (ext_ok _ _ _ Hx5) as Hok5.
  destruct (new_adder_ok (ρ := ρ) cc5 add1 z0 (Some <$> r)) as (os & cc6 & E6 & Hd & W).
  { split; rewrite ?given_some; try done. apply Forall_app_2; [apply Ha|apply H0]. }
  { rewrite length_fmap. fold R. lia. }
  assert (Hx05 : ext [] cc cc5).
  { repeat (eapply ext_trans; [eassumption| |intros w _ [?|?]; eassumption]). by apply ext_refl. }
  exists os, cc6. split_and!.
  - rewrite R1, R2. rewrite (st_bind_ok _ _ _ _ _ R3), (st_bind_ok _ _ _ _ _ R4). by rewrite R5.
  - apply (delivers_after _ _ _ _ _ _ Hx05). eapply delivers_kept; [|exact Hd]. right. rewrite length_fmap. lia.
  - rewrite W, length_fmap. destruct H0 as [_ ->], Ha as [_ ->]. fold R M.
    rewrite (mod_min V v R) by lia. eapply karatsuba_arith; try reflexivity.
    unfold M. pose proof (pow2_pos R). lia.
Qed.

Lemma mul_fresh_ok (mul : list nat -> list nat -> list nat -> emit (list nat)) T cc k x y X Y :
  (forall z cc, ready cc (Some <$> z) (x ++ y) ->
    exists os cc' kept, mul x y z cc = (Ok os, cc') /\ delivers (Some <$> z) kept cc cc' os /\
      (word (val cc') os = (word (val cc) x * word (val cc) y) mod 2 ^ Z.of_nat (length z))%Z) ->
  ok cc -> Forall (target cc) T -> holds cc T x X -> holds cc T y Y ->
  exists os cc', (forall A (f : list nat -> emit A), (z ← alloc_wires k; z ← mul x y z; f z) cc = f os cc') /\
    ext [] cc cc' /\ length os = k /\ holds cc' T os ((X * Y) mod 2 ^ Z.of_nat k)%Z.
Proof.
  intros Hmul Hok HT Hx Hy. pose proof (holds_source _ _ _ _ Hx) as Sx. pose proof (holds_source _ _ _ _ Hy) as Sy.
  apply (alloc_then_ok T cc k (mul x y) 0); try done. intros z cc1 Hx1 Hl Hnd Ht Hf.
  destruct (Hmul z cc1) as (os & cc' & kept & E & Hd & W).
  { apply (ready_fresh cc); try done. by apply Forall_app_2. }
  exists os, cc'. split_and!; [done|eapply delivers_kept; [left; apply Nat.le_0_l|exact Hd]|].
  rewrite W, Hl, !(ext_word _ _ _ _ Hx1) by done. by destruct Hx as [_ ->], Hy as [_ ->].
Qed.

(** The recursive case on operands of [n] wires, from the recursive calls. *)
Lemma karatsuba_step_ok (mul : list nat -> list nat -> list nat -> emit (list nat)) cc a b r kept
    (n := length a) (mid := n / 2) (R := length r)
    (a_low := take mid a) (a_high := drop mid a) (b_low := take mid b) (b_high := drop mid b) :
  (forall x y z cc, 2 <= Nat.max (length x) (length y) < n -> ready cc (Some <$> z) (x ++ y) ->
    exists os cc' k, mul x y z cc = (Ok os, cc') /\ delivers (Some <$> z) k cc cc' os /\
      (word (val cc') os = (word (val cc) x * word (val cc) y) mod 2 ^ Z.of_nat (length z))%Z) ->
  ok cc -> 4 <= n <= R -> length b = n -> NoDup r -> Forall (target cc) r ->
  Forall (source cc r) a -> Forall (source cc r) b ->
  exists os cc',
   (z0 ← alloc_wires (Nat.min (Nat.max (length a_low) (length b_low) * 2) R);
    z0 ← mul a_low b_low z0;
    a_sum ← alloc_wires (Nat.max (length a_low) (length a_high) + 1);
    a_sum ← new_adder a_low a_high (Some <$> a_sum);
    b_sum ← alloc_wires (Nat.max (length b_low) (length b_high) + 1);
    b_sum ← new_adder b_low b_high (Some <$> b_sum);
    z1 ← alloc_wires (Nat.min (Nat.max (length a_sum) (length b_sum) * 2) R);
    z1 ← mul a_sum b_sum z1;
    z2 ← alloc_wires (Nat.min (Nat.max (length a_high) (length b_high) * 2) R);
    z2 ← mul a_high b_high z2;
    sub1 ← alloc_wires R; sub1 ← new_subtractor z1 z2 (Some <$> sub1);
    sub2 ← alloc_wires R; sub2 ← new_subtractor sub1 z0 (Some <$> sub2);
    shift1 ← shift_left z2 R (mid * 2); shift2 ← shift_left sub2 R mid;
    add1 ← alloc_wires R; add1 ← new_adder shift1 shift2 (Some <$> add1);
    new_adder add1 z0 (Some <$> r)) cc = (Ok os, cc') /\
   delivers (Some <$> r) kept cc cc' os /\
   (word (val cc') os = (word (val cc) a * word (val cc) b) mod 2 ^ Z.of_nat R)%Z.
Proof.
  intros Hmul Hok Hn Hb Hnd HT Sa Sb.
  assert (Hmid : 2 * mid <= n <= 2 * mid + 1) by (unfold mid; pose proof (Nat.div_mod n 2); pose proof (Nat.mod_upper_bound n 2); lia).
  assert (Lal : length a_low = mid) by (unfold a_low; rewrite length_take; fold n; lia).
  assert (Lah : length a_high = n - mid) by (unfold a_high; by rewrite length_drop).
  assert (Lbl : length b_low = mid) by (unfold b_low; rewrite length_take; lia).
  assert (Lbh : length b_high = n - mid) by (unfold b_high; rewrite length_drop; lia).
  rewrite Lal, Lah, Lbl, Lbh, !Nat.max_id, !(Nat.max_r mid) by lia.
  rewrite (word_split _ a mid), (word_split _ b mid) by lia. fold a_low a_high b_low b_high.
  set (h := n - mid). assert (Hh : mid <= h <= S mid /\ 2 <= mid /\ h + 1 < n) by (unfold h; lia).
  set (AL := word (val cc) a_low). set (AH := word (val cc) a_high).
  set (BL := word (val cc) b_low). set (BH := word (val cc) b_high).
  assert (Bl : forall l, length l = mid -> (0 <= word (val cc) l < 2 ^ Z.of_nat h)%Z).
  { intros l <-. pose proof (word_bounds (val cc) l). pose proof (Z.pow_le_mono_r 2 (Z.of_nat (length l)) (Z.of_nat h)). lia. }
  assert (Bh : forall l, length l = h -> (0 <= word (val cc) l < 2 ^ Z.of_nat h)%Z) by (intros l <-; apply word_bounds).
  assert (Hal : holds cc r a_low AL) by (split; [by apply Forall_take|done]).
  assert (Hah : holds cc r a_high AH) by (split; [by apply Forall_drop|done]).
  assert (Hbl : holds cc r b_low BL) by (split; [by apply Forall_take|done]).
  assert (Hbh : holds cc r b_high BH) by (split; [by apply Forall_drop|done]).
  destruct (mul_fresh_ok mul r cc (Nat.min (mid * 2) R) a_low b_low AL BL) as (z0 & cc1 & R1 & Hx1 & L1 & H0);
    [intros; apply Hmul; [lia|done]|done..|].
  advance Hx1. pose proof (ext_ok _ _ _ Hx1) as Hok1.
  destruct (add_fresh_ok r cc1 (h + 1) a_low a_high AL AH Hok1 HT) as (a_sum & cc2 & R2 & Hx2 & L2 & Ha); [lia|done..|].
  advance Hx2. pose proof (ext_ok _ _ _ Hx2) as Hok2.
  destruct (add_fresh_ok r cc2 (h + 1) b_low b_high BL BH Hok2 HT) as (b_sum & cc3 & R3 & Hx3 & L3 & Hb'); [lia|done..|].
  advance Hx3. pose proof (ext_ok _ _ _ Hx3) as Hok3.
  pose proof (Bl _ Lal : (0 <= AL < _)%Z) as B_AL. pose proof (Bh _ Lah : (0 <= AH < _)%Z) as B_AH.
  pose proof (Bl _ Lbl : (0 <= BL < _)%Z) as B_BL. pose proof (Bh _ Lbh : (0 <= BH < _)%Z) as B_BH.
  assert (Hp : (2 ^ Z.of_nat (h + 1) = 2 * 2 ^ Z.of_nat h)%Z) by
    (rewrite Nat.add_1_r, Nat2Z.inj_succ, Z.pow_succ_r by lia; done).
  rewrite Z.mod_small in Ha, Hb' by lia.
  destruct (mul_fresh_ok mul r cc3 (Nat.min ((h + 1) * 2) R) a_sum b_sum (AL + AH) (BL + BH))
    as (z1 & cc4 & R4 & Hx4 & L4 & H1); [intros; apply Hmul; [lia|done]|done..|].
  advance Hx4. pose proof (ext_ok _ _ _ Hx4) as Hok4.
  destruct (mul_fresh_ok mul r cc4 (Nat.min (h * 2) R) a_high b_high AH BH)
    as (z2 & cc5 & R5 & Hx5 & L5 & H2); [intros; apply Hmul; [lia|done]|done..|].
  advance Hx5. pose proof (ext_ok _ _ _ Hx5) as Hok5.
  rewrite mod_min in H0 by (apply mul_bound; [rewrite <- Lal|rewrite <- Lbl]; apply word_bounds).
  destruct (karatsuba_combine_ok cc5 r z0 z1 z2 mid AL AH BL BH ((h + 1) * 2) (h * 2) kept)
    as (os & cc6 & E6 & Hd & W); try done; [fold R; lia|lia|nia|apply mul_bound; lia|by apply mul_bound|].
  assert (Hx05 : ext [] cc cc5).
  { repeat (eapply ext_trans; [eassumption| |intros w _ [?|?]; eassumption]). by apply ext_refl. }
  exists os, cc6. split_and!; [|by apply (delivers_after _ _ _ _ _ _ Hx05)|done].
  rewrite R1, R2, R3, L2, L3, Nat.max_id, R4, R5. exact E6.
Qed.

(** [new_karatsuba_multiplier] returns, with the product. *)
Lemma new_karatsuba_multiplier_ok limit fuel : 3 <= limit -> forall a b r cc (m := Nat.max (length a) (length b)),
  m <= fuel -> 1 <= m -> length r <= 2 \/ 2 <= m -> ready cc (Some <$> r) (a ++ b) ->
  exists os cc', new_karatsuba_multiplier fuel limit a b r cc = (Ok os, cc') /\
    delivers (Some <$> r) (kept_slots m) cc cc' os /\
    (word (val cc') os = (word (val cc) a * word (val cc) b) mod 2 ^ Z.of_nat (length r))%Z.
Proof.
  intros Hlim. induction fuel as [|fuel IH]; intros a b r cc m Hm Hm1 Hr Hrd; [lia|].
  destruct (operands_ok _ _ _ _ Hrd) as (a' & b' & cc0 & E0 & Hx0 & HT0 & La & Lb & Sa & Sb & ->).
  pose proof (rd_nodup _ _ _ Hrd) as Hnd. rewrite given_some in Hnd. fold m in La, Lb.
  simpl new_karatsuba_multiplier. rewrite (st_bind_ok _ _ _ _ _ E0).
  set (at_ := take (length r) a') in *. set (bt := take (length r) b') in *.
  destruct (Nat.leb_spec (length at_) limit) as [Hle|Hgt].
  - destruct (array_body_ok cc0 at_ bt r m (ext_ok _ _ _ Hx0) Hnd HT0 Sa Sb La Lb Hr Hm1) as (os & cc' & E & Hd & W).
    exists os, cc'. split_and!; [|by apply (delivers_after _ _ _ _ _ _ Hx0)|done].
    unfold new_array_multiplier, zero_pad. rewrite La, Lb, Nat.eqb_refl.
    rewrite run_ret.
    by rewrite !take_ge by lia.
  - destruct (karatsuba_step_ok (new_karatsuba_multiplier fuel limit) cc0 at_ bt r (kept_slots m))
      as (os & cc' & E & Hd & W); try done; [|apply Hx0|lia|lia|].
    + intros x y z cc1 Hlen Hrd1. destruct (IH x y z cc1) as (os & cc' & H); [lia|lia|lia|done|].
      by exists os, cc', (kept_slots (Nat.max (length x) (length y))).
    + exists os, cc'. split_and!; [exact E|by apply (delivers_after _ _ _ _ _ _ Hx0)|done].
Qed.
End multiplier.

(** ** The properties of the generators *)

(** An adder computes the sum of its operands modulo the width of its
    result, for operands of any two widths and whatever the other wires carry:
    it drives the result wires it is handed (all of them up to the carry's),
    allocates the missing ones, and leaves every other wire of the circuit, the
    first input and the sentinels unchanged.  A result narrower than an operand
    is refused. *)
Theorem adder_adds (ρ : assignment) cc x y result (n := Nat.max (length x) (length y)) :
  ready ρ cc result (x ++ y) ->
  (n <= length result ->
    exists os cc', new_adder x y result cc = (Ok os, cc') /\ delivers ρ result (S n) cc cc' os /\
      word (val ρ cc') os = ((word (val ρ cc) x + word (val ρ cc) y) mod 2 ^ Z.of_nat (length result))%Z) /\
  (length result < n -> exists cc', new_adder x y result cc = (Err InvalidArgument, cc')).
Proof.
  intros Hrd. split; [by apply new_adder_ok|]. intros Hlt. destruct Hrd as [Hok _ HT Hs].
  apply Forall_app in Hs as [Sx Sy].
  destruct (zero_pad_ok _ _ _ _ Hok HT Sx Sy) as (x' & y' & cc1 & E & _ & Lx & _). exists cc1. fold n in Lx.
  unfold new_adder. rewrite (st_bind_ok _ _ _ _ _ E). by rewrite (proj2 (Nat.ltb_lt _ _)) by lia.
Qed.

(** A subtractor computes the difference modulo the width of the operands
    (or of a narrower result), and its extra result bit, if there is one, is the
    borrow: set exactly when the first operand is the smaller one. *)
Theorem subtractor_subtracts (ρ : assignment) cc x y result (n := Nat.max (length x) (length y)) :
  ready ρ cc result (x ++ y) ->
  let X := word (val ρ cc) x in let Y := word (val ρ cc) y in
  exists os cc', new_subtractor x y result cc = (Ok os, cc') /\ delivers ρ result (S n) cc cc' os /\
    (word (val ρ cc') os = (X - Y) mod 2 ^ Z.of_nat (Nat.min n (length result)) +
       if (n <? length result)%nat && (X <? Y) then 2 ^ Z.of_nat n else 0)%Z.
Proof. apply new_subtractor_ok. Qed.

(** A multiplexer passes its first data operand when the selector wire is
    0 and its second when it is 1, cut or zero-extended to the result; it fails
    exactly on an empty selector. *)
Theorem mux_selects (ρ : assignment) cc sel a b result :
  ready ρ cc result (sel ++ a ++ b) ->
  match sel with
  | [] => new_mux sel a b result cc = (Err InvalidArgument, cc)
  | s :: _ =>
      exists os cc', new_mux sel a b result cc = (Ok os, cc') /\
        delivers ρ result (length result) cc cc' os /\
        word (val ρ cc') os =
          ((if val ρ cc s then word (val ρ cc) b else word (val ρ cc) a) mod 2 ^ Z.of_nat (length result))%Z
  end.
Proof.
  intros [Hok Hnd HT Hs]. destruct sel as [|s sel]; [done|]. apply mux_loop_ok. split; try done.
  rewrite <- app_comm_cons, Forall_cons, Forall_app in Hs. apply Forall_cons. tauto.
Qed.

(** C32. The multiplier returns for every threshold and every pair of operands
    (the recursion of Karatsuba's method ends: the depth never exceeds the
    operand width), and the wires it returns carry the product of the operands
    modulo the width of the result.  The operands are not both empty; a result
    wider than two wires needs an operand of two wires. *)
Theorem multiplier_multiplies (ρ : assignment) threshold cc x y z (m := Nat.max (length x) (length y)) :
  1 <= m -> length z <= 2 \/ 2 <= m -> ready ρ cc (Some <$> z) (x ++ y) ->
  exists os cc', new_multiplier threshold x y z cc = (Ok os, cc') /\
    delivers ρ (Some <$> z) (kept_slots m) cc cc' os /\
    word (val ρ cc') os = ((word (val ρ cc) x * word (val ρ cc) y) mod 2 ^ Z.of_nat (length z))%Z.
Proof.
  intros Hm Hz Hrd. unfold new_multiplier. apply new_karatsuba_multiplier_ok; try done.
  destruct (Nat.ltb_spec threshold 8); unfold DEFAULT_ARRAY_THRESHOLD; lia.
Qed.

(** Karatsuba's method is equivalent to the array multiplier it replaces:
    emitted at the same point of a circuit, with any threshold from 3 up, the
    two produce result wires that carry the same number. *)
Theorem karatsuba_equals_array (ρ : assignment) limit cc x y z (m := Nat.max (length x) (length y)) :
  3 <= limit -> 1 <= m -> length z <= 2 \/ 2 <= m -> ready ρ cc (Some <$> z) (x ++ y) ->
  exists os1 cc1 os2 cc2,
    new_karatsuba_multiplier m limit x y z cc = (Ok os1, cc1) /\
    new_array_multiplier x y z cc = (Ok os2, cc2) /\
    word (val ρ cc1) os1 = word (val ρ cc2) os2.
Proof.
  intros Hl Hm Hz Hrd.
  destruct (new_karatsuba_multiplier_ok limit m Hl x y z cc (le_n _) Hm Hz Hrd) as (os1 & cc1 & E1 & _ & W1).
  destruct (new_array_multiplier_ok cc x y z Hrd Hm Hz) as (os2 & cc2 & E2 & _ & W2).
  exists os1, cc1, os2, cc2. split_and!; [done|done|]. by rewrite W1, W2.
Qed.

(** ** Witnesses *)

Module MultiplierDemo.

(** Four input wires, of which 0, 1 and 3 carry 1, and eight wires to drive. *)
Definition demo : Compiler := mkCompiler (replicate 12 new_wire) [0; 1; 2; 3] [] [] 0 None None None.
Definition demo_values : assignment := fun w => (w =? 0) || (w =? 1) || (w =? 3).
Definition slots (n : nat) : list (option nat) := Some <$> seq 4 n.

Lemma demo_ready n ws :
  n <= 8 -> Forall (fun w => w < 4) ws -> ready demo_values demo (slots n) ws.
Proof.
  intros Hn Hw. unfold slots. split; rewrite ?given_some.
  - split; try done; [by exists 0|]. intros w [[= <-]|[?|[?|?]]]; try done. vm_compute. lia.
  - apply NoDup_seq.
  - apply Forall_forall. intros w Hin%elem_of_seq. split; [change (num_wires demo) with 12; lia|].
    intros [[= <-]|[?|[?|?]]]; try done. lia.
  - eapply Forall_impl; [exact Hw|]. intros w Hlt. split; [change (num_wires demo) with 12; simpl in Hlt; lia|].
    rewrite elem_of_seq. simpl in Hlt. lia.
Qed.

Lemma adder_adds_witness :
  exists os cc', new_adder [0; 1] [2; 3] (slots 3) demo = (Ok os, cc') /\ word (val demo_values cc') os = 5%Z.
Proof.
  destruct (adder_adds demo_values demo [0; 1] [2; 3] (slots 3)) as [H _].
  - apply demo_ready; [lia|]. repeat (constructor; [lia|]). constructor.
  - destruct H as (os & cc' & E & _ & W); [apply le_S, le_n|]. exists os, cc'. split; [exact E|].
    rewrite W. reflexivity.
Defined.

Lemma subtractor_subtracts_witness :
  exists os cc', new_subtractor [2; 3] [0; 1] (slots 3) demo = (Ok os, cc') /\ word (val demo_values cc') os = 7%Z.
Proof.
  destruct (subtractor_subtracts demo_values demo [2; 3] [0; 1] (slots 3)) as (os & cc' & E & _ & W).
  - apply demo_ready; [lia|]. repeat (constructor; [lia|]). constructor.
  - exists os, cc'. split; [exact E|]. rewrite W. reflexivity.
Defined.

Lemma mux_selects_witness :
  exists os cc', new_mux [0] [1] [2; 3] (slots 2) demo = (Ok os, cc') /\ word (val demo_values cc') os = 2%Z.
Proof.
  destruct (mux_selects demo_values demo [0] [1] [2; 3] (slots 2)) as (os & cc' & E & _ & W).
  - apply demo_ready; [lia|]. repeat (constructor; [lia|]). constructor.
  - exists os, cc'. split; [exact E|]. rewrite W. reflexivity.
Defined.

Lemma multiplier_multiplies_witness :
  exists os cc', new_multiplier 0 [0; 1] [2; 3] (seq 4 4) demo = (Ok os, cc') /\ word (val demo_values cc') os = 6%Z.
Proof.
  destruct (multiplier_multiplies demo_values 0 demo [0; 1] [2; 3] (seq 4 4)) as (os & cc' & E & _ & W).
  - apply le_S, le_n.
  - right. apply le_n.
  - apply (demo_ready 4); [lia|]. repeat (constructor; [lia|]). constructor.
  - exists os, cc'. split; [exact E|]. rewrite W. reflexivity.
Defined.

Lemma karatsuba_equals_array_witness :
  exists os1 cc1 os2 cc2,
    new_karatsuba_multiplier 4 3 [0; 1; 2; 3] [3; 2; 1; 0] (seq 4 8) demo = (Ok os1, cc1) /\
    new_array_multiplier [0; 1; 2; 3] [3; 2; 1; 0] (seq 4 8) demo = (Ok os2, cc2) /\
    word (val demo_values cc1) os1 = word (val demo_values cc2) os2.
Proof.
  apply (karatsuba_equals_array demo_values 3 demo [0; 1; 2; 3] [3; 2; 1; 0] (seq 4 8)).
  - apply le_n.
  - do 3 apply le_S. apply le_n.
  - right. do 2 apply le_S. apply le_n.
  - apply (demo_ready 8); [lia|]. repeat (constructor; [lia|]). constructor.
Defined.

End MultiplierDemo.
