(* ===== verification/CompileCorrect.v ===== *)
(** * Compiled circuits compute what their gates say

    [compile_circuit] numbers the wires and sorts the gates; [compute] runs the
    result on integers.  For a gate list in dependency order the two agree with
    the reading of the gates as an assignment of wires that the correctness of
    the generators is stated with. *)

From stdpp Require Import sets.
From S2P Require Import Prelude Circuit CircuitCompile CircuitCorrect.

Open Scope nat_scope.

(** ** Numbering *)

(** Wires numbered so far, in the order of their numbers. *)
Record numbered (A : list nat) (cc : Compiler) : Prop := {
  nb_next : next_wire_id cc = Z.of_nat (length A);
  nb_nodup : NoDup A;
  nb_range : forall w, w ∈ A -> w < num_wires cc;
  nb_id : forall i w x, A !! i = Some w -> wires cc !! w = Some x -> wire_id x = Z.of_nat i;
  nb_free : forall w x, w ∉ A -> wires cc !! w = Some x -> wire_id x = UNASSIGNED_ID;
}.

(** The numbering changes nothing but the wires' numbers. *)
Definition same_gates (cc cc' : Compiler) : Prop :=
  num_wires cc' = num_wires cc /\ gates cc' = gates cc /\
  input_wires cc' = input_wires cc /\ output_wires cc' = output_wires cc.

Lemma same_gates_refl cc : same_gates cc cc.
Proof. done. Qed.
Lemma same_gates_trans a b c : same_gates a b -> same_gates b c -> same_gates a c.
Proof. unfold same_gates. intuition congruence. Qed.

Lemma numbered_length A cc : numbered A cc -> length A <= num_wires cc.
Proof.
  intros H. rewrite <- (length_seq (num_wires cc) 0). apply submseteq_length, NoDup_submseteq; [apply H|].
  intros w Hw. apply elem_of_seq. pose proof (nb_range _ _ H w Hw). lia.
Qed.

Section numbering.
Context (small : nat) (Hsmall : (Z.of_nat small < u32_max)%Z).

Lemma number_wire_ok A cc w :
  numbered A cc -> num_wires cc <= small -> w ∉ A -> w < num_wires cc ->
  exists cc', number_wire w cc = (Ok tt, cc') /\ numbered (A ++ [w]) cc' /\ same_gates cc cc'.
Proof.
  intros Hn Hs Hw Hlt. pose proof (numbered_length _ _ Hn) as Hl. destruct Hn as [Hnext Hnd Hr Hid Hfree].
  destruct (lookup_lt_is_Some_2 _ _ Hlt) as [x Ex].
  eexists. unfold number_wire, take_wire_id, set_wire_id, mbind, st_bind. rewrite Hnext.
  rewrite (proj2 (Z.eqb_neq _ _)) by lia. simpl. rewrite Ex. split; [reflexivity|].
  split; [|unfold same_gates, num_wires; simpl; rewrite length_insert; done]. split; simpl.
  - rewrite length_app. simpl. lia.
  - apply NoDup_app. split_and!; [done| |apply NoDup_singleton]. intros v Hv ->%list_elem_of_singleton. done.
  - intros v [Hv| ->%list_elem_of_singleton]%elem_of_app; unfold num_wires; simpl; rewrite length_insert; auto.
  - intros i v y [Hi|[Hi Hv]]%lookup_app_Some Hy.
    + assert (v <> w) by (intros ->; apply Hw; by eapply list_elem_of_lookup_2).
      rewrite list_lookup_insert_ne in Hy by done. by eapply Hid.
    + apply list_lookup_singleton_Some in Hv as [Ei <-].
      rewrite list_lookup_insert_eq in Hy by done. simplify_eq. simpl. lia.
  - intros v y Hv Hy. rewrite elem_of_app, list_elem_of_singleton in Hv.
    rewrite list_lookup_insert_ne in Hy by (intros ->; tauto). apply (Hfree v); tauto.
Qed.

Lemma number_unassigned_ok A cc w :
  numbered A cc -> num_wires cc <= small -> w < num_wires cc ->
  exists cc', number_unassigned w cc = (Ok tt, cc') /\
    numbered (if decide (w ∈ A) then A else A ++ [w]) cc' /\ same_gates cc cc'.
Proof.
  intros Hn Hs Hlt. unfold number_unassigned. destruct (lookup_lt_is_Some_2 _ _ Hlt) as [x Ex]. rewrite Ex.
  pose proof (numbered_length _ _ Hn) as Hl. unfold assigned. destruct (decide (w ∈ A)) as [Hin|Hin].
  - apply list_elem_of_lookup in Hin as [i Hi]. rewrite (nb_id _ _ Hn _ _ _ Hi Ex).
    pose proof (lookup_lt_Some _ _ _ Hi). unfold UNASSIGNED_ID. rewrite (proj2 (Z.eqb_neq _ _)) by lia.
    exists cc. by split_and!.
  - rewrite (nb_free _ _ Hn _ _ Hin Ex), Z.eqb_refl. simpl. by apply number_wire_ok.
Qed.

(** Steps that only add numbers for wires satisfying [P]. *)
Definition adds (P : nat -> Prop) (m : emit unit) (W : list nat) : Prop :=
  forall A cc, numbered A cc -> num_wires cc <= small -> (forall w, w ∈ W -> w < num_wires cc) ->
  exists B cc', m cc = (Ok tt, cc') /\ numbered (A ++ B) cc' /\ same_gates cc cc' /\
    Forall P B /\ (forall w, w ∈ W -> P w -> w ∈ A ++ B).

Lemma adds_ret P : adds P (mret tt) [].
Proof. intros A cc Hn _ _. exists [], cc. rewrite app_nil_r. split_and!; first [done | by constructor | set_solver]. Qed.

Lemma adds_bind P m1 m2 W1 W2 : adds P m1 W1 -> adds P m2 W2 -> adds P (m1;; m2) (W1 ++ W2).
Proof.
  intros H1 H2 A cc Hn Hs HW.
  destruct (H1 A cc Hn Hs) as (B1 & cc1 & E1 & N1 & S1 & P1 & C1); [set_solver|].
  destruct S1 as (Sn & S1). destruct (H2 (A ++ B1) cc1 N1) as (B2 & cc2 & E2 & N2 & S2 & P2 & C2);
    [lia|intros; rewrite Sn; set_solver|].
  exists (B1 ++ B2), cc2. rewrite app_assoc. split_and!; [|done| |by apply Forall_app_2|].
  - by rewrite (st_bind_ok _ _ _ _ _ E1).
  - by eapply same_gates_trans.
  - intros w [Hw|Hw]%elem_of_app HP; [|auto]. specialize (C1 w Hw HP). set_solver.
Qed.

Lemma adds_inner outs w : adds (fun w => w ∉ outs) (number_inner outs w) [w].
Proof.
  unfold number_inner. case_bool_decide as Hw.
  - intros A cc Hn _ _. exists [], cc. rewrite app_nil_r. split_and!; first [done | by constructor | set_solver].
  - intros A cc Hn Hs HW. destruct (number_unassigned_ok A cc w Hn Hs) as (cc' & E & N & S); [set_solver|].
    destruct (decide (w ∈ A)) as [Hin|Hin].
    + exists [], cc'. rewrite app_nil_r. split_and!; first [done | by constructor | set_solver].
    + exists [w], cc'. split_and!; first [done | by apply Forall_singleton | set_solver].
Qed.

(** The wires a gate reads. *)
Definition reads_of (g : Gate) : list nat := g_a g :: (if bool_decide (g_op g = Inv) then [] else [g_b g]).

Lemma adds_gate outs g : g_dead g = false -> adds (fun w => w ∉ outs) (number_gate outs g) (reads_of g ++ [g_o g]).
Proof.
  intros Hd. unfold number_gate, reads_of. rewrite Hd.
  apply (adds_bind _ _ _ [g_a g] (_ ++ _)); [apply adds_inner|]. apply adds_bind; [|apply adds_inner].
  case_bool_decide; [apply adds_ret|apply adds_inner].
Qed.

Lemma adds_each {A} P (f : A -> emit unit) (W : A -> list nat) l :
  (forall x, x ∈ l -> adds P (f x) (W x)) -> adds P (each f l) (l ≫= W).
Proof.
  induction l as [|x l IH]; intros H; [apply adds_ret|]. simpl. apply adds_bind; [apply H; set_solver|].
  apply IH. intros; apply H; set_solver.
Qed.

(** Inputs are numbered first, from 0. *)
Lemma number_inputs_ok ins : forall A cc,
  numbered A cc -> num_wires cc <= small -> NoDup (A ++ ins) -> (forall w, w ∈ ins -> w < num_wires cc) ->
  exists cc', each number_unassigned ins cc = (Ok tt, cc') /\ numbered (A ++ ins) cc' /\ same_gates cc cc'.
Proof.
  induction ins as [|w ins IH]; intros A cc Hn Hs Hnd Hr; [exists cc; by rewrite app_nil_r|].
  destruct (number_unassigned_ok A cc w Hn Hs) as (cc1 & E1 & N1 & S1); [set_solver|].
  rewrite decide_False in N1 by (apply NoDup_app in Hnd as (_ & Hd & _); intros Hin; apply (Hd w Hin); set_solver).
  destruct S1 as (Sn & S1). destruct (IH (A ++ [w]) cc1 N1) as (cc2 & E2 & N2 & S2);
    [lia|by rewrite <- app_assoc|intros; rewrite Sn; set_solver|].
  exists cc2. rewrite <- app_assoc in N2. split_and!; [|done|by eapply same_gates_trans].
  simpl. by rewrite (st_bind_ok _ _ _ _ _ E1).
Qed.

(** Outputs are numbered last, one after the other. *)
Lemma number_outputs_ok outs : forall A cc,
  numbered A cc -> num_wires cc <= small -> NoDup (A ++ outs) -> (forall w, w ∈ outs -> w < num_wires cc) ->
  exists cc', each number_wire outs cc = (Ok tt, cc') /\ numbered (A ++ outs) cc' /\ same_gates cc cc'.
Proof.
  induction outs as [|w outs IH]; intros A cc Hn Hs Hnd Hr; [exists cc; by rewrite app_nil_r|].
  destruct (number_wire_ok A cc w Hn Hs) as (cc1 & E1 & N1 & S1); [|set_solver|].
  { apply NoDup_app in Hnd as (_ & Hd & _). intros Hin. apply (Hd w Hin). set_solver. }
  destruct S1 as (Sn & S1). destruct (IH (A ++ [w]) cc1 N1) as (cc2 & E2 & N2 & S2);
    [lia|by rewrite <- app_assoc|intros; rewrite Sn; set_solver|].
  exists cc2. rewrite <- app_assoc in N2. split_and!; [|done|by eapply same_gates_trans].
  simpl. by rewrite (st_bind_ok _ _ _ _ _ E1).
Qed.
End numbering.

(** Gates whose wires are all known when they run: the inputs and what earlier
    gates drive; no wire is driven twice. *)
Fixpoint ordered (known : list nat) (gs : list Gate) : bool :=
  match gs with
  | [] => true
  | g :: gs' =>
      negb (g_dead g) && bool_decide (Forall (fun w => w ∈ known) (reads_of g)) &&
      bool_decide (g_o g ∉ known) && ordered (g_o g :: known) gs'
  end.

Lemma ordered_live known gs : ordered known gs = true -> Forall (fun g => g_dead g = false) gs.
Proof.
  revert known. induction gs as [|g gs IH]; intros known H; [constructor|].
  simpl in H. bool_to_prop. constructor; [done|by eapply IH].
Qed.

Lemma number_wires_ok cc (ins := input_wires cc) (outs := output_wires cc) :
  numbered [] cc -> (Z.of_nat (num_wires cc) < u32_max)%Z -> NoDup (ins ++ outs) ->
  (forall w, w ∈ ins ++ outs -> w < num_wires cc) ->
  (forall g w, g ∈ gates cc -> w ∈ reads_of g ++ [g_o g] -> w < num_wires cc) ->
  Forall (fun g => g_dead g = false) (gates cc) ->
  exists B cc', number_wires cc = (Ok tt, cc') /\ numbered (ins ++ B ++ outs) cc' /\ same_gates cc cc' /\
    (forall g w, g ∈ gates cc -> w ∈ reads_of g ++ [g_o g] -> w ∈ ins ++ B ++ outs).
Proof.
  intros Hn Hs Hnd Hr Hg Hd. pose proof Hnd as (Hni & Hio & Hno)%NoDup_app.
  destruct (number_inputs_ok _ Hs ins [] cc Hn (le_n _)) as (cc1 & E1 & N1 & S1); [done|set_solver|]. simpl in N1.
  assert (Hadds : adds (num_wires cc) (fun w => w ∉ outs) (each (number_gate outs) (gates cc))
    (gates cc ≫= fun g => reads_of g ++ [g_o g])).
  { apply (adds_each _ Hs). intros g Hin. apply adds_gate; [done|]. rewrite Forall_forall in Hd. auto. }
  destruct (Hadds ins cc1 N1) as (B & cc2 & E2 & N2 & S2 & PB & CB).
  { destruct S1 as [-> _]. done. }
  { intros w Hw. destruct S1 as [-> _]. apply list_elem_of_bind in Hw as (g & Hw & Hin). eauto. }
  pose proof (same_gates_trans _ _ _ S1 S2) as S02.
  assert (Hnd2 : NoDup ((ins ++ B) ++ outs)).
  { apply NoDup_app. split_and!; [apply N2| |done]. intros w [Hw|Hw]%elem_of_app; [auto|].
    rewrite Forall_forall in PB. auto. }
  destruct (number_outputs_ok _ Hs outs (ins ++ B) cc2 N2) as (cc3 & E3 & N3 & S3); [by destruct S02 as [-> _]|done| |].
  { intros w Hw. destruct S02 as [-> _]. set_solver. }
  exists B, cc3. rewrite <- app_assoc in N3. split_and!; [|done|by eapply same_gates_trans|].
  - unfold number_wires. fold ins outs. by rewrite (st_bind_ok _ _ _ _ _ E1), (st_bind_ok _ _ _ _ _ E2).
  - intros g w Hin Hw. destruct (decide (w ∈ outs)); [set_solver|]. rewrite app_assoc, elem_of_app. left.
    apply CB; [|done]. apply list_elem_of_bind. eauto.
Qed.

(** ** Compilation and sorting *)

(** A compiled gate in the numbering [A]. *)
Record translates (A : list nat) (g : Gate) (c : CGate) : Prop := {
  tr_input0 : A !! cg_input0 c = Some (g_a g);
  tr_input1 : g_op g <> Inv -> A !! cg_input1 c = Some (g_b g);
  tr_output : A !! cg_output c = Some (g_o g);
  tr_op : cg_op c = g_op g;
}.

Lemma id_of_ok A cc i w : numbered A cc -> A !! i = Some w -> id_of cc w = Ok i.
Proof.
  intros Hn Hi. assert (Hw : w < num_wires cc) by (apply (nb_range _ _ Hn); by eapply list_elem_of_lookup_2).
  destruct (lookup_lt_is_Some_2 _ _ Hw) as [x Ex]. unfold id_of. rewrite Ex. simpl.
  rewrite (nb_id _ _ Hn _ _ _ Hi Ex), Nat2Z.id. done.
Qed.

Lemma compile_gates_ok A cc gs :
  numbered A cc -> Forall (fun g => g_dead g = false) gs ->
  (forall g w, g ∈ gs -> w ∈ reads_of g ++ [g_o g] -> w ∈ A) -> (forall g, g ∈ gs -> g_b g < num_wires cc) ->
  exists cs, compile_gates cc gs = Ok cs /\ Forall2 (translates A) gs cs.
Proof.
  intros Hn. induction gs as [|g gs IH]; intros Hd Hin Hb; [by exists []|].
  apply Forall_cons in Hd as [Hd0 Hd]. destruct IH as (cs & Ec & Hcs); [done|set_solver|set_solver|].
  assert (Hid : forall w, w ∈ reads_of g ++ [g_o g] -> exists i, A !! i = Some w /\ id_of cc w = Ok i).
  { intros w Hw. assert (Hm : w ∈ A) by (apply (Hin g); [set_solver|done]).
    apply list_elem_of_lookup in Hm as [i Hi]. exists i. split; [done|by eapply id_of_ok]. }
  destruct (Hid (g_a g)) as (a & Ha & Ea); [unfold reads_of; set_solver|].
  destruct (Hid (g_o g)) as (o & Ho & Eo); [set_solver|].
  assert (Hgb : exists b, id_of cc (g_b g) = Ok b /\ (g_op g <> Inv -> A !! b = Some (g_b g))).
  { destruct (decide (g_op g = Inv)) as [Ei|Ei].
    - destruct (lookup_lt_is_Some_2 (wires cc) (g_b g)) as [x Ex]; [apply Hb; set_solver|].
      unfold id_of. rewrite Ex. by eexists.
    - destruct (Hid (g_b g)) as (b & Hb' & Eb); [unfold reads_of; rewrite bool_decide_false by done; set_solver|].
      by exists b. }
  destruct Hgb as (b & Eb & Hgb).
  exists (mkCGate a (if bool_decide (g_op g = Inv) then 0 else b) o (g_op g) :: cs). split.
  - simpl. rewrite Hd0. unfold compile_gate. by rewrite Ea, Eb, Eo, !outcome_bind_Ok, Ec.
  - constructor; [|done]. split; simpl; try done. intros Hi. rewrite bool_decide_false by done. auto.
Qed.

(** Wires of the known set are marked as produced. *)
Definition marks (A : list nat) (known : list nat) (produced : list bool) : Prop :=
  length produced = length A /\ forall i w, A !! i = Some w -> w ∈ known -> produced !! i = Some true.

Lemma marks_insert A known produced i w :
  NoDup A -> A !! i = Some w -> marks A known produced -> marks A (w :: known) (<[i := true]> produced).
Proof.
  intros Hnd Hi [Hl Hm]. split; [by rewrite length_insert|]. intros j v Hj Hv.
  pose proof (lookup_lt_Some _ _ _ Hj). destruct (decide (i = j)) as [->|Hne].
  - apply list_lookup_insert_eq. lia.
  - rewrite list_lookup_insert_ne by done. apply (Hm j v Hj).
    apply elem_of_cons in Hv as [->|Hv]; [|done]. destruct Hne. by eapply NoDup_lookup.
Qed.

Lemma ready_pass_ok A gs cs : NoDup A -> Forall2 (translates A) gs cs -> forall known produced,
  ordered known gs = true -> marks A known produced ->
  exists produced', ready_pass produced cs = Ok (produced', cs, []).
Proof.
  intros Hnd. induction 1 as [|g c gs cs Ht _ IH]; intros known produced Ho Hm; [by eexists|].
  simpl in Ho. bool_to_prop. destruct Ht as [T0 T1 To Top]. rewrite Forall_forall in *.
  assert (Ha : produced !! cg_input0 c = Some true).
  { apply (proj2 Hm _ _ T0). apply H2. unfold reads_of. set_solver. }
  assert (Hb : (if bool_decide (cg_op c = Inv) then mret true else unwrap (produced !! cg_input1 c)) = Ok true).
  { rewrite Top. case_bool_decide as Hi; [done|]. rewrite (proj2 Hm _ (g_b g)); [done|by apply T1|].
    apply H2. unfold reads_of. rewrite bool_decide_false by done. set_solver. }
  destruct (lookup_lt_is_Some_2 produced (cg_output c)) as [p Ep].
  { destruct Hm as [-> _]. by eapply lookup_lt_Some. }
  destruct (IH (g_o g :: known) (<[cg_output c := true]> produced)) as [produced' E]; [done|by apply marks_insert|].
  exists produced'. simpl. rewrite Ha, Hb. simpl. rewrite Ep. simpl. rewrite E. done.
Qed.

Lemma topological_ok A gs cs known produced :
  NoDup A -> Forall2 (translates A) gs cs -> ordered known gs = true -> marks A known produced ->
  topological (length cs) produced cs = Ok cs.
Proof.
  intros Hnd Ht Ho Hm. destruct (ready_pass_ok A gs cs Hnd Ht known produced Ho Hm) as [p E].
  destruct cs as [|c cs]; [done|]. cbn [length topological]. rewrite E, outcome_bind_Ok.
  destruct cs; simpl; by rewrite ?app_nil_r.
Qed.

(** ** Evaluation *)

(** A vector of wire values in the numbering [A] carries the assignment [v]. *)
Definition carries (A : list nat) (vec : list bool) (v : assignment) : Prop :=
  length vec = length A /\ forall i w, A !! i = Some w -> vec !! i = Some (v w).

Lemma compute_gate_ok A vec v g c :
  NoDup A -> translates A g c -> carries A vec v ->
  exists vec', compute_gate vec c = Ok vec' /\ carries A vec' (eval_gate v g).
Proof.
  intros Hnd [T0 T1 To Top] [Hl Hc]. unfold compute_gate. rewrite (Hc _ _ T0). simpl.
  assert (Hy : exists y, (if bool_decide (cg_op c = Inv) then mret false else unwrap (vec !! cg_input1 c)) = Ok y /\
    gate_value (cg_op c) (v (g_a g)) y = gate_value (g_op g) (v (g_a g)) (v (g_b g))).
  { rewrite Top. case_bool_decide as Hi; [exists false; by rewrite Hi|].
    rewrite (Hc _ _ (T1 Hi)). by eexists. }
  destruct Hy as (y & -> & Hv). simpl. rewrite (Hc _ _ To). simpl. rewrite Hv. eexists. split; [reflexivity|].
  split; [by rewrite length_insert|]. intros i w Hi. unfold eval_gate. destruct (Nat.eqb_spec w (g_o g)) as [->|Hne].
  - rewrite (NoDup_lookup A i _ _ Hnd Hi To). apply list_lookup_insert_eq. rewrite Hl. by eapply lookup_lt_Some.
  - rewrite list_lookup_insert_ne; [by apply Hc|]. intros <-. congruence.
Qed.

Lemma compute_gates_ok A gs cs : NoDup A -> Forall2 (translates A) gs cs -> forall vec v,
  carries A vec v -> exists vec', compute_gates vec cs = Ok vec' /\ carries A vec' (eval_gates gs v).
Proof.
  intros Hnd. induction 1 as [|g c gs cs Ht _ IH]; intros vec v Hc; [by exists vec|].
  destruct (compute_gate_ok A vec v g c Hnd Ht Hc) as (vec1 & E1 & H1). destruct (IH vec1 _ H1) as (vec' & E & H').
  exists vec'. simpl. by rewrite E1, outcome_bind_Ok.
Qed.

(** The inputs' bits on the input wires, zero elsewhere. *)
Definition input_assignment (ins : list nat) (bits : list bool) : assignment := fun w =>
  default false (position (Nat.eqb w) ins ≫= fun i => bits !! i).

(** The outputs' numbers, read off their wires. *)
Fixpoint output_words (outputs : list IOArg) (v : assignment) (outs : list nat) : list Z :=
  match outputs with
  | [] => []
  | io :: outputs' => word v (take (io_bits io) outs) :: output_words outputs' v (drop (io_bits io) outs)
  end.

Lemma bits_to_Z_word v ws : bits_to_Z (v <$> ws) = word v ws.
Proof. induction ws as [|w ws IH]; [done|]. rewrite fmap_cons. cbn [bits_to_Z word]. by rewrite IH. Qed.

Lemma collect_outputs_ok outputs v : forall outs,
  collect_outputs outputs (v <$> outs) = output_words outputs v outs.
Proof.
  induction outputs as [|io outputs IH]; intros outs; [done|]. simpl.
  by rewrite <- fmap_take, <- fmap_drop, bits_to_Z_word, IH.
Qed.

Lemma carries_drop A B vec v : carries (A ++ B) vec v -> drop (length A) vec = v <$> B.
Proof.
  intros [Hl Hc]. apply list_eq. intros i. rewrite lookup_drop, list_lookup_fmap.
  destruct (B !! i) as [w|] eqn:Ei; simpl.
  - apply Hc. by rewrite lookup_app_r, Nat.add_comm, Nat.add_sub by lia.
  - apply lookup_ge_None_2. apply lookup_ge_None_1 in Ei. rewrite Hl, length_app. lia.
Qed.

Lemma length_input_bits args : forall xs, length xs = length args -> length (input_bits args xs) = io_size args.
Proof.
  induction args as [|io args IH]; intros [|x xs] H; try done. simpl. injection H as H.
  by rewrite length_app, length_fmap, length_seq, IH.
Qed.

Lemma carries_inputs ins A bits :
  NoDup (ins ++ A) -> length bits = length ins ->
  carries (ins ++ A) (resize (length (ins ++ A)) false bits) (input_assignment ins bits).
Proof.
  intros (Hni & Hd & _)%NoDup_app Hl. split; [apply length_resize|]. intros i w Hi.
  pose proof (lookup_lt_Some _ _ _ Hi) as Hlt. unfold input_assignment.
  rewrite resize_ge by (rewrite length_app in *; lia). apply lookup_app_Some in Hi as [Hi|[Hge Hi]].
  - pose proof (lookup_lt_Some _ _ _ Hi) as Hi'. rewrite lookup_app_l by lia.
    destruct (position_exists (Nat.eqb w) ins w) as [j Ej]; [by eapply list_elem_of_lookup_2|apply Nat.eqb_refl|].
    apply position_Some in Ej as Hj. destruct Hj as (v & Hj & ->%Nat.eqb_eq & _). rewrite Ej. simpl.
    rewrite (NoDup_lookup ins j i v Hni Hj Hi). destruct (lookup_lt_is_Some_2 bits i) as [b Eb]; [lia|].
    by rewrite Eb.
  - assert (Hp : position (Nat.eqb w) ins = None).
    { apply position_None. intros x Hx. apply Nat.eqb_neq. intros ->. apply (Hd x Hx). by eapply list_elem_of_lookup_2. }
    rewrite Hp. simpl. rewrite lookup_app_r by lia. apply lookup_replicate. split; [done|].
    rewrite length_app in *. lia.
Qed.

(** ** The compiled circuit *)

(** A compiler whose gates are ready to be compiled for the declarations
    [inputs] and [outputs]. *)
Record compilable (inputs outputs : list IOArg) (cc : Compiler) : Prop := {
  cp_fresh : next_wire_id cc = 0%Z /\ Forall (fun x => wire_id x = UNASSIGNED_ID) (wires cc);
  cp_small : (Z.of_nat (num_wires cc) < u32_max)%Z;
  cp_io : NoDup (input_wires cc ++ output_wires cc);
  cp_io_range : forall w, w ∈ input_wires cc ++ output_wires cc -> w < num_wires cc;
  cp_gates : forall g, g ∈ gates cc -> g_a g < num_wires cc /\ g_b g < num_wires cc /\ g_o g < num_wires cc;
  cp_ordered : ordered (input_wires cc) (gates cc) = true;
  cp_inputs : io_size inputs = length (input_wires cc) /\ io_size (flatten_args inputs) = length (input_wires cc);
  cp_outputs : io_size outputs = length (output_wires cc);
}.

Lemma compile_circuit_ok inputs outputs cc :
  compilable inputs outputs cc ->
  exists A B cs counts cc',
    compile_circuit inputs outputs cc =
      (Ok (mkCircuit (length cs) (length (input_wires cc ++ B ++ output_wires cc)) inputs outputs cs counts), cc') /\
    A = input_wires cc ++ B ++ output_wires cc /\ NoDup A /\ Forall2 (translates A) (gates cc) cs.
Proof.
  intros [[Hn0 Hw0] Hs Hio Hr Hg Ho [Hi1 Hi2] Hout].
  assert (Hn : numbered [] cc).
  { split; [done|constructor|set_solver|set_solver|]. intros w x _ Hx. rewrite Forall_forall in Hw0.
    apply Hw0. by eapply list_elem_of_lookup_2. }
  pose proof (ordered_live _ _ Ho) as Hd.
  destruct (number_wires_ok cc Hn Hs Hio Hr) as (B & cc1 & E1 & N1 & (Sn & Sg & Si & So) & Hin); [|done|].
  { intros g w Hgin Hw. destruct (Hg g Hgin) as (? & ? & ?). unfold reads_of in Hw.
    destruct (bool_decide _); set_unfold in Hw; naive_solver. }
  destruct (compile_gates_ok _ cc1 (gates cc) N1 Hd Hin) as (cs & E2 & Ht).
  { intros g Hgin. rewrite Sn. by apply Hg. }
  set (ins := input_wires cc) in *. set (outs := output_wires cc) in *. set (A := ins ++ B ++ outs) in *.
  assert (Hlen : length ins <= length A) by (unfold A; rewrite length_app; lia).
  exists A, B, cs, (gate_counts (List.filter (fun g => negb (g_dead g)) (gates cc1))), cc1.
  split_and!; [|done|apply N1|done].
  unfold compile_circuit. rewrite (st_bind_ok _ _ _ _ _ E1).
  rewrite (st_bind_ok (st_read (fun cc => compile_gates cc (gates cc))) _ cc1 cs cc1) by
    (unfold st_read; rewrite Sg, E2; done).
  rewrite (st_bind_ok (st_read (fun cc => Ok (Z.to_nat (next_wire_id cc)))) _ cc1 (length A) cc1) by
    (unfold st_read; rewrite (nb_next _ _ N1), Nat2Z.id; done).
  rewrite (st_bind_ok (st_read _) _ cc1 _ cc1) by reflexivity.
  rewrite (proj2 (Nat.ltb_ge _ _)) by lia. rewrite run_ret.
  rewrite (st_bind_ok (st_read _) _ cc1 cs cc1); [done|]. unfold st_read. f_equal.
  apply (topological_ok A (gates cc) cs ins); [apply N1|done|done|].
  split; [rewrite length_app, !length_replicate; lia|]. intros i w Hi Hwin.
  assert (Hii : ins !! i = Some w).
  { apply list_elem_of_lookup in Hwin as [j Hj]. rewrite <- (NoDup_lookup A j i w (nb_nodup _ _ N1)); [done| |done].
    unfold A. rewrite lookup_app_l; [done|by eapply lookup_lt_Some]. }
  pose proof (lookup_lt_Some _ _ _ Hii). rewrite lookup_app_l by (rewrite length_replicate; lia).
  apply lookup_replicate. split; [done|lia].
Qed.

Lemma compile_then_compute inputs outputs cc values :
  compilable inputs outputs cc -> length values = length (flatten_args inputs) ->
  exists c cc', compile_circuit inputs outputs cc = (Ok c, cc') /\
    compute c values =
      Ok (output_words outputs
            (eval_gates (gates cc) (input_assignment (input_wires cc) (input_bits (flatten_args inputs) values)))
            (output_wires cc)).
Proof.
  intros Hc Hv. destruct (compile_circuit_ok _ _ _ Hc) as (A & B & cs & counts & cc' & E & HA & Hnd & Ht).
  destruct (cp_inputs _ _ _ Hc) as [Hi1 Hi2]. pose proof (cp_outputs _ _ _ Hc) as Hout.
  set (ins := input_wires cc) in *. set (outs := output_wires cc) in *. rewrite <- HA in E.
  eexists _, cc'. split; [exact E|]. unfold compute. simpl. rewrite Hv, Nat.eqb_refl. simpl.
  set (bits := input_bits (flatten_args inputs) values).
  assert (Hb : length bits = length ins) by (unfold bits; rewrite length_input_bits; done).
  assert (Hl : length A = length ins + length B + length outs) by (rewrite HA, !length_app; lia).
  rewrite (drop_ge bits) by lia. simpl.
  pose proof (carries_inputs ins (B ++ outs) bits) as Hin. rewrite <- HA in Hin.
  destruct (compute_gates_ok A (gates cc) cs Hnd Ht _ _ (Hin Hnd Hb)) as (vec & Ev & Hvec).
  rewrite Ev, outcome_bind_Ok, Hout, (proj2 (Nat.ltb_ge _ _)) by lia.
  replace (length A - length outs) with (length (ins ++ B)) by (rewrite length_app; lia).
  rewrite HA, app_assoc in Hvec. rewrite (carries_drop _ _ _ _ Hvec). by rewrite collect_outputs_ok.
Qed.

(** C33. Compiling and running agree with the gates: for gates in dependency
    order over numbered-from-scratch wires, [compile_circuit] succeeds, and
    [compute] on any input integers returns, for each declared output, the number
    that the gates, read in order as an assignment of wires, put on its wires
    when the input wires carry the bits of the inputs and all others start at
    0. *)
Theorem compiled_circuit_computes inputs outputs cc values :
  compilable inputs outputs cc -> length values = length (flatten_args inputs) ->
  exists c cc', compile_circuit inputs outputs cc = (Ok c, cc') /\
    compute c values =
      Ok (output_words outputs
            (eval_gates (gates cc) (input_assignment (input_wires cc) (input_bits (flatten_args inputs) values)))
            (output_wires cc)).
Proof. apply compile_then_compute. Qed.

(** ** Witness: one AND gate, as in the tests of [circuit.rs] *)

Definition and_compiler : Compiler :=
  mkCompiler (replicate 3 new_wire) [0; 1] [2] [new_gate And 0 1 2] 0 None None None.
Definition bit_arg : IOArg := mkIOArg 1 [].

Lemma compiled_circuit_computes_witness :
  exists c cc', compile_circuit [bit_arg; bit_arg] [bit_arg] and_compiler = (Ok c, cc') /\
    compute c [1; 1]%Z = Ok [1%Z].
Proof.
  destruct (compiled_circuit_computes [bit_arg; bit_arg] [bit_arg] and_compiler [1; 1]%Z) as (c & cc' & E & Hc).
  - split; try reflexivity.
    + split; [reflexivity|]. by repeat constructor.
    + by apply (bool_decide_unpack _).
    + intros w Hw. apply list_elem_of_In in Hw. simpl in Hw. unfold num_wires. simpl. lia.
    + intros g Hg%list_elem_of_singleton. subst g. unfold num_wires. simpl. lia.
    + split; reflexivity.
  - reflexivity.
  - exists c, cc'. split; [exact E|]. rewrite Hc. reflexivity.
Defined.
