(* ===== verification/WiredGates.v ===== *)
(** * Gate lists in dependency order

    [compile_circuit] keeps the meaning of a gate list whose gates only read
    wires that are inputs or are driven earlier, and that drives no wire twice.
    The adder and the subtractor emit such lists. *)

From stdpp Require Import sets.
From S2P Require Import Prelude Circuit CircuitCompile CircuitCorrect CompileCorrect.

Open Scope nat_scope.

Definition known (cc : Compiler) (w : nat) : Prop := w ∈ input_wires cc \/ w ∈ (g_o <$> gates cc).

(** A wire to be driven. *)
Definition undriven (cc : Compiler) (w : nat) : Prop := w < num_wires cc /\ ~ known cc w.

Record wired (cc : Compiler) : Prop := {
  wd_fresh : next_wire_id cc = 0%Z /\ Forall (fun x => wire_id x = UNASSIGNED_ID) (wires cc);
  wd_head : exists i0, head (input_wires cc) = Some i0;
  wd_known : forall w, known cc w -> w < num_wires cc;
  wd_sentinels : forall w, c_inv_i0 cc = Some w \/ c_zero cc = Some w \/ c_one cc = Some w -> known cc w;
  wd_gates : forall g, g ∈ gates cc -> g_a g < num_wires cc /\ g_b g < num_wires cc /\ g_o g < num_wires cc;
  wd_ordered : ordered (input_wires cc) (gates cc) = true;
}.

(** [cc'] comes after [cc], with at most [n] more wires, having driven [W]. *)
Record wires_ext (n : nat) (W : list nat) (cc cc' : Compiler) : Prop := {
  wx_wired : wired cc';
  wx_num : num_wires cc <= num_wires cc' <= num_wires cc + n;
  wx_io : input_wires cc' = input_wires cc /\ output_wires cc' = output_wires cc;
  wx_known : forall w, known cc w -> known cc' w;
  wx_free : forall w, w < num_wires cc -> known cc' w -> known cc w \/ w ∈ W;
}.

Lemma wires_ext_refl n W cc : wired cc -> wires_ext n W cc cc.
Proof. split; auto; lia. Qed.

Lemma wires_ext_trans n1 n2 n W1 W2 W a b c :
  wires_ext n1 W1 a b -> wires_ext n2 W2 b c -> n1 + n2 <= n ->
  (forall w, w < num_wires a -> w ∈ W1 \/ w ∈ W2 -> w ∈ W) -> wires_ext n W a c.
Proof.
  intros [A1 A2 [A3 A3'] A4 A5] [B1 B2 [B3 B3'] B4 B5] Hn HW. split; [done|lia|split; congruence|auto|].
  intros w Hw Hk. destruct (B5 w) as [Hb|Hb]; [lia|done| |auto]. destruct (A5 w Hw Hb); auto.
Qed.

Lemma undriven_ext n W cc cc' w : wires_ext n W cc cc' -> undriven cc w -> w ∉ W -> undriven cc' w.
Proof.
  intros Hx [Hw Hk] Hn. destruct (wx_num _ _ _ _ Hx). split; [lia|]. intros Hk'.
  destruct (wx_free _ _ _ _ Hx w Hw Hk'); auto.
Qed.

(** ** Steps *)

Lemma ordered_snoc gs g : forall K,
  ordered K gs = true -> g_dead g = false ->
  (forall w, w ∈ reads_of g -> w ∈ K \/ w ∈ (g_o <$> gs)) -> g_o g ∉ K -> g_o g ∉ (g_o <$> gs) ->
  ordered K (gs ++ [g]) = true.
Proof.
  induction gs as [|h gs IH]; intros K Ho Hd Hr Hk Hn; simpl in Ho |- *.
  - rewrite Hd. rewrite bool_decide_true by (apply Forall_forall; intros w Hw; destruct (Hr w Hw); set_solver).
    by rewrite bool_decide_true.
  - apply andb_prop in Ho as [Hh Ho]. rewrite Hh. apply (IH _ Ho); [done| | |].
    + intros w Hw. destruct (Hr w Hw); set_solver.
    + rewrite fmap_cons in Hn. set_solver.
    + rewrite fmap_cons in Hn. set_solver.
Qed.

Lemma alloc_wired cc :
  wired cc ->
  alloc_wire cc = (Ok (num_wires cc), grow cc 1 []) /\ wires_ext 1 [] cc (grow cc 1 []) /\
  undriven (grow cc 1 []) (num_wires cc).
Proof.
  intros [Hf Hh Hk Hs Hg Ho].
  assert (Hkn : forall w, known (grow cc 1 []) w <-> known cc w) by
    (intros w; unfold known, grow; simpl; by rewrite app_nil_r).
  split_and!.
  - unfold alloc_wire, grow, set_gates, set_wires. simpl. by rewrite app_nil_r.
  - split; [|rewrite num_grow; lia|done|naive_solver|naive_solver].
    split; try done; rewrite ?num_grow.
    + split; [apply Hf|]. simpl. apply Forall_app_2; [apply Hf|by apply Forall_singleton].
    + intros w Hw%Hkn%Hk. lia.
    + intros w Hw. by apply Hkn, Hs.
    + simpl. rewrite app_nil_r. intros g Hin%Hg. lia.
    + simpl. by rewrite app_nil_r.
  - split; [rewrite num_grow; lia|]. intros Hw%Hkn%Hk. lia.
Qed.

Lemma push_wired cc op a b o (g := new_gate op a b o) :
  wired cc -> known cc a -> known cc b \/ (op = Inv /\ b < num_wires cc) -> undriven cc o ->
  push_gate g cc = (Ok tt, grow cc 0 [g]) /\ wires_ext 0 [o] cc (grow cc 0 [g]) /\ known (grow cc 0 [g]) o.
Proof.
  intros [Hf Hh Hk Hs Hg Ho] Ha Hb [Hlt Hu].
  assert (Hkn : forall w, known (grow cc 0 [g]) w <-> known cc w \/ w = o).
  { intros w. unfold known, grow. simpl. rewrite fmap_app, elem_of_app. simpl. rewrite list_elem_of_singleton. tauto. }
  split; [apply push_gate_grow|]. split; [|apply Hkn; auto].
  split; [|rewrite num_grow; lia|done|naive_solver|].
  - split; try done; rewrite ?num_grow, ?Nat.add_0_r.
    + simpl. by rewrite app_nil_r.
    + intros w [Hw| ->]%Hkn; auto.
    + intros w Hw. apply Hkn. left. by apply Hs.
    + simpl. intros h [Hin| ->%list_elem_of_singleton]%elem_of_app; [auto|]. simpl.
      split_and!; [by apply Hk|destruct Hb as [Hb|[_ Hb]]; [by apply Hk|done]|done].
    + simpl. apply ordered_snoc; try done.
      * intros w [->|Hw]%elem_of_cons; [done|]. destruct Hb as [Hb|[Hi _]].
        -- unfold reads_of in Hw. destruct (bool_decide _); [set_solver|]. by apply list_elem_of_singleton in Hw as ->.
        -- rewrite bool_decide_true in Hw by done. set_solver.
      * intros Hin. apply Hu. by left.
      * intros Hin. apply Hu. by right.
  - intros w _ Hw. rewrite list_elem_of_singleton. by apply Hkn.
Qed.

Lemma save_wired cc i z o :
  wired cc -> (forall w, i = Some w \/ z = Some w \/ o = Some w -> known cc w) ->
  wires_ext 0 [] cc (set_sentinels cc i z o).
Proof.
  intros [Hf Hh Hk Hs Hg Ho] H.
  assert (Hkn : forall w, known (set_sentinels cc i z o) w <-> known cc w) by done.
  assert (Hn : num_wires (set_sentinels cc i z o) = num_wires cc) by done.
  split; [|lia|done|naive_solver|naive_solver]. split; done.
Qed.

Lemma mark_wired cc w v :
  wired cc -> w < num_wires cc ->
  exists cc', mark_value w v cc = (Ok tt, cc') /\ wires_ext 0 [] cc cc' /\
    (c_inv_i0 cc' = c_inv_i0 cc /\ c_zero cc' = c_zero cc /\ c_one cc' = c_one cc).
Proof.
  intros [[Hf0 Hf] Hh Hk Hs Hg Ho] Hw. unfold mark_value. destruct (lookup_lt_is_Some_2 _ _ Hw) as [x E]. rewrite E.
  eexists. split; [reflexivity|]. split; [|done]. set (ws := <[w := _]> (wires cc)).
  assert (Hl : length ws = num_wires cc) by apply length_insert.
  assert (Hkn : forall v, known (set_wires cc ws) v <-> known cc v) by done.
  assert (Hn : num_wires (set_wires cc ws) = num_wires cc) by done.
  split; [|lia|done|naive_solver|naive_solver]. split; rewrite ?Hn; try done.
  split; [done|]. apply Forall_insert; [done|]. simpl. rewrite Forall_forall in Hf.
  apply Hf. by eapply list_elem_of_lookup_2.
Qed.

(** Allocating a wire, doing something else, then driving it. *)
Lemma wires_ext_alloc n W n2 cc cc1 cc2 :
  wires_ext 1 [] cc (grow cc 1 []) -> wires_ext n W (grow cc 1 []) cc1 -> wires_ext n2 [num_wires cc] cc1 cc2 ->
  wires_ext (1 + n + n2) W cc cc2.
Proof.
  intros H1 H2 H3. eapply wires_ext_trans; [exact H1| |apply le_n|].
  - eapply (wires_ext_trans n n2 (n + n2) W [num_wires cc] (num_wires cc :: W)); [exact H2|exact H3|lia|set_solver].
  - intros w Hw [?|Hin]; [set_solver|]. apply elem_of_cons in Hin as [->|?]; [lia|done].
Qed.

Lemma inv_i0_wired cc i0 :
  wired cc -> head (input_wires cc) = Some i0 ->
  exists w cc', inv_i0_wire cc = (Ok w, cc') /\ wires_ext 1 [] cc cc' /\ known cc' w /\
    c_zero cc' = c_zero cc /\ c_one cc' = c_one cc.
Proof.
  intros Hw Hi. unfold inv_i0_wire. destruct (c_inv_i0 cc) as [w|] eqn:E.
  { exists w, cc. split_and!; try done; [by apply wires_ext_refl|apply Hw; auto]. }
  destruct (alloc_wired cc Hw) as (Ea & Hx & Hu). set (cc1 := grow cc 1 []) in *.
  assert (Hk0 : known cc1 i0) by (left; simpl; destruct (input_wires cc); [done|injection Hi as ->; apply elem_of_cons; by left]).
  assert (H0 : 0 < num_wires cc1) by (unfold cc1; rewrite num_grow; lia).
  destruct (push_wired cc1 Inv i0 0 (num_wires cc) (wx_wired _ _ _ _ Hx) Hk0 (or_intror (conj eq_refl H0)) Hu)
    as (Ep & Hx2 & Hk).
  set (cc2 := grow cc1 0 _) in *.
  exists (num_wires cc), (set_sentinels cc2 (Some (num_wires cc)) (c_zero cc2) (c_one cc2)).
  split; [by rewrite (st_bind_ok _ _ _ _ _ Ea), (st_bind_ok _ _ _ _ _ (input0_ok cc1 i0 Hi)), (st_bind_ok _ _ _ _ _ Ep)|].
  split_and!; try done.
  eapply wires_ext_trans; [exact (wires_ext_alloc 0 [] 0 _ _ _ Hx (wires_ext_refl 0 [] _ (wx_wired _ _ _ _ Hx)) Hx2)| |apply le_n|].
  - apply save_wired; [apply Hx2|]. intros w [[= <-]|Hs]; [done|].
    apply (wd_sentinels _ (wx_wired _ _ _ _ Hx2)). auto.
  - set_solver.
Qed.

Lemma sentinel_wired {A} op v cc (k : nat -> emit A) :
  wired cc ->
  exists w cc',
    (w ← alloc_wire; i0 ← input0; inv ← inv_i0_wire; push_gate (new_gate op i0 inv w);; mark_value w v;; k w) cc
      = k w cc' /\
    wires_ext 2 [] cc cc' /\ known cc' w.
Proof.
  intros Hw. destruct (wd_head _ Hw) as [i0 Hi].
  destruct (alloc_wired cc Hw) as (Ea & Hx & Hu). set (cc1 := grow cc 1 []) in *.
  destruct (inv_i0_wired cc1 i0 (wx_wired _ _ _ _ Hx) Hi) as (inv & cc2 & Ei & Hx2 & Hki & _).
  assert (Hk0 : known cc2 i0).
  { apply (wx_known _ _ _ _ Hx2). left. simpl. destruct (input_wires cc); [done|injection Hi as ->; apply elem_of_cons; by left]. }
  assert (Hu2 : undriven cc2 (num_wires cc)) by (eapply undriven_ext; [exact Hx2|done|set_solver]).
  destruct (push_wired cc2 op i0 inv (num_wires cc) (wx_wired _ _ _ _ Hx2) Hk0 (or_introl Hki) Hu2) as (Ep & Hx3 & Hk).
  set (cc3 := grow cc2 0 _) in *.
  destruct (mark_wired cc3 (num_wires cc) v (wx_wired _ _ _ _ Hx3)) as (cc4 & Em & Hx4 & _);
    [by apply (wd_known _ (wx_wired _ _ _ _ Hx3))|].
  exists (num_wires cc), cc4. split_and!.
  - by rewrite (st_bind_ok _ _ _ _ _ Ea), (st_bind_ok _ _ _ _ _ (input0_ok cc1 i0 Hi)), (st_bind_ok _ _ _ _ _ Ei),
      (st_bind_ok _ _ _ _ _ Ep), (st_bind_ok _ _ _ _ _ Em).
  - eapply wires_ext_trans; [exact (wires_ext_alloc 1 [] 0 _ _ _ Hx Hx2 Hx3)|exact Hx4|lia|set_solver].
  - by apply (wx_known _ _ _ _ Hx4).
Qed.

Lemma zero_wired cc :
  wired cc -> exists w cc', zero_wire cc = (Ok w, cc') /\ wires_ext 2 [] cc cc' /\ known cc' w.
Proof.
  intros Hw. unfold zero_wire. destruct (c_zero cc) as [w|] eqn:E.
  { exists w, cc. split_and!; [done|by apply wires_ext_refl|apply Hw; auto]. }
  destruct (sentinel_wired And Zero cc save_zero Hw) as (w & cc1 & -> & Hx & Hk).
  eexists _, _. split; [reflexivity|]. split; [|done].
  eapply wires_ext_trans; [exact Hx|apply save_wired; [apply Hx|]|apply le_n|set_solver].
  intros v [Hv|[[= <-]|Hv]]; [|done|]; apply (wd_sentinels _ (wx_wired _ _ _ _ Hx)); auto.
Qed.

Lemma one_wired cc :
  wired cc -> exists w cc', one_wire cc = (Ok w, cc') /\ wires_ext 2 [] cc cc' /\ known cc' w.
Proof.
  intros Hw. unfold one_wire. destruct (c_one cc) as [w|] eqn:E.
  { exists w, cc. split_and!; [done|by apply wires_ext_refl|apply Hw; auto]. }
  destruct (sentinel_wired Or One cc save_one Hw) as (w & cc1 & -> & Hx & Hk).
  eexists _, _. split; [reflexivity|]. split; [|done].
  eapply wires_ext_trans; [exact Hx|apply save_wired; [apply Hx|]|apply le_n|set_solver].
  intros v [Hv|[Hv|[= <-]]]; [| |done]; apply (wd_sentinels _ (wx_wired _ _ _ _ Hx)); auto.
Qed.

(** ** Cells *)

(** A list of gates pushed at once: every read is known or driven before, and
    the driven wires are distinct undriven ones. *)
Fixpoint chain (seen : list nat) (gs : list Gate) (K U : nat -> Prop) : Prop :=
  match gs with
  | [] => True
  | g :: gs' =>
      g_op g <> Inv /\ g_dead g = false /\ (K (g_a g) \/ g_a g ∈ seen) /\ (K (g_b g) \/ g_b g ∈ seen) /\
      U (g_o g) /\ g_o g ∉ seen /\ chain (g_o g :: seen) gs' K U
  end.

Lemma chain_wired gs : forall seen cc0 cc,
  chain seen gs (known cc0) (undriven cc0) -> wires_ext 0 seen cc0 cc -> (forall w, w ∈ seen -> known cc w) ->
  wires_ext 0 ((g_o <$> gs) ++ seen) cc0 (grow cc 0 gs) /\
  (forall w, w ∈ (g_o <$> gs) ++ seen -> known (grow cc 0 gs) w).
Proof.
  induction gs as [|g gs IH]; intros seen cc0 cc Hc Hx Hs.
  { assert (E : grow cc 0 [] = cc) by (unfold grow, set_gates, set_wires; simpl; rewrite !app_nil_r; by destruct cc).
    by rewrite E. }
  destruct Hc as (Hi & Hd & Ha & Hb & Hu & Hn & Hc). destruct g as [op a b o dead]. simpl in *. subst dead.
  assert (Hkn : forall w, known cc0 w \/ w ∈ seen -> known cc w).
  { intros w [Hw|Hw]; [by apply (wx_known _ _ _ _ Hx)|auto]. }
  destruct (push_wired cc op a b o (wx_wired _ _ _ _ Hx) (Hkn _ Ha) (or_introl (Hkn _ Hb))) as (_ & Hx1 & Hko).
  { by eapply undriven_ext. }
  fold (new_gate op a b o). set (cc1 := grow cc 0 [new_gate op a b o]) in *.
  destruct (IH (o :: seen) cc0 cc1 Hc) as [Hx2 Hk2].
  { eapply wires_ext_trans; [exact Hx|exact Hx1|lia|set_solver]. }
  { intros w [->|Hw]%elem_of_cons; [done|]. apply (wx_known _ _ _ _ Hx1). auto. }
  assert (E : grow cc 0 (new_gate op a b o :: gs) = grow cc1 0 gs) by (unfold cc1; by rewrite grow_grow).
  rewrite E. split; [eapply wires_ext_trans; [exact Hx2|apply (wires_ext_refl 0 []), Hx2|lia|set_solver]|].
  intros w Hw. apply Hk2. set_solver.
Qed.

Lemma allocs_wired n : forall cc, wired cc -> wires_ext n [] cc (grow cc n []) /\
  forall w, num_wires cc <= w < num_wires cc + n -> undriven (grow cc n []) w.
Proof.
  induction n as [|n IH]; intros cc Hw.
  { assert (E : grow cc 0 [] = cc) by (unfold grow, set_gates, set_wires; simpl; rewrite !app_nil_r; by destruct cc).
    rewrite E. split; [by apply wires_ext_refl|lia]. }
  destruct (alloc_wired cc Hw) as (_ & Hx & Hu). destruct (IH _ (wx_wired _ _ _ _ Hx)) as [Hx2 Hu2].
  assert (E : grow cc (S n) [] = grow (grow cc 1 []) n []) by (by rewrite grow_grow). rewrite E.
  rewrite num_grow in Hu2. split; [eapply wires_ext_trans; [exact Hx|exact Hx2|lia|set_solver]|].
  intros w Hr. destruct (decide (w = num_wires cc)) as [->|Hne]; [|apply Hu2; lia].
  eapply undriven_ext; [exact Hx2|done|set_solver].
Qed.

(** Allocations and gates together. *)
Lemma emit_wired cc k gs (cc1 := grow cc k []) :
  wired cc -> chain [] gs (known cc1) (undriven cc1) ->
  wires_ext k (g_o <$> gs) cc (grow cc k gs) /\ (forall w, w ∈ (g_o <$> gs) -> known (grow cc k gs) w).
Proof.
  intros Hw Hc. destruct (allocs_wired k cc Hw) as [Hx _]. fold cc1 in Hx.
  destruct (chain_wired gs [] cc1 cc1 Hc) as [Hx2 Hk2]; [apply wires_ext_refl, Hx|set_solver|].
  rewrite app_nil_r in *. assert (E : grow cc k gs = grow cc1 0 gs) by (unfold cc1; rewrite grow_grow; f_equal; lia).
  rewrite E. split; [|done]. eapply wires_ext_trans; [exact Hx|exact Hx2|lia|set_solver].
Qed.

Lemma full_adder_wired cc a b cin s c :
  wired cc -> known cc a -> known cc b -> known cc cin -> undriven cc s -> undriven cc c -> s <> c ->
  exists cc', new_full_adder a b cin s c cc = (Ok tt, cc') /\ wires_ext 3 [s; c] cc cc' /\ known cc' s /\ known cc' c.
Proof.
  intros Hw Ha Hb Hd Hs Hc Hne. set (n := num_wires cc).
  set (gs := [new_gate Xor a b n; new_gate Xor n cin s; new_gate And a b (S n);
              new_gate And n cin (S (S n)); new_gate Xor (S n) (S (S n)) c]).
  destruct (allocs_wired 3 cc Hw) as [Hx Hu].
  destruct (emit_wired cc 3 gs Hw) as [He Hk].
  { simpl. pose proof (fun w H => wx_known _ _ _ _ Hx w H) as Hkn. destruct Hs as [Hs1 Hs2], Hc as [Hc1 Hc2].
    assert (Us : undriven (grow cc 3 []) s) by (eapply undriven_ext; [exact Hx|done|set_solver]).
    assert (Uc : undriven (grow cc 3 []) c) by (eapply undriven_ext; [exact Hx|done|set_solver]).
    fold n in Hs1, Hc1, Hu. rewrite !not_elem_of_cons.
    split_and!; try done; auto; try (apply Hu; lia); try (right; rewrite !elem_of_cons; auto; fail); try lia;
      try apply not_elem_of_nil. }
  exists (grow cc 3 gs). split_and!.
  - unfold new_full_adder, gs, n. by emits.
  - eapply wires_ext_trans; [exact He|apply (wires_ext_refl 0 []), He|lia|]. intros w Hw' [Hin|?]; [|set_solver].
    simpl in Hin. rewrite !elem_of_cons in *. fold n in Hw'. intuition lia.
  - apply Hk. simpl. rewrite !elem_of_cons. auto.
  - apply Hk. simpl. rewrite !elem_of_cons. auto 10.
Qed.

Lemma slot_wired cc r :
  wired cc -> Forall (undriven cc) (given [r]) ->
  exists o cc', slot r cc = (Ok o, cc') /\ wires_ext 1 [] cc cc' /\ undriven cc' o /\
    (o ∈ given [r] \/ num_wires cc <= o).
Proof.
  intros Hw Hr. destruct r as [w|]; simpl.
  - exists w, cc. inversion Hr. split_and!; [done|by apply wires_ext_refl|done|]. left. apply elem_of_cons. by left.
  - destruct (alloc_wired cc Hw) as (E & Hx & Hu). eexists _, _. split_and!; [exact E|done|done|by right].
Qed.

Lemma adder_cell_wired cc x y carry r :
  wired cc -> Forall (undriven cc) (given [r]) -> known cc x -> known cc y -> known cc carry ->
  exists nc o cc',
    (forall A (k : nat -> nat -> emit A),
      (new_carry ← alloc_wire; o ← slot r; new_full_adder x y carry o new_carry;; k new_carry o) cc = k nc o cc') /\
    wires_ext 5 (given [r]) cc cc' /\ known cc' nc /\ known cc' o.
Proof.
  intros Hw Hr Kx Ky Kc. destruct (alloc_wired cc Hw) as (Ea & Hx1 & Hu1). set (cc1 := grow cc 1 []) in *.
  destruct (slot_wired cc1 r) as (o & cc2 & Es & Hx2 & Ho & Hg); [apply Hx1| |].
  { eapply Forall_impl; [exact Hr|]. intros w Hwr. eapply undriven_ext; [exact Hx1|done|set_solver]. }
  assert (Hlt : o ∈ given [r] /\ o < num_wires cc \/ num_wires cc < o).
  { destruct Hg as [Hg|Hg]; [left; split; [done|]; rewrite Forall_forall in Hr; by apply Hr|right].
    unfold cc1 in Hg. rewrite num_grow in Hg. lia. }
  pose proof (fun w H => wx_known _ _ _ _ Hx2 w (wx_known _ _ _ _ Hx1 w H)) as Hkn.
  assert (Hu2 : undriven cc2 (num_wires cc)) by (eapply undriven_ext; [exact Hx2|done|set_solver]).
  destruct (full_adder_wired cc2 x y carry o (num_wires cc) (wx_wired _ _ _ _ Hx2)) as (cc3 & E3 & Hx3 & Ko & Kn);
    auto; [lia|].
  exists (num_wires cc), o, cc3. split_and!; [|..|done|done].
  - intros A k. by rewrite (st_bind_ok _ _ _ _ _ Ea), (st_bind_ok _ _ _ _ _ Es), (st_bind_ok _ _ _ _ _ E3).
  - eapply (wires_ext_trans 2 3 5 [] [o; num_wires cc]); [|exact Hx3|lia|].
    + eapply wires_ext_trans; [exact Hx1|exact Hx2|lia|set_solver].
    + intros w Hlt' [?|Hin]; [set_solver|]. rewrite elem_of_cons, list_elem_of_singleton in Hin.
      destruct Hin as [->|?]; [destruct Hlt as [[? ?]|?]; [done|lia]|lia].
Qed.

Lemma subtractor_loop_wired x : forall y result carry cc,
  wired cc -> length y = length x -> length result <= length x ->
  NoDup (given result) -> Forall (undriven cc) (given result) ->
  Forall (known cc) x -> Forall (known cc) y -> known cc carry ->
  exists os c cc', subtractor_loop x y result carry cc = (Ok (os, c), cc') /\
    wires_ext (5 * length x) (given result) cc cc' /\ known cc' c.
Proof.
  induction x as [|xi x IH]; intros y result carry cc Hw Hly Hlr Hnd HT Kx Ky Kc.
  { destruct y; [|done]. exists [], carry, cc. split_and!; [done|by apply wires_ext_refl|done]. }
  destruct y as [|yi y]; [done|]. apply Forall_cons in Kx as [Kxi Kx], Ky as [Kyi Ky].
  set (r := match result with r :: _ => r | [] => None end). set (rest := tail result).
  assert (Hgiven : given result = given [r] ++ given rest) by (destruct result; [done|apply given_cons]).
  rewrite Hgiven in *. apply Forall_app in HT as [HT1 HT2]. apply NoDup_app in Hnd as (_ & Hdis & Hnd).
  destruct (adder_cell_wired cc xi yi carry r Hw HT1 Kxi Kyi Kc) as (nc & o & cc1 & Hrun & Hx1 & Knc & Ko).
  pose proof (fun w H => wx_known _ _ _ _ Hx1 w H) as Hkn.
  destruct (IH y rest nc cc1) as (os & c & cc2 & E2 & Hx2 & K2); try done.
  { apply Hx1. } { by injection Hly. } { unfold rest. rewrite length_tl. simpl in Hlr. lia. }
  { rewrite Forall_forall in *. intros w Hin. eapply undriven_ext; [exact Hx1|auto|]. intros Hr. by apply (Hdis w). }
  { by eapply Forall_impl. } { by eapply Forall_impl. }
  exists (match result with _ :: _ => o :: os | [] => os end), c, cc2. split_and!; [|..|done].
  - destruct result.
    + etransitivity; [exact (Hrun _ (fun nc _ => subtractor_loop x y [] nc))|exact E2].
    + etransitivity; [exact (Hrun _ (fun nc o => '(os, c) ← subtractor_loop x y rest nc; mret (o :: os, c)))|].
      by rewrite (st_bind_ok _ _ _ _ _ E2).
  - eapply wires_ext_trans; [exact Hx1|exact Hx2|simpl; lia|set_solver].
Qed.

Lemma emit_id_wired cc i o :
  wired cc -> known cc i -> undriven cc o ->
  exists cc', emit_id i o cc = (Ok tt, cc') /\ wires_ext 2 [o] cc cc' /\ known cc' o.
Proof.
  intros Hw Ki Ho. unfold emit_id. destruct (zero_wired cc Hw) as (w & cc1 & E & Hx & Kw).
  destruct (push_wired cc1 Xor i w o (wx_wired _ _ _ _ Hx)) as (Ep & Hx2 & Ko);
    [by apply (wx_known _ _ _ _ Hx)|by left|eapply undriven_ext; [exact Hx|done|set_solver]|].
  eexists. rewrite (st_bind_ok _ _ _ _ _ E). split_and!; [exact Ep| |done].
  eapply wires_ext_trans; [exact Hx|exact Hx2|lia|set_solver].
Qed.

Lemma emit_inv_wired cc i o :
  wired cc -> known cc i -> undriven cc o ->
  exists cc', emit_inv i o cc = (Ok tt, cc') /\ wires_ext 2 [o] cc cc' /\ known cc' o.
Proof.
  intros Hw Ki Ho. unfold emit_inv. destruct (one_wired cc Hw) as (w & cc1 & E & Hx & Kw).
  destruct (push_wired cc1 Xor i w o (wx_wired _ _ _ _ Hx)) as (Ep & Hx2 & Ko);
    [by apply (wx_known _ _ _ _ Hx)|by left|eapply undriven_ext; [exact Hx|done|set_solver]|].
  eexists. rewrite (st_bind_ok _ _ _ _ _ E). split_and!; [exact Ep| |done].
  eapply wires_ext_trans; [exact Hx|exact Hx2|lia|set_solver].
Qed.

Lemma invert_all_wired y : forall cc,
  wired cc -> Forall (known cc) y ->
  exists ws cc', invert_all y cc = (Ok ws, cc') /\ wires_ext (3 * length y) [] cc cc' /\
    length ws = length y /\ Forall (known cc') ws.
Proof.
  induction y as [|yi y IH]; intros cc Hw Ky.
  { exists [], cc. split_and!; [done|by apply wires_ext_refl|done|constructor]. }
  apply Forall_cons in Ky as [Kyi Ky]. destruct (alloc_wired cc Hw) as (Ea & Hx1 & Hu).
  destruct (emit_inv_wired (grow cc 1 []) yi (num_wires cc) (wx_wired _ _ _ _ Hx1)) as (cc2 & E2 & Hx2 & Kw);
    [by apply (wx_known _ _ _ _ Hx1)|done|].
  pose proof (wires_ext_alloc 0 [] 2 _ _ _ Hx1 (wires_ext_refl 0 [] _ (wx_wired _ _ _ _ Hx1)) Hx2) as Hx02.
  destruct (IH cc2) as (ws & cc3 & E3 & Hx3 & Hl & Kws); [apply Hx2| |].
  { eapply Forall_impl; [exact Ky|]. intros w H. by apply (wx_known _ _ _ _ Hx02). }
  exists (num_wires cc :: ws), cc3. split_and!.
  - simpl. by rewrite (st_bind_ok _ _ _ _ _ Ea), (st_bind_ok _ _ _ _ _ E2), (st_bind_ok _ _ _ _ _ E3).
  - eapply wires_ext_trans; [exact Hx02|exact Hx3|simpl; lia|set_solver].
  - simpl. by rewrite Hl.
  - constructor; [by apply (wx_known _ _ _ _ Hx3)|done].
Qed.

(** ** Adder and subtractor *)

Lemma zero_pad_wired cc x y :
  wired cc -> Forall (known cc) x -> Forall (known cc) y ->
  exists x' y' cc', zero_pad x y cc = (Ok (x', y'), cc') /\ wires_ext 2 [] cc cc' /\
    length x' = Nat.max (length x) (length y) /\ length y' = Nat.max (length x) (length y) /\
    Forall (known cc') x' /\ Forall (known cc') y'.
Proof.
  intros Hw Kx Ky. unfold zero_pad. destruct (Nat.eqb_spec (length x) (length y)) as [E|E].
  { exists x, y, cc. split_and!; try done; [by apply wires_ext_refl|lia|lia]. }
  destruct (zero_wired cc Hw) as (w & cc1 & E1 & Hx & Kw). rewrite (st_bind_ok _ _ _ _ _ E1).
  assert (Hk : forall l n, Forall (known cc) l -> Forall (known cc1) (l ++ replicate n w)).
  { intros l n Hl. apply Forall_app_2; [|by apply Forall_replicate]. eapply Forall_impl; [exact Hl|].
    intros v Hv. by apply (wx_known _ _ _ _ Hx). }
  eexists _, _, cc1. split; [reflexivity|]. split_and!; auto; autorewrite with quil_len; lia.
Qed.

Lemma finish_result_wired last cc carry rest :
  (forall cc i o, wired cc -> known cc i -> undriven cc o ->
    exists cc', last i o cc = (Ok tt, cc') /\ wires_ext 2 [o] cc cc' /\ known cc' o) ->
  wired cc -> Forall (undriven cc) (given rest) -> known cc carry ->
  exists os cc', finish_result last carry rest cc = (Ok os, cc') /\ wires_ext 5 (given rest) cc cc'.
Proof.
  intros Hlast Hw HT Kc. destruct rest as [|r rest]; unfold finish_result.
  { rewrite (st_bind_ok _ _ cc [] cc) by done. destruct (zero_wired cc Hw) as (w & cc1 & E & Hx & _).
    rewrite (st_bind_ok _ _ _ _ _ E). eexists _, cc1. split; [reflexivity|].
    eapply wires_ext_trans; [exact Hx|apply (wires_ext_refl 0 []), Hx|lia|set_solver]. }
  rewrite given_cons in *. apply Forall_app in HT as [HT _].
  destruct (slot_wired cc r Hw HT) as (o & cc1 & Es & Hx1 & Hu & Hg).
  destruct (Hlast cc1 carry o (wx_wired _ _ _ _ Hx1)) as (cc2 & E2 & Hx2 & Ko);
    [by apply (wx_known _ _ _ _ Hx1)|done|].
  rewrite (st_bind_ok _ _ cc [o] cc2) by (by rewrite (st_bind_ok _ _ _ _ _ Es), (st_bind_ok _ _ _ _ _ E2)).
  destruct (zero_wired cc2 (wx_wired _ _ _ _ Hx2)) as (w & cc3 & E3 & Hx3 & _). rewrite (st_bind_ok _ _ _ _ _ E3).
  eexists _, cc3. split; [reflexivity|]. eapply (wires_ext_trans 1 4 5 [] [o]); [exact Hx1| |lia|].
  - eapply wires_ext_trans; [exact Hx2|exact Hx3|lia|set_solver].
  - intros v Hv [?|Hin]; [set_solver|]. apply list_elem_of_singleton in Hin as ->.
    destruct Hg as [Hg|Hg]; [set_solver|lia].
Qed.

Lemma ripple_wired last cc x y carry result (n := length x) :
  (forall cc i o, wired cc -> known cc i -> undriven cc o ->
    exists cc', last i o cc = (Ok tt, cc') /\ wires_ext 2 [o] cc cc' /\ known cc' o) ->
  wired cc -> length y = n -> NoDup (given result) -> Forall (undriven cc) (given result) ->
  Forall (known cc) x -> Forall (known cc) y -> known cc carry ->
  exists os cc',
    ('(os, carry) ← subtractor_loop x y (take n result) carry;
     rest ← finish_result last carry (drop n result); mret (os ++ rest)) cc = (Ok os, cc') /\
    wires_ext (5 * n + 5) (given result) cc cc'.
Proof.
  intros Hlast Hw Hy Hnd HT Kx Ky Kc.
  pose proof (given_app (take n result) (drop n result)) as Hg. rewrite take_drop in Hg.
  rewrite Hg in *. apply NoDup_app in Hnd as (Hnd & Hdis & _). apply Forall_app in HT as [HT1 HT2].
  destruct (subtractor_loop_wired x y (take n result) carry cc) as (os & c & cc1 & E1 & Hx1 & K1); try done.
  { rewrite length_take. unfold n. lia. }
  destruct (finish_result_wired last cc1 c (drop n result) Hlast) as (os2 & cc2 & E2 & Hx2); [apply Hx1| |done|].
  { rewrite Forall_forall in *. intros w Hin. eapply undriven_ext; [exact Hx1|auto|]. intros Hr. by apply (Hdis w). }
  exists (os ++ os2), cc2. split; [by rewrite (st_bind_ok _ _ _ _ _ E1), (st_bind_ok _ _ _ _ _ E2)|].
  eapply wires_ext_trans; [exact Hx1|exact Hx2|unfold n; lia|set_solver].
Qed.

Lemma undriven_all_ext n cc cc' l :
  wires_ext n [] cc cc' -> Forall (undriven cc) l -> Forall (undriven cc') l.
Proof.
  intros Hx Hl. eapply Forall_impl; [exact Hl|]. intros w Hw. eapply undriven_ext; [exact Hx|done|set_solver].
Qed.

Lemma known_all_ext n W cc cc' l : wires_ext n W cc cc' -> Forall (known cc) l -> Forall (known cc') l.
Proof. intros Hx Hl. eapply Forall_impl; [exact Hl|]. apply Hx. Qed.

Lemma new_adder_wired cc x y result (n := Nat.max (length x) (length y)) :
  wired cc -> NoDup (given result) -> Forall (undriven cc) (given result) ->
  Forall (known cc) x -> Forall (known cc) y -> n <= length result ->
  exists os cc', new_adder x y result cc = (Ok os, cc') /\ wires_ext (5 * n + 9) (given result) cc cc'.
Proof.
  intros Hw Hnd HT Kx Ky Hn.
  destruct (zero_pad_wired cc x y Hw Kx Ky) as (x' & y' & cc1 & E1 & Hx1 & Lx & Ly & Kx' & Ky'). fold n in Lx, Ly.
  destruct (zero_wired cc1 (wx_wired _ _ _ _ Hx1)) as (c & cc2 & E2 & Hx2 & Kc).
  destruct (ripple_wired emit_id cc2 x' y' c result) as (os & cc3 & E3 & Hx3); try done.
  { apply emit_id_wired. } { apply Hx2. } { lia. }
  { by eapply undriven_all_ext, undriven_all_ext. } { by eapply known_all_ext. } { by eapply known_all_ext. }
  exists os, cc3. split.
  - unfold new_adder. rewrite (st_bind_ok _ _ _ _ _ E1), (proj2 (Nat.ltb_ge _ _)) by lia.
    rewrite (st_bind_ok _ _ _ _ _ E2), <- E3. unfold mbind at 1 3, st_bind at 1 2.
    by rewrite adder_loop_eq by (rewrite ?length_take; lia).
  - assert (Hx02 : wires_ext 4 [] cc cc2) by (eapply wires_ext_trans; [exact Hx1|exact Hx2|lia|set_solver]).
    eapply wires_ext_trans; [exact Hx02|exact Hx3|lia|set_solver].
Qed.

Lemma new_subtractor_wired cc x y result (n := Nat.max (length x) (length y)) :
  wired cc -> NoDup (given result) -> Forall (undriven cc) (given result) ->
  Forall (known cc) x -> Forall (known cc) y ->
  exists os cc', new_subtractor x y result cc = (Ok os, cc') /\ wires_ext (8 * n + 9) (given result) cc cc'.
Proof.
  intros Hw Hnd HT Kx Ky.
  destruct (zero_pad_wired cc x y Hw Kx Ky) as (x' & y' & cc1 & E1 & Hx1 & Lx & Ly & Kx' & Ky'). fold n in Lx, Ly.
  destruct (invert_all_wired y' cc1 (wx_wired _ _ _ _ Hx1) Ky') as (ny & cc2 & E2 & Hx2 & Ln & Kn).
  destruct (one_wired cc2 (wx_wired _ _ _ _ Hx2)) as (c & cc3 & E3 & Hx3 & Kc).
  assert (Hx03 : wires_ext (3 * n + 4) [] cc cc3).
  { assert (Hx13 : wires_ext (3 * n + 2) [] cc1 cc3) by (eapply wires_ext_trans; [exact Hx2|exact Hx3|lia|set_solver]).
    eapply wires_ext_trans; [exact Hx1|exact Hx13|lia|set_solver]. }
  destruct (ripple_wired emit_inv cc3 x' ny c result) as (os & cc4 & E4 & Hx4); try done.
  { apply emit_inv_wired. } { apply Hx3. } { lia. }
  { by eapply undriven_all_ext. }
  { apply (known_all_ext _ _ _ _ _ Hx3), (known_all_ext _ _ _ _ _ Hx2), Kx'. } { apply (known_all_ext _ _ _ _ _ Hx3), Kn. }
  exists os, cc4. split.
  - unfold new_subtractor. by rewrite (st_bind_ok _ _ _ _ _ E1), (st_bind_ok _ _ _ _ _ E2), (st_bind_ok _ _ _ _ _ E3), E4.
  - eapply wires_ext_trans; [exact Hx03|exact Hx4|lia|set_solver].
Qed.
