(* ===== verification/CircuitPipeline.v ===== *)
(** * Whole circuits: generate, compile, compute

    The adder and subtractor circuits that the tests of [circuits/compiler.rs]
    build, followed from the allocation of their wires to the integers that
    [Circuit::compute] returns; and what the pruning pass and the dividers do to
    circuits. *)

From stdpp Require Import sets.
From S2P Require Import Prelude Circuit CircuitCompile CircuitCorrect CompileCorrect MultiplierCorrect WiredGates.

Open Scope nat_scope.

(** The circuits the helpers [make_adder_circuit] and [make_sub_circuit] in the tests
    of circuits/compiler.rs build, from the generators the compiler uses and without
    the passes that ssa/circuitgen.rs runs in between ([make_optimized_circuit] below).

    A circuit of two [bits]-wide inputs and one [bits]-wide output, its gates
    emitted by [gen] into the output wires and one more slot. *)
Definition binary_compiler (bits : nat) : outcome Compiler :=
  let iw_a := seq 0 bits in
  let iw_b := seq bits bits in
  let ow := seq (2 * bits) bits in
  new_compiler (replicate (2 * bits) new_wire ++ replicate bits (set_output new_wire true)) (iw_a ++ iw_b) ow.

Definition binary_gates (gen : list nat -> list nat -> list (option nat) -> emit (list nat)) (bits : nat)
    : outcome Compiler :=
  cc ← binary_compiler bits;
  match gen (seq 0 bits) (seq bits bits) ((Some <$> seq (2 * bits) bits) ++ [None]) cc with
  | (Ok _, cc) => Ok cc
  | (Err e, _) => Err e
  | (Panic, _) => Panic
  end.

Definition binary_inputs (bits : nat) : list IOArg := [mkIOArg bits []; mkIOArg bits []].

(** [make_adder_circuit], [make_sub_circuit] *)
Definition make_circuit (gen : list nat -> list nat -> list (option nat) -> emit (list nat)) (bits : nat)
    : outcome Circuit :=
  cc ← binary_gates gen bits;
  fst (compile_circuit (binary_inputs bits) [mkIOArg bits []] cc).
Definition make_adder_circuit : nat -> outcome Circuit := make_circuit new_adder.
Definition make_sub_circuit : nat -> outcome Circuit := make_circuit new_subtractor.

Definition generator : Type := list nat -> list nat -> list (option nat) -> emit (list nat).

(** ** Integers on wires *)

Lemma bits_of_Z x n : bits_to_Z ((fun bit => Z.testbit x (Z.of_nat bit)) <$> seq 0 n) = (x mod 2 ^ Z.of_nat n)%Z.
Proof.
  revert x. induction n as [|n IH]; intros x; [by rewrite Z.mod_1_r|].
  rewrite <- cons_seq, fmap_cons, <- fmap_S_seq, <- list_fmap_compose. cbn [bits_to_Z].
  rewrite (list_fmap_ext _ (fun bit => Z.testbit (x / 2) (Z.of_nat bit))).
  - rewrite IH, <- ripple_mod by apply b2z_bound. f_equal. rewrite Z.bit0_odd.
    pose proof (Z.div_mod x 2 ltac:(lia)) as H. rewrite Zmod_odd in H. destruct (Z.odd x); simpl; lia.
  - intros i bit _. unfold compose. rewrite <- Z.div2_div, Z.div2_spec, Z.shiftr_spec by lia.
    by rewrite Nat2Z.inj_succ.
Qed.

Lemma input_words bits a b (ins := seq 0 bits ++ seq bits bits)
    (v := input_assignment ins (input_bits (binary_inputs bits) [a; b])) :
  (word v (seq 0 bits) = a mod 2 ^ Z.of_nat bits /\ word v (seq bits bits) = b mod 2 ^ Z.of_nat bits)%Z.
Proof.
  assert (Hnd : NoDup (ins ++ [])).
  { unfold ins. rewrite app_nil_r, <- seq_app. apply NoDup_seq. }
  set (bs := input_bits (binary_inputs bits) [a; b]).
  assert (Hl : length bs = length ins).
  { unfold bs, ins. rewrite length_input_bits by done. simpl. rewrite length_app, !length_seq. lia. }
  pose proof (carries_inputs ins [] bs Hnd Hl) as Hc. rewrite app_nil_r in Hc.
  rewrite <- Hl, resize_all in Hc. apply (carries_drop [] ins) in Hc. change (drop _ bs) with bs in Hc.
  change (input_assignment ins bs) with v in Hc. unfold ins in Hc. rewrite fmap_app in Hc.
  assert (Hbs : bs = ((fun bit => Z.testbit a (Z.of_nat bit)) <$> seq 0 bits) ++
                     ((fun bit => Z.testbit b (Z.of_nat bit)) <$> seq 0 bits)) by
    (unfold bs; cbn [input_bits binary_inputs io_bits]; by rewrite app_nil_r).
  rewrite Hbs in Hc. apply app_inj_1 in Hc as [Ha Hb]; [|by rewrite !length_fmap].
  rewrite <- !bits_to_Z_word, <- Ha, <- Hb. by rewrite !bits_of_Z.
Qed.

(** ** Circuits *)

Definition binary_result (bits : nat) : list (option nat) := (Some <$> seq (2 * bits) bits) ++ [None].

Lemma given_result bits : given (binary_result bits) = seq (2 * bits) bits.
Proof. unfold binary_result. rewrite given_app, given_some. apply app_nil_r. Qed.

Lemma binary_compiler_spec bits cc :
  1 <= bits -> binary_compiler bits = Ok cc ->
  num_wires cc = 3 * bits /\ head (input_wires cc) = Some 0 /\ gates cc = [] /\
  (c_inv_i0 cc = None /\ c_zero cc = None /\ c_one cc = None) /\
  input_wires cc = seq 0 bits ++ seq bits bits /\ output_wires cc = seq (2 * bits) bits /\
  next_wire_id cc = 0%Z /\ Forall (fun x => wire_id x = UNASSIGNED_ID) (wires cc).
Proof.
  intros Hb E. unfold binary_compiler, new_compiler in E.
  destruct (seq 0 bits ++ seq bits bits) as [|w l] eqn:El; [done|].
  assert (w = 0) as -> by (by destruct bits; [lia|injection El]).
  apply (f_equal (fun o => match o with Ok c => c | _ => cc end)) in E. cbv beta iota in E. subst cc. split_and!; try done.
  - unfold num_wires, wires. rewrite length_app, !length_replicate. lia.
  - unfold wires. by apply Forall_app_2; apply Forall_replicate.
Qed.

Lemma binary_ready ρ bits cc :
  1 <= bits -> binary_compiler bits = Ok cc ->
  ready ρ cc (binary_result bits) (seq 0 bits ++ seq bits bits) /\ val ρ cc = ρ.
Proof.
  intros Hb E. destruct (binary_compiler_spec bits cc Hb E) as (Hn & Hh & Hg & (Hi & Hz & Ho) & _).
  assert (Hp : forall w, protected cc w -> w = 0) by (unfold protected; rewrite Hh, Hi, Hz, Ho; naive_solver).
  split; [|unfold val; by rewrite Hg]. split; rewrite ?given_result.
  - split; [by exists 0|intros w Hw%Hp; lia|congruence|congruence|congruence].
  - apply NoDup_seq.
  - apply Forall_forall. intros w Hw%elem_of_seq. split; [lia|]. intros ->%Hp. lia.
  - apply Forall_forall. intros w Hw. rewrite elem_of_app, !elem_of_seq in Hw. split; [lia|].
    rewrite elem_of_seq. lia.
Qed.

Lemma binary_wired bits cc :
  1 <= bits -> binary_compiler bits = Ok cc ->
  wired cc /\ NoDup (given (binary_result bits)) /\ Forall (undriven cc) (given (binary_result bits)) /\
  Forall (known cc) (seq 0 bits) /\ Forall (known cc) (seq bits bits).
Proof.
  intros Hb E. destruct (binary_compiler_spec bits cc Hb E) as (Hn & Hh & Hg & (Hi & Hz & Ho) & Hin & Hout & Hnx & Hid).
  assert (Hk : forall w, known cc w <-> w ∈ seq 0 bits ++ seq bits bits).
  { intros w. unfold known. rewrite Hg, Hin. simpl. set_solver. }
  rewrite given_result. split_and!.
  - split; [done|by exists 0| | | |].
    + intros w Hw%Hk. rewrite elem_of_app, !elem_of_seq in Hw. lia.
    + rewrite Hi, Hz, Ho. naive_solver.
    + rewrite Hg. set_solver.
    + by rewrite Hg.
  - apply NoDup_seq.
  - apply Forall_forall. intros w Hw%elem_of_seq. split; [lia|].
    rewrite Hk, elem_of_app, !elem_of_seq. lia.
  - apply Forall_forall. intros w Hw. apply Hk. set_solver.
  - apply Forall_forall. intros w Hw. apply Hk. set_solver.
Qed.

(** What a generator leaves can be compiled, if its wires can be numbered. *)
Lemma binary_compilable bits cc cc' n :
  1 <= bits -> binary_compiler bits = Ok cc -> wires_ext n (given (binary_result bits)) cc cc' ->
  (Z.of_nat (3 * bits + n) < u32_max)%Z -> compilable (binary_inputs bits) [mkIOArg bits []] cc'.
Proof.
  intros Hb E Hx Hs. destruct (binary_compiler_spec bits cc Hb E) as (Hn & _ & _ & _ & Hin & Hout & _).
  destruct Hx as [[Hf _ Hk _ Hg Ho] Hnum [Hi' Ho'] _ _]. split; rewrite ?Hi', ?Ho', ?Hin, ?Hout.
  - done.
  - lia.
  - rewrite <- seq_app. replace (2 * bits) with (0 + (bits + bits)) by lia. rewrite <- seq_app. apply NoDup_seq.
  - intros w. rewrite !elem_of_app, !elem_of_seq. lia.
  - done.
  - by rewrite <- Hin, <- Hi'.
  - rewrite length_app, !length_seq. simpl. lia.
  - rewrite length_seq. simpl. lia.
Qed.

Lemma fills_result bits os k :
  length os = length (binary_result bits) -> bits <= k -> fills (take k (binary_result bits)) (take k os) ->
  take bits os = seq (2 * bits) bits.
Proof.
  intros Hl Hk Hf. apply (Forall2_take _ _ _ bits) in Hf. rewrite !take_take, Nat.min_l in Hf by done.
  unfold binary_result in Hf. rewrite take_app_length' in Hf by (by rewrite length_fmap, length_seq).
  apply Forall2_fmap_l in Hf. symmetry. apply list_eq_Forall2. eapply Forall2_impl; [exact Hf|]. naive_solver.
Qed.

(** A generator that computes [f] modulo the output width, and emits gates in
    dependency order, makes a circuit that computes [f]. *)
Lemma make_circuit_ok (gen : generator) (f : Z -> Z -> Z) bits n a b (result := binary_result bits) :
  (forall ρ cc, ready ρ cc result (seq 0 bits ++ seq bits bits) ->
    exists os cc', gen (seq 0 bits) (seq bits bits) result cc = (Ok os, cc') /\
      delivers ρ result (S bits) cc cc' os /\
      (word (val ρ cc') os mod 2 ^ Z.of_nat bits =
       f (word (val ρ cc) (seq 0 bits)) (word (val ρ cc) (seq bits bits)))%Z) ->
  (forall cc, wired cc -> NoDup (given result) -> Forall (undriven cc) (given result) ->
    Forall (known cc) (seq 0 bits) -> Forall (known cc) (seq bits bits) ->
    exists os cc', gen (seq 0 bits) (seq bits bits) result cc = (Ok os, cc') /\ wires_ext n (given result) cc cc') ->
  1 <= bits -> (Z.of_nat (3 * bits + n) < u32_max)%Z ->
  exists c, make_circuit gen bits = Ok c /\
    compute c [a; b] = Ok [f (a mod 2 ^ Z.of_nat bits)%Z (b mod 2 ^ Z.of_nat bits)%Z].
Proof.
  intros Hgen Hwire Hb Hs. unfold make_circuit, binary_gates.
  destruct (binary_compiler bits) as [cc| |] eqn:Ecc.
  2-3: exfalso; unfold binary_compiler, new_compiler in Ecc; destruct bits; [lia|done].
  rewrite outcome_bind_Ok. change ((Some <$> seq (2 * bits) bits) ++ [None]) with result.
  set (bs := input_bits (binary_inputs bits) [a; b]). set (ρ := input_assignment (seq 0 bits ++ seq bits bits) bs).
  destruct (binary_ready ρ bits cc Hb Ecc) as [Hrd Hval].
  destruct (Hgen ρ cc Hrd) as (os & cc' & E & Hd & W). rewrite E, outcome_bind_Ok.
  destruct (binary_wired bits cc Hb Ecc) as (Hw & Hnd & Hu & Ka & Kb).
  destruct (Hwire cc Hw Hnd Hu Ka Kb) as (os' & cc0 & E' & Hx). rewrite E in E'. injection E' as <- <-.
  destruct (binary_compiler_spec bits cc Hb Ecc) as (_ & _ & _ & _ & Hin & Hout & _).
  destruct (wx_io _ _ _ _ Hx) as [Hi' Ho']. rewrite Hin in Hi'. rewrite Hout in Ho'.
  destruct (compile_then_compute (binary_inputs bits) [mkIOArg bits []] cc' [a; b]
    (binary_compilable bits cc cc' n Hb Ecc Hx Hs) eq_refl) as (c & cc2 & Ec & Hcomp).
  exists c. split; [by rewrite Ec|]. rewrite Hcomp. do 2 f_equal. cbn [output_words]. f_equal. cbn [io_bits].
  change (flatten_args (binary_inputs bits)) with (binary_inputs bits). fold bs. rewrite Hi', Ho'. fold ρ.
  change (eval_gates (gates cc') ρ) with (val ρ cc'). rewrite take_ge by (by rewrite length_seq).
  destruct (input_words bits a b) as [Wa Wb]. fold bs ρ in Wa, Wb. rewrite Hval, Wa, Wb in W. rewrite <- W.
  rewrite <- word_take. f_equal. symmetry. eapply (fills_result _ _ (S bits)); [apply Hd|lia|apply Hd].
Qed.

Lemma mod_pow_S t n : ((t mod 2 ^ Z.of_nat (n + 1)) mod 2 ^ Z.of_nat n = t mod 2 ^ Z.of_nat n)%Z.
Proof.
  pose proof (pow2_pos n). rewrite Nat2Z.inj_add, Z.pow_add_r by lia.
  rewrite Z.rem_mul_r by lia. rewrite Z.mul_comm, Z_mod_plus_full. apply Zmod_mod.
Qed.

Lemma mod_add_self t M : ((t mod M + M) mod M = t mod M)%Z.
Proof. rewrite <- (Z.mul_1_l M) at 2. by rewrite Z_mod_plus_full, Zmod_mod. Qed.

Lemma length_result bits : length (binary_result bits) = bits + 1.
Proof. unfold binary_result. by rewrite length_app, length_fmap, length_seq. Qed.

(** C31. At every width the numbering of wires allows, the adder and subtractor
    circuits, built, compiled and computed as a whole, return the sum and the
    difference of any two integers modulo the width. *)
Theorem arithmetic_circuits_compute bits a b :
  1 <= bits -> (Z.of_nat bits <= 2 ^ 28)%Z ->
  (exists c, make_adder_circuit bits = Ok c /\ compute c [a; b] = Ok [((a + b) mod 2 ^ Z.of_nat bits)%Z]) /\
  (exists c, make_sub_circuit bits = Ok c /\ compute c [a; b] = Ok [((a - b) mod 2 ^ Z.of_nat bits)%Z]).
Proof.
  intros Hb Hs. rewrite Zplus_mod, Zminus_mod. unfold u32_max in *. split.
  - apply (make_circuit_ok new_adder (fun x y => ((x + y) mod 2 ^ Z.of_nat bits)%Z) bits (5 * bits + 9)); [..|done|].
    + intros ρ cc Hrd. destruct (new_adder_ok _ _ _ _ Hrd) as (os & cc' & E & Hd & W).
      { rewrite length_result, !length_seq. lia. }
      rewrite !length_seq, Nat.max_id in Hd. exists os, cc'. split_and!; [done|done|].
      by rewrite W, length_result, mod_pow_S.
    + intros cc Hw Hnd Hu Ka Kb. destruct (new_adder_wired cc _ _ _ Hw Hnd Hu Ka Kb) as (os & cc' & E & Hx).
      { rewrite length_result, !length_seq. lia. }
      rewrite !length_seq, Nat.max_id in Hx. by exists os, cc'.
    + unfold u32_max. lia.
  - apply (make_circuit_ok new_subtractor (fun x y => ((x - y) mod 2 ^ Z.of_nat bits)%Z) bits (8 * bits + 9)); [..|done|].
    + intros ρ cc Hrd. destruct (new_subtractor_ok _ _ _ _ Hrd) as (os & cc' & E & Hd & W).
      rewrite !length_seq, Nat.max_id in Hd, W. exists os, cc'. split_and!; [done|done|].
      rewrite W, length_result, Nat.min_l by lia. clear W. destruct (_ && _).
      * apply mod_add_self.
      * by rewrite Z.add_0_r, Zmod_mod.
    + intros cc Hw Hnd Hu Ka Kb. destruct (new_subtractor_wired cc _ _ _ Hw Hnd Hu Ka Kb) as (os & cc' & E & Hx).
      rewrite !length_seq, Nat.max_id in Hx. by exists os, cc'.
    + unfold u32_max. lia.
Qed.

(** ** Constant propagation *)

Lemma set_value_value x v : wire_value (set_value x v) = v.
Proof.
  unfold wire_value, set_value, clear_bits. cbn [ovnum].
  rewrite Z.land_lor_distr_l, <- (Z.land_assoc (ovnum x)).
  change (Z.land (Z.lxor VALUE_MASK u32_max) VALUE_MASK) with 0%Z. rewrite Z.land_0_r. by destruct v.
Qed.

(** Marked values are the values [v] gives the wires. *)
Definition marks_sound (v : assignment) (cc : Compiler) : Prop :=
  forall w x, wires cc !! w = Some x ->
    (wire_value x = Zero -> v w = false) /\ (wire_value x = One -> v w = true).

Lemma propagated_sound op av bv (x y : bool) r :
  (av = Zero -> x = false) -> (av = One -> x = true) -> (bv = Zero -> y = false) -> (bv = One -> y = true) ->
  propagated op av bv = Some r -> r <> Unknown /\ gate_value op x y = bool_decide (r = One).
Proof.
  intros A0 A1 B0 B1. destruct op, av, bv; simpl; intros [= <-];
    repeat match goal with H : ?a = ?a -> _ |- _ => specialize (H eq_refl) end;
    subst; split; try done; try destruct x; try destruct y; done.
Qed.

Lemma propagate_gates_ok v gs : forall cc,
  (forall g, g ∈ gs -> v (g_o g) = gate_value (g_op g) (v (g_a g)) (v (g_b g))) ->
  (forall g, g ∈ gs -> g_a g < num_wires cc /\ g_b g < num_wires cc /\ g_o g < num_wires cc) ->
  marks_sound v cc ->
  exists cc', propagate_gates gs cc = (Ok tt, cc') /\ marks_sound v cc' /\
    gates cc' = gates cc /\ num_wires cc' = num_wires cc.
Proof.
  induction gs as [|g gs IH]; intros cc Hg Hr Hm; [by exists cc|]. simpl propagate_gates.
  destruct (Hr g) as (Ra & Rb & Ro); [set_solver|].
  destruct (lookup_lt_is_Some_2 _ _ Ra) as [xa Ea], (lookup_lt_is_Some_2 _ _ Rb) as [xb Eb],
    (lookup_lt_is_Some_2 _ _ Ro) as [xo Eo].
  rewrite (st_bind_ok _ _ cc (wire_value xa) cc) by (unfold st_read, value_of; by rewrite Ea).
  rewrite (st_bind_ok _ _ cc (wire_value xb) cc) by (unfold st_read, value_of; by rewrite Eb).
  destruct (propagated (g_op g) (wire_value xa) (wire_value xb)) as [r|] eqn:Ep.
  - destruct (Hm _ _ Ea) as [A0 A1], (Hm _ _ Eb) as [B0 B1].
    destruct (propagated_sound _ _ _ _ _ _ A0 A1 B0 B1 Ep) as [Hu Hv].
    rewrite <- (Hg g) in Hv by set_solver. unfold mark_value at 1.
    rewrite (st_bind_ok _ _ cc tt (set_wires cc (<[g_o g := set_value xo r]> (wires cc)))) by
      (unfold mark_value; by rewrite Eo).
    set (cc1 := set_wires cc _). assert (Hn : num_wires cc1 = num_wires cc) by apply length_insert.
    destruct (IH cc1) as (cc' & E & Hs & Hgs & Hn'); [set_solver|intros; rewrite Hn; set_solver| |].
    + intros w x Hx. simpl in Hx. destruct (decide (w = g_o g)) as [->|Hne].
      * rewrite list_lookup_insert_eq in Hx by done. injection Hx as <-. rewrite set_value_value, Hv.
        split; intros ->; done.
      * rewrite list_lookup_insert_ne in Hx by done. by apply Hm.
    + exists cc'. split_and!; try done. by rewrite Hn'.
  - rewrite run_ret. apply IH; [set_solver|set_solver|done].
Qed.

(** Gates in dependency order hold as equations of the final assignment. *)
Lemma ordered_equations ρ gs : forall known v,
  ordered known gs = true -> v = eval_gates gs ρ ->
  (forall w, w ∈ known -> v w = ρ w) /\
  (forall g, g ∈ gs -> v (g_o g) = gate_value (g_op g) (v (g_a g)) (v (g_b g))).
Proof.
  revert ρ. induction gs as [|g gs IH]; intros ρ known v Ho Hv; [subst; split; [done|set_solver]|].
  simpl in Ho. bool_to_prop. destruct (IH (eval_gate ρ g) (g_o g :: known) v) as [Hk Hgs]; [done|done|].
  assert (Hkn : forall w, w ∈ known -> v w = ρ w).
  { intros w Hw. rewrite Hk by set_solver. unfold eval_gate.
    destruct (Nat.eqb_spec w (g_o g)) as [->|]; [done|done]. }
  split; [done|]. intros h [->|Hh]%elem_of_cons; [|auto].
  rewrite Hk by set_solver. unfold eval_gate. rewrite Nat.eqb_refl.
  match goal with H : Forall _ (reads_of g) |- _ => rewrite Forall_forall in H; rename H into Hrd end.
  unfold reads_of in Hrd. rewrite (Hkn (g_a g)) by (apply Hrd; set_solver).
  destruct (decide (g_op g = Inv)) as [->|Hi]; [done|].
  rewrite (Hkn (g_b g)); [done|]. apply Hrd. rewrite bool_decide_false by done. set_solver.
Qed.

(** Constant propagation is sound: over gates in dependency order it
    succeeds, keeps the gates, and every wire it marks as 0 or 1 carries that
    value whatever the inputs are, if the marks it starts from do. *)
Theorem const_propagate_sound (ρ : assignment) cc :
  ordered (input_wires cc) (gates cc) = true ->
  (forall g, g ∈ gates cc -> g_a g < num_wires cc /\ g_b g < num_wires cc /\ g_o g < num_wires cc) ->
  marks_sound (val ρ cc) cc ->
  exists cc', const_propagate cc = (Ok tt, cc') /\ gates cc' = gates cc /\ marks_sound (val ρ cc) cc'.
Proof.
  intros Ho Hr Hm. destruct (ordered_equations ρ (gates cc) _ _ Ho eq_refl) as [_ Heq].
  destruct (propagate_gates_ok (val ρ cc) (gates cc) cc Heq Hr Hm) as (cc' & E & Hs & Hg & _). by exists cc'.
Qed.

(** ** Pruning and division *)

(** Nothing counts the gates that read a wire (gates are made by [Gate::new], not
    through the allocator), so pruning keeps the gates that drive outputs of the
    circuit and no others. *)
Lemma prune_keeps_output_drivers cc :
  (forall g, g ∈ gates cc -> g_dead g = false /\ g_o g < num_wires cc) ->
  (forall x, x ∈ wires cc -> num_outputs x = 0%Z) ->
  snd (prune cc) = set_gates cc (List.filter (fun g => existsb wire_output (option_list (wires cc !! g_o g))) (gates cc)).
Proof.
  intros Hg Hx. unfold prune.
  assert (Hr : forallb (fun g => g_o g <? num_wires cc) (gates cc) = true).
  { apply List.forallb_forall. intros g Hin%list_elem_of_In. by apply Nat.ltb_lt, Hg. }
  rewrite Hr. simpl. f_equal. apply List.filter_ext_in. intros g Hin%list_elem_of_In. unfold gate_live.
  destruct (Hg g Hin) as [-> Hlt]. destruct (lookup_lt_is_Some_2 _ _ Hlt) as [x E]. rewrite E. simpl.
  rewrite (Hx x) by (by eapply list_elem_of_lookup_2). by rewrite orb_false_r, orb_false_r.
Qed.

(** The optimised pipeline of the circuit generator: constants, pruning, compilation. *)
Definition make_optimized_circuit (gen : generator) (bits : nat) : outcome Circuit :=
  cc ← binary_gates gen bits;
  fst ((const_propagate;; prune;; compile_circuit (binary_inputs bits) [mkIOArg bits []]) cc).

(** The adder circuit, optimised, returns 0 for 1 + 1 (and for every sum). *)
Theorem optimized_adder_returns_zero :
  (c ← make_optimized_circuit new_adder 2; compute c [1; 1]%Z) = Ok [0%Z].
Proof. vm_compute. reflexivity. Qed.

(** The divider selects the wrong branch of its multiplexers: 1 / 1 is 2 at two
    bits. *)
Theorem divider_quotient_wrong :
  (c ← make_circuit (fun x y z => new_udivider x y (omap id z) []) 2; compute c [1; 1]%Z) = Ok [2%Z].
Proof. vm_compute. reflexivity. Qed.

(** ** Witnesses *)

Lemma arithmetic_circuits_compute_witness :
  exists c, make_adder_circuit 8 = Ok c /\ compute c [50; 100]%Z = Ok [150%Z].
Proof.
  destruct (arithmetic_circuits_compute 8 50 100) as [H _].
  - do 7 apply le_S. apply le_n.
  - discriminate.
  - exact H.
Defined.

Lemma const_propagate_sound_witness :
  exists cc', const_propagate and_compiler = (Ok tt, cc') /\ gates cc' = gates and_compiler.
Proof.
  destruct (const_propagate_sound (fun _ => true) and_compiler) as (cc' & E & Hg & _).
  - reflexivity.
  - intros g Hg%list_elem_of_singleton. subst g. unfold num_wires. simpl. lia.
  - intros w x Hx. apply list_elem_of_lookup_2, list_elem_of_In in Hx. simpl in Hx.
    destruct Hx as [<-|[<-|[<-|[]]]]; split; discriminate.
  - exists cc'. split; [exact E|exact Hg].
Defined.
