(* ===== verification/Merkle.v ===== *)
(** * The Merkle hash of the coin accumulator

    What the coin trees of [crates/quil-lattice-ct/src/confidential] share: the
    node hash ([MembershipKey], [Node] of [relation/membership.rs]) as a class,
    since the trees use it as a black box; zero subtrees; authentication paths
    and their evaluation; and the reference definition the trees are measured
    against, the node over a range of leaves ([mnode]).

    Positions are [Z] (the code's [u64]), levels are [nat]. *)

From stdpp Require Import sorting.
From S2P Require Import Prelude Bytes.

(** ** Results of the tree functions *)

Inductive TreeError : Type :=
| Capacity
| Depth
| DuplicateAddress
| Position
| MissingCoin
| Encoding
| Context.
#[global] Instance TreeError_eq_dec : EqDecision TreeError.
Proof. solve_decision. Defined.

(** [Result<A, E>] for an error type other than [QuilError]. *)
Definition result (E A : Type) : Type := sum E A.
#[global] Instance result_ret {E} : MRet (result E) := fun A a => inr a.
#[global] Instance result_bind {E} : MBind (result E) := fun A B f m =>
  match m with inl e => inl e | inr a => f a end.

(** ** Nodes and their hash *)

Definition MAX_DEPTH : nat := 32.

Class MembershipKey : Type := {
  MNode : Type;
  AmountCommitment : Type;
  Key : Type;
  node_eq_dec :: EqDecision MNode;
  NODE_BYTES : nat;
  derive : bytes -> Key;
  zero_node : MNode;
  parent : Key -> MNode -> MNode -> MNode;
  leaf : Key -> MNode -> AmountCommitment -> MNode;
  from_identity_bytes : bytes -> option MNode;
  to_bytes : MNode -> bytes;
  from_bytes : bytes -> option MNode;
}.

(** What the encodings of nodes promise ([Node::to_bytes], [Node::from_bytes]). *)
Class LawfulNodes `{MembershipKey} : Prop := {
  to_bytes_length n : length (to_bytes n) = NODE_BYTES;
  from_to_bytes n : from_bytes (to_bytes n) = Some n;
}.

Section merkle.
Context {Membership : MembershipKey}.

(** [zero_nodes]: the root of an empty subtree at every level up to [depth]. *)
Fixpoint zero_at (key : Key) (level : nat) : MNode :=
  match level with
  | O => zero_node
  | S l => parent key (zero_at key l) (zero_at key l)
  end.
Fixpoint zero_loop (key : Key) (zeros : list MNode) (n : nat) : list MNode :=
  match n with
  | O => zeros
  | S n' => let z := default zero_node (last zeros) in zero_loop key (zeros ++ [parent key z z]) n'
  end.
Definition zero_nodes (key : Key) (depth : nat) : list MNode := zero_loop key [zero_node] depth.

(** [zeros[level]]; every use is within the list. *)
Definition zero_of (zeros : list MNode) (level : nat) : MNode := nth level zeros zero_node.

Record AuthPath : Type := mkPath { siblings : list MNode; right : list bool }.

(** One step from a node to its parent along a path. *)
Definition climb (key : Key) (node : MNode) (step : MNode * bool) : MNode :=
  if step.2 then parent key step.1 node else parent key node step.1.

(** The node a path leads to from [node]: the loop of [root_from_path]. *)
Definition follow (key : Key) (node : MNode) (path : AuthPath) : MNode :=
  foldl (climb key) node (zip (siblings path) (right path)).

(** ** Reference: the node over a range of leaves

    [mnode f l i] is the node at level [l] and index [i] of the tree whose leaf
    at position [p] is [f p]. *)
Fixpoint mnode (key : Key) (f : Z -> MNode) (level : nat) (i : Z) : MNode :=
  match level with
  | O => f i
  | S l => parent key (mnode key f l (2 * i)) (mnode key f l (2 * i + 1))
  end.

(** The leaves of a list of coins: zero beyond its end. *)
Definition leaf_fn (leaves : list MNode) (p : Z) : MNode :=
  if p <? 0 then zero_node else nth (Z.to_nat p) leaves zero_node.

(** ** Lemmas *)

Lemma pow2_S l : 2 ^ Z.of_nat (S l) = 2 * 2 ^ Z.of_nat l.
Proof. rewrite Nat2Z.inj_succ, Z.pow_succ_r; lia. Qed.

Lemma zero_loop_spec key n : forall zeros l,
  (0 < length zeros)%nat ->
  (forall i, (i < length zeros)%nat -> nth i zeros zero_node = zero_at key i) ->
  (l < length zeros + n)%nat -> nth l (zero_loop key zeros n) zero_node = zero_at key l.
Proof.
  induction n as [|n IH]; intros zeros l Hpos Hz Hl; cbn [zero_loop]; [apply Hz; lia|].
  destruct (last zeros) as [z|] eqn:E; [|apply last_None in E; subst; simpl in *; lia].
  apply last_Some in E as [zs ->]. rewrite length_app in *. simpl in *.
  apply IH; rewrite ?length_app; simpl; [lia| |lia].
  intros i Hi. destruct (decide (i < length zs + 1)%nat) as [Hi'|Hi'].
  - rewrite app_nth1 by (rewrite length_app; simpl; lia). apply Hz. lia.
  - assert (i = S (length zs)) as -> by (rewrite ?length_app in Hi; simpl in Hi; lia).
    rewrite app_nth2 by (rewrite length_app; simpl; lia).
    rewrite length_app; simpl.
    replace (S (length zs) - (length zs + 1))%nat with 0%nat by lia. simpl.
    specialize (Hz (length zs) ltac:(lia)).
    rewrite app_nth2 in Hz by lia. rewrite Nat.sub_diag in Hz. simpl in Hz. by rewrite Hz.
Qed.

Lemma zero_of_nodes key depth l : (l <= depth)%nat -> zero_of (zero_nodes key depth) l = zero_at key l.
Proof.
  intros Hl. apply zero_loop_spec; simpl; [lia| |lia].
  intros [|i] Hi; [done|lia].
Qed.

Lemma length_zero_nodes key depth : length (zero_nodes key depth) = S depth.
Proof.
  unfold zero_nodes. change (S depth) with (length [zero_node] + depth)%nat.
  generalize [zero_node]. induction depth as [|n IH]; intros zs; simpl; [lia|].
  rewrite IH, length_app. simpl. lia.
Qed.

(** Two leaf functions that agree under a node give the same node. *)
Lemma mnode_ext key f g l : forall i,
  (forall p, i * 2 ^ Z.of_nat l <= p < (i + 1) * 2 ^ Z.of_nat l -> f p = g p) ->
  mnode key f l i = mnode key g l i.
Proof.
  induction l as [|l IH]; intros i H; cbn [mnode]; [apply H; lia|].
  rewrite pow2_S in H. pose proof (pow2_pos l).
  f_equal; apply IH; intros p Hp; apply H; nia.
Qed.

Lemma mnode_zero key f l i :
  (forall p, i * 2 ^ Z.of_nat l <= p < (i + 1) * 2 ^ Z.of_nat l -> f p = zero_node) ->
  mnode key f l i = zero_at key l.
Proof.
  revert i. induction l as [|l IH]; intros i H; cbn [mnode zero_at]; [apply H; lia|].
  rewrite pow2_S in H. pose proof (pow2_pos l).
  f_equal; apply IH; intros p Hp; apply H; nia.
Qed.

(** A subtree read as a tree of its own. *)
Lemma mnode_shift key f (b : Z) l : forall i (h : nat),
  mnode key (fun p => f (b * 2 ^ Z.of_nat (h + l) + p)) l i = mnode key f l (b * 2 ^ Z.of_nat h + i).
Proof.
  induction l as [|l IH]; intros i h; cbn [mnode].
  - by rewrite Nat.add_0_r.
  - rewrite <- Nat.add_succ_comm.
    rewrite (IH (2 * i) (S h)), (IH (2 * i + 1) (S h)), pow2_S.
    f_equal; f_equal; ring.
Qed.

(** Nodes of the nodes of a level are nodes. *)
Lemma mnode_mnode key f (m : nat) l : forall i,
  mnode key (mnode key f m) l i = mnode key f (l + m) i.
Proof. induction l as [|l IH]; intros i; cbn [mnode Nat.add]; [done|by rewrite !IH]. Qed.

Lemma nth_leaf_fn leaves (i : nat) : leaf_fn leaves (Z.of_nat i) = nth i leaves zero_node.
Proof. unfold leaf_fn. destruct (Z.ltb_spec (Z.of_nat i) 0); [lia|]. by rewrite Nat2Z.id. Qed.

Lemma leaf_fn_beyond leaves p : Z.of_nat (length leaves) <= p -> leaf_fn leaves p = zero_node.
Proof.
  intros Hp. unfold leaf_fn. destruct (Z.ltb_spec p 0); [done|].
  apply nth_overflow. lia.
Qed.

Lemma leaf_fn_app leaves x p :
  p < Z.of_nat (length leaves) -> leaf_fn (leaves ++ [x]) p = leaf_fn leaves p.
Proof.
  intros Hp. unfold leaf_fn. destruct (Z.ltb_spec p 0); [done|].
  apply app_nth1. lia.
Qed.

(** A path of siblings leads to the root of the reference tree. *)
Definition true_path (key : Key) (f : Z -> MNode) (from levels : nat) (i : Z) : AuthPath :=
  mkPath ((fun l => mnode key f (from + l) (Z.lxor (Z.shiftr i (Z.of_nat l)) 1)) <$> seq 0 levels)
         ((fun l => negb (Z.land (Z.shiftr i (Z.of_nat l)) 1 =? 0)) <$> seq 0 levels).

(** The sibling of an index, by parity. *)
Lemma lxor_1_even i : Z.lxor (2 * i) 1 = 2 * i + 1.
Proof.
  rewrite <- Z.add_nocarry_lxor; [done|]. apply Z.bits_inj'. intros n Hn.
  rewrite Z.land_spec, Z.bits_0. destruct (decide (n = 0)) as [->|].
  - by rewrite Z.testbit_even_0.
  - change 1 with (2 ^ 0). rewrite (Z.pow2_bits_false 0 n) by lia. apply andb_false_r.
Qed.
Lemma lxor_1_odd i : Z.lxor (2 * i + 1) 1 = 2 * i.
Proof. by rewrite <- lxor_1_even, Z.lxor_assoc, Z.lxor_nilpotent, Z.lxor_0_r. Qed.

Lemma parity i : exists j, (i = 2 * j \/ i = 2 * j + 1) /\ Z.shiftr i 1 = j.
Proof.
  exists (i / 2). rewrite Z.shiftr_div_pow2 by lia. change (2 ^ 1) with 2.
  pose proof (Z.div_mod i 2 ltac:(lia)). pose proof (Z.mod_pos_bound i 2 ltac:(lia)).
  split; [|done]. lia.
Qed.

Lemma land_1 i : Z.land i 1 = i mod 2.
Proof. change 1 with (Z.ones 1) at 1. by rewrite Z.land_ones. Qed.
Lemma land_1_even i : Z.land (2 * i) 1 = 0.
Proof. rewrite land_1. symmetry. apply Z.mod_unique with i; lia. Qed.
Lemma land_1_odd i : Z.land (2 * i + 1) 1 = 1.
Proof. rewrite land_1. symmetry. apply Z.mod_unique with i; lia. Qed.

Lemma true_path_cons key f from levels i :
  true_path key f from (S levels) i =
  mkPath (mnode key f from (Z.lxor i 1) :: siblings (true_path key f (S from) levels (Z.shiftr i 1)))
         (negb (Z.land i 1 =? 0) :: right (true_path key f (S from) levels (Z.shiftr i 1))).
Proof.
  unfold true_path. cbn [seq fmap list_fmap siblings right]. rewrite Nat.add_0_r.
  rewrite <- fmap_S_seq, <- !list_fmap_compose. f_equal; f_equal; apply list_fmap_ext;
    intros ? l _; unfold compose; rewrite Z.shiftr_shiftr by lia;
    replace (1 + Z.of_nat l) with (Z.of_nat (S l)) by lia; by rewrite ?Nat.add_succ_r.
Qed.

Lemma climb_parent key f from i :
  climb key (mnode key f from i) (mnode key f from (Z.lxor i 1), negb (Z.land i 1 =? 0)) =
  mnode key f (S from) (Z.shiftr i 1).
Proof.
  destruct (parity i) as (j & [-> | ->] & ->); unfold climb; cbn [fst snd mnode].
  - by rewrite lxor_1_even, land_1_even.
  - by rewrite lxor_1_odd, land_1_odd.
Qed.

Lemma follow_true_path key f levels : forall from i,
  follow key (mnode key f from i) (true_path key f from levels i) =
  mnode key f (from + levels) (Z.shiftr i (Z.of_nat levels)).
Proof.
  induction levels as [|n IH]; intros from i.
  - unfold follow. simpl. by rewrite Nat.add_0_r, Z.shiftr_0_r.
  - rewrite true_path_cons. unfold follow. cbn [siblings right zip foldl].
    cbn [zip_with foldl]. rewrite climb_parent.
    pose proof (IH (S from) (Z.shiftr i 1)) as E. unfold follow in E. rewrite E.
    rewrite Z.shiftr_shiftr by lia. f_equal; [lia|f_equal; lia].
Qed.

(** Two paths, the second continuing from where the first ends. *)
Definition path_app (p q : AuthPath) : AuthPath := mkPath (siblings p ++ siblings q) (right p ++ right q).

Lemma true_path_app key f from l1 l2 i :
  path_app (true_path key f from l1 i) (true_path key f (from + l1) l2 (Z.shiftr i (Z.of_nat l1))) =
  true_path key f from (l1 + l2) i.
Proof.
  unfold path_app, true_path. cbn [siblings right]. rewrite seq_app, !fmap_app.
  rewrite (Nat.add_comm 0 l1), <- (fmap_add_seq l1 0 l2), <- !list_fmap_compose.
  f_equal; f_equal; apply list_fmap_ext; intros ? l _; unfold compose;
    rewrite Z.shiftr_shiftr by lia; by rewrite <- Nat2Z.inj_add, ?Nat.add_assoc.
Qed.
End merkle.
