(* ===== verification/CoinTree.v ===== *)
(** * Coin trees, frontiers and indexed witnesses

    [crates/quil-lattice-ct/src/confidential/coin_tree.rs]: the full rebuild of
    a tree over coins in position order ([CoinTree]), the append-only frontier
    that extends its root in one pass up the levels ([Frontier]), the records
    both are stored as, and paths rebuilt from the completed nodes an appender
    emits ([IndexedTree]).

    A fixed-length array compares as the big-endian number of its bytes.  A sort
    is stable; where the code's is not, equal keys are refused right after it. *)

From stdpp Require Import sorting.
From S2P Require Import Prelude Bytes Merkle.

Definition VERSION : bytes := z2b <$> [81; 67; 84; 51; 82; 84; 0; 2].
Definition FRONTIER_VERSION : bytes := z2b <$> [81; 67; 84; 51; 70; 82; 0; 2].
Definition FRONTIER_HEADER_BYTES : nat := 8 + 32 + 1 + 8.

(** [slice[from..from + n]] *)
Definition slice (from n : nat) (l : bytes) : bytes := take n (drop from l).

(** Adjacent entries with the same key: [windows(2).any(..)]. *)
Fixpoint has_repeat {A} (key : A -> Z) (l : list A) : bool :=
  match l with
  | x :: ((y :: _) as r) => (key x =? key y) || has_repeat key r
  | _ => false
  end.

(** [sort_unstable_by_key] *)
Definition key_le {A} (key : A -> Z) (x y : A) : Prop := key x <= key y.
#[global] Instance key_le_dec {A} (key : A -> Z) x y : Decision (key_le key x y).
Proof. unfold key_le. apply _. Defined.
Definition sort_by {A} (key : A -> Z) (l : list A) : list A := merge_sort (key_le key) l.

(** [binary_search_by_key] on a slice sorted by a key without repeats. *)
Definition search {A} (key : A -> Z) (k : Z) (l : list A) : option A := List.find (fun x => key x =? k) l.

Section coins.
Context {Membership : MembershipKey}.

Record CoinRecord : Type := mkCoin {
  address : bytes;
  owner : bytes;
  commitment : AmountCommitment;
  coin_position : Z;
}.

Record RootRecord : Type := mkRoot {
  r_context : bytes;
  r_depth : nat;
  r_coins : Z;
  r_root : MNode;
}.

Definition ROOT_RECORD_BYTES : nat := 8 + 32 + 1 + 8 + NODE_BYTES.

(** [RootRecord::validate] *)
Definition root_validate (r : RootRecord) : result TreeError unit :=
  if (r_depth r =? 0)%nat || (MAX_DEPTH <? r_depth r)%nat || (2 ^ Z.of_nat (r_depth r) <? r_coins r)
  then inl Depth else inr tt.

(** [RootRecord::encode] *)
Definition root_encode (r : RootRecord) : result TreeError bytes :=
  _ ← root_validate r;
  inr (VERSION ++ r_context r ++ [z2b (Z.of_nat (r_depth r))] ++ le_bytes 8 (r_coins r) ++ to_bytes (r_root r)).

(** [RootRecord::decode] *)
Definition root_decode (bs : bytes) (context : bytes) : result TreeError RootRecord :=
  if negb (length bs =? ROOT_RECORD_BYTES)%nat || negb (bool_decide (slice 0 8 bs = VERSION)) then inl Encoding
  else if negb (bool_decide (slice 8 32 bs = context)) then inl Context
  else match from_bytes (drop 49 bs) with
       | None => inl Encoding
       | Some root =>
           let r := mkRoot context (Z.to_nat (b2z (nth 40 bs (z2b 0)))) (le_Z (slice 41 8 bs)) root in
           _ ← root_validate r; inr r
       end.

(** [depth_for]: one unit of fuel per level up to [MAX_DEPTH]. *)
Fixpoint depth_loop (fuel depth : nat) (count : Z) : nat :=
  match fuel with
  | O => depth
  | S n => if (depth <? MAX_DEPTH)%nat && (2 ^ Z.of_nat depth <? count) then depth_loop n (S depth) count else depth
  end.
Definition depth_for (count : Z) : nat := depth_loop MAX_DEPTH 1 count.

(** [committed_leaf] *)
Definition committed_leaf (key : Key) (o : bytes) (c : AmountCommitment) : MNode :=
  match from_identity_bytes o with
  | Some id => leaf key id c
  | None => zero_node
  end.

(** [is_burned_owner] *)
Definition is_burned_owner (o : bytes) : bool := bool_decide (from_identity_bytes o = None).

(** ** Frontier *)

Record Frontier : Type := mkFrontier {
  f_context : bytes;
  f_key : Key;
  f_zeros : list MNode;
  f_max_depth : nat;
  f_count : Z;
  filled : list (option MNode);
}.

Definition depth_allowed (max_depth : nat) : bool := (1 <=? max_depth)%nat && (max_depth <=? MAX_DEPTH)%nat.

(** [Frontier::new] *)
Definition new_frontier (context : bytes) (max_depth : nat) : result TreeError Frontier :=
  if negb (depth_allowed max_depth) then inl Depth
  else inr (mkFrontier context (derive context) (zero_nodes (derive context) max_depth) max_depth 0
              (replicate (S max_depth) None)).

(** [Frontier::current_depth] *)
Definition f_current_depth (fr : Frontier) : nat := depth_for (f_count fr) `min` f_max_depth fr.

Record CompletedNode : Type := mkCompleted { level : nat; index : Z; node : MNode }.

(** [Frontier::append_leaf_with]: the loop over the levels, with the nodes it
    emits.  A filled slot is taken and the carried node becomes the parent. *)
Fixpoint append_loop (key : Key) (count : Z) (lvl : nat) (slots : list (option MNode)) (n : MNode)
  : list (option MNode) * list CompletedNode :=
  match slots with
  | [] => ([], [])
  | slot :: rest =>
      let e := mkCompleted lvl (Z.shiftr count (Z.of_nat lvl)) n in
      match slot with
      | None => (Some n :: rest, [e])
      | Some l =>
          let '(rest', es) := append_loop key count (S lvl) rest (parent key l n) in
          (None :: rest', e :: es)
      end
  end.
Definition append_leaf (fr : Frontier) (n : MNode) : Frontier * list CompletedNode :=
  let '(slots, es) := append_loop (f_key fr) (f_count fr) 0 (filled fr) n in
  (mkFrontier (f_context fr) (f_key fr) (f_zeros fr) (f_max_depth fr) (f_count fr + 1) slots, es).

(** [Frontier::append_with_nodes] *)
Definition append_with_nodes (fr : Frontier) (o : bytes) (c : AmountCommitment)
  : result TreeError (Z * list CompletedNode * Frontier) :=
  if 2 ^ Z.of_nat (f_max_depth fr) <=? f_count fr then inl Capacity
  else let '(fr', es) := append_leaf fr (committed_leaf (f_key fr) o c) in inr (f_count fr, es, fr').

(** [Frontier::append] *)
Definition append (fr : Frontier) (o : bytes) (c : AmountCommitment) : result TreeError (Z * Frontier) :=
  if 2 ^ Z.of_nat (f_max_depth fr) <=? f_count fr then inl Capacity
  else inr (f_count fr, (append_leaf fr (committed_leaf (f_key fr) o c)).1).

(** The fold of [Frontier::root_at_depth] over the first [n] slots from [lvl]. *)
Fixpoint root_loop (key : Key) (zeros : list MNode) (n lvl : nat) (slots : list (option MNode)) (acc : option MNode)
  : option MNode :=
  match n, slots with
  | S n', slot :: rest =>
      root_loop key zeros n' (S lvl) rest
        match slot, acc with
        | Some l, Some r => Some (parent key l r)
        | Some l, None => Some (parent key l (zero_of zeros lvl))
        | None, Some r => Some (parent key r (zero_of zeros lvl))
        | None, None => None
        end
  | _, _ => acc
  end.

(** [Frontier::root_at_depth] *)
Definition f_root_at_depth (fr : Frontier) (depth : nat) : result TreeError RootRecord :=
  if (depth <? f_current_depth fr)%nat || (f_max_depth fr <? depth)%nat then inl Depth
  else
    let root :=
      match root_loop (f_key fr) (f_zeros fr) depth 0 (filled fr) None with
      | Some n => n
      | None => match filled fr !! depth with
                | Some (Some n) => n
                | _ => zero_of (f_zeros fr) depth
                end
      end in
    inr (mkRoot (f_context fr) depth (f_count fr) root).

(** [Frontier::encode] *)
Definition f_encode (fr : Frontier) : bytes :=
  FRONTIER_VERSION ++ f_context fr ++ [z2b (Z.of_nat (f_max_depth fr))] ++ le_bytes 8 (f_count fr) ++
  concat (to_bytes <$> omap id (filled fr)).

(** The levels of [decode]'s loop: a node for every set bit of [count]. *)
Definition bit_set (count : Z) (lvl : nat) : bool := Z.land (Z.shiftr count (Z.of_nat lvl)) 1 =? 1.
Fixpoint decode_slots (count : Z) (levels : list nat) (bs : bytes) : result TreeError (list (option MNode)) :=
  match levels with
  | [] => inr []
  | l :: ls =>
      if bit_set count l then
        match from_bytes (take NODE_BYTES bs) with
        | None => inl Encoding
        | Some n => rest ← decode_slots count ls (drop NODE_BYTES bs); inr (Some n :: rest)
        end
      else rest ← decode_slots count ls bs; inr (None :: rest)
  end.

(** [Frontier::decode] *)
Definition f_decode (bs context : bytes) (max_depth : nat) : result TreeError Frontier :=
  if (length bs <? FRONTIER_HEADER_BYTES)%nat || negb (bool_decide (slice 0 8 bs = FRONTIER_VERSION))
  then inl Encoding
  else if negb (bool_decide (slice 8 32 bs = context)) then inl Context
  else if negb (b2z (nth 40 bs (z2b 0)) =? Z.of_nat max_depth) || negb (depth_allowed max_depth) then inl Depth
  else
    let count := le_Z (slice 41 8 bs) in
    if 2 ^ Z.of_nat max_depth <? count then inl Capacity
    else
      let levels := seq 0 (S max_depth) in
      let expected := length (List.filter (bit_set count) levels) in
      if negb (length bs =? FRONTIER_HEADER_BYTES + expected * NODE_BYTES)%nat then inl Encoding
      else
        fr ← new_frontier context max_depth;
        slots ← decode_slots count levels (drop FRONTIER_HEADER_BYTES bs);
        inr (mkFrontier (f_context fr) (f_key fr) (f_zeros fr) (f_max_depth fr) count slots).

(** ** Full rebuild *)

Record CoinTree : Type := mkCoinTree {
  t_context : bytes;
  t_key : Key;
  addresses : list bytes;
  t_index : list (bytes * Z);
  layers : list (list MNode);
  t_zeros : list MNode;
  t_depth : nat;
  t_max_depth : nat;
}.

(** The node count and depth of the tree, before allocating it; at most 33
    rounds, since the width is at most [2^32]. *)
Fixpoint size_loop (fuel : nat) (width nodes : Z) (depth : nat) : option (Z * nat) :=
  match fuel with
  | O => None
  | S n =>
      match checked_add_u64 nodes width with
      | None => None
      | Some nodes' =>
          if (width =? 1) && (1 <=? depth)%nat then Some (nodes', depth)
          else size_loop n ((width + 1) / 2) nodes' (S depth)
      end
  end.

(** [previous.chunks(2).map(..)] *)
Fixpoint pair_up (key : Key) (z : MNode) (l : list MNode) : list MNode :=
  match l with
  | a :: b :: r => parent key a b :: pair_up key z r
  | [a] => [parent key a z]
  | [] => []
  end.

Fixpoint build_layers (key : Key) (zeros : list MNode) (n lvl : nat) (layer : list MNode) : list (list MNode) :=
  layer ::
  match n with
  | O => []
  | S n' => build_layers key zeros n' (S lvl) (pair_up key (zero_of zeros lvl) layer)
  end.

Definition indexed_by (l : list CoinRecord) : list (bytes * Z) :=
  sort_by (fun e : bytes * Z => be_Z e.1) ((fun c => (address c, coin_position c)) <$> l).

(** [CoinTree::build] *)
Definition build (context : bytes) (coins : list CoinRecord) (max_depth : nat) (max_nodes : Z)
  : result TreeError CoinTree :=
  if negb (depth_allowed max_depth) then inl Depth
  else if 2 ^ Z.of_nat max_depth <? Z.of_nat (length coins) then inl Capacity
  else
    match size_loop (S (S MAX_DEPTH)) (Z.max (Z.of_nat (length coins)) 1) (Z.of_nat max_depth + 1) 0 with
    | None => inl Capacity
    | Some (nodes, depth) =>
        if max_nodes <? nodes then inl Capacity
        else
          let order := sort_by coin_position coins in
          if negb (bool_decide (coin_position <$> order = Z.of_nat <$> seq 0 (length order))) then inl Position
          else
            let idx := indexed_by order in
            if has_repeat (fun e : bytes * Z => be_Z e.1) idx then inl DuplicateAddress
            else
              let key := derive context in
              let zeros := zero_nodes key max_depth in
              let leaves := (fun c => committed_leaf key (owner c) (commitment c)) <$> order in
              let leaves := match leaves with [] => [zero_of zeros 0] | _ => leaves end in
              inr (mkCoinTree context key (address <$> order) idx (build_layers key zeros depth 0 leaves)
                     zeros depth max_depth)
    end.

(** [CoinTree::coins] and [CoinTree::position] *)
Definition t_coins (t : CoinTree) : Z := Z.of_nat (length (addresses t)).
Definition t_position (t : CoinTree) (a : bytes) : option Z :=
  snd <$> search (fun e : bytes * Z => be_Z e.1) (be_Z a) (t_index t).

(** [self.layers[level][i]] *)
Definition layer_node (ls : list (list MNode)) (lvl : nat) (i : Z) : option MNode :=
  if i <? 0 then None else ls !! lvl ≫= (fun layer => layer !! Z.to_nat i).

(** [CoinTree::root_at_depth] *)
Definition t_root_at_depth (t : CoinTree) (depth : nat) : result TreeError RootRecord :=
  if (depth <? t_depth t)%nat || (t_max_depth t <? depth)%nat then inl Depth
  else
    let root0 := default zero_node (layer_node (layers t) (t_depth t) 0) in
    let root := foldl (fun r lvl => parent (t_key t) r (zero_of (t_zeros t) lvl)) root0
                  (seq (t_depth t) (depth - t_depth t)) in
    inr (mkRoot (t_context t) depth (t_coins t) root).

(** The path of an index when [sibling] finds the node at a level and index. *)
Fixpoint collect_path (sibling : nat -> Z -> MNode) (n lvl : nat) (i : Z) : AuthPath :=
  match n with
  | O => mkPath [] []
  | S n' =>
      let rest := collect_path sibling n' (S lvl) (Z.shiftr i 1) in
      mkPath (sibling lvl (Z.lxor i 1) :: siblings rest) (negb (Z.land i 1 =? 0) :: right rest)
  end.

(** [CoinTree::auth_path] *)
Definition t_auth_path (t : CoinTree) (a : bytes) (depth : nat) : result TreeError AuthPath :=
  if (depth <? t_depth t)%nat || (t_max_depth t <? depth)%nat then inl Depth
  else match t_position t a with
       | None => inl MissingCoin
       | Some i => inr (collect_path (fun lvl j => default (zero_of (t_zeros t) lvl) (layer_node (layers t) lvl j)) depth 0 i)
       end.

(** [CoinTree::frontier] *)
Definition t_frontier (t : CoinTree) : Frontier :=
  foldl (fun fr n => (append_leaf fr n).1)
    (mkFrontier (t_context t) (derive (t_context t)) (t_zeros t) (t_max_depth t) 0 (replicate (S (t_max_depth t)) None))
    (take (length (addresses t)) (default [] (layers t !! 0%nat))).

(** ** Witnesses from completed nodes *)

Inductive IndexedWitnessError (E : Type) : Type :=
| WTree (e : TreeError)
| WLookup (e : E)
| MissingNode
| RootMismatch.
Arguments WTree {E} e.
Arguments WLookup {E} e.
Arguments MissingNode {E}.
Arguments RootMismatch {E}.

Record IndexedTree : Type := mkIndexed { i_context : bytes; i_key : Key; i_zeros : list MNode }.

(** [IndexedTree::new] *)
Definition new_indexed (context : bytes) (max_depth : nat) : result TreeError IndexedTree :=
  if negb (depth_allowed max_depth) then inl Depth
  else inr (mkIndexed context (derive context) (zero_nodes (derive context) max_depth)).

Section lookup.
Context {E : Type} (lookup : nat -> Z -> result E (option MNode)).

(** [IndexedTree::subtree]; a partially occupied subtree has a level of at least
    one, so the case of level zero is not reached. *)
Fixpoint subtree (t : IndexedTree) (count : Z) (lvl : nat) (i : Z) : result (IndexedWitnessError E) MNode :=
  let start := Z.shiftl i (Z.of_nat lvl) in
  if count <=? start then inr (zero_of (i_zeros t) lvl)
  else if start + 2 ^ Z.of_nat lvl <=? count then
    match lookup lvl i with
    | inl e => inl (WLookup e)
    | inr None => inl MissingNode
    | inr (Some n) => inr n
    end
  else
    match lvl with
    | O => inl MissingNode
    | S l =>
        lhs ← subtree t count l (i * 2);
        rhs ← subtree t count l (i * 2 + 1);
        inr (parent (i_key t) lhs rhs)
    end.

(** The loop of [IndexedTree::auth_path]. *)
Fixpoint indexed_loop (t : IndexedTree) (count : Z) (n lvl : nat) (i : Z) (nd : MNode)
  : result (IndexedWitnessError E) (MNode * AuthPath) :=
  match n with
  | O => inr (nd, mkPath [] [])
  | S n' =>
      sibling ← subtree t count lvl (Z.lxor i 1);
      let r := negb (Z.land i 1 =? 0) in
      let nd' := if r then parent (i_key t) sibling nd else parent (i_key t) nd sibling in
      rest ← indexed_loop t count n' (S lvl) (Z.shiftr i 1) nd';
      inr (rest.1, mkPath (sibling :: siblings rest.2) (r :: right rest.2))
  end.

(** [IndexedTree::auth_path] *)
Definition indexed_path (t : IndexedTree) (root : RootRecord) (coin : CoinRecord)
  : result (IndexedWitnessError E) AuthPath :=
  match root_validate root with
  | inl e => inl (WTree e)
  | inr _ =>
      if negb (bool_decide (r_context root = i_context t)) then inl (WTree Context)
      else if (length (i_zeros t) <=? r_depth root)%nat then inl (WTree Depth)
      else if r_coins root <=? coin_position coin then inl (WTree MissingCoin)
      else match from_identity_bytes (owner coin) with
           | None => inl (WTree Encoding)
           | Some o =>
               res ← indexed_loop t (r_coins root) (r_depth root) 0 (coin_position coin)
                       (leaf (i_key t) o (commitment coin));
               if bool_decide (res.1 = r_root root) then inr res.2 else inl RootMismatch
           end
  end.
End lookup.
End coins.
