(* ===== verification/CoinTreeCorrect.v ===== *)
(** * Correctness of coin trees and frontiers

    The frontier's slots are the complete left nodes named by the bits of its
    count ([slots_of]); from that, its roots are the roots of the rebuilt tree,
    its completed nodes are the nodes of the tree, and its record round-trips. *)

From stdpp Require Import sorting.
From S2P Require Import Prelude Bytes Merkle CoinTree.

Section arithmetic.
(** A count whose [l] low bits are ones. *)
Lemma low_ones_step count l q :
  0 <= l -> count = q * 2 ^ l + (2 ^ l - 1) -> Z.odd q = true ->
  count = (q / 2) * 2 ^ (l + 1) + (2 ^ (l + 1) - 1).
Proof.
  intros Hl -> Ho. rewrite Z.pow_add_r, Z.pow_1_r by lia.
  pose proof (Zdiv2_odd_eqn q) as E. rewrite Ho, Z.div2_div in E. nia.
Qed.

Lemma div_pow_low count l q : 0 <= l -> count = q * 2 ^ l + (2 ^ l - 1) -> count / 2 ^ l = q.
Proof.
  intros Hl ->. pose proof (Z.pow_pos_nonneg 2 l ltac:(lia) Hl).
  symmetry. apply Z.div_unique with (2 ^ l - 1); lia.
Qed.

Lemma div_pow_S a (l : nat) : a / 2 ^ Z.of_nat (S l) = a / 2 ^ Z.of_nat l / 2.
Proof.
  rewrite pow2_S, Z.mul_comm. symmetry. apply Z.div_div; [|lia].
  pose proof (pow2_pos l). lia.
Qed.

(** Above the carry, the bits and prefixes of the count do not change. *)
Lemma div_pow_above count (l k : nat) q :
  count = q * 2 ^ Z.of_nat l + (2 ^ Z.of_nat l - 1) -> Z.odd q = false -> (l < k)%nat ->
  (count + 1) / 2 ^ Z.of_nat k = count / 2 ^ Z.of_nat k.
Proof.
  intros Hc Ho Hk. assert (exists m, k = (l + S m)%nat) as [m ->] by (exists (k - S l)%nat; lia).
  rewrite Nat2Z.inj_add, Z.pow_add_r by lia. pose proof (pow2_pos l). pose proof (pow2_pos (S m)).
  rewrite <- !Z.div_div by lia. rewrite (div_pow_low count (Z.of_nat l) q) by lia.
  replace (count + 1) with ((q + 1) * 2 ^ Z.of_nat l) by lia. rewrite Z.div_mul by lia.
  rewrite !pow2_S, <- !Z.div_div by (pose proof (pow2_pos m); lia).
  pose proof (Zdiv2_odd_eqn q) as E. rewrite Ho, Z.div2_div in E.
  f_equal. symmetry. apply Z.div_unique with 1; lia.
Qed.

Lemma shiftr_div a (l : nat) : Z.shiftr a (Z.of_nat l) = a / 2 ^ Z.of_nat l.
Proof. apply Z.shiftr_div_pow2. lia. Qed.

Lemma mod_pow_split a (l : nat) :
  a mod 2 ^ Z.of_nat (S l) = 2 ^ Z.of_nat l * (a / 2 ^ Z.of_nat l mod 2) + a mod 2 ^ Z.of_nat l.
Proof.
  rewrite pow2_S, (Z.mul_comm 2). pose proof (pow2_pos l).
  rewrite Z.rem_mul_r by lia. lia.
Qed.

Lemma mod2_odd a : a mod 2 = if Z.odd a then 1 else 0.
Proof. apply Zmod_odd. Qed.

(** Distinct depths cannot both be minimal. *)
Definition minimal_depth (count : Z) (d : nat) : Prop :=
  (1 <= d)%nat /\ count <= 2 ^ Z.of_nat d /\ ((d = 1)%nat \/ 2 ^ (Z.of_nat d - 1) < count).

Lemma minimal_depth_unique count d e : minimal_depth count d -> minimal_depth count e -> d = e.
Proof.
  assert (H : forall d e, minimal_depth count d -> minimal_depth count e -> (d < e)%nat -> False).
  { clear. intros d e (? & Hd & _) (? & _ & [->|He]) Hlt; [lia|].
    assert (2 ^ Z.of_nat d <= 2 ^ (Z.of_nat e - 1)) by (apply Z.pow_le_mono_r; lia). lia. }
  intros Hd He. destruct (lt_eq_lt_dec d e) as [[?|?]|?]; [|done|]; exfalso; eauto.
Qed.

Lemma depth_loop_minimal fuel : forall depth count,
  (1 <= depth)%nat -> (MAX_DEPTH <= depth + fuel)%nat -> (depth <= MAX_DEPTH)%nat ->
  count <= 2 ^ Z.of_nat MAX_DEPTH ->
  ((depth = 1)%nat \/ 2 ^ (Z.of_nat depth - 1) < count) -> minimal_depth count (depth_loop fuel depth count).
Proof.
  induction fuel as [|n IH]; intros depth count H1 Hf Hm Hc Hd; cbn [depth_loop].
  { assert (depth = MAX_DEPTH) as -> by lia. by repeat split. }
  destruct (Nat.ltb_spec depth MAX_DEPTH); cbn [andb].
  - destruct (Z.ltb_spec (2 ^ Z.of_nat depth) count); [|by repeat split].
    apply IH; [lia..|done|]. right. by replace (Z.of_nat (S depth) - 1) with (Z.of_nat depth) by lia.
  - assert (depth = MAX_DEPTH) as -> by lia. by repeat split.
Qed.

Lemma depth_for_minimal count : count <= 2 ^ Z.of_nat MAX_DEPTH -> minimal_depth count (depth_for count).
Proof. intros H. apply depth_loop_minimal; [unfold MAX_DEPTH; lia..|done|by left]. Qed.
End arithmetic.

Section frontier.
Context {Membership : MembershipKey}.

(** ** Slots of a frontier *)

Definition len (leaves : list MNode) : Z := Z.of_nat (length leaves).

Definition slot_of (key : Key) (leaves : list MNode) (l : nat) : option MNode :=
  let q := len leaves / 2 ^ Z.of_nat l in
  if Z.odd q then Some (mnode key (leaf_fn leaves) l (q - 1)) else None.
Definition slots_of (key : Key) (leaves : list MNode) (lvl n : nat) : list (option MNode) :=
  slot_of key leaves <$> seq lvl n.

Definition completed_of (key : Key) (leaves : list MNode) (l : nat) : CompletedNode :=
  mkCompleted l (len leaves / 2 ^ Z.of_nat l - 1) (mnode key (leaf_fn leaves) l (len leaves / 2 ^ Z.of_nat l - 1)).

(** A complete node does not change when a leaf is added. *)
Lemma mnode_app key leaves x l i :
  (i + 1) * 2 ^ Z.of_nat l <= len leaves ->
  mnode key (leaf_fn (leaves ++ [x])) l i = mnode key (leaf_fn leaves) l i.
Proof. intros H. apply mnode_ext. intros p Hp. apply leaf_fn_app. unfold len in H. lia. Qed.

Lemma len_app leaves x : len (leaves ++ [x]) = len leaves + 1.
Proof. unfold len. rewrite length_app. simpl. lia. Qed.

Lemma len_nonneg leaves : 0 <= len leaves.
Proof. unfold len. lia. Qed.

Lemma complete_below count (l : nat) :
  0 <= count -> (count / 2 ^ Z.of_nat l) * 2 ^ Z.of_nat l <= count.
Proof.
  intros H. pose proof (pow2_pos l). pose proof (Z.mul_div_le count (2 ^ Z.of_nat l) ltac:(lia)). lia.
Qed.

Lemma slot_above key leaves x (l k : nat) q :
  len leaves = q * 2 ^ Z.of_nat l + (2 ^ Z.of_nat l - 1) -> Z.odd q = false -> (l < k)%nat ->
  slot_of key (leaves ++ [x]) k = slot_of key leaves k.
Proof.
  intros Hc Ho Hk. unfold slot_of. rewrite len_app, (div_pow_above _ l k q) by done.
  destruct (Z.odd (len leaves / 2 ^ Z.of_nat k)) eqn:E; [|done]. f_equal. apply mnode_app.
  rewrite Z.sub_add. apply complete_below, len_nonneg.
Qed.

(** The carry loop from level [lvl] on: the slots become those of the longer
    list, and the nodes emitted are those the new leaf completes. *)
Lemma append_loop_spec key leaves x n : forall lvl q,
  len leaves = q * 2 ^ Z.of_nat lvl + (2 ^ Z.of_nat lvl - 1) -> 0 <= q ->
  len leaves < 2 ^ (Z.of_nat lvl + Z.of_nat n - 1) ->
  let leaves' := leaves ++ [x] in
  exists m, (m <= n)%nat /\
  append_loop key (len leaves) lvl (slots_of key leaves lvl n) (mnode key (leaf_fn leaves') lvl q) =
    (slots_of key leaves' lvl n, completed_of key leaves' <$> seq lvl m) /\
  (forall l, (lvl <= l)%nat -> (l < lvl + m)%nat <-> (2 ^ Z.of_nat l | len leaves')).
Proof.
  induction n as [|n IH]; intros lvl q Hc Hq Hcap leaves'.
  { pose proof (pow2_pos lvl). exfalso. destruct lvl as [|l]; [simpl in *; lia|].
    rewrite pow2_S in *. replace (Z.of_nat (S l) + Z.of_nat 0 - 1) with (Z.of_nat l) in Hcap by lia. nia. }
  pose proof (div_pow_low _ _ _ (Zle_0_nat lvl) Hc) as Hdiv.
  assert (Hlen' : len leaves' = (q + 1) * 2 ^ Z.of_nat lvl) by (unfold leaves'; rewrite len_app; lia).
  pose proof (pow2_pos lvl) as Hpos.
  assert (Hdiv' : len leaves' / 2 ^ Z.of_nat lvl = q + 1) by (rewrite Hlen'; apply Z.div_mul; lia).
  assert (Hlow : forall l, (lvl <= l)%nat -> (l < lvl + 1)%nat -> (2 ^ Z.of_nat l | len leaves')).
  { intros l ? ?. assert (l = lvl) as -> by lia. rewrite Hlen'. apply Z.divide_factor_r. }
  unfold slots_of. cbn [seq fmap list_fmap append_loop].
  rewrite shiftr_div, Hdiv. unfold slot_of at 1. cbv zeta. rewrite Hdiv.
  destruct (Z.odd q) eqn:Ho.
  - assert (Hc' : len leaves = (q / 2) * 2 ^ Z.of_nat (S lvl) + (2 ^ Z.of_nat (S lvl) - 1)).
    { rewrite Nat2Z.inj_succ, <- Z.add_1_r. apply low_ones_step; [lia|done..]. }
    destruct (IH (S lvl) (q / 2) Hc') as (m & Hm & E & Hall).
    { apply Z.div_pos; lia. }
    { eapply Z.lt_le_trans; [exact Hcap|]. apply Z.pow_le_mono_r; lia. }
    assert (Hnode : parent key (mnode key (leaf_fn leaves) lvl (q - 1)) (mnode key (leaf_fn leaves') lvl q) =
                    mnode key (leaf_fn leaves') (S lvl) (q / 2)).
    { pose proof (Zdiv2_odd_eqn q) as Eq. rewrite Ho, Z.div2_div in Eq.
      cbn [mnode]. rewrite <- (mnode_app key leaves x) by (fold leaves'; nia). fold leaves'.
      f_equal; f_equal; lia. }
    rewrite Hnode. fold leaves' in E. unfold slots_of in E. rewrite E.
    exists (S m). split; [lia|]. split.
    + cbn [seq fmap list_fmap]. f_equal.
      * f_equal. unfold slot_of. rewrite Hdiv', Z.odd_add, Ho. done.
      * f_equal. unfold completed_of. rewrite Hdiv'. by rewrite Z.add_simpl_r.
    + intros l Hl. destruct (decide (l = lvl)) as [->|].
      * split; [intros _; apply Hlow; lia|lia].
      * transitivity (l < S lvl + m)%nat; [lia|apply Hall; lia].
  - exists 1%nat. split; [lia|]. split.
    + cbn [seq fmap list_fmap]. f_equal.
      * f_equal.
        -- unfold slot_of. rewrite Hdiv', Z.odd_add, Ho. simpl. by rewrite Z.add_simpl_r.
        -- apply list_fmap_ext. intros ? k Hk. apply list_elem_of_lookup_2, elem_of_seq in Hk.
           symmetry. eapply slot_above; [done..|lia].
      * unfold completed_of. rewrite Hdiv'. by rewrite Z.add_simpl_r.
    + intros l Hl. split; [intros ?; by apply Hlow|]. intros [z Hz].
      destruct (decide (l < lvl + 1)%nat); [done|]. exfalso.
      assert (exists k, l = (lvl + S k)%nat) as [k ->] by (exists (l - S lvl)%nat; lia).
      rewrite Hlen', Nat2Z.inj_add, Z.pow_add_r, pow2_S in Hz by lia.
      assert (q + 1 = 2 * (z * 2 ^ Z.of_nat k)) as Heven by nia.
      rewrite <- (Z.add_simpl_r q 1), Heven in Ho. by rewrite Z.odd_sub, Z.odd_mul in Ho.
Qed.

(** ** Histories of appends *)

(** The frontier over [leaves]. *)
Definition frontier_over (context : bytes) (md : nat) (leaves : list MNode) : Frontier :=
  mkFrontier context (derive context) (zero_nodes (derive context) md) md (len leaves)
    (slots_of (derive context) leaves 0 (S md)).

Lemma slots_of_nil key lvl n : slots_of key [] lvl n = replicate n None.
Proof.
  unfold slots_of. revert lvl. induction n as [|n IH]; intros lvl; [done|].
  cbn [seq fmap list_fmap replicate]. rewrite IH. unfold slot_of, len. cbn [length]. by rewrite Zdiv_0_l.
Qed.

Lemma new_frontier_over context md fr :
  new_frontier context md = inr fr -> fr = frontier_over context md [] /\ (1 <= md <= MAX_DEPTH)%nat.
Proof.
  unfold new_frontier, depth_allowed, frontier_over. intros H. rewrite slots_of_nil.
  destruct (Nat.leb_spec 1 md), (Nat.leb_spec md MAX_DEPTH); simpl in H; simplify_eq. split; [done|lia].
Qed.

Lemma append_leaf_over context md leaves x :
  len leaves < 2 ^ Z.of_nat md ->
  exists m, (m <= S md)%nat /\
  append_leaf (frontier_over context md leaves) x =
    (frontier_over context md (leaves ++ [x]), completed_of (derive context) (leaves ++ [x]) <$> seq 0 m) /\
  (forall l, (l < m)%nat <-> (2 ^ Z.of_nat l | len (leaves ++ [x]))).
Proof.
  intros Hcap. destruct (append_loop_spec (derive context) leaves x (S md) 0 (len leaves)) as (m & Hm & E & Hall).
  - simpl. lia.
  - apply len_nonneg.
  - by replace (Z.of_nat 0 + Z.of_nat (S md) - 1) with (Z.of_nat md) by lia.
  - exists m. split; [done|]. split; [|intros l; apply Hall; lia].
    unfold append_leaf, frontier_over. cbn [f_key f_count filled f_context f_zeros f_max_depth].
    cbn [mnode] in E. unfold len at 2 in E. rewrite nth_leaf_fn, nth_middle in E.
    rewrite E. by rewrite len_app.
Qed.

(** ** Roots *)

(** The node carried by the root fold below level [l]. *)
Definition partial_of (key : Key) (leaves : list MNode) (l : nat) : option MNode :=
  if len leaves mod 2 ^ Z.of_nat l =? 0 then None
  else Some (mnode key (leaf_fn leaves) l (len leaves / 2 ^ Z.of_nat l)).

Lemma mnode_beyond key leaves l i :
  len leaves <= i * 2 ^ Z.of_nat l -> mnode key (leaf_fn leaves) l i = zero_at key l.
Proof. intros H. apply mnode_zero. intros p Hp. apply leaf_fn_beyond. unfold len in H. lia. Qed.

Lemma partial_step key leaves l :
  match slot_of key leaves l, partial_of key leaves l with
  | Some a, Some b => Some (parent key a b)
  | Some a, None => Some (parent key a (zero_at key l))
  | None, Some b => Some (parent key b (zero_at key l))
  | None, None => None
  end = partial_of key leaves (S l).
Proof.
  unfold slot_of, partial_of. cbv zeta. rewrite mod_pow_split, div_pow_S, mod2_odd.
  pose proof (pow2_pos l) as Hp. pose proof (Z.mod_pos_bound (len leaves) _ Hp) as Hm.
  pose proof (Z.div_mod (len leaves) (2 ^ Z.of_nat l) ltac:(lia)) as Hdm.
  set (q := len leaves / 2 ^ Z.of_nat l) in *.
  pose proof (Zdiv2_odd_eqn q) as Eq. rewrite Z.div2_div in Eq.
  destruct (Z.odd q) eqn:Ho.
  - destruct (Z.eqb_spec (2 ^ Z.of_nat l * 1 + len leaves mod 2 ^ Z.of_nat l) 0); [lia|].
    cbn [mnode]. replace (2 * (q / 2)) with (q - 1) by lia. replace (q - 1 + 1) with q by lia.
    destruct (Z.eqb_spec (len leaves mod 2 ^ Z.of_nat l) 0) as [E|E]; [|done].
    rewrite (mnode_beyond key leaves l q) by nia. done.
  - rewrite Z.mul_0_r, Z.add_0_l.
    destruct (Z.eqb_spec (len leaves mod 2 ^ Z.of_nat l) 0); [done|].
    cbn [mnode]. replace (2 * (q / 2)) with q by lia.
    rewrite (mnode_beyond key leaves l (q + 1)) by nia. done.
Qed.

Lemma root_loop_spec key leaves md n : forall lvl k,
  (n <= k)%nat -> (lvl + n <= S md)%nat ->
  root_loop key (zero_nodes key md) n lvl (slots_of key leaves lvl k) (partial_of key leaves lvl) =
  partial_of key leaves (lvl + n).
Proof.
  induction n as [|n IH]; intros lvl k Hk Hmd; [by rewrite Nat.add_0_r|].
  destruct k as [|k]; [lia|]. unfold slots_of. cbn [seq fmap list_fmap root_loop].
  rewrite zero_of_nodes by lia. rewrite partial_step. rewrite <- Nat.add_succ_comm. apply IH; lia.
Qed.

Lemma current_depth_le context md leaves d :
  (md <= MAX_DEPTH)%nat -> len leaves <= 2 ^ Z.of_nat md ->
  (f_current_depth (frontier_over context md leaves) <= d)%nat <->
  (1 <= d)%nat /\ len leaves <= 2 ^ Z.of_nat d \/ (md <= d)%nat.
Proof.
  intros Hmd Hcap. unfold f_current_depth, frontier_over. cbn [f_count f_max_depth].
  assert (Hcap' : len leaves <= 2 ^ Z.of_nat MAX_DEPTH).
  { etransitivity; [exact Hcap|]. apply Z.pow_le_mono_r; lia. }
  destruct (depth_for_minimal _ Hcap') as (H1 & H2 & H3).
  set (k := depth_for (len leaves)) in *. split.
  - intros Hd. destruct (decide (md <= d)%nat); [by right|left]. split; [lia|].
    etransitivity; [exact H2|]. apply Z.pow_le_mono_r; lia.
  - intros [[Hd Hl]|Hd]; [|lia]. destruct (decide (k <= d)%nat); [lia|].
    destruct H3 as [?|H3]; [lia|].
    assert (2 ^ Z.of_nat d <= 2 ^ (Z.of_nat k - 1)) by (apply Z.pow_le_mono_r; lia). lia.
Qed.

(** The root of a frontier at any depth that holds its leaves is the root of the
    reference tree. *)
Lemma f_root_over context md leaves d :
  (md <= MAX_DEPTH)%nat -> len leaves <= 2 ^ Z.of_nat md ->
  f_root_at_depth (frontier_over context md leaves) d =
  if (d <? f_current_depth (frontier_over context md leaves))%nat || (md <? d)%nat then inl Depth
  else inr (mkRoot context d (len leaves) (mnode (derive context) (leaf_fn leaves) d 0)).
Proof.
  intros Hmd Hcap. unfold f_root_at_depth. cbn [f_max_depth frontier_over].
  destruct (Nat.ltb_spec d (f_current_depth (frontier_over context md leaves))) as [|Hcur];
    [done|]. destruct (Nat.ltb_spec md d) as [|Hd]; [done|]. cbn [orb].
  assert (Hl : len leaves <= 2 ^ Z.of_nat d).
  { apply current_depth_le in Hcur as [[_ ?]|?]; [done| |done..]. by assert (d = md) as -> by lia. }
  cbn [f_key f_zeros filled f_context f_count frontier_over].
  pose proof (root_loop_spec (derive context) leaves md d 0 (S md) ltac:(lia) ltac:(lia)) as E.
  assert (Hp0 : partial_of (derive context) leaves 0 = None) by (unfold partial_of; simpl; by rewrite Z.mod_1_r).
  rewrite Hp0 in E. rewrite E. f_equal. f_equal. cbn [Nat.add].
  unfold partial_of. pose proof (pow2_pos d) as Hpos. pose proof (len_nonneg leaves).
  destruct (Z.eqb_spec (len leaves mod 2 ^ Z.of_nat d) 0) as [E0|E0].
  - unfold slots_of. rewrite list_lookup_fmap, lookup_seq_lt by lia. simpl. unfold slot_of.
    pose proof (Z.div_mod (len leaves) (2 ^ Z.of_nat d) ltac:(lia)) as Hdm.
    assert (len leaves / 2 ^ Z.of_nat d = 0 \/ len leaves / 2 ^ Z.of_nat d = 1) as [Hq|Hq] by nia.
    + rewrite Hq. simpl. rewrite zero_of_nodes by lia. symmetry. apply mnode_beyond. nia.
    + by rewrite Hq.
  - f_equal. apply Z.div_small. split; [done|].
    destruct (decide (len leaves = 2 ^ Z.of_nat d)) as [Hq|]; [|lia].
    rewrite Hq, Z.mod_same in E0 by lia. done.
Qed.

(** ** The frontier's record *)

Lemma bit_set_odd count l : bit_set count l = Z.odd (count / 2 ^ Z.of_nat l).
Proof.
  unfold bit_set. rewrite land_1, shiftr_div, mod2_odd. by destruct (Z.odd _).
Qed.

Lemma slots_filled key leaves lvl n :
  length (List.filter (bit_set (len leaves)) (seq lvl n)) = length (omap id (slots_of key leaves lvl n)).
Proof.
  unfold slots_of. revert lvl. induction n as [|n IH]; intros lvl; [done|].
  cbn [seq List.filter fmap list_fmap omap list_omap]. rewrite bit_set_odd. unfold slot_of at 1. cbv zeta.
  destruct (Z.odd _); simpl; by rewrite IH.
Qed.

Context {Lawful : LawfulNodes}.

Lemma decode_slots_spec key leaves n : forall lvl,
  decode_slots (len leaves) (seq lvl n) (concat (to_bytes <$> omap id (slots_of key leaves lvl n))) =
  inr (slots_of key leaves lvl n).
Proof.
  unfold slots_of. induction n as [|n IH]; intros lvl; [done|].
  cbn [seq fmap list_fmap omap list_omap decode_slots]. rewrite bit_set_odd.
  assert (Hs : exists nd, slot_of key leaves lvl = if Z.odd (len leaves / 2 ^ Z.of_nat lvl) then Some nd else None)
    by (eexists; done).
  destruct Hs as [nd ->]. destruct (Z.odd _); cbn [id fmap list_fmap concat].
  - by rewrite take_app_length', drop_app_length', from_to_bytes, IH by (by rewrite to_bytes_length).
  - by rewrite IH.
Qed.

Lemma length_concat_nodes (l : list MNode) : length (concat (to_bytes <$> l)) = (length l * NODE_BYTES)%nat.
Proof. induction l as [|n l IH]; [done|]. cbn [fmap list_fmap concat length]. rewrite length_app, to_bytes_length, IH. done. Qed.

Lemma slice_app (a b c : bytes) n m : length a = n -> length b = m -> slice n m (a ++ b ++ c) = b.
Proof. intros <- <-. unfold slice. by rewrite drop_app_length, take_app_length. Qed.

Lemma f_decode_encode context md leaves :
  length context = 32%nat -> (1 <= md <= MAX_DEPTH)%nat -> len leaves <= 2 ^ Z.of_nat md ->
  f_decode (f_encode (frontier_over context md leaves)) context md = inr (frontier_over context md leaves).
Proof.
  intros Hctx Hmd Hcap. pose proof (len_nonneg leaves) as H0.
  assert (Hc64 : 0 <= len leaves < 2 ^ (8 * Z.of_nat 8)).
  { split; [done|]. apply Z.le_lt_trans with (2 ^ Z.of_nat md); [done|]. apply Z.pow_lt_mono_r; [lia..|].
    unfold MAX_DEPTH in *. lia. }
  unfold f_encode. cbn [frontier_over f_context f_max_depth f_count filled].
  set (nodes := concat _). set (body := le_bytes 8 (len leaves) ++ nodes).
  assert (Hlen : length (FRONTIER_VERSION ++ context ++ [z2b (Z.of_nat md)] ++ body) =
                 (FRONTIER_HEADER_BYTES + length nodes)%nat).
  { unfold body. rewrite !length_app, Hctx, length_le_bytes. simpl. done. }
  set (bs := FRONTIER_VERSION ++ context ++ [z2b (Z.of_nat md)] ++ body) in *.
  assert (E1 : slice 0 8 bs = FRONTIER_VERSION) by done.
  assert (E2 : slice 8 32 bs = context) by (by apply slice_app).
  assert (E3 : b2z (nth 40 bs (z2b 0)) = Z.of_nat md).
  { unfold bs. rewrite app_nth2 by (simpl; lia). simpl length. rewrite app_nth2 by lia. rewrite Hctx. simpl.
    rewrite b2z_z2b. apply Z.mod_small. unfold MAX_DEPTH in *. lia. }
  assert (Edrop : drop FRONTIER_HEADER_BYTES bs = nodes).
  { unfold bs, body. rewrite !app_assoc. apply drop_app_length'. rewrite !length_app, Hctx, length_le_bytes. done. }
  assert (E4 : le_Z (slice 41 8 bs) = len leaves).
  { assert (Hs : slice 41 8 bs = le_bytes 8 (len leaves)).
    { unfold bs, body. rewrite !app_assoc, <- (app_assoc _ (le_bytes _ _)). apply slice_app.
      - rewrite !length_app, Hctx. done.
      - apply length_le_bytes. }
    rewrite Hs. by apply le_Z_le_bytes_small. }
  unfold f_decode. rewrite Hlen, E1, E2, E3, E4, Edrop, !bool_decide_eq_true_2 by done.
  rewrite Z.eqb_refl. destruct (Nat.ltb_spec (FRONTIER_HEADER_BYTES + length nodes) FRONTIER_HEADER_BYTES); [lia|].
  assert (Hal : depth_allowed md = true).
  { unfold depth_allowed. apply andb_true_iff. split; apply Nat.leb_le; lia. }
  rewrite Hal. cbn [negb orb]. destruct (Z.ltb_spec (2 ^ Z.of_nat md) (len leaves)); [lia|].
  rewrite (slots_filled (derive context)). unfold nodes at 1. rewrite length_concat_nodes, Nat.eqb_refl. cbn [negb].
  unfold new_frontier. rewrite Hal. cbn [negb mbind result_bind f_context f_key f_zeros f_max_depth].
  unfold nodes. by rewrite decode_slots_spec.
Qed.
End frontier.

(** ** The full rebuild *)

Section rebuild.
Context {Membership : MembershipKey}.

(** The nodes [b .. b + w - 1] of level [l]. *)
Definition layer_of (key : Key) (leaves : list MNode) (l b w : nat) : list MNode :=
  (fun i : nat => mnode key (leaf_fn leaves) l (Z.of_nat i)) <$> seq b w.

Lemma pair_up_layer key leaves l : forall w b,
  len leaves <= Z.of_nat (2 * b + w) * 2 ^ Z.of_nat l ->
  pair_up key (zero_at key l) (layer_of key leaves l (2 * b) w) = layer_of key leaves (S l) b (Nat.div2 (S w)).
Proof.
  induction w as [w IH] using lt_wf_ind. intros b Hlen. unfold layer_of.
  destruct w as [|[|w]]; [done| |]; cbn [seq fmap list_fmap pair_up Nat.div2 mnode].
  - do 2 f_equal; [f_equal; lia|]. replace (2 * Z.of_nat b + 1) with (Z.of_nat (2 * b + 1)) by lia.
    symmetry. apply mnode_beyond. lia.
  - f_equal; [f_equal; f_equal; lia|].
    replace (S (S (2 * b))) with (2 * S b)%nat by lia.
    specialize (IH w ltac:(lia) (S b)). unfold layer_of in IH. apply IH.
    replace (2 * S b + w)%nat with (2 * b + S (S w))%nat by lia. done.
Qed.

(** Layers above level [lvl] of width [w]. *)
Fixpoint halved (w n : nat) : nat :=
  match n with O => w | S n' => halved (Nat.div2 (S w)) n' end.

Lemma build_layers_lookup key leaves md n : forall lvl w k,
  (lvl + n <= S md)%nat -> len leaves <= Z.of_nat w * 2 ^ Z.of_nat lvl -> (k <= n)%nat ->
  build_layers key (zero_nodes key md) n lvl (layer_of key leaves lvl 0 w) !! k =
  Some (layer_of key leaves (lvl + k) 0 (halved w k)).
Proof.
  induction n as [|n IH]; intros lvl w [|k] Hmd Hlen Hk; cbn [build_layers lookup list_lookup];
    try lia; try by rewrite Nat.add_0_r.
  rewrite zero_of_nodes by lia. pose proof (pair_up_layer key leaves lvl w 0 Hlen) as E.
  cbn [Nat.mul Nat.add] in E. rewrite E. cbn [halved].
  replace (lvl + S k)%nat with (S lvl + k)%nat by lia. apply IH; [lia| |lia].
  rewrite pow2_S. pose proof (pow2_pos lvl). pose proof (Nat.div2_odd (S w)). destruct (Nat.odd (S w)); simpl in *; nia.
Qed.

Lemma length_build_layers key zeros n : forall lvl layer, length (build_layers key zeros n lvl layer) = S n.
Proof. induction n as [|n IH]; intros; cbn [build_layers length]; [done|by rewrite IH]. Qed.

(** *** Node count and depth *)

Lemma size_loop_depth w0 fuel : forall width nodes depth nodes' d,
  1 <= width -> 2 ^ Z.of_nat depth * (width - 1) < w0 <= 2 ^ Z.of_nat depth * width ->
  ((depth <= 1)%nat \/ 2 ^ (Z.of_nat depth - 1) < w0) ->
  size_loop fuel width nodes depth = Some (nodes', d) -> minimal_depth w0 d.
Proof.
  induction fuel as [|n IH]; intros width nodes depth nodes' d Hw Hr Hd; cbn [size_loop]; [done|].
  destruct (checked_add_u64 nodes width) as [nn|]; [|done].
  destruct (Z.eqb_spec width 1) as [Hone|Hne], (Nat.leb_spec 1 depth) as [H1|H1]; cbn [andb].
  1:{ intros [= <- <-]. repeat split; [done|subst; lia|]. destruct Hd as [?|?]; [left; lia|by right]. }
  all: pose proof (Z.div_mod (width + 1) 2 ltac:(lia)); pose proof (Z.mod_pos_bound (width + 1) 2 ltac:(lia));
    pose proof (pow2_pos depth); apply IH; rewrite ?pow2_S; try (split; nia); try nia.
  all: try (left; lia). right. replace (Z.of_nat (S depth) - 1) with (Z.of_nat depth) by lia. nia.
Qed.

Lemma size_loop_total fuel : forall width nodes depth,
  1 <= width <= 2 ^ Z.of_nat fuel -> 0 <= nodes -> (1 <= depth)%nat ->
  nodes + 2 * width + Z.of_nat fuel <= u64_max ->
  exists nodes' d, size_loop (S fuel) width nodes depth = Some (nodes', d) /\
    nodes' <= nodes + 2 * width + Z.of_nat fuel.
Proof.
  induction fuel as [|n IH]; intros width nodes depth Hw Hn Hd Hmax; cbn [size_loop];
    unfold checked_add_u64; (destruct (Z.leb_spec (nodes + width) u64_max); [|lia]);
    (destruct (Nat.leb_spec 1 depth); [|lia]); rewrite andb_true_r.
  - destruct (Z.eqb_spec width 1); [|simpl in *; lia]. do 2 eexists. split; [done|lia].
  - destruct (Z.eqb_spec width 1); [do 2 eexists; split; [done|lia]|].
    pose proof (Z.div_mod (width + 1) 2 ltac:(lia)). pose proof (Z.mod_pos_bound (width + 1) 2 ltac:(lia)).
    rewrite pow2_S in Hw.
    destruct (IH ((width + 1) / 2) (nodes + width) (S depth)) as (nodes' & d & E & Hb); [lia..|].
    exists nodes', d. split; [exact E|lia].
Qed.

(** *** Sorting *)

Lemma sort_by_perm {A} (key : A -> Z) (l : list A) : sort_by key l ≡ₚ l.
Proof. apply merge_sort_Permutation. Qed.

Lemma length_sort_by {A} (key : A -> Z) (l : list A) : length (sort_by key l) = length l.
Proof. by rewrite sort_by_perm. Qed.

Lemma sort_by_sorted {A} (key : A -> Z) (l : list A) : Sorted Z.le (key <$> sort_by key l).
Proof.
  assert (H : Sorted (key_le key) (sort_by key l)).
  { apply Sorted_merge_sort. intros x y. unfold key_le. lia. }
  induction H as [|x l' _ IH Hx]; constructor; [done|].
  destruct Hx; constructor. done.
Qed.

Lemma has_repeat_NoDup {A} (key : A -> Z) (l : list A) : NoDup (key <$> l) -> has_repeat key l = false.
Proof.
  induction l as [|x [|y l] IH]; [done..|]. cbn [fmap list_fmap]. intros [Hx Hnd]%NoDup_cons.
  change (has_repeat key (x :: y :: l)) with ((key x =? key y) || has_repeat key (y :: l)).
  rewrite IH by done. rewrite orb_false_r. apply Z.eqb_neq.
  intros E. apply Hx. rewrite E. apply list_elem_of_here.
Qed.

Lemma sort_positions coins :
  coin_position <$> coins ≡ₚ Z.of_nat <$> seq 0 (length coins) ->
  coin_position <$> sort_by coin_position coins = Z.of_nat <$> seq 0 (length coins).
Proof.
  intros Hp. apply (Sorted_unique Z.le).
  - apply sort_by_sorted.
  - clear Hp. generalize 0%nat, (length coins). intros b n. revert b.
    induction n as [|n IH]; intros b; cbn [seq fmap list_fmap]; [constructor|].
    constructor; [apply IH|]. destruct n; constructor. lia.
  - rewrite sort_by_perm. done.
Qed.

(** The coins a tree is built over: positions [0 .. n-1] in any order, distinct
    32-byte addresses, and a node budget that holds the tree. *)
Record buildable (coins : list CoinRecord) (md : nat) (max_nodes : Z) : Prop := {
  bd_depth : (1 <= md <= MAX_DEPTH)%nat;
  bd_fits : Z.of_nat (length coins) <= 2 ^ Z.of_nat md;
  bd_positions : coin_position <$> coins ≡ₚ Z.of_nat <$> seq 0 (length coins);
  bd_addresses : NoDup (address <$> coins);
  bd_width : Forall (fun c => length (address c) = 32%nat) coins;
  bd_nodes : Z.of_nat md + 2 * Z.of_nat (length coins) + 40 <= max_nodes;
}.

Definition coin_leaves (context : bytes) (coins : list CoinRecord) : list MNode :=
  (fun c => committed_leaf (derive context) (owner c) (commitment c)) <$> sort_by coin_position coins.

Lemma len_coin_leaves context coins : len (coin_leaves context coins) = Z.of_nat (length coins).
Proof. unfold len, coin_leaves. by rewrite length_fmap, sort_by_perm. Qed.

Lemma NoDup_addresses (l : list CoinRecord) :
  NoDup (address <$> l) -> Forall (fun c => length (address c) = 32%nat) l -> NoDup (be_Z <$> (address <$> l)).
Proof.
  intros Hnd Hw. apply NoDup_fmap_2_strong; [|done].
  intros a b (x & -> & Hx)%list_elem_of_fmap (y & -> & Hy)%list_elem_of_fmap.
  rewrite Forall_forall in Hw. apply be_Z_inj. by rewrite !Hw.
Qed.

Lemma size_loop_start n md max_nodes :
  (md <= MAX_DEPTH)%nat -> 0 <= n <= 2 ^ Z.of_nat md -> Z.of_nat md + 2 * n + 40 <= max_nodes ->
  exists nodes d, size_loop (S (S MAX_DEPTH)) (Z.max n 1) (Z.of_nat md + 1) 0 = Some (nodes, d) /\
    nodes <= max_nodes /\ minimal_depth n d.
Proof.
  intros Hmd Hn Hmax. set (w := Z.max n 1).
  assert (Hw : 1 <= w <= 2 ^ Z.of_nat MAX_DEPTH).
  { assert (2 ^ Z.of_nat md <= 2 ^ Z.of_nat MAX_DEPTH) by (apply Z.pow_le_mono_r; lia). unfold w.
    pose proof (pow2_pos MAX_DEPTH). lia. }
  assert (exists nodes d, size_loop (S (S MAX_DEPTH)) w (Z.of_nat md + 1) 0 = Some (nodes, d) /\ nodes <= max_nodes)
    as (nodes & d & E & Hb).
  { remember MAX_DEPTH as M eqn:HM. cbn [size_loop]. unfold checked_add_u64.
    assert (Hbig : 2 ^ Z.of_nat M = 4294967296) by (by subst M). assert (HM' : M = 32%nat) by (by subst M).
    destruct (Z.leb_spec (Z.of_nat md + 1 + w) u64_max); [|unfold u64_max in *; lia].
    rewrite andb_false_r.
    pose proof (Z.div_mod (w + 1) 2 ltac:(lia)). pose proof (Z.mod_pos_bound (w + 1) 2 ltac:(lia)).
    destruct (size_loop_total M ((w + 1) / 2) (Z.of_nat md + 1 + w) 1) as (nodes & d & E & Hb); [lia..| |].
    { unfold u64_max. lia. }
    exists nodes, d. split; [exact E|]. unfold w in *. lia. }
  exists nodes, d. split; [done|]. split; [done|].
  assert (Hmin : minimal_depth w d).
  { eapply (size_loop_depth w); [..|exact E]; [lia|simpl; lia|left; lia]. }
  destruct Hmin as (H1 & H2 & H3). repeat split; [done|lia|].
  destruct H3 as [?|H3]; [by left|]. unfold w in H3.
  destruct (Z.max_spec n 1) as [[? Em]|[? Em]]; rewrite Em in H3; [|by right].
  assert (0 < 2 ^ (Z.of_nat d - 1)) by (apply Z.pow_pos_nonneg; lia). lia.
Qed.

(** The tree [build] makes. *)
Definition tree_over (context : bytes) (coins : list CoinRecord) (md d : nat) : CoinTree :=
  let leaves := coin_leaves context coins in
  let key := derive context in
  mkCoinTree context key (address <$> sort_by coin_position coins) (indexed_by (sort_by coin_position coins))
    (build_layers key (zero_nodes key md) d 0 (layer_of key leaves 0 0 (length coins `max` 1))) (zero_nodes key md) d md.

Lemma layer_of_leaves key leaves : layer_of key leaves 0 0 (length leaves) = leaves.
Proof.
  unfold layer_of. cbn [mnode]. apply list_eq_same_length with (length leaves); [done|by rewrite length_fmap, length_seq|].
  intros i x y Hi. rewrite list_lookup_fmap, lookup_seq_lt by done. simpl. intros [= <-] Hy.
  rewrite nth_leaf_fn. apply nth_lookup_Some with (d := zero_node) in Hy. done.
Qed.

Lemma build_spec context coins md max_nodes :
  buildable coins md max_nodes ->
  exists d, minimal_depth (Z.of_nat (length coins)) d /\
    build context coins md max_nodes = inr (tree_over context coins md d).
Proof.
  intros [Hd Hfits Hpos Hnd Hw Hbudget].
  destruct (size_loop_start (Z.of_nat (length coins)) md max_nodes) as (nodes & d & E & Hb & Hmin); [lia..|].
  exists d. split; [done|]. unfold build, tree_over.
  assert (Hal : depth_allowed md = true).
  { unfold depth_allowed. apply andb_true_iff. split; apply Nat.leb_le; lia. }
  rewrite Hal. cbn [negb]. destruct (Z.ltb_spec (2 ^ Z.of_nat md) (Z.of_nat (length coins))); [lia|].
  rewrite E. destruct (Z.ltb_spec max_nodes nodes); [lia|].
  rewrite (sort_positions coins Hpos), length_sort_by, bool_decide_eq_true_2 by done. cbn [negb].
  rewrite has_repeat_NoDup.
  2:{ unfold indexed_by. rewrite sort_by_perm, <- list_fmap_compose. unfold compose. simpl.
      rewrite sort_by_perm. pose proof (NoDup_addresses coins Hnd Hw) as H'.
      by rewrite <- list_fmap_compose in H'. }
  do 2 f_equal. rewrite zero_of_nodes by lia. fold (coin_leaves context coins).
  assert (Hlen : length (coin_leaves context coins) = length coins)
    by (unfold coin_leaves; by rewrite length_fmap, sort_by_perm).
  destruct (coin_leaves context coins) as [|x xs] eqn:El; rewrite <- Hlen.
  - done.
  - rewrite Nat.max_l by (simpl; lia). by rewrite layer_of_leaves.
Qed.

Lemma sibling_nonneg i : 0 <= i -> 0 <= Z.lxor i 1.
Proof. intros H. apply Z.lxor_nonneg. split; lia. Qed.

Lemma collect_path_spec key f (sibling : nat -> Z -> MNode) n : forall lvl i,
  (forall k, (k < n)%nat -> sibling (lvl + k)%nat (Z.lxor (Z.shiftr i (Z.of_nat k)) 1) =
     mnode key f (lvl + k) (Z.lxor (Z.shiftr i (Z.of_nat k)) 1)) ->
  collect_path sibling n lvl i = true_path key f lvl n i.
Proof.
  induction n as [|n IH]; intros lvl i H; [done|]. rewrite true_path_cons. cbn [collect_path].
  rewrite IH.
  - pose proof (H 0%nat ltac:(lia)) as H0. rewrite Nat.add_0_r, Z.shiftr_0_r in H0. by rewrite H0.
  - intros k Hk. pose proof (H (S k) ltac:(lia)) as HS.
    rewrite Z.shiftr_shiftr by lia. replace (1 + Z.of_nat k) with (Z.of_nat (S k)) by lia.
    by rewrite Nat.add_succ_comm.
Qed.

Lemma search_unique {A} (k : A -> Z) (l : list A) x :
  x ∈ l -> NoDup (k <$> l) -> search k (k x) l = Some x.
Proof.
  unfold search. induction l as [|y l IH]; [by intros ?%elem_of_nil|].
  cbn [fmap list_fmap List.find]. intros [->|Hx]%elem_of_cons [Hy Hnd]%NoDup_cons.
  - by rewrite Z.eqb_refl.
  - destruct (Z.eqb_spec (k y) (k x)) as [E|]; [|by apply IH].
    exfalso. apply Hy. rewrite E. by apply list_elem_of_fmap_2.
Qed.

(** *** Roots and paths of the rebuilt tree *)

Lemma halved_covers k : forall w c, c <= Z.of_nat w -> c <= Z.of_nat (halved w k) * 2 ^ Z.of_nat k.
Proof.
  induction k as [|k IH]; intros w c Hc; cbn [halved]; [simpl; lia|].
  rewrite pow2_S. pose proof (Nat.div2_odd (S w)) as Ho.
  assert (Hw : Z.of_nat w <= 2 * Z.of_nat (Nat.div2 (S w))) by (destruct (Nat.odd (S w)); simpl Nat.b2n in Ho; lia).
  pose proof (IH (Nat.div2 (S w)) (Z.of_nat (Nat.div2 (S w))) ltac:(lia)). lia.
Qed.

Lemma halved_one k : forall w, (1 <= w)%nat -> Z.of_nat w <= 2 ^ Z.of_nat k -> halved w k = 1%nat.
Proof.
  induction k as [|k IH]; intros w Hw Hk; cbn [halved]; [simpl in Hk; lia|].
  rewrite pow2_S in Hk. pose proof (Nat.div2_odd (S w)) as Ho.
  destruct (Nat.odd (S w)); simpl Nat.b2n in Ho; apply IH; lia.
Qed.

Section tree.
Variables (context : bytes) (coins : list CoinRecord) (md d : nat).
Hypothesis Hmd : (1 <= md <= MAX_DEPTH)%nat.
Hypothesis Hfits : Z.of_nat (length coins) <= 2 ^ Z.of_nat md.
Hypothesis Hmin : minimal_depth (Z.of_nat (length coins)) d.

Local Abbreviation t := (tree_over context coins md d).
Local Abbreviation key := (derive context).
Local Abbreviation leaves := (coin_leaves context coins).
Local Abbreviation fn := (leaf_fn leaves).

Lemma tree_depth_le : (d <= md)%nat.
Proof.
  destruct Hmin as (H1 & H2 & [->|H3]); [lia|].
  destruct (decide (d <= md)%nat); [done|].
  assert (2 ^ Z.of_nat md <= 2 ^ (Z.of_nat d - 1)) by (apply Z.pow_le_mono_r; lia). lia.
Qed.

Lemma tree_layer_lookup k : (k <= d)%nat ->
  layers t !! k = Some (layer_of key leaves k 0 (halved (length coins `max` 1) k)).
Proof.
  intros Hk. cbn [layers tree_over]. pose proof tree_depth_le. apply (build_layers_lookup _ _ md d 0); [lia| |done].
  rewrite len_coin_leaves. simpl. lia.
Qed.

Lemma layer_node_sibling lvl j :
  0 <= j -> (lvl <= md)%nat -> (lvl <= d)%nat \/ 1 <= j ->
  default (zero_of (t_zeros t) lvl) (layer_node (layers t) lvl j) = mnode key fn lvl j.
Proof.
  intros Hj Hlvl Hc. cbn [t_zeros tree_over]. rewrite zero_of_nodes by done.
  unfold layer_node. destruct (Z.ltb_spec j 0); [lia|]. pose proof (pow2_pos lvl).
  destruct (decide (lvl <= d)%nat) as [Hle|Hgt].
  - rewrite tree_layer_lookup by done. cbn [mbind option_bind].
    pose proof (halved_covers lvl (length coins `max` 1) (len leaves) ltac:(rewrite len_coin_leaves; lia)) as Hcov.
    set (w := halved (length coins `max` 1) lvl) in *. unfold layer_of. rewrite list_lookup_fmap.
    destruct (decide (Z.to_nat j < w)%nat).
    + rewrite lookup_seq_lt by done. simpl. by rewrite Z2Nat.id.
    + rewrite lookup_seq_ge by lia. simpl. symmetry. apply mnode_beyond. nia.
  - rewrite lookup_ge_None_2 by (cbn [layers tree_over]; rewrite length_build_layers; lia). simpl.
    symmetry. apply mnode_beyond. rewrite len_coin_leaves. destruct Hmin as (_ & H2 & _).
    assert (2 ^ Z.of_nat d <= 2 ^ Z.of_nat lvl) by (apply Z.pow_le_mono_r; lia). nia.
Qed.

Lemma pad_root n : forall k, (d <= k)%nat -> (k + n <= md)%nat ->
  foldl (fun r lvl => parent key r (zero_of (zero_nodes key md) lvl)) (mnode key fn k 0) (seq k n) = mnode key fn (k + n) 0.
Proof.
  induction n as [|n IH]; intros k Hk Hn; [by rewrite Nat.add_0_r|].
  cbn [seq foldl]. rewrite zero_of_nodes by lia.
  rewrite <- (mnode_beyond key leaves k 1).
  - change (parent key (mnode key fn k 0) (mnode key fn k 1)) with (mnode key fn (S k) 0).
    rewrite IH by lia. f_equal. lia.
  - rewrite len_coin_leaves. destruct Hmin as (_ & H2 & _).
    assert (2 ^ Z.of_nat d <= 2 ^ Z.of_nat k) by (apply Z.pow_le_mono_r; lia). lia.
Qed.

Lemma tree_current_depth : f_current_depth (frontier_over context md leaves) = d.
Proof.
  unfold f_current_depth, frontier_over. cbn [f_count f_max_depth]. rewrite len_coin_leaves.
  pose proof tree_depth_le. rewrite (minimal_depth_unique (Z.of_nat (length coins)) (depth_for _) d); [lia| |done].
  apply depth_for_minimal. etransitivity; [exact Hfits|]. apply Z.pow_le_mono_r; lia.
Qed.

Lemma tree_root_frontier k : t_root_at_depth t k = f_root_at_depth (frontier_over context md leaves) k.
Proof.
  rewrite f_root_over by (rewrite ?len_coin_leaves; lia). rewrite tree_current_depth.
  unfold t_root_at_depth. cbn [t_depth t_max_depth tree_over].
  destruct (Nat.ltb_spec k d) as [|Hk]; [done|]. destruct (Nat.ltb_spec md k) as [|Hk']; [done|]. cbn [orb].
  f_equal. unfold t_coins. cbn [t_context tree_over addresses t_key t_zeros].
  rewrite length_fmap, length_sort_by, len_coin_leaves. f_equal.
  assert (Hroot : default zero_node (layer_node (layers t) d 0) = mnode key fn d 0).
  { unfold layer_node. cbn [Z.ltb Z.compare]. rewrite tree_layer_lookup by done. cbn [mbind option_bind].
    destruct Hmin as (_ & H2 & _). pose proof (pow2_pos d).
    rewrite halved_one by lia. done. }
  rewrite Hroot, pad_root by lia. f_equal. lia.
Qed.

Lemma tree_frontier : t_frontier t = frontier_over context md leaves.
Proof.
  unfold t_frontier. rewrite tree_layer_lookup by lia. cbn [default id halved tree_over t_context t_zeros t_max_depth addresses].
  rewrite length_fmap, length_sort_by.
  assert (Htake : take (length coins) (layer_of key leaves 0 0 (length coins `max` 1)) = leaves).
  { assert (Hl : length leaves = length coins) by (unfold coin_leaves; by rewrite length_fmap, length_sort_by).
    rewrite <- (layer_of_leaves key leaves) at 2. rewrite Hl. unfold layer_of.
    rewrite <- fmap_take, take_seq. do 2 f_equal. lia. }
  rewrite Htake. change (mkFrontier context key (zero_nodes key md) md 0 (replicate (S md) None))
    with (mkFrontier context key (zero_nodes key md) md (len []) (replicate (S md) None)).
  rewrite <- (slots_of_nil key 0). fold (frontier_over context md []).
  change leaves with ([] ++ leaves) at 2.
  assert (Hcap : len ([] ++ leaves) <= 2 ^ Z.of_nat md) by (simpl; by rewrite len_coin_leaves).
  revert Hcap. generalize (@nil MNode). generalize leaves. intros ls.
  induction ls as [|x l IH]; intros acc Hcap.
  { by rewrite app_nil_r. }
  cbn [foldl]. destruct (append_leaf_over context md acc x) as (m & _ & -> & _).
  { unfold len in *. rewrite length_app in Hcap. simpl in Hcap. lia. }
  cbn [fst]. replace (acc ++ x :: l) with ((acc ++ [x]) ++ l) in * by (by rewrite <- app_assoc).
  by apply IH.
Qed.

(** *** Paths *)

(** Above a depth that holds the position, the sibling is the right neighbour. *)
Lemma sibling_above i k : 0 <= i < 2 ^ Z.of_nat d -> (d <= k)%nat -> 1 <= Z.lxor (Z.shiftr i (Z.of_nat k)) 1.
Proof.
  intros Hi Hk. rewrite shiftr_div, Z.div_small; [done|].
  assert (2 ^ Z.of_nat d <= 2 ^ Z.of_nat k) by (apply Z.pow_le_mono_r; lia). lia.
Qed.

Hypothesis Hpos : coin_position <$> coins ≡ₚ Z.of_nat <$> seq 0 (length coins).
Hypothesis Hnd : NoDup (address <$> coins).
Hypothesis Hw : Forall (fun c => length (address c) = 32%nat) coins.

Lemma position_range c : c ∈ coins -> 0 <= coin_position c < Z.of_nat (length coins).
Proof using Hpos.
  clear Hmin Hfits Hmd Hw Hnd. intros Hc. apply (list_elem_of_fmap_2 coin_position) in Hc. rewrite Hpos in Hc.
  apply list_elem_of_fmap in Hc as (k & -> & Hk%elem_of_seq). lia.
Qed.

Lemma tree_position c : c ∈ coins -> t_position t (address c) = Some (coin_position c).
Proof.
  intros Hc. unfold t_position. cbn [t_index tree_over].
  rewrite (search_unique (fun e : bytes * Z => be_Z e.1) _ (address c, coin_position c)).
  - done.
  - unfold indexed_by. rewrite sort_by_perm. apply list_elem_of_fmap. exists c. by rewrite sort_by_perm.
  - unfold indexed_by. rewrite sort_by_perm, <- list_fmap_compose. unfold compose. simpl. rewrite sort_by_perm.
    pose proof (NoDup_addresses coins Hnd Hw) as H'. by rewrite <- list_fmap_compose in H'.
Qed.

Lemma tree_auth_path c k : c ∈ coins -> (d <= k <= md)%nat ->
  t_auth_path t (address c) k = inr (true_path key fn 0 k (coin_position c)).
Proof.
  intros Hc Hk. unfold t_auth_path. rewrite tree_position by done. cbn [t_depth t_max_depth tree_over].
  destruct (Nat.ltb_spec k d); [lia|]. destruct (Nat.ltb_spec md k); [lia|]. cbn [orb]. f_equal.
  pose proof (position_range c Hc). destruct Hmin as (_ & H2 & _).
  apply collect_path_spec. intros j Hj. cbn [Nat.add]. apply layer_node_sibling; [|lia|].
  - apply sibling_nonneg, Z.shiftr_nonneg. lia.
  - destruct (decide (j <= d)%nat); [by left|right]. apply sibling_above; lia.
Qed.

Lemma coin_leaf c : c ∈ coins -> fn (coin_position c) = committed_leaf key (owner c) (commitment c).
Proof.
  intros Hc. rewrite <- (sort_by_perm coin_position) in Hc. apply list_elem_of_lookup in Hc as [k Hk].
  pose proof (sort_positions coins Hpos) as Hs.
  assert (Hp : (coin_position <$> sort_by coin_position coins) !! k = Some (coin_position c))
    by (by rewrite list_lookup_fmap, Hk).
  rewrite Hs, list_lookup_fmap in Hp. apply fmap_Some in Hp as (j & Hj & ->).
  apply lookup_seq in Hj as [-> _]. simpl. rewrite nth_leaf_fn.
  apply nth_lookup_Some. unfold coin_leaves. by rewrite list_lookup_fmap, Hk.
Qed.
End tree.
End rebuild.

(** ** Completed nodes and the paths rebuilt from them *)

Section indexed.
Context {Membership : MembershipKey}.
Variables (context : bytes) (md : nat).
Hypothesis Hmd : (1 <= md <= MAX_DEPTH)%nat.
Local Abbreviation key := (derive context).

(** Appending coins one by one, collecting the nodes each append completes. *)
Fixpoint append_all (fr : Frontier) (es : list CompletedNode) (coins : list CoinRecord)
  : result TreeError (Frontier * list CompletedNode) :=
  match coins with
  | [] => inr (fr, es)
  | c :: cs =>
      res ← append_with_nodes fr (owner c) (commitment c);
      append_all res.2 (es ++ res.1.2) cs
  end.

(** A lookup in the collected nodes. *)
Definition find_node (es : list CompletedNode) (l : nat) (i : Z) : option MNode :=
  node <$> List.find (fun e => (level e =? l)%nat && (index e =? i)) es.

(** The nodes completed by [leaves] are in [es], and every node in [es] is one. *)
Record complete_index (leaves : list MNode) (es : list CompletedNode) : Prop := {
  ci_true e : e ∈ es -> 0 <= index e /\ (index e + 1) * 2 ^ Z.of_nat (level e) <= len leaves /\
    node e = mnode key (leaf_fn leaves) (level e) (index e);
  ci_all l i : (l <= md)%nat -> 0 <= i -> (i + 1) * 2 ^ Z.of_nat l <= len leaves ->
    exists e, e ∈ es /\ level e = l /\ index e = i;
}.

Lemma find_node_complete leaves es l i :
  complete_index leaves es -> (l <= md)%nat -> 0 <= i -> (i + 1) * 2 ^ Z.of_nat l <= len leaves ->
  find_node es l i = Some (mnode key (leaf_fn leaves) l i).
Proof.
  intros [Ht Ha] Hl Hi Hle. unfold find_node.
  destruct (List.find _ es) as [e|] eqn:E.
  - apply find_some in E as [He%list_elem_of_In (Hl' & Hi')%andb_true_iff].
    apply Nat.eqb_eq in Hl'. apply Z.eqb_eq in Hi'. destruct (Ht e He) as (_ & _ & Hn). simpl. congruence.
  - destruct (Ha l i Hl Hi Hle) as (e & He%list_elem_of_In & Hl' & Hi').
    apply (find_none _ _ E) in He. rewrite Hl', Hi', Nat.eqb_refl, Z.eqb_refl in He. done.
Qed.

Lemma completed_index leaves x es m :
  complete_index leaves es -> (m <= S md)%nat -> len leaves < 2 ^ Z.of_nat md ->
  (forall l, (l < m)%nat <-> (2 ^ Z.of_nat l | len (leaves ++ [x]))) ->
  complete_index (leaves ++ [x]) (es ++ (completed_of key (leaves ++ [x]) <$> seq 0 m)).
Proof.
  intros [Ht Ha] Hm Hcap Hdiv. split.
  - intros e [He|He]%elem_of_app.
    + destruct (Ht e He) as (H1 & H2 & H3). rewrite H3, mnode_app by done.
      rewrite len_app. repeat split; [done|lia].
    + apply list_elem_of_fmap in He as (l & -> & Hl%elem_of_seq).
      destruct (proj1 (Hdiv l) ltac:(lia)) as [z Hz]. pose proof (pow2_pos l).
      unfold completed_of. cbn [level index node]. rewrite Hz, Z.div_mul by lia.
      pose proof (len_nonneg leaves). rewrite len_app in Hz.
      repeat split; nia.
  - intros l i Hl Hi Hle. destruct (decide ((i + 1) * 2 ^ Z.of_nat l <= len leaves)) as [Hle'|Hgt].
    + destruct (Ha l i Hl Hi Hle') as (e & He & ?). exists e. split; [apply elem_of_app; by left|done].
    + rewrite len_app in Hle. assert (E : len (leaves ++ [x]) = (i + 1) * 2 ^ Z.of_nat l) by (rewrite len_app; lia).
      assert (Hlt : (l < m)%nat) by (apply Hdiv; exists (i + 1); done). pose proof (pow2_pos l).
      exists (completed_of key (leaves ++ [x]) l). split.
      * apply elem_of_app. right. apply list_elem_of_fmap. exists l. rewrite elem_of_seq. split; [done|lia].
      * unfold completed_of. cbn [level index]. rewrite E, Z.div_mul by lia. lia.
Qed.

Definition leaf_of (c : CoinRecord) : MNode := committed_leaf key (owner c) (commitment c).

Lemma append_all_over coins : forall leaves es,
  complete_index leaves es -> len leaves + Z.of_nat (length coins) <= 2 ^ Z.of_nat md ->
  exists es', append_all (frontier_over context md leaves) es coins =
      inr (frontier_over context md (leaves ++ (leaf_of <$> coins)), es') /\
    complete_index (leaves ++ (leaf_of <$> coins)) es'.
Proof.
  induction coins as [|c cs IH]; intros leaves es Hes Hcap.
  { exists es. simpl. by rewrite app_nil_r. }
  cbn [append_all fmap list_fmap length] in *. unfold append_with_nodes. cbn [frontier_over f_max_depth f_count].
  destruct (Z.leb_spec (2 ^ Z.of_nat md) (len leaves)); [lia|].
  fold (frontier_over context md leaves).
  destruct (append_leaf_over context md leaves (leaf_of c)) as (m & Hm & E & Hdiv); [lia|].
  unfold leaf_of in E at 1. cbn [frontier_over f_key] in *. rewrite E. cbn [mbind result_bind fst snd].
  destruct (IH (leaves ++ [leaf_of c]) (es ++ (completed_of key (leaves ++ [leaf_of c]) <$> seq 0 m))) as (es' & E' & Hes').
  - by apply completed_index; [..|lia|].
  - rewrite len_app. lia.
  - exists es'. rewrite E', <- app_assoc in *. done.
Qed.

Lemma empty_index : complete_index [] [].
Proof.
  split; [by intros e ?%elem_of_nil|]. intros l i _ Hi Hle. pose proof (pow2_pos l).
  unfold len in Hle. simpl in Hle. nia.
Qed.

Lemma depth_allowed_true : depth_allowed md = true.
Proof. unfold depth_allowed. apply andb_true_iff. split; apply Nat.leb_le; lia. Qed.

Lemma append_all_ordered coins :
  Z.of_nat (length coins) <= 2 ^ Z.of_nat md ->
  exists es, (fr ← new_frontier context md; append_all fr [] (sort_by coin_position coins)) =
      inr (frontier_over context md (coin_leaves context coins), es) /\
    complete_index (coin_leaves context coins) es.
Proof.
  intros Hcap. unfold new_frontier. rewrite depth_allowed_true. cbn [negb mbind result_bind].
  rewrite <- (slots_of_nil key 0). apply (append_all_over _ [] [] empty_index).
  rewrite length_sort_by. unfold len. simpl. lia.
Qed.

Section serve.
Context {E : Type} (lookup : nat -> Z -> result E (option MNode)) (leaves : list MNode).
Hypothesis serves : forall l i, (l <= md)%nat -> 0 <= i -> (i + 1) * 2 ^ Z.of_nat l <= len leaves ->
  lookup l i = inr (Some (mnode key (leaf_fn leaves) l i)).
Local Abbreviation t := (mkIndexed context key (zero_nodes key md)).

Lemma subtree_spec l : forall i, (l <= md)%nat -> 0 <= i ->
  subtree lookup t (len leaves) l i = inr (mnode key (leaf_fn leaves) l i).
Proof.
  induction l as [|l IH]; intros i Hl Hi; cbn [subtree]; rewrite Z.shiftl_mul_pow2 by lia;
    cbn [i_zeros i_key].
  - change (2 ^ Z.of_nat 0) with 1. rewrite Z.mul_1_r. destruct (Z.leb_spec (len leaves) i).
    + rewrite zero_of_nodes by lia. cbn [mnode zero_at]. by rewrite leaf_fn_beyond.
    + destruct (Z.leb_spec (i + 1) (len leaves)); [|lia]. by rewrite serves by (simpl; lia).
  - destruct (Z.leb_spec (len leaves) (i * 2 ^ Z.of_nat (S l))).
    + rewrite zero_of_nodes by lia. by rewrite mnode_beyond.
    + destruct (Z.leb_spec (i * 2 ^ Z.of_nat (S l) + 2 ^ Z.of_nat (S l)) (len leaves)).
      * by rewrite serves by lia.
      * rewrite !IH by lia. cbn [mbind result_bind mnode]. by rewrite (Z.mul_comm i 2).
Qed.

Lemma indexed_loop_spec n : forall lvl i, (lvl + n <= S md)%nat -> 0 <= i ->
  indexed_loop lookup t (len leaves) n lvl i (mnode key (leaf_fn leaves) lvl i) =
  inr (mnode key (leaf_fn leaves) (lvl + n) (Z.shiftr i (Z.of_nat n)), true_path key (leaf_fn leaves) lvl n i).
Proof.
  induction n as [|n IH]; intros lvl i Hn Hi; cbn [indexed_loop].
  { by rewrite Nat.add_0_r, Z.shiftr_0_r. }
  rewrite subtree_spec; [|lia|by apply sibling_nonneg]. cbn [mbind result_bind i_key].
  pose proof (climb_parent key (leaf_fn leaves) lvl i) as E'. unfold climb in E'. cbn [fst snd] in E'. rewrite E'.
  rewrite IH; [|lia|apply Z.shiftr_nonneg; lia]. cbn [mbind result_bind fst snd]. rewrite true_path_cons.
  f_equal. f_equal. f_equal; [lia|]. rewrite Z.shiftr_shiftr by lia. f_equal. lia.
Qed.

Lemma indexed_path_spec root c o :
  r_context root = context -> (1 <= r_depth root <= md)%nat -> r_coins root = len leaves ->
  len leaves <= 2 ^ Z.of_nat (r_depth root) -> 0 <= coin_position c < len leaves ->
  from_identity_bytes (owner c) = Some o -> leaf_fn leaves (coin_position c) = leaf key o (commitment c) ->
  r_root root = mnode key (leaf_fn leaves) (r_depth root) 0 ->
  indexed_path lookup t root c = inr (true_path key (leaf_fn leaves) 0 (r_depth root) (coin_position c)).
Proof.
  intros Hctx Hd Hn Hfit Hp Ho Hl Hroot. unfold indexed_path, root_validate. rewrite Hn.
  destruct (Nat.eqb_spec (r_depth root) 0); [lia|]. destruct (Nat.ltb_spec MAX_DEPTH (r_depth root)); [lia|].
  destruct (Z.ltb_spec (2 ^ Z.of_nat (r_depth root)) (len leaves)); [lia|]. cbn [orb i_context].
  rewrite bool_decide_eq_true_2 by done. cbn [negb i_zeros]. rewrite length_zero_nodes.
  destruct (Nat.leb_spec (S md) (r_depth root)); [lia|].
  destruct (Z.leb_spec (len leaves) (coin_position c)); [lia|]. rewrite Ho. cbn [i_key].
  pose proof (indexed_loop_spec (r_depth root) 0 (coin_position c) ltac:(lia) ltac:(lia)) as El.
  cbn [mnode Nat.add] in El. rewrite Hl in El. rewrite El. cbn [mbind result_bind fst snd].
  rewrite shiftr_div, Z.div_small by lia. by rewrite bool_decide_eq_true_2 by done.
Qed.
End serve.
End indexed.

(** ** A small instance *)

Module CoinDemo.

(** Nodes are single bytes under a mixing function. *)
#[export] Instance byte_key : MembershipKey := {|
  MNode := byte; AmountCommitment := Z; Key := Z; NODE_BYTES := 1;
  derive context := be_Z (take 1 context);
  zero_node := z2b 0;
  parent k a b := z2b (k + 3 * b2z a + 5 * b2z b);
  leaf k o c := z2b (k + 7 * b2z o + c);
  from_identity_bytes o := match o with [b] => Some b | _ => None end;
  to_bytes n := [n];
  from_bytes bs := match bs with [b] => Some b | _ => None end;
|}.

#[export] Instance byte_key_lawful : LawfulNodes.
Proof. split; done. Qed.

Definition addr (n : Z) : bytes := be_bytes 32 n.
Definition ctx : bytes := addr (2 ^ 248).

(** Five coins, not in position order; the fourth position is burned. *)
Definition third : CoinRecord := mkCoin (addr 11) [z2b 4] 9 2.
Definition coins : list CoinRecord :=
  [third; mkCoin (addr 7) [z2b 1] 5 0; mkCoin (addr 9) [] 6 3;
   mkCoin (addr 8) [z2b 2] 7 1; mkCoin (addr 10) [z2b 3] 8 4].

Lemma coins_buildable : buildable coins 4 100.
Proof.
  split; [unfold MAX_DEPTH; lia|simpl; lia|..].
  - apply NoDup_Permutation.
    + by apply (bool_decide_unpack _); vm_compute.
    + by apply (bool_decide_unpack _); vm_compute.
    + intros x. cbn. rewrite !elem_of_cons, elem_of_nil. tauto.
  - by apply (bool_decide_unpack _); vm_compute.
  - by repeat constructor.
  - simpl. lia.
Qed.
End CoinDemo.

(** ** Theorems *)

(** C27. A frontier and a full rebuild agree: over coins with distinct 32-byte
    addresses and positions [0 .. n-1], a depth limit [md] from 1 to [MAX_DEPTH] that
    holds them and a node budget of at least [md + 2 * n + 40], the rebuild succeeds,
    appending the coins one by one in position order succeeds and gives the rebuilt
    tree's frontier, both give the same root record or the same refusal at every
    depth, and at the depths that hold the coins that root is the hash tree over the
    coins' leaves padded with empty ones. *)
Theorem frontier_equals_rebuild :
  forall (M : MembershipKey) (context : bytes) (coins : list CoinRecord) (md : nat) (max_nodes : Z),
  buildable coins md max_nodes ->
  exists t es,
    build context coins md max_nodes = inr t /\
    (fr ← new_frontier context md; append_all fr [] (sort_by coin_position coins)) = inr (t_frontier t, es) /\
    forall d, f_root_at_depth (t_frontier t) d = t_root_at_depth t d /\
      ((t_depth t <= d <= md)%nat ->
       t_root_at_depth t d =
       inr (mkRoot context d (Z.of_nat (length coins))
              (mnode (derive context) (leaf_fn (coin_leaves context coins)) d 0))).
Proof.
  intros M context coins md max_nodes Hb. pose proof Hb as [Hd Hfits Hpos Hnd Hw _].
  destruct (build_spec context _ _ _ Hb) as (d & Hmin & E).
  destruct (append_all_ordered context md Hd coins Hfits) as (es & Ea & _).
  exists (tree_over context coins md d), es. split; [done|].
  rewrite tree_frontier by done. split; [exact Ea|]. intros k. split; [symmetry; by apply tree_root_frontier|].
  cbn [t_depth tree_over]. intros Hk.
  rewrite tree_root_frontier, f_root_over by (rewrite ?len_coin_leaves; lia || done).
  rewrite (tree_current_depth context coins md d) by done.
  destruct (Nat.ltb_spec k d); [lia|]. destruct (Nat.ltb_spec md k); [lia|]. cbn [orb].
  by rewrite len_coin_leaves.
Qed.

Lemma frontier_equals_rebuild_witness :
  exists t es,
    build CoinDemo.ctx CoinDemo.coins 4 100 = inr t /\
    (fr ← new_frontier CoinDemo.ctx 4; append_all fr [] (sort_by coin_position CoinDemo.coins)) = inr (t_frontier t, es) /\
    f_root_at_depth (t_frontier t) 3 = t_root_at_depth t 3.
Proof.
  destruct (frontier_equals_rebuild CoinDemo.byte_key CoinDemo.ctx CoinDemo.coins 4 100 CoinDemo.coins_buildable)
    as (t & es & E & Ea & H).
  exists t, es. split; [exact E|]. split; [exact Ea|]. apply H.
Defined.

(** Witnesses rebuilt from an index of completed nodes are the tree's own: for
    every coin that is not burned and every depth that holds the coins, the path
    [IndexedTree::auth_path] assembles from the nodes the appends emitted passes
    its own root check, is the path of the rebuilt tree, and leads from the
    coin's leaf to the published root. *)
Theorem indexed_paths_complete :
  forall (M : MembershipKey) (context : bytes) (coins : list CoinRecord) (md : nat) (max_nodes : Z)
    (c : CoinRecord) (o : MNode) (d : nat),
  buildable coins md max_nodes -> c ∈ coins -> from_identity_bytes (owner c) = Some o ->
  (f_current_depth (frontier_over context md (coin_leaves context coins)) <= d <= md)%nat ->
  exists t fr es ix root path,
    build context coins md max_nodes = inr t /\
    (fr ← new_frontier context md; append_all fr [] (sort_by coin_position coins)) = inr (fr, es) /\
    new_indexed context md = inr ix /\ f_root_at_depth fr d = inr root /\
    indexed_path (E := TreeError) (fun l i => inr (find_node es l i)) ix root c = inr path /\
    t_auth_path t (address c) d = inr path /\
    follow (derive context) (leaf (derive context) o (commitment c)) path = r_root root.
Proof.
  intros M context coins md max_nodes c o k Hb Hc Ho Hk. pose proof Hb as [Hd Hfits Hpos Hnd Hw _].
  destruct (build_spec context _ _ _ Hb) as (d & Hmin & E).
  destruct (append_all_ordered context md Hd coins Hfits) as (es & Ea & Hes).
  rewrite (tree_current_depth context coins md d) in Hk by done.
  pose proof (position_range coins Hpos c Hc) as Hr. destruct Hmin as (H1 & H2 & H3).
  assert (Hmin : minimal_depth (Z.of_nat (length coins)) d) by done.
  assert (Hcap : 2 ^ Z.of_nat d <= 2 ^ Z.of_nat k) by (apply Z.pow_le_mono_r; lia).
  exists (tree_over context coins md d), (frontier_over context md (coin_leaves context coins)), es.
  eexists _, (mkRoot context k _ _), (true_path (derive context) (leaf_fn (coin_leaves context coins)) 0 k (coin_position c)).
  split; [done|]. split; [exact Ea|].
  unfold new_indexed. rewrite (depth_allowed_true md Hd). split; [done|].
  rewrite f_root_over by (rewrite ?len_coin_leaves; lia). rewrite tree_current_depth with (d := d) by done.
  destruct (Nat.ltb_spec k d); [lia|]. destruct (Nat.ltb_spec md k); [lia|]. cbn [orb]. split; [done|].
  split; [|split; [by apply tree_auth_path|]].
  - apply indexed_path_spec with (md := md) (o := o); cbn [r_context r_depth r_coins r_root];
      rewrite ?len_coin_leaves; try done; try lia.
    + intros l i Hl Hi Hle. f_equal. rewrite <- (len_coin_leaves context) in Hle. by apply (find_node_complete context md).
    + rewrite coin_leaf by done. unfold committed_leaf. by rewrite Ho.
  - pose proof (follow_true_path (derive context) (leaf_fn (coin_leaves context coins)) k 0 (coin_position c)) as F.
    cbn [mnode Nat.add] in F. rewrite coin_leaf in F by done. unfold committed_leaf in F. rewrite Ho in F.
    rewrite F. cbn [r_root]. f_equal. rewrite shiftr_div. apply Z.div_small. lia.
Qed.

Lemma indexed_paths_complete_witness :
  exists t fr es ix root path,
    build CoinDemo.ctx CoinDemo.coins 4 100 = inr t /\
    (fr ← new_frontier CoinDemo.ctx 4; append_all fr [] (sort_by coin_position CoinDemo.coins)) = inr (fr, es) /\
    new_indexed CoinDemo.ctx 4 = inr ix /\ f_root_at_depth fr 3 = inr root /\
    indexed_path (E := TreeError) (fun l i => inr (find_node es l i)) ix root CoinDemo.third = inr path /\
    t_auth_path t (address CoinDemo.third) 3 = inr path /\
    follow (derive CoinDemo.ctx) (leaf (derive CoinDemo.ctx) (z2b 4 : CoinDemo.byte_key.(MNode)) (commitment CoinDemo.third)) path = r_root root.
Proof.
  apply (indexed_paths_complete CoinDemo.byte_key CoinDemo.ctx CoinDemo.coins 4 100
           CoinDemo.third (z2b 4) 3).
  - exact CoinDemo.coins_buildable.
  - apply list_elem_of_here.
  - reflexivity.
  - split; apply Nat.leb_le; vm_compute; reflexivity.
Defined.

(** The frontier's stored record is lossless: decoding the record of a
    frontier reached by appends, for its context and depth, gives the frontier
    back. *)
Theorem frontier_record_round_trip :
  forall (M : MembershipKey) (L : LawfulNodes) (context : bytes) (md : nat) (coins : list CoinRecord)
    (fr0 fr : Frontier) (es : list CompletedNode),
  length context = 32%nat -> Z.of_nat (length coins) <= 2 ^ Z.of_nat md ->
  new_frontier context md = inr fr0 -> append_all fr0 [] coins = inr (fr, es) ->
  f_decode (f_encode fr) context md = inr fr.
Proof.
  intros M L context md coins fr0 fr es Hctx Hcap Hnew Happ.
  apply new_frontier_over in Hnew as [-> Hmd].
  destruct (append_all_over context md Hmd coins [] [] (empty_index context md Hmd)) as (es' & E & _); [unfold len; cbn [length]; lia|].
  rewrite E in Happ. injection Happ as <- _. apply f_decode_encode; [done..|].
  unfold len. simpl. by rewrite length_fmap.
Qed.

Lemma frontier_record_round_trip_witness :
  exists fr0 fr es,
    new_frontier CoinDemo.ctx 4 = inr fr0 /\ append_all fr0 [] CoinDemo.coins = inr (fr, es) /\
    f_decode (f_encode fr) CoinDemo.ctx 4 = inr fr.
Proof.
  assert (Hmd : (1 <= 4 <= MAX_DEPTH)%nat) by (unfold MAX_DEPTH; lia).
  destruct (append_all_over CoinDemo.ctx 4 Hmd CoinDemo.coins [] [] (empty_index CoinDemo.ctx 4 Hmd)) as (es & E & _).
  { apply Z.leb_le. reflexivity. }
  assert (Hn : new_frontier (Membership := CoinDemo.byte_key) CoinDemo.ctx 4 = inr (frontier_over CoinDemo.ctx 4 [])).
  { unfold frontier_over. rewrite slots_of_nil. reflexivity. }
  eexists _, _, es. split; [exact Hn|]. split; [exact E|].
  apply (frontier_record_round_trip CoinDemo.byte_key CoinDemo.byte_key_lawful CoinDemo.ctx 4 CoinDemo.coins
           _ _ _ eq_refl ltac:(simpl; lia) Hn E).
Defined.
