(* ===== verification/ShardedTree.v ===== *)
(** * The coin tree over shards

    [crates/quil-lattice-ct/src/confidential/sharded_tree.rs]: positions split
    into a shard and a local index, the sparse folds of subtree roots to the
    application root, the paths over them, and the tree built from every coin
    ([ShardedCoinTree]).

    A level of the tree is a list of [(index, node)] sorted by index; what it
    does not list is the zero node of the level. *)

From S2P Require Import Prelude Bytes Merkle CoinTree.

(** [split_position] and [position_of].  [checked_shl] refuses shifts of 64 and
    more but drops the bits shifted out. *)
Definition split_position (position : Z) (subtree_bits : nat) : Z * Z :=
  if (64 <=? subtree_bits)%nat then (0, position)
  else (Z.shiftr position (Z.of_nat subtree_bits), Z.land position (2 ^ Z.of_nat subtree_bits - 1)).
Definition position_of (shard local : Z) (subtree_bits : nat) : result TreeError Z :=
  if (64 <=? subtree_bits)%nat || (2 ^ Z.of_nat subtree_bits <=? local) then inl Position
  else match checked_add_u64 (wrap_u64 (Z.shiftl shard (Z.of_nat subtree_bits))) local with
       | Some p => inr p
       | None => inl Position
       end.

Record Shape : Type := mkShape { shard_bits : nat; subtree_bits : nat }.

(** [Shape::depth], [Shape::shards] and [Shape::validate] *)
Definition shape_depth (s : Shape) : nat := shard_bits s + subtree_bits s.
Definition shape_shards (s : Shape) : Z := 2 ^ Z.of_nat (shard_bits s).
Definition shape_validate (s : Shape) : result TreeError unit :=
  if (subtree_bits s =? 0)%nat || (shape_depth s =? 0)%nat || (MAX_DEPTH <? shape_depth s)%nat
  then inl Depth else inr tt.

Section sharded.
Context {Membership : MembershipKey}.

Local Abbreviation sparse := (list (Z * MNode)).

(** [sorted_level] *)
Definition sorted_level (nodes : sparse) (shards : option Z) : result TreeError sparse :=
  let nodes := sort_by fst nodes in
  if has_repeat fst nodes then inl Position
  else match shards with
       | Some n => if existsb (fun e => n <=? e.1) nodes then inl Position else inr nodes
       | None => inr nodes
       end.

(** [fold_once]; [z] is [zeros[level]]. *)
Fixpoint fold_once (key : Key) (z : MNode) (nodes : sparse) : sparse :=
  match nodes with
  | [] => []
  | (i, n) :: rest =>
      if Z.land i 1 =? 0 then
        match rest with
        | (j, m) :: rest' =>
            if j =? i + 1 then (Z.shiftr i 1, parent key n m) :: fold_once key z rest'
            else (Z.shiftr i 1, parent key n z) :: fold_once key z rest
        | [] => [(Z.shiftr i 1, parent key n z)]
        end
      else (Z.shiftr i 1, parent key z n) :: fold_once key z rest
  end.

(** [fold_level] *)
Fixpoint fold_times (key : Key) (zeros : list MNode) (lvl levels : nat) (nodes : sparse) : sparse :=
  match levels with
  | O => nodes
  | S n => fold_times key zeros (S lvl) n (fold_once key (zero_of zeros lvl) nodes)
  end.
Definition fold_level (key : Key) (zeros : list MNode) (nodes : sparse) (levels : nat) : result TreeError MNode :=
  nodes ← sorted_level nodes None;
  match fold_times key zeros 0 levels nodes with
  | [] => inr (zero_of zeros levels)
  | (i, n) :: _ => if i =? 0 then inr n else inl Position
  end.

(** [subtree_root] *)
Fixpoint local_leaves (key : Key) (bits : nat) (coins : list CoinRecord) : result TreeError sparse :=
  match coins with
  | [] => inr []
  | c :: cs =>
      let local := (split_position (coin_position c) bits).2 in
      if 2 ^ Z.of_nat bits <=? local then inl Position
      else rest ← local_leaves key bits cs; inr ((local, committed_leaf key (owner c) (commitment c)) :: rest)
  end.
Definition subtree_root (context : bytes) (shape : Shape) (coins : list CoinRecord) : result TreeError MNode :=
  _ ← shape_validate shape;
  let key := derive context in
  leaves ← local_leaves key (subtree_bits shape) coins;
  fold_level key (zero_nodes key (shape_depth shape)) leaves (subtree_bits shape).

(** [fold_subtree_roots] *)
Definition fold_subtree_roots (context : bytes) (shape : Shape) (roots : sparse) : result TreeError MNode :=
  _ ← shape_validate shape;
  let key := derive context in
  if existsb (fun e => shape_shards shape <=? e.1) roots then inl Position
  else fold_level key (drop (subtree_bits shape) (zero_nodes key (shape_depth shape))) roots (shard_bits shape).

(** The sibling of [index] in a sparse level. *)
Definition sparse_node (zeros : list MNode) (nodes : sparse) (lvl : nat) (i : Z) : MNode :=
  default (zero_of zeros lvl) (snd <$> search fst i nodes).

(** [fold_auth_path] *)
Fixpoint auth_loop (key : Key) (zeros : list MNode) (n lvl : nat) (nodes : sparse) (i : Z) : AuthPath :=
  match n with
  | O => mkPath [] []
  | S n' =>
      let rest := auth_loop key zeros n' (S lvl) (fold_once key (zero_of zeros lvl) nodes) (Z.shiftr i 1) in
      mkPath (sparse_node zeros nodes lvl (Z.lxor i 1) :: siblings rest) (negb (Z.land i 1 =? 0) :: right rest)
  end.
Definition fold_auth_path (context : bytes) (shape : Shape) (roots : sparse) (shard : Z) : result TreeError AuthPath :=
  _ ← shape_validate shape;
  if shape_shards shape <=? shard then inl Position
  else
    let key := derive context in
    nodes ← sorted_level roots (Some (shape_shards shape));
    inr (auth_loop key (drop (subtree_bits shape) (zero_nodes key (shape_depth shape))) (shard_bits shape) 0 nodes shard).

(** ** Folding nodes placed at arbitrary levels *)

Record Placed : Type := mkPlaced { p_level : nat; p_index : Z; p_node : MNode }.

(** [placed.remove(&level).unwrap_or_default()]: the nodes placed at a level, in
    order; every level is taken once. *)
Definition placed_at (nodes : list Placed) (lvl : nat) : sparse :=
  (fun p => (p_index p, p_node p)) <$> List.filter (fun p => (p_level p =? lvl)%nat) nodes.

(** The range check of the placing loop. *)
Definition out_of_range (top : nat) (p : Placed) : bool :=
  (top <=? p_level p)%nat || (2 ^ Z.of_nat (top - p_level p) <=? p_index p).

(** [placed.keys().next()] *)
Definition lowest (nodes : list Placed) : option nat :=
  match nodes with
  | [] => None
  | p :: ps => Some (foldr (fun q m => p_level q `min` m) (p_level p) ps)%nat
  end.

Fixpoint sparse_loop (key : Key) (zeros : list MNode) (nodes : list Placed) (n lvl : nat) (carried : sparse)
  : result TreeError sparse :=
  match n with
  | O => inr carried
  | S n' =>
      here ← sorted_level (placed_at nodes lvl ++ carried) None;
      sparse_loop key zeros nodes n' (S lvl) (fold_once key (zero_of zeros lvl) here)
  end.

(** [fold_sparse] *)
Definition fold_sparse (context : bytes) (top : nat) (nodes : list Placed) : result TreeError MNode :=
  if (top =? 0)%nat || (MAX_DEPTH <? top)%nat then inl Depth
  else if existsb (out_of_range top) nodes then inl Position
  else
    let key := derive context in
    let zeros := zero_nodes key top in
    match lowest nodes with
    | None => inr (zero_of zeros top)
    | Some start =>
        carried ← sparse_loop key zeros nodes (top - start) start [];
        match carried with
        | [] => inr (zero_of zeros top)
        | [(i, n)] => if i =? 0 then inr n else inl Position
        | _ => inl Position
        end
    end.

(** [fold_sparse_auth_path] *)
Fixpoint sparse_auth_loop (key : Key) (zeros : list MNode) (nodes : list Placed) (mine : nat)
  (n lvl : nat) (carried : sparse) (i : Z) : result TreeError AuthPath :=
  match n with
  | O => inr (mkPath [] [])
  | S n' =>
      here ← sorted_level (placed_at nodes lvl ++ carried) None;
      let next := fold_once key (zero_of zeros lvl) here in
      if (mine <=? lvl)%nat then
        rest ← sparse_auth_loop key zeros nodes mine n' (S lvl) next (Z.shiftr i 1);
        inr (mkPath (sparse_node zeros here lvl (Z.lxor i 1) :: siblings rest)
                    (negb (Z.land i 1 =? 0) :: right rest))
      else sparse_auth_loop key zeros nodes mine n' (S lvl) next i
  end.
Definition fold_sparse_auth_path (context : bytes) (top : nat) (nodes : list Placed) (mine : nat * Z)
  : result TreeError AuthPath :=
  if (top =? 0)%nat || (MAX_DEPTH <? top)%nat || (top <=? mine.1)%nat then inl Depth
  else if negb (existsb (fun p => (p_level p =? mine.1)%nat && (p_index p =? mine.2)) nodes) then inl MissingCoin
  else if existsb (out_of_range top) nodes then inl Position
  else
    let key := derive context in
    match lowest nodes with
    | None => inl MissingCoin
    | Some start => sparse_auth_loop key (zero_nodes key top) nodes mine.1 (top - start) start [] mine.2
    end.

(** ** Paths inside a subtree *)

(** The update of one target's path at a level of [fold_range]. *)
Definition record_sibling (lvl : nat) (base middle : Z) (lhs rhs : MNode) (target : Z) (path : AuthPath) : AuthPath :=
  if (base <=? target) && (target - base <? 2 ^ Z.of_nat (S lvl)) then
    let is_right := middle <=? target in
    mkPath (<[lvl := if is_right then lhs else rhs]> (siblings path)) (<[lvl := is_right]> (right path))
  else path.

(** [fold_range]; [partition_point] on leaves sorted by index. *)
Fixpoint fold_range (key : Key) (zeros : list MNode) (leaves : sparse) (lvl : nat) (base : Z) (targets : list Z)
  (paths : list AuthPath) : MNode * list AuthPath :=
  match leaves with
  | [] => (zero_of zeros lvl, paths)
  | l0 :: _ =>
      match lvl with
      | O => (l0.2, paths)
      | S l =>
          let middle := base + 2 ^ Z.of_nat l in
          let split := length (List.filter (fun e => e.1 <? middle) leaves) in
          let '(lhs, paths) := fold_range key zeros (take split leaves) l base targets paths in
          let '(rhs, paths) := fold_range key zeros (drop split leaves) l middle targets paths in
          (parent key lhs rhs, zip_with (record_sibling l base middle lhs rhs) targets paths)
      end
  end.

(** [leaves.windows(2).any(|pair| pair[0].0 >= pair[1].0)] *)
Fixpoint out_of_order (leaves : sparse) : bool :=
  match leaves with
  | a :: ((b :: _) as r) => (b.1 <=? a.1) || out_of_order r
  | _ => false
  end.

(** [subtree_paths] *)
Definition subtree_paths (context : bytes) (lvl : nat) (leaves : sparse) (targets : list Z)
  : result TreeError (MNode * list AuthPath) :=
  if (MAX_DEPTH <? lvl)%nat then inl Depth
  else if out_of_order leaves || existsb (fun e => negb (Z.shiftr e.1 (Z.of_nat lvl) =? 0)) (option_list (last leaves))
  then inl Position
  else if existsb (fun t => bool_decide (search fst t leaves = None)) targets then inl MissingCoin
  else
    let key := derive context in
    inr (fold_range key (zero_nodes key lvl) leaves lvl 0 targets
           (replicate (length targets) (mkPath (replicate lvl zero_node) (replicate lvl false)))).

(** ** The whole tree *)

Record ShardedCoinTree : Type := mkSharded {
  s_context : bytes;
  s_key : Key;
  s_zeros : list MNode;
  s_shape : Shape;
  levels : list sparse;
  s_index : list (bytes * Z);
}.

Fixpoint build_levels (key : Key) (zeros : list MNode) (n lvl : nat) (nodes : sparse) : list sparse :=
  nodes ::
  match n with
  | O => []
  | S n' => build_levels key zeros n' (S lvl) (fold_once key (zero_of zeros lvl) nodes)
  end.

(** [ShardedCoinTree::build] *)
Definition sharded_build (context : bytes) (shape : Shape) (coins : list CoinRecord) : result TreeError ShardedCoinTree :=
  _ ← shape_validate shape;
  let key := derive context in
  let zeros := zero_nodes key (shape_depth shape) in
  if existsb (fun c => shape_shards shape <=? (split_position (coin_position c) (subtree_bits shape)).1) coins
  then inl Position
  else
    let leaves := sort_by fst ((fun c => (coin_position c, committed_leaf key (owner c) (commitment c))) <$> coins) in
    if has_repeat fst leaves then inl Position
    else
      let idx := indexed_by coins in
      if has_repeat (fun e : bytes * Z => be_Z e.1) idx then inl DuplicateAddress
      else inr (mkSharded context key zeros shape (build_levels key zeros (shape_depth shape) 0 leaves) idx).

Definition level_of (t : ShardedCoinTree) (lvl : nat) : sparse := default [] (levels t !! lvl).

(** [ShardedCoinTree::root], [node], [position] and [auth_path] *)
Definition sharded_root (t : ShardedCoinTree) : MNode :=
  let d := shape_depth (s_shape t) in
  match level_of t d with
  | (_, n) :: _ => n
  | [] => zero_of (s_zeros t) d
  end.
Definition sharded_node (t : ShardedCoinTree) (lvl : nat) (i : Z) : MNode := sparse_node (s_zeros t) (level_of t lvl) lvl i.
Definition sharded_position (t : ShardedCoinTree) (a : bytes) : option Z :=
  snd <$> search (fun e : bytes * Z => be_Z e.1) (be_Z a) (s_index t).
Definition sharded_auth_path (t : ShardedCoinTree) (a : bytes) : result TreeError AuthPath :=
  match sharded_position t a with
  | None => inl MissingCoin
  | Some p => inr (collect_path (sharded_node t) (shape_depth (s_shape t)) 0 p)
  end.

(** [ShardedCoinTree::root_from_path] *)
Definition root_from_path (context : bytes) (o : MNode) (c : AmountCommitment) (path : AuthPath) : result TreeError MNode :=
  if negb (length (siblings path) =? length (right path))%nat || (MAX_DEPTH <? length (siblings path))%nat then inl Depth
  else let key := derive context in inr (follow key (leaf key o c) path).
End sharded.
