(* ===== verification/ShardedCorrect.v ===== *)
(** * Correctness of the sparse folds

    A sorted sparse level stands for a function on all indices ([rep]); one fold
    takes the level of a function to the level of its parents.  From that: the
    fold of nodes placed at arbitrary levels computes the reference node
    ([sparse_spec]) exactly when the placed subtrees are disjoint, the built tree
    has the reference root and paths, and paths compose across shards. *)

From stdpp Require Import sorting.
From S2P Require Import Prelude Bytes Merkle CoinTree CoinTreeCorrect ShardedTree.

(** ** Sorted levels *)

Section levels.
Context {Membership : MembershipKey}.
Local Abbreviation sparse := (list (Z * MNode)).

Definition keys (nodes : sparse) : list Z := fst <$> nodes.
Definition slookup (nodes : sparse) (i : Z) : option MNode := snd <$> search fst i nodes.

Lemma slookup_cons i n nodes j :
  slookup ((i, n) :: nodes) j = if i =? j then Some n else slookup nodes j.
Proof. unfold slookup, search. cbn [List.find fst]. by destruct (i =? j). Qed.

Lemma slookup_keys nodes i : is_Some (slookup nodes i) <-> i ∈ keys nodes.
Proof.
  unfold keys. induction nodes as [|[k n] l IH].
  - split; [by intros [? ?]|by intros ?%elem_of_nil].
  - rewrite slookup_cons. cbn [fmap list_fmap fst]. rewrite elem_of_cons.
    destruct (Z.eqb_spec k i) as [->|]; [split; eauto|]. rewrite IH. split; [eauto|by intros [?|?]].
Qed.

Lemma slookup_None nodes i : i ∉ keys nodes -> slookup nodes i = None.
Proof. rewrite <- slookup_keys. by destruct (slookup nodes i); [intros []; eauto|]. Qed.

Lemma slookup_Some_in nodes i n : slookup nodes i = Some n -> (i, n) ∈ nodes.
Proof.
  induction nodes as [|[k m] l IH]; [done|]. rewrite slookup_cons.
  destruct (Z.eqb_spec k i) as [->|]; [intros [= ->]; apply list_elem_of_here|].
  intros H. apply list_elem_of_further. auto.
Qed.

Lemma slookup_in nodes i n : NoDup (keys nodes) -> (i, n) ∈ nodes -> slookup nodes i = Some n.
Proof.
  unfold keys. induction nodes as [|[k m] l IH]; [by intros _ ?%elem_of_nil|].
  cbn [fmap list_fmap fst]. intros [Hk Hnd]%NoDup_cons [[= -> ->]|H]%elem_of_cons; rewrite slookup_cons.
  - by rewrite Z.eqb_refl.
  - destruct (Z.eqb_spec k i) as [->|]; [|by apply IH].
    exfalso. apply Hk. by apply (list_elem_of_fmap_2 fst l (i, n)).
Qed.

Definition ascending (nodes : sparse) : Prop := StronglySorted Z.lt (keys nodes).

Lemma ascending_cons i n nodes :
  ascending ((i, n) :: nodes) <-> ascending nodes /\ Forall (fun k => i < k) (keys nodes).
Proof. unfold ascending, keys. cbn [fmap list_fmap fst]. split; [by inversion 1|intros []; by constructor]. Qed.

Lemma ascending_NoDup nodes : ascending nodes -> NoDup (keys nodes).
Proof.
  unfold ascending. induction 1 as [|k l _ IH Hk]; [constructor|].
  constructor; [|done]. intros Hin. rewrite Forall_forall in Hk. specialize (Hk k Hin). lia.
Qed.

Lemma above_not_key nodes i j : Forall (fun k => i < k) (keys nodes) -> j <= i -> slookup nodes j = None.
Proof.
  intros H Hj. apply slookup_None. intros Hin. rewrite Forall_forall in H. specialize (H j Hin). lia.
Qed.

(** ** One fold *)

Lemma shiftr1_even i : Z.shiftr (2 * i) 1 = i.
Proof. rewrite Z.shiftr_div_pow2 by lia. change (2 ^ 1) with 2. symmetry. apply Z.div_unique with 0; lia. Qed.
Lemma shiftr1_odd i : Z.shiftr (2 * i + 1) 1 = i.
Proof. rewrite Z.shiftr_div_pow2 by lia. change (2 ^ 1) with 2. symmetry. apply Z.div_unique with 1; lia. Qed.

Definition folded (key : Key) (z : MNode) (a b : option MNode) : option MNode :=
  match a, b with
  | None, None => None
  | _, _ => Some (parent key (default z a) (default z b))
  end.

Ltac eqb_cases := repeat match goal with |- context [?a =? ?b] => destruct (Z.eqb_spec a b); try lia end.

Lemma fold_once_spec key z nodes :
  ascending nodes ->
  ascending (fold_once key z nodes) /\
  forall j, slookup (fold_once key z nodes) j = folded key z (slookup nodes (2 * j)) (slookup nodes (2 * j + 1)).
Proof.
  induction nodes as [nodes IH] using (well_founded_induction (Wf_nat.well_founded_ltof _ length)).
  unfold Wf_nat.ltof in IH. destruct nodes as [|[i n] rest]; [split; [constructor|done]|].
  intros [Hrest Hi]%ascending_cons.
  assert (Hstep : forall l h, (length l < S (length rest))%nat -> ascending l ->
            Forall (fun k => 2 * h + 1 < k) (keys l) ->
            ascending (fold_once key z l) /\ Forall (fun k => h < k) (keys (fold_once key z l)) /\
            forall j, slookup (fold_once key z l) j = folded key z (slookup l (2 * j)) (slookup l (2 * j + 1))).
  { intros l h Hl Hasc Hk. destruct (IH l Hl Hasc) as [Ha Hs]. split; [done|]. split; [|done].
    apply Forall_forall. intros k Hin. apply slookup_keys in Hin as [x Hx]. rewrite Hs in Hx.
    rewrite Forall_forall in Hk.
    destruct (slookup l (2 * k)) eqn:E1; [|destruct (slookup l (2 * k + 1)) eqn:E2; [|done]].
    - assert (Hin : 2 * k ∈ keys l) by (apply slookup_keys; eauto). specialize (Hk _ Hin). lia.
    - assert (Hin : 2 * k + 1 ∈ keys l) by (apply slookup_keys; eauto). specialize (Hk _ Hin). lia. }
  destruct (parity i) as (h & [-> | ->] & _); cbn [fold_once].
  - rewrite land_1_even, shiftr1_even. cbn [Z.eqb].
    destruct rest as [|[j m] rest'].
    + split; [repeat constructor|]. intros q. rewrite !slookup_cons. eqb_cases; done.
    + apply ascending_cons in Hrest as [Hrest' Hj]. cbn [length] in Hstep.
      destruct (Z.eqb_spec j (2 * h + 1)) as [->|Hne].
      * destruct (Hstep rest' h) as (Ha & Hk & Hs); [lia|done..|]. split; [by apply ascending_cons|].
        intros q. rewrite !slookup_cons, Hs. eqb_cases; done.
      * assert (2 * h < j) by (unfold keys in Hi; by inversion Hi).
        assert (Hge : Forall (fun k => 2 * h + 1 < k) (keys ((j, m) :: rest'))).
        { unfold keys. cbn [fmap list_fmap fst]. constructor; [lia|]. eapply Forall_impl; [exact Hj|]. simpl. lia. }
        destruct (Hstep ((j, m) :: rest') h) as (Ha & Hk & Hs); [simpl; lia|by apply ascending_cons|done|].
        split; [by apply ascending_cons|]. intros q. rewrite slookup_cons, Hs.
        rewrite (slookup_cons (2 * h) n ((j, m) :: rest') (2 * q)), (slookup_cons (2 * h) n ((j, m) :: rest') (2 * q + 1)).
        destruct (Z.eqb_spec h q) as [<-|]; [|eqb_cases; done].
        rewrite Z.eqb_refl, (above_not_key ((j, m) :: rest') (2 * h + 1) (2 * h + 1)) by (done || lia).
        eqb_cases. done.
  - rewrite land_1_odd, shiftr1_odd. cbn [Z.eqb].
    destruct (Hstep rest h) as (Ha & Hk & Hs); [simpl; lia|done..|]. split; [by apply ascending_cons|].
    intros q. rewrite !slookup_cons, Hs. destruct (Z.eqb_spec h q) as [<-|]; [|eqb_cases; done].
    rewrite (above_not_key rest (2 * h + 1) (2 * h)) by (done || lia). eqb_cases. done.
Qed.

(** ** Sorting a level *)

Lemma has_repeat_sorted (l : list (Z * MNode)) :
  Sorted Z.le (fst <$> l) -> has_repeat fst l = false -> ascending l.
Proof.
  unfold ascending, keys. intros Hs Hr. apply Sorted_StronglySorted; [intros ???; lia|].
  induction l as [|x [|y l] IH]; [constructor|by repeat constructor|].
  change (has_repeat fst (x :: y :: l)) with ((x.1 =? y.1) || has_repeat fst (y :: l)) in Hr.
  apply orb_false_iff in Hr as [Hxy Hr]. apply Z.eqb_neq in Hxy.
  inversion Hs as [|? ? Hs' Hle]; subst. inversion Hle; subst.
  constructor; [by apply IH|]. constructor. lia.
Qed.

Lemma sorted_level_cases (nodes : sparse) :
  (NoDup (keys nodes) /\ exists l, sorted_level nodes None = inr l /\ l ≡ₚ nodes /\ ascending l) \/
  (~ NoDup (keys nodes) /\ sorted_level nodes None = inl Position).
Proof.
  unfold sorted_level. cbv zeta. pose proof (sort_by_perm fst nodes) as Hp.
  destruct (has_repeat fst (sort_by fst nodes)) eqn:E.
  - right. split; [|done]. intros Hnd. unfold keys in Hnd. rewrite <- Hp in Hnd.
    by rewrite (has_repeat_NoDup fst _ Hnd) in E.
  - left. pose proof (has_repeat_sorted _ (sort_by_sorted fst nodes) E) as Ha. split.
    + apply ascending_NoDup in Ha. unfold keys in *. by rewrite Hp in Ha.
    + eauto.
Qed.

Lemma slookup_perm (l nodes : sparse) i : l ≡ₚ nodes -> NoDup (keys nodes) -> slookup l i = slookup nodes i.
Proof.
  intros Hp Hnd. assert (Hnd' : NoDup (keys l)) by (unfold keys in *; by rewrite Hp).
  destruct (slookup nodes i) as [n|] eqn:E.
  - apply slookup_in; [done|]. rewrite Hp. by apply slookup_Some_in.
  - apply slookup_None. unfold keys. rewrite Hp. intros H.
    apply slookup_keys in H as [? H]. congruence.
Qed.

Lemma slookup_app (a b : sparse) i :
  slookup (a ++ b) i = match slookup a i with Some n => Some n | None => slookup b i end.
Proof.
  induction a as [|[k n] a IH]; [done|]. cbn [app]. rewrite !slookup_cons. by destruct (k =? i).
Qed.
End levels.

(** ** Nodes placed at arbitrary levels *)

Section sparse.
Context {Membership : MembershipKey}.
Variables (context : bytes) (nodes : list Placed).
Local Abbreviation key := (derive context).

Definition placed_node (l : nat) (i : Z) : option MNode := slookup (placed_at nodes l) i.

(** The node at a position: the placed one, or the parent of its children. *)
Fixpoint sparse_spec (l : nat) (i : Z) : MNode :=
  match placed_node l i with
  | Some n => n
  | None => match l with
            | O => zero_node
            | S l' => parent key (sparse_spec l' (2 * i)) (sparse_spec l' (2 * i + 1))
            end
  end.

(** [p] lies at or under the position [(l, i)]. *)
Definition under (p : Placed) (l : nat) (i : Z) : Prop :=
  (p_level p <= l)%nat /\ Z.shiftr (p_index p) (Z.of_nat (l - p_level p)) = i.

(** No placed node lies in another's subtree, nor is a position placed twice. *)
Definition apart (p q : Placed) : Prop := ~ under p (p_level q) (p_index q) /\ ~ under q (p_level p) (p_index p).
Definition disjoint : Prop := ForallOrdPairs apart nodes.

Definition occupied (l : nat) (i : Z) : Prop := exists p, p ∈ nodes /\ under p l i.
Definition below (l : nat) (i : Z) : Prop := exists p, p ∈ nodes /\ (p_level p < l)%nat /\ under p l i.

Lemma placed_in l i n : (i, n) ∈ placed_at nodes l <-> exists p, p ∈ nodes /\ p_level p = l /\ p_index p = i /\ p_node p = n.
Proof.
  unfold placed_at. rewrite list_elem_of_fmap. split.
  - intros (p & [= -> ->] & Hp). apply list_elem_of_In, filter_In in Hp as [Hp Hl]. apply Nat.eqb_eq in Hl.
    exists p. rewrite list_elem_of_In. done.
  - intros (p & Hp & <- & <- & <-). exists p. split; [done|]. apply list_elem_of_In, filter_In.
    rewrite <- list_elem_of_In, Nat.eqb_refl. done.
Qed.

Lemma placed_key l i : i ∈ keys (placed_at nodes l) <-> exists p, p ∈ nodes /\ p_level p = l /\ p_index p = i.
Proof.
  unfold keys. rewrite list_elem_of_fmap. split.
  - intros ([k n] & -> & Hin). apply placed_in in Hin as (p & ? & ? & ? & ?). eauto.
  - intros (p & Hp & Hl & Hi). exists (i, p_node p). split; [done|]. apply placed_in. eauto.
Qed.

Lemma shiftr_S_child x k i :
  Z.shiftr x (Z.of_nat (S k)) = i <->
  Z.shiftr x (Z.of_nat k) = 2 * i \/ Z.shiftr x (Z.of_nat k) = 2 * i + 1.
Proof.
  rewrite !shiftr_div, div_pow_S. set (y := x / 2 ^ Z.of_nat k).
  pose proof (Z.div_mod y 2 ltac:(lia)). pose proof (Z.mod_pos_bound y 2 ltac:(lia)). split; [lia|].
  intros [E|E]; rewrite E; symmetry; [apply Z.div_unique with 0|apply Z.div_unique with 1]; lia.
Qed.

Lemma under_step p l i : (p_level p <= l)%nat -> under p (S l) i <-> under p l (2 * i) \/ under p l (2 * i + 1).
Proof.
  intros Hl. unfold under. replace (S l - p_level p)%nat with (S (l - p_level p)) by lia.
  rewrite shiftr_S_child. intuition lia.
Qed.

Lemma below_step l i : below (S l) i <-> occupied l (2 * i) \/ occupied l (2 * i + 1).
Proof.
  unfold below, occupied. split.
  - intros (p & Hp & Hl & Hu). apply under_step in Hu as [Hu|Hu]; [eauto..|lia].
  - intros [(p & Hp & Hu)|(p & Hp & Hu)]; exists p; (split; [done|]); pose proof (proj1 Hu); (split; [lia|]);
      apply under_step; auto.
Qed.

Lemma occupied_placed l i : occupied l i <-> i ∈ keys (placed_at nodes l) \/ below l i.
Proof.
  rewrite placed_key. unfold occupied, below. split.
  - intros (p & Hp & Hu). destruct (decide (p_level p = l)) as [E|].
    + left. exists p. destruct Hu as [_ Hu]. rewrite E, Nat.sub_diag, Z.shiftr_0_r in Hu. eauto.
    + right. exists p. pose proof (proj1 Hu). split; [done|]. split; [lia|done].
  - intros [(p & Hp & E & Hi)|(p & Hp & _ & Hu)]; [|eauto]. exists p. split; [done|].
    unfold under. subst l. rewrite Nat.sub_diag, Z.shiftr_0_r. split; [lia|done].
Qed.

(** An empty subtree is a zero subtree. *)
Lemma sparse_spec_empty l : forall i, ~ occupied l i -> sparse_spec l i = zero_at key l.
Proof.
  induction l as [|l IH]; intros i Ho; cbn [sparse_spec zero_at].
  - unfold placed_node. rewrite slookup_None; [done|]. intros Hk. apply Ho, occupied_placed. by left.
  - unfold placed_node. rewrite slookup_None by (intros Hk; apply Ho, occupied_placed; by left).
    rewrite !IH; [done|..]; intros H; apply Ho, occupied_placed; right; apply below_step; auto.
Qed.

(** *** The loop *)

(** The nodes carried into level [l]: those with something placed below. *)
Definition carried_inv (l : nat) (carried : list (Z * MNode)) : Prop :=
  ascending carried /\ (forall i, i ∈ keys carried <-> below l i) /\
  (forall i n, slookup carried i = Some n ->
     match l with O => False | S l' => n = parent key (sparse_spec l' (2 * i)) (sparse_spec l' (2 * i + 1)) end).

(** The placed nodes of level [l] are distinct and nothing is placed below them. *)
Definition level_disjoint (l : nat) : Prop :=
  NoDup (keys (placed_at nodes l)) /\ forall i, i ∈ keys (placed_at nodes l) -> ~ below l i.

Lemma here_keys l carried : carried_inv l carried ->
  NoDup (keys (placed_at nodes l ++ carried)) <-> level_disjoint l.
Proof.
  intros (Ha & Hk & _). unfold keys. rewrite fmap_app, NoDup_app. fold (keys (placed_at nodes l)) (keys carried).
  unfold level_disjoint. pose proof (ascending_NoDup _ Ha). setoid_rewrite Hk. tauto.
Qed.

Lemma here_value l carried i n : carried_inv l carried -> level_disjoint l ->
  slookup (placed_at nodes l ++ carried) i = Some n -> n = sparse_spec l i.
Proof.
  intros (Ha & Hk & Hv) [_ Hd]. rewrite slookup_app.
  destruct (slookup (placed_at nodes l) i) as [m|] eqn:E.
  - intros [= <-]. destruct l; cbn [sparse_spec]; unfold placed_node; by rewrite E.
  - intros Hc. specialize (Hv i n Hc). destruct l as [|l']; [done|]. cbn [sparse_spec]. unfold placed_node.
    by rewrite E.
Qed.

Lemma sparse_step zeros l carried :
  zero_of zeros l = zero_at key l -> carried_inv l carried ->
  (level_disjoint l /\ exists here, sorted_level (placed_at nodes l ++ carried) None = inr here /\
     here ≡ₚ placed_at nodes l ++ carried /\ ascending here /\
     (forall i, default (zero_at key l) (slookup here i) = sparse_spec l i) /\
     carried_inv (S l) (fold_once key (zero_of zeros l) here)) \/
  (~ level_disjoint l /\ sorted_level (placed_at nodes l ++ carried) None = inl Position).
Proof.
  intros Hz Hinv. destruct (sorted_level_cases (placed_at nodes l ++ carried)) as [(Hnd & here & E & Hp & Ha)|[Hnd E]].
  2:{ right. by rewrite here_keys in Hnd. }
  left. pose proof (proj1 (here_keys _ _ Hinv) Hnd) as Hd. split; [done|]. exists here. split; [done|]. split; [done|].
  split; [done|]. rewrite Hz.
  assert (Hkeys : forall i, i ∈ keys here <-> occupied l i).
  { intros i. destruct Hinv as (_ & Hk & _). rewrite occupied_placed, <- Hk.
    unfold keys. rewrite Hp, fmap_app, elem_of_app. done. }
  assert (Hval : forall i, default (zero_at key l) (slookup here i) = sparse_spec l i).
  { intros i. destruct (slookup here i) as [n|] eqn:En.
    - simpl. rewrite (slookup_perm here _ i Hp Hnd) in En. by eapply here_value.
    - simpl. symmetry. apply sparse_spec_empty. rewrite <- Hkeys, <- slookup_keys, En. by intros [? ?]. }
  split; [done|]. destruct (fold_once_spec key (zero_at key l) here Ha) as [Ha' Hs].
  split; [done|]. split.
  - intros i. rewrite <- slookup_keys, Hs, below_step, <- !Hkeys, <- !slookup_keys.
    destruct (slookup here (2 * i)), (slookup here (2 * i + 1)); simpl; unfold is_Some; naive_solver.
  - intros i n. rewrite Hs. unfold folded. rewrite <- !Hval.
    destruct (slookup here (2 * i)), (slookup here (2 * i + 1)); naive_solver.
Qed.

Lemma sparse_loop_spec zeros n : forall l carried,
  (forall k, (l <= k < l + n)%nat -> zero_of zeros k = zero_at key k) -> carried_inv l carried ->
  ((forall k, (l <= k < l + n)%nat -> level_disjoint k) /\
     exists carried', sparse_loop key zeros nodes n l carried = inr carried' /\ carried_inv (l + n) carried') \/
  (~ (forall k, (l <= k < l + n)%nat -> level_disjoint k) /\ sparse_loop key zeros nodes n l carried = inl Position).
Proof.
  induction n as [|n IH]; intros l carried Hz Hinv; cbn [sparse_loop].
  { left. split; [lia|]. exists carried. by rewrite Nat.add_0_r. }
  destruct (sparse_step zeros l carried (Hz l ltac:(lia)) Hinv) as [(Hd & here & -> & _ & _ & _ & Hinv')|[Hd ->]].
  2:{ right. split; [|done]. intros H. apply Hd, H. lia. }
  cbn [mbind result_bind].
  destruct (IH (S l) _ ltac:(intros; apply Hz; lia) Hinv') as [(Hds & c' & E & Hc')|[Hds E]].
  - left. split.
    + intros k Hk. destruct (decide (k = l)) as [->|]; [done|]. apply Hds. lia.
    + exists c'. by rewrite Nat.add_succ_r.
  - right. split; [|done]. intros H. apply Hds. intros k Hk. apply H. lia.
Qed.
End sparse.

Section fold.
Context {Membership : MembershipKey}.

Lemma placed_at_cons p nodes l :
  placed_at (p :: nodes) l = if (p_level p =? l)%nat then (p_index p, p_node p) :: placed_at nodes l else placed_at nodes l.
Proof. unfold placed_at. cbn [List.filter]. by destruct (p_level p =? l)%nat. Qed.

Lemma under_same p q : p_level p = p_level q -> under p (p_level q) (p_index q) <-> p_index p = p_index q.
Proof. intros E. unfold under. rewrite E, Nat.sub_diag, Z.shiftr_0_r. split; [by intros [_ ?]|intros ?; by split]. Qed.

Lemma disjoint_levels nodes : disjoint nodes -> forall l, level_disjoint nodes l.
Proof.
  intros Hd l. split.
  - unfold keys. induction Hd as [|p ps Hp Hd IH]; [constructor|]. rewrite placed_at_cons.
    destruct (Nat.eqb_spec (p_level p) l) as [E|]; [|done]. cbn [fmap list_fmap fst]. constructor; [|done].
    intros Hin. apply (placed_key ps) in Hin as (q & Hq & El & Ei). rewrite Forall_forall in Hp.
    destruct (Hp q Hq) as [Hu _]. apply Hu, under_same; congruence.
  - intros i (q & Hq & <- & <-)%placed_key (p & Hp & Hl & Hu).
    apply list_elem_of_In in Hp, Hq.
    destruct (ForallOrdPairs_In Hd p q Hp Hq) as [->|[[H _]|[_ H]]]; [lia|done..].
Qed.

Lemma levels_disjoint nodes : (forall l, l ∈ p_level <$> nodes -> level_disjoint nodes l) -> disjoint nodes.
Proof.
  induction nodes as [|p ps IH]; intros H; [constructor|].
  assert (Hap : forall q, q ∈ ps -> apart p q).
  { intros q Hq.
    assert (Hlq : level_disjoint (p :: ps) (p_level q)) by (apply H, list_elem_of_fmap_2, list_elem_of_further, Hq).
    assert (Hlp : level_disjoint (p :: ps) (p_level p)) by (apply H, list_elem_of_fmap_2, list_elem_of_here).
    destruct (decide (p_level p = p_level q)) as [E|Hne].
    - assert (Hi : p_index p <> p_index q).
      { destruct Hlq as [Hnd _]. rewrite placed_at_cons, E, Nat.eqb_refl in Hnd. unfold keys in Hnd.
        apply NoDup_cons in Hnd as [Hnin _]. intros Hi. apply Hnin. cbn [fst]. rewrite Hi.
        apply (placed_key ps). eauto. }
      split; rewrite under_same by done; congruence.
    - split; intros Hu; pose proof (proj1 Hu).
      + apply (proj2 Hlq (p_index q)).
        * apply placed_key. exists q. split; [by apply list_elem_of_further|done].
        * exists p. split; [apply list_elem_of_here|]. split; [lia|done].
      + apply (proj2 Hlp (p_index p)).
        * apply placed_key. exists p. split; [apply list_elem_of_here|done].
        * exists q. split; [by apply list_elem_of_further|]. split; [lia|done]. }
  constructor; [by apply Forall_forall|]. apply IH. intros l Hl.
  destruct (H l) as [Hnd Hb]; [by apply list_elem_of_further|]. split.
  - rewrite placed_at_cons in Hnd. destruct (p_level p =? l)%nat; [|done]. unfold keys in Hnd. by apply NoDup_cons in Hnd as [_ ?].
  - intros i (q & Hq & <- & <-)%placed_key (r & Hr & Hrl & Hu). apply (Hb (p_index q)).
    + apply placed_key. exists q. split; [by apply list_elem_of_further|done].
    + exists r. split; [by apply list_elem_of_further|done].
Qed.

Definition in_range (top : nat) (p : Placed) : Prop :=
  (p_level p < top)%nat /\ 0 <= p_index p < 2 ^ Z.of_nat (top - p_level p).

Lemma range_check top nodes :
  Forall (fun p => 0 <= p_index p) nodes ->
  existsb (out_of_range top) nodes = false <-> Forall (in_range top) nodes.
Proof.
  intros H0. rewrite <- not_true_iff_false, existsb_exists, Forall_forall. rewrite Forall_forall in H0.
  unfold out_of_range, in_range. split.
  - intros H p Hp. specialize (H0 p Hp). apply list_elem_of_In in Hp.
    destruct (Nat.leb_spec top (p_level p)); [exfalso; apply H; exists p; split; [done|]; apply orb_true_iff; left; by apply Nat.leb_le|].
    destruct (Z.leb_spec (2 ^ Z.of_nat (top - p_level p)) (p_index p)); [|lia].
    exfalso. apply H. exists p. split; [done|]. apply orb_true_iff. right. by apply Z.leb_le.
  - intros H (p & Hp%list_elem_of_In & Hb). specialize (H p Hp).
    apply orb_true_iff in Hb as [Hb%Nat.leb_le|Hb%Z.leb_le]; lia.
Qed.

Lemma lowest_le nodes start : lowest nodes = Some start -> forall p, p ∈ nodes -> (start <= p_level p)%nat.
Proof.
  destruct nodes as [|q ps]; [done|]. cbn [lowest]. intros [= <-] p Hp. induction ps as [|r ps IH]; simpl.
  - apply list_elem_of_singleton in Hp as ->. lia.
  - rewrite !elem_of_cons in Hp. rewrite elem_of_cons in IH. destruct Hp as [->|[->|Hp]]; [specialize (IH (or_introl eq_refl)); lia|lia|].
    specialize (IH (or_intror Hp)). lia.
Qed.

Lemma lowest_in nodes start : lowest nodes = Some start -> exists p, p ∈ nodes /\ p_level p = start.
Proof.
  destruct nodes as [|q ps]; [done|]. cbn [lowest]. intros [= <-]. induction ps as [|r ps IH]; simpl.
  - exists q. split; [apply list_elem_of_here|done].
  - destruct IH as (p & Hp & E). destruct (Nat.min_spec (p_level r) (foldr (fun q m => (p_level q `min` m)%nat) (p_level q) ps)) as [[_ Em]|[_ Em]]; rewrite Em.
    + exists r. split; [apply list_elem_of_further, list_elem_of_here|done].
    + exists p. split; [|done]. rewrite !elem_of_cons in *. tauto.
Qed.

Lemma carried_start context nodes start : lowest nodes = Some start -> carried_inv context nodes start [].
Proof.
  intros Hl. split; [constructor|]. split.
  - intros i. split; [by intros ?%elem_of_nil|]. intros (p & Hp & Hlt & _).
    pose proof (lowest_le _ _ Hl p Hp). lia.
  - intros i n. unfold slookup. done.
Qed.

Lemma range_top_index top p i : in_range top p -> under p top i -> i = 0.
Proof. intros [_ Hr] [_ <-]. rewrite shiftr_div. apply Z.div_small. lia. Qed.

(** Above the lowest placed level nothing needs checking, at or over the top
    nothing is placed. *)
Lemma disjoint_within nodes top start :
  Forall (in_range top) nodes -> lowest nodes = Some start ->
  disjoint nodes <-> forall k, (start <= k < start + (top - start))%nat -> level_disjoint nodes k.
Proof.
  intros Hr Hl. split; [intros Hd k _; by apply disjoint_levels|].
  intros H. apply levels_disjoint. intros l (p & -> & Hp)%list_elem_of_fmap. apply H.
  rewrite Forall_forall in Hr. pose proof (proj1 (Hr p Hp)). pose proof (lowest_le _ _ Hl p Hp). lia.
Qed.

Lemma carried_top context nodes top carried :
  Forall (in_range top) nodes -> nodes <> [] -> (0 < top)%nat -> carried_inv context nodes top carried ->
  exists n, carried = [(0, n)] /\ n = sparse_spec context nodes top 0.
Proof.
  intros Hr Hne Htop (Ha & Hk & Hv). rewrite Forall_forall in Hr.
  assert (H0 : forall i, i ∈ keys carried -> i = 0).
  { intros i (p & Hp & _ & Hu)%Hk. by eapply range_top_index; [apply Hr|]. }
  assert (Hsome : 0 ∈ keys carried).
  { apply Hk. destruct nodes as [|p ps]; [done|]. exists p. assert (Hp : p ∈ p :: ps) by apply list_elem_of_here.
    pose proof (Hr p Hp) as [Hl Hi]. split; [done|]. split; [done|]. split; [lia|]. rewrite shiftr_div.
    apply Z.div_small. done. }
  destruct carried as [|[i n] [|[j m] rest]].
  - by apply elem_of_nil in Hsome.
  - assert (i = 0) as -> by (apply H0, list_elem_of_here). exists n. split; [done|].
    assert (E : slookup [(0, n)] 0 = Some n) by done. specialize (Hv 0 n E).
    destruct top as [|l]; [lia|]. rewrite Hv. cbn [sparse_spec]. unfold placed_node. rewrite slookup_None; [done|].
    intros (p & Hp & Ep & _)%placed_key. pose proof (proj1 (Hr p Hp)). lia.
  - exfalso. assert (i = 0) by (apply H0, list_elem_of_here).
    assert (j = 0) by (apply H0, list_elem_of_further, list_elem_of_here).
    apply ascending_cons in Ha as [_ Hlt]. unfold keys in Hlt. cbn [fmap list_fmap fst] in Hlt.
    inversion Hlt. lia.
Qed.

(** [fold_sparse] on every input. *)
Lemma fold_sparse_cases context top nodes :
  (1 <= top <= MAX_DEPTH)%nat -> Forall (fun p => 0 <= p_index p) nodes ->
  (Forall (in_range top) nodes /\ disjoint nodes /\ fold_sparse context top nodes = inr (sparse_spec context nodes top 0)) \/
  (~ (Forall (in_range top) nodes /\ disjoint nodes) /\ fold_sparse context top nodes = inl Position).
Proof.
  intros Htop H0. unfold fold_sparse.
  destruct (Nat.eqb_spec top 0); [lia|]. destruct (Nat.ltb_spec MAX_DEPTH top); [lia|]. cbn [orb].
  destruct (existsb (out_of_range top) nodes) eqn:Er.
  { right. split; [|done]. intros [Hr _]. apply range_check in Hr; [|done]. congruence. }
  apply range_check in Er; [|done].
  destruct (lowest nodes) as [start|] eqn:El.
  2:{ destruct nodes; [|done]. left. split; [done|]. split; [constructor|]. f_equal.
      rewrite zero_of_nodes by lia. symmetry. apply sparse_spec_empty. intros (p & Hp & _). by apply elem_of_nil in Hp. }
  assert (Hlt : (start < top)%nat).
  { destruct (lowest_in _ _ El) as (p & Hp & <-). rewrite Forall_forall in Er. apply (Er p Hp). }
  pose proof (disjoint_within nodes top start Er El) as Hdw.
  destruct (sparse_loop_spec context nodes (zero_nodes (derive context) top) (top - start) start []) as [(Hd & c' & -> & Hc)|[Hd ->]].
  { intros k Hk. apply zero_of_nodes. lia. }
  { by apply carried_start. }
  - left. split; [done|]. split; [by apply Hdw|]. cbn [mbind result_bind].
    replace (start + (top - start))%nat with top in Hc by lia.
    destruct (carried_top context nodes top c' Er ltac:(by intros ->) ltac:(lia) Hc) as (nd & -> & ->). done.
  - right. split; [|done]. intros [_ Hdis]. by apply Hd, Hdw.
Qed.
End fold.

(** ** Against the leaves *)

Section leaves.
Context {Membership : MembershipKey}.
Variables (key : Key) (f : Z -> MNode).
Local Abbreviation sparse := (list (Z * MNode)).

(** A sorted sparse level that stands for level [l] of the tree over [f], with
    all its indices below [2 ^ r]. *)
Record rep (l r : nat) (nodes : sparse) : Prop := {
  rep_asc : ascending nodes;
  rep_val i : default (zero_at key l) (slookup nodes i) = mnode key f l i;
  rep_range : Forall (fun i => 0 <= i < 2 ^ Z.of_nat r) (keys nodes);
}.

Lemma fold_once_rep l r nodes : rep l (S r) nodes -> rep (S l) r (fold_once key (zero_at key l) nodes).
Proof.
  intros [Ha Hv Hr]. destruct (fold_once_spec key (zero_at key l) nodes Ha) as [Ha' Hs]. split; [done|..].
  - intros i. rewrite Hs. cbn [mnode zero_at]. rewrite <- !Hv. unfold folded.
    by destruct (slookup nodes (2 * i)), (slookup nodes (2 * i + 1)).
  - apply Forall_forall. intros i Hi. apply slookup_keys in Hi as [n Hn]. rewrite Hs in Hn.
    rewrite Forall_forall in Hr. rewrite pow2_S in Hr.
    assert (Hin : 2 * i ∈ keys nodes \/ 2 * i + 1 ∈ keys nodes).
    { rewrite <- !slookup_keys. destruct (slookup nodes (2 * i)), (slookup nodes (2 * i + 1)); unfold is_Some; naive_solver. }
    destruct Hin as [Hin|Hin]; specialize (Hr _ Hin); simpl in Hr; lia.
Qed.

Lemma build_levels_rep zeros n : forall l nodes k,
  (forall j, (l <= j < l + n)%nat -> zero_of zeros j = zero_at key j) -> rep l n nodes -> (k <= n)%nat ->
  exists nodes', build_levels key zeros n l nodes !! k = Some nodes' /\ rep (l + k) (n - k) nodes'.
Proof.
  induction n as [|n IH]; intros l nodes [|k] Hz Hr Hk; cbn [build_levels lookup list_lookup]; try lia.
  - exists nodes. by rewrite Nat.add_0_r.
  - exists nodes. by rewrite Nat.add_0_r, Nat.sub_0_r.
  - rewrite Hz by lia. replace (l + S k)%nat with (S l + k)%nat by lia. cbn [Nat.sub].
    apply IH; [intros; apply Hz; lia| |lia]. by apply fold_once_rep.
Qed.

Lemma fold_times_rep zeros n : forall l nodes r,
  (forall j, (l <= j < l + n)%nat -> zero_of zeros j = zero_at key j) -> rep l (n + r) nodes ->
  rep (l + n) r (fold_times key zeros l n nodes).
Proof.
  induction n as [|n IH]; intros l nodes r Hz Hr; cbn [fold_times]; [by rewrite Nat.add_0_r|].
  rewrite Hz by lia. replace (l + S n)%nat with (S l + n)%nat by lia.
  apply IH; [intros; apply Hz; lia|]. by apply fold_once_rep.
Qed.

(** The single node of a level of one. *)
Lemma rep_top l nodes : rep l 0 nodes ->
  nodes = [] /\ mnode key f l 0 = zero_at key l \/ nodes = [(0, mnode key f l 0)].
Proof.
  intros [Ha Hv Hr]. rewrite Forall_forall in Hr. simpl in Hr.
  destruct nodes as [|[i n] [|[j m] rest]].
  - left. split; [done|]. by rewrite <- Hv.
  - right. specialize (Hr i (list_elem_of_here _ _)). assert (i = 0) as -> by lia.
    rewrite <- Hv. done.
  - exfalso. pose proof (Hr i (list_elem_of_here _ _)).
    pose proof (Hr j (list_elem_of_further _ _ _ (list_elem_of_here _ _))).
    apply ascending_cons in Ha as [_ Hlt]. unfold keys in Hlt. cbn [fmap list_fmap fst] in Hlt. inversion Hlt. lia.
Qed.

(** *** Placed nodes of the tree over [f] *)

Variables (context : bytes) (nodes : list Placed).
Hypothesis Hkey : key = derive context.
Hypothesis Hnodes : Forall (fun p => p_node p = mnode key f (p_level p) (p_index p)) nodes.
Hypothesis Hzero : forall x, (forall p, p ∈ nodes -> ~ Z.shiftr x (Z.of_nat (p_level p)) = p_index p) -> f x = zero_node.

(** The position [(l, i)] is not strictly inside a placed node. *)
Definition uncovered (l : nat) (i : Z) : Prop :=
  forall p, p ∈ nodes -> (l < p_level p)%nat -> ~ Z.shiftr i (Z.of_nat (p_level p - l)) = p_index p.

Lemma sparse_spec_mnode l : forall i, uncovered l i -> sparse_spec context nodes l i = mnode key f l i.
Proof.
  assert (Hp : forall l i n, placed_node nodes l i = Some n -> n = mnode key f l i).
  { intros l' i n H. apply slookup_Some_in, placed_in in H as (p & Hp & <- & <- & <-).
    rewrite Forall_forall in Hnodes. by apply Hnodes. }
  induction l as [|l IH]; intros i Hu; cbn [sparse_spec]; destruct (placed_node nodes _ i) as [n|] eqn:E;
    try by eapply Hp.
  - symmetry. apply Hzero. intros p Hin Heq.
    destruct (decide (p_level p = 0)%nat) as [E0|].
    + rewrite E0, Z.shiftr_0_r in Heq. unfold placed_node in E.
      assert (Hk : i ∈ keys (placed_at nodes 0)) by (apply placed_key; eauto).
      apply slookup_keys in Hk as [? Hk]. congruence.
    + apply (Hu p Hin); [lia|]. by rewrite Nat.sub_0_r.
  - cbn [mnode]. rewrite <- Hkey. f_equal; apply IH.
    all: intros p Hin Hl Heq; destruct (decide (p_level p = S l)) as [El|];
      [|apply (Hu p Hin); [lia|]; replace (p_level p - l)%nat with (S (p_level p - S l)) in Heq by lia;
        rewrite Nat2Z.inj_succ, <- Z.add_1_l, <- Z.shiftr_shiftr in Heq by lia;
        by rewrite ?shiftr1_even, ?shiftr1_odd in Heq].
    all: rewrite El in Heq; replace (S l - l)%nat with 1%nat in Heq by lia;
      rewrite ?shiftr1_even, ?shiftr1_odd in Heq; unfold placed_node in E;
      assert (Hk : i ∈ keys (placed_at nodes (S l))) by (apply placed_key; eauto);
      apply slookup_keys in Hk as [? Hk]; congruence.
Qed.
End leaves.

(** ** The whole tree *)

Section whole.
Context {Membership : MembershipKey}.
Variables (context : bytes) (shape : Shape) (coins : list CoinRecord).
Local Abbreviation key := (derive context).
Local Abbreviation depth := (shape_depth shape).

Definition coin_entry (c : CoinRecord) : Z * MNode :=
  (coin_position c, committed_leaf key (owner c) (commitment c)).

(** The leaf at a position: the coin's there, or the empty one. *)
Definition coin_fn (x : Z) : MNode := default zero_node (slookup (coin_entry <$> coins) x).

(** Coins of one tree: a usable shape, positions within it and used once, and
    distinct 32-byte addresses. *)
Record shardable : Prop := {
  sh_subtree : (1 <= subtree_bits shape)%nat;
  sh_depth : (depth <= MAX_DEPTH)%nat;
  sh_positions : Forall (fun c => 0 <= coin_position c < 2 ^ Z.of_nat depth) coins;
  sh_distinct : NoDup (coin_position <$> coins);
  sh_addresses : NoDup (address <$> coins);
  sh_width : Forall (fun c => length (address c) = 32%nat) coins;
}.
Hypothesis Hok : shardable.

Lemma shape_valid : shape_validate shape = inr tt.
Proof.
  destruct Hok. unfold shape_validate. destruct (Nat.eqb_spec (subtree_bits shape) 0); [lia|].
  destruct (Nat.eqb_spec depth 0); [unfold shape_depth in *; lia|].
  destruct (Nat.ltb_spec MAX_DEPTH depth); [lia|]. done.
Qed.

Lemma keys_entries : keys (coin_entry <$> coins) = coin_position <$> coins.
Proof. unfold keys. rewrite <- list_fmap_compose. done. Qed.

Lemma shard_in_range c : c ∈ coins -> (shape_shards shape <=? (split_position (coin_position c) (subtree_bits shape)).1) = false.
Proof.
  intros Hc. destruct Hok as [? ? Hp _ _ _]. rewrite Forall_forall in Hp. specialize (Hp c Hc). apply Z.leb_gt.
  unfold split_position, shape_shards, shape_depth, MAX_DEPTH in *. destruct (Nat.leb_spec 64 (subtree_bits shape)); [lia|].
  cbn [fst]. rewrite shiftr_div. apply Z.div_lt_upper_bound; [apply pow2_pos|].
  rewrite Nat2Z.inj_add, Z.pow_add_r in Hp by lia. lia.
Qed.

Lemma leaves_rep : rep key coin_fn 0 depth (sort_by fst (coin_entry <$> coins)).
Proof.
  destruct Hok as [_ _ Hp Hnd _ _]. pose proof (sort_by_perm fst (coin_entry <$> coins)) as Hperm.
  assert (Hk : NoDup (keys (coin_entry <$> coins))) by (by rewrite keys_entries).
  split.
  - apply has_repeat_sorted; [apply sort_by_sorted|]. apply has_repeat_NoDup.
    unfold keys in Hk. by rewrite Hperm.
  - intros i. rewrite (slookup_perm _ _ i Hperm Hk). done.
  - unfold keys. rewrite Hperm. fold (keys (coin_entry <$> coins)). rewrite keys_entries, Forall_fmap. done.
Qed.

Lemma sharded_build_spec :
  exists t, sharded_build context shape coins = inr t /\ s_zeros t = zero_nodes key depth /\ s_shape t = shape /\
    (forall k, (k <= depth)%nat -> rep key coin_fn k (depth - k) (level_of t k)) /\
    (forall c, c ∈ coins -> sharded_position t (address c) = Some (coin_position c)).
Proof.
  unfold sharded_build. rewrite shape_valid. cbn [mbind result_bind].
  assert (Hex : existsb (fun c => shape_shards shape <=? (split_position (coin_position c) (subtree_bits shape)).1) coins = false).
  { apply not_true_iff_false. rewrite existsb_exists. intros (c & Hc%list_elem_of_In & Hb).
    by rewrite shard_in_range in Hb. }
  rewrite Hex. fold coin_entry. pose proof leaves_rep as Hrep.
  rewrite (has_repeat_NoDup fst) by (apply ascending_NoDup, (rep_asc _ _ _ _ _ Hrep)).
  assert (Hidx : NoDup ((fun e : bytes * Z => be_Z e.1) <$> indexed_by coins)).
  { destruct Hok. unfold indexed_by. rewrite sort_by_perm, <- list_fmap_compose. unfold compose. simpl.
    pose proof (NoDup_addresses coins) as H'. rewrite <- list_fmap_compose in H'. auto. }
  rewrite has_repeat_NoDup by done. eexists. split; [done|]. cbn [s_zeros s_shape]. split; [done|]. split; [done|]. split.
  - intros k Hk. destruct (build_levels_rep key coin_fn (zero_nodes key depth) depth 0
                              (sort_by fst (coin_entry <$> coins)) k) as (nodes & E & Hr); [|exact Hrep|done|].
    + intros j Hj. apply zero_of_nodes. lia.
    + unfold level_of. cbn [levels]. fold coin_entry. by rewrite E.
  - intros c Hc. unfold sharded_position. cbn [s_index].
    rewrite (search_unique (fun e : bytes * Z => be_Z e.1) _ (address c, coin_position c)); [done| |done].
    unfold indexed_by. rewrite sort_by_perm. apply list_elem_of_fmap. by exists c.
Qed.

Lemma sharded_root_spec t : sharded_build context shape coins = inr t -> sharded_root t = mnode key coin_fn depth 0.
Proof.
  intros E. destruct sharded_build_spec as (t' & E' & Hz & Hs & Hl & _). rewrite E in E'. injection E' as <-.
  unfold sharded_root. rewrite Hs, Hz. specialize (Hl depth ltac:(lia)). rewrite Nat.sub_diag in Hl.
  destruct (rep_top _ _ _ _ Hl) as [[-> Hm]| ->]; [|done]. rewrite zero_of_nodes by lia. done.
Qed.

Lemma sharded_path_spec t c : sharded_build context shape coins = inr t -> c ∈ coins ->
  sharded_auth_path t (address c) = inr (true_path key coin_fn 0 depth (coin_position c)).
Proof.
  intros E Hc. destruct sharded_build_spec as (t' & E' & Hz & Hs & Hl & Hp). rewrite E in E'. injection E' as <-.
  unfold sharded_auth_path. rewrite Hp, Hs by done. f_equal. apply collect_path_spec.
  intros k Hk. cbn [Nat.add]. unfold sharded_node, sparse_node. rewrite Hz, zero_of_nodes by lia.
  apply (rep_val _ _ _ _ _ (Hl k ltac:(lia))).
Qed.

Lemma coin_fn_coin c : c ∈ coins -> coin_fn (coin_position c) = committed_leaf key (owner c) (commitment c).
Proof.
  intros Hc. unfold coin_fn. destruct Hok as [_ _ _ Hnd _ _].
  rewrite (slookup_in _ _ (committed_leaf key (owner c) (commitment c))); [done| |].
  - by rewrite keys_entries.
  - apply list_elem_of_fmap. by exists c.
Qed.

Lemma coin_fn_absent x : x ∉ coin_position <$> coins -> coin_fn x = zero_node.
Proof. intros Hx. unfold coin_fn. rewrite slookup_None; [done|]. by rewrite keys_entries. Qed.

Lemma root_from_true_path c o : c ∈ coins -> from_identity_bytes (owner c) = Some o ->
  root_from_path context o (commitment c) (true_path key coin_fn 0 depth (coin_position c)) = inr (mnode key coin_fn depth 0).
Proof.
  intros Hc Ho. unfold root_from_path, true_path at 1 2 3. cbn [siblings right]. rewrite !length_fmap, !length_seq, Nat.eqb_refl.
  destruct Hok as [_ Hd Hp _ _ _]. destruct (Nat.ltb_spec MAX_DEPTH depth); [lia|]. cbn [negb orb]. f_equal.
  pose proof (follow_true_path key coin_fn depth 0 (coin_position c)) as E. cbn [mnode Nat.add] in E.
  rewrite coin_fn_coin in E by done. unfold committed_leaf in E. rewrite Ho in E. rewrite E. f_equal.
  rewrite shiftr_div. apply Z.div_small. rewrite Forall_forall in Hp. by apply Hp.
Qed.
End whole.

(** ** Paths over placed nodes *)

Section paths.
Context {Membership : MembershipKey}.
Variables (context : bytes) (nodes : list Placed).
Local Abbreviation key := (derive context).

Lemma sparse_auth_loop_spec zeros mine n : forall l carried i,
  (forall k, (l <= k < l + n)%nat -> zero_of zeros k = zero_at key k) -> carried_inv context nodes l carried ->
  (forall k, (l <= k < l + n)%nat -> level_disjoint nodes k) -> (mine <= l + n)%nat ->
  sparse_auth_loop key zeros nodes mine n l carried i =
  inr (collect_path (sparse_spec context nodes) (l + n - mine `max` l) (mine `max` l) i).
Proof.
  induction n as [|n IH]; intros l carried i Hz Hinv Hd Hm; cbn [sparse_auth_loop].
  { by replace (l + 0 - mine `max` l)%nat with 0%nat by lia. }
  destruct (sparse_step context nodes zeros l carried (Hz l ltac:(lia)) Hinv)
    as [(_ & here & -> & _ & _ & Hval & Hinv')|[Hnd _]]; [|exfalso; apply Hnd, Hd; lia].
  cbn [mbind result_bind].
  assert (Hsib : sparse_node zeros here l (Z.lxor i 1) = sparse_spec context nodes l (Z.lxor i 1)).
  { rewrite <- Hval. unfold sparse_node, slookup. by rewrite Hz by lia. }
  destruct (Nat.leb_spec mine l).
  - rewrite IH; [|intros; apply Hz; lia|done|intros; apply Hd; lia|lia]. cbn [mbind result_bind].
    rewrite (Nat.max_r mine (S l)), (Nat.max_r mine l) by lia.
    replace (S l + n - S l)%nat with n by lia. replace (l + S n - l)%nat with (S n) by lia.
    cbn [collect_path]. by rewrite Hsib.
  - rewrite IH; [|intros; apply Hz; lia|done|intros; apply Hd; lia|lia].
    rewrite (Nat.max_l mine (S l)), (Nat.max_l mine l) by lia. do 2 f_equal. lia.
Qed.

Lemma sparse_auth_spec top mine i :
  (1 <= top <= MAX_DEPTH)%nat -> Forall (in_range top) nodes -> disjoint nodes ->
  (exists p, p ∈ nodes /\ p_level p = mine /\ p_index p = i) ->
  fold_sparse_auth_path context top nodes (mine, i) =
  inr (collect_path (sparse_spec context nodes) (top - mine) mine i).
Proof.
  intros Htop Hr Hd (p & Hp & Hpl & Hpi). unfold fold_sparse_auth_path. cbn [fst snd].
  destruct (Nat.eqb_spec top 0); [lia|]. destruct (Nat.ltb_spec MAX_DEPTH top); [lia|].
  pose proof Hr as Hr'. rewrite Forall_forall in Hr'. pose proof (Hr' p Hp) as [Hlt Hi].
  destruct (Nat.leb_spec top mine); [lia|]. cbn [orb].
  assert (Hex : existsb (fun p => (p_level p =? mine)%nat && (p_index p =? i)) nodes = true).
  { apply existsb_exists. exists p. rewrite <- list_elem_of_In. split; [done|]. by rewrite Hpl, Hpi, Nat.eqb_refl, Z.eqb_refl. }
  rewrite Hex. cbn [negb].
  assert (Hnn : Forall (fun p => 0 <= p_index p) nodes) by (eapply Forall_impl; [exact Hr|]; intros q []; lia).
  rewrite (proj2 (range_check top nodes Hnn) Hr).
  destruct (lowest nodes) as [start|] eqn:El; [|destruct nodes; [by apply elem_of_nil in Hp|done]].
  pose proof (lowest_le _ _ El p Hp).
  rewrite sparse_auth_loop_spec.
  - rewrite Nat.max_l by lia. do 2 f_equal. lia.
  - intros k Hk. apply zero_of_nodes. lia.
  - by apply carried_start.
  - intros k _. by apply disjoint_levels.
  - lia.
Qed.

Lemma shiftr_lxor_1 x : Z.shiftr (Z.lxor x 1) 1 = Z.shiftr x 1.
Proof. rewrite Z.shiftr_lxor. change (Z.shiftr 1 1) with 0. apply Z.lxor_0_r. Qed.

Variable (f : Z -> MNode).
Hypothesis Hnodes : Forall (fun p => p_node p = mnode key f (p_level p) (p_index p)) nodes.
Hypothesis Hzero : forall x, (forall p, p ∈ nodes -> ~ Z.shiftr x (Z.of_nat (p_level p)) = p_index p) -> f x = zero_node.

(** The path from a placed node is the path of the tree over the leaves. *)
Lemma sparse_auth_true top mine i :
  (1 <= top <= MAX_DEPTH)%nat -> Forall (in_range top) nodes -> disjoint nodes ->
  (exists p, p ∈ nodes /\ p_level p = mine /\ p_index p = i) ->
  fold_sparse_auth_path context top nodes (mine, i) = inr (true_path key f mine (top - mine) i).
Proof.
  intros Htop Hr Hd Hmine. rewrite sparse_auth_spec by done. f_equal. apply collect_path_spec. intros k Hk.
  apply sparse_spec_mnode; [done..|]. intros q Hq Hl Heq. destruct Hmine as (p & Hp & <- & <-).
  assert (Hu : under p (p_level q) (p_index q)).
  { split; [lia|]. rewrite <- Heq. remember (p_level q - (p_level p + k))%nat as s eqn:Es. destruct s as [|s]; [lia|].
    rewrite Nat2Z.inj_succ, <- Z.add_1_l, <- Z.shiftr_shiftr, shiftr_lxor_1, !Z.shiftr_shiftr by lia.
    f_equal. lia. }
  apply list_elem_of_In in Hp, Hq.
  destruct (ForallOrdPairs_In Hd p q Hp Hq) as [->|[[H _]|[_ H]]]; [lia|done..].
Qed.

Lemma fold_sparse_root top :
  (1 <= top <= MAX_DEPTH)%nat -> Forall (in_range top) nodes -> disjoint nodes ->
  fold_sparse context top nodes = inr (mnode key f top 0).
Proof.
  intros Htop Hr Hd.
  assert (H0 : Forall (fun p => 0 <= p_index p) nodes) by (eapply Forall_impl; [exact Hr|]; intros q []; lia).
  destruct (fold_sparse_cases context top nodes Htop H0) as [(_ & _ & ->)|[H _]]; [|by destruct H].
  f_equal. apply sparse_spec_mnode; [done..|]. intros p Hp Hl. rewrite Forall_forall in Hr.
  pose proof (proj1 (Hr p Hp)). lia.
Qed.
End paths.

(** ** Paths inside a subtree *)

Section range.
Context {Membership : MembershipKey}.
Variables (key : Key) (f : Z -> MNode) (targets : list Z) (zeros : list MNode).
Local Abbreviation sparse := (list (Z * MNode)).

Definition in_span (lvl : nat) (base x : Z) : Prop := base <= x < base + 2 ^ Z.of_nat lvl.

(** [P'] has the true path of [t] in its first [lvl] entries and the rest of [P]. *)
Definition patched (lvl : nat) (t : Z) (P P' : AuthPath) : Prop :=
  length (siblings P') = length (siblings P) /\ length (right P') = length (right P) /\
  forall l,
    if decide (l < lvl)%nat
    then siblings P' !! l = Some (mnode key f l (Z.lxor (Z.shiftr t (Z.of_nat l)) 1)) /\
         right P' !! l = Some (negb (Z.land (Z.shiftr t (Z.of_nat l)) 1 =? 0))
    else siblings P' !! l = siblings P !! l /\ right P' !! l = right P !! l.

Definition updated (lvl : nat) (base : Z) (t : Z) (P P' : AuthPath) : Prop :=
  (in_span lvl base t -> patched lvl t P P') /\ (~ in_span lvl base t -> P' = P).

Definition roomy (lvl : nat) (P : AuthPath) : Prop := (lvl <= length (siblings P))%nat /\ (lvl <= length (right P))%nat.

Lemma split_ascending (m : Z) (l : sparse) : ascending l ->
  take (length (List.filter (fun e => e.1 <? m) l)) l = List.filter (fun e => e.1 <? m) l /\
  drop (length (List.filter (fun e => e.1 <? m) l)) l = List.filter (fun e => m <=? e.1) l.
Proof.
  induction l as [|[i n] l IH]; [done|]. intros [Ha Hi]%ascending_cons. cbn [List.filter fst].
  destruct (Z.ltb_spec i m), (Z.leb_spec m i); try lia.
  - cbn [length take drop]. destruct (IH Ha) as [-> ->]. done.
  - assert (Hge : forall e, e ∈ l -> m <= e.1).
    { intros e He. unfold keys in Hi. rewrite Forall_fmap, Forall_forall in Hi. specialize (Hi e He). simpl in Hi. lia. }
    assert (E1 : List.filter (fun e : Z * MNode => e.1 <? m) l = []).
    { destruct (List.filter _ l) as [|e r] eqn:E; [done|]. exfalso.
      assert (He : In e (List.filter (fun e : Z * MNode => e.1 <? m) l)) by (rewrite E; by left).
      apply filter_In in He as [He Hlt]. apply list_elem_of_In in He. specialize (Hge e He). apply Z.ltb_lt in Hlt. lia. }
    assert (E2 : List.filter (fun e : Z * MNode => m <=? e.1) l = l).
    { clear -Hge. induction l as [|e l IH]; [done|]. cbn [List.filter].
      rewrite (proj2 (Z.leb_le m e.1)) by (apply Hge, list_elem_of_here).
      f_equal. apply IH. intros e' He'. apply Hge. by apply list_elem_of_further. }
    rewrite E1, E2. done.
Qed.

Lemma filter_ascending (p : Z * MNode -> bool) (l : sparse) : ascending l -> ascending (List.filter p l).
Proof.
  unfold ascending, keys. induction l as [|e l IH]; [done|]. cbn [List.filter fmap list_fmap].
  inversion 1 as [|? ? Hs Hf]; subst. specialize (IH Hs). destruct (p e); [|done]. cbn [fmap list_fmap].
  constructor; [done|]. apply Forall_forall. intros k (x & -> & Hx)%list_elem_of_fmap.
  rewrite Forall_forall in Hf. apply Hf, list_elem_of_fmap_2. apply list_elem_of_In, filter_In in Hx as [Hx _].
  by apply list_elem_of_In.
Qed.

Lemma filter_lookup (p : Z -> bool) (l : sparse) x : p x = true ->
  slookup (List.filter (fun e => p e.1) l) x = slookup l x.
Proof.
  intros Hp. induction l as [|[i n] l IH]; [done|]. cbn [List.filter fst]. rewrite slookup_cons.
  destruct (p i) eqn:E; [rewrite slookup_cons, IH; done|].
  destruct (Z.eqb_spec i x) as [->|]; [congruence|done].
Qed.

Lemma keys_filter (p : Z -> bool) (l : sparse) x :
  x ∈ keys (List.filter (fun e => p e.1) l) <-> p x = true /\ x ∈ keys l.
Proof.
  unfold keys. rewrite !list_elem_of_fmap. split.
  - intros (e & -> & He). apply list_elem_of_In, filter_In in He as [He Hp]. split; [done|].
    exists e. by rewrite list_elem_of_In.
  - intros (Hp & e & -> & He). exists e. split; [done|]. apply list_elem_of_In, filter_In.
    by rewrite <- list_elem_of_In.
Qed.

Lemma record_patched l base q lhs rhs t P P1 P2 :
  base = q * 2 ^ Z.of_nat (S l) -> roomy (S l) P ->
  lhs = mnode key f l (2 * q) -> rhs = mnode key f l (2 * q + 1) ->
  updated l base t P P1 -> updated l (base + 2 ^ Z.of_nat l) t P1 P2 ->
  updated (S l) base t P (record_sibling l base (base + 2 ^ Z.of_nat l) lhs rhs t P2).
Proof.
  intros Hb [Hr1 Hr2] -> -> [U1 N1] [U2 N2]. unfold record_sibling, updated, in_span in *. rewrite pow2_S in *.
  pose proof (pow2_pos l) as Hpos. set (w := 2 ^ Z.of_nat l) in *. split.
  2:{ intros Hout. rewrite N2, N1 by lia. destruct (Z.leb_spec base t), (Z.ltb_spec (t - base) (2 * w)); try lia; done. }
  intros Hin. destruct (Z.leb_spec base t); [|lia]. destruct (Z.ltb_spec (t - base) (2 * w)); [|lia]. cbn [andb].
  assert (Hmid : exists b : bool, (base + w <=? t) = b /\ Z.shiftr t (Z.of_nat l) = 2 * q + Z.b2z b /\
    patched l t P P2).
  { rewrite shiftr_div. fold w. destruct (Z.leb_spec (base + w) t).
    - exists true. split; [done|]. split.
      + symmetry. apply Z.div_unique with (t - base - w); simpl Z.b2z; nia.
      + rewrite N1 in U2 by lia. apply U2. lia.
    - exists false. split; [done|]. split.
      + symmetry. apply Z.div_unique with (t - base); simpl Z.b2z; nia.
      + rewrite N2 by lia. apply U1. lia. }
  destruct Hmid as (b & -> & Hsh & (HL1 & HL2 & Hp)).
  split; [cbn [siblings]; by rewrite length_insert|]. split; [cbn [right]; by rewrite length_insert|].
  intros k. cbn [siblings right]. specialize (Hp k). destruct (decide (k = l)) as [->|Hkl].
  - rewrite decide_True by lia. rewrite !list_lookup_insert_eq by lia. rewrite Hsh.
    destruct b; simpl Z.b2z; rewrite ?Z.add_0_r, ?lxor_1_odd, ?lxor_1_even, ?land_1_odd, ?land_1_even; done.
  - rewrite !list_lookup_insert_ne by done. destruct (decide (k < l)%nat).
    + by rewrite decide_True in * by lia.
    + by rewrite decide_False in * by lia.
Qed.

(** The leaves a range is folded from: all of [f] in the span, every target among
    them. *)
Record covers (lvl : nat) (base : Z) (leaves : sparse) : Prop := {
  cv_asc : ascending leaves;
  cv_span : Forall (in_span lvl base) (keys leaves);
  cv_val x : in_span lvl base x -> f x = default zero_node (slookup leaves x);
  cv_targets t : t ∈ targets -> in_span lvl base t -> t ∈ keys leaves;
}.

Lemma covers_half (p : Z -> bool) l base base' leaves :
  covers (S l) base leaves ->
  (forall x, in_span l base' x -> in_span (S l) base x /\ p x = true) ->
  (forall x, in_span (S l) base x -> p x = true -> in_span l base' x) ->
  covers l base' (List.filter (fun e => p e.1) leaves).
Proof.
  intros [Ha Hs Hv Ht] Hin Hout. split.
  - by apply filter_ascending.
  - apply Forall_forall. intros x [Hp Hx]%keys_filter. rewrite Forall_forall in Hs. auto.
  - intros x Hx. destruct (Hin x Hx) as [Hx' Hp]. rewrite Hv by done. by rewrite filter_lookup.
  - intros t Hm Hx. destruct (Hin t Hx) as [Hx' Hp]. apply keys_filter. auto.
Qed.

Lemma covers_left l base leaves :
  covers (S l) base leaves -> covers l base (List.filter (fun e => e.1 <? base + 2 ^ Z.of_nat l) leaves).
Proof.
  intros H. apply (covers_half (fun x => x <? base + 2 ^ Z.of_nat l) l base base leaves H); unfold in_span;
    rewrite pow2_S; pose proof (pow2_pos l); intros x Hx; rewrite Z.ltb_lt; lia.
Qed.

Lemma covers_right l base leaves :
  covers (S l) base leaves ->
  covers l (base + 2 ^ Z.of_nat l) (List.filter (fun e => base + 2 ^ Z.of_nat l <=? e.1) leaves).
Proof.
  intros H. apply (covers_half (fun x => base + 2 ^ Z.of_nat l <=? x) l base _ leaves H); unfold in_span;
    rewrite pow2_S; pose proof (pow2_pos l); intros x Hx; rewrite Z.leb_le; lia.
Qed.

Lemma updated_roomy lvl l base t P P' : updated l base t P P' -> roomy lvl P -> roomy lvl P'.
Proof.
  intros [Hin Hout] Hr. destruct (decide (base <= t < base + 2 ^ Z.of_nat l)) as [Hd|Hd].
  - destruct (Hin Hd) as (E1 & E2 & _). unfold roomy. by rewrite E1, E2.
  - by rewrite (Hout Hd).
Qed.

(** The paths before and after, target by target. *)
Definition all_updated (lvl : nat) (base : Z) (paths paths' : list AuthPath) : Prop :=
  length paths' = length paths /\
  forall k t P, targets !! k = Some t -> paths !! k = Some P ->
    exists P', paths' !! k = Some P' /\ updated lvl base t P P'.

Lemma all_updated_roomy n l base paths paths' :
  length paths = length targets -> all_updated l base paths paths' -> Forall (roomy n) paths -> Forall (roomy n) paths'.
Proof.
  intros Hlen [Hl Hu] Hr. apply Forall_lookup. intros k P' HP'. apply lookup_lt_Some in HP' as Hk.
  destruct (lookup_lt_is_Some_2 paths k) as [P HP]; [lia|].
  destruct (lookup_lt_is_Some_2 targets k) as [t Ht]; [lia|].
  destruct (Hu k t P Ht HP) as (P1 & HP1 & Hup). rewrite HP' in HP1. injection HP1 as <-.
  rewrite Forall_lookup in Hr. eapply updated_roomy; eauto.
Qed.

Lemma fold_range_leaf q leaves paths :
  zero_of zeros 0 = zero_node -> covers 0 q leaves ->
  fold_range key zeros leaves 0 q targets paths = (mnode key f 0 q, paths).
Proof.
  intros Hz [_ Hspan Hf _]. assert (Hq : in_span 0 q q) by (unfold in_span; simpl; lia).
  cbn [mnode]. rewrite (Hf q Hq). destruct leaves as [|[i n] r]; cbn [fold_range]; [by rewrite Hz|].
  unfold keys in Hspan. cbn [fmap list_fmap fst] in Hspan. inversion Hspan as [|? ? Hi _]; subst.
  unfold in_span in Hi. simpl in Hi. assert (i = q) as -> by lia. by rewrite slookup_cons, Z.eqb_refl.
Qed.

Lemma fold_range_empty lvl base q paths :
  zero_of zeros lvl = zero_at key lvl -> base = q * 2 ^ Z.of_nat lvl -> covers lvl base [] ->
  fold_range key zeros [] lvl base targets paths = (mnode key f lvl q, paths) /\ all_updated lvl base paths paths.
Proof.
  intros Hz Hb [_ _ Hf Ht]. split.
  - destruct lvl; cbn [fold_range]; rewrite Hz; f_equal; symmetry; apply mnode_zero; intros p Hp;
      (rewrite Hf; [done|unfold in_span; lia]).
  - split; [done|]. intros k t P Hk HP. exists P. split; [done|]. split; [|done].
    intros Hin. exfalso. apply (list_elem_of_lookup_2 targets) in Hk. specialize (Ht t Hk Hin).
    by apply elem_of_nil in Ht.
Qed.

Lemma fold_range_split l base leaves paths : leaves <> [] -> ascending leaves ->
  let middle := base + 2 ^ Z.of_nat l in
  fold_range key zeros leaves (S l) base targets paths =
  (let '(lhs, paths) := fold_range key zeros (List.filter (fun e => e.1 <? middle) leaves) l base targets paths in
   let '(rhs, paths) := fold_range key zeros (List.filter (fun e => middle <=? e.1) leaves) l middle targets paths in
   (parent key lhs rhs, zip_with (record_sibling l base middle lhs rhs) targets paths)).
Proof.
  intros Hne Ha middle. destruct (split_ascending middle leaves Ha) as [E1 E2].
  rewrite <- E1, <- E2. clear E1 E2 Ha. by destruct leaves.
Qed.

Lemma fold_range_spec lvl : forall base q (leaves : sparse) (paths : list AuthPath),
  (forall k, (k <= lvl)%nat -> zero_of zeros k = zero_at key k) ->
  base = q * 2 ^ Z.of_nat lvl -> covers lvl base leaves ->
  Forall (roomy lvl) paths -> length paths = length targets ->
  exists paths', fold_range key zeros leaves lvl base targets paths = (mnode key f lvl q, paths') /\
    all_updated lvl base paths paths'.
Proof.
  induction lvl as [|l IH]; intros base q leaves paths Hz Hb Hcov Hroom Hlen.
  - rewrite Z.pow_0_r in Hb. assert (base = q) as -> by lia. exists paths.
    rewrite fold_range_leaf by (done || by apply Hz). split; [done|]. split; [done|].
    intros k t P _ HP. exists P. split; [done|]. split; [|done]. intros _. split; [done|]. split; [done|].
    intros j. by rewrite decide_False by lia.
  - destruct (decide (leaves = [])) as [->|Hne].
    { exists paths. apply fold_range_empty; [by apply Hz|done..]. }
    rewrite fold_range_split by (done || apply Hcov).
    assert (Hroom' : Forall (roomy l) paths) by (eapply Forall_impl; [exact Hroom|]; intros P [? ?]; split; lia).
    pose proof Hb as Hb'. rewrite pow2_S in Hb'.
    destruct (IH base (2 * q) _ paths (fun k Hk => Hz k ltac:(lia)) ltac:(lia) (covers_left _ _ _ Hcov) Hroom' Hlen)
      as (paths1 & -> & Hu1).
    assert (Hlen1 : length paths1 = length targets) by (rewrite <- Hlen; apply Hu1).
    destruct (IH (base + 2 ^ Z.of_nat l) (2 * q + 1) _ paths1 (fun k Hk => Hz k ltac:(lia)) ltac:(lia)
                (covers_right _ _ _ Hcov) (all_updated_roomy _ _ _ _ _ Hlen Hu1 Hroom') Hlen1) as (paths2 & -> & Hl2 & Hu2).
    destruct Hu1 as [Hl1 Hu1]. eexists. split; [reflexivity|]. split; [rewrite length_zip_with; lia|].
    intros k t P Hk HP. destruct (Hu1 k t P Hk HP) as (P1 & HP1 & Hup1).
    destruct (Hu2 k t P1 Hk HP1) as (P2 & HP2 & Hup2).
    eexists. split; [by rewrite lookup_zip_with, Hk; simpl; rewrite HP2|].
    rewrite Forall_lookup in Hroom. eapply record_patched; [done|by eapply Hroom|done..].
Qed.
End range.

(** ** A subtree from its own leaves *)

Section subtree_leaves.
Context {Membership : MembershipKey}.
Variables (context : bytes) (lvl : nat) (leaves : list (Z * MNode)).
Local Abbreviation key := (derive context).
Hypothesis Hlvl : (lvl <= MAX_DEPTH)%nat.
Hypothesis Hasc : ascending leaves.
Hypothesis Hrange : Forall (fun i => 0 <= i < 2 ^ Z.of_nat lvl) (keys leaves).

Definition sparse_fn (x : Z) : MNode := default zero_node (slookup leaves x).

Lemma out_of_order_ascending : out_of_order leaves = false.
Proof.
  clear Hrange. induction leaves as [|a [|b l] IH]; [done..|]. destruct a as [i n].
  apply ascending_cons in Hasc as [Ha Hi].
  change (out_of_order ((i, n) :: b :: l)) with ((b.1 <=? i) || out_of_order (b :: l)).
  unfold keys in Hi. cbn [fmap list_fmap] in Hi. inversion Hi as [|? ? Hib _]; subst.
  rewrite IH by done. rewrite orb_false_r. apply Z.leb_gt. done.
Qed.

Lemma true_path_entries f n t (P : AuthPath) :
  length (siblings P) = n -> length (right P) = n ->
  (forall l, (l < n)%nat -> siblings P !! l = Some (mnode key f l (Z.lxor (Z.shiftr t (Z.of_nat l)) 1)) /\
     right P !! l = Some (negb (Z.land (Z.shiftr t (Z.of_nat l)) 1 =? 0))) ->
  P = true_path key f 0 n t.
Proof.
  intros HL HR Hp. destruct P as [ss rs]. cbn [siblings right] in *. unfold true_path. f_equal;
    (apply (list_eq_same_length _ _ n); [by rewrite length_fmap, length_seq|done|]);
    intros i x y Hi; destruct (Hp i Hi) as [H1 H2]; rewrite list_lookup_fmap, lookup_seq_lt by done; simpl;
    intros Hx Hy; congruence.
Qed.

Lemma subtree_paths_spec targets :
  Forall (fun t => t ∈ keys leaves) targets ->
  subtree_paths context lvl leaves targets =
  inr (mnode key sparse_fn lvl 0, (fun t => true_path key sparse_fn 0 lvl t) <$> targets).
Proof.
  intros Htg. rewrite Forall_forall in Htg. unfold subtree_paths. destruct (Nat.ltb_spec MAX_DEPTH lvl); [lia|].
  rewrite out_of_order_ascending. cbn [orb]. rewrite Forall_forall in Hrange.
  assert (Hlast : existsb (fun e : Z * MNode => negb (Z.shiftr e.1 (Z.of_nat lvl) =? 0)) (option_list (last leaves)) = false).
  { destruct (last leaves) as [e|] eqn:E; [|done]. unfold option_list. cbn. rewrite orb_false_r.
    apply last_Some in E as [l' E].
    assert (He : e.1 ∈ keys leaves) by (unfold keys; rewrite E; apply list_elem_of_fmap_2, elem_of_app; right; apply list_elem_of_here).
    specialize (Hrange _ He). rewrite shiftr_div, Z.div_small by lia. done. }
  rewrite Hlast.
  assert (Hex : existsb (fun t => bool_decide (search fst t leaves = None)) targets = false).
  { apply not_true_iff_false. rewrite existsb_exists. intros (t & Ht%list_elem_of_In & Hb).
    apply bool_decide_eq_true in Hb. specialize (Htg t Ht). apply slookup_keys in Htg as [n Hn].
    unfold slookup in Hn. by rewrite Hb in Hn. }
  rewrite Hex. f_equal.
  destruct (fold_range_spec key sparse_fn targets (zero_nodes key lvl) lvl 0 0 leaves
              (replicate (length targets) (mkPath (replicate lvl zero_node) (replicate lvl false)))) as (paths' & -> & Hl & Hu).
  { intros k Hk. by apply zero_of_nodes. }
  { lia. }
  { split; [done| |done|].
    - apply Forall_forall. intros x Hx. unfold in_span. specialize (Hrange x Hx). lia.
    - intros t Ht _. by apply Htg. }
  { apply Forall_replicate. unfold roomy. cbn [siblings right]. by rewrite !length_replicate. }
  { by rewrite length_replicate. }
  f_equal. rewrite length_replicate in Hl.
  apply (list_eq_same_length _ _ (length targets)); [by rewrite length_fmap|done|]. intros k P' Q Hk HP' HQ.
  rewrite list_lookup_fmap in HQ. apply fmap_Some in HQ as (t & Ht & ->).
  destruct (Hu k t _ Ht (lookup_replicate_2 _ _ _ Hk)) as (P1 & HP1 & [Hin _]).
  rewrite HP' in HP1. injection HP1 as <-.
  assert (Hk' : t ∈ targets) by (by eapply list_elem_of_lookup_2).
  destruct Hin as (E1 & E2 & Hp); [unfold in_span; specialize (Hrange t (Htg t Hk')); lia|].
  cbn [siblings right] in E1, E2. rewrite length_replicate in E1. rewrite length_replicate in E2.
  apply true_path_entries; [done..|]. intros l Hll. specialize (Hp l). by rewrite decide_True in Hp by done.
Qed.
End subtree_leaves.

(** ** Subtrees of the whole tree *)

Section shards.
Context {Membership : MembershipKey}.

Lemma sibling_index (lvl l : nat) t :
  (l < lvl)%nat -> 0 <= t < 2 ^ Z.of_nat lvl ->
  0 <= Z.lxor (Z.shiftr t (Z.of_nat l)) 1 /\
  (Z.lxor (Z.shiftr t (Z.of_nat l)) 1 + 1) * 2 ^ Z.of_nat l <= 2 ^ Z.of_nat lvl.
Proof.
  intros Hl Ht. assert (exists k, lvl = (S k + l)%nat) as [k ->] by (exists (lvl - S l)%nat; lia).
  rewrite Nat2Z.inj_add, Z.pow_add_r in * by lia. rewrite pow2_S in *.
  pose proof (pow2_pos l). pose proof (pow2_pos k). rewrite shiftr_div.
  assert (Hq : 0 <= t / 2 ^ Z.of_nat l < 2 * 2 ^ Z.of_nat k).
  { split; [apply Z.div_pos; lia|]. apply Z.div_lt_upper_bound; lia. }
  destruct (parity (t / 2 ^ Z.of_nat l)) as (j & [E|E] & _); rewrite E in *;
    rewrite ?lxor_1_even, ?lxor_1_odd; split; nia.
Qed.

Lemma true_path_ext key f g lvl t :
  (forall x, 0 <= x < 2 ^ Z.of_nat lvl -> f x = g x) -> 0 <= t < 2 ^ Z.of_nat lvl ->
  true_path key f 0 lvl t = true_path key g 0 lvl t.
Proof.
  intros Hfg Ht. unfold true_path. f_equal. apply list_fmap_ext. intros ? l Hl%list_elem_of_lookup_2%elem_of_seq.
  cbn [Nat.add]. apply mnode_ext. intros p Hp. apply Hfg.
  pose proof (sibling_index lvl l t ltac:(lia) Ht). pose proof (pow2_pos l). nia.
Qed.

Lemma shiftr_offset b lvl l t : (l <= lvl)%nat ->
  Z.shiftr (b * 2 ^ Z.of_nat lvl + t) (Z.of_nat l) = b * 2 ^ Z.of_nat (lvl - l) + Z.shiftr t (Z.of_nat l).
Proof.
  intros Hl. rewrite !shiftr_div. replace (Z.of_nat lvl) with (Z.of_nat (lvl - l) + Z.of_nat l) by lia.
  rewrite Z.pow_add_r, Z.mul_assoc, Z.add_comm by lia. pose proof (pow2_pos l).
  rewrite Z.div_add by lia. lia.
Qed.

Lemma true_path_offset key f b lvl t :
  true_path key (fun x => f (b * 2 ^ Z.of_nat lvl + x)) 0 lvl t = true_path key f 0 lvl (b * 2 ^ Z.of_nat lvl + t).
Proof.
  unfold true_path. f_equal; apply list_fmap_ext; intros ? l Hl%list_elem_of_lookup_2%elem_of_seq; cbn [Nat.add];
    rewrite shiftr_offset by lia; set (q := Z.shiftr t (Z.of_nat l)).
  - pose proof (mnode_shift key f b l (Z.lxor q 1) (lvl - l)) as Em.
    replace (lvl - l + l)%nat with lvl in Em by lia. rewrite Em. f_equal. clear Em.
    assert (exists k, (lvl - l)%nat = S k) as [k ->] by (exists (lvl - l - 1)%nat; lia). rewrite pow2_S.
    destruct (parity q) as (j & [E|E] & _); rewrite E; rewrite ?lxor_1_even, ?lxor_1_odd.
    + replace (b * (2 * 2 ^ Z.of_nat k) + 2 * j) with (2 * (b * 2 ^ Z.of_nat k + j)) by ring. rewrite lxor_1_even. ring.
    + replace (b * (2 * 2 ^ Z.of_nat k) + (2 * j + 1)) with (2 * (b * 2 ^ Z.of_nat k + j) + 1) by ring. rewrite lxor_1_odd. ring.
  - assert (exists k, (lvl - l)%nat = S k) as [k ->] by (exists (lvl - l - 1)%nat; lia).
    rewrite pow2_S, !land_1. do 2 f_equal. rewrite Z.add_comm.
    replace (b * (2 * 2 ^ Z.of_nat k)) with (b * 2 ^ Z.of_nat k * 2) by ring. symmetry. apply Z.mod_add. lia.
Qed.

Variables (context : bytes) (shape : Shape) (coins : list CoinRecord).
Local Abbreviation key := (derive context).
Local Abbreviation fn := (coin_fn context coins).

(** The coins under a position, with their local indices, in order. *)
Definition under_coin (l : nat) (i : Z) (c : CoinRecord) : bool := Z.shiftr (coin_position c) (Z.of_nat l) =? i.
Definition local_entry (l : nat) (i : Z) (c : CoinRecord) : Z * MNode :=
  (coin_position c - i * 2 ^ Z.of_nat l, committed_leaf key (owner c) (commitment c)).
Definition local_entries (l : nat) (i : Z) : list (Z * MNode) :=
  sort_by fst (local_entry l i <$> List.filter (under_coin l i) coins).

Hypothesis Hok : shardable shape coins.

Lemma under_local l i c : under_coin l i c = true -> 0 <= coin_position c - i * 2 ^ Z.of_nat l < 2 ^ Z.of_nat l.
Proof.
  unfold under_coin. rewrite Z.eqb_eq, shiftr_div. intros <-. pose proof (pow2_pos l).
  pose proof (Z.div_mod (coin_position c) (2 ^ Z.of_nat l) ltac:(lia)).
  pose proof (Z.mod_pos_bound (coin_position c) (2 ^ Z.of_nat l) ltac:(lia)). lia.
Qed.

Lemma NoDup_locals l i : NoDup (keys (local_entry l i <$> List.filter (under_coin l i) coins)).
Proof.
  unfold keys. rewrite <- list_fmap_compose.
  assert (Hnd : NoDup (coin_position <$> List.filter (under_coin l i) coins)).
  { destruct Hok as [_ _ _ H _ _]. clear Hok. induction coins as [|c cs IH]; [constructor|].
    cbn [fmap list_fmap] in H. apply NoDup_cons in H as [Hc Hnd]. cbn [List.filter].
    destruct (under_coin l i c); [|auto]. cbn [fmap list_fmap]. constructor; [|auto].
    intros (x & E & Hx)%list_elem_of_fmap. apply Hc. rewrite E. apply list_elem_of_fmap_2.
    apply list_elem_of_In, filter_In in Hx as [Hx _]. by apply list_elem_of_In. }
  revert Hnd. generalize (List.filter (under_coin l i) coins) as cs. induction cs as [|c cs IH]; [constructor|].
  cbn [fmap list_fmap]. intros [Hc Hnd]%NoDup_cons. constructor; [|auto].
  unfold compose, local_entry at 1. cbn [fst]. intros (x & E & Hx)%list_elem_of_fmap. cbn [compose local_entry fst] in E.
  apply Hc. apply list_elem_of_fmap. exists x. split; [lia|done].
Qed.

Lemma local_asc l i : ascending (local_entries l i).
Proof.
  apply has_repeat_sorted; [apply sort_by_sorted|]. apply has_repeat_NoDup.
  pose proof (NoDup_locals l i) as H. unfold keys in H. unfold local_entries. by rewrite sort_by_perm.
Qed.

Lemma local_in l i x n :
  (x, n) ∈ local_entries l i <->
  exists c, c ∈ coins /\ under_coin l i c = true /\ x = coin_position c - i * 2 ^ Z.of_nat l /\
    n = committed_leaf key (owner c) (commitment c).
Proof.
  unfold local_entries. rewrite sort_by_perm, list_elem_of_fmap. split.
  - intros (c & [= -> ->] & Hc). apply list_elem_of_In, filter_In in Hc as [Hc Hu]. apply list_elem_of_In in Hc. eauto.
  - intros (c & Hc & Hu & -> & ->). exists c. split; [done|]. apply list_elem_of_In, filter_In.
    by rewrite <- list_elem_of_In.
Qed.

Lemma local_range l i : Forall (fun x => 0 <= x < 2 ^ Z.of_nat l) (keys (local_entries l i)).
Proof.
  apply Forall_forall. intros x ([y n] & -> & Hin)%list_elem_of_fmap. apply local_in in Hin as (c & _ & Hu & -> & _).
  by apply under_local.
Qed.

Lemma local_fn l i x : 0 <= x < 2 ^ Z.of_nat l -> sparse_fn (local_entries l i) x = fn (i * 2 ^ Z.of_nat l + x).
Proof.
  intros Hx. unfold sparse_fn. pose proof (ascending_NoDup _ (local_asc l i)) as Hnd.
  destruct (decide (i * 2 ^ Z.of_nat l + x ∈ coin_position <$> coins)) as [Hin|Hout].
  - apply list_elem_of_fmap in Hin as (c & E & Hc). rewrite E, (coin_fn_coin context shape coins Hok) by done.
    rewrite (slookup_in _ _ (committed_leaf key (owner c) (commitment c))); [done..|].
    apply local_in. exists c. split; [done|]. split; [|split; [lia|done]].
    unfold under_coin. apply Z.eqb_eq. rewrite shiftr_div, <- E. symmetry. apply Z.div_unique with x; lia.
  - rewrite coin_fn_absent by done. rewrite slookup_None; [done|].
    intros ([y n] & E & Hin)%list_elem_of_fmap. simpl in E. subst y. apply local_in in Hin as (c & Hc & _ & -> & _).
    apply Hout. apply list_elem_of_fmap. exists c. split; [lia|done].
Qed.

Lemma shard_subtree l i (targets : list CoinRecord) :
  (l <= MAX_DEPTH)%nat -> Forall (fun c => c ∈ coins /\ under_coin l i c = true) targets ->
  subtree_paths context l (local_entries l i) ((fun c => coin_position c - i * 2 ^ Z.of_nat l) <$> targets) =
  inr (mnode key fn l i, (fun c => true_path key fn 0 l (coin_position c)) <$> targets).
Proof.
  intros Hl Ht. rewrite subtree_paths_spec; [|done|apply local_asc|apply local_range|].
  - f_equal. f_equal.
    + rewrite (mnode_ext key _ (fun x => fn (i * 2 ^ Z.of_nat (0 + l) + x))).
      * rewrite mnode_shift. f_equal. lia.
      * intros p Hp. cbn [Nat.add]. apply local_fn. lia.
    + rewrite <- list_fmap_compose. apply list_fmap_ext. intros k c Hc%list_elem_of_lookup_2. unfold compose.
      rewrite Forall_forall in Ht. destruct (Ht c Hc) as [_ Hu]. pose proof (under_local l i c Hu) as Hr.
      rewrite (true_path_ext key _ (fun x => fn (i * 2 ^ Z.of_nat l + x))); [|by apply local_fn|done].
      rewrite true_path_offset. f_equal. lia.
  - apply Forall_fmap, Forall_forall. intros c Hc. simpl. rewrite Forall_forall in Ht. destruct (Ht c Hc) as [Hin Hu].
    apply list_elem_of_fmap. exists (coin_position c - i * 2 ^ Z.of_nat l, committed_leaf key (owner c) (commitment c)).
    split; [done|]. apply local_in. eauto.
Qed.
End shards.

(** ** A small instance *)

Module ShardDemo.
Import CoinDemo.

Definition shape : Shape := mkShape 2 3.
Definition mine : CoinRecord := mkCoin (addr 8) [z2b 2] 7 10.
Definition coins : list CoinRecord :=
  [mkCoin (addr 11) [z2b 4] 9 30; mkCoin (addr 7) [z2b 1] 5 1; mine; mkCoin (addr 9) [z2b 3] 6 9].

Lemma coins_shardable : shardable shape coins.
Proof.
  split.
  - apply Nat.leb_le. reflexivity.
  - apply Nat.leb_le. reflexivity.
  - apply Forall_forall. intros c. unfold coins. rewrite !elem_of_cons, elem_of_nil.
    intros [->|[->|[->|[->|[]]]]]; split; [apply Z.leb_le|apply Z.ltb_lt|apply Z.leb_le|apply Z.ltb_lt|apply Z.leb_le|apply Z.ltb_lt|apply Z.leb_le|apply Z.ltb_lt]; reflexivity.
  - by apply (bool_decide_unpack _); vm_compute.
  - by apply (bool_decide_unpack _); vm_compute.
  - by repeat constructor.
Qed.

(** Two shards of eight positions and one of sixteen. *)
Definition nodes : list Placed :=
  (fun lp : nat * Z => mkPlaced lp.1 lp.2 (mnode (derive ctx) (coin_fn ctx coins) lp.1 lp.2)) <$> [(3%nat, 0); (3%nat, 1); (4%nat, 1)].

Lemma nodes_in_range : Forall (in_range 5) nodes.
Proof.
  apply Forall_forall. intros p. unfold nodes. cbn [fmap list_fmap]. rewrite !elem_of_cons, elem_of_nil.
  intros [->|[->|[->|[]]]]; (split; [simpl; lia|split; [simpl; lia|reflexivity]]).
Qed.

Lemma nodes_disjoint : disjoint nodes.
Proof. repeat constructor; intros [? E]; vm_compute in E; (discriminate E || simpl in *; lia). Qed.

Lemma nodes_reported :
  Forall (fun q => subtree_paths ctx (p_level q) (local_entries ctx coins (p_level q) (p_index q)) [] = inr (p_node q, [])) nodes.
Proof.
  repeat constructor; cbn [p_level p_index p_node fst snd]; apply (shard_subtree ctx shape coins coins_shardable _ _ []);
    (unfold MAX_DEPTH; lia) || constructor.
Qed.

Lemma nodes_cover d : d ∈ coins -> exists q, q ∈ nodes /\ under_coin (p_level q) (p_index q) d = true.
Proof.
  unfold coins. rewrite !elem_of_cons, elem_of_nil. unfold nodes. cbn [fmap list_fmap].
  intros [->|[->|[->|[->|[]]]]]; eexists.
  - split; [apply list_elem_of_further, list_elem_of_further, list_elem_of_here|reflexivity].
  - split; [apply list_elem_of_here|reflexivity].
  - split; [apply list_elem_of_further, list_elem_of_here|reflexivity].
  - split; [apply list_elem_of_further, list_elem_of_here|reflexivity].
Qed.
End ShardDemo.

(** ** Theorems *)

(** The sparse fold is exact: on nodes placed at any levels below the top, it
    returns the hash tree in which a placed node stands for its subtree and
    everything absent is empty, provided every index is within its level and no
    node lies in another's subtree; otherwise it refuses. *)
Theorem fold_sparse_exact :
  forall (M : MembershipKey) (context : bytes) (top : nat) (nodes : list Placed),
  (1 <= top <= MAX_DEPTH)%nat -> Forall (fun p => 0 <= p_index p) nodes ->
  (forall root, fold_sparse context top nodes = inr root <->
     Forall (in_range top) nodes /\ disjoint nodes /\ root = sparse_spec context nodes top 0) /\
  (forall e, fold_sparse context top nodes = inl e <->
     e = Position /\ ~ (Forall (in_range top) nodes /\ disjoint nodes)).
Proof.
  intros M context top nodes Htop H0.
  destruct (fold_sparse_cases context top nodes Htop H0) as [(Hr & Hd & ->)|[Hn ->]]; split.
  - intros root. split; [by intros [= <-]|by intros (_ & _ & ->)].
  - intros e. split; [done|]. intros [_ Hn]. by destruct Hn.
  - intros root. split; [done|]. intros (Hr & Hd & _). by destruct Hn.
  - intros e. split; [by intros [= <-]|by intros [-> _]].
Qed.

Lemma fold_sparse_exact_witness :
  fold_sparse CoinDemo.ctx 5 ShardDemo.nodes = inr (sparse_spec CoinDemo.ctx ShardDemo.nodes 5 0).
Proof.
  apply (fold_sparse_exact CoinDemo.byte_key CoinDemo.ctx 5 ShardDemo.nodes).
  - unfold MAX_DEPTH. lia.
  - eapply Forall_impl; [exact ShardDemo.nodes_in_range|]. intros p [_ [? _]]. assumption.
  - split; [exact ShardDemo.nodes_in_range|]. split; [exact ShardDemo.nodes_disjoint|reflexivity].
Defined.

(** C28. The two-level structure is a view of one tree: when shards at any depths
    report the roots of their own disjoint subtrees and together hold every coin,
    the fold of the reports is the root of the tree built from all coins, and for
    every coin the path inside its shard's subtree continued by the path over the
    reports is the coin's path in that tree and leads from the coin to the root. *)
Theorem shard_paths_compose :
  forall (M : MembershipKey) (context : bytes) (shape : Shape) (coins : list CoinRecord) (nodes : list Placed)
    (t : ShardedCoinTree) (p : Placed) (c : CoinRecord) (o : MNode),
  shardable shape coins -> sharded_build context shape coins = inr t ->
  Forall (in_range (shape_depth shape)) nodes -> disjoint nodes ->
  Forall (fun q => subtree_paths context (p_level q) (local_entries context coins (p_level q) (p_index q)) [] =
                   inr (p_node q, [])) nodes ->
  (forall d, d ∈ coins -> exists q, q ∈ nodes /\ under_coin (p_level q) (p_index q) d = true) ->
  p ∈ nodes -> c ∈ coins -> under_coin (p_level p) (p_index p) c = true -> from_identity_bytes (owner c) = Some o ->
  fold_sparse context (shape_depth shape) nodes = inr (sharded_root t) /\
  exists sub rest,
    subtree_paths context (p_level p) (local_entries context coins (p_level p) (p_index p))
      [coin_position c - p_index p * 2 ^ Z.of_nat (p_level p)] = inr (p_node p, [sub]) /\
    fold_sparse_auth_path context (shape_depth shape) nodes (p_level p, p_index p) = inr rest /\
    sharded_auth_path t (address c) = inr (path_app sub rest) /\
    root_from_path context o (commitment c) (path_app sub rest) = inr (sharded_root t).
Proof.
  intros M context shape coins nodes t p c o Hok Hb Hr Hd Hrep Hcov Hp Hc Hu Ho.
  pose proof (sh_depth _ _ Hok) as Hdep. pose proof (sh_subtree _ _ Hok).
  assert (Htop : (1 <= shape_depth shape <= MAX_DEPTH)%nat) by (unfold shape_depth in *; lia).
  pose proof Hr as Hr'. rewrite Forall_forall in Hr'.
  assert (Hnode : Forall (fun q => p_node q = mnode (derive context) (coin_fn context coins) (p_level q) (p_index q)) nodes).
  { apply Forall_forall. intros q Hq. rewrite Forall_forall in Hrep. specialize (Hrep q Hq).
    pose proof (proj1 (Hr' q Hq)). pose proof (shard_subtree context shape coins Hok (p_level q) (p_index q) [] ltac:(lia) ltac:(constructor)) as E.
    cbn [fmap list_fmap] in E. rewrite Hrep in E. by injection E. }
  assert (Hzero : forall x, (forall q, q ∈ nodes -> ~ Z.shiftr x (Z.of_nat (p_level q)) = p_index q) -> coin_fn context coins x = zero_node).
  { intros x Hx. apply coin_fn_absent. intros (d & -> & Hin)%list_elem_of_fmap.
    destruct (Hcov d Hin) as (q & Hq & Hqu). apply Z.eqb_eq in Hqu. by apply (Hx q Hq). }
  rewrite (sharded_root_spec context shape coins Hok t Hb). split; [by apply fold_sparse_root|].
  pose proof (proj1 (Hr' p Hp)) as Hl. pose proof Hnode as Hn. rewrite Forall_forall in Hn.
  exists (true_path (derive context) (coin_fn context coins) 0 (p_level p) (coin_position c)).
  exists (true_path (derive context) (coin_fn context coins) (p_level p) (shape_depth shape - p_level p) (p_index p)).
  pose proof (shard_subtree context shape coins Hok (p_level p) (p_index p) [c] ltac:(lia)
                (proj2 (Forall_singleton _ _) (conj Hc Hu))) as E.
  cbn [fmap list_fmap] in E. split; [by rewrite (Hn p Hp)|]. split; [apply sparse_auth_true; eauto|].
  assert (Happ : path_app (true_path (derive context) (coin_fn context coins) 0 (p_level p) (coin_position c))
                   (true_path (derive context) (coin_fn context coins) (p_level p) (shape_depth shape - p_level p) (p_index p)) =
                 true_path (derive context) (coin_fn context coins) 0 (shape_depth shape) (coin_position c)).
  { apply Z.eqb_eq in Hu. rewrite <- Hu. rewrite (true_path_app _ _ 0). f_equal. lia. }
  rewrite Happ. split; [by apply (sharded_path_spec context shape)|].
  by apply (root_from_true_path context shape coins Hok).
Qed.

Lemma shard_paths_compose_witness :
  exists t, sharded_build CoinDemo.ctx ShardDemo.shape ShardDemo.coins = inr t /\
  fold_sparse CoinDemo.ctx (shape_depth ShardDemo.shape) ShardDemo.nodes = inr (sharded_root t).
Proof.
  destruct (sharded_build_spec CoinDemo.ctx ShardDemo.shape ShardDemo.coins ShardDemo.coins_shardable) as (t & E & _).
  exists t. split; [exact E|].
  apply (shard_paths_compose CoinDemo.byte_key CoinDemo.ctx ShardDemo.shape ShardDemo.coins ShardDemo.nodes t
           (mkPlaced 3 1 (mnode (derive CoinDemo.ctx) (coin_fn CoinDemo.ctx ShardDemo.coins) 3 1)) ShardDemo.mine (z2b 2)
           ShardDemo.coins_shardable E ShardDemo.nodes_in_range ShardDemo.nodes_disjoint ShardDemo.nodes_reported ShardDemo.nodes_cover).
  - apply list_elem_of_further, list_elem_of_here.
  - apply list_elem_of_further, list_elem_of_further, list_elem_of_here.
  - reflexivity.
  - reflexivity.
Defined.
