(* ===== verification/CoinBlocks.v ===== *)
(** * Coin blocks: regions of the accumulator and their owners

    [crates/quil-execution/src/token_intrinsic/coin_blocks.rs].  A block id is a
    bit path under a leading sentinel bit, a position is a block id over 16 bits
    of local index, and a shard owns the blocks whose paths extend its own.

    Widths are [nat] (the code's [u8]), ids and positions [Z] (its [u64]). *)

From S2P Require Import Prelude Bytes Merkle CoinTree CoinTreeCorrect ShardedTree.

Definition MAX_BLOCK_BITS : nat := 15.
Definition SUBTREE_BITS : nat := 16.
Definition INITIAL_BLOCK_BITS : nat := 6.
Definition BLOCK_INDEX_BITS : nat := MAX_BLOCK_BITS + 1.
Definition DEPTH : nat := BLOCK_INDEX_BITS + SUBTREE_BITS.

(** [shape], [blocks], [grown], [max_position] *)
Definition shape (block_bits : nat) : outcome Shape :=
  if (block_bits <? INITIAL_BLOCK_BITS)%nat || (MAX_BLOCK_BITS <? block_bits)%nat then Err InvalidArgument
  else Ok (mkShape BLOCK_INDEX_BITS SUBTREE_BITS).
Definition blocks (block_bits : nat) : Z := 2 ^ Z.of_nat block_bits.
Definition grown (block_bits : nat) : outcome nat :=
  if (block_bits =? 255)%nat then Err InvalidArgument
  else _ ← shape (S block_bits); Ok (S block_bits).
Definition max_position : Z := 2 ^ Z.of_nat (BLOCK_INDEX_BITS + SUBTREE_BITS).

(** [block_id] *)
Definition block_id (width : nat) (path_value : Z) : outcome Z :=
  if (width <? INITIAL_BLOCK_BITS)%nat || (MAX_BLOCK_BITS <? width)%nat || (2 ^ Z.of_nat width <=? path_value)
  then Err InvalidArgument else Ok (Z.lor (2 ^ Z.of_nat width) path_value).

(** [u64::leading_zeros] and [creation_width] *)
Definition leading_zeros (x : Z) : Z := if x =? 0 then 64 else 63 - Z.log2 x.
Definition creation_width (block : Z) : nat := Z.to_nat (63 - Z.min (leading_zeros block) 63).

(** [block_path]: the bits below the sentinel, most significant first. *)
Definition block_path (block : Z) : list bool :=
  let width := creation_width block in
  let path := Z.land block (2 ^ Z.of_nat width - 1) in
  (fun bit => Z.land (Z.shiftr path (Z.of_nat (width - 1 - bit))) 1 =? 1) <$> seq 0 width.

(** [block_for_address] *)
Definition address_bit (address : bytes) (bit : nat) : outcome bool :=
  b ← unwrap (address !! (bit / 8)%nat);
  Ok (Z.land (Z.shiftr (b2z b) (Z.of_nat (7 - bit mod 8))) 1 =? 1).
Fixpoint address_path (address : bytes) (bits : list nat) (path : Z) : outcome Z :=
  match bits with
  | [] => Ok path
  | i :: rest => b ← address_bit address i; address_path address rest (Z.lor (wrap_u64 (Z.shiftl path 1)) (Z.b2z b))
  end.
Definition block_for_address (width : nat) (address : bytes) : outcome Z :=
  path ← address_path address (seq 0 width) 0; block_id width path.

(** [prefix.iter().zip(&path).all(|(a, b)| a == b)] *)
Definition zip_agree (a b : list bool) : bool := forallb (fun ab => eqb ab.1 ab.2) (zip a b).

(** [shard_owns_block] *)
Definition shard_owns_block (prefix : list bool) (block : Z) : bool :=
  (length prefix <=? length (block_path block))%nat && zip_agree prefix (block_path block).

(** The fold of a bit path into a number, as a [u64]. *)
Definition path_value (bits : list bool) : Z :=
  foldl (fun acc b => Z.lor (wrap_u64 (Z.shiftl acc 1)) (Z.b2z b)) 0 bits.

(** [owned_blocks] *)
Definition owned_at (shard : list bool) (width : nat) : list Z :=
  let free := (width - length shard)%nat in
  (fun rest => Z.lor (Z.lor (2 ^ Z.of_nat width) (Z.shiftl (path_value shard) (Z.of_nat free))) (Z.of_nat rest))
  <$> seq 0 (Z.to_nat (2 ^ Z.of_nat free)).
Definition owned_blocks (shard : list bool) (max_width : nat) : list Z :=
  concat (owned_at shard <$> List.filter (fun width => (length shard <=? width)%nat)
            (seq INITIAL_BLOCK_BITS (S (max_width `min` MAX_BLOCK_BITS) - INITIAL_BLOCK_BITS))).

(** [is_allocated_width] *)
Definition is_allocated_width (block_bits : nat) (block : Z) : bool :=
  (0 <? block) && (INITIAL_BLOCK_BITS <=? creation_width block)%nat && (creation_width block <=? block_bits)%nat.

(** [position], [locate] and [check_position] *)
Definition block_position (block_bits : nat) (block local : Z) : outcome Z :=
  if negb (is_allocated_width block_bits block) then Err InvalidArgument
  else match position_of block local SUBTREE_BITS with
       | inr p => Ok p
       | inl _ => Err InvalidArgument
       end.
Definition locate (position : Z) : Z * Z := split_position position SUBTREE_BITS.
Definition check_position (shard_prefix : list bool) (position : Z) : outcome unit :=
  if shard_owns_block shard_prefix (locate position).1 then Ok tt else Err InvalidArgument.

(** ** Bit paths *)

(** The bits of [v] at width [w], most significant first. *)
Definition bits_of (w : nat) (v : Z) : list bool := (fun bit => Z.testbit v (Z.of_nat (w - 1 - bit))) <$> seq 0 w.

Lemma length_bits_of w v : length (bits_of w v) = w.
Proof. unfold bits_of. by rewrite length_fmap, length_seq. Qed.

Lemma land_1_testbit x : (Z.land x 1 =? 1) = Z.testbit x 0.
Proof. rewrite land_1, Z.bit0_odd, mod2_odd. by destruct (Z.odd x). Qed.

Lemma shifted_bit x n : 0 <= n -> (Z.land (Z.shiftr x n) 1 =? 1) = Z.testbit x n.
Proof. intros Hn. rewrite land_1_testbit, Z.shiftr_spec by lia. f_equal. Qed.

(** An id is its sentinel plus its path. *)
Lemma lor_sentinel (w : nat) v : 0 <= v < 2 ^ Z.of_nat w -> Z.lor (2 ^ Z.of_nat w) v = 2 ^ Z.of_nat w + v.
Proof. intros Hv. pose proof (lor_high w 1 v Hv) as E. by rewrite Z.shiftl_mul_pow2, Z.mul_1_l in E by lia. Qed.

Lemma creation_width_sentinel (w : nat) v : (w < 64)%nat -> 0 <= v < 2 ^ Z.of_nat w -> creation_width (2 ^ Z.of_nat w + v) = w.
Proof.
  intros Hw Hv. unfold creation_width, leading_zeros. pose proof (pow2_pos w).
  destruct (Z.eqb_spec (2 ^ Z.of_nat w + v) 0); [lia|].
  rewrite (Z.log2_unique (2 ^ Z.of_nat w + v) (Z.of_nat w)); [lia|lia|].
  rewrite Z.pow_succ_r by lia. lia.
Qed.

Lemma block_path_sentinel (w : nat) v : (w < 64)%nat -> 0 <= v < 2 ^ Z.of_nat w -> block_path (2 ^ Z.of_nat w + v) = bits_of w v.
Proof.
  intros Hw Hv. unfold block_path. rewrite creation_width_sentinel by done. unfold bits_of.
  apply list_fmap_ext. intros _ bit Hb%list_elem_of_lookup_2%elem_of_seq. rewrite shifted_bit by lia.
  rewrite Z.sub_1_r, <- Z.ones_equiv, Z.land_ones by lia.
  rewrite Z.mod_pow2_bits_low by lia.
  rewrite <- (Z.mul_1_l (2 ^ Z.of_nat w)), Z.add_comm, <- (Z.mod_pow2_bits_low _ (Z.of_nat w)), Z.mod_add, Z.mod_small by (lia || (apply Z.pow_nonzero; lia)).
  done.
Qed.

(** Allocated ids are exactly sentinels over a path of a width in range. *)
Lemma allocated_id block_bits block :
  is_allocated_width block_bits block = true <->
  exists w v, block = 2 ^ Z.of_nat w + v /\ 0 <= v < 2 ^ Z.of_nat w /\ (INITIAL_BLOCK_BITS <= w <= block_bits)%nat /\
    w = creation_width block.
Proof.
  unfold is_allocated_width. rewrite !andb_true_iff, Z.ltb_lt, !Nat.leb_le. split.
  - intros [[Hpos Hlo] Hhi]. pose proof (Z.log2_spec block Hpos) as Hl. rewrite Z.pow_succ_r in Hl by apply Z.log2_nonneg.
    assert (Hw : creation_width block = Z.to_nat (Z.log2 block)).
    { unfold creation_width, leading_zeros in *. destruct (Z.eqb_spec block 0); [lia|].
      destruct (decide (Z.log2 block < 0)); [pose proof (Z.log2_nonneg block); lia|]. lia. }
    exists (Z.to_nat (Z.log2 block)), (block - 2 ^ Z.log2 block). rewrite Z2Nat.id by apply Z.log2_nonneg.
    rewrite <- Hw. split; [lia|]. split; [lia|]. split; [lia|done].
  - intros (w & v & -> & Hv & Hw & E). pose proof (pow2_pos w). rewrite <- E. lia.
Qed.

Lemma testbit_high (w : nat) h r n : 0 <= r < 2 ^ Z.of_nat w -> 0 <= n ->
  Z.testbit (h * 2 ^ Z.of_nat w + r) n = if n <? Z.of_nat w then Z.testbit r n else Z.testbit h (n - Z.of_nat w).
Proof.
  intros Hr Hn. rewrite <- lor_high by done. rewrite Z.lor_spec, Z.shiftl_spec by lia.
  destruct (Z.ltb_spec n (Z.of_nat w)).
  - by rewrite Z.testbit_neg_r by lia.
  - rewrite (bits_above w r) by lia. apply orb_false_r.
Qed.

(** The bits of a path followed by more bits. *)
Lemma bits_of_app w1 w2 h r : 0 <= r < 2 ^ Z.of_nat w2 ->
  bits_of (w1 + w2) (h * 2 ^ Z.of_nat w2 + r) = bits_of w1 h ++ bits_of w2 r.
Proof.
  intros Hr. unfold bits_of. rewrite seq_app, fmap_app. f_equal.
  - apply list_fmap_ext. intros _ bit Hb%list_elem_of_lookup_2%elem_of_seq. rewrite testbit_high by lia.
    destruct (Z.ltb_spec (Z.of_nat (w1 + w2 - 1 - bit)) (Z.of_nat w2)); [lia|]. f_equal. lia.
  - rewrite (Nat.add_comm 0), <- (fmap_add_seq w1 0 w2), <- list_fmap_compose.
    apply list_fmap_ext. intros _ bit Hb%list_elem_of_lookup_2%elem_of_seq. unfold compose.
    rewrite testbit_high by lia. destruct (Z.ltb_spec (Z.of_nat (w1 + w2 - 1 - (w1 + bit))) (Z.of_nat w2)); [|lia].
    f_equal. lia.
Qed.

Lemma path_value_snoc bs b : (length bs < 64)%nat -> 0 <= path_value bs < 2 ^ Z.of_nat (length bs) ->
  path_value (bs ++ [b]) = path_value bs * 2 + Z.b2z b.
Proof.
  intros Hl Hv. unfold path_value. rewrite foldl_app. cbn [foldl]. fold (path_value bs).
  rewrite Z.shiftl_mul_pow2 by lia. change (2 ^ 1) with 2. rewrite wrap_u64_id.
  - pose proof (lor_high 1 (path_value bs) (Z.b2z b)) as E. rewrite Z.shiftl_mul_pow2 in E by lia.
    apply E. destruct b; simpl; lia.
  - unfold in_u64, u64_max. assert (2 ^ Z.of_nat (length bs) <= 2 ^ 63) by (apply Z.pow_le_mono_r; lia). lia.
Qed.

Lemma path_value_spec bs : (length bs <= 64)%nat ->
  0 <= path_value bs < 2 ^ Z.of_nat (length bs) /\ bits_of (length bs) (path_value bs) = bs.
Proof.
  induction bs as [|b bs IH] using rev_ind; [done|]. rewrite length_app. simpl. intros Hl.
  destruct IH as [Hv Hb]; [lia|]. rewrite path_value_snoc by (done || lia). rewrite Nat.add_1_r, pow2_S. split.
  - destruct b; simpl; lia.
  - rewrite <- Nat.add_1_r. rewrite (bits_of_app (length bs) 1) by (destruct b; simpl; lia). rewrite Hb. f_equal.
    unfold bits_of. simpl. by destruct b.
Qed.

Lemma bits_of_inj w v v' : 0 <= v < 2 ^ Z.of_nat w -> 0 <= v' < 2 ^ Z.of_nat w -> bits_of w v = bits_of w v' -> v = v'.
Proof.
  intros Hv Hv' E. apply Z.bits_inj'. intros n Hn. destruct (decide (n < Z.of_nat w)) as [Hlt|].
  - apply (f_equal (lookup (w - 1 - Z.to_nat n)%nat)) in E. unfold bits_of in E. rewrite !list_lookup_fmap, lookup_seq_lt in E by lia.
    simpl in E. injection E as E. replace (Z.of_nat (w - 1 - (w - 1 - Z.to_nat n))) with n in E by lia. done.
  - by rewrite !(bits_above w) by lia.
Qed.

(** ** Ownership *)

Lemma zip_agree_prefix a b : (length a <=? length b)%nat && zip_agree a b = true <-> a `prefix_of` b.
Proof.
  unfold zip_agree. revert b. induction a as [|x a IH]; intros [|y b]; cbn [length].
  - split; [intros _; by exists []|done].
  - split; [intros _; by exists (y :: b)|done].
  - split; [done|]. intros Hp. by apply prefix_nil_not in Hp.
  - change ((S (length a) <=? S (length b))%nat) with (length a <=? length b)%nat. cbn [zip zip_with forallb fst snd].
    rewrite andb_assoc, (andb_comm _ (eqb x y)), <- andb_assoc, andb_true_iff.
    change (zip_with pair a b) with (zip a b). rewrite IH, eqb_true_iff. split.
    + intros [-> Hp]. by apply prefix_cons.
    + intros Hp. split; [by eapply prefix_cons_inv_1|by eapply prefix_cons_inv_2].
Qed.

Lemma owns_prefix shard block : shard_owns_block shard block = true <-> shard `prefix_of` block_path block.
Proof. apply zip_agree_prefix. Qed.

Lemma owned_at_in shard width b : (length shard <= width < 64)%nat ->
  b ∈ owned_at shard width <->
  exists v, b = 2 ^ Z.of_nat width + v /\ 0 <= v < 2 ^ Z.of_nat width /\ shard `prefix_of` bits_of width v.
Proof.
  intros Hw. destruct (path_value_spec shard ltac:(lia)) as [Hv Hbits]. unfold owned_at.
  set (free := (width - length shard)%nat). assert (Ew : width = (length shard + free)%nat) by (unfold free; lia).
  pose proof (pow2_pos free) as Hf.
  assert (Hpow : 2 ^ Z.of_nat width = 2 ^ Z.of_nat (length shard) * 2 ^ Z.of_nat free)
    by (rewrite Ew, Nat2Z.inj_add, Z.pow_add_r by lia; done).
  assert (Helem : forall rest, 0 <= rest < 2 ^ Z.of_nat free ->
    Z.lor (Z.lor (2 ^ Z.of_nat width) (Z.shiftl (path_value shard) (Z.of_nat free))) rest =
    2 ^ Z.of_nat width + (path_value shard * 2 ^ Z.of_nat free + rest) /\
    0 <= path_value shard * 2 ^ Z.of_nat free + rest < 2 ^ Z.of_nat width).
  { intros rest Hr. assert (Hr' : 0 <= path_value shard * 2 ^ Z.of_nat free + rest < 2 ^ Z.of_nat width) by nia.
    split; [|done]. rewrite <- Z.lor_assoc, lor_high by done. by apply lor_sentinel. }
  rewrite list_elem_of_fmap. split.
  - intros (rest & -> & Hr%elem_of_seq). destruct (Helem (Z.of_nat rest) ltac:(lia)) as [-> Hb].
    eexists. split; [done|]. split; [done|]. rewrite Ew at 1. rewrite bits_of_app, Hbits by lia. by apply prefix_app_r.
  - intros (v & -> & Hvr & Hp).
    pose proof (Z.div_mod v (2 ^ Z.of_nat free) ltac:(lia)) as Hdm.
    pose proof (Z.mod_pos_bound v (2 ^ Z.of_nat free) ltac:(lia)) as Hm.
    assert (Hq : v / 2 ^ Z.of_nat free = path_value shard).
    { apply (bits_of_inj (length shard)); [|done|].
      - split; [apply Z.div_pos; lia|]. apply Z.div_lt_upper_bound; lia.
      - rewrite Hbits. rewrite Hdm, Z.mul_comm, Ew, bits_of_app in Hp by lia. destruct Hp as [k Hk].
        apply app_inj_1 in Hk as [E _]; [done|]. by rewrite length_bits_of. }
    exists (Z.to_nat (v mod 2 ^ Z.of_nat free)). rewrite Z2Nat.id by lia.
    destruct (Helem (v mod 2 ^ Z.of_nat free) Hm) as [-> _]. rewrite elem_of_seq. split; [rewrite <- Hq; lia|lia].
Qed.

Lemma owned_widths (shard : list bool) max_width w :
  w ∈ List.filter (fun width => (length shard <=? width)%nat)
        (seq INITIAL_BLOCK_BITS (S (max_width `min` MAX_BLOCK_BITS) - INITIAL_BLOCK_BITS)) <->
  (length shard <= w)%nat /\ (INITIAL_BLOCK_BITS <= w <= max_width `min` MAX_BLOCK_BITS)%nat.
Proof. rewrite list_elem_of_In, filter_In, <- list_elem_of_In, elem_of_seq, Nat.leb_le. lia. Qed.

Lemma owned_width shard width b : (length shard <= width < 64)%nat -> b ∈ owned_at shard width -> creation_width b = width.
Proof. intros Hw (v & -> & Hv & _)%owned_at_in; [|done]. by apply creation_width_sentinel; [lia|]. Qed.

Lemma owned_at_NoDup shard width : (length shard <= width < 64)%nat -> NoDup (owned_at shard width).
Proof.
  intros Hw. unfold owned_at. destruct (path_value_spec shard ltac:(lia)) as [Hv _].
  apply NoDup_fmap_2_strong; [|apply NoDup_seq]. intros x y Hx%elem_of_seq Hy%elem_of_seq E.
  rewrite <- !Z.lor_assoc, !lor_high in E by lia.
  set (free := (width - length shard)%nat) in *. pose proof (pow2_pos free).
  assert (Hpow : 2 ^ Z.of_nat width = 2 ^ Z.of_nat (length shard) * 2 ^ Z.of_nat free)
    by (rewrite <- Z.pow_add_r, <- Nat2Z.inj_add by lia; do 2 f_equal; unfold free; lia).
  rewrite !lor_sentinel in E by nia. lia.
Qed.

Lemma NoDup_concat_widths (f : nat -> list Z) (ws : list nat) (g : Z -> nat) :
  NoDup ws -> (forall w b, w ∈ ws -> b ∈ f w -> g b = w) -> (forall w, w ∈ ws -> NoDup (f w)) -> NoDup (concat (f <$> ws)).
Proof.
  induction ws as [|w ws IH]; [constructor|]. intros [Hw Hnd]%NoDup_cons Hg Hf. cbn [fmap list_fmap concat].
  apply NoDup_app. split; [apply Hf, list_elem_of_here|]. split.
  - intros b Hb Hin. apply list_elem_of_In, in_concat in Hin as (l & Hl & Hin).
    apply list_elem_of_In in Hl, Hin. apply list_elem_of_fmap in Hl as (w' & -> & Hw').
    apply Hw. rewrite <- (Hg w b), (Hg w' b); [done|by apply list_elem_of_further|done|apply list_elem_of_here|done].
  - apply IH; [done| |].
    + intros w' b Hw' Hb. apply Hg; [by apply list_elem_of_further|done].
    + intros w' Hw'. apply Hf. by apply list_elem_of_further.
Qed.

(** ** Positions *)

Lemma position_allocated block_bits block local :
  (block_bits <= MAX_BLOCK_BITS)%nat -> is_allocated_width block_bits block = true -> 0 <= local < 2 ^ Z.of_nat SUBTREE_BITS ->
  block_position block_bits block local = Ok (block * 2 ^ Z.of_nat SUBTREE_BITS + local) /\
  0 <= block * 2 ^ Z.of_nat SUBTREE_BITS + local < max_position.
Proof.
  intros Hbb Ha Hl. pose proof Ha as (w & v & Eb & Hv & Hw & _)%allocated_id.
  assert (Hb : 0 < block < 2 ^ Z.of_nat BLOCK_INDEX_BITS).
  { pose proof (pow2_pos w). assert (2 ^ Z.of_nat (S w) <= 2 ^ Z.of_nat BLOCK_INDEX_BITS).
    { apply Z.pow_le_mono_r; [lia|]. unfold BLOCK_INDEX_BITS. lia. }
    rewrite pow2_S in *. lia. }
  assert (Hr : 0 <= block * 2 ^ Z.of_nat SUBTREE_BITS + local < max_position).
  { unfold max_position. rewrite Nat2Z.inj_add, Z.pow_add_r by lia. nia. }
  split; [|done]. unfold block_position. rewrite Ha. cbn [negb].
  unfold position_of. change (64 <=? SUBTREE_BITS)%nat with false. cbn [orb].
  destruct (Z.leb_spec (2 ^ Z.of_nat SUBTREE_BITS) local); [lia|].
  assert (Hm : max_position < u64_max) by reflexivity.
  rewrite Z.shiftl_mul_pow2, wrap_u64_id by (unfold in_u64; lia).
  unfold checked_add_u64. destruct (Z.leb_spec (block * 2 ^ Z.of_nat SUBTREE_BITS + local) u64_max); [done|lia].
Qed.

Lemma locate_position block local : 0 <= local < 2 ^ Z.of_nat SUBTREE_BITS ->
  locate (block * 2 ^ Z.of_nat SUBTREE_BITS + local) = (block, local).
Proof.
  intros Hl. unfold locate, split_position. change (64 <=? SUBTREE_BITS)%nat with false. cbv iota.
  rewrite shiftr_div, Z.sub_1_r, <- Z.ones_equiv, Z.land_ones by lia. f_equal.
  - symmetry. apply Z.div_unique with local; lia.
  - rewrite Z.add_comm, Z.mod_add, Z.mod_small by lia. done.
Qed.

(** ** Blocks of addresses *)

(** The first [n] bits of an address. *)
Definition address_bits (address : bytes) (n : nat) : list bool :=
  (fun bit => Z.testbit (b2z (nth (bit / 8) address (z2b 0))) (Z.of_nat (7 - bit mod 8))) <$> seq 0 n.

Lemma length_address_bits address n : length (address_bits address n) = n.
Proof. unfold address_bits. by rewrite length_fmap, length_seq. Qed.

Lemma take_address_bits address d n : (d <= n)%nat -> take d (address_bits address n) = address_bits address d.
Proof. intros Hd. unfold address_bits. rewrite <- fmap_take, take_seq. do 2 f_equal. lia. Qed.

Lemma address_bit_ok address bit : (bit < 8 * length address)%nat ->
  address_bit address bit = Ok (Z.testbit (b2z (nth (bit / 8) address (z2b 0))) (Z.of_nat (7 - bit mod 8))).
Proof.
  intros Hb. unfold address_bit. destruct (lookup_lt_is_Some_2 address (bit / 8)) as [b Hl].
  { apply Nat.Div0.div_lt_upper_bound. lia. }
  rewrite Hl. cbn [unwrap mbind outcome_bind]. rewrite shifted_bit by lia. by rewrite (nth_lookup_Some _ _ (z2b 0) _ Hl).
Qed.

Lemma address_path_ok address n : forall b acc, (b + n <= 8 * length address)%nat ->
  address_path address (seq b n) acc =
  Ok (foldl (fun acc bit => Z.lor (wrap_u64 (Z.shiftl acc 1)) (Z.b2z bit)) acc
        ((fun bit => Z.testbit (b2z (nth (bit / 8) address (z2b 0))) (Z.of_nat (7 - bit mod 8))) <$> seq b n)).
Proof.
  induction n as [|n IH]; intros b acc Hn; [done|]. cbn [seq address_path fmap list_fmap foldl].
  rewrite address_bit_ok by lia. cbn [mbind outcome_bind]. apply IH. lia.
Qed.

Lemma block_for_address_ok width address :
  (INITIAL_BLOCK_BITS <= width <= MAX_BLOCK_BITS)%nat -> length address = 32%nat ->
  exists b, block_for_address width address = Ok b /\ block_path b = address_bits address width /\
    is_allocated_width width b = true.
Proof.
  intros Hw Hl. unfold block_for_address, INITIAL_BLOCK_BITS, MAX_BLOCK_BITS in *.
  rewrite address_path_ok by lia. fold (address_bits address width) (path_value (address_bits address width)).
  destruct (path_value_spec (address_bits address width)) as [Hv Hb]; rewrite length_address_bits in *; [lia|].
  cbn [mbind outcome_bind]. unfold block_id, INITIAL_BLOCK_BITS, MAX_BLOCK_BITS.
  destruct (Nat.ltb_spec width 6); [lia|]. destruct (Nat.ltb_spec 15 width); [lia|].
  destruct (Z.leb_spec (2 ^ Z.of_nat width) (path_value (address_bits address width))); [lia|].
  eexists. split; [done|]. rewrite lor_sentinel by done. rewrite block_path_sentinel by (done || lia). split; [done|].
  apply allocated_id. eexists width, _. split; [done|]. split; [done|]. split; [unfold INITIAL_BLOCK_BITS; lia|].
  symmetry. by apply creation_width_sentinel; [lia|].
Qed.

(** ** Theorems *)

(** The blocks a shard enumerates are exactly those it owns: [owned_blocks]
    lists, without repeats, the allocated ids up to the given width that
    [shard_owns_block] grants the shard. *)
Theorem owned_blocks_exact :
  forall (shard : list bool) (max_width : nat),
  (length shard <= 63)%nat ->
  NoDup (owned_blocks shard max_width) /\
  forall b, b ∈ owned_blocks shard max_width <->
    is_allocated_width (max_width `min` MAX_BLOCK_BITS) b = true /\ shard_owns_block shard b = true.
Proof.
  intros shard mw Hs. split.
  - apply (NoDup_concat_widths _ _ creation_width).
    + apply NoDup_ListNoDup, List.NoDup_filter, NoDup_ListNoDup, NoDup_seq.
    + intros w b (H1 & H2)%owned_widths. unfold MAX_BLOCK_BITS in *. apply owned_width. lia.
    + intros w (H1 & H2)%owned_widths. unfold MAX_BLOCK_BITS in *. apply owned_at_NoDup. lia.
  - intros b. unfold owned_blocks. rewrite owns_prefix, allocated_id.
    rewrite list_elem_of_In, in_concat. split.
    + intros (l & Hl & Hb). apply list_elem_of_In in Hl, Hb. apply list_elem_of_fmap in Hl as (w & -> & [H1 H2]%owned_widths).
      unfold MAX_BLOCK_BITS in *. apply owned_at_in in Hb as (v & -> & Hv & Hp); [|lia].
      rewrite block_path_sentinel by lia. split; [|done]. exists w, v. split; [done|]. split; [done|]. split; [lia|].
      symmetry. apply creation_width_sentinel; lia.
    + intros [(w & v & -> & Hv & Hw & _) Hp]. unfold MAX_BLOCK_BITS in *. rewrite block_path_sentinel in Hp by lia.
      pose proof (prefix_length _ _ Hp) as Hlen. rewrite length_bits_of in Hlen.
      exists (owned_at shard w). split; apply list_elem_of_In.
      * apply list_elem_of_fmap. exists w. split; [done|]. apply owned_widths. unfold MAX_BLOCK_BITS. lia.
      * apply owned_at_in; [lia|]. eauto.
Qed.

Lemma owned_blocks_exact_witness :
  NoDup (owned_blocks [true; false] 7) /\
  forall b, b ∈ owned_blocks [true; false] 7 <->
    is_allocated_width (7 `min` MAX_BLOCK_BITS) b = true /\ shard_owns_block [true; false] b = true.
Proof. apply (owned_blocks_exact [true; false] 7). simpl. lia. Defined.

(** Growth never moves a coin: a local index of an allocated block has a
    position below [2^32], [locate] recovers the block and the index from it, the
    position is the same at every wider setting, and indices past the block's
    65,536 coins or blocks past the current width are refused. *)
Theorem block_positions_stable :
  forall (block_bits wider : nat) (block local : Z),
  (block_bits <= wider <= MAX_BLOCK_BITS)%nat -> 0 <= block -> 0 <= local ->
  (is_allocated_width block_bits block = true /\ local < 2 ^ Z.of_nat SUBTREE_BITS ->
   exists p, block_position block_bits block local = Ok p /\ block_position wider block local = Ok p /\
     locate p = (block, local) /\ 0 <= p < max_position) /\
  (~ (is_allocated_width block_bits block = true /\ local < 2 ^ Z.of_nat SUBTREE_BITS) ->
   block_position block_bits block local = Err InvalidArgument).
Proof.
  intros bb wider block local Hw Hb Hl. split.
  - intros [Ha Hlt]. destruct (position_allocated bb block local ltac:(lia) Ha ltac:(lia)) as [E Hr].
    assert (Ha' : is_allocated_width wider block = true).
    { apply allocated_id in Ha as (w & v & ? & ? & ? & ?). apply allocated_id. exists w, v. repeat split; try done; lia. }
    destruct (position_allocated wider block local ltac:(lia) Ha' ltac:(lia)) as [E' _].
    eexists. split; [exact E|]. split; [exact E'|]. split; [apply locate_position; lia|done].
  - intros Hn. unfold block_position. destruct (is_allocated_width bb block); [|done]. cbn [negb].
    unfold position_of. change (64 <=? SUBTREE_BITS)%nat with false. cbn [orb].
    destruct (Z.leb_spec (2 ^ Z.of_nat SUBTREE_BITS) local); [done|]. destruct Hn. done.
Qed.

Lemma block_positions_stable_witness :
  exists p, block_position 6 69 9 = Ok p /\ block_position 12 69 9 = Ok p /\ locate p = (69, 9) /\ 0 <= p < max_position.
Proof.
  apply (block_positions_stable 6 12 69 9); [unfold MAX_BLOCK_BITS; lia|lia|lia|].
  split; [reflexivity|]. apply Z.ltb_lt. reflexivity.
Defined.

(** C29. Every block has one owner: two shards own a common block only when one's
    path extends the other's; a split hands each block of the parent to exactly
    one child, unless the block's path is the parent's own, which neither child
    owns; and the block of a coin's address at any width is allocated and owned by
    every shard, no deeper than the width, that covers the address. *)
Theorem block_ownership :
  (forall (s1 s2 : list bool) (b : Z),
     shard_owns_block s1 b = true -> shard_owns_block s2 b = true -> s1 `prefix_of` s2 \/ s2 `prefix_of` s1) /\
  (forall (s : list bool) (b : Z),
     shard_owns_block s b = true <->
     block_path b = s \/ xorb (shard_owns_block (s ++ [false]) b) (shard_owns_block (s ++ [true]) b) = true) /\
  (forall (s : list bool) (x : bool), forall b, block_path b = s -> shard_owns_block (s ++ [x]) b = false) /\
  (forall (width d : nat) (address : bytes),
     (INITIAL_BLOCK_BITS <= width <= MAX_BLOCK_BITS)%nat -> (d <= width)%nat -> length address = 32%nat ->
     exists b, block_for_address width address = Ok b /\ is_allocated_width width b = true /\
       shard_owns_block (address_bits address d) b = true).
Proof.
  assert (Hdeep : forall s x b, block_path b = s -> shard_owns_block (s ++ [x]) b = false).
  { intros s x b <-. apply not_true_iff_false. rewrite owns_prefix. intros H%prefix_length.
    rewrite length_app in H. simpl in H. lia. }
  split; [|split; [|split; [done|]]].
  - intros s1 s2 b H1%owns_prefix H2%owns_prefix. by eapply prefix_weak_total.
  - intros s b. rewrite owns_prefix. split.
    + intros [[|x k] E]; rewrite ?app_nil_r in E; [by left|]. right.
      assert (Hx : shard_owns_block (s ++ [x]) b = true).
      { apply owns_prefix. exists k. by rewrite E, <- app_assoc. }
      assert (Hnx : shard_owns_block (s ++ [negb x]) b = false).
      { apply not_true_iff_false. rewrite owns_prefix, E. intros H%prefix_app_inv%prefix_cons_inv_1. by destruct x. }
      destruct x; simpl in Hnx; by rewrite Hx, Hnx.
    + intros [<-|H]; [done|]. destruct (shard_owns_block (s ++ [false]) b) eqn:E1.
      * apply owns_prefix in E1. etransitivity; [by apply prefix_app_r|exact E1].
      * destruct (shard_owns_block (s ++ [true]) b) eqn:E2; [|done].
        apply owns_prefix in E2. etransitivity; [by apply prefix_app_r|exact E2].
  - intros width d address Hw Hd Hl. destruct (block_for_address_ok width address Hw Hl) as (b & E & Ep & Ha).
    exists b. split; [done|]. split; [done|]. apply owns_prefix. rewrite Ep, <- (take_address_bits address d width Hd).
    apply prefix_take.
Qed.

Lemma block_ownership_witness :
  exists b, block_for_address 6 (be_bytes 32 (171 * 2 ^ 248)) = Ok b /\ is_allocated_width 6 b = true /\
    shard_owns_block (address_bits (be_bytes 32 (171 * 2 ^ 248)) 3) b = true.
Proof.
  destruct block_ownership as (_ & _ & _ & H).
  apply (H 6%nat 3%nat (be_bytes 32 (171 * 2 ^ 248))); [unfold INITIAL_BLOCK_BITS, MAX_BLOCK_BITS; lia|lia|].
  apply length_be_bytes.
Defined.
