(* ===== verification/ShardReports.v ===== *)
(** * Shard reports and the application root

    [crates/quil-execution/src/token_intrinsic/shard_accumulator.rs] and the block
    summary of [roots.rs]: a shard's report of its part of the coin accumulator,
    its record, where the parts sit in the accumulator, and the application root
    folded from every shard's report. *)

From stdpp Require Import sorting.
From S2P Require Import Prelude Bytes Merkle CoinTree CoinTreeCorrect ShardedTree ShardedCorrect CoinBlocks.

Definition REPORT_VERSION : bytes := z2b <$> [81; 67; 84; 51; 65; 82; 0; 1].
Definition ATTESTING_REPORT_VERSION : bytes := z2b <$> [81; 67; 84; 51; 65; 82; 0; 2].
Definition ATTESTATION_BYTES : nat := 8 + 8 + 8.
Definition MAX_LAYERS : nat := MAX_BLOCK_BITS - INITIAL_BLOCK_BITS + 1.
Definition MAX_NONEMPTY_BLOCKS : nat := 1024.

(** [windows(2).any(|pair| key(pair[0]) >= key(pair[1]))] *)
Fixpoint not_ascending {A} (key : A -> Z) (l : list A) : bool :=
  match l with
  | x :: ((y :: _) as r) => (key y <=? key x) || not_ascending key r
  | _ => false
  end.

(** [chunks_exact(n)] on [k] chunks. *)
Definition chunks (k n : nat) (l : bytes) : list bytes := (fun i => take n (drop (i * n) l)) <$> seq 0 k.

(** A [map] that stops at the first error. *)
Fixpoint try_map {A B} (f : A -> outcome B) (l : list A) : outcome (list B) :=
  match l with
  | [] => Ok []
  | x :: r => y ← f x; ys ← try_map f r; Ok (y :: ys)
  end.

Record BlockAttestation : Type := mkAttestation { a_block : Z; a_coins : Z; a_escrows : Z }.

Section reports.
Context {Membership : MembershipKey}.

Definition LAYER_BYTES : nat := 1 + 8 + NODE_BYTES.
Definition MAX_REPORT_BYTES : nat := 8 + 32 + 1 + MAX_LAYERS * LAYER_BYTES + 1 + MAX_LAYERS * ATTESTATION_BYTES.

Record SubtreeReport : Type := mkSubtree { width : nat; coins : Z; root : MNode }.
Record ShardReport : Type := mkReport {
  rp_context : bytes;
  subtrees : list SubtreeReport;
  attestations : list BlockAttestation;
}.

(** [ShardReport::validate] *)
Definition report_validate (r : ShardReport) : outcome unit :=
  if (match subtrees r, attestations r with [], [] => true | _, _ => false end) || (MAX_LAYERS <? length (subtrees r))%nat
  then Err InvalidArgument
  else if (MAX_LAYERS <? length (attestations r))%nat || not_ascending a_block (attestations r)
          || existsb (fun a => negb (is_allocated_width MAX_BLOCK_BITS (a_block a))) (attestations r)
  then Err InvalidArgument
  else if not_ascending (fun s => Z.of_nat (width s)) (subtrees r) then Err InvalidArgument
  else if existsb (fun s => (coins s =? 0) || negb ((INITIAL_BLOCK_BITS <=? width s)%nat && (width s <=? MAX_BLOCK_BITS)%nat))
            (subtrees r)
  then Err InvalidArgument else Ok tt.

Definition put_subtree (s : SubtreeReport) : bytes := z2b (Z.of_nat (width s)) :: be_bytes 8 (coins s) ++ to_bytes (root s).
Definition put_attestation (a : BlockAttestation) : bytes :=
  be_bytes 8 (a_block a) ++ be_bytes 8 (a_coins a) ++ be_bytes 8 (a_escrows a).

(** [ShardReport::encode] *)
Definition report_encode (r : ShardReport) : outcome bytes :=
  _ ← report_validate r;
  Ok ((match attestations r with [] => REPORT_VERSION | _ => ATTESTING_REPORT_VERSION end) ++ rp_context r ++
      [z2b (Z.of_nat (length (subtrees r)))] ++ concat (put_subtree <$> subtrees r) ++
      match attestations r with
      | [] => []
      | l => z2b (Z.of_nat (length l)) :: concat (put_attestation <$> l)
      end).

Definition get_attestation (entry : bytes) : BlockAttestation :=
  mkAttestation (be_Z (slice 0 8 entry)) (be_Z (slice 8 8 entry)) (be_Z (drop 16 entry)).
Definition get_subtree (layer : bytes) : outcome SubtreeReport :=
  match from_bytes (drop 9 layer) with
  | None => Err InvalidArgument
  | Some n => Ok (mkSubtree (Z.to_nat (b2z (nth 0 layer (z2b 0)))) (be_Z (slice 1 8 layer)) n)
  end.

(** The attestations of [ShardReport::decode]. *)
Definition decode_attestations (bs : bytes) (attesting : bool) (layers_end : nat) : outcome (list BlockAttestation) :=
  if attesting then
    match bs !! layers_end with
    | None => Err InvalidArgument
    | Some b =>
        let count := Z.to_nat (b2z b) in
        if (count =? 0)%nat || negb (length bs =? layers_end + 1 + count * ATTESTATION_BYTES)%nat then Err InvalidArgument
        else Ok (get_attestation <$> chunks count ATTESTATION_BYTES (drop (layers_end + 1) bs))
    end
  else if negb (length bs =? layers_end)%nat then Err InvalidArgument else Ok [].

(** [ShardReport::decode] *)
Definition report_decode (bs : bytes) : outcome ShardReport :=
  let attesting := bool_decide (take 8 bs = ATTESTING_REPORT_VERSION) in
  if (length bs <? 8 + 32 + 1)%nat || (MAX_REPORT_BYTES <? length bs)%nat
     || (negb (bool_decide (take 8 bs = REPORT_VERSION)) && negb attesting)
  then Err InvalidArgument
  else
    let layers := Z.to_nat (b2z (nth 40 bs (z2b 0))) in
    let layers_end := (41 + layers * LAYER_BYTES)%nat in
    atts ← decode_attestations bs attesting layers_end;
    subs ← try_map get_subtree (chunks layers LAYER_BYTES (drop 41 bs));
    let r := mkReport (slice 8 32 bs) subs atts in
    _ ← report_validate r; Ok r.

(** ** Positions of reports *)

(** [subtree_position] *)
Definition subtree_position (width : nat) (shard : list bool) : outcome (nat * Z) :=
  if negb ((INITIAL_BLOCK_BITS <=? width)%nat && (width <=? MAX_BLOCK_BITS)%nat) then Err InvalidArgument
  else if (width <? length shard)%nat then Err InvalidArgument
  else Ok ((SUBTREE_BITS + width - length shard)%nat,
           Z.lor (2 ^ Z.of_nat (length shard)) (path_value shard)).

(** ** Block summaries *)

Local Abbreviation entry := (Z * Z * MNode)%type.
Definition e_block (e : entry) : Z := e.1.1.
Definition e_coins (e : entry) : Z := e.1.2.
Definition e_root (e : entry) : MNode := e.2.

(** [BlockSummary::put] on the sorted list of entries. *)
Fixpoint insert_entry (e : entry) (l : list entry) : list entry :=
  match l with
  | [] => [e]
  | x :: r => if e_block e =? e_block x then e :: r
              else if e_block e <? e_block x then e :: l else x :: insert_entry e r
  end.
Definition summary_put (summary : list entry) (e : entry) : outcome (list entry) :=
  if bool_decide (search e_block (e_block e) summary = None) && (MAX_NONEMPTY_BLOCKS <=? length summary)%nat
  then Err InvalidArgument else Ok (insert_entry e summary).

(** [BlockSummary::count], [root_of] and [roots] *)
Definition summary_count (summary : list entry) (b : Z) : Z := default 0 (e_coins <$> search e_block b summary).
Definition summary_root_of (summary : list entry) (b : Z) : option MNode := e_root <$> search e_block b summary.
Definition summary_roots (summary : list entry) : list (Z * MNode) := (fun e => (e_block e, e_root e)) <$> summary.

(** ** A shard's report from its summary *)

(** [blocks.iter().try_fold(..)] *)
Fixpoint sum_coins (total : Z) (l : list entry) : outcome Z :=
  match l with
  | [] => Ok total
  | e :: r => match checked_add_u64 total (e_coins e) with
              | Some t => sum_coins t r
              | None => Err InvalidArgument
              end
  end.

(** The entries of one layer, in order: [layers.entry(creation_width(block))]. *)
Definition layer_of_width (shard : list bool) (summary : list entry) (w : nat) : list entry :=
  List.filter (fun e => (0 <? e_coins e) && shard_owns_block shard (e_block e) && (creation_width (e_block e) =? w)%nat) summary.

(** The loop body of [report_from_summary] for one width. *)
Definition report_layer (context : bytes) (shard : list bool) (w : nat) (bs : list entry) : outcome SubtreeReport :=
  p ← subtree_position w shard;
  let first_block := Z.shiftl p.2 (Z.of_nat (p.1 - SUBTREE_BITS)) in
  nodes ← try_map (fun e => i ← ck_u64 (e_block e - first_block); Ok (mkPlaced SUBTREE_BITS i (e_root e))) bs;
  root ← (if (p.1 =? SUBTREE_BITS)%nat then
            match nodes with
            | [nd] => if p_index nd =? 0 then Ok (p_node nd) else Err InvalidArgument
            | _ => Err InvalidArgument
            end
          else match fold_sparse context p.1 nodes with inr n => Ok n | inl _ => Err InvalidArgument end);
  coins ← sum_coins 0 bs;
  Ok (mkSubtree w coins root).

(** The widths of non-empty layers, ascending; a creation width is below 64. *)
Definition layer_widths (shard : list bool) (summary : list entry) : list nat :=
  List.filter (fun w => negb (length (layer_of_width shard summary w) =? 0)%nat) (seq 0 64).

(** [report_from_summary] *)
Definition report_from_summary (context : bytes) (shard : list bool) (summary : list entry) (atts : list BlockAttestation)
  : outcome (option ShardReport) :=
  subs ← try_map (fun w => report_layer context shard w (layer_of_width shard summary w)) (layer_widths shard summary);
  match subs, atts with
  | [], [] => Ok None
  | _, _ => Ok (Some (mkReport context subs atts))
  end.

(** [fold_application_root] *)
Definition fold_application_root (context : bytes) (subs : list (nat * list bool * MNode)) : outcome MNode :=
  nodes ← try_map (fun s => p ← subtree_position s.1.1 s.1.2; Ok (mkPlaced p.1 p.2 s.2)) subs;
  match fold_sparse context DEPTH nodes with
  | inr n => Ok n
  | inl _ => Err InvalidArgument
  end.
End reports.
