(* ===== verification/ReportsCorrect.v ===== *)
(** * Shard reports: their records and the root they fold to

    A report survives its record, and the reports of any partition of an
    application into shards fold to the root of the one tree over all its coins:
    the property that commits across shards rest on. *)

From stdpp Require Import sorting.
From S2P Require Import Prelude Bytes Merkle CoinTree CoinTreeCorrect ShardedTree ShardedCorrect CoinBlocks ShardReports.

(** ** Lists *)

Lemma try_map_ok {A B} (f : A -> outcome B) (g : A -> B) (l : list A) :
  (forall x, x ∈ l -> f x = Ok (g x)) -> try_map f l = Ok (g <$> l).
Proof.
  induction l as [|x l IH]; intros H; [done|]. cbn [try_map]. rewrite H by apply list_elem_of_here.
  cbn [mbind outcome_bind]. rewrite IH; [done|]. intros y Hy. apply H. by apply list_elem_of_further.
Qed.

Lemma try_map_inv {A B} (f : A -> outcome B) (l : list A) ys :
  try_map f l = Ok ys -> Forall2 (fun x y => f x = Ok y) l ys.
Proof.
  revert ys. induction l as [|x l IH]; intros ys; cbn [try_map]; [intros [= <-]; constructor|].
  destruct (f x) as [y| |] eqn:E; [|done..]. cbn [mbind outcome_bind]. destruct (try_map f l) as [zs| |]; [|done..].
  intros [= <-]. constructor; [done|]. by apply IH.
Qed.

(** Distinct elements related both ways make an ordered list of related pairs. *)
Lemma NoDup_ordered_pairs {A} (R : A -> A -> Prop) (l : list A) :
  NoDup l -> (forall x y, x ∈ l -> y ∈ l -> x <> y -> R x y) -> ForallOrdPairs R l.
Proof.
  induction 1 as [|x l Hx Hnd IH]; intros HR; [constructor|]. constructor.
  - apply List.Forall_forall. intros y Hy%list_elem_of_In. apply HR; [apply list_elem_of_here|by apply list_elem_of_further|].
    by intros ->.
  - apply IH. intros a b Ha Hb. apply HR; by apply list_elem_of_further.
Qed.

Lemma ordered_pairs_fmap {A B} (R : B -> B -> Prop) (f : A -> B) (l : list A) :
  ForallOrdPairs (fun x y => R (f x) (f y)) l -> ForallOrdPairs R (f <$> l).
Proof.
  induction 1 as [|x l Hx _ IH]; [constructor|]. cbn [fmap list_fmap]. constructor; [|done].
  rewrite List.Forall_forall in Hx. apply List.Forall_forall. intros y Hy%list_elem_of_In.
  apply list_elem_of_fmap in Hy as (z & -> & Hz%list_elem_of_In). by apply Hx.
Qed.

Lemma elem_of_filter_b {A} (p : A -> bool) (l : list A) x : x ∈ List.filter p l <-> x ∈ l /\ p x = true.
Proof. rewrite !list_elem_of_In. apply filter_In. Qed.

(** ** Chunks of a record *)

Lemma chunks_concat {A} (put : A -> bytes) (n : nat) (l : list A) (rest : bytes) :
  (forall x, x ∈ l -> length (put x) = n) ->
  chunks (length l) n (concat (put <$> l) ++ rest) = put <$> l.
Proof.
  unfold chunks. induction l as [|x l IH]; intros H; [done|].
  assert (Hx : length (put x) = n) by (apply H, list_elem_of_here).
  cbn [length seq fmap list_fmap concat]. f_equal.
  - by rewrite <- app_assoc, drop_0, take_app_length'.
  - etrans; [|apply IH; intros y Hy; apply H; by apply list_elem_of_further].
    rewrite <- fmap_S_seq, <- list_fmap_compose. apply list_fmap_ext. intros _ i _. unfold compose.
    rewrite <- app_assoc. replace (S i * n)%nat with (n + i * n)%nat by lia.
    rewrite <- drop_drop, (drop_app_length' (put x)) by done. done.
Qed.

Lemma length_concat_put {A} (put : A -> bytes) (n : nat) (l : list A) :
  (forall x, x ∈ l -> length (put x) = n) -> length (concat (put <$> l)) = (length l * n)%nat.
Proof.
  induction l as [|x l IH]; intros H; [done|]. cbn [fmap list_fmap concat length].
  rewrite length_app, IH, H by (apply list_elem_of_here || (intros y Hy; apply H; by apply list_elem_of_further)). done.
Qed.

Section record.
Context {Membership : MembershipKey} {Lawful : LawfulNodes}.

Lemma length_put_subtree s : length (put_subtree s) = LAYER_BYTES.
Proof. unfold put_subtree, LAYER_BYTES. cbn [length]. rewrite length_app, length_be_bytes, to_bytes_length. done. Qed.

Lemma length_put_attestation a : length (put_attestation a) = ATTESTATION_BYTES.
Proof. unfold put_attestation. by rewrite !length_app, !length_be_bytes. Qed.

(** Fields that fit their encodings. *)
Definition subtree_fits (s : SubtreeReport) : Prop := in_u64 (coins s).
Definition attestation_fits (a : BlockAttestation) : Prop := in_u64 (a_block a) /\ in_u64 (a_coins a) /\ in_u64 (a_escrows a).

Lemma be_u64 z : in_u64 z -> be_Z (be_bytes 8 z) = z.
Proof. intros H. apply be_Z_be_bytes_small. unfold in_u64, u64_max in H. simpl. lia. Qed.

Lemma get_put_attestation a : attestation_fits a -> get_attestation (put_attestation a) = a.
Proof.
  intros (H1 & H2 & H3). unfold get_attestation, put_attestation, slice.
  rewrite drop_0, take_app_length' by (by rewrite length_be_bytes).
  rewrite (drop_app_length' (be_bytes 8 (a_block a))), take_app_length' by (by rewrite length_be_bytes).
  rewrite app_assoc, drop_app_length' by (by rewrite length_app, !length_be_bytes).
  rewrite !be_u64 by done. by destruct a.
Qed.

Lemma get_put_subtree s : subtree_fits s -> (width s <= MAX_BLOCK_BITS)%nat -> get_subtree (put_subtree s) = Ok s.
Proof.
  intros H Hw. unfold get_subtree, put_subtree, slice. cbn [nth].
  rewrite !skipn_cons, drop_0, take_app_length', drop_app_length' by (by rewrite length_be_bytes).
  rewrite from_to_bytes, be_u64 by done.
  rewrite b2z_z2b, Z.mod_small, Nat2Z.id by (unfold MAX_BLOCK_BITS in *; lia). by destruct s.
Qed.

Lemma validate_inv r : report_validate r = Ok tt ->
  (subtrees r <> [] \/ attestations r <> []) /\ (length (subtrees r) <= MAX_LAYERS)%nat /\
  (length (attestations r) <= MAX_LAYERS)%nat /\
  forall s, s ∈ subtrees r -> coins s <> 0 /\ (INITIAL_BLOCK_BITS <= width s <= MAX_BLOCK_BITS)%nat.
Proof.
  unfold report_validate.
  destruct (match subtrees r, attestations r with [], [] => true | _, _ => false end) eqn:E1; [done|].
  destruct (Nat.ltb_spec MAX_LAYERS (length (subtrees r))); [done|].
  destruct (Nat.ltb_spec MAX_LAYERS (length (attestations r))); [done|]. cbn [orb].
  destruct (not_ascending a_block _ || _); [done|]. destruct (not_ascending _ (subtrees r)); [done|].
  destruct (existsb _ (subtrees r)) eqn:E; [done|]. intros _.
  split; [destruct (subtrees r), (attestations r); first [done|by left|by right]|]. split; [done|]. split; [done|].
  intros s Hs. apply not_true_iff_false in E.
  assert (Hf : (coins s =? 0) || negb ((INITIAL_BLOCK_BITS <=? width s)%nat && (width s <=? MAX_BLOCK_BITS)%nat) = false).
  { apply not_true_iff_false. intros Ht. apply E, existsb_exists. exists s. by rewrite <- list_elem_of_In. }
  apply orb_false_iff in Hf as [Hc Hw]. apply Z.eqb_neq in Hc. apply negb_false_iff, andb_true_iff in Hw.
  rewrite !Nat.leb_le in Hw. done.
Qed.

Lemma validate_ok ctx subs :
  subs <> [] -> (length subs <= MAX_LAYERS)%nat -> not_ascending (fun s => Z.of_nat (width s)) subs = false ->
  (forall s, s ∈ subs -> coins s <> 0 /\ (INITIAL_BLOCK_BITS <= width s <= MAX_BLOCK_BITS)%nat) ->
  report_validate (mkReport ctx subs []) = Ok tt.
Proof.
  intros Hne Hlen Hasc Hs. unfold report_validate. cbn [subtrees attestations]. rewrite Hasc.
  destruct subs as [|s0 rest]; [done|]. cbv iota. generalize dependent (s0 :: rest). intros subs _ Hlen _ Hs.
  destruct (Nat.ltb_spec MAX_LAYERS (length subs)); [lia|]. cbn [orb].
  match goal with |- context [existsb ?f subs] => destruct (existsb f subs) eqn:Hb; [exfalso|done] end.
  apply existsb_exists in Hb as (s & Hin%list_elem_of_In & Hb). destruct (Hs s Hin) as [Hc [Hlo Hhi]].
  apply Z.eqb_neq in Hc. apply Nat.leb_le in Hlo, Hhi. by rewrite Hc, Hlo, Hhi in Hb.
Qed.

(** The record of a report, in parts. *)
Definition tail_bytes (atts : list BlockAttestation) : bytes :=
  match atts with
  | [] => []
  | l => z2b (Z.of_nat (length l)) :: concat (put_attestation <$> l)
  end.
Definition version_of (atts : list BlockAttestation) : bytes :=
  match atts with [] => REPORT_VERSION | _ => ATTESTING_REPORT_VERSION end.

Lemma count_byte n : (n <= MAX_LAYERS)%nat -> Z.to_nat (b2z (z2b (Z.of_nat n))) = n.
Proof.
  intros H. unfold MAX_LAYERS, MAX_BLOCK_BITS, INITIAL_BLOCK_BITS in H. simpl in H.
  rewrite b2z_z2b, Z.mod_small by lia. apply Nat2Z.id.
Qed.

Lemma length_tail atts :
  length (tail_bytes atts) = match atts with [] => 0%nat | l => S (length l * ATTESTATION_BYTES) end.
Proof.
  destruct atts as [|a l]; [done|]. unfold tail_bytes. cbn [length].
  rewrite (length_concat_put _ ATTESTATION_BYTES) by (intros; apply length_put_attestation). done.
Qed.

Lemma decode_attestations_spec head atts :
  (length atts <= MAX_LAYERS)%nat -> Forall attestation_fits atts ->
  decode_attestations (head ++ tail_bytes atts) (match atts with [] => false | _ => true end) (length head) = Ok atts.
Proof.
  intros Hl Hf. unfold decode_attestations. rewrite length_app, length_tail.
  destruct atts as [|a l]; [by rewrite Nat.add_0_r, Nat.eqb_refl|]. set (atts := a :: l) in *. cbv iota.
  unfold tail_bytes, atts. cbv iota. fold atts.
  rewrite lookup_app_r, Nat.sub_diag by lia. change ((?b :: ?r) !! 0%nat) with (Some b). cbv iota beta zeta.
  rewrite count_byte by done. change (length atts =? 0)%nat with false. cbn [orb].
  rewrite Nat.add_succ_r, Nat.add_1_r, Nat.eqb_refl. cbn [negb]. f_equal.
  rewrite <- Nat.add_1_r, <- drop_drop, drop_app_length. rewrite skipn_cons, drop_0.
  rewrite <- (app_nil_r (concat _)), chunks_concat by (intros; apply length_put_attestation).
  rewrite <- list_fmap_compose. rewrite Forall_forall in Hf.
  rewrite <- (list_fmap_id atts) at 2. apply list_fmap_ext. intros ? x Hx%list_elem_of_lookup_2. by apply get_put_attestation, Hf.
Qed.

Lemma encode_form r : report_validate r = Ok tt ->
  report_encode r = Ok ((version_of (attestations r) ++ rp_context r ++ [z2b (Z.of_nat (length (subtrees r)))] ++
                         concat (put_subtree <$> subtrees r)) ++ tail_bytes (attestations r)).
Proof.
  intros Hv. unfold report_encode. rewrite Hv. cbn [mbind outcome_bind]. f_equal. rewrite <- !app_assoc.
  unfold version_of, tail_bytes. by destruct (attestations r).
Qed.

Lemma decode_encode r bs :
  length (rp_context r) = 32%nat -> Forall subtree_fits (subtrees r) -> Forall attestation_fits (attestations r) ->
  report_encode r = Ok bs -> report_decode bs = Ok r.
Proof.
  intros Hctx Hs Ha E. destruct (report_validate r) as [[]| |] eqn:Hv; [|unfold report_encode in E; by rewrite Hv in E..].
  rewrite encode_form in E by done. pose proof (validate_inv r Hv) as (Hne & Hls & Hla & Hw).
  set (ver := version_of (attestations r)). set (layers := concat (put_subtree <$> subtrees r)).
  assert (Hlay : length layers = (length (subtrees r) * LAYER_BYTES)%nat)
    by (apply length_concat_put; intros; apply length_put_subtree).
  assert (Hver : length ver = 8%nat) by (unfold ver, version_of; by destruct (attestations r)).
  set (head := ver ++ rp_context r ++ [z2b (Z.of_nat (length (subtrees r)))] ++ layers).
  assert (Hhead : length head = (41 + length (subtrees r) * LAYER_BYTES)%nat)
    by (unfold head; rewrite !length_app, Hver, Hctx, Hlay; simpl; lia).
  fold ver layers head in E. assert (bs = head ++ tail_bytes (attestations r)) as -> by congruence. clear E.
  assert (Hatt : bool_decide (ver = ATTESTING_REPORT_VERSION) = match attestations r with [] => false | _ => true end)
    by (unfold ver, version_of; by destruct (attestations r)).
  assert (Hrep : negb (bool_decide (ver = REPORT_VERSION)) && negb (bool_decide (ver = ATTESTING_REPORT_VERSION)) = false)
    by (unfold ver, version_of; by destruct (attestations r)).
  clearbody ver.
  assert (Htake : take 8 (head ++ tail_bytes (attestations r)) = ver)
    by (unfold head; rewrite <- app_assoc, take_app_length'; done).
  assert (Hslice : slice 8 32 (head ++ tail_bytes (attestations r)) = rp_context r)
    by (unfold head; rewrite <- !app_assoc; by apply slice_app).
  assert (Hnth : nth 40 (head ++ tail_bytes (attestations r)) (z2b 0) = z2b (Z.of_nat (length (subtrees r)))).
  { unfold head. rewrite <- !app_assoc, app_nth2, Hver, app_nth2, Hctx by lia. done. }
  assert (Hdrop : drop 41 (head ++ tail_bytes (attestations r)) = layers ++ tail_bytes (attestations r)).
  { unfold head. rewrite (app_assoc ver), (app_assoc (ver ++ _)), <- app_assoc. apply drop_app_length'.
    rewrite !length_app, Hver, Hctx. done. }
  unfold report_decode. rewrite Htake, Hslice, Hnth, Hdrop, count_byte by done.
  rewrite Hrep, Hatt, orb_false_r. pose proof (length_tail (attestations r)) as Htl.
  assert (Hlen : (41 <= length (head ++ tail_bytes (attestations r)) <= MAX_REPORT_BYTES)%nat).
  { rewrite length_app, Hhead, Htl. unfold MAX_REPORT_BYTES. split; [lia|].
    assert ((length (subtrees r) * LAYER_BYTES <= MAX_LAYERS * LAYER_BYTES)%nat) by (by apply Nat.mul_le_mono_r).
    assert ((length (attestations r) * ATTESTATION_BYTES <= MAX_LAYERS * ATTESTATION_BYTES)%nat) by (by apply Nat.mul_le_mono_r).
    destruct (attestations r); lia. }
  destruct (Nat.ltb_spec (length (head ++ tail_bytes (attestations r))) (8 + 32 + 1)); [lia|].
  destruct (Nat.ltb_spec MAX_REPORT_BYTES (length (head ++ tail_bytes (attestations r)))); [lia|]. cbn [orb]. cbv zeta.
  rewrite <- Hhead, decode_attestations_spec by done. cbn [mbind outcome_bind].
  unfold layers. rewrite chunks_concat by (intros; apply length_put_subtree).
  assert (Hget : try_map get_subtree (put_subtree <$> subtrees r) = Ok (subtrees r)).
  { rewrite Forall_forall in Hs. clear -Hs Hw Lawful. revert Hs Hw. generalize (subtrees r) as l. induction l as [|s l IH]; intros Hs Hw; [done|].
    cbn [fmap list_fmap try_map]. rewrite get_put_subtree by (apply Hs || apply Hw; apply list_elem_of_here).
    cbn [mbind outcome_bind]. rewrite IH; [done|..]; intros x Hx; [apply Hs|apply Hw]; by apply list_elem_of_further. }
  rewrite Hget. cbn [mbind outcome_bind]. destruct r as [c sub att]. cbn [rp_context subtrees attestations] in *.
  by rewrite Hv.
Qed.
End record.

(** ** Ownership as an aligned range of ids *)

(** The index of a shard's part: a sentinel over its path. *)
Definition part_index (shard : list bool) : Z := 2 ^ Z.of_nat (length shard) + path_value shard.

Lemma part_index_range shard : (length shard <= 64)%nat ->
  2 ^ Z.of_nat (length shard) <= part_index shard < 2 * 2 ^ Z.of_nat (length shard).
Proof. intros H. destruct (path_value_spec shard H). unfold part_index. lia. Qed.

Lemma part_index_inj a b : length a = length b -> (length a <= 64)%nat -> part_index a = part_index b -> a = b.
Proof.
  intros Hl Ha E. destruct (path_value_spec a Ha) as [_ <-]. destruct (path_value_spec b ltac:(lia)) as [_ <-].
  unfold part_index in E. rewrite Hl in *. f_equal. lia.
Qed.

Lemma prefix_quotient shard (w : nat) v : (length shard <= w <= 64)%nat -> 0 <= v < 2 ^ Z.of_nat w ->
  shard `prefix_of` bits_of w v <-> v / 2 ^ Z.of_nat (w - length shard) = path_value shard.
Proof.
  intros Hw Hv. destruct (path_value_spec shard ltac:(lia)) as [Hp Hbits].
  set (free := (w - length shard)%nat). assert (Ew : w = (length shard + free)%nat) by (unfold free; lia).
  pose proof (pow2_pos free) as Hf. rewrite Ew in Hv |- * at 1. rewrite Nat2Z.inj_add, Z.pow_add_r in Hv by lia.
  pose proof (Z.div_mod v (2 ^ Z.of_nat free) ltac:(lia)) as Hdm.
  pose proof (Z.mod_pos_bound v (2 ^ Z.of_nat free) ltac:(lia)) as Hm.
  assert (E : bits_of (length shard + free) v = bits_of (length shard) (v / 2 ^ Z.of_nat free) ++ bits_of free (v mod 2 ^ Z.of_nat free)).
  { rewrite Hdm at 1. rewrite Z.mul_comm. by apply bits_of_app. }
  rewrite E. split.
  - intros [k Hk]. apply app_inj_1 in Hk as [Hk _]; [|by rewrite length_bits_of].
    apply (bits_of_inj (length shard)); [|done|by rewrite Hbits].
    split; [apply Z.div_pos; lia|]. apply Z.div_lt_upper_bound; lia.
  - intros ->. rewrite Hbits. by apply prefix_app_r.
Qed.

(** A shard owns an allocated block when the block's id extends the shard's
    index. *)
Lemma owns_shift shard (w : nat) v : (w < 64)%nat -> 0 <= v < 2 ^ Z.of_nat w ->
  shard_owns_block shard (2 ^ Z.of_nat w + v) = true <->
  (length shard <= w)%nat /\ Z.shiftr (2 ^ Z.of_nat w + v) (Z.of_nat (w - length shard)) = part_index shard.
Proof.
  intros Hw Hv. rewrite owns_prefix, block_path_sentinel by done.
  assert (Hdiv : (length shard <= w)%nat ->
    (2 ^ Z.of_nat w + v) / 2 ^ Z.of_nat (w - length shard) = 2 ^ Z.of_nat (length shard) + v / 2 ^ Z.of_nat (w - length shard)).
  { intros Hl. pose proof (pow2_pos (w - length shard)). rewrite <- Z.div_add_l by lia. f_equal. f_equal.
    rewrite <- Z.pow_add_r by lia. f_equal. lia. }
  split.
  - intros Hp. pose proof (prefix_length _ _ Hp) as Hl. rewrite length_bits_of in Hl. split; [done|].
    apply prefix_quotient in Hp; [|lia|done]. rewrite shiftr_div, Hdiv by done. unfold part_index. lia.
  - intros [Hl E]. apply prefix_quotient; [lia|done|]. rewrite shiftr_div, Hdiv in E by done. unfold part_index in E. lia.
Qed.

(** The ids over an index of depth [d] at [w - d] levels are those of width [w]. *)
Lemma extension_width (d w : nat) b i :
  (d <= w)%nat -> Z.shiftr b (Z.of_nat (w - d)) = i -> 2 ^ Z.of_nat d <= i < 2 * 2 ^ Z.of_nat d ->
  2 ^ Z.of_nat w <= b < 2 * 2 ^ Z.of_nat w.
Proof.
  intros Hd E Hi. rewrite shiftr_div in E. pose proof (pow2_pos (w - d)).
  assert (Ew : 2 ^ Z.of_nat w = 2 ^ Z.of_nat d * 2 ^ Z.of_nat (w - d)) by (rewrite <- Z.pow_add_r by lia; f_equal; lia).
  pose proof (Z.div_mod b (2 ^ Z.of_nat (w - d)) ltac:(lia)).
  pose proof (Z.mod_pos_bound b (2 ^ Z.of_nat (w - d)) ltac:(lia)). nia.
Qed.

Lemma subtree_position_ok (w : nat) shard :
  (INITIAL_BLOCK_BITS <= w <= MAX_BLOCK_BITS)%nat -> (length shard <= w)%nat ->
  subtree_position w shard = Ok ((SUBTREE_BITS + w - length shard)%nat, part_index shard).
Proof.
  intros Hw Hl. unfold subtree_position. destruct (Nat.leb_spec INITIAL_BLOCK_BITS w), (Nat.leb_spec w MAX_BLOCK_BITS); try lia.
  cbn [andb negb]. destruct (Nat.ltb_spec w (length shard)); [lia|]. unfold MAX_BLOCK_BITS in *.
  destruct (path_value_spec shard ltac:(lia)) as [Hp _]. by rewrite lor_sentinel.
Qed.

Section application.
Context {Membership : MembershipKey}.
Variables (context : bytes) (coins : list CoinRecord) (summary : list (Z * Z * MNode)).
Local Abbreviation key := (derive context).
Local Abbreviation fn := (coin_fn context coins).
Local Abbreviation block_level := (Z.of_nat SUBTREE_BITS).

(** The coins of a block. *)
Definition block_coins (b : Z) : list CoinRecord := List.filter (under_coin SUBTREE_BITS b) coins.

(** An entry of a summary is the count and root of the block's frontier: the
    block's coins sit at its local indices 0, 1, 2, ... and were appended in that
    order. *)
Record block_entry (e : Z * Z * MNode) : Prop := {
  be_allocated : is_allocated_width MAX_BLOCK_BITS (e_block e) = true;
  be_dense : coin_position <$> block_coins (e_block e) ≡ₚ
    (fun i : nat => e_block e * 2 ^ block_level + Z.of_nat i) <$> seq 0 (length (block_coins (e_block e)));
  be_some : block_coins (e_block e) <> [];
  be_frontier : exists fr es rr,
    (f0 ← new_frontier context SUBTREE_BITS; append_all f0 [] (sort_by coin_position (block_coins (e_block e)))) = inr (fr, es) /\
    f_root_at_depth fr SUBTREE_BITS = inr rr /\ e_coins e = f_count fr /\ e_root e = r_root rr;
}.

(** A summary of an application: one entry for every block with coins. *)
Record summarises : Prop := {
  su_shardable : shardable (mkShape BLOCK_INDEX_BITS SUBTREE_BITS) coins;
  su_distinct : NoDup (e_block <$> summary);
  su_entry : Forall block_entry summary;
  su_cover : forall c, c ∈ coins -> (locate (coin_position c)).1 ∈ e_block <$> summary;
}.
Hypothesis Hsum : summarises.

Lemma locate_block p : (locate p).1 = Z.shiftr p block_level.
Proof. done. Qed.

Lemma sorted_positions cs base :
  coin_position <$> cs ≡ₚ (fun i : nat => base + Z.of_nat i) <$> seq 0 (length cs) ->
  coin_position <$> sort_by coin_position cs = (fun i : nat => base + Z.of_nat i) <$> seq 0 (length cs).
Proof.
  intros Hp. apply (Sorted_unique Z.le).
  - apply sort_by_sorted.
  - clear Hp. generalize 0%nat, (length cs). intros b n. revert b. induction n as [|n IH]; intros b; [constructor|].
    cbn [seq fmap list_fmap]. constructor; [apply IH|]. destruct n; [constructor|]. cbn [seq fmap list_fmap]. constructor. lia.
  - rewrite sort_by_perm. done.
Qed.

Lemma block_coin_in b c : c ∈ block_coins b <-> c ∈ coins /\ Z.shiftr (coin_position c) block_level = b.
Proof. unfold block_coins. rewrite elem_of_filter_b. unfold under_coin. by rewrite Z.eqb_eq. Qed.

(** A block's frontier is its part of the tree. *)
Lemma block_leaf e x : block_entry e -> 0 <= x < 2 ^ block_level ->
  leaf_fn (coin_leaves context (block_coins (e_block e))) x = fn (e_block e * 2 ^ block_level + x).
Proof.
  intros [_ Hd _ _] Hx. pose proof (sorted_positions _ _ Hd) as Hs. set (cs := block_coins (e_block e)) in *.
  destruct (decide (x < Z.of_nat (length cs))) as [Hlt|Hge].
  - unfold leaf_fn. destruct (Z.ltb_spec x 0); [lia|]. unfold coin_leaves.
    destruct (lookup_lt_is_Some_2 (sort_by coin_position cs) (Z.to_nat x)) as [c Hc].
    { rewrite length_sort_by. lia. }
    assert (Hcp : coin_position c = e_block e * 2 ^ block_level + x).
    { apply (f_equal (lookup (Z.to_nat x))) in Hs. rewrite !list_lookup_fmap, Hc, lookup_seq_lt in Hs by lia.
      simpl in Hs. injection Hs as Hs. rewrite Hs. lia. }
    rewrite (nth_lookup_Some _ _ zero_node (committed_leaf key (owner c) (commitment c))).
    + rewrite <- Hcp. symmetry. apply (coin_fn_coin context _ coins (su_shardable Hsum)).
      assert (Hin : c ∈ cs) by (rewrite <- (sort_by_perm coin_position cs); by eapply list_elem_of_lookup_2).
      by apply block_coin_in in Hin as [? _].
    + by rewrite list_lookup_fmap, Hc.
  - rewrite leaf_fn_beyond by (unfold coin_leaves; rewrite length_fmap, length_sort_by; lia).
    symmetry. apply coin_fn_absent. intros (c & E & Hc)%list_elem_of_fmap.
    assert (Hin : coin_position c ∈ coin_position <$> cs).
    { apply list_elem_of_fmap_2, block_coin_in. split; [done|]. rewrite shiftr_div, <- E. symmetry. apply Z.div_unique with x; lia. }
    rewrite Hd in Hin. apply list_elem_of_fmap in Hin as (i & Ei & Hi%elem_of_seq). lia.
Qed.

Lemma block_capacity e : block_entry e -> Z.of_nat (length (block_coins (e_block e))) <= 2 ^ block_level.
Proof.
  intros [_ Hd _ _]. set (cs := block_coins (e_block e)) in *. pose proof (pow2_pos SUBTREE_BITS).
  destruct (decide (length cs = 0%nat)) as [->|Hne]; [lia|].
  assert (Hin : e_block e * 2 ^ block_level + Z.of_nat (length cs - 1) ∈ coin_position <$> cs).
  { rewrite Hd. apply list_elem_of_fmap. exists (length cs - 1)%nat. split; [done|]. apply elem_of_seq. lia. }
  apply list_elem_of_fmap in Hin as (c & E & [_ Hc]%block_coin_in). rewrite shiftr_div, <- E in Hc.
  rewrite Z.div_add_l in Hc by lia.
  assert (Hs : Z.of_nat (length cs - 1) / 2 ^ block_level = 0) by lia. apply Z.div_small_iff in Hs; lia.
Qed.

Lemma block_spec e : block_entry e ->
  e_coins e = Z.of_nat (length (block_coins (e_block e))) /\ e_root e = mnode key fn SUBTREE_BITS (e_block e).
Proof.
  intros He. pose proof (block_capacity e He) as Hcap. destruct (be_frontier e He) as (fr & es & rr & Ea & Er & Ec & En).
  assert (Hmd : (1 <= SUBTREE_BITS <= MAX_DEPTH)%nat) by (unfold SUBTREE_BITS, MAX_DEPTH; lia).
  destruct (append_all_ordered context SUBTREE_BITS Hmd (block_coins (e_block e)) Hcap) as (es' & Ea' & _).
  rewrite Ea in Ea'. injection Ea' as -> ->. rewrite Ec, En. cbn [f_count frontier_over]. rewrite len_coin_leaves. split; [done|].
  rewrite f_root_over in Er by (rewrite ?len_coin_leaves; lia). destruct (_ || _); [done|].
  apply (f_equal (fun x => match x with inr r => r_root r | inl _ => zero_node end)) in Er. cbn [r_root] in Er. rewrite <- Er.
  transitivity (mnode key (fun x => fn (e_block e * 2 ^ Z.of_nat (0 + SUBTREE_BITS) + x)) SUBTREE_BITS 0).
  - apply mnode_ext. intros p Hp. apply block_leaf; [done|]. lia.
  - rewrite mnode_shift, Z.pow_0_r, Z.mul_1_r, Z.add_0_r. reflexivity.
Qed.

(** *** One layer of a report *)

Definition total_coins (l : list (Z * Z * MNode)) : Z := foldr (fun e t => e_coins e + t) 0 l.
Definition part (shard : list bool) (w : nat) : SubtreeReport :=
  mkSubtree w (total_coins (layer_of_width shard summary w))
    (mnode key fn (SUBTREE_BITS + w - length shard) (part_index shard)).

Lemma sum_coins_ok (l : list (Z * Z * MNode)) : forall total,
  Forall (fun e => 0 <= e_coins e) l -> total + total_coins l <= u64_max ->
  sum_coins total l = Ok (total + total_coins l).
Proof.
  induction l as [|e l IH]; intros total Hf Hmax; unfold total_coins in *; cbn [sum_coins foldr] in *.
  { f_equal. lia. }
  apply Forall_cons in Hf as [He Hf].
  assert (Hpos : 0 <= total_coins l) by (clear -Hf; unfold total_coins; induction Hf; simpl; lia). unfold total_coins in Hpos.
  unfold checked_add_u64. destruct (Z.leb_spec (total + e_coins e) u64_max); [|lia].
  rewrite IH by (done || lia). f_equal. lia.
Qed.

Lemma layer_elem shard w e : e ∈ layer_of_width shard summary w <->
  e ∈ summary /\ 0 < e_coins e /\ shard_owns_block shard (e_block e) = true /\ creation_width (e_block e) = w.
Proof.
  unfold layer_of_width. rewrite elem_of_filter_b, !andb_true_iff, Z.ltb_lt, Nat.eqb_eq. tauto.
Qed.

(** What an entry of a layer is. *)
Lemma layer_entry shard w e : e ∈ layer_of_width shard summary w ->
  block_entry e /\ (length shard <= w)%nat /\ (INITIAL_BLOCK_BITS <= w <= MAX_BLOCK_BITS)%nat /\
  Z.shiftr (e_block e) (Z.of_nat (w - length shard)) = part_index shard.
Proof.
  intros (He & Hc & Ho & Hw)%layer_elem. destruct Hsum as [_ _ Hent _]. rewrite Forall_forall in Hent. specialize (Hent e He).
  split; [done|]. destruct Hent as [Ha _ _ _]. apply allocated_id in Ha as (w' & v & Eb & Hv & Hr & Ew). rewrite Hw in Ew. subst w'.
  rewrite Eb in Ho |- *. apply owns_shift in Ho; [|unfold MAX_BLOCK_BITS in *; lia|done]. tauto.
Qed.

(** An entry of the summary whose block extends a shard's index is in its layer. *)
Lemma layer_has shard (w : nat) e :
  e ∈ summary -> (length shard <= w <= MAX_BLOCK_BITS)%nat ->
  Z.shiftr (e_block e) (Z.of_nat (w - length shard)) = part_index shard -> e ∈ layer_of_width shard summary w.
Proof.
  intros He Hl Hsh. destruct Hsum as [_ _ Hent _]. rewrite Forall_forall in Hent. specialize (Hent e He).
  assert (Hw : 2 ^ Z.of_nat w <= e_block e < 2 * 2 ^ Z.of_nat w).
  { eapply extension_width; [|exact Hsh|apply part_index_range]; unfold MAX_BLOCK_BITS in *; lia. }
  replace (e_block e) with (2 ^ Z.of_nat w + (e_block e - 2 ^ Z.of_nat w)) in Hsh by lia.
  unfold MAX_BLOCK_BITS in *. apply layer_elem. split; [done|].
  destruct (block_spec e Hent) as [-> _]. pose proof (be_some e Hent) as Hne.
  split; [destruct (block_coins (e_block e)); [done|simpl; lia]|].
  replace (e_block e) with (2 ^ Z.of_nat w + (e_block e - 2 ^ Z.of_nat w)) by lia. split.
  - apply owns_shift; [lia..|]. split; [lia|done].
  - apply creation_width_sentinel; lia.
Qed.

Lemma layer_NoDup shard w : NoDup (e_block <$> layer_of_width shard summary w).
Proof.
  destruct Hsum as [_ Hd _ _]. clear Hsum. unfold layer_of_width. induction summary as [|e l IH]; [constructor|].
  cbn [fmap list_fmap] in Hd. apply NoDup_cons in Hd as [He Hd]. cbn [List.filter]. destruct (_ && _); [|auto].
  cbn [fmap list_fmap]. constructor; [|auto]. intros (x & E & Hx)%list_elem_of_fmap. apply He. rewrite E.
  apply list_elem_of_fmap_2. by apply elem_of_filter_b in Hx as [? _].
Qed.

(** The tree under one node, as a tree of its own. *)
Definition under_node (l : nat) (i x : Z) : MNode :=
  if decide (0 <= x < 2 ^ Z.of_nat l) then fn (i * 2 ^ Z.of_nat l + x) else zero_node.

Lemma under_node_inner (k l : nat) i j : 0 <= j < 2 ^ Z.of_nat k ->
  mnode key (under_node (k + l) i) l j = mnode key fn l (i * 2 ^ Z.of_nat k + j).
Proof.
  intros Hj. rewrite <- mnode_shift. apply mnode_ext. intros p Hp. unfold under_node. rewrite decide_True; [done|].
  pose proof (pow2_pos l). rewrite Nat2Z.inj_add, Z.pow_add_r by lia. nia.
Qed.

Lemma under_node_root l i : mnode key (under_node l i) l 0 = mnode key fn l i.
Proof.
  pose proof (under_node_inner 0 l i 0 ltac:(simpl; lia)) as E. cbn [Nat.add] in E.
  by rewrite E, Z.pow_0_r, Z.mul_1_r, Z.add_0_r.
Qed.

Section layer.
Variables (shard : list bool) (w : nat).
Local Abbreviation d := (length shard).
Local Abbreviation free := (w - length shard)%nat.
Hypothesis Hlayer : layer_of_width shard summary w <> [].
Definition layer_placed (e : Z * Z * MNode) : Placed := mkPlaced SUBTREE_BITS (e_block e - part_index shard * 2 ^ Z.of_nat free) (e_root e).
Local Abbreviation nodes := (layer_placed <$> layer_of_width shard summary w).

Lemma layer_width : (d <= w)%nat /\ (INITIAL_BLOCK_BITS <= w <= MAX_BLOCK_BITS)%nat.
Proof.
  destruct (layer_of_width shard summary w) as [|e l] eqn:E; [done|].
  assert (He : e ∈ layer_of_width shard summary w) by (rewrite E; apply list_elem_of_here).
  destruct (layer_entry _ _ _ He) as (_ & ? & ? & _). done.
Qed.

Lemma layer_index e : e ∈ layer_of_width shard summary w ->
  0 <= e_block e - part_index shard * 2 ^ Z.of_nat free < 2 ^ Z.of_nat free.
Proof.
  intros (_ & _ & _ & E)%layer_entry. rewrite shiftr_div in E. pose proof (pow2_pos free).
  pose proof (Z.div_mod (e_block e) (2 ^ Z.of_nat free) ltac:(lia)).
  pose proof (Z.mod_pos_bound (e_block e) (2 ^ Z.of_nat free) ltac:(lia)). nia.
Qed.

Lemma layer_nodes_true :
  Forall (fun p => p_node p = mnode key (under_node (free + SUBTREE_BITS) (part_index shard)) (p_level p) (p_index p)) nodes.
Proof.
  apply Forall_fmap, Forall_forall. intros e He. unfold compose, layer_placed. cbn [p_node p_level p_index].
  rewrite under_node_inner by by apply layer_index. rewrite Zplus_minus.
  apply layer_entry in He as (He & _). by apply block_spec.
Qed.

Lemma layer_nodes_cover x :
  (forall p, p ∈ nodes -> ~ Z.shiftr x (Z.of_nat (p_level p)) = p_index p) ->
  under_node (free + SUBTREE_BITS) (part_index shard) x = zero_node.
Proof.
  intros Hx. unfold under_node. case_decide as Hr; [|done]. apply coin_fn_absent. intros (c & E & Hc)%list_elem_of_fmap.
  destruct Hsum as [_ _ _ Hcov]. specialize (Hcov c Hc). apply list_elem_of_fmap in Hcov as (e & Eb & He).
  rewrite locate_block, <- E in Eb. destruct layer_width as [Hd Hw].
  assert (Hblock : part_index shard * 2 ^ Z.of_nat free + Z.shiftr x block_level = e_block e).
  { rewrite <- Eb, shiftr_offset by lia. by rewrite Nat.add_sub. }
  assert (Hxr : 0 <= Z.shiftr x block_level < 2 ^ Z.of_nat free).
  { rewrite shiftr_div. rewrite Nat2Z.inj_add, Z.pow_add_r in Hr by lia. pose proof (pow2_pos SUBTREE_BITS).
    split; [apply Z.div_pos; lia|]. apply Z.div_lt_upper_bound; lia. }
  assert (Hin : e ∈ layer_of_width shard summary w).
  { apply layer_has; [done|lia|]. rewrite shiftr_div, <- Hblock, Z.div_add_l, Z.div_small by lia. lia. }
  apply (Hx (layer_placed e)); [by apply list_elem_of_fmap_2|]. unfold layer_placed. cbn [p_level p_index]. lia.
Qed.

Lemma layer_nodes_disjoint : disjoint nodes.
Proof.
  apply ordered_pairs_fmap. pose proof (layer_NoDup shard w) as Hnd.
  apply NoDup_ordered_pairs; [by apply NoDup_fmap_1 in Hnd|]. intros a b Ha Hb Hne.
  assert (Hab : e_block a <> e_block b).
  { intros E. apply Hne. apply list_elem_of_lookup in Ha as [i Hi], Hb as [j Hj].
    assert (i = j) as -> by (eapply (NoDup_lookup _ i j (e_block a) Hnd); rewrite list_lookup_fmap, ?Hi, ?Hj; simpl; congruence).
    congruence. }
  split; rewrite under_same by done; unfold layer_placed; cbn [p_index]; lia.
Qed.

Lemma layer_nodes_range : (d < w)%nat -> Forall (in_range (SUBTREE_BITS + w - d)) nodes.
Proof.
  intros Hlt. apply Forall_fmap, Forall_forall. intros e He. unfold compose, in_range, layer_placed. cbn [p_level p_index].
  split; [lia|]. replace (SUBTREE_BITS + w - d - SUBTREE_BITS)%nat with free by lia. by apply layer_index.
Qed.

Lemma layer_root : (d < w)%nat ->
  fold_sparse context (SUBTREE_BITS + w - d) nodes = inr (mnode key fn (SUBTREE_BITS + w - d) (part_index shard)).
Proof.
  intros Hlt. destruct layer_width as [_ Hw]. pose proof layer_nodes_true as Ht. pose proof layer_nodes_cover as Hc.
  replace (free + SUBTREE_BITS)%nat with (SUBTREE_BITS + w - d)%nat in Ht, Hc by lia.
  rewrite (fold_sparse_root context nodes _ Ht Hc).
  - by rewrite under_node_root.
  - unfold SUBTREE_BITS, MAX_BLOCK_BITS, MAX_DEPTH in *. lia.
  - by apply layer_nodes_range.
  - apply layer_nodes_disjoint.
Qed.

(** A shard as deep as the width owns at most the one block of its own path. *)
Lemma layer_single : d = w -> exists e, layer_of_width shard summary w = [e] /\ e_block e = part_index shard /\ block_entry e.
Proof.
  intros Hd. assert (Hall : forall e, e ∈ layer_of_width shard summary w -> e_block e = part_index shard).
  { intros e (_ & _ & _ & E)%layer_entry. by rewrite Hd, Nat.sub_diag, Z.shiftr_0_r in E. }
  pose proof (layer_NoDup shard w) as Hnd. destruct (layer_of_width shard summary w) as [|e [|e' l]] eqn:El; [done| |].
  - exists e. split; [done|]. split; [apply Hall, list_elem_of_here|].
    apply (layer_entry shard w). rewrite El. apply list_elem_of_here.
  - exfalso. cbn [fmap list_fmap] in Hnd. apply NoDup_cons in Hnd as [Hn _]. apply Hn.
    rewrite !Hall by (rewrite ?elem_of_cons; auto). apply list_elem_of_here.
Qed.

Lemma distinct_below (l : list Z) (n : nat) : NoDup l -> Forall (fun x => 0 <= x < Z.of_nat n) l -> (length l <= n)%nat.
Proof.
  intros Hnd Hl. rewrite <- (length_seq n 0), <- (length_fmap Z.of_nat (seq 0 n)).
  apply NoDup_incl_length; [by apply NoDup_ListNoDup|]. intros x Hx%list_elem_of_In. apply list_elem_of_In, list_elem_of_fmap.
  rewrite Forall_forall in Hl. specialize (Hl x Hx). exists (Z.to_nat x). rewrite elem_of_seq. lia.
Qed.

Lemma layer_coins :
  Forall (fun e => 0 < e_coins e) (layer_of_width shard summary w) /\
  0 < total_coins (layer_of_width shard summary w) <= u64_max.
Proof.
  assert (Hpos : Forall (fun e => 0 < e_coins e <= 2 ^ block_level) (layer_of_width shard summary w)).
  { apply Forall_forall. intros e He. pose proof He as (_ & Hc & _)%layer_elem. apply layer_entry in He as (He & _).
    pose proof (block_capacity e He). destruct (block_spec e He) as [E _]. lia. }
  assert (Hlen : (length (layer_of_width shard summary w) <= 2 ^ 16)%nat).
  { rewrite <- (length_fmap e_block). apply distinct_below; [apply layer_NoDup|].
    apply Forall_fmap, Forall_forall. intros e He. unfold compose.
    apply layer_entry in He as ([Ha _ _ _] & _). apply allocated_id in Ha as (w' & v & -> & Hv & Hw' & _).
    assert (2 ^ Z.of_nat w' <= 2 ^ 15) by (apply Z.pow_le_mono_r; unfold MAX_BLOCK_BITS in *; lia).
    rewrite Nat2Z.inj_pow. change (Z.of_nat 2 ^ Z.of_nat 16) with (2 * 2 ^ 15). pose proof (pow2_pos w'). lia. }
  split; [eapply Forall_impl; [exact Hpos|]; simpl; lia|].
  assert (Hsumle : forall l, Forall (fun e => 0 < e_coins e <= 2 ^ block_level) l ->
    0 <= total_coins l <= Z.of_nat (length l) * 2 ^ block_level /\ (l <> [] -> 0 < total_coins l)).
  { unfold total_coins. induction 1 as [|e l He _ IH]; cbn [foldr length]; [split; [lia|done]|]. split; [nia|intros _; lia]. }
  destruct (Hsumle _ Hpos) as [[_ Hle] Hgt]. specialize (Hgt Hlayer).
  assert (Z.of_nat (length (layer_of_width shard summary w)) * 2 ^ block_level <= 2 ^ 16 * 2 ^ block_level).
  { apply Z.mul_le_mono_nonneg_r; [apply Z.pow_nonneg; lia|]. apply inj_le in Hlen. by rewrite Nat2Z.inj_pow in Hlen. }
  assert (2 ^ 16 * 2 ^ block_level <= u64_max) by by apply Z.leb_le. lia.
Qed.

Lemma first_block : (d <= w)%nat -> Z.shiftl (part_index shard) (Z.of_nat (SUBTREE_BITS + w - d - SUBTREE_BITS)) = part_index shard * 2 ^ Z.of_nat free.
Proof. intros Hd. rewrite Z.shiftl_mul_pow2 by lia. do 3 f_equal. lia. Qed.

Lemma layer_ok : report_layer context shard w (layer_of_width shard summary w) = Ok (part shard w).
Proof.
  destruct layer_width as [Hd Hw]. unfold report_layer. rewrite subtree_position_ok by done.
  cbn [mbind outcome_bind fst snd]. cbv zeta. rewrite first_block by done.
  rewrite (try_map_ok _ layer_placed).
  2:{ intros e He. pose proof (layer_index e He) as Hi. unfold ck_u64.
      assert (2 ^ Z.of_nat free <= 2 ^ 15) by (apply Z.pow_le_mono_r; unfold MAX_BLOCK_BITS in *; lia).
      rewrite (proj2 (Z.leb_le _ _) (proj1 Hi)), (proj2 (Z.leb_le _ u64_max)) by (unfold u64_max; lia). done. }
  cbn [mbind outcome_bind]. destruct layer_coins as [Hpos Htot].
  assert (Hroot : (if (SUBTREE_BITS + w - d =? SUBTREE_BITS)%nat then
            match nodes with
            | [nd] => if p_index nd =? 0 then Ok (p_node nd) else Err InvalidArgument
            | _ => Err InvalidArgument
            end
          else match fold_sparse context (SUBTREE_BITS + w - d) nodes with inr n => Ok n | inl _ => Err InvalidArgument end) =
          Ok (mnode key fn (SUBTREE_BITS + w - d) (part_index shard))).
  { destruct (Nat.eqb_spec (SUBTREE_BITS + w - d) SUBTREE_BITS) as [E|E]; [|rewrite layer_root by lia; done].
    destruct layer_single as (e & -> & Eb & He); [lia|]. unfold layer_placed. cbn [fmap list_fmap p_index p_node].
    replace free with 0%nat by lia. rewrite Z.pow_0_r, Z.mul_1_r, Eb, Z.sub_diag, Z.eqb_refl, E.
    destruct (block_spec e He) as [_ ->]. by rewrite Eb. }
  rewrite Hroot. cbn [mbind outcome_bind]. rewrite sum_coins_ok.
  - done.
  - eapply Forall_impl; [exact Hpos|]. simpl. lia.
  - lia.
Qed.
End layer.

(** *** A shard's report *)

Lemma layer_widths_in shard w : w ∈ layer_widths shard summary <-> (w < 64)%nat /\ layer_of_width shard summary w <> [].
Proof.
  unfold layer_widths. rewrite elem_of_filter_b, elem_of_seq. destruct (layer_of_width shard summary w); simpl; intuition (done || lia).
Qed.

Definition shard_parts (shard : list bool) : list SubtreeReport := part shard <$> layer_widths shard summary.

Lemma report_spec shard atts :
  report_from_summary context shard summary atts =
  Ok (match shard_parts shard, atts with [], [] => None | _, _ => Some (mkReport context (shard_parts shard) atts) end).
Proof.
  assert (E : try_map (fun w => report_layer context shard w (layer_of_width shard summary w)) (layer_widths shard summary) =
              Ok (shard_parts shard)) by (apply try_map_ok; intros w [_ Hw]%layer_widths_in; by apply layer_ok).
  unfold report_from_summary. rewrite E. cbn [mbind outcome_bind]. by destruct (shard_parts shard), atts.
Qed.

Lemma filter_seq_sorted (p : nat -> bool) n : forall b, StronglySorted lt (List.filter p (seq b n)).
Proof.
  induction n as [|n IH]; intros b; [constructor|]. cbn [seq List.filter].
  destruct (p b); [|apply IH]. constructor; [apply IH|]. apply Forall_forall. intros x [Hx _]%elem_of_filter_b.
  apply elem_of_seq in Hx. lia.
Qed.

Lemma StronglySorted_NoDup (l : list nat) : StronglySorted lt l -> NoDup l.
Proof.
  induction 1 as [|k l _ IH Hk]; [constructor|]. constructor; [|done].
  intros Hin. rewrite Forall_forall in Hk. specialize (Hk k Hin). lia.
Qed.

Lemma layer_widths_sorted shard : StronglySorted lt (layer_widths shard summary).
Proof. exact (filter_seq_sorted _ 64 0). Qed.

Lemma sorted_ascending {A} (f : nat -> A) (k : A -> Z) (l : list nat) :
  (forall x, k (f x) = Z.of_nat x) -> StronglySorted lt l -> not_ascending k (f <$> l) = false.
Proof.
  intros Hk. induction l as [|x [|y l] IH]; [done..|]. inversion 1 as [|? ? Hs Hf]; subst. inversion Hf; subst.
  change (not_ascending k (f <$> x :: y :: l)) with ((k (f y) <=? k (f x)) || not_ascending k (f <$> y :: l)).
  rewrite IH, !Hk by done. destruct (Z.leb_spec (Z.of_nat y) (Z.of_nat x)); [lia|done].
Qed.

Lemma layer_widths_range shard w : w ∈ layer_widths shard summary -> (INITIAL_BLOCK_BITS <= w <= MAX_BLOCK_BITS)%nat.
Proof. intros [_ Hl]%layer_widths_in. by destruct (layer_width shard w Hl). Qed.

Lemma layer_widths_few shard : (length (layer_widths shard summary) <= MAX_LAYERS)%nat.
Proof.
  rewrite <- (length_seq MAX_LAYERS INITIAL_BLOCK_BITS). apply NoDup_incl_length.
  - apply NoDup_ListNoDup, StronglySorted_NoDup, layer_widths_sorted.
  - intros w Hin%list_elem_of_In. apply list_elem_of_In, elem_of_seq. pose proof (layer_widths_range shard w Hin).
    unfold MAX_LAYERS, INITIAL_BLOCK_BITS, MAX_BLOCK_BITS in *. lia.
Qed.

Lemma parts_in shard s : s ∈ shard_parts shard -> exists w, s = part shard w /\ w ∈ layer_widths shard summary.
Proof. apply list_elem_of_fmap_1. Qed.

Lemma part_coins shard w : w ∈ layer_widths shard summary -> ShardReports.coins (part shard w) <> 0.
Proof.
  intros [_ Hl]%layer_widths_in. pose proof (layer_coins shard w Hl) as [_ [Hc _]]. unfold part. cbn [ShardReports.coins].
  intros E. rewrite E in Hc. by apply Z.lt_irrefl in Hc.
Qed.

Lemma parts_elem shard s : s ∈ shard_parts shard -> ShardReports.coins s <> 0 /\ (INITIAL_BLOCK_BITS <= width s <= MAX_BLOCK_BITS)%nat.
Proof.
  intros (w & -> & Hin)%parts_in. split; [by apply part_coins|exact (layer_widths_range shard w Hin)].
Qed.

Lemma parts_fit shard s : s ∈ shard_parts shard -> subtree_fits s.
Proof.
  intros (w & -> & Hin)%parts_in. apply layer_widths_in in Hin as [_ Hl].
  destruct (layer_coins shard w Hl) as [_ [Hlo Hhi]]. unfold subtree_fits, part. cbn [ShardReports.coins].
  split; [by apply Z.lt_le_incl|done].
Qed.

Lemma report_valid shard : shard_parts shard <> [] -> report_validate (mkReport context (shard_parts shard) []) = Ok tt.
Proof.
  intros Hne. apply validate_ok; [done| | |apply parts_elem].
  - unfold shard_parts. rewrite length_fmap. apply layer_widths_few.
  - unfold shard_parts. apply sorted_ascending; [done|apply layer_widths_sorted].
Qed.

(** *** All shards of an application *)

Variable shards : list (list bool).

(** Shards that partition the blocks in use: distinct paths, none extending
    another, and every block with coins owned by one of them. *)
Record partition : Prop := {
  pa_distinct : NoDup shards;
  pa_prefix_free : forall a b, a ∈ shards -> b ∈ shards -> a `prefix_of` b -> a = b;
  pa_owned : forall e, e ∈ summary -> exists s, s ∈ shards /\ shard_owns_block s (e_block e) = true;
}.
Hypothesis Hpart : partition.

(** A report's layers as [fold_application_root] takes them. *)
Definition layers_of (shard : list bool) (r : option ShardReport) : list (nat * list bool * MNode) :=
  (fun s => (width s, shard, root s)) <$> match r with None => [] | Some r => subtrees r end.

(** Every shard with every width it reports. *)
Definition pieces : list (list bool * nat) := shards ≫= (fun s => pair s <$> layer_widths s summary).
Definition piece_node (p : list bool * nat) : Placed :=
  mkPlaced (SUBTREE_BITS + p.2 - length p.1) (part_index p.1)
    (mnode key fn (SUBTREE_BITS + p.2 - length p.1) (part_index p.1)).

Lemma pieces_in s w : (s, w) ∈ pieces <-> s ∈ shards /\ w ∈ layer_widths s summary.
Proof.
  unfold pieces. rewrite list_elem_of_bind. split.
  - intros (s' & Hin & Hs). apply list_elem_of_fmap in Hin as (w' & [= -> ->] & Hw). done.
  - intros [Hs Hw]. exists s. split; [by apply list_elem_of_fmap_2|done].
Qed.

Lemma piece_facts s w : (s, w) ∈ pieces ->
  s ∈ shards /\ (length s <= w)%nat /\ (INITIAL_BLOCK_BITS <= w <= MAX_BLOCK_BITS)%nat.
Proof.
  intros [Hs Hw]%pieces_in. split; [done|]. apply layer_widths_in in Hw as [_ Hw]. by destruct (layer_width s w Hw).
Qed.

Lemma pieces_NoDup : NoDup pieces.
Proof.
  unfold pieces. apply NoDup_bind.
  - intros a b p Ha Hb Hpa Hpb. apply list_elem_of_fmap in Hpa as (w & -> & _), Hpb as (w' & [= ->] & _). done.
  - intros s _. apply NoDup_fmap_2; [intros ? ? [=]; done|].
    unfold layer_widths. apply NoDup_ListNoDup, List.NoDup_filter, NoDup_ListNoDup, NoDup_seq.
  - by destruct Hpart.
Qed.

(** One piece lies under another only when their widths agree and its shard
    extends the other's. *)
Lemma piece_under a v b w : (a, v) ∈ pieces -> (b, w) ∈ pieces ->
  under (piece_node (a, v)) (p_level (piece_node (b, w))) (p_index (piece_node (b, w))) -> (a, v) = (b, w).
Proof.
  intros (Ha & Hla & Hv)%piece_facts (Hb & Hlb & Hw)%piece_facts. unfold under, piece_node. cbn [p_level p_index fst snd].
  unfold MAX_BLOCK_BITS in *. pose proof (part_index_range a ltac:(lia)) as Hra. pose proof (part_index_range b ltac:(lia)) as Hrb.
  intros [Hl E]. set (k := (SUBTREE_BITS + w - length b - (SUBTREE_BITS + v - length a))%nat) in *.
  assert (Hk : length a = (length b + k)%nat).
  { rewrite <- E, shiftr_div in Hrb.
    pose proof (Z.div_mod (part_index a) (2 ^ Z.of_nat k) ltac:(pose proof (pow2_pos k); lia)) as Hdm.
    pose proof (Z.mod_pos_bound (part_index a) (2 ^ Z.of_nat k) (pow2_pos k)).
    assert (Hbk : 2 ^ Z.of_nat (length b + k) <= part_index a < 2 * 2 ^ Z.of_nat (length b + k))
      by (rewrite Nat2Z.inj_add, Z.pow_add_r by lia; nia).
    rewrite <- pow2_S in Hra, Hbk. destruct (lt_eq_lt_dec (length a) (length b + k)) as [[Hlt|]|Hlt]; [|done|]; exfalso.
    - assert (2 ^ Z.of_nat (S (length a)) <= 2 ^ Z.of_nat (length b + k)) by (apply Z.pow_le_mono_r; lia). lia.
    - assert (2 ^ Z.of_nat (S (length b + k)) <= 2 ^ Z.of_nat (length a)) by (apply Z.pow_le_mono_r; lia). lia. }
  assert (v = w) as -> by (unfold k in Hk; lia). f_equal. symmetry. apply (pa_prefix_free Hpart); [done..|].
  destruct (path_value_spec a ltac:(lia)) as [Hpv <-]. apply prefix_quotient; [lia|done|].
  replace (length a - length b)%nat with k by lia. unfold part_index in E. rewrite shiftr_div in E.
  rewrite Hk, Nat2Z.inj_add, Z.pow_add_r, Z.div_add_l in E by (pose proof (pow2_pos k); lia). lia.
Qed.

Lemma pieces_disjoint : disjoint (piece_node <$> pieces).
Proof.
  apply ordered_pairs_fmap, NoDup_ordered_pairs; [apply pieces_NoDup|].
  intros [a v] [b w] Ha Hb Hne. split; intros Hu; apply Hne; [by apply piece_under|symmetry; by apply piece_under].
Qed.

Lemma pieces_range : Forall (in_range DEPTH) (piece_node <$> pieces).
Proof.
  apply Forall_fmap, Forall_forall. intros [s w] (_ & Hl & Hw)%piece_facts. unfold compose, in_range, piece_node. cbn [p_level p_index fst snd].
  unfold DEPTH, BLOCK_INDEX_BITS, MAX_BLOCK_BITS in *. split; [lia|].
  pose proof (part_index_range s ltac:(lia)) as Hr. rewrite <- pow2_S in Hr. pose proof (pow2_pos (length s)). split; [lia|].
  assert (2 ^ Z.of_nat (S (length s)) <= 2 ^ Z.of_nat (15 + 1 + SUBTREE_BITS - (SUBTREE_BITS + w - length s)))
    by (apply Z.pow_le_mono_r; lia). lia.
Qed.

Lemma pieces_cover x :
  (forall p, p ∈ piece_node <$> pieces -> ~ Z.shiftr x (Z.of_nat (p_level p)) = p_index p) -> fn x = zero_node.
Proof.
  intros Hx. apply coin_fn_absent. intros (c & E & Hc)%list_elem_of_fmap.
  pose proof (su_cover Hsum c Hc) as (e & Eb & He)%list_elem_of_fmap. destruct (pa_owned Hpart e He) as (s & Hs & Ho).
  pose proof (su_entry Hsum) as Hent. rewrite Forall_forall in Hent. specialize (Hent e He).
  pose proof (be_allocated e Hent) as (w & v & Ebw & Hv & Hw & Ew)%allocated_id.
  assert (Hin : e ∈ layer_of_width s summary w).
  { apply layer_elem. split; [done|]. split; [|done]. destruct (block_spec e Hent) as [-> _].
    pose proof (be_some e Hent). destruct (block_coins (e_block e)); [done|simpl; lia]. }
  destruct (layer_entry _ _ _ Hin) as (_ & Hl & _ & Hsh). apply (Hx (piece_node (s, w))).
  - apply list_elem_of_fmap_2, pieces_in. split; [done|]. apply layer_widths_in. split; [unfold MAX_BLOCK_BITS in *; lia|].
    intros En. rewrite En in Hin. by apply elem_of_nil in Hin.
  - unfold piece_node. cbn [p_level p_index fst snd]. rewrite <- Hsh, <- Eb, locate_block, Z.shiftr_shiftr, E by lia.
    f_equal. lia.
Qed.

Lemma layers_pieces atts :
  concat ((fun s => layers_of s (match shard_parts s, atts s with [], [] => None | _, _ => Some (mkReport context (shard_parts s) (atts s)) end)) <$> shards) =
  (fun p => (p.2, p.1, mnode key fn (SUBTREE_BITS + p.2 - length p.1) (part_index p.1))) <$> pieces.
Proof.
  unfold pieces. clear Hpart. induction shards as [|s l IH]; [done|]. cbn [fmap list_fmap concat mbind list_bind]. rewrite IH, fmap_app. f_equal.
  rewrite <- list_fmap_compose. unfold layers_of.
  assert (Es : match (match shard_parts s, atts s with [], [] => None | _, _ => Some (mkReport context (shard_parts s) (atts s)) end) with
               None => [] | Some r => subtrees r end = shard_parts s) by (by destruct (shard_parts s), (atts s)).
  rewrite Es. unfold shard_parts. rewrite <- list_fmap_compose. done.
Qed.

Lemma fold_pieces t atts : sharded_build context (mkShape BLOCK_INDEX_BITS SUBTREE_BITS) coins = inr t ->
  fold_application_root context (concat ((fun s => layers_of s (match shard_parts s, atts s with [], [] => None | _, _ => Some (mkReport context (shard_parts s) (atts s)) end)) <$> shards)) =
  Ok (sharded_root t).
Proof.
  intros Hb. rewrite layers_pieces. rewrite (sharded_root_spec context _ coins (su_shardable Hsum) t Hb).
  unfold fold_application_root.
  assert (E : try_map (fun s : nat * list bool * MNode => p ← subtree_position s.1.1 s.1.2; Ok (mkPlaced p.1 p.2 s.2))
                ((fun p => (p.2, p.1, mnode key fn (SUBTREE_BITS + p.2 - length p.1) (part_index p.1))) <$> pieces) =
              Ok (piece_node <$> pieces)).
  { assert (Hf : forall p, p ∈ pieces -> (q ← subtree_position p.2 p.1; Ok (mkPlaced q.1 q.2 (mnode key fn (SUBTREE_BITS + p.2 - length p.1) (part_index p.1)))) = Ok (piece_node p)).
    { intros [s w] (_ & Hl & Hw)%piece_facts. cbn [fst snd]. by rewrite subtree_position_ok. }
    revert Hf. generalize pieces as l. induction l as [|p l IH]; intros Hf; [done|]. cbn [fmap list_fmap try_map fst snd].
    rewrite Hf by apply list_elem_of_here. cbn [mbind outcome_bind].
    rewrite IH by (intros q Hq; apply Hf; by apply list_elem_of_further). done. }
  rewrite E. cbn [mbind outcome_bind].
  assert (Htop : (1 <= DEPTH <= MAX_DEPTH)%nat) by (split; apply Nat.leb_le; reflexivity).
  rewrite (fold_sparse_root context (piece_node <$> pieces) fn); [done| |apply pieces_cover|done|apply pieces_range|apply pieces_disjoint].
  apply Forall_fmap, Forall_forall. intros p _. reflexivity.
Qed.
End application.

(** ** A small application *)

Module ReportDemo.
Import CoinDemo.

Definition coins : list CoinRecord := [mkCoin (addr 8) [z2b 2] 7 4259840; mkCoin (addr 9) [z2b 3] 6 4194304].
Definition shards : list (list bool) := [[false; true]; [true]; [false; false]].
Definition summary (r r' : MNode) : list (Z * Z * MNode) := [(64, 1, r); (65, 1, r')].

Lemma frontier_root (md : nat) cs : (1 <= md <= MAX_DEPTH)%nat -> Z.of_nat (length cs) <= 2 ^ Z.of_nat md ->
  exists fr es rr, (f0 ← new_frontier ctx md; append_all f0 [] (sort_by coin_position cs)) = inr (fr, es) /\
    f_root_at_depth fr md = inr rr /\ f_count fr = Z.of_nat (length cs) /\
    r_root rr = mnode (derive ctx) (leaf_fn (coin_leaves ctx cs)) md 0.
Proof.
  intros Hmd Hcap. destruct (append_all_ordered ctx md Hmd cs Hcap) as (es & Ea & _).
  eexists _, es, _. split; [exact Ea|]. rewrite f_root_over by (rewrite ?len_coin_leaves; lia).
  assert (Hd : (f_current_depth (frontier_over ctx md (coin_leaves ctx cs)) <= md)%nat).
  { apply current_depth_le; rewrite ?len_coin_leaves; lia. }
  destruct (Nat.ltb_spec md (f_current_depth (frontier_over ctx md (coin_leaves ctx cs)))); [lia|].
  rewrite Nat.ltb_irrefl. cbn [orb]. split; [reflexivity|]. split; [apply len_coin_leaves|reflexivity].
Qed.

Lemma entry_ok b c (r : byte) :
  r = mnode (derive ctx) (leaf_fn (coin_leaves ctx [c])) SUBTREE_BITS 0 -> is_allocated_width MAX_BLOCK_BITS b = true -> block_coins coins b = [c] ->
  coin_position c = b * 2 ^ Z.of_nat SUBTREE_BITS -> block_entry ctx coins (b, 1, r).
Proof.
  intros Hr Ha Hc Hp. assert (Hcap : Z.of_nat (length (block_coins coins b)) <= 2 ^ Z.of_nat SUBTREE_BITS).
  { rewrite Hc. pose proof (pow2_pos SUBTREE_BITS). simpl length. lia. }
  assert (Hmd : (1 <= SUBTREE_BITS <= MAX_DEPTH)%nat) by (unfold SUBTREE_BITS, MAX_DEPTH; lia).
  split; cbn [e_block fst].
  - done.
  - rewrite Hc. cbn [length seq fmap list_fmap]. by rewrite Hp, Z.add_0_r.
  - by rewrite Hc.
  - destruct (frontier_root SUBTREE_BITS (block_coins coins b) Hmd Hcap) as (fr & es & rr & Ea & Er & Ec & Ed).
    exists fr, es, rr. split; [exact Ea|]. split; [exact Er|]. rewrite Ec, Ed, Hc. split; [reflexivity|exact Hr].
Qed.

Lemma application_summarised : exists r r', summarises ctx coins (summary r r').
Proof.
  eexists _, _. split.
  - split; cbn [subtree_bits].
    + by apply Nat.leb_le.
    + by apply Nat.leb_le.
    + by repeat constructor.
    + by apply (bool_decide_unpack _); vm_compute.
    + by apply (bool_decide_unpack _); vm_compute.
    + by repeat constructor.
  - repeat constructor; cbn; rewrite ?elem_of_cons, elem_of_nil; naive_solver lia.
  - apply Forall_cons. split; [eapply entry_ok; reflexivity|]. apply Forall_cons. split; [eapply entry_ok; reflexivity|constructor].
  - intros c [<-|[<-|[]]]%list_elem_of_In.
    + apply list_elem_of_further, list_elem_of_here.
    + apply list_elem_of_here.
Qed.

Lemma application_partitioned r r' : partition (summary r r') shards.
Proof.
  split.
  - by apply (bool_decide_unpack _); vm_compute.
  - intros a b [<-|[<-|[<-|[]]]]%list_elem_of_In [<-|[<-|[<-|[]]]]%list_elem_of_In [k E]; discriminate E || reflexivity.
  - intros e [<-|[<-|[]]]%list_elem_of_In; exists [false; false]; (split; [do 2 apply list_elem_of_further; apply list_elem_of_here|reflexivity]).
Qed.

Definition report : ShardReport := mkReport ctx [mkSubtree 6 2 (z2b 9)] [mkAttestation 64 1 0].
End ReportDemo.

(** ** Theorems *)

(** A report survives its record: whatever [encode] accepts, with counts that
    fit their fields, [decode] returns unchanged. *)
Theorem report_round_trip :
  forall (M : MembershipKey) (L : LawfulNodes) (r : ShardReport) (bs : bytes),
  length (rp_context r) = 32%nat -> Forall subtree_fits (subtrees r) -> Forall attestation_fits (attestations r) ->
  report_encode r = Ok bs -> report_decode bs = Ok r.
Proof. intros M L. exact decode_encode. Qed.

Lemma report_round_trip_witness :
  exists bs, report_encode ReportDemo.report = Ok bs /\
    report_decode bs = Ok ReportDemo.report.
Proof.
  eexists. split; [reflexivity|].
  apply (report_round_trip CoinDemo.byte_key CoinDemo.byte_key_lawful); [reflexivity| | |reflexivity].
  - apply Forall_singleton. split; apply Z.leb_le; reflexivity.
  - apply Forall_singleton. repeat split; apply Z.leb_le; reflexivity.
Defined.

(** C24. However an application is divided into shards, its root is the same: when
    the shards' paths partition the blocks in use and a summary holds the count
    and frontier root of every block with coins, every shard's report can be made,
    encoded and decoded back, and the layers of all reports fold to the root of
    the one tree built from all the application's coins. *)
Theorem reports_fold_to_root :
  forall (M : MembershipKey) (L : LawfulNodes) (context : bytes) (coins : list CoinRecord)
    (summary : list (Z * Z * MNode)) (shards : list (list bool)) (t : ShardedCoinTree),
  length context = 32%nat -> summarises context coins summary -> partition summary shards ->
  sharded_build context (mkShape BLOCK_INDEX_BITS SUBTREE_BITS) coins = inr t ->
  exists reports,
    Forall2 (fun s r => report_from_summary context s summary [] = Ok r /\
               match r with
               | None => True
               | Some r => exists bs, report_encode r = Ok bs /\ report_decode bs = Ok r
               end) shards reports /\
    fold_application_root context (concat (zip_with layers_of shards reports)) = Ok (sharded_root t).
Proof.
  intros M L context coins summary shards t Hctx Hsum Hpart Hb.
  set (report_of := fun s => match shard_parts context coins summary s with [] => None | ps => Some (mkReport context ps []) end).
  assert (Heq : forall s, match shard_parts context coins summary s, @nil BlockAttestation with
      | [], [] => None | _, _ => Some (mkReport context (shard_parts context coins summary s) []) end = report_of s)
    by (intros s; unfold report_of; by destruct (shard_parts context coins summary s)).
  exists (report_of <$> shards). split.
  - apply Forall2_fmap_r, Forall_Forall2_diag, Forall_forall. intros s _.
    rewrite (report_spec context coins summary Hsum), Heq. split; [done|]. unfold report_of.
    destruct (shard_parts context coins summary s) as [|p ps] eqn:E; [done|]. rewrite <- E.
    pose proof (report_valid context coins summary Hsum s) as Hv. rewrite E in Hv. specialize (Hv ltac:(done)). rewrite <- E in Hv.
    eexists. split; [by apply encode_form|]. apply decode_encode; [done| |constructor|by apply encode_form].
    apply Forall_forall. by apply (parts_fit context coins summary Hsum).
  - rewrite <- (fold_pieces context coins summary Hsum shards Hpart t (fun _ => []) Hb). do 2 f_equal.
    rewrite zip_with_fmap_r, zip_with_diag. apply list_fmap_ext. intros _ s _. by rewrite Heq.
Qed.

Lemma reports_fold_to_root_witness :
  exists r r' t reports,
    Forall2 (fun s rep => report_from_summary CoinDemo.ctx s (ReportDemo.summary r r') [] = Ok rep) ReportDemo.shards reports /\
    fold_application_root CoinDemo.ctx (concat (zip_with layers_of ReportDemo.shards reports)) = Ok (sharded_root t).
Proof.
  destruct ReportDemo.application_summarised as (r & r' & Hs).
  destruct (sharded_build_spec CoinDemo.ctx _ ReportDemo.coins (su_shardable _ _ _ Hs)) as (t & Hb & _).
  destruct (reports_fold_to_root CoinDemo.byte_key CoinDemo.byte_key_lawful CoinDemo.ctx ReportDemo.coins (ReportDemo.summary r r')
              ReportDemo.shards t eq_refl Hs (ReportDemo.application_partitioned r r') Hb) as (reports & Hr & Hf).
  exists r, r', t, reports. split; [|exact Hf].
  eapply Forall2_impl; [exact Hr|]. intros s rep [H _]. exact H.
Defined.
