(* ===== verification/SummaryTree.v ===== *)
(** * The stored block summary

    [crates/quil-execution/src/token_intrinsic/summary_tree.rs] with the parts of
    [state.rs], [roots.rs], [shard_accumulator.rs] and of the change set of
    [hypergraph_state.rs] it uses: the flat summary record, the binary tree over
    block ids whose nodes are records, and the report read from it.

    A store is the list of staged record mutations over the durable records, and
    the vertices of the applications; node-local records shadow a vertex at the
    same address.  A [BTreeMap] is a [gmap], visited in ascending order. *)

From stdpp Require Import gmap sorting.
From S2P Require Import Prelude Bytes Merkle CoinTree CoinTreeCorrect ShardedTree CoinBlocks ShardReports.

(** ** Records *)

(** [RecordMutation] of the change set, oldest first, over the durable records. *)
Record Store : Type := mkStore {
  changeset : list (bytes * option bytes);
  durable : bytes -> option bytes;
  vertex : bytes -> bytes -> option bytes;
}.

(** [HypergraphState::stage_records] (one mutation) and [get_record] *)
Definition stage_record (key : bytes) (value : option bytes) (s : Store) : Store :=
  mkStore (changeset s ++ [(key, value)]) (durable s) (vertex s).
Definition get_record (s : Store) (key : bytes) : option bytes :=
  match List.find (fun change => bool_decide (change.1 = key)) (reverse (changeset s)) with
  | Some change => change.2
  | None => durable s key
  end.

(** ["quil/accumulator/local/v1\0"] *)
Definition LOCAL_RECORD_PREFIX : bytes :=
  z2b <$> [113; 117; 105; 108; 47; 97; 99; 99; 117; 109; 117; 108; 97; 116; 111; 114; 47; 108; 111; 99; 97; 108; 47; 118; 49; 0].
Definition local_record_key (application address : bytes) : bytes := LOCAL_RECORD_PREFIX ++ application ++ address.

(** [read_local], [write_local] *)
Definition read_local (s : Store) (application address : bytes) : option bytes :=
  match get_record s (local_record_key application address) with
  | Some value => Some value
  | None => vertex s application address
  end.
Definition write_local (application address value : bytes) (s : Store) : Store :=
  stage_record (local_record_key application address) (Some value) s.

(** A step that only writes. *)
Definition st_write (f : Store -> Store) : st Store unit := fun s => (Ok tt, f s).

Definition BLOCK_SUMMARY_ADDRESS : bytes := replicate 31 (z2b 255) ++ [z2b 249].

(** ** Tree records *)

Definition LEVELS : nat := BLOCK_INDEX_BITS.
Definition NODE_TAG : Z := 244.
Definition MOVED : bytes := z2b <$> [81; 67; 84; 51; 66; 83; 0; 2].
Definition HEADER : nat := 16.
Definition CLEARED : bytes := replicate HEADER (z2b 0).

Definition node_address (level : nat) (index : Z) : bytes :=
  replicate 23 (z2b 255) ++ [z2b NODE_TAG; z2b (Z.of_nat level)] ++ replicate 5 (z2b 255) ++ be_bytes 2 index.

Definition is_node_address (address : bytes) : bool :=
  let level := Z.to_nat (b2z (nth 24 address (z2b 0))) in
  let index := be_Z (slice 30 2 address) in
  forallb (fun b => b2z b =? 255) (take 23 address)
  && (b2z (nth 23 address (z2b 0)) =? NODE_TAG)
  && (level <=? LEVELS)%nat
  && forallb (fun b => b2z b =? 255) (slice 25 5 address)
  && (index <? 2 ^ Z.of_nat (LEVELS - level)).

Section summary.
Context {Membership : MembershipKey}.

Definition RECORD : nat := HEADER + NODE_BYTES.
Record TreeNode : Type := mkTreeNode { tn_coins : Z; tn_blocks : Z; tn_node : MNode }.
#[export] Instance TreeNode_eq_dec : EqDecision TreeNode.
Proof. solve_decision. Defined.

(** [TreeNode::encode], [TreeNode::decode] *)
Definition tree_encode (n : TreeNode) : bytes := be_bytes 8 (tn_coins n) ++ be_bytes 8 (tn_blocks n) ++ to_bytes (tn_node n).
Definition tree_decode (bs : bytes) (level : nat) : outcome (option TreeNode) :=
  if bool_decide (bs = CLEARED) then Ok None
  else if negb (length bs =? RECORD)%nat || (LEVELS <? level)%nat then Err InvalidArgument
  else
    let coins := be_Z (take 8 bs) in
    let blocks := be_Z (slice 8 8 bs) in
    if (blocks =? 0) || (2 ^ Z.of_nat level <? blocks) || (coins <? blocks) then Err InvalidArgument
    else match from_bytes (drop HEADER bs) with
         | None => Err InvalidArgument
         | Some n => Ok (Some (mkTreeNode coins blocks n))
         end.

(** [read_node], [top], [subtree] *)
Definition read_node (s : Store) (application : bytes) (level : nat) (index : Z) : outcome (option TreeNode) :=
  if (LEVELS <? level)%nat || (2 ^ Z.of_nat (LEVELS - level) <=? index) then Err InvalidArgument
  else match read_local s application (node_address level index) with
       | Some bs => tree_decode bs level
       | None => Ok None
       end.
Definition top (s : Store) (application : bytes) : outcome (option TreeNode) := read_node s application LEVELS 0.
Definition subtree (s : Store) (application : bytes) (level : nat) (index : Z) : outcome (option TreeNode) :=
  if (level <? SUBTREE_BITS)%nat then Err InvalidArgument
  else if (255 <? level - SUBTREE_BITS)%nat then Err InvalidArgument
  else read_node s application (level - SUBTREE_BITS) index.

(** ** The flat summary record *)

Local Abbreviation entry := (Z * Z * MNode)%type.
Definition ENTRY : nat := 8 + 8 + NODE_BYTES.

(** [BlockSummary::encode], [BlockSummary::decode] *)
Definition put_entry (e : entry) : bytes := be_bytes 8 (e_block e) ++ be_bytes 8 (e_coins e) ++ to_bytes (e_root e).
Definition get_entry (bs : bytes) : outcome entry :=
  match from_bytes (drop 16 bs) with
  | None => Err InvalidArgument
  | Some n => Ok (be_Z (take 8 bs), be_Z (slice 8 8 bs), n)
  end.
Definition summary_encode (summary : list entry) : bytes := concat (put_entry <$> summary).
Definition summary_decode (bs : bytes) : outcome (list entry) :=
  if negb (length bs mod ENTRY =? 0)%nat || (MAX_NONEMPTY_BLOCKS <? length bs / ENTRY)%nat then Err InvalidArgument
  else blocks ← try_map get_entry (chunks (length bs / ENTRY) ENTRY bs);
       if not_ascending e_block blocks then Err InvalidArgument else Ok blocks.

(** [legacy_summary] *)
Definition legacy_summary (s : Store) (application : bytes) : outcome (option (list entry)) :=
  match read_local s application BLOCK_SUMMARY_ADDRESS with
  | Some bs => if bool_decide (bs = MOVED) then Ok None else blocks ← summary_decode bs; Ok (Some blocks)
  | None => Ok None
  end.

(** ** Reading every node *)

(** The loop of [stored_positions] over its stack, last pushed first. *)
Fixpoint positions_loop (fuel : nat) (s : Store) (application : bytes) (pending : list (nat * Z))
    (found : list (nat * Z * TreeNode)) : outcome (list (nat * Z * TreeNode)) :=
  match fuel with
  | O => Panic
  | S fuel' =>
      match pending with
      | [] => Ok found
      | (level, index) :: rest =>
          n ← read_node s application level index;
          match n with
          | None => positions_loop fuel' s application rest found
          | Some nd =>
              let pending' := match level with
                              | O => rest
                              | S l => (l, Z.shiftl index 1) :: (l, Z.lor (Z.shiftl index 1) 1) :: rest
                              end in
              positions_loop fuel' s application pending' (found ++ [(level, index, nd)])
          end
      end
  end.
Definition POSITIONS_FUEL : nat := Z.to_nat (2 ^ Z.of_nat (S (S LEVELS))).
Definition stored_positions (s : Store) (application : bytes) : outcome (list (nat * Z * TreeNode)) :=
  positions_loop POSITIONS_FUEL s application [(LEVELS, 0)] [].

(** [entries] *)
Definition entries (s : Store) (application : bytes) : outcome (list entry) :=
  found ← stored_positions s application;
  Ok ((fun p : nat * Z * TreeNode => (p.1.2, tn_coins p.2, tn_node p.2)) <$> List.filter (fun p => (p.1.1 =? 0)%nat) found).

(** ** Writing the tree *)

(** [SummaryTree]: the key and the zero subtrees, derived once per use. *)
Record SummaryTree : Type := mkSummaryTree { s_application : bytes; st_key : Key; st_zeros : list MNode }.
Definition new_summary_tree (context application : bytes) : SummaryTree :=
  mkSummaryTree application (derive context) (zero_nodes (derive context) (SUBTREE_BITS + LEVELS)).

Section tree.
Context (t : SummaryTree).
Local Abbreviation app := (s_application t).

(** [SummaryTree::root] *)
Definition tree_root (s : Store) : outcome MNode :=
  n ← top s app;
  Ok match n with Some nd => tn_node nd | None => zero_of (st_zeros t) (SUBTREE_BITS + LEVELS) end.

(** [SummaryTree::write] *)
Definition write_node (level : nat) (index : Z) (node : option TreeNode) (s : Store) : Store :=
  write_local app (node_address level index) (match node with Some n => tree_encode n | None => CLEARED end) s.

(** [SummaryTree::parent] *)
Definition field (f : TreeNode -> Z) (n : option TreeNode) : Z := match n with Some nd => f nd | None => 0 end.
Definition sum_field (f : TreeNode -> Z) (left right : option TreeNode) : outcome Z :=
  ok_or (checked_add_u64 (field f left) (field f right)) InvalidArgument.
Definition tree_parent (level : nat) (left right : option TreeNode) : outcome (option TreeNode) :=
  match left, right with
  | None, None => Ok None
  | _, _ =>
      let zero := zero_of (st_zeros t) (SUBTREE_BITS + level) in
      coins ← sum_field tn_coins left right;
      blocks ← sum_field tn_blocks left right;
      Ok (Some (mkTreeNode coins blocks
            (parent (st_key t) (match left with Some n => tn_node n | None => zero end)
               (match right with Some n => tn_node n | None => zero end))))
  end.

(** [SummaryTree::leaf_level] *)
Fixpoint leaf_level (leaves : list entry) (level : gmap Z (option TreeNode)) : outcome (gmap Z (option TreeNode)) :=
  match leaves with
  | [] => Ok level
  | e :: rest =>
      if 2 ^ Z.of_nat LEVELS <=? e_block e then Err InvalidArgument
      else
        let leaf := if 0 <? e_coins e then Some (mkTreeNode (e_coins e) 1 (e_root e)) else None in
        match level !! e_block e with
        | Some _ => Err InvalidArgument
        | None => leaf_level rest (<[e_block e := leaf]> level)
        end
  end.

(** [SummaryTree::check_cap] *)
Definition check_cap (s : Store) : outcome unit :=
  n ← top s app;
  match n with
  | Some nd => if Z.of_nat MAX_NONEMPTY_BLOCKS <? tn_blocks nd then Err InvalidArgument else Ok tt
  | None => Ok tt
  end.

(** The entries of a map and the elements of a set, ascending. *)
Definition ascending_entries {A} (m : gmap Z A) : list (Z * A) := sort_by fst (map_to_list m).
Definition parents_of {A} (m : gmap Z A) : list Z :=
  sort_by id (elements (set_map (fun i => Z.shiftr i 1) (dom m) : gset Z)).

(** [update]: the leaves that differ from the stored ones. *)
Fixpoint changed_leaves (s : Store) (leaves : list (Z * option TreeNode)) : outcome (gmap Z (option TreeNode)) :=
  match leaves with
  | [] => Ok ∅
  | (block, leaf) :: rest =>
      stored ← read_node s app 0 block;
      changed ← changed_leaves s rest;
      Ok (if bool_decide (stored = leaf) then changed else <[block := leaf]> changed)
  end.

(** [update]: the writes of one level and the changed parents above it. *)
Definition write_level (level : nat) (nodes : gmap Z (option TreeNode)) (s : Store) : Store :=
  foldl (fun s e => write_node level e.1 e.2 s) s (ascending_entries nodes).
Definition child (s : Store) (level : nat) (changed : gmap Z (option TreeNode)) (index : Z) : outcome (option TreeNode) :=
  match changed !! index with
  | Some n => Ok n
  | None => read_node s app level index
  end.
Fixpoint changed_parents (s : Store) (level : nat) (changed : gmap Z (option TreeNode)) (parents : list Z)
  : outcome (gmap Z (option TreeNode)) :=
  match parents with
  | [] => Ok ∅
  | p :: rest =>
      left ← child s level changed (Z.shiftl p 1);
      right ← child s level changed (Z.lor (Z.shiftl p 1) 1);
      node ← tree_parent level left right;
      stored ← read_node s app (S level) p;
      above ← changed_parents s level changed rest;
      Ok (if bool_decide (stored = node) then above else <[p := node]> above)
  end.
Fixpoint update_loop (levels level : nat) (changed : gmap Z (option TreeNode)) : st Store unit := fun s =>
  let s' := write_level level changed s in
  match levels with
  | O => (Ok tt, s')
  | S n =>
      match changed_parents s' level changed (parents_of changed) with
      | Ok parents => update_loop n (S level) parents s'
      | Err e => (Err e, s')
      | Panic => (Panic, s')
      end
  end.

(** [SummaryTree::update] *)
Definition update (leaves : list entry) : st Store unit :=
  changed ← st_read (fun s => ls ← leaf_level leaves ∅; changed_leaves s (ascending_entries ls));
  _ ← update_loop LEVELS 0 changed;
  st_read check_cap.

(** [replace]: the nodes above a level, and the writes of one level. *)
Fixpoint replace_parents (level : nat) (nodes : gmap Z TreeNode) (parents : list Z) : outcome (gmap Z TreeNode) :=
  match parents with
  | [] => Ok ∅
  | p :: rest =>
      node ← tree_parent level (nodes !! Z.shiftl p 1) (nodes !! Z.lor (Z.shiftl p 1) 1);
      above ← replace_parents level nodes rest;
      Ok (match node with Some n => <[p := n]> above | None => above end)
  end.
Definition replace_level (stale : gmap (nat * Z) TreeNode) (level : nat) (nodes : gmap Z TreeNode) (s : Store) : Store :=
  foldl (fun s e => if bool_decide (stale !! (level, e.1) = Some e.2) then s else write_node level e.1 (Some e.2) s)
    s (ascending_entries nodes).
Fixpoint replace_loop (levels level : nat) (stale : gmap (nat * Z) TreeNode) (nodes : gmap Z TreeNode) (kept : gset (nat * Z))
  : st Store (gset (nat * Z)) := fun s =>
  let s' := replace_level stale level nodes s in
  let kept' := kept ∪ set_map (fun i => (level, i)) (dom nodes) in
  match levels with
  | O => (Ok kept', s')
  | S n =>
      match replace_parents level nodes (parents_of nodes) with
      | Ok parents => replace_loop n (S level) stale parents kept' s'
      | Err e => (Err e, s')
      | Panic => (Panic, s')
      end
  end.
Definition clear_stale (stale : gmap (nat * Z) TreeNode) (kept : gset (nat * Z)) (s : Store) : Store :=
  foldl (fun s p => write_node p.1.1 p.1.2 None s) s (List.filter (fun p => bool_decide (p.1 ∉ kept)) (map_to_list stale)).

Definition stale_nodes (s : Store) : outcome (gmap (nat * Z) TreeNode) :=
  found ← stored_positions s app; Ok (list_to_map (M := gmap (nat * Z) TreeNode) found).
Definition live_leaves (leaves : list entry) : outcome (gmap Z TreeNode) :=
  ls ← leaf_level leaves ∅; Ok (omap (M := gmap Z) id ls).

(** [SummaryTree::replace] *)
Definition replace (leaves : list entry) : st Store unit :=
  stale ← st_read stale_nodes;
  nodes ← st_read (fun _ => live_leaves leaves);
  kept ← replace_loop LEVELS 0 stale nodes ∅;
  _ ← st_write (clear_stale stale kept);
  st_read check_cap.

(** [SummaryTree::upgrade] *)
Definition upgrade : st Store bool :=
  flat ← st_read (fun s => legacy_summary s app);
  match flat with
  | None => mret false
  | Some blocks =>
      _ ← replace blocks;
      _ ← st_write (write_local app BLOCK_SUMMARY_ADDRESS MOVED);
      mret true
  end.
End tree.

(** ** A shard's report from the stored summary *)

(** [shard_report]: one stored node per width, or the flat summary. *)
Fixpoint stored_layers (s : Store) (application : bytes) (shard : list bool) (widths : list nat) : outcome (list SubtreeReport) :=
  match widths with
  | [] => Ok []
  | w :: rest =>
      if (w <? length shard)%nat then stored_layers s application shard rest
      else
        p ← subtree_position w shard;
        n ← subtree s application p.1 p.2;
        subs ← stored_layers s application shard rest;
        Ok (match n with Some nd => mkSubtree w (tn_coins nd) (tn_node nd) :: subs | None => subs end)
  end.
Definition shard_report (context application : bytes) (shard : list bool) (atts : list BlockAttestation) (s : Store)
  : outcome (option ShardReport) :=
  flat ← legacy_summary s application;
  match flat with
  | Some summary => report_from_summary context shard summary atts
  | None =>
      subs ← stored_layers s application shard (seq INITIAL_BLOCK_BITS (S MAX_BLOCK_BITS - INITIAL_BLOCK_BITS));
      match subs, atts with
      | [], [] => Ok None
      | _, _ => Ok (Some (mkReport context subs atts))
      end
  end.

(** [summary_coins] and [block_summary] of [roots.rs] *)
Definition summary_coins (s : Store) (application : bytes) : outcome Z :=
  flat ← legacy_summary s application;
  match flat with
  | Some summary => ck_u64 (foldr (fun e total => e_coins e + total) 0 summary)
  | None => n ← top s application; Ok (field tn_coins n)
  end.
Definition block_summary (s : Store) (application : bytes) : outcome (list entry) :=
  flat ← legacy_summary s application;
  match flat with
  | Some summary => Ok summary
  | None => entries s application
  end.
End summary.
