(* ===== verification/SummaryCorrect.v ===== *)
(** * The stored block summary is the tree over its blocks

    Every node record of the stored summary is the node of the tree over the
    blocks' roots with the coins and blocks under it; [update] and [replace] keep
    it so while rewriting only what changed, and a report read from single nodes
    is the report folded from the whole summary. *)

From stdpp Require Import gmap sorting.
From S2P Require Import Prelude Bytes Merkle CoinTree CoinTreeCorrect ShardedTree ShardedCorrect CoinBlocks ShardReports ReportsCorrect SummaryTree.

(** ** Records *)

Lemma st_bind_run {S A B} (m : st S A) (f : A -> st S B) s a s' : m s = (Ok a, s') -> (m ≫= f) s = f a s'.
Proof. intros E. unfold mbind, st_bind. by rewrite E. Qed.

Lemma get_record_stage key v s key' :
  get_record (stage_record key v s) key' = if bool_decide (key = key') then v else get_record s key'.
Proof.
  unfold get_record, stage_record. cbn [changeset durable]. rewrite reverse_snoc. cbn [List.find fst].
  by destruct (bool_decide (key = key')).
Qed.

Lemma local_key_inj application address address' :
  local_record_key application address = local_record_key application address' -> address = address'.
Proof. unfold local_record_key. intros E. by apply app_inv_head, app_inv_head in E. Qed.

Lemma read_write_local application address value s address' :
  read_local (write_local application address value s) application address' =
  if bool_decide (address = address') then Some value else read_local s application address'.
Proof.
  unfold read_local, write_local. rewrite get_record_stage. cbn [vertex stage_record].
  destruct (bool_decide_reflect (address = address')) as [->|Hne].
  - by rewrite bool_decide_eq_true_2.
  - by rewrite bool_decide_eq_false_2 by (intros ?%local_key_inj; done).
Qed.

Lemma length_node_address level index : length (node_address level index) = 32%nat.
Proof. unfold node_address. rewrite !length_app, !length_replicate, length_be_bytes. done. Qed.

Lemma LEVELS_value : LEVELS = 16%nat.
Proof. done. Qed.

(** Positions of the tree. *)
Definition in_tree (level : nat) (index : Z) : Prop := (level <= LEVELS)%nat /\ 0 <= index < 2 ^ Z.of_nat (LEVELS - level).

Lemma in_tree_index level index : in_tree level index -> 0 <= index < 2 ^ 16.
Proof.
  intros [_ Hi]. assert (2 ^ Z.of_nat (LEVELS - level) <= 2 ^ 16) by (apply Z.pow_le_mono_r; rewrite ?LEVELS_value; lia). lia.
Qed.

Lemma node_address_inj level index level' index' :
  in_tree level index -> in_tree level' index' -> node_address level index = node_address level' index' ->
  level = level' /\ index = index'.
Proof.
  intros H H' E. pose proof (in_tree_index _ _ H). pose proof (in_tree_index _ _ H'). destruct H as [Hl _], H' as [Hl' _].
  rewrite LEVELS_value in *. split.
  - apply (f_equal (fun a => b2z (nth 24 a (z2b 0)))) in E.
    change (b2z (z2b (Z.of_nat level)) = b2z (z2b (Z.of_nat level'))) in E. rewrite !b2z_z2b, !Z.mod_small in E by lia. lia.
  - apply (f_equal (fun a => be_Z (drop 30 a))) in E.
    change (be_Z (be_bytes 2 index) = be_Z (be_bytes 2 index')) in E. by rewrite !be_Z_be_bytes_small in E by (simpl; lia).
Qed.

Lemma node_address_moved level index : node_address level index <> BLOCK_SUMMARY_ADDRESS.
Proof.
  intros E. apply (f_equal (fun l => nth 23 l (z2b 0))) in E. unfold node_address in E.
  rewrite app_nth2 in E by (rewrite length_replicate; lia). rewrite length_replicate in E. done.
Qed.

(** The addresses of the tree are recognised. *)
Lemma is_node_address_true level index : in_tree level index -> is_node_address (node_address level index) = true.
Proof.
  intros Ht. pose proof (in_tree_index _ _ Ht). destruct Ht as [Hl Hi]. unfold is_node_address, node_address.
  assert (E24 : b2z (z2b (Z.of_nat level)) = Z.of_nat level) by (rewrite b2z_z2b, Z.mod_small; rewrite LEVELS_value in Hl; lia).
  change (nth 24 _ _) with (z2b (Z.of_nat level)). change (slice 30 2 _) with (take 2 (be_bytes 2 index)).
  rewrite E24, Nat2Z.id. rewrite (take_ge (be_bytes 2 index)) by (rewrite length_be_bytes; lia).
  rewrite be_Z_be_bytes_small by (simpl; lia). rewrite !andb_true_iff, Nat.leb_le, Z.ltb_lt. repeat split; done || lia.
Qed.

Section records.
Context {Membership : MembershipKey} {Lawful : LawfulNodes}.

(** A node of level [l] that its record can hold. *)
Definition storable (l : nat) (n : TreeNode) : Prop :=
  1 <= tn_blocks n <= 2 ^ Z.of_nat l /\ tn_blocks n <= tn_coins n <= u64_max.

Lemma tree_decode_encode l n : (l <= LEVELS)%nat -> storable l n -> tree_decode (tree_encode n) l = Ok (Some n).
Proof.
  intros Hl [Hb Hc]. rewrite LEVELS_value in Hl.
  assert (2 ^ Z.of_nat l <= 2 ^ 16) by (apply Z.pow_le_mono_r; lia).
  assert (E1 : be_Z (take 8 (tree_encode n)) = tn_coins n).
  { unfold tree_encode. rewrite take_app_length' by (by rewrite length_be_bytes). apply be_u64. unfold in_u64. lia. }
  assert (E2 : be_Z (slice 8 8 (tree_encode n)) = tn_blocks n).
  { unfold tree_encode. rewrite slice_app by apply length_be_bytes. apply be_u64. unfold in_u64, u64_max. lia. }
  assert (E3 : drop HEADER (tree_encode n) = to_bytes (tn_node n)).
  { unfold tree_encode. rewrite app_assoc. apply drop_app_length'. by rewrite length_app, !length_be_bytes. }
  assert (E4 : length (tree_encode n) = RECORD).
  { unfold tree_encode. rewrite !length_app, !length_be_bytes, to_bytes_length. done. }
  unfold tree_decode. rewrite bool_decide_eq_false_2.
  2:{ intros E. rewrite E in E1. change (be_Z (take 8 CLEARED)) with 0 in E1. lia. }
  rewrite E1, E2, E3, E4, Nat.eqb_refl, from_to_bytes. rewrite (proj2 (Nat.ltb_ge _ _)) by (rewrite LEVELS_value; lia). cbn [negb orb]. cbv zeta.
  destruct (Z.eqb_spec (tn_blocks n) 0); [lia|]. destruct (Z.ltb_spec (2 ^ Z.of_nat l) (tn_blocks n)); [lia|].
  destruct (Z.ltb_spec (tn_coins n) (tn_blocks n)); [lia|]. by destruct n.
Qed.

Lemma tree_decode_cleared l : tree_decode CLEARED l = Ok None.
Proof. unfold tree_decode. by rewrite bool_decide_eq_true_2. Qed.

Context (t : SummaryTree).
Local Abbreviation app := (s_application t).
Local Abbreviation read s l i := (read_node s app l i).

Definition opt_storable (l : nat) (n : option TreeNode) : Prop := match n with Some nd => storable l nd | None => True end.

Lemma read_write_node l i n s l' i' :
  in_tree l i -> in_tree l' i' -> opt_storable l n ->
  read (write_node t l i n s) l' i' = if bool_decide ((l, i) = (l', i')) then Ok n else read s l' i'.
Proof.
  intros Hi Hi' Hn. unfold read_node. destruct Hi' as [Hl' Hx'] eqn:Eh.
  rewrite (proj2 (Nat.ltb_ge _ _)) by done. rewrite (proj2 (Z.leb_gt _ _)) by lia. cbn [orb].
  unfold write_node. rewrite read_write_local. destruct (bool_decide_reflect ((l, i) = (l', i'))) as [[= -> ->]|Hne].
  - rewrite bool_decide_eq_true_2 by done. destruct n as [nd|]; [by apply tree_decode_encode|apply tree_decode_cleared].
  - rewrite bool_decide_eq_false_2; [done|]. intros E. apply node_address_inj in E as [-> ->]; [done..|by split].
Qed.

(** Writing a list of entries of one level. *)
Lemma read_write_entries l (es : list (Z * option TreeNode)) : forall s l' i',
  NoDup (fst <$> es) -> Forall (fun e => in_tree l e.1 /\ opt_storable l e.2) es -> in_tree l' i' ->
  read (foldl (fun s e => write_node t l e.1 e.2 s) s es) l' i' =
  match (if (l =? l')%nat then (list_to_map es : gmap Z (option TreeNode)) !! i' else None) with
  | Some n => Ok n
  | None => read s l' i'
  end.
Proof.
  induction es as [|[i n] es IH]; intros s l' i' Hnd Hf Hi'; cbn [foldl fst snd]; [by destruct (l =? l')%nat|].
  cbn [fmap list_fmap] in Hnd. apply NoDup_cons in Hnd as [Hi Hnd]. apply Forall_cons in Hf as [[Hti Hs] Hf].
  rewrite IH by done. cbn [list_to_map foldr uncurry]. rewrite read_write_node by done.
  destruct (Nat.eqb_spec l l') as [->|Hl].
  - change (list_to_map ((i, n) :: es)) with (<[i := n]> (list_to_map es : gmap Z (option TreeNode))).
    destruct (decide (i = i')) as [->|Hne].
    + rewrite lookup_insert_eq. rewrite not_elem_of_list_to_map_1 by done. by rewrite bool_decide_eq_true_2.
    + rewrite lookup_insert_ne by done. destruct (list_to_map es !! i'); [done|]. rewrite bool_decide_eq_false_2; [done|congruence].
  - rewrite bool_decide_eq_false_2; [done|congruence].
Qed.

Lemma ascending_entries_perm {A} (m : gmap Z A) : ascending_entries m ≡ₚ map_to_list m.
Proof. apply sort_by_perm. Qed.

Lemma ascending_entries_map {A} (m : gmap Z A) : NoDup (fst <$> ascending_entries m) /\ list_to_map (ascending_entries m) = m.
Proof.
  assert (Hnd : NoDup (fst <$> ascending_entries m)) by (rewrite ascending_entries_perm; apply NoDup_fst_map_to_list).
  split; [done|]. rewrite (list_to_map_proper _ (map_to_list m)); [apply list_to_map_to_list|done|apply ascending_entries_perm].
Qed.

Lemma read_write_level l nodes s l' i' :
  map_Forall (fun i n => in_tree l i /\ opt_storable l n) nodes -> in_tree l' i' ->
  read (write_level t l nodes s) l' i' =
  match (if (l =? l')%nat then nodes !! i' else None) with Some n => Ok n | None => read s l' i' end.
Proof.
  intros Hf Hi'. destruct (ascending_entries_map nodes) as [Hnd Em]. unfold write_level. rewrite read_write_entries, Em; [done|done| |done].
  apply Forall_forall. intros [i n] Hin. rewrite ascending_entries_perm in Hin. apply elem_of_map_to_list in Hin. by apply Hf.
Qed.
End records.

(** ** The tree over a set of blocks *)

Section spec.
Context {Membership : MembershipKey}.
Variable context : bytes.
Local Abbreviation key := (derive context).

(** What a summary holds: coins and root by block. *)
Local Abbreviation contents := (gmap Z (Z * MNode)).

Definition node_or (l : nat) (n : option TreeNode) : MNode :=
  match n with Some nd => tn_node nd | None => zero_at key (SUBTREE_BITS + l) end.
Definition join (l : nat) (a b : option TreeNode) : option TreeNode :=
  match a, b with
  | None, None => None
  | _, _ => Some (mkTreeNode (field tn_coins a + field tn_coins b) (field tn_blocks a + field tn_blocks b)
                    (parent key (node_or l a) (node_or l b)))
  end.
Fixpoint tnode (c : contents) (l : nat) (i : Z) : option TreeNode :=
  match l with
  | O => match c !! i with Some (n, r) => Some (mkTreeNode n 1 r) | None => None end
  | S l' => join l' (tnode c l' (2 * i)) (tnode c l' (2 * i + 1))
  end.

(** Blocks of the id space, with coins. *)
Definition lawful (c : contents) : Prop := map_Forall (fun b e => 0 <= b < 2 ^ Z.of_nat LEVELS /\ 0 < e.1) c.

Lemma field_join f l a b :
  (forall n m, f (mkTreeNode (field tn_coins n + field tn_coins m) (field tn_blocks n + field tn_blocks m) (parent key (node_or l n) (node_or l m))) =
     field f n + field f m) ->
  field f (join l a b) = field f a + field f b.
Proof.
  intros Hf. unfold join. destruct a as [a|], b as [b|]; [| | |done]; cbn [field];
    [exact (Hf (Some a) (Some b))|exact (Hf (Some a) None)|exact (Hf None (Some b))].
Qed.

Lemma field_tnode_S c l i :
  field tn_coins (tnode c (S l) i) = field tn_coins (tnode c l (2 * i)) + field tn_coins (tnode c l (2 * i + 1)) /\
  field tn_blocks (tnode c (S l) i) = field tn_blocks (tnode c l (2 * i)) + field tn_blocks (tnode c l (2 * i + 1)).
Proof. cbn [tnode]. split; by apply field_join. Qed.

Lemma tnode_bounds c l : lawful c -> forall i,
  0 <= field tn_blocks (tnode c l i) <= 2 ^ Z.of_nat l /\ field tn_blocks (tnode c l i) <= field tn_coins (tnode c l i) /\
  (is_Some (tnode c l i) <-> 1 <= field tn_blocks (tnode c l i)).
Proof.
  intros Hc. induction l as [|l IH]; intros i.
  - cbn [tnode]. destruct (c !! i) as [[n r]|] eqn:E; cbn [field tn_blocks tn_coins].
    + apply Hc in E as [_ E]. simpl in E. rewrite Z.pow_0_r. split; [lia|]. split; [lia|]. split; [lia|by eexists].
    + rewrite Z.pow_0_r. split; [lia|]. split; [lia|]. split; [by intros [? ?]|lia].
  - destruct (field_tnode_S c l i) as [-> ->]. destruct (IH (2 * i)) as (B1 & C1 & S1), (IH (2 * i + 1)) as (B2 & C2 & S2).
    rewrite pow2_S. split; [lia|]. split; [lia|]. cbn [tnode]. unfold join. split.
    + destruct (tnode c l (2 * i)) as [a|]; [pose proof (proj1 S1 ltac:(eauto)); lia|].
      destruct (tnode c l (2 * i + 1)) as [b|]; [pose proof (proj1 S2 ltac:(eauto)); lia|]. by intros [? ?].
    + intros H. destruct (tnode c l (2 * i)) as [a|]; [destruct (tnode c l (2 * i + 1)); by eexists|].
      destruct (tnode c l (2 * i + 1)) as [b|]; [by eexists|]. simpl in H. lia.
Qed.

(** A node holds at most what is above it. *)
Lemma tnode_le_above c l k i : lawful c -> field tn_coins (tnode c l i) <= field tn_coins (tnode c (k + l) (i / 2 ^ Z.of_nat k)).
Proof.
  intros Hc. induction k as [|k IH]; [by rewrite Z.pow_0_r, Z.div_1_r|]. etrans; [exact IH|].
  change (S k + l)%nat with (S (k + l)). destruct (field_tnode_S c (k + l) (i / 2 ^ Z.of_nat (S k))) as [-> _].
  rewrite div_pow_S. set (q := i / 2 ^ Z.of_nat k).
  destruct (tnode_bounds c (k + l) Hc (2 * (q / 2))) as ([? _] & ? & _), (tnode_bounds c (k + l) Hc (2 * (q / 2) + 1)) as ([? _] & ? & _).
  destruct (Z.mod_pos_bound q 2 ltac:(lia)). pose proof (Z.div_mod q 2 ltac:(lia)) as E.
  destruct (decide (q mod 2 = 0)) as [E0|E0].
  - replace q with (2 * (q / 2)) at 1 by lia. lia.
  - replace q with (2 * (q / 2) + 1) at 1 by lia. lia.
Qed.

(** The coins fit their field. *)
Definition counted (c : contents) : Prop := field tn_coins (tnode c LEVELS 0) <= u64_max.

Lemma tnode_counted c l i : lawful c -> counted c -> in_tree l i -> field tn_coins (tnode c l i) <= u64_max.
Proof.
  intros Hc Ht [Hl Hi]. pose proof (tnode_le_above c l (LEVELS - l) i Hc) as H.
  replace (LEVELS - l + l)%nat with LEVELS in H by lia. rewrite Z.div_small in H by done. unfold counted in Ht. lia.
Qed.

Lemma tnode_storable c l i : lawful c -> counted c -> in_tree l i -> opt_storable l (tnode c l i).
Proof.
  intros Hc Ht Hi. pose proof (tnode_counted c l i Hc Ht Hi). destruct (tnode_bounds c l Hc i) as (Hb & Hbc & Hs).
  unfold opt_storable. destruct (tnode c l i) as [n|]; [|done]. pose proof (proj1 Hs ltac:(eauto)). cbn [field] in *. unfold storable. lia.
Qed.

(** [parent] computes the node above two children. *)
Lemma tree_parent_join application l a b :
  (l <= LEVELS)%nat -> 0 <= field tn_blocks a -> 0 <= field tn_blocks b -> field tn_coins a + field tn_coins b <= u64_max ->
  field tn_blocks a <= field tn_coins a -> field tn_blocks b <= field tn_coins b ->
  tree_parent (new_summary_tree context application) l a b = Ok (join l a b).
Proof.
  intros Hl Ha Hb Hc Ha' Hb'. unfold tree_parent, join, sum_field, checked_add_u64. cbn [st_zeros st_key new_summary_tree]. cbv zeta.
  rewrite zero_of_nodes by lia.
  assert (E1 : (field tn_coins a + field tn_coins b <=? u64_max) = true) by (apply Z.leb_le; lia).
  assert (E2 : (field tn_blocks a + field tn_blocks b <=? u64_max) = true) by (apply Z.leb_le; lia).
  rewrite E1, E2. by destruct a as [a|], b as [b|].
Qed.

Lemma parent_tnode application c l i :
  lawful c -> counted c -> in_tree (S l) i ->
  tree_parent (new_summary_tree context application) l (tnode c l (2 * i)) (tnode c l (2 * i + 1)) = Ok (tnode c (S l) i).
Proof.
  intros Hc Ht Hi. pose proof (tnode_counted c (S l) i Hc Ht Hi) as Hle. destruct (field_tnode_S c l i) as [E _]. rewrite E in Hle.
  destruct (tnode_bounds c l Hc (2 * i)) as ([? _] & ? & _), (tnode_bounds c l Hc (2 * i + 1)) as ([? _] & ? & _).
  destruct Hi as [Hl _]. apply tree_parent_join; lia.
Qed.

Lemma in_tree_children l i : in_tree (S l) i -> in_tree l (2 * i) /\ in_tree l (2 * i + 1).
Proof.
  intros [Hl Hi]. replace (LEVELS - l)%nat with (S (LEVELS - S l)) by lia.
  unfold in_tree. replace (LEVELS - l)%nat with (S (LEVELS - S l)) by lia. rewrite pow2_S. lia.
Qed.

Lemma in_tree_parent l i : (S l <= LEVELS)%nat -> in_tree l i -> in_tree (S l) (Z.shiftr i 1).
Proof.
  intros Hl [_ Hi]. split; [done|]. replace (LEVELS - l)%nat with (S (LEVELS - S l)) in Hi by lia. rewrite pow2_S in Hi.
  rewrite Z.shiftr_div_pow2 by lia. change (2 ^ 1) with 2. split; [apply Z.div_pos; lia|]. apply Z.div_lt_upper_bound; lia.
Qed.

Lemma shiftl_child p : Z.shiftl p 1 = 2 * p /\ Z.lor (Z.shiftl p 1) 1 = 2 * p + 1.
Proof.
  pose proof (lor_high 1 p 1 ltac:(simpl; lia)) as E. change (Z.of_nat 1) with 1 in E. rewrite E.
  rewrite Z.shiftl_mul_pow2 by lia. change (2 ^ 1) with 2. lia.
Qed.

(** *** Updating *)

Context {Lawful : LawfulNodes}.
Variable application : bytes.
Local Abbreviation t := (new_summary_tree context application).
Local Abbreviation read s l i := (read_node s application l i).

(** The store holds the tree over [c]. *)
Definition represents (s : Store) (c : contents) : Prop := forall l i, in_tree l i -> read s l i = Ok (tnode c l i).

Section update.
Variables (c c' : contents).
Hypothesis Hc : lawful c.
Hypothesis Hc' : lawful c'.
Hypothesis Ht' : counted c'.

(** Nodes of a level that may differ. *)
Record level_changes (l : nat) (changed : gmap Z (option TreeNode)) : Prop := {
  lc_new i n : changed !! i = Some n -> in_tree l i /\ n = tnode c' l i;
  lc_old i : in_tree l i -> changed !! i = None -> tnode c' l i = tnode c l i;
}.

(** Levels below [l] are written, the others still hold [c]. *)
Record halfway (l : nat) (s : Store) : Prop := {
  hw_new k i : (k < l)%nat -> in_tree k i -> read s k i = Ok (tnode c' k i);
  hw_old k i : (l <= k)%nat -> in_tree k i -> read s k i = Ok (tnode c k i);
}.

Lemma write_level_halfway l changed s : (l <= LEVELS)%nat -> level_changes l changed -> halfway l s -> halfway (S l) (write_level t l changed s).
Proof.
  intros Hl [Hnew Hold] [Hn Ho].
  assert (Hok : map_Forall (fun i n => in_tree l i /\ opt_storable l n) changed).
  { intros i n E. destruct (Hnew i n E) as [Hi ->]. split; [done|by apply tnode_storable]. }
  split; intros k i Hk Hi; rewrite (read_write_level t) by done.
  - destruct (Nat.eqb_spec l k) as [<-|Hne]; [|apply Hn; [lia|done]].
    destruct (changed !! i) as [n|] eqn:E; [by destruct (Hnew i n E) as [_ ->]|].
    rewrite Hold by done. apply Ho; [lia|done].
  - destruct (Nat.eqb_spec l k) as [<-|Hne]; [lia|]. apply Ho; [lia|done].
Qed.

Lemma parents_in (changed : gmap Z (option TreeNode)) p : p ∈ parents_of changed <-> exists i, Z.shiftr i 1 = p /\ is_Some (changed !! i).
Proof.
  unfold parents_of. rewrite sort_by_perm, elem_of_elements, elem_of_map. split.
  - intros (i & -> & Hi%elem_of_dom). eauto.
  - intros (i & <- & Hi). exists i. split; [done|by apply elem_of_dom].
Qed.

Lemma child_read l changed s i : (l <= LEVELS)%nat -> level_changes l changed -> halfway (S l) s -> in_tree l i ->
  child t s l changed i = Ok (tnode c' l i).
Proof.
  intros Hl [Hnew Hold] [Hn Ho] Hi. unfold child. destruct (changed !! i) as [n|] eqn:E; [by destruct (Hnew i n E) as [_ ->]|].
  apply Hn; [lia|done].
Qed.

Lemma changed_parents_spec l changed s ps : (S l <= LEVELS)%nat -> level_changes l changed -> halfway (S l) s ->
  Forall (in_tree (S l)) ps ->
  exists above, changed_parents t s l changed ps = Ok above /\
    forall p, above !! p = if bool_decide (p ∈ ps /\ tnode c' (S l) p <> tnode c (S l) p) then Some (tnode c' (S l) p) else None.
Proof.
  intros Hl Hch Hh. induction ps as [|p ps IH]; intros Hps; cbn [changed_parents].
  { exists ∅. split; [done|]. intros p. rewrite lookup_empty, bool_decide_eq_false_2; [done|]. by intros [?%elem_of_nil _]. }
  apply Forall_cons in Hps as [Hp Hps]. destruct (IH Hps) as (above & E & Habove). destruct (in_tree_children l p Hp) as [H0 H1].
  destruct (shiftl_child p) as [-> ->]. rewrite (child_read l changed s (2 * p)), (child_read l changed s (2 * p + 1)) by (done || lia).
  cbn [mbind outcome_bind]. rewrite parent_tnode by done. cbn [mbind outcome_bind s_application new_summary_tree].
  rewrite (hw_old _ _ Hh (S l) p) by (done || lia). cbn [mbind outcome_bind]. rewrite E. cbn [mbind outcome_bind].
  eexists. split; [done|]. intros q.
  destruct (bool_decide_reflect (tnode c (S l) p = tnode c' (S l) p)) as [Eq|Hne].
  - assert (Hiff : q ∈ p :: ps /\ tnode c' (S l) q <> tnode c (S l) q <-> q ∈ ps /\ tnode c' (S l) q <> tnode c (S l) q).
    { rewrite elem_of_cons. split; [|tauto]. intros [[->|Hq] Hn]; [by destruct Hn|done]. }
    by rewrite Habove, (bool_decide_ext _ _ Hiff).
  - destruct (decide (p = q)) as [<-|Hpq].
    + rewrite lookup_insert_eq, bool_decide_eq_true_2; [done|]. split; [apply list_elem_of_here|done].
    + assert (Hiff : q ∈ p :: ps /\ tnode c' (S l) q <> tnode c (S l) q <-> q ∈ ps /\ tnode c' (S l) q <> tnode c (S l) q).
      { rewrite elem_of_cons. split; [|tauto]. by intros [[->|Hq] Hn]. }
      by rewrite lookup_insert_ne, Habove, (bool_decide_ext _ _ Hiff).
Qed.

Lemma parents_changes l changed s : (S l <= LEVELS)%nat -> level_changes l changed -> halfway (S l) s ->
  exists above, changed_parents t s l changed (parents_of changed) = Ok above /\ level_changes (S l) above.
Proof.
  intros Hl Hch Hh. assert (Hps : Forall (in_tree (S l)) (parents_of changed)).
  { apply Forall_forall. intros p (i & <- & n & E)%parents_in. apply in_tree_parent; [done|]. by destruct (lc_new _ _ Hch i n E). }
  destruct (changed_parents_spec l changed s _ Hl Hch Hh Hps) as (above & E & Ha). exists above. split; [done|].
  rewrite Forall_forall in Hps. split.
  - intros p n Hp. rewrite Ha in Hp. case_bool_decide as Hb; [|done]. injection Hp as <-. split; [apply Hps; tauto|done].
  - intros p Hp Hn. rewrite Ha in Hn. case_bool_decide as Hb; [done|].
    destruct (decide (p ∈ parents_of changed)) as [Hin|Hout].
    + destruct (decide (tnode c' (S l) p = tnode c (S l) p)); [done|]. by destruct Hb.
    + destruct (in_tree_children l p Hp) as [H0 H1]. cbn [tnode].
      assert (Hnone : forall i, Z.shiftr i 1 = p -> changed !! i = None).
      { intros i Hi. destruct (changed !! i) as [n|] eqn:En; [|done]. destruct Hout. apply parents_in. exists i. rewrite En. eauto. }
      rewrite !(lc_old _ _ Hch); [done|done|apply Hnone, shiftr1_odd|done|apply Hnone, shiftr1_even].
Qed.

Lemma update_loop_spec n : forall l changed s,
  (l + n = LEVELS)%nat -> level_changes l changed -> halfway l s ->
  exists s', update_loop t n l changed s = (Ok tt, s') /\ represents s' c'.
Proof.
  induction n as [|n IH]; intros l changed s Hl Hch Hh; cbn [update_loop]; cbv zeta;
    pose proof (write_level_halfway l changed s ltac:(lia) Hch Hh) as Hw.
  - eexists. split; [done|]. intros k i Hi. apply (hw_new _ _ Hw); [|done]. destruct Hi. lia.
  - destruct (parents_changes l changed _ ltac:(lia) Hch Hw) as (above & -> & Ha). apply IH; [lia|done..].
Qed.
End update.

(** *** Leaves *)

Local Abbreviation entry := (Z * Z * MNode)%type.
Definition leaf_of (e : entry) : option TreeNode := if 0 <? e_coins e then Some (mkTreeNode (e_coins e) 1 (e_root e)) else None.

(** What the summary holds after the named blocks are set. *)
Definition set_leaves (leaves : list entry) (c : contents) : contents :=
  foldr (fun e c => if 0 <? e_coins e then <[e_block e := (e_coins e, e_root e)]> c else delete (e_block e) c) c leaves.

Lemma set_leaves_lookup leaves c b :
  set_leaves leaves c !! b = match search e_block b leaves with
                             | Some e => if 0 <? e_coins e then Some (e_coins e, e_root e) else None
                             | None => c !! b
                             end.
Proof.
  unfold search, set_leaves. induction leaves as [|e l IH]; [done|]. cbn [List.find foldr].
  destruct (Z.eqb_spec (e_block e) b) as [<-|Hne]; destruct (0 <? e_coins e);
    rewrite ?lookup_insert_eq, ?lookup_delete_eq, ?lookup_insert_ne, ?lookup_delete_ne; done.
Qed.

Lemma set_leaves_tnode leaves c b :
  tnode (set_leaves leaves c) 0 b = match search e_block b leaves with Some e => leaf_of e | None => tnode c 0 b end.
Proof.
  cbn [tnode]. rewrite set_leaves_lookup. destruct (search e_block b leaves) as [e|]; [|done]. unfold leaf_of. by destruct (0 <? e_coins e).
Qed.

Definition leaves_ok (leaves : list entry) : Prop :=
  NoDup (e_block <$> leaves) /\ Forall (fun e => 0 <= e_block e < 2 ^ Z.of_nat LEVELS) leaves.

Lemma search_Some_in {A} (k : A -> Z) x (l : list A) e : search k x l = Some e -> e ∈ l /\ k e = x.
Proof. unfold search. intros [Hin Hk]%List.find_some. apply list_elem_of_In in Hin. apply Z.eqb_eq in Hk. done. Qed.

Lemma search_None_notin {A} (k : A -> Z) x (l : list A) : search k x l = None <-> x ∉ k <$> l.
Proof.
  unfold search. induction l as [|y l IH]; cbn [List.find fmap list_fmap].
  - split; [intros _; apply not_elem_of_nil|done].
  - rewrite not_elem_of_cons. destruct (Z.eqb_spec (k y) x) as [->|Hne]; [split; [done|by intros []]|].
    rewrite IH. split; [intros H; split; [congruence|done]|by intros []].
Qed.

Lemma set_leaves_lawful leaves c : Forall (fun e => 0 <= e_block e < 2 ^ Z.of_nat LEVELS) leaves -> lawful c -> lawful (set_leaves leaves c).
Proof.
  intros Hl Hc b e. rewrite set_leaves_lookup. destruct (search e_block b leaves) as [x|] eqn:E; [|apply Hc].
  apply search_Some_in in E as [Hx <-]. rewrite Forall_forall in Hl. specialize (Hl x Hx).
  destruct (Z.ltb_spec 0 (e_coins x)); [|done]. intros [= <-]. done.
Qed.

Lemma leaf_level_spec leaves : forall level,
  leaves_ok leaves -> (forall e, e ∈ leaves -> level !! e_block e = None) ->
  exists m, leaf_level leaves level = Ok m /\
    forall b, m !! b = match search e_block b leaves with Some e => Some (leaf_of e) | None => level !! b end.
Proof.
  induction leaves as [|e l IH]; intros level [Hnd Hr] Hfree; cbn [leaf_level]; [by exists level|].
  cbn [fmap list_fmap] in Hnd. apply NoDup_cons in Hnd as [He Hnd]. apply Forall_cons in Hr as [Hb Hr].
  destruct (Z.leb_spec (2 ^ Z.of_nat LEVELS) (e_block e)); [lia|]. rewrite Hfree by apply list_elem_of_here. fold (leaf_of e).
  destruct (IH (<[e_block e := leaf_of e]> level)) as (m & -> & Hm); [done| |].
  - intros x Hx. rewrite lookup_insert_ne; [apply Hfree; by apply list_elem_of_further|].
    intros E. apply He. rewrite E. by apply list_elem_of_fmap_2.
  - exists m. split; [done|]. intros b. rewrite Hm. unfold search. cbn [List.find].
    destruct (Z.eqb_spec (e_block e) b) as [<-|Hne]; [|by rewrite lookup_insert_ne].
    apply (search_None_notin e_block) in He. unfold search in He. by rewrite He, lookup_insert_eq.
Qed.

Lemma changed_leaves_spec c s (es : list (Z * option TreeNode)) :
  represents s c -> NoDup (fst <$> es) -> Forall (fun e => in_tree 0 e.1) es ->
  exists m, changed_leaves t s es = Ok m /\
    forall b, m !! b = match (list_to_map es : gmap Z (option TreeNode)) !! b with
                       | Some n => if bool_decide (tnode c 0 b = n) then None else Some n
                       | None => None
                       end.
Proof.
  intros Hs. induction es as [|[b n] es IH]; intros Hnd Hf; cbn [changed_leaves].
  { exists ∅. split; [done|]. intros b. by rewrite lookup_empty. }
  cbn [fmap list_fmap] in Hnd. apply NoDup_cons in Hnd as [Hb Hnd]. apply Forall_cons in Hf as [Hi Hf].
  destruct (IH Hnd Hf) as (m & E & Hm). cbn [s_application new_summary_tree].
  rewrite (Hs 0%nat b Hi). cbn [mbind outcome_bind]. rewrite E. cbn [mbind outcome_bind].
  eexists. split; [done|]. intros x.
  change (list_to_map ((b, n) :: es)) with (<[b := n]> (list_to_map es : gmap Z (option TreeNode))).
  destruct (decide (b = x)) as [<-|Hne].
  - rewrite lookup_insert_eq. destruct (bool_decide (tnode c 0 b = n)); [|by rewrite lookup_insert_eq].
    rewrite Hm, not_elem_of_list_to_map_1 by done. done.
  - rewrite lookup_insert_ne by done. destruct (bool_decide (tnode c 0 b = n)); [apply Hm|].
    rewrite lookup_insert_ne by done. apply Hm.
Qed.

Lemma leaf_changes c leaves s :
  represents s c -> leaves_ok leaves ->
  exists changed, (ls ← leaf_level leaves ∅; changed_leaves t s (ascending_entries ls)) = Ok changed /\
    level_changes c (set_leaves leaves c) 0 changed.
Proof.
  intros Hs Hok. destruct (leaf_level_spec leaves ∅ Hok) as (m & -> & Hm); [intros; apply lookup_empty|].
  cbn [mbind outcome_bind]. destruct (ascending_entries_map m) as [Hnd Em].
  assert (Hin : forall b n, m !! b = Some n -> in_tree 0 b).
  { intros b n E. rewrite Hm, lookup_empty in E. destruct (search e_block b leaves) as [e|] eqn:Es; [|done].
    apply search_Some_in in Es as [He <-]. destruct Hok as [_ Hr]. rewrite Forall_forall in Hr. specialize (Hr e He).
    split; [lia|]. by rewrite Nat.sub_0_r. }
  destruct (changed_leaves_spec c s (ascending_entries m) Hs Hnd) as (changed & -> & Hch).
  { apply Forall_forall. intros [b n] Hb. rewrite ascending_entries_perm in Hb. apply elem_of_map_to_list in Hb. by eapply Hin. }
  exists changed. split; [done|]. rewrite Em in Hch. split.
  - intros b n E. rewrite Hch in E. destruct (m !! b) as [x|] eqn:Ex; [|done]. case_bool_decide; [done|]. injection E as <-.
    split; [by eapply Hin|]. rewrite set_leaves_tnode. rewrite Hm, lookup_empty in Ex.
    destruct (search e_block b leaves); [by injection Ex|done].
  - intros b _ E. rewrite set_leaves_tnode. rewrite Hch in E. rewrite Hm, lookup_empty in E.
    destruct (search e_block b leaves) as [e|]; [|done]. by case_bool_decide.
Qed.

Lemma update_loop_represents c leaves s :
  represents s c -> lawful c -> leaves_ok leaves -> counted (set_leaves leaves c) ->
  exists s', update t leaves s = (check_cap t s', s') /\ represents s' (set_leaves leaves c).
Proof.
  intros Hs Hc Hok Ht. destruct (leaf_changes c leaves s Hs Hok) as (changed & E & Hch).
  assert (Hc' : lawful (set_leaves leaves c)) by (apply set_leaves_lawful; [by destruct Hok|done]).
  assert (Hh : halfway c (set_leaves leaves c) 0 s) by (split; [lia|intros k i _ Hi; by apply Hs]).
  destruct (update_loop_spec c (set_leaves leaves c) Hc' Ht LEVELS 0 changed s eq_refl Hch Hh) as (s' & Eu & Hs').
  exists s'. split; [|done]. unfold update.
  erewrite st_bind_run; [|unfold st_read; by rewrite E]. erewrite st_bind_run; [|exact Eu]. done.
Qed.

(** *** Reading every node *)

Fixpoint stored_walk (c : contents) (l : nat) (i : Z) : list (nat * Z * TreeNode) :=
  match tnode c l i with
  | None => []
  | Some n => (l, i, n) :: match l with O => [] | S l' => stored_walk c l' (2 * i) ++ stored_walk c l' (2 * i + 1) end
  end.

Definition pending_cost (pending : list (nat * Z)) : Z := foldr (fun p total => 2 ^ Z.of_nat (S p.1) - 1 + total) 0 pending.

Lemma positions_loop_spec c s fuel : represents s c -> forall pending found,
  Forall (fun p => in_tree p.1 p.2) pending -> pending_cost pending < Z.of_nat fuel ->
  positions_loop fuel s application pending found = Ok (found ++ concat ((fun p => stored_walk c p.1 p.2) <$> pending)).
Proof.
  intros Hs. induction fuel as [|fuel IH]; intros pending found Hp Hf.
  { exfalso. assert (0 <= pending_cost pending); [|lia]. clear. unfold pending_cost. induction pending; simpl; [lia|].
    pose proof (pow2_pos (S a.1)). simpl in *. lia. }
  cbn [positions_loop]. destruct pending as [|[l i] rest]; [cbn [fmap list_fmap concat]; by rewrite app_nil_r|].
  apply Forall_cons in Hp as [Hi Hp]. cbn [fst snd] in Hi. change (2 ^ Z.of_nat (S l) - 1 + pending_cost rest < Z.of_nat (S fuel)) in Hf.
  assert (2 <= 2 ^ Z.of_nat (S l)) by (rewrite pow2_S; pose proof (pow2_pos l); lia). rewrite (Hs l i Hi). cbn [mbind outcome_bind fmap list_fmap concat fst snd].
  destruct (tnode c l i) as [n|] eqn:E.
  2:{ assert (Hw : stored_walk c l i = []) by (destruct l; cbn [stored_walk]; by rewrite E). rewrite Hw. apply IH; [done|lia]. }
  cbv zeta. destruct l as [|l].
  - rewrite IH; [|done|lia]. f_equal. cbn [stored_walk]. rewrite E. by rewrite <- app_assoc.
  - destruct (in_tree_children l i Hi) as [H0 H1]. destruct (shiftl_child i) as [-> ->].
    rewrite IH; [|by apply Forall_cons; split; [|apply Forall_cons]|].
    2:{ change (2 ^ Z.of_nat (S l) - 1 + (2 ^ Z.of_nat (S l) - 1 + pending_cost rest) < Z.of_nat fuel). rewrite (pow2_S (S l)) in Hf. lia. }
    f_equal. cbn [stored_walk]. rewrite E. cbn [fmap list_fmap concat fst snd].
    rewrite <- !app_assoc. cbn [app]. by rewrite <- !app_assoc.
Qed.

Lemma in_tree_top : in_tree LEVELS 0.
Proof. split; [lia|]. rewrite Nat.sub_diag. simpl. lia. Qed.

Lemma positions_from c s fuel l i : represents s c -> in_tree l i -> 2 ^ Z.of_nat (S l) <= Z.of_nat fuel ->
  positions_loop fuel s application [(l, i)] [] = Ok (stored_walk c l i).
Proof.
  intros Hs Hi Hf. rewrite (positions_loop_spec c s fuel Hs).
  - cbn [fmap list_fmap concat fst snd app]. by rewrite app_nil_r.
  - by apply Forall_singleton.
  - change (2 ^ Z.of_nat (S l) - 1 + 0 < Z.of_nat fuel). lia.
Qed.

Lemma positions_fuel_enough : 2 ^ Z.of_nat (S LEVELS) <= Z.of_nat POSITIONS_FUEL.
Proof.
  unfold POSITIONS_FUEL. rewrite Z2Nat.id by (apply Z.pow_nonneg; lia). rewrite (pow2_S (S LEVELS)).
  pose proof (pow2_pos (S LEVELS)). lia.
Qed.

Lemma stored_positions_spec c s : represents s c -> stored_positions s application = Ok (stored_walk c LEVELS 0).
Proof. intros Hs. exact (positions_from c s POSITIONS_FUEL LEVELS 0 Hs in_tree_top positions_fuel_enough). Qed.

Lemma walk_sound c l : forall i k j n, (k, j, n) ∈ stored_walk c l i -> (k <= l)%nat /\ j / 2 ^ Z.of_nat (l - k) = i /\ tnode c k j = Some n.
Proof.
  induction l as [|l IH]; intros i k j n; cbn [stored_walk]; destruct (tnode c _ i) as [m|] eqn:E; [|by intros ?%elem_of_nil| |by intros ?%elem_of_nil].
  - rewrite list_elem_of_singleton. intros [= -> -> ->]. rewrite Nat.sub_diag, Z.pow_0_r, Z.div_1_r. done.
  - rewrite elem_of_cons, elem_of_app. intros [[= -> -> ->]|[H|H]].
    + rewrite Nat.sub_diag, Z.pow_0_r, Z.div_1_r. done.
    + apply IH in H as (Hk & Hj & Hn). split; [lia|]. replace (S l - k)%nat with (S (l - k)) by lia. rewrite div_pow_S, Hj. split; [|done].
      symmetry. apply Z.div_unique with 0; lia.
    + apply IH in H as (Hk & Hj & Hn). split; [lia|]. replace (S l - k)%nat with (S (l - k)) by lia. rewrite div_pow_S, Hj. split; [|done].
      symmetry. apply Z.div_unique with 1; lia.
Qed.

Lemma walk_complete c l : forall k j n, (k <= l)%nat -> tnode c k j = Some n -> (k, j, n) ∈ stored_walk c l (j / 2 ^ Z.of_nat (l - k)).
Proof.
  induction l as [|l IH]; intros k j n Hk Hn.
  - assert (k = 0%nat) as -> by lia. rewrite Nat.sub_diag, Z.pow_0_r, Z.div_1_r. cbn [stored_walk]. rewrite Hn. apply list_elem_of_here.
  - destruct (decide (k = S l)) as [->|Hne].
    { rewrite Nat.sub_diag, Z.pow_0_r, Z.div_1_r. cbn [stored_walk]. rewrite Hn. apply list_elem_of_here. }
    specialize (IH k j n ltac:(lia) Hn). replace (S l - k)%nat with (S (l - k)) by lia. rewrite div_pow_S.
    set (q := j / 2 ^ Z.of_nat (l - k)) in *.
    assert (Hq : q = 2 * (q / 2) \/ q = 2 * (q / 2) + 1)
      by (pose proof (Z.div_mod q 2 ltac:(lia)); pose proof (Z.mod_pos_bound q 2 ltac:(lia)); lia).
    assert (Hsome : is_Some (tnode c l q)).
    { destruct l; cbn [stored_walk] in IH; destruct (tnode c _ q); first [by eexists|by apply elem_of_nil in IH]. }
    assert (Hup : is_Some (tnode c (S l) (q / 2))).
    { cbn [tnode]. unfold join. destruct Hq as [Eq|Eq]; rewrite Eq in Hsome at 1; destruct Hsome as [? Hs]; rewrite Hs;
        [destruct (tnode c l (2 * (q / 2) + 1))|destruct (tnode c l (2 * (q / 2)))]; by eexists. }
    cbn [stored_walk]. destruct Hup as [m ->]. apply list_elem_of_further, elem_of_app.
    destruct Hq as [Eq|Eq]; rewrite Eq in IH at 1; [left|right]; done.
Qed.

Lemma walk_elem c k j n : in_tree k j -> (k, j, n) ∈ stored_walk c LEVELS 0 <-> tnode c k j = Some n.
Proof.
  intros [Hk Hj]. split; [by intros (_ & _ & ?)%walk_sound|]. intros Hn. pose proof (walk_complete c LEVELS k j n Hk Hn) as H.
  by rewrite Z.div_small in H.
Qed.

Lemma stale_lookup c k j : in_tree k j -> (list_to_map (stored_walk c LEVELS 0) : gmap (nat * Z) TreeNode) !! (k, j) = tnode c k j.
Proof.
  intros Ht. destruct (tnode c k j) as [n|] eqn:E.
  - apply walk_elem in E as Hin; [|done]. destruct ((list_to_map (stored_walk c LEVELS 0) : gmap (nat * Z) TreeNode) !! (k, j)) as [m|] eqn:Em.
    + apply elem_of_list_to_map_2, (walk_elem c k j m Ht) in Em. congruence.
    + apply not_elem_of_list_to_map_2 in Em. destruct Em. by apply (list_elem_of_fmap_2 fst _ (k, j, n)).
  - apply not_elem_of_list_to_map_1. intros ([[k' j'] n] & [= <- <-] & Hin)%list_elem_of_fmap. apply walk_elem in Hin; [congruence|done].
Qed.

Lemma stale_in_tree c p n : (list_to_map (stored_walk c LEVELS 0) : gmap (nat * Z) TreeNode) !! p = Some n -> lawful c -> in_tree p.1 p.2.
Proof.
  destruct p as [k j]. intros (Hk & Hj & _)%elem_of_list_to_map_2%walk_sound _. split; [done|]. cbn [fst snd].
  pose proof (pow2_pos (LEVELS - k)). apply Z.div_small_iff in Hj; lia.
Qed.

(** *** Replacing *)

Section replace.
Variables (c c' : contents) (s0 : Store).
Hypothesis Hc : lawful c.
Hypothesis Hc' : lawful c'.
Hypothesis Ht' : counted c'.
Hypothesis Hs0 : represents s0 c.
Variable stale : gmap (nat * Z) TreeNode.
Hypothesis Hstale : forall k j, in_tree k j -> stale !! (k, j) = tnode c k j.

(** The nodes of one level of the new tree. *)
Definition level_nodes (l : nat) (nodes : gmap Z TreeNode) : Prop :=
  (forall i n, nodes !! i = Some n -> in_tree l i) /\ forall i, in_tree l i -> nodes !! i = tnode c' l i.

(** Nodes of the new tree are written below [l], nothing else is touched. *)
Definition rewritten (l : nat) (s : Store) : Prop :=
  forall k i, in_tree k i -> read s k i = match (if (k <? l)%nat then tnode c' k i else None) with Some n => Ok (Some n) | None => Ok (tnode c k i) end.

Lemma replace_entries l (es : list (Z * TreeNode)) : forall s l' i',
  NoDup (fst <$> es) -> Forall (fun e => in_tree l e.1 /\ storable l e.2) es -> in_tree l' i' ->
  (forall i, in_tree l i -> read s l i = Ok (tnode c l i)) ->
  read (foldl (fun s e => if bool_decide (stale !! (l, e.1) = Some e.2) then s else write_node t l e.1 (Some e.2) s) s es) l' i' =
  match (if (l =? l')%nat then (list_to_map es : gmap Z TreeNode) !! i' else None) with
  | Some n => Ok (Some n)
  | None => read s l' i'
  end.
Proof.
  intros s l' i' Hnd Hf Hi' Hold.
  assert (Hgen : forall es s, NoDup (fst <$> es) -> Forall (fun e => in_tree l e.1 /\ storable l e.2) es ->
    (forall i, i ∈ fst <$> es -> read s l i = Ok (tnode c l i)) ->
    read (foldl (fun s e => if bool_decide (stale !! (l, e.1) = Some e.2) then s else write_node t l e.1 (Some e.2) s) s es) l' i' =
    match (if (l =? l')%nat then (list_to_map es : gmap Z TreeNode) !! i' else None) with
    | Some n => Ok (Some n)
    | None => read s l' i'
    end).
  2:{ apply Hgen; [done..|]. intros i (e & -> & He)%list_elem_of_fmap. rewrite Forall_forall in Hf. apply Hold. by destruct (Hf e He). }
  clear - Hs0 Hstale Hi' Lawful. induction es as [|[i n] es IH]; intros s Hnd Hf Hold; cbn [foldl fst snd]; [by destruct (l =? l')%nat|].
  cbn [fmap list_fmap] in Hnd, Hold. apply NoDup_cons in Hnd as [Hi Hnd]. apply Forall_cons in Hf as [[Hti Hst] Hf]. cbn [fst snd] in *.
  change (list_to_map ((i, n) :: es)) with (<[i := n]> (list_to_map es : gmap Z TreeNode)).
  assert (Hx : forall s1, (forall k j, in_tree k j -> read s1 k j = if bool_decide ((l, i) = (k, j)) then Ok (Some n) else read s k j) ->
    match (if (l =? l')%nat then (list_to_map es : gmap Z TreeNode) !! i' else None) with Some m => Ok (Some m) | None => read s1 l' i' end =
    match (if (l =? l')%nat then (<[i := n]> (list_to_map es : gmap Z TreeNode)) !! i' else None) with Some m => Ok (Some m) | None => read s l' i' end).
  { intros s1 H1. destruct (Nat.eqb_spec l l') as [->|Hl]; rewrite H1 by done.
    - destruct (decide (i = i')) as [->|Hne].
      + rewrite lookup_insert_eq, not_elem_of_list_to_map_1, bool_decide_eq_true_2 by done. done.
      + rewrite lookup_insert_ne, bool_decide_eq_false_2 by congruence. done.
    - rewrite bool_decide_eq_false_2 by congruence. done. }
  assert (Hw : forall k j, in_tree k j -> read (write_node t l i (Some n) s) k j = if bool_decide ((l, i) = (k, j)) then Ok (Some n) else read s k j)
    by (intros k j Hkj; by apply (read_write_node t)).
  destruct (bool_decide_reflect (stale !! (l, i) = Some n)) as [Est|_].
  - rewrite IH; [|done..|intros j Hj; apply Hold; by apply list_elem_of_further]. apply Hx. intros k j Hkj.
    case_bool_decide as E; [|done]. injection E as <- <-. rewrite Hold by apply list_elem_of_here. by rewrite <- Hstale, Est.
  - rewrite IH; [by apply Hx|done..|]. intros j Hj. assert (Hjt : in_tree l j).
    { apply list_elem_of_fmap in Hj as (e & -> & He). rewrite Forall_forall in Hf. by destruct (Hf e He). }
    rewrite Hw by done. rewrite bool_decide_eq_false_2 by congruence. apply Hold. by apply list_elem_of_further.
Qed.

Lemma replace_level_rewritten l nodes s : (l <= LEVELS)%nat -> level_nodes l nodes -> rewritten l s -> rewritten (S l) (replace_level t stale l nodes s).
Proof.
  intros Hl [Hin Hn] Hs k i Hi. destruct (ascending_entries_map nodes) as [Hnd Em]. unfold replace_level.
  rewrite replace_entries; [| done | | done |].
  - rewrite Em, (Hs k i Hi). destruct (Nat.eqb_spec l k) as [<-|Hne].
    + rewrite Hn by done. rewrite (proj2 (Nat.ltb_lt l (S l))), Nat.ltb_irrefl by lia. by destruct (tnode c' l i).
    + destruct (Nat.ltb_spec k l), (Nat.ltb_spec k (S l)); try lia; done.
  - apply Forall_forall. intros [j n] Hj. rewrite ascending_entries_perm in Hj. apply elem_of_map_to_list in Hj. cbn [fst snd].
    pose proof (Hin j n Hj) as Hjt. split; [done|]. rewrite Hn in Hj by done.
    pose proof (tnode_storable c' l j Hc' Ht' Hjt) as Hst. by rewrite Hj in Hst.
  - intros j Hj. rewrite (Hs l j Hj). by rewrite Nat.ltb_irrefl.
Qed.

Lemma node_parents_in (nodes : gmap Z TreeNode) p : p ∈ parents_of nodes <-> exists i, Z.shiftr i 1 = p /\ is_Some (nodes !! i).
Proof.
  unfold parents_of. rewrite sort_by_perm, elem_of_elements, elem_of_map. split.
  - intros (i & -> & Hi%elem_of_dom). eauto.
  - intros (i & <- & Hi). exists i. split; [done|by apply elem_of_dom].
Qed.

Lemma replace_parents_spec l nodes ps : (S l <= LEVELS)%nat -> level_nodes l nodes -> Forall (in_tree (S l)) ps ->
  exists above, replace_parents t l nodes ps = Ok above /\
    forall p, above !! p = if bool_decide (p ∈ ps) then tnode c' (S l) p else None.
Proof.
  intros Hl [Hin Hn]. induction ps as [|p ps IH]; intros Hps; cbn [replace_parents].
  { exists ∅. split; [done|]. intros p. by rewrite lookup_empty, bool_decide_eq_false_2 by apply not_elem_of_nil. }
  apply Forall_cons in Hps as [Hp Hps]. destruct (IH Hps) as (above & E & Ha). destruct (in_tree_children l p Hp) as [H0 H1].
  destruct (shiftl_child p) as [-> ->]. rewrite !Hn, parent_tnode by done. cbn [mbind outcome_bind]. rewrite E. cbn [mbind outcome_bind].
  eexists. split; [done|]. intros q. destruct (decide (p = q)) as [<-|Hne].
  - rewrite (bool_decide_eq_true_2 (p ∈ p :: ps)) by apply list_elem_of_here.
    destruct (tnode c' (S l) p) as [n|] eqn:En; [by rewrite lookup_insert_eq|]. rewrite Ha. by case_bool_decide.
  - assert (Hiff : q ∈ p :: ps <-> q ∈ ps) by (rewrite elem_of_cons; split; [by intros [->|]|tauto]).
    rewrite (bool_decide_ext _ _ Hiff). destruct (tnode c' (S l) p); [rewrite lookup_insert_ne by done|]; apply Ha.
Qed.

Lemma level_nodes_up l nodes : (S l <= LEVELS)%nat -> level_nodes l nodes ->
  exists above, replace_parents t l nodes (parents_of nodes) = Ok above /\ level_nodes (S l) above.
Proof.
  intros Hl Hln. pose proof Hln as [Hin Hn]. assert (Hps : Forall (in_tree (S l)) (parents_of nodes)).
  { apply Forall_forall. intros p (i & <- & n & E)%node_parents_in. apply in_tree_parent; [done|]. by eapply Hin. }
  destruct (replace_parents_spec l nodes _ Hl Hln Hps) as (above & E & Ha). exists above. split; [done|]. rewrite Forall_forall in Hps. split.
  - intros p n Hp. rewrite Ha in Hp. case_bool_decide; [|done]. by apply Hps.
  - intros p Hp. rewrite Ha. case_bool_decide as Hb; [done|]. destruct (in_tree_children l p Hp) as [H0 H1].
    assert (Hnone : forall i, Z.shiftr i 1 = p -> nodes !! i = None).
    { intros i Hi. destruct (nodes !! i) as [n|] eqn:En; [|done]. destruct Hb. apply node_parents_in. exists i. rewrite En. eauto. }
    cbn [tnode]. rewrite <- !Hn by done. rewrite !Hnone by (apply shiftr1_odd || apply shiftr1_even). done.
Qed.

(** The positions kept: those of the new tree below [l]. *)
Definition kept_below (l : nat) (kept : gset (nat * Z)) : Prop :=
  forall k i, in_tree k i -> (k, i) ∈ kept <-> (k < l)%nat /\ is_Some (tnode c' k i).

Lemma kept_step l nodes kept : level_nodes l nodes -> kept_below l kept ->
  kept_below (S l) (kept ∪ set_map (fun i => (l, i)) (dom nodes)).
Proof.
  intros [_ Hn] Hk k i Hi. rewrite elem_of_union, elem_of_map. split.
  - intros [H|(j & [= -> ->] & Hj%elem_of_dom)].
    + apply (Hk k i Hi) in H as [? ?]. split; [lia|done].
    + split; [lia|]. by rewrite <- Hn.
  - intros [Hlt Hsome]. destruct (decide (k = l)) as [->|Hne].
    + right. exists i. split; [done|]. apply elem_of_dom. by rewrite Hn.
    + left. apply (Hk k i Hi). split; [lia|done].
Qed.

Lemma replace_loop_spec n : forall l nodes kept s,
  (l + n = LEVELS)%nat -> level_nodes l nodes -> kept_below l kept -> rewritten l s ->
  exists kept' s', replace_loop t n l stale nodes kept s = (Ok kept', s') /\ kept_below (S LEVELS) kept' /\ rewritten (S LEVELS) s'.
Proof.
  induction n as [|n IH]; intros l nodes kept s Hl Hln Hk Hs; cbn [replace_loop]; cbv zeta;
    pose proof (replace_level_rewritten l nodes s ltac:(lia) Hln Hs) as Hs'; pose proof (kept_step l nodes kept Hln Hk) as Hk'.
  - assert (l = LEVELS) as -> by lia. eexists _, _. done.
  - destruct (level_nodes_up l nodes ltac:(lia) Hln) as (above & -> & Ha). apply IH; [lia|done..].
Qed.

Lemma clear_all (ps : list (nat * Z * TreeNode)) : forall s l' i', Forall (fun p => in_tree p.1.1 p.1.2) ps -> in_tree l' i' ->
  read (foldl (fun s p => write_node t p.1.1 p.1.2 None s) s ps) l' i' =
  if bool_decide ((l', i') ∈ fst <$> ps) then Ok None else read s l' i'.
Proof.
  induction ps as [|[[l i] n] ps IH]; intros s l' i' Hf Hi'; cbn [foldl fst snd fmap list_fmap].
  { by rewrite bool_decide_eq_false_2 by apply not_elem_of_nil. }
  apply Forall_cons in Hf as [Hi Hf]. cbn [fst snd] in Hi. rewrite IH, (read_write_node t) by done.
  destruct (bool_decide_reflect ((l, i) = (l', i'))) as [E|Hne].
  - rewrite (bool_decide_eq_true_2 ((l', i') ∈ _ :: _)) by (rewrite E; apply list_elem_of_here). by case_bool_decide.
  - assert (Hiff : (l', i') ∈ (l, i) :: (fst <$> ps) <-> (l', i') ∈ fst <$> ps)
      by (rewrite elem_of_cons; split; [by intros [E|]; [destruct Hne|]|tauto]).
    by rewrite (bool_decide_ext _ _ Hiff).
Qed.

Hypothesis Hin : forall p n, stale !! p = Some n -> in_tree p.1 p.2.

Lemma clear_stale_represents kept s : kept_below (S LEVELS) kept -> rewritten (S LEVELS) s -> represents (clear_stale t stale kept s) c'.
Proof.
  intros Hk Hs l i Hi. unfold clear_stale. rewrite clear_all; [|apply Forall_forall|done].
  2:{ intros [p n] [Hp _]%elem_of_filter_b. apply elem_of_map_to_list in Hp. cbn [fst]. by eapply Hin. }
  assert (Hl : (l <? S LEVELS)%nat = true) by (apply Nat.ltb_lt; destruct Hi; lia).
  case_bool_decide as Hb.
  - apply list_elem_of_fmap in Hb as ([[l' i'] n] & [= <- <-] & [_ Hnk%bool_decide_eq_true]%elem_of_filter_b). cbn [fst] in Hnk.
    f_equal. destruct (tnode c' l i) eqn:E; [|done]. destruct Hnk. apply Hk; [done|]. rewrite E. apply Nat.ltb_lt in Hl. eauto.
  - rewrite (Hs l i Hi), Hl. destruct (tnode c' l i) as [n|] eqn:E; [done|]. f_equal.
    destruct (tnode c l i) as [n|] eqn:Eo; [|done]. destruct Hb. apply list_elem_of_fmap. exists ((l, i), n). split; [done|].
    apply elem_of_filter_b. split; [apply elem_of_map_to_list; by rewrite Hstale|]. apply bool_decide_eq_true. cbn [fst].
    intros Hkk. apply Hk in Hkk as [_ [? ?]]; [congruence|done].
Qed.
End replace.

Lemma live_leaves_nodes leaves : leaves_ok leaves ->
  exists nodes, live_leaves leaves = Ok nodes /\ level_nodes (set_leaves leaves ∅) 0 nodes.
Proof.
  intros Hok. destruct (leaf_level_spec leaves ∅ Hok) as (m & E & Hm); [intros; apply lookup_empty|].
  unfold live_leaves. rewrite E. cbn [mbind outcome_bind]. eexists. split; [done|].
  assert (Hl : forall b, omap (M := gmap Z) id m !! b = tnode (set_leaves leaves ∅) 0 b).
  { intros b. rewrite lookup_omap, Hm, set_leaves_tnode, lookup_empty. cbn [tnode]. rewrite lookup_empty.
    by destruct (search e_block b leaves). }
  split; [|done]. intros b n Hb. rewrite Hl, set_leaves_tnode in Hb. destruct (search e_block b leaves) as [e|] eqn:Es.
  - apply search_Some_in in Es as [He <-]. destruct Hok as [_ Hr]. rewrite Forall_forall in Hr. split; [lia|]. rewrite Nat.sub_0_r. by apply Hr.
  - cbn [tnode] in Hb. by rewrite lookup_empty in Hb.
Qed.

Lemma replace_represents c leaves s :
  represents s c -> lawful c -> leaves_ok leaves -> counted (set_leaves leaves ∅) ->
  exists s', replace t leaves s = (check_cap t s', s') /\ represents s' (set_leaves leaves ∅).
Proof.
  intros Hs Hc Hok Ht. set (c' := set_leaves leaves ∅).
  assert (Hc' : lawful c') by (apply set_leaves_lawful; [by destruct Hok|apply map_Forall_empty]).
  assert (Est : stale_nodes t s = Ok (list_to_map (stored_walk c LEVELS 0)))
    by (unfold stale_nodes; cbn [s_application new_summary_tree]; by rewrite (stored_positions_spec c s Hs)).
  destruct (live_leaves_nodes leaves Hok) as (nodes & Enodes & Hn).
  destruct (replace_loop_spec c c' Hc' Ht (list_to_map (stored_walk c LEVELS 0)) (stale_lookup c) LEVELS 0 nodes ∅ s eq_refl Hn)
    as (kept & s1 & El & Hk & Hr).
  { intros k i _. split; [by intros ?%elem_of_empty|lia]. }
  { intros k i Hi. cbn [Nat.ltb Nat.leb]. by apply Hs. }
  exists (clear_stale t (list_to_map (stored_walk c LEVELS 0)) kept s1). split.
  - unfold replace. erewrite st_bind_run; [|unfold st_read; by rewrite Est].
    erewrite st_bind_run; [|unfold st_read; by rewrite Enodes]. erewrite st_bind_run; [|exact El].
    erewrite st_bind_run; [|done]. done.
  - apply (clear_stale_represents c); [apply stale_lookup| |done|done]. intros p n Hp. by eapply stale_in_tree.
Qed.
End spec.
