(* ===== verification/SummaryReports.v ===== *)
(** * Totals, roots and reports of the stored summary

    What the nodes of the stored summary hold: the coins and the number of the
    blocks below them and the root of the accumulator over those blocks, so that
    one node of the tree is a shard's report of one width. *)

From stdpp Require Import gmap sorting.
From S2P Require Import Prelude Bytes Merkle CoinTree CoinTreeCorrect ShardedTree ShardedCorrect CoinBlocks ShardReports ReportsCorrect SummaryTree SummaryCorrect.

Section totals.
Context {Membership : MembershipKey}.
Variable context : bytes.
Local Abbreviation key := (derive context).
Local Abbreviation contents := (gmap Z (Z * MNode)).
Local Abbreviation entry := (Z * Z * MNode)%type.

(** ** Sums over the blocks below a node *)

Definition weigh (f : entry -> Z) (l : list entry) : Z := foldr (fun e total => f e + total) 0 l.
Definition below_node (l : nat) (i : Z) (e : entry) : bool := Z.shiftr (e_block e) (Z.of_nat l) =? i.

Lemma weigh_split f l i (es : list entry) :
  weigh f (List.filter (below_node (S l) i) es) =
  weigh f (List.filter (below_node l (2 * i)) es) + weigh f (List.filter (below_node l (2 * i + 1)) es).
Proof.
  unfold weigh. induction es as [|e es IH]; [done|]. cbn [List.filter].
  pose proof (shiftr_S_child (e_block e) l i) as Hc.
  destruct (below_node (S l) i e) eqn:E1, (below_node l (2 * i) e) eqn:E2, (below_node l (2 * i + 1) e) eqn:E3;
    unfold below_node in E1, E2, E3; rewrite ?Z.eqb_eq, ?Z.eqb_neq in *; cbn [foldr]; lia || tauto.
Qed.

Lemma weigh_leaf f i (es : list entry) : NoDup (e_block <$> es) ->
  weigh f (List.filter (below_node 0 i) es) = match search e_block i es with Some e => f e | None => 0 end.
Proof.
  unfold weigh, search. induction es as [|e es IH]; [done|]. cbn [fmap list_fmap List.filter List.find]. intros [He Hnd]%NoDup_cons.
  unfold below_node at 1. rewrite Z.shiftr_0_r. destruct (Z.eqb_spec (e_block e) i) as [<-|Hne]; [|by apply IH].
  cbn [foldr]. rewrite IH by done. apply (search_None_notin e_block) in He. unfold search in He. rewrite He. lia.
Qed.

(** A summary as contents. *)
Definition contents_of (es : list entry) : contents := set_leaves es ∅.

Lemma contents_of_lookup es b : Forall (fun e => 0 < e_coins e) es ->
  contents_of es !! b = (fun e => (e_coins e, e_root e)) <$> search e_block b es.
Proof.
  intros Hp. unfold contents_of. rewrite set_leaves_lookup, lookup_empty. destruct (search e_block b es) as [e|] eqn:E; [|done].
  apply search_Some_in in E as [He _]. rewrite Forall_forall in Hp. specialize (Hp e He). simpl in Hp.
  destruct (Z.ltb_spec 0 (e_coins e)); [done|lia].
Qed.

Lemma tnode_weigh es l : NoDup (e_block <$> es) -> Forall (fun e => 0 < e_coins e) es -> forall i,
  field tn_coins (tnode context (contents_of es) l i) = weigh e_coins (List.filter (below_node l i) es) /\
  field tn_blocks (tnode context (contents_of es) l i) = weigh (fun _ => 1) (List.filter (below_node l i) es).
Proof.
  intros Hnd Hp. induction l as [|l IH]; intros i.
  - rewrite !weigh_leaf by done. cbn [tnode]. rewrite contents_of_lookup by done. by destruct (search e_block i es).
  - destruct (field_tnode_S context (contents_of es) l i) as [-> ->]. rewrite !(weigh_split _ l i).
    destruct (IH (2 * i)) as [-> ->], (IH (2 * i + 1)) as [-> ->]. done.
Qed.

Lemma weigh_one (es : list entry) : weigh (fun _ => 1) es = Z.of_nat (length es).
Proof. unfold weigh. induction es as [|e es IH]; [done|]. cbn [foldr length]. lia. Qed.

Lemma below_top es : Forall (fun e => 0 <= e_block e < 2 ^ Z.of_nat LEVELS) es -> List.filter (below_node LEVELS 0) es = es.
Proof.
  induction es as [|e es IH]; [done|]. intros [He Hes]%Forall_cons. cbn [List.filter]. unfold below_node at 1.
  rewrite shiftr_div, Z.div_small, Z.eqb_refl by done. by rewrite IH.
Qed.

(** The contents of any summary, as a list of entries. *)
Definition entries_of (c : contents) : list entry := (fun p : Z * (Z * MNode) => (p.1, p.2.1, p.2.2)) <$> map_to_list c.

Lemma entries_of_blocks c : e_block <$> entries_of c = fst <$> map_to_list c.
Proof. unfold entries_of. rewrite <- list_fmap_compose. done. Qed.

Lemma search_entries c b : search e_block b (entries_of c) = (fun p => (b, p.1, p.2)) <$> c !! b.
Proof.
  assert (Hnd : NoDup (e_block <$> entries_of c)) by (rewrite entries_of_blocks; apply NoDup_fst_map_to_list).
  destruct (c !! b) as [[n r]|] eqn:E.
  - apply (search_unique e_block (entries_of c) (b, n, r)); [|done]. apply elem_of_map_to_list in E.
    unfold entries_of. apply list_elem_of_fmap. by exists (b, (n, r)).
  - apply search_None_notin. rewrite entries_of_blocks. intros ([k x] & -> & Hin)%list_elem_of_fmap.
    apply elem_of_map_to_list in Hin. cbn [fst] in E. congruence.
Qed.

Lemma contents_entries c : lawful c -> contents_of (entries_of c) = c.
Proof.
  intros Hc. apply map_eq. intros b. rewrite contents_of_lookup.
  - rewrite search_entries. by destruct (c !! b) as [[n r]|].
  - unfold entries_of. apply Forall_fmap, Forall_forall. intros [k x] Hin. apply elem_of_map_to_list in Hin. by apply Hc in Hin as [_ ?].
Qed.

Lemma lawful_entries c : lawful c ->
  NoDup (e_block <$> entries_of c) /\ Forall (fun e => 0 <= e_block e < 2 ^ Z.of_nat LEVELS) (entries_of c) /\
  Forall (fun e => 0 < e_coins e) (entries_of c).
Proof.
  intros Hc. split; [rewrite entries_of_blocks; apply NoDup_fst_map_to_list|].
  split; unfold entries_of; apply Forall_fmap, Forall_forall; intros [k x] Hin; apply elem_of_map_to_list in Hin; by apply Hc in Hin as [? ?].
Qed.

(** The top holds every coin and counts every block. *)
Lemma top_totals c : lawful c ->
  field tn_coins (tnode context c LEVELS 0) = weigh e_coins (entries_of c) /\
  field tn_blocks (tnode context c LEVELS 0) = Z.of_nat (size c).
Proof.
  intros Hc. destruct (lawful_entries c Hc) as (Hnd & Hr & Hp).
  destruct (tnode_weigh (entries_of c) LEVELS Hnd Hp 0) as [Ec Eb]. rewrite contents_entries, below_top in Ec, Eb by done.
  split; [done|]. rewrite Eb, weigh_one. unfold entries_of. by rewrite length_fmap, length_map_to_list.
Qed.

(** ** Roots *)

(** The root of a block, or of an empty one. *)
Definition root_fn (c : contents) (b : Z) : MNode := default (zero_at key SUBTREE_BITS) (snd <$> c !! b).

Lemma tnode_root c l : forall i, node_or context l (tnode context c l i) = mnode key (root_fn c) l i.
Proof.
  induction l as [|l IH]; intros i.
  - cbn [tnode mnode]. unfold root_fn, node_or. rewrite Nat.add_0_r. by destruct (c !! i) as [[n r]|].
  - cbn [tnode mnode]. rewrite <- !IH. unfold join, node_or. rewrite Nat.add_succ_r. cbn [zero_at].
    destruct (tnode context c l (2 * i)), (tnode context c l (2 * i + 1)); reflexivity.
Qed.
End totals.

(** ** The operations *)

Section operations.
Context {Membership : MembershipKey} {Lawful : LawfulNodes}.
Variables (context application : bytes).
Local Abbreviation key := (derive context).
Local Abbreviation contents := (gmap Z (Z * MNode)).
Local Abbreviation entry := (Z * Z * MNode)%type.
Local Abbreviation t := (new_summary_tree context application).

Definition over_cap (c : contents) : bool := Z.of_nat MAX_NONEMPTY_BLOCKS <? Z.of_nat (size c).

Lemma check_cap_spec s c : represents context application s c -> lawful c ->
  check_cap t s = if over_cap c then Err InvalidArgument else Ok tt.
Proof.
  intros Hs Hc. unfold check_cap, top. cbn [s_application new_summary_tree]. rewrite (Hs LEVELS 0 in_tree_top). cbn [mbind outcome_bind].
  destruct (top_totals context c Hc) as [_ Eb]. unfold over_cap. rewrite <- Eb. by destruct (tnode context c LEVELS 0).
Qed.

Lemma counted_weigh (c : contents) : lawful c -> weigh e_coins (entries_of c) <= u64_max -> counted context c.
Proof. intros Hc H. unfold counted. by destruct (top_totals context c Hc) as [-> _]. Qed.

Lemma tree_root_spec s c : represents context application s c -> tree_root t s = Ok (mnode key (root_fn context c) LEVELS 0).
Proof.
  intros Hs. unfold tree_root, top. cbn [s_application new_summary_tree]. rewrite (Hs LEVELS 0 in_tree_top).
  rewrite <- tnode_root. cbn [mbind outcome_bind st_zeros new_summary_tree]. rewrite zero_of_nodes by lia.
  unfold node_or. by destruct (tnode context c LEVELS 0).
Qed.

Lemma summary_coins_spec s c : represents context application s c -> lawful c -> legacy_summary s application = Ok None ->
  summary_coins s application = Ok (weigh e_coins (entries_of c)).
Proof.
  intros Hs Hc El. unfold summary_coins, top. rewrite El. cbn [mbind outcome_bind]. rewrite (Hs LEVELS 0 in_tree_top).
  cbn [mbind outcome_bind]. by destruct (top_totals context c Hc) as [-> _].
Qed.

(** *** Entries in order *)

Definition leaf_entries (found : list (nat * Z * TreeNode)) : list entry :=
  (fun p : nat * Z * TreeNode => (p.1.2, tn_coins p.2, tn_node p.2)) <$> List.filter (fun p => (p.1.1 =? 0)%nat) found.

Lemma entries_found s found : stored_positions s application = Ok found -> entries s application = Ok (leaf_entries found).
Proof. intros E. unfold entries. by rewrite E. Qed.

Lemma leaf_entries_app a b : leaf_entries (a ++ b) = leaf_entries a ++ leaf_entries b.
Proof. unfold leaf_entries. by rewrite List.filter_app, fmap_app. Qed.

Lemma leaf_entries_elem c l i b n r : (b, n, r) ∈ leaf_entries (stored_walk context c l i) -> c !! b = Some (n, r) /\ b / 2 ^ Z.of_nat l = i.
Proof.
  intros ([[k j] nd] & [= -> -> ->] & [Hin Hk%Nat.eqb_eq]%elem_of_filter_b)%list_elem_of_fmap. cbn [fst snd] in *. subst k.
  apply walk_sound in Hin as (_ & Hj & Hn). rewrite Nat.sub_0_r in Hj. split; [|done]. cbn [tnode] in Hn.
  destruct (c !! j) as [[n r]|]; [|done]. by injection Hn as <-.
Qed.

Lemma leaf_entries_sorted c l : forall i, StronglySorted Z.lt (e_block <$> leaf_entries (stored_walk context c l i)).
Proof.
  assert (Happ : forall a b : list Z, StronglySorted Z.lt a -> StronglySorted Z.lt b ->
    (forall x y, x ∈ a -> y ∈ b -> x < y) -> StronglySorted Z.lt (a ++ b)).
  { intros a b Ha Hb Hab. induction Ha as [|x a Ha IH Hx]; [done|]. cbn [app]. constructor.
    - apply IH. intros u v Hu. apply Hab. by apply list_elem_of_further.
    - apply Forall_app. split; [done|]. apply Forall_forall. intros v Hv. apply Hab; [apply list_elem_of_here|done]. }
  induction l as [|l IH]; intros i; cbn [stored_walk]; destruct (tnode context c _ i) as [n|]; [|constructor| |constructor].
  - unfold leaf_entries. cbn. by repeat constructor.
  - change (leaf_entries ((S l, i, n) :: ?r)) with (leaf_entries r). rewrite leaf_entries_app, fmap_app. apply Happ; [apply IH..|].
    intros x y ([[x' ?] ?] & -> & Hx)%list_elem_of_fmap ([[y' ?] ?] & -> & Hy)%list_elem_of_fmap. unfold e_block. cbn [fst].
    apply leaf_entries_elem in Hx as [_ Hx], Hy as [_ Hy]. pose proof (pow2_pos l).
    pose proof (Z.div_mod x' (2 ^ Z.of_nat l) ltac:(lia)). pose proof (Z.mod_pos_bound x' (2 ^ Z.of_nat l) ltac:(lia)).
    pose proof (Z.div_mod y' (2 ^ Z.of_nat l) ltac:(lia)). pose proof (Z.mod_pos_bound y' (2 ^ Z.of_nat l) ltac:(lia)). nia.
Qed.

Lemma strict_NoDup (l : list Z) : StronglySorted Z.lt l -> NoDup l.
Proof.
  induction 1 as [|k l _ IH Hk]; [constructor|]. constructor; [|done].
  intros Hin. rewrite Forall_forall in Hk. specialize (Hk k Hin). lia.
Qed.

(** Strictly ascending lists of entries with the same members are equal. *)
Lemma ascending_unique (a b : list entry) :
  StronglySorted Z.lt (e_block <$> a) -> StronglySorted Z.lt (e_block <$> b) -> (forall e, e ∈ a <-> e ∈ b) -> a = b.
Proof.
  revert b. induction a as [|x a IH]; intros [|y b] Ha Hb He.
  - done.
  - exfalso. pose proof (proj2 (He y) (list_elem_of_here _ _)) as H. by apply elem_of_nil in H.
  - exfalso. pose proof (proj1 (He x) (list_elem_of_here _ _)) as H. by apply elem_of_nil in H.
  - cbn [fmap list_fmap] in Ha, Hb. inversion Ha as [|? ? Ha' Hx]; subst. inversion Hb as [|? ? Hb' Hy]; subst.
    rewrite Forall_fmap, Forall_forall in Hx, Hy. unfold compose in *.
    assert (x = y) as ->.
    { pose proof (proj1 (He x) (list_elem_of_here _ _)) as [->|H1]%elem_of_cons; [done|].
      pose proof (proj2 (He y) (list_elem_of_here _ _)) as [->|H2]%elem_of_cons; [done|].
      specialize (Hx y H2). specialize (Hy x H1). simpl in *. lia. }
    f_equal. apply IH; [done..|]. intros e. split; intros H.
    + pose proof (proj1 (He e) (list_elem_of_further _ _ _ H)) as [->|H']%elem_of_cons; [|done]. specialize (Hx y H). simpl in Hx. lia.
    + pose proof (proj2 (He e) (list_elem_of_further _ _ _ H)) as [->|H']%elem_of_cons; [|done]. specialize (Hy y H). simpl in Hy. lia.
Qed.

(** Every block is read back, ascending. *)
Lemma entries_spec s flat : represents context application s (contents_of flat) ->
  StronglySorted Z.lt (e_block <$> flat) -> Forall (fun e => 0 < e_coins e) flat -> Forall (fun e => 0 <= e_block e < 2 ^ Z.of_nat LEVELS) flat ->
  entries s application = Ok flat.
Proof.
  intros Hs Hsort Hp Hr. rewrite (entries_found s _ (stored_positions_spec context application _ s Hs)).
  apply (f_equal Ok). apply ascending_unique; [apply leaf_entries_sorted|done|]. rewrite Forall_forall in Hr.
  pose proof (strict_NoDup _ Hsort) as Hnd.
  intros [[b n] r]. split.
  - intros [Hb _]%leaf_entries_elem. rewrite contents_of_lookup in Hb by done.
    destruct (search e_block b flat) as [e|] eqn:E; [|done]. apply search_Some_in in E as [He <-]. injection Hb as <- <-. by destruct e as [[? ?] ?].
  - intros He. assert (Hl : contents_of flat !! b = Some (n, r)).
    { rewrite contents_of_lookup by done. pose proof (search_unique e_block flat (b, n, r) He Hnd) as E.
      change (e_block (b, n, r)) with b in E. by rewrite E. }
    assert (Hin : (0%nat, b, mkTreeNode n 1 r) ∈ stored_walk context (contents_of flat) LEVELS 0).
    { apply walk_elem; [split; [lia|]; rewrite Nat.sub_0_r; by apply (Hr (b, n, r))|]. cbn [tnode]. by rewrite Hl. }
    apply list_elem_of_fmap. exists (0%nat, b, mkTreeNode n 1 r). split; [done|]. apply elem_of_filter_b. done.
Qed.

(** *** Upgrading *)

Lemma read_beside_flat v s l i : read_node (write_local application BLOCK_SUMMARY_ADDRESS v s) application l i = read_node s application l i.
Proof.
  unfold read_node. rewrite read_write_local, bool_decide_eq_false_2; [done|]. intros E. symmetry in E. by apply node_address_moved in E.
Qed.

Lemma legacy_after_moved s : legacy_summary (write_local application BLOCK_SUMMARY_ADDRESS MOVED s) application = Ok None.
Proof. unfold legacy_summary. rewrite read_write_local, bool_decide_eq_true_2 by done. by rewrite bool_decide_eq_true_2. Qed.

Lemma represents_beside_flat v s c : represents context application s c ->
  represents context application (write_local application BLOCK_SUMMARY_ADDRESS v s) c.
Proof. intros Hs l i Hi. rewrite read_beside_flat. by apply Hs. Qed.

Lemma legacy_inv s flat : legacy_summary s application = Ok (Some flat) ->
  StronglySorted Z.lt (e_block <$> flat) /\ (length flat <= MAX_NONEMPTY_BLOCKS)%nat.
Proof.
  unfold legacy_summary. destruct (read_local s application BLOCK_SUMMARY_ADDRESS) as [bs|]; [|done].
  destruct (bool_decide (bs = MOVED)); [done|]. unfold summary_decode.
  destruct (negb (length bs mod ENTRY =? 0)%nat); [done|]. destruct (Nat.ltb_spec MAX_NONEMPTY_BLOCKS (length bs / ENTRY)) as [|Hcap]; [done|]. cbn [orb].
  destruct (try_map get_entry _) as [blocks| |] eqn:Em; [|done..]. cbn [mbind outcome_bind].
  destruct (not_ascending e_block blocks) eqn:Ea; [done|]. cbn [mbind outcome_bind]. intros [= <-]. split.
  - clear -Ea. apply Sorted_StronglySorted; [intros ???; lia|]. induction blocks as [|x [|y l] IH]; [constructor|by repeat constructor|].
    change (not_ascending e_block (x :: y :: l)) with ((e_block y <=? e_block x) || not_ascending e_block (y :: l)) in Ea.
    apply orb_false_iff in Ea as [Exy Ea]. apply Z.leb_gt in Exy. cbn [fmap list_fmap]. constructor; [by apply IH|]. by constructor.
  - apply try_map_inv, Forall2_length in Em. unfold chunks in Em. rewrite length_fmap, length_seq in Em. lia.
Qed.

Lemma size_contents (es : list entry) : (size (contents_of es) <= length es)%nat.
Proof.
  unfold contents_of, set_leaves. induction es as [|e es IH]; cbn [foldr length]; [by rewrite map_size_empty|].
  destruct (0 <? e_coins e).
  - rewrite map_size_insert. destruct (foldr _ ∅ es !! e_block e); simpl; lia.
  - rewrite map_size_delete. destruct (foldr _ ∅ es !! e_block e); simpl; lia.
Qed.

(** The coins of a summary do not depend on how it is held. *)
Lemma weigh_contents (es : list entry) : NoDup (e_block <$> es) -> Forall (fun e => 0 < e_coins e) es ->
  Forall (fun e => 0 <= e_block e < 2 ^ Z.of_nat LEVELS) es -> weigh e_coins (entries_of (contents_of es)) = weigh e_coins es.
Proof.
  intros Hnd Hp Hr. assert (Hc : lawful (contents_of es)) by (apply set_leaves_lawful; [done|apply map_Forall_empty]).
  destruct (top_totals context _ Hc) as [<- _]. destruct (tnode_weigh context es LEVELS Hnd Hp 0) as [-> _]. by rewrite below_top.
Qed.

Lemma upgrade_spec c flat s :
  represents context application s c -> lawful c -> legacy_summary s application = Ok (Some flat) ->
  Forall (fun e => 0 <= e_block e < 2 ^ Z.of_nat LEVELS) flat -> Forall (fun e => 0 < e_coins e) flat -> weigh e_coins flat <= u64_max ->
  exists s', upgrade t s = (Ok true, s') /\ represents context application s' (contents_of flat) /\
    legacy_summary s' application = Ok None.
Proof.
  intros Hs Hc El Hr Hp Hmax. destruct (legacy_inv s flat El) as [Hsort Hlen].
  pose proof (strict_NoDup _ Hsort) as Hnd.
  assert (Hc' : lawful (contents_of flat)) by (apply set_leaves_lawful; [done|apply map_Forall_empty]).
  assert (Hcnt : counted context (contents_of flat)) by (apply counted_weigh; [done|by rewrite weigh_contents]).
  destruct (replace_represents context application c flat s Hs Hc (conj Hnd Hr) Hcnt) as (s1 & E & Hs1).
  fold (contents_of flat) in Hs1. rewrite (check_cap_spec s1 _ Hs1 Hc') in E. unfold over_cap in E.
  destruct (Z.ltb_spec (Z.of_nat MAX_NONEMPTY_BLOCKS) (Z.of_nat (size (contents_of flat)))); [pose proof (size_contents flat); lia|].
  exists (write_local application BLOCK_SUMMARY_ADDRESS MOVED s1). split; [|split; [by apply represents_beside_flat|apply legacy_after_moved]].
  unfold upgrade. erewrite st_bind_run; [|unfold st_read; cbn [s_application new_summary_tree]; by rewrite El].
  cbv iota. erewrite st_bind_run; [|exact E]. erewrite st_bind_run; [|done]. done.
Qed.
End operations.

(** ** Reports *)

Section reports.
Context {Membership : MembershipKey}.
Variables (context application : bytes) (coins : list CoinRecord) (summary : list (Z * Z * MNode)).
Local Abbreviation key := (derive context).
Local Abbreviation fn := (coin_fn context coins).
Hypothesis Hsum : summarises context coins summary.
Local Abbreviation c := (contents_of summary).

Lemma summary_positive : Forall (fun e => 0 < e_coins e) summary.
Proof.
  apply Forall_forall. intros e He. pose proof (su_entry _ _ _ Hsum) as Hent. rewrite Forall_forall in Hent. specialize (Hent e He).
  destruct (block_spec context coins summary Hsum e Hent) as [-> _]. pose proof (be_some _ _ _ Hent).
  destruct (block_coins coins (e_block e)); [done|simpl; lia].
Qed.

(** Blocks named or not, the summary's roots are the tree's nodes. *)
Lemma root_fn_summary b : root_fn context c b = mnode key fn SUBTREE_BITS b.
Proof.
  unfold root_fn. rewrite contents_of_lookup by apply summary_positive. destruct (search e_block b summary) as [e|] eqn:E.
  - apply search_Some_in in E as [He <-]. pose proof (su_entry _ _ _ Hsum) as Hent. rewrite Forall_forall in Hent.
    by destruct (block_spec context coins summary Hsum e (Hent e He)) as [_ <-].
  - symmetry. apply mnode_zero. intros p Hp. apply coin_fn_absent. intros (x & -> & Hx)%list_elem_of_fmap.
    pose proof (su_cover _ _ _ Hsum x Hx) as Hc. apply search_None_notin in E. apply E.
    rewrite locate_block, shiftr_div in Hc. pose proof (pow2_pos SUBTREE_BITS).
    replace b with (coin_position x / 2 ^ Z.of_nat SUBTREE_BITS); [done|]. symmetry. apply Z.div_unique with (coin_position x - b * 2 ^ Z.of_nat SUBTREE_BITS); lia.
Qed.

Lemma stored_root l i : mnode key (root_fn context c) l i = mnode key fn (l + SUBTREE_BITS) i.
Proof. rewrite <- mnode_mnode. apply mnode_ext. intros b _. apply root_fn_summary. Qed.

Lemma filter_ext_elem {A} (p q : A -> bool) (l : list A) : (forall x, x ∈ l -> p x = q x) -> List.filter p l = List.filter q l.
Proof. intros H. apply List.filter_ext_in. intros x Hx%list_elem_of_In. by apply H. Qed.

(** The blocks below a shard's node of one width are its layer. *)
Lemma layer_below shard w : (length shard <= w <= MAX_BLOCK_BITS)%nat ->
  List.filter (below_node (w - length shard) (part_index shard)) summary = layer_of_width shard summary w.
Proof.
  intros Hw. unfold layer_of_width. apply filter_ext_elem. intros e He. apply eq_true_iff_eq. unfold below_node. rewrite Z.eqb_eq. split.
  - intros E. pose proof (layer_has context coins summary Hsum shard w e He Hw E) as H. by apply elem_of_filter_b in H as [_ H].
  - intros Hb. assert (Hin : e ∈ layer_of_width shard summary w) by (by apply elem_of_filter_b).
    by destruct (layer_entry context coins summary Hsum shard w e Hin) as (_ & _ & _ & ?).
Qed.

Section stored.
Variable s : Store.
Hypothesis Hs : represents context application s c.

(** One stored node is one layer of the report. *)
Lemma stored_node shard w : (INITIAL_BLOCK_BITS <= w <= MAX_BLOCK_BITS)%nat -> (length shard <= w)%nat ->
  (p ← subtree_position w shard; subtree s application p.1 p.2) = Ok (tnode context c (w - length shard) (part_index shard)) /\
  match tnode context c (w - length shard) (part_index shard) with
  | Some nd => layer_of_width shard summary w <> [] /\ mkSubtree w (tn_coins nd) (tn_node nd) = part context coins summary shard w
  | None => layer_of_width shard summary w = []
  end.
Proof.
  intros Hw Hd. rewrite subtree_position_ok by done. cbn [mbind outcome_bind fst snd].
  assert (Hlev : (SUBTREE_BITS + w - length shard - SUBTREE_BITS = w - length shard)%nat) by lia. unfold MAX_BLOCK_BITS in *.
  pose proof (part_index_range shard ltac:(lia)) as Hr. rewrite <- pow2_S in Hr. pose proof (pow2_pos (length shard)).
  assert (Hin : in_tree (w - length shard) (part_index shard)).
  { unfold in_tree. rewrite LEVELS_value. split; [lia|].
    assert (2 ^ Z.of_nat (S (length shard)) <= 2 ^ Z.of_nat (16 - (w - length shard))) by (apply Z.pow_le_mono_r; lia). lia. }
  split.
  - unfold subtree. rewrite (proj2 (Nat.ltb_ge _ _)) by lia. rewrite Hlev, (proj2 (Nat.ltb_ge _ _)) by lia. by apply Hs.
  - destruct (tnode_weigh context summary (w - length shard) (su_distinct _ _ _ Hsum) summary_positive (part_index shard)) as [Ec Eb].
    rewrite layer_below in Ec, Eb by (unfold MAX_BLOCK_BITS; lia).
    pose proof (tnode_root context c (w - length shard) (part_index shard)) as En. rewrite stored_root in En.
    destruct (tnode context c (w - length shard) (part_index shard)) as [nd|] eqn:E.
    + assert (Hlaw : lawful c).
      { apply set_leaves_lawful; [|apply map_Forall_empty]. apply Forall_forall. intros e He.
        pose proof (su_entry _ _ _ Hsum) as Hent. rewrite Forall_forall in Hent. pose proof (be_allocated _ _ _ (Hent e He)) as Ha.
        apply allocated_id in Ha as (v & x & -> & Hx & Hv & _). unfold MAX_BLOCK_BITS in *. rewrite LEVELS_value.
        assert (2 ^ Z.of_nat (S v) <= 2 ^ Z.of_nat 16) by (apply Z.pow_le_mono_r; lia). rewrite pow2_S in *. pose proof (pow2_pos v). lia. }
      destruct (tnode_bounds context c (w - length shard) Hlaw (part_index shard)) as (_ & _ & Hb). rewrite E in Hb.
      pose proof (proj1 Hb ltac:(eauto)) as H1. rewrite Eb in H1. split.
      * intros En'. rewrite En' in H1. unfold weigh in H1. simpl in H1. lia.
      * cbn [field node_or] in Ec, En. rewrite Ec, En. unfold part. f_equal. f_equal. lia.
    + cbn [field] in Eb. rewrite weigh_one in Eb. destruct (layer_of_width shard summary w); [done|simpl in Eb; lia].
Qed.

Lemma stored_layers_spec shard ws : Forall (fun w => (INITIAL_BLOCK_BITS <= w <= MAX_BLOCK_BITS)%nat) ws ->
  stored_layers s application shard ws =
  Ok (part context coins summary shard <$> List.filter (fun w => negb (length (layer_of_width shard summary w) =? 0)%nat) ws).
Proof.
  induction ws as [|w ws IH]; intros Hf; [done|]. apply Forall_cons in Hf as [Hw Hf]. cbn [stored_layers List.filter].
  destruct (Nat.ltb_spec w (length shard)) as [Hlt|Hge].
  - rewrite IH by done. destruct (layer_of_width shard summary w) as [|e l] eqn:El; [done|].
    assert (He : e ∈ layer_of_width shard summary w) by (rewrite El; apply list_elem_of_here).
    destruct (layer_entry context coins summary Hsum shard w e He) as (_ & ? & _). lia.
  - destruct (stored_node shard w Hw Hge) as [E Hn]. rewrite subtree_position_ok in E |- * by done. cbn [mbind outcome_bind] in E |- *.
    rewrite E. cbn [mbind outcome_bind]. rewrite IH by done. cbn [mbind outcome_bind].
    destruct (tnode context c (w - length shard) (part_index shard)) as [nd|].
    + destruct Hn as [Hne ->]. by destruct (layer_of_width shard summary w).
    + by rewrite Hn.
Qed.

(** Widths outside the range have no layer. *)
Lemma layer_widths_range_only shard :
  layer_widths shard summary = List.filter (fun w => negb (length (layer_of_width shard summary w) =? 0)%nat)
                                 (seq INITIAL_BLOCK_BITS (S MAX_BLOCK_BITS - INITIAL_BLOCK_BITS)).
Proof.
  assert (Hout : forall l, (forall w, w ∈ l -> ~ (INITIAL_BLOCK_BITS <= w <= MAX_BLOCK_BITS)%nat) ->
    List.filter (fun w => negb (length (layer_of_width shard summary w) =? 0)%nat) l = []).
  { intros l Hl. induction l as [|w l IH]; [done|]. cbn [List.filter].
    destruct (layer_of_width shard summary w) as [|e es] eqn:El; [apply IH; intros x Hx; apply Hl; by apply list_elem_of_further|].
    exfalso. apply (Hl w); [apply list_elem_of_here|]. destruct (layer_width context coins summary Hsum shard w) as [_ ?]; [by rewrite El|done]. }
  unfold layer_widths. replace (seq 0 64) with (seq 0 INITIAL_BLOCK_BITS ++ seq INITIAL_BLOCK_BITS (S MAX_BLOCK_BITS - INITIAL_BLOCK_BITS) ++ seq (S MAX_BLOCK_BITS) 48) by done.
  rewrite !List.filter_app. rewrite (Hout (seq 0 INITIAL_BLOCK_BITS)), (Hout (seq (S MAX_BLOCK_BITS) 48)); [by rewrite app_nil_r| |];
    intros w Hw%elem_of_seq; unfold INITIAL_BLOCK_BITS, MAX_BLOCK_BITS in *; lia.
Qed.

Lemma stored_report shard atts : legacy_summary s application = Ok None ->
  shard_report context application shard atts s = report_from_summary context shard summary atts.
Proof.
  intros El. rewrite (report_spec context coins summary Hsum). unfold shard_report. rewrite El. cbn [mbind outcome_bind].
  rewrite stored_layers_spec.
  - rewrite <- layer_widths_range_only. cbn [mbind outcome_bind]. unfold shard_parts. by destruct (part context coins summary shard <$> layer_widths shard summary), atts.
  - apply Forall_forall. intros w Hw%elem_of_seq. unfold INITIAL_BLOCK_BITS, MAX_BLOCK_BITS in *. lia.
Qed.
End stored.
End reports.

(** ** A small store *)

Lemma represents_empty {M : MembershipKey} (context application : bytes) (s : Store) :
  (forall a, read_local s application a = None) -> represents context application s ∅.
Proof.
  intros Hs l i [Hl Hi]. unfold read_node. rewrite (proj2 (Nat.ltb_ge _ _)) by done. rewrite (proj2 (Z.leb_gt _ _)) by lia. cbn [orb].
  rewrite Hs. f_equal. clear. revert i. induction l as [|l IH]; intros i; cbn [tnode]; [by rewrite lookup_empty|]. by rewrite <- !IH.
Qed.

Lemma read_local_fresh application address value s a :
  read_local s application a = None -> address <> a -> read_local (write_local application address value s) application a = None.
Proof. intros Hs Hne. by rewrite read_write_local, bool_decide_eq_false_2. Qed.

Module SummaryDemo.
Import CoinDemo.

Definition empty_store : Store := mkStore [] (fun _ => None) (fun _ _ => None).
Definition demo_leaves : list (Z * Z * MNode) := [(64, 1, z2b 5); (65, 2, z2b 6)].

Lemma empty_represents : represents ctx (addr 1) empty_store ∅.
Proof. by apply represents_empty. Qed.

Lemma leaves_fine : leaves_ok demo_leaves.
Proof.
  split; [by apply (bool_decide_unpack _); vm_compute|].
  apply Forall_cons. split; [split; [apply Z.leb_le|apply Z.ltb_lt]; reflexivity|].
  apply Forall_singleton. split; [apply Z.leb_le|apply Z.ltb_lt]; reflexivity.
Qed.

(** The same blocks in a flat record. *)
Definition flat_store : Store := write_local (addr 1) BLOCK_SUMMARY_ADDRESS (summary_encode demo_leaves) empty_store.

Lemma flat_represents : represents ctx (addr 1) flat_store ∅.
Proof. apply represents_beside_flat, empty_represents. Qed.

Lemma flat_legacy : legacy_summary flat_store (addr 1) = Ok (Some demo_leaves).
Proof. unfold legacy_summary, flat_store. rewrite read_write_local, bool_decide_eq_true_2 by done. by vm_compute. Qed.

(** The blocks of the application of [ReportDemo], stored. *)
Lemma report_store r r' : exists s, represents ctx (addr 1) s (contents_of (ReportDemo.summary r r')) /\ legacy_summary s (addr 1) = Ok None.
Proof.
  assert (Hnd : NoDup (e_block <$> ReportDemo.summary r r')) by (by apply (bool_decide_unpack _); vm_compute).
  assert (Hr : Forall (fun e => 0 <= e_block e < 2 ^ Z.of_nat LEVELS) (ReportDemo.summary r r')).
  { apply Forall_cons. split; [split; [apply Z.leb_le|apply Z.ltb_lt]; reflexivity|].
    apply Forall_singleton. split; [apply Z.leb_le|apply Z.ltb_lt]; reflexivity. }
  assert (Hp : Forall (fun e => 0 < e_coins e) (ReportDemo.summary r r')) by repeat constructor.
  destruct (replace_represents ctx (addr 1) ∅ (ReportDemo.summary r r') empty_store empty_represents (map_Forall_empty _) (conj Hnd Hr)) as (s & _ & Hs).
  - apply counted_weigh; [apply set_leaves_lawful; [done|apply map_Forall_empty]|]. fold (contents_of (ReportDemo.summary r r')).
    rewrite (weigh_contents ctx) by done. apply Z.leb_le. reflexivity.
  - exists (write_local (addr 1) BLOCK_SUMMARY_ADDRESS MOVED s). split; [by apply represents_beside_flat|apply legacy_after_moved].
Qed.
End SummaryDemo.

(** ** Theorems *)

(** C25. Updating the stored summary is exact: from a store that holds the tree over
    some blocks, setting blocks of distinct ids in the range of the tree (a count of
    zero clears one), with the new coin counts adding up to a [u64] at most, leaves
    the store holding, node by node, the tree over the new blocks; its root is the
    root of the accumulator over the blocks, and the operation returns an error
    exactly when more blocks hold coins than the cap. *)
Theorem summary_update_exact :
  forall (M : MembershipKey) (L : LawfulNodes) (context application : bytes) (c : gmap Z (Z * MNode))
    (leaves : list (Z * Z * MNode)) (s : Store),
  represents context application s c -> lawful c -> leaves_ok leaves ->
  weigh e_coins (entries_of (set_leaves leaves c)) <= u64_max ->
  exists s', update (new_summary_tree context application) leaves s =
      ((if over_cap (set_leaves leaves c) then Err InvalidArgument else Ok tt), s') /\
    represents context application s' (set_leaves leaves c) /\
    tree_root (new_summary_tree context application) s' =
      Ok (mnode (derive context) (root_fn context (set_leaves leaves c)) LEVELS 0).
Proof.
  intros M L context application c leaves s Hs Hc Hok Hmax.
  assert (Hc' : lawful (set_leaves leaves c)) by (apply set_leaves_lawful; [by destruct Hok|done]).
  destruct (update_loop_represents context application c leaves s Hs Hc Hok (counted_weigh context _ Hc' Hmax)) as (s' & E & Hs').
  exists s'. rewrite E, (check_cap_spec context application s' _ Hs' Hc'). split; [done|]. split; [done|]. by apply tree_root_spec.
Qed.

Lemma summary_update_exact_witness :
  exists s', update (new_summary_tree CoinDemo.ctx (CoinDemo.addr 1)) SummaryDemo.demo_leaves SummaryDemo.empty_store =
      ((if over_cap (set_leaves SummaryDemo.demo_leaves ∅) then Err InvalidArgument else Ok tt), s') /\
    represents CoinDemo.ctx (CoinDemo.addr 1) s' (set_leaves SummaryDemo.demo_leaves ∅).
Proof.
  destruct (summary_update_exact CoinDemo.byte_key CoinDemo.byte_key_lawful CoinDemo.ctx (CoinDemo.addr 1) ∅ SummaryDemo.demo_leaves
              SummaryDemo.empty_store SummaryDemo.empty_represents (map_Forall_empty _) SummaryDemo.leaves_fine) as (s' & E & Hs' & _).
  - apply Z.leb_le. reflexivity.
  - exists s'. split; [exact E|exact Hs'].
Defined.

(** Replacing the stored summary is exact: whatever blocks the store held, after
    [replace] it holds the tree over exactly the named blocks, every stale node
    reads as absent, and reading all nodes back, a loop over an explicit stack,
    ends and returns the named blocks in ascending order. *)
Theorem summary_replace_exact :
  forall (M : MembershipKey) (L : LawfulNodes) (context application : bytes) (c : gmap Z (Z * MNode))
    (leaves : list (Z * Z * MNode)) (s : Store),
  represents context application s c -> lawful c -> leaves_ok leaves ->
  StronglySorted Z.lt (e_block <$> leaves) -> Forall (fun e => 0 < e_coins e) leaves ->
  weigh e_coins (entries_of (contents_of leaves)) <= u64_max ->
  exists s', replace (new_summary_tree context application) leaves s =
      ((if over_cap (contents_of leaves) then Err InvalidArgument else Ok tt), s') /\
    represents context application s' (contents_of leaves) /\
    entries s' application = Ok leaves.
Proof.
  intros M L context application c leaves s Hs Hc Hok Hsort Hp Hmax.
  assert (Hc' : lawful (contents_of leaves)) by (apply set_leaves_lawful; [by destruct Hok|apply map_Forall_empty]).
  destruct (replace_represents context application c leaves s Hs Hc Hok (counted_weigh context _ Hc' Hmax)) as (s' & E & Hs').
  exists s'. rewrite E, (check_cap_spec context application s' _ Hs' Hc'). split; [done|]. split; [done|].
  apply (entries_spec context); [done..|]. by destruct Hok.
Qed.

Lemma summary_replace_exact_witness :
  exists s', replace (new_summary_tree CoinDemo.ctx (CoinDemo.addr 1)) SummaryDemo.demo_leaves SummaryDemo.empty_store =
      ((if over_cap (contents_of SummaryDemo.demo_leaves) then Err InvalidArgument else Ok tt), s') /\
    entries s' (CoinDemo.addr 1) = Ok SummaryDemo.demo_leaves.
Proof.
  destruct (summary_replace_exact CoinDemo.byte_key CoinDemo.byte_key_lawful CoinDemo.ctx (CoinDemo.addr 1) ∅ SummaryDemo.demo_leaves
              SummaryDemo.empty_store SummaryDemo.empty_represents (map_Forall_empty _)) as (s' & E & _ & Hs').
  - exact SummaryDemo.leaves_fine.
  - repeat constructor.
  - repeat constructor.
  - apply Z.leb_le. reflexivity.
  - exists s'. split; [exact E|exact Hs'].
Defined.

(** Upgrading a flat summary keeps what it says: the tree replaces the flat
    record exactly once, whatever tree nodes were stored before, and the summary,
    its coin total and the application root read the same before and after. *)
Theorem summary_upgrade_preserves :
  forall (M : MembershipKey) (L : LawfulNodes) (context application : bytes) (c : gmap Z (Z * MNode))
    (flat : list (Z * Z * MNode)) (s : Store),
  represents context application s c -> lawful c -> legacy_summary s application = Ok (Some flat) ->
  Forall (fun e => 0 <= e_block e < 2 ^ Z.of_nat LEVELS) flat -> Forall (fun e => 0 < e_coins e) flat ->
  weigh e_coins flat <= u64_max ->
  exists s', upgrade (new_summary_tree context application) s = (Ok true, s') /\
    block_summary s application = Ok flat /\ block_summary s' application = Ok flat /\
    summary_coins s application = Ok (weigh e_coins flat) /\ summary_coins s' application = Ok (weigh e_coins flat) /\
    tree_root (new_summary_tree context application) s' = Ok (mnode (derive context) (root_fn context (contents_of flat)) LEVELS 0) /\
    upgrade (new_summary_tree context application) s' = (Ok false, s').
Proof.
  intros M L context application c flat s Hs Hc El Hr Hp Hmax. destruct (legacy_inv application s flat El) as [Hsort _].
  destruct (upgrade_spec context application c flat s Hs Hc El Hr Hp Hmax) as (s' & E & Hs' & El'). exists s'. split; [done|].
  pose proof (strict_NoDup _ Hsort) as Hnd.
  assert (Hpos : 0 <= weigh e_coins flat) by (clear -Hp; unfold weigh; induction Hp; simpl; lia).
  split; [unfold block_summary; by rewrite El|]. split; [unfold block_summary; rewrite El'; cbn [mbind outcome_bind]; by apply (entries_spec context)|].
  split; [|split; [|split; [by apply tree_root_spec|]]].
  - unfold summary_coins. rewrite El. cbn [mbind outcome_bind]. unfold ck_u64. fold (weigh e_coins flat).
    by rewrite (proj2 (Z.leb_le _ _) Hpos), (proj2 (Z.leb_le _ _) Hmax).
  - rewrite (summary_coins_spec context application s' (contents_of flat)); [by rewrite (weigh_contents context)|done| |done].
    apply set_leaves_lawful; [done|apply map_Forall_empty].
  - unfold upgrade. erewrite st_bind_run; [|unfold st_read; cbn [s_application new_summary_tree]; by rewrite El']. done.
Qed.

Lemma summary_upgrade_preserves_witness :
  exists s', @upgrade CoinDemo.byte_key (new_summary_tree CoinDemo.ctx (CoinDemo.addr 1)) SummaryDemo.flat_store = (Ok true, s') /\
    block_summary s' (CoinDemo.addr 1) = Ok SummaryDemo.demo_leaves.
Proof.
  destruct (summary_upgrade_preserves CoinDemo.byte_key CoinDemo.byte_key_lawful CoinDemo.ctx (CoinDemo.addr 1) ∅ SummaryDemo.demo_leaves
              SummaryDemo.flat_store) as (s' & E & _ & Hb & _).
  - exact SummaryDemo.flat_represents.
  - apply map_Forall_empty.
  - exact SummaryDemo.flat_legacy.
  - exact (proj2 SummaryDemo.leaves_fine).
  - repeat constructor.
  - apply Z.leb_le. reflexivity.
  - exists s'. split; [exact E|exact Hb].
Defined.

(** C26. A report read from single nodes is the report folded from the whole
    summary: when the store holds the tree of an application's summary, every
    shard's report, made from one stored node per width, equals the one folded
    from the summary's blocks, and the stored root is the root of the tree over
    all the application's coins. *)
Theorem stored_report_equals_folded :
  forall (M : MembershipKey) (context application : bytes) (coins : list CoinRecord) (summary : list (Z * Z * MNode))
    (s : Store) (t : ShardedCoinTree),
  summarises context coins summary -> represents context application s (contents_of summary) ->
  legacy_summary s application = Ok None ->
  sharded_build context (mkShape BLOCK_INDEX_BITS SUBTREE_BITS) coins = inr t ->
  (forall shard atts, shard_report context application shard atts s = report_from_summary context shard summary atts) /\
  tree_root (new_summary_tree context application) s = Ok (sharded_root t).
Proof.
  intros M context application coins summary s t Hsum Hs El Hb. split.
  - intros shard atts. by apply (stored_report context application coins summary).
  - rewrite (tree_root_spec context application s _ Hs), (stored_root context coins summary Hsum).
    rewrite (sharded_root_spec context _ coins (su_shardable _ _ _ Hsum) t Hb). reflexivity.
Qed.

Lemma stored_report_equals_folded_witness :
  exists r r' s t,
    (forall shard atts, shard_report CoinDemo.ctx (CoinDemo.addr 1) shard atts s =
       report_from_summary CoinDemo.ctx shard (ReportDemo.summary r r') atts) /\
    @tree_root CoinDemo.byte_key (new_summary_tree CoinDemo.ctx (CoinDemo.addr 1)) s = Ok (sharded_root t).
Proof.
  destruct ReportDemo.application_summarised as (r & r' & Hsum).
  destruct (sharded_build_spec CoinDemo.ctx _ ReportDemo.coins (su_shardable _ _ _ Hsum)) as (t & Hb & _).
  destruct (SummaryDemo.report_store r r') as (s & Hs & El).
  exists r, r', s, t.
  exact (stored_report_equals_folded CoinDemo.byte_key CoinDemo.ctx (CoinDemo.addr 1) ReportDemo.coins (ReportDemo.summary r r') s t Hsum Hs El Hb).
Defined.
