(* ===== verification/ShardPaths.v ===== *)
(** * Shard paths: addressing, routing and the application root

    The pure part of [crates/quil-forest/src/lib.rs].  A shard of an application
    is a bit path: the shard holds the addresses the path is a prefix of.  This
    file models the encodings of paths (packed filters, prefixes of levels), the
    split of a shard, the routing of an address to its shard, and the hash tree
    over the shards' roots with its membership paths.

    Levels of a prefix are [Z] (the code's [u32]), depths and lengths [nat]. *)

From Stdlib Require Import Strings.Byte.
From stdpp Require Import sorting.
From S2P Require Import Prelude Bytes Node Tree VertexCommit Merkle CoinTree CoinTreeCorrect CoinBlocks.

(** ** Leaf encodings *)

(** [vertex_leaf_size] *)
Definition vertex_leaf_size (value : bytes) : Z :=
  if (40 <=? length value)%nat then be_Z (take 8 (drop 32 value)) else 0.

(** [AppEntry] and its encoding. *)
Record AppEntry : Type := mkAppEntry {
  ae_app_root : bytes; ae_num_leaves : Z; ae_total_size : Z; ae_metadata : bytes;
}.
Definition app_entry_to_bytes (e : AppEntry) : bytes :=
  ae_app_root e ++ be_bytes 8 (ae_num_leaves e) ++ be_bytes 16 (ae_total_size e) ++ ae_metadata e.
Definition app_entry_from_bytes (b : bytes) : option AppEntry :=
  if (length b <? 56)%nat then None
  else Some (mkAppEntry (take 32 b) (be_Z (take 8 (drop 32 b))) (be_Z (take 16 (drop 40 b))) (drop 56 b)).

(** [shard_path_key_hash]: the key's own bytes, left-aligned in 32. *)
Definition shard_path_key_hash (key : bytes) : bytes := resize 32 x00 key.

(** ** Paths *)

(** The bit [(b >> (7 - i % 8)) & 1] of byte [i / 8]. *)
Definition packed_bit (b : byte) (i : nat) : bool := Z.land (Z.shiftr (b2z b) (Z.of_nat (7 - i mod 8))) 1 =? 1.
Definition data_bit (data : bytes) (i : nat) : bool :=
  match data !! (i / 8)%nat with Some b => packed_bit b i | None => false end.

(** [shard_index]: the top bits of an address as a [u32]. *)
Definition shard_index (address : bytes) (shard_depth : nat) : Z :=
  foldl (fun idx i => Z.lor (wrap_u32 (Z.shiftl idx 1)) (Z.b2z (data_bit address i))) 0 (seq 0 shard_depth).

(** [prefix_to_bits] *)
Definition level_bits (width : nat) (lvl : Z) : list bool :=
  (fun i => Z.land (Z.shiftr lvl (Z.of_nat i)) 1 =? 1) <$> reverse (seq 0 width).
Definition prefix_to_bits (prefix : list Z) (bits_per_level : nat) : list bool :=
  concat (level_bits bits_per_level <$> prefix).

Definition SHARD_BIT_LEN_BYTES : nat := 2.

(** [usize::div_ceil(8)] *)
Definition div_ceil8 (n : nat) : nat := (n / 8 + (if n mod 8 =? 0 then 0 else 1))%nat.

(** [pack_bits]: sets the bits one by one in a zeroed buffer. *)
Fixpoint pack_loop (out : bytes) (i : nat) (bit_path : list bool) : outcome bytes :=
  match bit_path with
  | [] => Ok out
  | true :: rest =>
      b ← unwrap (out !! (i / 8)%nat);
      pack_loop (<[(i / 8)%nat := z2b (Z.lor (b2z b) (Z.shiftl 1 (Z.of_nat (7 - i mod 8))))]> out) (S i) rest
  | false :: rest => pack_loop out (S i) rest
  end.
Definition pack_bits (bit_path : list bool) : outcome bytes :=
  pack_loop (replicate (div_ceil8 (length bit_path)) x00) 0 bit_path.

(** [encode_shard_bit_path] *)
Definition encode_shard_bit_path (app : bytes) (bit_path : list bool) : outcome bytes :=
  packed ← pack_bits bit_path;
  Ok (app ++ be_bytes 2 (Z.of_nat (length bit_path)) ++ packed).

(** [decode_shard_bit_path] *)
Definition decode_shard_bit_path (filter : bytes) (app_len : nat) : option (bytes * list bool) :=
  if (length filter <? app_len + SHARD_BIT_LEN_BYTES)%nat then None
  else
    let app := take app_len filter in
    let n := Z.to_nat (be_Z (take SHARD_BIT_LEN_BYTES (drop app_len filter))) in
    let n_bytes := div_ceil8 n in
    if negb (length filter =? app_len + SHARD_BIT_LEN_BYTES + n_bytes)%nat then None
    else
      let packed := drop (app_len + SHARD_BIT_LEN_BYTES) filter in
      if existsb (data_bit packed) (seq n (n_bytes * 8 - n)) then None
      else Some (app, data_bit packed <$> seq 0 n).

(** [bit_path_starts_with] *)
Definition bit_path_starts_with (child parent : list bool) : bool :=
  (length parent <=? length child)%nat && bool_decide (take (length parent) child = parent).

(** [decode_shard_filter_or_root] *)
Definition decode_shard_filter_or_root (filter : bytes) (app_len : nat) : option (bytes * list bool) :=
  if (length filter =? app_len)%nat then Some (take app_len filter, [])
  else if (app_len <? length filter)%nat && (length filter <? app_len + SHARD_BIT_LEN_BYTES)%nat
  then Some (take app_len filter, prefix_to_bits (b2z <$> drop app_len filter) 6)
  else decode_shard_bit_path filter app_len.

(** [shard_filter_extends] *)
Definition shard_filter_extends (child_filter parent_filter : bytes) (app_len : nat) : bool :=
  match decode_shard_filter_or_root child_filter app_len, decode_shard_filter_or_root parent_filter app_len with
  | Some (ca, cb), Some (pa, pb) => bool_decide (ca = pa) && bit_path_starts_with cb pb
  | _, _ => false
  end.

Definition BIT_PATH_PREFIX_SENTINEL : Z := 0xFFFFFFFF.

(** [bit_path_to_prefix] and [shard_bit_path_from_prefix] *)
Definition bit_path_to_prefix (bit_path : list bool) : list Z := BIT_PATH_PREFIX_SENTINEL :: (Z.b2z <$> bit_path).
Fixpoint levels_to_bits (levels : list Z) : option (list bool) :=
  match levels with
  | [] => Some []
  | l :: rest =>
      b ← (if l =? 0 then Some false else if l =? 1 then Some true else None);
      bits ← levels_to_bits rest; Some (b :: bits)
  end.
Definition shard_bit_path_from_prefix (prefix : list Z) : option (list bool) :=
  match prefix with
  | [] => None
  | head :: rest => if negb (head =? BIT_PATH_PREFIX_SENTINEL) then None else levels_to_bits rest
  end.

(** [shard_prefix_to_filter] *)
Definition shard_prefix_to_filter (l2 : bytes) (prefix : list Z) : outcome bytes :=
  match shard_bit_path_from_prefix prefix with
  | Some bits => encode_shard_bit_path l2 bits
  | None => Ok (l2 ++ (z2b <$> prefix))
  end.

(** [split_spine_siblings] *)
Definition split_spine_siblings (parent branch : list bool) : list (list bool) :=
  (fun i => take i branch ++ [negb (default false (branch !! i))]) <$> seq (length parent) (length branch - length parent).

(** [genesis_grid_prefixes] *)
Definition genesis_grid_prefixes (network : Z) : list (list Z) :=
  if network =? 0 then (fun i => bit_path_to_prefix (prefix_to_bits [Z.of_nat i] 6)) <$> seq 0 64 else [[]].

(** [POSEIDON_ADDRESS_BOUND] and [bit_path_reaches_outputs]: arrays compare as
    big-endian numbers. *)
Definition POSEIDON_ADDRESS_BOUND : Z := 0x30644e72e131a029b85045b68181585d2833e84879b9709143e1f593f0000001.
Definition bit_path_reaches_outputs (bit_path : list bool) : outcome bool :=
  lowest ← pack_loop (replicate 32 x00) 0 (take 256 bit_path);
  Ok (be_Z lowest <? POSEIDON_ADDRESS_BOUND).

(** ** Canonical paths of a set of prefixes *)

(** [Vec::dedup]: drops repeated neighbours. *)
Fixpoint dedup (l : list Z) : list Z :=
  match l with
  | x :: ((y :: _) as rest) => if x =? y then dedup rest else x :: dedup rest
  | _ => l
  end.

(** [u32::leading_zeros] *)
Definition leading_zeros32 (x : Z) : Z := if x =? 0 then 32 else 31 - Z.log2 x.

(** [level_partition]: the bits a level takes and the index of each value. *)
Definition level_partition (values : list Z) : nat * list (Z * Z) :=
  let vs := dedup (sort_by id values) in
  let n := Z.of_nat (length vs) in
  if n <=? 1 then (0%nat, (fun v => (v, 0)) <$> vs)
  else
    let width := 32 - leading_zeros32 (n - 1) in
    let is_dense := bool_decide (vs = Z.of_nat <$> seq 0 (length vs)) in
    let scale := Z.max (256 / n) 1 in
    (Z.to_nat width, (fun v => (v, if is_dense then v else v / scale)) <$> vs).

Definition find_index (map : list (Z * Z)) (value : Z) : Z :=
  match List.find (fun e => e.1 =? value) map with Some e => e.2 | None => 0 end.

(** [canonical_bit_paths_rec]: [fuel] is one more than the levels left.  The
    values of a level are visited in ascending order, as by the [BTreeMap]. *)
Fixpoint canonical_bit_paths_rec (fuel : nat) (prefixes : list (list Z)) (active : list nat) (depth : nat)
    (out : list (list bool)) : list (list bool) :=
  match fuel with
  | O => out
  | S fuel' =>
      let continuing := List.filter (fun i => (depth <? length (default [] (prefixes !! i)))%nat) active in
      match continuing with
      | [] => out
      | _ =>
          let at_depth := fun i => default 0 (default [] (prefixes !! i) !! depth) in
          let partition := level_partition (at_depth <$> continuing) in
          foldl (fun acc value =>
              let group := List.filter (fun i => at_depth i =? value) continuing in
              let idx := find_index partition.2 value in
              let acc' := foldl (fun o i => alter (fun bits => bits ++ level_bits partition.1 idx) i o) acc group in
              canonical_bit_paths_rec fuel' prefixes group (S depth) acc')
            out (dedup (sort_by id (at_depth <$> continuing)))
      end
  end.
Definition canonical_shard_bit_paths (prefixes : list (list Z)) : list (list bool) :=
  canonical_bit_paths_rec (S (list_max (length <$> prefixes))) prefixes (seq 0 (length prefixes)) 0
    (replicate (length prefixes) []).

(** ** Routing *)

(** [addr_has_bit_prefix] *)
Definition addr_has_bit_prefix (data : bytes) (path : list bool) : bool :=
  forallb (fun e => eqb (data_bit data e.1) e.2) (imap pair path).

(** [address_shard_index] *)
Definition address_shard_index (data_addr : bytes) (bit_paths : list (list bool)) : nat :=
  default 0%nat (position (addr_has_bit_prefix data_addr) bit_paths).

(** ** The application root *)

Definition ZERO_ROOT : bytes := replicate 32 x00.

Section roots.
Context `{Sha256}.

(** [hash_pair] *)
Definition hash_pair (l r : bytes) : bytes := sha256 (l ++ r).

(** [build] of [app_root_from_shard_paths]: [fuel] is one more than the levels
    below [depth]; past the longest path a shard that is left is indexed out of
    range. *)
Fixpoint build_paths (fuel : nat) (shards : list (list bool * bytes)) (depth : nat) : outcome bytes :=
  match fuel with
  | O => match shards with [] => Ok ZERO_ROOT | _ => Panic end
  | S fuel' =>
      match shards with
      | [] => Ok ZERO_ROOT
      | s :: rest =>
          if bool_decide (rest = []) && (length s.1 =? depth)%nat then Ok s.2
          else if existsb (fun s => (length s.1 <=? depth)%nat) shards then Panic
          else
            let goes := fun b (s : list bool * bytes) => eqb (default false (s.1 !! depth)) b in
            left ← build_paths fuel' (List.filter (goes false) shards) (S depth);
            right ← build_paths fuel' (List.filter (goes true) shards) (S depth);
            Ok (hash_pair left right)
      end
  end.

(** [app_root_from_shard_paths] *)
Definition app_root_from_shard_paths (shards : list (list bool * bytes)) : outcome bytes :=
  match shards with
  | [] => Ok ZERO_ROOT
  | [([], root)] => Ok root
  | _ => build_paths (S (list_max (length ∘ fst <$> shards))) shards 0
  end.

(** [app_membership_path_dynamic] *)
Definition in_sibling (target : list bool) (d : nat) (s : list bool * bytes) : bool :=
  (d <? length s.1)%nat && bool_decide (take d s.1 = take d target)
  && negb (eqb (default false (s.1 !! d)) (default false (target !! d))).
Fixpoint co_path (shards : list (list bool * bytes)) (target : list bool) (ds : list nat) : outcome (list bytes) :=
  match ds with
  | [] => Ok []
  | d :: rest =>
      sib ← app_root_from_shard_paths
              ((fun s => (drop (S d) s.1, s.2)) <$> List.filter (in_sibling target d) shards);
      sibs ← co_path shards target rest;
      Ok (sib :: sibs)
  end.
Definition app_membership_path_dynamic (shards : list (list bool * bytes)) (target : list bool) : outcome (list bytes) :=
  co_path shards target (seq 0 (length target)).

(** [app_root_from_shard_path] *)
Definition app_root_from_shard_path (target : list bool) (shard_root : bytes) (siblings : list bytes) : bytes :=
  foldr (fun e h => if e.1 : bool then hash_pair e.2 h else hash_pair h e.2) shard_root (zip target siblings).

(** [level.chunks(2)] hashed pairwise. *)
Fixpoint hash_level (level : list bytes) : outcome (list bytes) :=
  match level with
  | [] => Ok []
  | [_] => Panic
  | l :: r :: rest => up ← hash_level rest; Ok (hash_pair l r :: up)
  end.
Definition shard_row (shard_depth : nat) (shard_roots : Z -> option bytes) : list bytes :=
  (fun i => default ZERO_ROOT (shard_roots (Z.of_nat i))) <$> seq 0 (2 ^ shard_depth).

(** [app_root_from_shards]: the loop halves the row, once per level.  [1u32 << depth]
    overflows from depth 32 on: a panic where overflow is checked, as elsewhere (a
    build without the check shifts by the depth modulo 32). *)
Fixpoint fold_row (fuel : nat) (level : list bytes) : outcome bytes :=
  match level with
  | [] => Ok ZERO_ROOT
  | [root] => Ok root
  | _ => match fuel with
         | O => Panic
         | S fuel' => up ← hash_level level; fold_row fuel' up
         end
  end.
Definition app_root_from_shards (shard_depth : nat) (shard_roots : Z -> option bytes) : outcome bytes :=
  if (31 <? shard_depth)%nat then Panic else fold_row shard_depth (shard_row shard_depth shard_roots).

(** [app_membership_path] *)
Fixpoint sibling_row (fuel : nat) (level : list bytes) (idx : Z) : outcome (list bytes) :=
  if (length level <=? 1)%nat then Ok []
  else match fuel with
       | O => Panic
       | S fuel' =>
           sib ← unwrap (level !! Z.to_nat (Z.lxor idx 1));
           up ← hash_level level;
           sibs ← sibling_row fuel' up (Z.shiftr idx 1);
           Ok (sib :: sibs)
       end.
Definition app_membership_path (shard_depth : nat) (shard_index : Z) (shard_roots : Z -> option bytes) : outcome (list bytes) :=
  if (31 <? shard_depth)%nat then Panic else sibling_row shard_depth (shard_row shard_depth shard_roots) shard_index.

(** [app_root_from_shard] *)
Fixpoint app_root_from_shard (shard_index : Z) (shard_root : bytes) (siblings : list bytes) : bytes :=
  match siblings with
  | [] => shard_root
  | sib :: rest =>
      app_root_from_shard (Z.shiftr shard_index 1)
        (if Z.land shard_index 1 =? 0 then hash_pair shard_root sib else hash_pair sib shard_root) rest
  end.

(** [rollup_phase_roots] of [forest.rs] *)
Definition SHARD_ROLLUP_DOMAIN : bytes :=
  [x71; x75; x69; x6c; x2d; x66; x6f; x72; x65; x73; x74; x3a; x73; x68; x61; x72; x64; x2d; x72; x6f; x6c; x6c; x75; x70; x3a; x76; x31].
Definition rollup_phase_roots (phase_roots : list bytes) : bytes := sha256 (SHARD_ROLLUP_DOMAIN ++ concat phase_roots).
End roots.

(** [Forest::addr_path_shard_id] of [forest.rs] *)
Definition addr_path_shard_id (app_address : bytes) (prefix : list Z) : bytes :=
  app_address ++ concat (be_bytes 4 <$> prefix).
