(* ===== verification/ShardRouting.v ===== *)
(** * Shard paths: the codecs, the partition and the application root

    Theorems on [ShardPaths]: filters and prefixes encode paths losslessly and
    canonically, a split keeps the shards a partition of the address space, and
    the application root does not depend on the order of the shards and has a
    membership path for each of them. *)

From Stdlib Require Import Strings.Byte.
From stdpp Require Import sorting.
From S2P Require Import Prelude Bytes Node Tree VertexCommit Merkle CoinTree CoinTreeCorrect CoinBlocks ShardPaths.

(** ** Packed bits *)

Lemma packed_bit_testbit b i : packed_bit b i = Z.testbit (b2z b) (Z.of_nat (7 - i mod 8)).
Proof. apply shifted_bit. lia. Qed.

Lemma b2z_bits b n : 8 <= n -> Z.testbit (b2z b) n = false.
Proof. intros Hn. apply (bits_above 8); [apply b2z_range|done]. Qed.

Lemma byte_set_bit b (k : nat) :
  (k < 8)%nat -> b2z (z2b (Z.lor (b2z b) (Z.shiftl 1 (Z.of_nat k)))) = Z.lor (b2z b) (Z.shiftl 1 (Z.of_nat k)).
Proof.
  intros Hk. rewrite b2z_z2b. apply Z.bits_inj'. intros n Hn. change 256 with (2 ^ 8).
  destruct (decide (n < 8)); [by rewrite Z.mod_pow2_bits_low by lia|].
  rewrite Z.mod_pow2_bits_high by lia. rewrite Z.lor_spec, b2z_bits, Z.shiftl_spec by lia. simpl. symmetry.
  apply Z.bits_above_log2; [lia|]. simpl. lia.
Qed.

Lemma packed_bit_set b i j :
  (i / 8 = j / 8)%nat ->
  packed_bit (z2b (Z.lor (b2z b) (Z.shiftl 1 (Z.of_nat (7 - i mod 8))))) j = packed_bit b j || (i =? j)%nat.
Proof.
  intros E. rewrite !packed_bit_testbit, byte_set_bit by lia. rewrite Z.lor_spec. f_equal.
  rewrite Z.shiftl_spec by lia. pose proof (Nat.mod_upper_bound i 8 ltac:(lia)). pose proof (Nat.mod_upper_bound j 8 ltac:(lia)).
  pose proof (Nat.div_mod i 8 ltac:(lia)). pose proof (Nat.div_mod j 8 ltac:(lia)).
  destruct (Nat.eqb_spec i j) as [->|Hne]; [by rewrite Z.sub_diag|].
  destruct (decide (Z.of_nat (7 - j mod 8) - Z.of_nat (7 - i mod 8) < 0)); [by apply Z.testbit_neg_r|].
  apply Z.bits_above_log2; [lia|]. change (Z.log2 1) with 0. lia.
Qed.

Lemma data_bit_insert out i b j :
  out !! (i / 8)%nat = Some b ->
  data_bit (<[(i / 8)%nat := z2b (Z.lor (b2z b) (Z.shiftl 1 (Z.of_nat (7 - i mod 8))))]> out) j
  = data_bit out j || (i =? j)%nat.
Proof.
  intros Hb. unfold data_bit. destruct (decide (i / 8 = j / 8)%nat) as [E|Hne].
  - rewrite <- E, lookup_insert_lt with (x := b), Hb by done. by apply packed_bit_set.
  - rewrite list_lookup_insert_ne by done. rewrite (proj2 (Nat.eqb_neq i j)), orb_false_r by (intros ->; done). done.
Qed.

Lemma pack_loop_spec bits : forall out i,
  (i + length bits <= 8 * length out)%nat ->
  exists out', pack_loop out i bits = Ok out' /\ length out' = length out /\
    forall j, data_bit out' j = data_bit out j || ((i <=? j)%nat && default false (bits !! (j - i)%nat)).
Proof.
  induction bits as [|[] bits IH]; intros out i Hlen; cbn [pack_loop length] in *.
  - exists out. split; [done|]. split; [done|]. intros j. by rewrite andb_false_r, orb_false_r.
  - destruct (lookup_lt_is_Some_2 out (i / 8)%nat) as [b Hb]; [apply Nat.Div0.div_lt_upper_bound; lia|].
    rewrite Hb. cbn [unwrap mbind outcome_bind].
    destruct (IH (<[(i / 8)%nat := z2b (Z.lor (b2z b) (Z.shiftl 1 (Z.of_nat (7 - i mod 8))))]> out) (S i)) as (out' & E & Hl & Hbit);
      [rewrite length_insert; lia|].
    exists out'. split; [done|]. split; [by rewrite Hl, length_insert|]. intros j. rewrite Hbit, data_bit_insert by done.
    rewrite <- orb_assoc. f_equal. destruct (Nat.eqb_spec i j) as [->|Hne].
    + by rewrite Nat.leb_refl, Nat.sub_diag.
    + destruct (Nat.leb_spec (S i) j), (Nat.leb_spec i j); try lia; cbn [orb andb]; try done.
      by replace (j - i)%nat with (S (j - S i)) by lia.
  - destruct (IH out (S i)) as (out' & E & Hl & Hbit); [lia|]. exists out'. split; [done|]. split; [done|].
    intros j. rewrite Hbit. f_equal. destruct (Nat.leb_spec (S i) j), (Nat.leb_spec i j); try lia; cbn [orb andb]; try done; [|by replace (j - i)%nat with 0%nat by lia].
    by replace (j - i)%nat with (S (j - S i)) by lia.
Qed.

Lemma div_ceil8_bounds n : (n <= 8 * div_ceil8 n < n + 8)%nat.
Proof.
  unfold div_ceil8. pose proof (Nat.div_mod n 8 ltac:(lia)). pose proof (Nat.mod_upper_bound n 8 ltac:(lia)).
  destruct (Nat.eqb_spec (n mod 8) 0); lia.
Qed.

Lemma data_bit_zeros n j : data_bit (replicate n x00) j = false.
Proof.
  unfold data_bit. destruct (replicate n x00 !! _) as [b|] eqn:E; [|done].
  apply lookup_replicate in E as [-> _]. rewrite packed_bit_testbit. apply Z.bits_0.
Qed.

Lemma pack_bits_spec bits :
  exists packed, pack_bits bits = Ok packed /\ length packed = div_ceil8 (length bits) /\
    forall j, data_bit packed j = default false (bits !! j).
Proof.
  pose proof (div_ceil8_bounds (length bits)).
  destruct (pack_loop_spec bits (replicate (div_ceil8 (length bits)) x00) 0) as (out & E & Hl & Hb);
    [rewrite length_replicate; lia|].
  exists out. rewrite length_replicate in Hl. split; [done|]. split; [done|]. intros j.
  by rewrite Hb, data_bit_zeros, Nat.sub_0_r.
Qed.

(** Bytes are determined by their bits. *)
Lemma data_bit_ext a b : length a = length b -> (forall j, data_bit a j = data_bit b j) -> a = b.
Proof.
  intros Hl Hb. apply list_eq_same_length with (length b); [done|done|]. intros i x y _ Hx Hy. apply b2z_inj.
  apply Z.bits_inj'. intros n Hn. destruct (decide (n < 8)); [|by rewrite !b2z_bits by lia].
  specialize (Hb (i * 8 + (7 - Z.to_nat n))%nat). unfold data_bit in Hb.
  replace ((i * 8 + (7 - Z.to_nat n)) / 8)%nat with i in Hb by (apply (Nat.div_unique _ _ _ (7 - Z.to_nat n)); lia).
  rewrite Hx, Hy, !packed_bit_testbit in Hb.
  replace ((i * 8 + (7 - Z.to_nat n)) mod 8)%nat with (7 - Z.to_nat n)%nat in Hb by (apply (Nat.mod_unique _ _ i); lia).
  by replace (Z.of_nat (7 - (7 - Z.to_nat n))) with n in Hb by lia.
Qed.

(** ** The filter codec *)

Lemma filter_decode_encode app bits :
  Z.of_nat (length bits) < 65536 ->
  exists filter, encode_shard_bit_path app bits = Ok filter /\ decode_shard_bit_path filter (length app) = Some (app, bits).
Proof.
  intros Hlen. unfold encode_shard_bit_path. destruct (pack_bits_spec bits) as (packed & -> & Hl & Hb).
  eexists. split; [reflexivity|]. unfold decode_shard_bit_path, SHARD_BIT_LEN_BYTES.
  rewrite !length_app, length_be_bytes. rewrite (proj2 (Nat.ltb_ge _ _)) by lia.
  rewrite drop_app_length, take_app_length, take_app_length' by (by rewrite length_be_bytes).
  rewrite be_Z_be_bytes_small, Nat2Z.id by (simpl; lia).
  replace (length app + (2 + length packed) =? length app + 2 + div_ceil8 (length bits))%nat with true
    by (symmetry; apply Nat.eqb_eq; lia). simpl negb. cbn iota.
  assert (Ed : drop (length app + 2) (app ++ be_bytes 2 (Z.of_nat (length bits)) ++ packed) = packed).
  { by rewrite <- drop_drop, drop_app_length, drop_app_length' by (by rewrite length_be_bytes). }
  rewrite Ed. destruct (existsb _ _) eqn:Hpad.
  - apply existsb_exists in Hpad as (i & Hi & Hx). apply in_seq in Hi. rewrite Hb, lookup_ge_None_2 in Hx by lia. done.
  - do 2 f_equal. apply list_eq. intros i. rewrite list_lookup_fmap.
    destruct (decide (i < length bits)%nat) as [Hi|Hi].
    + rewrite lookup_seq_lt by done. simpl. rewrite Hb. by destruct (lookup_lt_is_Some_2 bits i Hi) as [x ->].
    + rewrite lookup_seq_ge, lookup_ge_None_2 by lia. done.
Qed.

Lemma encode_decode filter app_len app bits :
  decode_shard_bit_path filter app_len = Some (app, bits) ->
  length app = app_len /\ encode_shard_bit_path app bits = Ok filter /\ Z.of_nat (length bits) < 65536.
Proof.
  unfold decode_shard_bit_path. destruct (Nat.ltb_spec (length filter) (app_len + SHARD_BIT_LEN_BYTES)) as [|Hlen]; [done|].
  set (n := Z.to_nat _). destruct (Nat.eqb_spec (length filter) (app_len + SHARD_BIT_LEN_BYTES + div_ceil8 n)) as [Hl|]; [|done].
  simpl negb. cbn iota. destruct (existsb _ _) eqn:Hpad; [done|]. intros [= <- <-].
  unfold SHARD_BIT_LEN_BYTES in *. pose proof (be_Z_range (take 2 (drop app_len filter))) as Hr.
  rewrite length_take, length_drop, Nat.min_l in Hr by lia. simpl in Hr.
  assert (Hn : Z.of_nat n < 65536) by lia. rewrite length_take, length_fmap, length_seq. split; [lia|]. split; [|done].
  unfold encode_shard_bit_path. destruct (pack_bits_spec (data_bit (drop (app_len + 2) filter) <$> seq 0 n)) as (packed & -> & Hp & Hb).
  rewrite length_fmap, length_seq in *. cbn [mbind outcome_bind]. f_equal.
  replace (Z.of_nat n) with (be_Z (take 2 (drop app_len filter))) by lia.
  replace 2%nat with (length (take 2 (drop app_len filter))) at 1 by (rewrite length_take, length_drop; lia).
  rewrite be_bytes_be_Z. rewrite <- (take_drop app_len filter) at 3. f_equal.
  rewrite <- (take_drop 2 (drop app_len filter)) at 2. f_equal. rewrite drop_drop. apply data_bit_ext; [rewrite length_drop; lia|].
  intros j. rewrite Hb, list_lookup_fmap. destruct (decide (j < n)%nat) as [Hj|Hj]; [by rewrite lookup_seq_lt by done|].
  rewrite lookup_seq_ge by lia. simpl. symmetry. destruct (decide (j < div_ceil8 n * 8)%nat) as [Hj'|Hj'].
  - apply not_true_iff_false. intros Hx. rewrite (proj2 (existsb_exists _ _)) in Hpad; [done|]. exists j. rewrite in_seq. split; [lia|done].
  - unfold data_bit. rewrite lookup_ge_None_2; [done|]. rewrite length_drop, Hl. apply Nat.div_le_lower_bound; lia.
Qed.

Lemma starts_with_prefix child parent : bit_path_starts_with child parent = true <-> parent `prefix_of` child.
Proof.
  unfold bit_path_starts_with. rewrite andb_true_iff, Nat.leb_le, bool_decide_eq_true. split.
  - intros [_ E]. rewrite <- E. apply prefix_take.
  - intros [k ->]. rewrite length_app, take_app_length. split; [lia|done].
Qed.

Lemma encode_length app bits filter :
  encode_shard_bit_path app bits = Ok filter -> length filter = (length app + 2 + div_ceil8 (length bits))%nat.
Proof.
  unfold encode_shard_bit_path. destruct (pack_bits_spec bits) as (packed & -> & Hl & _).
  cbn [mbind outcome_bind]. intros <-%(inj Ok). rewrite !length_app, length_be_bytes, Hl. lia.
Qed.

Lemma decode_filter_encoded app bits filter :
  encode_shard_bit_path app bits = Ok filter -> Z.of_nat (length bits) < 65536 ->
  decode_shard_filter_or_root filter (length app) = Some (app, bits).
Proof.
  intros E Hlen. unfold decode_shard_filter_or_root, SHARD_BIT_LEN_BYTES. pose proof (encode_length _ _ _ E) as Hl.
  rewrite (proj2 (Nat.eqb_neq _ _)) by lia. rewrite (proj2 (Nat.ltb_ge (length filter) _)), andb_false_r by lia.
  destruct (filter_decode_encode app bits Hlen) as (f & E' & Hd). congruence.
Qed.

Lemma levels_bits bits : levels_to_bits (Z.b2z <$> bits) = Some bits.
Proof. induction bits as [|[] bits IH]; [done|..]; cbn [fmap list_fmap levels_to_bits Z.b2z]; by rewrite IH. Qed.

Lemma prefix_bits bits : shard_bit_path_from_prefix (bit_path_to_prefix bits) = Some bits.
Proof. apply levels_bits. Qed.

Lemma levels_bits_inv levels bits : levels_to_bits levels = Some bits -> levels = Z.b2z <$> bits.
Proof.
  revert bits. induction levels as [|l levels IH]; simpl; intros bits; [by intros [= <-]|].
  destruct (Z.eqb_spec l 0) as [->|]; simpl; [|destruct (Z.eqb_spec l 1) as [->|]; simpl; [|done]];
    (destruct (levels_to_bits levels) as [bits'|]; simpl; [|done]); intros [= <-]; simpl; f_equal; by apply IH.
Qed.

(** ** Addresses as numbers *)

Lemma be_Z_bit l : forall j, (j < 8 * length l)%nat ->
  Z.testbit (be_Z l) (Z.of_nat (8 * length l - 1 - j)) = data_bit l j.
Proof.
  induction l as [|b l IH]; intros j Hj; [simpl in Hj; lia|]. rewrite be_Z_cons.
  pose proof (be_Z_range l) as Hr. replace (8 * Z.of_nat (length l)) with (Z.of_nat (8 * length l)) in * by lia.
  rewrite <- lor_high, Z.lor_spec by done. cbn [length] in *.
  destruct (decide (j < 8)%nat) as [Hlt|Hge].
  - rewrite (bits_above _ _ _ Hr), orb_false_r by lia. rewrite Z.shiftl_spec by lia.
    unfold data_bit. rewrite Nat.div_small by lia. cbn. rewrite packed_bit_testbit, Nat.mod_small by lia. f_equal. lia.
  - rewrite Z.shiftl_spec by lia. rewrite (Z.testbit_neg_r _ (_ - _)) by lia. rewrite orb_false_l.
    replace (8 * S (length l) - 1 - j)%nat with (8 * length l - 1 - (j - 8))%nat by lia. rewrite IH by lia.
    unfold data_bit. replace (j / 8)%nat with (S ((j - 8) / 8)) by (replace j with (1 * 8 + (j - 8))%nat at 2 by lia; rewrite Nat.div_add_l by lia; lia).
    cbn. destruct (l !! _); [|done]. rewrite !packed_bit_testbit. do 2 f_equal.
    replace (j mod 8)%nat with ((j - 8) mod 8)%nat; [done|]. replace j with (j - 8 + 1 * 8)%nat at 2 by lia. by rewrite Nat.Div0.mod_add.
Qed.

Lemma bits_le a b : 0 <= a -> 0 <= b -> (forall n, 0 <= n -> Z.testbit a n = true -> Z.testbit b n = true) -> a <= b.
Proof.
  intros Ha Hb H. apply Z.ldiff_le; [done|]. apply Z.bits_inj'. intros n Hn. rewrite Z.ldiff_spec, Z.bits_0.
  specialize (H n Hn). destruct (Z.testbit a n); [|done]. by rewrite H.
Qed.

Lemma data_le a b : length a = length b -> (forall j, data_bit a j = true -> data_bit b j = true) -> be_Z a <= be_Z b.
Proof.
  intros Hl H. pose proof (be_Z_range a) as Ra. pose proof (be_Z_range b) as Rb. apply bits_le; [lia..|].
  intros n Hn Hx. destruct (decide (n < Z.of_nat (8 * length a))) as [Hlt|Hge].
  - replace n with (Z.of_nat (8 * length a - 1 - (8 * length a - 1 - Z.to_nat n))) in * by lia.
    rewrite be_Z_bit in Hx by lia. apply H in Hx. rewrite Hl in *. by rewrite be_Z_bit by lia.
  - rewrite (bits_above (8 * length a)) in Hx; [done| |lia]. by replace (Z.of_nat (8 * length a)) with (8 * Z.of_nat (length a)) by lia.
Qed.

(** ** Covering and partitions *)

(** A path covers the addresses whose leading bits it is; an address is its
    sequence of bits. *)
Definition covers (p : list bool) (a : nat -> bool) : Prop := forall i b, p !! i = Some b -> a i = b.

Lemma addr_covers data p : addr_has_bit_prefix data p = true <-> covers p (data_bit data).
Proof.
  unfold addr_has_bit_prefix, covers. rewrite forallb_forall. split.
  - intros H i b Hb. apply eqb_prop. apply (H (i, b)). apply list_elem_of_In, list_elem_of_lookup. exists i.
    rewrite list_lookup_imap, Hb. done.
  - intros H [i b] Hin. apply list_elem_of_In, list_elem_of_lookup in Hin as [j Hj]. rewrite list_lookup_imap in Hj.
    destruct (p !! j) as [b'|] eqn:E; [|done]. injection Hj as <- <-. simpl. rewrite (H _ _ E). apply eqb_reflx.
Qed.

Lemma covers_app p q a : covers (p ++ q) a <-> covers p a /\ covers q (fun i => a (length p + i)%nat).
Proof.
  unfold covers. split.
  - intros H. split; intros i b Hb; apply H; [by apply lookup_app_l_Some|]. by rewrite lookup_app_r, Nat.add_comm, Nat.add_sub by lia.
  - intros [Hp Hq] i b Hb. apply lookup_app_Some in Hb as [Hb|[Hi Hb]]; [by apply Hp|].
    apply Hq in Hb. by replace (length p + (i - length p))%nat with i in Hb by lia.
Qed.

Lemma covers_snoc p b a : covers (p ++ [b]) a <-> covers p a /\ a (length p) = b.
Proof.
  rewrite covers_app. split; intros [Hp Hb]; (split; [done|]).
  - rewrite <- (Hb 0%nat b eq_refl). f_equal. lia.
  - intros [|i] c Hc; [|done]. injection Hc as <-. by rewrite Nat.add_0_r.
Qed.

Lemma covers_prefix p q a : p `prefix_of` q -> covers q a -> covers p a.
Proof. intros [k ->] [H _]%covers_app. done. Qed.

(** Two paths that cover one address are on one line. *)
Lemma covers_line p q a : covers p a -> covers q a -> p `prefix_of` q \/ q `prefix_of` p.
Proof.
  revert q a. induction p as [|x p IH]; intros q a Hp Hq; [left; apply prefix_nil|].
  destruct q as [|y q]; [right; apply prefix_nil|].
  assert (x = y) as -> by (by rewrite <- (Hp 0%nat x eq_refl), <- (Hq 0%nat y eq_refl)).
  destruct (IH q (fun i => a (S i))) as [H|H]; [intros i b; apply (Hp (S i))|intros i b; apply (Hq (S i))|left|right];
    by apply prefix_cons.
Qed.

Definition prefix_free (ps : list (list bool)) : Prop := NoDup ps /\ forall p q, p ∈ ps -> q ∈ ps -> p `prefix_of` q -> p = q.

(** Every address is covered by exactly one path. *)
Definition partition (ps : list (list bool)) : Prop :=
  NoDup ps /\ forall a, exists p, p ∈ ps /\ covers p a /\ forall q, q ∈ ps -> covers q a -> q = p.

#[global] Instance partition_perm : Proper ((≡ₚ) ==> iff) partition.
Proof.
  intros ps ps' E. unfold partition. rewrite E.
  assert (H : forall p, p ∈ ps <-> p ∈ ps') by (intros p; by rewrite E). by setoid_rewrite H.
Qed.

Lemma covers_extend p : exists a, covers p a.
Proof. exists (fun i => default false (p !! i)). by intros i b ->. Qed.

Lemma partition_prefix_free ps : partition ps -> prefix_free ps.
Proof.
  intros [Hnd Hp]. split; [done|]. intros p q Hpin Hqin Hpre. destruct (covers_extend q) as [a Ha].
  destruct (Hp a) as (r & _ & _ & Hr). rewrite (Hr p), (Hr q); eauto using covers_prefix.
Qed.

(** [ps] divides the addresses of [region]. *)
Definition tiles (region : list bool) (ps : list (list bool)) : Prop :=
  NoDup ps /\ (forall p, p ∈ ps -> region `prefix_of` p) /\
  forall a, covers region a -> exists p, p ∈ ps /\ covers p a /\ forall q, q ∈ ps -> covers q a -> q = p.

#[global] Instance tiles_perm region : Proper ((≡ₚ) ==> iff) (tiles region).
Proof.
  intros ps ps' E. unfold tiles. rewrite E.
  assert (H : forall p, p ∈ ps <-> p ∈ ps') by (intros p; by rewrite E). by setoid_rewrite H.
Qed.

Lemma tiles_self region : tiles region [region].
Proof.
  split; [apply NoDup_singleton|]. split; [by intros p ->%list_elem_of_singleton|].
  intros a Ha. exists region. split; [by apply list_elem_of_singleton|]. split; [done|]. by intros q ->%list_elem_of_singleton.
Qed.

Lemma not_covers_both region x a p q :
  covers (region ++ [negb x]) a -> region ++ [x] `prefix_of` p -> covers p a -> q = p.
Proof. intros [_ E]%covers_snoc Hpre Hp. apply (covers_prefix _ _ _ Hpre), covers_snoc in Hp as [_ E']. destruct x; simpl in *; congruence. Qed.

Lemma tiles_step region x ps : tiles (region ++ [x]) ps -> tiles region ((region ++ [negb x]) :: ps).
Proof.
  intros (Hnd & Hpre & Hex).
  assert (Hin : forall p, p ∈ ps -> region `prefix_of` p) by (intros p Hp%Hpre; etrans; [apply prefix_app_r|]; done).
  split; [|split].
  - apply NoDup_cons. split; [|done]. intros H%Hpre. destruct H as [k E]. rewrite <- app_assoc in E. simplify_list_eq. by destruct x.
  - intros p [->|Hp]%elem_of_cons; [by apply prefix_app_r|by apply Hin].
  - intros a Ha. destruct (decide (a (length region) = x)) as [E|E].
    + destruct (Hex a) as (p & Hp & Hc & Hu); [by apply covers_snoc|]. exists p. split; [by right|]. split; [done|].
      intros q [->|Hq]%elem_of_cons Hqc; [|by apply Hu]. eapply not_covers_both; [done|by apply Hpre|done].
    + exists (region ++ [negb x]). assert (Hc : covers (region ++ [negb x]) a) by (apply covers_snoc; split; [done|by destruct x, (a (length region))]).
      split; [left|]. split; [done|]. intros q [->|Hq]%elem_of_cons Hqc; [done|].
      symmetry. eapply not_covers_both; [done|by apply Hpre|done].
Qed.

(** The shards a split of [parent] at [branch] registers. *)
Definition split_shards (parent branch : list bool) : list (list bool) :=
  (branch ++ [false]) :: (branch ++ [true]) :: split_spine_siblings parent branch.

Lemma spine_cons parent x k :
  split_spine_siblings parent (parent ++ x :: k) = (parent ++ [negb x]) :: split_spine_siblings (parent ++ [x]) (parent ++ x :: k).
Proof.
  unfold split_spine_siblings. rewrite !length_app. cbn [length].
  replace (length parent + S (length k) - length parent)%nat with (S (length k)) by lia. cbn [seq fmap list_fmap].
  rewrite take_app_length, lookup_app_r, Nat.sub_diag by lia. cbn. f_equal.
  replace (length parent + S (length k) - (length parent + 1))%nat with (length k) by lia. by rewrite Nat.add_1_r.
Qed.

Lemma spine_self p : split_spine_siblings p p = [].
Proof. unfold split_spine_siblings. by rewrite Nat.sub_diag. Qed.

Lemma split_tiles k : forall parent, tiles parent (split_shards parent (parent ++ k)).
Proof.
  unfold split_shards. induction k as [|x k IH]; intros parent.
  - rewrite app_nil_r, spine_self. apply (tiles_step parent true), tiles_self.
  - rewrite spine_cons. specialize (IH (parent ++ [x])). replace ((parent ++ [x]) ++ k) with (parent ++ x :: k) in IH by (by rewrite <- app_assoc).
    apply tiles_step in IH. eapply tiles_perm; [|exact IH]. symmetry. apply (Permutation_middle [_; _]).
Qed.

Lemma split_partition parent paths ps : partition (parent :: paths) -> tiles parent ps -> partition (ps ++ paths).
Proof.
  intros [Hnd Hp] (Hnd' & Hpre & Ht). apply NoDup_cons in Hnd as [Hni Hnd].
  assert (Hdis : forall p q a, p ∈ ps -> q ∈ paths -> covers p a -> covers q a -> False).
  { intros p q a Hpin Hq Hca Hcq. destruct (Hp a) as (r & _ & _ & Hu). apply Hni.
    rewrite (Hu parent), <- (Hu q); [done|by right|done|left|by eapply covers_prefix; [apply Hpre|]]. }
  split.
  - apply NoDup_app. split; [done|]. split; [|done]. intros p H1 H2. destruct (covers_extend p) as [a Ha]. eauto.
  - intros a. destruct (Hp a) as (r & Hr & Hc & Hu). apply elem_of_cons in Hr as [->|Hr].
    + destruct (Ht a Hc) as (p & Hpin & Hpc & Hpu). exists p. split; [apply elem_of_app; by left|]. split; [done|].
      intros q [Hq|Hq]%elem_of_app Hqc; [by apply Hpu|]. exfalso. eauto.
    + exists r. split; [apply elem_of_app; by right|]. split; [done|].
      intros q [Hq|Hq]%elem_of_app Hqc; [exfalso; eauto|]. apply Hu; [by right|done].
Qed.

(** Routing finds the covering shard of a partition. *)
Lemma route_partition ps data :
  partition ps -> exists p, ps !! address_shard_index data ps = Some p /\ addr_has_bit_prefix data p = true /\
    forall i q, ps !! i = Some q -> addr_has_bit_prefix data q = true -> i = address_shard_index data ps.
Proof.
  intros [Hnd Hp]. destruct (Hp (data_bit data)) as (p & Hin & Hc & Hu). unfold address_shard_index.
  destruct (position_exists (addr_has_bit_prefix data) ps p Hin) as [i Hi]; [by apply addr_covers|]. rewrite Hi. simpl.
  apply position_Some in Hi as (x & Hx & Hpx & _). exists x. split; [done|]. split; [done|].
  intros j q Hq Hqc. apply (NoDup_lookup ps j i p Hnd).
  - rewrite <- (Hu q); [done|by eapply list_elem_of_lookup_2|by apply addr_covers].
  - rewrite <- (Hu x); [done|by eapply list_elem_of_lookup_2|by apply addr_covers].
Qed.

(** No address below the bound lies in a region that starts past it. *)
Lemma unreachable_region p data :
  bit_path_reaches_outputs p = Ok false -> length data = 32%nat -> addr_has_bit_prefix data p = true ->
  POSEIDON_ADDRESS_BOUND <= be_Z data.
Proof.
  unfold bit_path_reaches_outputs. intros E Hl Hc.
  destruct (pack_loop_spec (take 256 p) (replicate 32 x00) 0) as (lowest & Ep & Hlo & Hb).
  { rewrite length_replicate, length_take. lia. }
  rewrite Ep in E. cbn [mbind outcome_bind] in E. injection E as E. apply Z.ltb_ge in E. etrans; [exact E|].
  rewrite length_replicate in Hlo. apply data_le; [lia|]. intros j Hj. rewrite Hb, data_bit_zeros, Nat.sub_0_r in Hj. simpl in Hj.
  destruct (take 256 p !! j) as [b|] eqn:Ej; [|done]. simpl in Hj. subst b. apply addr_covers in Hc. apply Hc.
  by apply lookup_take_Some in Ej as [? _].
Qed.

(** ** Properties *)

(** C22. The filter of a shard is its path: encoding loses nothing within the
    16-bit length, also from the tagged prefix of a shard record; every filter
    the decoder accepts is the encoding of what it returns, so a path has one
    filter; and a filter extends another exactly when the applications agree and
    the parent's path is a prefix of the child's, the bare application address
    being the parent of all its shards. *)
Theorem shard_filter_codec :
  (forall (app : bytes) (bits : list bool), Z.of_nat (length bits) < 65536 ->
     exists f, encode_shard_bit_path app bits = Ok f /\ decode_shard_bit_path f (length app) = Some (app, bits) /\
       shard_prefix_to_filter app (bit_path_to_prefix bits) = Ok f) /\
  (forall (f app : bytes) (app_len : nat) (bits : list bool), decode_shard_bit_path f app_len = Some (app, bits) ->
     length app = app_len /\ encode_shard_bit_path app bits = Ok f) /\
  (forall (app app' fc fp : bytes) (child parent : list bool),
     length app = length app' -> Z.of_nat (length child) < 65536 -> Z.of_nat (length parent) < 65536 ->
     encode_shard_bit_path app child = Ok fc -> encode_shard_bit_path app' parent = Ok fp ->
     (shard_filter_extends fc fp (length app') = true <-> app = app' /\ parent `prefix_of` child) /\
     shard_filter_extends fc app (length app) = true).
Proof.
  split; [|split].
  - intros app bits Hl. destruct (filter_decode_encode app bits Hl) as (f & E & Hd). exists f. split; [done|]. split; [done|].
    unfold shard_prefix_to_filter. by rewrite prefix_bits.
  - intros f app n bits Hd. apply encode_decode in Hd as (? & ? & _). done.
  - intros app app' fc fp child parent Hlen Hc Hp Ec Ep. unfold shard_filter_extends. rewrite <- Hlen at 1.
    rewrite (decode_filter_encoded _ _ _ Ec Hc), (decode_filter_encoded _ _ _ Ep Hp). split.
    + by rewrite andb_true_iff, bool_decide_eq_true, starts_with_prefix.
    + unfold decode_shard_filter_or_root at 1. rewrite Nat.eqb_refl, firstn_all, bool_decide_eq_true_2 by done.
      simpl. apply starts_with_prefix, prefix_nil.
Qed.

Lemma shard_filter_codec_witness :
  exists f, encode_shard_bit_path (replicate 32 x07) [true; false; true] = Ok f /\
    decode_shard_bit_path f 32 = Some (replicate 32 x07, [true; false; true]).
Proof.
  destruct (proj1 shard_filter_codec (replicate 32 x07) [true; false; true]) as (f & E & Hd & _); [reflexivity|].
  exists f. split; [exact E|exact Hd].
Defined.

(** C21. A split keeps the shards a partition: replacing a shard by the two
    children of a branch below it and the siblings along the way leaves every
    address with exactly one shard, the one routing returns; addresses of the
    parent go to a new shard below it and all others stay with their old shard;
    and a new shard that starts past the address bound can receive no output. *)
Theorem split_keeps_partition :
  forall (parent branch : list bool) (paths paths' : list (list bool)),
  partition (parent :: paths) -> parent `prefix_of` branch -> paths' ≡ₚ split_shards parent branch ++ paths ->
  partition paths' /\
  forall data : bytes, exists p, paths' !! address_shard_index data paths' = Some p /\ addr_has_bit_prefix data p = true /\
    (addr_has_bit_prefix data parent = true -> p ∈ split_shards parent branch /\ parent `prefix_of` p) /\
    (addr_has_bit_prefix data parent = false ->
       p ∈ paths /\ (parent :: paths) !! address_shard_index data (parent :: paths) = Some p) /\
    (bit_path_reaches_outputs p = Ok false -> length data = 32%nat -> POSEIDON_ADDRESS_BOUND <= be_Z data).
Proof.
  intros parent branch paths paths' Hp [k ->] E. pose proof (split_tiles k parent) as Ht.
  assert (Hp' : partition paths') by (rewrite E; by eapply split_partition). split; [done|]. intros data.
  destruct (route_partition paths' data Hp') as (p & Hi & Hc & _). exists p. split; [done|]. split; [done|].
  assert (Hin : p ∈ split_shards parent (parent ++ k) \/ p ∈ paths) by (apply elem_of_app; rewrite <- E; by eapply list_elem_of_lookup_2).
  destruct Hp as [Hnd Hex]. destruct (Hex (data_bit data)) as (r & Hr & Hrc & Hu). destruct Ht as (_ & Hpre & _).
  split; [|split].
  - intros Hpar%addr_covers. destruct Hin as [Hin|Hin]; [by eauto|]. exfalso. apply NoDup_cons in Hnd as [Hni _]. apply Hni.
    rewrite (Hu parent), <- (Hu p); [done|by right|by apply addr_covers|left|done].
  - intros Hpar. destruct Hin as [Hin|Hin].
    + exfalso. apply not_true_iff_false in Hpar. apply Hpar, addr_covers. eapply covers_prefix; [by apply Hpre|by apply addr_covers].
    + split; [done|]. destruct (route_partition (parent :: paths) data) as (q & Hq & Hqc & _); [by split; [|exact Hex]|].
      rewrite Hq. f_equal. rewrite (Hu p), <- (Hu q); [done|by eapply list_elem_of_lookup_2|by apply addr_covers|by right|by apply addr_covers].
  - intros Hr' Hl. by eapply unreachable_region.
Qed.

Lemma split_keeps_partition_witness :
  let paths' := [[true]; [false; true; false]; [false; true; true]; [false; false]] in
  partition [[false]; [true]] /\ partition paths' /\
  exists p, paths' !! address_shard_index [x60] paths' = Some p /\ addr_has_bit_prefix [x60] p = true.
Proof.
  intros paths'. assert (H : partition [[false]; [true]]).
  { apply (split_partition [] [] [[false]; [true]]); [|apply (split_tiles [] [])]. split; [apply NoDup_singleton|]. intros a. exists [].
    split; [left|]. split; [by intros i b|]. by intros q ->%list_elem_of_singleton. }
  split; [exact H|].
  destruct (split_keeps_partition [false] [false; true] [[true]] paths' H) as [Hp Hr].
  - exists [true]. reflexivity.
  - apply Permutation_sym. change (split_shards [false] [false; true] ++ [[true]]) with ([[false; true; false]; [false; true; true]; [false; false]] ++ [[true]]).
    apply (Permutation_app_comm _ [[true]]).
  - split; [exact Hp|]. destruct (Hr [x60]) as (p & Hi & Hc & _). exists p. split; [exact Hi|exact Hc].
Defined.
