(* ===== verification/AppRoot.v ===== *)
(** * The application root over the shards

    Theorems on the hash tree of [ShardPaths]: on a prefix-free set of shards the
    root is defined, does not depend on their order, is unchanged when a shard is
    replaced by its two halves, and has a membership path for every shard; on a
    uniform grid it is the root of the row-by-row construction. *)

From Stdlib Require Import Strings.Byte.
From stdpp Require Import sorting.
From S2P Require Import Prelude Bytes Node Tree VertexCommit Merkle CoinTree CoinTreeCorrect CoinBlocks ShardPaths ShardRouting.

Abbreviation shards := (list (list bool * bytes)).

(** The shards under a bit, and the shards with [d] bits stripped. *)
Definition under (b : bool) (s : list bool * bytes) : option (list bool * bytes) :=
  match s.1 with x :: p => if eqb x b then Some (p, s.2) else None | [] => None end.
Definition sub (b : bool) (l : shards) : shards := omap (under b) l.
Definition strip (d : nat) (l : shards) : shards := (fun s => (drop d s.1, s.2)) <$> l.
Definition free (l : shards) : Prop := prefix_free l.*1.
Definition short (n : nat) (l : shards) : Prop := Forall (fun s => length s.1 <= n)%nat l.
Definition inner (l : shards) : Prop := Forall (fun s => s.1 <> []) l.

(** ** Prefix-free sets *)

Lemma sub_paths b l : cons b <$> (sub b l).*1 = List.filter (fun p => match p with x :: _ => eqb x b | [] => false end) l.*1.
Proof.
  induction l as [|[[|x p] r] l IH]; [done|done|]. unfold sub. cbn [omap list_omap under fst fmap list_fmap List.filter].
  destruct (eqb x b) eqn:E; cbn [fmap list_fmap fst]; [|done]. apply eqb_prop in E as ->. f_equal. exact IH.
Qed.

Lemma sub_cons b x p r l : sub b ((x :: p, r) :: l) = if eqb x b then (p, r) :: sub b l else sub b l.
Proof. unfold sub. cbn. unfold under at 1. cbn. by destruct (eqb x b). Qed.

Lemma elem_sub b l p r : (p, r) ∈ sub b l <-> (b :: p, r) ∈ l.
Proof.
  unfold sub. rewrite list_elem_of_omap. split.
  - intros ([[|x q] r'] & Hin & E); [done|]. unfold under in E. simpl in E. destruct (eqb x b) eqn:Ex; [|done].
    apply eqb_prop in Ex as ->. by injection E as -> ->.
  - intros Hin. exists (b :: p, r). split; [done|]. unfold under. simpl. by rewrite eqb_reflx.
Qed.

Lemma sub_free b l : free l -> free (sub b l).
Proof.
  intros [Hnd Hp]. split.
  - apply (NoDup_fmap_1 (cons b)). rewrite sub_paths. eapply sublist_NoDup; [exact Hnd|].
    clear. induction l.*1 as [|p ps IH]; simpl; [constructor|]. case_match; by constructor.
  - intros p q Hpin Hqin Hpre. apply list_elem_of_fmap in Hpin as ([p' r] & -> & Hpin), Hqin as ([q' r'] & -> & Hqin).
    apply elem_sub in Hpin, Hqin. simpl in *. assert (b :: p' = b :: q') as [= ->]; [|done].
    apply Hp; [apply list_elem_of_fmap; by exists (b :: p', r)|apply list_elem_of_fmap; by exists (b :: q', r')|by apply prefix_cons].
Qed.

Lemma sub_short b n l : short (S n) l -> short n (sub b l).
Proof. intros H. apply Forall_forall. intros [p r] Hin%elem_sub. unfold short in H. rewrite Forall_forall in H. specialize (H _ Hin). simpl in *. lia. Qed.

(** A set with an empty path has no other. *)
Lemma free_root l r : free l -> ([], r) ∈ l -> l = [([], r)].
Proof.
  intros [Hnd Hp] Hin.
  assert (Hall : forall s, s ∈ l -> s.1 = []).
  { intros s Hs. symmetry. apply Hp; [apply list_elem_of_fmap; by exists ([], r)|apply list_elem_of_fmap; by exists s|apply prefix_nil]. }
  destruct l as [|s1 [|s2 l]]; [by apply elem_of_nil in Hin|by apply list_elem_of_singleton in Hin as <-|].
  exfalso. simpl in Hnd. apply NoDup_cons in Hnd as [Hni _]. apply Hni. rewrite (Hall s1), (Hall s2); [left|right; left|left].
Qed.

Lemma free_cases l : free l -> (exists r, l = [([], r)]) \/ inner l.
Proof.
  intros H. destruct (decide (Exists (fun s => s.1 = []) l)) as [He|Hn].
  - left. apply Exists_exists in He as ([p r] & Hin & Ep). simpl in Ep. subst p. exists r. by apply free_root.
  - right. apply not_Exists_Forall in Hn; [done|]. intros s. apply _.
Qed.

(** ** The reference: the root of a set of shards, bit by bit *)

Section root.
Context `{Sha256}.

Fixpoint sroot (fuel : nat) (l : shards) : bytes :=
  match l with
  | [] => ZERO_ROOT
  | s :: _ =>
      if bool_decide (s.1 = []) then s.2
      else match fuel with
           | O => ZERO_ROOT
           | S f => hash_pair (sroot f (sub false l)) (sroot f (sub true l))
           end
  end.

Lemma sroot_inner f l : l <> [] -> inner l -> sroot (S f) l = hash_pair (sroot f (sub false l)) (sroot f (sub true l)).
Proof. intros Hne Hi. destruct l as [|s l]; [done|]. apply Forall_cons in Hi as [Hs _]. cbn [sroot]. by rewrite bool_decide_eq_false_2. Qed.

Lemma sroot_fuel f1 : forall f2 l, short f1 l -> short f2 l -> sroot f1 l = sroot f2 l.
Proof.
  induction f1 as [|f1 IH]; intros f2 l H1 H2; destruct l as [|[p r] l]; [by destruct f2| |by destruct f2|].
  - apply Forall_cons in H1 as [Hp _]. simpl in Hp. destruct p; [|simpl in Hp; lia]. by destruct f2.
  - cbn [sroot]. case_bool_decide as Ep; [destruct f2; cbn [sroot]; by rewrite bool_decide_eq_true_2|].
    destruct f2 as [|f2]; [apply Forall_cons in H2 as [Hp _]; simpl in Hp, Ep; destruct p; [done|simpl in Hp; lia]|].
    cbn [sroot]. rewrite bool_decide_eq_false_2 by done. f_equal; apply IH; by apply sub_short.
Qed.

Lemma sroot_perm f : forall l l', free l -> l ≡ₚ l' -> sroot f l = sroot f l'.
Proof.
  induction f as [|f IH]; intros l l' Hf E; destruct (free_cases l Hf) as [[r ->]|Hi];
    [by apply Permutation_singleton_l in E as ->| |by apply Permutation_singleton_l in E as ->|].
  - destruct l as [|s l]; [by apply Permutation_nil_l in E as ->|]. destruct l' as [|s' l']; [by apply Permutation_nil_r in E|].
    assert (Hi' : inner (s' :: l')) by (unfold inner; by rewrite <- E).
    apply Forall_cons in Hi as [? _], Hi' as [? _]. cbn [sroot]. by rewrite !bool_decide_eq_false_2.
  - destruct (decide (l = [])) as [->|Hne]; [by apply Permutation_nil_l in E as ->|].
    rewrite !sroot_inner; [|by intros ->; apply Permutation_nil_r in E|unfold inner; by rewrite <- E|done|done].
    f_equal; (apply IH; [by apply sub_free|]); unfold sub; by rewrite E.
Qed.

(** ** The construction from the shards *)

Lemma strip_sub d b l : Forall (fun s => d < length s.1)%nat l ->
  strip (S d) (List.filter (fun s => eqb (default false (s.1 !! d)) b) l) = sub b (strip d l).
Proof.
  induction 1 as [|[p r] l Hp Hl IH]; [done|]. simpl in Hp. destruct (lookup_lt_is_Some_2 p d Hp) as [x Hx].
  change (strip d ((p, r) :: l)) with ((drop d p, r) :: strip d l). rewrite (drop_S p x d Hx), sub_cons.
  cbn [List.filter fst]. rewrite Hx. change (default false (Some x)) with x. destruct (eqb x b); [|exact IH].
  rewrite <- IH. done.
Qed.

Lemma build_paths_ok fuel : forall d l,
  free (strip d l) -> Forall (fun s => d <= length s.1 < d + fuel)%nat l ->
  build_paths fuel l d = Ok (sroot fuel (strip d l)).
Proof.
  induction fuel as [|fuel IH]; intros d l Hf Hl.
  - destruct l as [|s l]; [done|]. apply Forall_cons in Hl as [Hs _]. lia.
  - destruct (decide (l = [])) as [->|Hne]; [done|].
    destruct (free_cases _ Hf) as [[r Hr]|Hi].
    + destruct l as [|[p r'] [|]]; [done| |done]. injection Hr as Hp ->. apply Forall_cons in Hl as [Hs _]. simpl in Hs.
      assert (length p = d) by (apply (f_equal length) in Hp; rewrite length_drop in Hp; simpl in Hp; lia).
      cbn. rewrite (proj2 (Nat.eqb_eq _ _)) by done. by rewrite Hp.
    + assert (Hlt : Forall (fun s => d < length s.1)%nat l).
      { unfold inner, strip in Hi. rewrite Forall_fmap in Hi. apply Forall_forall. intros s Hs.
        rewrite Forall_forall in Hi, Hl. specialize (Hi s Hs). specialize (Hl s Hs). simpl in *.
        assert (length (drop d s.1) <> 0%nat) by (by destruct (drop d s.1)). rewrite length_drop in *. lia. }
      rewrite sroot_inner; [|by destruct l|done].
      destruct l as [|s l]; [done|]. cbn [build_paths].
      replace (length s.1 =? d)%nat with false by (symmetry; apply Nat.eqb_neq; apply Forall_cons in Hlt as [? _]; lia).
      rewrite andb_false_r.
      destruct (existsb _ _) eqn:Ee.
      { apply existsb_exists in Ee as (s' & Hs' & Hle). apply list_elem_of_In in Hs'. rewrite Forall_forall in Hlt. specialize (Hlt s' Hs').
        apply Nat.leb_le in Hle. lia. }
      assert (Hfilter : forall b, Forall (fun s => S d <= length s.1 < S d + fuel)%nat (List.filter (fun s => eqb (default false (s.1 !! d)) b) (s :: l))).
      { intros b. apply Forall_forall. intros x Hx. apply list_elem_of_In, filter_In in Hx as [Hx _]. apply list_elem_of_In in Hx.
        rewrite Forall_forall in Hl, Hlt. specialize (Hl x Hx). specialize (Hlt x Hx). lia. }
      rewrite !IH by (try apply Hfilter; rewrite strip_sub by done; by apply sub_free). cbn [mbind outcome_bind].
      by rewrite !strip_sub.
Qed.

Lemma strip_0 l : strip 0 l = l.
Proof. unfold strip. rewrite <- (list_fmap_id l) at 2. apply list_fmap_ext. by intros _ [p r] _. Qed.

Lemma short_max l : short (list_max (length ∘ fst <$> l)) l.
Proof.
  apply Forall_forall. intros s Hs. pose proof (proj1 (list_max_le (length ∘ fst <$> l) _) (Nat.le_refl _)) as Hm.
  rewrite Forall_forall in Hm. apply Hm, list_elem_of_fmap. by exists s.
Qed.

Lemma app_root_ok f l : free l -> short f l -> app_root_from_shard_paths l = Ok (sroot f l).
Proof.
  intros Hf Hs.
  assert (E : build_paths (S (list_max (length ∘ fst <$> l))) l 0 = Ok (sroot f l)).
  { rewrite build_paths_ok; rewrite ?strip_0; [|done|].
    - f_equal. apply sroot_fuel; [|done]. eapply Forall_impl; [apply short_max|]. simpl. lia.
    - eapply Forall_impl; [apply short_max|]. simpl. lia. }
  unfold app_root_from_shard_paths. destruct l as [|[[|b p] r] [|s l]]; [by destruct f|by destruct f|exact E..].
Qed.
End root.

(** ** Membership paths *)

Section membership.
Context `{Sha256}.

Lemma in_sibling_cons b t d x p r :
  in_sibling (b :: t) (S d) (x :: p, r) = eqb x b && in_sibling t d (p, r).
Proof.
  unfold in_sibling. cbn [fst length take lookup list_lookup]. rewrite Nat.ltb_compare, Nat.ltb_compare. cbn [Nat.compare].
  destruct (eqb x b) eqn:E.
  - apply eqb_prop in E as ->. cbn [andb]. do 2 f_equal. apply bool_decide_ext. split; [by intros [= ->]|by intros ->].
  - rewrite bool_decide_eq_false_2; [by rewrite andb_false_r|]. intros [= -> _]. by rewrite eqb_reflx in E.
Qed.

Lemma sibling_sub b t d l : inner l ->
  strip (S (S d)) (List.filter (in_sibling (b :: t) (S d)) l) = strip (S d) (List.filter (in_sibling t d) (sub b l)).
Proof.
  induction 1 as [|[p r] l Hp Hl IH]; [done|]. destruct p as [|x p]; [done|]. rewrite sub_cons. cbn [List.filter].
  rewrite in_sibling_cons. destruct (eqb x b); cbn [andb List.filter]; [|exact IH].
  destruct (in_sibling t d (p, r)); [|exact IH]. cbn [strip fmap list_fmap fst drop snd]. f_equal. exact IH.
Qed.

Lemma sibling_first b t l : inner l -> strip 1 (List.filter (in_sibling (b :: t) 0) l) = sub (negb b) l.
Proof.
  induction 1 as [|[p r] l Hp Hl IH]; [done|]. destruct p as [|x p]; [done|]. rewrite sub_cons.
  cbn [List.filter].
  replace (in_sibling (b :: t) 0 (x :: p, r)) with (eqb x (negb b)) by (by destruct x, b).
  destruct (eqb x (negb b)); [|exact IH]. cbn [strip fmap list_fmap fst drop snd]. f_equal. exact IH.
Qed.

Lemma co_path_sub b t l : inner l -> forall ds, co_path l (b :: t) (S <$> ds) = co_path (sub b l) t ds.
Proof.
  intros Hi. induction ds as [|d ds IH]; [done|]. cbn [fmap list_fmap co_path].
  pose proof (sibling_sub b t d l Hi) as E. unfold strip in E. rewrite E. by rewrite <- IH.
Qed.

Lemma membership_ok target : forall f l r,
  free l -> short f l -> (target, r) ∈ l ->
  exists sibs, app_membership_path_dynamic l target = Ok sibs /\ length sibs = length target /\
    app_root_from_shard_path target r sibs = sroot f l.
Proof.
  unfold app_membership_path_dynamic. induction target as [|b t IH]; intros f l r Hf Hs Hin.
  - rewrite (free_root l r Hf Hin). exists []. by destruct f.
  - assert (Hi : inner l).
    { destruct (free_cases l Hf) as [[r' ->]|]; [|done]. by apply list_elem_of_singleton in Hin. }
    assert (Hne : l <> []) by (by intros ->; apply elem_of_nil in Hin).
    destruct f as [|f]; [unfold short in Hs; rewrite Forall_forall in Hs; apply Hs in Hin; simpl in Hin; lia|].
    destruct (IH f (sub b l) r) as (sibs & E & Hl & Hr); [by apply sub_free|by apply sub_short|by apply elem_sub|].
    exists (sroot f (sub (negb b) l) :: sibs). cbn [length seq co_path].
    pose proof (sibling_first b t l Hi) as E0. unfold strip in E0. rewrite E0.
    rewrite (app_root_ok f) by eauto using sub_free, sub_short. cbn [mbind outcome_bind].
    rewrite <- fmap_S_seq, (co_path_sub b t l Hi), E. cbn [mbind outcome_bind]. split; [done|]. split; [by rewrite Hl|].
    rewrite sroot_inner by done. unfold app_root_from_shard_path in *. cbn [zip zip_with foldr fst snd]. rewrite Hr. by destruct b.
Qed.

(** A shard whose root is the hash of its halves can be replaced by them. *)
Lemma sroot_split f : forall p l r0 r1,
  free ((p, hash_pair r0 r1) :: l) -> short f ((p ++ [true], r1) :: l) ->
  sroot f ((p ++ [false], r0) :: (p ++ [true], r1) :: l) = sroot f ((p, hash_pair r0 r1) :: l).
Proof.
  induction f as [|f IH]; intros p l r0 r1 Hf Hs.
  { apply Forall_cons in Hs as [Hp _]. simpl in Hp. rewrite length_app in Hp. simpl in Hp. lia. }
  destruct p as [|b p].
  - assert (El : (([], hash_pair r0 r1) : list bool * bytes) :: l = [([], hash_pair r0 r1)]) by (apply free_root; [done|left]).
    injection El as ->. cbn. by destruct f.
  - destruct (free_cases _ Hf) as [[r Hr]|Hi]; [done|].
    rewrite !sroot_inner; [|done|done|done|]; [|apply Forall_cons in Hi as [_ Hi]; by repeat constructor].
    pose proof (sub_free b _ Hf) as Hf'. pose proof (sub_short b f _ Hs) as Hs'.
    cbn [app] in *. rewrite sub_cons, eqb_reflx in Hf', Hs'. specialize (IH p (sub b l) r0 r1 Hf' Hs').
    rewrite !sub_cons. destruct b; cbn [eqb]; by rewrite IH.
Qed.
End membership.

(** ** The uniform grid *)

Section grid.
Context `{Sha256}.

(** The node at level [k] and index [i] over the row [g]. *)
Fixpoint pnode (g : nat -> bytes) (k i : nat) : bytes :=
  match k with O => g i | S k => hash_pair (pnode g k (2 * i)) (pnode g k (2 * i + 1)) end.

Definition pair_row (g : nat -> bytes) (i : nat) : bytes := hash_pair (g (2 * i)%nat) (g (2 * i + 1)%nat).

Lemma pnode_up g k : forall i, pnode (pair_row g) k i = pnode g (S k) i.
Proof. induction k as [|k IH]; intros i; [done|]. cbn [pnode] in *. by rewrite !IH. Qed.

Lemma hash_level_row g n : forall s, hash_level (g <$> seq (2 * s) (2 * n)) = Ok (pair_row g <$> seq s n).
Proof.
  induction n as [|n IH]; intros s; [done|]. replace (2 * S n)%nat with (S (S (2 * n))) by lia. cbn [seq fmap list_fmap hash_level].
  replace (S (S (2 * s)))%nat with (2 * S s)%nat by lia. change (list_fmap nat bytes g (seq (2 * S s) (2 * n))) with (g <$> seq (2 * S s) (2 * n)).
  rewrite IH. cbn [mbind outcome_bind]. do 2 f_equal. unfold pair_row. do 2 f_equal. lia.
Qed.

Lemma hash_row g k : hash_level (g <$> seq 0 (2 ^ S k)) = Ok (pair_row g <$> seq 0 (2 ^ k)).
Proof. apply (hash_level_row g (2 ^ k) 0). Qed.

Lemma row_long (g : nat -> bytes) k : (2 <= length (g <$> seq 0 (2 ^ S k)))%nat.
Proof. rewrite length_fmap, length_seq, Nat.pow_succ_r'. pose proof (Nat.pow_nonzero 2 k ltac:(lia)). lia. Qed.

Lemma fold_row_spec k : forall g, fold_row k (g <$> seq 0 (2 ^ k)) = Ok (pnode g k 0).
Proof.
  induction k as [|k IH]; intros g; [done|]. pose proof (row_long g k) as Hl.
  destruct (g <$> seq 0 (2 ^ S k)) as [|x [|y l]] eqn:E; [simpl in Hl; lia..|]. cbn [fold_row].
  rewrite <- E, hash_row. cbn [mbind outcome_bind]. by rewrite IH, pnode_up.
Qed.

Lemma sibling_of_even x : 0 <= x -> Z.even x = true -> Z.lxor x 1 = x + 1.
Proof. intros H0 Hx. apply Z.even_spec in Hx as [y ->]. destruct y; [done|done|lia]. Qed.
Lemma sibling_of_odd x : 0 <= x -> Z.even x = false -> Z.lxor x 1 = x - 1.
Proof.
  intros H0 Hx. rewrite <- Z.negb_odd in Hx. apply negb_false_iff, Z.odd_spec in Hx as [y ->]. destruct y; [done|done|lia].
Qed.

Lemma sibling_row_spec k : forall g i, (i < 2 ^ k)%nat ->
  exists sibs, sibling_row k (g <$> seq 0 (2 ^ k)) (Z.of_nat i) = Ok sibs /\
    length sibs = k /\ app_root_from_shard (Z.of_nat i) (g i) sibs = pnode g k 0.
Proof.
  induction k as [|k IH]; intros g i Hi; [exists []; simpl in Hi; by replace i with 0%nat by lia|].
  pose proof (row_long g k) as Hl. rewrite Nat.pow_succ_r' in Hi.
  destruct (IH (pair_row g) (i / 2)%nat) as (sibs & E & Hlen & Hr); [apply Nat.Div0.div_lt_upper_bound; lia|].
  assert (Eh : Z.shiftr (Z.of_nat i) 1 = Z.of_nat (i / 2)) by (rewrite Z.shiftr_div_pow2 by lia; change (2 ^ 1) with 2; by rewrite Nat2Z.inj_div).
  pose proof (Nat.div_mod i 2 ltac:(lia)) as Hdm. pose proof (Nat.mod_upper_bound i 2 ltac:(lia)) as Hm.
  set (j := if Z.even (Z.of_nat i) then (i + 1)%nat else (i - 1)%nat).
  assert (Hj : Z.to_nat (Z.lxor (Z.of_nat i) 1) = j /\ (j < 2 ^ S k)%nat /\
               (if Z.land (Z.of_nat i) 1 =? 0 then hash_pair (g i) (g j) else hash_pair (g j) (g i)) = pair_row g (i / 2)).
  { rewrite Nat.pow_succ_r'. unfold j, pair_row. rewrite land_1, Zmod_even. destruct (Z.even (Z.of_nat i)) eqn:Ev.
    - rewrite sibling_of_even by (done || lia). apply Z.even_spec in Ev as [y Hy].
      assert (i mod 2 = 0)%nat by (assert (i = 2 * Z.to_nat y)%nat as -> by lia; rewrite Nat.mul_comm; apply Nat.Div0.mod_mul).
      split; [lia|]. split; [lia|]. cbn [Z.eqb]. f_equal; f_equal; lia.
    - rewrite sibling_of_odd by (done || lia). rewrite <- Z.negb_odd in Ev. apply negb_false_iff, Z.odd_spec in Ev as [y Hy].
      assert (i mod 2 = 1)%nat by (assert (i = 1 + Z.to_nat y * 2)%nat as -> by lia; by rewrite Nat.Div0.mod_add).
      split; [lia|]. split; [lia|]. cbn [Z.eqb]. f_equal; f_equal; lia. }
  destruct Hj as (Ej & Hj & Ep). exists (g j :: sibs). cbn [sibling_row].
  rewrite (proj2 (Nat.leb_gt _ _)) by lia. rewrite Ej, list_lookup_fmap, lookup_seq_lt by done. cbn [unwrap fmap option_fmap option_map mbind outcome_bind].
  rewrite hash_row. cbn [mbind outcome_bind]. rewrite Eh, E. cbn [mbind outcome_bind]. split; [done|]. split; [by rewrite <- Hlen|].
  cbn [app_root_from_shard]. by rewrite Ep, Eh, Hr, pnode_up.
Qed.

(** The shards of a grid: index [j] at the path of its bits. *)
Definition grid (k : nat) (g : nat -> bytes) : shards := (fun j => (level_bits k (Z.of_nat j), g j)) <$> seq 0 (2 ^ k).

Lemma level_bits_S k v : level_bits (S k) v = Z.testbit v (Z.of_nat k) :: level_bits k v.
Proof. unfold level_bits. rewrite seq_S, reverse_snoc. cbn [fmap list_fmap]. by rewrite shifted_bit by lia. Qed.

Lemma pow2_nat k : Z.of_nat (2 ^ k) = 2 ^ Z.of_nat k.
Proof. by rewrite Nat2Z.inj_pow. Qed.

Lemma level_bits_low k : forall (j m : nat), (j < 2 ^ k)%nat -> level_bits k (Z.of_nat (m * 2 ^ k + j)) = level_bits k (Z.of_nat j).
Proof.
  intros j m Hj. pose proof (pow2_nat k). unfold level_bits. apply list_fmap_ext. intros _ i Hi%list_elem_of_lookup_2%elem_of_reverse%elem_of_seq.
  rewrite !shifted_bit by lia. rewrite Nat2Z.inj_add, Nat2Z.inj_mul, pow2_nat.
  rewrite <- (lor_high k (Z.of_nat m) (Z.of_nat j)) by lia. rewrite Z.lor_spec, Z.shiftl_spec_low by lia. done.
Qed.

Lemma sub_grid b k g : sub b (grid (S k) g) = grid k (fun j => g (if b then 2 ^ k + j else j))%nat.
Proof.
  pose proof (pow2_nat k) as Hk.
  assert (Hhalf : forall c, sub b ((fun j => (c :: level_bits k (Z.of_nat j), g (if c then 2 ^ k + j else j)%nat)) <$> seq 0 (2 ^ k))
                   = if eqb c b then grid k (fun j => g (if c then 2 ^ k + j else j))%nat else []).
  { intros c. unfold grid. induction (seq 0 (2 ^ k)) as [|j l IH]; [by destruct (eqb c b)|]. cbn [fmap list_fmap].
    rewrite sub_cons, IH. by destruct (eqb c b). }
  assert (Esplit : grid (S k) g = ((fun j => (false :: level_bits k (Z.of_nat j), g j)) <$> seq 0 (2 ^ k))
                     ++ ((fun j => (true :: level_bits k (Z.of_nat j), g (2 ^ k + j)%nat)) <$> seq 0 (2 ^ k))).
  { unfold grid. rewrite Nat.pow_succ_r'. replace (2 * 2 ^ k)%nat with (2 ^ k + 2 ^ k)%nat by lia. rewrite seq_app, fmap_app. f_equal.
    - apply list_fmap_ext. intros _ j Hj%list_elem_of_lookup_2%elem_of_seq. rewrite level_bits_S. do 2 f_equal.
      rewrite (bits_above k); [done|lia|lia].
    - rewrite Nat.add_0_l. rewrite <- (Nat.add_0_r (2 ^ k)) at 1. rewrite <- fmap_add_seq, <- list_fmap_compose.
      apply list_fmap_ext. intros _ j Hj%list_elem_of_lookup_2%elem_of_seq. unfold compose. rewrite level_bits_S.
      replace (2 ^ k + j)%nat with (1 * 2 ^ k + j)%nat at 2 by lia. rewrite level_bits_low by lia. do 2 f_equal.
      rewrite Nat2Z.inj_add, pow2_nat. rewrite <- lor_sentinel by lia. rewrite Z.lor_spec, Z.pow2_bits_true by lia. done. }
  rewrite Esplit. unfold sub in *. rewrite omap_app. rewrite (Hhalf false), (Hhalf true). by destruct b; cbn [eqb]; rewrite ?app_nil_r.
Qed.

Lemma grid_root k : forall g m, sroot k (grid k (fun j => g (m * 2 ^ k + j)%nat)) = pnode g k m.
Proof.
  induction k as [|k IH]; intros g m; [cbn; f_equal; lia|].
  assert (Hne : grid (S k) (fun j => g (m * 2 ^ S k + j)%nat) <> []).
  { intros E%(f_equal length). unfold grid in E. rewrite length_fmap, length_seq in E. by apply Nat.pow_nonzero in E. }
  rewrite sroot_inner; [|done|].
  - rewrite !sub_grid. cbn [pnode]. rewrite <- !IH. f_equal; f_equal; unfold grid; apply list_fmap_ext; intros _ j _; f_equal; f_equal;
      rewrite Nat.pow_succ_r'; lia.
  - unfold inner, grid. apply Forall_fmap, Forall_forall. intros j _. simpl. by rewrite level_bits_S.
Qed.
End grid.

(** ** Grid paths *)

Definition grid_paths (k : nat) : list (list bool) := (fun j => level_bits k (Z.of_nat j)) <$> seq 0 (2 ^ k).

Lemma length_level_bits k v : length (level_bits k v) = k.
Proof. unfold level_bits. by rewrite length_fmap, length_reverse, length_seq. Qed.

Lemma level_bits_lookup k v i : (i < k)%nat -> level_bits k v !! i = Some (Z.testbit v (Z.of_nat (k - 1 - i))).
Proof.
  intros Hi. unfold level_bits. rewrite list_lookup_fmap, reverse_lookup by (by rewrite length_seq).
  rewrite length_seq, lookup_seq_lt by lia. cbn [fmap option_fmap option_map]. rewrite shifted_bit by lia. do 2 f_equal. lia.
Qed.

Lemma level_bits_inj k v w : 0 <= v < 2 ^ Z.of_nat k -> 0 <= w < 2 ^ Z.of_nat k -> level_bits k v = level_bits k w -> v = w.
Proof.
  intros Hv Hw E. apply Z.bits_inj'. intros n Hn. destruct (decide (n < Z.of_nat k)); [|by rewrite !(bits_above k) by lia].
  apply (f_equal (lookup (k - 1 - Z.to_nat n)%nat)) in E. rewrite !level_bits_lookup in E by lia. injection E as E.
  by replace (Z.of_nat (k - 1 - (k - 1 - Z.to_nat n))) with n in E by lia.
Qed.

Lemma level_bits_snoc k v (b : bool) : level_bits (S k) (2 * v + Z.b2z b) = level_bits k v ++ [b].
Proof.
  apply list_eq. intros i. destruct (decide (i < S k)%nat) as [Hi|Hi].
  - rewrite level_bits_lookup by done. destruct (decide (i = k)) as [->|].
    + rewrite lookup_app_r, length_level_bits, Nat.sub_diag by (by rewrite length_level_bits). simpl. f_equal.
      replace (Z.of_nat (k - 0 - k)) with 0 by lia. apply Z.testbit_0_r.
    + rewrite lookup_app_l by (rewrite length_level_bits; lia). rewrite level_bits_lookup by lia. f_equal.
      replace (Z.of_nat (S k - 1 - i)) with (Z.succ (Z.of_nat (k - 1 - i))) by lia. apply Z.testbit_succ_r; lia.
  - rewrite !lookup_ge_None_2; [done|rewrite length_app, length_level_bits; simpl; lia|rewrite length_level_bits; lia].
Qed.

Lemma shard_index_spec data k :
  (k <= 32)%nat -> level_bits k (shard_index data k) = data_bit data <$> seq 0 k /\ 0 <= shard_index data k < 2 ^ Z.of_nat k.
Proof.
  unfold shard_index. induction k as [|k IH]; intros Hk; [done|]. destruct IH as [E Hr]; [lia|].
  rewrite seq_S, foldl_app, fmap_app, <- E. cbn [foldl fmap list_fmap]. set (v := foldl _ 0 _) in *.
  assert (Hp : 2 ^ Z.of_nat (S k) = 2 * 2 ^ Z.of_nat k) by apply pow2_S.
  assert (Hle : 2 ^ Z.of_nat (S k) <= 2 ^ 32) by (apply Z.pow_le_mono_r; lia). change (2 ^ 32) with 4294967296 in Hle.
  assert (Ev : Z.lor (wrap_u32 (Z.shiftl v 1)) (Z.b2z (data_bit data k)) = 2 * v + Z.b2z (data_bit data k)).
  { rewrite wrap_u32_id by (rewrite Z.shiftl_mul_pow2 by lia; unfold_ints; change (2 ^ 1) with 2; lia).
    rewrite (lor_high 1 v) by (destruct (data_bit data k); simpl; lia). change (2 ^ Z.of_nat 1) with 2. lia. }
  rewrite Nat.add_0_l, Ev. split; [apply level_bits_snoc|]. destruct (data_bit data k); simpl; lia.
Qed.

Lemma grid_lookup k i p : grid_paths k !! i = Some p <-> (i < 2 ^ k)%nat /\ p = level_bits k (Z.of_nat i).
Proof.
  unfold grid_paths. rewrite list_lookup_fmap. destruct (decide (i < 2 ^ k)%nat) as [Hi|Hi].
  - rewrite lookup_seq_lt by done. naive_solver.
  - rewrite lookup_seq_ge by lia. naive_solver lia.
Qed.

Lemma grid_index_eq k i j : (i < 2 ^ k)%nat -> (j < 2 ^ k)%nat -> level_bits k (Z.of_nat i) = level_bits k (Z.of_nat j) -> i = j.
Proof. intros Hi Hj E. pose proof (pow2_nat k). apply level_bits_inj in E; lia. Qed.

Lemma grid_free k : prefix_free (grid_paths k).
Proof.
  split.
  - apply NoDup_alt. intros i j p [Hi ->]%grid_lookup [Hj E]%grid_lookup. by apply (grid_index_eq k).
  - intros p q [i [_ ->]%grid_lookup]%list_elem_of_lookup [j [_ ->]%grid_lookup]%list_elem_of_lookup [z E].
    assert (length z = 0%nat) by (apply (f_equal length) in E; rewrite length_app, !length_level_bits in E; lia).
    by rewrite (nil_length_inv z), app_nil_r in E by done.
Qed.

Lemma grid_route data k : (k <= 32)%nat -> address_shard_index data (grid_paths k) = Z.to_nat (shard_index data k).
Proof.
  intros Hk. destruct (shard_index_spec data k Hk) as [E Hr]. pose proof (pow2_nat k). set (i := Z.to_nat (shard_index data k)).
  assert (Hi : grid_paths k !! i = Some (level_bits k (shard_index data k))) by (apply grid_lookup; unfold i; rewrite Z2Nat.id by lia; split; [lia|done]).
  assert (Hc : forall j p, grid_paths k !! j = Some p -> addr_has_bit_prefix data p = true <-> j = i).
  { intros j p Hj. rewrite addr_covers. split.
    - intros Hcov. apply grid_lookup in Hj as [Hj ->]. apply (grid_index_eq k); [done|unfold i; lia|]. unfold i. rewrite Z2Nat.id, E by lia.
      apply list_eq_same_length with k; [rewrite length_fmap, length_seq; done|by rewrite length_level_bits|].
      intros m x y Hm Hx Hy. rewrite list_lookup_fmap, lookup_seq_lt in Hy by done. injection Hy as <-. symmetry. by apply Hcov.
    - intros ->. rewrite Hi in Hj. injection Hj as <-. rewrite E. intros m b Hm. rewrite list_lookup_fmap in Hm.
      destruct (seq 0 k !! m) as [x|] eqn:Ex; [|done]. apply lookup_seq in Ex as [-> _]. by injection Hm as <-. }
  unfold address_shard_index. destruct (position _ _) as [j|] eqn:Ej.
  - apply position_Some in Ej as (p & Hp & Hb & _). by apply (Hc j p).
  - exfalso. rewrite position_None in Ej. specialize (Ej _ (list_elem_of_lookup_2 _ _ _ Hi)).
    rewrite (proj2 (Hc i _ Hi) eq_refl) in Ej. done.
Qed.

Lemma grid_partition k : partition (grid_paths k).
Proof.
  split; [apply grid_free|]. intros a.
  assert (Hv : forall k, exists v, 0 <= v < 2 ^ Z.of_nat k /\ level_bits k v = a <$> seq 0 k).
  { clear k. induction k as [|k (v & Hr & E)]; [exists 0; done|]. exists (2 * v + Z.b2z (a k)).
    rewrite pow2_S, level_bits_snoc, E, seq_S, fmap_app. split; [|done]. destruct (a k); simpl; lia. }
  destruct (Hv k) as (v & Hr & E). pose proof (pow2_nat k). exists (level_bits k v).
  assert (Hin : grid_paths k !! Z.to_nat v = Some (level_bits k v)) by (apply grid_lookup; rewrite Z2Nat.id by lia; split; [lia|done]).
  split; [by eapply list_elem_of_lookup_2|]. split.
  - rewrite E. intros m b Hm. rewrite list_lookup_fmap in Hm. destruct (seq 0 k !! m) as [x|] eqn:Ex; [|done].
    apply lookup_seq in Ex as [-> _]. by injection Hm as <-.
  - intros q [j [Hj ->]%grid_lookup]%list_elem_of_lookup Hcov. rewrite E.
    apply list_eq_same_length with k; [rewrite length_fmap, length_seq; done|by rewrite length_level_bits|].
    intros m x y Hm Hx Hy. rewrite list_lookup_fmap, lookup_seq_lt in Hy by done. injection Hy as <-. symmetry. by apply Hcov.
Qed.

Lemma genesis_grid : omap shard_bit_path_from_prefix (genesis_grid_prefixes 0) = grid_paths 6.
Proof.
  unfold genesis_grid_prefixes. cbn [Z.eqb]. unfold grid_paths. change (2 ^ 6)%nat with 64%nat.
  induction (seq 0 64) as [|i l IH]; [done|]. cbn [fmap list_fmap omap list_omap]. rewrite prefix_bits.
  unfold prefix_to_bits. cbn [fmap list_fmap concat]. rewrite app_nil_r. f_equal. exact IH.
Qed.

(** ** Properties *)

(** C20. The application root is a function of the set of shards: on any
    prefix-free set it is defined, the same in every order, and unchanged when a
    shard whose root is the hash of its halves is split into them; and every
    shard has a membership path, one sibling per bit, from which its root
    recomputes the application root. *)
Theorem app_root_of_shards :
  forall (S2 : Sha256) (l : shards), prefix_free l.*1 ->
  exists root, app_root_from_shard_paths l = Ok root /\
    (forall l', l ≡ₚ l' -> app_root_from_shard_paths l' = Ok root) /\
    (forall target r, (target, r) ∈ l ->
       exists sibs, app_membership_path_dynamic l target = Ok sibs /\ length sibs = length target /\
         app_root_from_shard_path target r sibs = root) /\
    (forall target r0 r1 rest, l = (target, hash_pair r0 r1) :: rest ->
       prefix_free ((target ++ [false]) :: (target ++ [true]) :: rest.*1) ->
       app_root_from_shard_paths ((target ++ [false], r0) :: (target ++ [true], r1) :: rest) = Ok root).
Proof.
  intros S2 l Hf. pose proof (short_max l) as Hs. set (f := list_max _) in Hs. exists (sroot f l).
  split; [by apply app_root_ok|]. split; [|split].
  - intros l' E. rewrite (sroot_perm f l l') by done.
    assert (Hf' : free l').
    { destruct Hf as [Hnd Hp]. split; [by rewrite <- E|]. intros p q. rewrite <- E. apply Hp. }
    apply app_root_ok; [done|]. unfold short. by rewrite <- E.
  - intros target r Hin. by apply membership_ok.
  - intros target r0 r1 rest -> Hf'. set (l' := _ :: _ :: rest). assert (Hs' : short (S f) l').
    { apply Forall_cons in Hs as [Ht Hr]. simpl in Ht. unfold l'. constructor; [simpl; rewrite length_app; simpl; lia|].
      constructor; [simpl; rewrite length_app; simpl; lia|]. eapply Forall_impl; [exact Hr|]. simpl. lia. }
    rewrite (app_root_ok (S f)) by done. f_equal. unfold l'. rewrite sroot_split; [|done|by apply Forall_cons in Hs' as [_ ?]].
    apply sroot_fuel; [|done]. eapply Forall_impl; [exact Hs|]. simpl. lia.
Qed.

Lemma app_root_of_shards_witness :
  let l := [([true], replicate 32 x02); ([false], replicate 32 x01)] in
  prefix_free l.*1 /\ exists root, app_root_from_shard_paths (H := demo_sha256) l = Ok root /\
    exists sibs, app_membership_path_dynamic (H := demo_sha256) l [true] = Ok sibs /\
      app_root_from_shard_path (H := demo_sha256) [true] (replicate 32 x02) sibs = root.
Proof.
  intros l. assert (H : prefix_free l.*1).
  { apply partition_prefix_free. apply (split_partition [] [] [[true]; [false]]).
    - split; [apply NoDup_singleton|]. intros a. exists []. split; [left|]. split; [by intros i b|]. by intros q ->%list_elem_of_singleton.
    - apply (tiles_step [] false), tiles_self. }
  split; [exact H|].
  destruct (app_root_of_shards demo_sha256 l H) as (root & E & _ & Hm & _). exists root. split; [exact E|].
  destruct (Hm [true] (replicate 32 x02)) as (sibs & Es & _ & Er); [left|]. exists sibs. split; [exact Es|exact Er].
Defined.

(** C30. On the uniform grid of [2^k] shards the general machinery is the
    indexed one: the paths partition the addresses, an address routes to the
    shard numbered by its top bits, the application root is the root of the row
    of shard roots, and the indexed membership path of every shard leads to it.
    The genesis grid is the case of 6 bits. *)
Theorem uniform_grid_agrees :
  forall (S2 : Sha256) (k : nat) (roots : Z -> option bytes), (k <= 31)%nat ->
  let g := fun i => default ZERO_ROOT (roots (Z.of_nat i)) in
  partition (grid_paths k) /\
  (forall data : bytes, address_shard_index data (grid_paths k) = Z.to_nat (shard_index data k)) /\
  omap shard_bit_path_from_prefix (genesis_grid_prefixes 0) = grid_paths 6 /\
  exists root, app_root_from_shards k roots = Ok root /\
    app_root_from_shard_paths (zip (grid_paths k) (g <$> seq 0 (2 ^ k))) = Ok root /\
    (forall i, (i < 2 ^ k)%nat -> exists sibs, app_membership_path k (Z.of_nat i) roots = Ok sibs /\
       length sibs = k /\ app_root_from_shard (Z.of_nat i) (g i) sibs = root).
Proof.
  intros S2 k roots Hk g. split; [apply grid_partition|]. split; [intros data; apply grid_route; lia|]. split; [exact genesis_grid|].
  exists (pnode g k 0). unfold app_root_from_shards, app_membership_path, shard_row. rewrite (proj2 (Nat.ltb_ge 31 k)) by lia.
  split; [apply fold_row_spec|]. split.
  - assert (Ez : zip (grid_paths k) (g <$> seq 0 (2 ^ k)) = grid k g) by (unfold grid_paths, grid; by rewrite zip_with_fmap_l, zip_with_fmap_r, zip_with_diag).
    rewrite Ez. rewrite (app_root_ok k).
    + f_equal. rewrite <- (grid_root k g 0). done.
    + unfold free. replace (grid k g).*1 with (grid_paths k) by (unfold grid; by rewrite <- list_fmap_compose). apply grid_free.
    + apply Forall_fmap, Forall_forall. intros j _. simpl. by rewrite length_level_bits.
  - intros i Hi. by apply sibling_row_spec.
Qed.

Lemma uniform_grid_agrees_witness :
  exists root, app_root_from_shards (H := demo_sha256) 2 (fun i => Some (replicate 32 (z2b i))) = Ok root /\
    exists sibs, app_membership_path (H := demo_sha256) 2 1 (fun i => Some (replicate 32 (z2b i))) = Ok sibs /\
      app_root_from_shard (H := demo_sha256) 1 (replicate 32 x01) sibs = root.
Proof.
  destruct (uniform_grid_agrees demo_sha256 2 (fun i => Some (replicate 32 (z2b i)))) as (_ & _ & _ & root & E & _ & Hm); [lia|].
  exists root. split; [exact E|]. destruct (Hm 1%nat) as (sibs & Es & _ & Er); [simpl; lia|]. exists sibs. split; [exact Es|exact Er].
Defined.
