(* ===== verification/Hypergraph.v ===== *)
(** * The hypergraph: staged mutations and their commit

    [crates/quil-hypergraph/src/addressing.rs] and the mutation, discard, commit
    and read paths of [crdt.rs].  Each shard has four phases (vertex and hyperedge
    adds and removes).  A mutation stages leaves and blobs in memory and counts
    the size of its sub-shard; a commit moves everything staged into the forest
    and the blob store in one transaction; a discard drops it.

    The store and the forest sit behind interfaces.  The store's [Txn] is the list
    of its writes, applied at once by [txn_commit].  Reads may fail; what they
    return when they succeed is given by the ghost functions [blob_of], [raw_of]
    and [leaf_of] of the laws.  [HashMap]s and [BTreeMap]s are [gmap]s; locks are
    not modelled: the commit lock serialises the operations. *)

From Stdlib Require Import Strings.Byte.
From stdpp Require Import gmap sorting.
From S2P Require Import Prelude Bytes Node Tree TreeCodec VertexCommit Merkle CoinTree ShardPaths.

(** ** Addressing *)

Record ShardKey : Type := mkShardKey { l1 : bytes; l2 : bytes }.
#[global] Instance ShardKey_eq_dec : EqDecision ShardKey.
Proof. solve_decision. Defined.
#[global] Program Instance ShardKey_countable : Countable ShardKey :=
  inj_countable' (fun k => (l1 k, l2 k)) (fun p => mkShardKey p.1 p.2) _.
Next Obligation. by intros []. Qed.

Record Location : Type := mkLocation { app_address : bytes; data_address : bytes }.
#[global] Instance Location_eq_dec : EqDecision Location.
Proof. solve_decision. Defined.
#[global] Program Instance Location_countable : Countable Location :=
  inj_countable' (fun l => (app_address l, data_address l)) (fun p => mkLocation p.1 p.2) _.
Next Obligation. by intros []. Qed.

(** [Location::from_id] and [to_id] *)
Definition from_id (id : bytes) : Location := mkLocation (take 32 id) (drop 32 id).
Definition to_id (l : Location) : bytes := app_address l ++ data_address l.

(** The output stream of SHAKE256. *)
Class Shake256 := shake : bytes -> nat -> byte.

(** [get_bloom_filter_indices]: distinct positions of the stream, kept sorted.
    The digest is the part of the stream read so far.  [fuel] bounds the rounds;
    the loop goes on while the stream repeats itself. *)
Fixpoint insert_sorted (p : bytes) (l : list bytes) : list bytes :=
  match l with
  | [] => [p]
  | x :: l' => if be_Z p <? be_Z x then p :: l else x :: insert_sorted p l'
  end.
Fixpoint bloom_loop (stream : nat -> byte) (pos_size k fuel : nat) (indices : list bytes) (actual_k i : nat) : outcome (list bytes) :=
  if (length indices <? k)%nat && (i <? actual_k)%nat then
    match fuel with
    | O => Panic
    | S fuel' =>
        let position := stream <$> seq (pos_size * i) pos_size in
        if bool_decide (position ∈ indices) then bloom_loop stream pos_size k fuel' indices (S actual_k) (S i)
        else bloom_loop stream pos_size k fuel' (insert_sorted position indices) actual_k (S i)
    end
  else Ok indices.
Definition BLOOM_FUEL : nat := 1024.
Definition get_bloom_filter_indices `{Shake256} (data : bytes) (bit_length : Z) (k : nat) : outcome bytes :=
  match data with
  | [] => Ok (replicate 3 x00)
  | b :: _ =>
      if (0x3f <? b2z b) || forallb (fun b => b2z b =? 0) data then Ok (replicate 3 x00)
      else
        let size := Z.log2_up bit_length in
        indices ← bloom_loop (shake data) (Z.to_nat (size / 8)) k BLOOM_FUEL [] k 0;
        Ok (resize 3 x00 (concat indices))
  end.

(** [shard_key_for_location] *)
Definition shard_key_for_location `{Shake256} (location : Location) : outcome ShardKey :=
  bits ← get_bloom_filter_indices (app_address location) 256 3;
  Ok (mkShardKey bits (app_address location)).

(** ** The store and the forest *)

(** The writes of a transaction: raw keys, the index of roots, the manifest of a
    split application, a blob and the commitment of a shard. *)
Inductive write : Type :=
| WSet (key value : bytes)
| WDelete (key : bytes)
| WRootVersion (phase : nat) (shard_id root : bytes) (version frame : Z)
| WManifest (phase : nat) (app root : bytes) (manifest : list (bytes * bytes * Z)) (frame : Z)
| WBlob (phase : nat) (shard : ShardKey) (id blob : bytes) (version : Z)
| WShardCommit (frame : Z) (phase : nat) (shard_address root : bytes).

(** A phase tree of the forest ([TreeId::shard_phase]). *)
Abbreviation tree := (bytes * nat)%type.

(** What the hypergraph calls of [HypergraphStore].  A transaction is a write batch:
    its [get] ([RocksTxn::get] in quil-store/src/hypergraph.rs, [OverlayTxn::get] in
    quil-store/src/overlay.rs) reads the database, not the writes staged in it, so
    [txn_get] takes the database. *)
Class HypergraphStore : Type := {
  Db : Type;
  new_transaction : Db -> outcome unit;
  get_root_commits : Db -> Z -> outcome (gmap ShardKey (list bytes));
  load_vertex_underlying_raw : Db -> nat -> ShardKey -> bytes -> outcome (option bytes);
  txn_get : Db -> bytes -> outcome (option bytes);
  txn_commit : Db -> list write -> outcome Db;
}.

(** What it calls of [Forest], which reads the same database. *)
Class ForestApi `{HypergraphStore} : Type := {
  read_head_version : Db -> tree -> outcome (option Z);
  shard_phase_root : Db -> tree -> Z -> outcome (option bytes);
  serve_value : Db -> tree -> Z -> bytes -> outcome (option bytes);
  commit_shard_phase_raw_staged : Db -> tree -> Z -> list (bytes * bytes) -> outcome (bytes * list (bytes * bytes));
  head_version_put : tree -> Z -> option (bytes * bytes);
  read_global_head_version : Db -> Z -> outcome (option Z);
  global_root : Db -> Z -> Z -> outcome (option bytes);
  commit_global_staged : Db -> Z -> Z -> list (bytes * AppEntry) -> outcome (list (bytes * bytes));
  global_head_version_put : Z -> Z -> option (bytes * bytes);
}.

(** ** The state *)

Abbreviation PhaseMap := (gmap (ShardKey * nat) (gmap bytes bytes)).

Record ShardMetadata : Type := mkShardMetadata { commitment : list bytes; leaf_count : Z; sm_size : Z }.

Inductive Mutation : Type :=
| AddVertex (location : Location) (data : bytes)
| RemoveVertex (location : Location)
| AddHyperedge (location : Location) (data : bytes)
| RemoveHyperedge (location : Location)
| RecordMutation (key : bytes) (value : option bytes).

Record HypergraphCrdt `{HypergraphStore} : Type := mkCrdt {
  db : Db;
  pending : PhaseMap;
  pending_blobs : PhaseMap;
  pending_records : gmap bytes (option bytes);
  sub_meta : gmap bytes (Z * Z);
  staged_sizes_base : gmap bytes (option (Z * Z));
  phase_versions : gmap tree Z;
  global_versions : gmap Z Z;
  forest_version : Z;
  unified_tree : bool;
  exact_sizes : bool;
  app_shard_prefixes : gmap bytes (list (list Z));
  app_shard_bit_paths : gmap bytes (list (list bool));
  shard_metadata : gmap ShardKey ShardMetadata;
}.

Arguments mkCrdt {_} db pending pending_blobs pending_records sub_meta staged_sizes_base phase_versions global_versions
  forest_version unified_tree exact_sizes app_shard_prefixes app_shard_bit_paths shard_metadata.

(** [PreparedMutations] *)
Record PreparedMutations : Type := mkPrepared {
  deltas : PhaseMap;
  blobs : PhaseMap;
  metadata : list (bytes * Z * Z);
  records : gmap bytes (option bytes);
}.
Definition no_mutations : PreparedMutations := mkPrepared ∅ ∅ [] ∅.

(** [map.get(&(shard, phase)).and_then(|m| m.get(id))] *)
Definition phase_get (m : PhaseMap) (shard : ShardKey) (phase : nat) (id : bytes) : option bytes :=
  m !! (shard, phase) ≫= (fun e => e !! id).
(** [map.entry((shard, phase)).or_default().insert(id, v)] *)
Definition phase_put (m : PhaseMap) (shard : ShardKey) (phase : nat) (id v : bytes) : PhaseMap :=
  <[(shard, phase) := <[id := v]> (default ∅ (m !! (shard, phase)))]> m.
(** [entry(phase).or_default().extend(entries)] for each phase of [new]. *)
Definition phase_extend (new old : PhaseMap) : PhaseMap :=
  union_with (fun n o => Some (n ∪ o)) new old.

Section crdt.
Context `{Sha512} `{Sha256} `{BigIntBytes} `{Shake256} {ST : HypergraphStore} {FA : ForestApi}.
Implicit Types (s : HypergraphCrdt) (p : PreparedMutations).

(** ** Layout and sizes *)

(** [app_prefixes] and [shard_bit_paths] *)
Definition app_prefixes s (app : bytes) : list (list Z) := default [[]] (app_shard_prefixes s !! app).
Definition shard_bit_paths s (app : bytes) : list (list bool) :=
  match app_shard_bit_paths s !! app with
  | Some bp => bp
  | None =>
      let prefixes := app_prefixes s app in
      if negb (bool_decide (prefixes = [])) && forallb (fun q => bool_decide (is_Some (shard_bit_path_from_prefix q))) prefixes
      then omap shard_bit_path_from_prefix prefixes
      else canonical_shard_bit_paths prefixes
  end.

(** [sub_shard_id_for] *)
Definition sub_shard_id_for s (app data_addr : bytes) : outcome bytes :=
  let prefixes := app_prefixes s app in
  if bool_decide (prefixes = [[]]) then Ok (addr_path_shard_id app [])
  else
    prefix ← unwrap (prefixes !! address_shard_index data_addr (shard_bit_paths s app));
    Ok (addr_path_shard_id app prefix).

(** [resolve_phase_version_checked] *)
Definition resolve_phase_version_checked s (t : tree) : outcome (option Z) :=
  match phase_versions s !! t with
  | Some v => Ok (Some v)
  | None => read_head_version (db s) t
  end.

(** [committed_leaf_size] *)
Definition leaf_tree s (app data : bytes) : outcome bytes :=
  if unified_tree s then Ok app else sub_shard_id_for s app data.
Definition committed_leaf_size s (app : bytes) (phase : nat) (data : bytes) : outcome (option Z) :=
  id ← leaf_tree s app data;
  head ← resolve_phase_version_checked s (id, phase);
  value ← serve_value (db s) (id, phase) (default (forest_version s) (head : option Z)) (shard_path_key_hash data);
  Ok (option_map (fun v => wrap_u64 (vertex_leaf_size v)) value).

(** [staged_tombstone_size] *)
Definition staged_tombstone_size s (shard : ShardKey) (phase : nat) (key : bytes) : outcome Z :=
  match phase_get (pending s) shard phase key with
  | Some value => Ok (wrap_u64 (vertex_leaf_size value))
  | None => size ← committed_leaf_size s (l2 shard) phase key; Ok (default 0 size)
  end.

(** ** Reads *)

(** [read_blob_checked] *)
Definition read_blob_checked s (shard : ShardKey) (phase : nat) (id : bytes) : outcome (option bytes) :=
  match phase_get (pending_blobs s) shard phase id with
  | Some b => Ok (Some b)
  | None => load_vertex_underlying_raw (db s) phase shard id
  end.

(** [get_vertex_data_checked] and [get_hyperedge_data_checked]: adds phase [a],
    removes phase [a + 1]. *)
Definition get_data_checked (a : nat) s (location : Location) : outcome (option bytes) :=
  shard ← shard_key_for_location location;
  removed ← read_blob_checked s shard (a + 1) (to_id location);
  match removed with
  | Some _ => Ok None
  | None =>
      b ← read_blob_checked s shard a (to_id location);
      Ok (match b with Some (_ :: _) => b | _ => None end)
  end.
Definition get_vertex_data_checked : HypergraphCrdt -> Location -> outcome (option bytes) := get_data_checked 0.
Definition get_hyperedge_data_checked : HypergraphCrdt -> Location -> outcome (option bytes) := get_data_checked 2.

(** [read_execution_record] *)
Definition read_execution_record s (key : bytes) : outcome (option bytes) :=
  match pending_records s !! key with
  | Some v => Ok v
  | None => _ ← new_transaction (db s); txn_get (db s) key
  end.

(** ** Preparing a batch *)

(** [PreparedMutations::read] *)
Definition prepared_read p s (shard : ShardKey) (phase : nat) (id : bytes) : outcome (option bytes) :=
  match phase_get (blobs p) shard phase id with
  | Some b => Ok (Some b)
  | None => read_blob_checked s shard phase id
  end.

(** [per_vertex_leaf] *)
Definition per_vertex_leaf (id blob : bytes) : bytes * bytes :=
  (if (64 <=? length id)%nat then take 32 (drop 32 id) else id, vertex_leaf_value blob).

(** [PreparedMutations::stage] *)
Definition stage p (shard : ShardKey) (phase : nat) (id blob : bytes) (tombstone_size : option Z) : PreparedMutations :=
  let leaf := match tombstone_size with
              | Some size => (take 32 (drop 32 id), sized_tombstone_leaf_value size)
              | None => per_vertex_leaf id blob
              end in
  mkPrepared (phase_put (deltas p) shard phase leaf.1 leaf.2) (phase_put (blobs p) shard phase id blob) (metadata p) (records p).

(** [PreparedMutations::bump] *)
Definition bump p s (shard : ShardKey) (location : Location) (count size : Z) : outcome PreparedMutations :=
  if bool_decide (l2 shard = replicate 32 xff) then Ok p
  else
    id ← sub_shard_id_for s (l2 shard) (data_address location);
    Ok (mkPrepared (deltas p) (blobs p) (metadata p ++ [(id, count, size)]) (records p)).

(** [PreparedMutations::tombstone_size] *)
Definition prepared_tombstone_size p s (shard : ShardKey) (phase : nat) (id : bytes) : outcome Z :=
  let key := take 32 (drop 32 id) in
  match phase_get (deltas p) shard phase key with
  | Some value => Ok (wrap_u64 (vertex_leaf_size value))
  | None => staged_tombstone_size s shard phase key
  end.

(** One step of [apply_mutations]: an add. *)
Definition prepare_add s p (location : Location) (data : bytes) (adds_phase : nat) : outcome PreparedMutations :=
  shard ← shard_key_for_location location;
  let id := to_id location in
  new_vertex ← (if (adds_phase =? 0)%nat then b ← prepared_read p s shard 0 id; Ok (Some (bool_decide (b = None)))
                else b ← prepared_read p s shard 3 id;
                     Ok (if bool_decide (b = None) then Some false else None));
  match new_vertex with
  | None => Ok p
  | Some new_vertex =>
      replaced ← (if exact_sizes s then b ← prepared_read p s shard adds_phase id; Ok (Z.of_nat (length (default [] b))) else Ok 0);
      bump (stage p shard adds_phase id data None) s shard location (Z.b2z new_vertex) (Z.of_nat (length data) - replaced)
  end.

(** One step of [apply_mutations]: a removal. *)
Definition prepare_remove s p (location : Location) (adds_phase : nat) : outcome PreparedMutations :=
  shard ← shard_key_for_location location;
  let id := to_id location in
  existing ← prepared_read p s shard adds_phase id;
  removed ← prepared_read p s shard (adds_phase + 1) id;
  let removed := bool_decide (removed <> None) in
  let size := Z.of_nat (length (default [] existing)) in
  let present := negb (size =? 0) && negb removed in
  let placeholder := bool_decide (existing = None) in
  replaced ← (if exact_sizes s && removed then prepared_tombstone_size p s shard (adds_phase + 1) id else Ok 0);
  let p1 := if placeholder then stage p shard adds_phase id [] None else p in
  let p2 := stage p1 shard (adds_phase + 1) id [] (Some size) in
  let placeholders := Z.b2z ((adds_phase =? 0)%nat && placeholder) in
  if exact_sizes s then
    let change := replaced - size in
    if negb (change =? 0) || negb (placeholders =? 0) then bump p2 s shard location placeholders change else Ok p2
  else if present || ((adds_phase =? 0)%nat && placeholder)
  then bump p2 s shard location placeholders (if present then - size else 0)
  else Ok p2.

Definition prepare_one s p (m : Mutation) : outcome PreparedMutations :=
  match m with
  | AddVertex location data => prepare_add s p location data 0
  | RemoveVertex location => prepare_remove s p location 0
  | AddHyperedge location data => prepare_add s p location data 2
  | RemoveHyperedge location => prepare_remove s p location 2
  | RecordMutation key value => Ok (mkPrepared (deltas p) (blobs p) (metadata p) (<[key := value]> (records p)))
  end.
Fixpoint prepare_all s p (ms : list Mutation) : outcome PreparedMutations :=
  match ms with
  | [] => Ok p
  | m :: rest => p' ← prepare_one s p m; prepare_all s p' rest
  end.

(** ** Publishing *)

Definition i128_min : Z := - 2 ^ 127.
Definition i128_max : Z := 2 ^ 127 - 1.

(** The new value of each bucket the batch touches. *)
Definition next_bucket (e : Z * Z) (count size : Z) : outcome (Z * Z) :=
  c ← (if 0 <=? count then (if e.1 + wrap_u64 count <=? u64_max then Ok (e.1 + wrap_u64 count) else Err ExecutionUnavailable)
       else Ok (Z.max (e.1 - Z.abs count) 0));
  if (i128_min <=? e.2 + size) && (e.2 + size <=? i128_max) then Ok (c, e.2 + size) else Err ExecutionUnavailable.
Fixpoint next_metadata (meta : gmap bytes (Z * Z)) (next : gmap bytes (Z * Z)) (changes : list (bytes * Z * Z))
  : outcome (gmap bytes (Z * Z)) :=
  match changes with
  | [] => Ok next
  | (key, count, size) :: rest =>
      e ← next_bucket (default (default (0, 0) (meta !! key)) (next !! key)) count size;
      next_metadata meta (<[key := e]> next) rest
  end.

Definition publish s p (next : gmap bytes (Z * Z)) : HypergraphCrdt :=
  mkCrdt (db s) (phase_extend (deltas p) (pending s)) (phase_extend (blobs p) (pending_blobs s))
    (records p ∪ pending_records s) (next ∪ sub_meta s)
    (staged_sizes_base s ∪ map_imap (fun key _ => Some (sub_meta s !! key)) next)
    (phase_versions s) (global_versions s) (forest_version s) (unified_tree s) (exact_sizes s)
    (app_shard_prefixes s) (app_shard_bit_paths s) (shard_metadata s).

(** [apply_mutations] *)
Definition apply_mutations s (mutations : list Mutation) : outcome unit * HypergraphCrdt :=
  match prepared ← prepare_all s no_mutations mutations;
        next ← next_metadata (sub_meta s) ∅ (metadata prepared);
        Ok (publish s prepared next) with
  | Ok s' => (Ok tt, s')
  | Err e => (Err e, s)
  | Panic => (Panic, s)
  end.

(** The single-mutation entry points. *)
Definition add_vertex s (location : Location) (data : bytes) := apply_mutations s [AddVertex location data].
Definition remove_vertex s (location : Location) := apply_mutations s [RemoveVertex location].
Definition add_hyperedge s (location : Location) (data : bytes) := apply_mutations s [AddHyperedge location data].
Definition remove_hyperedge s (location : Location) := apply_mutations s [RemoveHyperedge location].

(** [discard_staged_mutations]: restores the buckets, then drops what is staged. *)
Definition restore_sizes (base : gmap bytes (option (Z * Z))) (meta : gmap bytes (Z * Z)) : gmap bytes (Z * Z) :=
  map_fold (fun key before m => match before with Some v => <[key := v]> m | None => base.delete key m end) meta base.
Definition discard_staged_mutations s : bool * HypergraphCrdt :=
  (negb (bool_decide (pending s = ∅)) || negb (bool_decide (pending_blobs s = ∅))
   || negb (bool_decide (pending_records s = ∅)) || negb (bool_decide (staged_sizes_base s = ∅)),
   mkCrdt (db s) ∅ ∅ ∅ (restore_sizes (staged_sizes_base s) (sub_meta s)) ∅
     (phase_versions s) (global_versions s) (forest_version s) (unified_tree s) (exact_sizes s)
     (app_shard_prefixes s) (app_shard_bit_paths s) (shard_metadata s)).

(** [has_staged_mutations] *)
Definition has_staged_mutations s : bool :=
  negb (bool_decide (pending s = ∅)) || negb (bool_decide (pending_blobs s = ∅)) || negb (bool_decide (pending_records s = ∅)).

(** ** Commit *)

(** [read_shard_phase_root_checked] *)
Definition read_shard_phase_root_checked s (t : tree) : outcome bytes :=
  head ← resolve_phase_version_checked s t;
  root ← shard_phase_root (db s) t (default (forest_version s) (head : option Z));
  match root with
  | Some root => Ok root
  | None => if bool_decide (head = None) then Ok ZERO_ROOT else Err ExecutionUnavailable
  end.

(** [checked_add(1)] of a version, 0 for a first commit. *)
Definition next_version (head : option Z) : outcome Z :=
  match head with
  | None => Ok 0
  | Some v => if v + 1 <=? u64_max then Ok (v + 1) else Err ExecutionUnavailable
  end.

(** What a commit has staged so far: writes in order and the new heads. *)
Record Staged : Type := mkStaged { txn : list write; versions : gmap tree Z }.

(** [commit_one_shard_phase] *)
Definition commit_one_shard_phase s (g : Staged) (t : tree) (leaves : list (bytes * bytes)) : outcome (bytes * Z * Staged) :=
  head ← resolve_phase_version_checked s t;
  head ← (if bool_decide (head <> None) then _ ← read_shard_phase_root_checked s t; Ok head
          else root ← shard_phase_root (db s) t (forest_version s);
               Ok (if bool_decide (root <> None) then Some (forest_version s) else None));
  ver ← next_version head;
  '(root, puts) ← commit_shard_phase_raw_staged (db s) t ver leaves;
  let puts := puts ++ match head_version_put t ver with Some kv => [kv] | None => [] end in
  Ok (root, ver, mkStaged (txn g ++ ((fun kv => WSet kv.1 kv.2) <$> puts)) (<[t := ver]> (versions g))).

(** [current_app_phase_root_checked] *)
Fixpoint shard_roots s (app : bytes) (phase : nat) (shards : list (list Z * list bool)) : outcome (list (list bool * bytes)) :=
  match shards with
  | [] => Ok []
  | (prefix, bits) :: rest =>
      root ← read_shard_phase_root_checked s (addr_path_shard_id app prefix, phase);
      roots ← shard_roots s app phase rest; Ok ((bits, root) :: roots)
  end.
Definition single_shard s (app : bytes) : bool := unified_tree s || bool_decide (app_prefixes s app = [[]]).
Definition current_app_phase_root_checked s (app : bytes) (phase : nat) : outcome bytes :=
  if single_shard s app then read_shard_phase_root_checked s (app, phase)
  else
    roots ← shard_roots s app phase (zip (app_prefixes s app) (shard_bit_paths s app));
    app_root_from_shard_paths roots.

(** The sub-shards of a split application: touched ones are committed, the others
    read. *)
Fixpoint commit_sub_shards s (g : Staged) (frame : Z) (app : bytes) (phase : nat) (bit_paths : list (list bool))
    (leaves : list (bytes * bytes)) (i : nat) (prefixes : list (list Z))
  : outcome (list (list bool * bytes) * list Z * list (bytes * bytes * Z) * Staged) :=
  match prefixes with
  | [] => Ok ([], [], [], g)
  | prefix :: rest =>
      let shard_id := addr_path_shard_id app prefix in
      let mine := List.filter (fun kv => (address_shard_index kv.1 bit_paths =? i)%nat) leaves in
      '(root, ver, g1) ←
        (if bool_decide (mine = []) then
           root ← read_shard_phase_root_checked s (shard_id, phase);
           ver ← resolve_phase_version_checked s (shard_id, phase);
           Ok (root, default 0 (ver : option Z), g)
         else commit_one_shard_phase s g (shard_id, phase) mine);
      bits ← unwrap (bit_paths !! i);
      let g2 := mkStaged (txn g1 ++ [WRootVersion phase shard_id root ver frame]) (versions g1) in
      '(roots, vers, manifest, g3) ← commit_sub_shards s g2 frame app phase bit_paths leaves (S i) rest;
      Ok ((bits, root) :: roots, ver :: vers, (concat (be_bytes 4 <$> prefix), root, ver) :: manifest, g3)
  end.

(** The blobs of a phase, each at the version of its tree. *)
Fixpoint save_blobs (single : bool) (bit_paths : list (list bool)) (vers : list Z) (phase : nat) (shard : ShardKey)
    (entries : list (bytes * bytes)) : outcome (list write) :=
  match entries with
  | [] => Ok []
  | (id, blob) :: rest =>
      let routing_key := if (64 <=? length id)%nat then take 32 (drop 32 id) else id in
      ver ← unwrap (vers !! (if single then 0%nat else address_shard_index routing_key bit_paths));
      ws ← save_blobs single bit_paths vers phase shard rest;
      Ok (WBlob phase shard id blob ver :: ws)
  end.

(** One phase of one shard. *)
Definition commit_phase s (g : Staged) (frame : Z) (shard : ShardKey) (cached_row : option (list bytes)) (phase : nat)
  : outcome (bytes * Staged) :=
  match pending s !! (shard, phase) with
  | None =>
      match cached_row ≫= (fun r => r !! phase) with
      | Some row =>
          if (length row =? 32)%nat then Ok (row, g)
          else root ← current_app_phase_root_checked s (l2 shard) phase; Ok (root, g)
      | None => root ← current_app_phase_root_checked s (l2 shard) phase; Ok (root, g)
      end
  | Some leaves =>
      let leaves := map_to_list leaves in
      let single := single_shard s (l2 shard) in
      let bit_paths := if single then [] else shard_bit_paths s (l2 shard) in
      '(app_root, vers, g1) ←
        (if single then
           '(root, ver, g1) ← commit_one_shard_phase s g (l2 shard, phase) leaves;
           Ok (root, [ver], mkStaged (txn g1 ++ [WRootVersion phase (l2 shard) root ver frame]) (versions g1))
         else
           '(roots, vers, manifest, g1) ← commit_sub_shards s g frame (l2 shard) phase bit_paths leaves 0 (app_prefixes s (l2 shard));
           app_root ← app_root_from_shard_paths roots;
           Ok (app_root, vers, mkStaged (txn g1 ++ [WManifest phase (l2 shard) app_root manifest frame]) (versions g1)));
      ws ← save_blobs single bit_paths vers phase shard (map_to_list (default ∅ (pending_blobs s !! (shard, phase))));
      Ok (app_root, mkStaged (txn g1 ++ ws ++ [WShardCommit frame phase (l2 shard) app_root]) (versions g1))
  end.
Fixpoint commit_phases s (g : Staged) (frame : Z) (shard : ShardKey) (cached_row : option (list bytes)) (phases : list nat)
  : outcome (list bytes * Staged) :=
  match phases with
  | [] => Ok ([], g)
  | phase :: rest =>
      '(root, g1) ← commit_phase s g frame shard cached_row phase;
      '(roots, g2) ← commit_phases s g1 frame shard cached_row rest;
      Ok (root :: roots, g2)
  end.

(** [sub_meta_for(app, &[])]: the totals of the buckets of the application. *)
Definition sub_meta_for s (app : bytes) (prefix : list Z) : outcome (Z * Z) :=
  let prefixes := app_prefixes s app in
  let bit_paths := shard_bit_paths s app in
  let lookup_bits :=
    match position (fun q => bool_decide (q = prefix)) prefixes ≫= (fun i => bit_paths !! i) with
    | Some b => b
    | None => match prefix with
              | [] => []
              | _ => default (prefix_to_bits prefix 6) (shard_bit_path_from_prefix prefix)
              end
    end in
  let covered := List.filter (fun e => match bit_paths !! e.1 with Some b => bit_path_starts_with b lookup_bits | None => false end)
                   (imap pair prefixes) in
  let entries := omap (fun e => sub_meta s !! addr_path_shard_id app e.2) covered in
  foldl (fun acc e =>
      '(c, z) ← acc;
      let size := if exact_sizes s then Z.max (e.2 : Z) 0 else e.2 in
      if (c + e.1 <=? u64_max) && (i128_min <=? z + size) && (z + size <=? i128_max) then Ok (c + e.1, z + size) else Panic)
    (Ok (0, 0)) entries.

(** The shards of a commit and the leaves of the global buckets. *)
Definition shard_totals s (shard : ShardKey) (roots : list bytes) : ShardMetadata :=
  let entries := map_to_list (default ∅ (pending_blobs s !! (shard, 0%nat))) in
  if bool_decide (pending s !! (shard, 0%nat) = None) then mkShardMetadata roots 0 0
  else mkShardMetadata roots (Z.of_nat (length entries)) (list_sumZ (fun e : bytes * bytes => Z.of_nat (length e.2)) entries).
Definition app_entry s (shard : ShardKey) (roots : list bytes) : outcome (option (Z * (bytes * AppEntry))) :=
  if bool_decide (l2 shard = replicate 32 xff) then Ok None
  else
    '(num_leaves, live_size) ← sub_meta_for s (l2 shard) [];
    bucket ← unwrap (l2 shard !! 0%nat);
    let phase_roots := (fun r => if (length r =? 32)%nat then r else ZERO_ROOT) <$> roots in
    Ok (Some (b2z bucket, (l2 shard, mkAppEntry (rollup_phase_roots phase_roots) num_leaves (Z.max live_size 0) []))).
Fixpoint commit_shards s (g : Staged) (frame : Z) (cached : gmap ShardKey (list bytes)) (shards : list ShardKey)
  : outcome (gmap ShardKey (list bytes) * gmap ShardKey ShardMetadata * list (Z * (bytes * AppEntry)) * Staged) :=
  match shards with
  | [] => Ok (∅, ∅, [], g)
  | shard :: rest =>
      '(roots, g1) ← commit_phases s g frame shard (cached !! shard) [0; 1; 2; 3]%nat;
      entry ← app_entry s shard roots;
      '(result, meta, entries, g2) ← commit_shards s g1 frame cached rest;
      Ok (<[shard := roots]> result, <[shard := shard_totals s shard roots]> meta,
          match entry with Some e => e :: entries | None => entries end, g2)
  end.

(** The touched global buckets. *)
Definition resolve_global_version_checked s (index : Z) : outcome (option Z) :=
  match global_versions s !! index with
  | Some v => Ok (Some v)
  | None => read_global_head_version (db s) index
  end.
Fixpoint commit_buckets s (g : Staged) (heads : gmap Z Z) (entries : list (Z * (bytes * AppEntry))) (buckets : list Z)
  : outcome (gmap Z Z * Staged) :=
  match buckets with
  | [] => Ok (heads, g)
  | bucket :: rest =>
      head ← resolve_global_version_checked s bucket;
      let version := default (forest_version s) (head : option Z) in
      root ← global_root (db s) bucket version;
      if bool_decide (root = None) && bool_decide (head <> None) then Err ExecutionUnavailable
      else
        ver ← next_version (if bool_decide (root <> None) then Some version else head);
        puts ← commit_global_staged (db s) bucket ver (snd <$> List.filter (fun e : Z * (bytes * AppEntry) => e.1 =? bucket) entries);
        let puts := puts ++ match global_head_version_put bucket ver with Some kv => [kv] | None => [] end in
        commit_buckets s (mkStaged (txn g ++ ((fun kv => WSet kv.1 kv.2) <$> puts)) (versions g)) (<[bucket := ver]> heads) entries rest
  end.

(** The records staged by mutations and the ones given with the commit; of the
    latter, those the database already holds are not written again. *)
Definition record_writes (l : list (bytes * option bytes)) : list write :=
  (fun kv : bytes * option bytes => match kv.2 with Some v => WSet kv.1 v | None => WDelete kv.1 end) <$> l.
Fixpoint history_writes s (l : list (bytes * bytes)) : outcome (list write) :=
  match l with
  | [] => Ok []
  | (key, value) :: rest =>
      stored ← txn_get (db s) key;
      ws ← history_writes s rest;
      Ok (if bool_decide (stored = Some value) then ws else WSet key value :: ws)
  end.

(** [serialize_buckets] and [SIZE_BUCKETS_KEY] *)
Definition put_bucket (e : bytes * (Z * Z)) : bytes :=
  be_bytes 4 (Z.of_nat (length e.1)) ++ e.1 ++ be_bytes 8 e.2.1 ++ be_bytes 16 e.2.2.
Definition serialize_buckets (entries : list (bytes * (Z * Z))) : bytes :=
  be_bytes 4 (Z.of_nat (length entries)) ++ concat (put_bucket <$> entries).
Definition SIZE_BUCKETS_KEY : bytes := [x68; x67; x73; x7a; x3a; x62; x75; x63; x6b; x65; x74; x73].

(** [deserialize_buckets]: stops at the first entry that does not fit. *)
Definition i128_of (b : bytes) : Z := let v := be_Z b in if v <? 2 ^ 127 then v else v - 2 ^ 128.
Fixpoint read_buckets (n : nat) (b : bytes) (m : gmap bytes (Z * Z)) : gmap bytes (Z * Z) :=
  match n with
  | O => m
  | S n' =>
      if (length b <? 4)%nat then m
      else
        let kl := Z.to_nat (be_Z (take 4 b)) in
        let b := drop 4 b in
        if (length b <? kl + 8 + 16)%nat then m
        else read_buckets n' (drop (kl + 24) b)
               (<[take kl b := (be_Z (take 8 (drop kl b)), i128_of (take 16 (drop (kl + 8) b)))]> m)
  end.
Definition deserialize_buckets (b : bytes) : gmap bytes (Z * Z) :=
  if (length b <? 4)%nat then ∅ else read_buckets (Z.to_nat (be_Z (take 4 b))) (drop 4 b) ∅.

(** The body of [commit_inner] between the drain and [txn.commit()]. *)
Definition shard_keys s (cached : gmap ShardKey (list bytes)) : list ShardKey :=
  remove_dups ((fst ∘ fst <$> map_to_list (pending s)) ++ (fst <$> map_to_list cached)).
Definition stage_commit s (frame : Z) (cursor_key : option bytes) (history : list (bytes * bytes)) (cached : gmap ShardKey (list bytes))
  : outcome (gmap ShardKey (list bytes) * gmap ShardKey ShardMetadata * gmap Z Z * Staged) :=
  '(result, meta, entries, g) ← commit_shards s (mkStaged [] ∅) frame cached (shard_keys s cached);
  '(heads, g) ← commit_buckets s g ∅ entries (remove_dups (fst <$> entries));
  ws ← history_writes s history;
  let tail := record_writes (map_to_list (pending_records s)) ++ ws
              ++ match cursor_key with Some key => [WSet key (be_bytes 8 frame)] | None => [] end
              ++ [WSet SIZE_BUCKETS_KEY (serialize_buckets (map_to_list (sub_meta s)))] in
  Ok (result, meta, heads, mkStaged (txn g ++ tail) (versions g)).

(** [PendingCommit::drop]: puts the drained entries back under newer ones. *)
Definition drained s : HypergraphCrdt :=
  mkCrdt (db s) ∅ ∅ ∅ (sub_meta s) (staged_sizes_base s) (phase_versions s) (global_versions s) (forest_version s)
    (unified_tree s) (exact_sizes s) (app_shard_prefixes s) (app_shard_bit_paths s) (shard_metadata s).
Definition drop_pending (from s : HypergraphCrdt) : HypergraphCrdt :=
  mkCrdt (db s) (union_with (fun newer older => Some (newer ∪ older)) (pending s) (pending from))
    (union_with (fun newer older => Some (newer ∪ older)) (pending_blobs s) (pending_blobs from))
    (pending_records s ∪ pending_records from) (sub_meta s) (staged_sizes_base s) (phase_versions s) (global_versions s)
    (forest_version s) (unified_tree s) (exact_sizes s) (app_shard_prefixes s) (app_shard_bit_paths s) (shard_metadata s).

(** The state after a durable commit. *)
Definition committed s (db' : Db) (versions' : gmap tree Z) (heads : gmap Z Z) (meta : gmap ShardKey ShardMetadata) : HypergraphCrdt :=
  mkCrdt db' ∅ ∅ ∅ (sub_meta s) ∅ (versions' ∪ phase_versions s) (heads ∪ global_versions s) (forest_version s)
    (unified_tree s) (exact_sizes s) (app_shard_prefixes s) (app_shard_bit_paths s) (meta ∪ shard_metadata s).

(** [commit_inner] *)
Definition commit_inner s (frame : Z) (cursor_key : option bytes) (history : list (bytes * bytes))
  : outcome (gmap ShardKey (list bytes)) * HypergraphCrdt :=
  match _ ← new_transaction (db s); get_root_commits (db s) frame with
  | Err e => (Err e, s)
  | Panic => (Panic, s)
  | Ok cached =>
      let run := '(result, meta, heads, g) ← stage_commit s frame cursor_key history cached;
                 db' ← txn_commit (db s) (txn g);
                 Ok (result, committed (drained s) db' (versions g) heads meta) in
      match run with
      | Ok (result, s') => (Ok result, s')
      | Err e => (Err e, drop_pending s (drained s))
      | Panic => (Panic, drop_pending s (drained s))
      end
  end.
Definition commit_with_frame_cursor_and_records s (frame : Z) (cursor_key : bytes) (history : list (bytes * bytes)) :=
  commit_inner s frame (Some cursor_key) history.
End crdt.
