(* ===== verification/HypergraphSpec.v ===== *)
(** * The hypergraph as add and remove sets

    The specification of [Hypergraph]: a finite map from locations to entries, an
    entry being the last added data and, once removed, the size its tombstone
    records.  Removal wins: a removed entry is never visible again.  The size of a
    sub-shard is the sum of its live entries.  This file gives the specification,
    the relation between a state and its map, and the correctness of a batch. *)

From Stdlib Require Import Strings.Byte.
From stdpp Require Import gmap sorting.
From S2P Require Import Prelude Bytes Node Tree TreeCodec VertexCommit Merkle CoinTree ShardPaths Hypergraph.

(** ** Specification *)

Record entry : Type := mkEntry { e_data : bytes; e_stone : option Z }.

(** Entries by adds phase (0 for vertices, 2 for hyperedges) and location. *)
Abbreviation contents := (gmap (nat * Location) entry).
Implicit Types m : contents.

Definition data_of m (a : nat) (l : Location) : bytes := default [] (e_data <$> m !! (a, l)).
Definition stone_of m (a : nat) (l : Location) : option Z := m !! (a, l) ≫= e_stone.

Definition spec_op m (op : Mutation) : contents :=
  let remove := fun a l => <[(a, l) := mkEntry (data_of m a l) (Some (Z.of_nat (length (data_of m a l))))]> m in
  match op with
  | AddVertex l d => <[(0%nat, l) := mkEntry d (stone_of m 0 l)]> m
  | AddHyperedge l d => match stone_of m 2 l with Some _ => m | None => <[(2%nat, l) := mkEntry d None]> m end
  | RemoveVertex l => remove 0%nat l
  | RemoveHyperedge l => remove 2%nat l
  | RecordMutation _ _ => m
  end.

(** What a reader sees. *)
Definition visible m (a : nat) (l : Location) : option bytes :=
  match m !! (a, l) with
  | Some (mkEntry ((_ :: _) as d) None) => Some d
  | _ => None
  end.

(** Sums over a map. *)
Definition total {K A} `{Countable K} (f : K -> A -> Z) (c : gmap K A) : Z := map_fold (fun k x acc => f k x + acc) 0 c.

Lemma total_insert_fresh {K A} `{Countable K} (f : K -> A -> Z) (c : gmap K A) k x :
  c !! k = None -> total f (<[k := x]> c) = f k x + total f c.
Proof. intros Hk. unfold total. rewrite map_fold_insert_L; [done|intros; lia|done]. Qed.

Lemma total_insert {K A} `{Countable K} (f : K -> A -> Z) (c : gmap K A) k x :
  total f (<[k := x]> c) = total f c + f k x - default 0 (f k <$> c !! k).
Proof.
  destruct (c !! k) as [y|] eqn:E; simpl.
  - rewrite <- (insert_delete_id c k y E) at 2. rewrite <- insert_delete_eq.
    rewrite !total_insert_fresh by apply lookup_delete_eq. lia.
  - rewrite total_insert_fresh by done. lia.
Qed.

(** The live size of an entry and the size of the sub-shard [b] under a routing
    of locations to sub-shards. *)
Definition live (e : entry) : Z := Z.of_nat (length (e_data e)) - default 0 (e_stone e).
Definition in_bucket (route : Location -> option bytes) (b : bytes) (l : Location) : bool := bool_decide (route l = Some b).
Definition bucket_size (route : Location -> option bytes) m (b : bytes) : Z :=
  total (fun k e => if in_bucket route b k.2 then live e else 0) m.
Definition bucket_count (route : Location -> option bytes) m (b : bytes) : Z :=
  total (fun k _ => if in_bucket route b k.2 && (k.1 =? 0)%nat then 1 else 0) m.

(** ** Laws of the store and the forest *)

(** The last write of a transaction at a raw key, and at a blob. *)
Fixpoint raw_after (ws : list write) (raw : bytes -> option bytes) : bytes -> option bytes :=
  match ws with
  | [] => raw
  | WSet k v :: rest => raw_after rest (fun x => if bool_decide (x = k) then Some v else raw x)
  | WDelete k :: rest => raw_after rest (fun x => if bool_decide (x = k) then None else raw x)
  | _ :: rest => raw_after rest raw
  end.
Fixpoint blob_after (ws : list write) (blob : nat -> ShardKey -> bytes -> option bytes) : nat -> ShardKey -> bytes -> option bytes :=
  match ws with
  | [] => blob
  | WBlob ph sh id b _ :: rest =>
      blob_after rest (fun ph' sh' id' => if bool_decide ((ph', sh', id') = (ph, sh, id)) then Some b else blob ph' sh' id')
  | _ :: rest => blob_after rest blob
  end.

(** A store keeps blobs and raw keys; reads that succeed return them, and a
    transaction that commits applies all its writes in order. *)
Class LawfulStore `{HypergraphStore} : Type := {
  blob_of : Db -> nat -> ShardKey -> bytes -> option bytes;
  raw_of : Db -> bytes -> option bytes;
  load_blob db ph sh id r : load_vertex_underlying_raw db ph sh id = Ok r -> r = blob_of db ph sh id;
  commit_blobs db ws db' : txn_commit db ws = Ok db' -> forall ph sh id, blob_of db' ph sh id = blob_after ws (blob_of db) ph sh id;
  commit_raw db ws db' : txn_commit db ws = Ok db' -> forall k, raw_of db' k = raw_after ws (raw_of db) k;
}.

(** The tree of an application address and one of the four phases: what the laws
    of the forest are about.  (The key of a tree has one byte for the length of its
    id, so longer ids could share keys.) *)
Definition app_tree (t : tree) : Prop := length t.1 = 32%nat /\ (t.2 < 4)%nat.

(** A forest keeps versioned trees in raw keys of their own, and a tree depends on
    its own keys only.  A read of a leaf at a version returns its newest value at or
    below it, root or no root there, so what a commit leaves to read depends on the
    rows already stored: [settled db t h] says that the value rows of [t] are of
    version at most [h], [None] that there are none.  A commit on top of [h] then
    adds its leaves to those of [h] and leaves the tree settled at its version. *)
Class LawfulForest `{FA : ForestApi} {LS : LawfulStore} : Type := {
  leaf_of : Db -> tree -> Z -> bytes -> option bytes;
  head_of : Db -> tree -> option Z;
  root_of : Db -> tree -> Z -> option bytes;
  tree_key : tree -> bytes -> Prop;
  settled : Db -> tree -> option Z -> Prop;
  head_read db t r : read_head_version db t = Ok r -> r = head_of db t;
  value_read db t v k r : serve_value db t v k = Ok r -> r = leaf_of db t v k;
  root_read db t v r : shard_phase_root db t v = Ok r -> r = root_of db t v;
  head_range db t v : head_of db t = Some v -> 0 <= v;
  settled_none db t v k : settled db t None -> leaf_of db t v k = None;
  size_key t : app_tree t -> ~ tree_key t SIZE_BUCKETS_KEY;
  tree_keys_disjoint t t' k : app_tree t -> app_tree t' -> tree_key t k -> tree_key t' k -> t = t';
  tree_frame db db' t : app_tree t -> (forall k, tree_key t k -> raw_of db' k = raw_of db k) ->
    head_of db' t = head_of db t /\ (forall v, root_of db' t v = root_of db t v) /\
    (forall v k, leaf_of db' t v k = leaf_of db t v k) /\ (forall h, settled db t h -> settled db' t h);
  commit_puts db t v leaves root puts :
    app_tree t -> commit_shard_phase_raw_staged db t v leaves = Ok (root, puts) -> Forall (fun kv => tree_key t kv.1) puts;
  head_put_key t v kv : app_tree t -> head_version_put t v = Some kv -> tree_key t kv.1;
  global_puts db b v entries puts t :
    app_tree t -> commit_global_staged db b v entries = Ok puts -> Forall (fun kv => ~ tree_key t kv.1) puts;
  global_head_key b v kv t : app_tree t -> global_head_version_put b v = Some kv -> ~ tree_key t kv.1;
  commit_leaves db t h v leaves root puts db' :
    app_tree t -> settled db t h -> next_version h = Ok v ->
    commit_shard_phase_raw_staged db t v leaves = Ok (root, puts) -> NoDup leaves.*1 -> Forall (fun kv => length kv.1 = 32%nat) leaves ->
    (forall k, tree_key t k ->
       raw_of db' k = raw_after ((fun kv => WSet kv.1 kv.2) <$> puts ++ match head_version_put t v with Some kv => [kv] | None => [] end)
                        (raw_of db) k) ->
    settled db' t (Some v) /\
    forall k, length k = 32%nat ->
      leaf_of db' t v k = match (list_to_map leaves : gmap bytes bytes) !! k with
                          | Some x => Some x
                          | None => h ≫= fun w => leaf_of db t w k
                          end;
}.

(** ** Phase maps *)

Lemma phase_get_put pm sh ph id v sh' ph' id' :
  phase_get (phase_put pm sh ph id v) sh' ph' id' =
  if bool_decide ((sh', ph', id') = (sh, ph, id)) then Some v else phase_get pm sh' ph' id'.
Proof.
  unfold phase_get, phase_put. destruct (decide ((sh', ph') = (sh, ph))) as [[= -> ->]|Hne].
  - rewrite lookup_insert_eq. simpl. destruct (decide (id' = id)) as [->|Hi].
    + by rewrite lookup_insert_eq, bool_decide_eq_true_2.
    + rewrite lookup_insert_ne by done. rewrite bool_decide_eq_false_2 by congruence. by destruct (pm !! (sh, ph)).
  - rewrite lookup_insert_ne by congruence. rewrite bool_decide_eq_false_2 by congruence. done.
Qed.

Lemma phase_get_empty sh ph id : phase_get ∅ sh ph id = None.
Proof. done. Qed.

Lemma phase_get_extend new old sh ph id :
  phase_get (phase_extend new old) sh ph id = match phase_get new sh ph id with Some v => Some v | None => phase_get old sh ph id end.
Proof.
  unfold phase_get, phase_extend. rewrite lookup_union_with. destruct (new !! (sh, ph)) as [n|], (old !! (sh, ph)) as [o|]; simpl; [| |done|done].
  - rewrite lookup_union. by destruct (n !! id), (o !! id).
  - by destruct (n !! id).
Qed.

Section batch.
Context `{Sha512} `{Sha256} `{BigIntBytes} `{Shake256} {ST : HypergraphStore} {FA : ForestApi} {LS : LawfulStore} {LF : LawfulForest}.
Implicit Types (s : HypergraphCrdt) (p : PreparedMutations).

(** ** What a state holds *)

(** The blob and the leaf of a phase, staged or committed. *)
Definition blob_at s (sh : ShardKey) (ph : nat) (id : bytes) : option bytes :=
  match phase_get (pending_blobs s) sh ph id with Some b => Some b | None => blob_of (db s) ph sh id end.
Definition head_version s (t : tree) : option Z :=
  match phase_versions s !! t with Some v => Some v | None => head_of (db s) t end.
Definition version_of s (t : tree) : Z := default (forest_version s) (head_version s t).
Definition committed_leaf s (app : bytes) (ph : nat) (key : bytes) : option bytes :=
  match leaf_tree s app key with Ok id => leaf_of (db s) (id, ph) (version_of s (id, ph)) key | _ => None end.
Definition leaf_at s (sh : ShardKey) (ph : nat) (key : bytes) : option bytes :=
  match phase_get (pending s) sh ph key with Some v => Some v | None => committed_leaf s (l2 sh) ph key end.

(** With the prepared part of a batch on top. *)
Definition blob_in p s (sh : ShardKey) (ph : nat) (id : bytes) : option bytes :=
  match phase_get (blobs p) sh ph id with Some b => Some b | None => blob_at s sh ph id end.
Definition leaf_in p s (sh : ShardKey) (ph : nat) (key : bytes) : option bytes :=
  match phase_get (deltas p) sh ph key with Some v => Some v | None => leaf_at s sh ph key end.

(** A location of two 32-byte addresses. *)
Definition addressed (l : Location) : Prop := length (app_address l) = 32%nat /\ length (data_address l) = 32%nat.
Definition op_ok (op : Mutation) : Prop :=
  match op with
  | AddVertex l d | AddHyperedge l d => addressed l /\ Z.of_nat (length d) <= u64_max
  | RemoveVertex l | RemoveHyperedge l => addressed l
  | RecordMutation _ _ => True
  end.

(** [blob] and [leaf] hold the contents [m]. *)
Definition holds (blob leaf : ShardKey -> nat -> bytes -> option bytes) m : Prop :=
  forall a l sh, (a = 0 \/ a = 2)%nat -> addressed l -> shard_key_for_location l = Ok sh ->
    blob sh a (to_id l) = e_data <$> m !! (a, l) /\
    blob sh (a + 1)%nat (to_id l) = (if bool_decide (stone_of m a l = None) then None else Some []) /\
    Z.of_nat (length (data_of m a l)) <= u64_max /\
    forall z, stone_of m a l = Some z ->
      0 <= z <= u64_max /\ exists v, leaf sh (a + 1)%nat (data_address l) = Some v /\ vertex_leaf_size v = z.

(** The routing of a location to its size bucket. *)
Definition route_of s (l : Location) : option bytes :=
  if bool_decide (app_address l = replicate 32 xff) then None
  else match sub_shard_id_for s (app_address l) (data_address l) with Ok id => Some id | _ => None end.

Lemma to_id_inj l l' : addressed l -> addressed l' -> to_id l = to_id l' -> l = l'.
Proof.
  intros [Ha Hd] [Ha' Hd'] E. unfold to_id in E. apply app_inj_1 in E as [E1 E2]; [|congruence]. destruct l, l'; simpl in *. congruence.
Qed.

Lemma id_key l : addressed l -> take 32 (drop 32 (to_id l)) = data_address l /\ (64 <=? length (to_id l))%nat = true.
Proof.
  intros [Ha Hd]. unfold to_id. rewrite drop_app_length' by done. rewrite <- Hd, firstn_all, length_app. split; [done|].
  apply Nat.leb_le. lia.
Qed.

Lemma shard_key_app l sh : shard_key_for_location l = Ok sh -> l2 sh = app_address l.
Proof. unfold shard_key_for_location. destruct (get_bloom_filter_indices _ _ _); simpl; [|done..]. by intros [= <-]. Qed.

(** Two locations with one shard key and one data address are one. *)
Lemma same_location l l' sh : shard_key_for_location l = Ok sh -> shard_key_for_location l' = Ok sh ->
  data_address l = data_address l' -> l = l'.
Proof. intros E E' Ed. apply shard_key_app in E, E'. destruct l, l'; simpl in *. congruence. Qed.

(** ** Reads *)

Lemma read_blob_at s sh ph id r : read_blob_checked s sh ph id = Ok r -> r = blob_at s sh ph id.
Proof. unfold read_blob_checked, blob_at. destruct (phase_get _ _ _ _); [by intros [= <-]|]. apply load_blob. Qed.

Lemma prepared_read_in p s sh ph id r : prepared_read p s sh ph id = Ok r -> r = blob_in p s sh ph id.
Proof. unfold prepared_read, blob_in. destruct (phase_get _ _ _ _); [by intros [= <-]|]. apply read_blob_at. Qed.

Lemma committed_size_at s app ph key r :
  length key = 32%nat -> committed_leaf_size s app ph key = Ok r -> r = (fun v => wrap_u64 (vertex_leaf_size v)) <$> committed_leaf s app ph key.
Proof.
  intros Hk. unfold committed_leaf_size, committed_leaf, version_of, head_version, resolve_phase_version_checked.
  destruct (leaf_tree s app key) as [id| |]; [|done..]. cbn [mbind outcome_bind].
  assert (Hh : shard_path_key_hash key = key) by (unfold shard_path_key_hash; rewrite <- Hk; apply resize_all).
  rewrite Hh. destruct (phase_versions s !! (id, ph)) as [v|]; cbn [mbind outcome_bind].
  - destruct (serve_value _ _ _ _) as [x| |] eqn:E; [|done..]. apply value_read in E. simpl in *. by intros [= <-]; rewrite E.
  - destruct (read_head_version _ _) as [h| |] eqn:Eh; [|done..]. apply head_read in Eh. cbn [mbind outcome_bind].
    destruct (serve_value _ _ _ _) as [x| |] eqn:E; [|done..]. apply value_read in E. simpl. by intros [= <-]; rewrite E, Eh.
Qed.

Lemma tombstone_in p s sh ph id r :
  length (take 32 (drop 32 id)) = 32%nat -> prepared_tombstone_size p s sh ph id = Ok r ->
  r = default 0 ((fun v => wrap_u64 (vertex_leaf_size v)) <$> leaf_in p s sh ph (take 32 (drop 32 id))).
Proof.
  intros Hk. unfold prepared_tombstone_size, leaf_in, staged_tombstone_size, leaf_at.
  destruct (phase_get (deltas p) _ _ _); [by intros [= <-]|]. destruct (phase_get (pending s) _ _ _); [by intros [= <-]|].
  destruct (committed_leaf_size _ _ _ _) as [x| |] eqn:E; [|done..]. apply committed_size_at in E; [|done]. simpl. by intros [= <-]; rewrite E.
Qed.

(** ** Staging *)

Lemma blob_stage p s sh ph id b t sh' ph' id' :
  blob_in (stage p sh ph id b t) s sh' ph' id' = if bool_decide ((sh', ph', id') = (sh, ph, id)) then Some b else blob_in p s sh' ph' id'.
Proof. unfold blob_in, stage. cbn [blobs]. rewrite phase_get_put. by case_bool_decide. Qed.

Lemma tombstone_value size : in_u64 size -> vertex_leaf_size (sized_tombstone_leaf_value size) = size.
Proof.
  intros Hs. unfold vertex_leaf_size, sized_tombstone_leaf_value, vertex_leaf_value, VERTEX_LEAF_LEN.
  rewrite take_app_length' by (by rewrite length_vertex_commitment). rewrite drop_ge by (rewrite length_app, length_vertex_commitment, length_be_bytes; lia).
  rewrite app_nil_r, length_app, length_vertex_commitment, length_be_bytes. cbn [Nat.leb Nat.add].
  rewrite drop_app_length' by (by rewrite length_vertex_commitment). rewrite firstn_all2 by (rewrite length_be_bytes; lia).
  rewrite be_Z_be_bytes_small; [done|]. unfold_ints. simpl. lia.
Qed.

Lemma leaf_stage_add p s sh ph l b sh' ph' key :
  addressed l -> leaf_in (stage p sh ph (to_id l) b None) s sh' ph' key =
  if bool_decide ((sh', ph', key) = (sh, ph, data_address l)) then Some (vertex_leaf_value b) else leaf_in p s sh' ph' key.
Proof.
  intros Hl. destruct (id_key l Hl) as [Ek E64]. unfold leaf_in, stage, per_vertex_leaf. rewrite E64, Ek. cbn [deltas fst snd].
  rewrite phase_get_put. by case_bool_decide.
Qed.

Lemma leaf_stage_remove p s sh ph l b z sh' ph' key :
  addressed l -> leaf_in (stage p sh ph (to_id l) b (Some z)) s sh' ph' key =
  if bool_decide ((sh', ph', key) = (sh, ph, data_address l)) then Some (sized_tombstone_leaf_value z) else leaf_in p s sh' ph' key.
Proof.
  intros Hl. destruct (id_key l Hl) as [Ek E64]. unfold leaf_in, stage. rewrite Ek. cbn [deltas fst snd].
  rewrite phase_get_put. by case_bool_decide.
Qed.

Lemma shard_fun l sh sh' : shard_key_for_location l = Ok sh -> shard_key_for_location l = Ok sh' -> sh = sh'.
Proof. congruence. Qed.

(** The entries of other locations and phases are kept. *)
Lemma other_blob (a a' : nat) l l' sh sh' :
  addressed l -> addressed l' -> shard_key_for_location l = Ok sh -> shard_key_for_location l' = Ok sh' ->
  (a', l') <> (a, l) -> (sh', a', to_id l') <> (sh, a, to_id l).
Proof. intros Hl Hl' E E' Hne [= -> -> Ei]. apply Hne. f_equal. by apply to_id_inj. Qed.

Lemma other_leaf (a a' : nat) l l' sh sh' :
  shard_key_for_location l = Ok sh -> shard_key_for_location l' = Ok sh' ->
  (a', l') <> (a, l) -> (sh', a', data_address l') <> (sh, a, data_address l).
Proof. intros E E' Hne [= -> -> Ed]. apply Hne. f_equal. by eapply same_location. Qed.

Lemma add_holds p s m a l sh d :
  holds (blob_in p s) (leaf_in p s) m -> (a = 0 \/ a = 2)%nat -> addressed l -> shard_key_for_location l = Ok sh ->
  Z.of_nat (length d) <= u64_max ->
  holds (blob_in (stage p sh a (to_id l) d None) s) (leaf_in (stage p sh a (to_id l) d None) s) (<[(a, l) := mkEntry d (stone_of m a l)]> m).
Proof.
  intros Hm Ha Hl Esh Hd a' l' sh' Ha' Hl' Esh'. destruct (Hm a' l' sh' Ha' Hl' Esh') as (Hb & Hr & Hlen & Hs).
  unfold stone_of, data_of in *. rewrite !blob_stage, leaf_stage_add by done.
  destruct (decide ((a', l') = (a, l))) as [[= -> ->]|Hne].
  - assert (sh' = sh) as -> by congruence. rewrite lookup_insert_eq. rewrite (bool_decide_eq_true_2 ((sh, a, to_id l) = _)) by done.
    rewrite !(bool_decide_eq_false_2 ((sh, (a + 1)%nat, _) = _)) by (intros [= Ea]; lia). simpl. split; [done|]. by split.
  - rewrite lookup_insert_ne by done. rewrite (bool_decide_eq_false_2 ((sh', a', to_id l') = _)) by (by apply other_blob).
    rewrite !(bool_decide_eq_false_2 ((sh', (a' + 1)%nat, _) = _)) by (intros [= _ Ea _]; lia). done.
Qed.

Lemma remove_holds p s m a l sh :
  holds (blob_in p s) (leaf_in p s) m -> (a = 0 \/ a = 2)%nat -> addressed l -> shard_key_for_location l = Ok sh ->
  let size := Z.of_nat (length (data_of m a l)) in
  let p1 := if bool_decide (blob_in p s sh a (to_id l) = None) then stage p sh a (to_id l) [] None else p in
  let p2 := stage p1 sh (a + 1) (to_id l) [] (Some size) in
  holds (blob_in p2 s) (leaf_in p2 s) (<[(a, l) := mkEntry (data_of m a l) (Some size)]> m).
Proof.
  intros Hm Ha Hl Esh size p1 p2 a' l' sh' Ha' Hl' Esh'. destruct (Hm a' l' sh' Ha' Hl' Esh') as (Hb & Hr & Hlen & Hs).
  assert (Hb1 : forall sh' ph' id', (sh', ph', id') <> (sh, a, to_id l) -> blob_in p1 s sh' ph' id' = blob_in p s sh' ph' id').
  { intros x y z Hne. unfold p1. destruct (bool_decide (blob_in p s sh a (to_id l) = None)); [|done]. rewrite blob_stage. by rewrite bool_decide_eq_false_2. }
  assert (Hl1 : forall sh' ph' k, ph' <> a -> leaf_in p1 s sh' ph' k = leaf_in p s sh' ph' k).
  { intros x y z Hne. unfold p1. destruct (bool_decide (blob_in p s sh a (to_id l) = None)); [|done]. rewrite leaf_stage_add by done. rewrite bool_decide_eq_false_2; [done|]. congruence. }
  unfold p2. rewrite !blob_stage, leaf_stage_remove by done.
  destruct (decide ((a', l') = (a, l))) as [[= -> ->]|Hne].
  - assert (sh' = sh) as -> by congruence. unfold stone_of, data_of. rewrite lookup_insert_eq. cbn [fmap option_fmap option_map mbind option_bind e_data e_stone default].
    rewrite (bool_decide_eq_false_2 ((sh, a, _) = _)) by (intros [= Ea]; lia). rewrite !(bool_decide_eq_true_2 ((sh, (a + 1)%nat, _) = _)) by done.
    split; [|split; [done|split; [done|]]].
    + unfold p1. rewrite Hb. unfold data_of. destruct (m !! (a, l)) as [e|] eqn:E; simpl.
      * unfold blob_in in *. unfold blob_at in *. exact Hb.
      * rewrite blob_stage, bool_decide_eq_true_2 by done. done.
    + intros z [= <-]. split; [unfold size; lia|]. eexists. split; [done|]. apply tombstone_value. unfold_ints. unfold size. unfold_ints. unfold u64_max in Hlen. lia.
  - assert (Hdata : data_of (<[(a, l) := mkEntry (data_of m a l) (Some size)]> m) a' l' = data_of m a' l') by (unfold data_of; by rewrite lookup_insert_ne).
    assert (Hstone : stone_of (<[(a, l) := mkEntry (data_of m a l) (Some size)]> m) a' l' = stone_of m a' l') by (unfold stone_of; by rewrite lookup_insert_ne).
    rewrite Hdata, Hstone, lookup_insert_ne by done.
    rewrite (bool_decide_eq_false_2 ((sh', a', _) = _)) by (intros [= _ Ea _]; lia).
    rewrite (bool_decide_eq_false_2 ((sh', (a' + 1)%nat, to_id l') = _)) by (intros [= -> Ea Ei]; apply Hne; f_equal; [lia|by apply to_id_inj]).
    rewrite (bool_decide_eq_false_2 ((sh', (a' + 1)%nat, data_address l') = _)) by (intros [= -> Ea Ed]; apply Hne; f_equal; [lia|by eapply same_location]).
    rewrite !Hb1, Hl1; [done|lia|intros [= _ Ea _]; lia|by apply other_blob].
Qed.

(** ** Size changes *)

(** What a list of changes adds to a bucket. *)
Definition change_count (ch : list (bytes * Z * Z)) (b : bytes) : Z := list_sumZ (fun c : bytes * Z * Z => if bool_decide (c.1.1 = b) then c.1.2 else 0) ch.
Definition change_size (ch : list (bytes * Z * Z)) (b : bytes) : Z := list_sumZ (fun c : bytes * Z * Z => if bool_decide (c.1.1 = b) then c.2 else 0) ch.
Definition unit_counts (ch : list (bytes * Z * Z)) : Prop := Forall (fun c : bytes * Z * Z => 0 <= c.1.2 <= 1) ch.

Lemma bump_spec p s sh l c z p' :
  shard_key_for_location l = Ok sh -> bump p s sh l c z = Ok p' ->
  blobs p' = blobs p /\ deltas p' = deltas p /\
  metadata p' = metadata p ++ match route_of s l with Some id => [(id, c, z)] | None => [] end.
Proof.
  intros Esh. unfold bump, route_of. rewrite (shard_key_app _ _ Esh). case_bool_decide.
  - intros [= <-]. by rewrite app_nil_r.
  - destruct (sub_shard_id_for _ _ _) as [id| |]; [|done..]. by intros [= <-].
Qed.

Definition bucket_step (s : HypergraphCrdt) (ch : list (bytes * Z * Z)) m m' : Prop :=
  forall b, change_count ch b = bucket_count (route_of s) m' b - bucket_count (route_of s) m b /\
            change_size ch b = bucket_size (route_of s) m' b - bucket_size (route_of s) m b.

Lemma bucket_insert s m a l e b :
  bucket_size (route_of s) (<[(a, l) := e]> m) b - bucket_size (route_of s) m b
  = (if in_bucket (route_of s) b l then live e - default 0 (live <$> m !! (a, l)) else 0) /\
  bucket_count (route_of s) (<[(a, l) := e]> m) b - bucket_count (route_of s) m b
  = (if in_bucket (route_of s) b l && (a =? 0)%nat && bool_decide (m !! (a, l) = None) then 1 else 0).
Proof.
  unfold bucket_size, bucket_count. rewrite !total_insert. simpl.
  destruct (in_bucket (route_of s) b l); destruct (m !! (a, l)) as [e'|]; simpl; [destruct (a =? 0)%nat; simpl; lia|destruct (a =? 0)%nat; simpl; lia|lia|lia].
Qed.

(** A single change at the bucket of [l]. *)
Lemma step_single s m a l e c z :
  z = live e - default 0 (live <$> m !! (a, l)) -> c = Z.b2z ((a =? 0)%nat && bool_decide (m !! (a, l) = None)) ->
  bucket_step s (match route_of s l with Some id => [(id, c, z)] | None => [] end) m (<[(a, l) := e]> m).
Proof.
  intros -> -> b. destruct (bucket_insert s m a l e b) as [-> ->]. unfold in_bucket, change_count, change_size.
  destruct (route_of s l) as [id|]; [|done]. unfold list_sumZ. cbn [map foldr fst snd fmap list_fmap].
  replace (bool_decide (Some id = Some b)) with (bool_decide (id = b)) by (apply bool_decide_ext; split; congruence).
  destruct (bool_decide (id = b)); cbn [andb]; [destruct ((a =? 0)%nat && _); simpl; lia|lia].
Qed.

Lemma step_nil s m a l e :
  live e = default 0 (live <$> m !! (a, l)) -> ((a =? 0)%nat = false \/ m !! (a, l) <> None) -> bucket_step s [] m (<[(a, l) := e]> m).
Proof.
  intros El Hc b. destruct (bucket_insert s m a l e b) as [-> ->]. unfold change_count, change_size. simpl.
  destruct (in_bucket _ _ _); simpl; [|done]. split; [|lia]. destruct Hc as [->|Hc]; [done|]. by rewrite (bool_decide_eq_false_2 _ Hc), andb_false_r.
Qed.

Lemma unit_route s l (c z : Z) : 0 <= c <= 1 -> unit_counts (match route_of s l with Some id => [(id, c, z)] | None => [] end).
Proof. intros Hc. destruct (route_of s l); repeat constructor; simpl; lia. Qed.

(** ** One mutation *)

(** [p'] is what the mutation leads to: the map changes as specified, and with
    exact sizes the changes staged are the changes of the buckets. *)
Definition prepared_to s p m p' m' : Prop :=
  holds (blob_in p' s) (leaf_in p' s) m' /\
  exists ch, metadata p' = metadata p ++ ch /\ unit_counts ch /\ (exact_sizes s = true -> bucket_step s ch m m').

Lemma bump_to s p q m p' m' sh l c z :
  holds (blob_in q s) (leaf_in q s) m' -> shard_key_for_location l = Ok sh -> metadata q = metadata p -> bump q s sh l c z = Ok p' ->
  0 <= c <= 1 -> (exact_sizes s = true -> bucket_step s (match route_of s l with Some id => [(id, c, z)] | None => [] end) m m') ->
  prepared_to s p m p' m'.
Proof.
  intros Hh Esh Em Eb Hc Hs. destruct (bump_spec _ _ _ _ _ _ _ Esh Eb) as (E1 & E2 & E3). split.
  - unfold holds, blob_in, leaf_in in *. by rewrite E1, E2.
  - eexists. split; [rewrite E3, Em; reflexivity|]. split; [by apply unit_route|done].
Qed.

Lemma prepare_add_ok s p m a l d p' :
  (a = 0 \/ a = 2)%nat -> addressed l -> Z.of_nat (length d) <= u64_max -> holds (blob_in p s) (leaf_in p s) m ->
  prepare_add s p l d a = Ok p' ->
  prepared_to s p m p' (if (a =? 0)%nat then spec_op m (AddVertex l d) else spec_op m (AddHyperedge l d)).
Proof.
  intros Ha Hl Hd Hm. unfold prepare_add. destruct (shard_key_for_location l) as [sh| |] eqn:Esh; [|done..]. cbn [mbind outcome_bind].
  pose proof (Hm a l sh Ha Hl Esh) as (Hb & Hr & Hlen & Hst).
  assert (Hrep : forall (r : Z), (if exact_sizes s then b ← prepared_read p s sh a (to_id l); Ok (Z.of_nat (length (default [] b))) else Ok 0) = Ok r ->
                 exact_sizes s = true -> r = Z.of_nat (length (data_of m a l))).
  { intros r Er Hex. rewrite Hex in Er. destruct (prepared_read _ _ _ _ _) as [x| |] eqn:E; [|done..]. apply prepared_read_in in E. simpl in Er.
    injection Er as <-. rewrite E, Hb. done. }
  assert (Hstage : forall c p', c = (a =? 0)%nat && bool_decide (m !! (a, l) = None) ->
            (replaced ← (if exact_sizes s then b ← prepared_read p s sh a (to_id l); Ok (Z.of_nat (length (default [] b))) else Ok 0);
             bump (stage p sh a (to_id l) d None) s sh l (Z.b2z c) (Z.of_nat (length d) - replaced)) = Ok p' ->
            prepared_to s p m p' (<[(a, l) := mkEntry d (stone_of m a l)]> m)).
  { intros c q -> E. destruct (if exact_sizes s then _ else _) as [r| |] eqn:Er; [|done..]. cbn [mbind outcome_bind] in E.
    eapply bump_to; [by apply add_holds|exact Esh|reflexivity|exact E|destruct (_ && _); simpl; lia|].
    intros Hex. apply step_single; [|done]. rewrite (Hrep r eq_refl Hex). unfold live, data_of, stone_of. simpl. destruct (m !! (a, l)) as [e|]; simpl; lia. }
  destruct Ha as [->| ->]; cbn [Nat.eqb].
  - destruct (prepared_read p s sh 0 (to_id l)) as [x| |] eqn:E0; [|done..]. apply prepared_read_in in E0. cbn [mbind outcome_bind].
    apply Hstage. rewrite E0, Hb. cbn [andb Nat.eqb]. apply bool_decide_ext. by destruct (m !! (0%nat, l)).
  - destruct (prepared_read p s sh 3 (to_id l)) as [x| |] eqn:E3; [|done..]. apply prepared_read_in in E3. cbn [mbind outcome_bind].
    change 3%nat with (2 + 1)%nat in E3. rewrite Hr in E3. cbn [spec_op]. destruct (stone_of m 2 l) as [z|] eqn:Es.
    + rewrite bool_decide_eq_false_2 in E3 by done. subst x. rewrite bool_decide_eq_false_2 by done. intros [= <-].
      split; [done|]. exists []. rewrite app_nil_r. split; [done|]. split; [constructor|]. intros _ b. unfold change_count, change_size. simpl. lia.
    + rewrite bool_decide_eq_true_2 in E3 by done. subst x. rewrite bool_decide_eq_true_2 by done. by apply Hstage.
Qed.

Lemma prepare_remove_ok s p m a l p' :
  (a = 0 \/ a = 2)%nat -> addressed l -> holds (blob_in p s) (leaf_in p s) m -> prepare_remove s p l a = Ok p' ->
  prepared_to s p m p' (<[(a, l) := mkEntry (data_of m a l) (Some (Z.of_nat (length (data_of m a l))))]> m).
Proof.
  intros Ha Hl Hm. unfold prepare_remove. destruct (shard_key_for_location l) as [sh| |] eqn:Esh; [|done..]. cbn [mbind outcome_bind].
  pose proof (Hm a l sh Ha Hl Esh) as (Hb & Hr & Hlen & Hst).
  destruct (prepared_read p s sh a (to_id l)) as [x| |] eqn:Ex; [|done..]. apply prepared_read_in in Ex. cbn [mbind outcome_bind].
  destruct (prepared_read p s sh (a + 1) (to_id l)) as [y| |] eqn:Ey; [|done..]. apply prepared_read_in in Ey. cbn [mbind outcome_bind].
  rewrite Hr in Ey. assert (Hdata : default [] x = data_of m a l) by (by rewrite Ex, Hb).
  assert (Hrem : bool_decide (y <> None) = bool_decide (stone_of m a l <> None)).
  { rewrite Ey. apply bool_decide_ext. by destruct (stone_of m a l). }
  assert (Hnew : bool_decide (x = None) = bool_decide (m !! (a, l) = None)).
  { rewrite Ex, Hb. apply bool_decide_ext. by destruct (m !! (a, l)). }
  rewrite Hdata, Hrem.
  destruct (if exact_sizes s && _ then _ else _) as [r| |] eqn:Er; [|done..]. cbn [mbind outcome_bind].
  assert (Hrep : exact_sizes s = true -> r = default 0 (stone_of m a l)).
  { intros Hex. rewrite Hex in Er. cbn [andb] in Er. destruct (stone_of m a l) as [z|] eqn:Es.
    - rewrite bool_decide_eq_true_2 in Er by done. destruct (Hst z eq_refl) as (Hz & v & Hv & Hsz).
      destruct (id_key l Hl) as [Ek _]. apply tombstone_in in Er; [|rewrite Ek; apply Hl]. rewrite Ek, Hv in Er. simpl in Er. rewrite Er, Hsz.
      apply wrap_u64_id. exact Hz.
    - rewrite bool_decide_eq_false_2 in Er by naive_solver. by injection Er as <-. }
  set (size := Z.of_nat (length (data_of m a l))).
  pose proof (remove_holds p s m a l sh Hm Ha Hl Esh) as Hh. cbn zeta in Hh. rewrite <- Ex in Hh. fold size in Hh.
  rewrite Hnew. rewrite Hnew in Hh.
  set (q := stage _ sh (a + 1) (to_id l) [] (Some size)) in *.
  assert (Hmeta : metadata q = metadata p) by (unfold q; by destruct (bool_decide (m !! (a, l) = None))).
  set (e := mkEntry (data_of m a l) (Some size)) in *.
  assert (Hlive : live e - default 0 (live <$> m !! (a, l)) = default 0 (stone_of m a l) - size).
  { unfold live, e, stone_of, size, data_of. simpl. destruct (m !! (a, l)) as [e'|]; simpl; lia. }
  assert (Hkeep : forall q', (exact_sizes s = true -> bucket_step s [] m (<[(a, l) := e]> m)) -> Ok q = Ok q' -> prepared_to s p m q' (<[(a, l) := e]> m)).
  { intros q' Hb' [= <-]. split; [done|]. exists []. rewrite app_nil_r. split; [done|]. split; [constructor|done]. }
  assert (Hunit : forall b : bool, 0 <= Z.b2z b <= 1) by (by intros []).
  destruct (exact_sizes s) eqn:Hex.
  - rewrite (Hrep eq_refl). destruct (negb _ || negb _) eqn:Ech.
    + intros E. eapply bump_to; [exact Hh|exact Esh|exact Hmeta|exact E|apply Hunit|]. intros _. by apply step_single; rewrite ?Hlive.
    + apply orb_false_iff in Ech as [E1%negb_false_iff%Z.eqb_eq E2%negb_false_iff%Z.eqb_eq]. apply Hkeep. intros _. apply step_nil; [lia|].
      destruct (a =? 0)%nat; [right|by left]. intros En. by rewrite (bool_decide_eq_true_2 _ En) in E2.
  - destruct (_ || _); [|by apply Hkeep]. intros E. eapply bump_to; [exact Hh|exact Esh|exact Hmeta|exact E|apply Hunit|]. by rewrite Hex.
Qed.

Lemma prepare_one_ok s p m op p' :
  op_ok op -> holds (blob_in p s) (leaf_in p s) m -> prepare_one s p op = Ok p' -> prepared_to s p m p' (spec_op m op).
Proof.
  intros Hop Hm. destruct op as [l d|l|l d|l|k v]; cbn [prepare_one op_ok] in *.
  - intros E. destruct Hop. eapply (prepare_add_ok s p m 0) in E; auto.
  - intros E. eapply (prepare_remove_ok s p m 0) in E; auto.
  - intros E. destruct Hop. eapply (prepare_add_ok s p m 2) in E; auto.
  - intros E. eapply (prepare_remove_ok s p m 2) in E; auto.
  - intros [= <-]. split; [done|]. exists []. cbn [metadata]. rewrite app_nil_r. split; [done|]. split; [constructor|].
    intros _ b. unfold change_count, change_size. simpl. lia.
Qed.

Lemma bucket_step_app s ch ch' m m' m'' : bucket_step s ch m m' -> bucket_step s ch' m' m'' -> bucket_step s (ch ++ ch') m m''.
Proof.
  intros H1' H2' b. destruct (H1' b), (H2' b). unfold change_count, change_size in *. rewrite !list_sumZ_app. lia.
Qed.

Lemma prepare_all_ok s ops : forall p m p',
  Forall op_ok ops -> holds (blob_in p s) (leaf_in p s) m -> prepare_all s p ops = Ok p' -> prepared_to s p m p' (foldl spec_op m ops).
Proof.
  induction ops as [|op ops IH]; intros p m p' Hops Hm; cbn [prepare_all foldl].
  - intros [= <-]. split; [done|]. exists []. rewrite app_nil_r. split; [done|]. split; [constructor|]. intros _ b. unfold change_count, change_size. simpl. lia.
  - apply Forall_cons in Hops as [Hop Hops]. destruct (prepare_one s p op) as [q| |] eqn:Eq; [|done..]. cbn [mbind outcome_bind]. intros E.
    destruct (prepare_one_ok _ _ _ _ _ Hop Hm Eq) as (Hq & ch & Em & Hu & Hs).
    destruct (IH _ _ _ Hops Hq E) as (Hp' & ch' & Em' & Hu' & Hs'). split; [done|]. exists (ch ++ ch'). rewrite Em', Em, app_assoc.
    split; [done|]. split; [by apply Forall_app|]. intros Hex. eapply bucket_step_app; eauto.
Qed.

(** ** Buckets *)

Definition tally (meta next : gmap bytes (Z * Z)) (b : bytes) : Z * Z := default (default (0, 0) (meta !! b)) (next !! b).

Lemma tally_insert meta next id e b : tally meta (<[id := e]> next) b = if bool_decide (id = b) then e else tally meta next b.
Proof. unfold tally. case_bool_decide as Ei; [subst id; by rewrite lookup_insert_eq|by rewrite lookup_insert_ne]. Qed.

Lemma change_count_cons id c z ch b : change_count ((id, c, z) :: ch) b = (if bool_decide (id = b) then c else 0) + change_count ch b.
Proof. done. Qed.
Lemma change_size_cons id c z ch b : change_size ((id, c, z) :: ch) b = (if bool_decide (id = b) then z else 0) + change_size ch b.
Proof. done. Qed.

Lemma next_metadata_tally meta ch : forall next next',
  unit_counts ch -> next_metadata meta next ch = Ok next' ->
  (forall b, tally meta next' b = ((tally meta next b).1 + change_count ch b, (tally meta next b).2 + change_size ch b)) /\
  (forall b, next !! b = None -> next' !! b = None \/ exists c, c ∈ ch /\ c.1.1 = b).
Proof.
  induction ch as [|[[id c] z] ch IH]; intros next next' Hu; cbn [next_metadata].
  - intros [= <-]. split; [|by left]. intros b. unfold change_count, change_size. simpl. destruct (tally _ _ _); simpl. f_equal; lia.
  - apply Forall_cons in Hu as [Hc Hu]. simpl in Hc. destruct (next_bucket _ c z) as [e| |] eqn:Ee; [|done..]. cbn [mbind outcome_bind]. intros E.
    destruct (IH _ _ Hu E) as [Ht Hn]. fold (tally meta next id) in Ee.
    assert (He : e = ((tally meta next id).1 + c, (tally meta next id).2 + z)).
    { unfold next_bucket in Ee. rewrite (proj2 (Z.leb_le 0 c)) in Ee by lia. rewrite wrap_u64_id in Ee by (unfold in_u64, u64_max; change (2 ^ 64) with 18446744073709551616; lia).
      destruct (_ <=? u64_max); [|done]. cbn [mbind outcome_bind] in Ee. destruct (_ && _); [|done]. by injection Ee as <-. }
    split.
    + intros b. rewrite Ht. rewrite change_count_cons, change_size_cons.
      rewrite tally_insert, He. case_bool_decide as Ei; [subst id|]; simpl; f_equal; lia.
    + intros b Hb. destruct (decide (id = b)) as [->|Hne]; [right; exists (b, c, z); split; [left|done]|].
      destruct (Hn b) as [?|(x & Hx & ?)]; [by rewrite lookup_insert_ne|by left|right; exists x; split; [by right|done]].
Qed.

(** ** A batch *)

(** [s] stands for the map [m], with its buckets when sizes are exact. *)
Definition sized s m : Prop :=
  exact_sizes s = true -> forall b, default (0, 0) (sub_meta s !! b) = (bucket_count (route_of s) m b, bucket_size (route_of s) m b).
Definition stands_for s m : Prop := holds (blob_at s) (leaf_at s) m /\ sized s m.

Lemma blob_publish s p next sh ph id : blob_at (publish s p next) sh ph id = blob_in p s sh ph id.
Proof. unfold blob_at, blob_in, publish. cbn [pending_blobs db]. rewrite phase_get_extend. by destruct (phase_get (blobs p) sh ph id). Qed.
Lemma leaf_publish s p next sh ph k : leaf_at (publish s p next) sh ph k = leaf_in p s sh ph k.
Proof. unfold leaf_at, leaf_in, publish. cbn [pending]. rewrite phase_get_extend. by destruct (phase_get (deltas p) sh ph k). Qed.

Lemma apply_stands s m ops s' :
  Forall op_ok ops -> stands_for s m -> apply_mutations s ops = (Ok tt, s') -> stands_for s' (foldl spec_op m ops).
Proof.
  intros Hops [Hm Hs]. unfold apply_mutations. destruct (prepare_all s no_mutations ops) as [p| |] eqn:Ep; [|done..]. cbn [mbind outcome_bind].
  destruct (next_metadata _ _ _) as [next| |] eqn:En; [|done..]. cbn [mbind outcome_bind]. intros [= <-].
  destruct (prepare_all_ok s ops no_mutations m p Hops) as (Hp & ch & Em & Hu & Hb); [exact Hm|exact Ep|].
  simpl in Em. rewrite Em in En. destruct (next_metadata_tally _ _ _ _ Hu En) as [Ht _]. split.
  - unfold holds in *. setoid_rewrite blob_publish. setoid_rewrite leaf_publish. exact Hp.
  - intros Hex b. cbn [exact_sizes publish] in Hex. destruct (Hb Hex b) as [Hc Hz]. specialize (Hs Hex b).
    cbn [sub_meta publish]. rewrite lookup_union. specialize (Ht b). unfold tally at 1 in Ht.
    replace (default (0, 0) (union (next !! b) (sub_meta s !! b))) with (default (default (0, 0) (sub_meta s !! b)) (next !! b)) by (by destruct (next !! b), (sub_meta s !! b)).
    rewrite Ht. unfold tally. rewrite lookup_empty. cbn [default]. rewrite Hs, Hc, Hz. cbn [fst snd].
    change (route_of (publish s p next)) with (route_of s). f_equal; lia.
Qed.

Lemma apply_error s ops r s' : apply_mutations s ops = (r, s') -> r <> Ok tt -> s' = s.
Proof.
  unfold apply_mutations. destruct (prepared ← _; _) as [x| |]; intros [= <- <-] Hr; done.
Qed.
End batch.
