(* ===== verification/HypergraphCommit.v ===== *)
(** * The commit of the hypergraph

    What a transaction of [commit_inner] writes, for applications kept in one tree
    each (the unified mode): the staged blobs, the staged leaves of every touched
    tree at its next version, and nothing else of any tree.  A commit that
    succeeds keeps the contents; one that fails keeps the state. *)

From Stdlib Require Import Strings.Byte.
From stdpp Require Import gmap sorting.
From S2P Require Import Prelude Bytes Node Tree TreeCodec VertexCommit Merkle CoinTree ShardPaths Hypergraph HypergraphSpec.

(** ** The last write of a transaction *)

Definition later {A} (x y : option A) : option A := match x with Some _ => x | None => y end.

Fixpoint raw_put (ws : list write) (k : bytes) : option (option bytes) :=
  match ws with
  | [] => None
  | WSet k' v :: rest => later (raw_put rest k) (if bool_decide (k = k') then Some (Some v) else None)
  | WDelete k' :: rest => later (raw_put rest k) (if bool_decide (k = k') then Some None else None)
  | _ :: rest => raw_put rest k
  end.
Fixpoint blob_put (ws : list write) (ph : nat) (sh : ShardKey) (id : bytes) : option bytes :=
  match ws with
  | [] => None
  | WBlob ph' sh' id' b _ :: rest => later (blob_put rest ph sh id) (if bool_decide ((ph, sh, id) = (ph', sh', id')) then Some b else None)
  | _ :: rest => blob_put rest ph sh id
  end.

Lemma raw_after_put ws : forall raw k, raw_after ws raw k = default (raw k) (raw_put ws k).
Proof.
  induction ws as [|w ws IH]; intros raw k; [done|]. destruct w; cbn [raw_after raw_put]; rewrite IH; try done.
  all: destruct (raw_put ws k) as [x|]; cbn [later default]; [done|]; by destruct (bool_decide _).
Qed.
Lemma blob_after_put ws : forall blob ph sh id, blob_after ws blob ph sh id = later (blob_put ws ph sh id) (blob ph sh id).
Proof.
  induction ws as [|w ws IH]; intros blob ph sh id; [done|]. destruct w; cbn [blob_after blob_put]; rewrite IH; try done.
  destruct (blob_put ws ph sh id) as [x|]; cbn [later]; [done|]; by destruct (bool_decide _).
Qed.

Lemma raw_put_app ws ws' k : raw_put (ws ++ ws') k = later (raw_put ws' k) (raw_put ws k).
Proof.
  induction ws as [|w ws IH]; cbn [app]; [by destruct (raw_put ws' k)|]. destruct w; cbn [raw_put]; rewrite IH; try done.
  all: by destruct (raw_put ws' k), (raw_put ws k).
Qed.
Lemma blob_put_app ws ws' ph sh id : blob_put (ws ++ ws') ph sh id = later (blob_put ws' ph sh id) (blob_put ws ph sh id).
Proof.
  induction ws as [|w ws IH]; cbn [app]; [by destruct (blob_put ws' ph sh id)|]. destruct w; cbn [blob_put]; rewrite IH; try done.
  by destruct (blob_put ws' ph sh id), (blob_put ws ph sh id).
Qed.

Abbreviation sets puts := ((fun kv : bytes * bytes => WSet kv.1 kv.2) <$> puts).

Lemma sets_blob puts ph sh id : blob_put (sets puts) ph sh id = None.
Proof. by induction puts. Qed.
Lemma sets_other (P : bytes -> Prop) (puts : list (bytes * bytes)) k : Forall (fun kv => P kv.1) puts -> ~ P k -> raw_put (sets puts) k = None.
Proof.
  induction 1 as [|kv puts Hkv _ IH]; intros Hk; cbn [fmap list_fmap raw_put]; [done|]. rewrite IH by done. cbn [later].
  by rewrite bool_decide_eq_false_2 by (intros ->; done).
Qed.

Lemma records_blob l ph sh id : blob_put (record_writes l) ph sh id = None.
Proof. unfold record_writes. induction l as [|[k [v|]] l IH]; simpl; by rewrite ?IH. Qed.
Lemma records_other (P : bytes -> Prop) (l : list (bytes * option bytes)) k : Forall (fun kv => P kv.1) l -> ~ P k -> raw_put (record_writes l) k = None.
Proof.
  unfold record_writes. induction 1 as [|[k' v] l Hk' _ IH]; intros Hk; cbn [fmap list_fmap raw_put]; [done|]. simpl in Hk'.
  destruct v; cbn [fst snd raw_put]; rewrite IH by done; cbn [later]; by rewrite bool_decide_eq_false_2 by (intros ->; done).
Qed.

Section commit.
Context `{Sha512} `{Sha256} `{BigIntBytes} `{Shake256} {ST : HypergraphStore} {FA : ForestApi} {LS : LawfulStore} {LF : LawfulForest}.
Implicit Types (s : HypergraphCrdt) (p : PreparedMutations) (g : Staged).

(** ** What is staged *)

(** A shard key that a location has, and a raw key outside every tree. *)
Definition located (sh : ShardKey) : Prop := exists l, addressed l /\ shard_key_for_location l = Ok sh.
Definition foreign (k : bytes) : Prop := forall t, app_tree t -> ~ tree_key t k.

(** The version the next commit of a tree builds on: its head, or the version of
    the whole forest where the tree has a root there. *)
Definition base_version s (t : tree) : option Z :=
  match head_version s t with
  | Some v => Some v
  | None => if bool_decide (root_of (db s) t (forest_version s) <> None) then Some (forest_version s) else None
  end.

(** Staged leaves have 32-byte keys, and every staged blob has its phase among the
    staged leaves. *)
Record staged_ok (d b : PhaseMap) : Prop := {
  st_phase sh ph e : d !! (sh, ph) = Some e -> (ph < 4)%nat /\ located sh;
  st_keys sh ph k v : phase_get d sh ph k = Some v -> length k = 32%nat;
  st_blobs k : d !! k = None -> b !! k = None;
}.

(** The states the theorems are about. *)
Record ready s : Prop := {
  r_unified : unified_tree s = true;
  r_staged : staged_ok (pending s) (pending_blobs s);
  r_records k v : pending_records s !! k = Some v -> foreign k;
  r_forest : 0 <= forest_version s;
  r_versions t v : phase_versions s !! t = Some v -> 0 <= v;
  r_settled t : app_tree t -> settled (db s) t (base_version s t);
}.

Lemma staged_empty : staged_ok ∅ ∅.
Proof. split; [done|done|done]. Qed.

Lemma staged_put d b sh ph k v id x :
  staged_ok d b -> (ph < 4)%nat -> located sh -> length k = 32%nat -> staged_ok (phase_put d sh ph k v) (phase_put b sh ph id x).
Proof.
  intros [H1' H2' H3'] Hph Hsh Hk. split.
  - intros sh' ph' e. unfold phase_put. rewrite lookup_insert. case_decide as E; [injection E as -> ->; done|apply H1'].
  - intros sh' ph' k' v'. rewrite phase_get_put. case_bool_decide as E; [by injection E as -> -> ->|apply H2'].
  - intros q. unfold phase_put. rewrite !lookup_insert. case_decide; [done|apply H3'].
Qed.

Lemma staged_extend d b d' b' : staged_ok d b -> staged_ok d' b' -> staged_ok (phase_extend d d') (phase_extend b b').
Proof.
  intros [H1' H2' H3'] [H1'' H2'' H3'']. split.
  - intros sh ph e. unfold phase_extend. rewrite lookup_union_with. destruct (d !! (sh, ph)) eqn:E; [intros _; by eapply H1'|].
    destruct (d' !! (sh, ph)) eqn:E'; [intros _; by eapply H1''|done].
  - intros sh ph k v. rewrite phase_get_extend. destruct (phase_get d sh ph k) eqn:E; [intros _; by eapply H2'|apply H2''].
  - intros k. unfold phase_extend. rewrite !lookup_union_with. destruct (d !! k) eqn:E, (d' !! k) eqn:E'; try done. intros _. by rewrite (H3' _ E), (H3'' _ E').
Qed.

(** ** A batch keeps a ready state ready *)

Definition records_ok (op : Mutation) : Prop := match op with RecordMutation k _ => foreign k | _ => True end.
Definition prepared_ok p : Prop := staged_ok (deltas p) (blobs p) /\ forall k v, records p !! k = Some v -> foreign k.

Lemma prepared_none : prepared_ok no_mutations.
Proof. split; [apply staged_empty|]. intros k v. unfold no_mutations. cbn [records]. by rewrite lookup_empty. Qed.

Lemma prepared_stage p sh ph l b t :
  prepared_ok p -> (ph < 4)%nat -> addressed l -> shard_key_for_location l = Ok sh -> prepared_ok (stage p sh ph (to_id l) b t).
Proof.
  intros [Hp Hr] Hph Hl Esh. split; [|done]. unfold stage. cbn [deltas blobs]. apply staged_put; [done|done|by exists l|].
  destruct (id_key l Hl) as [Ek E64]. destruct t; unfold per_vertex_leaf; cbn [fst]; rewrite ?E64, Ek; apply Hl.
Qed.
Lemma prepared_bump p s sh l c z p' : prepared_ok p -> bump p s sh l c z = Ok p' -> prepared_ok p'.
Proof. intros Hp. unfold bump. case_bool_decide; [by intros [= <-]|]. destruct (sub_shard_id_for _ _ _); [|done..]. by intros [= <-]. Qed.

Lemma prepared_one s p op p' : op_ok op -> records_ok op -> prepared_ok p -> prepare_one s p op = Ok p' -> prepared_ok p'.
Proof.
  intros Hop Hrec Hp. assert (Hadd : forall l d a, (a = 0 \/ a = 2)%nat -> addressed l -> prepare_add s p l d a = Ok p' -> prepared_ok p').
  { intros l d a Ha Hl. unfold prepare_add. intros E. apply outcome_bind_ok in E as (sh & Esh & E). apply outcome_bind_ok in E as (nv & _ & E).
    destruct nv; [|by injection E as <-]. apply outcome_bind_ok in E as (r & _ & E). eapply prepared_bump; [|exact E]. apply prepared_stage; [done|lia|done|done]. }
  assert (Hrem : forall l a, (a = 0 \/ a = 2)%nat -> addressed l -> prepare_remove s p l a = Ok p' -> prepared_ok p').
  { intros l a Ha Hl. unfold prepare_remove. intros E. apply outcome_bind_ok in E as (sh & Esh & E). apply outcome_bind_ok in E as (ex & _ & E).
    apply outcome_bind_ok in E as (rm & _ & E). apply outcome_bind_ok in E as (r & _ & E).
    set (q := stage _ sh (a + 1) (to_id l) [] _) in E. assert (Hq : prepared_ok q).
    { unfold q. apply prepared_stage; [|lia|done|done]. destruct (bool_decide _); [|done]. apply prepared_stage; [done|lia|done|done]. }
    destruct (exact_sizes s); [destruct (_ || _)|destruct (_ || _)]; [by eapply prepared_bump|by injection E as <-|by eapply prepared_bump|by injection E as <-]. }
  destruct op as [l d|l|l d|l|k v]; cbn [prepare_one op_ok records_ok] in *; [destruct Hop; by apply (Hadd l d); auto|by apply Hrem; auto|destruct Hop; by apply (Hadd l d); auto|by apply Hrem; auto|].
  intros [= <-]. destruct Hp as [Hp Hr]. split; [done|]. intros k' v'. cbn [records]. rewrite lookup_insert. case_decide; [by subst|apply Hr].
Qed.

Lemma prepared_all s ops : forall p p', Forall op_ok ops -> Forall records_ok ops -> prepared_ok p -> prepare_all s p ops = Ok p' -> prepared_ok p'.
Proof.
  induction ops as [|op ops IH]; intros p p' Ho Hr Hp; cbn [prepare_all]; [by intros [= <-]|]. inversion_clear Ho. inversion_clear Hr.
  intros E. apply outcome_bind_ok in E as (q & Eq & E). eapply IH; [done|done| |exact E]. by eapply prepared_one.
Qed.

Lemma apply_ready s ops r s' : Forall op_ok ops -> Forall records_ok ops -> ready s -> apply_mutations s ops = (r, s') -> ready s'.
Proof.
  intros Ho Hr [R1 R2 R3 R4 R5 R6]. unfold apply_mutations. destruct (prepared ← _; _) as [x| |] eqn:E; intros [= <- <-]; [|by split..].
  apply outcome_bind_ok in E as (p & Ep & E). apply outcome_bind_ok in E as (next & _ & E). injection E as <-.
  destruct (prepared_all s ops no_mutations p Ho Hr prepared_none Ep) as [Hp Hrec].
  split; cbn [publish unified_tree pending pending_blobs pending_records forest_version phase_versions]; [done|by apply staged_extend| |done|done|done].
  intros k v. rewrite lookup_union_Some_raw. intros [?|[_ ?]]; eauto.
Qed.

(** ** The effect of a commit *)

(** The tree of a touched phase. *)
Definition touched s (D : list (ShardKey * nat)) (t : tree) (x : ShardKey * nat) (leaves : gmap bytes bytes) : Prop :=
  x ∈ D /\ pending s !! x = Some leaves /\ t = (l2 x.1, x.2).

(** The tree [t] at its next version [v], with the writes [ws] of it. *)
Record committed_tree s (t : tree) (leaves : gmap bytes bytes) (v : Z) (ws : list write) : Prop := {
  ct_version : next_version (base_version s t) = Ok v;
  ct_writes : exists root puts, commit_shard_phase_raw_staged (db s) t v (map_to_list leaves) = Ok (root, puts) /\
    forall k, tree_key t k -> raw_put ws k = raw_put (sets (puts ++ match head_version_put t v with Some kv => [kv] | None => [] end)) k;
}.

(** From [g] to [g'] the phases [D] are committed: their blobs are written, each
    touched tree is, and no other tree. *)
Definition effect s g g' (D : list (ShardKey * nat)) : Prop :=
  exists ws, txn g' = txn g ++ ws /\
    (forall ph sh id, blob_put ws ph sh id = if bool_decide ((sh, ph) ∈ D) then phase_get (pending_blobs s) sh ph id else None) /\
    forall t, (exists x leaves v, touched s D t x leaves /\ versions g' !! t = Some v /\ committed_tree s t leaves v ws)
              \/ ((forall x leaves, ~ touched s D t x leaves) /\ versions g' !! t = versions g !! t /\ (app_tree t -> forall k, tree_key t k -> raw_put ws k = None)).

Lemma shard_of_app sh sh' : located sh -> located sh' -> l2 sh = l2 sh' -> sh = sh'.
Proof.
  intros (l & _ & E) (l' & _ & E') Ea. pose proof (shard_key_app _ _ E) as E2. pose proof (shard_key_app _ _ E') as E2'.
  unfold shard_key_for_location in E, E'. rewrite <- E2 in E. rewrite <- E2', <- Ea in E'. congruence.
Qed.

(** A tree belongs to one staged phase. *)
Lemma touched_unique s D D' t x x' e e' : ready s -> touched s D t x e -> touched s D' t x' e' -> x = x' /\ e = e'.
Proof.
  intros R (_ & E & ->) (_ & E' & [= Ea Ep]). destruct x as [sh ph], x' as [sh' ph']; simpl in *. subst ph'.
  destruct (st_phase _ _ (r_staged s R) _ _ _ E) as [_ L], (st_phase _ _ (r_staged s R) _ _ _ E') as [_ L'].
  assert (sh = sh') as <- by (by apply shard_of_app). split; congruence.
Qed.

Lemma touched_app s D t x e : ready s -> touched s D t x e -> app_tree t.
Proof.
  intros R (_ & E & ->). destruct x as [sh ph]. destruct (st_phase _ _ (r_staged s R) _ _ _ E) as [Hp (l & [Hl _] & Esh)].
  split; [|done]. simpl. by rewrite (shard_key_app _ _ Esh).
Qed.

Lemma touched_mono s D D' t x e : (forall y, y ∈ D -> y ∈ D') -> touched s D t x e -> touched s D' t x e.
Proof. intros Hs (? & ? & ?). split; auto. Qed.

Lemma effect_nil s g : effect s g g [].
Proof.
  exists []. rewrite app_nil_r. split; [done|]. split; [done|]. intros t. right. split; [|done]. intros x e [Hx _]. by apply not_elem_of_nil in Hx.
Qed.

Lemma effect_app s g1 g2 g3 D D' :
  ready s -> (forall x, x ∈ D -> x ∈ D' -> False) -> effect s g1 g2 D -> effect s g2 g3 D' -> effect s g1 g3 (D ++ D').
Proof.
  intros R Hd (ws & E & Hb & Ht) (ws' & E' & Hb' & Ht'). exists (ws ++ ws'). rewrite E', E, app_assoc. split; [done|]. split.
  - intros ph sh id. rewrite blob_put_app, Hb, Hb'. repeat case_bool_decide; try set_solver; by destruct (phase_get _ _ _ _).
  - intros t. destruct (Ht' t) as [(x & e & v & Hx & Hv & Hc)|(Hn & Hv & Hr)].
    + left. exists x, e, v. split; [eapply touched_mono; [|done]; set_solver|]. split; [done|]. destruct Hc as [C1 (root & puts & C3 & C4)]. split; [done|].
      exists root, puts. split; [done|]. intros k Hk. rewrite raw_put_app, <- C4 by done.
      destruct (Ht t) as [(x' & e' & v' & Hx' & _)|(_ & _ & Hr)].
      { destruct (touched_unique _ _ _ _ _ _ _ _ R Hx Hx') as [-> _]. exfalso. eapply Hd; [apply Hx'|apply Hx]. }
      rewrite Hr by (done || by eapply touched_app). by destruct (raw_put ws' k).
    + destruct (Ht t) as [(x & e & v & Hx & Hv' & Hc)|(Hn' & Hv' & Hr')].
      * left. exists x, e, v. split; [eapply touched_mono; [|done]; set_solver|]. split; [congruence|]. destruct Hc as [C1 (root & puts & C3 & C4)]. split; [done|].
        exists root, puts. split; [done|]. intros k Hk. rewrite raw_put_app, Hr by (done || by eapply touched_app). by apply C4.
      * right. split; [|split; [congruence|]].
        -- intros x e (Hx & Hp & Hxt). apply elem_of_app in Hx as [Hx|Hx]; [by apply (Hn' x e)|by apply (Hn x e)].
        -- intros Hat k Hk. by rewrite raw_put_app, Hr, Hr'.
Qed.

(** Writes outside blobs and trees. *)
Lemma effect_foreign s g g' ws :
  txn g' = txn g ++ ws -> versions g' = versions g -> (forall ph sh id, blob_put ws ph sh id = None) ->
  (forall t k, app_tree t -> tree_key t k -> raw_put ws k = None) -> effect s g g' [].
Proof.
  intros E Ev Hb Hr. exists ws. split; [done|]. split; [intros; by rewrite Hb|]. intros t. right. rewrite Ev. split; [|split; [done|intros Hat k; by apply Hr]].
  intros x e [Hx _]. by apply not_elem_of_nil in Hx.
Qed.

Lemma head_resolved s t r : resolve_phase_version_checked s t = Ok r -> r = head_version s t.
Proof. unfold resolve_phase_version_checked, head_version. destruct (phase_versions s !! t) as [v|]; [by intros [= <-]|]. apply head_read. Qed.

Lemma base_nonneg s t v : ready s -> base_version s t = Some v -> 0 <= v.
Proof.
  intros R. unfold base_version, head_version. destruct (phase_versions s !! t) eqn:E; [intros [= <-]; by eapply r_versions|].
  destruct (head_of _ _) eqn:Eh; [intros [= <-]; by eapply head_range|]. case_bool_decide; [|done]. intros [= <-]. apply (r_forest s R).
Qed.

(** The leaves the next commit builds on are those a read sees. *)
Lemma base_leaf s t k : ready s -> app_tree t -> (base_version s t ≫= fun w => leaf_of (db s) t w k) = leaf_of (db s) t (version_of s t) k.
Proof.
  intros R Ht. pose proof (r_settled s R t Ht) as Hs. revert Hs. unfold base_version, version_of. destruct (head_version s t) as [v|]; [done|].
  case_bool_decide; [done|]. intros Hs. symmetry. by apply settled_none.
Qed.

Lemma next_version_spec o v : next_version o = Ok v -> match o with Some w => v = w + 1 | None => v = 0 end.
Proof. destruct o as [w|]; cbn [next_version]; [destruct (_ <=? _); [|done]|]; by intros [= <-]. Qed.

Lemma commit_one_spec s g t leaves root v g' :
  app_tree t -> commit_one_shard_phase s g t (map_to_list leaves) = Ok (root, v, g') ->
  exists ws, txn g' = txn g ++ ws /\ versions g' = <[t := v]> (versions g) /\ (forall ph sh id, blob_put ws ph sh id = None) /\
    (forall t' k, app_tree t' -> tree_key t' k -> t' <> t -> raw_put ws k = None) /\ committed_tree s t leaves v ws.
Proof.
  intros Ht E. unfold commit_one_shard_phase in E. apply outcome_bind_ok in E as (h & Eh & E). apply outcome_bind_ok in E as (h' & Eh' & E).
  apply outcome_bind_ok in E as (w & Ev & E). apply outcome_bind_ok in E as ([rt puts] & Ec & E). injection E as -> -> <-.
  eexists. split; [reflexivity|]. split; [reflexivity|]. split; [intros; apply sets_blob|]. split.
  - intros t' k Ht' Hk Hne. apply (sets_other (tree_key t)); [|intros Hk'; apply Hne; by eapply tree_keys_disjoint]. apply Forall_app. split; [by eapply commit_puts|].
    destruct (head_version_put t v) as [kv|] eqn:Eput; [|constructor]. repeat constructor. by eapply head_put_key.
  - assert (Eb : h' = base_version s t).
    { apply head_resolved in Eh. unfold base_version. rewrite <- Eh. destruct h as [u|].
      - rewrite bool_decide_eq_true_2 in Eh' by done. by apply outcome_bind_ok in Eh' as (? & _ & [= <-]).
      - rewrite bool_decide_eq_false_2 in Eh' by naive_solver. apply outcome_bind_ok in Eh' as (rt' & Er & [= <-]). by apply root_read in Er as ->. }
    split; [by rewrite <- Eb|]. eauto.
Qed.

Lemma save_blobs_spec bp v ph sh entries ws :
  save_blobs true bp [v] ph sh entries = Ok ws -> NoDup entries.*1 ->
  (forall k, raw_put ws k = None) /\
  forall ph' sh' id, blob_put ws ph' sh' id = if bool_decide ((sh', ph') = (sh, ph)) then (list_to_map entries : gmap bytes bytes) !! id else None.
Proof.
  revert ws. induction entries as [|[id b] entries IH]; intros ws; cbn [save_blobs].
  - intros [= <-] _. split; [done|]. intros. by case_bool_decide.
  - intros E Hnd. cbn [unwrap lookup list_lookup mbind outcome_bind] in E. destruct (save_blobs _ _ _ _ _ entries) as [ws'| |] eqn:Ews; [|done..].
    cbn [mbind outcome_bind] in E. injection E as <-. cbn [fmap list_fmap fst] in Hnd. apply NoDup_cons in Hnd as [Hid Hnd].
    destruct (IH _ eq_refl Hnd) as [IH1 IH2]. split; [intros k; apply IH1|]. intros ph' sh' id'. cbn [blob_put list_to_map foldr]. rewrite IH2.
    destruct (decide ((sh', ph') = (sh, ph))) as [[= -> ->]|Hne].
    + rewrite (bool_decide_eq_true_2 ((sh, ph) = _)) by done. destruct (decide (id' = id)) as [->|Hi].
      * rewrite lookup_insert_eq, not_elem_of_list_to_map_1 by done. by rewrite bool_decide_eq_true_2.
      * rewrite lookup_insert_ne by done. rewrite bool_decide_eq_false_2 by congruence. by destruct (_ !! id').
    + rewrite !bool_decide_eq_false_2 by congruence. done.
Qed.

Lemma untouched_effect s g sh ph : ready s -> pending s !! (sh, ph) = None -> effect s g g [(sh, ph)].
Proof.
  intros R E. exists []. rewrite app_nil_r. split; [done|]. split.
  - intros ph' sh' id. case_bool_decide as Hx; [|done]. apply list_elem_of_singleton in Hx as [= -> ->]. unfold phase_get.
    by rewrite (st_blobs _ _ (r_staged s R) _ E).
  - intros t. right. split; [|done]. intros x e (Hx & Hp & _). apply list_elem_of_singleton in Hx as ->. congruence.
Qed.

Lemma commit_phase_effect s g frame sh row ph root g' :
  ready s -> commit_phase s g frame sh row ph = Ok (root, g') -> effect s g g' [(sh, ph)].
Proof.
  intros R. unfold commit_phase. destruct (pending s !! (sh, ph)) as [leaves|] eqn:Ep.
  - unfold single_shard. rewrite (r_unified s R). cbn [orb]. intros E. apply outcome_bind_ok in E as ([[ar vers] g1] & E1 & E).
    apply outcome_bind_ok in E1 as ([[rt v] g0] & E0 & E1). injection E1 as <- <- <-. apply outcome_bind_ok in E as (wb & Eb & E). injection E as <- <-.
    assert (Hat : app_tree (l2 sh, ph)) by (by eapply (touched_app s [(sh, ph)]); [|split; [by apply list_elem_of_singleton|]]).
    destruct (commit_one_spec _ _ _ _ _ _ _ Hat E0) as (ws & Et & Ev & Hb & Hr & [C1 (root & puts & C3 & C4)]).
    apply save_blobs_spec in Eb as [Br Bb]; [|apply NoDup_fst_map_to_list]. cbn [txn versions]. rewrite Et.
    exists (ws ++ [WRootVersion ph (l2 sh) rt v frame] ++ wb ++ [WShardCommit frame ph (l2 sh) rt]). split; [by rewrite !app_assoc|].
    assert (Hraw : forall k, raw_put (ws ++ [WRootVersion ph (l2 sh) rt v frame] ++ wb ++ [WShardCommit frame ph (l2 sh) rt]) k = raw_put ws k).
    { intros k. rewrite !raw_put_app, Br. cbn [raw_put later]. done. }
    split.
    + intros ph' sh' id. rewrite !blob_put_app, Bb, Hb. cbn [blob_put later]. rewrite list_to_map_to_list. unfold phase_get.
      destruct (decide ((sh', ph') = (sh, ph))) as [[= -> ->]|Hne].
      * rewrite !bool_decide_eq_true_2 by (done || by apply list_elem_of_singleton). destruct (pending_blobs s !! (sh, ph)) as [e|]; simpl; [by destruct (e !! id)|done].
      * rewrite !bool_decide_eq_false_2; [done|by rewrite list_elem_of_singleton|done].
    + intros t. destruct (decide (t = (l2 sh, ph))) as [->|Hne].
      * left. exists (sh, ph), leaves, v. split; [split; [by apply list_elem_of_singleton|done]|]. split; [cbn [versions]; by rewrite Ev, lookup_insert_eq|].
        split; [done|]. exists root, puts. split; [done|]. intros k Hk. rewrite Hraw. by apply C4.
      * right. split; [|split; [cbn [versions]; by rewrite Ev, lookup_insert_ne|]].
        -- intros x e (Hx & _ & ->). apply list_elem_of_singleton in Hx as ->. done.
        -- intros Ht k Hk. rewrite Hraw. by eapply Hr.
  - intros E. assert (g' = g) as -> by (repeat case_match; inv_ok; by simplify_eq). by apply untouched_effect.
Qed.

Lemma commit_phases_effect s frame sh row phases : forall g roots g',
  ready s -> NoDup phases -> commit_phases s g frame sh row phases = Ok (roots, g') -> effect s g g' ((sh,.) <$> phases).
Proof.
  induction phases as [|ph phases IH]; intros g roots g' R Hnd; cbn [commit_phases].
  - intros [= <- <-]. apply effect_nil.
  - apply NoDup_cons in Hnd as [Hph Hnd]. intros E. apply outcome_bind_ok in E as ([rt g1] & E1 & E). apply outcome_bind_ok in E as ([rts g2] & E2 & [= <- <-]).
    apply (effect_app s g g1 g2 [(sh, ph)]); [done| |by eapply commit_phase_effect|by eapply IH].
    intros x Hx Hx'. apply list_elem_of_singleton in Hx as ->. apply list_elem_of_fmap in Hx' as (ph' & [= ->] & ?). done.
Qed.

Lemma commit_shards_effect s frame cached shards : forall g result meta entries g',
  ready s -> NoDup shards -> commit_shards s g frame cached shards = Ok (result, meta, entries, g') ->
  effect s g g' (shards ≫= fun sh => (sh,.) <$> [0; 1; 2; 3]%nat).
Proof.
  induction shards as [|sh shards IH]; intros g result meta entries g' R Hnd; cbn [commit_shards].
  - intros [= _ _ _ <-]. apply effect_nil.
  - apply NoDup_cons in Hnd as [Hsh Hnd]. intros E. apply outcome_bind_ok in E as ([rts g1] & E1 & E). apply outcome_bind_ok in E as (en & _ & E).
    apply outcome_bind_ok in E as ([[[r m] es] g2] & E2 & E). injection E as _ _ _ <-. rewrite bind_cons.
    eapply effect_app; [done| |eapply commit_phases_effect; [done| |exact E1]|by eapply IH].
    + intros x Hx Hx'. apply list_elem_of_fmap in Hx as (ph & -> & _). apply list_elem_of_bind in Hx' as (sh' & Hx' & ?).
      apply list_elem_of_fmap in Hx' as (? & [= <- _] & _). done.
    + by apply (bool_decide_unpack _).
Qed.

Lemma effect_foreign_after s g g1 g2 D : ready s -> effect s g g1 D -> effect s g1 g2 [] -> effect s g g2 D.
Proof. intros R E E'. rewrite <- (app_nil_r D). eapply effect_app; [done| |done|done]. intros x _ Hx. by apply not_elem_of_nil in Hx. Qed.

Lemma commit_buckets_effect s entries buckets : forall g heads heads' g',
  ready s -> commit_buckets s g heads entries buckets = Ok (heads', g') -> effect s g g' [].
Proof.
  induction buckets as [|b buckets IH]; intros g heads heads' g' R; cbn [commit_buckets].
  - intros [= _ <-]. apply effect_nil.
  - intros E. apply outcome_bind_ok in E as (h & _ & E). apply outcome_bind_ok in E as (rt & _ & E). destruct (_ && _); [done|].
    apply outcome_bind_ok in E as (v & _ & E). apply outcome_bind_ok in E as (puts & Ep & E). apply IH in E; [|done].
    eapply effect_foreign_after; [done| |exact E]. eapply effect_foreign; [reflexivity|done|intros; apply sets_blob|].
    intros t k Ht Hk. apply (sets_other (fun k => ~ tree_key t k)); [|by intros Hn; apply Hn]. apply Forall_app. split; [by eapply global_puts|].
    destruct (global_head_version_put b v) eqn:Eg; [|constructor]. repeat constructor. by eapply global_head_key.
Qed.

Lemma history_spec s l ws : history_writes s l = Ok ws -> Forall (fun kv => foreign kv.1) l ->
  exists kept, ws = sets kept /\ Forall (fun kv : bytes * bytes => foreign kv.1) kept.
Proof.
  revert ws. induction l as [|[k v] l IH]; intros ws; cbn [history_writes].
  - intros [= <-] _. by exists [].
  - intros E Hf. inversion_clear Hf as [|? ? Hk Hl]. apply outcome_bind_ok in E as (old & _ & E). apply outcome_bind_ok in E as (ws' & Ew & E). destruct (IH _ Ew Hl) as (kept & -> & Hkept).
    injection E as <-. destruct (bool_decide _); [by exists kept|]. exists ((k, v) :: kept). split; [done|]. by constructor.
Qed.

Lemma foreign_sets puts t k : Forall (fun kv : bytes * bytes => foreign kv.1) puts -> app_tree t -> tree_key t k -> raw_put (sets puts) k = None.
Proof. intros Hf Ht Hk. apply (sets_other foreign); [done|]. intros Hn. by apply (Hn t). Qed.

(** All the phases staged are committed. *)
Lemma stage_commit_effect s frame cursor history cached result meta heads g :
  ready s -> Forall (fun kv => foreign kv.1) history -> (forall k, cursor = Some k -> foreign k) ->
  stage_commit s frame cursor history cached = Ok (result, meta, heads, g) ->
  effect s (mkStaged [] ∅) g (shard_keys s cached ≫= fun sh => (sh,.) <$> [0; 1; 2; 3]%nat).
Proof.
  intros R Hh Hc E. unfold stage_commit in E. apply outcome_bind_ok in E as ([[[r m] es] g1] & E1 & E). apply outcome_bind_ok in E as ([hs g2] & E2 & E).
  apply outcome_bind_ok in E as (ws & Ew & E). injection E as <- <- <- <-.
  apply commit_shards_effect in E1; [|done|apply NoDup_remove_dups]. apply commit_buckets_effect in E2; [|done].
  eapply effect_foreign_after; [done|eapply effect_foreign_after; [done|exact E1|exact E2]|]. destruct (history_spec _ _ _ Ew Hh) as (kept & -> & Hk).
  eapply effect_foreign; [reflexivity|done| |].
  - intros ph sh id. rewrite !blob_put_app, records_blob, sets_blob. by destruct cursor.
  - intros t k Ht Htk. rewrite !raw_put_app, (foreign_sets kept t) by done.
    rewrite (records_other foreign) by ((by intros Hn; apply (Hn t)) || (apply Forall_forall; intros [k' v'] Hx%elem_of_map_to_list; by eapply r_records)).
    cbn [raw_put]. rewrite bool_decide_eq_false_2 by (intros ->; by eapply size_key). destruct cursor as [ck|]; cbn [raw_put later]; [|done].
    rewrite bool_decide_eq_false_2; [done|]. intros ->. by apply (Hc ck eq_refl t).
Qed.

Lemma staged_committed s cached sh ph leaves :
  ready s -> pending s !! (sh, ph) = Some leaves -> (sh, ph) ∈ (shard_keys s cached ≫= fun sh => (sh,.) <$> [0; 1; 2; 3]%nat).
Proof.
  intros R E. destruct (st_phase _ _ (r_staged s R) _ _ _ E) as [Hp _]. apply list_elem_of_bind. exists sh. split.
  - apply list_elem_of_fmap. exists ph. split; [done|]. repeat (destruct ph as [|ph]; [set_solver|]). lia.
  - unfold shard_keys. apply elem_of_remove_dups, elem_of_app. left. apply list_elem_of_fmap. exists (sh, ph, leaves). split; [done|]. by apply elem_of_map_to_list.
Qed.
End commit.
