(* ===== verification/HypergraphCorrect.v ===== *)
(** * Correctness of the hypergraph

    Every run of batches, discards and commits is a run on two maps: the committed
    contents and the current ones.  Reads return what is visible in the current
    map, size buckets hold its live sizes, a discard goes back to the committed
    map, and an operation that fails changes nothing. *)

From Stdlib Require Import Strings.Byte.
From stdpp Require Import gmap sorting.
From S2P Require Import Prelude Bytes Node Tree TreeCodec VertexCommit Merkle CoinTree ShardPaths Hypergraph HypergraphSpec HypergraphCommit.

(** ** Restoring sizes *)

Lemma restore_lookup base meta k : restore_sizes base meta !! k = match base !! k with Some b => b | None => meta !! k end.
Proof.
  unfold restore_sizes. revert k. apply (map_fold_weak_ind (fun r (b : gmap bytes (option (Z * Z))) => forall k, r !! k = match b !! k with Some x => x | None => meta !! k end)).
  - intros k. by rewrite lookup_empty.
  - intros i x b r Hi IH k. destruct (decide (k = i)) as [->|Hne].
    + rewrite lookup_insert_eq. destruct x; [by rewrite lookup_insert_eq|by rewrite lookup_delete_eq].
    + rewrite lookup_insert_ne by done. rewrite <- IH. destruct x; [by rewrite lookup_insert_ne|by rewrite lookup_delete_ne].
Qed.

Section correct.
Context `{Sha512} `{Sha256} `{BigIntBytes} `{Shake256} {ST : HypergraphStore} {FA : ForestApi} {LS : LawfulStore} {LF : LawfulForest}.
Implicit Types (s : HypergraphCrdt) (m : contents).

Definition discarded s : HypergraphCrdt := (discard_staged_mutations s).2.

Lemma discarded_publish s p next : discarded (publish s p next) = discarded s.
Proof.
  unfold discarded, discard_staged_mutations, publish. cbn [snd db sub_meta staged_sizes_base phase_versions global_versions forest_version
    unified_tree exact_sizes app_shard_prefixes app_shard_bit_paths shard_metadata]. f_equal.
  apply map_eq. intros k. rewrite !restore_lookup, !lookup_union, map_lookup_imap.
  destruct (staged_sizes_base s !! k) as [b|]; simpl; [by destruct (next !! k)|]. destruct (next !! k); simpl; [done|]. by destruct (sub_meta s !! k).
Qed.

Lemma discarded_apply s ops r s' : apply_mutations s ops = (r, s') -> discarded s' = discarded s.
Proof.
  unfold apply_mutations. destruct (prepared ← _; _) as [x| |] eqn:E; intros [= <- <-]; [|done..].
  apply outcome_bind_ok in E as (p & _ & E). apply outcome_bind_ok in E as (next & _ & [= <-]). by apply discarded_publish.
Qed.

(** A state with nothing staged. *)
Definition clean s : Prop := pending s = ∅ /\ pending_blobs s = ∅ /\ pending_records s = ∅ /\ staged_sizes_base s = ∅.
Lemma discarded_clean s : clean s -> discarded s = s.
Proof.
  intros (E1 & E2 & E3 & E4). unfold discarded, discard_staged_mutations. cbn [snd]. destruct s; simpl in *; subst. f_equal.
Qed.
Lemma discard_clean s : clean (discarded s).
Proof. done. Qed.
Lemma discard_ready s : ready s -> ready (discarded s).
Proof. intros [R1 R2 R3 R4 R5 R6]. split; [done|apply staged_empty| |done|done|done]. intros k v. change ((∅ : gmap bytes (option bytes)) !! k = Some v -> foreign k). by rewrite lookup_empty. Qed.

(** ** A commit *)

Lemma commit_failed s frame cursor history r s' :
  commit_inner s frame cursor history = (r, s') -> is_ok r = false -> s' = s.
Proof.
  unfold commit_inner. destruct (_ ← _; _) as [cached| |]; [|by intros [= <- <-]..].
  assert (Hd : drop_pending s (drained s) = s).
  { unfold drop_pending, drained. destruct s; cbn. f_equal; [| |by rewrite (left_id_L ∅ (∪))]; apply map_eq; intros k; rewrite lookup_union_with, lookup_empty; by destruct (_ !! k). }
  destruct ('(_, _, _, _) ← _; _) as [[res x]| |]; intros [= <- <-]; [done|by rewrite Hd..].
Qed.

(** A tree of the state after a commit is settled, and its leaves are those before
    it under the ones staged. *)
Lemma committed_tree_state s g db' heads meta D t :
  ready s -> effect s (mkStaged [] ∅) g D -> txn_commit (db s) (txn g) = Ok db' -> app_tree t ->
  let s' := committed (drained s) db' (versions g) heads meta in
  settled (db s') t (base_version s' t) /\
  ((exists x leaves, touched s D t x leaves /\
      forall k, length k = 32%nat -> leaf_of (db s') t (version_of s' t) k = later (leaves !! k) (leaf_of (db s) t (version_of s t) k))
   \/ ((forall x leaves, ~ touched s D t x leaves) /\ forall k, leaf_of (db s') t (version_of s' t) k = leaf_of (db s) t (version_of s t) k)).
Proof.
  intros R (ws & Etx & _ & Htree) Ecommit Ht s'. cbn [txn app] in Etx. subst ws.
  assert (Hraw : forall k, raw_of (db s') k = default (raw_of (db s) k) (raw_put (txn g) k)) by (intros q; rewrite (commit_raw _ _ _ Ecommit); apply raw_after_put).
  assert (Hvs : phase_versions s' = versions g ∪ phase_versions s) by done.
  destruct (Htree t) as [([sh ph] & leaves & v & Hx & Hv & [C1 (root & puts & C2 & C3)])|(Hn & Hv & Hr)].
  - assert (Hhd : head_version s' t = Some v) by (unfold head_version; by rewrite Hvs, (lookup_union_Some_l _ _ _ _ Hv)).
    destruct (commit_leaves (db s) t (base_version s t) v (map_to_list leaves) root puts (db s')) as [Hst Hlf];
      [done|by apply (r_settled s R)|done|done|apply NoDup_fst_map_to_list| | |].
    + destruct Hx as (_ & Ep & _). apply Forall_forall. intros [q x] Hq%elem_of_map_to_list. eapply (st_keys _ _ (r_staged s R) sh ph). unfold phase_get. rewrite Ep. exact Hq.
    + intros q Hq. rewrite Hraw, raw_after_put, C3 by done. done.
    + split; [unfold base_version; by rewrite Hhd|]. left. exists (sh, ph), leaves. split; [done|]. intros k Hk. replace (version_of s' t) with v by (unfold version_of; by rewrite Hhd).
      rewrite (Hlf k Hk), list_to_map_to_list, (base_leaf s t k R Ht). by destruct (leaves !! k).
  - destruct (tree_frame (db s) (db s') t Ht) as (Eh & Er & Elf & Hset). { intros q Hq. rewrite Hraw, Hr by done. done. }
    assert (Hhd : head_version s' t = head_version s t).
    { unfold head_version. rewrite Hvs, lookup_union, Hv. cbn [versions]. by rewrite lookup_empty, (left_id_L None union), Eh. }
    split; [|right; split; [done|]; intros k; unfold version_of; by rewrite Hhd, Elf].
    unfold base_version. rewrite Hhd, Er. apply Hset, (r_settled s R t Ht).
Qed.

(** The contents of the state after a commit are those before it. *)
Lemma committed_holds s g db' heads meta D m :
  ready s -> effect s (mkStaged [] ∅) g D -> (forall x leaves, pending s !! x = Some leaves -> x ∈ D) ->
  txn_commit (db s) (txn g) = Ok db' -> holds (blob_at s) (leaf_at s) m ->
  let s' := committed (drained s) db' (versions g) heads meta in holds (blob_at s') (leaf_at s') m.
Proof.
  intros R Heff HD Ecommit Hm s' a l sh Ha Hl Esh.
  assert (Hb : forall ph id, blob_at s' sh ph id = blob_at s sh ph id).
  { destruct Heff as (ws & Etx & Hblob & _). cbn [txn app] in Etx. subst ws. intros ph id.
    unfold blob_at, s'. cbn [pending_blobs committed drained db]. rewrite phase_get_empty. rewrite (commit_blobs _ _ _ Ecommit), blob_after_put, Hblob.
    case_bool_decide as Hx; [by destruct (phase_get _ _ _ _)|]. unfold phase_get. destruct (pending s !! (sh, ph)) as [e|] eqn:Ep; [by destruct (Hx (HD _ _ Ep))|].
    by rewrite (st_blobs _ _ (r_staged s R) _ Ep). }
  assert (Hlf : forall ph k, (ph < 4)%nat -> length k = 32%nat -> leaf_at s' sh ph k = leaf_at s sh ph k).
  { intros ph k Hph Hk. unfold leaf_at. replace (phase_get (pending s') sh ph k) with (@None bytes) by (unfold s'; cbn [pending committed drained]; by rewrite phase_get_empty).
    unfold committed_leaf, leaf_tree. change (unified_tree s') with (unified_tree s). rewrite (r_unified s R).
    assert (Ht : app_tree (l2 sh, ph)) by (split; [simpl; rewrite (shard_key_app _ _ Esh); apply Hl|done]).
    destruct (committed_tree_state s g db' heads meta D (l2 sh, ph) R Heff Ecommit Ht) as [_ [([sh' ph'] & leaves & (_ & Ep & Et) & E)|[Hn E]]]; fold s' in E.
    - injection Et as Ea <-. destruct (st_phase _ _ (r_staged s R) _ _ _ Ep) as [_ L]. assert (sh' = sh) as -> by (apply shard_of_app; [done|by exists l|done]).
      rewrite (E k Hk). unfold phase_get, later. rewrite Ep. cbn [mbind option_bind]. by destruct (leaves !! k).
    - rewrite E. unfold phase_get. destruct (pending s !! (sh, ph)) as [e|] eqn:Ep; [|done]. by destruct (Hn (sh, ph) e (conj (HD _ _ Ep) (conj Ep eq_refl))). }
  destruct (Hm a l sh Ha Hl Esh) as (M1 & M2 & M3 & M4). rewrite !Hb. split; [done|]. split; [done|]. split; [done|]. intros z Hz. rewrite Hlf by (apply Hl || lia). by apply M4.
Qed.

Lemma commit_stands s m frame cursor history result s' :
  ready s -> Forall (fun kv => foreign kv.1) history -> (forall k, cursor = Some k -> foreign k) -> stands_for s m ->
  commit_inner s frame cursor history = (Ok result, s') -> stands_for s' m /\ ready s' /\ clean s'.
Proof.
  intros R Hh Hc [Hm Hs]. unfold commit_inner. destruct (_ ← new_transaction _; _) as [cached| |]; [|done..].
  destruct ('(_, _, _, _) ← _; _) as [[res x]| |] eqn:E; intros [= <- <-].
  apply outcome_bind_ok in E as ([[[res' meta] heads] g] & Eg & E). apply outcome_bind_ok in E as (db' & Ec & [= <- <-]).
  pose proof (stage_commit_effect _ _ _ _ _ _ _ _ _ R Hh Hc Eg) as Heff. split; [split; [|exact Hs]|split; [|done]].
  - eapply committed_holds; [done|exact Heff| |exact Ec|exact Hm]. intros [sh ph] leaves Ep. by eapply staged_committed.
  - split; [apply (r_unified s R)|apply staged_empty|intros k v; change ((∅ : gmap bytes (option bytes)) !! k = Some v -> foreign k); by rewrite lookup_empty|apply (r_forest s R)| |].
    + intros t v. cbn [phase_versions committed drained]. rewrite lookup_union_Some_raw. intros [Hv|[_ Hv]]; [|by eapply (r_versions s R)].
      destruct Heff as (ws & _ & _ & Ht). destruct (Ht t) as [(y & e & v' & _ & Hv' & Hct)|(_ & Hv' & _)]; [|cbn [versions] in Hv'; rewrite lookup_empty in Hv'; congruence].
      assert (v' = v) as <- by congruence. pose proof (next_version_spec _ _ (ct_version _ _ _ _ _ Hct)) as Hnv.
      destruct (base_version s t) as [w|] eqn:Eb; [|lia]. pose proof (base_nonneg s t w R Eb). lia.
    + intros t Ht. by eapply committed_tree_state.
Qed.

(** ** Reads *)

Lemma read_visible s m a l r :
  holds (blob_at s) (leaf_at s) m -> (a = 0 \/ a = 2)%nat -> addressed l -> get_data_checked a s l = Ok r -> r = visible m a l.
Proof.
  intros Hm Ha Hl E. unfold get_data_checked in E. apply outcome_bind_ok in E as (sh & Esh & E). destruct (Hm a l sh Ha Hl Esh) as (Hb & Hr & _).
  apply outcome_bind_ok in E as (rm & Erm & E). apply read_blob_at in Erm. rewrite Hr in Erm. unfold visible, stone_of in *.
  destruct (m !! (a, l)) as [[d st]|]; cbn [fmap option_fmap option_map mbind option_bind e_data e_stone] in *.
  - destruct st as [z|].
    + rewrite bool_decide_eq_false_2 in Erm by done. subst rm. injection E as <-. by destruct d.
    + rewrite bool_decide_eq_true_2 in Erm by done. subst rm. apply outcome_bind_ok in E as (b & Eb & [= <-]). apply read_blob_at in Eb. rewrite Hb in Eb. subst b. by destruct d.
  - rewrite bool_decide_eq_true_2 in Erm by done. subst rm. apply outcome_bind_ok in E as (b & Eb & [= <-]). apply read_blob_at in Eb. rewrite Hb in Eb. by subst b.
Qed.

(** ** Runs *)

Inductive event : Type :=
| Batch (ops : list Mutation)
| Discard
| Commit (frame : Z) (cursor : option bytes) (history : list (bytes * bytes)).

Definition event_ok (e : event) : Prop :=
  match e with
  | Batch ops => Forall op_ok ops /\ Forall records_ok ops
  | Discard => True
  | Commit _ cursor history => Forall (fun kv => foreign kv.1) history /\ forall k, cursor = Some k -> foreign k
  end.

(** An event on a state, and on the committed and current contents when it
    succeeds. *)
Definition handle s (e : event) : bool * HypergraphCrdt :=
  match e with
  | Batch ops => let '(r, s') := apply_mutations s ops in (is_ok r, s')
  | Discard => (true, (discard_staged_mutations s).2)
  | Commit frame cursor history => let '(r, s') := commit_inner s frame cursor history in (is_ok r, s')
  end.
Definition spec_event (c : contents * contents) (e : event) : contents * contents :=
  match e with
  | Batch ops => (c.1, foldl spec_op c.2 ops)
  | Discard => (c.1, c.1)
  | Commit _ _ _ => (c.2, c.2)
  end.
Fixpoint run s (c : contents * contents) (events : list event) : HypergraphCrdt * (contents * contents) :=
  match events with
  | [] => (s, c)
  | e :: rest => let '(ok, s') := handle s e in run s' (if ok then spec_event c e else c) rest
  end.

(** [s] with committed contents [c.1] and current contents [c.2]. *)
Definition simulates s (c : contents * contents) : Prop := ready s /\ stands_for (discarded s) c.1 /\ stands_for s c.2.

Lemma handle_simulates s c e ok s' :
  event_ok e -> simulates s c -> handle s e = (ok, s') -> simulates s' (if ok then spec_event c e else c).
Proof.
  intros He (R & H0' & H1'). destruct e as [ops| |frame cursor history]; cbn [handle event_ok spec_event] in *.
  - destruct He as [Ho Hr]. destruct (apply_mutations s ops) as [r x] eqn:E. intros [= <- <-]. split; [by eapply apply_ready|].
    rewrite (discarded_apply _ _ _ _ E). destruct r as [[]| |]; cbn [is_ok]; [split; [done|]; by eapply apply_stands|..].
    all: by rewrite (apply_error _ _ _ _ E).
  - intros E. apply pair_equal_spec in E as [<- <-]. fold (discarded s). unfold simulates. rewrite (discarded_clean _ (discard_clean s)).
    split; [by apply discard_ready|done].
  - destruct He as [Hh Hc]. destruct (commit_inner s frame cursor history) as [r x] eqn:E. intros [= <- <-]. destruct r as [res| |]; cbn [is_ok].
    + destruct (commit_stands _ _ _ _ _ _ _ R Hh Hc H1' E) as (Hst & Hrd & Hcl). split; [done|]. by rewrite (discarded_clean _ Hcl).
    + by rewrite (commit_failed _ _ _ _ _ _ E).
    + by rewrite (commit_failed _ _ _ _ _ _ E).
Qed.

Lemma events_simulate events : forall s c, Forall event_ok events -> simulates s c -> simulates (run s c events).1 (run s c events).2.
Proof.
  induction events as [|e events IH]; intros s c He Hs; cbn [run]; [done|]. inversion_clear He. destruct (handle s e) as [ok s'] eqn:E.
  apply IH; [done|]. by eapply handle_simulates.
Qed.

Lemma clean_simulates s m : ready s -> clean s -> stands_for s m -> simulates s (m, m).
Proof. intros R Hc Hm. split; [done|]. by rewrite (discarded_clean _ Hc). Qed.

(** C13. In unified mode (one tree per application and phase), over a store and a
    forest that keep their laws, take a state with nothing staged whose trees hold
    no value newer than the version their next commit builds on, and any run of
    batches on 32-byte addresses, discards and commits whose record, history and
    cursor keys are outside the keys of the trees, failures included.  The run is a
    run on two finite maps: a batch that succeeds applies its mutations to the
    current map, a commit makes it the committed one, a discard goes back to the
    committed one, a failed batch or commit changes neither.  Reads that succeed
    return the entry visible in the current map (removed entries never are), and
    with exact sizes each size bucket holds the number of vertices and the live size
    of its sub-shard. *)
Theorem crdt_refines_sets s m events a l r b :
  ready s -> clean s -> stands_for s m -> Forall event_ok events -> (a = 0 \/ a = 2)%nat -> addressed l ->
  let '(s', (saved, now)) := run s (m, m) events in
  (get_data_checked a s' l = Ok r -> r = visible now a l) /\
  (get_data_checked a (discard_staged_mutations s').2 l = Ok r -> r = visible saved a l) /\
  (exact_sizes s' = true ->
     default (0, 0) (sub_meta s' !! b) = (bucket_count (route_of s') now b, bucket_size (route_of s') now b)).
Proof.
  intros R Hc Hm He Ha Hl. pose proof (events_simulate events _ _ He (clean_simulates _ _ R Hc Hm)) as (_ & H0' & H1').
  destruct (run s (m, m) events) as [s' [saved now]]. cbn [fst snd] in *. destruct H0' as [H0' _], H1' as [H1' Hz].
  split; [by eapply read_visible|]. split; [by eapply read_visible|]. intros Hex. by apply Hz.
Qed.

(** ** Removal is final *)

Definition gone (a : nat) (l : Location) m : Prop := stone_of m a l <> None.

Lemma spec_op_gone a l m op : gone a l m -> gone a l (spec_op m op).
Proof.
  unfold gone, stone_of. intros Hg. destruct op as [l' d|l'|l' d|l'|k v]; cbn [spec_op]; unfold stone_of, data_of; [| | |..|done].
  - destruct (decide ((0%nat, l') = (a, l))) as [[= <- <-]|?]; [by rewrite lookup_insert_eq|by rewrite lookup_insert_ne].
  - destruct (decide ((0%nat, l') = (a, l))) as [[= <- <-]|?]; [by rewrite lookup_insert_eq|by rewrite lookup_insert_ne].
  - destruct (m !! (2%nat, l') ≫= e_stone) eqn:E; [done|]. destruct (decide ((2%nat, l') = (a, l))) as [[= <- <-]|?]; [congruence|by rewrite lookup_insert_ne].
  - destruct (decide ((2%nat, l') = (a, l))) as [[= <- <-]|?]; [by rewrite lookup_insert_eq|by rewrite lookup_insert_ne].
Qed.
Lemma batch_gone a l ops : forall m, gone a l m -> gone a l (foldl spec_op m ops).
Proof. induction ops as [|op ops IH]; intros m Hg; cbn [foldl]; [done|]. by apply IH, spec_op_gone. Qed.
Lemma run_gone a l events : forall s c, gone a l c.1 -> gone a l c.2 -> gone a l (run s c events).2.1 /\ gone a l (run s c events).2.2.
Proof.
  induction events as [|e events IH]; intros s c H0' H1'; cbn [run]; [done|]. destruct (handle s e) as [ok s']. apply IH.
  all: destruct ok; [|done]; destruct e; cbn [spec_event fst snd]; auto using batch_gone.
Qed.

(** Removal is final: once the removal of a vertex or hyperedge is committed,
    no later batch, discard or commit brings it back; every read of it that
    succeeds returns nothing. *)
Theorem removal_is_final s m events a l r :
  ready s -> clean s -> stands_for s m -> Forall event_ok events -> (a = 0 \/ a = 2)%nat -> addressed l ->
  stone_of m a l <> None -> get_data_checked a (run s (m, m) events).1 l = Ok r -> r = None.
Proof.
  intros R Hc Hm He Ha Hl Hg E. pose proof (events_simulate events _ _ He (clean_simulates _ _ R Hc Hm)) as (_ & _ & [H1' _]).
  destruct (run_gone a l events s (m, m) Hg Hg) as [_ Hn]. rewrite (read_visible _ _ _ _ _ H1' Ha Hl E). unfold visible, gone, stone_of in *.
  destruct ((run s (m, m) events).2.2 !! (a, l)) as [[d [z|]]|]; [by destruct d|by destruct Hn|by destruct Hn].
Qed.

(** ** Success of a batch *)

(** The store and the forest answer. *)
Record readable s : Prop := {
  rd_blobs ph sh id : is_ok (load_vertex_underlying_raw (db s) ph sh id) = true;
  rd_heads t : is_ok (read_head_version (db s) t) = true;
  rd_leaves t v k : is_ok (serve_value (db s) t v k) = true;
}.

(** A location has a shard key and a sub-shard. *)
Definition routed s (l : Location) : Prop :=
  is_ok (shard_key_for_location l) = true /\ forall data, is_ok (sub_shard_id_for s (app_address l) data) = true.
Definition op_routed s (op : Mutation) : Prop :=
  match op with
  | AddVertex l _ | AddHyperedge l _ | RemoveVertex l | RemoveHyperedge l => routed s l
  | RecordMutation _ _ => True
  end.

Lemma is_ok_ex {A} (o : outcome A) : is_ok o = true -> exists x, o = Ok x.
Proof. destruct o; [by eauto|done|done]. Qed.

Lemma read_blob_total s sh ph id : readable s -> read_blob_checked s sh ph id = Ok (blob_at s sh ph id).
Proof.
  intros R. destruct (is_ok_ex (read_blob_checked s sh ph id)) as [x E]; [|rewrite E; f_equal; by apply read_blob_at].
  unfold read_blob_checked. destruct (phase_get _ _ _ _); [done|apply R].
Qed.
Lemma prepared_read_total p s sh ph id : readable s -> prepared_read p s sh ph id = Ok (blob_in p s sh ph id).
Proof. intros R. unfold prepared_read, blob_in. destruct (phase_get _ _ _ _); [done|by apply read_blob_total]. Qed.

Lemma tombstone_total p s sh ph id :
  readable s -> (forall data, is_ok (sub_shard_id_for s (l2 sh) data) = true) -> exists r, prepared_tombstone_size p s sh ph id = Ok r /\ 0 <= r <= u64_max.
Proof.
  intros R Hs. assert (Hw : forall z, 0 <= wrap_u64 z <= u64_max) by (intros z; pose proof (wrap_u64_range z); unfold_ints; unfold u64_max; lia).
  unfold prepared_tombstone_size. destruct (phase_get _ _ _ _); [by eauto|]. unfold staged_tombstone_size. destruct (phase_get _ _ _ _); [by eauto|].
  unfold committed_leaf_size. assert (exists id', leaf_tree s (l2 sh) (take 32 (drop 32 id)) = Ok id') as [id' ->].
  { unfold leaf_tree. destruct (unified_tree s); [by eauto|]. apply is_ok_ex, Hs. }
  cbn [mbind outcome_bind]. assert (exists h, resolve_phase_version_checked s (id', ph) = Ok h) as [h ->].
  { unfold resolve_phase_version_checked. destruct (phase_versions s !! _); [by eauto|]. apply is_ok_ex, R. }
  cbn [mbind outcome_bind]. destruct (is_ok_ex _ (rd_leaves s R (id', ph) (default (forest_version s) h) (shard_path_key_hash (take 32 (drop 32 id))))) as [v Ev].
  rewrite Ev. cbn [mbind outcome_bind]. eexists. split; [reflexivity|]. destruct v; simpl; [apply Hw|unfold u64_max; lia].
Qed.

(** A change of at most one vertex and of at most [u64] bytes. *)
Definition small (ch : list (bytes * Z * Z)) : Prop := Forall (fun c : bytes * Z * Z => 0 <= c.1.2 <= 1 /\ Z.abs c.2 <= u64_max) ch.
Definition steps_to (p p' : PreparedMutations) : Prop := exists ch, metadata p' = metadata p ++ ch /\ (length ch <= 1)%nat /\ small ch.

Lemma bump_total q p s sh l c z :
  routed s l -> shard_key_for_location l = Ok sh -> metadata q = metadata p -> 0 <= c <= 1 -> Z.abs z <= u64_max ->
  exists p', bump q s sh l c z = Ok p' /\ steps_to p p'.
Proof.
  intros [_ Hr] Esh Em Hc Hz. unfold bump. case_bool_decide.
  - eexists. split; [done|]. exists []. rewrite app_nil_r. split; [done|]. split; [simpl; lia|constructor].
  - rewrite (shard_key_app _ _ Esh). destruct (is_ok_ex _ (Hr (data_address l))) as [id ->]. cbn [mbind outcome_bind].
    eexists. split; [reflexivity|]. exists [(id, c, z)]. cbn [metadata]. rewrite Em. split; [done|]. split; [simpl; lia|]. by apply Forall_singleton.
Qed.

Lemma keep_total p q : metadata q = metadata p -> exists p', Ok q = Ok p' /\ steps_to p p'.
Proof. intros E. eexists. split; [done|]. exists []. rewrite app_nil_r. split; [done|]. split; [simpl; lia|constructor]. Qed.

Lemma add_total s p m l d a :
  readable s -> routed s l -> addressed l -> (a = 0 \/ a = 2)%nat -> Z.of_nat (length d) <= u64_max -> holds (blob_in p s) (leaf_in p s) m ->
  exists p', prepare_add s p l d a = Ok p' /\ steps_to p p'.
Proof.
  intros R Hr Hl Ha Hd Hm. unfold prepare_add. destruct (is_ok_ex _ (proj1 Hr)) as [sh Esh]. rewrite Esh. cbn [mbind outcome_bind].
  destruct (Hm a l sh Ha Hl Esh) as (Hb & _ & Hlen & _). rewrite !prepared_read_total by done. cbn [mbind outcome_bind].
  assert (Hstage : forall c : bool, exists p', (replaced ← (if exact_sizes s then Ok (Z.of_nat (length (default [] (blob_in p s sh a (to_id l))))) else Ok 0);
     bump (stage p sh a (to_id l) d None) s sh l (Z.b2z c) (Z.of_nat (length d) - replaced)) = Ok p' /\ steps_to p p').
  { intros c. rewrite Hb. fold (data_of m a l). destruct (exact_sizes s); cbn [mbind outcome_bind]; apply bump_total; try done; try (destruct c; simpl; lia); unfold data_of in *; lia. }
  destruct (a =? 0)%nat; [apply Hstage|]. destruct (bool_decide _); [apply (Hstage false)|by apply keep_total].
Qed.

Lemma remove_total s p m l a :
  readable s -> routed s l -> addressed l -> (a = 0 \/ a = 2)%nat -> holds (blob_in p s) (leaf_in p s) m ->
  exists p', prepare_remove s p l a = Ok p' /\ steps_to p p'.
Proof.
  intros R Hr Hl Ha Hm. unfold prepare_remove. destruct (is_ok_ex _ (proj1 Hr)) as [sh Esh]. rewrite Esh. cbn [mbind outcome_bind].
  destruct (Hm a l sh Ha Hl Esh) as (Hb & _ & Hlen & _). rewrite !prepared_read_total by done. cbn [mbind outcome_bind].
  rewrite Hb. fold (data_of m a l). set (size := Z.of_nat (length (data_of m a l))) in *.
  assert (Hrep : exists r, (if exact_sizes s && bool_decide (blob_in p s sh (a + 1) (to_id l) <> None) then prepared_tombstone_size p s sh (a + 1) (to_id l) else Ok 0) = Ok r /\ 0 <= r <= u64_max).
  { destruct (_ && _); [apply tombstone_total; [done|]; intros; rewrite (shard_key_app _ _ Esh); apply Hr|]. eexists. split; [done|]. unfold u64_max. lia. }
  destruct Hrep as (r & -> & Hrr). cbn [mbind outcome_bind].
  set (q := stage _ sh (a + 1) (to_id l) [] (Some size)). assert (Hq : metadata q = metadata p) by (unfold q; by destruct (bool_decide _)).
  assert (0 <= size) by (unfold size; lia). assert (Hu : forall b : bool, 0 <= Z.b2z b <= 1) by (by intros []).
  destruct (exact_sizes s); [destruct (_ || _); [apply bump_total; try done; lia|by apply keep_total]|].
  destruct (_ || _); [|by apply keep_total]. apply bump_total; try done. destruct (_ && _); lia.
Qed.

Lemma prepare_one_total s p m op :
  readable s -> op_routed s op -> op_ok op -> holds (blob_in p s) (leaf_in p s) m -> exists p', prepare_one s p op = Ok p' /\ steps_to p p'.
Proof.
  intros R Hr Ho Hm. destruct op as [l d|l|l d|l|k v]; cbn [prepare_one op_routed op_ok] in *.
  - destruct Ho. eapply add_total; eauto.
  - eapply remove_total; eauto.
  - destruct Ho. eapply add_total; eauto.
  - eapply remove_total; eauto.
  - by apply keep_total.
Qed.

Lemma prepare_all_total s ops : forall p m,
  readable s -> Forall (op_routed s) ops -> Forall op_ok ops -> holds (blob_in p s) (leaf_in p s) m ->
  exists p' ch, prepare_all s p ops = Ok p' /\ metadata p' = metadata p ++ ch /\ (length ch <= length ops)%nat /\ small ch.
Proof.
  induction ops as [|op ops IH]; intros p m R Hr Ho Hm; cbn [prepare_all].
  - exists p, []. rewrite app_nil_r. repeat split; [done|constructor].
  - apply Forall_cons in Hr as [Hr Hrs], Ho as [Ho Hos]. destruct (prepare_one_total s p m op) as (q & Eq & ch & E1 & E2 & E3); [done..|]. rewrite Eq. cbn [mbind outcome_bind].
    destruct (IH q (spec_op m op)) as (p' & ch' & Ep' & E1' & E2' & E3'); [done..|by eapply prepare_one_ok|].
    exists p', (ch ++ ch'). split; [done|]. rewrite E1', E1, app_assoc. split; [done|]. rewrite length_app. simpl. split; [lia|]. by apply Forall_app.
Qed.

Lemma next_metadata_total meta ch : forall next,
  small ch ->
  (forall b, 0 <= (tally meta next b).1 /\ (tally meta next b).1 + Z.of_nat (length ch) <= u64_max /\
             Z.abs (tally meta next b).2 + Z.of_nat (length ch) * u64_max <= i128_max) ->
  exists next', next_metadata meta next ch = Ok next'.
Proof.
  induction ch as [|[[id c] z] ch IH]; intros next Hs Hb; cbn [next_metadata]; [by eauto|]. apply Forall_cons in Hs as [[Hc Hz] Hs]. simpl in Hc, Hz.
  fold (tally meta next id). pose proof (Hb id) as (B0 & B1 & B2). cbn [length] in B1, B2. unfold i128_max, u64_max in *.
  assert (Ee : next_bucket (tally meta next id) c z = Ok ((tally meta next id).1 + c, (tally meta next id).2 + z)).
  { unfold next_bucket. rewrite (proj2 (Z.leb_le 0 c)) by lia. rewrite wrap_u64_id by (unfold_ints; lia). unfold u64_max, i128_min, i128_max.
    rewrite (proj2 (Z.leb_le _ _)) by lia. cbn [mbind outcome_bind]. rewrite !(proj2 (Z.leb_le _ _)) by lia. done. }
  rewrite Ee. cbn [mbind outcome_bind]. apply IH; [done|]. intros b. specialize (Hb b). cbn [length] in Hb. rewrite tally_insert.
  case_bool_decide as Ei; [subst id; cbn [fst snd]; lia|lia].
Qed.

(** C14. A batch of [n] mutations on well-formed, routed locations succeeds when the
    store and the forest answer and no bucket is within [n] vertices or [n * u64::MAX]
    bytes of its limits; afterwards every read succeeds and returns the entry
    visible after the mutations, in their order. *)
Theorem batch_accepted s m ops :
  stands_for s m -> readable s -> Forall op_ok ops -> Forall (op_routed s) ops ->
  (forall b, let e := default (0, 0) (sub_meta s !! b) in
     0 <= e.1 /\ e.1 + Z.of_nat (length ops) <= u64_max /\ Z.abs e.2 + Z.of_nat (length ops) * u64_max <= i128_max) ->
  exists s', apply_mutations s ops = (Ok tt, s') /\
    forall a l, (a = 0 \/ a = 2)%nat -> addressed l -> routed s l -> get_data_checked a s' l = Ok (visible (foldl spec_op m ops) a l).
Proof.
  intros Hm R Ho Hr Hb. destruct (prepare_all_total s ops no_mutations m) as (p & ch & Ep & Em & Hl & Hs); [done..|apply Hm|]. cbn [no_mutations metadata app] in Em.
  destruct (next_metadata_total (sub_meta s) ch ∅ Hs) as [next En].
  { intros b. unfold tally. rewrite lookup_empty. cbn [default]. specialize (Hb b). cbn zeta in Hb. unfold u64_max in *. nia. }
  assert (Ea : apply_mutations s ops = (Ok tt, publish s p next)).
  { unfold apply_mutations. rewrite Ep. cbn [mbind outcome_bind]. rewrite Em, En. done. }
  exists (publish s p next). split; [done|]. intros a l Ha Hla Hrl. destruct (apply_stands _ _ _ _ Ho Hm Ea) as [Hm' _].
  destruct (is_ok_ex (get_data_checked a (publish s p next) l)) as [r E]; [|rewrite E; f_equal; by eapply read_visible].
  unfold get_data_checked. destruct (is_ok_ex _ (proj1 Hrl)) as [sh ->]. cbn [mbind outcome_bind].
  assert (R' : readable (publish s p next)) by (destruct R; by split).
  rewrite !read_blob_total by done. cbn [mbind outcome_bind]. by destruct (blob_at _ _ (a + 1) _).
Qed.
End correct.
