(* ===== verification/SizeBuckets.v ===== *)
(** * Stored size buckets

    Every commit stores the size buckets with the trees.  What a restart reads
    back are the buckets of the commit, whatever the order the map was written in.
    A concrete store and forest close the file: the laws of the interfaces hold of
    them, and the theorems of the hypergraph apply to a run on them. *)

From Stdlib Require Import Strings.Byte.
From stdpp Require Import gmap sorting.
From S2P Require Import Prelude Bytes Node Tree TreeCodec VertexCommit Merkle CoinTree ShardPaths ShardRouting AppRoot Hypergraph HypergraphSpec HypergraphCommit HypergraphCorrect.

(** ** The codec *)

(** A bucket whose key, count and size fit their fields. *)
Definition bucket_fits (e : bytes * (Z * Z)) : Prop :=
  Z.of_nat (length e.1) < 2 ^ 32 /\ 0 <= e.2.1 <= u64_max /\ i128_min <= e.2.2 <= i128_max.

Lemma i128_round z : i128_min <= z <= i128_max -> i128_of (be_bytes 16 z) = z.
Proof.
  unfold i128_min, i128_max. intros Hz. unfold i128_of. rewrite be_Z_be_bytes. change (8 * Z.of_nat 16) with 128.
  destruct (decide (0 <= z)).
  - rewrite Z.mod_small by lia. by rewrite (proj2 (Z.ltb_lt _ _)) by lia.
  - rewrite <- (Z.mod_unique z (2 ^ 128) (-1) (z + 2 ^ 128)) by lia. rewrite (proj2 (Z.ltb_ge _ _)) by lia. lia.
Qed.

Lemma read_one n e rest m : bucket_fits e -> read_buckets (S n) (put_bucket e ++ rest) m = read_buckets n rest (<[e.1 := e.2]> m).
Proof.
  destruct e as [k [c z]]. intros (Hk & Hc & Hz). cbn [fst snd] in *. unfold put_bucket. cbn [fst snd read_buckets].
  rewrite <- !app_assoc. rewrite (proj2 (Nat.ltb_ge _ 4)) by (rewrite length_app, length_be_bytes; lia).
  rewrite take_app_length' by (by rewrite length_be_bytes). rewrite drop_app_length' by (by rewrite length_be_bytes).
  rewrite be_Z_be_bytes_small by (simpl; lia). rewrite Nat2Z.id.
  rewrite (proj2 (Nat.ltb_ge _ _)) by (rewrite !length_app, !length_be_bytes; lia).
  rewrite take_app_length, drop_app_length. rewrite take_app_length' by (by rewrite length_be_bytes).
  rewrite be_Z_be_bytes_small by (unfold u64_max in Hc; simpl; lia). rewrite <- !drop_drop, drop_app_length. rewrite (drop_app_length' (be_bytes 8 c) _ 8) by (by rewrite length_be_bytes).
  rewrite take_app_length' by (by rewrite length_be_bytes). rewrite i128_round by done.
  rewrite (app_assoc (be_bytes 8 c)). by rewrite drop_app_length' by (rewrite length_app, !length_be_bytes; done).
Qed.

Lemma read_all l : forall m, Forall bucket_fits l -> NoDup l.*1 -> read_buckets (length l) (concat (put_bucket <$> l)) m = list_to_map l ∪ m.
Proof.
  induction l as [|e l IH]; intros m Hf Hnd; cbn [length fmap list_fmap concat].
  - cbn. by rewrite (left_id_L ∅ (∪)).
  - apply Forall_cons in Hf as [He Hf]. cbn [fmap list_fmap] in Hnd. apply NoDup_cons in Hnd as [Hk Hnd]. rewrite read_one by done. rewrite IH by done.
    cbn [list_to_map foldr]. destruct e as [k v]; cbn [fst snd] in *. rewrite <- insert_union_r by (by apply not_elem_of_list_to_map_1). by rewrite insert_union_l.
Qed.

(** The order the map is written in does not matter. *)
Lemma buckets_round_trip meta l :
  l ≡ₚ map_to_list meta -> Z.of_nat (size meta) < 2 ^ 32 -> (forall k e, meta !! k = Some e -> bucket_fits (k, e)) ->
  deserialize_buckets (serialize_buckets l) = meta.
Proof.
  intros Hp Hn Hf. assert (Hlen : length l = size meta) by (rewrite Hp; apply length_map_to_list).
  unfold deserialize_buckets, serialize_buckets. rewrite (proj2 (Nat.ltb_ge _ 4)) by (rewrite length_app, length_be_bytes; lia).
  rewrite take_app_length' by (by rewrite length_be_bytes). rewrite drop_app_length' by (by rewrite length_be_bytes).
  rewrite be_Z_be_bytes_small by (simpl; lia). rewrite Nat2Z.id. rewrite read_all.
  - rewrite (right_id_L ∅ (∪)). rewrite (list_to_map_proper l (map_to_list meta)); [apply list_to_map_to_list| |done].
    rewrite Hp. apply NoDup_fst_map_to_list.
  - rewrite Hp. apply Forall_forall. intros [k e] Hx%elem_of_map_to_list. by apply Hf.
  - rewrite Hp. apply NoDup_fst_map_to_list.
Qed.

Section stored.
Context `{Sha512} `{Sha256} `{BigIntBytes} `{Shake256} {ST : HypergraphStore} {FA : ForestApi} {LS : LawfulStore}.

Lemma commit_stores_buckets s frame cursor history result s' :
  commit_inner s frame cursor history = (Ok result, s') ->
  sub_meta s' = sub_meta s /\ raw_of (db s') SIZE_BUCKETS_KEY = Some (serialize_buckets (map_to_list (sub_meta s))).
Proof.
  unfold commit_inner. destruct (_ ← new_transaction _; _) as [cached| |]; [|done..].
  destruct ('(_, _, _, _) ← _; _) as [[res x]| |] eqn:E; intros [= <- <-].
  apply outcome_bind_ok in E as ([[[res' meta] heads] g] & Eg & E). apply outcome_bind_ok in E as (db' & Ec & [= <- <-]). split; [done|].
  unfold stage_commit in Eg. apply outcome_bind_ok in Eg as ([[[r m] es] g1] & _ & Eg). apply outcome_bind_ok in Eg as ([hs g2] & _ & Eg).
  apply outcome_bind_ok in Eg as (ws & _ & Eg). injection Eg as _ _ _ <-. cbn [txn] in Ec.
  change (db (committed _ db' _ _ _)) with db'. rewrite (commit_raw _ _ _ Ec), raw_after_put, !raw_put_app. cbn [raw_put].
  by rewrite bool_decide_eq_true_2.
Qed.

(** C23. Sizes survive a restart: after a commit, the stored buckets decode to the
    buckets of the state, so a node that reads them back counts from the sizes the
    commit had. *)
Theorem sizes_survive_restart s frame cursor history result s' :
  commit_inner s frame cursor history = (Ok result, s') ->
  Z.of_nat (size (sub_meta s)) < 2 ^ 32 -> (forall k e, sub_meta s !! k = Some e -> bucket_fits (k, e)) ->
  exists stored, raw_of (db s') SIZE_BUCKETS_KEY = Some stored /\ deserialize_buckets stored = sub_meta s'.
Proof.
  intros E Hn Hf. destruct (commit_stores_buckets _ _ _ _ _ _ E) as [-> Hr]. eexists. split; [exact Hr|].
  by apply buckets_round_trip.
Qed.
End stored.

(** ** A concrete store and forest *)

(** Raw keys and blobs in maps; the forest keeps each version of a tree, and the
    head version, under a key of its own. *)
Module DemoStore.
Fixpoint bits (p : positive) : bytes := match p with xH => [] | xO p => x00 :: bits p | xI p => x01 :: bits p end.
Fixpoint unbits (b : bytes) : positive := match b with [] => xH | x00 :: b => xO (unbits b) | _ :: b => xI (unbits b) end.
Lemma unbits_bits p : unbits (bits p) = p.
Proof. induction p; simpl; by f_equal. Qed.

Definition enc `{Countable A} (a : A) : bytes := bits (encode a).
Definition dec `{Countable A} (b : bytes) : option A := decode (unbits b).
Lemma dec_enc `{Countable A} (a : A) : dec (enc a) = Some a.
Proof. unfold dec, enc. by rewrite unbits_bits, countable.decode_encode. Qed.
Lemma enc_inj `{Countable A} (a a' : A) : enc a = enc a' -> a = a'.
Proof. intros E. apply (inj Some). by rewrite <- (dec_enc a), <- (dec_enc a'), E. Qed.

Record store := mkStore { raw : gmap bytes bytes; blob : gmap (nat * ShardKey * bytes) bytes }.
Definition write_one (d : store) (w : write) : store :=
  match w with
  | WSet k v => mkStore (<[k := v]> (raw d)) (blob d)
  | WDelete k => mkStore (base.delete k (raw d)) (blob d)
  | WBlob ph sh id b _ => mkStore (raw d) (<[(ph, sh, id) := b]> (blob d))
  | _ => d
  end.
#[export] Instance api : HypergraphStore := {|
  Db := store; new_transaction _ := Ok tt; get_root_commits _ _ := Ok ∅;
  load_vertex_underlying_raw d ph sh id := Ok (blob d !! (ph, sh, id));
  txn_get d k := Ok (raw d !! k); txn_commit d ws := Ok (foldl write_one d ws) |}.

Lemma write_blobs ws : forall d ph sh id, blob (foldl write_one d ws) !! (ph, sh, id) = blob_after ws (fun ph sh id => blob d !! (ph, sh, id)) ph sh id.
Proof.
  induction ws as [|w ws IH]; intros d ph sh id; cbn [foldl]; [done|]. rewrite IH. destruct w; cbn [write_one blob blob_after]; rewrite !blob_after_put; try done.
  f_equal. rewrite lookup_insert. case_decide as E; case_bool_decide; congruence.
Qed.
Lemma write_raws ws : forall d k, raw (foldl write_one d ws) !! k = raw_after ws (fun k => raw d !! k) k.
Proof.
  induction ws as [|w ws IH]; intros d k; cbn [foldl]; [done|]. rewrite IH. destruct w; cbn [write_one raw raw_after]; rewrite !raw_after_put; try done.
  - f_equal. rewrite lookup_insert. case_decide; case_bool_decide; congruence.
  - f_equal. rewrite lookup_delete. case_decide; case_bool_decide; congruence.
Qed.
#[export] Program Instance api_lawful : LawfulStore := {| blob_of d ph sh id := blob d !! (ph, sh, id); raw_of d k := raw d !! k |}.
Next Obligation. by intros d ph sh id r [= <-]. Qed.
Next Obligation. intros d ws d' [= <-]. apply write_blobs. Qed.
Next Obligation. intros d ws d' [= <-]. apply write_raws. Qed.

Definition tkey (t : tree) (v : option Z) : bytes := x54 :: enc (t, v).
Definition leaves (d : store) (t : tree) (v : Z) : gmap bytes bytes := default ∅ (raw d !! tkey t (Some v) ≫= dec).
Definition root : bytes := replicate 32 x01.
#[export] Instance forest : ForestApi := {|
  read_head_version d t := Ok (raw d !! tkey t None ≫= (fun b => Z.abs <$> dec b));
  shard_phase_root d t v := Ok ((fun _ => root) <$> raw d !! tkey t (Some v));
  serve_value d t v k := Ok (leaves d t v !! k);
  commit_shard_phase_raw_staged d t v ls :=
    Ok (root, [(tkey t (Some v), enc ((list_to_map ls : gmap bytes bytes) ∪ (if v =? 0 then ∅ else leaves d t (v - 1))))]);
  head_version_put t v := Some (tkey t None, enc v);
  read_global_head_version _ _ := Ok None; global_root _ _ _ := Ok None; commit_global_staged _ _ _ _ := Ok [];
  global_head_version_put _ _ := None |}.

Definition rows_settled (d : store) (t : tree) (h : option Z) : Prop :=
  match h with Some w => 0 <= w | None => forall v, raw d !! tkey t (Some v) = None end.
#[export] Program Instance forest_lawful : LawfulForest := {|
  leaf_of d t v k := leaves d t v !! k;
  head_of d t := raw d !! tkey t None ≫= (fun b => Z.abs <$> dec b);
  root_of d t v := (fun _ => root) <$> raw d !! tkey t (Some v);
  tree_key t k := exists v, k = tkey t v;
  settled := rows_settled |}.
Next Obligation. by intros d t r [= <-]. Qed.
Next Obligation. by intros d t v k r [= <-]. Qed.
Next Obligation. by intros d t v r [= <-]. Qed.
Next Obligation. intros d t v E. simpl in E. apply bind_Some in E as (b & _ & E). injection E as <-. apply Z.abs_nonneg. Qed.
Next Obligation. intros d t v k E. simpl in E. unfold leaves. by rewrite E. Qed.
Next Obligation. by intros t _ [v [=]]. Qed.
Next Obligation. intros t t' k _ _ [v ->] [v' [= E]]. apply enc_inj in E. congruence. Qed.
Next Obligation.
  intros d d' t _ E. simpl in E. split; [by rewrite E by eauto|]. split; [intros v; cbv beta; by rewrite E by eauto|].
  split; [intros v k; cbv beta; unfold leaves; by rewrite E by eauto|]. intros [w|] Hs; [done|]. intros v. rewrite E by eauto. apply Hs.
Qed.
Next Obligation. intros d t v ls rt puts _ [= <- <-]. repeat constructor. simpl. by eauto. Qed.
Next Obligation. intros t v kv _ [= <-]. simpl. by eauto. Qed.
Next Obligation. by intros d b v es puts t _ [= <-]. Qed.
Next Obligation. by intros. Qed.
Next Obligation.
  intros d t h v ls rt puts d' _ Hs Hv [= <- <-] _ _ E. apply next_version_spec in Hv. split; [unfold rows_settled in *; destruct h; lia|].
  intros k _. simpl. unfold leaves at 1. simpl in E. rewrite E by eauto.
  assert (Hne : tkey t (Some v) <> tkey t None) by (intros [= Ek]; apply enc_inj in Ek; congruence).
  cbn [head_version_put app fmap list_fmap raw_after fst snd]. rewrite (bool_decide_eq_false_2 _ Hne), bool_decide_eq_true_2 by done.
  cbn [mbind option_bind]. rewrite dec_enc. unfold default, id. cbn [from_option]. rewrite lookup_union.
  assert (Eh : (if v =? 0 then ∅ else leaves d t (v - 1)) !! k = h ≫= fun w => leaves d t w !! k).
  { unfold rows_settled in Hs. destruct h as [w|]; subst v; [|done]. rewrite (proj2 (Z.eqb_neq _ 0)) by lia. cbn [mbind option_bind]. do 2 f_equal. lia. }
  rewrite Eh. destruct ((list_to_map ls : gmap bytes bytes) !! k); by destruct (h ≫= _).
Qed.

(** Nothing stored, nothing staged, one tree per application. *)
#[export] Instance shake_counter : Shake256 := fun _ n => z2b (Z.of_nat n).
Definition empty_crdt : HypergraphCrdt :=
  mkCrdt (mkStore ∅ ∅) ∅ ∅ ∅ ∅ ∅ ∅ ∅ 0 true true ∅ ∅ ∅.
Definition place : Location := mkLocation (replicate 32 x40) (replicate 32 x01).
End DemoStore.

Section demo.
Import DemoStore.
Existing Instances Demo.pad_sha512 demo_sha256 DemoBytes.bigint_bytes.

Lemma empty_ready : ready empty_crdt /\ clean empty_crdt /\ stands_for empty_crdt ∅.
Proof.
  split; [split; [done|apply staged_empty|intros k v; change ((∅ : gmap bytes (option bytes)) !! k = Some v -> foreign k); by rewrite lookup_empty|done| |]|].
  - intros t v. change ((∅ : gmap tree Z) !! t = Some v -> 0 <= v). by rewrite lookup_empty.
  - intros t _. unfold base_version. change (head_version empty_crdt t) with (None : option Z). rewrite bool_decide_eq_false_2 by (intros Hn; by apply Hn). done.
  - split; [done|]. split.
    + intros a l sh _ _ _. unfold data_of, stone_of. rewrite lookup_empty. split; [done|]. split; [done|]. by split.
    + intros _ b. done.
Qed.

Lemma place_addressed : addressed place.
Proof. by split. Qed.
Lemma place_routed s : app_shard_prefixes s = ∅ -> routed s place.
Proof. intros E. split; [done|]. intros data. unfold sub_shard_id_for, app_prefixes. rewrite E, lookup_empty. cbn [default]. by rewrite bool_decide_eq_true_2. Qed.

(** Stage a vertex, commit it, stage its removal, discard that. *)
Definition demo_events : list event :=
  [Batch [AddVertex place [x05]]; Commit 1 None []; Batch [RemoveVertex place; RecordMutation [x41] None]; Discard].
Lemma demo_events_ok : Forall event_ok demo_events.
Proof.
  unfold demo_events. rewrite !Forall_cons. split; [|split; [|split; [|split; [exact I|constructor]]]].
  - split; apply Forall_singleton; [|exact I]. split; [exact place_addressed|]. unfold u64_max. simpl. lia.
  - split; [constructor|discriminate].
  - split; apply Forall_cons; (split; [|apply Forall_singleton]); [exact place_addressed|exact I|exact I|]. by intros t _ [v [=]].
Qed.

(** The vertex committed before the discarded removal is read back. *)
Lemma demo_read : get_data_checked 0 (run empty_crdt (∅, ∅) demo_events).1 place = Ok (Some [x05]).
Proof. vm_compute. reflexivity. Qed.

Lemma crdt_refines_sets_witness :
  ready empty_crdt /\ clean empty_crdt /\ stands_for empty_crdt ∅ /\ Forall event_ok demo_events /\
  let '(s', (_, now)) := run empty_crdt (∅, ∅) demo_events in
  get_data_checked 0 s' place = Ok (Some [x05]) /\ visible now 0 place = Some [x05].
Proof.
  destruct empty_ready as (R & Hc & Hm). split; [exact R|]. split; [exact Hc|]. split; [exact Hm|]. split; [exact demo_events_ok|].
  pose proof (crdt_refines_sets empty_crdt ∅ demo_events 0 place (Some [x05]) [] R Hc Hm demo_events_ok (or_introl eq_refl) place_addressed) as Hr.
  pose proof demo_read as Hd. destruct (run empty_crdt (∅, ∅) demo_events) as [s' [saved now]]. split; [exact Hd|]. symmetry. by apply Hr.
Defined.

Lemma batch_accepted_witness :
  exists s', apply_mutations empty_crdt [AddVertex place [x05]] = (Ok tt, s') /\ get_data_checked 0 s' place = Ok (Some [x05]).
Proof.
  destruct empty_ready as (_ & _ & Hm).
  destruct (batch_accepted empty_crdt ∅ [AddVertex place [x05]]) as (s' & E & Hr).
  - exact Hm.
  - by split.
  - apply Forall_singleton. split; [exact place_addressed|]. unfold u64_max. simpl. lia.
  - apply Forall_singleton. by apply place_routed.
  - intros b. change (sub_meta empty_crdt) with (∅ : gmap bytes (Z * Z)). rewrite lookup_empty. unfold u64_max, i128_max. simpl. lia.
  - exists s'. split; [exact E|]. rewrite (Hr 0%nat place (or_introl eq_refl) place_addressed (place_routed empty_crdt eq_refl)).
    cbn [foldl spec_op]. unfold visible. rewrite lookup_insert_eq. unfold stone_of. rewrite lookup_empty. reflexivity.
Defined.

(** One bucket, nothing staged. *)
Definition counted_crdt : HypergraphCrdt :=
  mkCrdt (mkStore ∅ ∅) ∅ ∅ ∅ {[ [x01] := (1, -5) ]} ∅ ∅ ∅ 0 true true ∅ ∅ ∅.

Lemma sizes_survive_restart_witness :
  exists s', commit_inner counted_crdt 1 None [] = (Ok ∅, s') /\
    exists stored, raw_of (db s') SIZE_BUCKETS_KEY = Some stored /\ deserialize_buckets stored = {[ [x01] := (1, -5) ]}.
Proof.
  eexists. split; [reflexivity|]. apply (sizes_survive_restart counted_crdt 1 None [] ∅).
  - reflexivity.
  - cbn [counted_crdt sub_meta]. rewrite map_size_singleton. reflexivity.
  - intros k e. cbn [counted_crdt sub_meta]. rewrite lookup_singleton_Some. intros [<- <-]. unfold bucket_fits, i128_min, i128_max, u64_max. simpl. lia.
Defined.

(** A committed removal. *)
Definition removed_shard : ShardKey := mkShardKey (replicate 3 x00) (replicate 32 x40).
Definition removed_map : contents := {[ (0%nat, place) := mkEntry [x05] (Some 1) ]}.
Definition removed_leaves : gmap bytes bytes := {[ replicate 32 x01 := sized_tombstone_leaf_value 1 ]}.
Definition removed_store : store :=
  mkStore {[ tkey (replicate 32 x40, 1%nat) (Some 0) := enc removed_leaves ]}
    (<[(0%nat, removed_shard, to_id place) := [x05]]> {[ (1%nat, removed_shard, to_id place) := [] ]}).
Definition removed_crdt : HypergraphCrdt := mkCrdt removed_store ∅ ∅ ∅ ∅ ∅ ∅ ∅ 0 true false ∅ ∅ ∅.

Lemma removed_stands : stands_for removed_crdt removed_map.
Proof.
  split; [|done]. intros a l sh Ha Hl Esh. unfold data_of, stone_of, removed_map, blob_at.
  change (db removed_crdt) with removed_store. change (pending_blobs removed_crdt) with (∅ : PhaseMap). rewrite !phase_get_empty. unfold blob_of, api_lawful.
  cbn [removed_store blob]. destruct (decide ((a, l) = (0%nat, place))) as [[= -> ->]|Hne].
  - assert (Es : sh = removed_shard) by (apply (inj Ok); rewrite <- Esh; reflexivity). subst sh.
    rewrite lookup_insert_eq, lookup_singleton_eq. rewrite lookup_insert_ne by done. cbn [Nat.add]. rewrite lookup_singleton_eq. split; [done|]. split; [done|].
    split; [unfold u64_max; simpl; lia|]. intros z [= <-]. split; [unfold u64_max; lia|]. exists (sized_tombstone_leaf_value 1). split; [|by apply tombstone_value].
    unfold leaf_at. change (pending removed_crdt) with (∅ : PhaseMap). rewrite phase_get_empty. unfold committed_leaf.
    change (leaf_tree removed_crdt (l2 removed_shard) (data_address place)) with (Ok (replicate 32 x40)).
    unfold version_of, head_version. change (phase_versions removed_crdt) with (∅ : gmap tree Z). rewrite lookup_empty. unfold head_of, leaf_of, forest_lawful, leaves.
    change (raw (db removed_crdt)) with ({[ tkey (replicate 32 x40, 1%nat) (Some 0) := enc removed_leaves ]} : gmap bytes bytes).
    rewrite (lookup_singleton_ne _ (tkey _ None)) by (intros [= Ek]; apply enc_inj in Ek; congruence). cbn [mbind option_bind default forest_version removed_crdt].
    unfold default, id. cbn [from_option]. rewrite lookup_singleton_eq. cbn [mbind option_bind]. rewrite dec_enc. cbn [from_option]. apply lookup_singleton_eq.
  - assert (Hx : (a, sh, to_id l) <> (0%nat, removed_shard, to_id place)) by (intros [= -> -> E]; apply Hne; f_equal; apply to_id_inj; [done|apply place_addressed|done]).
    assert (Hy : ((a + 1)%nat, sh, to_id l) <> (1%nat, removed_shard, to_id place)).
    { intros [= Ea -> E]. apply Hne. f_equal; [lia|]. apply to_id_inj; [done|apply place_addressed|done]. }
    assert (Hz : (a, sh, to_id l) <> (1%nat, removed_shard, to_id place)) by (intros [= -> _ _]; lia).
    assert (Hw : ((a + 1)%nat, sh, to_id l) <> (0%nat, removed_shard, to_id place)) by (intros [= Ea _ _]; lia).
    rewrite !lookup_insert_ne, !lookup_singleton_ne by congruence. split; [done|]. split; [done|]. split; [unfold u64_max; simpl; lia|]. intros z [=].
Qed.

Lemma removed_ready : ready removed_crdt.
Proof.
  split; [done|apply staged_empty|intros k v; change ((∅ : gmap bytes (option bytes)) !! k = Some v -> foreign k); by rewrite lookup_empty|done| |].
  - intros t v. change ((∅ : gmap tree Z) !! t = Some v -> 0 <= v). by rewrite lookup_empty.
  - intros t _. unfold base_version, head_version. change (phase_versions removed_crdt !! t) with (None : option Z).
    assert (Eh : head_of (db removed_crdt) t = None).
    { cbn [head_of forest_lawful]. change (raw (db removed_crdt)) with ({[ tkey (replicate 32 x40, 1%nat) (Some 0) := enc removed_leaves ]} : gmap bytes bytes).
      by rewrite lookup_singleton_ne by (intros [= Ek]; apply enc_inj in Ek; congruence). }
    rewrite Eh. case_bool_decide as Er; [done|]. intros v. cbn [root_of forest_lawful] in Er.
    change (raw (db removed_crdt)) with ({[ tkey (replicate 32 x40, 1%nat) (Some 0) := enc removed_leaves ]} : gmap bytes bytes) in *.
    apply lookup_singleton_None. intros [= Ek]. apply enc_inj in Ek as [= <- <-]. apply fmap_None, lookup_singleton_None in Er. by apply Er.
Qed.

Lemma removal_is_final_witness :
  stone_of removed_map 0 place <> None /\
  forall r, get_data_checked 0 (run removed_crdt (removed_map, removed_map) [Batch [AddVertex place [x07]]]).1 place = Ok r -> r = None.
Proof.
  assert (Hg : stone_of removed_map 0 place <> None) by (unfold stone_of, removed_map; rewrite lookup_singleton_eq; discriminate).
  split; [exact Hg|]. intros r. apply (removal_is_final removed_crdt removed_map).
  - exact removed_ready.
  - done.
  - exact removed_stands.
  - apply Forall_singleton. split; apply Forall_singleton; [|exact I]. split; [exact place_addressed|]. unfold u64_max. simpl. lia.
  - by left.
  - exact place_addressed.
  - exact Hg.
Defined.
End demo.
