(* ===== verification/TreeStore.v ===== *)
(** * The tree store: versioned trees in one ordered key-value store

    [RocksTreeStore] of [crates/quil-forest/src/store.rs], the tree identifiers of
    [lib.rs] and the head-version keys of [forest.rs].  A tree keeps its nodes,
    versioned leaf values, stale-node records, preimages and size memos under its
    own prefix, one tag each; reads and sweeps go through bounded iterators.

    The store below ([KvStore] of [overlay.rs], RocksDB or an overlay) is an
    interface: an iterator over [[lo, hi)] is the list of its entries, a batch the
    list of its writes.  Node keys, nodes and size sums of a commit come from the
    Jellyfish tree and appear in their serialized form. *)

From Stdlib Require Import Strings.Byte.
From stdpp Require Import gmap.
From S2P Require Import Prelude Bytes.

(** ** Byte order *)

(** [Ord] of byte slices. *)
Fixpoint blt (a b : bytes) : bool :=
  match a, b with
  | _, [] => false
  | [], _ :: _ => true
  | x :: a', y :: b' => if b2z x <? b2z y then true else if b2z y <? b2z x then false else blt a' b'
  end.
Definition ble (a b : bytes) : bool := negb (blt b a).
Definition starts_with (k p : bytes) : bool := bool_decide (take (length p) k = p).

(** ** The key-value store *)

Inductive kv_op : Type :=
| KPut (key value : bytes)
| KDelete (key : bytes)
| KDeleteRange (lower upper : bytes).

Class KvStore : Type := {
  Kv : Type;
  kv_get : Kv -> bytes -> outcome (option bytes);
  kv_iterator : Kv -> bytes -> bytes -> outcome (list (bytes * bytes));
  kv_write : Kv -> list kv_op -> outcome Kv;
}.

(** [seek]: the entries from [key] on. *)
Fixpoint seek (key : bytes) (es : list (bytes * bytes)) : list (bytes * bytes) :=
  match es with
  | [] => []
  | e :: rest => if blt e.1 key then seek key rest else es
  end.
(** [seek_for_prev]: the last entry at or before [key]. *)
Definition seek_for_prev (key : bytes) (es : list (bytes * bytes)) : option (bytes * bytes) :=
  last (List.filter (fun e => ble e.1 key) es).

(** ** Tree identifiers *)

Record TreeId : Type := mkTreeId { level : byte; id : bytes }.
#[global] Instance TreeId_eq_dec : EqDecision TreeId.
Proof. solve_decision. Defined.

Definition tree_global (index : byte) : TreeId := mkTreeId x01 [index].
Definition tree_app (app_address : bytes) : TreeId := mkTreeId x02 app_address.
Definition tree_shard (shard_id : bytes) : TreeId := mkTreeId x03 shard_id.
Definition tree_shard_phase (shard_id : bytes) (phase : nat) : TreeId := mkTreeId x03 (z2b (Z.of_nat phase) :: shard_id).

(** [TreeId::prefix]: the length is cast to one byte. *)
Definition tree_prefix (t : TreeId) : bytes := level t :: z2b (Z.of_nat (length (id t))) :: id t.
(** [RocksTreeStore::with_backend] *)
Definition store_prefix (namespace : bytes) (t : TreeId) : bytes := namespace ++ tree_prefix t.

(** [Forest::head_version_key] and [global_head_shard_id] *)
Definition head_version_key (namespace shard_id : bytes) (phase : nat) : bytes :=
  namespace ++ xfe :: tree_prefix (tree_shard_phase shard_id phase).
Definition global_head_shard_id (index : byte) : bytes :=
  [x5f; x5f; x6c; x31; x5f; x67; x6c; x6f; x62; x61; x6c; x5f; x68; x65; x61; x64; x5f; x5f] ++ [index].

(** ** Keys *)

Definition TAG_NODE : byte := x6e.
Definition TAG_VALUE : byte := x76.
Definition TAG_STALE : byte := x73.
Definition TAG_PREIMAGE : byte := x70.
Definition TAG_SIZE : byte := x7a.
Definition PRUNE_BATCH : nat := Z.to_nat 16384.

Section keys.
Variable prefix : bytes.

Definition node_key_bytes (node_key : bytes) : bytes := prefix ++ TAG_NODE :: node_key.
Definition value_prefix (key_hash : bytes) : bytes := prefix ++ TAG_VALUE :: key_hash.
Definition value_key (version : Z) (key_hash : bytes) : bytes := value_prefix key_hash ++ be_bytes 8 version.
Definition size_key_bytes (node_key : bytes) : bytes := prefix ++ TAG_SIZE :: node_key.
Definition preimage_key (key_hash : bytes) : bytes := prefix ++ TAG_PREIMAGE :: key_hash.
Definition stale_key_bytes (stale_since_version : Z) (node_key : bytes) : bytes :=
  prefix ++ TAG_STALE :: be_bytes 8 stale_since_version ++ node_key.

(** [tag_bounds], [stale_scan_bounds] *)
Definition tag_bounds (tag : byte) : bytes * bytes := (prefix ++ [tag], prefix ++ [z2b (b2z tag + 1)]).
Definition stale_scan_bounds : bytes * bytes := tag_bounds TAG_STALE.

(** [prefix_upper_bound]: increments the last byte below [0xff]. *)
Fixpoint bump_last (rev : bytes) : option bytes :=
  match rev with
  | [] => None
  | b :: rest => if b2z b =? 255 then bump_last rest else Some (z2b (b2z b + 1) :: rest)
  end.
Definition prefix_upper_bound : option bytes := reverse <$> bump_last (reverse prefix).
End keys.

(** A stored value: [0x01] and the bytes, or [0x00] for a deletion. *)
Definition payload (val : option bytes) : bytes := match val with Some v => x01 :: v | None => [x00] end.
Definition value_of_payload (v : bytes) : option bytes :=
  match v with
  | [] | [x00] => None
  | b :: rest => if b2z b =? 1 then Some rest else None
  end.

(** ** Reads *)

Section store.
Context {K : KvStore}.
Implicit Types (db : Kv) (prefix : bytes).

(** [get_value_option] *)
Definition get_value_option prefix db (max_version : Z) (key_hash : bytes) : outcome (option bytes) :=
  let vp := value_prefix prefix key_hash in
  es ← kv_iterator db vp (vp ++ replicate 8 xff ++ [x00]);
  Ok (match seek_for_prev (vp ++ be_bytes 8 max_version) es with
      | None => None
      | Some (k, v) => if starts_with k vp then value_of_payload v else None
      end).

(** [get_size_sum] and [put_size_sum] *)
Definition get_size_sum prefix db (node_key : bytes) : outcome (option Z) :=
  v ← kv_get db (size_key_bytes prefix node_key);
  Ok (match v with Some b => if (length b =? 16)%nat then Some (be_Z b) else None | None => None end).
Definition put_size_sum prefix db (node_key : bytes) (size : Z) : outcome Kv :=
  kv_write db [KPut (size_key_bytes prefix node_key) (be_bytes 16 size)].

(** [leaves_between].  The end of a key's versions puts its newest value on the
    page; [None] when it does not fit. *)
Definition flush (max_leaves max_bytes : nat) (leaves : list (bytes * bytes)) (nbytes : nat) (current : option (bytes * option bytes))
  : option (list (bytes * bytes) * nat) :=
  match current with
  | Some (key, Some value) =>
      if negb (bool_decide (leaves = [])) && ((max_leaves <=? length leaves)%nat || (max_bytes <? nbytes + length value)%nat) then None
      else Some (leaves ++ [(key, value)], nbytes + length value)%nat
  | _ => Some (leaves, nbytes)
  end.
Definition entry_key (khs : nat) (k : bytes) : option bytes := if (length k =? khs + 40)%nat then Some (take 32 (drop khs k)) else None.
Definition entry_version (khs : nat) (k : bytes) : Z := be_Z (take 8 (drop (khs + 32) k)).
Definition live_value (v : bytes) : option bytes := match v with x01 :: rest => Some rest | _ => None end.
Fixpoint leaves_loop (khs : nat) (version : Z) (max_leaves max_bytes : nat) (leaves : list (bytes * bytes)) (nbytes : nat)
    (current : option (bytes * option bytes)) (es : list (bytes * bytes)) : list (bytes * bytes) * bool :=
  match es with
  | [] => match flush max_leaves max_bytes leaves nbytes current with Some (l, _) => (l, false) | None => (leaves, true) end
  | (k, v) :: rest =>
      let next_key := entry_key khs k in
      let changed := match current, next_key with Some (key, _), Some next => negb (bool_decide (next = key)) | _, _ => false end in
      match (if changed then flush max_leaves max_bytes leaves nbytes current else Some (leaves, nbytes)) with
      | None => (leaves, true)
      | Some (leaves, nbytes) =>
          let current := if changed then None else current in
          let current :=
            match next_key with
            | Some key =>
                let slot := default (key, None) current in
                Some (if entry_version khs k <=? version then (slot.1, live_value v) else slot)
            | None => current
            end in
          leaves_loop khs version max_leaves max_bytes leaves nbytes current rest
      end
  end.
Definition leaves_between prefix db (version : Z) (first last : bytes) (after : option bytes) (max_leaves max_bytes : nat)
  : outcome (list (bytes * bytes) * bool) :=
  let at_key := fun (key : bytes) (past_versions : bool) => prefix ++ TAG_VALUE :: key ++ (if past_versions then replicate 9 xff else []) in
  let lo := at_key first false in
  let hi := at_key last true in
  let start := match after with Some after => let a := at_key after true in if blt a lo then lo else a | None => lo end in
  es ← kv_iterator db lo hi;
  Ok (leaves_loop (length prefix + 1) version max_leaves max_bytes [] 0 None
        (List.filter (fun e => blt e.1 hi) (seek start es))).

(** ** Commits *)

(** [TreeUpdateBatch], serialized, with the size sums of its nodes.  The store adds
    the sums up itself ([batch_size_sums], from the nodes of the batch and their
    stored children) and fails when a read does; here they come with the batch. *)
Record TreeUpdateBatch : Type := mkBatch {
  nodes : list (bytes * bytes);
  values : list (Z * bytes * option bytes);
  stale_node_index_batch : list (Z * bytes);
  size_sums : list (bytes * Z);
}.
(** [update_puts] and [apply_update] *)
Definition update_puts prefix (batch : TreeUpdateBatch) : list (bytes * bytes) :=
  ((fun n => (node_key_bytes prefix n.1, n.2)) <$> nodes batch)
  ++ ((fun v => (value_key prefix v.1.1 v.1.2, payload v.2)) <$> values batch)
  ++ ((fun i => (stale_key_bytes prefix i.1 i.2, [])) <$> stale_node_index_batch batch)
  ++ ((fun s => (size_key_bytes prefix s.1, be_bytes 16 s.2)) <$> size_sums batch).
Definition apply_update prefix db (batch : TreeUpdateBatch) : outcome Kv :=
  kv_write db ((fun kv => KPut kv.1 kv.2) <$> update_puts prefix batch).

(** ** Wiping *)

(** [clear], [clear_size_index], [has_any_key] *)
Definition clear prefix db : outcome Kv :=
  match prefix_upper_bound prefix with
  | None => Ok db
  | Some upper => kv_write db [KDeleteRange prefix upper]
  end.
Definition clear_size_index prefix db : outcome Kv :=
  let b := tag_bounds prefix TAG_SIZE in kv_write db [KDeleteRange b.1 b.2].
Definition has_any_key prefix db : outcome bool :=
  match prefix_upper_bound prefix with
  | None => Ok false
  | Some upper => es ← kv_iterator db prefix upper; Ok (negb (bool_decide (seek prefix es = [])))
  end.

(** ** Pruning stale nodes *)

(** [prune_batch_until]: [stop n] is the answer of the callback when [n] records
    are collected. *)
Fixpoint doomed_loop (vstart : nat) (hi : bytes) (min_readable_version : Z) (batch_records : nat) (stop : nat -> bool)
    (doomed : list bytes) (es : list (bytes * bytes)) : list bytes * bool :=
  match es with
  | [] => (doomed, false)
  | (k, _) :: rest =>
      if negb (blt k hi) then (doomed, false)
      else if (length k <? vstart + 8)%nat then doomed_loop vstart hi min_readable_version batch_records stop doomed rest
      else if min_readable_version <? be_Z (take 8 (drop vstart k)) then (doomed, false)
      else if (length doomed =? batch_records)%nat || (negb (bool_decide (doomed = [])) && stop (length doomed)) then (doomed, true)
      else doomed_loop vstart hi min_readable_version batch_records stop (doomed ++ [k]) rest
  end.
Definition doomed_writes prefix (stale_k : bytes) : list kv_op :=
  let nk_borsh := drop (length prefix + 1 + 8) stale_k in
  [KDelete (node_key_bytes prefix nk_borsh); KDelete (size_key_bytes prefix nk_borsh); KDelete stale_k].
Definition prune_batch_until prefix db (min_readable_version : Z) (from : option bytes) (batch_records : nat) (stop : nat -> bool)
  : outcome (nat * option bytes * Kv) :=
  let batch_records := Nat.max batch_records 1 in
  let '(lo, hi) := stale_scan_bounds prefix in
  es ← kv_iterator db lo hi;
  let '(doomed, more) :=
    doomed_loop (length prefix + 1) hi min_readable_version batch_records stop [] (seek (default lo from) es) in
  if bool_decide (doomed = []) then Ok (0%nat, None, db)
  else
    db' ← kv_write db (concat (doomed_writes prefix <$> doomed));
    Ok (length doomed, if more then Some (default [] (last doomed) ++ [x00]) else None, db').
Definition prune_batch prefix db (min_readable_version : Z) (from : option bytes) (batch_records : nat) :=
  prune_batch_until prefix db min_readable_version from batch_records (fun _ => false).

(** [prune_in_batches] and [prune]: [fuel] bounds the batches. *)
Fixpoint prune_loop (fuel : nat) prefix db (min_readable_version : Z) (batch_records : nat) (from : option bytes) (pruned : nat) : outcome (nat * Kv) :=
  match fuel with
  | O => Panic
  | S fuel' =>
      '(deleted, next, db') ← prune_batch prefix db min_readable_version from batch_records;
      match next with
      | Some next => prune_loop fuel' prefix db' min_readable_version batch_records (Some next) (pruned + deleted)
      | None => Ok (pruned + deleted, db')%nat
      end
  end.
Definition prune_in_batches (fuel : nat) prefix db (min_readable_version : Z) (batch_records : nat) : outcome (nat * Kv) :=
  prune_loop fuel prefix db min_readable_version batch_records None 0.
Definition prune (fuel : nat) prefix db (min_readable_version : Z) : outcome (nat * Kv) :=
  prune_in_batches fuel prefix db min_readable_version PRUNE_BATCH.

(** ** Pruning values *)

(** The greatest version at or below the watermark. *)
Definition floor_of (min_readable_version : Z) (versions : list Z) : option Z :=
  foldr (fun v acc => if v <=? min_readable_version then Some (Z.max v (default v acc)) else acc) None versions.

(** The versions of one key: entries from [vp] while they start with it. *)
Fixpoint versions_of (vp : bytes) (es : list (bytes * bytes)) : list (Z * bytes) :=
  match es with
  | (k, _) :: rest =>
      if starts_with k vp then
        if (length k =? length vp + 8)%nat then (be_Z (drop (length vp) k), k) :: versions_of vp rest else versions_of vp rest
      else []
  | [] => []
  end.
(** [prune_values_of]: [stop n] is asked after [n] keys.  Returns the number
    deleted, the keys judged, the budget left and the store. *)
Fixpoint values_loop prefix (min_readable_version : Z) (stop : nat -> bool) (es : list (bytes * bytes)) (key_hashes : list bytes)
    (budget judged : nat) (doomed : list bytes) : list bytes * nat * nat :=
  match key_hashes with
  | [] => (doomed, judged, budget)
  | key_hash :: rest =>
      if (budget =? 0)%nat || ((0 <? judged)%nat && stop judged) then (doomed, judged, budget)
      else
        let vp := value_prefix prefix key_hash in
        let versions := versions_of vp (seek vp es) in
        match floor_of min_readable_version versions.*1 with
        | None => values_loop prefix min_readable_version stop es rest budget (S judged) doomed
        | Some floor =>
            let dead := take budget (List.filter (fun e : Z * bytes => e.1 <? floor) versions).*2 in
            values_loop prefix min_readable_version stop es rest (budget - length dead) (S judged) (doomed ++ dead)
        end
  end.
Definition min_key (l : list bytes) (k : bytes) : bytes := foldr (fun a b => if blt a b then a else b) k l.
Definition max_key (l : list bytes) (k : bytes) : bytes := foldr (fun a b => if blt b a then a else b) k l.
Definition prune_values_of prefix db (min_readable_version : Z) (key_hashes : list bytes) (budget : nat) (stop : nat -> bool)
  : outcome (nat * nat * nat * Kv) :=
  match key_hashes with
  | [] => Ok (0, 0, budget, db)%nat
  | k :: ks =>
      es ← kv_iterator db (value_prefix prefix (min_key ks k)) (value_prefix prefix (max_key ks k) ++ replicate 8 xff ++ [x00]);
      let '(doomed, judged, budget') := values_loop prefix min_readable_version stop es key_hashes budget 0 [] in
      if bool_decide (doomed = []) then Ok (0, judged, budget', db)%nat
      else db' ← kv_write db (KDelete <$> doomed); Ok (length doomed, judged, budget', db')
  end.

(** [value_prune_candidates]: the keys with values no read can return, while the
    budget lasts; the last key is judged only when the sweep ends by itself. *)
Definition judge (min_readable_version : Z) (group : option bytes) (versions : list Z) (candidates : list bytes) (budget : nat) : list bytes * nat :=
  let doomed := match floor_of min_readable_version versions with
                | Some floor => length (List.filter (fun v => v <? floor) versions)
                | None => 0%nat
                end in
  match group with
  | Some g => if (0 <? doomed)%nat then (candidates ++ [g], budget - doomed)%nat else (candidates, budget)
  | None => (candidates, budget)
  end.
Fixpoint candidates_loop (khs : nat) (min_readable_version : Z) (group : option bytes) (versions : list Z) (candidates : list bytes)
    (budget read : nat) (es : list (bytes * bytes)) : list bytes * nat * nat :=
  match es with
  | [] => let '(c, b) := judge min_readable_version group versions candidates budget in (c, read, b)
  | (k, _) :: rest =>
      if (budget =? 0)%nat then (candidates, read, budget)
      else
        match entry_key khs k with
        | Some key_hash =>
            let '(c, b, vs) := if bool_decide (group = Some key_hash) then (candidates, budget, versions)
                               else let '(c, b) := judge min_readable_version group versions candidates budget in (c, b, []) in
            candidates_loop khs min_readable_version (Some key_hash) (vs ++ [be_Z (drop (khs + 32) k)]) c b (S read) rest
        | None => candidates_loop khs min_readable_version group versions candidates budget (S read) rest
        end
  end.
Definition value_prune_candidates prefix db (min_readable_version : Z) (budget : nat) : outcome (list bytes * nat * nat) :=
  let '(lo, hi) := tag_bounds prefix TAG_VALUE in
  es ← kv_iterator db lo hi;
  Ok (candidates_loop (length prefix + 1) min_readable_version None [] [] budget 0 (List.filter (fun e => blt e.1 hi) (seek lo es))).

(** [delete_keyed_ranges] *)
Definition delete_keyed_ranges prefix db (ranges : list (option bytes * option bytes)) : outcome Kv :=
  let writes := fun tag =>
    let '(lo, hi) := tag_bounds prefix tag in
    (fun r : option bytes * option bytes =>
       KDeleteRange (match r.1 with Some key => lo ++ key | None => lo end) (match r.2 with Some key => lo ++ key | None => hi end)) <$> ranges in
  kv_write db (writes TAG_VALUE ++ writes TAG_PREIMAGE).
End store.
