(* ===== verification/TreeStoreOrder.v ===== *)
(** * Byte order, key spaces and the laws of the key-value store

    Order lemmas for the sweeps of [TreeStore]: a bounded range is the set of keys
    with a prefix, versions of a key sort by number, and the keys of two trees, and
    the head markers, never share a prefix. *)

From Stdlib Require Import Strings.Byte Sorted.
From stdpp Require Import gmap.
From S2P Require Import Prelude Bytes TreeStore.

(** ** The order *)

Lemma blt_irrefl a : blt a a = false.
Proof. induction a as [|x a IH]; cbn [blt]; [done|]. by rewrite Z.ltb_irrefl. Qed.

Lemma blt_trans a : forall b c, blt a b = true -> blt b c = true -> blt a c = true.
Proof.
  induction a as [|x a IH]; intros [|y b] [|z c]; cbn [blt]; try done.
  destruct (b2z x <? b2z y) eqn:E1, (b2z y <? b2z z) eqn:E2; bool_to_prop.
  - intros _ _. by rewrite (proj2 (Z.ltb_lt _ _)) by lia.
  - destruct (b2z z <? b2z y) eqn:E3; [done|]. bool_to_prop. intros _ _. by rewrite (proj2 (Z.ltb_lt _ _)) by lia.
  - destruct (b2z y <? b2z x) eqn:E3; [done|]. bool_to_prop. intros _ _. by rewrite (proj2 (Z.ltb_lt _ _)) by lia.
  - destruct (b2z y <? b2z x) eqn:E3, (b2z z <? b2z y) eqn:E4; try done. bool_to_prop. intros H1 H2.
    rewrite !(proj2 (Z.ltb_ge _ _)) by lia. by eapply IH.
Qed.

Lemma blt_total a : forall b, blt a b = false -> blt b a = false -> a = b.
Proof.
  induction a as [|x a IH]; intros [|y b]; cbn [blt]; try done.
  destruct (b2z x <? b2z y) eqn:E1, (b2z y <? b2z x) eqn:E2; try done. bool_to_prop. intros H1 H2.
  assert (x = y) as -> by (apply b2z_inj; lia). f_equal. by apply IH.
Qed.

Lemma blt_asym a b : blt a b = true -> blt b a = false.
Proof. intros H1. destruct (blt b a) eqn:H2; [|done]. by rewrite <- (blt_irrefl a), (blt_trans a b a). Qed.

Lemma ble_refl a : ble a a = true.
Proof. unfold ble. by rewrite blt_irrefl. Qed.
Lemma ble_lt_eq a b : ble a b = true <-> blt a b = true \/ a = b.
Proof.
  unfold ble. rewrite negb_true_iff. split.
  - intros H1. destruct (blt a b) eqn:H2; [by left|right; by apply blt_total].
  - intros [H1| ->]; [by apply blt_asym|apply blt_irrefl].
Qed.
Lemma ble_blt_trans a b c : ble a b = true -> blt b c = true -> blt a c = true.
Proof. rewrite ble_lt_eq. intros [H1| ->]; [by eapply blt_trans|done]. Qed.
Lemma blt_ble_trans a b c : blt a b = true -> ble b c = true -> blt a c = true.
Proof. rewrite ble_lt_eq. intros H1 [H2| <-]; [by eapply blt_trans|done]. Qed.
Lemma ble_trans a b c : ble a b = true -> ble b c = true -> ble a c = true.
Proof. rewrite (ble_lt_eq b c). intros H1 [H2| <-]; [|done]. apply ble_lt_eq. left. by eapply ble_blt_trans. Qed.
Lemma blt_not_ble a b : blt a b = negb (ble b a).
Proof. unfold ble. by rewrite negb_involutive. Qed.

Lemma blt_app p a b : blt (p ++ a) (p ++ b) = blt a b.
Proof. induction p as [|x p IH]; cbn [app blt]; [done|]. by rewrite Z.ltb_irrefl. Qed.
Lemma ble_app p a b : ble (p ++ a) (p ++ b) = ble a b.
Proof. unfold ble. by rewrite blt_app. Qed.
Lemma ble_self_app p a : ble p (p ++ a) = true.
Proof. rewrite <- (app_nil_r p) at 1. rewrite ble_app. unfold ble. by destruct a. Qed.
Lemma blt_cons x a b : blt (x :: a) (x :: b) = blt a b.
Proof. apply (blt_app [x]). Qed.

Lemma blt_number a : forall b, length a = length b -> blt a b = (be_Z a <? be_Z b).
Proof.
  induction a as [|x a IH]; intros [|y b] Hl; try done. simpl in Hl. cbn [blt]. rewrite !be_Z_cons. replace (length b) with (length a) by lia.
  assert (Hl' : length a = length b) by lia. rewrite (IH b) by done. pose proof (be_Z_range a) as Ra. pose proof (be_Z_range b) as Rb. rewrite <- Hl' in Rb.
  set (P := 2 ^ (8 * Z.of_nat (length a))) in *. destruct (b2z x <? b2z y) eqn:E1; [|destruct (b2z y <? b2z x) eqn:E2]; bool_to_prop; symmetry.
  - apply Z.ltb_lt. nia.
  - apply Z.ltb_ge. nia.
  - assert (b2z x = b2z y) as -> by lia. destruct (be_Z a <? be_Z b) eqn:E; bool_to_prop; [apply Z.ltb_lt|apply Z.ltb_ge]; lia.
Qed.

(** Versions sort by number. *)
Lemma blt_version a b : 0 <= a <= u64_max -> 0 <= b <= u64_max -> blt (be_bytes 8 a) (be_bytes 8 b) = (a <? b).
Proof.
  intros Ha Hb. rewrite blt_number by (by rewrite !length_be_bytes). unfold u64_max in *. rewrite !be_Z_be_bytes_small by (simpl; lia). done.
Qed.

(** ** Prefix ranges *)

Lemma starts_with_prefix_of k p : starts_with k p = true <-> p `prefix_of` k.
Proof.
  unfold starts_with. rewrite bool_decide_eq_true. split.
  - intros E. exists (drop (length p) k). by rewrite <- E at 1; rewrite take_drop.
  - intros [r ->]. apply take_app_length.
Qed.

Lemma ff_above n : forall k, ble (replicate n xff) k = true -> replicate n xff `prefix_of` k.
Proof.
  induction n as [|n IH]; intros k; cbn [replicate]; [by intros _; apply prefix_nil|]. unfold ble. destruct k as [|y k]; cbn [blt]; [done|].
  pose proof (b2z_range y). change (b2z xff) with 255. destruct (b2z y <? 255) eqn:E; [done|]. bool_to_prop. rewrite (proj2 (Z.ltb_ge 255 _)) by lia.
  intros Hb. assert (y = xff) as -> by (apply b2z_inj; change (b2z xff) with 255; lia). apply prefix_cons. by apply IH.
Qed.

Lemma range_prefix q x n k :
  b2z x < 255 -> (ble (q ++ x :: replicate n xff) k = true /\ blt k (q ++ [z2b (b2z x + 1)]) = true) <-> (q ++ x :: replicate n xff) `prefix_of` k.
Proof.
  intros Hx. assert (Ex : b2z (z2b (b2z x + 1)) = b2z x + 1) by (rewrite b2z_z2b; pose proof (b2z_range x); apply Z.mod_small; lia). revert k.
  induction q as [|z q IH]; intros k; cbn [app].
  - split.
    + unfold ble. destruct k as [|y k]; cbn [blt]; [by intros [? _]|]. rewrite Ex. intros [Hl Hh]. destruct (b2z y <? b2z x) eqn:E; [done|]. bool_to_prop.
      destruct (b2z y <? b2z x + 1) eqn:E2.
      * bool_to_prop. rewrite (proj2 (Z.ltb_ge (b2z x) _)) in Hl by lia. assert (y = x) as -> by (apply b2z_inj; lia). apply prefix_cons. apply ff_above. unfold ble. by rewrite Hl.
      * destruct (b2z x + 1 <? b2z y); [done|]. by destruct k.
    + intros [r ->]. split; [apply ble_self_app|]. cbn [app blt]. rewrite Ex. by rewrite (proj2 (Z.ltb_lt _ _)) by lia.
  - split.
    + unfold ble. destruct k as [|y k]; cbn [blt]; [by intros [? _]|]. intros [Hl Hh]. destruct (b2z y <? b2z z) eqn:E; [done|]. destruct (b2z z <? b2z y) eqn:E2; [done|].
      bool_to_prop. assert (y = z) as -> by (apply b2z_inj; lia). apply prefix_cons. apply IH. unfold ble. by rewrite Hl, Hh.
    + intros [r ->]. split; [apply ble_self_app|]. cbn [app]. rewrite blt_cons. apply IH. by exists r.
Qed.

Lemma bump_last_spec r u : bump_last r = Some u -> exists n x q, r = replicate n xff ++ x :: q /\ b2z x < 255 /\ u = z2b (b2z x + 1) :: q.
Proof.
  revert u. induction r as [|b r IH]; intros u; cbn [bump_last]; [done|]. destruct (b2z b =? 255) eqn:E; bool_to_prop.
  - intros (n & x & q & -> & Hx & ->)%IH. exists (S n), x, q. split; [|done]. cbn [replicate app]. f_equal. apply b2z_inj. by rewrite E.
  - intros [= <-]. exists 0%nat, b, r. split; [done|]. split; [|done]. pose proof (b2z_range b). lia.
Qed.

(** The keys between a prefix and its upper bound are the keys with the prefix. *)
Lemma upper_bound_spec p u k : prefix_upper_bound p = Some u -> (ble p k = true /\ blt k u = true) <-> p `prefix_of` k.
Proof.
  unfold prefix_upper_bound. intros E. apply fmap_Some in E as (r & (n & x & q & Er & Hx & ->)%bump_last_spec & ->).
  assert (p = reverse q ++ x :: replicate n xff) as ->.
  { rewrite <- (reverse_involutive p), Er, reverse_app, reverse_cons, reverse_replicate, <- app_assoc. done. }
  rewrite reverse_cons. by apply range_prefix.
Qed.

Lemma upper_bound_exists p b : b ∈ p -> b2z b < 255 -> exists u, prefix_upper_bound p = Some u.
Proof.
  intros Hb Hlt. unfold prefix_upper_bound. assert (Hr : b ∈ reverse p) by (by apply elem_of_reverse). revert Hr. generalize (reverse p). intros r.
  induction r as [|c r IH]; intros Hr; [by apply not_elem_of_nil in Hr|]. cbn [bump_last]. destruct (b2z c =? 255) eqn:E; [|by eexists]. bool_to_prop.
  apply elem_of_cons in Hr as [->|Hr]; [lia|by apply IH].
Qed.

Lemma tag_range prefix tag k : b2z tag < 255 ->
  (ble (tag_bounds prefix tag).1 k = true /\ blt k (tag_bounds prefix tag).2 = true) <-> (prefix ++ [tag]) `prefix_of` k.
Proof. intros Ht. by apply (range_prefix prefix tag 0). Qed.

(** ** Laws of the key-value store *)

Definition in_range (lo hi k : bytes) : bool := ble lo k && blt k hi.
Definition apply_kv (m : gmap bytes bytes) (op : kv_op) : gmap bytes bytes :=
  match op with
  | KPut k v => <[k := v]> m
  | KDelete k => base.delete k m
  | KDeleteRange lo hi => filter (fun kv => in_range lo hi kv.1 = false) m
  end.

Abbreviation ascending es := (StronglySorted (fun a b : bytes * bytes => blt a.1 b.1 = true) es).

(** An iterator that succeeds lists the entries of its range in order; a batch
    that is written takes effect write by write. *)
Class LawfulKv `{KvStore} : Type := {
  kv_map : Kv -> gmap bytes bytes;
  kv_get_map db k r : kv_get db k = Ok r -> r = kv_map db !! k;
  kv_iterator_map db lo hi es : kv_iterator db lo hi = Ok es ->
    ascending es /\ forall k v, (k, v) ∈ es <-> kv_map db !! k = Some v /\ in_range lo hi k = true;
  kv_write_map db ops db' : kv_write db ops = Ok db' -> kv_map db' = foldl apply_kv (kv_map db) ops;
}.

Lemma in_range_spec lo hi k : in_range lo hi k = true <-> ble lo k = true /\ blt k hi = true.
Proof. apply andb_true_iff. Qed.

(** ** Iterators *)

Lemma seek_spec key es : ascending es -> ascending (seek key es) /\ forall e, e ∈ seek key es <-> e ∈ es /\ ble key e.1 = true.
Proof.
  induction es as [|e es IH]; intros Hs; cbn [seek].
  - split; [constructor|]. intros e. rewrite elem_of_nil. tauto.
  - apply StronglySorted_inv in Hs as [Hs Hf]. destruct (blt e.1 key) eqn:E.
    + destruct (IH Hs) as [IH1 IH2]. split; [done|]. intros e'. rewrite IH2, elem_of_cons. split; [tauto|]. intros [[->|?] Hk]; [|done].
      unfold ble in Hk. by rewrite E in Hk.
    + split; [by constructor|]. intros e'. split; [|tauto]. intros He. split; [done|]. apply elem_of_cons in He as [->|He]; [unfold ble; by rewrite E|].
      rewrite List.Forall_forall in Hf. apply ble_lt_eq. left. apply (ble_blt_trans _ e.1); [unfold ble; by rewrite E|]. apply Hf. by apply list_elem_of_In.
Qed.

Lemma seek_for_prev_spec key es : ascending es ->
  match seek_for_prev key es with
  | Some e => e ∈ es /\ ble e.1 key = true /\ forall e', e' ∈ es -> ble e'.1 key = true -> ble e'.1 e.1 = true
  | None => forall e', e' ∈ es -> ble e'.1 key = false
  end.
Proof.
  unfold seek_for_prev. induction es as [|e es IH]; intros Hs; cbn [List.filter].
  - intros e' He. by apply not_elem_of_nil in He.
  - apply StronglySorted_inv in Hs as [Hs Hf]. specialize (IH Hs). rewrite List.Forall_forall in Hf. destruct (ble e.1 key) eqn:E.
    + rewrite last_cons. destruct (last (List.filter _ es)) as [e1|] eqn:El.
      * destruct IH as (I1 & I2 & I3). split; [by right|]. split; [done|]. intros e' He Hk. apply elem_of_cons in He as [->|He]; [|by apply I3].
        apply ble_lt_eq. left. apply Hf. by apply list_elem_of_In.
      * split; [left|]. split; [done|]. intros e' He Hk. apply elem_of_cons in He as [->|He]; [apply ble_refl|]. by rewrite (IH _ He) in Hk.
    + assert (Hno : forall e', e' ∈ es -> ble e'.1 key = false).
      { intros e' He. unfold ble in *. apply negb_false_iff in E. apply negb_false_iff. eapply blt_trans; [exact E|]. apply Hf. by apply list_elem_of_In. }
      destruct (last (List.filter _ es)) as [e1|] eqn:El.
      * destruct IH as (I1 & I2 & _). by rewrite (Hno _ I1) in I2.
      * intros e' He. apply elem_of_cons in He as [->|He]; [done|by apply Hno].
Qed.

Lemma sweep_filter (f : bytes * bytes -> bool) es : ascending es -> ascending (List.filter f es).
Proof.
  induction 1 as [|e es Hs IH Hf]; cbn [List.filter]; [constructor|]. destruct (f e); [|done]. constructor; [done|].
  rewrite List.Forall_forall in *. intros x [Hx _]%filter_In. by apply Hf.
Qed.
Lemma elem_filter (f : bytes * bytes -> bool) es e : e ∈ List.filter f es <-> e ∈ es /\ f e = true.
Proof. by rewrite !list_elem_of_In, filter_In. Qed.

(** A sweep through a range in which the bound test is always true. *)
Lemma filter_all (f : bytes * bytes -> bool) es : (forall e, e ∈ es -> f e = true) -> List.filter f es = es.
Proof.
  induction es as [|e es IH]; intros Hf; cbn [List.filter]; [done|]. rewrite (Hf e) by left. f_equal. apply IH. intros x Hx. apply Hf. by right.
Qed.

(** ** Writes *)

Lemma apply_deletes ks : forall m k, foldl apply_kv m (KDelete <$> ks) !! k = if bool_decide (k ∈ ks) then None else m !! k.
Proof.
  induction ks as [|x ks IH]; intros m k; cbn [fmap list_fmap foldl apply_kv]; [done|]. rewrite IH.
  destruct (decide (k = x)) as [->|Hne].
  - rewrite lookup_delete_eq. rewrite (bool_decide_eq_true_2 (x ∈ x :: ks)) by left. by case_bool_decide.
  - rewrite lookup_delete_ne by done. apply (f_equal (fun b : bool => if b then None else m !! k)). apply bool_decide_ext. set_solver.
Qed.

Lemma apply_puts (puts : list (bytes * bytes)) : forall m k, ~ (exists v, (k, v) ∈ puts) -> foldl apply_kv m ((fun kv => KPut kv.1 kv.2) <$> puts) !! k = m !! k.
Proof.
  induction puts as [|[x v] puts IH]; intros m k Hk; cbn [fmap list_fmap foldl apply_kv]; [done|]. cbn [fst snd]. rewrite IH by (intros [w Hw]; apply Hk; exists w; by right).
  apply lookup_insert_ne. intros ->. apply Hk. exists v. left.
Qed.
Lemma apply_put_in (puts : list (bytes * bytes)) : forall m k v, NoDup puts.*1 -> (k, v) ∈ puts -> foldl apply_kv m ((fun kv => KPut kv.1 kv.2) <$> puts) !! k = Some v.
Proof.
  induction puts as [|[x w] puts IH]; intros m k v Hnd Hk; [by apply not_elem_of_nil in Hk|]. cbn [fmap list_fmap foldl apply_kv fst snd] in *.
  apply NoDup_cons in Hnd as [Hx Hnd]. apply elem_of_cons in Hk as [[= -> ->]|Hk]; [|by apply IH].
  rewrite apply_puts; [apply lookup_insert_eq|]. intros [y Hy]. apply Hx. apply list_elem_of_fmap. by exists (x, y).
Qed.

Lemma apply_puts_inv (puts : list (bytes * bytes)) : forall m k x,
  foldl apply_kv m ((fun kv => KPut kv.1 kv.2) <$> puts) !! k = Some x -> m !! k = Some x \/ exists y, (k, y) ∈ puts.
Proof.
  induction puts as [|[a v] puts IH]; intros m k x; cbn [fmap list_fmap foldl apply_kv fst snd]; [by left|]. intros [Hk|[y Hy]]%IH.
  - rewrite lookup_insert_Some in Hk. destruct Hk as [[-> _]|[_ Hk]]; [right; exists v; left|by left].
  - right. exists y. by right.
Qed.

(** ** Key spaces *)

Lemma app_prefix_cases (p q k : bytes) : p `prefix_of` k -> q `prefix_of` k -> p `prefix_of` q \/ q `prefix_of` p.
Proof. intros Hp Hq. by eapply prefix_weak_total. Qed.

(** Prefixes of identifiers shorter than 256 bytes do not overlap. *)
Lemma tree_prefix_apart t t' r r' :
  (length (id t) < 256)%nat -> (length (id t') < 256)%nat -> tree_prefix t ++ r = tree_prefix t' ++ r' -> t = t'.
Proof.
  destruct t as [v i], t' as [v' i']. unfold tree_prefix. cbn [level id app]. intros Hi Hi' [= -> El E]. f_equal.
  assert (length i = length i').
  { apply (f_equal b2z) in El. rewrite !b2z_z2b, !Z.mod_small in El by lia. lia. }
  by apply app_inj_1 in E as [-> _].
Qed.

Lemma space_apart ns t t' k :
  (length (id t) < 256)%nat -> (length (id t') < 256)%nat -> store_prefix ns t `prefix_of` k -> store_prefix ns t' `prefix_of` k -> t = t'.
Proof.
  unfold store_prefix. intros Hi Hi' [r ->] [r' E]. rewrite <- !app_assoc in E. apply app_inv_head in E. by eapply tree_prefix_apart.
Qed.

Lemma shard_phase_inj s s' p p' : (p < 4)%nat -> (p' < 4)%nat -> tree_shard_phase s p = tree_shard_phase s' p' -> s = s' /\ p = p'.
Proof.
  intros Hp Hp' [= Eb ->]. split; [done|]. apply (f_equal b2z) in Eb. rewrite !b2z_z2b, !Z.mod_small in Eb by lia. lia.
Qed.
