(* ===== verification/TreeStoreCorrect.v ===== *)
(** * Correctness of the tree store

    Versioned reads, commits, pruning and sweeps of [TreeStore], over any store
    that satisfies the laws of [TreeStoreOrder]. *)

From Stdlib Require Import Strings.Byte Sorted.
From stdpp Require Import gmap.
From S2P Require Import Prelude Bytes TreeStore TreeStoreOrder.

(** ** Stored values *)

(** The value of a key at a version: the newest write at or below it. *)
Definition reads_at (prefix : bytes) (m : gmap bytes bytes) (kh : bytes) (v : Z) (r : option bytes) : Prop :=
  (exists w x, 0 <= w <= v /\ m !! value_key prefix w kh = Some x /\
     (forall w', w < w' <= v -> m !! value_key prefix w' kh = None) /\ r = value_of_payload x) \/
  ((forall w', 0 <= w' <= v -> m !! value_key prefix w' kh = None) /\ r = None).

(** The keys under the value tag are value keys of 32-byte hashes. *)
Definition version_ok (v : Z) : Prop := 0 <= v <= u64_max.
Definition values_ok (prefix : bytes) (m : gmap bytes bytes) : Prop :=
  forall k x, m !! k = Some x -> (prefix ++ [TAG_VALUE]) `prefix_of` k ->
    exists w kh, length kh = 32%nat /\ version_ok w /\ k = value_key prefix w kh.

Lemma reads_at_fun prefix m kh v r r' : reads_at prefix m kh v r -> reads_at prefix m kh v r' -> r = r'.
Proof.
  intros [(w & x & Hw & Hx & Hn & ->)|[Hn ->]] [(w' & x' & Hw' & Hx' & Hn' & ->)|[Hn' ->]].
  - destruct (Z.lt_trichotomy w w') as [?|[->|?]]; [by rewrite Hn in Hx' by lia|congruence|by rewrite Hn' in Hx by lia].
  - by rewrite Hn' in Hx by lia.
  - by rewrite Hn in Hx' by lia.
  - done.
Qed.

Lemma reads_at_ext prefix m m' kh v r :
  (forall w, 0 <= w <= v -> m' !! value_key prefix w kh = m !! value_key prefix w kh) -> reads_at prefix m kh v r -> reads_at prefix m' kh v r.
Proof.
  intros E [(w & x & Hw & Hx & Hn & ->)|[Hn ->]].
  - left. exists w, x. split; [done|]. rewrite E by lia. split; [done|]. split; [|done]. intros w' Hw'. rewrite E by lia. by apply Hn.
  - right. split; [|done]. intros w' Hw'. rewrite E by lia. by apply Hn.
Qed.

Lemma value_prefix_app prefix kh : value_prefix prefix kh = (prefix ++ [TAG_VALUE]) ++ kh.
Proof. unfold value_prefix. by rewrite <- app_assoc. Qed.

Lemma value_key_inj prefix w w' kh kh' : length kh = length kh' -> version_ok w -> version_ok w' ->
  value_key prefix w kh = value_key prefix w' kh' -> w = w' /\ kh = kh'.
Proof.
  unfold value_key, version_ok, u64_max. rewrite !value_prefix_app, <- !app_assoc. intros Hl Hw Hw' E. do 2 apply app_inv_head in E.
  apply app_inj_1 in E as [-> E]; [|done]. apply (f_equal be_Z) in E. rewrite !be_Z_be_bytes_small in E by (simpl; lia). done.
Qed.

Lemma value_key_order prefix w w' kh : version_ok w -> version_ok w' -> ble (value_key prefix w kh) (value_key prefix w' kh) = (w <=? w').
Proof. intros Hw Hw'. unfold value_key. rewrite ble_app. unfold ble. rewrite blt_version by done. by rewrite Z.leb_antisym. Qed.

(** Between [p] and an extension of it, keys have the prefix [p]. *)
Lemma between_prefix p : forall s k, ble p k = true -> blt k (p ++ s) = true -> p `prefix_of` k.
Proof.
  induction p as [|x p IH]; intros s k Hl Hh; [apply prefix_nil|]. unfold ble in Hl. destruct k as [|y k]; cbn [blt app] in *; [done|].
  destruct (b2z y <? b2z x) eqn:E1; [done|]. destruct (b2z x <? b2z y) eqn:E2; [done|]. bool_to_prop.
  assert (y = x) as -> by (apply b2z_inj; lia). apply prefix_cons. eapply IH; [|exact Hh]. unfold ble. by rewrite Hl.
Qed.

Lemma version_below_top w : version_ok w -> blt (be_bytes 8 w) (replicate 8 xff ++ [x00]) = true.
Proof.
  intros Hw. eapply (ble_blt_trans _ (be_bytes 8 u64_max)); [|done]. unfold ble. rewrite blt_version by (unfold version_ok, u64_max in *; lia).
  apply negb_true_iff, Z.ltb_ge. apply Hw.
Qed.

(** The bucket of a key hash holds its versions. *)
Lemma bucket_entries prefix m kh k x : values_ok prefix m -> length kh = 32%nat -> m !! k = Some x ->
  value_prefix prefix kh `prefix_of` k -> exists w, version_ok w /\ k = value_key prefix w kh.
Proof.
  intros Hok Hk Hx Hp. destruct (Hok k x Hx) as (w & kh' & Hl & Hw & ->).
  { rewrite value_prefix_app in Hp. destruct Hp as [r ->]. exists (kh ++ r). by rewrite app_assoc. }
  exists w. split; [done|]. f_equal. destruct Hp as [r E]. unfold value_key in E. rewrite !value_prefix_app, <- !app_assoc in E. do 2 apply app_inv_head in E.
  apply app_inj_1 in E as [-> _]; [done|congruence].
Qed.

Lemma value_payload val : value_of_payload (payload val) = val.
Proof. destruct val as [[|b v]|]; done. Qed.

Section store.
Context {K : KvStore} {LK : LawfulKv}.
Implicit Types (db : Kv) (prefix : bytes).

(** ** Reads *)

Lemma get_value_reads prefix db kh v r : values_ok prefix (kv_map db) -> length kh = 32%nat -> version_ok v ->
  get_value_option prefix db v kh = Ok r -> reads_at prefix (kv_map db) kh v r.
Proof.
  intros Hok Hk Hv E. unfold get_value_option in E. apply outcome_bind_ok in E as (es & Ees & E). injection E as <-.
  destruct (kv_iterator_map _ _ _ _ Ees) as [Hs He]. set (vp := value_prefix prefix kh) in *. pose proof (seek_for_prev_spec (vp ++ be_bytes 8 v) es Hs) as Hp.
  assert (Hin : forall w x, version_ok w -> kv_map db !! value_key prefix w kh = Some x -> (value_key prefix w kh, x) ∈ es).
  { intros w x Hw Hx. apply He. split; [done|]. apply in_range_spec. unfold value_key. fold vp. split; [apply ble_self_app|]. rewrite blt_app. by apply version_below_top. }
  assert (Hord : forall w, version_ok w -> ble (value_key prefix w kh) (vp ++ be_bytes 8 v) = (w <=? v)) by (intros w Hw; by apply (value_key_order prefix w v kh)).
  destruct (seek_for_prev _ es) as [[k x]|].
  - destruct Hp as (H1 & H2 & H3). cbn [fst] in *. apply He in H1 as [Hx [Hlo Hhi]%in_range_spec].
    assert (Hpre : vp `prefix_of` k) by (by eapply between_prefix). rewrite (proj2 (starts_with_prefix_of k vp) Hpre).
    destruct (bucket_entries _ _ _ _ _ Hok Hk Hx Hpre) as (w & Hw & ->). rewrite Hord in H2 by done. bool_to_prop. unfold version_ok in *.
    left. exists w, x. split; [lia|]. split; [done|]. split; [|done]. intros w' Hw'. destruct (kv_map db !! value_key prefix w' kh) as [y|] eqn:Ey; [|done].
    assert (Hw2 : version_ok w') by (unfold version_ok; lia). specialize (H3 _ (Hin w' y Hw2 Ey)). cbn [fst] in H3. rewrite Hord, value_key_order in H3 by done.
    rewrite (proj2 (Z.leb_le _ _)) in H3 by lia. specialize (H3 eq_refl). bool_to_prop. lia.
  - right. split; [|done]. intros w' Hw'. destruct (kv_map db !! value_key prefix w' kh) as [y|] eqn:Ey; [|done]. unfold version_ok in *.
    assert (Hw2 : version_ok w') by (unfold version_ok; lia). specialize (Hp _ (Hin w' y Hw2 Ey)). cbn [fst] in Hp. rewrite Hord in Hp by done. bool_to_prop. lia.
Qed.

(** ** Commits *)

(** The values of a commit, all at one version, one per key. *)
Definition batch_at (w : Z) (batch : TreeUpdateBatch) : Prop :=
  NoDup (values batch).*1 /\ Forall (fun v => v.1.1 = w /\ length v.1.2 = 32%nat) (values batch).

Lemma other_tag (prefix : bytes) (a b : byte) r r' : a <> b -> prefix ++ a :: r <> prefix ++ b :: r'.
Proof. intros Hne E. apply app_inv_head in E. congruence. Qed.

Lemma update_value prefix m batch w v kh : batch_at w batch -> version_ok w -> version_ok v -> length kh = 32%nat ->
  foldl apply_kv m ((fun kv => KPut kv.1 kv.2) <$> update_puts prefix batch) !! value_key prefix v kh =
  match list_find (fun x => x.1 = (v, kh)) (values batch) with Some (_, x) => Some (payload x.2) | None => m !! value_key prefix v kh end.
Proof.
  intros [Hnd Hall] Hw Hv Hk. unfold update_puts. rewrite !fmap_app, !foldl_app.
  assert (Hother : forall (A : Type) (l : list A) (f : A -> bytes * bytes) m, (forall x, (f x).1 <> value_key prefix v kh) ->
            foldl apply_kv m ((fun kv => KPut kv.1 kv.2) <$> (f <$> l)) !! value_key prefix v kh = m !! value_key prefix v kh).
  { intros A l f m0 Hf. apply apply_puts. intros [y Hy]. apply list_elem_of_fmap in Hy as (x & E & _). by apply (Hf x); rewrite <- E. }
  unfold value_key in Hother |- * at 1 2. rewrite value_prefix_app, <- !app_assoc in Hother |- *. cbn [app] in *.
  rewrite (Hother _ (size_sums batch)) by (intros x; by apply other_tag). rewrite (Hother _ (stale_node_index_batch batch)) by (intros x; by apply other_tag).
  set (m1 := foldl apply_kv m _). assert (Hm1 : m1 !! value_key prefix v kh = m !! value_key prefix v kh).
  { unfold m1, value_key. rewrite value_prefix_app, <- !app_assoc. cbn [app]. apply Hother. intros x. by apply other_tag. }
  assert (Ek : prefix ++ TAG_VALUE :: kh ++ be_bytes 8 v = value_key prefix v kh) by (unfold value_key; by rewrite value_prefix_app, <- !app_assoc).
  rewrite Ek. clear Hother. rewrite List.Forall_forall in Hall. destruct (list_find _ _) as [[i x]|] eqn:El.
  - apply list_find_Some in El as (Hi & Ex & _). apply list_elem_of_lookup_2 in Hi. apply apply_put_in.
    + rewrite <- list_fmap_compose. apply (NoDup_fmap_2_strong (fun x => value_key prefix x.1 x.2) _) in Hnd; [by rewrite <- list_fmap_compose in Hnd|].
      intros [a1 b1] [a2 b2] (y1 & -> & Hy1)%list_elem_of_fmap (y2 & E2 & Hy2)%list_elem_of_fmap. rewrite E2. apply list_elem_of_In in Hy1, Hy2.
      destruct (Hall _ Hy1) as [V1 L1], (Hall _ Hy2) as [V2 L2]. destruct y1 as [[? ?] ?], y2 as [[? ?] ?]. cbn [fst snd] in *. subst.
      intros E. apply value_key_inj in E as [_ ->]; [done|congruence|done|done].
    + apply list_elem_of_fmap. exists x. rewrite Ex. done.
  - apply list_find_None in El. rewrite apply_puts; [done|]. intros [y Hy]. apply list_elem_of_fmap in Hy as (x & E & Hx). injection E as E _.
    rewrite List.Forall_forall in El. apply list_elem_of_In in Hx. destruct (Hall _ Hx) as [V L]. apply (El _ Hx). destruct x as [[a b] z]. cbn [fst snd] in *. subst.
    symmetry in E. apply value_key_inj in E as [-> ->]; [done|congruence|done|done].
Qed.

Lemma update_values_ok prefix m batch w : values_ok prefix m -> batch_at w batch -> version_ok w ->
  values_ok prefix (foldl apply_kv m ((fun kv => KPut kv.1 kv.2) <$> update_puts prefix batch)).
Proof.
  intros Hok [_ Hall] Hw k x Hx Hp. apply apply_puts_inv in Hx as [Hx|[y Hy]]; [by eapply Hok|].
  destruct Hp as [r ->]. rewrite <- app_assoc in Hy |- *. cbn [app] in *. rewrite List.Forall_forall in Hall. unfold update_puts in Hy. rewrite !elem_of_app in Hy.
  destruct Hy as [Hy|[Hy|[Hy|Hy]]]; apply list_elem_of_fmap in Hy as (z & [= E _] & Hz).
  - by apply other_tag in E.
  - apply list_elem_of_In in Hz. destruct (Hall _ Hz) as [V L]. exists w, z.1.2. split; [done|]. split; [done|]. rewrite E, V. done.
  - by apply other_tag in E.
  - by apply other_tag in E.
Qed.

(** C17. Reads at a version see the newest write at or below it, and commits keep
    history: after a commit at the next version [w], a read at [w] or later returns
    the committed value of every key of the batch (nothing for a deletion) and the
    old value of every other key, and a read below [w] returns what it returned
    before. *)
Theorem commit_keeps_history prefix db batch db' w kh v r :
  values_ok prefix (kv_map db) -> batch_at w batch -> version_ok w ->
  (forall kh' w', length kh' = 32%nat -> version_ok w' -> w <= w' -> kv_map db !! value_key prefix w' kh' = None) ->
  length kh = 32%nat -> version_ok v -> apply_update prefix db batch = Ok db' -> get_value_option prefix db' v kh = Ok r ->
  values_ok prefix (kv_map db') /\
  match list_find (fun x => x.1 = (w, kh)) (values batch) with
  | Some (_, x) => if w <=? v then r = x.2 else reads_at prefix (kv_map db) kh v r
  | None => reads_at prefix (kv_map db) kh v r
  end.
Proof.
  intros Hok Hb Hw Hnew Hk Hv Eu Er. unfold apply_update in Eu. apply kv_write_map in Eu.
  assert (Hok' : values_ok prefix (kv_map db')) by (rewrite Eu; by eapply update_values_ok). split; [done|].
  apply get_value_reads in Er; [|done..]. assert (Hl : forall u, 0 <= u <= v -> kv_map db' !! value_key prefix u kh =
     match list_find (fun x => x.1 = (u, kh)) (values batch) with Some (_, x) => Some (payload x.2) | None => kv_map db !! value_key prefix u kh end).
  { intros u Hu. rewrite Eu. apply (update_value prefix _ batch w); try done. unfold version_ok in *. lia. }
  assert (Hne : forall u, u <> w -> list_find (fun x => x.1 = (u, kh)) (values batch) = None).
  { intros u Hu. apply list_find_None. destruct Hb as [_ Hall]. eapply List.Forall_impl; [|exact Hall]. intros [[a b] y] [V _]. cbn [fst] in *. congruence. }
  assert (Hold : list_find (fun x => x.1 = (w, kh)) (values batch) = None \/ v < w -> reads_at prefix (kv_map db) kh v r).
  { intros Hc. eapply reads_at_ext; [|exact Er]. intros u Hu. rewrite Hl by done. destruct (decide (u = w)) as [->|Hu']; [|by rewrite Hne].
    destruct Hc as [->|?]; [done|lia]. }
  destruct (list_find (fun x => x.1 = (w, kh)) (values batch)) as [[i x]|] eqn:Ex; [|apply Hold; by left].
  destruct (w <=? v) eqn:Ewv; bool_to_prop; [|apply Hold; right; lia]. unfold version_ok in Hw. eapply reads_at_fun; [exact Er|]. left. exists w, (payload x.2).
  split; [lia|]. split; [rewrite Hl, Ex by lia; done|]. split; [|by rewrite value_payload]. intros u Hu. rewrite Hl, Hne by lia. apply Hnew; [done|unfold version_ok in *; lia|lia].
Qed.

(** ** Pruning values *)

Lemma floor_of_spec w vs :
  match floor_of w vs with
  | Some f => f ∈ vs /\ f <= w /\ forall v, v ∈ vs -> v <= w -> v <= f
  | None => forall v, v ∈ vs -> w < v
  end.
Proof.
  induction vs as [|v vs IH]; cbn [floor_of foldr]; [intros v Hv; by apply not_elem_of_nil in Hv|]. fold (floor_of w vs).
  destruct (v <=? w) eqn:E; bool_to_prop.
  - destruct (floor_of w vs) as [f|]; [change (default v (Some f)) with f|change (default v None) with v].
    + destruct IH as (I1 & I2 & I3). split; [destruct (Z.max_spec v f) as [[_ ->]|[_ ->]]; set_solver|]. split; [lia|].
      intros u Hu Hle. apply elem_of_cons in Hu as [->|Hu]; [lia|]. specialize (I3 u Hu Hle). lia.
    + rewrite Z.max_id. split; [left|]. split; [done|]. intros u Hu Hle. apply elem_of_cons in Hu as [->|Hu]; [done|]. specialize (IH u Hu). lia.
  - destruct (floor_of w vs) as [f|]; [destruct IH as (I1 & I2 & I3)|].
    + split; [by right|]. split; [done|]. intros u Hu Hle. apply elem_of_cons in Hu as [->|Hu]; [lia|by apply I3].
    + intros u Hu. apply elem_of_cons in Hu as [->|Hu]; [done|by apply IH].
Qed.

(** The versions a sweep finds of a key. *)
Lemma versions_of_spec vp es : ascending es -> (forall e, e ∈ es -> ble vp e.1 = true) ->
  forall v k, (v, k) ∈ versions_of vp es <-> exists x, (k, x) ∈ es /\ vp `prefix_of` k /\ length k = (length vp + 8)%nat /\ v = be_Z (drop (length vp) k).
Proof.
  induction es as [|[k0 x0] es IH]; intros Hs Hlo v k; cbn [versions_of].
  - rewrite elem_of_nil. split; [done|]. intros (x & Hx & _). by apply not_elem_of_nil in Hx.
  - apply StronglySorted_inv in Hs as [Hs Hf]. specialize (IH Hs (fun e He => Hlo e (list_elem_of_further _ _ _ He))). destruct (starts_with k0 vp) eqn:E.
    + apply starts_with_prefix_of in E. assert (Hrest : (v, k) ∈ versions_of vp es -> exists x, (k, x) ∈ (k0, x0) :: es /\ vp `prefix_of` k /\ length k = (length vp + 8)%nat /\ v = be_Z (drop (length vp) k)).
      { intros (x & Hx & ?)%IH. exists x. split; [by right|done]. }
      destruct (length k0 =? length vp + 8)%nat eqn:El.
      * apply Nat.eqb_eq in El. rewrite elem_of_cons. split; [intros [[= -> ->]|?]; [exists x0; split; [left|done]|by apply Hrest]|].
        intros (x & Hx & Hp & Hlen & ->). apply elem_of_cons in Hx as [[= -> ->]|Hx]; [by left|]. right. apply IH. by exists x.
      * split; [done|]. intros (x & Hx & Hp & Hlen & ->). apply elem_of_cons in Hx as [[= -> ->]|Hx]; [|apply IH; by exists x]. apply Nat.eqb_neq in El. lia.
    + rewrite elem_of_nil. split; [done|]. intros (x & Hx & Hp & _). exfalso.
      assert (Hno : ~ vp `prefix_of` k0) by (intros Hp0; by rewrite (proj2 (starts_with_prefix_of k0 vp) Hp0) in E).
      apply elem_of_cons in Hx as [[= -> ->]|Hx]; [done|]. apply Hno. destruct Hp as [r ->]. rewrite List.Forall_forall in Hf. apply list_elem_of_In in Hx.
      specialize (Hf _ Hx). cbn [fst] in Hf. eapply between_prefix; [|exact Hf]. apply (Hlo (k0, x0)). left.
Qed.

Lemma min_max (ks : list bytes) k kh : ble (min_key ks k) k = true /\ ble k (max_key ks k) = true /\
  (kh ∈ ks -> ble (min_key ks k) kh = true /\ ble kh (max_key ks k) = true).
Proof.
  induction ks as [|a ks IH]; cbn [min_key max_key foldr]; [rewrite ble_refl, elem_of_nil; done|].
  fold (min_key ks k) (max_key ks k). destruct IH as (I1 & I2 & I3).
  assert (Hmin : forall x, ble (min_key ks k) x = true -> ble (if blt a (min_key ks k) then a else min_key ks k) x = true).
  { intros x Hx. destruct (blt a _) eqn:E; [|done]. apply ble_lt_eq. left. by eapply blt_ble_trans. }
  assert (Hmax : forall x, ble x (max_key ks k) = true -> ble x (if blt (max_key ks k) a then a else max_key ks k) = true).
  { intros x Hx. destruct (blt _ a) eqn:E; [|done]. apply ble_lt_eq. left. by eapply ble_blt_trans. }
  split; [by apply Hmin|]. split; [by apply Hmax|]. intros Hin. apply elem_of_cons in Hin as [->|Hin].
  - split; [destruct (blt a _) eqn:E|destruct (blt _ a) eqn:E]; [apply ble_refl|unfold ble; by rewrite E|apply ble_refl|unfold ble; by rewrite E].
  - destruct (I3 Hin). split; [by apply Hmin|by apply Hmax].
Qed.

Lemma max_key_in ks k : max_key ks k ∈ k :: ks.
Proof.
  induction ks as [|a ks IH]; cbn [max_key foldr]; [left|]. fold (max_key ks k). destruct (blt _ a); [set_solver|set_solver].
Qed.

Lemma blt_append a b r r' : blt a b = true -> length a = length b -> blt (a ++ r) (b ++ r') = true.
Proof.
  revert b. induction a as [|x a IH]; intros [|y b]; cbn [blt app length]; try done. intros Hlt Hl. destruct (b2z x <? b2z y); [done|].
  destruct (b2z y <? b2z x); [done|]. apply IH; [done|lia].
Qed.

(** A dead value: one with a newer version at or below the watermark. *)
Definition dead prefix (m : gmap bytes bytes) (w : Z) (kh : bytes) (v : Z) : Prop :=
  version_ok v /\ is_Some (m !! value_key prefix v kh) /\ exists f, v < f <= w /\ version_ok f /\ is_Some (m !! value_key prefix f kh).

(** What a sweep of the bucket of [kh] dooms. *)
Lemma bucket_dead prefix m es w kh :
  values_ok prefix m -> ascending es -> length kh = 32%nat ->
  (forall k x, (k, x) ∈ es -> m !! k = Some x) -> (forall v x, version_ok v -> m !! value_key prefix v kh = Some x -> (value_key prefix v kh, x) ∈ es) ->
  let vp := value_prefix prefix kh in
  let versions := versions_of vp (seek vp es) in
  match floor_of w versions.*1 with
  | Some floor => forall k, k ∈ (List.filter (fun e : Z * bytes => e.1 <? floor) versions).*2 <-> exists v, k = value_key prefix v kh /\ dead prefix m w kh v
  | None => forall v, ~ dead prefix m w kh v
  end.
Proof.
  intros Hok Hs Hk Hes Hall vp versions. destruct (seek_spec vp es Hs) as [Hs' Hin'].
  assert (Hv : forall v k, (v, k) ∈ versions <-> version_ok v /\ k = value_key prefix v kh /\ is_Some (m !! k)).
  { intros v k. unfold versions. rewrite versions_of_spec; [|done|intros e He; by apply Hin'].
    assert (Hnum : forall u, version_ok u -> be_Z (drop (length vp) (value_key prefix u kh)) = u).
    { intros u Hu. unfold value_key. fold vp. rewrite drop_app_length, be_Z_be_bytes_small; [done|]. unfold version_ok, u64_max in Hu. simpl. lia. }
    split.
    - intros (x & [Hx _]%Hin' & Hp & Hlen & ->). specialize (Hes _ _ Hx). destruct (bucket_entries _ _ _ _ _ Hok Hk Hes Hp) as (u & Hu & ->).
      rewrite Hnum by done. by eauto.
    - intros (Hu & -> & [x Hx]). exists x. split; [apply Hin'; split; [by apply Hall|apply ble_self_app]|]. split; [by exists (be_bytes 8 v)|].
      split; [unfold value_key; fold vp; by rewrite length_app, length_be_bytes|by rewrite Hnum]. }
  assert (Hv1 : forall v, v ∈ versions.*1 <-> version_ok v /\ is_Some (m !! value_key prefix v kh)).
  { intros v. rewrite list_elem_of_fmap. split; [intros ([u k] & -> & (Hu & -> & Hx)%Hv); done|]. intros [Hu Hx]. exists (v, value_key prefix v kh). split; [done|]. by apply Hv. }
  pose proof (floor_of_spec w versions.*1) as Hf. destruct (floor_of w versions.*1) as [f|].
  - destruct Hf as ([Hfo Hfs]%Hv1 & Hfw & Hmax). intros k. rewrite list_elem_of_fmap. split.
    + intros ([v k'] & -> & Hx). apply list_elem_of_In, filter_In in Hx as [Hx Hlt]. apply list_elem_of_In, Hv in Hx as (Hu & -> & Hs2). cbn [fst snd] in *. bool_to_prop.
      exists v. split; [done|]. split; [done|]. split; [done|]. exists f. split; [lia|done].
    + intros (v & -> & Hvo & Hvs & f' & Hf' & Hfo' & Hfs'). exists (v, value_key prefix v kh). split; [done|]. apply list_elem_of_In, filter_In. split; [apply list_elem_of_In, Hv; done|].
      cbn [fst]. apply Z.ltb_lt. specialize (Hmax f' (proj2 (Hv1 f') (conj Hfo' Hfs'))). lia.
  - intros v (Hvo & Hvs & f & Hf' & Hfo & Hfs). specialize (Hf f (proj2 (Hv1 f) (conj Hfo Hfs))). lia.
Qed.

(** Removing dead values changes no read at or above the watermark. *)
Lemma remove_dead prefix m m' w kh v r :
  (forall u, version_ok u -> m' !! value_key prefix u kh = m !! value_key prefix u kh \/ (dead prefix m w kh u /\ m' !! value_key prefix u kh = None)) ->
  w <= v -> version_ok v -> reads_at prefix m kh v r -> reads_at prefix m' kh v r.
Proof.
  intros Hm' Hwv Hv [(u & x & Hu & Hx & Hn & ->)|[Hn ->]].
  - left. exists u, x. split; [done|]. unfold version_ok in *. split.
    + destruct (Hm' u) as [->|[(_ & _ & f & Hf & Hfo & Hfs) _]]; [lia|done|]. rewrite Hn in Hfs by lia. by destruct Hfs.
    + split; [|done]. intros u' Hu'. destruct (Hm' u') as [->|[_ ->]]; [lia|by apply Hn|done].
  - right. split; [|done]. intros u' Hu'. unfold version_ok in *. destruct (Hm' u') as [->|[_ ->]]; [lia|by apply Hn|done].
Qed.

(** Every doomed key is a dead value of a judged key; when the budget is not spent
    and all keys are judged, every dead value of them is doomed. *)
Lemma values_loop_spec prefix m es w stop khs : forall budget judged doomed doomed' judged' budget',
  values_ok prefix m -> ascending es -> (forall k x, (k, x) ∈ es -> m !! k = Some x) ->
  (forall kh v x, kh ∈ khs -> version_ok v -> m !! value_key prefix v kh = Some x -> (value_key prefix v kh, x) ∈ es) ->
  Forall (fun kh => length kh = 32%nat) khs ->
  values_loop prefix w stop es khs budget judged doomed = (doomed', judged', budget') ->
  (forall k, k ∈ doomed' -> k ∈ doomed \/ exists kh v, kh ∈ khs /\ k = value_key prefix v kh /\ dead prefix m w kh v) /\
  (length doomed' + budget' = length doomed + budget /\ budget' <= budget)%nat /\ (judged' <= judged + length khs)%nat /\
  (forall k, k ∈ doomed -> k ∈ doomed') /\
  (budget' <> 0%nat -> judged' = (judged + length khs)%nat ->
     forall kh v, kh ∈ khs -> dead prefix m w kh v -> value_key prefix v kh ∈ doomed').
Proof.
  intros budget judged doomed doomed' judged' budget' Hok Hs Hes. revert budget judged doomed doomed' judged' budget'.
  induction khs as [|kh khs IH]; intros budget judged doomed doomed' judged' budget' Hall Hlen; cbn [values_loop].
  - intros [= <- <- <-]. split; [by left|]. cbn [length]. split; [lia|]. split; [lia|]. split; [done|]. intros _ _ kh v Hkh. by apply not_elem_of_nil in Hkh.
  - destruct ((budget =? 0)%nat || _) eqn:Estop.
    { intros [= <- <- <-]. split; [by left|]. cbn [length]. split; [lia|]. split; [lia|]. split; [done|]. intros _ Hj. lia. }
    apply Forall_cons in Hlen as [Hk Hlen]. apply orb_false_iff in Estop as [Eb _].
    assert (Hallk : forall v x, version_ok v -> m !! value_key prefix v kh = Some x -> (value_key prefix v kh, x) ∈ es) by (intros v x; apply Hall; left).
    specialize (IH) with (1 := fun kh' v x Hin => Hall kh' v x (list_elem_of_further _ _ _ Hin)) (2 := Hlen).
    pose proof (bucket_dead prefix m es w kh Hok Hs Hk Hes Hallk) as Hd. cbn zeta in Hd.
    set (versions := versions_of _ _) in *. destruct (floor_of w versions.*1) as [f|].
    + set (dead_keys := (List.filter (fun e : Z * bytes => e.1 <? f) versions).*2) in *.
      intros E. destruct (IH _ _ _ _ _ _ E) as (I1 & I2 & I3 & I4 & I5). rewrite length_app, length_take in I2. rewrite length_take in *.
      split; [|split; [|split; [|split]]].
      * intros k [Hin|(kh' & v & Hin & ?)]%I1; [|right; exists kh', v; split; [by right|done]].
        apply elem_of_app in Hin as [Hin|Hin]; [by left|]. right. apply elem_of_take in Hin as (i & Hi & _). apply list_elem_of_lookup_2, Hd in Hi as (v & -> & ?). exists kh, v. split; [left|done].
      * lia.
      * cbn [length]. lia.
      * intros k Hin. apply I4, elem_of_app. by left.
      * cbn [length]. intros Hb Hj kh' v Hin Hdead. apply elem_of_cons in Hin as [->|Hin]; [|by eapply I5; [done|lia|done|done]].
        apply I4, elem_of_app. right. rewrite take_ge by lia. apply Hd. by exists v.
    + intros E. destruct (IH _ _ _ _ _ _ E) as (I1 & I2 & I3 & I4 & I5). split; [|split; [lia|split; [cbn [length]; lia|split; [done|]]]].
      * intros k [Hin|(kh' & v & Hin & ?)]%I1; [by left|right; exists kh', v; split; [by right|done]].
      * cbn [length]. intros Hb Hj kh' v Hin Hdead. apply elem_of_cons in Hin as [->|Hin]; [by destruct (Hd v)|by eapply I5; [done|lia|done|done]].
Qed.

(** Pruning values is invisible: it deletes only values that no read at or
    above the watermark can return, so every such read of every key returns what
    it returned before; when it judges all the keys within its budget, each of
    them is left with at most one value at or below the watermark. *)
Lemma value_prune_invisible prefix db w khs budget stop n judged budget' db' :
  values_ok prefix (kv_map db) -> Forall (fun kh => length kh = 32%nat) khs ->
  prune_values_of prefix db w khs budget stop = Ok (n, judged, budget', db') ->
  (forall kh v r, length kh = 32%nat -> version_ok v -> w <= v -> reads_at prefix (kv_map db) kh v r -> reads_at prefix (kv_map db') kh v r) /\
  (forall k, kv_map db' !! k = kv_map db !! k \/ kv_map db' !! k = None /\ exists kh v, kh ∈ khs /\ k = value_key prefix v kh /\ dead prefix (kv_map db) w kh v) /\
  (budget' <> 0%nat -> judged = length khs -> forall kh v, kh ∈ khs -> dead prefix (kv_map db) w kh v -> kv_map db' !! value_key prefix v kh = None).
Proof.
  intros Hok Hlen E. destruct khs as [|k0 ks]; cbn [prune_values_of] in E.
  { injection E as <- <- <- <-. split; [done|]. split; [by left|]. intros _ _ kh v Hkh. by apply not_elem_of_nil in Hkh. }
  apply outcome_bind_ok in E as (es & Ees & E). destruct (kv_iterator_map _ _ _ _ Ees) as [Hs Hes].
  destruct (values_loop _ _ _ _ _ _ _ _) as [[doomed judged1] budget1] eqn:El.
  edestruct (values_loop_spec prefix (kv_map db) es w stop (k0 :: ks)) as (D1 & _ & _ & _ & D2); [exact Hok|exact Hs| | |exact Hlen|exact El|].
  - intros k x Hx. by apply Hes in Hx as [? _].
  - intros kh v x Hkh Hv Hx. apply Hes. split; [done|]. apply in_range_spec.
    assert (Hmm : ble (min_key ks k0) kh = true /\ ble kh (max_key ks k0) = true).
    { destruct (min_max ks k0 kh) as (M1 & M2 & M3). apply elem_of_cons in Hkh as [->|Hkh]; [done|by apply M3]. }
    unfold value_key. rewrite !value_prefix_app, <- !app_assoc, !ble_app, !blt_app. split.
    + apply (ble_trans _ kh); [apply Hmm|apply ble_self_app].
    + destruct (proj1 (ble_lt_eq _ _) (proj2 Hmm)) as [Hlt| <-]; [|rewrite blt_app; by apply version_below_top].
      apply (blt_append kh (max_key ks k0)); [done|].
      rewrite Forall_forall in Hlen. rewrite (Hlen kh Hkh). symmetry. apply Hlen. apply max_key_in.
  - assert (Hm' : kv_map db' = foldl apply_kv (kv_map db) (KDelete <$> doomed) /\ judged1 = judged /\ budget1 = budget').
    { case_bool_decide as Ed; [injection E as _ <- <- <-; by rewrite Ed|]. apply outcome_bind_ok in E as (db1 & Ew & [= _ <- <- <-]). by apply kv_write_map in Ew. }
    destruct Hm' as (Em & -> & ->).
    assert (Hk : forall k, kv_map db' !! k = kv_map db !! k \/ kv_map db' !! k = None /\ exists kh v, kh ∈ k0 :: ks /\ k = value_key prefix v kh /\ dead prefix (kv_map db) w kh v).
    { intros k. rewrite Em, apply_deletes. destruct (decide (k ∈ doomed)) as [Hin|Hin]; [rewrite !(bool_decide_eq_true_2 _ Hin); right|rewrite !(bool_decide_eq_false_2 _ Hin); by left]. split; [done|]. destruct (D1 k Hin) as [Hn|?]; [by apply not_elem_of_nil in Hn|done]. }
    split; [|split; [done|]].
    + intros kh v r Hkh Hv Hwv. apply (remove_dead _ _ _ w); [|done|done]. intros u Hu. destruct (Hk (value_key prefix u kh)) as [?|(Hn & kh' & v' & Hin & Ek & Hd)]; [by left|right].
      split; [|done]. rewrite Forall_forall in Hlen. apply value_key_inj in Ek as [-> ->]; [done|rewrite Hkh; symmetry; by apply Hlen|done|apply Hd].
    + intros Hb Hj kh v Hin Hd. rewrite Em, apply_deletes, bool_decide_eq_true_2; [done|]. by eapply D2.
Qed.
End store.
