(* ===== verification/StalePruning.v ===== *)
(** * Pruning stale nodes

    [prune] sweeps the stale records of a tree in batches.  It ends, deletes every
    record at or below the watermark with its node and size memo, and nothing
    else, whatever the batch size. *)

From Stdlib Require Import Strings.Byte Sorted.
From stdpp Require Import gmap sorting.
From S2P Require Import Prelude Bytes TreeStore TreeStoreOrder TreeStoreCorrect.

(** A stale record at or below the watermark [w]. *)
Definition record_version (prefix k : bytes) : Z := be_Z (take 8 (drop (length prefix + 1) k)).
Definition prunable (prefix : bytes) (w : Z) (k : bytes) : bool :=
  starts_with k (prefix ++ [TAG_STALE]) && (length prefix + 1 + 8 <=? length k)%nat && (record_version prefix k <=? w).

Lemma blt_take n : forall a b, blt a b = true -> ble (take n a) (take n b) = true.
Proof.
  induction n as [|n IH]; intros a b Hlt; [done|]. destruct b as [|y b]; [by destruct a|]. destruct a as [|x a]; [done|]. cbn [take blt] in *. unfold ble. cbn [blt].
  destruct (b2z x <? b2z y) eqn:E1; bool_to_prop; [by rewrite (proj2 (Z.ltb_ge (b2z y) (b2z x))) by lia|]. destruct (b2z y <? b2z x) eqn:E2; [done|]. by apply IH.
Qed.

Lemma stale_order prefix k k' :
  (prefix ++ [TAG_STALE]) `prefix_of` k -> (prefix ++ [TAG_STALE]) `prefix_of` k' -> (length prefix + 1 + 8 <= length k)%nat -> (length prefix + 1 + 8 <= length k')%nat ->
  blt k k' = true -> record_version prefix k <= record_version prefix k'.
Proof.
  intros [r ->] [r' ->] Hl Hl' Hlt. rewrite blt_app in Hlt. rewrite !length_app in Hl, Hl'. cbn [length] in *. unfold record_version.
  replace (length prefix + 1)%nat with (length (prefix ++ [TAG_STALE])) by (by rewrite length_app). rewrite !drop_app_length.
  apply (blt_take 8) in Hlt. unfold ble in Hlt. rewrite blt_number in Hlt by (rewrite !length_take; lia). apply negb_true_iff, Z.ltb_ge in Hlt. done.
Qed.

(** The key after [a]. *)
Lemma successor a : forall k, blt a k = true -> ble (a ++ [x00]) k = true.
Proof.
  induction a as [|x a IH]; intros [|y k]; try done.
  - intros _. unfold ble. cbn [app blt]. pose proof (b2z_range y). change (b2z x00) with 0. rewrite (proj2 (Z.ltb_ge (b2z y) 0)) by lia.
    destruct (0 <? b2z y); [done|]. by destruct k.
  - cbn [app]. unfold ble. cbn [blt]. destruct (b2z x <? b2z y) eqn:E1; bool_to_prop; [by rewrite (proj2 (Z.ltb_ge (b2z y) (b2z x))) by lia|].
    destruct (b2z y <? b2z x) eqn:E2; [done|]. by apply IH.
Qed.

(** ** One batch *)

Abbreviation records prefix w es := (List.filter (prunable prefix w) (es.*1)).

Lemma filter_none_records (f : bytes -> bool) l : (forall k, k ∈ l -> f k = false) -> List.filter f l = [].
Proof. induction l as [|a l IH]; intros Hf; cbn [List.filter]; [done|]. rewrite (Hf a) by left. apply IH. intros k Hk. apply Hf. by right. Qed.

Lemma doomed_loop_spec prefix hi w batch es : forall doomed,
  ascending es -> (forall e, e ∈ es -> (prefix ++ [TAG_STALE]) `prefix_of` e.1 /\ blt e.1 hi = true) -> (length doomed <= batch)%nat ->
  doomed_loop (length prefix + 1) hi w batch (fun _ => false) doomed es =
  (doomed ++ take (batch - length doomed) (records prefix w es), (batch - length doomed <? length (records prefix w es))%nat).
Proof.
  induction es as [|[k x] es IH]; intros doomed Hs Hin Hlen; cbn [doomed_loop fmap list_fmap List.filter fst].
  - rewrite take_nil, app_nil_r. by rewrite (proj2 (Nat.ltb_ge _ _)) by (simpl; lia).
  - apply StronglySorted_inv in Hs as [Hs Hf]. destruct (Hin (k, x)) as [Hp Hhi]; [left|]. cbn [fst] in *. rewrite Hhi. cbn [negb].
    assert (Hin' : forall e, e ∈ es -> (prefix ++ [TAG_STALE]) `prefix_of` e.1 /\ blt e.1 hi = true) by (intros e He; apply Hin; by right).
    assert (Hpr : prunable prefix w k = ((length prefix + 1 + 8 <=? length k)%nat && (record_version prefix k <=? w))).
    { unfold prunable. by rewrite (proj2 (starts_with_prefix_of _ _) Hp). }
    rewrite Hpr.
    destruct (length k <? length prefix + 1 + 8)%nat eqn:El; [apply Nat.ltb_lt in El; rewrite (proj2 (Nat.leb_gt _ _)) by lia; cbn [andb]; by apply IH|].
    apply Nat.ltb_ge in El. rewrite (proj2 (Nat.leb_le _ _)) by lia. cbn [andb]. fold (record_version prefix k).
    destruct (w <? record_version prefix k) eqn:Ew; bool_to_prop.
    + rewrite (proj2 (Z.leb_gt _ _)) by lia. replace (records prefix w es) with (@nil bytes).
      { rewrite take_nil, app_nil_r. by rewrite (proj2 (Nat.ltb_ge _ _)) by (simpl; lia). }
      symmetry. apply filter_none_records. intros k' (e & -> & He)%list_elem_of_fmap. unfold prunable. destruct (Hin' e He) as [Hp' _].
      rewrite List.Forall_forall in Hf. destruct (length prefix + 1 + 8 <=? length e.1)%nat eqn:El'; [|by rewrite andb_false_r]. apply Nat.leb_le in El'.
      pose proof (stale_order prefix k e.1 Hp Hp' El El' (Hf e (proj1 (list_elem_of_In _ _) He))). rewrite (proj2 (Z.leb_gt _ _)) by lia. by rewrite andb_false_r.
    + rewrite (proj2 (Z.leb_le _ _)) by lia. rewrite andb_false_r, orb_false_r. destruct (length doomed =? batch)%nat eqn:Eb.
      * apply Nat.eqb_eq in Eb. rewrite Eb, Nat.sub_diag. cbn [take]. by rewrite app_nil_r.
      * apply Nat.eqb_neq in Eb. rewrite IH by (done || rewrite length_app; simpl; lia). rewrite length_app. cbn [length].
        destruct (batch - length doomed)%nat as [|n] eqn:En; [lia|]. replace (batch - (length doomed + 1))%nat with n by lia. cbn [take]. by rewrite <- app_assoc.
Qed.

Abbreviation key_sorted l := (StronglySorted (fun a b : bytes => blt a b = true) l).

Lemma key_sorted_nodup l : key_sorted l -> NoDup l.
Proof.
  induction 1 as [|a l Hs IH Hf]; constructor; [|done]. intros Ha. rewrite List.Forall_forall in Hf. specialize (Hf a (proj1 (list_elem_of_In _ _) Ha)). by rewrite blt_irrefl in Hf.
Qed.
Lemma key_sorted_unique l l' : key_sorted l -> key_sorted l' -> (forall k, k ∈ l <-> k ∈ l') -> l = l'.
Proof.
  intros Hs Hs' He. apply (StronglySorted_unique_strong (fun a b : bytes => blt a b = true)); [|done|done|].
  - intros a b _ _ Hab Hba. by rewrite (blt_asym _ _ Hab) in Hba.
  - apply NoDup_Permutation; [by apply key_sorted_nodup..|done].
Qed.
Lemma keys_sorted es : ascending es -> key_sorted es.*1.
Proof.
  induction 1 as [|e es Hs IH Hf]; cbn [fmap list_fmap]; constructor; [done|]. rewrite List.Forall_forall in *. intros k Hk.
  apply list_elem_of_In, list_elem_of_fmap in Hk as (e' & -> & He). apply Hf. by apply list_elem_of_In.
Qed.
Lemma key_sorted_filter f l : key_sorted l -> key_sorted (List.filter f l).
Proof.
  induction 1 as [|a l Hs IH Hf]; cbn [List.filter]; [constructor|]. destruct (f a); [|done]. constructor; [done|]. rewrite List.Forall_forall in *.
  intros x [Hx _]%filter_In. by apply Hf.
Qed.
Lemma key_sorted_split l l' a b : key_sorted (l ++ l') -> a ∈ l -> b ∈ l' -> blt a b = true.
Proof.
  induction l as [|x l IH]; intros Hs Ha Hb; [by apply not_elem_of_nil in Ha|]. cbn [app] in Hs. apply StronglySorted_inv in Hs as [Hs Hf].
  apply elem_of_cons in Ha as [->|Ha]; [|by apply IH]. rewrite List.Forall_forall in Hf. apply Hf, list_elem_of_In, elem_of_app. by right.
Qed.
Lemma key_sorted_drop n l : key_sorted l -> key_sorted (drop n l).
Proof. revert l. induction n as [|n IH]; intros l Hs; [done|]. destruct l as [|a l]; [done|]. apply StronglySorted_inv in Hs as [Hs _]. by apply IH. Qed.

(** The keys deleted with a list of records. *)
Definition node_of (prefix stale_k : bytes) : bytes := drop (length prefix + 1 + 8) stale_k.
Definition victims (prefix : bytes) (l : list bytes) : list bytes :=
  l ≫= fun k => [node_key_bytes prefix (node_of prefix k); size_key_bytes prefix (node_of prefix k); k].

Lemma doomed_writes_victims prefix l : concat (doomed_writes prefix <$> l) = KDelete <$> victims prefix l.
Proof. unfold victims. induction l as [|k l IH]; [done|]. rewrite bind_cons, fmap_app. cbn [fmap list_fmap concat]. rewrite <- IH. done. Qed.

Lemma victim_record prefix w l k : prunable prefix w k = true -> k ∈ victims prefix l -> k ∈ l.
Proof.
  intros Hp Hk. apply list_elem_of_bind in Hk as (d & Hk & Hd). unfold prunable in Hp. rewrite !andb_true_iff in Hp. destruct Hp as [[[r Er]%starts_with_prefix_of _] _].
  rewrite <- app_assoc in Er. cbn [app] in Er. rewrite !elem_of_cons, elem_of_nil in Hk. destruct Hk as [->|[->|[->|[]]]]; [|by symmetry in Er; apply other_tag in Er|done].
  by symmetry in Er; apply other_tag in Er.
Qed.

Section prune.
Context {K : KvStore} {LK : LawfulKv}.
Implicit Types (db : Kv) (prefix : bytes).

(** The store answers. *)
Definition answers : Prop := (forall db lo hi, is_ok (kv_iterator db lo hi) = true) /\ (forall db ops, is_ok (kv_write db ops) = true).

(** The records of a map at or below the watermark. *)
Definition lists_records prefix (w : Z) (m : gmap bytes bytes) (l : list bytes) : Prop :=
  key_sorted l /\ forall k, k ∈ l <-> is_Some (m !! k) /\ prunable prefix w k = true.

Lemma records_exist prefix w db : answers -> exists l, lists_records prefix w (kv_map db) l.
Proof.
  intros [Hit _]. destruct (kv_iterator db (tag_bounds prefix TAG_STALE).1 (tag_bounds prefix TAG_STALE).2) as [es| |] eqn:E;
    [|by specialize (Hit db (tag_bounds prefix TAG_STALE).1 (tag_bounds prefix TAG_STALE).2); rewrite E in Hit..].
  destruct (kv_iterator_map _ _ _ _ E) as [Hs He]. exists (records prefix w es). split; [by apply key_sorted_filter, keys_sorted|]. intros k.
  rewrite list_elem_of_In, filter_In, <- list_elem_of_In, list_elem_of_fmap. split.
  - intros [([k' x] & -> & [Hx _]%He) Hp]. cbn [fst] in *. split; [by exists x|done].
  - intros [[x Hx] Hp]. split; [|done]. exists (k, x). split; [done|]. apply He. split; [done|]. apply in_range_spec, tag_range; [done|].
    unfold prunable in Hp. rewrite !andb_true_iff in Hp. apply starts_with_prefix_of, Hp.
Qed.

Lemma prune_batch_spec prefix db w from batch l :
  answers -> lists_records prefix w (kv_map db) l -> (forall k, k ∈ l -> ble (default (prefix ++ [TAG_STALE]) from) k = true) ->
  let b := Nat.max batch 1 in
  exists db', prune_batch prefix db w from batch =
      Ok (length (take b l), if (b <? length l)%nat then Some (default [] (last (take b l)) ++ [x00]) else None, db') /\
    forall k, kv_map db' !! k = if bool_decide (k ∈ victims prefix (take b l)) then None else kv_map db !! k.
Proof.
  intros [Hit Hwr] [Hls Hl] Hfrom b. unfold prune_batch, prune_batch_until. cbn [stale_scan_bounds tag_bounds]. fold b.
  specialize (Hit db (prefix ++ [TAG_STALE]) (prefix ++ [z2b (b2z TAG_STALE + 1)])).
  destruct (kv_iterator db _ _) as [es| |] eqn:E; [|done..]. clear Hit. cbn [mbind outcome_bind].
  destruct (kv_iterator_map _ _ _ _ E) as [Hs He]. destruct (seek_spec (default (prefix ++ [TAG_STALE]) from) es Hs) as [Hs' He'].
  assert (Hrange : forall e, e ∈ es -> (prefix ++ [TAG_STALE]) `prefix_of` e.1 /\ blt e.1 (prefix ++ [z2b (b2z TAG_STALE + 1)]) = true).
  { intros [k x] [_ Hr]%He. apply in_range_spec in Hr as [Hr1 Hr2]. split; [|done]. apply tag_range; done. }
  rewrite doomed_loop_spec; [|done|intros e [? _]%He'; by apply Hrange|simpl; lia].
  assert (El : records prefix w (seek (default (prefix ++ [TAG_STALE]) from) es) = l).
  { apply key_sorted_unique; [by apply key_sorted_filter, keys_sorted|done|]. intros k. rewrite list_elem_of_In, filter_In, <- list_elem_of_In, list_elem_of_fmap, Hl. split.
    - intros [([k' x] & -> & [[Hx _]%He _]%He') Hp]. cbn [fst] in *. split; [by exists x|done].
    - intros [[x Hx] Hp]. split; [|done]. exists (k, x). split; [done|]. apply He'. split; [|apply Hfrom, Hl; by eauto]. apply He. split; [done|].
      apply in_range_spec, (tag_range prefix TAG_STALE); [done|]. unfold prunable in Hp. rewrite !andb_true_iff in Hp. apply starts_with_prefix_of, Hp. }
  rewrite El. cbn [length app]. rewrite Nat.sub_0_r. case_bool_decide as Ed.
  - exists db. rewrite Ed. assert (l = []) as -> by (destruct l; [done|]; by destruct b eqn:Eb; [unfold b in Eb; lia|]). cbn [length]. by rewrite (proj2 (Nat.ltb_ge _ _)) by lia.
  - rewrite doomed_writes_victims. specialize (Hwr db (KDelete <$> victims prefix (take b l))). destruct (kv_write db _) as [db'| |] eqn:Ew; [|done..].
    exists db'. split; [done|]. intros k. rewrite (kv_write_map _ _ _ Ew). apply apply_deletes.
Qed.

Lemma victims_app prefix l l' k : k ∈ victims prefix (l ++ l') <-> k ∈ victims prefix l \/ k ∈ victims prefix l'.
Proof. unfold victims. by rewrite bind_app, elem_of_app. Qed.

(** After a batch the records left are the rest of the list. *)
Lemma records_left prefix w m m' l n :
  lists_records prefix w m l -> (forall k, m' !! k = if bool_decide (k ∈ victims prefix (take n l)) then None else m !! k) ->
  lists_records prefix w m' (drop n l).
Proof.
  intros [Hs Hl] Hm'. split; [by apply key_sorted_drop|]. intros k. rewrite Hm'. pose proof (key_sorted_nodup _ Hs) as Hnd.
  rewrite <- (take_drop n l) in Hnd. apply NoDup_app in Hnd as (_ & Hdis & _). split.
  - intros Hk. assert (Hkl : k ∈ l) by (rewrite <- (take_drop n l); apply elem_of_app; by right). apply Hl in Hkl as [Hsome Hp].
    rewrite bool_decide_eq_false_2; [done|]. intros Hv. apply (victim_record _ w) in Hv; [|done]. by apply (Hdis k).
  - intros [Hsome Hp]. case_bool_decide as Hv; [by destruct Hsome|]. assert (Hkl : k ∈ l) by (by apply Hl). rewrite <- (take_drop n l) in Hkl.
    apply elem_of_app in Hkl as [Hkl|?]; [|done]. exfalso. apply Hv. apply list_elem_of_bind. exists k. split; [|done]. set_solver.
Qed.

Lemma prune_loop_spec prefix w batch fuel : forall db from pruned l,
  answers -> lists_records prefix w (kv_map db) l -> (forall k, k ∈ l -> ble (default (prefix ++ [TAG_STALE]) from) k = true) -> (length l < fuel)%nat ->
  exists db', prune_loop fuel prefix db w batch from pruned = Ok (pruned + length l, db')%nat /\
    forall k, kv_map db' !! k = if bool_decide (k ∈ victims prefix l) then None else kv_map db !! k.
Proof.
  induction fuel as [|fuel IH]; intros db from pruned l Ha Hl Hfrom Hfuel; [lia|]. cbn [prune_loop].
  destruct (prune_batch_spec prefix db w from batch l Ha Hl Hfrom) as (db1 & E1 & Hm1). cbn zeta in *. set (b := Nat.max batch 1) in *. rewrite E1. cbn [mbind outcome_bind].
  destruct (b <? length l)%nat eqn:Eb.
  - apply Nat.ltb_lt in Eb. assert (Hb : (1 <= b)%nat) by (unfold b; lia).
    destruct (IH db1 (Some (default [] (last (take b l)) ++ [x00])) (pruned + length (take b l))%nat (drop b l)) as (db2 & E2 & Hm2).
    + done.
    + by eapply records_left.
    + intros k Hk. change (default (prefix ++ [TAG_STALE]) (Some (default [] (last (take b l)) ++ [x00]))) with (default [] (last (take b l)) ++ [x00]). apply successor.
      destruct (last (take b l)) as [a|] eqn:Ea.
      * change (default [] (Some a)) with a. apply (key_sorted_split (take b l) (drop b l)); [rewrite take_drop; apply Hl|apply last_Some in Ea as [l' ->]; set_solver|done].
      * apply last_None in Ea. apply (f_equal length) in Ea. rewrite length_take in Ea. simpl in Ea. lia.
    + rewrite length_drop. lia.
    + exists db2. rewrite E2, length_take, length_drop. split; [do 2 f_equal; lia|]. intros k. rewrite Hm2, Hm1.
      assert (Hv : k ∈ victims prefix l <-> k ∈ victims prefix (take b l) \/ k ∈ victims prefix (drop b l)) by (by rewrite <- victims_app, take_drop).
      destruct (decide (k ∈ victims prefix (drop b l))) as [Hd|Hd]; [rewrite !bool_decide_eq_true_2; [done|apply Hv; by right|done]|].
      rewrite (bool_decide_eq_false_2 _ Hd). apply (f_equal (fun c : bool => if c then None else kv_map db !! k)). apply bool_decide_ext. tauto.
  - apply Nat.ltb_ge in Eb. rewrite take_ge in Hm1 |- * by lia. by exists db1.
Qed.

(** C18. Pruning stale nodes ends and is exact: with more fuel than there are stale
    records at or below the watermark, it deletes each of them with its node and
    its size memo, returns their number, and keeps every other key, whatever the
    batch size. *)
Theorem prune_exact prefix db w batch fuel l :
  answers -> lists_records prefix w (kv_map db) l -> (length l < fuel)%nat ->
  exists db', prune_in_batches fuel prefix db w batch = Ok (length l, db') /\
    forall k, kv_map db' !! k = if bool_decide (k ∈ victims prefix l) then None else kv_map db !! k.
Proof.
  intros Ha Hl Hf. destruct (prune_loop_spec prefix w batch fuel db None 0 l Ha Hl) as (db' & E & Hm); [|done|].
  - intros k Hk. apply Hl in Hk as [_ Hp]. unfold prunable in Hp. rewrite !andb_true_iff in Hp. destruct Hp as [[Hp _] _].
    apply starts_with_prefix_of in Hp as [r ->]. apply ble_self_app.
  - by exists db'.
Qed.
End prune.
