(* ===== verification/LeafSweep.v ===== *)
(** * Sweeps of the value column

    [leaves_between] reads the live leaves of a key range page by page;
    [value_prune_candidates] finds the keys with dead values.  Both walk the value
    column, sorted by key and then version, and act when the key changes. *)

From Stdlib Require Import Strings.Byte Sorted.
From stdpp Require Import gmap sorting.
From S2P Require Import Prelude Bytes TreeStore TreeStoreOrder TreeStoreCorrect StalePruning.

(** ** Entries of the value column *)

(** A stored version: key hash, version, payload. *)
Abbreviation stored := (bytes * Z * bytes)%type.
Definition entry_of (prefix : bytes) (t : stored) : bytes * bytes := (value_key prefix t.1.2 t.1.1, t.2).
Definition stored_ok (t : stored) : Prop := length t.1.1 = 32%nat /\ version_ok t.1.2.
Definition older (t t' : stored) : Prop := blt t.1.1 t'.1.1 = true \/ (t.1.1 = t'.1.1 /\ t.1.2 < t'.1.2).

Lemma older_entry prefix t t' : stored_ok t -> stored_ok t' -> blt (entry_of prefix t).1 (entry_of prefix t').1 = true -> older t t'.
Proof.
  destruct t as [[k v] x], t' as [[k' v'] x']. intros [Hk Hv] [Hk' Hv']. unfold entry_of, older, value_key. cbn [fst snd] in *.
  rewrite !value_prefix_app, <- !app_assoc, !blt_app. intros Hlt. destruct (blt k k') eqn:E; [by left|right]. destruct (blt k' k) eqn:E'.
  - apply (blt_append _ _ (be_bytes 8 v') (be_bytes 8 v)) in E'; [|congruence]. by rewrite (blt_asym _ _ E') in Hlt.
  - rewrite (blt_total _ _ E E') in Hlt |- *. rewrite blt_app, blt_version in Hlt by done. bool_to_prop. done.
Qed.

Lemma column_entries prefix m es :
  values_ok prefix m -> ascending es -> (forall e, e ∈ es -> m !! e.1 = Some e.2 /\ (prefix ++ [TAG_VALUE]) `prefix_of` e.1) ->
  exists T, es = entry_of prefix <$> T /\ Forall stored_ok T /\ StronglySorted older T.
Proof.
  intros Hok. induction es as [|[k x] es IH]; intros Hs He; [exists []; by repeat constructor|]. apply StronglySorted_inv in Hs as [Hs Hf].
  destruct (IH Hs) as (T & -> & HT & HsT); [intros e ?; apply He; by right|]. destruct (He (k, x)) as [Hx Hp]; [left|]. cbn [fst snd] in *.
  destruct (Hok _ _ Hx Hp) as (w & kh & Hl & Hw & ->). exists ((kh, w, x) :: T). split; [done|]. split; [by constructor|]. constructor; [done|].
  rewrite List.Forall_forall in *. intros t Ht. apply (older_entry prefix); [done|by apply HT|]. apply (Hf (entry_of prefix t)). by apply in_map.
Qed.

Lemma entry_parts prefix t : stored_ok t ->
  entry_key (length prefix + 1) (entry_of prefix t).1 = Some t.1.1 /\ entry_version (length prefix + 1) (entry_of prefix t).1 = t.1.2 /\
  be_Z (drop (length prefix + 1 + 32) (entry_of prefix t).1) = t.1.2.
Proof.
  destruct t as [[kh w] x]. intros [Hl Hw]. unfold entry_key, entry_version, entry_of, value_key. cbn [fst snd] in *. rewrite value_prefix_app.
  replace (length prefix + 1)%nat with (length (prefix ++ [TAG_VALUE])) by (by rewrite length_app). set (p := prefix ++ [TAG_VALUE]).
  assert (E32 : drop (length p + 32) ((p ++ kh) ++ be_bytes 8 w) = be_bytes 8 w) by (apply drop_app_length'; rewrite length_app; lia).
  assert (Ew : be_Z (be_bytes 8 w) = w) by (apply be_Z_be_bytes_small; unfold version_ok, u64_max in Hw; simpl; lia).
  rewrite E32. rewrite (proj2 (Nat.eqb_eq _ _)) by (rewrite !length_app, length_be_bytes; lia). rewrite <- app_assoc, drop_app_length, <- Hl, take_app_length.
  split; [done|]. split; [|done]. rewrite firstn_all2 by (by rewrite length_be_bytes). done.
Qed.

Lemma live_payload x : live_value x = value_of_payload x.
Proof. destruct x as [|b r]; [done|]. by destruct b; destruct r. Qed.

(** ** What a sweep collects *)

Definition step_value (v : Z) (acc : option bytes) (t : stored) : option bytes := if t.1.2 <=? v then live_value t.2 else acc.
Definition shown (cur : option (bytes * option bytes)) : list (bytes * bytes) := match cur with Some (k, Some x) => [(k, x)] | _ => [] end.
Fixpoint collect (v : Z) (cur : option (bytes * option bytes)) (T : list stored) : list (bytes * bytes) :=
  match T with
  | [] => shown cur
  | t :: rest =>
      match cur with
      | Some (k, r) => if bool_decide (t.1.1 = k) then collect v (Some (k, step_value v r t)) rest
                       else shown cur ++ collect v (Some (t.1.1, step_value v None t)) rest
      | None => collect v (Some (t.1.1, step_value v None t)) rest
      end
  end.

Definition page_bytes (l : list (bytes * bytes)) : nat := sum_list_with (length ∘ snd) l.

(** The limits a page keeps: one leaf at least, else both. *)
Definition within (max_leaves max_bytes : nat) (l : list (bytes * bytes)) : Prop :=
  (length l <= Nat.max 1 max_leaves)%nat /\ ((length l <= 1)%nat \/ (page_bytes l <= max_bytes)%nat).

Lemma flush_spec ml mb l nb cur : nb = page_bytes l -> within ml mb l ->
  match flush ml mb l nb cur with
  | Some (l', nb') => l' = l ++ shown cur /\ nb' = page_bytes l' /\ within ml mb l'
  | None => l <> [] /\ shown cur <> []
  end.
Proof.
  intros -> [W1 W2]. unfold flush. destruct cur as [[k [x|]]|]; cbn [shown]; [|by rewrite app_nil_r..].
  destruct (negb _ && _) eqn:E.
  - apply andb_true_iff in E as [E _]. by bool_to_prop.
  - assert (Eb : page_bytes (l ++ [(k, x)]) = (page_bytes l + length x)%nat) by (unfold page_bytes; rewrite sum_list_with_app; cbn; lia).
    split; [done|]. rewrite Eb. split; [done|]. unfold within. rewrite Eb, length_app. cbn [length].
    apply andb_false_iff in E as [E|E].
    + apply negb_false_iff, bool_decide_eq_true in E. subst l. cbn [length]. split; [lia|left; lia].
    + apply orb_false_iff in E as [E1 E2]. bool_to_prop. split; [lia|right; lia].
Qed.

(** The pages of a sweep cut what it collects. *)
Lemma leaves_loop_spec prefix v ml mb T : forall l nb cur page more,
  Forall stored_ok T -> nb = page_bytes l -> within ml mb l ->
  leaves_loop (length prefix + 1) v ml mb l nb cur (entry_of prefix <$> T) = (page, more) ->
  exists rest, l ++ collect v cur T = page ++ rest /\ within ml mb page /\ (if more then page <> [] /\ rest <> [] else rest = []).
Proof.
  induction T as [|t T IH]; intros l nb cur page more HT Hnb Hw; cbn [fmap list_fmap leaves_loop collect].
  - pose proof (flush_spec ml mb l nb cur Hnb Hw) as Hf. destruct (flush ml mb l nb cur) as [[l' nb']|].
    + destruct Hf as (-> & _ & Hw'). intros [= <- <-]. exists []. by rewrite app_nil_r.
    + destruct Hf as [Hl Hs]. intros [= <- <-]. by exists (shown cur).
  - apply Forall_cons in HT as [Ht HT]. destruct (entry_parts prefix t Ht) as (Ek & Ev & _). unfold entry_of in Ek, Ev |- * at 1. cbn [fst] in Ek, Ev. rewrite Ek, Ev.
    assert (Hstep : forall acc : bytes * option bytes, (if t.1.2 <=? v then (acc.1, live_value t.2) else acc) = (acc.1, step_value v acc.2 t)).
    { intros [k r]. unfold step_value. by destruct (t.1.2 <=? v). }
    destruct cur as [[k r]|].
    + destruct (decide (t.1.1 = k)) as [Hk|Hk].
      * rewrite (bool_decide_eq_true_2 _ Hk). cbn [negb]. change (default (t.1.1, None) (Some (k, r))) with (k, r). rewrite Hstep. by apply IH.
      * rewrite (bool_decide_eq_false_2 _ Hk). cbn [negb]. pose proof (flush_spec ml mb l nb (Some (k, r)) Hnb Hw) as Hf. destruct (flush ml mb l nb (Some (k, r))) as [[l' nb']|].
        -- destruct Hf as (-> & Hnb' & Hw'). change (default (t.1.1, None) None) with (t.1.1, @None bytes). rewrite Hstep. cbn [fst snd]. intros E.
           destruct (IH _ _ _ _ _ HT Hnb' Hw' E) as (rest & Er & H1 & H2). exists rest. split; [|done]. by rewrite <- Er, <- app_assoc.
        -- destruct Hf as [Hl Hs]. intros [= <- <-]. exists (shown (Some (k, r)) ++ collect v (Some (t.1.1, step_value v None t)) T). split; [done|]. split; [done|]. split; [done|].
           intros [E _]%app_nil. done.
    + change (default (t.1.1, None) None) with (t.1.1, @None bytes). rewrite Hstep. by apply IH.
Qed.

(** ** The leaves of a key range *)

(** The last stored version at or below [v] decides. *)
Definition value_in (v : Z) (T : list stored) (kh : bytes) (acc : option bytes) : option bytes :=
  foldl (fun acc t => if bool_decide (t.1.1 = kh) then step_value v acc t else acc) acc T.

Lemma value_in_other v T kh acc : (forall t, t ∈ T -> t.1.1 <> kh) -> value_in v T kh acc = acc.
Proof.
  revert acc. induction T as [|t T IH]; intros acc Hn; cbn [value_in foldl]; [done|]. rewrite bool_decide_eq_false_2 by (apply Hn; left).
  apply IH. intros t' Ht'. apply Hn. by right.
Qed.

Definition cur_value (cur : option (bytes * option bytes)) (kh : bytes) : option bytes :=
  match cur with Some (k, r) => if bool_decide (kh = k) then r else None | None => None end.
Definition cur_before (cur : option (bytes * option bytes)) (T : list stored) : Prop :=
  forall k r, cur = Some (k, r) -> forall t, t ∈ T -> ble k t.1.1 = true.

Lemma older_keys t T : StronglySorted older (t :: T) -> forall t', t' ∈ T -> ble t.1.1 t'.1.1 = true.
Proof.
  intros [_ Hf]%StronglySorted_inv t' Ht'. rewrite List.Forall_forall in Hf. apply ble_lt_eq. destruct (Hf t' (proj1 (list_elem_of_In _ _) Ht')) as [?|[? _]]; [by left|by right].
Qed.

Lemma collect_elem v T : forall cur kh x, StronglySorted older T -> cur_before cur T ->
  (kh, x) ∈ collect v cur T <-> value_in v T kh (cur_value cur kh) = Some x.
Proof.
  assert (Hshown : forall cur kh x, (kh, x) ∈ shown cur <-> cur_value cur kh = Some x).
  { intros [[k [y|]]|] kh x; cbn [shown cur_value]; rewrite ?list_elem_of_singleton, ?elem_of_nil; [|split; [done|by case_bool_decide]|done].
    case_bool_decide; split; congruence. }
  induction T as [|t T IH]; intros cur kh x Hs Hb; cbn [collect value_in foldl]; [by rewrite Hshown|].
  pose proof (older_keys t T Hs) as Hge. apply StronglySorted_inv in Hs as [Hs _].
  assert (Hnew : forall r, cur_before (Some (t.1.1, r)) T) by (intros r k r' [= <- _]; done).
  destruct cur as [[k r]|]; [destruct (decide (t.1.1 = k)) as [Hk|Hk]|].
  - rewrite (bool_decide_eq_true_2 _ Hk), IH; [|done|by rewrite <- Hk]. unfold value_in. cbn [cur_value]. subst k.
    destruct (decide (kh = t.1.1)) as [->|Hne]; [by rewrite !bool_decide_eq_true_2|]. rewrite !bool_decide_eq_false_2 by congruence. done.
  - rewrite (bool_decide_eq_false_2 _ Hk). rewrite elem_of_app, Hshown, IH by done. cbn [cur_value].
    assert (Hlt : blt k t.1.1 = true) by (destruct (proj1 (ble_lt_eq _ _) (Hb k r eq_refl t (list_elem_of_here _ _))) as [?|?]; [done|congruence]).
    destruct (decide (kh = k)) as [->|Hkh].
    + rewrite (bool_decide_eq_true_2 (k = k)) by done. rewrite !bool_decide_eq_false_2 by congruence.
      assert (Hno : forall t', t' ∈ T -> t'.1.1 <> k).
      { intros t' Ht' E. specialize (Hge t' Ht'). rewrite E in Hge. unfold ble in Hge. by rewrite Hlt in Hge. }
      fold (value_in v T k r). rewrite !value_in_other by done. split; [intros [?|?]; done|by left].
    + rewrite (bool_decide_eq_false_2 (kh = k)) by done. fold (value_in v T kh None). destruct (decide (kh = t.1.1)) as [->|Hne].
      * rewrite !bool_decide_eq_true_2 by done. split; [intros [?|?]; done|by right].
      * rewrite !bool_decide_eq_false_2 by congruence. split; [intros [?|?]; done|by right].
  - rewrite IH by done. cbn [cur_value]. unfold value_in. destruct (decide (kh = t.1.1)) as [->|Hne]; [by rewrite !bool_decide_eq_true_2|].
    by rewrite !bool_decide_eq_false_2 by congruence.
Qed.

Lemma collect_sorted v T : forall cur, StronglySorted older T -> cur_before cur T -> key_sorted (collect v cur T).*1.
Proof.
  induction T as [|t T IH]; intros cur Hs Hb; cbn [collect]; [destruct cur as [[k [y|]]|]; cbn; repeat constructor|].
  pose proof (older_keys t T Hs) as Hge. pose proof Hs as [Hs' _]%StronglySorted_inv.
  assert (Hnew : forall r, cur_before (Some (t.1.1, r)) T) by (intros r k r' [= <- _]; done).
  destruct cur as [[k r]|]; [destruct (decide (t.1.1 = k)) as [Hk|Hk]|]; [rewrite (bool_decide_eq_true_2 _ Hk); apply IH; [done|by rewrite <- Hk]| |by apply IH].
  rewrite (bool_decide_eq_false_2 _ Hk). destruct r as [y|]; cbn [shown app]; [|by apply IH]. cbn [fmap list_fmap fst]. constructor; [by apply IH|].
  assert (Hlt : blt k t.1.1 = true) by (destruct (proj1 (ble_lt_eq _ _) (Hb k (Some y) eq_refl t (list_elem_of_here _ _))) as [?|?]; [done|congruence]).
  rewrite List.Forall_forall. intros kh Hkh. apply list_elem_of_In, list_elem_of_fmap in Hkh as ([kh' x] & -> & Hx). cbn [fst].
  apply collect_elem in Hx; [|done|done]. destruct (decide (kh' = t.1.1)) as [->|Hne]; [done|]. cbn [cur_value] in Hx. rewrite bool_decide_eq_false_2 in Hx by done.
  destruct (decide (Exists (fun t' : stored => t'.1.1 = kh') T)) as [He|He].
  - apply Exists_exists in He as (t' & Ht' & <-). eapply blt_ble_trans; [exact Hlt|]. by apply Hge.
  - rewrite value_in_other in Hx; [done|]. intros t' Ht' E. apply He, Exists_exists. by exists t'.
Qed.

(** The value of a key in a sorted column is the newest at or below [v]. *)
Lemma value_in_newest v kh T : StronglySorted older T ->
  (exists w x, (kh, w, x) ∈ T /\ w <= v /\ (forall w' x', (kh, w', x') ∈ T -> w' <= v -> w' <= w) /\ value_in v T kh None = live_value x) \/
  ((forall w x, (kh, w, x) ∈ T -> v < w) /\ value_in v T kh None = None).
Proof.
  induction T as [|t T IH] using rev_ind; intros Hs; [right; split; [intros w x Hx; by apply not_elem_of_nil in Hx|done]|].
  assert (Hs' : StronglySorted older T /\ forall t', t' ∈ T -> older t' t).
  { clear IH. induction T as [|a T IHT]; [split; [constructor|intros t' Ht; by apply not_elem_of_nil in Ht]|]. cbn [app] in Hs. apply StronglySorted_inv in Hs as [Hs Hf].
    destruct (IHT Hs) as [I1 I2]. rewrite List.Forall_forall in Hf. split.
    - constructor; [done|]. rewrite List.Forall_forall. intros y Hy. apply Hf, in_or_app. by left.
    - intros t' Ht. apply elem_of_cons in Ht as [->|Ht]; [apply Hf, in_or_app; right; by left|by apply I2]. }
  destruct Hs' as [Hs' Hlast]. specialize (IH Hs'). unfold value_in in *. rewrite foldl_app. cbn [foldl]. destruct t as [[k w] x]. cbn [fst snd] in *.
  assert (Hin : forall w' x', (kh, w', x') ∈ T ++ [(k, w, x)] -> (kh, w', x') ∈ T \/ (k = kh /\ w' = w /\ x' = x)).
  { intros w' x' Hx. apply elem_of_app in Hx as [?|Hx]; [by left|]. apply list_elem_of_singleton in Hx as [= -> -> ->]. by right. }
  unfold step_value. cbn [fst snd]. destruct (decide (k = kh)) as [->|Hk].
  - rewrite bool_decide_eq_true_2 by done. destruct (w <=? v) eqn:Ew; bool_to_prop.
    + left. exists w, x. split; [apply elem_of_app; right; by apply list_elem_of_singleton|]. split; [done|]. split; [|done].
      intros w' x' [Hx|(_ & -> & _)]%Hin Hw'; [|done]. destruct (Hlast _ Hx) as [Hlt|[_ Hlt]]; cbn [fst snd] in Hlt; [by rewrite blt_irrefl in Hlt|lia].
    + destruct IH as [(u & y & Hu & Hle & Hmax & Hv)|[Hn Hv]]; [left; exists u, y|right]; (split; [|]).
      * apply elem_of_app; by left.
      * split; [done|]. split; [|done]. intros w' x' [Hx|(_ & -> & _)]%Hin Hw'; [by eapply Hmax|lia].
      * intros w' x' [Hx|(_ & -> & _)]%Hin; [by eapply Hn|lia].
      * done.
  - rewrite bool_decide_eq_false_2 by done. destruct IH as [(u & y & Hu & Hle & Hmax & Hv)|[Hn Hv]]; [left; exists u, y|right]; (split; [|]).
    + apply elem_of_app; by left.
    + split; [done|]. split; [|done]. intros w' x' [Hx|(? & _)]%Hin Hw'; [by eapply Hmax|done].
    + intros w' x' [Hx|(? & _)]%Hin; [by eapply Hn|done].
    + done.
Qed.

Lemma value_in_reads prefix m T v kh : StronglySorted older T ->
  (forall w x, (kh, w, x) ∈ T <-> version_ok w /\ m !! value_key prefix w kh = Some x) -> version_ok v ->
  reads_at prefix m kh v (value_in v T kh None).
Proof.
  intros Hs HT Hv. destruct (value_in_newest v kh T Hs) as [(w & x & Hx & Hw & Hmax & ->)|[Hn ->]].
  - apply HT in Hx as [Hwo Hx]. left. exists w, x. unfold version_ok in *. split; [lia|]. split; [done|]. split; [|apply live_payload].
    intros w' Hw'. destruct (m !! value_key prefix w' kh) as [y|] eqn:Ey; [|done]. assert (w' <= w); [|lia]. apply (Hmax w' y); [|lia]. apply HT. split; [lia|done].
  - right. split; [|done]. unfold version_ok in *. intros w' Hw'. destruct (m !! value_key prefix w' kh) as [y|] eqn:Ey; [|done]. assert (v < w'); [|lia]. apply (Hn w' y), HT. split; [lia|done].
Qed.

(** The live leaves of a range, after a key, in order. *)
Definition lists_leaves (prefix : bytes) (m : gmap bytes bytes) (v : Z) (first last : bytes) (after : option bytes) (l : list (bytes * bytes)) : Prop :=
  key_sorted l.*1 /\
  forall kh x, (kh, x) ∈ l <-> length kh = 32%nat /\ ble first kh = true /\ ble kh last = true /\ (forall a, after = Some a -> blt a kh = true) /\
    reads_at prefix m kh v (Some x).

(** The rest of a listing lists what comes after its last leaf. *)
Lemma rest_lists prefix m v first last after l k x rest :
  lists_leaves prefix m v first last after (l ++ [(k, x)] ++ rest) -> lists_leaves prefix m v first last (Some k) rest.
Proof.
  intros [Hs Hl]. rewrite fmap_app in Hs. cbn [app fmap list_fmap fst] in Hs.
  assert (Hk : (k, x) ∈ l ++ [(k, x)] ++ rest) by set_solver. apply Hl in Hk as (_ & _ & _ & Hka & _).
  assert (Hafter : forall kh y, (kh, y) ∈ rest -> blt k kh = true).
  { intros kh y Hy. eapply (key_sorted_split (l.*1 ++ [k]) rest.*1); [by rewrite <- app_assoc|set_solver|apply list_elem_of_fmap; by exists (kh, y)]. }
  assert (Hbefore : forall kh y, (kh, y) ∈ l -> blt kh k = true).
  { intros kh y Hy. eapply (key_sorted_split l.*1 (k :: rest.*1)); [done|apply list_elem_of_fmap; by exists (kh, y)|left]. }
  split.
  - clear -Hs. induction (l.*1) as [|a q IH]; cbn [app] in Hs; apply StronglySorted_inv in Hs as [Hs _]; [done|by apply IH].
  - intros kh y. split.
    + intros Hy. destruct (Hl kh y) as [Hf _]. destruct Hf as (F1 & F2 & F3 & F4 & F5); [set_solver|]. split; [done|]. split; [done|]. split; [done|]. split; [|done].
      intros a [= <-]. by eapply Hafter.
    + intros (F1 & F2 & F3 & F4 & F5). specialize (F4 k eq_refl). destruct (Hl kh y) as [_ Hb]. rewrite !elem_of_app in Hb. destruct Hb as [Hin|[Hin|Hin]].
      * split; [done|]. split; [done|]. split; [done|]. split; [|done]. intros a Ha. eapply blt_trans; [by apply Hka|done].
      * specialize (Hbefore _ _ Hin). by rewrite (blt_asym _ _ F4) in Hbefore.
      * apply list_elem_of_singleton in Hin as [= -> _]. by rewrite blt_irrefl in F4.
      * done.
Qed.

Section sweep.
Context {K : KvStore} {LK : LawfulKv}.

(** The bounds of a page select the keys of the range. *)
Lemma page_bounds prefix first last after kh w :
  length first = 32%nat -> length last = 32%nat -> (forall a, after = Some a -> length a = 32%nat) -> length kh = 32%nat -> version_ok w ->
  let at_key := fun (key : bytes) (past_versions : bool) => prefix ++ TAG_VALUE :: key ++ (if past_versions then replicate 9 xff else []) in
  let lo := at_key first false in
  let k := value_key prefix w kh in
  ble lo k = ble first kh /\ blt k (at_key last true) = ble kh last /\
  (ble (match after with Some a => let b := at_key a true in if blt b lo then lo else b | None => lo end) k = true <->
     ble first kh = true /\ forall a, after = Some a -> blt a kh = true).
Proof.
  intros Hf Hla Ha Hk Hw at_key lo k. assert (Ek : k = prefix ++ TAG_VALUE :: kh ++ be_bytes 8 w) by (unfold k, value_key; by rewrite value_prefix_app, <- !app_assoc).
  assert (Hlo : ble lo k = ble first kh).
  { rewrite Ek. unfold lo, at_key. rewrite app_nil_r, !ble_app. unfold ble. rewrite blt_cons. f_equal. destruct (blt kh first) eqn:E.
    - rewrite <- (app_nil_r first). by apply blt_append; [|congruence].
    - destruct (blt (kh ++ be_bytes 8 w) first) eqn:E'; [|done]. exfalso. assert (Hle : ble first kh = true) by (unfold ble; by rewrite E).
      assert (Hx : ble first (kh ++ be_bytes 8 w) = true) by (eapply ble_trans; [exact Hle|apply ble_self_app]). unfold ble in Hx. by rewrite E' in Hx. }
  assert (Hpast : forall a, length a = 32%nat -> blt (kh ++ be_bytes 8 w) (a ++ replicate 9 xff) = ble kh a).
  { intros a La. unfold ble. destruct (blt a kh) eqn:E; cbn [negb].
    - apply blt_asym. apply blt_append; [done|congruence].
    - destruct (blt kh a) eqn:E'; [by apply blt_append; [|congruence]|]. rewrite (blt_total _ _ E E'), blt_app. eapply blt_trans; [by apply version_below_top|done]. }
  split; [done|]. split.
  - rewrite Ek. unfold at_key. rewrite blt_app, blt_cons. by apply Hpast.
  - destruct after as [a|]; [|rewrite Hlo; naive_solver]. cbn zeta. assert (Hpa : ble (at_key a true) k = blt a kh).
    { rewrite Ek. unfold at_key. rewrite ble_app. unfold ble. rewrite blt_cons, Hpast by (by apply Ha). by rewrite <- blt_not_ble. }
    destruct (blt (at_key a true) lo) eqn:E.
    + rewrite Hlo. split; [|tauto]. intros Hle. split; [done|]. intros a' [= <-]. rewrite <- Hpa. apply ble_lt_eq. left. eapply blt_ble_trans; [exact E|]. by rewrite Hlo.
    + rewrite Hpa. split; [|naive_solver]. intros Hlt. split; [|by intros a' [= <-]]. rewrite <- Hlo. eapply (ble_trans _ (at_key a true)); [unfold ble; by rewrite E|by rewrite Hpa].
Qed.

(** C15. Paging is complete: a page lists the first live leaves of the range after
    the given key, in key order, each with its newest value at or below the
    version; the flag is set exactly when leaves are left, a page with leaves left
    is not empty, and the leaves left are those of the next page, which starts
    after the last leaf of this one.  A page keeps both limits unless it is a
    single leaf. *)
Theorem pages_complete prefix db v first last after ml mb page more :
  values_ok prefix (kv_map db) -> version_ok v -> length first = 32%nat -> length last = 32%nat -> (forall a, after = Some a -> length a = 32%nat) ->
  leaves_between prefix db v first last after ml mb = Ok (page, more) ->
  exists rest, lists_leaves prefix (kv_map db) v first last after (page ++ rest) /\
    (if more then page <> [] /\ rest <> [] else rest = []) /\
    (forall l k x, page = l ++ [(k, x)] -> lists_leaves prefix (kv_map db) v first last (Some k) rest) /\
    within ml mb page.
Proof.
  intros Hok Hv Hf Hla Ha E. unfold leaves_between in E. apply outcome_bind_ok in E as (es & Ees & E). destruct (kv_iterator_map _ _ _ _ Ees) as [Hs He].
  set (lo := prefix ++ TAG_VALUE :: first ++ []) in *. set (hi := prefix ++ TAG_VALUE :: last ++ replicate 9 xff) in *.
  match type of E with context [seek ?x es] => set (start := x) in * end.
  destruct (seek_spec start es Hs) as [Hs' He']. rewrite filter_all in E by (intros [k x] [[_ [_ Hr]%in_range_spec]%He _]%He'; done).
  destruct (column_entries prefix (kv_map db) (seek start es) Hok Hs') as (T & ET & HT & HsT).
  { intros [k x] [[Hx [Hlo Hhi]%in_range_spec]%He _]%He'. cbn [fst snd] in *. split; [done|]. unfold lo, hi in *. rewrite app_nil_r in Hlo.
    apply (between_prefix _ (last ++ replicate 9 xff)); [|by rewrite <- app_assoc]. eapply ble_trans; [|exact Hlo]. replace (prefix ++ TAG_VALUE :: first) with ((prefix ++ [TAG_VALUE]) ++ first) by (by rewrite <- app_assoc). apply ble_self_app. }
  rewrite ET in E. injection E as E. apply leaves_loop_spec in E as (rest & Er & Hw & Hmore); [|done|done|unfold within; simpl; lia]. cbn [app] in Er.
  assert (Hlist : lists_leaves prefix (kv_map db) v first last after (page ++ rest)).
  { rewrite <- Er. split; [apply collect_sorted; [done|intros k r [=]]|]. intros kh x. rewrite collect_elem; [|done|intros k r [=]]. cbn [cur_value].
    assert (Hmem : forall w y, (kh, w, y) ∈ T <-> length kh = 32%nat /\ version_ok w /\ kv_map db !! value_key prefix w kh = Some y /\
              ble first kh = true /\ ble kh last = true /\ forall a, after = Some a -> blt a kh = true).
    { intros w y. assert (HinT : (kh, w, y) ∈ T <-> length kh = 32%nat /\ version_ok w /\ (value_key prefix w kh, y) ∈ seek start es).
      { rewrite ET, list_elem_of_fmap. rewrite Forall_forall in HT. split.
        - intros Hin. destruct (HT _ Hin) as [? ?]. split; [done|]. split; [done|]. by exists (kh, w, y).
        - intros (Hl & Hwo & ([[kh' w'] y'] & [= Ek ->] & Hin)). destruct (HT _ Hin) as [Hl' Hw']. cbn [fst snd] in *.
          apply value_key_inj in Ek as [-> ->]; [done|congruence|done|done]. }
      rewrite HinT, He', He, in_range_spec. cbn [fst].
      split.
      - intros (Hl & Hwo & (Hx & Hlo & Hhi) & Hst). destruct (page_bounds prefix first last after kh w Hf Hla Ha Hl Hwo) as (P1 & P2 & P3). cbn zeta in *. cbv iota in *.
        unfold hi in Hhi. rewrite P2 in Hhi. apply P3 in Hst as [? ?]. done.
      - intros (Hl & Hwo & Hx & Hfi & Hli & Haf). destruct (page_bounds prefix first last after kh w Hf Hla Ha Hl Hwo) as (P1 & P2 & P3). cbn zeta in *. cbv iota in *.
        split; [done|]. split; [done|]. split; [split; [done|]; split; [unfold lo; by rewrite P1|unfold hi; by rewrite P2]|]. by apply P3. }
    split.
    - intros Hval. destruct (decide (Exists (fun t : stored => t.1.1 = kh) T)) as [Hex|Hex].
      + apply Exists_exists in Hex as ([[kh' w] y] & Hin & <-). cbn [fst] in *. apply Hmem in Hin as (Hl & Hwo & Hx & Hfi & Hli & Haf). split; [done|]. split; [done|]. split; [done|]. split; [done|].
        rewrite <- Hval. apply value_in_reads; [done| |done]. intros u z. rewrite Hmem. tauto.
      + rewrite value_in_other in Hval; [done|]. intros t Ht Et. apply Hex, Exists_exists. by exists t.
    - intros (Hl & Hfi & Hli & Haf & Hr). eapply reads_at_fun; [|exact Hr]. apply value_in_reads; [done| |done]. intros u z. rewrite Hmem. tauto. }
  exists rest. split; [done|]. split; [done|]. split; [|done]. intros l k x ->. rewrite <- app_assoc in Hlist. by eapply rest_lists.
Qed.

(** ** Candidates *)

(** Some version has a newer one at or below the watermark. *)
Definition dead_in (w : Z) (versions : list Z) : Prop := exists v f, v ∈ versions /\ f ∈ versions /\ v < f <= w.

Lemma judge_spec w g versions c b c' b' : judge w g versions c b = (c', b') ->
  (b' <= b)%nat /\ forall kh, kh ∈ c' <-> kh ∈ c \/ (g = Some kh /\ dead_in w versions).
Proof.
  unfold judge. set (d := match floor_of w versions with Some _ => _ | None => _ end).
  assert (Hd : (0 <? d)%nat = true <-> dead_in w versions).
  { unfold d. pose proof (floor_of_spec w versions) as Hf. rewrite Nat.ltb_lt. destruct (floor_of w versions) as [f|].
    - destruct Hf as (F1 & F2 & F3). split.
      + intros Hl. destruct (List.filter (fun v => v <? f) versions) as [|v l] eqn:E; [simpl in Hl; lia|].
        assert (Hv : In v (List.filter (fun v => v <? f) versions)) by (rewrite E; by left). apply filter_In in Hv as [Hv Hlt]. bool_to_prop. exists v, f. rewrite !list_elem_of_In. split; [done|]. split; [by apply list_elem_of_In|lia].
      + intros (v & f' & Hv & Hf' & Hlt). assert (Hin : In v (List.filter (fun v => v <? f) versions)).
        { apply filter_In. split; [by apply list_elem_of_In|]. apply Z.ltb_lt. specialize (F3 f' Hf'). lia. }
        destruct (List.filter _ versions); [done|simpl; lia].
    - split; [lia|]. intros (v & f' & _ & Hf' & Hlt). specialize (Hf f' Hf'). lia. }
  destruct g as [g|]; [destruct (0 <? d)%nat eqn:Ed|]; intros [= <- <-].
  - split; [lia|]. intros kh. rewrite elem_of_app, list_elem_of_singleton. assert (Hdead : dead_in w versions) by (by apply Hd). naive_solver.
  - split; [lia|]. intros kh. split; [by left|]. intros [?|[_ Hdead]]; [done|]. by apply Hd in Hdead.
  - split; [lia|]. naive_solver.
Qed.

(** The versions of a key, those of the group being read included. *)
Definition key_versions (g : option bytes) (vs : list Z) (T : list stored) (kh : bytes) : list Z :=
  (if bool_decide (g = Some kh) then vs else []) ++ (List.filter (fun t : stored => bool_decide (t.1.1 = kh)) T).*1.*2.

Lemma candidates_loop_spec prefix w T : forall g vs c b rd c' rd' b',
  Forall stored_ok T -> StronglySorted older T -> (forall k, g = Some k -> forall t, t ∈ T -> ble k t.1.1 = true) ->
  candidates_loop (length prefix + 1) w g vs c b rd (entry_of prefix <$> T) = (c', rd', b') ->
  (b' <= b)%nat /\ (forall kh, kh ∈ c' -> kh ∈ c \/ dead_in w (key_versions g vs T kh)) /\
  (b' <> 0%nat -> forall kh, kh ∈ c \/ ((g = Some kh \/ Exists (fun t : stored => t.1.1 = kh) T) /\ dead_in w (key_versions g vs T kh)) -> kh ∈ c').
Proof.
  induction T as [|t T IH]; intros g vs c b rd c' rd' b' HT Hs Hg; cbn [fmap list_fmap candidates_loop].
  - destruct (judge w g vs c b) as [c1 b1] eqn:Ej. intros [= <- _ <-]. destruct (judge_spec _ _ _ _ _ _ _ Ej) as [J1 J2]. split; [done|].
    unfold key_versions. cbn [List.filter fmap list_fmap]. split.
    + intros kh [?|[-> Hd]]%J2; [by left|right]. rewrite bool_decide_eq_true_2 by done. by rewrite app_nil_r.
    + intros _ kh Hk. apply J2. destruct Hk as [?|[[->|He] Hd]]; [by left| |by apply Exists_nil in He]. right. rewrite bool_decide_eq_true_2, app_nil_r in Hd by done. done.
  - unfold entry_of at 1. destruct (b =? 0)%nat eqn:Eb.
    { apply Nat.eqb_eq in Eb. subst b. intros [= <- _ <-]. split; [done|]. split; [by left|]. done. }
    apply Forall_cons in HT as [Ht HT]. destruct (entry_parts prefix t Ht) as (Ek & _ & Ev). cbn [fst] in Ek, Ev. unfold entry_of in Ek, Ev. cbn [fst] in Ek, Ev. rewrite Ek, Ev.
    pose proof (older_keys t T Hs) as Hge. pose proof Hs as [Hs' _]%StronglySorted_inv.
    assert (Hg' : forall k, Some t.1.1 = Some k -> forall t', t' ∈ T -> ble k t'.1.1 = true) by (by intros k [= <-]).
    assert (Hkv : forall u kh, t.1.1 = kh -> key_versions (Some kh) (u ++ [t.1.2]) T kh = u ++ (List.filter (fun t : stored => bool_decide (t.1.1 = kh)) (t :: T)).*1.*2).
    { intros u kh Hk. unfold key_versions. cbn [List.filter]. rewrite (bool_decide_eq_true_2 (t.1.1 = kh)), (bool_decide_eq_true_2 (Some kh = Some kh)) by done. cbn [fmap list_fmap]. by rewrite <- app_assoc. }
    assert (Hot : forall g' u u' kh, t.1.1 <> kh -> g' <> Some kh -> key_versions (Some t.1.1) u T kh = key_versions g' u' (t :: T) kh).
    { intros g' u u' kh Hk Hgk. unfold key_versions. cbn [List.filter]. rewrite (bool_decide_eq_false_2 (t.1.1 = kh)), (bool_decide_eq_false_2 (g' = Some kh)), (bool_decide_eq_false_2 (Some t.1.1 = Some kh)) by congruence. done. }
    destruct (decide (g = Some t.1.1)) as [->|Hne].
    + rewrite bool_decide_eq_true_2 by done. intros E. destruct (IH _ _ _ _ _ _ _ _ HT Hs' Hg' E) as (I1 & I2 & I3). split; [done|].
      assert (Hsame : forall kh, key_versions (Some t.1.1) (vs ++ [t.1.2]) T kh = key_versions (Some t.1.1) vs (t :: T) kh).
      { intros kh. destruct (decide (t.1.1 = kh)) as [<-|Hk]; [rewrite Hkv by done; unfold key_versions; by rewrite (bool_decide_eq_true_2 (Some t.1.1 = Some t.1.1))|]. apply Hot; [done|congruence]. }
      split; [intros kh Hk; rewrite <- Hsame; by apply I2|]. intros Hb kh Hk. apply I3; [done|]. rewrite Hsame. destruct Hk as [?|[[?|He] Hd]]; [by left|right; split; [by left|done]|right; split; [|done]].
      apply Exists_cons in He as [<-|He]; [by left|by right].
    + rewrite bool_decide_eq_false_2 by done. destruct (judge w g vs c b) as [c1 b1] eqn:Ej. destruct (judge_spec _ _ _ _ _ _ _ Ej) as [J1 J2]. cbn [app].
      intros E. destruct (IH _ _ _ _ _ _ _ _ HT Hs' Hg' E) as (I1 & I2 & I3). split; [lia|].
      assert (Hgno : forall k, g = Some k -> k <> t.1.1 /\ forall t', t' ∈ t :: T -> t'.1.1 <> k).
      { intros k ->. assert (Hlt : blt k t.1.1 = true) by (destruct (proj1 (ble_lt_eq _ _) (Hg k eq_refl t (list_elem_of_here _ _))) as [?|?]; [done|congruence]).
        split; [congruence|]. intros t' Ht' <-. apply elem_of_cons in Ht' as [->|Ht']; [by rewrite blt_irrefl in Hlt|]. specialize (Hge t' Ht'). unfold ble in Hge. by rewrite Hlt in Hge. }
      assert (Hgv : forall k, g = Some k -> key_versions g vs (t :: T) k = vs).
      { intros k Egk. destruct (Hgno k Egk) as [_ Hno]. unfold key_versions. rewrite (bool_decide_eq_true_2 _ Egk).
        assert (List.filter (fun t' : stored => bool_decide (t'.1.1 = k)) (t :: T) = []) as ->; [|by rewrite app_nil_r].
        clear -Hno. induction (t :: T) as [|a l IHl]; [done|]. cbn [List.filter]. rewrite bool_decide_eq_false_2 by (apply Hno; left). apply IHl. intros t' Ht'. apply Hno. by right. }
      assert (Hsame : forall kh, g <> Some kh -> key_versions (Some t.1.1) [t.1.2] T kh = key_versions g vs (t :: T) kh).
      { intros kh Hgk. destruct (decide (t.1.1 = kh)) as [<-|Hk]; [|by apply Hot]. change [t.1.2] with ([] ++ [t.1.2]). rewrite Hkv by done. unfold key_versions. by rewrite (bool_decide_eq_false_2 _ Hgk). }
      split.
      * intros kh [[?|[Hgk Hd]]%J2|Hd]%I2; [by left|right; by rewrite Hgv|]. destruct (decide (g = Some kh)) as [Hgk|Hgk]; [|right; by rewrite <- Hsame].
        exfalso. destruct (Hgno kh Hgk) as [Hk Hno]. destruct Hd as (v & f & Hv & _). unfold key_versions in Hv. rewrite bool_decide_eq_false_2 in Hv by congruence. cbn [app] in Hv.
        apply list_elem_of_fmap in Hv as (y & -> & Hy). apply list_elem_of_fmap in Hy as (t' & -> & Hy). apply list_elem_of_In, filter_In in Hy as [Hy E']. bool_to_prop. apply (Hno t'); [right; by apply list_elem_of_In|done].
      * intros Hb kh Hk. apply I3; [done|]. destruct Hk as [Hk|[Hex Hd]]; [left; apply J2; by left|]. destruct (decide (g = Some kh)) as [Hgk|Hgk].
        -- left. apply J2. right. by rewrite Hgv in Hd.
        -- right. rewrite Hsame by done. split; [|done]. destruct Hex as [?|He]; [done|]. apply Exists_cons in He as [<-|He]; [by left|by right].
Qed.

(** With budget left, the candidates are the keys with dead values. *)
Lemma candidates_exact prefix db w b0 c rd b1 : values_ok prefix (kv_map db) -> value_prune_candidates prefix db w b0 = Ok (c, rd, b1) ->
  Forall (fun kh => length kh = 32%nat) c /\ (b1 <> 0%nat -> forall kh v, length kh = 32%nat -> dead prefix (kv_map db) w kh v -> kh ∈ c).
Proof.
  intros Hok E. unfold value_prune_candidates in E. cbn [tag_bounds] in E. apply outcome_bind_ok in E as (es & Ees & E). destruct (kv_iterator_map _ _ _ _ Ees) as [Hs He].
  set (lo := prefix ++ [TAG_VALUE]) in *. destruct (seek_spec lo es Hs) as [Hs' He']. rewrite filter_all in E by (intros [k x] [[_ [_ Hr]%in_range_spec]%He _]%He'; done).
  assert (Hin : forall k x, (k, x) ∈ seek lo es <-> kv_map db !! k = Some x /\ lo `prefix_of` k).
  { intros k x. rewrite He', He, in_range_spec. cbn [fst]. pose proof (tag_range prefix TAG_VALUE k eq_refl) as Ht. unfold tag_bounds in Ht. cbn [fst snd] in Ht. fold lo in Ht. tauto. }
  destruct (column_entries prefix (kv_map db) (seek lo es) Hok Hs') as (T & ET & HT & HsT); [intros [k x] Hx; by apply Hin|].
  rewrite ET in E. injection E as E. apply candidates_loop_spec in E as (_ & I2 & I3); [|done|done|intros k [=]].
  rewrite Forall_forall in HT. split.
  - apply Forall_forall. intros kh [Hn|(v & f & Hv & _)]%I2; [by apply not_elem_of_nil in Hn|]. unfold key_versions in Hv. cbn [app] in Hv.
    apply list_elem_of_fmap in Hv as (y & -> & Hy). apply list_elem_of_fmap in Hy as (t & -> & Hy). apply list_elem_of_In, filter_In in Hy as [Hy Et]. bool_to_prop. subst kh. apply HT. by apply list_elem_of_In.
  - intros Hb kh v Hl (Hvo & [x Hx] & f & Hvf & Hfo & [y Hy]). assert (HTin : forall u z, version_ok u -> kv_map db !! value_key prefix u kh = Some z -> (kh, u, z) ∈ T).
    { intros u z Hu Hz. assert (Hm : (value_key prefix u kh, z) ∈ seek lo es).
      { apply Hin. split; [done|]. unfold lo, value_key. rewrite value_prefix_app, <- app_assoc. by apply prefix_app_r. }
      rewrite ET in Hm. apply list_elem_of_fmap in Hm as ([[kh' u'] z'] & [= Ek ->] & Hm). destruct (HT _ Hm) as [Hl' Hu']. cbn [fst snd] in *.
      apply value_key_inj in Ek as [-> ->]; [done|congruence|done|done]. }
    apply I3; [done|]. right. split; [right; apply Exists_exists; exists (kh, v, x); split; [by apply HTin|done]|].
    assert (Hver : forall u z, version_ok u -> kv_map db !! value_key prefix u kh = Some z -> u ∈ key_versions None [] T kh).
    { intros u z Hu Hz. unfold key_versions. cbn [app]. apply list_elem_of_fmap. exists (kh, u). split; [done|]. apply list_elem_of_fmap. exists (kh, u, z). split; [done|].
      apply list_elem_of_In, filter_In. split; [apply list_elem_of_In; by apply HTin|]. by apply bool_decide_eq_true_2. }
    exists v, f. split; [by eapply Hver|]. split; [by eapply Hver|done].
Qed.

(** C16. Value collection is safe and complete: deleting the values of the
    candidates at a watermark changes no read at or above it and no other key; a
    sweep and a pass that end with budget left, all candidates judged, leave every
    key with at most one value at or below the watermark. *)
Theorem value_collection_exact prefix db w b0 c rd b1 b2 stop n judged b3 db' :
  values_ok prefix (kv_map db) -> value_prune_candidates prefix db w b0 = Ok (c, rd, b1) ->
  prune_values_of prefix db w c b2 stop = Ok (n, judged, b3, db') ->
  (forall kh v r, length kh = 32%nat -> version_ok v -> w <= v -> reads_at prefix (kv_map db) kh v r -> reads_at prefix (kv_map db') kh v r) /\
  (forall k, ~ (prefix ++ [TAG_VALUE]) `prefix_of` k -> kv_map db' !! k = kv_map db !! k) /\
  (b1 <> 0%nat -> b3 <> 0%nat -> judged = length c -> forall kh v, length kh = 32%nat -> ~ dead prefix (kv_map db') w kh v).
Proof.
  intros Hok Ec Ep. destruct (candidates_exact _ _ _ _ _ _ _ Hok Ec) as [C1 C2].
  destruct (value_prune_invisible _ _ _ _ _ _ _ _ _ _ Hok C1 Ep) as (V1 & V2 & V3). split; [done|]. split.
  - intros k Hk. destruct (V2 k) as [?|(_ & kh & v & _ & -> & _)]; [done|]. exfalso. apply Hk. unfold value_key. rewrite value_prefix_app, <- app_assoc. by apply prefix_app_r.
  - intros Hb1 Hb3 Hj kh v Hl (Hvo & Hvs & f & Hf & Hfo & Hfs).
    assert (Hback : forall u, is_Some (kv_map db' !! value_key prefix u kh) -> is_Some (kv_map db !! value_key prefix u kh)).
    { intros u Hu. destruct (V2 (value_key prefix u kh)) as [<-|[Hn _]]; [done|]. rewrite Hn in Hu. by destruct Hu. }
    assert (Hd : dead prefix (kv_map db) w kh v). { split; [done|]. split; [by apply Hback|]. exists f. split; [done|]. split; [done|]. by apply Hback. }
    rewrite (V3 Hb3 Hj kh v (C2 Hb1 kh v Hl Hd) Hd) in Hvs. by destruct Hvs.
Qed.
End sweep.
