(* ===== verification/ForestKeys.v ===== *)
(** * Key spaces of the forest

    Wiping a tree removes its keys and nothing else; the keys of the phase trees of
    different shards, their head markers, the global buckets and the other keys of
    the shared store never meet.  A sorted list is a store with the laws the tree
    store relies on; the theorems apply to it. *)

From Stdlib Require Import Strings.Byte Sorted.
From stdpp Require Import gmap sorting.
From S2P Require Import Prelude Bytes ShardPaths Hypergraph TreeStore TreeStoreOrder TreeStoreCorrect StalePruning LeafSweep.

(** [quil_store::FOREST_NAMESPACE] *)
Definition FOREST_NAMESPACE : bytes := [xf7].

(** The keys of a phase tree: nodes, values, records under its prefix, and the
    marker of its head version. *)
Definition phase_key (ns : bytes) (t : bytes * nat) (k : bytes) : Prop :=
  store_prefix ns (tree_shard_phase t.1 t.2) `prefix_of` k \/ k = head_version_key ns t.1 t.2.
Definition short_shard (t : bytes * nat) : Prop := (length t.1 < 255)%nat /\ (t.2 < 4)%nat.

Lemma short_phase t : short_shard t -> (length (id (tree_shard_phase t.1 t.2)) < 256)%nat.
Proof. intros [Hl _]. cbn. lia. Qed.

Lemma head_not_tree ns t shard phase r : level t <> xfe -> store_prefix ns t ++ r <> head_version_key ns shard phase.
Proof. unfold store_prefix, head_version_key. rewrite <- app_assoc. intros Hl E. apply app_inv_head in E. injection E as E _. done. Qed.

Lemma head_key_inj ns t t' : short_shard t -> short_shard t' -> head_version_key ns t.1 t.2 = head_version_key ns t'.1 t'.2 -> t = t'.
Proof.
  intros Ht Ht' E. unfold head_version_key in E. apply app_inv_head, (f_equal tail) in E. cbn [tail] in E.
  assert (tree_shard_phase t.1 t.2 = tree_shard_phase t'.1 t'.2) as Es.
  { eapply (tree_prefix_apart _ _ [] []); [by apply short_phase|by apply short_phase|]. by rewrite !app_nil_r. }
  apply shard_phase_inj in Es as [E1 E2]; [|apply Ht|apply Ht']. destruct t, t'. by simpl in *; subst.
Qed.

Lemma puts_in_tree prefix batch kv : kv ∈ update_puts prefix batch -> prefix `prefix_of` kv.1.
Proof.
  unfold update_puts. rewrite !elem_of_app. intros Hk.
  destruct Hk as [Hk|[Hk|[Hk|Hk]]]; apply list_elem_of_fmap in Hk as (x & -> & _); cbn [fst];
    unfold node_key_bytes, value_key, value_prefix, stale_key_bytes, size_key_bytes; rewrite <- ?app_assoc; by apply prefix_app_r.
Qed.

(** C19. The trees of a forest live apart in the shared store.  For shard ids below
    255 bytes, a key belongs to one phase tree at most, head markers included, and a
    commit writes keys of its own tree only.  No key of a global bucket's tree, and
    no key outside the namespace, such as the size buckets of the hypergraph, belongs
    to a phase tree.  The head marker of a global bucket is the head marker of one
    phase tree, the one whose shard id is the 19 bytes the marker is named by; it
    belongs to no other. *)
Theorem forest_keys_apart (ns : bytes) (t : bytes * nat) :
  short_shard t ->
  (forall t' k, short_shard t' -> phase_key ns t k -> phase_key ns t' k -> t = t') /\
  (forall batch kv, kv ∈ update_puts (store_prefix ns (tree_shard_phase t.1 t.2)) batch -> phase_key ns t kv.1) /\
  (forall index k, store_prefix ns (tree_global index) `prefix_of` k -> ~ phase_key ns t k) /\
  (forall index, phase_key ns t (head_version_key ns (global_head_shard_id index) 0) <-> t = (global_head_shard_id index, 0%nat)) /\
  (forall k, ~ ns `prefix_of` k -> ~ phase_key ns t k) /\
  ~ phase_key FOREST_NAMESPACE t SIZE_BUCKETS_KEY.
Proof.
  intros Ht.
  assert (Hns : forall ns k, ~ ns `prefix_of` k -> ~ phase_key ns t k).
  { intros ns' k Hn [[r ->]| ->]; apply Hn; unfold store_prefix, head_version_key; rewrite <- ?app_assoc; by apply prefix_app_r. }
  split; [|split; [|split; [|split; [|split; [by apply Hns|]]]]].
  - intros t' k Ht' [Hk| ->] [Hk'|Hk'].
    + assert (tree_shard_phase t.1 t.2 = tree_shard_phase t'.1 t'.2) as E by (eapply space_apart; [by apply short_phase|by apply short_phase|exact Hk|exact Hk']).
      apply shard_phase_inj in E as [E1 E2]; [|apply Ht|apply Ht']. destruct t, t'. by simpl in *; subst.
    + destruct Hk as [r E]. rewrite Hk' in E. symmetry in E. by apply head_not_tree in E.
    + destruct Hk' as [r E]. symmetry in E. by apply head_not_tree in E.
    + by eapply head_key_inj.
  - intros batch kv Hk. left. by eapply puts_in_tree.
  - intros index k Hg [Hk| ->].
    + assert (tree_global index = tree_shard_phase t.1 t.2) as [=]. eapply space_apart; [|by apply short_phase|exact Hg|exact Hk]. cbn. lia.
    + destruct Hg as [r E]. symmetry in E. by apply head_not_tree in E.
  - intros index. split; [|intros ->; by right]. intros [[r E]|E].
    + symmetry in E. by apply head_not_tree in E.
    + by apply (head_key_inj ns (global_head_shard_id index, 0%nat)) in E; [|split; cbn; lia|done].
  - apply Hns. by intros [r [=]].
Qed.

(** Identifiers of 256 bytes more collide: the length byte is the same. *)
Lemma long_ids_overlap : exists t t', t <> t' /\ tree_prefix t `prefix_of` tree_prefix t'.
Proof.
  exists (tree_shard (replicate 5 x00)), (tree_shard (replicate 261 x00)). split; [by intros [=]|]. exists (replicate 256 x00). reflexivity.
Qed.

Section wipe.
Context {K : KvStore} {LK : LawfulKv}.

Lemma delete_prefix m p u k : prefix_upper_bound p = Some u ->
  apply_kv m (KDeleteRange p u) !! k = if starts_with k p then None else m !! k.
Proof.
  intros Hu. cbn [apply_kv]. destruct (starts_with k p) eqn:E.
  - apply map_lookup_filter_None. right. intros x _ Hf. cbn [fst] in Hf. apply starts_with_prefix_of, (upper_bound_spec _ u) in E as [E1 E2]; [|done].
    unfold in_range in Hf. by rewrite E1, E2 in Hf.
  - assert (Hr : in_range p u k = false).
    { destruct (in_range p u k) eqn:Er; [|done]. apply in_range_spec, (upper_bound_spec _ _ _ Hu), starts_with_prefix_of in Er. congruence. }
    destruct (m !! k) as [x|] eqn:Ex; [by apply map_lookup_filter_Some|]. apply map_lookup_filter_None. by left.
Qed.

(** Wiping a tree of the forest removes exactly the keys under its prefix: it
    reads as empty afterwards, every other tree keeps all its keys, and so do the
    head markers, the one of the wiped tree included. *)
Theorem clear_wipes_one_tree ns t db db' :
  (length (id t) < 256)%nat -> b2z (level t) < 254 -> clear (store_prefix ns t) db = Ok db' ->
  (forall k, kv_map db' !! k = if starts_with k (store_prefix ns t) then None else kv_map db !! k) /\
  (forall r, has_any_key (store_prefix ns t) db' = Ok r -> r = false) /\
  (forall t' k, t' <> t -> (length (id t') < 256)%nat -> store_prefix ns t' `prefix_of` k -> kv_map db' !! k = kv_map db !! k) /\
  (forall shard phase, kv_map db' !! head_version_key ns shard phase = kv_map db !! head_version_key ns shard phase).
Proof.
  intros Hid Hlv E. set (p := store_prefix ns t) in *. assert (exists u, prefix_upper_bound p = Some u) as [u Hu].
  { apply (upper_bound_exists _ (level t)); [|lia]. unfold p, store_prefix, tree_prefix. apply elem_of_app. right. left. }
  unfold clear in E. rewrite Hu in E. apply kv_write_map in E. cbn [foldl] in E.
  assert (Hk : forall k, kv_map db' !! k = if starts_with k p then None else kv_map db !! k) by (intros k; rewrite E; by apply delete_prefix).
  assert (Hno : forall k, starts_with k p = false -> kv_map db' !! k = kv_map db !! k) by (intros k Ek; by rewrite Hk, Ek).
  split; [done|]. split; [|split].
  - intros r Er. unfold has_any_key in Er. rewrite Hu in Er. apply outcome_bind_ok in Er as (es & Ees & [= <-]). destruct (kv_iterator_map _ _ _ _ Ees) as [Hs He].
    apply negb_false_iff, bool_decide_eq_true. destruct (seek p es) as [|[k x] rest] eqn:Eseek; [done|]. exfalso. destruct (seek_spec p es Hs) as [_ Hin].
    destruct (Hin (k, x)) as [Hx _]. destruct Hx as [Hx _]; [rewrite Eseek; left|]. apply He in Hx as [Hx Hr%in_range_spec]. apply (upper_bound_spec _ _ _ Hu), starts_with_prefix_of in Hr.
    rewrite Hk, Hr in Hx. done.
  - intros t' k Hne Hid' Hp. apply Hno. destruct (starts_with k p) eqn:Ek; [|done]. apply starts_with_prefix_of in Ek. destruct Hne. by eapply space_apart.
  - intros shard phase. apply Hno. destruct (starts_with _ p) eqn:Ek; [|done]. apply starts_with_prefix_of in Ek as [r Er]. symmetry in Er. apply head_not_tree in Er; [done|].
    intros Ex. rewrite Ex in Hlv. change (b2z xfe) with 254 in Hlv. lia.
Qed.
End wipe.

(** ** A concrete store *)

Module DemoKv.
Fixpoint put_sorted (k v : bytes) (l : list (bytes * bytes)) : list (bytes * bytes) :=
  match l with
  | [] => [(k, v)]
  | e :: rest => if blt k e.1 then (k, v) :: l else if blt e.1 k then e :: put_sorted k v rest else (k, v) :: rest
  end.
Definition list_op (l : list (bytes * bytes)) (op : kv_op) : list (bytes * bytes) :=
  match op with
  | KPut k v => put_sorted k v l
  | KDelete k => List.filter (fun e => negb (bool_decide (e.1 = k))) l
  | KDeleteRange lo hi => List.filter (fun e => negb (in_range lo hi e.1)) l
  end.

Lemma put_sorted_elem k v l : ascending l -> forall e, e ∈ put_sorted k v l <-> e = (k, v) \/ (e ∈ l /\ e.1 <> k).
Proof.
  induction 1 as [|a l Hs IH Hf]; intros e; cbn [put_sorted]; [set_solver|]. rewrite List.Forall_forall in Hf.
  destruct (blt k a.1) eqn:E1; [|destruct (blt a.1 k) eqn:E2].
  - rewrite elem_of_cons. split; [|tauto]. intros [->|He]; [by left|right]. split; [done|]. intros <-. apply elem_of_cons in He as [->|He]; [by rewrite blt_irrefl in E1|].
    specialize (Hf e (proj1 (list_elem_of_In _ _) He)). by rewrite (blt_asym _ _ E1) in Hf.
  - rewrite !elem_of_cons, IH. split; [|tauto]. intros [->|[->|[? ?]]]; [|by left|by right; split; [right|]]. right. split; [by left|]. intros Ek. by rewrite Ek, blt_irrefl in E2.
  - rewrite !elem_of_cons. pose proof (blt_total _ _ E2 E1) as Ea. split.
    + intros [->|He]; [by left|right]. split; [by right|]. intros Ek. specialize (Hf e (proj1 (list_elem_of_In _ _) He)). by rewrite Ea, Ek, blt_irrefl in Hf.
    + intros [->|[[->|?] Hne]]; [by left|done|by right].
Qed.
Lemma put_sorted_asc k v l : ascending l -> ascending (put_sorted k v l).
Proof.
  induction 1 as [|a l Hs IH Hf]; cbn [put_sorted]; [by repeat constructor|]. rewrite List.Forall_forall in Hf.
  destruct (blt k a.1) eqn:E1; [|destruct (blt a.1 k) eqn:E2].
  - constructor; [by constructor; [|apply List.Forall_forall]|]. apply List.Forall_forall. intros e [<-|He]; [done|]. eapply blt_trans; [exact E1|by apply Hf].
  - constructor; [done|]. apply List.Forall_forall. intros e He. apply list_elem_of_In, (put_sorted_elem _ _ _ Hs) in He as [->|[He _]]; [done|]. apply Hf. by apply list_elem_of_In.
  - constructor; [done|]. apply List.Forall_forall. intros e He. cbn [fst]. rewrite <- (blt_total _ _ E2 E1). by apply Hf.
Qed.
Lemma list_op_asc l op : ascending l -> ascending (list_op l op).
Proof. intros Hs. destruct op; cbn [list_op]; [by apply put_sorted_asc|by apply sweep_filter..]. Qed.
Lemma list_ops_asc ops : forall l, ascending l -> ascending (foldl list_op l ops).
Proof. induction ops as [|op ops IH]; intros l Hs; cbn [foldl]; [done|]. by apply IH, list_op_asc. Qed.

Abbreviation contents l := (list_to_map l : gmap bytes bytes).
Lemma contents_elem l k v : ascending l -> contents l !! k = Some v <-> (k, v) ∈ l.
Proof. intros Hs. symmetry. apply elem_of_list_to_map. by apply key_sorted_nodup, keys_sorted. Qed.
Lemma list_op_contents l op : ascending l -> contents (list_op l op) = apply_kv (contents l) op.
Proof.
  intros Hs. apply map_eq. intros k. apply option_eq. intros v. rewrite contents_elem by (by apply list_op_asc). destruct op as [k' v'|k'|lo hi]; cbn [list_op apply_kv].
  - rewrite put_sorted_elem, lookup_insert_Some, contents_elem by done. cbn [fst]. naive_solver.
  - rewrite elem_filter, lookup_delete_Some, contents_elem by done. cbn [fst]. rewrite negb_true_iff, bool_decide_eq_false. naive_solver.
  - rewrite elem_filter, map_lookup_filter_Some, contents_elem by done. cbn [fst]. by rewrite negb_true_iff.
Qed.
Lemma list_ops_contents ops : forall l, ascending l -> contents (foldl list_op l ops) = foldl apply_kv (contents l) ops.
Proof. induction ops as [|op ops IH]; intros l Hs; cbn [foldl]; [done|]. rewrite IH by (by apply list_op_asc). by rewrite list_op_contents. Qed.

Record kv := mkKv { entries : list (bytes * bytes); entries_asc : ascending entries }.
#[export] Instance api : KvStore := {|
  Kv := kv;
  kv_get db k := Ok (contents (entries db) !! k);
  kv_iterator db lo hi := Ok (List.filter (fun e => in_range lo hi e.1) (entries db));
  kv_write db ops := Ok (mkKv (foldl list_op (entries db) ops) (list_ops_asc ops _ (entries_asc db))) |}.
#[export] Program Instance api_lawful : LawfulKv := {| kv_map db := contents (entries db) |}.
Next Obligation. by intros db k r [= <-]. Qed.
Next Obligation.
  intros db lo hi es [= <-]. split; [apply sweep_filter, entries_asc|]. intros k v. rewrite elem_filter, contents_elem by apply entries_asc. done.
Qed.
Next Obligation. intros db ops db' [= <-]. apply list_ops_contents, entries_asc. Qed.

(** Two versions of a leaf, a node and its stale record, in one tree. *)
Definition prefix : bytes := store_prefix FOREST_NAMESPACE (tree_shard_phase [x09] 0).
Definition kh : bytes := replicate 32 x05.
Definition demo_list : list (bytes * bytes) :=
  [(node_key_bytes prefix [x01], [x63]); (stale_key_bytes prefix 2 [x01], []);
   (value_key prefix 1 kh, payload (Some [x0a])); (value_key prefix 3 kh, payload (Some [x0b]))].
Lemma demo_asc : ascending demo_list.
Proof. repeat constructor. Qed.
Definition demo : Kv := mkKv demo_list demo_asc.

Lemma demo_elem k v : kv_map demo !! k = Some v -> (k, v) ∈ demo_list.
Proof. apply contents_elem, demo_asc. Qed.
Lemma kh_version w : 0 <= w <= 5 -> version_ok w.
Proof. unfold version_ok, u64_max. lia. Qed.
Lemma demo_values_ok : values_ok prefix (kv_map demo).
Proof.
  intros k x Hx%demo_elem [r Hr]. unfold demo_list in Hx. rewrite !elem_of_cons, elem_of_nil in Hx. rewrite <- app_assoc in Hr.
  destruct Hx as [[= -> _]|[[= -> _]|[[= -> _]|[[= -> _]|[]]]]].
  - by apply other_tag in Hr.
  - by apply other_tag in Hr.
  - exists 1, kh. split; [done|]. split; [by apply kh_version|done].
  - exists 3, kh. split; [done|]. split; [by apply kh_version|done].
Qed.
End DemoKv.

Section demo.
Import DemoKv.

Lemma forest_keys_apart_witness :
  let t := (replicate 32 x09, 1%nat) in
  short_shard t /\ phase_key FOREST_NAMESPACE t (head_version_key FOREST_NAMESPACE (replicate 32 x09) 1) /\
  ~ phase_key FOREST_NAMESPACE (replicate 32 x09, 2%nat) (head_version_key FOREST_NAMESPACE (replicate 32 x09) 1) /\
  ~ phase_key FOREST_NAMESPACE t (store_prefix FOREST_NAMESPACE (tree_global x07) ++ [x01]) /\
  ~ phase_key FOREST_NAMESPACE t (head_version_key FOREST_NAMESPACE (global_head_shard_id x07) 0) /\
  ~ phase_key FOREST_NAMESPACE t [x00; x01] /\ ~ phase_key FOREST_NAMESPACE t SIZE_BUCKETS_KEY.
Proof.
  intros t. assert (Hs : short_shard t) by (split; cbn; lia). split; [exact Hs|].
  destruct (forest_keys_apart FOREST_NAMESPACE t Hs) as (K1 & _ & K3 & K4 & K5 & K6).
  assert (Hk : phase_key FOREST_NAMESPACE t (head_version_key FOREST_NAMESPACE (replicate 32 x09) 1)) by (right; reflexivity).
  split; [exact Hk|]. split; [|split; [|split; [|split; [|exact K6]]]].
  - intros Hk'. apply (K1 (replicate 32 x09, 2%nat)) in Hk'; [discriminate|split; cbn; lia|exact Hk].
  - apply (K3 x07). exists [x01]. reflexivity.
  - intros Hh. apply K4 in Hh. discriminate.
  - apply K5. intros [r E]. discriminate.
Defined.

Lemma clear_wipes_one_tree_witness :
  exists db', clear (store_prefix FOREST_NAMESPACE (tree_shard_phase [x09] 0)) demo = Ok db' /\ kv_map db' !! value_key prefix 1 kh = None.
Proof.
  eexists. split; [reflexivity|]. edestruct (clear_wipes_one_tree FOREST_NAMESPACE (tree_shard_phase [x09] 0) demo) as (Hk & _).
  - cbn. lia.
  - reflexivity.
  - reflexivity.
  - rewrite Hk. reflexivity.
Defined.

(** The next commit writes version 4. *)
Definition demo_batch : TreeUpdateBatch := mkBatch [] [(4, kh, Some [x0c])] [] [].
Lemma demo_batch_at : batch_at 4 demo_batch.
Proof. split; [apply NoDup_singleton|by apply Forall_singleton]. Qed.
Lemma demo_next kh' w' : length kh' = 32%nat -> version_ok w' -> 4 <= w' -> kv_map demo !! value_key prefix w' kh' = None.
Proof.
  intros Hl Hw Hge. destruct (kv_map demo !! value_key prefix w' kh') as [x|] eqn:E; [|done]. exfalso. apply demo_elem in E. unfold demo_list in E. rewrite !elem_of_cons, elem_of_nil in E.
  assert (Ek : forall w, 0 <= w <= 3 -> value_key prefix w' kh' <> value_key prefix w kh).
  { intros w Hwr Eq. apply value_key_inj in Eq as [-> _]; [lia|done|done|apply kh_version; lia]. }
  assert (Et : forall (b : byte) r, b <> TAG_VALUE -> value_key prefix w' kh' <> prefix ++ b :: r).
  { intros b r Hb Eq. unfold value_key in Eq. rewrite value_prefix_app, <- !app_assoc in Eq. by apply other_tag in Eq. }
  destruct E as [E|[E|[E|[E|[]]]]]; apply pair_equal_spec in E as [E _]; [by apply Et in E|by apply Et in E|by apply Ek in E|by apply Ek in E].
Qed.

Lemma commit_keeps_history_witness :
  exists db' r, apply_update prefix demo demo_batch = Ok db' /\ get_value_option prefix db' 5 kh = Ok r /\ r = Some [x0c].
Proof.
  eexists _, _. split; [reflexivity|]. split; [reflexivity|].
  edestruct (commit_keeps_history prefix demo demo_batch) with (w := 4) (v := 5) (kh := kh) as [_ Hr].
  - exact demo_values_ok.
  - exact demo_batch_at.
  - by apply kh_version.
  - exact demo_next.
  - reflexivity.
  - by apply kh_version.
  - reflexivity.
  - reflexivity.
  - exact Hr.
Defined.

Lemma demo_answers : answers.
Proof. by split. Qed.
Lemma demo_records : lists_records prefix 3 (kv_map demo) [stale_key_bytes prefix 2 [x01]].
Proof.
  split; [repeat constructor|]. intros k. rewrite list_elem_of_singleton. split.
  - intros ->. split; [|reflexivity]. exists []. apply contents_elem; [apply demo_asc|]. right. left.
  - intros [[x Hx%demo_elem] Hp]. unfold demo_list in Hx. rewrite !elem_of_cons, elem_of_nil in Hx.
    destruct Hx as [[= -> _]|[[= -> _]|[[= -> _]|[[= -> _]|[]]]]]; [by vm_compute in Hp|done|by vm_compute in Hp|by vm_compute in Hp].
Qed.
Lemma prune_exact_witness :
  exists db', prune_in_batches 2 prefix demo 3 7 = Ok (1%nat, db') /\ kv_map db' !! node_key_bytes prefix [x01] = None.
Proof.
  destruct (prune_exact prefix demo 3 7 2 [stale_key_bytes prefix 2 [x01]]) as (db' & E & Hm).
  - exact demo_answers.
  - exact demo_records.
  - cbn. lia.
  - exists db'. split; [exact E|]. rewrite Hm. reflexivity.
Defined.

Lemma pages_complete_witness :
  exists page more rest, leaves_between prefix demo 3 (replicate 32 x00) (replicate 32 xff) None 10 1000 = Ok (page, more) /\
    lists_leaves prefix (kv_map demo) 3 (replicate 32 x00) (replicate 32 xff) None (page ++ rest).
Proof.
  edestruct (pages_complete prefix demo 3 (replicate 32 x00) (replicate 32 xff) None 10 1000) as (rest & Hl & _).
  - exact demo_values_ok.
  - by apply kh_version.
  - reflexivity.
  - reflexivity.
  - discriminate.
  - apply (f_equal Ok), surjective_pairing.
  - eexists _, _, rest. split; [|exact Hl]. apply (f_equal Ok), surjective_pairing.
Defined.

Lemma value_collection_exact_witness :
  exists db', value_prune_candidates prefix demo 3 10 = Ok ([kh], 2%nat, 9%nat) /\
    prune_values_of prefix demo 3 [kh] 10 (fun _ => false) = Ok (1%nat, 1%nat, 9%nat, db') /\ forall v, ~ dead prefix (kv_map db') 3 kh v.
Proof.
  eexists. split; [reflexivity|]. split; [reflexivity|]. intros v.
  edestruct (value_collection_exact prefix demo 3 10 [kh] 2 9 10 (fun _ => false) 1 1 9) as (_ & _ & Hd).
  - exact demo_values_ok.
  - reflexivity.
  - reflexivity.
  - apply Hd; [discriminate|discriminate|reflexivity|reflexivity].
Defined.
End demo.
