(* ===== verification/Database.v ===== *)
(** * The coordinated database: the write barrier and its ledger

    [crates/quil-forest/src/database.rs].  Every write goes through one barrier,
    which records in a ledger the sequence number of the last general write and,
    for writes confined to two-byte key prefixes, of the last write to each
    prefix.  A captured execution is published only when nothing it touched was
    written since ([commit_execution]).

    RocksDB is the interface [RocksDb]; a snapshot is the database at its capture.
    The database is one that watches no keys ([CoordinatedDb::new]): the journal of
    watched keys is not modelled, nor are timings and the operator log. *)

From Stdlib Require Import Strings.Byte.
From stdpp Require Import gmap.
From S2P Require Import Prelude Bytes TreeStore.

(** ** RocksDB *)

Class RocksDb : Type := {
  Rdb : Type;
  latest_sequence_number : Rdb -> Z;
  rocks_get : Rdb -> bytes -> outcome (option bytes);
  rocks_iterator : Rdb -> bytes -> bytes -> outcome (list (bytes * bytes));
  rocks_write : Rdb -> list kv_op -> outcome unit * Rdb;
}.

(** ** Sets of two-byte key prefixes *)

(** One bit for each prefix, in 1024 words. *)
Abbreviation KeyPrefixSet := (list Z).
Definition no_prefixes : KeyPrefixSet := replicate 1024 0.

Definition index (first second : byte) : Z := Z.lor (Z.shiftl (b2z first) 8) (b2z second).
Definition or_word (word : Z) (mask : Z) (s : KeyPrefixSet) : KeyPrefixSet := alter (fun w => Z.lor w mask) (Z.to_nat word) s.
Definition set_prefix (s : KeyPrefixSet) (i : Z) : KeyPrefixSet := or_word (Z.shiftr i 6) (Z.shiftl 1 (Z.land i 63)) s.

(** The bits of [word] between [start] and [last]. *)
Definition span_mask (start last word : Z) : Z :=
  let low := if word =? Z.shiftr start 6 then Z.land start 63 else 0 in
  let high := if word =? Z.shiftr last 6 then Z.land last 63 else 63 in
  Z.land (Z.shiftr u64_max (63 - high)) (wrap_u64 (Z.shiftl u64_max low)).
Definition set_span (s : KeyPrefixSet) (start last : Z) : KeyPrefixSet :=
  foldl (fun s word => or_word word (span_mask start last word) s) s
    ((fun i => Z.shiftr start 6 + Z.of_nat i) <$> seq 0 (Z.to_nat (Z.shiftr last 6 - Z.shiftr start 6 + 1))).

Definition contains (s : KeyPrefixSet) (prefix : byte * byte) : bool :=
  let i := index prefix.1 prefix.2 in
  negb (Z.land (default 0 (s !! Z.to_nat (Z.shiftr i 6))) (Z.shiftl 1 (Z.land i 63)) =? 0).

Definition mark_key (s : KeyPrefixSet) (key : bytes) : KeyPrefixSet :=
  set_prefix s (index (default x00 (key !! 0%nat)) (default x00 (key !! 1%nat))).
Definition mark_range (s : KeyPrefixSet) (lower upper : bytes) : KeyPrefixSet :=
  let start := index (default x00 (lower !! 0%nat)) (default x00 (lower !! 1%nat)) in
  match upper !! 0%nat with
  | Some first => set_span s start (Z.max (index first (default xff (upper !! 1%nat))) start)
  | None => s
  end.

(** ** Batches confined to declared prefixes *)

Inductive DatabaseCommitError : Type :=
| PriorWriteFailed
| ForeignDatabase
| Stale (expected actual : Z)
| OutsideKeyspace
| Storage.

Record DisjointBatch : Type := mkDisjoint { allowed : list (byte * byte); db_touched : list (byte * byte); batch : list kv_op }.
Definition disjoint_new (allowed : list (byte * byte)) : DisjointBatch := mkDisjoint allowed [] [].

(** [DisjointBatch::prefix]: checks a key and records its prefix. *)
Definition batch_prefix (b : DisjointBatch) (key : bytes) : option ((byte * byte) * DisjointBatch) :=
  match key with
  | first :: second :: _ =>
      let prefix := (first, second) in
      if bool_decide (prefix ∈ allowed b) then
        Some (prefix, if bool_decide (prefix ∈ db_touched b) then b else mkDisjoint (allowed b) (db_touched b ++ [prefix]) (batch b))
      else None
  | _ => None
  end.
Definition push_op (b : DisjointBatch) (op : kv_op) : DisjointBatch := mkDisjoint (allowed b) (db_touched b) (batch b ++ [op]).
Definition disjoint_put (b : DisjointBatch) (key value : bytes) : option DisjointBatch :=
  p ← batch_prefix b key; Some (push_op p.2 (KPut key value)).
Definition disjoint_delete (b : DisjointBatch) (key : bytes) : option DisjointBatch :=
  p ← batch_prefix b key; Some (push_op p.2 (KDelete key)).
Definition disjoint_delete_range (b : DisjointBatch) (start last : bytes) : option DisjointBatch :=
  if blt last start then None
  else
    p ← batch_prefix b start;
    q ← batch_prefix p.2 last;
    if bool_decide (p.1 = q.1) then Some (push_op q.2 (KDeleteRange start last)) else None.

(** ** The database *)

Record WriteLedger : Type := mkLedger { general : Z; disjoint : gmap (byte * byte) Z }.

Section database.
Context `{RocksDb}.

Record CoordinatedDb : Type := mkDb {
  rocks : Rdb;
  latched : bool;
  ledger : WriteLedger;
  instance : Z;
}.

(** [CoordinatedDb::new]: what the database holds counts as one general write. *)
Definition open_database (r : Rdb) (id : Z) : CoordinatedDb := mkDb r false (mkLedger (latest_sequence_number r) ∅) id.

(** [lock_writes]: a latched database gives no guard. *)
Definition lock_writes (db : CoordinatedDb) : DatabaseCommitError + unit := if latched db then inl PriorWriteFailed else inr tt.

(** [DatabaseWriteGuard::write_raw]: a failed write latches the database. *)
Definition write_raw (db : CoordinatedDb) (ops : list kv_op) : (DatabaseCommitError + unit) * CoordinatedDb :=
  if latched db then (inl PriorWriteFailed, db)
  else
    match rocks_write (rocks db) ops with
    | (Ok _, r) => (inr tt, mkDb r false (ledger db) (instance db))
    | (_, r) => (inl Storage, mkDb r true (ledger db) (instance db))
    end.

Definition write_batch (db : CoordinatedDb) (ops : list kv_op) : (DatabaseCommitError + unit) * CoordinatedDb :=
  match write_raw db ops with
  | (inr _, db') => (inr tt, mkDb (rocks db') (latched db') (mkLedger (latest_sequence_number (rocks db')) (disjoint (ledger db'))) (instance db'))
  | r => r
  end.

(** [CoordinatedDb::write] and [write_disjoint] *)
Definition write (db : CoordinatedDb) (ops : list kv_op) : (DatabaseCommitError + unit) * CoordinatedDb :=
  match lock_writes db with inl e => (inl e, db) | inr _ => write_batch db ops end.
Definition write_disjoint (db : CoordinatedDb) (b : DisjointBatch) : (DatabaseCommitError + unit) * CoordinatedDb :=
  match lock_writes db with
  | inl e => (inl e, db)
  | inr _ =>
  match write_raw db (batch b) with
  | (inr _, db') =>
      let sequence := latest_sequence_number (rocks db') in
      (inr tt, mkDb (rocks db') (latched db')
                 (mkLedger (general (ledger db')) (foldl (fun m prefix => <[prefix := sequence]> m) (disjoint (ledger db')) (db_touched b)))
                 (instance db'))
  | r => r
  end
  end.

(** [execution_snapshot]: the contents and their sequence number. *)
Definition execution_snapshot (db : CoordinatedDb) : DatabaseCommitError + (Rdb * Z) :=
  match lock_writes db with
  | inl e => inl e
  | inr _ => inr (rocks db, latest_sequence_number (rocks db))
  end.

(** [refuse_writes] and [stop_writes]: the latch set from outside. *)
Definition refuse_writes (db : CoordinatedDb) : CoordinatedDb := mkDb (rocks db) true (ledger db) (instance db).

Definition conflicts (db : CoordinatedDb) (expected : Z) (touched : KeyPrefixSet) : bool :=
  (expected <? general (ledger db)) ||
  existsb (fun e => (expected <? e.2) && contains touched e.1) (map_to_list (disjoint (ledger db))).

Definition commit_execution (db : CoordinatedDb) (source expected : Z) (touched : KeyPrefixSet) (ops : list kv_op) :
    (DatabaseCommitError + unit) * CoordinatedDb :=
  if negb (instance db =? source) then (inl ForeignDatabase, db)
  else
    let actual := latest_sequence_number (rocks db) in
    if negb (actual =? expected) && conflicts db expected touched then (inl (Stale expected actual), db)
    else write_batch db ops.
End database.
