(* ===== verification/DatabaseCorrect.v ===== *)
(** * What the write ledger detects

    The prefix set records every key of a marked range exactly; a batch confined to
    declared prefixes writes no other key; and, over any interleaving of writes, a
    plan that is accepted finds every key it touched as it was at its capture. *)

From Stdlib Require Import Strings.Byte.
From stdpp Require Import gmap.
From S2P Require Import Prelude Bytes TreeStore TreeStoreOrder Database.

#[local] Ltac Zify.zify_post_hook ::= Z.to_euclidean_division_equations.

(** ** Laws of RocksDB

    An iterator lists its range in order, a write that succeeds takes effect and,
    unless it is empty, advances the sequence number. *)
Class LawfulRocks `{RocksDb} : Type := {
  rocks_map : Rdb -> gmap bytes bytes;
  rocks_get_map db k r : rocks_get db k = Ok r -> r = rocks_map db !! k;
  rocks_iterator_map db lo hi es : rocks_iterator db lo hi = Ok es ->
    ascending es /\ forall k v, (k, v) ∈ es <-> rocks_map db !! k = Some v /\ in_range lo hi k = true;
  rocks_write_map db ops u db' : rocks_write db ops = (Ok u, db') -> rocks_map db' = foldl apply_kv (rocks_map db) ops;
  rocks_write_sequence db ops u db' : rocks_write db ops = (Ok u, db') ->
    latest_sequence_number db <= latest_sequence_number db' /\ (ops <> [] -> latest_sequence_number db < latest_sequence_number db');
}.

(** ** Prefix sets *)

Definition words_ok (s : KeyPrefixSet) : Prop := length s = 1024%nat.
Definition word_slot (i : Z) : Prop := 0 <= i < 65536.
Definition test (s : KeyPrefixSet) (i : Z) : bool := Z.testbit (default 0 (s !! Z.to_nat (Z.shiftr i 6))) (Z.land i 63).

Lemma land63 i : Z.land i 63 = i mod 64.
Proof. apply (Z.land_ones i 6). lia. Qed.
Lemma shiftr6 i : Z.shiftr i 6 = i / 64.
Proof. by rewrite Z.shiftr_div_pow2. Qed.

Lemma index_value a b : index a b = 256 * b2z a + b2z b.
Proof. unfold index. pose proof (b2z_range b). change 8 with (Z.of_nat 8). rewrite lor_high by (cbn; lia). change (2 ^ Z.of_nat 8) with 256. lia. Qed.
Lemma index_slot a b : word_slot (index a b).
Proof. rewrite index_value. pose proof (b2z_range a). pose proof (b2z_range b). unfold word_slot. lia. Qed.
Lemma index_inj a b a' b' : index a b = index a' b' -> a = a' /\ b = b'.
Proof.
  rewrite !index_value. pose proof (b2z_range a). pose proof (b2z_range b). pose proof (b2z_range a'). pose proof (b2z_range b').
  intros E. split; apply b2z_inj; lia.
Qed.

Lemma contains_test s p : contains s p = test s (index p.1 p.2).
Proof.
  unfold contains, test. set (w := default 0 _). set (i := Z.land _ 63). assert (Hi : 0 <= i) by (unfold i; rewrite land63; lia).
  rewrite Z.shiftl_mul_pow2, Z.mul_1_l by lia. destruct (Z.testbit w i) eqn:E.
  - apply negb_true_iff, Z.eqb_neq. intros E0. apply (f_equal (fun z => Z.testbit z i)) in E0. by rewrite Z.land_spec, E, Z.pow2_bits_true, Z.bits_0 in E0 by lia.
  - apply negb_false_iff, Z.eqb_eq. apply Z.bits_inj'. intros n Hn. rewrite Z.land_spec, Z.bits_0. destruct (decide (n = i)) as [->|]; [by rewrite E|].
    rewrite Z.pow2_bits_false by lia. apply andb_false_r.
Qed.

Lemma or_word_ok word mask s : words_ok s -> words_ok (or_word word mask s).
Proof. unfold words_ok, or_word. by rewrite length_alter. Qed.
Lemma or_word_test word mask s i : words_ok s -> word_slot i -> 0 <= word -> 
  test (or_word word mask s) i = test s i || ((Z.shiftr i 6 =? word) && Z.testbit mask (Z.land i 63)).
Proof.
  unfold test, or_word, words_ok, word_slot. intros Hs Hi Hw. destruct (Z.eqb_spec (Z.shiftr i 6) word) as [<-|Hne]; cbn [andb].
  - rewrite list_lookup_alter_eq. destruct (s !! Z.to_nat (Z.shiftr i 6)) as [w|] eqn:E; [cbn; by rewrite Z.lor_spec|].
    apply lookup_ge_None in E. rewrite Hs in E. rewrite shiftr6 in *. lia.
  - rewrite list_lookup_alter_ne by (rewrite shiftr6 in *; intros E; apply Z2Nat.inj in E; lia). by rewrite orb_false_r.
Qed.
Lemma set_prefix_test s j i : words_ok s -> word_slot j -> word_slot i -> test (set_prefix s j) i = test s i || (i =? j).
Proof.
  intros Hs Hj Hi. unfold set_prefix. rewrite or_word_test by (done || (rewrite shiftr6; unfold word_slot in *; lia)). f_equal.
  rewrite Z.shiftl_mul_pow2, Z.mul_1_l, Z.pow2_bits_eqb by (rewrite land63; lia). rewrite !shiftr6, !land63. unfold word_slot in *.
  destruct (Z.eqb_spec i j) as [->|Hne]; [by rewrite !Z.eqb_refl|]. destruct (Z.eqb_spec (i / 64) (j / 64)); [|done]. cbn [andb]. apply Z.eqb_neq. lia.
Qed.

Lemma span_mask_bits start last word b : word_slot start -> word_slot last -> 0 <= b < 64 ->
  Z.testbit (span_mask start last word) b
  = ((if word =? start / 64 then start mod 64 else 0) <=? b) && (b <=? (if word =? last / 64 then last mod 64 else 63)).
Proof.
  intros Hs Hl Hb. unfold span_mask. rewrite !shiftr6, !land63. set (low := if word =? start / 64 then start mod 64 else 0). set (high := if word =? last / 64 then last mod 64 else 63).
  assert (0 <= low < 64) by (unfold low; case_one; lia). assert (0 <= high < 64) by (unfold high; case_one; lia).
  assert (Hones : forall n, 0 <= n -> Z.testbit u64_max n = (n <? 64)).
  { intros n Hn. change u64_max with (Z.ones 64). rewrite Z.testbit_ones_nonneg by lia. done. }
  unfold wrap_u64. rewrite Z.land_spec, Z.shiftr_spec, Z.mod_pow2_bits_low, Z.shiftl_spec, Hones by lia. destruct (Z.leb_spec low b).
  - rewrite Hones by lia. rewrite (proj2 (Z.ltb_lt (b - low) 64)) by lia. rewrite andb_true_r. cbn [andb]. destruct (Z.leb_spec b high); [apply Z.ltb_lt|apply Z.ltb_ge]; lia.
  - rewrite (Z.testbit_neg_r u64_max (b - low)) by lia. by rewrite andb_false_r.
Qed.

Lemma span_words_test start last words : forall s i, words_ok s -> word_slot i -> word_slot start -> word_slot last -> (forall w, w ∈ words -> 0 <= w) ->
  test (foldl (fun s word => or_word word (span_mask start last word) s) s words) i
  = test s i || (bool_decide (i / 64 ∈ words) && Z.testbit (span_mask start last (i / 64)) (i mod 64)).
Proof.
  induction words as [|w words IH]; intros s i Hs Hi Hst Hla Hw; cbn [foldl]; [by rewrite orb_false_r|].
  rewrite IH by (done || (by apply or_word_ok) || (intros; apply Hw; by right)). rewrite or_word_test by (done || (apply Hw; left)). rewrite shiftr6, land63, <- orb_assoc. f_equal.
  destruct (Z.eqb_spec (i / 64) w) as [<-|Hne]; cbn [andb].
  - rewrite (bool_decide_eq_true_2 (i / 64 ∈ i / 64 :: words)) by left. cbn [andb]. destruct (Z.testbit _ _); [done|by rewrite andb_false_r].
  - cbn [orb]. apply (f_equal (fun b => b && _)). apply bool_decide_ext. rewrite elem_of_cons. naive_solver.
Qed.

(** A span marks exactly the slots between its ends. *)
Lemma set_span_test s start last i : words_ok s -> word_slot start -> word_slot last -> start <= last -> word_slot i ->
  test (set_span s start last) i = test s i || ((start <=? i) && (i <=? last)).
Proof.
  intros Hs Hst Hla Hle Hi. unfold set_span. rewrite !shiftr6. rewrite span_words_test; [|done..|]; unfold word_slot in *.
  2: { intros w (j & -> & _)%list_elem_of_fmap. lia. }
  f_equal. rewrite span_mask_bits by (unfold word_slot; lia).
  assert (Hb : bool_decide (i / 64 ∈ (fun j => start / 64 + Z.of_nat j) <$> seq 0 (Z.to_nat (last / 64 - start / 64 + 1))) = (start / 64 <=? i / 64) && (i / 64 <=? last / 64)).
  { apply eq_iff_eq_true. rewrite bool_decide_eq_true, andb_true_iff, !Z.leb_le, list_elem_of_fmap. setoid_rewrite elem_of_seq. split.
    - intros (j & -> & ?). lia.
    - intros ?. exists (Z.to_nat (i / 64 - start / 64)). lia. }
  rewrite Hb. apply eq_iff_eq_true. rewrite !andb_true_iff, !Z.leb_le. destruct (Z.eqb_spec (i / 64) (start / 64)), (Z.eqb_spec (i / 64) (last / 64)); lia.
Qed.

(** ** Marked keys *)

Definition prefix_of_key (k : bytes) : option (byte * byte) := match k with a :: b :: _ => Some (a, b) | _ => None end.
(** A key that has a prefix is marked when its prefix is. *)
Definition marked (s : KeyPrefixSet) (k : bytes) : Prop := forall p, prefix_of_key k = Some p -> contains s p = true.

Lemma marked_test s a b k : test s (index a b) = true <-> marked s (a :: b :: k).
Proof. unfold marked. cbn [prefix_of_key]. setoid_rewrite contains_test. split; [by intros ? p [= <-]|intros Hp; by apply (Hp (a, b))]. Qed.

Lemma mark_key_words s k : words_ok s -> words_ok (mark_key s k).
Proof. apply or_word_ok. Qed.
Lemma mark_key_self s k : words_ok s -> marked (mark_key s k) k.
Proof.
  intros Hs. destruct k as [|a [|b k]]; [done..|]. apply marked_test. unfold mark_key. cbn [lookup list_lookup default from_option Datatypes.id].
  rewrite set_prefix_test by (done || apply index_slot). by rewrite Z.eqb_refl, orb_true_r.
Qed.
Lemma mark_key_mono s k k' : words_ok s -> marked s k' -> marked (mark_key s k) k'.
Proof.
  intros Hs. destruct k' as [|a [|b k']]; [done..|]. rewrite <- !marked_test. intros Ht. unfold mark_key. rewrite set_prefix_test by (done || apply index_slot). by rewrite Ht.
Qed.

Lemma set_span_words s a z : words_ok s -> words_ok (set_span s a z).
Proof. unfold set_span. generalize ((fun i : nat => Z.shiftr a 6 + Z.of_nat i) <$> seq 0 (Z.to_nat (Z.shiftr z 6 - Z.shiftr a 6 + 1))). intros l. revert s. induction l as [|w l IH]; intros s Hs; [done|]. cbn [foldl]. by apply IH, or_word_ok. Qed.
Lemma mark_range_words s lo hi : words_ok s -> words_ok (mark_range s lo hi).
Proof. intros Hs. unfold mark_range. destruct (hi !! 0%nat); [by apply set_span_words|done]. Qed.
Lemma mark_range_mono s lo hi k : words_ok s -> marked s k -> marked (mark_range s lo hi) k.
Proof.
  intros Hs Hk. destruct k as [|a [|b k]]; [done..|]. rewrite <- marked_test in *. unfold mark_range. destruct (hi !! 0%nat); [|done].
  rewrite set_span_test; [by rewrite Hk|done|apply index_slot| |lia|apply index_slot]. apply Z.max_case; apply index_slot.
Qed.

Lemma index_lower lo a b k : ble lo (a :: b :: k) = true -> index (default x00 (lo !! 0%nat)) (default x00 (lo !! 1%nat)) <= index a b.
Proof.
  rewrite !index_value. pose proof (b2z_range a). pose proof (b2z_range b). unfold ble. destruct lo as [|c [|e lo]]; cbn [lookup list_lookup default from_option Datatypes.id blt]; change (b2z x00) with 0.
  - lia.
  - destruct (Z.ltb_spec (b2z a) (b2z c)); [done|]. lia.
  - destruct (Z.ltb_spec (b2z a) (b2z c)); [done|]. pose proof (b2z_range e). destruct (Z.ltb_spec (b2z c) (b2z a)); [lia|]. destruct (Z.ltb_spec (b2z b) (b2z e)); [done|]. lia.
Qed.
Lemma index_upper hi c a b k : hi !! 0%nat = Some c -> blt (a :: b :: k) hi = true -> index a b <= index c (default xff (hi !! 1%nat)).
Proof.
  rewrite !index_value. pose proof (b2z_range a). pose proof (b2z_range b). destruct hi as [|c' [|e hi]]; cbn [lookup list_lookup default from_option Datatypes.id blt]; [done|..]; intros [= ->]; change (b2z xff) with 255.
  - destruct (Z.ltb_spec (b2z a) (b2z c)); [lia|]. destruct (Z.ltb_spec (b2z c) (b2z a)); [done|]. done.
  - pose proof (b2z_range e). destruct (Z.ltb_spec (b2z a) (b2z c)); [lia|]. destruct (Z.ltb_spec (b2z c) (b2z a)); [done|]. destruct (Z.ltb_spec (b2z b) (b2z e)); [lia|]. destruct (Z.ltb_spec (b2z e) (b2z b)); [done|]. lia.
Qed.

(** Every key of a marked range is marked. *)
Lemma mark_range_self s lo hi k : words_ok s -> in_range lo hi k = true -> marked (mark_range s lo hi) k.
Proof.
  intros Hs [Hlo Hhi]%in_range_spec. destruct k as [|a [|b k]]; [done..|]. apply marked_test. unfold mark_range.
  destruct (hi !! 0%nat) as [c|] eqn:Ec; [|destruct hi; [by cbn in Hhi|done]].
  rewrite set_span_test; [|done|apply index_slot|apply Z.max_case; apply index_slot|lia|apply index_slot].
  rewrite (proj2 (Z.leb_le _ _)) by (by eapply index_lower). rewrite (proj2 (Z.leb_le _ _)); [apply orb_true_r|]. pose proof (index_upper _ _ _ _ _ Ec Hhi). lia.
Qed.

(** ** Confined batches *)

Definition op_touches (op : kv_op) (k : bytes) : bool :=
  match op with
  | KPut k' _ | KDelete k' => bool_decide (k = k')
  | KDeleteRange a b => in_range a b k
  end.
Lemma apply_untouched ops : forall m k, Forall (fun op => op_touches op k = false) ops -> foldl apply_kv m ops !! k = m !! k.
Proof.
  induction ops as [|op ops IH]; intros m k Hf; cbn [foldl]; [done|]. apply Forall_cons in Hf as [Hop Hf]. rewrite IH by done.
  destruct op; cbn [op_touches apply_kv] in *; [apply bool_decide_eq_false in Hop; by rewrite lookup_insert_ne by done|apply bool_decide_eq_false in Hop; by rewrite lookup_delete_ne by done|].
  apply option_eq. intros v. rewrite map_lookup_filter_Some. cbn [fst]. naive_solver.
Qed.

(** A confined batch touches only keys with a prefix it has recorded. *)
Definition confined (b : DisjointBatch) : Prop :=
  Forall (fun op => forall k, op_touches op k = true -> exists p, prefix_of_key k = Some p /\ p ∈ db_touched b) (batch b).

Lemma batch_prefix_spec b key p b' : batch_prefix b key = Some (p, b') ->
  prefix_of_key key = Some p /\ p ∈ db_touched b' /\ batch b' = batch b /\ db_touched b ⊆ db_touched b'.
Proof.
  unfold batch_prefix. destruct key as [|x [|y key]]; [done..|]. case_bool_decide; [|done]. intros [= <- <-]. case_bool_decide; [done|]. cbn. set_solver.
Qed.
Lemma push_confined b b' op : confined b -> batch b' = batch b -> db_touched b ⊆ db_touched b' ->
  (forall k, op_touches op k = true -> exists p, prefix_of_key k = Some p /\ p ∈ db_touched b') -> confined (push_op b' op).
Proof.
  unfold confined, push_op. cbn. intros Hc -> Hs Hop. apply Forall_app. split; [|by apply Forall_singleton]. eapply Forall_impl; [exact Hc|]. cbn. intros o Ho k Hk. destruct (Ho k Hk) as (p & ? & ?). exists p. set_solver.
Qed.
Lemma range_prefix_same start last a b k : prefix_of_key start = Some (a, b) -> prefix_of_key last = Some (a, b) -> in_range start last k = true -> prefix_of_key k = Some (a, b).
Proof.
  destruct start as [|a1 [|b1 s]], last as [|a2 [|b2 l]]; try done. cbn [prefix_of_key]. intros [= -> ->] [= -> ->] [Hlo Hhi]%in_range_spec. unfold ble in Hlo.
  destruct k as [|x [|y k]]; cbn [blt] in *; [done|..].
  - destruct (Z.ltb_spec (b2z x) (b2z a)); [done|]. destruct (Z.ltb_spec (b2z a) (b2z x)); [done|]. done.
  - destruct (Z.ltb_spec (b2z x) (b2z a)); [done|]. destruct (Z.ltb_spec (b2z a) (b2z x)); [done|]. destruct (Z.ltb_spec (b2z y) (b2z b)); [done|]. destruct (Z.ltb_spec (b2z b) (b2z y)); [done|].
    cbn. f_equal. f_equal; apply b2z_inj; lia.
Qed.
Lemma disjoint_new_confined allowed : confined (disjoint_new allowed).
Proof. constructor. Qed.
Lemma disjoint_put_confined b k v b' : confined b -> disjoint_put b k v = Some b' -> confined b'.
Proof.
  intros Hc. unfold disjoint_put. intros ([p b1] & (Hp & Hin & Eb & Hs)%batch_prefix_spec & [= <-])%bind_Some. eapply push_confined; [exact Hc|done..|]. cbn [op_touches snd]. intros k'. rewrite bool_decide_eq_true. intros ->. by exists p.
Qed.
Lemma disjoint_delete_confined b k b' : confined b -> disjoint_delete b k = Some b' -> confined b'.
Proof.
  intros Hc. unfold disjoint_delete. intros ([p b1] & (Hp & Hin & Eb & Hs)%batch_prefix_spec & [= <-])%bind_Some. eapply push_confined; [exact Hc|done..|]. cbn [op_touches snd]. intros k'. rewrite bool_decide_eq_true. intros ->. by exists p.
Qed.
Lemma disjoint_delete_range_confined b s l b' : confined b -> disjoint_delete_range b s l = Some b' -> confined b'.
Proof.
  intros Hc. unfold disjoint_delete_range. case_one; [done|]. intros ([p b1] & (Hp & Hin & Eb & Hs)%batch_prefix_spec & ([q b2] & (Hq & Hin2 & Eb2 & Hs2)%batch_prefix_spec & Er)%bind_Some)%bind_Some.
  cbn [fst snd] in *. case_bool_decide as Epq; [|done]. subst q. injection Er as <-. apply (push_confined b); [done|congruence|set_solver|]. cbn [op_touches]. intros k Hk. destruct p as [x y]. exists (x, y). split; [|done].
  by apply (range_prefix_same s l x y).
Qed.

(** ** The ledger *)

Section ledger.
Context `{LawfulRocks}.
Implicit Types d : CoordinatedDb.

Abbreviation seq_of d := (latest_sequence_number (rocks d)).
Abbreviation map_of d := (rocks_map (rocks d)).

(** What can happen to a database between a capture and a publication. *)
Inductive db_step : CoordinatedDb -> CoordinatedDb -> Prop :=
| step_write d ops r d' : write d ops = (r, d') -> db_step d d'
| step_disjoint d b r d' : confined b -> write_disjoint d b = (r, d') -> db_step d d'
| step_execution d source expected touched ops r d' : commit_execution d source expected touched ops = (r, d') -> db_step d d'
| step_refuse d : db_step d (refuse_writes d).

Definition ledger_ok d : Prop := general (ledger d) <= seq_of d /\ map_Forall (fun _ s => s <= seq_of d) (disjoint (ledger d)).

Lemma open_database_ok r id : ledger_ok (open_database r id).
Proof. split; [done|]. apply map_Forall_empty. Qed.

(** A write that succeeds on an open database. *)
Lemma write_raw_ok d ops u d' : write_raw d ops = (inr u, d') ->
  latched d = false /\ latched d' = false /\ ledger d' = ledger d /\ instance d' = instance d /\ map_of d' = foldl apply_kv (map_of d) ops /\
  seq_of d <= seq_of d' /\ (ops <> [] -> seq_of d < seq_of d').
Proof.
  unfold write_raw. destruct (latched d) eqn:El; [done|]. destruct (rocks_write (rocks d) ops) as [[w|e|] r'] eqn:E; [|done..]. intros [= _ <-]. cbn.
  pose proof (rocks_write_map _ _ _ _ E). destruct (rocks_write_sequence _ _ _ _ E). repeat split; done.
Qed.
Lemma write_raw_failed d ops e d' : write_raw d ops = (inl e, d') -> latched d' = true.
Proof. unfold write_raw. destruct (latched d) eqn:El; [by intros [= _ <-]|]. destruct (rocks_write (rocks d) ops) as [[w|e'|] r'] eqn:E; [done|..]; by intros [= _ <-]. Qed.

Lemma step_keeps_latch d d' : db_step d d' -> latched d = true -> latched d' = true.
Proof.
  intros Hs Hl. destruct Hs as [d ops r d' E|d b r d' _ E|d src ex t ops r d' E|d]; [| | |done].
  - unfold write, lock_writes in E. rewrite Hl in E. by injection E as _ <-.
  - unfold write_disjoint, lock_writes in E. rewrite Hl in E. by injection E as _ <-.
  - unfold commit_execution in E. case_one_in E; [by injection E as _ <-|]. case_one_in E; [by injection E as _ <-|]. unfold write_batch, write_raw in E. rewrite Hl in E. by injection E as _ <-.
Qed.

(** [unwritten s d k]: by its ledger, [d] has not written [k] after sequence [s]. *)
Definition unwritten (s : Z) d (k : bytes) : Prop :=
  seq_of d = s \/ (general (ledger d) <= s /\ forall p t, prefix_of_key k = Some p -> disjoint (ledger d) !! p = Some t -> t <= s).

(** Since its capture at sequence [s] with contents [m]. *)
Record since (s : Z) (m : gmap bytes bytes) d : Prop := {
  since_ledger : ledger_ok d;
  since_seq : s <= seq_of d;
  since_keys k : unwritten s d k -> map_of d !! k = m !! k;
}.
Lemma since_start d : ledger_ok d -> since (seq_of d) (map_of d) d.
Proof. intros Hl. by split. Qed.

Lemma touched_recorded ps s : forall m p t, foldl (fun m prefix => <[prefix := s]> m) (m : gmap (byte * byte) Z) ps !! p = Some t ->
  t = s \/ m !! p = Some t.
Proof.
  induction ps as [|q ps IH]; intros m p t; cbn [foldl]; [by right|]. intros [->|Hp]%IH; [by left|]. rewrite lookup_insert_Some in Hp. naive_solver.
Qed.
Lemma touched_present ps s : forall m p, (p ∈ ps \/ m !! p = Some s) -> foldl (fun m prefix => <[prefix := s]> m) (m : gmap (byte * byte) Z) ps !! p = Some s.
Proof.
  induction ps as [|q ps IH]; intros m p Hp; cbn [foldl]; [set_solver|]. apply IH. destruct (decide (p = q)) as [->|]; [right; apply lookup_insert_eq|].
  rewrite lookup_insert_ne by done. set_solver.
Qed.
Lemma touched_kept ps s : forall m p, p ∉ ps -> foldl (fun m prefix => <[prefix := s]> m) (m : gmap (byte * byte) Z) ps !! p = m !! p.
Proof. induction ps as [|q ps IH]; intros m p Hp; cbn [foldl]; [done|]. rewrite IH by set_solver. apply lookup_insert_ne. set_solver. Qed.

Lemma general_write_since s m d ops u d' : since s m d -> write_batch d ops = (inr u, d') -> since s m d'.
Proof.
  intros [[Hg Hd] Hs Hk]. unfold write_batch. destruct (write_raw d ops) as [[e|u'] d1] eqn:E; [done|]. apply write_raw_ok in E as (_ & Hl1 & El & _ & Em & Hle & Hlt).
  intros [= _ <-]. split; cbn; [split; cbn; [done|]|lia|].
  - intros p t Hp. rewrite El in Hp. specialize (Hd p t Hp). cbn in Hd. lia.
  - unfold unwritten. cbn. intros k Hu. assert (Es : seq_of d1 = s) by (destruct Hu as [?|[? _]]; [done|lia]).
    destruct ops as [|op ops]; [|specialize (Hlt ltac:(done)); lia]. rewrite Em. apply Hk. left. lia.
Qed.
Lemma disjoint_write_since s m d b u d' : confined b -> since s m d -> write_disjoint d b = (inr u, d') -> since s m d'.
Proof.
  intros Hc [[Hg Hd] Hs Hk]. unfold write_disjoint. destruct (lock_writes d); [done|]. destruct (write_raw d (batch b)) as [[e|u'] d1] eqn:E; [done|].
  apply write_raw_ok in E as (_ & Hl1 & El & _ & Em & Hle & Hlt). intros [= _ <-]. split; cbn; [split; cbn; [rewrite El; lia|]|lia|].
  - intros p t [->|Hp]%touched_recorded; [done|]. rewrite El in Hp. specialize (Hd p t Hp). cbn in Hd. lia.
  - unfold unwritten. cbn. intros k Hu. rewrite Em. destruct (decide (batch b = [])) as [Eb|Hne].
    + rewrite Eb. cbn [foldl]. apply Hk. destruct Hu as [Hu|[Hu1 Hu2]]; [left; lia|right]. rewrite El in *. split; [done|]. intros p t Hp Ht.
      destruct (decide (p ∈ db_touched b)) as [Hin|Hin]; [|by apply (Hu2 p t); [|rewrite touched_kept]].
      specialize (Hu2 p _ Hp (touched_present _ _ _ _ (or_introl Hin))). specialize (Hd p t Ht). cbn in Hd. lia.
    + specialize (Hlt Hne). destruct Hu as [Hu|[Hu1 Hu2]]; [lia|]. rewrite El in *. rewrite apply_untouched.
      * apply Hk. right. split; [done|]. intros p t Hp Ht. destruct (decide (p ∈ db_touched b)) as [Hin|Hin]; [|by apply (Hu2 p t); [|rewrite touched_kept]].
        specialize (Hu2 p _ Hp (touched_present _ _ _ _ (or_introl Hin))). lia.
      * eapply Forall_impl; [exact Hc|]. cbn. intros op Hop. destruct (op_touches op k) eqn:Et; [|done]. destruct (Hop k Et) as (p & Hp & Hin).
        specialize (Hu2 p _ Hp (touched_present _ _ _ _ (or_introl Hin))). lia.
Qed.

Lemma write_batch_failed d ops e d' : write_batch d ops = (inl e, d') -> latched d' = true.
Proof. unfold write_batch. destruct (write_raw d ops) as [[e'|u'] d1] eqn:E1; [|done]. intros [= _ <-]. by eapply write_raw_failed. Qed.

Lemma step_since s m d d' : db_step d d' -> latched d' = false -> since s m d -> since s m d'.
Proof.
  intros Hs Hl Hsi. assert (Hwb : forall ops r, write_batch d ops = (r, d') -> since s m d').
  { intros ops [e|w] E; [by rewrite (write_batch_failed _ _ _ _ E) in Hl|by eapply general_write_since]. }
  destruct Hs as [d ops r d' E|d b r d' Hc E|d src ex t ops r d' E|d]; [| | |done].
  - unfold write in E. destruct (lock_writes d); [by injection E as _ <-|by eapply Hwb].
  - destruct r as [e|w]; [|by eapply disjoint_write_since]. unfold write_disjoint in E. destruct (lock_writes d); [by injection E as _ <-|].
    destruct (write_raw d (batch b)) as [[e'|u'] d1] eqn:Ew; [|done]. injection E as _ <-. by rewrite (write_raw_failed _ _ _ _ Ew) in Hl.
  - unfold commit_execution in E. destruct (negb _); [by injection E as _ <-|]. destruct (_ && _); [by injection E as _ <-|by eapply Hwb].
Qed.

Lemma steps_since s m d d' : rtc db_step d d' -> latched d' = false -> since s m d -> since s m d'.
Proof.
  induction 1 as [|d d1 d' Hs Hr IH]; intros Hl Hsi; [done|]. apply IH; [done|]. eapply step_since; [exact Hs| |done].
  destruct (latched d1) eqn:E; [|done]. exfalso. clear -E Hr Hl. assert (latched d' = true); [|congruence]. induction Hr as [|? ? ? Hs Hr IH]; [done|]. apply IH; [done|]. by eapply step_keeps_latch.
Qed.

(** A plan that commits found every key it touched as it was captured. *)
Lemma commit_finds_touched s m d source touched ops u d' :
  since s m d -> commit_execution d source s touched ops = (inr u, d') ->
  (forall k, marked touched k -> map_of d !! k = m !! k) /\ map_of d' = foldl apply_kv (map_of d) ops.
Proof.
  intros Hsi. unfold commit_execution. case_one; [done|]. case_one; [done|]. intros Hw. split.
  - intros k Hm. apply (since_keys _ _ _ Hsi). destruct (Z.eqb_spec (seq_of d) s) as [Es|Es]; [by left|right].
    match goal with H : _ && conflicts _ _ _ = false |- _ => cbn [negb andb] in H; apply orb_false_iff in H as [Hg Hd] end. bool_to_prop. split; [done|]. intros p t Hp Ht.
    apply not_true_iff_false in Hd. destruct (Z.le_gt_cases t s) as [?|Hgt]; [done|]. destruct Hd. apply existsb_exists. exists (p, t). split; [by apply list_elem_of_In, elem_of_map_to_list|].
    cbn [fst snd]. rewrite (Hm p Hp), (proj2 (Z.ltb_lt s t)) by lia. done.
  - unfold write_batch in Hw. destruct (write_raw d ops) as [[e'|u'] d1] eqn:E1; [done|]. injection Hw as _ <-. cbn. by apply write_raw_ok in E1 as (_ & _ & _ & _ & Em & _).
Qed.
End ledger.
