(* ===== verification/Overlay.v ===== *)
(** * Execution overlays: tentative writes over a database snapshot

    [crates/quil-forest/src/overlay.rs].  An execution runs on a branch: a delta of
    point writes and deleted ranges over a pinned snapshot of the database.  Reads
    merge the two; a batch of mutations is taken whole or not at all; limits bound
    the delta and what reads may cost; a failure of any kind marks the branch, and
    a marked branch is never published.

    A branch is a pair of its snapshot, shared by the branches forked from it, and
    its own overlay.  Clock readings are arguments.  The count of admitted
    snapshots in the process and lock poisoning are not modelled.  Sums of the
    lengths of two slices and counts of entries in memory do not overflow; sums the
    code checks are checked here. *)

From Stdlib Require Import Strings.Byte.
From stdpp Require Import gmap sorting.
From S2P Require Import Prelude Bytes TreeStore Database.

(** ** Ordered maps *)

Definition key_le {V} (a b : bytes * V) : Prop := ble a.1 b.1 = true.
#[global] Instance key_le_dec {V} : RelDecision (@key_le V).
Proof. intros a b. unfold key_le. apply _. Defined.
(** The entries of a [BTreeMap] in its order. *)
Definition in_order {V} (m : gmap bytes V) : list (bytes * V) := merge_sort key_le (map_to_list m).

Definition blen (b : bytes) : Z := Z.of_nat (length b).
Definition value_len (v : option bytes) : Z := match v with Some v => blen v | None => 0 end.
(** [ensure!] *)
Definition ensure (b : bool) : outcome unit := if b then Ok tt else Err Store.
Definition checked_sub_u64 (a b : Z) : option Z := if b <=? a then Some (a - b) else None.

Record OverlayLimits : Type := mkLimits {
  max_delta_bytes : Z;
  max_delta_entries : Z;
  max_record_bytes : Z;
  max_read_bytes : Z;
  max_read_operations : Z;
  max_cursors : Z;
}.

(** ** The delta *)

Record Delta : Type := mkDelta { points : gmap bytes (option bytes); ranges : gmap bytes bytes; delta_bytes : Z }.
Definition no_delta : Delta := mkDelta ∅ ∅ 0.

Definition entries (d : Delta) : Z := Z.of_nat (size (points d) + size (ranges d)).

(** [covering_range]: the last range that starts at or before [key], if it reaches
    past it. *)
Definition covering_range (d : Delta) (key : bytes) : option (bytes * bytes) :=
  match last (List.filter (fun r => ble r.1 key) (in_order (ranges d))) with
  | Some r => if blt key r.2 then Some r else None
  | None => None
  end.

(** [Delta::point] *)
Definition point (d : Delta) (key : bytes) (value : option bytes) (limits : OverlayLimits) : outcome Delta :=
  size ← ok_or (checked_add_u64 (blen key) (value_len value)) Store;
  _ ← ensure (size <=? max_record_bytes limits);
  let old := points d !! key in
  let old_size := match old with Some v => blen key + value_len v | None => 0 end in
  bytes ← ok_or (n ← checked_sub_u64 (delta_bytes d) old_size; checked_add_u64 n size) Store;
  _ ← ensure (bytes <=? max_delta_bytes limits);
  _ ← ensure (entries d + (if old then 0 else 1) <=? max_delta_entries limits);
  Ok (mkDelta (<[key := value]> (points d)) (ranges d) bytes).

(** The two [retain] passes of [delete_range]: points in the range go, and ranges
    that meet or touch it are merged into it. *)
Fixpoint retain_points (start last : bytes) (l : list (bytes * option bytes)) (kept : gmap bytes (option bytes)) (bytes : Z) :
    outcome (gmap Bytes.bytes (option Bytes.bytes) * Z) :=
  match l with
  | [] => Ok (kept, bytes)
  | (key, value) :: l' =>
      if blt key start || ble last key then retain_points start last l' (<[key := value]> kept) bytes
      else bytes' ← ck_u64 (bytes - (blen key + value_len value)); retain_points start last l' kept bytes'
  end.
Fixpoint merge_ranges (l : list (bytes * bytes)) (kept : gmap bytes bytes) (lower upper : bytes) (size : Z) :
    outcome (gmap bytes bytes * bytes * bytes * Z) :=
  match l with
  | [] => Ok (kept, lower, upper, size)
  | (a, b) :: l' =>
      if blt b lower || blt upper a then merge_ranges l' (<[a := b]> kept) lower upper size
      else
        size' ← ck_u64 (size - (blen a + blen b));
        merge_ranges l' kept (if blt a lower then a else lower) (if blt upper b then b else upper) size'
  end.

Definition delete_range (d : Delta) (start last : bytes) (limits : OverlayLimits) : outcome Delta :=
  _ ← ensure (ble start last);
  _ ← ensure (sat_add_u64 (blen start) (blen last) <=? max_record_bytes limits);
  if bool_decide (start = last) then Ok d
  else
    '(pts, b1) ← retain_points start last (in_order (points d)) ∅ (delta_bytes d);
    '(rs, lower, upper, b2) ← merge_ranges (in_order (ranges d)) ∅ start last b1;
    bytes ← ok_or (n ← checked_add_u64 b2 (blen lower); checked_add_u64 n (blen upper)) Store;
    _ ← ensure (sat_add_u64 (blen lower) (blen upper) <=? max_record_bytes limits);
    _ ← ensure (bytes <=? max_delta_bytes limits);
    _ ← ensure (Z.of_nat (size pts + size rs) <? max_delta_entries limits);
    Ok (mkDelta pts (<[lower := upper]> rs) bytes).

Definition mutate (limits : OverlayLimits) (d : Delta) (op : kv_op) : outcome Delta :=
  match op with
  | KPut k v => point d k (Some v) limits
  | KDelete k => point d k None limits
  | KDeleteRange a b => delete_range d a b limits
  end.

(** ** The read budget *)

Record ReadBudget : Type := mkBudget { operations : Z; read_bytes : Z }.

Definition operation (limits : OverlayLimits) (r : ReadBudget) : outcome ReadBudget :=
  _ ← ensure (operations r <? max_read_operations limits);
  Ok (mkBudget (operations r + 1) (read_bytes r)).
Definition record (limits : OverlayLimits) (key value : bytes) (r : ReadBudget) : outcome ReadBudget :=
  size ← ok_or (checked_add_u64 (blen key) (blen value)) Store;
  _ ← ensure (size <=? max_record_bytes limits);
  bytes ← ok_or (checked_add_u64 (read_bytes r) size) Store;
  _ ← ensure (bytes <=? max_read_bytes limits);
  Ok (mkBudget (operations r) bytes).

(** ** Pinned snapshots *)

(** An idle iterator of the snapshot, with its bounds and where it stands. *)
Record ParkedIterator : Type := mkParked { pk_lower : bytes; pk_upper : bytes; parked_at : Z; stands_at : option (bytes * bytes) }.
Definition MAX_PARKED_ITERATORS : nat := 8.
Definition MAX_PARKED_IDLE : Z := 1000.

Record Clock : Type := mkClock { now : Z; max_age : Z }.

Section overlay.
Context `{RocksDb}.

Record PinnedSnapshot : Type := mkPinned {
  snapshot : option Rdb;
  iterators : list ParkedIterator;
  captured : Z;
  source : Z;
  sequence : Z;
}.

Definition set_iterators (l : list ParkedIterator) (p : PinnedSnapshot) : PinnedSnapshot :=
  mkPinned (snapshot p) l (captured p) (source p) (sequence p).
(** [release]: drops the iterators and the snapshot. *)
Definition release (p : PinnedSnapshot) : PinnedSnapshot := mkPinned None [] (captured p) (source p) (sequence p).

Definition expired (c : Clock) (p : PinnedSnapshot) : bool := max_age c <? now c - captured p.
(** [view]: the snapshot for one read, released first when it is too old. *)
Definition view (c : Clock) : st PinnedSnapshot Rdb := fun p =>
  match snapshot p with
  | None => (Err Store, p)
  | Some db => if expired c p then (Err Store, release p) else (Ok db, p)
  end.

(** [Vec::swap_remove] *)
Definition swap_remove {A} (i : nat) (l : list A) : list A :=
  match last l with
  | Some x => if (S i =? length l)%nat then removelast l else <[i := x]> (removelast l)
  | None => l
  end.
(** [take_iterator]: a parked iterator with these bounds, else a new one. *)
Definition take_iterator (c : Clock) (lower upper : bytes) : st PinnedSnapshot ParkedIterator := fun p =>
  match position (fun i => bool_decide (pk_lower i = lower) && bool_decide (pk_upper i = upper)) (iterators p) with
  | Some i =>
      match iterators p !! i with
      | Some it => (Ok it, set_iterators (swap_remove i (iterators p)) p)
      | None => (Panic, p)
      end
  | None => (Ok (mkParked lower upper (now c) None), p)
  end.

(** The first of the iterators parked longest ago. *)
Fixpoint oldest (l : list ParkedIterator) : option (nat * Z) :=
  match l with
  | [] => None
  | i :: l' => match oldest l' with
               | Some (n, t) => if t <? parked_at i then Some (S n, t) else Some (O, parked_at i)
               | None => Some (O, parked_at i)
               end
  end.
(** [park], of an iterator without error. *)
Definition park (c : Clock) (it : ParkedIterator) (p : PinnedSnapshot) : PinnedSnapshot :=
  let kept := if (MAX_PARKED_ITERATORS <=? length (iterators p))%nat
              then match oldest (iterators p) with Some (i, _) => swap_remove i (iterators p) | None => iterators p end
              else iterators p in
  set_iterators (kept ++ [mkParked (pk_lower it) (pk_upper it) (now c) (stands_at it)]) p.
Definition drop_idle_iterators (c : Clock) (p : PinnedSnapshot) : PinnedSnapshot :=
  set_iterators (List.filter (fun i => now c - parked_at i <=? MAX_PARKED_IDLE) (iterators p)) p.

(** ** The raw iterator

    Over the entries [es] of its bounds in the snapshot, it stands at an entry or
    is not valid. *)
Abbreviation row := (option (bytes * bytes)).
Definition raw_seek (es : list (bytes * bytes)) (key : bytes) : row := head (seek key es).
Definition raw_seek_for_prev (es : list (bytes * bytes)) (key : bytes) : row := seek_for_prev key es.
Definition raw_next (es : list (bytes * bytes)) (it : row) : row :=
  match it with Some e => head (List.filter (fun x => blt e.1 x.1) es) | None => None end.
Definition raw_prev (es : list (bytes * bytes)) (it : row) : row :=
  match it with Some e => last (List.filter (fun x => blt x.1 e.1) es) | None => None end.
Definition at_key (it : row) (key : bytes) : bool := match it with Some e => bool_decide (e.1 = key) | None => false end.

(** [step_back]: to the largest entry at or below [target], or below it. *)
Definition beyond (target : bytes) (inclusive : bool) (key : bytes) : bool := if inclusive then blt target key else ble target key.
Definition step_back (es : list (bytes * bytes)) (it : row) (target : bytes) (inclusive : bool) (lower : bytes)
    (floor : option (option bytes * option bytes)) : bool * row :=
  let go :=
    if at_key it target then
      if inclusive then (true, it) else let it' := raw_prev es it in (bool_decide (is_Some it'), it')
    else
      let it1 := raw_seek_for_prev es target in
      let it2 := if negb inclusive && at_key it1 target then raw_prev es it1 else it1 in
      (bool_decide (is_Some it2), it2) in
  if beyond target inclusive lower then (false, it)
  else
    match floor with
    | None => go
    | Some (None, _) => (false, it)
    | Some (Some lowest, second) =>
        if beyond target inclusive lowest then (false, it)
        else if match second with Some s => beyond target inclusive s | None => true end then
          let it' := if at_key it lowest then it else raw_seek es lowest in (bool_decide (is_Some it'), it')
        else go
    end.

(** ** Branches *)

Record ExecutionOverlay : Type := mkOverlay {
  limits : OverlayLimits;
  failed_execution : bool;
  is_open : bool;
  delta : Delta;
  generation : Z;
  reads : ReadBudget;
  cursors : Z;
  touched : KeyPrefixSet;
}.
Record Branch : Type := mkBranch { base : PinnedSnapshot; overlay : ExecutionOverlay }.

Definition with_overlay (f : ExecutionOverlay -> ExecutionOverlay) (b : Branch) : Branch := mkBranch (base b) (f (overlay b)).
Definition fail_overlay (o : ExecutionOverlay) : ExecutionOverlay :=
  mkOverlay (limits o) true (is_open o) (delta o) (generation o) (reads o) (cursors o) (touched o).
Definition set_reads (r : ReadBudget) (o : ExecutionOverlay) : ExecutionOverlay :=
  mkOverlay (limits o) (failed_execution o) (is_open o) (delta o) (generation o) r (cursors o) (touched o).
Definition set_cursors (n : Z) (o : ExecutionOverlay) : ExecutionOverlay :=
  mkOverlay (limits o) (failed_execution o) (is_open o) (delta o) (generation o) (reads o) n (touched o).
Definition set_touched (t : KeyPrefixSet) (o : ExecutionOverlay) : ExecutionOverlay :=
  mkOverlay (limits o) (failed_execution o) (is_open o) (delta o) (generation o) (reads o) (cursors o) t.
Definition set_delta (d : Delta) (g : Z) (o : ExecutionOverlay) : ExecutionOverlay :=
  mkOverlay (limits o) (failed_execution o) (is_open o) d g (reads o) (cursors o) (touched o).
(** [close]: releases the branch's reference to the snapshot and its delta. *)
Definition close_overlay (o : ExecutionOverlay) : ExecutionOverlay :=
  mkOverlay (limits o) (failed_execution o) false no_delta (generation o) (reads o) (cursors o) (touched o).
Definition close (b : Branch) : Branch := with_overlay close_overlay b.

Definition execution_healthy (b : Branch) : bool := negb (failed_execution (overlay b)).
(** [observe]: a failure marks the branch. *)
Definition observe {A} (m : st Branch A) : st Branch A := fun b =>
  match m b with
  | (Ok a, b') => (Ok a, b')
  | (r, b') => (r, with_overlay fail_overlay b')
  end.
Definition modify (f : ExecutionOverlay -> ExecutionOverlay) : st Branch unit := fun b => (Ok tt, with_overlay f b).
Definition check (f : ExecutionOverlay -> bool) : st Branch unit := st_read (fun b => ensure (f (overlay b))).
(** A step on the snapshot, and a charge to the read budget. *)
Definition on_base {A} (m : st PinnedSnapshot A) : st Branch A := fun b =>
  let '(r, p) := m (base b) in (r, mkBranch p (overlay b)).
Definition charge (f : OverlayLimits -> ReadBudget -> outcome ReadBudget) : st Branch unit := fun b =>
  match f (limits (overlay b)) (reads (overlay b)) with
  | Ok r => (Ok tt, with_overlay (set_reads r) b)
  | Err e => (Err e, b)
  | Panic => (Panic, b)
  end.

(** [PinnedSnapshot::new] and [capture_admitted] *)
Definition capture (c : Clock) (db : CoordinatedDb) (limits : OverlayLimits) : DatabaseCommitError + Branch :=
  match execution_snapshot db with
  | inl e => inl e
  | inr (r, seq) =>
      inr (mkBranch (mkPinned (Some r) [] (now c) (instance db) seq)
             (mkOverlay limits false true no_delta 0 (mkBudget 0 0) 0 no_prefixes))
  end.

(** [apply]: all mutations or none; marks stay when one fails. *)
Definition mark_op (op : kv_op) (t : KeyPrefixSet) : KeyPrefixSet :=
  match op with
  | KPut k _ | KDelete k => mark_key t k
  | KDeleteRange a b => mark_range t a b
  end.
Fixpoint apply_loop (candidate : Delta) (mutations : list kv_op) : st Branch Delta :=
  match mutations with
  | [] => mret candidate
  | op :: rest =>
      modify (fun o => set_touched (mark_op op (touched o)) o) ≫= fun _ =>
      st_read (fun b => mutate (limits (overlay b)) candidate op) ≫= fun d =>
      apply_loop d rest
  end.
Definition apply_inner (mutations : list kv_op) : st Branch unit :=
  check is_open ≫= fun _ =>
  match mutations with
  | [] => mret tt
  | _ =>
      st_read (fun b => Ok (delta (overlay b))) ≫= fun d =>
      apply_loop d mutations ≫= fun candidate =>
      st_read (fun b => ck_u64 (generation (overlay b) + 1)) ≫= fun g =>
      modify (set_delta candidate g)
  end.
Definition apply (mutations : list kv_op) : st Branch unit := observe (apply_inner mutations).

(** [get_at]: of the branch's delta, or of a captured one. *)
Definition get_at_inner (c : Clock) (key : bytes) (at_delta : option Delta) : st Branch (option bytes) :=
  check (fun o => blen key <=? max_record_bytes (limits o)) ≫= fun _ =>
  modify (fun o => set_touched (mark_key (touched o) key) o) ≫= fun _ =>
  st_read (fun b => Ok (default (delta (overlay b)) at_delta)) ≫= fun d =>
  check is_open ≫= fun _ =>
  charge operation ≫= fun _ =>
  match points d !! key with
  | Some (Some value) => charge (fun l => record l key value) ≫= fun _ => mret (Some value)
  | Some None => mret None
  | None =>
      if covering_range d key then mret None
      else
        on_base (view c) ≫= fun db =>
        st_read (fun _ => rocks_get db key) ≫= fun value =>
        match value with
        | Some value => charge (fun l => record l key value) ≫= fun _ => mret (Some value)
        | None => mret None
        end
  end.
Definition get_at (c : Clock) (key : bytes) (at_delta : option Delta) : st Branch (option bytes) := observe (get_at_inner c key at_delta).
Definition get (c : Clock) (key : bytes) : st Branch (option bytes) := get_at c key None.

(** ** Cursors *)

Record OverlayCursor : Type := mkCursor { c_delta : Delta; c_lower : bytes; c_upper : bytes; c_row : row; floor_guard : bool }.

Definition cursor_at_inner (lower upper : bytes) (at_delta : option Delta) : st Branch OverlayCursor :=
  st_read (fun _ => ensure (blt lower upper)) ≫= fun _ =>
  check (fun o => sat_add_u64 (blen lower) (blen upper) <=? max_record_bytes (limits o)) ≫= fun _ =>
  check is_open ≫= fun _ =>
  check (fun o => cursors o <? max_cursors (limits o)) ≫= fun _ =>
  modify (fun o => set_touched (mark_range (touched o) lower upper) o) ≫= fun _ =>
  modify (fun o => set_cursors (cursors o + 1) o) ≫= fun _ =>
  st_read (fun b => Ok (mkCursor (default (delta (overlay b)) at_delta) lower upper None false)).
Definition cursor_at (lower upper : bytes) (at_delta : option Delta) : st Branch OverlayCursor := observe (cursor_at_inner lower upper at_delta).
Definition cursor (lower upper : bytes) : st Branch OverlayCursor := cursor_at lower upper None.
(** [Drop] of a cursor and of a read view *)
Definition drop_handle (b : Branch) : Branch := with_overlay (fun o => set_cursors (sat_sub_u64 (cursors o) 1) o) b.

(** [read_view]: keeps the delta of the moment. *)
Definition read_view_inner : st Branch Delta :=
  check is_open ≫= fun _ =>
  check (fun o => cursors o <? max_cursors (limits o)) ≫= fun _ =>
  modify (fun o => set_cursors (cursors o + 1) o) ≫= fun _ =>
  st_read (fun b => Ok (delta (overlay b))).
Definition read_view : st Branch Delta := observe read_view_inner.
Definition floor_guarded_cursor (v : Delta) (lower upper : bytes) : st Branch OverlayCursor :=
  cursor_at lower upper (Some v) ≫= fun c => mret (mkCursor (c_delta c) (c_lower c) (c_upper c) (c_row c) true).

(** The first point of the list that is not a tombstone; each one read is paid. *)
Fixpoint live_point (l : list (bytes * option bytes)) : st Branch row :=
  match l with
  | [] => mret None
  | (k, v) :: l' =>
      charge operation ≫= fun _ =>
      match v with Some v => mret (Some (k, v)) | None => live_point l' end
  end.

(** The two lowest keys stored in the bounds, for a guarded reverse step. *)
Definition read_floor (es : list (bytes * bytes)) (lower : bytes) : st Branch (option bytes * option bytes * row) :=
  charge operation ≫= fun _ =>
  let it := raw_seek es lower in
  match it with
  | Some lowest =>
      charge operation ≫= fun _ =>
      let it' := raw_next es it in
      mret (Some lowest.1, fst <$> it', it')
  | None => mret (None, None, it)
  end.

(** The loop that passes over deleted ranges and overridden entries. *)
Fixpoint skip_hidden (fuel : nat) (d : Delta) (es : list (bytes * bytes)) (reverse : bool) (lower : bytes)
    (floor : option (option bytes * option bytes)) (exhausted : bool) (it : row) : st Branch (bool * row) :=
  match it with
  | Some e =>
      if exhausted then mret (exhausted, it)
      else
        match fuel with
        | O => st_read (fun _ => Panic)
        | S fuel' =>
            match covering_range d e.1 with
            | Some (start, last) =>
                charge operation ≫= fun _ =>
                if reverse then
                  let '(ok, it') := step_back es it start false lower floor in
                  skip_hidden fuel' d es reverse lower floor (negb ok) it'
                else skip_hidden fuel' d es reverse lower floor exhausted (raw_seek es last)
            | None =>
                if bool_decide (is_Some (points d !! e.1)) then
                  charge operation ≫= fun _ =>
                  if reverse then
                    let '(ok, it') := step_back es it e.1 false lower floor in
                    skip_hidden fuel' d es reverse lower floor (negb ok) it'
                  else skip_hidden fuel' d es reverse lower floor exhausted (raw_next es it)
                else mret (exhausted, it)
            end
        end
  | None => mret (exhausted, it)
  end.

(** The nearer of the point and the stored entry. *)
Definition nearer (reverse : bool) (point stored : row) : row :=
  match point, stored with
  | Some a, Some b => Some (if (if reverse then blt b.1 a.1 else blt a.1 b.1) then a else b)
  | Some a, None => Some a
  | None, s => s
  end.

(** The points of the delta from [key] on, in the direction of the step. *)
Definition points_from (d : Delta) (lower upper key : bytes) (reverse inclusive : bool) : list (bytes * option bytes) :=
  if reverse then rev (List.filter (fun p => ble lower p.1 && (if inclusive then ble p.1 key else blt p.1 key)) (in_order (points d)))
  else List.filter (fun p => (if inclusive then ble key p.1 else blt key p.1) && blt p.1 upper) (in_order (points d)).

(** The first move of the stored iterator. *)
Definition first_move (es : list (bytes * bytes)) (it : row) (key : bytes) (reverse inclusive : bool) (lower : bytes)
    (floor : option (option bytes * option bytes)) : st Branch (bool * row) :=
  if reverse then
    let '(ok, it') := step_back es it key inclusive lower floor in mret (negb ok, it')
  else
    let it1 := if at_key it key then it else raw_seek es key in
    if negb inclusive && at_key it1 key
    then charge operation ≫= fun _ => mret (false, raw_next es it1)
    else mret (false, it1).
(** Where the iterator stands before it, and the floor of a guarded reverse step. *)
Definition prepare_floor (es : list (bytes * bytes)) (it : row) (guarded : bool) (lower : bytes) :
    st Branch (option (option bytes * option bytes) * row) :=
  if guarded then read_floor es lower ≫= fun f => mret (Some f.1, f.2) else mret (None, it).

(** The stored entry the step arrives at, if it does not run out. *)
Definition find_stored (d : Delta) (es : list (bytes * bytes)) (it : row) (guarded : bool) (lower key : bytes) (reverse inclusive : bool) : st Branch (bool * row) :=
  prepare_floor es it guarded lower ≫= fun f =>
  first_move es f.2 key reverse inclusive lower f.1 ≫= fun m =>
  skip_hidden (S (length es)) d es reverse lower f.1 m.1 m.2.

(** The row found is paid for, and the iterator kept for the next step. *)
Definition pay_row (chosen : row) : st Branch unit :=
  match chosen with Some e => charge (fun l => record l e.1 e.2) | None => mret tt end.
Definition park_iterator (c : Clock) (cur : OverlayCursor) (parked : ParkedIterator) (it : row) : st Branch unit :=
  if floor_guard cur then mret tt
  else on_base (fun p => (Ok tt, park c (mkParked (pk_lower parked) (pk_upper parked) (parked_at parked) it) p)).

(** The step proper, for a key within the bounds. *)
Definition position_in_bounds (c : Clock) (cur : OverlayCursor) (key : bytes) (reverse inclusive : bool) : st Branch row :=
  let '(lower, upper, d) := (c_lower cur, c_upper cur, c_delta cur) in
  live_point (points_from d lower upper key reverse inclusive) ≫= fun point =>
  on_base (view c) ≫= fun db =>
  on_base (take_iterator c lower upper) ≫= fun parked =>
  st_read (fun _ => rocks_iterator db lower upper) ≫= fun es =>
  find_stored d es (stands_at parked) (reverse && floor_guard cur) lower key reverse inclusive ≫= fun s : bool * row =>
  let chosen := nearer reverse point (if s.1 then None else s.2) in
  pay_row chosen ≫= fun _ =>
  park_iterator c cur parked s.2 ≫= fun _ =>
  mret chosen.

(** [position_inner]: the key is first brought into the bounds. *)
Definition position_inner (c : Clock) (cur : OverlayCursor) (key : bytes) (reverse inclusive : bool) : st Branch row :=
  check (fun o => blen key <=? max_record_bytes (limits o)) ≫= fun _ =>
  check is_open ≫= fun _ =>
  charge operation ≫= fun _ =>
  let '(lower, upper) := (c_lower cur, c_upper cur) in
  if reverse then
    if blt key lower then mret None
    else if ble upper key then position_in_bounds c cur upper true false
    else position_in_bounds c cur key true inclusive
  else
    if ble upper key then mret None
    else if blt key lower then position_in_bounds c cur lower false true
    else position_in_bounds c cur key false inclusive.

Definition set_row (r : row) (cur : OverlayCursor) : OverlayCursor := mkCursor (c_delta cur) (c_lower cur) (c_upper cur) r (floor_guard cur).
(** [position]: the row is cleared before anything can fail. *)
Definition position_cursor (c : Clock) (cur : OverlayCursor) (key : bytes) (reverse inclusive : bool) (b : Branch) : outcome unit * (OverlayCursor * Branch) :=
  match observe (position_inner c cur key reverse inclusive) b with
  | (Ok r, b') => (Ok tt, (set_row r cur, b'))
  | (Err e, b') => (Err e, (set_row None cur, b'))
  | (Panic, b') => (Panic, (set_row None cur, b'))
  end.
Definition cursor_seek (c : Clock) (cur : OverlayCursor) (key : bytes) := position_cursor c cur key false true.
Definition cursor_seek_for_prev (c : Clock) (cur : OverlayCursor) (key : bytes) := position_cursor c cur key true true.
Definition cursor_next (c : Clock) (cur : OverlayCursor) (b : Branch) : outcome unit * (OverlayCursor * Branch) :=
  match c_row cur with Some e => position_cursor c cur e.1 false false b | None => (Ok tt, (cur, b)) end.
Definition cursor_prev (c : Clock) (cur : OverlayCursor) (b : Branch) : outcome unit * (OverlayCursor * Branch) :=
  match c_row cur with Some e => position_cursor c cur e.1 true false b | None => (Ok tt, (cur, b)) end.

(** ** Forks and publication *)

Definition tightens (l m : OverlayLimits) : bool :=
  (max_delta_bytes l <=? max_delta_bytes m) && (max_delta_entries l <=? max_delta_entries m) && (max_record_bytes l <=? max_record_bytes m)
  && (max_read_bytes l <=? max_read_bytes m) && (max_read_operations l <=? max_read_operations m) && (max_cursors l <=? max_cursors m).
Fixpoint inherit_points (l : OverlayLimits) (r : ReadBudget) (ps : list (bytes * option bytes)) : outcome ReadBudget :=
  match ps with
  | [] => Ok r
  | (k, v) :: ps' =>
      r' ← operation l r;
      _ ← ensure (sat_add_u64 (blen k) (value_len v) <=? max_record_bytes l);
      inherit_points l r' ps'
  end.
(** [ForkAdmission::acquire]: [active] branches of the family under its [limit]. *)
Definition acquire_fork (active family_limit limit : Z) : outcome Z :=
  n ← ok_or (checked_add_u64 active 1) Store;
  _ ← ensure (n <=? Z.min limit family_limit);
  Ok n.
(** [fork]: the child and the family's branch count. *)
Definition fork (o : ExecutionOverlay) (l : OverlayLimits) (active family_limit : Z) : outcome (ExecutionOverlay * Z) :=
  _ ← ensure (tightens l (limits o));
  _ ← ensure (is_open o);
  _ ← ensure (delta_bytes (delta o) <=? max_delta_bytes l);
  _ ← ensure (entries (delta o) <=? max_delta_entries l);
  r ← inherit_points l (mkBudget 0 0) (in_order (points (delta o)));
  r' ← inherit_points l r ((fun e => (e.1, Some e.2)) <$> in_order (ranges (delta o)));
  n ← acquire_fork active family_limit (max_cursors (limits o));
  Ok (mkOverlay l (failed_execution o) true (delta o) 0 r' 0 (touched o), n).

(** The delta as one batch: ranges first, since points override them. *)
Definition delta_ops (d : Delta) : list kv_op :=
  ((fun r => KDeleteRange r.1 r.2) <$> in_order (ranges d)) ++
  ((fun p => match p.2 with Some v => KPut p.1 v | None => KDelete p.1 end) <$> in_order (points d)).

Record PreparedOverlayCommit : Type := mkPlan { p_source : Z; p_sequence : Z; p_generation : Z; p_touched : KeyPrefixSet; p_batch : list kv_op }.
Definition prepare_commit : st Branch PreparedOverlayCommit :=
  observe (
    check (fun o => negb (failed_execution o)) ≫= fun _ =>
    check is_open ≫= fun _ =>
    st_read (fun b => let o := overlay b in
      Ok (mkPlan (source (base b)) (sequence (base b)) (generation o) (touched o) (delta_ops (delta o)))) ≫= fun plan =>
    modify close_overlay ≫= fun _ =>
    mret plan).

(** [PreparedOverlayCommit::commit] *)
Definition commit (plan : PreparedOverlayCommit) (db : CoordinatedDb) : (DatabaseCommitError + unit) * CoordinatedDb :=
  match lock_writes db with
  | inl e => (inl e, db)
  | inr _ => commit_execution db (p_source plan) (p_sequence plan) (p_touched plan) (p_batch plan)
  end.

(** [ensure_readable] *)
Definition ensure_readable (c : Clock) : st Branch unit :=
  observe (
    check (fun o => negb (failed_execution o)) ≫= fun _ =>
    check is_open ≫= fun _ =>
    on_base (view c) ≫= fun _ => mret tt).
End overlay.
