(* ===== verification/OverlayDelta.v ===== *)
(** * The delta of an execution branch

    Ordered maps, the invariant of a delta (its ranges are apart, its byte count is
    exact and within the limits), and the meaning of its mutations: over any
    database, a delta after a mutation stands for the database the mutation
    leaves. *)

From Stdlib Require Import Strings.Byte Sorted.
From stdpp Require Import gmap sorting.
From S2P Require Import Prelude Bytes TreeStore TreeStoreOrder Overlay.

(** ** Ordered maps *)

#[global] Instance key_le_trans {V} : Transitive (@key_le V).
Proof. intros a b c. unfold key_le. apply ble_trans. Qed.
#[global] Instance key_le_total {V} : Total (@key_le V).
Proof. intros a b. unfold key_le, ble. destruct (blt b.1 a.1) eqn:E; [right|by left]. by rewrite (blt_asym _ _ E). Qed.

(** Entries in strictly ascending order of their keys. *)
Definition rising {V} (l : list (bytes * V)) : Prop := StronglySorted (fun a b => blt a.1 b.1 = true) l.

Lemma in_order_perm {V} (m : gmap bytes V) : in_order m ≡ₚ map_to_list m.
Proof. apply merge_sort_Permutation. Qed.
Lemma elem_in_order {V} (m : gmap bytes V) k v : (k, v) ∈ in_order m <-> m !! k = Some v.
Proof. rewrite in_order_perm. apply elem_of_map_to_list. Qed.
Lemma in_order_keys {V} (m : gmap bytes V) : NoDup (in_order m).*1.
Proof. rewrite in_order_perm. apply NoDup_fst_map_to_list. Qed.

Lemma strict_order {V} (l : list (bytes * V)) : StronglySorted key_le l -> NoDup l.*1 -> rising l.
Proof.
  induction 1 as [|a l Hs IH Hf]; cbn [fmap list_fmap]; intros Hn; [constructor|]. apply NoDup_cons in Hn as [Hx Hn]. constructor; [by apply IH|].
  rewrite List.Forall_forall in *. intros b Hb. specialize (Hf b Hb). apply ble_lt_eq in Hf as [?|E]; [done|]. destruct Hx. rewrite E. apply list_elem_of_fmap_2. by apply list_elem_of_In.
Qed.
Lemma in_order_rising {V} (m : gmap bytes V) : rising (in_order m).
Proof. apply strict_order; [apply StronglySorted_merge_sort; apply _|apply in_order_keys]. Qed.

Section rising.
Context {V : Type}.
Implicit Types (l : list (bytes * V)) (e : bytes * V).

Lemma rising_cons e l : rising (e :: l) <-> rising l /\ forall x, x ∈ l -> blt e.1 x.1 = true.
Proof.
  split.
  - intros [Hs Hf]%StronglySorted_inv. split; [done|]. rewrite List.Forall_forall in Hf. intros x Hx. apply Hf. by apply list_elem_of_In.
  - intros [Hs Hf]. constructor; [done|]. apply List.Forall_forall. intros x Hx. apply Hf. by apply list_elem_of_In.
Qed.
Lemma elem_filterb (f : bytes * V -> bool) l e : e ∈ List.filter f l <-> e ∈ l /\ f e = true.
Proof. by rewrite !list_elem_of_In, filter_In. Qed.
Lemma rising_filter (f : bytes * V -> bool) l : rising l -> rising (List.filter f l).
Proof.
  induction l as [|e l IH]; cbn [List.filter]; [done|]. intros [Hs Hf]%rising_cons. destruct (f e); [|by apply IH]. apply rising_cons. split; [by apply IH|].
  intros x [Hx _]%elem_filterb. by apply Hf.
Qed.
Lemma head_least l e : rising l -> head l = Some e -> e ∈ l /\ forall x, x ∈ l -> ble e.1 x.1 = true.
Proof.
  destruct l as [|a l]; cbn [head]; [done|]. intros [Hs Hf]%rising_cons [= ->]. split; [left|]. intros x [->|Hx]%elem_of_cons; [apply ble_refl|]. apply ble_lt_eq. left. by apply Hf.
Qed.
Lemma last_greatest l e : rising l -> last l = Some e -> e ∈ l /\ forall x, x ∈ l -> ble x.1 e.1 = true.
Proof.
  induction l as [|a l IH]; [done|]. intros [Hs Hf]%rising_cons. rewrite last_cons. destruct (last l) as [b|] eqn:El; intros [= <-].
  - destruct (IH Hs eq_refl) as [Hb Hle]. split; [by right|]. intros x [->|Hx]%elem_of_cons; [|by apply Hle]. apply ble_lt_eq. left. by apply Hf.
  - apply last_None in El as ->. split; [left|]. intros x ->%list_elem_of_singleton. apply ble_refl.
Qed.
Lemma rising_key l e e' : rising l -> e ∈ l -> e' ∈ l -> e.1 = e'.1 -> e = e'.
Proof.
  induction l as [|a l IH]; [set_solver|]. intros [Hs Hf]%rising_cons He He' E. apply elem_of_cons in He as [->|He]; apply elem_of_cons in He' as [->|He']; [done|..].
  - specialize (Hf _ He'). by rewrite E, blt_irrefl in Hf.
  - specialize (Hf _ He). by rewrite E, blt_irrefl in Hf.
  - by apply IH.
Qed.
End rising.

Lemma list_sumZ_perm {A} (f : A -> Z) l k : l ≡ₚ k -> list_sumZ f l = list_sumZ f k.
Proof. unfold list_sumZ. induction 1; cbn [foldr]; lia. Qed.

(** ** The invariant *)

Definition covered (rs : gmap bytes bytes) (k : bytes) : Prop := exists a b, rs !! a = Some b /\ in_range a b k = true.

Definition apart (rs : gmap bytes bytes) : Prop :=
  (forall a b, rs !! a = Some b -> blt a b = true) /\
  (forall a b a' b', rs !! a = Some b -> rs !! a' = Some b' -> blt a a' = true -> blt b a' = true).

Definition point_size (e : bytes * option bytes) : Z := blen e.1 + value_len e.2.
Definition range_size (e : bytes * bytes) : Z := blen e.1 + blen e.2.
Definition total {V} (f : bytes * V -> Z) (m : gmap bytes V) : Z := list_sumZ f (map_to_list m).

Record delta_ok (l : OverlayLimits) (d : Delta) : Prop := {
  ok_apart : apart (ranges d);
  ok_bytes : delta_bytes d = total point_size (points d) + total range_size (ranges d);
  ok_room : delta_bytes d <= max_delta_bytes l /\ entries d <= max_delta_entries l;
  ok_points : map_Forall (fun k v => point_size (k, v) <= max_record_bytes l) (points d);
  ok_ranges : map_Forall (fun a b => range_size (a, b) <= max_record_bytes l) (ranges d);
}.

(** What a delta makes of a database. *)
Definition view_at (d : Delta) (m : gmap bytes bytes) (k : bytes) : option bytes :=
  match points d !! k with
  | Some v => v
  | None => if covering_range d k then None else m !! k
  end.
Definition view_of (d : Delta) (m : gmap bytes bytes) : gmap bytes bytes := foldl apply_kv m (delta_ops d).

(** ** Sizes *)

Lemma blen_nonneg b : 0 <= blen b.
Proof. unfold blen. lia. Qed.
Lemma value_len_nonneg v : 0 <= value_len v.
Proof. destruct v; cbn; [apply blen_nonneg|lia]. Qed.
Lemma point_size_nonneg e : 0 <= point_size e.
Proof. pose proof (blen_nonneg e.1). pose proof (value_len_nonneg e.2). unfold point_size. lia. Qed.
Lemma range_size_nonneg e : 0 <= range_size e.
Proof. pose proof (blen_nonneg e.1). pose proof (blen_nonneg e.2). unfold range_size. lia. Qed.

Section total.
Context {V : Type} (f : bytes * V -> Z) (f_nonneg : forall e, 0 <= f e).
Implicit Types m : gmap bytes V.

Lemma total_empty : total f ∅ = 0.
Proof. unfold total. by rewrite map_to_list_empty. Qed.
Lemma total_fresh m k v : m !! k = None -> total f (<[k := v]> m) = f (k, v) + total f m.
Proof. intros Hk. unfold total. by rewrite (list_sumZ_perm f _ _ (map_to_list_insert m k v Hk)). Qed.
Lemma total_delete m k v : m !! k = Some v -> total f m = f (k, v) + total f (base.delete k m).
Proof. intros Hk. rewrite <- total_fresh by apply lookup_delete_eq. by rewrite insert_delete_id. Qed.
Lemma total_nonneg m : 0 <= total f m.
Proof. apply list_sumZ_nonneg. intros e _. apply f_nonneg. Qed.
Lemma total_replace m k v : total f (<[k := v]> m) = f (k, v) + total f m - match m !! k with Some w => f (k, w) | None => 0 end.
Proof.
  destruct (m !! k) as [w|] eqn:E.
  - rewrite (total_delete m k w E), <- insert_delete_eq, total_fresh by apply lookup_delete_eq. lia.
  - rewrite total_fresh by done. lia.
Qed.
Lemma total_in_order m : list_sumZ f (in_order m) = total f m.
Proof. apply list_sumZ_perm, in_order_perm. Qed.
End total.

(** ** The two passes of a range deletion *)

Lemma retain_points_spec start last l : forall kept b,
  NoDup l.*1 -> (forall k v, (k, v) ∈ l -> kept !! k = None) -> list_sumZ point_size l <= b <= u64_max ->
  exists kept' b', retain_points start last l kept b = Ok (kept', b') /\ b' <= b /\
    b' - total point_size kept' = b - list_sumZ point_size l - total point_size kept /\
    forall k v, kept' !! k = Some v <-> kept !! k = Some v \/ ((k, v) ∈ l /\ in_range start last k = false).
Proof.
  induction l as [|[k0 v0] l IH]; intros kept b Hn Hf Hb; cbn [retain_points].
  - eexists _, _. split; [done|]. cbn. split; [lia|]. split; [lia|]. set_solver.
  - cbn [fmap list_fmap fst] in Hn. apply NoDup_cons in Hn as [Hk0 Hn]. cbn [list_sumZ foldr] in *.
    pose proof (point_size_nonneg (k0, v0)) as Hp. pose proof (list_sumZ_nonneg point_size l ltac:(intros; apply point_size_nonneg)) as Hs. fold (list_sumZ point_size l) in *.
    assert (Hf0 : kept !! k0 = None) by (apply (Hf k0 v0); left).
    assert (Hl0 : forall v, (k0, v) ∉ l) by (intros v Hv; apply Hk0; by apply (list_elem_of_fmap_2 fst) in Hv).
    assert (Er : blt k0 start || ble last k0 = negb (in_range start last k0)).
    { unfold in_range, ble. by destruct (blt k0 start), (blt k0 last). }
    rewrite Er. destruct (in_range start last k0) eqn:E; cbn [negb].
    + change (blen k0 + value_len v0) with (point_size (k0, v0)). rewrite ck_u64_ok by (unfold in_u64, u64_max in *; lia). cbn [mbind outcome_bind].
      destruct (IH kept (b - point_size (k0, v0))) as (kept' & b' & E' & Hle & Ht & Hl); [done|intros k v Hkv; apply (Hf k v); by right|lia|].
      eexists _, _. split; [exact E'|]. split; [lia|]. split; [lia|]. intros k v. rewrite Hl, elem_of_cons. split; [naive_solver|].
      intros [?|[[[= -> ->]|?] Hr]]; [by left|congruence|by right].
    + destruct (IH (<[k0 := v0]> kept) b) as (kept' & b' & E' & Hle & Ht & Hl); [done| |lia|].
      { intros k v Hkv. rewrite lookup_insert_ne; [by apply (Hf k v); right|]. intros <-. by apply (Hl0 v). }
      eexists _, _. split; [exact E'|]. split; [done|]. rewrite total_fresh in Ht by done. split; [lia|]. intros k v. rewrite Hl, lookup_insert_Some, elem_of_cons. split.
      * intros [[[-> ->]|[_ ?]]|[? ?]]; [right; by split; [left|]|by left|right; by split; [right|]].
      * intros [Hk|[[[= -> ->]|Hk] Hr]]; [left; right; split; [|done]; congruence|by left; left|by right].
Qed.

Definition in_cover (l : list (bytes * bytes)) (k : bytes) : Prop := exists e, e ∈ l /\ in_range e.1 e.2 k = true.

(** A kept range lies below the merged one and all that follow, or above it with
    all that follow. *)
Definition clear_of (lower upper : bytes) (l : list (bytes * bytes)) (e : bytes * bytes) : Prop :=
  (blt e.2 lower = true /\ forall x, x ∈ l -> blt e.2 x.1 = true) \/
  (blt upper e.1 = true /\ forall x, x ∈ l -> blt upper x.1 = true).

Lemma clear_of_cons lower upper e0 l e : clear_of lower upper (e0 :: l) e -> clear_of lower upper l e.
Proof. intros [[? Hf]|[? Hf]]; [left|right]; (split; [done|]; intros x Hx; apply Hf; by right). Qed.

Lemma in_range_merge a b lo up k : blt a b = true -> blt lo up = true -> blt b lo = false -> blt up a = false ->
  in_range (if blt a lo then a else lo) (if blt up b then b else up) k = true <-> in_range a b k = true \/ in_range lo up k = true.
Proof.
  intros Hab Hlu H1 H2. rewrite !in_range_spec. unfold ble. rewrite !negb_true_iff.
  assert (Ha : blt k (if blt a lo then a else lo) = blt k a && blt k lo).
  { destruct (blt a lo) eqn:E.
    - destruct (blt k a) eqn:E1; [by rewrite (blt_trans k a lo)|done].
    - destruct (blt k lo) eqn:E1; [|by rewrite andb_false_r]. by rewrite (blt_ble_trans k lo a) by (first [done|unfold ble; by rewrite E]). }
  assert (Hb : blt k (if blt up b then b else up) = blt k b || blt k up).
  { destruct (blt up b) eqn:E.
    - destruct (blt k up) eqn:E1; [|by rewrite orb_false_r]. by rewrite (blt_trans k up b).
    - destruct (blt k b) eqn:E1; [|done]. by rewrite (blt_ble_trans k b up) by (first [done|unfold ble; by rewrite E]). }
  rewrite Ha, Hb, orb_true_iff, andb_false_iff. split; [|tauto].
  intros [[Hl|Hl] [Hu|Hu]]; [by left| |  |by right].
  - destruct (blt k lo) eqn:E; [|by right]. left. split; [done|]. apply (blt_ble_trans _ lo); [done|]. unfold ble. by rewrite H1.
  - destruct (blt k a) eqn:E; [|by left]. right. split; [done|]. apply (blt_ble_trans _ a); [done|]. unfold ble. by rewrite H2.
Qed.

Lemma merge_ranges_spec l : forall kept lower upper b,
  rising l -> (forall e, e ∈ l -> blt e.1 e.2 = true) -> (forall e x, e ∈ l -> x ∈ l -> blt e.1 x.1 = true -> blt e.2 x.1 = true) ->
  (forall x v, (x, v) ∈ l -> kept !! x = None) -> blt lower upper = true -> list_sumZ range_size l <= b <= u64_max ->
  (forall e, kept !! e.1 = Some e.2 -> clear_of lower upper l e) ->
  exists kept' lower' upper' b', merge_ranges l kept lower upper b = Ok (kept', lower', upper', b') /\ b' <= b /\
    b' - total range_size kept' = b - list_sumZ range_size l - total range_size kept /\ blt lower' upper' = true /\
    (forall e, kept' !! e.1 = Some e.2 -> clear_of lower' upper' [] e /\ (kept !! e.1 = Some e.2 \/ e ∈ l)) /\
    (forall e, kept !! e.1 = Some e.2 -> kept' !! e.1 = Some e.2) /\
    (forall k, in_cover l k \/ in_range lower upper k = true <-> (exists e, e ∈ l /\ kept' !! e.1 = Some e.2 /\ in_range e.1 e.2 k = true) \/ in_range lower' upper' k = true).
Proof.
  induction l as [|[a0 b0] l IH]; intros kept lower upper b Hr Hpos Hap Hf Hlu Hb Hc; cbn [merge_ranges].
  - eexists _, _, _, _. split; [done|]. cbn. split; [lia|]. split; [lia|]. split; [done|]. split; [intros e He; split; [by apply Hc|by left]|]. split; [done|].
    unfold in_cover. intros k. split; (intros [(e & He & _)|?]; [by apply not_elem_of_nil in He|by right]).
  - apply rising_cons in Hr as [Hr Hgt]. cbn [list_sumZ foldr] in *. fold (list_sumZ range_size l) in *. cbn [fst snd] in *.
    pose proof (range_size_nonneg (a0, b0)) as Hp. pose proof (list_sumZ_nonneg range_size l ltac:(intros; apply range_size_nonneg)) as Hs.
    assert (Hpos' : forall e, e ∈ l -> blt e.1 e.2 = true) by (intros e He; apply Hpos; by right).
    assert (Hap' : forall e x, e ∈ l -> x ∈ l -> blt e.1 x.1 = true -> blt e.2 x.1 = true) by (intros e x He Hx; apply Hap; by right).
    pose proof (Hpos (a0, b0) ltac:(left)) as Hab. cbn [fst snd] in Hab.
    destruct (blt b0 lower || blt upper a0) eqn:E.
    + assert (Hf0 : kept !! a0 = None) by (apply (Hf a0 b0); left).
      destruct (IH (<[a0 := b0]> kept) lower upper b) as (kept' & lo' & up' & b' & E' & Hle & Ht & Hlt & Hk & Hkk & Hcov); try done; [| lia | |].
      * intros x v Hx. rewrite lookup_insert_ne; [apply (Hf x v); by right|]. intros <-. specialize (Hgt _ Hx). cbn in Hgt. by rewrite blt_irrefl in Hgt.
      * intros [x v]. cbn [fst snd]. rewrite lookup_insert_Some. intros [[<- <-]|[_ Hx]]; [|by apply (clear_of_cons _ _ (a0, b0)), Hc].
        apply orb_true_iff in E as [E|E]; [left|right]; cbn [fst snd]; (split; [done|]); intros x Hx.
        -- by apply (Hap (a0, b0) x); [left|right|apply Hgt].
        -- apply (blt_trans _ a0); [done|by apply Hgt].
      * eexists _, _, _, _. split; [exact E'|]. split; [done|]. rewrite total_fresh in Ht by done. split; [lia|]. split; [done|].
        assert (H0 : kept' !! a0 = Some b0) by (apply (Hkk (a0, b0)); cbn; by rewrite lookup_insert_eq). split; [|split].
        -- intros [x v] Hx. destruct (Hk _ Hx) as [Hcl Hin]. split; [done|]. cbn [fst snd] in *. rewrite lookup_insert_Some in Hin. destruct Hin as [[[<- <-]|[_ ?]]|?]; [right; left|by left|right; by right].
        -- intros [x v] Hx. cbn [fst snd] in Hx. apply Hkk. cbn [fst snd]. rewrite lookup_insert_ne; [done|congruence].
        -- intros k. specialize (Hcov k). unfold in_cover in *. setoid_rewrite elem_of_cons. split.
           ++ intros [(e & [->|He] & Hin)|Hin]; [left; exists (a0, b0); by split; [left|]|..].
              ** destruct (proj1 Hcov (or_introl (ex_intro _ e (conj He Hin)))) as [(e' & ? & ?)|?]; [left; exists e'; by split; [right|]|by right].
              ** destruct (proj1 Hcov (or_intror Hin)) as [(e' & ? & ?)|?]; [left; exists e'; by split; [right|]|by right].
           ++ intros [(e & [->|He] & Hk' & Hin)|Hin]; [left; exists (a0, b0); by split; [left|]|..].
              ** left. exists e. by split; [right|].
              ** destruct (proj2 Hcov (or_intror Hin)) as [(e' & ? & ?)|?]; [left; exists e'; by split; [right|]|by right].
    + apply orb_false_iff in E as [E1 E2]. change (blen a0 + blen b0) with (range_size (a0, b0)). rewrite ck_u64_ok by (unfold in_u64, u64_max in *; lia). cbn [mbind outcome_bind].
      set (lo1 := if blt a0 lower then a0 else lower). set (up1 := if blt upper b0 then b0 else upper).
      assert (Hlo : ble lo1 lower = true) by (unfold lo1; destruct (blt a0 lower) eqn:E; [apply ble_lt_eq; by left|apply ble_refl]).
      assert (Hup : ble upper up1 = true) by (unfold up1; destruct (blt upper b0) eqn:E; [apply ble_lt_eq; by left|apply ble_refl]).
      destruct (IH kept lo1 up1 (b - range_size (a0, b0))) as (kept' & lo' & up' & b' & E' & Hle & Ht & Hlt & Hk & Hkk & Hcov); try done; [| |lia| |].
      * intros x v Hx. apply (Hf x v). by right.
      * eapply blt_ble_trans; [|exact Hup]. by eapply ble_blt_trans.
      * intros e He. destruct (Hc e He) as [[H1 H2]|[H1 H2]].
        -- left. split; [|intros x Hx; apply H2; by right]. unfold lo1. destruct (blt a0 lower); [apply (H2 (a0, b0)); left|done].
        -- specialize (H2 (a0, b0) ltac:(left)). cbn in H2. congruence.
      * eexists _, _, _, _. split; [exact E'|]. split; [lia|]. split; [lia|]. split; [done|].
        assert (H0 : kept' !! a0 = Some b0 -> False).
        { intros Hx. destruct (Hk (a0, b0) Hx) as [_ [Hin|Hin]]; [cbn in Hin; by rewrite (Hf a0 b0 ltac:(left)) in Hin|]. specialize (Hgt _ Hin). cbn in Hgt. by rewrite blt_irrefl in Hgt. }
        split; [|split].
        -- intros e He. destruct (Hk e He) as [Hcl Hin]. split; [done|]. destruct Hin; [by left|right; by right].
        -- done.
        -- intros k. specialize (Hcov k). unfold lo1, up1 in Hcov. rewrite in_range_merge in Hcov by done. unfold in_cover in *. setoid_rewrite elem_of_cons. split.
           ++ intros Hin. destruct (proj1 Hcov) as [(e & ? & ?)|?]; [|left; exists e; by split; [right|]|by right].
              destruct Hin as [(e & [->|He] & Hin)|Hin]; [right; by left|left; by exists e|right; by right].
           ++ intros Hin. destruct (proj2 Hcov) as [(e & ? & ?)|[?|?]]; [|left; exists e; by split; [right|]|left; exists (a0, b0); by split; [left|]|by right].
              destruct Hin as [(e & [->|He] & Hk' & Hin)|Hin]; [by destruct (H0 Hk')|left; by exists e|by right].
Qed.

(** ** Reading a delta *)

Lemma covering_spec d k a b : apart (ranges d) -> covering_range d k = Some (a, b) <-> ranges d !! a = Some b /\ in_range a b k = true.
Proof.
  intros [Hpos Hap]. unfold covering_range. pose proof (rising_filter (fun r : bytes * bytes => ble r.1 k) _ (in_order_rising (ranges d))) as Hr. rewrite in_range_spec. split.
  - destruct (last _) as [[a' b']|] eqn:El; [|done]. destruct (blt k b') eqn:E; cbn [snd]; rewrite E; [|done]. intros [= -> ->].
    apply (last_greatest _ _ Hr) in El as [[Hin Hk]%elem_filterb _]. apply elem_in_order in Hin. done.
  - intros (Hin & Ha & Hb). assert (Hel : (a, b) ∈ List.filter (fun r => ble r.1 k) (in_order (ranges d))) by (apply elem_filterb; by rewrite elem_in_order).
    destruct (last _) as [[a' b']|] eqn:El; [|apply last_None in El; rewrite El in Hel; by apply not_elem_of_nil in Hel].
    apply (last_greatest _ _ Hr) in El as [[Hin' Hk']%elem_filterb Hg]. specialize (Hg _ Hel). apply elem_in_order in Hin'. cbn [fst snd] in *.
    apply ble_lt_eq in Hg as [Hg| <-]; [|assert (b' = b) as -> by congruence; by rewrite Hb].
    pose proof (Hap _ _ _ _ Hin Hin' Hg) as Hba. unfold ble in Hk'. by rewrite (blt_trans _ _ _ Hb Hba) in Hk'.
Qed.
Lemma covering_covered d k : apart (ranges d) -> is_Some (covering_range d k) <-> covered (ranges d) k.
Proof.
  intros Ha. split.
  - intros [[a b] E]. exists a, b. by apply covering_spec in E.
  - intros (a & b & E). exists (a, b). by apply covering_spec.
Qed.
Lemma covering_same d d' k : apart (ranges d) -> apart (ranges d') -> (covered (ranges d) k <-> covered (ranges d') k) ->
  is_Some (covering_range d k) <-> is_Some (covering_range d' k).
Proof. intros Ha Ha' E. by rewrite !covering_covered. Qed.

(** The view, by cases. *)
Lemma view_at_Some d m k v : apart (ranges d) ->
  view_at d m k = Some v <-> points d !! k = Some (Some v) \/ (points d !! k = None /\ ~ covered (ranges d) k /\ m !! k = Some v).
Proof.
  intros Ha. unfold view_at. pose proof (covering_covered d k Ha) as Hc. destruct (points d !! k) as [w|]; [naive_solver|].
  destruct (covering_range d k) as [r|].
  - split; [done|]. intros [?|(_ & Hn & _)]; [done|]. destruct Hn. apply Hc. by eexists.
  - split; [|naive_solver]. intros E. right. split; [done|]. split; [|done]. intros [? ?]%Hc. done.
Qed.

Lemma ranges_ops (l : list (bytes * bytes)) : forall m k v,
  foldl apply_kv m ((fun r => KDeleteRange r.1 r.2) <$> l) !! k = Some v <-> m !! k = Some v /\ ~ in_cover l k.
Proof.
  unfold in_cover. induction l as [|[a b] l IH]; intros m k v; cbn [fmap list_fmap foldl apply_kv fst snd]; [set_solver|]. rewrite IH, map_lookup_filter_Some. cbn [fst].
  setoid_rewrite elem_of_cons. split.
  - intros [[E H1] H2]. split; [done|]. intros (e & [->|He] & Hin); [cbn in Hin; congruence|]. apply H2. by exists e.
  - intros [E H1]. split; [split; [done|]|].
    + destruct (in_range a b k) eqn:Er; [|done]. destruct H1. exists (a, b). by split; [left|].
    + intros (e & He & Hin). apply H1. exists e. by split; [right|].
Qed.
Lemma points_ops (l : list (bytes * option bytes)) : forall m k, NoDup l.*1 ->
  foldl apply_kv m ((fun p => match p.2 with Some v => KPut p.1 v | None => KDelete p.1 end) <$> l) !! k
  = match list_to_map (M := gmap bytes (option bytes)) l !! k with Some v => v | None => m !! k end.
Proof.
  induction l as [|[k0 v0] l IH]; intros m k Hn; cbn [fmap list_fmap foldl fst snd list_to_map foldr] in *; [by rewrite lookup_empty|]. apply NoDup_cons in Hn as [Hk0 Hn].
  rewrite IH by done. destruct (decide (k = k0)) as [->|Hne].
  - unfold uncurry. cbn [fst snd]. rewrite lookup_insert_eq, not_elem_of_list_to_map_1 by done. destruct v0; cbn [apply_kv]; [by rewrite lookup_insert_eq|by rewrite lookup_delete_eq].
  - unfold uncurry. cbn [fst snd]. rewrite lookup_insert_ne by done. destruct (_ !! k); [done|]. destruct v0; cbn [apply_kv]; [by rewrite lookup_insert_ne|by rewrite lookup_delete_ne].
Qed.

(** The batch a delta is published as makes the database its view. *)
Lemma view_of_at d m k : apart (ranges d) -> view_of d m !! k = view_at d m k.
Proof.
  intros Ha. unfold view_of, delta_ops. rewrite foldl_app, points_ops by apply in_order_keys.
  assert (E : list_to_map (M := gmap bytes (option bytes)) (in_order (points d)) = points d).
  { rewrite (list_to_map_proper (in_order (points d)) (map_to_list (points d)) (in_order_keys _) (in_order_perm _)). apply list_to_map_to_list. }
  rewrite E. apply option_eq. intros v. rewrite view_at_Some by done. destruct (points d !! k) as [w|]; [naive_solver|]. rewrite ranges_ops.
  assert (Hc : in_cover (in_order (ranges d)) k <-> covered (ranges d) k).
  { unfold in_cover, covered. split.
    - intros ([a b] & Hin & ?). exists a, b. by apply elem_in_order in Hin.
    - intros (a & b & Hin & ?). exists (a, b). by rewrite elem_in_order. }
  rewrite Hc. naive_solver.
Qed.

(** ** Mutations *)

Definition limits_fit (l : OverlayLimits) : Prop := max_delta_bytes l <= u64_max.

Lemma ensure_ok b : ensure b = Ok tt <-> b = true.
Proof. by destruct b. Qed.
Lemma checked_add_Some a b n : checked_add_u64 a b = Some n -> n = a + b /\ a + b <= u64_max.
Proof. unfold checked_add_u64. case_one; [|done]. bool_to_prop. intros [= <-]. lia. Qed.

Ltac step_ok H :=
  repeat match type of H with
  | (ensure ?b ≫= _) = Ok _ => destruct b eqn:?; cbn [ensure mbind outcome_bind] in H; [|done]
  | (ok_or ?o _ ≫= _) = Ok _ => destruct o eqn:?; cbn [ok_or mbind outcome_bind] in H; [|done]
  end.

Lemma delta_bytes_range l d : limits_fit l -> delta_ok l d -> 0 <= delta_bytes d <= u64_max.
Proof.
  intros Hl Hd. destruct (ok_room _ _ Hd). unfold limits_fit in Hl. rewrite (ok_bytes _ _ Hd) in *.
  pose proof (total_nonneg point_size point_size_nonneg (points d)). pose proof (total_nonneg range_size range_size_nonneg (ranges d)). lia.
Qed.

Lemma point_ok l d k v d' : limits_fit l -> delta_ok l d -> point d k v l = Ok d' ->
  delta_ok l d' /\ points d' = <[k := v]> (points d) /\ ranges d' = ranges d.
Proof.
  intros Hl Hd. unfold point. intros E. step_ok E. injection E as <-. cbn [points ranges]. split; [|done].
  apply checked_add_Some in Heqo as [-> _]. apply bind_Some in Heqo0 as (n & Hn & [-> Hm]%checked_add_Some).
  unfold checked_sub_u64 in Hn. destruct (_ <=? delta_bytes d) eqn:Hs in Hn; [|done]. injection Hn as <-. bool_to_prop. constructor; cbn [points ranges delta_bytes].
  - apply (ok_apart _ _ Hd).
  - rewrite total_replace, (ok_bytes _ _ Hd). unfold point_size at 2 4. cbn [fst snd]. destruct (points d !! k); lia.
  - split; [done|]. unfold entries in *. cbn [points ranges] in *. rewrite map_size_insert. destruct (points d !! k); cbn in *; lia.
  - apply map_Forall_insert_2; [unfold point_size; cbn [fst snd]; lia|apply (ok_points _ _ Hd)].
  - apply (ok_ranges _ _ Hd).
Qed.

(** What survives of a delta when a range is deleted. *)
Record range_deleted (d d' : Delta) (start last : bytes) : Prop := {
  rd_points k v : points d' !! k = Some v <-> points d !! k = Some v /\ in_range start last k = false;
  rd_cover k : covered (ranges d') k <-> covered (ranges d) k \/ in_range start last k = true;
}.

Lemma apart_merged kept lower upper :
  apart kept -> blt lower upper = true -> (forall e, kept !! e.1 = Some e.2 -> clear_of lower upper [] e) -> apart (<[lower := upper]> kept).
Proof.
  intros [Hpos Hap] Hlu Hc. split.
  - intros a b. rewrite lookup_insert_Some. intros [[<- <-]|[_ ?]]; [done|by apply Hpos].
  - intros a b a' b'. rewrite !lookup_insert_Some. intros [[<- <-]|[_ H1]] [[<- <-]|[_ H2]] Hlt.
    + by rewrite blt_irrefl in Hlt.
    + destruct (Hc (a', b') H2) as [[Hb _]|[Hb _]]; cbn [fst snd] in Hb; [|done]. pose proof (Hpos _ _ H2) as Hp.
      pose proof (blt_trans _ _ _ (blt_trans _ _ _ Hp Hb) Hlt) as Hx. by rewrite blt_irrefl in Hx.
    + destruct (Hc (a, b) H1) as [[Hb _]|[Hb _]]; cbn [fst snd] in Hb; [done|].
      pose proof (blt_trans _ _ _ (blt_trans _ _ _ Hlt Hlu) Hb) as Hx. by rewrite blt_irrefl in Hx.
    + by apply (Hap a b a' b').
Qed.

(** The two passes together, on a delta that satisfies the invariant. *)
Record passes (d : Delta) (start last : bytes) (pts : gmap bytes (option bytes)) (rs : gmap bytes bytes) (lo up : bytes) (b : Z) : Prop := {
  ps_points k v : pts !! k = Some v <-> points d !! k = Some v /\ in_range start last k = false;
  ps_ranges a b : rs !! a = Some b -> ranges d !! a = Some b;
  ps_fresh : rs !! lo = None;
  ps_apart : apart (<[lo := up]> rs);
  ps_bytes : b = total point_size pts + total range_size rs;
  ps_cover k : covered (<[lo := up]> rs) k <-> covered (ranges d) k \/ in_range start last k = true;
}.

Lemma cover_in_order rs k : in_cover (in_order rs) k <-> covered rs k.
Proof.
  unfold covered, in_cover. split.
  - intros ([a b] & Hab%elem_in_order & ?). by exists a, b.
  - intros (a & b & Hab & ?). exists (a, b). by rewrite elem_in_order.
Qed.

Lemma two_passes l d start last : limits_fit l -> delta_ok l d -> blt start last = true ->
  exists pts b1 rs lo up b2, retain_points start last (in_order (points d)) ∅ (delta_bytes d) = Ok (pts, b1) /\
    merge_ranges (in_order (ranges d)) ∅ start last b1 = Ok (rs, lo, up, b2) /\ passes d start last pts rs lo up b2.
Proof.
  intros Hl Hd Hsl. pose proof (delta_bytes_range _ _ Hl Hd) as Hb. pose proof (ok_bytes _ _ Hd) as Hbytes.
  pose proof (total_nonneg point_size point_size_nonneg (points d)) as Hp0. pose proof (total_nonneg range_size range_size_nonneg (ranges d)) as Hr0.
  destruct (retain_points_spec start last (in_order (points d)) ∅ (delta_bytes d)) as (pts & b1 & E1 & Hle1 & Ht1 & Hl1); [apply in_order_keys|intros; apply lookup_empty|rewrite total_in_order; lia|].
  rewrite total_in_order, total_empty in Ht1. pose proof (total_nonneg point_size point_size_nonneg pts) as Hp1. pose proof (ok_apart _ _ Hd) as [Hpos Hap].
  destruct (merge_ranges_spec (in_order (ranges d)) ∅ start last b1) as (rs & lo & up & b2 & E2 & Hle2 & Ht2 & Hlt & Hk & _ & Hcov); [apply in_order_rising| | | |done| | |].
  { intros [a b] He%elem_in_order. by apply Hpos. }
  { intros [a b] [a' b'] He%elem_in_order He'%elem_in_order. by apply (Hap a b a' b'). }
  { intros. apply lookup_empty. }
  { rewrite total_in_order. lia. }
  { intros e. by rewrite lookup_empty. }
  rewrite total_in_order, total_empty in Ht2.
  assert (Hsub : forall a b, rs !! a = Some b -> ranges d !! a = Some b).
  { intros a b Hab. destruct (Hk (a, b) Hab) as [_ [Hx|Hx]]; [by rewrite lookup_empty in Hx|by apply elem_in_order in Hx]. }
  assert (Hfresh : rs !! lo = None).
  { destruct (rs !! lo) as [x|] eqn:Ex; [|done]. destruct (Hk (lo, x) Ex) as [[[Hc _]|[Hc _]] _]; cbn [fst snd] in Hc.
    - pose proof (Hpos _ _ (Hsub _ _ Ex)) as Hp. by rewrite (blt_asym _ _ Hc) in Hp.
    - by rewrite (blt_asym _ _ Hc) in Hlt. }
  exists pts, b1, rs, lo, up, b2. split; [done|]. split; [done|]. constructor; [|done..| | |].
  - intros k v. rewrite Hl1, lookup_empty, elem_in_order. naive_solver.
  - apply apart_merged; [|done|intros e He; by apply Hk]. split; [intros a b Hab; by apply Hpos, Hsub|]. intros a b a' b' H1 H2 H3. apply (Hap a b a' b'); auto.
  - lia.
  - intros k. rewrite <- cover_in_order with (rs := ranges d), Hcov. unfold covered. split.
    + intros (a & b & Hab & Hin). rewrite lookup_insert_Some in Hab. destruct Hab as [[<- <-]|[_ Hab]]; [by right|left]. exists (a, b). by rewrite elem_in_order; split; [apply Hsub|].
    + intros [([a b] & _ & Hab & Hin)|Hin]; [exists a, b; split; [|done]; rewrite lookup_insert_ne; [done|cbn in Hab; congruence]|exists lo, up; by rewrite lookup_insert_eq].
Qed.

Lemma empty_range k start : in_range start start k = false.
Proof. unfold in_range, ble. by destruct (blt k start). Qed.

Lemma delete_range_ok l d start last d' : limits_fit l -> delta_ok l d -> delete_range d start last l = Ok d' ->
  delta_ok l d' /\ range_deleted d d' start last.
Proof.
  intros Hl Hd. unfold delete_range. intros E. step_ok E. case_bool_decide as Es.
  { injection E as <-. split; [done|]. subst last. constructor; intros; rewrite empty_range; naive_solver. }
  assert (Hsl : blt start last = true) by (match goal with H : ble start last = true |- _ => apply ble_lt_eq in H as [?|?]; [done|congruence] end).
  destruct (two_passes l d start last) as (pts & b1 & rs & lo & up & b2 & E1 & E2 & [Hp Hs Hf Ha Hb Hc]); [done..|]. rewrite E1 in E. cbn [mbind outcome_bind] in E. rewrite E2 in E.
  cbn [mbind outcome_bind] in E. step_ok E. injection E as <-. bool_to_prop.
  match goal with H : (_ ≫= _) = Some _ |- _ => apply bind_Some in H as (n & [-> _]%checked_add_Some & [-> ?]%checked_add_Some) end.
  pose proof (total_nonneg point_size point_size_nonneg pts). pose proof (total_nonneg range_size range_size_nonneg rs).
  split; [constructor|by constructor]; cbn [points ranges delta_bytes]; [done|..].
  - rewrite total_fresh by done. unfold range_size at 1. cbn [fst snd]. lia.
  - split; [done|]. unfold entries. cbn [points ranges]. rewrite map_size_insert_None by done. lia.
  - intros k v [Hkv _]%Hp. by apply (ok_points _ _ Hd).
  - apply map_Forall_insert_2; [|intros a b Hab; by apply (ok_ranges _ _ Hd), Hs]. pose proof (blen_nonneg lo). pose proof (blen_nonneg up).
    unfold range_size. cbn [fst snd]. unfold sat_add_u64, u64_max in *. lia.
Qed.

(** A mutation that succeeds keeps the invariant, and the view becomes what the
    mutation makes of it, over every database. *)
Lemma mutate_ok l d op d' : limits_fit l -> delta_ok l d -> mutate l d op = Ok d' ->
  delta_ok l d' /\ forall m, view_of d' m = apply_kv (view_of d m) op.
Proof.
  intros Hl Hd. pose proof (ok_apart _ _ Hd) as Ha.
  assert (Hpt : forall k v, point d k v l = Ok d' -> delta_ok l d' /\ forall m k', view_at d' m k' = if decide (k' = k) then v else view_at d m k').
  { intros k v E. apply point_ok in E as (Hd' & Ep & Er); [|done..]. split; [done|]. intros m k'. unfold view_at, covering_range. rewrite Ep, Er. case_decide as Ek; [subst; by rewrite lookup_insert_eq|by rewrite lookup_insert_ne]. }
  destruct op as [k v|k|a b]; cbn [mutate apply_kv]; intros E.
  - destruct (Hpt _ _ E) as [Hd' Hv]. split; [done|]. intros m. apply map_eq. intros k'. rewrite view_of_at, Hv by apply (ok_apart _ _ Hd').
    case_decide as Ek; [subst; by rewrite lookup_insert_eq|by rewrite lookup_insert_ne, view_of_at].
  - destruct (Hpt _ _ E) as [Hd' Hv]. split; [done|]. intros m. apply map_eq. intros k'. rewrite view_of_at, Hv by apply (ok_apart _ _ Hd').
    case_decide as Ek; [subst; by rewrite lookup_delete_eq|by rewrite lookup_delete_ne, view_of_at].
  - destruct (delete_range_ok _ _ _ _ _ Hl Hd E) as [Hd' [Hp Hc]]. split; [done|]. intros m. apply map_eq. intros k'. apply option_eq. intros v.
    rewrite view_of_at, view_at_Some by apply (ok_apart _ _ Hd'). rewrite map_lookup_filter_Some, view_of_at, view_at_Some, Hp, Hc by done. cbn [fst].
    assert (Hn : points d' !! k' = None <-> points d !! k' = None \/ in_range a b k' = true).
    { rewrite !eq_None_not_Some. unfold is_Some. setoid_rewrite Hp. destruct (points d !! k') as [w|], (in_range a b k'); naive_solver. }
    rewrite Hn. destruct (in_range a b k'); naive_solver.
Qed.

(** Nor does a mutation panic. *)
Ltac no_panic :=
  repeat match goal with
  | |- (ensure ?b ≫= _) <> Panic => destruct b; cbn [ensure mbind outcome_bind]; [|done]
  | |- (ok_or ?o _ ≫= _) <> Panic => destruct o; cbn [ok_or mbind outcome_bind]; [|done]
  end; try done.
Lemma mutate_total l d op : limits_fit l -> delta_ok l d -> mutate l d op <> Panic.
Proof.
  intros Hl Hd. assert (Hpt : forall k v, point d k v l <> Panic) by (intros k v; unfold point; no_panic).
  destruct op as [k v|k|a b]; cbn [mutate]; [apply Hpt..|]. unfold delete_range. destruct (ble a b) eqn:E; cbn [ensure mbind outcome_bind]; [|done].
  destruct (_ <=? max_record_bytes l); cbn [ensure mbind outcome_bind]; [|done]. case_bool_decide as Es; [done|].
  destruct (two_passes l d a b) as (pts & b1 & rs & lo & up & b2 & E1 & E2 & _); [done..| |]; [apply ble_lt_eq in E as [?|?]; [done|congruence]|].
  rewrite E1. cbn [mbind outcome_bind]. rewrite E2. cbn [mbind outcome_bind]. no_panic.
Qed.

Lemma no_delta_ok l : 0 <= max_delta_bytes l -> 0 <= max_delta_entries l -> delta_ok l no_delta.
Proof.
  intros H1 H2. constructor; cbn [no_delta points ranges delta_bytes]; [|done| |apply map_Forall_empty..].
  - split; intros *; by rewrite lookup_empty.
  - split; [done|]. unfold entries. cbn [no_delta points ranges]. rewrite !map_size_empty. lia.
Qed.
Lemma view_no_delta m : view_of no_delta m = m.
Proof. apply map_eq. intros k. rewrite view_of_at; [done|]. by apply (ok_apart (mkLimits 0 0 0 0 0 0)), no_delta_ok. Qed.
