(* ===== verification/OverlayCursor.v ===== *)
(** * Cursors of an execution branch

    A cursor step finds the entry of the merged view nearest to its key, in either
    direction, with or without the floor guard and wherever a reused iterator
    stands; it fails only for the reasons the code names. *)

From Stdlib Require Import Strings.Byte Sorted.
From stdpp Require Import gmap sorting.
From S2P Require Import Prelude Bytes TreeStore TreeStoreOrder Database DatabaseCorrect Overlay OverlayDelta.

(** ** Nearest entries *)

Definition nearest (reverse : bool) (P : bytes * bytes -> Prop) (r : option (bytes * bytes)) : Prop :=
  match r with
  | Some e => P e /\ forall x, P x -> (if reverse then ble x.1 e.1 else ble e.1 x.1) = true
  | None => forall x, ~ P x
  end.

Lemma nearest_ext rev (P Q : bytes * bytes -> Prop) r : (forall x, P x <-> Q x) -> nearest rev P r -> nearest rev Q r.
Proof. intros E. destruct r as [e|]; cbn [nearest]; [|intros Hn x Hx; by apply (Hn x), E]. intros [He Hx]. split; [by apply E|]. intros x Hq. apply Hx. by apply E. Qed.

(** Two rows nearest to the same entries have the same key. *)
Lemma nearest_key rev P r r' : nearest rev P r -> nearest rev P r' -> fst <$> r = fst <$> r'.
Proof.
  destruct r as [e|], r' as [e'|]; cbn [nearest fmap option_fmap option_map]; [| |by intros Hn [Hx _]; destruct (Hn _ Hx)|done].
  - intros [H1 H2] [H3 H4]. specialize (H2 _ H3). specialize (H4 _ H1). f_equal. unfold ble in *. destruct rev; apply blt_total; by apply negb_true_iff.
  - intros [Hx _] Hn. by destruct (Hn _ Hx).
Qed.

Lemma nearer_spec rev P Q a b : nearest rev P a -> nearest rev Q b -> nearest rev (fun x => P x \/ Q x) (nearer rev a b).
Proof.
  destruct a as [a|], b as [b|]; cbn [nearest nearer].
  - intros [H1 H2] [H3 H4]. destruct (if rev then blt b.1 a.1 else blt a.1 b.1) eqn:E.
    + split; [by left|]. intros x [Hx|Hx]; [by apply H2|]. specialize (H4 x Hx). destruct rev; apply ble_lt_eq; left; [by eapply ble_blt_trans|by eapply blt_ble_trans].
    + split; [by right|]. intros x [Hx|Hx]; [|by apply H4]. specialize (H2 x Hx). destruct rev; [apply (ble_trans _ a.1)|apply (ble_trans _ a.1)]; (done || unfold ble; by rewrite E).
  - intros [H1 H2] H3. split; [by left|]. intros x [Hx|Hx]; [by apply H2|by destruct (H3 x)].
  - intros H1 [H3 H4]. split; [by right|]. intros x [Hx|Hx]; [by destruct (H1 x)|by apply H4].
  - intros H1 H2 x [Hx|Hx]; [by apply (H1 x)|by apply (H2 x)].
Qed.

Lemma head_nearest (f : bytes * bytes -> bool) es : ascending es -> nearest false (fun x => x ∈ es /\ f x = true) (head (List.filter f es)).
Proof.
  intros Hs. destruct (head (List.filter f es)) as [e|] eqn:E.
  - apply (head_least _ _ (rising_filter f _ Hs)) in E as [Hin%elem_filterb Hl]. split; [done|]. intros x Hx. apply Hl. by apply elem_filterb.
  - intros x Hx%elem_filterb. destruct (List.filter f es); [by apply not_elem_of_nil in Hx|done].
Qed.
Lemma last_nearest (f : bytes * bytes -> bool) es : ascending es -> nearest true (fun x => x ∈ es /\ f x = true) (last (List.filter f es)).
Proof.
  intros Hs. destruct (last (List.filter f es)) as [e|] eqn:E.
  - apply (last_greatest _ _ (rising_filter f _ Hs)) in E as [Hin%elem_filterb Hl]. split; [done|]. intros x Hx. apply Hl. by apply elem_filterb.
  - intros x Hx%elem_filterb. apply last_None in E. rewrite E in Hx. by apply not_elem_of_nil in Hx.
Qed.

Section iterator.
Variable es : list (bytes * bytes).
Hypothesis asc : ascending es.

Definition standing (it : option (bytes * bytes)) : Prop := forall e, it = Some e -> e ∈ es.
Lemma nearest_standing rev (P : bytes * bytes -> Prop) it : nearest rev (fun x => x ∈ es /\ P x) it -> standing it.
Proof. intros Hn e ->. apply Hn. Qed.

Lemma raw_seek_nearest key : nearest false (fun x => x ∈ es /\ ble key x.1 = true) (raw_seek es key).
Proof.
  unfold raw_seek. destruct (seek_spec key es asc) as [Ha He]. destruct (head (seek key es)) as [e|] eqn:E.
  - apply (head_least _ _ Ha) in E as [Hin Hl]. split; [by apply He|]. intros x Hx. apply Hl. by apply He.
  - intros x Hx%He. destruct (seek key es); [by apply not_elem_of_nil in Hx|done].
Qed.
Lemma raw_seek_for_prev_nearest key : nearest true (fun x => x ∈ es /\ ble x.1 key = true) (raw_seek_for_prev es key).
Proof. by apply last_nearest. Qed.
Lemma raw_next_nearest e : nearest false (fun x => x ∈ es /\ blt e.1 x.1 = true) (raw_next es (Some e)).
Proof. by apply head_nearest. Qed.
Lemma raw_prev_nearest e : nearest true (fun x => x ∈ es /\ blt x.1 e.1 = true) (raw_prev es (Some e)).
Proof. by apply last_nearest. Qed.

Lemma at_key_spec it k : standing it -> at_key it k = true -> exists v, it = Some (k, v) /\ (k, v) ∈ es.
Proof. destruct it as [[k' v]|]; cbn [at_key]; [|done]. intros Hs. rewrite bool_decide_eq_true. cbn. intros ->. exists v. split; [done|]. by apply Hs. Qed.
Lemma standing_at it k e : standing it -> at_key it k = true -> e ∈ es -> e.1 = k -> it = Some e.
Proof. intros Hs Hk He <-. destruct (at_key_spec _ _ Hs Hk) as (v & -> & Hv). f_equal. by apply (rising_key es). Qed.

(** The keys a step back may land on. *)
Definition within (target : bytes) (inclusive : bool) (x : bytes * bytes) : Prop := x ∈ es /\ beyond target inclusive x.1 = false.

Lemma within_standing target inclusive it : nearest true (within target inclusive) it -> standing it.
Proof. intros Hn e ->. apply Hn. Qed.

Lemma beyond_mono target inclusive a b : ble a b = true -> beyond target inclusive a = true -> beyond target inclusive b = true.
Proof. destruct inclusive; cbn [beyond]; intros Hab Ha; [by eapply blt_ble_trans|by eapply ble_trans]. Qed.

(** The floor of a guarded cursor: the two lowest keys of its range. *)
Definition floor_ok (floor : option (option bytes * option bytes)) : Prop :=
  forall f, floor = Some f -> f = (fst <$> head es, fst <$> head (tail es)).

Lemma none_within target inclusive lower : (forall x, x ∈ es -> ble lower x.1 = true) -> beyond target inclusive lower = true -> forall x, ~ within target inclusive x.
Proof. intros Hlo Hb x [Hx Hn]. by rewrite (beyond_mono target inclusive lower x.1 (Hlo x Hx) Hb) in Hn. Qed.

(** The unguarded step. *)
Lemma step_back_free it target inclusive : standing it ->
  nearest true (within target inclusive)
    (if at_key it target then if inclusive then it else raw_prev es it
     else let it1 := raw_seek_for_prev es target in if negb inclusive && at_key it1 target then raw_prev es it1 else it1).
Proof.
  intros Hs. assert (Hprev : forall i, standing i -> at_key i target = true -> inclusive = false -> nearest true (within target inclusive) (raw_prev es i)).
  { intros i Hi Hk ->. destruct (at_key_spec _ _ Hi Hk) as (v & -> & _). eapply nearest_ext; [|apply raw_prev_nearest]. intros x. unfold within. cbn [fst beyond].
    unfold ble. by rewrite negb_false_iff. }
  destruct (at_key it target) eqn:E.
  - destruct inclusive; [|by apply Hprev]. destruct (at_key_spec _ _ Hs E) as (v & -> & Hv). split; [split; [done|apply blt_irrefl]|]. intros x [_ Hx]. cbn [beyond] in Hx. cbn [fst]. unfold ble. by rewrite Hx.
  - cbv zeta. pose proof (raw_seek_for_prev_nearest target) as Hn. pose proof (nearest_standing _ _ _ Hn) as Hst. destruct inclusive; cbn [negb andb].
    + eapply nearest_ext; [|exact Hn]. intros x. unfold within. cbn [beyond]. unfold ble. by rewrite negb_true_iff.
    + destruct (at_key (raw_seek_for_prev es target) target) eqn:E1; [by apply Hprev|]. destruct (raw_seek_for_prev es target) as [e|] eqn:Ee; cbn [nearest] in *.
      * destruct Hn as [[H1 H2] H3]. split.
        -- split; [done|]. cbn [beyond]. apply ble_lt_eq in H2 as [H2|H2]; [unfold ble; by rewrite H2|]. cbn [at_key] in E1. by apply bool_decide_eq_false in E1.
        -- intros x [Hx Hb]. apply H3. split; [done|]. cbn [beyond] in Hb. unfold ble in Hb. apply negb_false_iff in Hb. apply ble_lt_eq. by left.
      * intros x [Hx Hb]. apply (Hn x). split; [done|]. cbn [beyond] in Hb. unfold ble in Hb. apply negb_false_iff in Hb. apply ble_lt_eq. by left.
Qed.

End iterator.

(** [step_back] with or without a floor. *)
Lemma step_back_spec es it target inclusive lower floor ok it' :
  ascending es -> standing es it -> (forall x, x ∈ es -> ble lower x.1 = true) -> floor_ok es floor -> step_back es it target inclusive lower floor = (ok, it') ->
  nearest true (within es target inclusive) (if ok then it' else None) /\ standing es it'.
Proof.
  intros asc Hs Hlo Hf. unfold step_back. destruct (beyond target inclusive lower) eqn:Eb; [intros [= <- <-]; split; [exact (none_within _ target inclusive lower Hlo Eb)|done]|].
  pose proof (step_back_free es asc it target inclusive Hs) as Hfree. assert (Hgo : forall r : bool * option (bytes * bytes),
    r = (if at_key it target then if inclusive then (true, it) else let it' := raw_prev es it in (bool_decide (is_Some it'), it')
         else let it1 := raw_seek_for_prev es target in let it2 := if negb inclusive && at_key it1 target then raw_prev es it1 else it1 in (bool_decide (is_Some it2), it2)) ->
    nearest true (within es target inclusive) (if r.1 then r.2 else None) /\ standing es r.2).
  { intros r ->. cbv zeta in *. assert (Hb : forall i : option (bytes * bytes), (if bool_decide (is_Some i) then i else None) = i) by (by intros [i|]).
    destruct (at_key it target), inclusive; cbn [fst snd]; rewrite ?Hb; (split; [done|by eapply within_standing]). }
  destruct floor as [[lo se]|]; [|intros E; by apply (Hgo (ok, it'))]. injection (Hf _ eq_refl) as -> ->.
  destruct es as [|e0 es'] eqn:Ees; cbn [head tail fmap option_fmap option_map].
  { intros [= <- <-]. split; [intros x [Hx _]; by apply not_elem_of_nil in Hx|done]. }
  pose proof asc as [Hr Hgt]%rising_cons. destruct (beyond target inclusive e0.1) eqn:E0.
  { intros [= <- <-]. split; [|done]. refine (none_within _ target inclusive e0.1 _ E0). intros x [->|Hx]%elem_of_cons; [apply ble_refl|]. apply ble_lt_eq. left. by apply Hgt. }
  destruct (match fst <$> head es' with Some s => beyond target inclusive s | None => true end) eqn:E1; [|intros Er; by apply (Hgo (ok, it'))].
  assert (Hit : (if at_key it e0.1 then it else raw_seek (e0 :: es') e0.1) = Some e0).
  { destruct (at_key it e0.1) eqn:Ek; [apply (standing_at _ asc it e0.1); [done|done|left|done]|]. unfold raw_seek. cbn [seek]. by rewrite blt_irrefl. }
  rewrite Hit. intros [= <- <-]. cbn [bool_decide]. split; [|intros e [= <-]; left]. split; [split; [left|done]|]. intros x [[->|Hx]%elem_of_cons Hb]; [apply ble_refl|]. exfalso.
  destruct es' as [|e1 es'']; [by apply not_elem_of_nil in Hx|]. cbn [head fmap option_fmap option_map] in *. rewrite (beyond_mono target inclusive e1.1 x.1) in Hb; [done| |done].
  apply rising_cons in Hr as [_ Hr]. apply elem_of_cons in Hx as [->|Hx]; [apply ble_refl|]. apply ble_lt_eq. left. by apply Hr.
Qed.

(** ** Costs

    [costs m n Q]: [m] succeeds with [Q], unless its [n] reads exceed the budget; it
    changes nothing but the count of reads. *)
Section costs.
Context `{RocksDb}.

Abbreviation ops b := (operations (reads (overlay b))).
Abbreviation max_ops b := (max_read_operations (limits (overlay b))).
Definition counted (b : Branch) (n : Z) : Branch := with_overlay (set_reads (mkBudget n (read_bytes (reads (overlay b))))) b.

Definition costs {A} (m : st Branch A) (n : Z) (Q : A -> Prop) : Prop := forall b,
  exists r n', m b = (r, counted b n') /\ ops b <= n' <= ops b + n /\
    match r with Ok a => Q a | Err _ => max_ops b < ops b + n | Panic => False end.

Lemma counted_self b : counted b (ops b) = b.
Proof. by destruct b as [p [l f o d g [x y] c t]]. Qed.
Lemma counted_twice b n m : counted (counted b n) m = counted b m.
Proof. done. Qed.

Lemma costs_ret {A} (a : A) n (Q : A -> Prop) : 0 <= n -> Q a -> costs (mret a) n Q.
Proof. intros Hn Ha b. exists (Ok a), (ops b). rewrite counted_self. split; [done|]. split; [lia|done]. Qed.
Lemma costs_bind {A B} (m : st Branch A) (f : A -> st Branch B) n k Q R : 0 <= k ->
  costs m n Q -> (forall a, Q a -> costs (f a) k R) -> costs (m ≫= f) (n + k) R.
Proof.
  intros Hk Hm Hf b. destruct (Hm b) as (r & n1 & E & Hle & Hr). unfold mbind, st_bind. rewrite E. destruct r as [a|e|]; [|exists (Err e), n1; split; [done|]; split; lia|done].
  destruct (Hf a Hr (counted b n1)) as (r' & n2 & E' & Hle' & Hr'). exists r', n2. rewrite E', counted_twice. split; [done|]. cbn in Hle', Hr'. split; [lia|]. destruct r'; [done|lia|done].
Qed.
Lemma costs_weaken {A} (m : st Branch A) n k (Q R : A -> Prop) : n <= k -> (forall a, Q a -> R a) -> costs m n Q -> costs m k R.
Proof. intros Hn Hq Hm b. destruct (Hm b) as (r & n1 & E & Hle & Hr). exists r, n1. split; [done|]. split; [lia|]. destruct r; [by apply Hq|lia|done]. Qed.
Lemma costs_charge : costs (charge operation) 1 (fun _ => True).
Proof.
  intros b. unfold charge, operation. destruct (Z.ltb_spec (ops b) (max_ops b)) as [Hl|Hl]; cbn [ensure mbind outcome_bind].
  - exists (Ok tt), (ops b + 1). split; [done|]. split; [lia|done].
  - exists (Err Store), (ops b). rewrite counted_self. split; [done|]. split; lia.
Qed.
Lemma costs_pay {A} (f : unit -> st Branch A) k R : 0 <= k -> costs (f tt) k R -> costs (charge operation ≫= f) (1 + k) R.
Proof. intros Hk Hf. eapply costs_bind; [done|apply costs_charge|]. by intros []. Qed.

Lemma costs_pay_last {A} (f : unit -> st Branch A) R : costs (f tt) 0 R -> costs (charge operation ≫= f) 1 R.
Proof. intros Hf. by apply (costs_pay f 0). Qed.

(** Entries listed in the direction of a step. *)
Definition directed (rev : bool) (l : list (bytes * option bytes)) : Prop := StronglySorted (fun a b => (if rev then blt b.1 a.1 else blt a.1 b.1) = true) l.

Lemma live_point_costs rev l : directed rev l -> costs (live_point l) (Z.of_nat (length l)) (nearest rev (fun e => (e.1, Some e.2) ∈ l)).
Proof.
  induction l as [|[k v] l IH]; intros Hs; cbn [live_point].
  - apply costs_ret; [lia|]. intros x Hx. by apply not_elem_of_nil in Hx.
  - apply StronglySorted_inv in Hs as [Hs Hf]. rewrite List.Forall_forall in Hf. cbn [length]. replace (Z.of_nat (S (length l))) with (1 + Z.of_nat (length l)) by lia. apply costs_pay; [lia|]. destruct v as [v|].
    + apply costs_ret; [lia|]. split; [left|]. intros x Hx. cbn [fst]. apply elem_of_cons in Hx as [[= -> _]|Hx]; [destruct rev; apply ble_refl|].
      specialize (Hf _ (proj1 (list_elem_of_In _ _) Hx)). cbn [fst] in Hf. destruct rev; apply ble_lt_eq; by left.
    + eapply costs_weaken; [reflexivity| |by apply IH]. intros r Hn. eapply nearest_ext; [|exact Hn]. intros x. cbn. rewrite elem_of_cons. naive_solver.
Qed.

Lemma sorted_snoc {A} (R : A -> A -> Prop) l x : StronglySorted R l -> (forall y, y ∈ l -> R y x) -> StronglySorted R (l ++ [x]).
Proof.
  induction 1 as [|a l Hs IH Hf]; intros Hx; cbn [app]; [by repeat constructor|]. constructor; [apply IH; intros y Hy; apply Hx; by right|].
  apply Forall_app. split; [done|]. apply Forall_singleton. apply Hx. left.
Qed.
Lemma rev_directed l : rising l -> directed true (rev l).
Proof.
  induction l as [|e l IH]; cbn [rev]; [constructor|]. intros [Hs Hf]%rising_cons. apply sorted_snoc; [by apply IH|]. intros y Hy. apply Hf. apply list_elem_of_In, in_rev. by apply list_elem_of_In.
Qed.

(** The keys ahead of a step. *)
Definition ahead (lower upper key : bytes) (reverse inclusive : bool) (k : bytes) : Prop :=
  in_range lower upper k = true /\ (if reverse then if inclusive then ble k key else blt k key else if inclusive then ble key k else blt key k) = true.
(** A key brought into the bounds. *)
Definition bounded (lower upper key : bytes) (reverse inclusive : bool) : Prop :=
  ble lower key = true /\ (blt key upper = true \/ (reverse = true /\ key = upper /\ inclusive = false)).

Lemma points_from_spec d lower upper key rev incl : bounded lower upper key rev incl ->
  directed rev (points_from d lower upper key rev incl) /\
  forall k v, (k, v) ∈ points_from d lower upper key rev incl <-> points d !! k = Some v /\ ahead lower upper key rev incl k.
Proof.
  intros [Hlo Hup]. unfold points_from, ahead. setoid_rewrite in_range_spec. destruct rev.
  - split; [apply rev_directed, rising_filter, in_order_rising|]. intros k v. rewrite list_elem_of_In, <- in_rev, <- list_elem_of_In, elem_filterb, elem_in_order. cbn [fst].
    rewrite andb_true_iff. split; [|naive_solver]. intros (Hp & Hl & Hk). split; [done|]. split; [split; [done|]|done].
    destruct Hup as [Hup|(_ & -> & ->)]; [|done]. destruct incl; [by eapply ble_blt_trans|by eapply blt_trans].
  - split; [apply rising_filter, in_order_rising|]. intros k v. rewrite elem_filterb, elem_in_order. cbn [fst]. rewrite andb_true_iff. split; [|naive_solver].
    intros (Hp & Hk & Hl). split; [done|]. split; [split; [|done]|done]. destruct incl; [by eapply ble_trans|]. apply ble_lt_eq. left. by eapply ble_blt_trans.
Qed.

(** ** Passing over hidden entries *)

Definition dle (rev : bool) (a b : bytes) : bool := if rev then ble b a else ble a b.
Definition dlt (rev : bool) (a b : bytes) : bool := if rev then blt b a else blt a b.
Lemma dle_refl rev a : dle rev a a = true.
Proof. destruct rev; apply ble_refl. Qed.
Lemma dle_trans rev a b c : dle rev a b = true -> dle rev b c = true -> dle rev a c = true.
Proof. destruct rev; cbn [dle]; intros; by eapply ble_trans. Qed.
Lemma dle_cases rev a b : dle rev a b = true <-> dlt rev a b = true \/ a = b.
Proof. destruct rev; cbn [dle dlt]; rewrite ble_lt_eq; naive_solver. Qed.
Lemma dlt_not_dle rev a b : dlt rev a b = true -> dle rev b a = false.
Proof. destruct rev; cbn [dle dlt]; unfold ble; intros ->; done. Qed.

Definition hidden (d : Delta) (k : bytes) : Prop := covered (ranges d) k \/ is_Some (points d !! k).

Section skip.
Variables (d : Delta) (es : list (bytes * bytes)) (lower : bytes) (floor : option (option bytes * option bytes)) (rev : bool) (T : bytes -> Prop).
Hypothesis d_apart : apart (ranges d).
Hypothesis asc : ascending es.
Hypothesis above : forall x, x ∈ es -> ble lower x.1 = true.
Hypothesis floors : floor_ok es floor.
Hypothesis T_closed : forall a x, T a -> x ∈ es -> dlt rev a x.1 = true -> T x.1.

Abbreviation seen x := (x ∈ es /\ T x.1 /\ ~ hidden d x.1).
Definition on_way (it : option (bytes * bytes)) : Prop :=
  (forall e, it = Some e -> e ∈ es /\ T e.1) /\ forall x, seen x -> exists e, it = Some e /\ dle rev e.1 x.1 = true.
Definition remaining (it : option (bytes * bytes)) : nat :=
  match it with Some e => length (List.filter (fun x => dle rev e.1 x.1) es) | None => 0 end.

Lemma filter_fewer (f g : bytes * bytes -> bool) l e : (forall x, x ∈ l -> g x = true -> f x = true) -> e ∈ l -> f e = true -> g e = false ->
  (length (List.filter g l) < length (List.filter f l))%nat.
Proof.
  induction l as [|a l IH]; intros Hfg He Hf Hg; [by apply not_elem_of_nil in He|]. cbn [List.filter].
  assert (Hle : (length (List.filter g l) <= length (List.filter f l))%nat).
  { clear -Hfg. assert (Hfg' : forall x, x ∈ l -> g x = true -> f x = true) by (intros x Hx; apply Hfg; by right). clear Hfg. induction l as [|b l IH]; [done|]. cbn [List.filter].
    assert (IH' : (length (List.filter g l) <= length (List.filter f l))%nat) by (apply IH; intros x Hx; apply Hfg'; by right).
    destruct (g b) eqn:Eg; [rewrite (Hfg' b) by (done || left); cbn; lia|destruct (f b); cbn; lia]. }
  apply elem_of_cons in He as [->|He].
  - rewrite Hf, Hg. cbn. lia.
  - specialize (IH ltac:(intros x Hx; apply Hfg; by right) He Hf Hg). destruct (g a) eqn:Eg; [rewrite (Hfg a) by (done || left); cbn; lia|destruct (f a); cbn; lia].
Qed.

(** One move: everything up to [past] is hidden. *)
Lemma advance e (past : bytes -> Prop) it' : on_way (Some e) -> nearest rev (fun x => x ∈ es /\ past x.1) it' ->
  (forall k, ~ hidden d k -> dle rev e.1 k = true -> past k) -> (forall k, past k -> dlt rev e.1 k = true) ->
  on_way it' /\ (remaining it' < remaining (Some e))%nat.
Proof.
  intros [H1 H2] Hn Hpast Hlt. destruct (H1 e eq_refl) as [He Te]. split; [split|].
  - intros e' ->. destruct Hn as [[He' Hp] _]. split; [done|]. apply (T_closed e.1); [done..|]. by apply Hlt.
  - intros x Hx. destruct (H2 x Hx) as (e0 & [= <-] & Hle). destruct Hx as (Hx & _ & Hh). specialize (Hpast _ Hh Hle). destruct it' as [e'|]; cbn [nearest] in Hn.
    + exists e'. split; [done|]. destruct Hn as [_ Hn]. specialize (Hn x (conj Hx Hpast)). by destruct rev.
    + by destruct (Hn x).
  - destruct it' as [e'|]; cbn [remaining].
    + destruct Hn as [[He' Hp] _]. apply (filter_fewer _ _ _ e); [|done|apply dle_refl|by apply dlt_not_dle, Hlt]. intros x Hx Hd. eapply dle_trans; [|exact Hd]. apply dle_cases. left. by apply Hlt.
    + assert (Hin : e ∈ List.filter (fun x => dle rev e.1 x.1) es) by (apply elem_filterb; by rewrite dle_refl). destruct (List.filter _ es); [by apply not_elem_of_nil in Hin|cbn; lia].
Qed.

Lemma nothing_seen (r : bool * option (bytes * bytes)) : standing es r.2 -> (if r.1 then None else r.2) = None -> on_way None ->
  standing es r.2 /\ nearest rev (fun x => seen x) (if r.1 then None else r.2).
Proof. intros Hs -> Hw. split; [done|]. intros x Hx. by destruct (proj2 Hw x Hx) as (? & [=] & _). Qed.
Lemma remaining_pos e : e ∈ es -> (0 < remaining (Some e))%nat.
Proof.
  intros He. assert (Hin : e ∈ List.filter (fun x => dle rev e.1 x.1) es) by (apply elem_filterb; by rewrite dle_refl). cbn [remaining].
  destruct (List.filter _ es); [by apply not_elem_of_nil in Hin|cbn; lia].
Qed.
(** A step back past [k], as a move. *)
Lemma back_nearest e k ok it' : standing es (Some e) -> step_back es (Some e) k false lower floor = (ok, it') ->
  nearest true (fun x => x ∈ es /\ blt x.1 k = true) (if negb ok then None else it') /\ standing es it'.
Proof.
  intros Hst E. destruct (step_back_spec _ _ _ _ _ _ _ _ asc Hst above floors E) as [Hn Hst']. split; [|done].
  assert (Eo : (if negb ok then None else it') = if ok then it' else None) by (by destruct ok). rewrite Eo. eapply nearest_ext; [|exact Hn].
  intros x. unfold within. cbn [beyond]. unfold ble. by rewrite negb_false_iff.
Qed.

Lemma skip_hidden_costs fuel : forall (ex : bool) it, standing es it -> (ex = true -> rev = true) -> on_way (if ex then None else it) ->
  (remaining (if ex then None else it) <= fuel)%nat ->
  costs (skip_hidden fuel d es rev lower floor ex it) (Z.of_nat fuel)
    (fun s => standing es s.2 /\ nearest rev (fun x => seen x) (if s.1 then None else s.2)).
Proof.
  induction fuel as [|fuel IH]; intros ex it Hst Hex Hway Hrem;
    (destruct ex; [destruct it; (apply costs_ret; [lia|]; by apply nothing_seen)|]);
    (destruct it as [e|]; cbn [skip_hidden]; [|apply costs_ret; [lia|]; by apply nothing_seen]).
  - pose proof (remaining_pos e (Hst e eq_refl)). lia.
  - replace (Z.of_nat (S fuel)) with (1 + Z.of_nat fuel) by lia.
    assert (Hgo : forall past (ex' : bool) it', nearest rev (fun x => x ∈ es /\ past x.1) (if ex' then None else it') -> standing es it' -> (ex' = true -> rev = true) ->
      (forall k, ~ hidden d k -> dle rev e.1 k = true -> past k) -> (forall k, past k -> dlt rev e.1 k = true) ->
      costs (skip_hidden fuel d es rev lower floor ex' it') (Z.of_nat fuel) (fun s => standing es s.2 /\ nearest rev (fun x => seen x) (if s.1 then None else s.2))).
    { intros past ex' it' Hn Hst' Hex' Hp1 Hp2. destruct (advance e past _ Hway Hn Hp1 Hp2) as [Hw Hlt]. apply IH; [done..|lia]. }
    destruct (covering_range d e.1) as [[start last]|] eqn:Ec.
    + apply covering_spec in Ec as [Er [Hs1 Hs2]%in_range_spec]; [|done]. apply costs_pay; [lia|].
      assert (Hout : forall k, ~ hidden d k -> blt k start = true \/ ble last k = true).
      { intros k Hh. destruct (blt k start) eqn:E1; [by left|right]. unfold ble. destruct (blt k last) eqn:E2; [|done]. destruct Hh. left. exists start, last. split; [done|]. apply in_range_spec. unfold ble. by rewrite E1. }
      destruct rev eqn:Erev.
      * destruct (step_back es (Some e) start false lower floor) as [ok it'] eqn:Esb. destruct (back_nearest _ _ _ _ Hst Esb) as [Hn Hst'].
        apply (Hgo (fun k => blt k start = true)); [done..| |].
        -- cbn [dle]. intros k Hh Hk. destruct (Hout k Hh) as [?|Hl]; [done|]. pose proof (ble_blt_trans _ _ _ Hk Hs2) as Hx. unfold ble in Hl. by rewrite Hx in Hl.
        -- cbn [dlt]. intros k Hk. by eapply blt_ble_trans.
      * pose proof (raw_seek_nearest es asc last) as Hn. apply (Hgo (fun k => ble last k = true) false); [done|exact (nearest_standing _ _ _ _ Hn)|done| |].
        -- cbn [dle]. intros k Hh Hk. destruct (Hout k Hh) as [Hl|?]; [|done]. pose proof (ble_blt_trans _ _ _ Hk Hl) as Hx. unfold ble in Hs1. by rewrite Hx in Hs1.
        -- cbn [dlt]. intros k Hk. by eapply blt_ble_trans.
    + assert (Hnc : ~ covered (ranges d) e.1) by (intros Hc%covering_covered; [rewrite Ec in Hc; by destruct Hc|done]).
      case_bool_decide as Hp.
      * apply costs_pay; [lia|]. assert (Hne : forall k, ~ hidden d k -> dle rev e.1 k = true -> dlt rev e.1 k = true) by (intros k Hh [?| <-]%dle_cases; [done|]; destruct Hh; by right).
        destruct rev eqn:Erev.
        -- destruct (step_back es (Some e) e.1 false lower floor) as [ok it'] eqn:Esb. destruct (back_nearest _ _ _ _ Hst Esb) as [Hn Hst'].
           apply (Hgo (fun k => blt k e.1 = true)); [done..|exact Hne|done].
        -- pose proof (raw_next_nearest es asc e) as Hn. apply (Hgo (fun k => blt e.1 k = true) false); [done|exact (nearest_standing _ _ _ _ Hn)|done|exact Hne|done].
      * apply costs_ret; [lia|]. split; [done|]. split; [|intros x Hx; destruct (proj2 Hway x Hx) as (e' & [= <-] & Hle); by destruct rev].
        destruct (proj1 Hway e eq_refl) as [He Te]. split; [done|]. split; [done|]. intros [?|?]; done.
Qed.
End skip.

(** ** The parts of a step *)

Lemma nearest_on_way d es rev T it : nearest rev (fun x => x ∈ es /\ T x.1) it -> on_way d es rev T it.
Proof.
  intros Hn. split; [intros e ->; apply Hn|]. intros x (Hx & Tx & _). destruct it as [e|]; [|by destruct (Hn x)]. exists e. split; [done|]. destruct Hn as [_ Hn]. specialize (Hn x (conj Hx Tx)). by destruct rev.
Qed.

Lemma read_floor_costs es lower : ascending es -> (forall x, x ∈ es -> ble lower x.1 = true) ->
  costs (read_floor es lower) 2 (fun f => f.1 = (fst <$> head es, fst <$> head (tail es)) /\ standing es f.2).
Proof.
  intros asc Hb. unfold read_floor, raw_seek. change 2 with (1 + 1). apply costs_pay; [lia|]. destruct es as [|e0 es'].
  - apply costs_ret; [lia|]. split; [done|]. by intros e [=].
  - pose proof (Hb e0 ltac:(left)) as H0. unfold ble in H0. apply negb_true_iff in H0. cbn [seek]. rewrite H0. cbn [head tail]. apply costs_pay_last. apply costs_ret; [lia|].
    cbn [raw_next fst snd]. apply rising_cons in asc as [Hr Hgt].
    assert (En : List.filter (fun x => blt e0.1 x.1) (e0 :: es') = es') by (cbn [List.filter]; rewrite blt_irrefl; by apply filter_all).
    rewrite En. split; [done|]. intros e He. right. destruct es'; [done|]. injection He as <-. left.
Qed.

Section move.
Variables (es : list (bytes * bytes)) (lower upper : bytes).
Hypothesis asc : ascending es.
Hypothesis within_bounds : forall x, x ∈ es -> in_range lower upper x.1 = true.

Lemma es_above x : x ∈ es -> ble lower x.1 = true.
Proof. intros Hx%within_bounds. by apply in_range_spec in Hx as [? _]. Qed.

Lemma prepare_floor_costs it guarded : standing es it -> costs (prepare_floor es it guarded lower) 2 (fun f => floor_ok es f.1 /\ standing es f.2).
Proof.
  intros Hs. unfold prepare_floor. destruct guarded.
  - replace 2 with (2 + 0) by lia. eapply costs_bind; [lia|apply (read_floor_costs es lower asc es_above)|]. intros [f it'] [Ef Hst]. apply costs_ret; [lia|]. cbn [fst snd] in *. split; [intros g [= <-]; exact Ef|done].
  - apply costs_ret; [lia|]. by split.
Qed.

Lemma seek_or_stay it key : standing es it -> nearest false (fun x => x ∈ es /\ ble key x.1 = true) (if at_key it key then it else raw_seek es key).
Proof.
  intros Hs. destruct (at_key it key) eqn:E; [|by apply raw_seek_nearest]. destruct (at_key_spec _ _ _ Hs E) as (v & -> & Hv). split; [split; [done|apply ble_refl]|]. by intros x [_ Hx].
Qed.

Lemma first_move_costs d it key rev incl floor : standing es it -> floor_ok es floor ->
  costs (first_move es it key rev incl lower floor) 1
    (fun m => standing es m.2 /\ (m.1 = true -> rev = true) /\ on_way d es rev (ahead lower upper key rev incl) (if m.1 then None else m.2)).
Proof.
  intros Hs Hf. assert (Hin : forall (P : bytes -> Prop) x, (x ∈ es /\ P x.1) <-> x ∈ es /\ in_range lower upper x.1 = true /\ P x.1) by (intros P x; pose proof (within_bounds x); naive_solver).
  unfold first_move. destruct rev.
  - destruct (step_back es it key incl lower floor) as [ok it'] eqn:E. destruct (step_back_spec _ _ _ _ _ _ _ _ asc Hs es_above Hf E) as [Hn Hst]. apply costs_ret; [lia|]. cbn [fst snd]. split; [done|]. split; [done|].
    apply nearest_on_way. assert (Eo : (if negb ok then None else it') = if ok then it' else None) by (by destruct ok). rewrite Eo. eapply nearest_ext; [|exact Hn]. intros x. unfold within, ahead.
    rewrite (Hin (fun k => beyond key incl k = false)). unfold beyond, ble. destruct incl; [by rewrite negb_true_iff|by rewrite negb_false_iff].
  - pose proof (seek_or_stay it key Hs) as Hn. set (it1 := if at_key it key then it else raw_seek es key) in *. pose proof (nearest_standing _ _ _ _ Hn) as Hst. destruct incl; cbn [negb andb].
    + apply costs_ret; [lia|]. cbn [fst snd]. split; [done|]. split; [done|]. apply nearest_on_way. eapply nearest_ext; [|exact Hn]. intros x. unfold ahead. by rewrite (Hin (fun k => ble key k = true)).
    + destruct (at_key it1 key) eqn:Ek.
      * apply costs_pay_last. apply costs_ret; [lia|]. cbn [fst snd]. destruct (at_key_spec _ _ _ Hst Ek) as (v & -> & Hv).
        pose proof (raw_next_nearest es asc (key, v)) as Hx. split; [exact (nearest_standing _ _ _ _ Hx)|]. split; [done|]. apply nearest_on_way. eapply nearest_ext; [|exact Hx].
        intros x. unfold ahead. cbn [fst]. by rewrite (Hin (fun k => blt key k = true)).
      * apply costs_ret; [lia|]. cbn [fst snd]. split; [done|]. split; [done|]. apply nearest_on_way. eapply nearest_ext; [intros x; apply (Hin (fun k => blt key k = true))|].
        destruct it1 as [e|]; cbn [nearest] in *.
        -- destruct Hn as [[He Hk] Hn]. split; [|intros x [Hx Hlt]; apply Hn; split; [done|]; apply ble_lt_eq; by left]. split; [done|]. apply ble_lt_eq in Hk as [?|Hk]; [done|]. cbn [at_key] in Ek. apply bool_decide_eq_false in Ek. by rewrite Hk in Ek.
        -- intros x [Hx Hlt]. apply (Hn x). split; [done|]. apply ble_lt_eq. by left.
Qed.
End move.
End costs.
