(* ===== verification/OverlayReads.v ===== *)
(** * Reads of an execution branch

    Point reads and cursor steps at the level of a branch: what they return of the
    merged view, what they leave unchanged, and the reasons for which they fail. *)

From Stdlib Require Import Strings.Byte Sorted.
From stdpp Require Import gmap sorting.
From S2P Require Import Prelude Bytes TreeStore TreeStoreOrder Database DatabaseCorrect Overlay OverlayDelta OverlayCursor.

Section reads.
Context `{LawfulRocks}.

Abbreviation ops b := (operations (reads (overlay b))).
Abbreviation max_ops b := (max_read_operations (limits (overlay b))).

(** ** What a read leaves unchanged *)

(** Parked iterators stand in the snapshot. *)
Definition parked_ok (p : PinnedSnapshot) : Prop := forall db i es,
  snapshot p = Some db -> i ∈ iterators p -> rocks_iterator db (pk_lower i) (pk_upper i) = Ok es -> standing es (stands_at i).

(** A read charges the budget, moves iterators and may release the snapshot. *)
Record read_only (b b' : Branch) : Prop := {
  ro_parked : parked_ok (base b) -> parked_ok (base b');
  ro_snapshot db : snapshot (base b') = Some db -> snapshot (base b) = Some db;
  ro_source : source (base b') = source (base b) /\ sequence (base b') = sequence (base b);
  ro_delta : delta (overlay b') = delta (overlay b) /\ generation (overlay b') = generation (overlay b);
  ro_limits : limits (overlay b') = limits (overlay b);
  ro_open : is_open (overlay b') = is_open (overlay b);
  ro_failed : failed_execution (overlay b') = failed_execution (overlay b);
  ro_touched : touched (overlay b') = touched (overlay b);
}.
#[export] Instance read_only_refl : Reflexive read_only.
Proof. by intros b. Qed.
#[export] Instance read_only_trans : Transitive read_only.
Proof.
  intros a b c [] []. constructor; [by auto|intros; by auto|..]; intuition congruence.
Qed.

Lemma counted_read_only b n : read_only b (counted b n).
Proof. by constructor. Qed.
Lemma charge_read_only f b r b' : charge f b = (r, b') -> read_only b b'.
Proof. unfold charge. destruct (f _ _) as [x|e|]; intros [= _ <-]; by constructor. Qed.

Lemma view_spec c b r b' : on_base (view c) b = (r, b') -> read_only b b' /\
  match r with
  | Ok db => b' = b /\ snapshot (base b) = Some db
  | _ => snapshot (base b) = None \/ expired c (base b) = true
  end.
Proof.
  unfold on_base, view. destruct (snapshot (base b)) as [db|] eqn:Es; [destruct (expired c (base b)) eqn:Ex|]; intros [= <- <-].
  - split; [|by right]. by constructor.
  - split; [by destruct b|by destruct b].
  - split; [|by left]. destruct b; by constructor.
Qed.

Lemma swap_remove_elem {A} i (l : list A) x : x ∈ swap_remove i l -> x ∈ l.
Proof.
  unfold swap_remove. destruct (last l) as [y|] eqn:E; [|done]. apply last_Some in E as [l' ->]. rewrite removelast_last. destruct (_ =? _)%nat.
  - intros Hx. apply elem_of_app. by left.
  - intros (j & Hj)%list_elem_of_lookup. apply elem_of_app. apply list_lookup_insert_Some in Hj as [(_ & -> & _)|[_ Hj]]; [right; left|left]. by eapply list_elem_of_lookup_2.
Qed.

Lemma take_iterator_spec c lower upper b r b' : on_base (take_iterator c lower upper) b = (r, b') -> read_only b b' /\ snapshot (base b') = snapshot (base b) /\ reads (overlay b') = reads (overlay b) /\
  exists it, r = Ok it /\ pk_lower it = lower /\ pk_upper it = upper /\
    (parked_ok (base b) -> forall db es, snapshot (base b) = Some db -> rocks_iterator db lower upper = Ok es -> standing es (stands_at it)).
Proof.
  unfold on_base, take_iterator. destruct (position _ (iterators (base b))) as [i|] eqn:Ep.
  - apply position_Some in Ep as (it & Ei & Hb & _). rewrite Ei. intros [= <- <-]. apply andb_true_iff in Hb as [Hl%bool_decide_eq_true Hu%bool_decide_eq_true].
    split; [|split; [done|split; [done|]]].
    + constructor; try done. intros Hp db j es Hs Hj. apply (Hp db j es Hs). exact (swap_remove_elem _ _ _ Hj).
    + exists it. split; [done|]. split; [done|]. split; [done|]. intros Hp db es Hs He. subst. apply (Hp db it es Hs); [by eapply list_elem_of_lookup_2|done].
  - intros [= <- <-]. split; [by destruct b; constructor|]. split; [done|]. split; [done|]. eexists. split; [done|]. split; [done|]. split; [done|]. by intros _ db es _ _ e [=].
Qed.

Lemma park_read_only c it p o : (forall db es, snapshot p = Some db -> rocks_iterator db (pk_lower it) (pk_upper it) = Ok es -> standing es (stands_at it)) ->
  read_only (mkBranch p o) (mkBranch (park c it p) o).
Proof.
  intros Hit. constructor; try done. intros Hp db i es Hs [Hi| ->%list_elem_of_singleton]%elem_of_app; [|by apply Hit].
  apply (Hp db i es Hs). destruct (_ <=? _)%nat; [|done]. destruct (oldest _) as [[n t]|]; [|done]. exact (swap_remove_elem _ _ _ Hi).
Qed.

(** ** A cursor step *)

(** An entry the limits do not let through. *)
Definition oversized (b : Branch) (e : bytes * bytes) : Prop :=
  max_record_bytes (limits (overlay b)) < blen e.1 + blen e.2 \/ u64_max < blen e.1 + blen e.2 \/
  max_read_bytes (limits (overlay b)) < read_bytes (reads (overlay b)) + (blen e.1 + blen e.2) \/ u64_max < read_bytes (reads (overlay b)) + (blen e.1 + blen e.2).

(** Why a read of the view fails. *)
Inductive refused (c : Clock) (d : Delta) (lower upper : bytes) (b : Branch) : Prop :=
| refused_view : snapshot (base b) = None \/ expired c (base b) = true -> refused c d lower upper b
| refused_storage db : snapshot (base b) = Some db -> (forall es, rocks_iterator db lower upper <> Ok es) -> refused c d lower upper b
| refused_points : max_ops b < ops b + Z.of_nat (size (points d)) + 1 -> refused c d lower upper b
| refused_operations db es : snapshot (base b) = Some db -> rocks_iterator db lower upper = Ok es ->
    max_ops b < ops b + Z.of_nat (size (points d) + length es) + 5 -> refused c d lower upper b
| refused_size db e : snapshot (base b) = Some db -> view_at d (rocks_map db) e.1 = Some e.2 -> oversized b e -> refused c d lower upper b.

Definition in_view (d : Delta) (m : gmap bytes bytes) (lower upper key : bytes) (rev incl : bool) (e : bytes * bytes) : Prop :=
  view_at d m e.1 = Some e.2 /\ ahead lower upper key rev incl e.1.

Lemma record_spec b e : match record (limits (overlay b)) e.1 e.2 (reads (overlay b)) with Ok _ => True | Err _ => oversized b e | Panic => False end.
Proof.
  unfold record, oversized. unfold checked_add_u64. destruct (Z.leb_spec (blen e.1 + blen e.2) u64_max); cbn [ok_or mbind outcome_bind]; [|lia].
  destruct (Z.leb_spec (blen e.1 + blen e.2) (max_record_bytes (limits (overlay b)))); cbn [ensure mbind outcome_bind]; [|lia].
  destruct (Z.leb_spec (read_bytes (reads (overlay b)) + (blen e.1 + blen e.2)) u64_max); cbn [ok_or mbind outcome_bind]; [|lia].
  destruct (Z.leb_spec (read_bytes (reads (overlay b)) + (blen e.1 + blen e.2)) (max_read_bytes (limits (overlay b)))); cbn [ensure mbind outcome_bind]; [done|lia].
Qed.

(** The rows that merge: live points ahead and visible stored entries ahead. *)
Lemma merged_view d m (es : list (bytes * bytes)) lower upper key rev incl x : apart (ranges d) ->
  (forall k v, (k, v) ∈ es <-> m !! k = Some v /\ in_range lower upper k = true) -> bounded lower upper key rev incl ->
  in_view d m lower upper key rev incl x <->
  (x.1, Some x.2) ∈ points_from d lower upper key rev incl \/ (x ∈ es /\ ahead lower upper key rev incl x.1 /\ ~ hidden d x.1).
Proof.
  intros Ha Hes Hb. destruct x as [k v]. unfold in_view. cbn [fst snd]. rewrite view_at_Some by done. destruct (points_from_spec d lower upper key rev incl Hb) as [_ Hp]. rewrite Hp, Hes.
  unfold hidden. rewrite eq_None_not_Some. split; [|unfold ahead; naive_solver]. intros [[?|(? & ? & ?)] Hah]; [by left|right]. split; [split; [done|apply Hah]|]. split; [done|]. naive_solver.
Qed.

(** What the three charged parts of a step deliver together. *)
Lemma stored_costs d es lower upper key rev incl guarded it : apart (ranges d) -> ascending es ->
  (forall x, x ∈ es -> in_range lower upper x.1 = true) -> standing es it ->
  costs (find_stored d es it guarded lower key rev incl) (Z.of_nat (length es) + 4)
    (fun s => standing es s.2 /\ nearest rev (fun x => x ∈ es /\ ahead lower upper key rev incl x.1 /\ ~ hidden d x.1) (if s.1 then None else s.2)).
Proof.
  intros Ha Hasc Hin Hst. unfold find_stored. replace (Z.of_nat (length es) + 4) with (2 + (1 + Z.of_nat (S (length es)))) by lia.
  eapply costs_bind; [lia|by eapply prepare_floor_costs|]. intros [f it'] [Hf Hst']. cbn [fst snd] in *.
  eapply costs_bind; [lia|by apply (first_move_costs es lower upper Hasc Hin d)|]. intros [ex it''] (Hst'' & Hex & Hw). cbn [fst snd] in *.
  apply skip_hidden_costs; try done.
  - by apply (es_above es lower upper).
  - intros a x [_ Hk] Hx Hlt. split; [by apply Hin|]. destruct rev, incl; cbn [dlt] in Hlt; [|by eapply blt_trans| |by eapply blt_trans]; apply ble_lt_eq; left; [by eapply blt_ble_trans|by eapply ble_blt_trans].
  - unfold remaining. destruct ex; [lia|]. destruct it''; [|lia]. cbn. etransitivity; [apply List.filter_length_le|lia].
Qed.

Lemma bind_ok {S A B} (m : st S A) (f : A -> st S B) s a s' : m s = (Ok a, s') -> (m ≫= f) s = f a s'.
Proof. intros E. unfold mbind, st_bind. by rewrite E. Qed.
Lemma bind_cases {S A B} (m : st S A) (f : A -> st S B) s r s' : (m ≫= f) s = (r, s') ->
  (exists a s1, m s = (Ok a, s1) /\ f a s1 = (r, s')) \/ (exists r0, m s = (r0, s') /\ (forall a, r0 <> Ok a) /\ (forall a, r <> Ok a) /\ (r = Panic -> r0 = Panic)).
Proof.
  unfold mbind, st_bind. destruct (m s) as [[a|e|] s1] eqn:E; intros Hx; [left; by exists a, s1|right; injection Hx as <- <-; by eexists..].
Qed.

(** The end of a step: the row is paid for and the iterator parked. *)
Lemma pay_row_spec chosen b r b' : pay_row chosen b = (r, b') -> read_only b b' /\ snapshot (base b') = snapshot (base b) /\
  match r with Ok _ => True | _ => exists e, chosen = Some e /\ oversized b e end.
Proof.
  destruct chosen as [e|]; cbn [pay_row]; [|by intros [= <- <-]]. intros E. split; [by eapply charge_read_only|]. pose proof (record_spec b e) as Hr. unfold charge in E.
  destruct (record _ _ _ _); injection E as <- <-; [done| |done]. split; [done|]. by exists e.
Qed.
Lemma park_iterator_spec c cur parked it b db es : snapshot (base b) = Some db -> rocks_iterator db (pk_lower parked) (pk_upper parked) = Ok es -> standing es it ->
  exists b', park_iterator c cur parked it b = (Ok tt, b') /\ read_only b b'.
Proof.
  intros Hs He Hst. unfold park_iterator. destruct (floor_guard cur); [by exists b|]. eexists. split; [done|]. destruct b as [p o]. apply park_read_only. cbn [pk_lower pk_upper stands_at].
  intros db' es' Hdb Hes. cbn in Hs, Hdb. assert (db' = db) as -> by congruence. by assert (es' = es) as -> by congruence.
Qed.

Lemma length_points_from d lower upper key rev incl : (length (points_from d lower upper key rev incl) <= size (points d))%nat.
Proof.
  unfold points_from. assert (Hl : forall f, (length (List.filter f (in_order (points d))) <= size (points d))%nat).
  { intros f. etransitivity; [apply List.filter_length_le|]. rewrite in_order_perm. by rewrite length_map_to_list. }
  destruct rev; [rewrite length_rev|]; apply Hl.
Qed.

Definition step_result (c : Clock) (cur : OverlayCursor) (key : bytes) (rev incl : bool) (b0 b : Branch) (r : outcome (option (bytes * bytes))) (b' : Branch) : Prop :=
  read_only b b' /\
  match r with
  | Ok row => exists db, snapshot (base b) = Some db /\ nearest rev (in_view (c_delta cur) (rocks_map db) (c_lower cur) (c_upper cur) key rev incl) row
  | _ => refused c (c_delta cur) (c_lower cur) (c_upper cur) b0
  end.

Lemma position_in_bounds_spec c cur key rev incl b0 n r b' :
  apart (ranges (c_delta cur)) -> bounded (c_lower cur) (c_upper cur) key rev incl -> parked_ok (base b0) -> ops b0 <= n <= ops b0 + 1 ->
  position_in_bounds c cur key rev incl (counted b0 n) = (r, b') -> step_result c cur key rev incl b0 (counted b0 n) r b'.
Proof.
  intros Ha Hb Hp Hn. unfold position_in_bounds, step_result. set (d := c_delta cur) in *. set (lower := c_lower cur) in *. set (upper := c_upper cur) in *.
  destruct (points_from_spec d lower upper key rev incl Hb) as [Hdir Hpf]. destruct (live_point_costs rev _ Hdir (counted b0 n)) as (r1 & n1 & E1 & Hn1 & Hr1). rewrite counted_twice in E1. cbn in Hn1, Hr1.
  assert (Hlen := length_points_from d lower upper key rev incl).
  intros [(pt & b1 & E & Ef)|(r0 & E & Hr0 & Hr & _)]%bind_cases; rewrite E1 in E; injection E as -> <-.
  2: { split; [by constructor|]. destruct r0 as [a|e|]; [by destruct (Hr0 a)| |done]. destruct r as [a|e'|]; [by destruct (Hr a)|..]; apply refused_points; lia. }
  apply bind_cases in Ef as [(db & b2 & E & Ef)|(r0 & E & Hr0 & Hr & _)].
  2: { apply view_spec in E as [Hro Hv]. split; [by etransitivity; [|exact Hro]; constructor|]. destruct r0 as [a|e|]; [by destruct (Hr0 a)|..]; (destruct r as [a|e'|]; [by destruct (Hr a)|..]; by apply refused_view). }
  apply view_spec in E as (_ & -> & Hsnap). change (snapshot (base b0) = Some db) in Hsnap.
  apply bind_cases in Ef as [(parked & b3 & E & Ef)|(r0 & E & Hr0 & Hr & _)]; apply take_iterator_spec in E as (Hro3 & Hs3 & Hrd3 & it & Eit & Hpl & Hpu & Hstand); [|by destruct (Hr0 it)].
  injection Eit as ->. change (parked_ok (base b0)) in Hp. specialize (Hstand Hp). cbn in Hs3.
  assert (Hro : read_only (counted b0 n) b3) by (etransitivity; [|exact Hro3]; by constructor).
  apply bind_cases in Ef as [(es & b4 & E & Ef)|(r0 & E & Hr0 & Hr & _)]; unfold st_read in E; injection E as E <-.
  2: { split; [done|]. assert (Href : refused c d lower upper b0) by (apply (refused_storage _ _ _ _ _ db Hsnap); intros es Hes; apply (Hr0 es); congruence). by destruct r as [a|e'|]; [destruct (Hr a)|..]. }
  destruct (rocks_iterator_map _ _ _ _ E) as [Hasc Hes]. specialize (Hstand db es Hsnap E).
  assert (Hin : forall x, x ∈ es -> in_range lower upper x.1 = true) by (intros [k v] Hx; by apply Hes in Hx as [_ ?]).
  destruct (stored_costs d es lower upper key rev incl (rev && floor_guard cur) (stands_at it) Ha Hasc Hin Hstand b3) as (r5 & n5 & E5 & Hn5 & Hr5).
  assert (Hops : operations (reads (overlay b3)) = n1) by (by rewrite Hrd3). assert (Hmax : max_ops b3 = max_ops b0) by (by rewrite (ro_limits _ _ Hro)). rewrite Hops, Hmax in *.
  apply bind_cases in Ef as [(s & b5 & E' & Ef)|(r0 & E' & Hr0 & Hr & _)]; rewrite E5 in E'; injection E' as -> <-.
  2: { split; [etransitivity; [exact Hro|by constructor]|]. assert (Href : refused c d lower upper b0).
       { destruct r0 as [a|e|]; [by destruct (Hr0 a)|apply (refused_operations _ _ _ _ _ db es Hsnap E); lia|done]. }
       by destruct r as [a|e'|]; [destruct (Hr a)|..]. }
  destruct Hr5 as [Hst5 Hn5']. pose proof (nearer_spec rev _ _ _ _ Hr1 Hn5') as Hnear. set (chosen := nearer rev pt (if s.1 then None else s.2)) in *.
  assert (Hrow : nearest rev (in_view d (rocks_map db) lower upper key rev incl) chosen).
  { eapply nearest_ext; [|exact Hnear]. intros x. symmetry. by apply merged_view. }
  assert (Hs5 : snapshot (base (counted b3 n5)) = Some db) by (cbn; congruence).
  apply bind_cases in Ef as [(u & b6 & E' & Ef)|(r0 & E' & Hr0 & Hr & _)]; apply pay_row_spec in E' as (Hro6 & Hs6 & Hr6).
  2: { split; [etransitivity; [exact Hro|]; etransitivity; [|exact Hro6]; by constructor|].
       assert (Href : refused c d lower upper b0); [|by destruct r as [a|e'|]; [destruct (Hr a)|..]].
       destruct r0 as [a|e|]; [by destruct (Hr0 a)|..]; destruct Hr6 as (x & Ex & Hover); rewrite Ex in Hrow; destruct Hrow as [[Hv _] _]; apply (refused_size _ _ _ _ _ db x Hsnap Hv);
         unfold oversized in *; cbn in Hover; by rewrite Hrd3, (ro_limits _ _ Hro) in Hover. }
  destruct (park_iterator_spec c cur it s.2 b6 db es) as (b7 & E7 & Hro7); [congruence|by rewrite Hpl, Hpu|done|]. rewrite (bind_ok _ _ _ _ _ E7) in Ef. injection Ef as <- <-.
  split; [|by exists db]. etransitivity; [exact Hro|]. etransitivity; [|exact Hro7]. etransitivity; [|exact Hro6]. by constructor.
Qed.

(** ** Whole reads *)

Lemma check_spec f b r b' : check f b = (r, b') -> b' = b /\ match r with Ok _ => f (overlay b) = true | _ => f (overlay b) = false end.
Proof. unfold check, st_read, ensure. destruct (f (overlay b)); by intros [= <- <-]. Qed.

(** The key and the branch's own state can refuse a read, too. *)
Definition barred (key : bytes) (b : Branch) : Prop :=
  max_record_bytes (limits (overlay b)) < blen key \/ is_open (overlay b) = false \/ max_ops b <= ops b.

Lemma charge_operation b r b' : charge operation b = (r, b') ->
  match r with Ok _ => b' = counted b (ops b + 1) | _ => b' = b /\ max_ops b <= ops b end.
Proof.
  unfold charge, operation. destruct (Z.ltb_spec (ops b) (max_ops b)); cbn [ensure mbind outcome_bind]; intros [= <- <-]; done.
Qed.

(** A key brought into the bounds has the same entries ahead. *)
Lemma clamp_reverse lower upper key incl k : ble upper key = true -> ahead lower upper upper true false k <-> ahead lower upper key true incl k.
Proof.
  intros Hk. unfold ahead. rewrite in_range_spec. split; [|naive_solver]. intros [[Hl Hu] _]. split; [done|]. pose proof (blt_ble_trans _ _ _ Hu Hk). destruct incl; [|done]. apply ble_lt_eq. by left.
Qed.
Lemma clamp_forward lower upper key incl k : blt key lower = true -> ahead lower upper lower false true k <-> ahead lower upper key false incl k.
Proof.
  intros Hk. unfold ahead. rewrite in_range_spec. split; [|naive_solver]. intros [[Hl Hu] _]. split; [done|]. pose proof (blt_ble_trans _ _ _ Hk Hl). destruct incl; [|done]. apply ble_lt_eq. by left.
Qed.

Definition read_result (c : Clock) (cur : OverlayCursor) (key : bytes) (rev incl : bool) (b : Branch) (r : outcome (option (bytes * bytes))) (b' : Branch) : Prop :=
  read_only b b' /\
  match r with
  | Ok row =>
      (exists db, snapshot (base b) = Some db /\ nearest rev (in_view (c_delta cur) (rocks_map db) (c_lower cur) (c_upper cur) key rev incl) row) \/
      (row = None /\ forall k, ~ ahead (c_lower cur) (c_upper cur) key rev incl k)
  | _ => barred key b \/ refused c (c_delta cur) (c_lower cur) (c_upper cur) b
  end.

(** The guards at the head of a step. *)
Lemma opening_spec {A} key (f : unit -> st Branch A) b r b' :
  (check (fun o => blen key <=? max_record_bytes (limits o)) ≫= fun _ => check is_open ≫= fun _ => charge operation ≫= f) b = (r, b') ->
  f tt (counted b (ops b + 1)) = (r, b') \/ (b' = b /\ barred key b /\ forall a, r <> Ok a).
Proof.
  unfold barred.
  intros [(u1 & b1 & [-> Hc1]%check_spec & Ef)|(r0 & [-> Hc1]%check_spec & Hr0 & Hr & _)]%bind_cases.
  2: { right. split; [done|]. split; [|done]. left. destruct r0 as [a0|?|]; [by destruct (Hr0 a0)|..]; bool_to_prop; lia. }
  apply bind_cases in Ef as [(u2 & b2 & [-> Hc2]%check_spec & Ef)|(r0 & [-> Hc2]%check_spec & Hr0 & Hr & _)].
  2: { right. split; [done|]. split; [|done]. right. left. by destruct r0 as [a0|?|]; [destruct (Hr0 a0)|..]. }
  apply bind_cases in Ef as [([] & b3 & ->%charge_operation & Ef)|(r0 & Hc3%charge_operation & Hr0 & Hr & _)]; [by left|right].
  destruct r0 as [a0|?|]; [by destruct (Hr0 a0)|..]; destruct Hc3 as [-> Hc3]; (split; [done|]; split; [|done]; right; by right).
Qed.

(** A step from a key in the bounds answers for every key that clamps to it. *)
Lemma clamped_step c cur key key' rev incl incl' b r b' : apart (ranges (c_delta cur)) -> parked_ok (base b) ->
  bounded (c_lower cur) (c_upper cur) key' rev incl' ->
  (forall k, ahead (c_lower cur) (c_upper cur) key' rev incl' k <-> ahead (c_lower cur) (c_upper cur) key rev incl k) ->
  position_in_bounds c cur key' rev incl' (counted b (ops b + 1)) = (r, b') -> read_result c cur key rev incl b r b'.
Proof.
  intros Ha Hp Hb Hah E. apply position_in_bounds_spec in E as [Hro Hr]; [|done..|lia]. split; [etransitivity; [|exact Hro]; by constructor|].
  destruct r as [row|er|]; [|by right..]. destruct Hr as (db & Hs & Hn). left. exists db. split; [done|]. eapply nearest_ext; [|exact Hn]. intros x. unfold in_view. by rewrite Hah.
Qed.
Lemma out_of_bounds c cur key rev incl b r b' : (forall k, ~ ahead (c_lower cur) (c_upper cur) key rev incl k) ->
  (r, b') = (Ok None, counted b (ops b + 1)) -> read_result c cur key rev incl b r b'.
Proof. intros Hno [= -> ->]. split; [by constructor|]. by right. Qed.

Lemma position_inner_spec c cur key rev incl b r b' :
  apart (ranges (c_delta cur)) -> blt (c_lower cur) (c_upper cur) = true -> parked_ok (base b) ->
  position_inner c cur key rev incl b = (r, b') -> read_result c cur key rev incl b r b'.
Proof.
  intros Ha Hlu Hp. unfold position_inner. intros [Ef|(-> & Hbar & Hr)]%opening_spec; [|split; [done|]; by destruct r as [a|er|]; [destruct (Hr a)|left..]].
  destruct rev.
  - destruct (blt key (c_lower cur)) eqn:E1; [apply out_of_bounds; [|done]|destruct (ble (c_upper cur) key) eqn:E2].
    + unfold ahead. setoid_rewrite in_range_spec. intros k [[Hl _] Hk]. unfold ble in Hl. assert (blt k (c_lower cur) = true) as Hx by (destruct incl; [by eapply ble_blt_trans|by eapply blt_trans]). by rewrite Hx in Hl.
    + eapply clamped_step; [done|done| |intros k; by apply clamp_reverse|done]. split; [apply ble_lt_eq; by left|by right].
    + eapply clamped_step; [done|done| |done..]. split; [unfold ble; by rewrite E1|left]. rewrite blt_not_ble. by rewrite E2.
  - destruct (ble (c_upper cur) key) eqn:E1; [apply out_of_bounds; [|done]|destruct (blt key (c_lower cur)) eqn:E2].
    + unfold ahead. setoid_rewrite in_range_spec. intros k [[_ Hu] Hk]. assert (blt key (c_upper cur) = true) as Hx by (destruct incl; [by eapply ble_blt_trans|by eapply blt_trans]). unfold ble in E1. by rewrite Hx in E1.
    + eapply clamped_step; [done|done| |intros k; by apply clamp_forward|done]. split; [apply ble_refl|by left].
    + eapply clamped_step; [done|done| |done..]. split; [unfold ble; by rewrite E2|left]. rewrite blt_not_ble. by rewrite E1.
Qed.
End reads.
