(* ===== verification/OverlayCorrect.v ===== *)
(** * An execution branch as a map

    The invariant of a branch and what each operation does to the view it stands
    for: batches of mutations are applied whole or not at all, reads return the
    view, and a failure marks the branch for good. *)

From Stdlib Require Import Strings.Byte Sorted.
From stdpp Require Import gmap sorting.
From S2P Require Import Prelude Bytes TreeStore TreeStoreOrder Database DatabaseCorrect Overlay OverlayDelta OverlayCursor OverlayReads.

Section branch.
Context `{LawfulRocks}.

Abbreviation ops b := (operations (reads (overlay b))).
Abbreviation max_ops b := (max_read_operations (limits (overlay b))).

Record branch_ok (b : Branch) : Prop := {
  br_limits : limits_fit (limits (overlay b));
  br_delta : delta_ok (limits (overlay b)) (delta (overlay b));
  br_parked : parked_ok (base b);
  br_words : words_ok (touched (overlay b));
}.

(** What one operation may do to the touched set. *)
Definition touched_more (b b' : Branch) : Prop := forall k, marked (touched (overlay b)) k -> marked (touched (overlay b')) k.

(** Failing is for good, marks only grow, and the snapshot is the captured one. *)
Record step_ok (b b' : Branch) : Prop := {
  so_ok : branch_ok b -> branch_ok b';
  so_touched : words_ok (touched (overlay b)) -> words_ok (touched (overlay b')) /\ touched_more b b';
  so_snapshot db : snapshot (base b') = Some db -> snapshot (base b) = Some db;
  so_source : source (base b') = source (base b) /\ sequence (base b') = sequence (base b);
  so_failed : failed_execution (overlay b) = true -> failed_execution (overlay b') = true;
}.
(** The state a read does not change. *)
Definition same_writes (b b' : Branch) : Prop :=
  delta (overlay b') = delta (overlay b) /\ generation (overlay b') = generation (overlay b) /\ is_open (overlay b') = is_open (overlay b) /\ limits (overlay b') = limits (overlay b).

Lemma read_only_ok b b' : read_only b b' -> step_ok b b' /\ same_writes b b' /\ failed_execution (overlay b') = failed_execution (overlay b) /\ touched (overlay b') = touched (overlay b).
Proof.
  intros [Hp Hs Hsrc [Hd Hg] Hl Ho Hf Ht]. split; [|done]. constructor; [|intros Hw; rewrite Ht; split; [done|]; intros k; by rewrite Ht|done|done|by rewrite Hf].
  intros [H1 H2 H3 H4]. constructor; [by rewrite Hl|by rewrite Hl, Hd|by apply Hp|by rewrite Ht].
Qed.
#[export] Instance step_ok_refl : Reflexive step_ok.
Proof. intros b. by apply read_only_ok. Qed.
#[export] Instance step_ok_trans : Transitive step_ok.
Proof.
  intros a b c [A1 A2 A3 A4 A5] [B1 B2 B3 B4 B5]. constructor; [by auto| |by auto|intuition congruence|by auto].
  intros Hw. destruct (A2 Hw) as [Hw1 Ht1]. destruct (B2 Hw1) as [Hw2 Ht2]. split; [done|]. intros k Hk. by apply Ht2, Ht1.
Qed.
#[export] Instance same_writes_trans : Transitive same_writes.
Proof. intros a b c (?&?&?&?) (?&?&?&?). repeat split; congruence. Qed.

(** Changes of the overlay that keep the delta. *)
Lemma touch_ok (f : KeyPrefixSet -> KeyPrefixSet) b : (forall t, words_ok t -> words_ok (f t) /\ forall k, marked t k -> marked (f t) k) ->
  step_ok b (with_overlay (fun o => set_touched (f (touched o)) o) b).
Proof.
  intros Hf. constructor; cbn; try done; [|by apply Hf]. intros [H1 H2 H3 H4]. constructor; cbn; try done. by apply Hf.
Qed.
Lemma mark_key_step key t : words_ok t -> words_ok (mark_key t key) /\ forall k, marked t k -> marked (mark_key t key) k.
Proof. intros Hw. split; [by apply mark_key_words|]. intros k. by apply mark_key_mono. Qed.
Lemma mark_range_step lo hi t : words_ok t -> words_ok (mark_range t lo hi) /\ forall k, marked t k -> marked (mark_range t lo hi) k.
Proof. intros Hw. split; [by apply mark_range_words|]. intros k. by apply mark_range_mono. Qed.
Lemma cursors_ok n b : step_ok b (with_overlay (fun o => set_cursors (n o) o) b).
Proof. constructor; cbn; try done; [by intros [H1 H2 H3 H4]; constructor|]. intros Hw. by split; [|intros k]. Qed.
Lemma fail_ok b : step_ok b (with_overlay fail_overlay b).
Proof. constructor; cbn; try done; [by intros [H1 H2 H3 H4]; constructor|]. intros Hw. by split; [|intros k]. Qed.

(** [observe]: a success passes, a failure marks. *)
Lemma observe_spec {A} (m : st Branch A) b r b' : observe m b = (r, b') ->
  exists b1, m b = (r, b1) /\ match r with Ok _ => b' = b1 | _ => b' = with_overlay fail_overlay b1 end.
Proof. unfold observe. destruct (m b) as [[a|e|] b1]; intros [= <- <-]; by exists b1. Qed.

(** ** Mutations *)

Lemma mark_op_step op t : words_ok t -> words_ok (mark_op op t) /\ forall k, marked t k -> marked (mark_op op t) k.
Proof. destruct op; cbn [mark_op]; [apply mark_key_step..|apply mark_range_step]. Qed.

Lemma apply_loop_spec muts : forall d b r b', apply_loop d muts b = (r, b') ->
  step_ok b b' /\ same_writes b b' /\ failed_execution (overlay b') = failed_execution (overlay b) /\
  (limits_fit (limits (overlay b)) -> delta_ok (limits (overlay b)) d ->
   match r with
   | Ok d' => delta_ok (limits (overlay b)) d' /\ forall m, view_of d' m = foldl apply_kv (view_of d m) muts
   | Err _ => True
   | Panic => False
   end).
Proof.
  induction muts as [|op muts IH]; intros d b r b'; cbn [apply_loop].
  - intros [= <- <-]. split; [reflexivity|]. split; [done|]. split; [done|]. intros Hl Hd. by split.
  - intros [(u & b1 & E1 & Ef)|(r0 & E1 & Hr0 & _ & _)]%bind_cases; [|injection E1 as <- _; by destruct (Hr0 tt)]. injection E1 as _ <-.
    set (b1 := with_overlay (fun o => set_touched (mark_op op (touched o)) o) b) in *. pose proof (touch_ok (mark_op op) b (mark_op_step op)) as Ht. fold b1 in Ht.
    assert (Hmut : limits_fit (limits (overlay b)) -> delta_ok (limits (overlay b)) d -> mutate (limits (overlay b)) d op <> Panic) by apply mutate_total.
    apply bind_cases in Ef as [(d1 & b2 & E2 & Ef)|(r0 & E2 & Hr0 & Hr & Hpa)]; unfold st_read in E2; injection E2 as E2 <-.
    + apply IH in Ef as (H1 & H2 & H3 & H4). split; [by etransitivity|]. split; [done|]. split; [done|]. intros Hl Hd. cbn in E2, H4. destruct (mutate_ok _ _ _ _ Hl Hd E2) as [Hd1 Hv].
      specialize (H4 Hl Hd1). destruct r as [d'|e|]; [|done..]. destruct H4 as [Hd' Hv']. split; [done|]. intros m. cbn [foldl]. by rewrite Hv', Hv.
    + split; [done|]. split; [done|]. split; [done|]. intros Hl Hd. destruct r as [a|e|]; [by destruct (Hr a)|done|]. cbn in E2. by rewrite (Hpa eq_refl) in E2; apply Hmut in E2.
Qed.

(** A batch is applied whole, or the delta stays as it was and the branch is
    marked. *)
Lemma apply_spec muts b r b' : branch_ok b -> apply muts b = (r, b') ->
  step_ok b b' /\ limits (overlay b') = limits (overlay b) /\ is_open (overlay b') = is_open (overlay b) /\
  match r with
  | Ok _ => is_open (overlay b) = true /\ failed_execution (overlay b') = failed_execution (overlay b) /\
      forall m, view_of (delta (overlay b')) m = foldl apply_kv (view_of (delta (overlay b)) m) muts
  | _ => same_writes b b' /\ failed_execution (overlay b') = true
  end.
Proof.
  intros Hb (b1 & E & Hobs)%observe_spec. unfold apply_inner in E.
  apply bind_cases in E as [(u & b2 & [-> Ho]%check_spec & Ef)|(r0 & [-> Ho]%check_spec & Hr0 & Hr & _)].
  2: { destruct r as [a|e|]; [by destruct (Hr a)|..]; subst b'; (split; [apply fail_ok|by repeat split]). }
  destruct muts as [|op muts]; [injection Ef as <- <-; subst b'; split; [reflexivity|done]|]. rewrite (bind_ok _ _ _ _ _ (eq_refl : st_read (fun b => Ok (delta (overlay b))) b = (Ok (delta (overlay b)), b))) in Ef.
  apply bind_cases in Ef as [(d' & b2 & E2 & Ef)|(r0 & E2 & Hr0 & Hr & _)]; apply apply_loop_spec in E2 as (H1 & (Ed & Eg & Eo & El) & H3 & H4).
  2: { destruct r as [a|e|]; [by destruct (Hr a)|..]; subst b'; (split; [etransitivity; [exact H1|apply fail_ok]|by repeat split]). }
  destruct (H4 (br_limits _ Hb) (br_delta _ Hb)) as [Hd' Hv].
  apply bind_cases in Ef as [(g & b3 & E3 & Ef)|(r0 & E3 & Hr0 & Hr & _)]; unfold st_read in E3; injection E3 as E3 <-.
  2: { destruct r as [a|e|]; [by destruct (Hr a)|..]; subst b'; (split; [etransitivity; [exact H1|apply fail_ok]|by repeat split]). }
  injection Ef as <- <-. subst b'. split; [|split; [done|]; split; [done|]; split; [done|]; split; [done|exact Hv]].
  etransitivity; [exact H1|]. constructor; cbn; try done; [|intros Hw; by split; [|intros k]]. intros [B1 B2 B3 B4]. constructor; cbn; try done. by rewrite El.
Qed.

(** ** Reads *)

(** Why a point read fails. *)
Definition get_refused (c : Clock) (d : Delta) (key : bytes) (b : Branch) : Prop :=
  snapshot (base b) = None \/ expired c (base b) = true \/
  (exists db, snapshot (base b) = Some db /\ forall r, rocks_get db key <> Ok r) \/ (exists db v, snapshot (base b) = Some db /\ view_at d (rocks_map db) key = Some v /\ oversized b (key, v)).

(** A value that is paid for. *)
Lemma pay_value_spec key v b r b' : (charge (fun l => record l key v) ≫= fun _ => mret (Some v)) b = (r, b') ->
  read_only b b' /\ match r with Ok o => o = Some v | _ => oversized b (key, v) end.
Proof.
  intros [(u & b1 & E & Ef)|(r0 & E & Hr0 & Hr & _)]%bind_cases; (change (charge (fun l => record l key v) b) with (pay_row (Some (key, v)) b) in E); apply pay_row_spec in E as (Hro & _ & Hx).
  - by injection Ef as <- <-.
  - split; [done|]. destruct r as [a|e|]; [by destruct (Hr a)|..]; (destruct r0 as [a|?|]; [by destruct (Hr0 a)|..]; by destruct Hx as (? & [= <-] & ?)).
Qed.

(** What a read of [key] on the branch finds, without or with the snapshot. *)
Definition found (d : Delta) (key : bytes) (o : option bytes) (b : Branch) : Prop :=
  (forall m, view_at d m key = o) \/ exists db, snapshot (base b) = Some db /\ view_at d (rocks_map db) key = o.

Lemma get_body_spec c key d b r b' : apart (ranges d) ->
  match points d !! key with
  | Some (Some value) => charge (fun l => record l key value) ≫= fun _ => mret (Some value)
  | Some None => mret None
  | None =>
      if covering_range d key then mret None
      else on_base (view c) ≫= fun db => st_read (fun _ => rocks_get db key) ≫= fun value =>
        match value with Some value => charge (fun l => record l key value) ≫= fun _ => mret (Some value) | None => mret None end
  end b = (r, b') ->
  read_only b b' /\ match r with Ok o => found d key o b | _ => get_refused c d key b \/ exists v, points d !! key = Some (Some v) /\ oversized b (key, v) end.
Proof.
  intros Ha. unfold found, view_at. destruct (points d !! key) as [[v|]|] eqn:Ep.
  - intros [Hro Hr]%pay_value_spec. split; [done|]. destruct r as [o|?|]; [by left|right; by exists v..].
  - intros [= <- <-]. split; [done|by left].
  - destruct (covering_range d key) as [rg|] eqn:Ec; [intros [= <- <-]; split; [done|by left]|].
    intros [(db & b1 & [Hro [-> Hs]]%view_spec & Ef)|(r0 & [Hro Hv]%view_spec & Hr0 & Hr & _)]%bind_cases.
    2: { split; [done|]. destruct r0 as [a0|?|]; [by destruct (Hr0 a0)|..]; (destruct r as [a|?|]; [by destruct (Hr a)|..]; left; unfold get_refused; tauto). }
    apply bind_cases in Ef as [(value & b1 & E & Ef)|(r0 & E & Hr0 & Hr & _)]; unfold st_read in E; injection E as E <-.
    2: { split; [done|]. destruct r as [a|?|]; [by destruct (Hr a)|..]; (left; right; right; left; exists db; split; [done|]; intros x Hx; apply (Hr0 x); congruence). }
    pose proof (rocks_get_map _ _ _ E) as Em. destruct value as [v|]; [|injection Ef as <- <-; split; [done|]; right; by exists db].
    apply pay_value_spec in Ef as [Hro' Hr]. split; [done|]. destruct r as [o|?|]; [right; exists db; by rewrite Hr|..]; (left; right; right; right; exists db, v; split; [done|]; unfold view_at; by rewrite Ep, Ec).
Qed.

Definition get_result (c : Clock) (d : Delta) (key : bytes) (b : Branch) (r : outcome (option bytes)) (b' : Branch) : Prop :=
  match r with
  | Ok o => found d key o b /\ marked (touched (overlay b')) key /\ failed_execution (overlay b') = failed_execution (overlay b)
  | _ => failed_execution (overlay b') = true /\ (barred key b \/ get_refused c d key b \/ exists v, points d !! key = Some (Some v) /\ oversized b (key, v))
  end.

Lemma get_at_spec c key v b r b' : branch_ok b -> apart (ranges (default (delta (overlay b)) v)) -> get_at c key v b = (r, b') ->
  step_ok b b' /\ same_writes b b' /\ get_result c (default (delta (overlay b)) v) key b r b'.
Proof.
  intros Hb Ha (b1 & E & Hobs)%observe_spec. unfold get_at_inner in E.
  assert (Hfail : (forall a, r <> Ok a) -> step_ok b b1 -> same_writes b b1 -> (barred key b \/ get_refused c (default (delta (overlay b)) v) key b \/ exists x, points (default (delta (overlay b)) v) !! key = Some (Some x) /\ oversized b (key, x)) ->
    step_ok b b' /\ same_writes b b' /\ get_result c (default (delta (overlay b)) v) key b r b').
  { intros Hr H1 H2 H3. destruct r as [a|?|]; [by destruct (Hr a)|..]; subst b'; (split; [etransitivity; [exact H1|apply fail_ok]|done]). }
  apply bind_cases in E as [(u & b2 & [-> Hlen]%check_spec & Ef)|(r0 & [-> Hlen]%check_spec & Hr0 & Hr & _)].
  2: { apply Hfail; [done|reflexivity|done|]. left. left. destruct r0 as [a0|?|]; [by destruct (Hr0 a0)|..]; bool_to_prop; lia. }
  rewrite (bind_ok _ _ b tt (with_overlay (fun o => set_touched (mark_key (touched o) key) o) b)) in Ef by done.
  set (b2 := with_overlay (fun o => set_touched (mark_key (touched o) key) o) b) in *. pose proof (touch_ok (fun t => mark_key t key) b (mark_key_step key)) as Ht. fold b2 in Ht.
  rewrite (bind_ok _ _ b2 (default (delta (overlay b)) v) b2) in Ef by done. set (d := default (delta (overlay b)) v) in *.
  apply bind_cases in Ef as [(u' & b3 & [-> Ho]%check_spec & Ef)|(r0 & [-> Ho]%check_spec & Hr0 & Hr & _)].
  2: { apply Hfail; [done..|]. left. right. left. by destruct r0 as [a0|?|]; [destruct (Hr0 a0)|..]. }
  apply bind_cases in Ef as [(u'' & b3 & ->%charge_operation & Ef)|(r0 & Hc%charge_operation & Hr0 & Hr & _)].
  2: { destruct r0 as [a0|?|]; [by destruct (Hr0 a0)|..]; destruct Hc as [-> Hc]; (apply Hfail; [done..|]; left; right; by right). }
  apply (get_body_spec c key d) in Ef as [Hro Hr]; [|done]. assert (Hro2 : read_only b2 b1) by (etransitivity; [|exact Hro]; by constructor).
  apply read_only_ok in Hro2 as (Hst & Hsw & Hf & Ht1). assert (Hstep : step_ok b b1) by (by etransitivity).
  destruct r as [o|?|].
  - subst b'. split; [done|]. split; [done|]. split; [done|]. split; [|done]. rewrite Ht1. apply mark_key_self, Hb.
  - apply Hfail; [done..|]. destruct Hr as [Hr|Hr]; right; [by left|by right].
  - apply Hfail; [done..|]. destruct Hr as [Hr|Hr]; right; [by left|by right].
Qed.

(** ** Cursors and views *)

Definition opened (lower upper : bytes) (d : Delta) (b : Branch) (r : outcome OverlayCursor) (b' : Branch) : Prop :=
  match r with
  | Ok cur => cur = mkCursor d lower upper None false /\ blt lower upper = true /\
      (forall k, in_range lower upper k = true -> marked (touched (overlay b')) k) /\ failed_execution (overlay b') = failed_execution (overlay b)
  | _ => failed_execution (overlay b') = true
  end.
Lemma cursor_at_spec lower upper v b r b' : branch_ok b -> cursor_at lower upper v b = (r, b') ->
  step_ok b b' /\ same_writes b b' /\ opened lower upper (default (delta (overlay b)) v) b r b'.
Proof.
  intros Hb (b1 & E & Hobs)%observe_spec. unfold cursor_at_inner in E.
  assert (Hfail : (forall a, r <> Ok a) -> b1 = b -> step_ok b b' /\ same_writes b b' /\ opened lower upper (default (delta (overlay b)) v) b r b').
  { intros Hr ->. destruct r as [a|?|]; [by destruct (Hr a)|..]; subst b'; by split; [apply fail_ok|]. }
  apply bind_cases in E as [(u & b2 & E1 & Ef)|(r0 & E1 & Hr0 & Hr & _)]; unfold st_read in E1; injection E1 as E1 <-; [|by apply Hfail]. destruct u. apply ensure_ok in E1.
  apply bind_cases in Ef as [(u & b2 & [-> _]%check_spec & Ef)|(r0 & [-> _]%check_spec & Hr0 & Hr & _)]; [|by apply Hfail].
  apply bind_cases in Ef as [(u' & b2 & [-> _]%check_spec & Ef)|(r0 & [-> _]%check_spec & Hr0 & Hr & _)]; [|by apply Hfail].
  apply bind_cases in Ef as [(u'' & b2 & [-> _]%check_spec & Ef)|(r0 & [-> _]%check_spec & Hr0 & Hr & _)]; [|by apply Hfail].
  injection Ef as <- <-. subst b'. split; [etransitivity; [apply (touch_ok (fun t => mark_range t lower upper) b (mark_range_step lower upper))|apply (cursors_ok (fun o => cursors o + 1))]|].
  split; [done|]. split; [done|]. split; [done|]. split; [|done]. intros k Hk. apply mark_range_self; [apply Hb|done].
Qed.

Lemma read_view_spec b r b' : read_view b = (r, b') -> step_ok b b' /\ same_writes b b' /\
  match r with Ok d => d = delta (overlay b) /\ failed_execution (overlay b') = failed_execution (overlay b) | _ => failed_execution (overlay b') = true end.
Proof.
  intros (b1 & E & Hobs)%observe_spec. unfold read_view_inner in E.
  apply bind_cases in E as [(u & b2 & [-> _]%check_spec & Ef)|(r0 & [-> _]%check_spec & Hr0 & Hr & _)].
  2: { destruct r as [a|?|]; [by destruct (Hr a)|..]; subst b'; by split; [apply fail_ok|]. }
  apply bind_cases in Ef as [(u' & b2 & [-> _]%check_spec & Ef)|(r0 & [-> _]%check_spec & Hr0 & Hr & _)].
  2: { destruct r as [a|?|]; [by destruct (Hr a)|..]; subst b'; by split; [apply fail_ok|]. }
  injection Ef as <- <-. subst b'. by split; [apply (cursors_ok (fun o => cursors o + 1))|].
Qed.

(** A cursor on one delta of the branch. *)
Record cursor_ok (b : Branch) (cur : OverlayCursor) : Prop := {
  cu_apart : apart (ranges (c_delta cur));
  cu_bounds : blt (c_lower cur) (c_upper cur) = true;
  cu_marked k : in_range (c_lower cur) (c_upper cur) k = true -> marked (touched (overlay b)) k;
}.

Lemma move_spec c cur key rev incl b r cur' b' : branch_ok b -> cursor_ok b cur -> position_cursor c cur key rev incl b = (r, (cur', b')) ->
  step_ok b b' /\ same_writes b b' /\ touched (overlay b') = touched (overlay b) /\
  exists row, cur' = set_row row cur /\
  match r with
  | Ok _ => read_result c cur key rev incl b (Ok row) b' /\ failed_execution (overlay b') = failed_execution (overlay b)
  | _ => row = None /\ failed_execution (overlay b') = true /\ (barred key b \/ refused c (c_delta cur) (c_lower cur) (c_upper cur) b)
  end.
Proof.
  intros Hb Hc. unfold position_cursor. destruct (observe _ b) as [r1 b2] eqn:Eo. apply observe_spec in Eo as (b1 & E & Hobs).
  apply position_inner_spec in E as [Hro Hr]; [|exact (cu_apart _ _ Hc)|exact (cu_bounds _ _ Hc)|exact (br_parked _ Hb)]. pose proof Hro as (Hst & Hsw & Hf & Ht)%read_only_ok. destruct r1 as [row|e|]; intros [= <- <- <-]; subst b2.
  - split; [done|]. split; [done|]. split; [done|]. exists row. split; [done|]. by split.
  - split; [etransitivity; [exact Hst|apply fail_ok]|]. split; [done|]. split; [done|]. by exists None.
  - split; [etransitivity; [exact Hst|apply fail_ok]|]. split; [done|]. split; [done|]. by exists None.
Qed.
End branch.
