(* ===== verification/Publication.v ===== *)
(** * Execution and publication

    A branch captured from the database runs reads, scans and writes while other
    writers go on; its plan is accepted only if nothing it touched was written.  An
    accepted execution is serializable: it behaves as if it had run alone on the
    database it was published to. *)

From Stdlib Require Import Strings.Byte Sorted.
From stdpp Require Import gmap sorting.
From S2P Require Import Prelude Bytes TreeStore TreeStoreOrder Database DatabaseCorrect Overlay OverlayDelta OverlayCursor OverlayReads OverlayCorrect.

Section publication.
Context `{LawfulRocks}.

(** ** Executions

    A branch with its open views and cursors.  Each operation records what it
    returned; [EFail] is any operation that failed. *)

Inductive event : Type :=
| EGet (key : bytes) (value : option bytes)
| EApply (mutations : list kv_op)
| EView (v : nat)
| EGetAt (v : nat) (key : bytes) (value : option bytes)
| EOpen (i : nat) (v : option nat) (guarded : bool) (lower upper : bytes)
| EMove (i : nat) (key : bytes) (reverse inclusive : bool) (row : option (bytes * bytes))
| EDrop
| EFork
| EFail.

Record Run : Type := mkRun { branch : Branch; views : gmap nat Delta; open_cursors : gmap nat OverlayCursor }.

(** The delta a cursor is opened on: the branch's own or that of a view. *)
Definition view_delta (s : Run) (v : option nat) : option (option Delta) :=
  match v with None => Some None | Some v => Some <$> views s !! v end.
Definition guard_cursor (guarded : bool) (cur : OverlayCursor) : OverlayCursor :=
  mkCursor (c_delta cur) (c_lower cur) (c_upper cur) (c_row cur) guarded.

Inductive run_step : Run -> event -> Run -> Prop :=
| run_get s c k o b' : get c k (branch s) = (Ok o, b') -> run_step s (EGet k o) (mkRun b' (views s) (open_cursors s))
| run_apply s muts u b' : apply muts (branch s) = (Ok u, b') -> run_step s (EApply muts) (mkRun b' (views s) (open_cursors s))
| run_view s v d b' : read_view (branch s) = (Ok d, b') -> run_step s (EView v) (mkRun b' (<[v := d]> (views s)) (open_cursors s))
| run_get_at s c v d k o b' : views s !! v = Some d -> get_at c k (Some d) (branch s) = (Ok o, b') -> run_step s (EGetAt v k o) (mkRun b' (views s) (open_cursors s))
| run_open s i v d guarded lower upper cur b' : view_delta s v = Some d -> cursor_at lower upper d (branch s) = (Ok cur, b') ->
    run_step s (EOpen i v guarded lower upper) (mkRun b' (views s) (<[i := guard_cursor guarded cur]> (open_cursors s)))
| run_move s c i cur key rev incl u cur' b' : open_cursors s !! i = Some cur -> position_cursor c cur key rev incl (branch s) = (Ok u, (cur', b')) ->
    run_step s (EMove i key rev incl (c_row cur')) (mkRun b' (views s) (<[i := cur']> (open_cursors s)))
| run_drop s : run_step s EDrop (mkRun (drop_handle (branch s)) (views s) (open_cursors s))
| run_fork s l active family_limit o n : fork (overlay (branch s)) l active family_limit = Ok (o, n) ->
    run_step s EFork (mkRun (mkBranch (base (branch s)) o) (views s) (open_cursors s))
| run_fail_get s c k v r b' : (forall o, r <> Ok o) -> (forall d, v = Some d -> exists i, views s !! i = Some d) -> get_at c k v (branch s) = (r, b') -> run_step s EFail (mkRun b' (views s) (open_cursors s))
| run_fail_apply s muts r b' : (forall u, r <> Ok u) -> apply muts (branch s) = (r, b') -> run_step s EFail (mkRun b' (views s) (open_cursors s))
| run_fail_view s r b' : (forall d, r <> Ok d) -> read_view (branch s) = (r, b') -> run_step s EFail (mkRun b' (views s) (open_cursors s))
| run_fail_open s d lower upper r b' : (forall u, r <> Ok u) -> cursor_at lower upper d (branch s) = (r, b') -> run_step s EFail (mkRun b' (views s) (open_cursors s))
| run_fail_move s c i cur key rev incl r cur' b' : (forall u, r <> Ok u) -> open_cursors s !! i = Some cur -> position_cursor c cur key rev incl (branch s) = (r, (cur', b')) ->
    run_step s EFail (mkRun b' (views s) (<[i := cur']> (open_cursors s))).

Inductive run_steps : Run -> list event -> Run -> Prop :=
| run_nil s : run_steps s [] s
| run_cons s e s1 es s2 : run_step s e s1 -> run_steps s1 es s2 -> run_steps s (e :: es) s2.

(** ** The same execution on a map

    A view is a copy of the map, a cursor a copy with bounds. *)

Record Spec : Type := mkSpec { contents : gmap bytes bytes; copies : gmap nat (gmap bytes bytes); scans : gmap nat (gmap bytes bytes * bytes * bytes) }.

Definition copy_of (s : Spec) (v : option nat) : option (gmap bytes bytes) := match v with None => Some (contents s) | Some v => copies s !! v end.

Inductive spec_step : Spec -> event -> Spec -> Prop :=
| spec_get s k : spec_step s (EGet k (contents s !! k)) s
| spec_apply s muts : spec_step s (EApply muts) (mkSpec (foldl apply_kv (contents s) muts) (copies s) (scans s))
| spec_view s v : spec_step s (EView v) (mkSpec (contents s) (<[v := contents s]> (copies s)) (scans s))
| spec_get_at s v m k : copies s !! v = Some m -> spec_step s (EGetAt v k (m !! k)) s
| spec_open s i v guarded m lower upper : copy_of s v = Some m -> spec_step s (EOpen i v guarded lower upper) (mkSpec (contents s) (copies s) (<[i := (m, lower, upper)]> (scans s)))
| spec_move s i m lower upper key rev incl row : scans s !! i = Some (m, lower, upper) ->
    nearest rev (fun e => m !! e.1 = Some e.2 /\ ahead lower upper key rev incl e.1) row -> spec_step s (EMove i key rev incl row) s
| spec_drop s : spec_step s EDrop s
| spec_fork s : spec_step s EFork s.

Inductive spec_steps : Spec -> list event -> Spec -> Prop :=
| spec_nil s : spec_steps s [] s
| spec_cons s e s1 es s2 : spec_step s e s1 -> spec_steps s1 es s2 -> spec_steps s (e :: es) s2.

(** ** Invariant of a run *)

Record run_ok (s : Run) : Prop := {
  rn_branch : branch_ok (branch s);
  rn_views v d : views s !! v = Some d -> apart (ranges d);
  rn_cursors i cur : open_cursors s !! i = Some cur -> cursor_ok (branch s) cur;
}.

Lemma cursor_ok_step b b' cur : branch_ok b -> step_ok b b' -> cursor_ok b cur -> cursor_ok b' cur.
Proof. intros Hb Hs [H1 H2 H3]. constructor; [done..|]. intros k Hk. apply (so_touched _ _ Hs); [apply Hb|by apply H3]. Qed.

Lemma run_ok_branch s b' : run_ok s -> step_ok (branch s) b' -> run_ok (mkRun b' (views s) (open_cursors s)).
Proof.
  intros [H1 H2 H3] Hs. constructor; cbn; [by apply (so_ok _ _ Hs)|done|]. intros i cur Hi. eapply cursor_ok_step; [done|done|by eapply H3].
Qed.

(** ** Forks *)

Lemma total_elem {V} (f : bytes * V -> Z) (m : gmap bytes V) k v : (forall e, 0 <= f e) -> m !! k = Some v -> f (k, v) <= total f m.
Proof. intros Hf Hk. rewrite (total_delete f m k v Hk). pose proof (total_nonneg f Hf (base.delete k m)). lia. Qed.

Lemma inherit_points_ok l ps : forall r r', inherit_points l r ps = Ok r' -> forall k v, (k, v) ∈ ps -> sat_add_u64 (blen k) (value_len v) <= max_record_bytes l.
Proof.
  induction ps as [|[k0 v0] ps IH]; intros r r'; cbn [inherit_points]; [intros _ k v Hk; by apply not_elem_of_nil in Hk|].
  destruct (operation l r) as [r1|e|]; [|done..]. cbn [mbind outcome_bind]. destruct (sat_add_u64 _ _ <=? _) eqn:E; cbn [ensure mbind outcome_bind]; [|done]. bool_to_prop.
  intros Hi k v [[= -> ->]|Hk]%elem_of_cons; [done|by eapply IH].
Qed.

Lemma fork_spec b l active family o n : branch_ok b -> fork (overlay b) l active family = Ok (o, n) ->
  let b' := mkBranch (base b) o in
  step_ok b b' /\ delta o = delta (overlay b) /\ touched o = touched (overlay b) /\ failed_execution o = failed_execution (overlay b).
Proof.
  intros Hb. unfold fork. intros E. step_ok E. destruct (inherit_points l _ (in_order (points _))) as [r1|?|] eqn:E1; [|done..]. cbn [mbind outcome_bind] in E.
  destruct (inherit_points l r1 _) as [r2|?|] eqn:E2; [|done..]. cbn [mbind outcome_bind] in E. destruct (acquire_fork _ _ _) as [n'|?|]; [|done..]. injection E as <- <-. cbn zeta. split; [|done].
  constructor; cbn; try done; [|intros Hw; by split; [|intros k]]. intros [B1 B2 B3 B4]. unfold tightens in *. bool_to_prop. unfold limits_fit in *. constructor; cbn; try done; [unfold limits_fit; lia|].
  pose proof (ok_bytes _ _ B2) as Hbytes. pose proof (total_nonneg point_size point_size_nonneg (points (delta (overlay b)))). pose proof (total_nonneg range_size range_size_nonneg (ranges (delta (overlay b)))).
  constructor; [apply B2|apply B2|done|..].
  - intros k v Hk. pose proof (inherit_points_ok _ _ _ _ E1 k v ltac:(by apply elem_in_order)) as Hs. pose proof (total_elem point_size _ k v point_size_nonneg Hk) as Ht.
    change (point_size (k, v)) with (blen k + value_len v) in *. unfold sat_add_u64 in Hs. lia.
  - intros x y Hk. pose proof (inherit_points_ok _ _ _ _ E2 x (Some y)) as Hs. cbn [value_len] in Hs. rewrite list_elem_of_fmap in Hs. specialize (Hs ltac:(exists (x, y); split; [done|by apply elem_in_order])).
    pose proof (total_elem range_size _ x y range_size_nonneg Hk) as Ht. change (range_size (x, y)) with (blen x + blen y) in *. unfold sat_add_u64 in Hs. lia.
Qed.

Lemma run_step_ok s e s' : run_ok s -> run_step s e s' ->
  run_ok s' /\ step_ok (branch s) (branch s') /\ (failed_execution (overlay (branch s')) = false -> e <> EFail).
Proof.
  intros Hs Hst. pose proof (rn_branch _ Hs) as Hb.
  assert (Hd : apart (ranges (delta (overlay (branch s))))) by (apply (ok_apart _ _ (br_delta _ Hb))).
  assert (Hmv : forall i cur row b', open_cursors s !! i = Some cur -> step_ok (branch s) b' -> run_ok (mkRun b' (views s) (<[i := set_row row cur]> (open_cursors s)))).
  { intros i cur row b' Hi Hb'. destruct (run_ok_branch s b' Hs Hb') as [R1 R2 R3]. constructor; [done..|]. cbn in *. intros j cur0. rewrite lookup_insert_Some. intros [[<- <-]|[_ Hj]]; [|by apply (R3 j)]. destruct (R3 i cur Hi). by constructor. }
  destruct Hst as [s c k o b' E|s muts u b' E|s v d b' E|s c v d k o b' Hv E|s i v d guarded lower upper cur b' Hv E|s c i cur key rev incl u cur' b' Hi E|s|s l active fam o n E
    |s c k v r b' Hr Hv E|s muts r b' Hr E|s r b' Hr E|s d lower upper r b' Hr E|s c i cur key rev incl r cur' b' Hr Hi E]; cbn [branch].
  - apply get_at_spec in E as (H1 & _ & _); [|done..]. by split; [apply run_ok_branch|].
  - apply apply_spec in E as (H1 & _); [|done]. by split; [apply run_ok_branch|].
  - apply read_view_spec in E as (H1 & _ & -> & _). split; [|done]. destruct (run_ok_branch s b' Hs H1) as [R1 R2 R3]. constructor; [done| |done]. cbn. intros w d. rewrite lookup_insert_Some. intros [[_ <-]|[_ Hw]]; [done|by apply (R2 w)].
  - apply get_at_spec in E as (H1 & _ & _); [|done|by apply (rn_views _ Hs v)]. by split; [apply run_ok_branch|].
  - apply cursor_at_spec in E as (H1 & _ & -> & Hlu & Hm & _); [|done]. split; [|done]. destruct (run_ok_branch s b' Hs H1) as [R1 R2 R3]. constructor; [done..|]. cbn. intros j cur. rewrite lookup_insert_Some. intros [[_ <-]|[_ Hj]]; [|by apply (R3 j)].
    constructor; cbn; [|done..]. destruct v as [v|]; cbn in Hv; [|injection Hv as <-; done]. apply fmap_Some in Hv as (d' & Hd' & ->). by apply (rn_views _ Hs v).
  - apply move_spec in E as (H1 & _ & _ & row & -> & _); [|done|by apply (rn_cursors _ Hs i)]. by split; [apply Hmv|].
  - split; [apply run_ok_branch; [done|]|split; [|done]]; apply (cursors_ok (fun o => sat_sub_u64 (cursors o) 1)).
  - apply fork_spec in E as (H1 & _); [|done]. by split; [apply run_ok_branch|].
  - apply get_at_spec in E as (H1 & _ & Hg); [|done|destruct v as [d|]; [destruct (Hv d eq_refl) as [w Hw]; by apply (rn_views _ Hs w)|done]]. split; [by apply run_ok_branch|]. split; [done|].
    destruct r as [a|?|]; [by destruct (Hr a)|..]; destruct Hg as [Hg _]; congruence.
  - apply apply_spec in E as (H1 & _ & _ & Hg); [|done]. split; [by apply run_ok_branch|]. split; [done|]. destruct r as [a|?|]; [by destruct (Hr a)|..]; destruct Hg as [_ Hg]; congruence.
  - apply read_view_spec in E as (H1 & _ & Hg). split; [by apply run_ok_branch|]. split; [done|]. destruct r as [a|?|]; [by destruct (Hr a)|..]; congruence.
  - apply cursor_at_spec in E as (H1 & _ & Hg); [|done]. split; [by apply run_ok_branch|]. split; [done|]. destruct r as [a|?|]; [by destruct (Hr a)|..]; cbn in Hg; congruence.
  - apply move_spec in E as (H1 & _ & _ & row & -> & Hg); [|done|by apply (rn_cursors _ Hs i)]. split; [by apply Hmv|]. split; [done|]. destruct r as [a|?|]; [by destruct (Hr a)|..]; destruct Hg as (_ & Hg & _); congruence.
Qed.

(** ** Simulation

    The branch stands over its snapshot, the map execution over the database [m]
    the plan is published to; they agree on every key the branch touches. *)

Record sim (m : gmap bytes bytes) (s : Run) (t : Spec) : Prop := {
  sim_contents : contents t = view_of (delta (overlay (branch s))) m;
  sim_copies v : copies t !! v = (fun d => view_of d m) <$> views s !! v;
  sim_scans i : scans t !! i = (fun cur => (view_of (c_delta cur) m, c_lower cur, c_upper cur)) <$> open_cursors s !! i;
}.

Definition agrees (t : KeyPrefixSet) (m m' : gmap bytes bytes) : Prop := forall k, marked t k -> m !! k = m' !! k.

Lemma view_agrees d m m' k : m !! k = m' !! k -> view_at d m k = view_at d m' k.
Proof. intros E. unfold view_at. by rewrite E. Qed.

Lemma found_agrees d key o b m m0 : apart (ranges d) -> found d key o b -> (forall db, snapshot (base b) = Some db -> rocks_map db = m0) -> m !! key = m0 !! key -> view_of d m !! key = o.
Proof.
  intros Ha Hf Hdb Hk. rewrite view_of_at by done. destruct Hf as [Hf|(db & Hs & <-)]; [by apply Hf|]. rewrite (Hdb _ Hs). by apply view_agrees.
Qed.

Lemma moved_agrees c cur key rev incl b row b' m m0 : apart (ranges (c_delta cur)) -> read_result c cur key rev incl b (Ok row) b' ->
  (forall db, snapshot (base b) = Some db -> rocks_map db = m0) -> (forall k, in_range (c_lower cur) (c_upper cur) k = true -> m !! k = m0 !! k) ->
  nearest rev (fun e => view_of (c_delta cur) m !! e.1 = Some e.2 /\ ahead (c_lower cur) (c_upper cur) key rev incl e.1) row.
Proof.
  intros Ha [_ Hr] Hdb Hag. destruct Hr as [(db & Hs & Hn)|[-> Hn]].
  - eapply nearest_ext; [|exact Hn]. intros x. unfold in_view. rewrite view_of_at by done. rewrite (Hdb _ Hs). split; (intros [Hv Hah]; split; [|done]); rewrite <- Hv; [|symmetry]; apply view_agrees, Hag, Hah.
  - intros x [_ Hx]. by apply (Hn x.1).
Qed.

Lemma sim_step m0 m s e s' t : run_ok s -> run_step s e s' -> e <> EFail ->
  (forall db, snapshot (base (branch s)) = Some db -> rocks_map db = m0) -> agrees (touched (overlay (branch s'))) m m0 -> sim m s t ->
  exists t', spec_step t e t' /\ sim m s' t'.
Proof.
  intros Hs Hst Hnf Hdb Hag [Hc Hv Hi]. pose proof (rn_branch _ Hs) as Hb. assert (Hd : apart (ranges (delta (overlay (branch s))))) by (apply (ok_apart _ _ (br_delta _ Hb))).
  destruct Hst as [s c k o b' E|s muts u b' E|s v d b' E|s c v d k o b' Hvd E|s i v d guarded lower upper cur b' Hvd E|s c i cur key rev incl u cur' b' Hcur E|s|s l active fam o n E| | | | |]; try done; cbn [branch views open_cursors] in *.
  - apply get_at_spec in E as (_ & (Ed & _) & Hf & Hm & _); [|done..]. exists t. split; [|by constructor; cbn; rewrite ?Ed].
    assert (Eo : contents t !! k = o) by (rewrite Hc; by eapply found_agrees; [| | |apply Hag]). rewrite <- Eo. constructor.
  - apply apply_spec in E as (_ & _ & _ & _ & _ & Hview); [|done]. eexists. split; [constructor|]. constructor; cbn; [by rewrite Hview, Hc|done..].
  - apply read_view_spec in E as (_ & (Ed & _) & -> & _). eexists. split; [constructor|]. constructor; cbn; [by rewrite Ed| |done]. intros w. destruct (decide (w = v)) as [->|]; [by rewrite !lookup_insert_eq, Hc|by rewrite !lookup_insert_ne].
  - pose proof (rn_views _ Hs _ _ Hvd) as Ha. apply get_at_spec in E as (_ & (Ed & _) & Hf & Hm & _); [|done..]. exists t. split; [|by constructor; cbn; rewrite ?Ed].
    assert (Eo : view_of d m !! k = o) by (by eapply found_agrees; [| | |apply Hag]). rewrite <- Eo. constructor. by rewrite Hv, Hvd.
  - apply cursor_at_spec in E as (_ & (Ed & _) & -> & _); [|done]. exists (mkSpec (contents t) (copies t) (<[i := (view_of (default (delta (overlay (branch s))) d) m, lower, upper)]> (scans t))). split.
    + constructor. destruct v as [v|]; cbn in Hvd |- *; [|injection Hvd as <-; by rewrite Hc]. apply fmap_Some in Hvd as (d' & Hd' & ->). by rewrite Hv, Hd'.
    + constructor; cbn; [by rewrite Ed|done|]. intros j. destruct (decide (j = i)) as [->|]; [by rewrite !lookup_insert_eq|by rewrite !lookup_insert_ne].
  - pose proof (rn_cursors _ Hs _ _ Hcur) as Hok. apply move_spec in E as (_ & (Ed & _) & Et & row & -> & Hr & _); [|done..]. exists t. split.
    + econstructor; [by rewrite Hi, Hcur|]. cbn [set_row c_row]. eapply moved_agrees; [apply Hok|exact Hr|done|]. intros k Hk. apply Hag. rewrite Et. by apply (cu_marked _ _ Hok).
    + constructor; cbn; [by rewrite Ed|done|]. intros j. destruct (decide (j = i)) as [->|]; [by rewrite Hi, Hcur, lookup_insert_eq|by rewrite lookup_insert_ne].
  - exists t. split; [constructor|by constructor].
  - apply fork_spec in E as (_ & Ed & _); [|done]. exists t. split; [constructor|]. by constructor; cbn; rewrite ?Ed.
Qed.

Lemma run_steps_ok s es s' : run_steps s es s' -> run_ok s -> run_ok s' /\ step_ok (branch s) (branch s').
Proof.
  induction 1 as [s|s e s1 es s2 Hst Hsts IH]; intros Hs; [by split; [|reflexivity]|]. destruct (run_step_ok _ _ _ Hs Hst) as (Hs1 & Hok & _). destruct (IH Hs1). split; [done|by etransitivity].
Qed.

Lemma sim_steps m0 m s es s' : run_steps s es s' -> run_ok s -> failed_execution (overlay (branch s')) = false ->
  (forall db, snapshot (base (branch s)) = Some db -> rocks_map db = m0) -> agrees (touched (overlay (branch s'))) m m0 -> forall t, sim m s t ->
  exists t', spec_steps t es t' /\ sim m s' t'.
Proof.
  induction 1 as [s|s e s1 es s2 Hst Hsts IH]; intros Hs Hf Hdb Hag t Ht; [exists t; by split; [constructor|]|].
  destruct (run_step_ok _ _ _ Hs Hst) as (Hs1 & Hok & Hnf).
  destruct (run_steps_ok _ _ _ Hsts Hs1) as [_ Hrest].
  assert (Hf1 : failed_execution (overlay (branch s1)) = false). { destruct (failed_execution (overlay (branch s1))) eqn:E; [|done]. by rewrite (so_failed _ _ Hrest E) in Hf. }
  destruct (sim_step m0 m s e s1 t) as (t1 & Hst1 & Ht1); [done|done|by apply Hnf|done| |done|].
  { intros k Hk. apply Hag. apply (so_touched _ _ Hrest); [apply (rn_branch _ Hs1)|done]. }
  destruct (IH Hs1 Hf) with (t := t1) as (t2 & Hst2 & Ht2); [|done|done|exists t2; by split; [econstructor|]].
  intros db Hsn. apply Hdb. by apply (so_snapshot _ _ Hok).
Qed.

(** ** Publication *)

Lemma prepare_commit_spec b plan b' : prepare_commit b = (Ok plan, b') ->
  failed_execution (overlay b) = false /\
  plan = mkPlan (source (base b)) (sequence (base b)) (generation (overlay b)) (touched (overlay b)) (delta_ops (delta (overlay b))).
Proof.
  intros (b1 & E & _)%observe_spec. apply bind_cases in E as [(u & b2 & [-> Hf]%check_spec & Ef)|(r0 & _ & _ & Hr & _)]; [|by destruct (Hr plan)].
  apply bind_cases in Ef as [(u' & b2 & [-> Ho]%check_spec & Ef)|(r0 & _ & _ & Hr & _)]; [|by destruct (Hr plan)]. injection Ef as <- _. by apply negb_true_iff in Hf.
Qed.

Lemma capture_ok c d l b : limits_fit l -> 0 <= max_delta_bytes l -> 0 <= max_delta_entries l -> capture c d l = inr b ->
  run_ok (mkRun b ∅ ∅) /\ snapshot (base b) = Some (rocks d) /\ sequence (base b) = latest_sequence_number (rocks d) /\ delta (overlay b) = no_delta.
Proof.
  intros Hl H1 H2. unfold capture, execution_snapshot, lock_writes. destruct (latched d); [done|]. intros [= <-]. cbn. split; [|done]. constructor; cbn; [|intros *; by rewrite lookup_empty..].
  constructor; cbn; [done|by apply no_delta_ok| |done]. intros db i es _ Hi. by apply not_elem_of_nil in Hi.
Qed.

(** C7. Published executions are serializable.  From a database whose ledger records
    no write newer than its last (as from opening on), a branch is captured under limits that fit a [u64] and runs any
    sequence of point reads, batches, views, cursor steps and forks, while other
    writers write the database, whole or confined to prefixes.  If its plan is then
    accepted, no operation of the branch had failed, and the same sequence run alone
    on the database the plan was published to returns the same results and leaves the
    database the publication left. *)
Theorem publication_serializable c d0 l b0 evs s b' plan d1 u d2 :
  ledger_ok d0 -> limits_fit l -> 0 <= max_delta_bytes l -> 0 <= max_delta_entries l ->
  capture c d0 l = inr b0 -> run_steps (mkRun b0 ∅ ∅) evs s -> prepare_commit (branch s) = (Ok plan, b') ->
  rtc db_step d0 d1 -> commit plan d1 = (inr u, d2) ->
  exists t, spec_steps (mkSpec (rocks_map (rocks d1)) ∅ ∅) evs t /\ rocks_map (rocks d2) = contents t.
Proof.
  intros Hl0 Hl H1 H2 Hcap Hrun [Hf Hplan]%prepare_commit_spec Hdb Hcom. destruct (capture_ok _ _ _ _ Hl H1 H2 Hcap) as (Hrun0 & Hsnap & Hseq & Hdel).
  destruct (run_steps_ok _ _ _ Hrun Hrun0) as [Hs Hok]. cbn [branch] in Hok. unfold commit, lock_writes in Hcom. destruct (latched d1) eqn:Hlat; [done|].
  pose proof (steps_since _ _ _ _ Hdb Hlat (since_start d0 Hl0)) as Hsince. rewrite Hplan in Hcom. cbn in Hcom. rewrite (proj2 (so_source _ _ Hok)), Hseq in Hcom.
  destruct (commit_finds_touched _ _ _ _ _ _ _ _ Hsince Hcom) as [Hag Hmap].
  destruct (sim_steps (rocks_map (rocks d0)) (rocks_map (rocks d1)) _ _ _ Hrun Hrun0 Hf) with (t := mkSpec (rocks_map (rocks d1)) ∅ ∅) as (t & Hsp & Hsim).
  - cbn [branch]. intros db Hs'. rewrite Hsnap in Hs'. by injection Hs' as <-.
  - exact Hag.
  - constructor; cbn; [by rewrite Hdel, view_no_delta|intros; by rewrite !lookup_empty..].
  - exists t. split; [done|]. by rewrite Hmap, (sim_contents _ _ _ Hsim).
Qed.

(** C40. Reads of a branch are exact, on a well-formed branch (as every operation from
    a capture on leaves it) whose snapshot is held, with a cursor opened on it.  A
    point read returns what the writes of the branch make of the captured database, a
    cursor step the nearest such entry in its bounds and direction, whichever iterator
    it reuses and with or without the floor guard; when a read fails, the branch is
    marked, the cursor shows no row, and the cause is a limit, a closed branch, an
    expired snapshot, or the database. *)
Theorem branch_reads_exact c b db key cur rev incl :
  branch_ok b -> snapshot (base b) = Some db -> cursor_ok b cur ->
  match get c key b with
  | (Ok o, _) => o = view_of (delta (overlay b)) (rocks_map db) !! key
  | (_, b') => failed_execution (overlay b') = true /\
      (barred key b \/ get_refused c (delta (overlay b)) key b \/ exists v, points (delta (overlay b)) !! key = Some (Some v) /\ oversized b (key, v))
  end /\
  match position_cursor c cur key rev incl b with
  | (Ok _, (cur', _)) => nearest rev (fun e => view_of (c_delta cur) (rocks_map db) !! e.1 = Some e.2 /\ ahead (c_lower cur) (c_upper cur) key rev incl e.1) (c_row cur')
  | (_, (cur', b')) => c_row cur' = None /\ failed_execution (overlay b') = true /\ (barred key b \/ refused c (c_delta cur) (c_lower cur) (c_upper cur) b)
  end.
Proof.
  intros Hb Hs Hc. pose proof (ok_apart _ _ (br_delta _ Hb)) as Ha. assert (Hdb : forall db', snapshot (base b) = Some db' -> rocks_map db' = rocks_map db) by (intros db' Hs'; congruence). split.
  - destruct (get c key b) as [r b'] eqn:E. apply get_at_spec in E as (_ & _ & Hr); [|done..]. destruct r as [o|e|]; [|exact Hr..]. destruct Hr as [Hr _]. symmetry. by eapply found_agrees.
  - destruct (position_cursor c cur key rev incl b) as [r [cur' b']] eqn:E. apply move_spec in E as (_ & _ & _ & row & -> & Hr); [|done..]. destruct r as [o|e|]; [|by destruct Hr as (-> & ? & ?)..].
    destruct Hr as [Hr _]. cbn [set_row c_row]. by eapply moved_agrees; [apply Hc|exact Hr| |].
Qed.

(** Batches are atomic.  A batch that succeeds takes the branch's view to what its
    mutations, in order, make of it, over every database, and keeps the delta within
    its limits with disjoint ranges and an exact byte count; one that fails leaves
    the delta as it was and marks the branch, which can then not be published. *)
Theorem branch_batches_atomic b muts r b' :
  branch_ok b -> apply muts b = (r, b') ->
  branch_ok b' /\
  match r with
  | Ok _ => forall m, view_of (delta (overlay b')) m = foldl apply_kv (view_of (delta (overlay b)) m) muts
  | _ => delta (overlay b') = delta (overlay b) /\ forall plan b'', prepare_commit b' <> (Ok plan, b'')
  end.
Proof.
  intros Hb E. apply apply_spec in E as (Hst & _ & _ & Hr); [|done]. split; [by apply (so_ok _ _ Hst)|].
  destruct r as [u|e|]; [by destruct Hr as (_ & _ & ?)|..]; destruct Hr as [[Hd _] Hf]; (split; [done|]; intros plan b'' [Hn _]%prepare_commit_spec; congruence).
Qed.
End publication.
