(* ===== verification/OverlayDemo.v ===== *)
(** * A database in memory, and executions on it

    An instance of RocksDB as a map with a sequence number, which satisfies the laws,
    and concrete executions on it. *)

From Stdlib Require Import Strings.Byte Sorted.
From stdpp Require Import gmap sorting.
From S2P Require Import Prelude Bytes TreeStore TreeStoreOrder Database DatabaseCorrect Overlay OverlayDelta OverlayCursor OverlayReads OverlayCorrect Publication.

Module DemoRocks.
#[export] Instance api : RocksDb := {|
  Rdb := gmap bytes bytes * Z;
  latest_sequence_number db := db.2;
  rocks_get db k := Ok (db.1 !! k);
  rocks_iterator db lo hi := Ok (List.filter (fun e => in_range lo hi e.1) (in_order db.1));
  rocks_write db ops := (Ok tt, (foldl apply_kv db.1 ops, db.2 + Z.of_nat (length ops))) |}.
#[export] Program Instance api_lawful : LawfulRocks := {| rocks_map db := db.1 |}.
Next Obligation. by intros db k r [= <-]. Qed.
Next Obligation.
  intros db lo hi es [= <-]. split; [apply rising_filter, in_order_rising|]. intros k v. by rewrite elem_filterb, elem_in_order.
Qed.
Next Obligation. by intros db ops u db' [= _ <-]. Qed.
Next Obligation. intros db ops u db' [= _ <-]. cbn. split; [lia|]. intros Hn. destruct ops; [done|]. cbn. lia. Qed.

(** Two records and the limits of a branch. *)
Definition k1 : bytes := [x01; x02; x07].
Definition k2 : bytes := [x01; x02; x09].
Definition other : bytes := [x08; x00; x01].
Definition d0 : CoordinatedDb := open_database ({[k1 := [x0a]; k2 := [x0b]]}, 5) 1.
Definition lim : OverlayLimits := mkLimits 1000 100 200 1000 100 4.
Definition clk : Clock := mkClock 0 10.
Definition b0 : Branch := match capture clk d0 lim with inr b => b | inl _ => mkBranch (mkPinned None [] 0 0 0) (mkOverlay lim true false no_delta 0 (mkBudget 0 0) 0 no_prefixes) end.

(** The branch reads a record, deletes it, and scans. *)
Definition muts : list kv_op := [KDelete k1; KPut [x01; x02; x08] [x0c]].
Definition b1 : Branch := (get clk k1 b0).2.
Definition b2 : Branch := (apply muts b1).2.
Definition cur0 : OverlayCursor := mkCursor (delta (overlay b2)) [x01; x02] [x01; x03] None false.
Definition b3 : Branch := (cursor [x01; x02] [x01; x03] b2).2.
Definition moved : outcome unit * (OverlayCursor * Branch) := position_cursor clk cur0 [x01; x02] false true b3.
Definition evs : list event := [EGet k1 (Some [x0a]); EApply muts; EOpen 0 None false [x01; x02] [x01; x03]; EMove 0 [x01; x02] false true (Some ([x01; x02; x08], [x0c]))].
Definition s4 : Run := mkRun moved.2.2 ∅ (<[0%nat := moved.2.1]> (<[0%nat := cur0]> ∅)).
(** Meanwhile another writer writes under a prefix of its own. *)
Definition side : DisjointBatch := mkDisjoint [(x08, x00)] [(x08, x00)] [KPut other [x0d]].
Definition d1 : CoordinatedDb := (write_disjoint d0 side).2.
Definition plan : PreparedOverlayCommit := mkPlan 1 5 1 (touched (overlay (branch s4))) (delta_ops (delta (overlay (branch s4)))).
Definition d2 : CoordinatedDb := (commit plan d1).2.

Lemma pair_fst {A B} (p : A * B) a : p.1 = a -> p = (a, p.2).
Proof. intros <-. apply surjective_pairing. Qed.

Lemma captured_b0 : capture clk d0 lim = inr b0.
Proof. reflexivity. Qed.
Lemma b0_ok : run_ok (mkRun b0 ∅ ∅).
Proof. apply (capture_ok clk d0 lim); [|done..]. unfold limits_fit. by vm_compute. Qed.
Lemma runs : run_steps (mkRun b0 ∅ ∅) evs s4.
Proof.
  eapply run_cons; [apply (run_get _ clk _ _ b1), pair_fst; vm_compute; reflexivity|].
  eapply run_cons; [apply (run_apply _ _ tt b2), pair_fst; vm_compute; reflexivity|].
  eapply run_cons; [apply (run_open _ 0 None None false _ _ cur0 b3); [reflexivity|apply pair_fst; vm_compute; reflexivity]|].
  eapply run_cons; [|apply run_nil].
  assert (Er : Some ([x01; x02; x08], [x0c]) = c_row moved.2.1) by (vm_compute; reflexivity). rewrite Er.
  assert (Em : position_cursor clk cur0 [x01; x02] false true b3 = (Ok tt, (moved.2.1, moved.2.2))).
  { change (position_cursor clk cur0 [x01; x02] false true b3) with moved. rewrite <- surjective_pairing. apply pair_fst. vm_compute. reflexivity. }
  exact (run_move (mkRun b3 ∅ (<[0%nat := cur0]> ∅)) clk 0 cur0 _ _ _ tt _ _ eq_refl Em).
Qed.
Lemma side_written : rtc db_step d0 d1.
Proof.
  apply rtc_once. apply (step_disjoint d0 side (inr tt) d1); [|apply pair_fst; vm_compute; reflexivity].
  apply Forall_singleton. cbn. intros k. rewrite bool_decide_eq_true. intros ->. eexists. split; [reflexivity|]. left.
Qed.
End DemoRocks.

Section demo.
Import DemoRocks.

Lemma publication_serializable_witness :
  exists t, spec_steps (mkSpec (rocks_map (rocks d1)) ∅ ∅) evs t /\ rocks_map (rocks d2) = contents t.
Proof.
  apply (publication_serializable clk d0 lim b0 evs s4 (prepare_commit (branch s4)).2 plan d1 tt d2).
  - apply open_database_ok.
  - unfold limits_fit. vm_compute. discriminate.
  - vm_compute. discriminate.
  - vm_compute. discriminate.
  - exact captured_b0.
  - exact runs.
  - apply pair_fst. vm_compute. reflexivity.
  - exact side_written.
  - apply pair_fst. vm_compute. reflexivity.
Defined.

Lemma branch_reads_exact_witness :
  (get clk k2 (branch s4)).1 = Ok (Some [x0b]) /\ Some [x0b] = view_of (delta (overlay (branch s4))) (rocks_map (rocks d0)) !! k2.
Proof.
  assert (Er : (get clk k2 (branch s4)).1 = Ok (Some [x0b])) by (vm_compute; reflexivity). split; [exact Er|].
  destruct (run_steps_ok _ _ _ runs b0_ok) as [Hok _]. assert (Hs : snapshot (base (branch s4)) = Some (rocks d0)) by (vm_compute; reflexivity).
  pose proof (branch_reads_exact clk (branch s4) (rocks d0) k2 moved.2.1 false true (rn_branch _ Hok) Hs (rn_cursors _ Hok 0 _ eq_refl)) as [Hg _].
  rewrite (pair_fst _ _ Er) in Hg. exact Hg.
Defined.

Lemma branch_batches_atomic_witness :
  (apply muts b1).1 = Ok tt /\ forall m, view_of (delta (overlay b2)) m = foldl apply_kv (view_of (delta (overlay b1)) m) muts.
Proof.
  assert (Er : (apply muts b1).1 = Ok tt) by (vm_compute; reflexivity). split; [exact Er|].
  assert (Hb : branch_ok b1).
  { apply (rn_branch (mkRun b1 ∅ ∅)). eapply (run_step_ok (mkRun b0 ∅ ∅)); [exact b0_ok|]. apply (run_get (mkRun b0 ∅ ∅) clk k1 (Some [x0a]) b1), pair_fst. vm_compute. reflexivity. }
  destruct (branch_batches_atomic b1 muts (Ok tt) b2 Hb) as [_ Hv]; [apply pair_fst; exact Er|]. exact Hv.
Defined.
End demo.
